(* ===== verification/_CoqProject ===== *)
-Q . S2P
Prelude.v
Error.v
Types.v
Document.v
Glob.v
Validate.v
Snapshot.v
Evaluator.v
PolicyDiff.v
Token.v
Locator.v
Registry.v
PresenceOp.v
Gate.v
Coordinator.v
Validators.v
Bytes.v
Patterns.v
Agents.v
AuditTypes.v
AuditLog.v
AuditInstance.v
AuditSpec.v
AuditTheorems.v
Text.v
Broker.v
Fs.v
Crypto.v
Storage.v
StorageSpec.v
VaultInstance.v
StorageTheorems.v
Keychain.v
Recovery.v
Core.v
CoreSpec.v
Keyring.v
KeyringSpec.v
Transit.v
TransitSpec.v
Lifecycle.v
LifecycleSpec.v
CoreInstance.v
LifecycleTheorems.v
Privacy.v
PrivacySpec.v
Paths.v
ScanTypes.v
Scan.v
ScanSpec.v
Plan.v
PlanSpec.v
PlanTheorems.v
Apply.v
ApplySpec.v
ApplyInstance.v
ApplyTheorems.v
Json.v
Exposure.v
ExposureTheorems.v
GitHub.v
Loopback.v
Scopes.v
AgentImport.v
Mcp.v
McpInstance.v
McpTools.v
McpSession.v
McpTheorems.v
McpSessionTheorems.v
Approvals.v
Clicks.v
DesktopGate.v
DesktopSpec.v
DesktopOtp.v
DesktopInv.v
DesktopTheorems.v
Wake.v
Session.v
