(* ===== verification/Prelude.v ===== *)
(** * Sovereign Vault: a verification development

    Sovereign Vault keeps secrets on the owner's machine and mediates what agents
    and models may do with them.  This library models the parts of it that decide, and
    proves what makes each of them correct: the policy runtime (crates/sv-runtime), human
    presence (crates/sv-presence), pattern packs (crates/sv-patterns), the audit log
    (crates/sv-audit), the vault itself with its storage, keyring, custody and broker
    (crates/sv-core, sv-storage, sv-crypto, sv-keychain, sv-recovery), masking
    (crates/sv-privacy), the scanner, the exposure report and the remediation pipeline
    (crates/sv-scan, sv-exposure, sv-remediate), the MCP server (crates/sv-mcp) and the
    decisions of the desktop application (apps/desktop/src-tauri).

    ** How the program's parts interact

    A vault is a directory.  sv-storage seals files under an authenticated manifest that
    gives each container its mode; sv-core keeps the data keys in a keyring, sealed under
    the key that a passphrase, the keychain (sv-keychain) or a recovery phrase
    (sv-recovery) gives, and changes custody or rotates keys in journalled transactions
    over several files.  What the vault did is recorded in the audit log, a chain of
    authenticated records in rotated segment files under a signed checkpoint.  The broker
    sends requests with a stored credential to allowed hosts and hides the credential from
    what comes back.

    An agent reaches the vault through sv-mcp: a handshake that must be local, a pairing
    with a credential of [agents.json], then tool calls, each limited in rate, checked
    against the agent's scopes, authorized by the desktop, recorded before and after, and
    masked by sv-privacy where the container asks for it.  The desktop authorizes by a
    click, a native prompt or a one-time code: its approval controller runs native prompts
    through the presence coordinator for an operation described and digested by sv-presence,
    and commits the result through the request's gate.  The desktop's own operations pass a
    gate of the same kind, and what they do with the pass is checked again under the lock of
    the vault's handle.  What it decides is offered to the audit log, whose failures the
    desktop ignores.  A session ends by its limits or by a lock, which ends everything that is
    pending; wake requests, approved behind the same gate, and leases let an agent ask for
    attention meanwhile.

    A policy document of the runtime is parsed, checked and frozen into a snapshot with a
    digest, against which each request is decided; what a request may touch is named by
    opaque tokens, resolved in two phases by the reference registry, and by public
    locators that are exchanged for tokens.  The scanner walks a project and reports
    credentials; the exposure report looks them up in the history of the repository and on
    GitHub; the remediation pipeline plans edits, and replaces what was approved after the
    vault holds the original.  Pattern packs add detection rules with checksum validators.

    ** Files

    Shared:
    - [Prelude]: results and their [let?] notation in [sv_scope], the [sv] hint
      database, the tactics [inv_result] and [to_prop], and the generic facts the
      components share: boolean list predicates, stable sorting, [chunks], bits as
      arithmetic, machine-integer addition, strings as UTF-8 bytes and characters.
    - [Bytes]: loops over bytes ([scan_while]), digits and hexadecimal.  [Text]: the
      string functions of the standard library.  [Paths]: [std::path] on Unix.
      [Json]: serde_json values and the monad of a threaded state.
    - [Fs]: the vault's directory, the monad [M] of operations under faults with its
      calculus ([wp], [reads]).  [Crypto]: sv-crypto over the class [Prims].

    Policy runtime (crates/sv-runtime):
    - [Error], [Types]: [RuntimeError]; identifiers, kinds and the decision lattices.  The
      class [DeriveOrd] is the order [#[derive(Ord)]] gives an enumeration.
    - [Document], [Validate], [Snapshot], [Glob]: the document records, every check in the
      order of [check], the [PolicyStore] machine, and [matches] as it fills its table.
    - [Evaluator], [PolicyDiff]: [evaluate], with the order-free [decide_spec] it refines;
      [diff] and [has_risk_increase].
    - [Token], [Locator], [Registry]: [ReferenceToken]; [PublicLocator] and
      [LocatorLedger]; [ReferenceRegistry], whose [world_step] interleaves calls,
      settlements and drops.

    Presence and patterns:
    - [PresenceOp], [Gate], [Coordinator]: [OpDescriptor] and the verdict types;
      [GateState]; [PresenceCoordinator], whose [step] interleaves owners' calls, polls of
      [verify] and the end of native prompts.
    - [Validators], [Patterns]: the checksum validators; [validate_pack] and [match_all].

    The vault:
    - [Agents]: the calls on [agents.json].
    - [AuditTypes], [AuditLog]: events, records, checkpoints and their tags; the
      operations of the log under faults.  [AuditInstance] satisfies its laws;
      [AuditSpec] has the layout of a log on disk, its history and the states of an
      interrupted append; [AuditTheorems] the theorems.
    - [Broker]: [execute] of sv-core/src/broker.rs over the class [Net].
    - [Storage], [StorageSpec], [StorageTheorems]: containers, files and the manifest.
      [VaultInstance] is a concrete environment.
    - [Keychain], [Recovery]: the credential store, and the recovery bundle.
    - [Core], [Keyring], [Transit], [Lifecycle]: sv-core's file helpers, the keyring, the
      stores of wrapped material, and the custody transactions with their journal.
      [CoreSpec], [KeyringSpec] (the abstract ring), [TransitSpec], [LifecycleSpec] (the
      states a change of passphrase can leave) specify them, [CoreInstance] is a concrete
      environment, [LifecycleTheorems] has the theorems.
    - [Privacy], [PrivacySpec]: detection and masking.

    Projects:
    - [ScanTypes], [Scan], [ScanSpec]: rules, detectors, filters, walks.
    - [Exposure], [ExposureTheorems], [GitHub]: the history of a repository, with a small
      one as example, and GitHub's alerts.
    - [Plan], [PlanSpec], [PlanTheorems]: plans, their verification and preview, whose line
      diff is minimal.
    - [Apply], [ApplySpec], [ApplyTheorems]: application, restoration
      and ingestion on a tree that others may change; [ApplyInstance] is a small project.

    MCP server (crates/sv-mcp):
    - [Loopback], [Scopes], [AgentImport]: the handshake, scopes and
      their enforcement, the envelope of exported agents.
    - [Mcp], [McpTools], [McpSession]: [call_tool] with every tool and the rate limiter;
      the tools' descriptors; pairing, dispatch and connections.  [McpInstance] is a vault
      in memory; [McpTheorems] and [McpSessionTheorems] have the theorems.

    Desktop (apps/desktop/src-tauri/src/lib.rs and presence.rs):
    - [Approvals], [Clicks], [DesktopGate]: the approval controller with its one-time
      codes and its clicks; the gate of desktop operations, locking, authorization, and
      [desk_step], one suspension-free part of one call.
    - [DesktopSpec], [DesktopOtp], [DesktopInv]: what the
      steps may change, and the invariants; [DesktopTheorems] has the theorems.
    - [Wake]: wake requests and leases, with the desk whose gate an approval passes.
      [Session]: the session timer and its monitor.

    ** How code becomes definitions

    A Rust function is a Rocq function; [&mut self] becomes the new state in the
    result, [Result] the type [result] with the error type of the module, and a
    panic, where one is possible, a value.  Machine integers are [N] with their
    bound written out where it matters (the [u32] use counters stop at [u32_max]).
    Strings are byte strings; [chars] decodes them where the code works on
    characters.  Maps are stdpp's [gmap], ordered sets of names are iterated in
    byte order.  Calls of the operating system consume a list of faults, one per call,
    which says whether each succeeds and what progress a failing one makes; a crash is
    the failure of all later calls.  Concurrency is interleaving of atomic steps: a call
    under a mutex is one step, an [async] function one step per suspension point; where a
    mutex is given up and taken again, another task may have changed what it guards.
    Logs of effects are ghosts: they say what was emitted, sent or recorded, latest first.

    ** Parameters

    Code outside the repository is a parameter: SHA-256, HMAC, HKDF, AES-GCM, Argon2 and
    Ed25519 ([Prims]), the random generator (the bytes it wrote, or failure), TOML and JSON
    (de)serialization, the regex engine, hash map iteration order, the clock, the native
    prompt, which may end at any time with any result, the word list ([Bip39]), the
    credential store ([Backend]), URL parsing, DNS and the HTTP client ([Net]), git, the
    [ignore] walker, and paths as the system sees them.  Where one part of the program sees
    another through an interface, that is a class too: the vault behind the remediation
    ([VaultSink]) and behind the MCP server ([VaultFacade]), the approval controller, audit
    sink and authenticator of the server.  The hypotheses made of them are named in the
    classes of laws ([AuditLaws], [PrimLaws] and the like): serde reads back what it writes,
    HMAC gives 32 bytes, a cipher opens what it sealed; the instance files satisfy them.  No
    property assumes that a hash has no collision or a cipher no forgery: [digest_binds],
    [history_tamper_evident], [context_binds_request] and [envelope_bound_to_its_path] give
    it instead, and [passphrase_change_recoverable] asks of the one run it is about that no
    key it left opens with two of the passphrases used.  That a sealed key opens under one
    key only ([KeyCommitting]) is an idealisation, used for lemmas on sealing the stores
    again and by the small cipher of the examples.  The broker's switch, an environment
    variable that sv-core reads, is part of the vault behind the server; [calls_follow_schema]
    supposes that it keeps its value.

    ** What the theorems show

    - The vault: a change of passphrase that fails or crashes anywhere, in a vault without an
      unfinished transaction, is completed or rolled back by the next unlock; every operation of the keyring is the operation on an
      abstract ring of data keys; a write is all or nothing and an envelope opens only at
      its place; the policy of a container survives every fault; a recovery phrase restores
      the data key.  Revoked agents stay revoked.  An append to the audit log refines the
      extension of a history and is all or nothing; a log that verifies holds exactly it.
    - The broker sends only to allowed hosts whose addresses are all public, and the
      credential is in nothing it returns but where the findings say.
    - MCP: a tool call touches the vault only as the approved request describes, after
      scopes, authorization and a recorded attempt; a success is recorded; reads of an
      anonymized container are masked; a connection pairs first; scopes only narrow; the
      context binds the name it was made with and the arguments; calls follow the listed
      schema.
    - Desktop: an authorization is earned by a click, a verification or a code of this very
      call in this session, which lets nothing else through, and its record was offered to
      the audit log; a lock ends everything pending; a pass is earned, runs only in its
      session, and what it did or why it was refused is offered or handed over for the log;
      five wrong codes at most are tried; a lease is for one use of one operation after a
      person's approval of the wake request, through the gate; the check that ends a session
      comes at most thirty seconds after its limits, and then only waits for the handle.
    - Remediation: no file is replaced or removed before the vault holds its bytes, its
      record and its journal entry; every file keeps its content or gets the approved one; a
      restoration undoes it, and never overwrites another's edit of a text.
    - Scanning: no secret of the reviewed formats is missed; masking replaces exactly what was
      found; GitHub's alerts are complete or reported as unknown, and paging ends.
    - Policy, references, presence: [evaluate] refines the declarative decision; uses are
      accounted for exactly and revocation is final; authentication stems from an
      uninterrupted verification of the same attempt and digest, one prompt at a time.
    - Many lemmas record where the code departs from its own documentation or from what it
      means to do, among them [port_hides_wildcard_host], [passphrase_change_loses_rotation],
      [redaction_gap], [xml_scan_panics], [second_edit_is_lost], [ingestion_loses_edit],
      [pushed_secret_reported_local], [context_confuses_tools], [unmasked_after_change],
      [masked_header_hides], [approval_without_record], [monitor_locks_when_locked] and
      [lease_arguments_ambiguous].

    ** Recursion and fuel

    Every definition is total.  [chunks] uses fuel, the length of its list
    ([chunks_fuel_enough]); [scan_while] and the loops of the detectors the length of the
    text, since each turn advances; the walk of the line diff the lengths of its two lists;
    the paging of GitHub the fuel its caller names, and [paging_terminates] shows when it is
    enough; the reader of strings in [AuditInstance] the length of the string
    ([pos_str_pos]).  All other recursion is structural.  Statements about histories
    quantify over all finite ones.

    ** Not modelled

    The command line, the HTTP transport (glue around the MCP server), the bindings to the
    prompts of each operating system, the evaluation and validation tools, and of the desktop
    application the commands that look a vault up, pass the modelled gate and call a modelled
    component, with their views, dialogs, tray and notifications.  Of sv-core, the methods
    that only forward under a lock.  Of the audit log and the storage, temporary files and
    the Windows replacement protocol.  Of sv-mcp, WebSocket frames, the buffer limits and
    [fresh_pairing_secret].  Of [types.rs] in sv-runtime, the records that no operation of
    this commit uses. *)
From stdpp Require Export base tactics option list gmap strings sorting.
From Stdlib Require Export ZArith Lia Bool Ascii.

(** ** Notation scope, results and errors *)

Declare Scope sv_scope.
Delimit Scope sv_scope with sv.
Open Scope sv_scope.

(** Rust's [Result<T, E>]. *)
Inductive result (T E : Type) : Type :=
| Ok (v : T)
| Err (e : E).
Arguments Ok {T E} v.
Arguments Err {T E} e.

Definition rbind {A B E} (m : result A E) (k : A → result B E) : result B E :=
  match m with Ok v => k v | Err e => Err e end.

(** [let? x := m in k] is Rust's [let x = m?; k]. *)
Notation "'let?' x ':=' m 'in' k" := (rbind m (fun x => k))
  (at level 10, x pattern, m at level 100, k at level 200) : sv_scope.

(** [Option::ok_or]. *)
Definition ok_or {A E} (o : option A) (e : E) : result A E :=
  match o with Some v => Ok v | None => Err e end.

Definition is_ok {A E} (r : result A E) : bool :=
  match r with Ok _ => true | Err _ => false end.

(** [guard? b e k]: [if b { return Err(e) } k]. *)
Definition reject_if {A E} (b : bool) (e : E) (k : result A E) : result A E :=
  if b then Err e else k.

#[global] Instance result_eq_dec {A E} `{EqDecision A, EqDecision E} :
  EqDecision (result A E).
Proof. solve_decision. Defined.

(** [for x in l { f(x)?; }]. *)
Fixpoint try_for_each {A E} (f : A → result unit E) (l : list A) : result unit E :=
  match l with
  | [] => Ok tt
  | x :: l' => let? _ := f x in try_for_each f l'
  end.

(** ** Automation *)

Create HintDb sv.

(** Inverts a chain of [rbind], [ok_or] and [reject_if] that is known to give
    a particular result. *)
Ltac inv_result :=
  repeat match goal with
  | H : Ok _ = Ok _ |- _ => injection H as H; try subst
  | H : Err _ = Err _ |- _ => injection H as H; try subst
  | H : Ok _ = Err _ |- _ => discriminate H
  | H : Err _ = Ok _ |- _ => discriminate H
  | H : rbind ?m _ = _ |- _ => destruct m eqn:?; simpl in H
  | H : ok_or ?o _ = _ |- _ => destruct o eqn:?; simpl in H
  | H : reject_if ?b _ _ = _ |- _ => destruct b eqn:?; simpl in H
  end.

(** Turns boolean hypotheses into propositions. *)
Ltac to_prop :=
  repeat match goal with
  | H : (_ && _)%bool = true |- _ => apply andb_true_iff in H as [? ?]
  | H : (_ || _)%bool = false |- _ => apply orb_false_iff in H as [? ?]
  | H : negb _ = true |- _ => apply negb_true_iff in H
  | H : negb _ = false |- _ => apply negb_false_iff in H
  | H : bool_decide _ = true |- _ => apply bool_decide_eq_true_1 in H
  | H : bool_decide _ = false |- _ => apply bool_decide_eq_false_1 in H
  end.

Lemma try_for_each_Ok {A E} (f : A → result unit E) l :
  try_for_each f l = Ok tt ↔ ∀ x, x ∈ l → f x = Ok tt.
Proof.
  induction l as [|x l IH]; simpl.
  - split; [|done]. intros _ x []%elem_of_nil.
  - setoid_rewrite elem_of_cons. destruct (f x) as [[]|e] eqn:Hx; simpl.
    + rewrite IH. split; [intros H y [->|?]; auto|auto].
    + split; [done|]. intros H. rewrite H in Hx by auto. done.
Qed.

(** When every failure is the same error, the loop fails with it or succeeds. *)
Lemma try_for_each_cases {A E} (f : A → result unit E) (e : E) l :
  (∀ x, x ∈ l → f x = Ok tt ∨ f x = Err e) →
  try_for_each f l = Ok tt ∨ try_for_each f l = Err e.
Proof.
  induction l as [|x l IH]; simpl; [auto|]. intros H. setoid_rewrite elem_of_cons in H.
  destruct (H x) as [-> | ->]; auto.
Qed.

(** ** Machine integers *)

Definition u8_max : N := 255.
Definition u32_max : N := 4294967295.
Definition u64_max : N := 18446744073709551615.

(** [u32::checked_add]. *)
Definition checked_add_u32 (a b : N) : option N :=
  if (a + b <=? u32_max)%N then Some (a + b)%N else None.

Lemma checked_add_u32_Some a b c :
  checked_add_u32 a b = Some c ↔ c = (a + b)%N ∧ (a + b ≤ u32_max)%N.
Proof.
  unfold checked_add_u32. destruct (N.leb_spec (a + b) u32_max); split.
  - intros [= <-]. done.
  - intros [-> _]. done.
  - done.
  - intros [_ ?]. lia.
Qed.

(** [u64::checked_add] and [checked_sub]. *)
Definition checked_add_u64 (a b : N) : option N :=
  if (a + b <=? u64_max)%N then Some (a + b)%N else None.

Definition checked_sub (a b : N) : option N := if (b <=? a)%N then Some (a - b)%N else None.

Lemma checked_add_u64_le a b : (a + b ≤ u64_max)%N → checked_add_u64 a b = Some (a + b)%N.
Proof. intros H. unfold checked_add_u64. by rewrite (proj2 (N.leb_le _ _) H). Qed.

Lemma checked_sub_le a b : (b ≤ a)%N → checked_sub a b = Some (a - b)%N.
Proof. intros H. unfold checked_sub. by rewrite (proj2 (N.leb_le _ _) H). Qed.

(** ** Booleans over lists *)

Lemma existsb_Exists {A} (f : A → bool) l :
  existsb f l = true ↔ ∃ x, x ∈ l ∧ f x = true.
Proof.
  rewrite existsb_exists. setoid_rewrite <-list_elem_of_In. done.
Qed.

Lemma existsb_none {A} (f : A → bool) l :
  existsb f l = false ↔ ∀ x, x ∈ l → f x = false.
Proof.
  rewrite <-not_true_iff_false, existsb_Exists. split.
  - intros H x Hx. destruct (f x) eqn:E; [|done]. exfalso; eauto.
  - intros H (x & Hx & Hf). rewrite H in Hf; done.
Qed.

Lemma forallb_Forall {A} (f : A → bool) l :
  forallb f l = true ↔ ∀ x, x ∈ l → f x = true.
Proof.
  rewrite forallb_forall. setoid_rewrite <-list_elem_of_In. done.
Qed.

Lemma existsb_perm {A} (f : A → bool) l1 l2 :
  l1 ≡ₚ l2 → existsb f l1 = existsb f l2.
Proof.
  intros HP. apply eq_true_iff_eq. rewrite !existsb_Exists.
  by setoid_rewrite HP.
Qed.

Lemma filter_perm {A} (f : A → bool) l1 l2 : l1 ≡ₚ l2 → List.filter f l1 ≡ₚ List.filter f l2.
Proof.
  induction 1; simpl; repeat case_match; try done.
  - by constructor.
  - apply Permutation_swap.
  - by etrans.
Qed.

Lemma omap_perm {A B} (f : A → option B) l1 l2 : l1 ≡ₚ l2 → omap f l1 ≡ₚ omap f l2.
Proof.
  induction 1; simpl; repeat case_match; try done.
  - by constructor.
  - apply Permutation_swap.
  - by etrans.
Qed.

(** ** Stable sorting ([slice::sort_by] is stable) *)

Section sorting.
Context {A : Type} (le : A → A → bool).

(** Inserts [x] before the first element that is not strictly smaller. *)
Fixpoint insert_sorted (x : A) (l : list A) : list A :=
  match l with
  | [] => [x]
  | y :: l' => if le x y then x :: y :: l' else y :: insert_sorted x l'
  end.

Fixpoint sort_by (l : list A) : list A :=
  match l with
  | [] => []
  | x :: l' => insert_sorted x (sort_by l')
  end.

Lemma insert_sorted_perm x l : insert_sorted x l ≡ₚ x :: l.
Proof.
  induction l as [|y l IH]; simpl; [done|].
  destruct (le x y); [done|]. rewrite IH. apply Permutation_swap.
Qed.

Lemma sort_by_perm l : sort_by l ≡ₚ l.
Proof.
  induction l as [|x l IH]; simpl; [done|]. by rewrite insert_sorted_perm, IH.
Qed.

Lemma elem_of_sort_by x l : x ∈ sort_by l ↔ x ∈ l.
Proof. by rewrite sort_by_perm. Qed.

Lemma sort_by_fmap (f : A → A) l :
  (∀ x y, le (f x) (f y) = le x y) → sort_by (f <$> l) = f <$> sort_by l.
Proof.
  intros Hf. induction l as [|x l IH]; [done|]. cbn. rewrite IH.
  generalize (sort_by l). intros k. induction k as [|y k IHk]; [done|]. cbn. rewrite Hf.
  destruct (le x y); [done|]. by rewrite IHk.
Qed.

Context (le_total : ∀ x y, le x y = true ∨ le y x = true).
Context (le_trans : ∀ x y z, le x y = true → le y z = true → le x z = true).

Lemma insert_sorted_sorted x l :
  StronglySorted (λ a b, le a b = true) l →
  StronglySorted (λ a b, le a b = true) (insert_sorted x l).
Proof.
  induction 1 as [|y l Hl IH Hy]; simpl.
  - repeat constructor.
  - destruct (le x y) eqn:E.
    + constructor; [by constructor|]. constructor; [done|].
      eapply Forall_impl; [exact Hy|]; eauto.
    + constructor; [done|]. rewrite insert_sorted_perm.
      constructor; [|done]. destruct (le_total x y); congruence.
Qed.

Lemma sort_by_sorted l : StronglySorted (λ a b, le a b = true) (sort_by l).
Proof.
  induction l; simpl; [constructor|]. by apply insert_sorted_sorted.
Qed.

(** Elements that the order does not separate keep their relative order. *)
Lemma sort_by_stable (p : A → bool) l :
  (∀ x y, p x = true → p y = true → le x y = true) →
  List.filter p (sort_by l) = List.filter p l.
Proof.
  intros Hp. induction l as [|x l IH]; simpl; [done|].
  transitivity (List.filter p (x :: sort_by l)).
  - generalize (sort_by l). intros k. induction k as [|y k IHk]; simpl; [done|].
    destruct (le x y) eqn:E; [done|]. simpl. rewrite IHk. simpl.
    destruct (p x) eqn:Ex, (p y) eqn:Ey; try done.
    rewrite Hp in E; done.
  - simpl. by rewrite IH.
Qed.
End sorting.

#[export] Hint Resolve sort_by_perm : sv.

Lemma StronglySorted_mono {A} (R1 R2 : relation A) l :
  (∀ x y, R1 x y → R2 x y) → StronglySorted R1 l → StronglySorted R2 l.
Proof.
  intros Himp. induction 1 as [|x l _ IH Hx]; constructor; [done|].
  eapply Forall_impl; [exact Hx|]. auto.
Qed.

(** ** [slice::chunks] *)

Fixpoint chunks_fuel {A} (fuel n : nat) (l : list A) : list (list A) :=
  match fuel, l with
  | S fuel', _ :: _ => take n l :: chunks_fuel fuel' n (drop n l)
  | _, _ => []
  end.

(** A list has at most as many chunks as elements, so its length is fuel enough. *)
Definition chunks {A} (n : nat) (l : list A) : list (list A) := chunks_fuel (length l) n l.

Lemma chunks_fuel_enough {A} n (l : list A) fuel :
  0 < n → length l ≤ fuel → chunks_fuel fuel n l = chunks n l.
Proof.
  intros Hn. unfold chunks. remember (length l) as k eqn:Hk. revert l fuel Hk.
  induction k as [k IH] using lt_wf_ind. intros l fuel -> Hf.
  destruct l as [|x l]; [by destruct fuel|]. destruct fuel as [|fuel]; [simpl in Hf; lia|].
  simpl. f_equal. destruct n as [|n]; [lia|]. simpl.
  assert (length (drop n l) ≤ length l) as Hd by (rewrite length_drop; lia).
  rewrite (IH (length (drop n l))) by (simpl in *; lia).
  rewrite (IH (length (drop n l)) ltac:(simpl; lia) (drop n l) (length l)); auto.
Qed.

Lemma chunks_nil {A} n : chunks n (@nil A) = [].
Proof. done. Qed.

Lemma chunks_app {A} n (pre l : list A) :
  0 < n → length pre = n → chunks n (pre ++ l) = pre :: chunks n l.
Proof.
  intros Hn Hl. unfold chunks at 1. destruct pre as [|x pre]; [simpl in Hl; lia|].
  simpl. replace (x :: pre ++ l) with ((x :: pre) ++ l) by done.
  rewrite take_app_length' by done. rewrite drop_app_length' by done. f_equal.
  apply chunks_fuel_enough; [done|]. rewrite length_app. lia.
Qed.

Lemma chunks_short {A} n (l : list A) : l ≠ [] → length l ≤ n → chunks n l = [l].
Proof.
  intros Hne Hl. unfold chunks. destruct l as [|x l]; [done|]. simpl.
  destruct n as [|n]; [simpl in Hl; lia|]. simpl. simpl in Hl.
  rewrite take_ge by lia. rewrite drop_ge by lia. by destruct (length l).
Qed.

(** ** Bits as arithmetic *)

Lemma lor_shiftl_add a b k : (b < 2 ^ k)%N → N.lor (N.shiftl a k) b = (a * 2 ^ k + b)%N.
Proof.
  intros Hb. rewrite <-N.shiftl_mul_pow2.
  assert (N.land (N.shiftl a k) b = 0%N) as Hland.
  { apply N.bits_inj. intros i. rewrite N.land_spec, N.bits_0.
    destruct (N.lt_ge_cases i k) as [Hi|Hi]; [by rewrite N.shiftl_spec_low|].
    destruct (N.eq_dec b 0) as [->|Hb0]; [by rewrite N.bits_0, andb_false_r|].
    rewrite (N.bits_above_log2 b i), andb_false_r; [done|].
    apply N.lt_le_trans with k; [|done]. apply N.log2_lt_pow2; lia. }
  rewrite <-N.lxor_lor by done. by rewrite N.add_nocarry_lxor.
Qed.

(** ** Strings

    A Rust [&str] is its UTF-8 encoding, a Rocq [string]: equality, ordering,
    prefixes and splitting at an ASCII character act on bytes, as in Rust. *)

(** [str::strip_prefix]. *)
Fixpoint strip_prefix (p s : string) : option string :=
  match p, s with
  | EmptyString, _ => Some s
  | String a p', String b s' => if decide (a = b) then strip_prefix p' s' else None
  | String _ _, EmptyString => None
  end.

Definition starts_with (s p : string) : bool :=
  match strip_prefix p s with Some _ => true | None => false end.

Lemma strip_prefix_Some p s r : strip_prefix p s = Some r ↔ s = p +:+ r.
Proof.
  revert s. induction p as [|a p IH]; intros s; simpl.
  - split; [by intros [= ->]|by intros ->].
  - destruct s as [|b s]; [by split|].
    change (String a p +:+ r) with (String a (p +:+ r)).
    case_decide as Hab; [subst|].
    + rewrite IH. split; [by intros ->|by intros [= ->]].
    + split; [done|]. intros [= -> _]. done.
Qed.

Lemma strip_prefix_app p r : strip_prefix p (p +:+ r) = Some r.
Proof. by apply strip_prefix_Some. Qed.

#[export] Hint Resolve strip_prefix_app : sv.

(** [str::strip_suffix]. *)
Fixpoint strip_suffix (p s : string) : option string :=
  if decide (s = p) then Some EmptyString
  else match s with
       | EmptyString => None
       | String a s' => String a <$> strip_suffix p s'
       end.

Lemma str_app_length s t : String.length (s +:+ t) = String.length s + String.length t.
Proof.
  induction s as [|a s IH]; [done|].
  change (String a s +:+ t) with (String a (s +:+ t)). simpl. by rewrite IH.
Qed.

Lemma strip_suffix_app p r : strip_suffix p (r +:+ p) = Some r.
Proof.
  induction r as [|a r IH].
  - change (EmptyString +:+ p) with p. destruct p; cbn [strip_suffix]; by case_decide.
  - change (String a r +:+ p) with (String a (r +:+ p)). simpl.
    rewrite decide_False; [by rewrite IH|]. intros E. apply (f_equal String.length) in E.
    simpl in E. rewrite str_app_length in E. lia.
Qed.

(** [str::contains] of a single (ASCII) character. *)
Fixpoint str_contains (c : ascii) (s : string) : bool :=
  match s with
  | EmptyString => false
  | String a s' => bool_decide (a = c) || str_contains c s'
  end.

Lemma str_contains_app c s t : str_contains c (s +:+ t) = str_contains c s || str_contains c t.
Proof.
  induction s as [|a s IH]; [done|].
  change (String a s +:+ t) with (String a (s +:+ t)). simpl. by rewrite IH, orb_assoc.
Qed.

(** [s.split(c).next().unwrap_or("")]: everything before the first [c]. *)
Fixpoint split_first (c : ascii) (s : string) : string :=
  match s with
  | EmptyString => EmptyString
  | String a s' => if decide (a = c) then EmptyString else String a (split_first c s')
  end.

(** [s.rsplit(c).next().unwrap_or("")]: everything after the last [c]. *)
Fixpoint rsplit_first (c : ascii) (s : string) : string :=
  match s with
  | EmptyString => EmptyString
  | String a s' =>
      if str_contains c s' then rsplit_first c s'
      else if decide (a = c) then s' else String a s'
  end.

Lemma split_first_no c s : str_contains c s = false → split_first c s = s.
Proof.
  induction s as [|a s IH]; simpl; [done|]. intros [Ha Hs]%orb_false_iff. to_prop.
  rewrite decide_False by done. by rewrite IH.
Qed.

Lemma rsplit_first_no c s : str_contains c s = false → rsplit_first c s = s.
Proof.
  destruct s as [|a s]; simpl; [done|]. intros [Ha Hs]%orb_false_iff. rewrite Hs.
  case_decide; [|done]. subst. by rewrite bool_decide_eq_true_2 in Ha.
Qed.

Lemma rsplit_first_app c s t :
  str_contains c t = false → rsplit_first c (s +:+ String c t) = t.
Proof.
  intros Ht. induction s as [|a s IH].
  - change (EmptyString +:+ String c t) with (String c t). simpl.
    rewrite Ht. by rewrite decide_True.
  - change (String a s +:+ String c t) with (String a (s +:+ String c t)). simpl.
    rewrite IH.
    rewrite str_contains_app. simpl. by rewrite bool_decide_eq_true_2, orb_true_r.
Qed.

(** The bytes of a string. *)
Fixpoint str_bytes (s : string) : list N :=
  match s with
  | EmptyString => []
  | String a s' => Ascii.N_of_ascii a :: str_bytes s'
  end.

Fixpoint str_of_bytes (l : list N) : string :=
  match l with
  | [] => EmptyString
  | b :: l' => String (Ascii.ascii_of_N b) (str_of_bytes l')
  end.

Lemma length_str_bytes s : length (str_bytes s) = String.length s.
Proof. induction s as [|a s IH]; simpl; [done|]. by rewrite IH. Qed.

Lemma str_bytes_app s t : str_bytes (s +:+ t) = str_bytes s ++ str_bytes t.
Proof.
  induction s as [|a s IH]; [done|].
  change (String a s +:+ t) with (String a (s +:+ t)). simpl. by rewrite IH.
Qed.

Lemma str_bytes_inj s t : str_bytes s = str_bytes t → s = t.
Proof.
  revert t. induction s as [|a s IH]; intros [|b t]; simpl; try done.
  intros [= Hab Hst]. f_equal; [|by apply IH].
  rewrite <-(Ascii.ascii_N_embedding a), <-(Ascii.ascii_N_embedding b). by f_equal.
Qed.

Lemma str_bytes_of_bytes l : Forall (λ b, (b < 256)%N) l → str_bytes (str_of_bytes l) = l.
Proof.
  induction 1 as [|b l Hb _ IH]; simpl; [done|].
  by rewrite Ascii.N_ascii_embedding, IH.
Qed.

Lemma str_of_bytes_bytes s : str_of_bytes (str_bytes s) = s.
Proof. induction s as [|a s IH]; simpl; [done|]. by rewrite Ascii.ascii_N_embedding, IH. Qed.

Lemma str_bytes_lt s : Forall (λ b, (b < 256)%N) (str_bytes s).
Proof.
  induction s as [|a s IH]; simpl; constructor; [|done]. apply Ascii.N_ascii_bounded.
Qed.

#[export] Hint Resolve str_bytes_lt str_bytes_of_bytes : sv.

Lemma str_compare_refl s : String.compare s s = Eq.
Proof. induction s as [|a s IH]; simpl; [done|]. unfold Ascii.compare. by rewrite N.compare_refl. Qed.

Lemma str_compare_lt_trans s t u :
  String.compare s t = Lt → String.compare t u = Lt → String.compare s u = Lt.
Proof.
  revert t u. induction s as [|a s IH]; intros [|b t] [|c u]; simpl; try done.
  unfold Ascii.compare.
  destruct (N.compare_spec (N_of_ascii a) (N_of_ascii b)) as [Hab|Hab|Hab]; [|intros _|done];
  destruct (N.compare_spec (N_of_ascii b) (N_of_ascii c)) as [Hbc|Hbc|Hbc]; try done.
  - rewrite Hab, Hbc, N.compare_refl. apply IH.
  - intros _ _. rewrite Hab. by rewrite (proj2 (N.compare_lt_iff _ _) Hbc).
  - intros _. rewrite <-Hbc. by rewrite (proj2 (N.compare_lt_iff _ _) Hab).
  - intros _. rewrite (proj2 (N.compare_lt_iff _ _)) by lia. done.
Qed.

(** [str::chars]: a [char] is its Unicode scalar value.  A byte below 0x80 or
    from 0xC0 on starts a character and contributes its payload bits; the
    continuation bytes 0x80..0xBF that follow contribute six bits each. *)
Abbreviation char := N.

Definition is_continuation (b : N) : bool := ((128 <=? b) && (b <? 192))%N.

Definition lead_bits (b : N) : N :=
  if (b <? 128)%N then b
  else if (b <? 224)%N then N.land b 31
  else if (b <? 240)%N then N.land b 15
  else N.land b 7.

Fixpoint chars_go (cur : option char) (l : list N) : list char :=
  match l with
  | [] => option_list cur
  | b :: l' =>
      if is_continuation b
      then chars_go (Some (default 0 cur * 64 + N.land b 63)%N) l'
      else option_list cur ++ chars_go (Some (lead_bits b)) l'
  end.

Definition chars (s : string) : list char := chars_go None (str_bytes s).

Definition is_ascii_str (s : string) : bool := forallb (λ b, (b <? 128)%N) (str_bytes s).

(** On ASCII text every byte is one character. *)
Lemma chars_ascii s : is_ascii_str s = true → chars s = str_bytes s.
Proof.
  unfold chars, is_ascii_str.
  assert (∀ l c, forallb (λ b, (b <? 128)%N) l = true →
            chars_go c l = option_list c ++ l) as Hgo.
  { induction l as [|b l IH]; intros c; simpl; [by rewrite app_nil_r|].
    intros [Hb%N.ltb_lt Hl]%andb_true_iff. unfold is_continuation, lead_bits.
    rewrite (proj2 (N.leb_gt 128 b)) by lia. simpl.
    rewrite (proj2 (N.ltb_lt b 128)) by lia. rewrite IH by done. done. }
  intros H. by rewrite Hgo.
Qed.

(** [str::from_utf8]: which byte strings are UTF-8.  Overlong forms, surrogates and
    values beyond U+10FFFF are refused by the range of the second byte. *)
Definition second_byte_ok (lead b : N) : bool :=
  (if lead =? 224 then (160 <=? b) && (b <? 192)
   else if lead =? 237 then (128 <=? b) && (b <? 160)
   else if lead =? 240 then (144 <=? b) && (b <? 192)
   else if lead =? 244 then (128 <=? b) && (b <? 144)
   else is_continuation b)%N.

Fixpoint utf8_valid (l : list N) : bool :=
  match l with
  | [] => true
  | a :: l1 =>
      if (a <? 128)%N then utf8_valid l1
      else if ((194 <=? a) && (a <? 224))%N then
        match l1 with b :: l2 => is_continuation b && utf8_valid l2 | _ => false end
      else if ((224 <=? a) && (a <? 240))%N then
        match l1 with
        | b :: c :: l3 => second_byte_ok a b && is_continuation c && utf8_valid l3
        | _ => false
        end
      else if ((240 <=? a) && (a <? 245))%N then
        match l1 with
        | b :: c :: d :: l4 =>
            second_byte_ok a b && is_continuation c && is_continuation d && utf8_valid l4
        | _ => false
        end
      else false
  end.

Lemma utf8_valid_app l k : utf8_valid l = true → utf8_valid k = true → utf8_valid (l ++ k) = true.
Proof.
  intros Hl Hk. revert Hl. remember (length l) as n eqn:Hn. revert l Hn.
  induction n as [n IH] using lt_wf_ind. intros [|a l] ->; [done|]. cbn.
  assert (∀ k', length k' < length (a :: l) → utf8_valid k' = true → utf8_valid (k' ++ k) = true) as IH'
    by eauto.
  destruct (a <? 128)%N; [apply IH'; simpl; lia|].
  destruct ((194 <=? a) && (a <? 224))%N; [|destruct ((224 <=? a) && (a <? 240))%N;
    [|destruct ((240 <=? a) && (a <? 245))%N; [|done]]];
    [destruct l as [|b l]|destruct l as [|b [|c l]]|destruct l as [|b [|c [|d l]]]]; try done; cbn;
    rewrite !andb_true_iff; intuition auto; apply IH'; try done; simpl; lia.
Qed.

(** [str::lines]: a line ends at a line feed, and a carriage return before it is
    dropped; text after the last line feed is a line when it is not empty. *)
Definition strip_cr (line : list N) : list N :=
  if decide (last line = Some 13%N) then removelast line else line.

Fixpoint lines_go (cur l : list N) : list (list N) :=
  match l with
  | [] => match cur with [] => [] | _ => [cur] end
  | b :: l' => if (b =? 10)%N then strip_cr cur :: lines_go [] l' else lines_go (cur ++ [b]) l'
  end.

Definition lines (l : list N) : list (list N) := lines_go [] l.

Lemma lines_cons line l :
  10%N ∉ line → last line ≠ Some 13%N → lines (line ++ 10%N :: l) = line :: lines l.
Proof.
  intros Hn Hl. unfold lines.
  assert (∀ k cur, 10%N ∉ k → lines_go cur (k ++ 10%N :: l) = strip_cr (cur ++ k) :: lines_go [] l) as Hgo.
  { induction k as [|b k IH]; intros cur Hk; cbn; [by rewrite app_nil_r|].
    apply not_elem_of_cons in Hk as [Hb Hk]. rewrite (proj2 (N.eqb_neq b 10)) by done.
    rewrite IH by done. by rewrite <-app_assoc. }
  rewrite Hgo by done. cbn. unfold strip_cr. by rewrite decide_False.
Qed.

(** An ASCII letter, digit or sign as a character. *)
Definition ch (a : ascii) : char := Ascii.N_of_ascii a.

Definition is_ascii_uppercase (b : N) : bool := ((65 <=? b) && (b <=? 90))%N.
Definition is_ascii_lowercase (b : N) : bool := ((97 <=? b) && (b <=? 122))%N.
Definition is_ascii_digit (b : N) : bool := ((48 <=? b) && (b <=? 57))%N.
Definition is_ascii_alphabetic (b : N) : bool := is_ascii_uppercase b || is_ascii_lowercase b.
Definition is_ascii_alphanumeric (b : N) : bool := is_ascii_alphabetic b || is_ascii_digit b.

(** [char::to_ascii_uppercase]. *)
Definition to_ascii_uppercase (b : N) : N := if is_ascii_lowercase b then (b - 32)%N else b.

(** ** Maps, sets and options *)

(** A [HashMap] or [BTreeMap] collected from pairs: the last pair of a key wins. *)
Definition collect_map {K V} `{Countable K} (l : list (K * V)) : gmap K V :=
  foldl (λ m kv, <[kv.1 := kv.2]> m) ∅ l.

Lemma collect_map_snoc {K V} `{Countable K} (l : list (K * V)) kv :
  collect_map (l ++ [kv]) = <[kv.1 := kv.2]> (collect_map l).
Proof. unfold collect_map. by rewrite foldl_app. Qed.

(** When keys are distinct, the collected map holds exactly the pairs. *)
Lemma collect_map_lookup {K V} `{Countable K} (l : list (K * V)) k v :
  NoDup l.*1 → collect_map l !! k = Some v ↔ (k, v) ∈ l.
Proof.
  induction l as [|[k' v'] l IH] using rev_ind; intros Hnd.
  - unfold collect_map. simpl. rewrite lookup_empty, elem_of_nil. done.
  - rewrite collect_map_snoc. simpl.
    rewrite fmap_app in Hnd. apply NoDup_app in Hnd as (Hnd & Hd & _).
    rewrite elem_of_app, list_elem_of_singleton.
    destruct (decide (k' = k)) as [->|Hne].
    + rewrite lookup_insert_eq. split.
      * intros [= ->]. by right.
      * intros [Hin|[= ->]]; [|done]. exfalso. apply (Hd k).
        { change k with ((k, v).1). by apply list_elem_of_fmap_2. }
        simpl. by apply list_elem_of_singleton.
    + rewrite lookup_insert_ne by done. rewrite IH by done. split; [by left|].
      intros [?|Heq]; [done|]. injection Heq. congruence.
Qed.

(** Iteration order of a [BTreeSet<String>]: ascending byte order. *)
Definition btree_iter (s : gset string) : list string :=
  sort_by (λ a b, String.leb a b) (elements s).

Lemma elem_of_btree_iter s x : x ∈ btree_iter s ↔ x ∈ s.
Proof. unfold btree_iter. by rewrite elem_of_sort_by, elem_of_elements. Qed.

(** [Option::is_some_and]. *)
Definition is_some_and {A} (o : option A) (f : A → bool) : bool :=
  match o with Some x => f x | None => false end.

Lemma is_some_and_true {A} (o : option A) f :
  is_some_and o f = true ↔ ∃ x, o = Some x ∧ f x = true.
Proof.
  destruct o as [y|]; simpl; split.
  - eauto.
  - intros (x & Hx & Hf). congruence.
  - done.
  - intros (x & Hx & _). congruence.
Qed.
