(* ===== verification/Error.v ===== *)
(** * sv-runtime/src/error.rs: the stable error contract

    [RuntimeError] with its wire code and its fixed display message. *)
From S2P Require Import Prelude.

Module RuntimeError.

(** One constructor per variant of [RuntimeError]. *)
Inductive t :=
| AuthRequired
| AuthInvalid
| PrincipalRevoked
| ScopeDenied
| PolicyDenied
| PolicyUnavailable
| UnsupportedContent
| InvalidStructure
| LimitExceeded
| ReferenceInvalid
| ReferenceExpired
| ReferenceAudienceDenied
| ConsentRequired
| ConsentDenied
| ConsentExpired
| ConsentBindingMismatch
| AuditUnavailable
| RouteDenied
| ProfileDenied
| DestinationDenied
| UpstreamTimeout
| UpstreamProtocolError
| ExecutedAuditIncomplete.

#[global] Instance t_eq_dec : EqDecision t.
Proof. solve_decision. Defined.

(** The [#[error("...")]] attributes: the [Display] message of each variant. *)
Definition display (e : t) : string :=
  match e with
  | AuthRequired => "authentication required"
  | AuthInvalid => "authentication failed"
  | PrincipalRevoked => "principal has been revoked"
  | ScopeDenied => "required scope not granted"
  | PolicyDenied => "request denied by policy"
  | PolicyUnavailable => "policy unavailable"
  | UnsupportedContent => "content type not supported"
  | InvalidStructure => "request structure is invalid"
  | LimitExceeded => "configured limit exceeded"
  | ReferenceInvalid => "reference is invalid"
  | ReferenceExpired => "reference has expired"
  | ReferenceAudienceDenied => "reference audience not permitted"
  | ConsentRequired => "consent required"
  | ConsentDenied => "consent denied"
  | ConsentExpired => "consent has expired"
  | ConsentBindingMismatch => "consent binding mismatch"
  | AuditUnavailable => "audit log unavailable"
  | RouteDenied => "route denied"
  | ProfileDenied => "execution profile denied"
  | DestinationDenied => "destination denied"
  | UpstreamTimeout => "upstream request timed out"
  | UpstreamProtocolError => "upstream protocol error"
  | ExecutedAuditIncomplete => "execution audit record incomplete"
  end.

(** [RuntimeError::code]. *)
Definition code (e : t) : string :=
  match e with
  | AuthRequired => "auth_required"
  | AuthInvalid => "auth_invalid"
  | PrincipalRevoked => "principal_revoked"
  | ScopeDenied => "scope_denied"
  | PolicyDenied => "policy_denied"
  | PolicyUnavailable => "policy_unavailable"
  | UnsupportedContent => "unsupported_content"
  | InvalidStructure => "invalid_structure"
  | LimitExceeded => "limit_exceeded"
  | ReferenceInvalid => "reference_invalid"
  | ReferenceExpired => "reference_expired"
  | ReferenceAudienceDenied => "reference_audience_denied"
  | ConsentRequired => "consent_required"
  | ConsentDenied => "consent_denied"
  | ConsentExpired => "consent_expired"
  | ConsentBindingMismatch => "consent_binding_mismatch"
  | AuditUnavailable => "audit_unavailable"
  | RouteDenied => "route_denied"
  | ProfileDenied => "profile_denied"
  | DestinationDenied => "destination_denied"
  | UpstreamTimeout => "upstream_timeout"
  | UpstreamProtocolError => "upstream_protocol_error"
  | ExecutedAuditIncomplete => "executed_audit_incomplete"
  end.

(** A caller that branches on the code recovers the variant. *)
Lemma code_inj e1 e2 : code e1 = code e2 → e1 = e2.
Proof. destruct e1, e2; done. Qed.
End RuntimeError.

(** [error::Result]. *)
Abbreviation Result T := (result T RuntimeError.t).
