(* ===== verification/Types.v ===== *)
(** * sv-runtime/src/types.rs: identifiers, kinds and the decision lattices

    The enumerations the policy engine and the reference registry work on,
    their derived order, and the three [join] operations: exposure and consent
    join towards the stricter side, limits towards the smaller bound. *)
From S2P Require Import Prelude.

(** ** Derived [Ord]

    [#[derive(PartialOrd, Ord)]] on a fieldless enum compares declaration
    positions; [core::cmp::max] returns its second argument on a tie. *)
Class DeriveOrd (A : Type) := {
  rank : A → N;
  rank_inj : ∀ a b, rank a = rank b → a = b
}.

Definition ord_cmp {A} `{DeriveOrd A} (a b : A) : comparison := N.compare (rank a) (rank b).
Definition ord_le {A} `{DeriveOrd A} (a b : A) : Prop := (rank a ≤ rank b)%N.
Definition cmp_max {A} `{DeriveOrd A} (a b : A) : A := if (rank b <? rank a)%N then a else b.

Infix "⊑o" := ord_le (at level 70) : sv_scope.

Section derived_order.
Context {A : Type} `{DeriveOrd A}.
Implicit Types a b c : A.

Lemma rank_cmp_max a b : rank (cmp_max a b) = N.max (rank a) (rank b).
Proof. unfold cmp_max. destruct (N.ltb_spec (rank b) (rank a)); lia. Qed.

#[global] Instance ord_le_po : PartialOrder (ord_le (A:=A)).
Proof.
  unfold ord_le. split; [split|].
  - intros a. lia.
  - intros a b c ??. lia.
  - intros a b ??. apply rank_inj. lia.
Qed.

#[global] Instance cmp_max_comm : Comm (=) (cmp_max (A:=A)).
Proof. intros a b. apply rank_inj. rewrite !rank_cmp_max. lia. Qed.

#[global] Instance cmp_max_assoc : Assoc (=) (cmp_max (A:=A)).
Proof. intros a b c. apply rank_inj. rewrite !rank_cmp_max. lia. Qed.

#[global] Instance cmp_max_idemp : IdemP (=) (cmp_max (A:=A)).
Proof. intros a. apply rank_inj. rewrite !rank_cmp_max. lia. Qed.

Lemma cmp_max_ub_l a b : a ⊑o cmp_max a b.
Proof. unfold ord_le. rewrite rank_cmp_max. lia. Qed.

Lemma cmp_max_ub_r a b : b ⊑o cmp_max a b.
Proof. unfold ord_le. rewrite rank_cmp_max. lia. Qed.

Lemma cmp_max_lub a b c : a ⊑o c → b ⊑o c → cmp_max a b ⊑o c.
Proof. unfold ord_le. rewrite rank_cmp_max. lia. Qed.

Lemma cmp_max_mono a b c : a ⊑o b → cmp_max a c ⊑o cmp_max b c.
Proof. unfold ord_le. rewrite !rank_cmp_max. lia. Qed.

(** Joining a whole list onto a floor. *)
Definition join_all (floor : A) (l : list A) : A := foldl cmp_max floor l.

Lemma join_all_rank floor l x :
  (rank (join_all floor l) ≤ x)%N ↔ (rank floor ≤ x)%N ∧ ∀ a, a ∈ l → (rank a ≤ x)%N.
Proof.
  unfold join_all. revert floor. induction l as [|b l IH]; intros floor; simpl.
  - split; [|tauto]. intros ?. split; [done|]. intros a []%elem_of_nil.
  - rewrite IH, rank_cmp_max. setoid_rewrite elem_of_cons. split.
    + intros [? Hl]. split; [lia|]. intros a [->|?]; [lia|by apply Hl].
    + intros [? Hl]. split; [pose proof (Hl b (or_introl eq_refl)); lia|]. auto.
Qed.

Lemma join_all_floor floor l : floor ⊑o join_all floor l.
Proof. by destruct (join_all_rank floor l (rank (join_all floor l))) as [[? _] _]; [lia|]. Qed.

Lemma join_all_member floor l a : a ∈ l → a ⊑o join_all floor l.
Proof.
  destruct (join_all_rank floor l (rank (join_all floor l))) as [[_ Hall] _]; [lia|].
  apply Hall.
Qed.

Lemma join_all_least floor l c :
  floor ⊑o c → (∀ a, a ∈ l → a ⊑o c) → join_all floor l ⊑o c.
Proof. unfold ord_le. intros. by apply join_all_rank. Qed.

#[global] Instance join_all_perm floor : Proper ((≡ₚ) ==> (=)) (join_all floor).
Proof.
  intros l1 l2 HP. apply (anti_symm ord_le); apply join_all_least;
    try apply join_all_floor; intros a Ha; apply join_all_member; by rewrite HP || rewrite <-HP.
Qed.

Lemma join_all_app floor l1 l2 : join_all floor (l1 ++ l2) = join_all (join_all floor l1) l2.
Proof. apply foldl_app. Qed.

Lemma join_all_mono floor l1 l2 :
  (∀ a, a ∈ l1 → a ∈ l2) → join_all floor l1 ⊑o join_all floor l2.
Proof.
  intros Hsub. apply join_all_least; [apply join_all_floor|].
  intros a Ha. by apply join_all_member, Hsub.
Qed.
End derived_order.

#[export] Hint Resolve cmp_max_ub_l cmp_max_ub_r join_all_floor join_all_member : sv.

(** ** Identifiers ([string_newtype!] and [PolicyVersion]) *)

Definition PrincipalId : Type := string.
Definition SessionId : Type := string.
Definition InternalResourceId : Type := string.
Definition PolicyVersion : Type := N.

(** ** Kinds *)

Module PrincipalKind.
Inductive t := Client | Adapter | McpServer | ProcessProfile.
#[global] Instance t_eq_dec : EqDecision t.
Proof. solve_decision. Defined.
End PrincipalKind.

Module TransportKind.
Inductive t := Stdio | Http | WebSocket | InProcess.
#[global] Instance t_eq_dec : EqDecision t.
Proof. solve_decision. Defined.
End TransportKind.

Module OperationKind.
Inductive t := Read | Write | Transform | Execute | Resolve.
#[global] Instance t_eq_dec : EqDecision t.
Proof. solve_decision. Defined.
#[global] Instance t_countable : Countable t.
Proof.
  refine (inj_countable'
    (λ o, match o with Read => 0 | Write => 1 | Transform => 2 | Execute => 3 | Resolve => 4 end)
    (λ n, match n with 0 => Read | 1 => Write | 2 => Transform | 3 => Execute | _ => Resolve end)
    _).
  by intros [].
Defined.
End OperationKind.

Module DestinationSelector.
Record t := mk {
  transport : option string;
  host : option string;
  path : option string;
  label : option string
}.
#[global] Instance t_eq_dec : EqDecision t.
Proof. solve_decision. Defined.
End DestinationSelector.

(** ** Exposure *)

Module ExposureClass.
Inductive t := Raw | Transformed | ReferenceOnly | ExecuteOnly | NonExportable.
#[global] Instance t_eq_dec : EqDecision t.
Proof. solve_decision. Defined.
#[global] Program Instance t_ord : DeriveOrd t := {
  rank c := match c with
            | Raw => 0 | Transformed => 1 | ReferenceOnly => 2
            | ExecuteOnly => 3 | NonExportable => 4
            end%N
}.
Next Obligation. by intros [] []. Qed.

(** [ExposureClass::join]. *)
Definition join (self other : t) : t := cmp_max self other.

(** [impl Default for ExposureClass]. *)
Definition default : t := NonExportable.
End ExposureClass.

Module DiscoveryPolicy.
Inductive t := Discoverable | Opaque.
#[global] Instance t_eq_dec : EqDecision t.
Proof. solve_decision. Defined.
#[global] Program Instance t_ord : DeriveOrd t := {
  rank c := match c with Discoverable => 0 | Opaque => 1 end%N
}.
Next Obligation. by intros [] []. Qed.

Definition join (self other : t) : t := cmp_max self other.

(** [DiscoveryPolicy::for_exposure_class]. *)
Definition for_exposure_class (class : ExposureClass.t) : t :=
  match class with
  | ExposureClass.NonExportable => Opaque
  | ExposureClass.Raw | ExposureClass.Transformed
  | ExposureClass.ReferenceOnly | ExposureClass.ExecuteOnly => Discoverable
  end.

Definition default : t := Opaque.
End DiscoveryPolicy.

Module RuleExposure.
Inductive t := Raw | Redact | Pseudonymize | Omit | ReferenceOnly | ExecuteOnly.
#[global] Instance t_eq_dec : EqDecision t.
Proof. solve_decision. Defined.

(** [RuleExposure::class]. *)
Definition class (self : t) : ExposureClass.t :=
  match self with
  | Raw => ExposureClass.Raw
  | Redact | Pseudonymize | Omit => ExposureClass.Transformed
  | ReferenceOnly => ExposureClass.ReferenceOnly
  | ExecuteOnly => ExposureClass.ExecuteOnly
  end.
End RuleExposure.

(** ** Consent *)

Module ConsentMode.
Inductive t := None | Approval | Otp | DenyIfUnavailable.
#[global] Instance t_eq_dec : EqDecision t.
Proof. solve_decision. Defined.
#[global] Program Instance t_ord : DeriveOrd t := {
  rank c := match c with None => 0 | Approval => 1 | Otp => 2 | DenyIfUnavailable => 3 end%N
}.
Next Obligation. by intros [] []. Qed.

(** [ConsentMode::join]. *)
Definition join (self other : t) : t := cmp_max self other.
End ConsentMode.

(** ** Limits *)

Module EffectiveLimits.
Record t := mk {
  request_bytes : N;
  fragment_bytes : N;
  response_bytes : N;
  concurrent_requests_per_principal : N;
  request_timeout_ms : N;
  consent_timeout_ms : N;
  stream_boundary_bytes : N
}.
#[global] Instance t_eq_dec : EqDecision t.
Proof. solve_decision. Defined.

(** [EffectiveLimits::join]: every bound moves to the smaller one. *)
Definition join (self other : t) : t := {|
  request_bytes := N.min (request_bytes self) (request_bytes other);
  fragment_bytes := N.min (fragment_bytes self) (fragment_bytes other);
  response_bytes := N.min (response_bytes self) (response_bytes other);
  concurrent_requests_per_principal :=
    N.min (concurrent_requests_per_principal self) (concurrent_requests_per_principal other);
  request_timeout_ms := N.min (request_timeout_ms self) (request_timeout_ms other);
  consent_timeout_ms := N.min (consent_timeout_ms self) (consent_timeout_ms other);
  stream_boundary_bytes := N.min (stream_boundary_bytes self) (stream_boundary_bytes other)
|}.

(** [a] admits no request that [b] refuses. *)
Definition le (a b : t) : Prop :=
  (request_bytes a ≤ request_bytes b)%N ∧
  (fragment_bytes a ≤ fragment_bytes b)%N ∧
  (response_bytes a ≤ response_bytes b)%N ∧
  (concurrent_requests_per_principal a ≤ concurrent_requests_per_principal b)%N ∧
  (request_timeout_ms a ≤ request_timeout_ms b)%N ∧
  (consent_timeout_ms a ≤ consent_timeout_ms b)%N ∧
  (stream_boundary_bytes a ≤ stream_boundary_bytes b)%N.

Lemma le_antisymm a b : le a b → le b a → a = b.
Proof.
  destruct a, b. unfold le. simpl. intros. f_equal; lia.
Qed.

(** [join] is the greatest lower bound of two limit sets. *)
Lemma join_glb c a b : le c (join a b) ↔ le c a ∧ le c b.
Proof. unfold le, join. simpl. lia. Qed.

Lemma le_refl a : le a a.
Proof. unfold le. lia. Qed.
End EffectiveLimits.

(** ** Sensitive bytes *)

Module SensitiveBytes.
Record t := mk { bytes : list N }.

Definition expose (self : t) : list N := bytes self.
Definition len (self : t) : nat := length (bytes self).
Definition is_empty (self : t) : bool := bool_decide (bytes self = []).

(** [impl Debug]: a fixed marker, whatever the contents. *)
Definition debug (self : t) : string := "SensitiveBytes([REDACTED])".
End SensitiveBytes.
