(* ===== verification/Document.v ===== *)
(** * sv-runtime/src/policy/document.rs: the version 1 policy document

    The records of the document, the kebab-case wire mirrors of the two
    lattices, and [parse].  The TOML reader itself ([toml::from_str] with the
    derived deserializers) is a parameter of [parse]. *)
From S2P Require Import Prelude Error Types.

(** ** Wire mirrors *)

Module ExposureClassRepr.
Inductive t := Raw | Transformed | ReferenceOnly | ExecuteOnly | NonExportable.
#[global] Instance t_eq_dec : EqDecision t.
Proof. solve_decision. Defined.

(** [From<ExposureClassRepr> for ExposureClass]. *)
Definition to_class (value : t) : ExposureClass.t :=
  match value with
  | Raw => ExposureClass.Raw
  | Transformed => ExposureClass.Transformed
  | ReferenceOnly => ExposureClass.ReferenceOnly
  | ExecuteOnly => ExposureClass.ExecuteOnly
  | NonExportable => ExposureClass.NonExportable
  end.

(** [From<ExposureClass> for ExposureClassRepr]. *)
Definition of_class (value : ExposureClass.t) : t :=
  match value with
  | ExposureClass.Raw => Raw
  | ExposureClass.Transformed => Transformed
  | ExposureClass.ReferenceOnly => ReferenceOnly
  | ExposureClass.ExecuteOnly => ExecuteOnly
  | ExposureClass.NonExportable => NonExportable
  end.

(** The spellings [#[serde(rename_all = "kebab-case")]] gives the variants. *)
Definition spelling (value : t) : string :=
  match value with
  | Raw => "raw"
  | Transformed => "transformed"
  | ReferenceOnly => "reference-only"
  | ExecuteOnly => "execute-only"
  | NonExportable => "non-exportable"
  end.

(** A closed set: any other spelling fails. *)
Definition of_spelling (s : string) : option t :=
  list_find (λ r, spelling r = s)
    [Raw; Transformed; ReferenceOnly; ExecuteOnly; NonExportable] ≫= λ p, Some p.2.
End ExposureClassRepr.

Module ConsentModeRepr.
Inductive t := None | Approval | Otp | DenyIfUnavailable.
#[global] Instance t_eq_dec : EqDecision t.
Proof. solve_decision. Defined.

(** [From<ConsentModeRepr> for ConsentMode]. *)
Definition to_mode (value : t) : ConsentMode.t :=
  match value with
  | None => ConsentMode.None
  | Approval => ConsentMode.Approval
  | Otp => ConsentMode.Otp
  | DenyIfUnavailable => ConsentMode.DenyIfUnavailable
  end.

(** [From<ConsentMode> for ConsentModeRepr]. *)
Definition of_mode (value : ConsentMode.t) : t :=
  match value with
  | ConsentMode.None => None
  | ConsentMode.Approval => Approval
  | ConsentMode.Otp => Otp
  | ConsentMode.DenyIfUnavailable => DenyIfUnavailable
  end.

Definition spelling (value : t) : string :=
  match value with
  | None => "none"
  | Approval => "approval"
  | Otp => "otp"
  | DenyIfUnavailable => "deny-if-unavailable"
  end.

Definition of_spelling (s : string) : option t :=
  list_find (λ r, spelling r = s) [None; Approval; Otp; DenyIfUnavailable] ≫= λ p, Some p.2.
End ConsentModeRepr.

(** [mod exposure]: the required [exposure] field. *)
Module exposure.
Definition deserialize (s : string) : option ExposureClass.t :=
  ExposureClassRepr.to_class <$> ExposureClassRepr.of_spelling s.
Definition serialize (value : ExposureClass.t) : string :=
  ExposureClassRepr.spelling (ExposureClassRepr.of_class value).
End exposure.

(** [mod consent_option]: the optional [consent] field.  The outer option of
    [deserialize] is failure, the inner one an absent field. *)
Module consent_option.
Definition deserialize (field : option string) : option (option ConsentMode.t) :=
  match field with
  | None => Some None
  | Some s => (λ r, Some (ConsentModeRepr.to_mode r)) <$> ConsentModeRepr.of_spelling s
  end.
Definition serialize (value : option ConsentMode.t) : option string :=
  match value with
  | None => None
  | Some mode => Some (ConsentModeRepr.spelling (ConsentModeRepr.of_mode mode))
  end.
End consent_option.

(** ** Document model *)

Module LimitsDocument.
Record t := mk {
  request_bytes : N;
  fragment_bytes : N;
  response_bytes : N;
  concurrent_requests_per_principal : N;
  request_timeout_ms : N;
  consent_timeout_ms : N;
  stream_boundary_bytes : N
}.
#[global] Instance t_eq_dec : EqDecision t.
Proof. solve_decision. Defined.
End LimitsDocument.

Module TimeWindowDocument.
Record t := mk {
  start : string;
  end_ : string;
  days : list string
}.
#[global] Instance t_eq_dec : EqDecision t.
Proof. solve_decision. Defined.
End TimeWindowDocument.

Module RuleMatch.
Record t := mk {
  principal_ids : option (list string);
  principal_kinds : option (list string);
  adapter_ids : option (list string);
  transports : option (list string);
  operations : option (list string);
  origin_kinds : option (list string);
  destination_kinds : option (list string);
  destination_ids : option (list string);
  host_globs : option (list string);
  path_prefixes : option (list string);
  methods : option (list string);
  provider_ids : option (list string);
  model_globs : option (list string);
  mcp_server_ids : option (list string);
  mcp_tool_globs : option (list string);
  process_profile_ids : option (list string);
  container_globs : option (list string);
  resource_kinds : option (list string);
  exposure_classes : option (list string);
  media_types : option (list string);
  fragment_roles : option (list string);
  labels_all : option (list string);
  labels_any : option (list string);
  labels_none : option (list string);
  classification_states : option (list string);
  min_auth_strength : option string;
  session_max_age_seconds : option N;
  time_window : option TimeWindowDocument.t
}.
#[global] Instance t_eq_dec : EqDecision t.
Proof. solve_decision. Defined.

(** [RuleMatch::default()]: every constraint absent. *)
Definition default : t :=
  mk None None None None None None None None None None None None None None None None None
     None None None None None None None None None None None.
End RuleMatch.

Module AccessEffect.
Inductive t := Allow | Deny.
#[global] Instance t_eq_dec : EqDecision t.
Proof. solve_decision. Defined.
End AccessEffect.

Module AuditRequirement.
Inductive t := Required.
#[global] Instance t_eq_dec : EqDecision t.
Proof. solve_decision. Defined.
End AuditRequirement.

Module RuleEffect.
Record t := mk {
  access : AccessEffect.t;
  exposure : option RuleExposure.t;
  consent : option ConsentMode.t;
  audit : AuditRequirement.t;
  route : option string;
  max_uses : option N;
  ttl_seconds : option N
}.
#[global] Instance t_eq_dec : EqDecision t.
Proof. solve_decision. Defined.
End RuleEffect.

Module RuleDocument.
Record t := mk {
  id : string;
  priority : Z;
  match_ : RuleMatch.t;
  effect : RuleEffect.t
}.
#[global] Instance t_eq_dec : EqDecision t.
Proof. solve_decision. Defined.
End RuleDocument.

Module ReferenceClassDocument.
Record t := mk {
  id : string;
  exposure : ExposureClass.t;
  allowed_operations : list string;
  default_ttl_seconds : N;
  max_ttl_seconds : option N;
  max_uses : option N;
  durable : bool
}.
End ReferenceClassDocument.

Module ProviderRouteDocument.
Record t := mk {
  id : string;
  protocol : string;
  base_url : string;
  credential_ref : string;
  allowed_models : list string;
  allowed_methods : list string;
  allowed_path_prefixes : list string;
  follow_redirects : bool;
  request_timeout_ms : N;
  max_response_bytes : N
}.
End ProviderRouteDocument.

Module McpServerDocument.
Record t := mk {
  id : string;
  transport : string;
  command : option string;
  args : option (list string);
  allowed_tools : list string;
  denied_tools : list string;
  environment_allowlist : list string;
  result_policy : string;
  require_schema_approval : bool
}.
End McpServerDocument.

Module ProcessSecretDocument.
Record t := mk {
  parameter : string;
  vault_ref : string;
  injection : string;
  field : option string
}.
End ProcessSecretDocument.

Module ProcessProfileDocument.
Record t := mk {
  id : string;
  executable : string;
  executable_sha256 : option string;
  working_directory_roots : list string;
  argument_schema : option string;
  fixed_args : list string;
  network_hosts : list string;
  allow_children : bool;
  timeout_ms : N;
  max_stdout_bytes : N;
  max_stderr_bytes : N;
  secret : list ProcessSecretDocument.t
}.
End ProcessProfileDocument.

Module PolicyDocument.
Record t := mk {
  schema : N;
  default_effect : string;
  policy_id : string;
  limits : LimitsDocument.t;
  rule : list RuleDocument.t;
  reference_class : list ReferenceClassDocument.t;
  provider_route : list ProviderRouteDocument.t;
  mcp_server : list McpServerDocument.t;
  process_profile : list ProcessProfileDocument.t
}.

(** The document with another rule list. *)
Definition with_rules (d : t) (rules : list RuleDocument.t) : t := {|
  schema := schema d;
  default_effect := default_effect d;
  policy_id := policy_id d;
  limits := limits d;
  rule := rules;
  reference_class := reference_class d;
  provider_route := provider_route d;
  mcp_server := mcp_server d;
  process_profile := process_profile d
|}.
End PolicyDocument.

(** ** Parser *)

(** [document::parse] over a TOML reader. *)
Definition parse (from_str : string → option PolicyDocument.t) (input : string) :
    Result PolicyDocument.t :=
  let? document := ok_or (from_str input) RuntimeError.InvalidStructure in
  if bool_decide (PolicyDocument.schema document ≠ 1%N)
  then Err RuntimeError.InvalidStructure
  else if bool_decide (PolicyDocument.default_effect document ≠ "deny")
  then Err RuntimeError.InvalidStructure
  else Ok document.

(** ** Properties *)

(** Reading a spelling back is the inverse of writing it, and nothing but the
    written spellings is read. *)
Lemma exposure_wire s c : exposure.deserialize s = Some c ↔ s = exposure.serialize c.
Proof.
  unfold exposure.deserialize, exposure.serialize, ExposureClassRepr.of_spelling. split.
  - simpl. intros H. repeat case_decide; destruct c; simplify_eq/=; done.
  - intros ->. by destruct c.
Qed.

Lemma consent_wire f m : consent_option.deserialize f = Some m ↔ f = consent_option.serialize m.
Proof.
  unfold consent_option.deserialize, consent_option.serialize, ConsentModeRepr.of_spelling. split.
  - destruct f as [s|]; simpl; intros H; [|by simplify_eq].
    repeat case_decide; destruct m as [[]|]; simplify_eq/=; done.
  - intros ->. by destruct m as [[]|].
Qed.

(** An accepted document is version 1 with the deny default. *)
Lemma parse_Ok from_str input d :
  parse from_str input = Ok d ↔
  from_str input = Some d ∧ PolicyDocument.schema d = 1%N ∧
  PolicyDocument.default_effect d = "deny".
Proof.
  unfold parse. destruct (from_str input) as [d'|]; simpl; [|naive_solver].
  repeat case_bool_decide; split; naive_solver.
Qed.
