(* ===== verification/Glob.v ===== *)
(** * sv-runtime/src/policy/glob.rs: path-aware glob matching

    [matches] fills a table of booleans from the end of both strings; the
    table, its cells and the three inner loops are modelled as they are
    written.  [gmatch] is the declarative meaning of a pattern, and
    [matches_gmatch] shows that the table computes it. *)
From S2P Require Import Prelude.

(** ** The program *)

(** [for i in (0..n).rev()]. *)
Fixpoint for_rev {S} (n : nat) (f : S → nat → S) (s : S) : S :=
  match n with
  | 0 => s
  | Datatypes.S m => for_rev m f (f s m)
  end.

(** [is_sep]. *)
Definition is_sep (c : char) : bool := bool_decide (c = ch "/") || bool_decide (c = ch ".").

Definition star : char := ch "*".

Abbreviation table := (list (list bool)).

(** [dp[i][j]] and [dp[i][j] = b].  Every access of [matches] is inside the
    table ([pl + 1] rows of [vl + 1] cells, see [dims]). *)
Definition dp_get (dp : table) (i j : nat) : bool := default false (dp !! i ≫= λ row : list bool, row !! j).
Definition dp_set (dp : table) (i j : nat) (b : bool) : table := alter (λ row, <[j := b]> row) i dp.

Section matcher.
Context (p v : list char).

Definition char_at (l : list char) (i : nat) : char := default 0%N (l !! i).

(** [while t <= vl && !is_sep(v[t - 1]) { if dp[row][t] { found; break } t += 1 }]:
    [fuel] bounds the iterations, [vl] of them are enough. *)
Fixpoint star_loop (fuel : nat) (dp : table) (row t : nat) : bool :=
  match fuel with
  | 0 => false
  | S fuel' =>
      if (t <=? length v) && negb (is_sep (char_at v (t - 1)))
      then if dp_get dp row t then true else star_loop fuel' dp row (t + 1)
      else false
  end.

(** The body of the double loop. *)
Definition step_cell (i : nat) (dp : table) (j : nat) : table :=
  let pl := length p in
  let vl := length v in
  if i =? pl then dp_set dp i j (j =? vl)
  else
    let c := char_at p i in
    if bool_decide (c = star) && (i + 1 <? pl) && bool_decide (char_at p (i + 1) = star) then
      if existsb (λ t, dp_get dp (i + 2) t) (seq j (vl + 1 - j)) then dp_set dp i j true else dp
    else if bool_decide (c = star) && (j <? vl) && negb (is_sep (char_at v j)) then
      if star_loop vl dp (i + 1) (j + 1) then dp_set dp i j true else dp
    else if (j <? vl) && bool_decide (c = char_at v j) then dp_set dp i j (dp_get dp (i + 1) (j + 1))
    else dp.

Definition fill_row (dp : table) (i : nat) : table := for_rev (length v + 1) (step_cell i) dp.

Definition fill : table :=
  for_rev (length p + 1) fill_row (replicate (length p + 1) (replicate (length v + 1) false)).
End matcher.

(** [glob::matches]. *)
Definition matches (pattern value : string) : bool :=
  dp_get (fill (chars pattern) (chars value)) 0 0.

(** ** The meaning of a pattern *)

(** [**] takes any run of characters; [*] takes a non-empty run without a
    separator; every other character takes itself. *)
Inductive gmatch : list char → list char → Prop :=
| gmatch_nil : gmatch [] []
| gmatch_dstar p v1 v2 : gmatch p v2 → gmatch (star :: star :: p) (v1 ++ v2)
| gmatch_star p v1 v2 :
    head p ≠ Some star → v1 ≠ [] → Forall (λ c, is_sep c = false) v1 →
    gmatch p v2 → gmatch (star :: p) (v1 ++ v2)
| gmatch_lit c p v : c ≠ star → gmatch p v → gmatch (c :: p) (c :: v).

#[export] Hint Constructors gmatch : sv.

(** ** Loops and tables *)

Lemma for_rev_inv {S} (P : nat → S → Prop) n f s :
  P n s → (∀ m s', m < n → P (Datatypes.S m) s' → P m (f s' m)) → P 0 (for_rev n f s).
Proof.
  revert s. induction n as [|n IH]; intros s H0 Hstep; simpl; [done|].
  apply IH; [apply Hstep; [lia|done]|]. intros m s' Hm. apply Hstep. lia.
Qed.

Definition dims (pl vl : nat) (dp : table) : Prop :=
  length dp = pl + 1 ∧ Forall (λ row : list bool, length row = vl + 1) dp.

Lemma dims_set pl vl dp i j b : dims pl vl dp → dims pl vl (dp_set dp i j b).
Proof.
  intros [Hl HF]. unfold dims, dp_set. rewrite length_alter. split; [done|].
  apply Forall_alter; [done|]. intros row _ Hrow. by rewrite length_insert.
Qed.

Lemma dp_get_set pl vl dp i j b i' j' :
  dims pl vl dp → i ≤ pl → j ≤ vl →
  dp_get (dp_set dp i j b) i' j' =
    if decide (i = i' ∧ j = j') then b else dp_get dp i' j'.
Proof.
  intros [Hl HF] Hi Hj. unfold dp_get, dp_set. destruct (decide (i = i')) as [<-|Hne].
  - rewrite list_lookup_alter_eq.
    destruct (lookup_lt_is_Some_2 dp i) as [row Hrow]; [lia|]. rewrite Hrow. simpl.
    assert (length row = vl + 1) as Hlen by (rewrite Forall_lookup in HF; eauto).
    destruct (decide (j = j')) as [<-|Hj'].
    + rewrite list_lookup_insert_eq by lia. rewrite decide_True by done. done.
    + rewrite list_lookup_insert_ne by done. rewrite decide_False by (intros [? ?]; done). done.
  - rewrite list_lookup_alter_ne by done. rewrite decide_False by (intros [? ?]; done). done.
Qed.

Lemma dp_get_init pl vl i j : dp_get (replicate (pl + 1) (replicate (vl + 1) false)) i j = false.
Proof.
  unfold dp_get. destruct (_ !! i) as [row|] eqn:E; simpl; [|done].
  apply lookup_replicate in E as [-> _].
  destruct (_ !! j) as [b|] eqn:E; simpl; [|done]. by apply lookup_replicate in E as [-> _].
Qed.

(** ** Unfolding the meaning one pattern element at a time *)

Lemma gmatch_nil_iff v : gmatch [] v ↔ v = [].
Proof. split; [by inversion 1|intros ->; constructor]. Qed.

Lemma gmatch_dstar_iff p v :
  gmatch (star :: star :: p) v ↔ ∃ t, t ≤ length v ∧ gmatch p (drop t v).
Proof.
  split.
  - inversion 1; simplify_eq/=.
    exists (length v1). rewrite length_app, drop_app_length. split; [lia|done].
  - intros (t & _ & H). rewrite <-(take_drop t v). by constructor.
Qed.

Lemma gmatch_star_iff p v :
  head p ≠ Some star →
  gmatch (star :: p) v ↔
  ∃ t, 1 ≤ t ≤ length v ∧ Forall (λ c, is_sep c = false) (take t v) ∧ gmatch p (drop t v).
Proof.
  intros Hp. split.
  - inversion 1; simplify_eq/=.
    exists (length v1). rewrite length_app, take_app_length, drop_app_length.
    destruct v1; [done|]. simpl. split; [lia|done].
  - intros (t & Ht & HF & H). rewrite <-(take_drop t v). constructor; try done.
    intros E. apply (f_equal length) in E. rewrite length_take in E. simpl in E. lia.
Qed.

Lemma gmatch_lit_iff c p v :
  c ≠ star → gmatch (c :: p) v ↔ ∃ v', v = c :: v' ∧ gmatch p v'.
Proof.
  intros Hc. split.
  - inversion 1; simplify_eq/=; eauto.
  - intros (v' & -> & H). by constructor.
Qed.

(** ** Correctness of the table *)

Section correct.
Context (p v : list char).
Abbreviation pl := (length p).
Abbreviation vl := (length v).

(** What the cell [(i, j)] stands for. *)
Definition cell_ok (dp : table) (i j : nat) : Prop :=
  dp_get dp i j = true ↔ gmatch (drop i p) (drop j v).

Lemma char_at_lookup (l : list char) i c : l !! i = Some c → char_at l i = c.
Proof. unfold char_at. by intros ->. Qed.

Lemma drop_cons_at (l : list char) i : i < length l → drop i l = char_at l i :: drop (S i) l.
Proof.
  intros Hi. destruct (lookup_lt_is_Some_2 l i Hi) as [c Hc].
  rewrite (char_at_lookup l i c Hc). by apply drop_S.
Qed.

(** The [**] branch looks for a cell of the row two below. *)
Lemma dstar_branch dp k j :
  j ≤ vl → (∀ t, t ≤ vl → cell_ok dp k t) →
  existsb (λ t, dp_get dp k t) (seq j (vl + 1 - j)) = true ↔
  ∃ t, t ≤ length (drop j v) ∧ gmatch (drop k p) (drop t (drop j v)).
Proof.
  intros Hj Hrow. rewrite existsb_Exists. setoid_rewrite elem_of_seq.
  setoid_rewrite drop_drop. rewrite length_drop. split.
  - intros (t & Ht & Hg). exists (t - j). split; [lia|].
    replace (j + (t - j)) with t by lia. apply Hrow; [lia|done].
  - intros (t & Ht & Hg). exists (j + t). split; [lia|]. apply Hrow; [lia|done].
Qed.

(** The inner [while] looks for a cell of the next row, and stops after a separator. *)
Lemma star_loop_spec fuel dp row t :
  vl < t + fuel → 1 ≤ t →
  star_loop v fuel dp row t = true ↔
  ∃ u, t ≤ u ≤ vl ∧ (∀ k, t ≤ k ≤ u → is_sep (char_at v (k - 1)) = false) ∧
       dp_get dp row u = true.
Proof.
  revert t. induction fuel as [|fuel IH]; intros t Hf Ht; simpl.
  - split; [done|]. intros (u & Hu & _). lia.
  - destruct (Nat.leb_spec t vl) as [Hle|Hgt]; simpl.
    + destruct (is_sep (char_at v (t - 1))) eqn:Hs; simpl.
      * split; [done|]. intros (u & Hu & Hk & _). rewrite Hk in Hs; [done|lia].
      * destruct (dp_get dp row t) eqn:Hd.
        { split; [|done]. intros _. exists t. split; [lia|]. split; [|done].
          intros k Hk. by replace k with t by lia. }
        rewrite IH by lia. split.
        { intros (u & Hu & Hk & Hg). exists u. split; [lia|]. split; [|done].
          intros k Hkk. destruct (decide (k = t)) as [->|]; [done|]. apply Hk. lia. }
        intros (u & Hu & Hk & Hg). destruct (decide (u = t)) as [->|]; [congruence|].
        exists u. split; [lia|]. split; [|done]. intros k Hkk. apply Hk. lia.
    + split; [done|]. intros (u & Hu & _). lia.
Qed.

Lemma no_sep_take j n :
  j + n ≤ vl →
  Forall (λ c, is_sep c = false) (take n (drop j v)) ↔
  ∀ k, j + 1 ≤ k ≤ j + n → is_sep (char_at v (k - 1)) = false.
Proof.
  intros Hn. rewrite Forall_lookup. split.
  - intros HF k Hk. destruct (lookup_lt_is_Some_2 v (k - 1)) as [c Hc]; [lia|].
    rewrite (char_at_lookup _ _ _ Hc). apply (HF (k - 1 - j)).
    rewrite lookup_take_lt by lia. rewrite lookup_drop. by replace (j + (k - 1 - j)) with (k - 1) by lia.
  - intros Hk i c Hc. apply lookup_take_Some in Hc as [Hc Hi]. rewrite lookup_drop in Hc.
    specialize (Hk (j + i + 1)). replace (j + i + 1 - 1) with (j + i) in Hk by lia.
    rewrite (char_at_lookup _ _ _ Hc) in Hk. apply Hk. lia.
Qed.

(** The [*] branch, when [v[j]] is not a separator. *)
Lemma star_branch dp i j :
  j < vl → (∀ t, t ≤ vl → cell_ok dp (i + 1) t) →
  star_loop v vl dp (i + 1) (j + 1) = true ↔
  ∃ t, 1 ≤ t ≤ length (drop j v) ∧ Forall (λ c, is_sep c = false) (take t (drop j v)) ∧
       gmatch (drop (i + 1) p) (drop t (drop j v)).
Proof.
  intros Hj Hrow. rewrite star_loop_spec by lia. setoid_rewrite drop_drop. rewrite length_drop. split.
  - intros (u & Hu & Hk & Hg). exists (u - j). split; [lia|]. rewrite no_sep_take by lia.
    replace (j + (u - j)) with u by lia. split; [done|]. apply Hrow; [lia|done].
  - intros (t & Ht & HF & Hg). exists (j + t). rewrite no_sep_take in HF by lia.
    split; [lia|]. split; [done|]. apply Hrow; [lia|done].
Qed.

(** Without a character that [*] may take there is no match. *)
Lemma star_blocked q j :
  head q ≠ Some star → vl ≤ j ∨ is_sep (char_at v j) = true → ¬ gmatch (star :: q) (drop j v).
Proof.
  intros Hq Hb. rewrite gmatch_star_iff by done. rewrite length_drop.
  intros (t & Ht & HF & _). destruct Hb as [?|Hs]; [lia|].
  rewrite (drop_cons_at v j) in HF by lia. destruct t; [lia|]. simpl in HF.
  inversion HF. congruence.
Qed.

Definition rows_ok (dp : table) (i : nat) : Prop := ∀ k t, i < k ≤ pl → t ≤ vl → cell_ok dp k t.

(** A pattern position that holds a single [*]. *)
Lemma single_star_head i :
  i < pl → char_at p i = star →
  (i + 1 <? pl) && bool_decide (char_at p (i + 1) = star) = false →
  head (drop (i + 1) p) ≠ Some star.
Proof.
  intros Hi Hc Hn. destruct (Nat.ltb_spec (i + 1) pl) as [Hlt|Hge]; simpl in Hn.
  - rewrite drop_cons_at by done. simpl. to_prop. congruence.
  - by rewrite drop_ge by lia.
Qed.

(** The value [step_cell] leaves in its cell. *)
Lemma step_cell_value i j dp :
  i ≤ pl → j ≤ vl → dims pl vl dp → rows_ok dp i → dp_get dp i j = false →
  cell_ok (step_cell p v i dp j) i j.
Proof.
  intros Hi Hj Hd Hrows Hf.
  assert (Hset : ∀ b, dp_get (dp_set dp i j b) i j = b).
  { intros b. rewrite (dp_get_set pl vl) by done. by rewrite decide_True. }
  unfold cell_ok, step_cell. destruct (Nat.eqb_spec i pl) as [->|Hne].
  { rewrite Hset, drop_all, gmatch_nil_iff, Nat.eqb_eq. split.
    - intros ->. apply drop_all.
    - intros E. apply (f_equal length) in E. rewrite length_drop in E. simpl in E. lia. }
  rewrite (drop_cons_at p i) by lia. replace (S i) with (i + 1) by lia.
  destruct (bool_decide (char_at p i = star)) eqn:Hc; to_prop; simpl.
  - rewrite Hc. destruct ((i + 1 <? pl) && _) eqn:Hn.
    + apply andb_true_iff in Hn as [Hn%Nat.ltb_lt Hc2]. to_prop.
      rewrite (drop_cons_at p (i + 1)), Hc2, gmatch_dstar_iff by lia.
      replace (S (i + 1)) with (i + 2) by lia.
      rewrite <-(dstar_branch dp (i + 2) j) by (done || intros; apply Hrows; lia).
      by destruct (existsb _ _); rewrite ?Hset, ?Hf.
    + apply single_star_head in Hn; [|lia|done].
      destruct ((j <? vl) && negb _) eqn:Hb.
      * apply andb_true_iff in Hb as [Hb%Nat.ltb_lt Hs]. rewrite gmatch_star_iff by done.
        rewrite <-(star_branch dp i j) by (done || intros; apply Hrows; lia).
        by destruct (star_loop _ _ _ _ _); rewrite ?Hset, ?Hf.
      * apply andb_false_iff in Hb.
        assert (¬ gmatch (star :: drop (i + 1) p) (drop j v)) as Hno.
        { apply star_blocked; [done|]. destruct Hb as [?%Nat.ltb_ge|?]; to_prop; auto. }
        destruct ((j <? vl) && bool_decide _) eqn:Hl; [|by rewrite Hf].
        apply andb_true_iff in Hl as [Hl Hcv]. to_prop. rewrite <-Hcv in Hb.
        destruct Hb as [?|Hb]; [congruence|done].
  - rewrite gmatch_lit_iff by done.
    destruct (Nat.ltb_spec j vl) as [Hj'|Hj']; simpl.
    + rewrite (drop_cons_at v j) by lia. replace (S j) with (j + 1) by lia.
      destruct (bool_decide (char_at p i = char_at v j)) eqn:Hcv; to_prop.
      * rewrite Hset, Hcv. etransitivity; [apply Hrows; lia|]. split; [eauto|].
        by intros (v' & [= <-] & ?).
      * rewrite Hf. split; [done|]. intros (v' & [= ? _] & _). congruence.
    + rewrite Hf, drop_ge by lia. split; [done|]. by intros (v' & ? & _).
Qed.

(** Other cells are left alone. *)
Lemma step_cell_other i j dp i' j' :
  i ≤ pl → j ≤ vl → dims pl vl dp → (i', j') ≠ (i, j) →
  dp_get (step_cell p v i dp j) i' j' = dp_get dp i' j'.
Proof.
  intros Hi Hj Hd Hne.
  assert (∀ b, dp_get (dp_set dp i j b) i' j' = dp_get dp i' j') as Hset.
  { intros b. rewrite (dp_get_set pl vl) by done. rewrite decide_False; [done|].
    intros [-> ->]. done. }
  unfold step_cell. repeat (case_match; rewrite ?Hset; try done).
Qed.

Lemma step_cell_dims i j dp : dims pl vl dp → dims pl vl (step_cell p v i dp j).
Proof. intros Hd. unfold step_cell. repeat (case_match; auto using dims_set). Qed.

(** Rows from [i] on hold their meaning, rows below [i] are untouched. *)
Definition filled_from (i : nat) (dp : table) : Prop :=
  dims pl vl dp ∧ (∀ k t, i ≤ k ≤ pl → t ≤ vl → cell_ok dp k t) ∧
  (∀ k t, k < i → dp_get dp k t = false).

Lemma fill_row_filled i dp : i ≤ pl → filled_from (S i) dp → filled_from i (fill_row p v dp i).
Proof.
  intros Hi (Hd & Hok & Hlow). unfold fill_row.
  pose (P j (d : table) := dims pl vl d ∧ rows_ok d i ∧ (∀ t, j ≤ t ≤ vl → cell_ok d i t) ∧
          (∀ k t, k < i ∨ k = i ∧ t < j → dp_get d k t = false)).
  assert (P 0 (for_rev (vl + 1) (step_cell p v i) dp)) as (Hd' & Hr' & Hi' & Hl').
  { apply for_rev_inv.
    - split; [done|]. split; [intros k t Hk; apply Hok; lia|].
      split; [intros t Ht; lia|]. intros k t Hk. apply Hlow. lia.
    - intros j d Hj (Hd' & Hr' & Hi' & Hl'). split; [by apply step_cell_dims|].
      assert (∀ k t, (k, t) ≠ (i, j) → dp_get (step_cell p v i d j) k t = dp_get d k t) as Hoth.
      { intros k t. apply step_cell_other; (done || lia). }
      split; [|split].
      + intros k t Hk Ht. unfold cell_ok. rewrite Hoth by (intros [=]; lia). by apply Hr'.
      + intros t Ht. destruct (decide (t = j)) as [->|].
        * apply step_cell_value; try done; [lia|]. apply Hl'. lia.
        * unfold cell_ok. rewrite Hoth by (intros [=]; lia). apply Hi'. lia.
      + intros k t Hk. rewrite Hoth by (intros [=]; lia). apply Hl'. lia. }
  split; [done|]. split.
  - intros k t Hk Ht. destruct (decide (k = i)) as [->|]; [apply Hi'; lia|apply Hr'; lia].
  - intros k t Hk. apply Hl'. by left.
Qed.

Lemma fill_filled : filled_from 0 (fill p v).
Proof.
  unfold fill. apply (for_rev_inv filled_from).
  - split; [|split].
    + split; [apply length_replicate|]. by apply Forall_replicate, length_replicate.
    + intros k t Hk. lia.
    + intros k t _. apply dp_get_init.
  - intros i dp Hi Hf. apply fill_row_filled; [lia|done].
Qed.
End correct.

Lemma matches_spec pattern value :
  matches pattern value = true ↔ gmatch (chars pattern) (chars value).
Proof.
  unfold matches. destruct (fill_filled (chars pattern) (chars value)) as (_ & Hok & _).
  apply (Hok 0 0); lia.
Qed.

Lemma gmatch_literal p v : star ∉ p → gmatch p v ↔ v = p.
Proof.
  revert v. induction p as [|c p IH]; intros v Hp; [by rewrite gmatch_nil_iff|].
  apply not_elem_of_cons in Hp as [Hc Hp]. rewrite gmatch_lit_iff by done. split.
  - intros (v' & -> & H). f_equal. by apply IH.
  - intros ->. exists p. split; [done|]. by apply IH.
Qed.

(** A pattern without [*] matches itself and nothing else, whatever other
    signs it holds: there is no regular-expression syntax. *)
Lemma matches_literal pattern value :
  star ∉ chars pattern → matches pattern value = true ↔ chars value = chars pattern.
Proof. intros H. by rewrite matches_spec, gmatch_literal. Qed.

(** The table-filling matcher decides the declarative meaning of a glob, for
    every pattern and value: [**] spans anything, [*] a non-empty run inside one
    segment, and everything else is literal. *)
Theorem matches_gmatch pattern value :
  matches pattern value = true ↔ gmatch (chars pattern) (chars value).
Proof. apply matches_spec. Qed.
