(* ===== verification/Validate.v ===== *)
(** * sv-runtime/src/policy/validate.rs: validation of a parsed document

    [check] runs seven hard checks and collects warnings.  [valid_document] is
    what the checks establish, stated on the document itself. *)
From S2P Require Import Prelude Error Types Document.
Import RuntimeError.

Module ValidationWarning.
Inductive t :=
| UnreachableAllow (rule_id : string)
| AmbiguousRoute (rule_id : string).
#[global] Instance t_eq_dec : EqDecision t.
Proof. solve_decision. Defined.
End ValidationWarning.

(** ** The checks *)

(** [ensure_unique]: [BTreeSet::insert] returns whether the id was new. *)
Fixpoint ensure_unique_go (seen : gset string) (items : list string) : Result unit :=
  match items with
  | [] => Ok tt
  | id :: items' =>
      if bool_decide (id ∈ seen) then Err InvalidStructure
      else ensure_unique_go ({[id]} ∪ seen) items'
  end.

Definition ensure_unique (items : list string) : Result unit := ensure_unique_go ∅ items.

Definition check_unique_ids (doc : PolicyDocument.t) : Result unit :=
  let? _ := ensure_unique (RuleDocument.id <$> PolicyDocument.rule doc) in
  let? _ := ensure_unique (ReferenceClassDocument.id <$> PolicyDocument.reference_class doc) in
  let? _ := ensure_unique (ProviderRouteDocument.id <$> PolicyDocument.provider_route doc) in
  let? _ := ensure_unique (McpServerDocument.id <$> PolicyDocument.mcp_server doc) in
  let? _ := ensure_unique (ProcessProfileDocument.id <$> PolicyDocument.process_profile doc) in
  Ok tt.

Definition check_routes (doc : PolicyDocument.t) : Result unit :=
  let routes : gset string :=
    list_to_set (ProviderRouteDocument.id <$> PolicyDocument.provider_route doc) in
  try_for_each (λ rule : RuleDocument.t,
    match RuleEffect.route (RuleDocument.effect rule) with
    | Some route_id => if bool_decide (route_id ∈ routes) then Ok tt else Err RouteDenied
    | None => Ok tt
    end) (PolicyDocument.rule doc).

(** [for id in ids { if !known.contains(id) { return Err(InvalidStructure) } }]. *)
Definition all_known (known : gset string) (ids : option (list string)) : Result unit :=
  match ids with
  | Some ids =>
      try_for_each (λ id, if bool_decide (id ∈ known) then Ok tt else Err InvalidStructure) ids
  | None => Ok tt
  end.

Definition check_references (doc : PolicyDocument.t) : Result unit :=
  let mcps : gset string := list_to_set (McpServerDocument.id <$> PolicyDocument.mcp_server doc) in
  let profiles : gset string :=
    list_to_set (ProcessProfileDocument.id <$> PolicyDocument.process_profile doc) in
  try_for_each (λ rule : RuleDocument.t,
    let? _ := all_known mcps (RuleMatch.mcp_server_ids (RuleDocument.match_ rule)) in
    all_known profiles (RuleMatch.process_profile_ids (RuleDocument.match_ rule)))
  (PolicyDocument.rule doc).

Definition host_of (url : string) : Result string :=
  let? rest := ok_or (strip_prefix "https://" url) InvalidStructure in
  let authority := split_first "/" rest in
  let host_port := rsplit_first "@" authority in
  Ok (rsplit_first ":" host_port).

Definition check_url (base_url : string) : Result unit :=
  let? host := host_of base_url in
  if negb (starts_with base_url "https://") || bool_decide (host = "") || str_contains "*" host
  then Err InvalidStructure
  else Ok tt.

Definition check_urls (doc : PolicyDocument.t) : Result unit :=
  try_for_each (λ route, check_url (ProviderRouteDocument.base_url route))
    (PolicyDocument.provider_route doc).

Definition FORBIDDEN : list string := ["transit_key"; "signing_key"; "provider_credential"].

Definition check_exposure (doc : PolicyDocument.t) : Result unit :=
  try_for_each (λ rule : RuleDocument.t,
    if bool_decide (RuleEffect.exposure (RuleDocument.effect rule) = Some RuleExposure.Raw) then
      match RuleMatch.resource_kinds (RuleDocument.match_ rule) with
      | Some kinds =>
          if existsb (λ k, bool_decide (k ∈ FORBIDDEN)) kinds then Err InvalidStructure else Ok tt
      | None => Ok tt
      end
    else Ok tt) (PolicyDocument.rule doc).

Definition check_limits (limits : LimitsDocument.t) : Result unit :=
  if (LimitsDocument.request_bytes limits =? 0)%N
     || (LimitsDocument.fragment_bytes limits =? 0)%N
     || (LimitsDocument.response_bytes limits =? 0)%N
     || (LimitsDocument.concurrent_requests_per_principal limits =? 0)%N
     || (LimitsDocument.request_timeout_ms limits =? 0)%N
     || (LimitsDocument.consent_timeout_ms limits =? 0)%N
     || (LimitsDocument.stream_boundary_bytes limits =? 0)%N
  then Err InvalidStructure
  else Ok tt.

(** [is_drive_absolute]: a letter, a colon, a slash or a backslash. *)
Definition is_drive_absolute (s : string) : bool :=
  match chars s with
  | c :: c1 :: c2 :: _ =>
      bool_decide (c1 = ch ":") && (bool_decide (c2 = ch "/") || bool_decide (c2 = ch "\"))
      && is_ascii_alphabetic c
  | _ => false
  end.

(** The characters of the source's string "&|;`$><\n\r". *)
Definition shell_chars : list char :=
  [ch "&"; ch "|"; ch ";"; ch "`"; ch "$"; ch ">"; ch "<"; 10; 13]%N.

Definition check_executable (exe : string) : Result unit :=
  let absolute := starts_with exe "/" || is_drive_absolute exe in
  if negb absolute || existsb (λ c, bool_decide (c ∈ shell_chars)) (chars exe)
  then Err InvalidStructure
  else Ok tt.

Definition check_executables (doc : PolicyDocument.t) : Result unit :=
  try_for_each (λ profile, check_executable (ProcessProfileDocument.executable profile))
    (PolicyDocument.process_profile doc).

(** ** Warnings *)

Definition is_access (a : AccessEffect.t) (rule : RuleDocument.t) : bool :=
  bool_decide (RuleEffect.access (RuleDocument.effect rule) = a).

Definition same_match (r1 r2 : RuleDocument.t) : bool :=
  bool_decide (RuleDocument.match_ r1 = RuleDocument.match_ r2).

Definition route_of (rule : RuleDocument.t) : option string :=
  RuleEffect.route (RuleDocument.effect rule).

(** The two loops of [check_warnings]; [doc.rule.iter().take(i)] are the
    earlier rules, and each inner loop stops at its first hit. *)
Definition check_warnings (doc : PolicyDocument.t) : list ValidationWarning.t :=
  let rules := PolicyDocument.rule doc in
  concat (imap (λ i rule,
    if is_access AccessEffect.Allow rule
       && existsb (λ earlier, is_access AccessEffect.Deny earlier && same_match earlier rule)
            (take i rules)
    then [ValidationWarning.UnreachableAllow (RuleDocument.id rule)] else []) rules)
  ++
  concat (imap (λ i rule,
    if existsb (λ earlier, same_match rule earlier
                           && negb (bool_decide (route_of rule = route_of earlier)))
         (take i rules)
    then [ValidationWarning.AmbiguousRoute (RuleDocument.id rule)] else []) rules).

(** [validate::check]. *)
Definition check (doc : PolicyDocument.t) : Result (list ValidationWarning.t) :=
  let? _ := check_unique_ids doc in
  let? _ := check_routes doc in
  let? _ := check_references doc in
  let? _ := check_urls doc in
  let? _ := check_exposure doc in
  let? _ := check_limits (PolicyDocument.limits doc) in
  let? _ := check_executables doc in
  Ok (check_warnings doc).

(** ** What a valid document satisfies *)

Definition unique_ids (doc : PolicyDocument.t) : Prop :=
  NoDup (RuleDocument.id <$> PolicyDocument.rule doc) ∧
  NoDup (ReferenceClassDocument.id <$> PolicyDocument.reference_class doc) ∧
  NoDup (ProviderRouteDocument.id <$> PolicyDocument.provider_route doc) ∧
  NoDup (McpServerDocument.id <$> PolicyDocument.mcp_server doc) ∧
  NoDup (ProcessProfileDocument.id <$> PolicyDocument.process_profile doc).

Definition routes_known (doc : PolicyDocument.t) : Prop :=
  ∀ rule r, rule ∈ PolicyDocument.rule doc → route_of rule = Some r →
    r ∈ ProviderRouteDocument.id <$> PolicyDocument.provider_route doc.

Definition references_known (doc : PolicyDocument.t) : Prop :=
  ∀ rule, rule ∈ PolicyDocument.rule doc →
    (∀ ids id, RuleMatch.mcp_server_ids (RuleDocument.match_ rule) = Some ids → id ∈ ids →
       id ∈ McpServerDocument.id <$> PolicyDocument.mcp_server doc) ∧
    (∀ ids id, RuleMatch.process_profile_ids (RuleDocument.match_ rule) = Some ids → id ∈ ids →
       id ∈ ProcessProfileDocument.id <$> PolicyDocument.process_profile doc).

Definition no_raw_release (doc : PolicyDocument.t) : Prop :=
  ∀ rule kinds k, rule ∈ PolicyDocument.rule doc →
    RuleEffect.exposure (RuleDocument.effect rule) = Some RuleExposure.Raw →
    RuleMatch.resource_kinds (RuleDocument.match_ rule) = Some kinds → k ∈ kinds →
    k ∉ FORBIDDEN.

Definition limits_positive (l : LimitsDocument.t) : Prop :=
  (0 < LimitsDocument.request_bytes l)%N ∧
  (0 < LimitsDocument.fragment_bytes l)%N ∧
  (0 < LimitsDocument.response_bytes l)%N ∧
  (0 < LimitsDocument.concurrent_requests_per_principal l)%N ∧
  (0 < LimitsDocument.request_timeout_ms l)%N ∧
  (0 < LimitsDocument.consent_timeout_ms l)%N ∧
  (0 < LimitsDocument.stream_boundary_bytes l)%N.

(** What the source calls the host of a URL: the part of the authority after
    its last [@] and then after its last [:]. *)
Definition url_tail (rest : string) : string :=
  rsplit_first ":" (rsplit_first "@" (split_first "/" rest)).

Definition urls_ok (doc : PolicyDocument.t) : Prop :=
  ∀ route, route ∈ PolicyDocument.provider_route doc →
    ∃ rest, ProviderRouteDocument.base_url route = "https://" +:+ rest ∧
      url_tail rest ≠ "" ∧ str_contains "*" (url_tail rest) = false.

Definition executables_ok (doc : PolicyDocument.t) : Prop :=
  ∀ profile, profile ∈ PolicyDocument.process_profile doc →
    let exe := ProcessProfileDocument.executable profile in
    (starts_with exe "/" = true ∨ is_drive_absolute exe = true) ∧
    ∀ c, c ∈ chars exe → c ∉ shell_chars.

Definition valid_document (doc : PolicyDocument.t) : Prop :=
  unique_ids doc ∧ routes_known doc ∧ references_known doc ∧ urls_ok doc ∧
  no_raw_release doc ∧ limits_positive (PolicyDocument.limits doc) ∧ executables_ok doc.

(** ** Each check establishes its part *)

Lemma ensure_unique_go_spec seen items :
  ensure_unique_go seen items = Ok tt ↔ NoDup items ∧ ∀ x, x ∈ items → x ∉ seen.
Proof.
  revert seen. induction items as [|id items IH]; intros seen; simpl.
  - split; [|done]. intros _. split; [constructor|]. intros x []%elem_of_nil.
  - rewrite NoDup_cons. setoid_rewrite elem_of_cons. case_bool_decide as Hid.
    + split; [done|]. intros [_ H]. by destruct (H id); [left|].
    + rewrite IH. setoid_rewrite not_elem_of_union. setoid_rewrite not_elem_of_singleton. split.
      * intros [Hnd Hs]. split; [split; [|done]|].
        -- intros Hin. by destruct (Hs id Hin).
        -- intros x [->|Hx]; [done|]. by apply Hs.
      * intros [[Hn Hnd] Hs]. split; [done|]. intros x Hx. split; [by intros ->|]. auto.
Qed.

Lemma ensure_unique_cases items :
  (NoDup items ∧ ensure_unique items = Ok tt) ∨
  (¬ NoDup items ∧ ensure_unique items = Err InvalidStructure).
Proof.
  unfold ensure_unique.
  assert (ensure_unique_go ∅ items = Ok tt ∨ ensure_unique_go ∅ items = Err InvalidStructure) as Hc.
  { generalize (∅ : gset string). induction items as [|id items IH]; intros seen; simpl; [auto|].
    case_bool_decide; auto. }
  assert (ensure_unique_go ∅ items = Ok tt ↔ NoDup items) as Hs.
  { rewrite ensure_unique_go_spec. split; [by intros [? _]|]. intros ?. split; [done|].
    intros x _. apply not_elem_of_empty. }
  destruct Hc as [H|H]; rewrite <-Hs; rewrite H; auto.
Qed.

Lemma check_unique_ids_cases doc :
  (unique_ids doc ∧ check_unique_ids doc = Ok tt) ∨
  (¬ unique_ids doc ∧ check_unique_ids doc = Err InvalidStructure).
Proof.
  unfold check_unique_ids, unique_ids.
  repeat match goal with
  | |- context [ensure_unique ?l] => destruct (ensure_unique_cases l) as [[? ->]|[? ->]]; simpl
  end; tauto.
Qed.

Lemma check_unique_ids_spec doc : check_unique_ids doc = Ok tt ↔ unique_ids doc.
Proof. destruct (check_unique_ids_cases doc) as [[? ->]|[? ->]]; split; (done || tauto). Qed.

Lemma check_routes_spec doc : check_routes doc = Ok tt ↔ routes_known doc.
Proof.
  unfold check_routes, routes_known, route_of. rewrite try_for_each_Ok. split.
  - intros H rule r Hin Hr. specialize (H rule Hin). rewrite Hr in H.
    case_bool_decide as Hk; [|done]. by apply elem_of_list_to_set in Hk.
  - intros H rule Hin. destruct (RuleEffect.route _) as [r|] eqn:Hr; [|done].
    rewrite bool_decide_eq_true_2; [done|]. apply elem_of_list_to_set. eauto.
Qed.

Lemma all_known_spec known ids :
  all_known (list_to_set known) ids = Ok tt ↔ ∀ l id, ids = Some l → id ∈ l → id ∈ known.
Proof.
  destruct ids as [l|]; simpl; [rewrite try_for_each_Ok|by split; [intros _ ??|]].
  split.
  - intros H l' id [= <-] Hid. specialize (H id Hid). case_bool_decide as Hk; [|done].
    by apply elem_of_list_to_set in Hk.
  - intros H id Hid. rewrite bool_decide_eq_true_2; [done|]. apply elem_of_list_to_set. eauto.
Qed.

Lemma check_references_spec doc : check_references doc = Ok tt ↔ references_known doc.
Proof.
  unfold check_references, references_known. rewrite try_for_each_Ok.
  apply forall_proper; intros rule. apply forall_proper; intros _.
  rewrite <-!all_known_spec.
  destruct (all_known _ (RuleMatch.mcp_server_ids _)) as [[]|]; simpl; [tauto|].
  split; [done|]. intros [? _]. done.
Qed.

Lemma check_url_spec u :
  check_url u = Ok tt ↔
  ∃ rest, u = "https://" +:+ rest ∧ url_tail rest ≠ "" ∧ str_contains "*" (url_tail rest) = false.
Proof.
  unfold check_url, host_of, starts_with. setoid_rewrite <-strip_prefix_Some.
  destruct (strip_prefix "https://" u) as [rest|]; simpl.
  - fold (url_tail rest). destruct (bool_decide (url_tail rest = "") || _) eqn:E; split.
    + done.
    + intros (r & [= <-] & Hne & Hs). rewrite Hs, bool_decide_eq_false_2 in E; done.
    + intros _. exists rest. to_prop. done.
    + done.
  - split; [done|]. by intros (r & ? & _).
Qed.

Lemma check_urls_spec doc : check_urls doc = Ok tt ↔ urls_ok doc.
Proof. unfold check_urls, urls_ok. rewrite try_for_each_Ok. by setoid_rewrite check_url_spec. Qed.

Lemma check_exposure_spec doc : check_exposure doc = Ok tt ↔ no_raw_release doc.
Proof.
  unfold check_exposure, no_raw_release. rewrite try_for_each_Ok. split.
  - intros H rule kinds k Hin Hraw Hk Hin' Hf. specialize (H rule Hin).
    rewrite bool_decide_eq_true_2, Hk in H by done.
    destruct (existsb _ kinds) eqn:E; [done|]. rewrite existsb_none in E.
    specialize (E k Hin'). by rewrite bool_decide_eq_true_2 in E.
  - intros H rule Hin. case_bool_decide as Hraw; [|done].
    destruct (RuleMatch.resource_kinds _) as [kinds|] eqn:Hk; [|done].
    destruct (existsb _ kinds) eqn:E; [|done]. apply existsb_Exists in E as (k & Hin' & Hf).
    to_prop. destruct (H rule kinds k Hin Hraw Hk Hin' Hf).
Qed.

Lemma check_limits_spec l : check_limits l = Ok tt ↔ limits_positive l.
Proof.
  unfold check_limits, limits_positive. destruct (_ || _) eqn:E; split; intros H; try done.
  - rewrite !orb_true_iff, !N.eqb_eq in E. lia.
  - rewrite !orb_false_iff, !N.eqb_neq in E. lia.
Qed.

Lemma check_executables_spec doc : check_executables doc = Ok tt ↔ executables_ok doc.
Proof.
  unfold check_executables, executables_ok. rewrite try_for_each_Ok.
  apply forall_proper; intros profile. apply forall_proper; intros _. simpl.
  unfold check_executable. set (exe := ProcessProfileDocument.executable profile).
  rewrite <-orb_true_iff. destruct (starts_with exe "/" || is_drive_absolute exe) eqn:Ea; simpl.
  - destruct (existsb _ _) eqn:E.
    + split; [done|]. apply existsb_Exists in E as (c & Hc & Hs). to_prop.
      intros [_ H]. by destruct (H c Hc).
    + rewrite existsb_none in E. split; [|done]. intros _. split; [done|].
      intros c Hc. specialize (E c Hc). by to_prop.
  - split; [done|]. by intros [? _].
Qed.

(** ** Which error a rejected document gives *)

Lemma check_url_cases u : check_url u = Ok tt ∨ check_url u = Err InvalidStructure.
Proof.
  unfold check_url, host_of. destruct (strip_prefix _ _); simpl; [|auto]. case_match; auto.
Qed.

Lemma all_known_cases known ids :
  all_known known ids = Ok tt ∨ all_known known ids = Err InvalidStructure.
Proof.
  destruct ids as [l|]; simpl; [|auto]. apply try_for_each_cases. intros x _. case_match; auto.
Qed.

(** Every check after the route check fails with [InvalidStructure] only. *)
Lemma late_checks_cases doc :
  (check_references doc = Ok tt ∨ check_references doc = Err InvalidStructure) ∧
  (check_urls doc = Ok tt ∨ check_urls doc = Err InvalidStructure) ∧
  (check_exposure doc = Ok tt ∨ check_exposure doc = Err InvalidStructure) ∧
  (check_limits (PolicyDocument.limits doc) = Ok tt ∨
   check_limits (PolicyDocument.limits doc) = Err InvalidStructure) ∧
  (check_executables doc = Ok tt ∨ check_executables doc = Err InvalidStructure).
Proof.
  split; [|split; [|split; [|split]]].
  - apply try_for_each_cases. intros rule _.
    destruct (all_known_cases (list_to_set (McpServerDocument.id <$> PolicyDocument.mcp_server doc))
      (RuleMatch.mcp_server_ids (RuleDocument.match_ rule))) as [-> | ->]; simpl; [|auto].
    apply all_known_cases.
  - apply try_for_each_cases. intros route _. apply check_url_cases.
  - apply try_for_each_cases. intros rule _. repeat case_match; auto.
  - unfold check_limits. case_match; auto.
  - apply try_for_each_cases. intros profile _. unfold check_executable. case_match; auto.
Qed.

Lemma check_routes_cases doc :
  (routes_known doc ∧ check_routes doc = Ok tt) ∨
  (¬ routes_known doc ∧ check_routes doc = Err RouteDenied).
Proof.
  rewrite <-check_routes_spec.
  destruct (try_for_each_cases (λ rule : RuleDocument.t,
    match RuleEffect.route (RuleDocument.effect rule) with
    | Some route_id =>
        if bool_decide (route_id ∈@{gset string}
             list_to_set (ProviderRouteDocument.id <$> PolicyDocument.provider_route doc))
        then Ok tt else Err RouteDenied
    | None => Ok tt
    end) RouteDenied (PolicyDocument.rule doc)) as [H|H].
  - intros rule _. repeat case_match; auto.
  - left. done.
  - right. split; [|done]. unfold check_routes. rewrite H. done.
Qed.

(** ** Properties *)

Lemma check_Ok doc : (∃ ws, check doc = Ok ws) ↔ valid_document doc.
Proof.
  unfold valid_document. rewrite <-check_unique_ids_spec, <-check_routes_spec,
    <-check_references_spec, <-check_urls_spec, <-check_exposure_spec, <-check_limits_spec,
    <-check_executables_spec. unfold check. split.
  - intros [ws H]. inv_result. repeat match goal with u : unit |- _ => destruct u end. tauto.
  - intros (-> & -> & -> & -> & -> & -> & ->). simpl. eauto.
Qed.

Lemma check_Err doc e :
  check doc = Err e →
  (e = RouteDenied ∧ unique_ids doc ∧ ¬ routes_known doc) ∨
  (e = InvalidStructure ∧ (¬ unique_ids doc ∨ routes_known doc)).
Proof.
  pose proof (late_checks_cases doc) as (H1 & H2 & H3 & H4 & H5). unfold check.
  destruct (check_unique_ids_cases doc) as [[? ->]|[? ->]]; simpl; [|intros [= <-]; tauto].
  destruct (check_routes_cases doc) as [[? ->]|[? ->]]; simpl; [|intros [= <-]; tauto].
  destruct H1 as [-> | ->]; simpl; [|intros [= <-]; tauto].
  destruct H2 as [-> | ->]; simpl; [|intros [= <-]; tauto].
  destruct H3 as [-> | ->]; simpl; [|intros [= <-]; tauto].
  destruct H4 as [-> | ->]; simpl; [|intros [= <-]; tauto].
  destruct H5 as [-> | ->]; simpl; [done|intros [= <-]; tauto].
Qed.

(** [check] accepts a document exactly when it is valid, and a rejected
    document gives [RouteDenied] exactly when its identifiers are unique and
    some rule names a route that is not registered; every other rejection is
    [InvalidStructure]. *)
Theorem check_valid doc :
  ((∃ ws, check doc = Ok ws) ↔ valid_document doc) ∧
  (check doc = Err RouteDenied ↔ unique_ids doc ∧ ¬ routes_known doc) ∧
  (∀ e, check doc = Err e → e = RouteDenied ∨ e = InvalidStructure).
Proof.
  split; [apply check_Ok|]. split; [split|].
  - intros H. apply check_Err in H as [(_ & ? & ?)|[? _]]; done.
  - intros [Hu Hr]. destruct (check doc) as [ws|e] eqn:E.
    + destruct (proj1 (check_Ok doc)) as (_ & ? & _); eauto; done.
    + apply check_Err in E as [[-> _]|[_ ?]]; tauto.
  - intros e [[-> _]|[-> _]]%check_Err; auto.
Qed.

(** The wildcard check looks at the port instead of the host: a base URL
    with an explicit port is accepted whatever its host is, ["*"] included. *)
Theorem port_hides_wildcard_host host port :
  str_contains "/" (host +:+ port) = false →
  str_contains "@" (host +:+ port) = false →
  str_contains ":" port = false → str_contains "*" port = false → port ≠ "" →
  check_url ("https://" +:+ host +:+ ":" +:+ port) = Ok tt.
Proof.
  rewrite !str_contains_app. intros [Hs1 Hs2]%orb_false_iff [Ha1 Ha2]%orb_false_iff Hc Hstar Hne.
  apply check_url_spec. exists (host +:+ ":" +:+ port). split; [done|].
  assert (url_tail (host +:+ ":" +:+ port) = port) as ->; [|done].
  unfold url_tail. rewrite split_first_no by (rewrite !str_contains_app, Hs1, Hs2; done).
  rewrite (rsplit_first_no "@") by (rewrite !str_contains_app, Ha1, Ha2; done).
  by apply rsplit_first_app.
Qed.

Lemma port_hides_wildcard_host_witness :
  check_url "https://*.attacker.example:8443" = Ok tt ∧
  check_url "https://*.attacker.example" = Err InvalidStructure.
Proof.
  split; [|reflexivity].
  apply (port_hides_wildcard_host "*.attacker.example" "8443"); (reflexivity || discriminate).
Defined.

(** ** Warnings *)

Lemma elem_of_concat_imap {A B} (f : nat → A → list B) (l : list A) b :
  b ∈ concat (imap f l) ↔ ∃ i x, l !! i = Some x ∧ b ∈ f i x.
Proof.
  rewrite list_elem_of_In, in_concat. setoid_rewrite <-list_elem_of_In.
  setoid_rewrite elem_of_lookup_imap. naive_solver.
Qed.

Lemma elem_of_take_lookup {A} (l : list A) i x : x ∈ take i l ↔ ∃ j, j < i ∧ l !! j = Some x.
Proof.
  rewrite list_elem_of_lookup. setoid_rewrite lookup_take_Some. naive_solver.
Qed.

(** An allow rule is reported unreachable exactly when an earlier deny rule
    has the same selector. *)
Lemma unreachable_allow_spec doc rid :
  ValidationWarning.UnreachableAllow rid ∈ check_warnings doc ↔
  ∃ i j rule deny, j < i ∧
    PolicyDocument.rule doc !! i = Some rule ∧ PolicyDocument.rule doc !! j = Some deny ∧
    RuleDocument.id rule = rid ∧
    RuleEffect.access (RuleDocument.effect rule) = AccessEffect.Allow ∧
    RuleEffect.access (RuleDocument.effect deny) = AccessEffect.Deny ∧
    RuleDocument.match_ deny = RuleDocument.match_ rule.
Proof.
  unfold check_warnings. rewrite elem_of_app, !elem_of_concat_imap. split.
  - intros [(i & rule & Hi & H)|(i & rule & Hi & H)]; case_match eqn:E;
      apply list_elem_of_singleton in H || apply elem_of_nil in H; try done.
    injection H as ->. apply andb_true_iff in E as [Ha E]. apply existsb_Exists in E as (d & Hd & E).
    apply elem_of_take_lookup in Hd as (j & Hj & Hd). unfold is_access, same_match in *. to_prop.
    by exists i, j, rule, d.
  - intros (i & j & rule & d & Hj & Hi & Hd & <- & Ha & Hde & Hm). left. exists i, rule.
    split; [done|]. assert (is_access AccessEffect.Allow rule && existsb (λ earlier,
      is_access AccessEffect.Deny earlier && same_match earlier rule)
      (take i (PolicyDocument.rule doc)) = true) as ->; [|by apply list_elem_of_singleton].
    unfold is_access, same_match. rewrite bool_decide_eq_true_2 by done. simpl.
    apply existsb_Exists. exists d. split; [apply elem_of_take_lookup; eauto|].
    by rewrite !bool_decide_eq_true_2.
Qed.
