(* ===== verification/Snapshot.v ===== *)
(** * sv-runtime/src/policy/snapshot.rs: validated snapshots and their store

    SHA-256 and the JSON serializer are parameters: [sha256] hashes a byte
    string, [to_vec] is [serde_json::to_vec] on a document. *)
From S2P Require Import Prelude Error Types Document Validate.
Import RuntimeError.

Module PolicySnapshot.
Record t := mk {
  document : PolicyDocument.t;
  version : PolicyVersion;
  digest : list N;
  warnings : list ValidationWarning.t
}.
End PolicySnapshot.

(** [DIGEST_DOMAIN]. *)
Definition DIGEST_DOMAIN : list N := str_bytes "sovereign-vault/policy-snapshot/v1" ++ [0%N].

Section snapshot.
Context (to_vec : PolicyDocument.t → option (list N)) (sha256 : list N → list N).

Definition compute_digest (document : PolicyDocument.t) : Result (list N) :=
  let? canonical := ok_or (to_vec document) InvalidStructure in
  Ok (sha256 (DIGEST_DOMAIN ++ canonical)).

(** [snapshot::validate]. *)
Definition validate (document : PolicyDocument.t) (version : PolicyVersion) :
    Result PolicySnapshot.t :=
  let? warnings := check document in
  let? digest := compute_digest document in
  Ok (PolicySnapshot.mk document version digest warnings).
End snapshot.

(** ** The store

    [RwLock<Option<Arc<PolicySnapshot>>>]: the slot and the lock's poison flag.
    [activate] writes through a poisoned lock and leaves the flag as it is. *)
Module PolicyStore.
Record t := mk {
  slot : option PolicySnapshot.t;
  poisoned : bool
}.

Definition new : t := mk None false.

(** [PolicyStore::current]. *)
Definition current (self : t) : Result PolicySnapshot.t :=
  if poisoned self then Err PolicyUnavailable
  else ok_or (slot self) PolicyUnavailable.

(** [PolicyStore::activate]. *)
Definition activate (self : t) (snapshot : PolicySnapshot.t) : t :=
  mk (Some snapshot) (poisoned self).

(** A thread that panics while it holds the write guard poisons the lock. *)
Definition poison (self : t) : t := mk (slot self) true.
End PolicyStore.

(** The stores a program can build: a [PolicySnapshot] has private fields, so
    every activated one comes from [validate]. *)
Inductive reachable_store to_vec sha256 : PolicyStore.t → Prop :=
| reachable_new : reachable_store to_vec sha256 PolicyStore.new
| reachable_activate st d v s :
    reachable_store to_vec sha256 st → validate to_vec sha256 d v = Ok s →
    reachable_store to_vec sha256 (PolicyStore.activate st s)
| reachable_poison st :
    reachable_store to_vec sha256 st → reachable_store to_vec sha256 (PolicyStore.poison st).

(** ** Properties *)

(** A snapshot records the document it was built from, which is valid, and the
    digest of its canonical form. *)
Lemma validate_Ok to_vec sha256 d v s :
  validate to_vec sha256 d v = Ok s →
  valid_document d ∧ PolicySnapshot.document s = d ∧ PolicySnapshot.version s = v ∧
  PolicySnapshot.warnings s = check_warnings d ∧
  ∃ canonical, to_vec d = Some canonical ∧
    PolicySnapshot.digest s = sha256 (DIGEST_DOMAIN ++ canonical).
Proof.
  unfold validate, compute_digest. destruct (check d) as [ws|] eqn:Hc; simpl; [|done].
  destruct (to_vec d) as [c|]; simpl; [|done]. intros [= <-]. simpl.
  split; [apply check_Ok; eauto|]. repeat split; [|eauto].
  unfold check in Hc. by inv_result.
Qed.

(** Whatever the order of activations and panics, the store only ever hands
    out a snapshot that validation accepted; a poisoned or empty store gives
    [PolicyUnavailable] instead of a permissive default. *)
Theorem current_is_validated to_vec sha256 st :
  reachable_store to_vec sha256 st →
  match PolicyStore.current st with
  | Ok s => PolicyStore.poisoned st = false ∧ valid_document (PolicySnapshot.document s) ∧
            ∃ v, validate to_vec sha256 (PolicySnapshot.document s) v = Ok s
  | Err e => e = PolicyUnavailable ∧ (PolicyStore.poisoned st = true ∨ PolicyStore.slot st = None)
  end.
Proof.
  intros Hr.
  assert (∀ s, PolicyStore.slot st = Some s → valid_document (PolicySnapshot.document s) ∧
            ∃ v, validate to_vec sha256 (PolicySnapshot.document s) v = Ok s) as Hslot.
  { induction Hr as [|st d v s _ _ Hv|st _ IH]; intros s' Hs; simpl in *; [done| |by apply IH].
    injection Hs as <-. destruct (validate_Ok _ _ _ _ _ Hv) as (Hd & Hdoc & _).
    rewrite Hdoc. eauto. }
  unfold PolicyStore.current. destruct (PolicyStore.poisoned st); [auto|].
  destruct (PolicyStore.slot st) as [s|]; simpl; [|auto]. split; [done|]. by apply Hslot.
Qed.

(** A minimal valid document, for the witness. *)
Definition minimal_document : PolicyDocument.t :=
  PolicyDocument.mk 1 "deny" "personal-default"
    (LimitsDocument.mk 8388608 1048576 16777216 4 120000 120000 256) [] [] [] [] [].

Lemma current_is_validated_witness :
  valid_document minimal_document.
Proof.
  pose (to_vec := λ _ : PolicyDocument.t, Some [1%N]). pose (sha := λ l : list N, take 32 l).
  destruct (validate to_vec sha minimal_document 1%N) as [s|e] eqn:Hv; [|discriminate Hv].
  pose proof (current_is_validated to_vec sha (PolicyStore.activate PolicyStore.new s)
    (reachable_activate to_vec sha _ _ _ _ (reachable_new to_vec sha) Hv)) as (_ & H & _).
  injection Hv as <-. exact H.
Defined.
