(* ===== verification/Evaluator.v ===== *)
(** * sv-runtime/src/policy/evaluator.rs: the policy decision

    [evaluate] decides one request against one snapshot.  [decide_spec] states
    the same decision on the set of rules, without an evaluation order, and
    [evaluate_refines] relates the two. *)
From S2P Require Import Prelude Error Types Document Glob Validate Snapshot.
Import RuntimeError.

Module ClassificationState.
Inductive t := Low | Elevated | Unknown.
#[global] Instance t_eq_dec : EqDecision t.
Proof. solve_decision. Defined.
End ClassificationState.

Module EvaluationFacts.
Record t := mk {
  principal_id : option string;
  principal_kind : option PrincipalKind.t;
  adapter_id : option string;
  transport : option TransportKind.t;
  operation : option string;
  origin_kind : option string;
  destination_kind : option string;
  destination_id : option string;
  host : option string;
  path : option string;
  method : option string;
  mcp_server_id : option string;
  mcp_tool : option string;
  process_profile_id : option string;
  resource_kinds : gset string;
  labels : gset string;
  classification : ClassificationState.t;
  resource_exposure_floor : ExposureClass.t;
  request_bytes : N;
  largest_fragment_bytes : N
}.

(** [EvaluationFacts::default()]. *)
Definition default : t :=
  mk None None None None None None None None None None None None None None ∅ ∅
     ClassificationState.Unknown ExposureClass.default 0 0.
End EvaluationFacts.

Module PolicyDecision.
Record t := mk {
  matched_rules : list string;
  exposure : ExposureClass.t;
  consent : ConsentMode.t;
  limits : EffectiveLimits.t;
  route : option string;
  policy_digest : list N
}.
End PolicyDecision.

(** ** Matching a rule *)

Definition principal_kind_name (kind : PrincipalKind.t) : string :=
  match kind with
  | PrincipalKind.Client => "client"
  | PrincipalKind.Adapter => "adapter"
  | PrincipalKind.McpServer => "mcp_server"
  | PrincipalKind.ProcessProfile => "process_profile"
  end.

Definition transport_name (transport : TransportKind.t) : string :=
  match transport with
  | TransportKind.Stdio => "stdio"
  | TransportKind.Http => "http"
  | TransportKind.WebSocket => "websocket"
  | TransportKind.InProcess => "in_process"
  end.

Definition classification_name (state : ClassificationState.t) : string :=
  match state with
  | ClassificationState.Low => "low"
  | ClassificationState.Elevated => "elevated"
  | ClassificationState.Unknown => "unknown"
  end.

Definition str_eqb (a b : string) : bool := bool_decide (a = b).

(** [opt_in]. *)
Definition opt_in (constraint : option (list string)) (actual : option string) : bool :=
  match constraint with
  | None => true
  | Some allowed => is_some_and actual (λ value, existsb (λ a, str_eqb a value) allowed)
  end.

(** [opt_glob]. *)
Definition opt_glob (constraint : option (list string)) (actual : option string) : bool :=
  match constraint with
  | None => true
  | Some patterns => is_some_and actual (λ value, existsb (λ p, matches p value) patterns)
  end.

(** [label_hit]. *)
Definition label_hit (facts : EvaluationFacts.t) (pattern : string) : bool :=
  existsb (λ label, matches pattern label) (btree_iter (EvaluationFacts.labels facts)).

(** A constraint of the form [if let Some(c) = &selector.f { if !holds(c) { return false } }]. *)
Definition opt_holds {A} (constraint : option A) (holds : A → bool) : bool :=
  match constraint with None => true | Some c => holds c end.

(** [rule_matches]: the early returns are a conjunction. *)
Definition rule_matches (selector : RuleMatch.t) (facts : EvaluationFacts.t) : bool :=
  opt_in (RuleMatch.principal_ids selector) (EvaluationFacts.principal_id facts)
  && opt_holds (RuleMatch.principal_kinds selector) (λ kinds,
       is_some_and (principal_kind_name <$> EvaluationFacts.principal_kind facts)
         (λ name, existsb (λ k, str_eqb k name) kinds))
  && opt_in (RuleMatch.adapter_ids selector) (EvaluationFacts.adapter_id facts)
  && opt_holds (RuleMatch.transports selector) (λ transports,
       is_some_and (transport_name <$> EvaluationFacts.transport facts)
         (λ name, existsb (λ t, str_eqb t name) transports))
  && opt_in (RuleMatch.operations selector) (EvaluationFacts.operation facts)
  && opt_in (RuleMatch.origin_kinds selector) (EvaluationFacts.origin_kind facts)
  && opt_in (RuleMatch.destination_kinds selector) (EvaluationFacts.destination_kind facts)
  && opt_in (RuleMatch.destination_ids selector) (EvaluationFacts.destination_id facts)
  && opt_glob (RuleMatch.host_globs selector) (EvaluationFacts.host facts)
  && opt_holds (RuleMatch.path_prefixes selector) (λ prefixes,
       is_some_and (EvaluationFacts.path facts)
         (λ path, existsb (λ prefix, starts_with path prefix) prefixes))
  && opt_in (RuleMatch.methods selector) (EvaluationFacts.method facts)
  && opt_in (RuleMatch.mcp_server_ids selector) (EvaluationFacts.mcp_server_id facts)
  && opt_glob (RuleMatch.mcp_tool_globs selector) (EvaluationFacts.mcp_tool facts)
  && opt_in (RuleMatch.process_profile_ids selector) (EvaluationFacts.process_profile_id facts)
  && opt_holds (RuleMatch.resource_kinds selector) (λ kinds,
       existsb (λ kind, bool_decide (kind ∈ EvaluationFacts.resource_kinds facts)) kinds)
  && opt_holds (RuleMatch.labels_all selector) (λ required,
       forallb (λ pattern, label_hit facts pattern) required)
  && opt_holds (RuleMatch.labels_any selector) (λ any,
       existsb (λ pattern, label_hit facts pattern) any)
  && opt_holds (RuleMatch.labels_none selector) (λ none,
       negb (existsb (λ pattern, label_hit facts pattern) none))
  && opt_holds (RuleMatch.classification_states selector) (λ states,
       existsb (λ state, str_eqb state (classification_name (EvaluationFacts.classification facts)))
         states).

#[global] Arguments rule_matches : simpl never.

(** ** Evaluation *)

(** The comparator of [ordered.sort_by]: priority descending, then id ascending. *)
Definition rule_cmp (left right : RuleDocument.t) : comparison :=
  match Z.compare (RuleDocument.priority right) (RuleDocument.priority left) with
  | Eq => String.compare (RuleDocument.id left) (RuleDocument.id right)
  | c => c
  end.

Definition rule_le (left right : RuleDocument.t) : bool :=
  match rule_cmp left right with Gt => false | _ => true end.

Definition limits_of (l : LimitsDocument.t) : EffectiveLimits.t :=
  EffectiveLimits.mk
    (LimitsDocument.request_bytes l) (LimitsDocument.fragment_bytes l)
    (LimitsDocument.response_bytes l) (LimitsDocument.concurrent_requests_per_principal l)
    (LimitsDocument.request_timeout_ms l) (LimitsDocument.consent_timeout_ms l)
    (LimitsDocument.stream_boundary_bytes l).

(** The mutable locals of the rule loop. *)
Module Acc.
Record t := mk {
  matched_rules : list string;
  matched_allows : nat;
  exposure : ExposureClass.t;
  consent : ConsentMode.t;
  routes : gset string
}.
End Acc.

(** One iteration: skip, deny, or join the effect. *)
Definition eval_rule (facts : EvaluationFacts.t) (acc : Acc.t) (rule : RuleDocument.t) :
    Result Acc.t :=
  if negb (rule_matches (RuleDocument.match_ rule) facts) then Ok acc
  else
    let effect := RuleDocument.effect rule in
    if bool_decide (RuleEffect.access effect = AccessEffect.Deny) then Err PolicyDenied
    else Ok {|
      Acc.matched_rules := Acc.matched_rules acc ++ [RuleDocument.id rule];
      Acc.matched_allows := S (Acc.matched_allows acc);
      Acc.exposure :=
        match RuleEffect.exposure effect with
        | Some requested => ExposureClass.join (Acc.exposure acc) (RuleExposure.class requested)
        | None => Acc.exposure acc
        end;
      Acc.consent :=
        match RuleEffect.consent effect with
        | Some requested => ConsentMode.join (Acc.consent acc) requested
        | None => Acc.consent acc
        end;
      Acc.routes :=
        match RuleEffect.route effect with
        | Some route => {[route]} ∪ Acc.routes acc
        | None => Acc.routes acc
        end
    |}.

Fixpoint eval_rules (facts : EvaluationFacts.t) (acc : Acc.t) (rules : list RuleDocument.t) :
    Result Acc.t :=
  match rules with
  | [] => Ok acc
  | rule :: rules' => let? acc' := eval_rule facts acc rule in eval_rules facts acc' rules'
  end.

Definition over_limits (limits : EffectiveLimits.t) (facts : EvaluationFacts.t) : bool :=
  (EffectiveLimits.request_bytes limits <? EvaluationFacts.request_bytes facts)%N
  || (EffectiveLimits.fragment_bytes limits <? EvaluationFacts.largest_fragment_bytes facts)%N.

(** [match routes.len() { 0 => None, 1 => .., _ => Err(RouteDenied) }]. *)
Definition single_route (routes : gset string) : Result (option string) :=
  match btree_iter routes with
  | [] => Ok None
  | [r] => Ok (Some r)
  | _ => Err RouteDenied
  end.

(** [evaluator::evaluate]. *)
Definition evaluate (snapshot : PolicySnapshot.t) (facts : EvaluationFacts.t) :
    Result PolicyDecision.t :=
  let document := PolicySnapshot.document snapshot in
  let limits := limits_of (PolicyDocument.limits document) in
  if over_limits limits facts then Err LimitExceeded
  else
    let ordered := sort_by rule_le (PolicyDocument.rule document) in
    let? acc := eval_rules facts
      (Acc.mk [] 0 (EvaluationFacts.resource_exposure_floor facts) ConsentMode.None ∅) ordered in
    if Acc.matched_allows acc =? 0 then Err PolicyDenied
    else
      let elevated :=
        bool_decide (EvaluationFacts.classification facts = ClassificationState.Elevated) in
      let exposure := if elevated
        then ExposureClass.join (Acc.exposure acc) ExposureClass.Transformed
        else Acc.exposure acc in
      let consent := if elevated
        then ConsentMode.join (Acc.consent acc) ConsentMode.Approval else Acc.consent acc in
      let? route := single_route (Acc.routes acc) in
      Ok (PolicyDecision.mk (Acc.matched_rules acc) exposure consent limits route
            (PolicySnapshot.digest snapshot)).

(** ** The decision without an evaluation order *)

Definition hits (facts : EvaluationFacts.t) (rules : list RuleDocument.t) : list RuleDocument.t :=
  List.filter (λ r, rule_matches (RuleDocument.match_ r) facts) rules.

Definition is_deny (rule : RuleDocument.t) : bool :=
  bool_decide (RuleEffect.access (RuleDocument.effect rule) = AccessEffect.Deny).

Definition rule_class (rule : RuleDocument.t) : option ExposureClass.t :=
  RuleExposure.class <$> RuleEffect.exposure (RuleDocument.effect rule).

Definition rule_consent (rule : RuleDocument.t) : option ConsentMode.t :=
  RuleEffect.consent (RuleDocument.effect rule).

Definition route_set (rules : list RuleDocument.t) : gset string := list_to_set (omap route_of rules).

(** What an elevated classification asks for, on top of the rules. *)
Definition elevation {A} (facts : EvaluationFacts.t) (a : A) : list A :=
  if bool_decide (EvaluationFacts.classification facts = ClassificationState.Elevated)
  then [a] else [].

(** The least upper bounds of everything that applies to the request. *)
Definition required_exposure (facts : EvaluationFacts.t) (rules : list RuleDocument.t) :
    ExposureClass.t :=
  join_all (EvaluationFacts.resource_exposure_floor facts)
    (omap rule_class (hits facts rules) ++ elevation facts ExposureClass.Transformed).

Definition required_consent (facts : EvaluationFacts.t) (rules : list RuleDocument.t) :
    ConsentMode.t :=
  join_all ConsentMode.None
    (omap rule_consent (hits facts rules) ++ elevation facts ConsentMode.Approval).

(** The abstract decision: limits, then any deny, then at least one allow, then
    at most one route. *)
Definition decide_spec (snapshot : PolicySnapshot.t) (facts : EvaluationFacts.t) :
    Result PolicyDecision.t :=
  let document := PolicySnapshot.document snapshot in
  let rules := PolicyDocument.rule document in
  let limits := limits_of (PolicyDocument.limits document) in
  if over_limits limits facts then Err LimitExceeded
  else if existsb is_deny (hits facts rules) then Err PolicyDenied
  else if bool_decide (hits facts rules = []) then Err PolicyDenied
  else
    let? route := single_route (route_set (hits facts rules)) in
    Ok (PolicyDecision.mk
          (RuleDocument.id <$> hits facts (sort_by rule_le rules))
          (required_exposure facts rules) (required_consent facts rules) limits route
          (PolicySnapshot.digest snapshot)).

(** ** The loop computes the joins *)

Definition acc_add (acc : Acc.t) (l : list RuleDocument.t) : Acc.t :=
  Acc.mk (Acc.matched_rules acc ++ (RuleDocument.id <$> l)) (Acc.matched_allows acc + length l)
    (join_all (Acc.exposure acc) (omap rule_class l)) (join_all (Acc.consent acc) (omap rule_consent l))
    (route_set l ∪ Acc.routes acc).

Lemma eval_rules_spec facts acc rules :
  eval_rules facts acc rules =
    if existsb is_deny (hits facts rules) then Err PolicyDenied
    else Ok (acc_add acc (hits facts rules)).
Proof.
  revert acc. unfold hits. induction rules as [|r rules IH]; intros acc;
    cbn [eval_rules List.filter existsb].
  - unfold acc_add. simpl. destruct acc; simpl. rewrite app_nil_r, Nat.add_0_r.
    unfold route_set. simpl. by rewrite (left_id_L ∅ (∪)).
  - unfold eval_rule. destruct (rule_matches _ facts) eqn:Hm; cbn [negb rbind existsb]; [|apply IH].
    change (bool_decide (RuleEffect.access (RuleDocument.effect r) = AccessEffect.Deny))
      with (is_deny r).
    destruct (is_deny r); cbn [rbind orb]; [done|]. rewrite IH.
    destruct (existsb is_deny _); [done|]. f_equal. unfold acc_add. simpl. f_equal.
    + by rewrite <-app_assoc.
    + lia.
    + unfold rule_class at 2. by destruct (RuleEffect.exposure _).
    + unfold rule_consent at 2. by destruct (RuleEffect.consent _).
    + unfold route_set, route_of. simpl. destruct (RuleEffect.route _); simpl; [|done]. set_solver.
Qed.

Lemma hits_perm facts l1 l2 : l1 ≡ₚ l2 → hits facts l1 ≡ₚ hits facts l2.
Proof. apply filter_perm. Qed.

Lemma hits_sorted facts rules : hits facts (sort_by rule_le rules) ≡ₚ hits facts rules.
Proof. apply hits_perm, sort_by_perm. Qed.

Lemma elem_of_hits facts rules r :
  r ∈ hits facts rules ↔ r ∈ rules ∧ rule_matches (RuleDocument.match_ r) facts = true.
Proof. unfold hits. rewrite !list_elem_of_In. apply filter_In. Qed.

Lemma route_set_perm l1 l2 : l1 ≡ₚ l2 → route_set l1 = route_set l2.
Proof.
  intros HP. unfold route_set. apply leibniz_equiv. intros x.
  rewrite !elem_of_list_to_set, !list_elem_of_omap. by setoid_rewrite HP.
Qed.

(** The sorted traversal computes the order-free decision. *)
Lemma evaluate_spec snapshot facts : evaluate snapshot facts = decide_spec snapshot facts.
Proof.
  unfold evaluate, decide_spec. destruct (over_limits _ facts); [done|].
  rewrite eval_rules_spec. set (rules := PolicyDocument.rule _).
  rewrite (existsb_perm is_deny _ _ (hits_sorted facts rules)).
  destruct (existsb is_deny _); simpl; [done|].
  rewrite (Permutation_length (hits_sorted facts rules)).
  rewrite (route_set_perm _ _ (hits_sorted facts rules)), (right_id_L ∅ (∪)).
  destruct (hits facts rules) eqn:Hh; simpl; [done|]. rewrite <-Hh.
  destruct (single_route _) as [route|]; simpl; [|done]. do 2 f_equal.
  - unfold required_exposure, elevation. rewrite join_all_app.
    rewrite <-(omap_perm _ _ _ (hits_sorted facts rules)). by case_bool_decide.
  - unfold required_consent, elevation. rewrite join_all_app.
    rewrite <-(omap_perm _ _ _ (hits_sorted facts rules)). by case_bool_decide.
Qed.

Lemma single_route_Ok routes r :
  single_route routes = Ok r →
  (r = None ∧ routes = ∅) ∨ (∃ x, r = Some x ∧ routes = {[x]}).
Proof.
  unfold single_route. intros H. destruct (btree_iter routes) as [|x [|y l]] eqn:E; try done.
  - injection H as <-. left. split; [done|]. apply leibniz_equiv. intros z.
    rewrite <-elem_of_btree_iter, E. set_solver.
  - injection H as <-. right. exists x. split; [done|]. apply leibniz_equiv. intros z.
    rewrite <-elem_of_btree_iter, E, list_elem_of_singleton. set_solver.
Qed.

Lemma single_route_subset r1 r2 x :
  single_route r2 = Ok x → r1 ⊆ r2 → ∃ y, single_route r1 = Ok y ∧ (y = None ∨ y = x).
Proof.
  intros H Hsub.
  assert (r1 = ∅ ∨ ∃ z, x = Some z ∧ r1 = {[z]}) as [->|(z & -> & ->)].
  { destruct (single_route_Ok _ _ H) as [(-> & ->)|(z & -> & ->)].
    - left. set_solver.
    - destruct (decide (z ∈ r1)); [right; exists z; split; [done|set_solver]|left; set_solver]. }
  - exists None. split; [|auto]. done.
  - exists (Some z). split; [|auto]. unfold single_route, btree_iter.
    rewrite elements_singleton. done.
Qed.

(** A successful decision, spelled out. *)
Lemma evaluate_Ok snapshot facts d :
  evaluate snapshot facts = Ok d ↔
  let document := PolicySnapshot.document snapshot in
  let rules := PolicyDocument.rule document in
  over_limits (limits_of (PolicyDocument.limits document)) facts = false ∧
  (∀ r, r ∈ hits facts rules → RuleEffect.access (RuleDocument.effect r) = AccessEffect.Allow) ∧
  hits facts rules ≠ [] ∧
  single_route (route_set (hits facts rules)) = Ok (PolicyDecision.route d) ∧
  PolicyDecision.matched_rules d = RuleDocument.id <$> hits facts (sort_by rule_le rules) ∧
  PolicyDecision.exposure d = required_exposure facts rules ∧
  PolicyDecision.consent d = required_consent facts rules ∧
  PolicyDecision.limits d = limits_of (PolicyDocument.limits document) ∧
  PolicyDecision.policy_digest d = PolicySnapshot.digest snapshot.
Proof.
  rewrite evaluate_spec. unfold decide_spec. simpl. set (rules := PolicyDocument.rule _).
  assert (existsb is_deny (hits facts rules) = false ↔
    ∀ r, r ∈ hits facts rules → RuleEffect.access (RuleDocument.effect r) = AccessEffect.Allow) as Hd.
  { rewrite existsb_none. apply forall_proper; intros r. apply forall_proper; intros _.
    unfold is_deny. rewrite bool_decide_eq_false. destruct (RuleEffect.access _); split; done. }
  rewrite <-Hd. destruct (over_limits _ facts); [split; [done|]; by intros [? _]|].
  destruct (existsb is_deny _); [split; [done|]; by intros (_ & ? & _)|].
  case_bool_decide; [split; [done|]; tauto|].
  destruct (single_route _) as [r|]; simpl; [|split; [done|]; by intros (_ & _ & _ & ? & _)].
  split.
  - intros [= <-]. done.
  - destruct d. simpl. intros (_ & _ & _ & [= ->] & -> & -> & -> & -> & ->). done.
Qed.

(** ** Properties *)

(** C23: [evaluate] is the abstract decision: it does not depend on the order in
    which the sorted rules are visited, and each axis is the least upper bound
    of the resource floor, every matching rule and the classification. *)
Theorem evaluate_refines snapshot facts : evaluate snapshot facts = decide_spec snapshot facts.
Proof. apply evaluate_spec. Qed.

(** A matching deny rule always denies: no set of allow rules, no priority
    and no order makes the request succeed. *)
Theorem deny_overrides snapshot facts deny :
  deny ∈ PolicyDocument.rule (PolicySnapshot.document snapshot) →
  RuleEffect.access (RuleDocument.effect deny) = AccessEffect.Deny →
  rule_matches (RuleDocument.match_ deny) facts = true →
  evaluate snapshot facts =
    Err (if over_limits (limits_of (PolicyDocument.limits (PolicySnapshot.document snapshot))) facts
         then LimitExceeded else PolicyDenied).
Proof.
  intros Hin Hd Hm. rewrite evaluate_spec. unfold decide_spec.
  destruct (over_limits _ facts); [done|].
  assert (existsb is_deny (hits facts (PolicyDocument.rule (PolicySnapshot.document snapshot))) = true)
    as ->; [|done].
  apply existsb_Exists. exists deny. rewrite elem_of_hits. unfold is_deny.
  by rewrite bool_decide_eq_true_2.
Qed.

(** Default deny: a request is granted only when some allow rule matches it,
    it is within the size limits, no matching rule denies, and the decision is
    tied to the snapshot's limits and digest. *)
Theorem granted_only_by_allow snapshot facts d :
  evaluate snapshot facts = Ok d →
  let document := PolicySnapshot.document snapshot in
  (∃ r, r ∈ PolicyDocument.rule document ∧ rule_matches (RuleDocument.match_ r) facts = true ∧
        RuleEffect.access (RuleDocument.effect r) = AccessEffect.Allow) ∧
  (∀ r, r ∈ PolicyDocument.rule document → rule_matches (RuleDocument.match_ r) facts = true →
        RuleEffect.access (RuleDocument.effect r) = AccessEffect.Allow) ∧
  (EvaluationFacts.request_bytes facts ≤
     LimitsDocument.request_bytes (PolicyDocument.limits document))%N ∧
  (EvaluationFacts.largest_fragment_bytes facts ≤
     LimitsDocument.fragment_bytes (PolicyDocument.limits document))%N ∧
  PolicyDecision.limits d = limits_of (PolicyDocument.limits document) ∧
  PolicyDecision.policy_digest d = PolicySnapshot.digest snapshot.
Proof.
  intros (Ho & Ha & Hne & _ & _ & _ & _ & Hl & Hg)%evaluate_Ok. simpl.
  assert (∀ r, r ∈ PolicyDocument.rule (PolicySnapshot.document snapshot) →
     rule_matches (RuleDocument.match_ r) facts = true →
     RuleEffect.access (RuleDocument.effect r) = AccessEffect.Allow) as Hall.
  { intros r Hr Hm. apply Ha. by apply elem_of_hits. }
  split; [|split; [done|]].
  - destruct (hits _ _) as [|r l] eqn:E; [done|].
    assert (r ∈ hits facts (PolicyDocument.rule (PolicySnapshot.document snapshot))) as Hr
      by (rewrite E; left).
    apply elem_of_hits in Hr as [Hr Hm]. eauto.
  - unfold over_limits in Ho. simpl in Ho. apply orb_false_iff in Ho as [H1 H2].
    apply N.ltb_ge in H1, H2. done.
Qed.

Lemma elem_of_axis {A} (f : RuleDocument.t → option A) facts rules r a :
  r ∈ rules → rule_matches (RuleDocument.match_ r) facts = true → f r = Some a →
  a ∈ omap f (hits facts rules).
Proof. intros. apply list_elem_of_omap. exists r. by rewrite elem_of_hits. Qed.

(** Effects only ratchet: the granted exposure and consent are at least as
    strict as the resource's own class, as every matching rule asks, and as an
    elevated classification asks; and they are no stricter than that. *)
Theorem effects_only_ratchet snapshot facts d :
  evaluate snapshot facts = Ok d →
  let rules := PolicyDocument.rule (PolicySnapshot.document snapshot) in
  EvaluationFacts.resource_exposure_floor facts ⊑o PolicyDecision.exposure d ∧
  (∀ r, r ∈ rules → rule_matches (RuleDocument.match_ r) facts = true →
     (∀ e, RuleEffect.exposure (RuleDocument.effect r) = Some e →
        RuleExposure.class e ⊑o PolicyDecision.exposure d) ∧
     (∀ c, RuleEffect.consent (RuleDocument.effect r) = Some c → c ⊑o PolicyDecision.consent d)) ∧
  (EvaluationFacts.classification facts = ClassificationState.Elevated →
     ExposureClass.Transformed ⊑o PolicyDecision.exposure d ∧
     ConsentMode.Approval ⊑o PolicyDecision.consent d) ∧
  (∀ c, EvaluationFacts.resource_exposure_floor facts ⊑o c →
     (∀ r e, r ∈ rules → rule_matches (RuleDocument.match_ r) facts = true →
        RuleEffect.exposure (RuleDocument.effect r) = Some e → RuleExposure.class e ⊑o c) →
     (EvaluationFacts.classification facts = ClassificationState.Elevated →
        ExposureClass.Transformed ⊑o c) →
     PolicyDecision.exposure d ⊑o c).
Proof.
  intros (_ & _ & _ & _ & _ & He & Hc & _)%evaluate_Ok. simpl. rewrite He, Hc.
  unfold required_exposure, required_consent. split; [auto with sv|]. split; [|split].
  - intros r Hr Hm. split.
    + intros e Hre. apply join_all_member, elem_of_app. left.
      eapply elem_of_axis; [done..|]. unfold rule_class. by rewrite Hre.
    + intros c Hrc. apply join_all_member, elem_of_app. left. by eapply elem_of_axis.
  - intros Hel. unfold elevation. rewrite bool_decide_eq_true_2 by done.
    split; apply join_all_member, elem_of_app; right; by left.
  - intros c Hfl Hrules Hel. apply join_all_least; [done|].
    intros a [Ha|Ha]%elem_of_app.
    + apply list_elem_of_omap in Ha as (r & Hr & Ha). apply elem_of_hits in Hr as [Hr Hm].
      unfold rule_class in Ha. destruct (RuleEffect.exposure _) as [e|] eqn:E; simplify_eq/=. eauto.
    + unfold elevation in Ha. case_bool_decide; [|by apply elem_of_nil in Ha].
      apply list_elem_of_singleton in Ha as ->. auto.
Qed.

(** What a rule says apart from its diagnostic priority. *)
Definition sans_priority (r : RuleDocument.t) : string * RuleMatch.t * RuleEffect.t :=
  (RuleDocument.id r, RuleDocument.match_ r, RuleDocument.effect r).

(** Everything a decision grants apart from the diagnostic order. *)
Definition granted (d : PolicyDecision.t) :=
  (PolicyDecision.exposure d, PolicyDecision.consent d, PolicyDecision.limits d,
   PolicyDecision.route d).

Lemma hits_sans_priority facts l :
  sans_priority <$> hits facts l =
  List.filter (λ x, rule_matches x.1.2 facts) (sans_priority <$> l).
Proof.
  unfold hits. induction l as [|r l IH]; [done|]. rewrite fmap_cons. cbn [List.filter].
  change ((sans_priority r).1.2) with (RuleDocument.match_ r).
  destruct (rule_matches _ facts); rewrite ?fmap_cons; by rewrite IH.
Qed.

(** Every axis of the decision reads rules without their priority. *)
Lemma existsb_deny_sans l :
  existsb is_deny l =
  existsb (λ x : string * RuleMatch.t * RuleEffect.t,
             bool_decide (RuleEffect.access x.2 = AccessEffect.Deny)) (sans_priority <$> l).
Proof. induction l as [|r l IH]; csimpl; [done|]. by rewrite IH. Qed.

Lemma omap_effect_sans {A} (f : RuleEffect.t → option A) (l : list RuleDocument.t) :
  omap (λ r, f (RuleDocument.effect r)) l =
  omap (λ x : string * RuleMatch.t * RuleEffect.t, f x.2) (sans_priority <$> l).
Proof. induction l as [|r l IH]; csimpl; [done|]. by rewrite IH. Qed.

Lemma ids_sans (l : list RuleDocument.t) :
  RuleDocument.id <$> l =
  (λ x : string * RuleMatch.t * RuleEffect.t, x.1.1) <$> (sans_priority <$> l).
Proof. by rewrite <-list_fmap_compose. Qed.

(** Priorities and rule order are diagnostics only: two documents with the
    same limits and the same rules up to order and priority grant and deny the
    same requests with the same effects. *)
Theorem priority_is_diagnostic s1 s2 facts :
  PolicyDocument.limits (PolicySnapshot.document s1) =
    PolicyDocument.limits (PolicySnapshot.document s2) →
  sans_priority <$> PolicyDocument.rule (PolicySnapshot.document s1) ≡ₚ
    sans_priority <$> PolicyDocument.rule (PolicySnapshot.document s2) →
  match evaluate s1 facts, evaluate s2 facts with
  | Ok d1, Ok d2 => granted d1 = granted d2 ∧
      PolicyDecision.matched_rules d1 ≡ₚ PolicyDecision.matched_rules d2
  | Err e1, Err e2 => e1 = e2
  | _, _ => False
  end.
Proof.
  intros Hl HP. rewrite !evaluate_spec. unfold decide_spec. rewrite Hl.
  set (l1 := PolicyDocument.rule (PolicySnapshot.document s1)) in *.
  set (l2 := PolicyDocument.rule (PolicySnapshot.document s2)) in *.
  assert (sans_priority <$> hits facts l1 ≡ₚ sans_priority <$> hits facts l2) as HH.
  { rewrite !hits_sans_priority. by apply filter_perm. }
  destruct (over_limits _ facts); [done|].
  rewrite !existsb_deny_sans, (existsb_perm _ _ _ HH). destruct (existsb _ _); [done|].
  assert (hits facts l1 = [] ↔ hits facts l2 = []) as Hnil.
  { apply Permutation_length in HH. rewrite !length_fmap in HH.
    by rewrite <-!length_zero_iff_nil, HH. }
  rewrite (bool_decide_ext _ _ Hnil). case_bool_decide; [done|].
  assert (route_set (hits facts l1) = route_set (hits facts l2)) as ->.
  { unfold route_set, route_of. rewrite !(omap_effect_sans RuleEffect.route).
    apply leibniz_equiv, list_to_set_perm. by apply omap_perm. }
  destruct (single_route _); simpl; [|done]. split.
  - unfold granted. simpl. unfold required_exposure, required_consent, rule_class, rule_consent.
    rewrite !(omap_effect_sans (λ e, RuleExposure.class <$> RuleEffect.exposure e)),
      !(omap_effect_sans RuleEffect.consent).
    by rewrite !(omap_perm _ _ _ HH).
  - rewrite !hits_sorted, !ids_sans. by rewrite HH.
Qed.

(** Adding rules can only tighten: if a request is granted under a larger
    rule set and some rule of the smaller set matches it, the smaller set
    grants it too, with an exposure and a consent that are no stricter. *)
Theorem more_rules_tighten s1 s2 facts d2 :
  PolicyDocument.limits (PolicySnapshot.document s1) =
    PolicyDocument.limits (PolicySnapshot.document s2) →
  PolicyDocument.rule (PolicySnapshot.document s1) ⊆
    PolicyDocument.rule (PolicySnapshot.document s2) →
  evaluate s2 facts = Ok d2 →
  hits facts (PolicyDocument.rule (PolicySnapshot.document s1)) ≠ [] →
  ∃ d1, evaluate s1 facts = Ok d1 ∧
    PolicyDecision.exposure d1 ⊑o PolicyDecision.exposure d2 ∧
    PolicyDecision.consent d1 ⊑o PolicyDecision.consent d2 ∧
    PolicyDecision.limits d1 = PolicyDecision.limits d2.
Proof.
  intros Hl Hsub (Ho & Ha & _ & Hr & _ & He & Hc & Hlim & _)%evaluate_Ok Hne. simpl in *.
  set (l1 := PolicyDocument.rule (PolicySnapshot.document s1)) in *.
  set (l2 := PolicyDocument.rule (PolicySnapshot.document s2)) in *.
  assert (∀ r, r ∈ hits facts l1 → r ∈ hits facts l2) as Hhits.
  { intros r. rewrite !elem_of_hits. intros [??]. split; [by apply Hsub|done]. }
  assert (∀ {A} (f : RuleDocument.t → option A) a,
    a ∈ omap f (hits facts l1) → a ∈ omap f (hits facts l2)) as Hom.
  { intros A f a. rewrite !list_elem_of_omap. intros (r & Hr' & ?). eauto. }
  destruct (single_route_subset (route_set (hits facts l1)) _ _ Hr) as (y & Hy & _).
  { intros x. unfold route_set. rewrite !elem_of_list_to_set. apply Hom. }
  exists (PolicyDecision.mk (RuleDocument.id <$> hits facts (sort_by rule_le l1))
    (required_exposure facts l1) (required_consent facts l1)
    (limits_of (PolicyDocument.limits (PolicySnapshot.document s1))) y (PolicySnapshot.digest s1)).
  split; [|simpl; rewrite He, Hc, Hlim, Hl; split; [|split; [|done]]].
  - apply evaluate_Ok. simpl. rewrite Hl. repeat (split; [by eauto|]). done.
  - apply join_all_mono. intros a. rewrite !elem_of_app. intros [?|?]; eauto.
  - apply join_all_mono. intros a. rewrite !elem_of_app. intros [?|?]; eauto.
Qed.

(** An allow rule that validation reports as unreachable never grants a
    request: whatever it matches is refused. *)
Theorem unreachable_allow_never_grants snapshot facts rid rule :
  PolicySnapshot.warnings snapshot = check_warnings (PolicySnapshot.document snapshot) →
  unique_ids (PolicySnapshot.document snapshot) →
  ValidationWarning.UnreachableAllow rid ∈ PolicySnapshot.warnings snapshot →
  rule ∈ PolicyDocument.rule (PolicySnapshot.document snapshot) → RuleDocument.id rule = rid →
  rule_matches (RuleDocument.match_ rule) facts = true →
  is_ok (evaluate snapshot facts) = false.
Proof.
  intros -> [Hnd _] (i & j & r & deny & _ & Hi & Hj & Hid & _ & Hdeny & Hm)%unreachable_allow_spec
    Hrule Hrid Hmatch.
  assert (r = rule) as ->.
  { apply list_elem_of_lookup in Hrule as [k Hk].
    assert (k = i) as ->; [|congruence].
    apply (NoDup_lookup _ k i rid Hnd); rewrite list_lookup_fmap;
      [rewrite Hk|rewrite Hi]; simpl; congruence. }
  assert (deny ∈ PolicyDocument.rule (PolicySnapshot.document snapshot)) as Hin
    by (apply list_elem_of_lookup; eauto).
  destruct (evaluate snapshot facts) as [d|] eqn:E; [|done].
  apply evaluate_Ok in E as (_ & Ha & _). rewrite Ha in Hdeny; [done|].
  apply elem_of_hits. by rewrite Hm.
Qed.

(** A rule without the nine constraints the evaluator does not look at. *)
Definition drop_unconsulted (r : RuleDocument.t) : RuleDocument.t :=
  let m := RuleDocument.match_ r in
  RuleDocument.mk (RuleDocument.id r) (RuleDocument.priority r)
    (RuleMatch.mk
       (RuleMatch.principal_ids m) (RuleMatch.principal_kinds m) (RuleMatch.adapter_ids m)
       (RuleMatch.transports m) (RuleMatch.operations m) (RuleMatch.origin_kinds m)
       (RuleMatch.destination_kinds m) (RuleMatch.destination_ids m) (RuleMatch.host_globs m)
       (RuleMatch.path_prefixes m) (RuleMatch.methods m) None None
       (RuleMatch.mcp_server_ids m) (RuleMatch.mcp_tool_globs m)
       (RuleMatch.process_profile_ids m) None (RuleMatch.resource_kinds m)
       None None None (RuleMatch.labels_all m)
       (RuleMatch.labels_any m) (RuleMatch.labels_none m) (RuleMatch.classification_states m)
       None None None)
    (RuleDocument.effect r).

Lemma eval_rules_fmap facts acc (f : RuleDocument.t → RuleDocument.t) l :
  (∀ a r, eval_rule facts a (f r) = eval_rule facts a r) →
  eval_rules facts acc (f <$> l) = eval_rules facts acc l.
Proof.
  intros Hf. revert acc. induction l as [|r l IH]; intros acc; [done|]. csimpl.
  rewrite Hf. destruct (eval_rule facts acc r); csimpl; [apply IH|done].
Qed.

(** The evaluator does not consult nine of the selector's constraints: a
    decision is the same after provider ids, model globs, container globs,
    exposure classes, media types, fragment roles, authentication strength,
    session age and time window are removed from every rule of the document, so a
    rule that narrows itself by one of them applies as if it were absent. *)
Theorem unconsulted_constraints snapshot facts :
  let document := PolicySnapshot.document snapshot in
  evaluate
    (PolicySnapshot.mk
       (PolicyDocument.with_rules document (drop_unconsulted <$> PolicyDocument.rule document))
       (PolicySnapshot.version snapshot) (PolicySnapshot.digest snapshot)
       (PolicySnapshot.warnings snapshot)) facts =
  evaluate snapshot facts.
Proof.
  intros document. unfold evaluate. cbn [PolicySnapshot.document PolicyDocument.with_rules
    PolicyDocument.limits PolicyDocument.rule PolicySnapshot.digest]. fold document.
  rewrite sort_by_fmap by done. rewrite eval_rules_fmap by done. done.
Qed.

(** ** A concrete policy for the witnesses *)

Module Sample.
Definition limits : LimitsDocument.t :=
  LimitsDocument.mk 8388608 1048576 16777216 4 120000 120000 256.

Definition rule (id : string) (priority : Z) (access : AccessEffect.t)
    (exposure : option RuleExposure.t) (consent : option ConsentMode.t) (op : string) :
    RuleDocument.t :=
  RuleDocument.mk id priority
    (RuleMatch.mk None None None None (Some [op]) None None None None None None None None None
       None None None None None None None None None None None None None None)
    (RuleEffect.mk access exposure consent AuditRequirement.Required None None None).

Definition doc (rules : list RuleDocument.t) : PolicyDocument.t :=
  PolicyDocument.mk 1 "deny" "sample" limits rules [] [] [] [].

Definition snapshot (rules : list RuleDocument.t) : PolicySnapshot.t :=
  PolicySnapshot.mk (doc rules) 1%N [] (check_warnings (doc rules)).

(** A read of a plain resource. *)
Definition facts : EvaluationFacts.t :=
  EvaluationFacts.mk (Some "cli") (Some PrincipalKind.Client) None (Some TransportKind.Stdio)
    (Some "vault.read") None None None None None None None None None ∅ ∅
    ClassificationState.Low ExposureClass.Raw 100 100.

Definition allow_read := rule "read" 1 AccessEffect.Allow (Some RuleExposure.Redact)
  (Some ConsentMode.Approval) "vault.read".
Definition deny_read := rule "read" 1 AccessEffect.Deny (Some RuleExposure.Redact)
  (Some ConsentMode.Approval) "vault.read".
End Sample.

Lemma deny_overrides_witness :
  evaluate (Sample.snapshot [Sample.rule "all" 99 AccessEffect.Allow None None "vault.read";
                             Sample.deny_read]) Sample.facts = Err PolicyDenied.
Proof.
  refine (deny_overrides (Sample.snapshot [Sample.rule "all" 99 AccessEffect.Allow None None
    "vault.read"; Sample.deny_read]) Sample.facts Sample.deny_read _ _ _);
    [right; by left|reflexivity|vm_compute; reflexivity].
Defined.

Lemma granted_only_by_allow_witness :
  ∃ d, evaluate (Sample.snapshot [Sample.allow_read]) Sample.facts = Ok d ∧
    PolicyDecision.limits d = limits_of Sample.limits.
Proof.
  eexists. split; [vm_compute; reflexivity|].
  eapply (granted_only_by_allow (Sample.snapshot [Sample.allow_read]) Sample.facts).
  vm_compute. reflexivity.
Defined.

Lemma effects_only_ratchet_witness :
  ∃ d, evaluate (Sample.snapshot [Sample.allow_read]) Sample.facts = Ok d ∧
    ExposureClass.Raw ⊑o PolicyDecision.exposure d ∧
    PolicyDecision.exposure d = ExposureClass.Transformed.
Proof.
  eexists. split; [vm_compute; reflexivity|]. split; [|reflexivity].
  eapply (effects_only_ratchet (Sample.snapshot [Sample.allow_read]) Sample.facts).
  vm_compute. reflexivity.
Defined.

Lemma priority_is_diagnostic_witness :
  let s1 := Sample.snapshot [Sample.allow_read;
    Sample.rule "other" 7 AccessEffect.Allow (Some RuleExposure.ExecuteOnly) None "vault.read"] in
  let s2 := Sample.snapshot [
    Sample.rule "other" 0 AccessEffect.Allow (Some RuleExposure.ExecuteOnly) None "vault.read";
    Sample.allow_read] in
  match evaluate s1 Sample.facts, evaluate s2 Sample.facts with
  | Ok d1, Ok d2 => granted d1 = granted d2 ∧
      PolicyDecision.matched_rules d1 ≡ₚ PolicyDecision.matched_rules d2
  | Err e1, Err e2 => e1 = e2
  | _, _ => False
  end.
Proof.
  intros s1 s2. apply (priority_is_diagnostic s1 s2 Sample.facts); [reflexivity|].
  apply Permutation_swap.
Defined.

Lemma more_rules_tighten_witness :
  ∃ d1, evaluate (Sample.snapshot [Sample.allow_read]) Sample.facts = Ok d1 ∧
    PolicyDecision.exposure d1 ⊑o ExposureClass.ExecuteOnly.
Proof.
  set (s2 := Sample.snapshot [Sample.allow_read;
    Sample.rule "other" 7 AccessEffect.Allow (Some RuleExposure.ExecuteOnly) None "vault.read"]).
  destruct (evaluate s2 Sample.facts) as [d2|e] eqn:H2; [|vm_compute in H2; discriminate H2].
  assert (PolicyDecision.exposure d2 = ExposureClass.ExecuteOnly) as <-
    by (vm_compute in H2; injection H2 as <-; reflexivity).
  destruct (more_rules_tighten (Sample.snapshot [Sample.allow_read]) s2 Sample.facts d2)
    as (d1 & H1 & He & _); [reflexivity|set_solver|exact H2|vm_compute; discriminate|].
  by exists d1.
Defined.

Lemma unreachable_allow_never_grants_witness :
  is_ok (evaluate (Sample.snapshot
    [Sample.rule "no" 1 AccessEffect.Deny None None "vault.read"; Sample.allow_read]) Sample.facts)
  = false.
Proof.
  apply (unreachable_allow_never_grants _ Sample.facts "read" Sample.allow_read).
  - reflexivity.
  - split; [|repeat split; apply NoDup_nil_2]. eapply (bool_decide_unpack _). vm_compute. exact I.
  - eapply (bool_decide_unpack _). vm_compute. exact I.
  - right. by left.
  - reflexivity.
  - vm_compute. reflexivity.
Defined.
