(* ===== verification/PolicyDiff.v ===== *)
(** * sv-runtime/src/policy/diff.rs: semantic diff of two snapshots

    The rule maps are [HashMap]s, whose iteration order is unspecified: it is
    the parameter [hash_iter], any enumeration of a map's entries. *)
From S2P Require Import Prelude Error Types Document Validate Snapshot Evaluator.

Module PolicyChange.
Inductive t :=
| RuleAdded (rule_id : string)
| RuleRemoved (rule_id : string)
| RuleChanged (rule_id : string)
| DenyRemoved (rule_id : string)
| DestinationNewlyAllowed (destination_kind : string)
| TransformationWeakened (rule_id : string)
| TransformationStrengthened (rule_id : string)
| ConsentWeakened (rule_id : string)
| ConsentStrengthened (rule_id : string)
| LimitLoosened (field : string)
| LimitTightened (field : string)
| RegistrationAdded (kind id : string)
| RegistrationRemoved (kind id : string).
#[global] Instance t_eq_dec : EqDecision t.
Proof. solve_decision. Defined.
End PolicyChange.
Import PolicyChange.

(** [PolicyDiff { changes }]. *)
Definition PolicyDiff : Type := list PolicyChange.t.

(** [PolicyDiff::has_risk_increase]. *)
Definition has_risk_increase (self : PolicyDiff) : bool :=
  existsb (λ c,
    match c with
    | DenyRemoved _ | DestinationNewlyAllowed _ | TransformationWeakened _
    | ConsentWeakened _ | LimitLoosened _ => true
    | _ => false
    end) self.

Definition risk_key (c : PolicyChange.t) : N :=
  match c with
  | DenyRemoved _ => 0
  | DestinationNewlyAllowed _ => 1
  | TransformationWeakened _ => 2
  | ConsentWeakened _ => 3
  | LimitLoosened _ => 4
  | _ => 5
  end%N.

(** [allowed_kinds]. *)
Definition allowed_kinds (rules : list RuleDocument.t) : gset string :=
  foldl (λ set r,
    if is_access AccessEffect.Allow r then
      match RuleMatch.destination_kinds (RuleDocument.match_ r) with
      | Some kinds => foldl (λ set k, {[k]} ∪ set) set kinds
      | None => set
      end
    else set) ∅ rules.

(** [.map(RuleExposure::class).unwrap_or(ExposureClass::Raw)] and
    [.unwrap_or(ConsentMode::None)]. *)
Definition class_or_raw (r : RuleDocument.t) : ExposureClass.t :=
  default ExposureClass.Raw (RuleExposure.class <$> RuleEffect.exposure (RuleDocument.effect r)).
Definition consent_or_none (r : RuleDocument.t) : ConsentMode.t :=
  default ConsentMode.None (RuleEffect.consent (RuleDocument.effect r)).

(** The body of the loop over rules present in both maps. *)
Definition diff_rule (id : string) (o n : RuleDocument.t) : list PolicyChange.t :=
  (if negb (bool_decide (RuleDocument.match_ o = RuleDocument.match_ n))
      || negb (bool_decide (RuleDocument.effect o = RuleDocument.effect n))
   then [RuleChanged id] else [])
  ++ match ord_cmp (class_or_raw n) (class_or_raw o) with
     | Lt => [TransformationWeakened id]
     | Gt => [TransformationStrengthened id]
     | Eq => []
     end
  ++ match ord_cmp (consent_or_none n) (consent_or_none o) with
     | Lt => [ConsentWeakened id]
     | Gt => [ConsentStrengthened id]
     | Eq => []
     end.

Definition rule_map (rules : list RuleDocument.t) : gmap string RuleDocument.t :=
  collect_map ((λ r, (RuleDocument.id r, r)) <$> rules).

(** [diff_limits]. *)
Definition push_limit (old new : N) (field : string) : list PolicyChange.t :=
  match N.compare new old with
  | Gt => [LimitLoosened field]
  | Lt => [LimitTightened field]
  | Eq => []
  end.

Definition limit_fields : list (string * (LimitsDocument.t → N)) :=
  [("request_bytes", LimitsDocument.request_bytes);
   ("fragment_bytes", LimitsDocument.fragment_bytes);
   ("response_bytes", LimitsDocument.response_bytes);
   ("concurrent_requests_per_principal", LimitsDocument.concurrent_requests_per_principal);
   ("request_timeout_ms", LimitsDocument.request_timeout_ms);
   ("consent_timeout_ms", LimitsDocument.consent_timeout_ms);
   ("stream_boundary_bytes", LimitsDocument.stream_boundary_bytes)].

Definition diff_limits (old new : LimitsDocument.t) : list PolicyChange.t :=
  concat ((λ f : string * (LimitsDocument.t → N), push_limit (f.2 old) (f.2 new) f.1) <$> limit_fields).

(** [reg_diff!]. *)
Definition reg_diff (old new : list string) (kind : string) : list PolicyChange.t :=
  let old_ids : gset string := list_to_set old in
  let new_ids : gset string := list_to_set new in
  (RegistrationAdded kind <$> btree_iter (new_ids ∖ old_ids))
  ++ (RegistrationRemoved kind <$> btree_iter (old_ids ∖ new_ids)).

Definition diff_registrations (old new : PolicyDocument.t) : list PolicyChange.t :=
  reg_diff (ProviderRouteDocument.id <$> PolicyDocument.provider_route old)
    (ProviderRouteDocument.id <$> PolicyDocument.provider_route new) "provider_route"
  ++ reg_diff (McpServerDocument.id <$> PolicyDocument.mcp_server old)
    (McpServerDocument.id <$> PolicyDocument.mcp_server new) "mcp_server"
  ++ reg_diff (ProcessProfileDocument.id <$> PolicyDocument.process_profile old)
    (ProcessProfileDocument.id <$> PolicyDocument.process_profile new) "process_profile"
  ++ reg_diff (ReferenceClassDocument.id <$> PolicyDocument.reference_class old)
    (ReferenceClassDocument.id <$> PolicyDocument.reference_class new) "reference_class".

Section diff.
Context (hash_iter : gmap string RuleDocument.t → list (string * RuleDocument.t)).

Definition diff_rules (old new : PolicyDocument.t) : list PolicyChange.t :=
  let old_map := rule_map (PolicyDocument.rule old) in
  let new_map := rule_map (PolicyDocument.rule new) in
  concat ((λ e : string * RuleDocument.t,
     match new_map !! e.1 with
     | Some _ => []
     | None => RuleRemoved e.1 :: (if is_deny e.2 then [DenyRemoved e.1] else [])
     end) <$> hash_iter old_map)
  ++ concat ((λ e : string * RuleDocument.t,
     match old_map !! e.1 with Some _ => [] | None => [RuleAdded e.1] end) <$> hash_iter new_map)
  ++ concat ((λ e : string * RuleDocument.t,
     match old_map !! e.1, new_map !! e.1 with
     | Some o, Some n => diff_rule e.1 o n
     | _, _ => []
     end) <$> hash_iter old_map)
  ++ (DestinationNewlyAllowed <$>
      btree_iter (allowed_kinds (PolicyDocument.rule new) ∖ allowed_kinds (PolicyDocument.rule old))).

(** [diff::diff]: collect, then a stable sort by risk. *)
Definition diff (old new : PolicySnapshot.t) : PolicyDiff :=
  let o := PolicySnapshot.document old in
  let n := PolicySnapshot.document new in
  sort_by (λ a b, (risk_key a <=? risk_key b)%N)
    (diff_rules o n ++ diff_limits (PolicyDocument.limits o) (PolicyDocument.limits n)
     ++ diff_registrations o n).
End diff.

(** ** What each change means *)

(** [r] is the rule of [d] with identifier [id]. *)
Definition has_rule (d : PolicyDocument.t) (id : string) (r : RuleDocument.t) : Prop :=
  r ∈ PolicyDocument.rule d ∧ RuleDocument.id r = id.

Definition lacks_rule (d : PolicyDocument.t) (id : string) : Prop :=
  id ∉ RuleDocument.id <$> PolicyDocument.rule d.

Definition reaches_kind (d : PolicyDocument.t) (k : string) : Prop :=
  ∃ r kinds, r ∈ PolicyDocument.rule d ∧
    RuleEffect.access (RuleDocument.effect r) = AccessEffect.Allow ∧
    RuleMatch.destination_kinds (RuleDocument.match_ r) = Some kinds ∧ k ∈ kinds.

(** The identifiers a document registers under a kind. *)
Definition registered (d : PolicyDocument.t) (kind id : string) : Prop :=
  (kind = "provider_route" ∧ id ∈ ProviderRouteDocument.id <$> PolicyDocument.provider_route d) ∨
  (kind = "mcp_server" ∧ id ∈ McpServerDocument.id <$> PolicyDocument.mcp_server d) ∨
  (kind = "process_profile" ∧ id ∈ ProcessProfileDocument.id <$> PolicyDocument.process_profile d) ∨
  (kind = "reference_class" ∧ id ∈ ReferenceClassDocument.id <$> PolicyDocument.reference_class d).

Definition change_holds (o n : PolicyDocument.t) (c : PolicyChange.t) : Prop :=
  match c with
  | RuleAdded id => lacks_rule o id ∧ ∃ r, has_rule n id r
  | RuleRemoved id => lacks_rule n id ∧ ∃ r, has_rule o id r
  | DenyRemoved id => lacks_rule n id ∧
      ∃ r, has_rule o id r ∧ RuleEffect.access (RuleDocument.effect r) = AccessEffect.Deny
  | RuleChanged id => ∃ ro rn, has_rule o id ro ∧ has_rule n id rn ∧
      (RuleDocument.match_ ro ≠ RuleDocument.match_ rn ∨
       RuleDocument.effect ro ≠ RuleDocument.effect rn)
  | TransformationWeakened id => ∃ ro rn, has_rule o id ro ∧ has_rule n id rn ∧
      (rank (class_or_raw rn) < rank (class_or_raw ro))%N
  | TransformationStrengthened id => ∃ ro rn, has_rule o id ro ∧ has_rule n id rn ∧
      (rank (class_or_raw ro) < rank (class_or_raw rn))%N
  | ConsentWeakened id => ∃ ro rn, has_rule o id ro ∧ has_rule n id rn ∧
      (rank (consent_or_none rn) < rank (consent_or_none ro))%N
  | ConsentStrengthened id => ∃ ro rn, has_rule o id ro ∧ has_rule n id rn ∧
      (rank (consent_or_none ro) < rank (consent_or_none rn))%N
  | DestinationNewlyAllowed k => reaches_kind n k ∧ ¬ reaches_kind o k
  | LimitLoosened f => ∃ get, (f, get) ∈ limit_fields ∧
      (get (PolicyDocument.limits o) < get (PolicyDocument.limits n))%N
  | LimitTightened f => ∃ get, (f, get) ∈ limit_fields ∧
      (get (PolicyDocument.limits n) < get (PolicyDocument.limits o))%N
  | RegistrationAdded kind id => registered n kind id ∧ ¬ registered o kind id
  | RegistrationRemoved kind id => registered o kind id ∧ ¬ registered n kind id
  end.

(** ** Membership in each part of the diff *)

Lemma elem_of_concat_fmap {A B} (f : A → list B) (l : list A) b :
  b ∈ concat (f <$> l) ↔ ∃ x, x ∈ l ∧ b ∈ f x.
Proof.
  rewrite list_elem_of_In, in_concat. setoid_rewrite <-list_elem_of_In. split.
  - intros (k & Hk & Hb). apply list_elem_of_fmap in Hk as (x & -> & Hx). eauto.
  - intros (x & Hx & Hb). exists (f x). split; [by apply list_elem_of_fmap_2|done].
Qed.

Lemma rule_map_Some d id r :
  NoDup (RuleDocument.id <$> PolicyDocument.rule d) →
  rule_map (PolicyDocument.rule d) !! id = Some r ↔ has_rule d id r.
Proof.
  intros Hnd. unfold rule_map, has_rule. rewrite collect_map_lookup.
  - rewrite list_elem_of_fmap. split.
    + intros (x & [= -> ->] & Hx). done.
    + intros [Hr <-]. eauto.
  - rewrite <-list_fmap_compose. done.
Qed.

Lemma rule_map_None d id :
  NoDup (RuleDocument.id <$> PolicyDocument.rule d) →
  rule_map (PolicyDocument.rule d) !! id = None ↔ lacks_rule d id.
Proof.
  intros Hnd. rewrite eq_None_not_Some. unfold lacks_rule, is_Some.
  setoid_rewrite (rule_map_Some d id _ Hnd). unfold has_rule. rewrite list_elem_of_fmap. split.
  - intros H (r & -> & Hr). eauto.
  - intros H (r & Hr & <-). eauto.
Qed.

Lemma elem_of_allowed_kinds d k :
  k ∈ allowed_kinds (PolicyDocument.rule d) ↔ reaches_kind d k.
Proof.
  unfold allowed_kinds, reaches_kind. generalize (PolicyDocument.rule d). intros rules.
  assert (∀ (kinds : list string) (s : gset string),
    k ∈ foldl (λ set k, {[k]} ∪ set) s kinds ↔ k ∈ kinds ∨ k ∈ s) as Hin.
  { intros kinds. induction kinds as [|a kinds IH]; intros s; simpl; [set_solver|].
    rewrite IH, elem_of_cons, elem_of_union, elem_of_singleton. tauto. }
  assert (∀ s : gset string, k ∈ foldl (λ set r,
      if is_access AccessEffect.Allow r then
        match RuleMatch.destination_kinds (RuleDocument.match_ r) with
        | Some kinds => foldl (λ set k, {[k]} ∪ set) set kinds
        | None => set
        end
      else set) s rules ↔ k ∈ s ∨ ∃ r kinds, r ∈ rules ∧
    RuleEffect.access (RuleDocument.effect r) = AccessEffect.Allow ∧
    RuleMatch.destination_kinds (RuleDocument.match_ r) = Some kinds ∧ k ∈ kinds) as Hgen.
  { induction rules as [|r rules IH]; intros s; simpl.
    - split; [by left|]. intros [?|(r & ks & Hr & _)]; [done|]. by apply elem_of_nil in Hr.
    - rewrite IH. unfold is_access. setoid_rewrite elem_of_cons.
      case_bool_decide as Ha; [destruct (RuleMatch.destination_kinds _) as [ks|] eqn:Ek|];
        [rewrite Hin|..]; split.
      all: try (intros [Hs|(r' & ks' & [->|Hr] & Hx)]; [auto|naive_solver|naive_solver]).
      + intros [[?|?]|(r' & ks' & ? & ?)]; [right; exists r, ks; auto|auto|right; exists r', ks'; tauto].
      + intros [?|(r' & ks' & ? & ?)]; [auto|right; exists r', ks'; tauto].
      + intros [?|(r' & ks' & ? & ?)]; [auto|right; exists r', ks'; tauto]. }
  rewrite Hgen. split; [intros [[]%elem_of_empty|?]; done|auto].
Qed.

Lemma elem_of_diff_rule id o n c :
  c ∈ diff_rule id o n ↔
  (c = RuleChanged id ∧
     (RuleDocument.match_ o ≠ RuleDocument.match_ n ∨ RuleDocument.effect o ≠ RuleDocument.effect n)) ∨
  (c = TransformationWeakened id ∧ (rank (class_or_raw n) < rank (class_or_raw o))%N) ∨
  (c = TransformationStrengthened id ∧ (rank (class_or_raw o) < rank (class_or_raw n))%N) ∨
  (c = ConsentWeakened id ∧ (rank (consent_or_none n) < rank (consent_or_none o))%N) ∨
  (c = ConsentStrengthened id ∧ (rank (consent_or_none o) < rank (consent_or_none n))%N).
Proof.
  unfold diff_rule, ord_cmp. rewrite !elem_of_app.
  assert (c ∈ (if negb (bool_decide (RuleDocument.match_ o = RuleDocument.match_ n))
      || negb (bool_decide (RuleDocument.effect o = RuleDocument.effect n))
      then [RuleChanged id] else []) ↔ c = RuleChanged id ∧
     (RuleDocument.match_ o ≠ RuleDocument.match_ n ∨ RuleDocument.effect o ≠ RuleDocument.effect n)) as ->.
  { repeat case_bool_decide; simpl; rewrite ?list_elem_of_singleton, ?elem_of_nil; tauto. }
  destruct (N.compare_spec (rank (class_or_raw n)) (rank (class_or_raw o))) as [E1|E1|E1],
    (N.compare_spec (rank (consent_or_none n)) (rank (consent_or_none o))) as [E2|E2|E2];
    rewrite ?list_elem_of_singleton, ?elem_of_nil; intuition lia.
Qed.

Lemma elem_of_diff_limits o n c :
  c ∈ diff_limits o n ↔
  ∃ f get, (f, get) ∈ limit_fields ∧
    ((c = LimitLoosened f ∧ (get o < get n)%N) ∨ (c = LimitTightened f ∧ (get n < get o)%N)).
Proof.
  unfold diff_limits. rewrite elem_of_concat_fmap. unfold push_limit. split.
  - intros ([f get] & Hf & Hc). simpl in Hc. exists f, get. split; [done|].
    destruct (N.compare_spec (get n) (get o)); rewrite ?list_elem_of_singleton, ?elem_of_nil in Hc;
      tauto.
  - intros (f & get & Hf & Hc). exists (f, get). split; [done|]. simpl.
    destruct (N.compare_spec (get n) (get o)); rewrite ?list_elem_of_singleton, ?elem_of_nil;
      intuition lia.
Qed.

Lemma elem_of_reg_diff old new kind c :
  c ∈ reg_diff old new kind ↔
  (∃ id, c = RegistrationAdded kind id ∧ id ∈ new ∧ id ∉ old) ∨
  (∃ id, c = RegistrationRemoved kind id ∧ id ∈ old ∧ id ∉ new).
Proof.
  unfold reg_diff. rewrite elem_of_app, !list_elem_of_fmap.
  setoid_rewrite elem_of_btree_iter. setoid_rewrite elem_of_difference.
  setoid_rewrite elem_of_list_to_set. done.
Qed.

Section membership.
Context (hash_iter : gmap string RuleDocument.t → list (string * RuleDocument.t)).
Context (hash_iter_entries : ∀ m, hash_iter m ≡ₚ map_to_list m).
Context (o n : PolicyDocument.t).
Context (Ho : NoDup (RuleDocument.id <$> PolicyDocument.rule o)).
Context (Hn : NoDup (RuleDocument.id <$> PolicyDocument.rule n)).

Lemma elem_of_hash_iter m id r : (id, r) ∈ hash_iter m ↔ m !! id = Some r.
Proof using hash_iter_entries. rewrite hash_iter_entries. apply elem_of_map_to_list. Qed.

Lemma elem_of_diff_rules c :
  c ∈ diff_rules hash_iter o n ↔
  (∃ id r, has_rule o id r ∧ lacks_rule n id ∧
     (c = RuleRemoved id ∨ (is_deny r = true ∧ c = DenyRemoved id))) ∨
  (∃ id r, has_rule n id r ∧ lacks_rule o id ∧ c = RuleAdded id) ∨
  (∃ id ro rn, has_rule o id ro ∧ has_rule n id rn ∧ c ∈ diff_rule id ro rn) ∨
  (∃ k, c = DestinationNewlyAllowed k ∧ reaches_kind n k ∧ ¬ reaches_kind o k).
Proof using hash_iter_entries Ho Hn.
  unfold diff_rules. rewrite !elem_of_app, !elem_of_concat_fmap, list_elem_of_fmap.
  setoid_rewrite elem_of_btree_iter. setoid_rewrite elem_of_difference.
  setoid_rewrite elem_of_allowed_kinds.
  setoid_rewrite <-(rule_map_Some o _ _ Ho). setoid_rewrite <-(rule_map_Some n _ _ Hn).
  setoid_rewrite <-(rule_map_None o _ Ho). setoid_rewrite <-(rule_map_None n _ Hn).
  set (om := rule_map (PolicyDocument.rule o)). set (nm := rule_map (PolicyDocument.rule n)).
  f_equiv; [|f_equiv; [|f_equiv]].
  - split.
    + intros ([id r] & Hr%elem_of_hash_iter & Hc). simpl in Hc.
      destruct (nm !! id) eqn:E; [by apply elem_of_nil in Hc|]. exists id, r.
      apply elem_of_cons in Hc as [->|Hc]; [auto|]. destruct (is_deny r); [|by apply elem_of_nil in Hc].
      apply list_elem_of_singleton in Hc. auto.
    + intros (id & r & Hr & Hlack & Hc). exists (id, r). rewrite elem_of_hash_iter. split; [done|].
      simpl. rewrite Hlack. rewrite elem_of_cons. destruct Hc as [->|[-> ->]]; [auto|].
      right. by apply list_elem_of_singleton.
  - split.
    + intros ([id r] & Hr%elem_of_hash_iter & Hc). simpl in Hc.
      destruct (om !! id) eqn:E; [by apply elem_of_nil in Hc|].
      apply list_elem_of_singleton in Hc. eauto 10.
    + intros (id & r & Hr & Hlack & ->). exists (id, r). rewrite elem_of_hash_iter.
      split; [done|]. simpl. rewrite Hlack. by apply list_elem_of_singleton.
  - split.
    + intros ([id r] & Hr%elem_of_hash_iter & Hc). simpl in Hc. rewrite Hr in Hc.
      destruct (nm !! id) as [rn|] eqn:E; [|by apply elem_of_nil in Hc]. eauto 10.
    + intros (id & ro & rn & Hro & Hrn & Hc). exists (id, ro). rewrite elem_of_hash_iter.
      split; [done|]. simpl. by rewrite Hro, Hrn.
Qed.

Lemma elem_of_diff_registrations c :
  c ∈ diff_registrations o n ↔
  ∃ kind id, (c = RegistrationAdded kind id ∧ registered n kind id ∧ ¬ registered o kind id) ∨
             (c = RegistrationRemoved kind id ∧ registered o kind id ∧ ¬ registered n kind id).
Proof.
  unfold diff_registrations. rewrite !elem_of_app, !elem_of_reg_diff. unfold registered. split.
  - intros [[(id & -> & ? & ?)|(id & -> & ? & ?)]|[[(id & -> & ? & ?)|(id & -> & ? & ?)]|
      [[(id & -> & ? & ?)|(id & -> & ? & ?)]|[(id & -> & ? & ?)|(id & -> & ? & ?)]]]];
      eexists _, id; [left|right|left|right|left|right|left|right]; (split; [reflexivity|]);
      (split; [tauto|]); intros [[? ?]|[[? ?]|[[? ?]|[? ?]]]]; done.
  - intros (kind & id & [(-> & [[-> ?]|[[-> ?]|[[-> ?]|[-> ?]]]] & Hno)|
      (-> & [[-> ?]|[[-> ?]|[[-> ?]|[-> ?]]]] & Hno)]);
      [left; left|right; left; left|right; right; left; left|right; right; right; left|
       left; right|right; left; right|right; right; left; right|right; right; right; right];
      exists id; (split; [done|]); (split; [done|]); tauto.
Qed.
End membership.

Lemma elem_of_diff hash_iter old new c :
  (∀ m, hash_iter m ≡ₚ map_to_list m) →
  NoDup (RuleDocument.id <$> PolicyDocument.rule (PolicySnapshot.document old)) →
  NoDup (RuleDocument.id <$> PolicyDocument.rule (PolicySnapshot.document new)) →
  c ∈ diff hash_iter old new ↔
  change_holds (PolicySnapshot.document old) (PolicySnapshot.document new) c.
Proof.
  intros Hiter Ho Hn. unfold diff. rewrite elem_of_sort_by, !elem_of_app.
  rewrite (elem_of_diff_rules _ Hiter _ _ Ho Hn), elem_of_diff_limits, elem_of_diff_registrations.
  setoid_rewrite elem_of_diff_rule. unfold is_deny. setoid_rewrite bool_decide_eq_true.
  destruct c; simpl; split; intros H; decompose_Forall_hyps;
    repeat match goal with
    | H : _ ∨ _ |- _ => destruct H
    | H : _ ∧ _ |- _ => destruct H
    | H : ∃ _, _ |- _ => destruct H
    end; simplify_eq; eauto 15.
Qed.

Lemma has_rule_unique d id r1 r2 :
  NoDup (RuleDocument.id <$> PolicyDocument.rule d) → has_rule d id r1 → has_rule d id r2 → r1 = r2.
Proof. intros Hnd H1 H2. apply (rule_map_Some d id _ Hnd) in H1, H2. congruence. Qed.

Lemma lacks_rule_has d id r : lacks_rule d id → has_rule d id r → False.
Proof. intros Hl [Hr <-]. apply Hl. by apply list_elem_of_fmap_2. Qed.

Lemma no_change_to_itself d c :
  NoDup (RuleDocument.id <$> PolicyDocument.rule d) → ¬ change_holds d d c.
Proof.
  intros Hnd H.
  assert (∀ id r1 r2, has_rule d id r1 → has_rule d id r2 → r1 = r2) as Hu
    by eauto using has_rule_unique.
  destruct c; simpl in H;
    repeat match goal with
    | H : _ ∧ _ |- _ => destruct H
    | H : ∃ _, _ |- _ => destruct H
    end; try done; try lia;
    match goal with
    | Hl : lacks_rule d ?i, Hr : has_rule d ?i _ |- _ => exact (lacks_rule_has _ _ _ Hl Hr)
    | H1 : has_rule d _ ?a, H2 : has_rule d _ ?b |- _ =>
        pose proof (Hu _ _ _ H1 H2); subst; (lia || tauto)
    end.
Qed.

Lemma risk_key_sorted hash_iter old new :
  StronglySorted (λ a b, (risk_key a ≤ risk_key b)%N) (diff hash_iter old new).
Proof.
  unfold diff. eapply StronglySorted_mono; [|apply sort_by_sorted].
  - intros a b H. by apply N.leb_le in H.
  - intros a b. rewrite !N.leb_le. lia.
  - intros a b c. rewrite !N.leb_le. lia.
Qed.

(** A change widens when its risk key is one of the first five. *)
Lemma has_risk_increase_spec l : has_risk_increase l = true ↔ ∃ c, c ∈ l ∧ (risk_key c < 5)%N.
Proof.
  unfold has_risk_increase. rewrite existsb_Exists. split.
  - intros (c & Hc & Hr). exists c. split; [done|]. by destruct c.
  - intros (c & Hc & Hr). exists c. split; [done|]. by destruct c.
Qed.

(** ** Properties *)

(** The diff is exact: a change is reported precisely when it holds of the
    two documents, whatever order the hash maps are walked in. *)
Theorem diff_exact hash_iter old new c :
  (∀ m, hash_iter m ≡ₚ map_to_list m) →
  NoDup (RuleDocument.id <$> PolicyDocument.rule (PolicySnapshot.document old)) →
  NoDup (RuleDocument.id <$> PolicyDocument.rule (PolicySnapshot.document new)) →
  c ∈ diff hash_iter old new ↔
  change_holds (PolicySnapshot.document old) (PolicySnapshot.document new) c.
Proof. apply elem_of_diff. Qed.

(** The diff lists the highest risk first, is empty between a snapshot and
    itself, and raises the risk flag exactly for a removed deny, a newly
    reachable destination kind, a weakened transformation or consent, or a
    loosened limit. *)
Theorem diff_risk hash_iter old new :
  (∀ m, hash_iter m ≡ₚ map_to_list m) →
  NoDup (RuleDocument.id <$> PolicyDocument.rule (PolicySnapshot.document old)) →
  NoDup (RuleDocument.id <$> PolicyDocument.rule (PolicySnapshot.document new)) →
  StronglySorted (λ a b, (risk_key a ≤ risk_key b)%N) (diff hash_iter old new) ∧
  diff hash_iter old old = [] ∧
  (has_risk_increase (diff hash_iter old new) = true ↔
   ∃ c, (risk_key c < 5)%N ∧
     change_holds (PolicySnapshot.document old) (PolicySnapshot.document new) c).
Proof.
  intros Hiter Ho Hn. split; [apply risk_key_sorted|]. split.
  - apply elem_of_nil_inv. intros c Hc.
    apply (elem_of_diff hash_iter old old c Hiter Ho Ho) in Hc. by apply no_change_to_itself in Hc.
  - rewrite has_risk_increase_spec. setoid_rewrite (elem_of_diff hash_iter old new _ Hiter Ho Hn).
    split; intros (c & ? & ?); eauto.
Qed.

(** The risk flag does not cover every widening: turning the deny rule of a
    valid document into an allow rule, with nothing else changed, lets a denied
    request through and leaves the flag down. *)
Theorem widening_not_flagged :
  ∃ old new facts d,
    check (PolicySnapshot.document old) = Ok [] ∧ check (PolicySnapshot.document new) = Ok [] ∧
    evaluate old facts = Err RuntimeError.PolicyDenied ∧ evaluate new facts = Ok d ∧
    has_risk_increase (diff map_to_list old new) = false.
Proof.
  exists (Sample.snapshot [Sample.deny_read]), (Sample.snapshot [Sample.allow_read]), Sample.facts.
  eexists. repeat split; vm_compute; reflexivity.
Qed.

Lemma diff_exact_witness :
  TransformationWeakened "read" ∈ diff map_to_list (Sample.snapshot [Sample.allow_read])
    (Sample.snapshot [Sample.rule "read" 5 AccessEffect.Allow None None "vault.read"]).
Proof.
  apply diff_exact; [done|by apply NoDup_singleton..|].
  eexists _, _. split; [split; [by left|done]|]. split; [split; [by left|done]|]. done.
Defined.

Lemma diff_risk_witness :
  has_risk_increase (diff map_to_list (Sample.snapshot [Sample.deny_read]) (Sample.snapshot [])) = true.
Proof.
  apply diff_risk; [done|by apply NoDup_singleton|by apply NoDup_nil|].
  exists (DenyRemoved "read"). split; [done|]. split; [|exists Sample.deny_read; repeat split; by left].
  intros []%elem_of_nil.
Defined.
