(* ===== verification/Token.v ===== *)
(** * sv-runtime/src/references/token.rs: opaque tokens and base64url

    A [u8] is an [N] below 256 and a byte array a list of them.  HKDF, HMAC and
    the operating system's random bytes are parameters. *)
From Stdlib Require Import ZifyN ZifyNat.
From S2P Require Import Prelude Error Types.
Import RuntimeError.

Ltac Zify.zify_post_hook ::= Z.div_mod_to_equations.

Definition TOKEN_PREFIX : string := "svref:v1:".
Definition TOKEN_BYTES : nat := 32.
Definition REGISTRY_INFO : list N := str_bytes "sovereign-vault/reference-registry/v1".

(** ** base64url without padding *)

Definition ALPHABET : list N :=
  str_bytes "ABCDEFGHIJKLMNOPQRSTUVWXYZabcdefghijklmnopqrstuvwxyz0123456789-_".

Definition alphabet_at (i : N) : N := default 0%N (ALPHABET !! N.to_nat i).

(** [x as u8]. *)
Definition as_u8 (x : N) : N := (x mod 256)%N.

(** The body of the encoder's loop over [input.chunks(3)]. *)
Definition encode_chunk (chunk : list N) : list N :=
  let b0 := default 0%N (chunk !! 0) in
  let b1 := default 0%N (chunk !! 1) in
  let b2 := default 0%N (chunk !! 2) in
  let triple := N.lor (N.lor (N.shiftl b0 16) (N.shiftl b1 8)) b2 in
  [alphabet_at (N.land (N.shiftr triple 18) 63); alphabet_at (N.land (N.shiftr triple 12) 63)]
  ++ (if 1 <? length chunk then [alphabet_at (N.land (N.shiftr triple 6) 63)] else [])
  ++ (if 2 <? length chunk then [alphabet_at (N.land triple 63)] else []).

Definition base64url_encode (input : list N) : string :=
  str_of_bytes (concat (encode_chunk <$> chunks 3 input)).

(** The [match byte { .. }] of the decoder. *)
Definition decode_byte (byte : N) : option N :=
  if is_ascii_uppercase byte then Some (byte - 65)%N
  else if is_ascii_lowercase byte then Some (byte - 97 + 26)%N
  else if is_ascii_digit byte then Some (byte - 48 + 52)%N
  else if (byte =? 45)%N then Some 62%N
  else if (byte =? 95)%N then Some 63%N
  else None.

(** [for (index, value) in chunk.iter().enumerate() { triple |= value << (18 - 6 * index) }]. *)
Fixpoint gather (triple : N) (index : N) (chunk : list N) : N :=
  match chunk with
  | [] => triple
  | value :: chunk' =>
      gather (N.lor triple (N.shiftl value (18 - 6 * index))) (index + 1) chunk'
  end.

Definition decode_chunk (chunk : list N) : list N :=
  let triple := gather 0 0 chunk in
  [as_u8 (N.shiftr triple 16)]
  ++ (if 2 <? length chunk then [as_u8 (N.shiftr triple 8)] else [])
  ++ (if 3 <? length chunk then [as_u8 triple] else []).

Definition base64url_decode (input : string) : option (list N) :=
  if bool_decide (input = "") then None
  else
    values ← mapM decode_byte (str_bytes input);
    if (length values mod 4 =? 1) then None
    else Some (concat (decode_chunk <$> chunks 4 values)).

(** ** Tokens *)

Section keyed.
Context (hkdf_expand : list N → list N → nat → list N) (hmac : list N → list N → list N).

(** [RegistryKey::derive]. *)
Definition derive_registry_key (root : list N) : list N := hkdf_expand root REGISTRY_INFO 32.

(** [ReferenceToken::id_hash]. *)
Definition token_id_hash (token key : list N) : list N := hmac key token.
End keyed.

(** A [u8; n] array. *)
Definition byte_array (n : nat) (l : list N) : Prop := length l = n ∧ Forall (λ b, (b < 256)%N) l.

#[global] Instance byte_array_dec n l : Decision (byte_array n l).
Proof. unfold byte_array. apply _. Defined.

(** [ReferenceToken::generate], given what the CSPRNG wrote ([None]: it failed). *)
Definition generate_token (filled : option (list N)) : Result (list N) :=
  ok_or filled InvalidStructure.

(** [ReferenceToken::parse]. *)
Definition parse_token (value : string) : Result (list N) :=
  let? encoded := ok_or (strip_prefix TOKEN_PREFIX value) ReferenceInvalid in
  let? decoded := ok_or (base64url_decode encoded) ReferenceInvalid in
  if length decoded =? TOKEN_BYTES then Ok decoded else Err ReferenceInvalid.

(** [ReferenceToken::to_external]. *)
Definition token_to_external (token : list N) : string := TOKEN_PREFIX +:+ base64url_encode token.

(** [impl Debug for ReferenceToken] and [for RegistryKey]. *)
Definition token_debug (token : list N) : string := "ReferenceToken([REDACTED])".
Definition registry_key_debug (key : list N) : string := "RegistryKey([REDACTED])".

(** [id_hash_eq]: equality, in constant time. *)
Definition id_hash_eq (left right : list N) : bool := bool_decide (left = right).

(** ** One group of the code *)

Abbreviation bytes_ok l := (Forall (λ b, (b < 256)%N) l).

Lemma alphabet_byte i : (i < 64)%N → decode_byte (alphabet_at i) = Some i ∧ (alphabet_at i < 256)%N.
Proof.
  intros Hi.
  assert (forallb (λ k, bool_decide (decode_byte (alphabet_at (N.of_nat k)) = Some (N.of_nat k))
     && (alphabet_at (N.of_nat k) <? 256)%N) (seq 0 64) = true) as Hall by (vm_compute; reflexivity).
  rewrite forallb_Forall in Hall. specialize (Hall (N.to_nat i)).
  rewrite N2Nat.id in Hall. rewrite elem_of_seq in Hall. specialize (Hall ltac:(lia)).
  apply andb_true_iff in Hall as [H1 H2%N.ltb_lt]. to_prop. done.
Qed.

(** The sextets of a triple, as arithmetic. *)
Definition sextets (t : N) : list N := [t / 262144 mod 64; t / 4096 mod 64; t / 64 mod 64; t mod 64]%N.

Lemma triple_value b0 b1 b2 :
  (b1 < 256)%N → (b2 < 256)%N →
  N.lor (N.lor (N.shiftl b0 16) (N.shiftl b1 8)) b2 = (b0 * 65536 + b1 * 256 + b2)%N.
Proof.
  intros H1 H2. rewrite (N.shiftl_mul_pow2 b1), lor_shiftl_add by lia.
  replace (b0 * 2 ^ 16 + b1 * 2 ^ 8)%N with ((b0 * 256 + b1) * 2 ^ 8)%N by lia.
  rewrite <-N.shiftl_mul_pow2, lor_shiftl_add by lia. lia.
Qed.

Lemma land_63 x : N.land x 63 = (x mod 64)%N.
Proof. apply (N.land_ones x 6). Qed.

Lemma encode_chunk_sextets chunk :
  bytes_ok chunk → 1 ≤ length chunk ≤ 3 →
  ∃ t, t = (default 0 (chunk !! 0%nat) * 65536 + default 0 (chunk !! 1%nat) * 256
            + default 0 (chunk !! 2%nat))%N ∧
    encode_chunk chunk = alphabet_at <$> take (S (length chunk)) (sextets t).
Proof.
  intros Hb Hl. eexists. split; [reflexivity|]. unfold encode_chunk, sextets.
  rewrite triple_value; [rewrite !land_63, !N.shiftr_div_pow2|..];
    destruct chunk as [|a [|b [|c [|]]]]; simpl in *; try lia; try done;
    rewrite !Forall_cons in Hb; lia.
Qed.

Lemma gather4 v0 v1 v2 v3 :
  (v1 < 64)%N → (v2 < 64)%N → (v3 < 64)%N →
  gather 0 0 [v0; v1; v2; v3] = (v0 * 262144 + v1 * 4096 + v2 * 64 + v3)%N.
Proof.
  intros H1 H2 H3. cbn [gather]. rewrite N.lor_0_l.
  change (18 - 6 * 0)%N with 18%N. change (18 - 6 * (0 + 1))%N with 12%N.
  change (18 - 6 * (0 + 1 + 1))%N with 6%N. change (18 - 6 * (0 + 1 + 1 + 1))%N with 0%N.
  rewrite N.shiftl_0_r.
  rewrite (N.shiftl_mul_pow2 v1), lor_shiftl_add by lia.
  replace (v0 * 2 ^ 18 + v1 * 2 ^ 12)%N with ((v0 * 64 + v1) * 2 ^ 12)%N by lia.
  rewrite <-(N.shiftl_mul_pow2 (v0 * 64 + v1)), (N.shiftl_mul_pow2 v2), lor_shiftl_add by lia.
  replace ((v0 * 64 + v1) * 2 ^ 12 + v2 * 2 ^ 6)%N with (((v0 * 64 + v1) * 64 + v2) * 2 ^ 6)%N by lia.
  rewrite <-(N.shiftl_mul_pow2 ((v0 * 64 + v1) * 64 + v2)), lor_shiftl_add by lia. lia.
Qed.

(** A short group is a full one whose missing values are zero. *)
Lemma gather_pad v0 v1 v2 :
  gather 0 0 [v0; v1] = gather 0 0 [v0; v1; 0%N; 0%N] ∧
  gather 0 0 [v0; v1; v2] = gather 0 0 [v0; v1; v2; 0%N].
Proof. cbn [gather]. by rewrite !N.shiftl_0_l, !N.lor_0_r. Qed.

Lemma decode_encoded_chunk chunk :
  bytes_ok chunk → 1 ≤ length chunk ≤ 3 →
  ∃ vs, mapM decode_byte (encode_chunk chunk) = Some vs ∧ length vs = S (length chunk) ∧
    bytes_ok (encode_chunk chunk) ∧ decode_chunk vs = chunk.
Proof.
  intros Hb Hl. destruct (encode_chunk_sextets chunk Hb Hl) as (t & Ht & ->).
  assert (Forall (λ v, v < 64)%N (take (S (length chunk)) (sextets t))) as Hs.
  { apply Forall_take. unfold sextets. rewrite !Forall_cons. split_and!; [lia..|constructor]. }
  exists (take (S (length chunk)) (sextets t)). split; [|split; [|split]].
  - apply mapM_Some. rewrite Forall2_fmap_l. apply Forall_Forall2_diag.
    eapply Forall_impl; [exact Hs|]. intros v Hv. simpl in Hv. by apply alphabet_byte.
  - rewrite length_take. simpl. lia.
  - apply Forall_fmap. eapply Forall_impl; [exact Hs|]. intros v Hv. by apply alphabet_byte.
  - unfold decode_chunk, sextets, as_u8.
    destruct chunk as [|a [|b [|c [|]]]]; simpl in Hl; try lia; simpl take; simpl length;
      rewrite !Forall_cons in Hb; simpl in Ht;
      rewrite ?(proj1 (gather_pad _ _ 0)), ?(proj2 (gather_pad _ _ _));
      rewrite gather4 by lia; simpl app; rewrite ?N.shiftr_div_pow2; repeat (f_equal; try lia).
Qed.

(** ** Whole strings *)

Definition encode_bytes (l : list N) : list N := concat (encode_chunk <$> chunks 3 l).
Definition decode_values (vs : list N) : list N := concat (decode_chunk <$> chunks 4 vs).

Lemma encode_bytes_app pre l : length pre = 3 → encode_bytes (pre ++ l) = encode_chunk pre ++ encode_bytes l.
Proof. intros H. unfold encode_bytes. rewrite chunks_app by lia. by rewrite fmap_cons. Qed.

Lemma decode_values_app pre vs : length pre = 4 → decode_values (pre ++ vs) = decode_chunk pre ++ decode_values vs.
Proof. intros H. unfold decode_values. rewrite chunks_app by lia. by rewrite fmap_cons. Qed.

Lemma encode_bytes_short l : 1 ≤ length l ≤ 3 → encode_bytes l = encode_chunk l.
Proof.
  intros H. unfold encode_bytes. rewrite chunks_short; [|by destruct l; simpl in *; [lia|]|lia].
  apply app_nil_r.
Qed.

Lemma decode_values_short vs : 1 ≤ length vs ≤ 4 → decode_values vs = decode_chunk vs.
Proof.
  intros H. unfold decode_values. rewrite chunks_short; [|by destruct vs; simpl in *; [lia|]|lia].
  apply app_nil_r.
Qed.

(** What an encoded string decodes to. *)
Definition encodes (l ws : list N) : Prop :=
  ∃ vs, mapM decode_byte ws = Some vs ∧ length vs mod 4 ≠ 1 ∧ decode_values vs = l.

Lemma encodes_app pre wpre l ws vpre :
  length vpre = 4 → mapM decode_byte wpre = Some vpre → decode_chunk vpre = pre →
  encodes l ws → encodes (pre ++ l) (wpre ++ ws).
Proof.
  intros H4 Hm Hd (vs & Hvs & Hlen & Hdec). exists (vpre ++ vs). split; [|split].
  - apply mapM_Some in Hm, Hvs. apply mapM_Some. by apply Forall2_app.
  - rewrite length_app, H4. lia.
  - by rewrite decode_values_app, Hd, Hdec.
Qed.

Lemma encode_bytes_encodes l :
  bytes_ok l → encodes l (encode_bytes l) ∧ bytes_ok (encode_bytes l).
Proof.
  remember (length l) as k eqn:Hk. revert l Hk.
  induction k as [k IH] using lt_wf_ind. intros l -> Hb.
  destruct (decide (l = [])) as [->|Hne].
  { split; [|constructor]. exists []. done. }
  assert (1 ≤ length l) as H1 by (destruct l; [done|simpl; lia]).
  destruct (decide (length l ≤ 3)) as [H3|H3].
  - rewrite encode_bytes_short by lia.
    destruct (decode_encoded_chunk l Hb ltac:(lia)) as (vs & Hm & Hlen & Hw & Hd).
    split; [|done]. exists vs. split; [done|]. rewrite Hlen. split.
    + destruct (length l) as [|[|[|[|]]]]; simpl; lia.
    + rewrite decode_values_short by lia. done.
  - rewrite <-(take_drop 3 l). assert (length (take 3 l) = 3) as Hl3 by (rewrite length_take; lia).
    rewrite encode_bytes_app by done.
    destruct (decode_encoded_chunk (take 3 l) ltac:(by apply Forall_take) ltac:(lia))
      as (vs & Hm & Hlen & Hw & Hd).
    destruct (IH (length (drop 3 l)) ltac:(rewrite length_drop; lia) (drop 3 l) eq_refl
      ltac:(by apply Forall_drop)) as [He Hw'].
    split; [|by apply Forall_app]. eapply encodes_app; [|done..]. lia.
Qed.

Lemma decode_encodes l s : s ≠ "" → encodes l (str_bytes s) → base64url_decode s = Some l.
Proof.
  intros Hne (vs & Hm & Hlen & Hd). unfold base64url_decode.
  rewrite bool_decide_eq_false_2 by done. rewrite Hm. simpl.
  rewrite (proj2 (Nat.eqb_neq _ _)) by done. by rewrite <-Hd.
Qed.

Lemma base64url_round_trip l :
  bytes_ok l → l ≠ [] → base64url_decode (base64url_encode l) = Some l.
Proof.
  intros Hb Hne. destruct (encode_bytes_encodes l Hb) as [He Hw].
  apply decode_encodes.
  - destruct l as [|b l]; [done|]. unfold base64url_encode, chunks. done.
  - unfold base64url_encode. fold (encode_bytes l). by rewrite str_bytes_of_bytes.
Qed.

Lemma decode_values_ok vs : bytes_ok (decode_values vs).
Proof.
  unfold decode_values. apply Forall_concat, Forall_fmap, Forall_forall. intros c _. simpl.
  unfold decode_chunk, as_u8. repeat (case_match; simpl); repeat constructor; lia.
Qed.

Lemma parse_token_wf s t : parse_token s = Ok t → byte_array TOKEN_BYTES t.
Proof.
  unfold parse_token. destruct (strip_prefix _ s) as [enc|]; simpl; [|done].
  destruct (base64url_decode enc) as [d|] eqn:Hd; simpl; [|done].
  destruct (length d =? TOKEN_BYTES) eqn:El; [|done]. intros [= <-].
  apply Nat.eqb_eq in El. split; [done|]. revert Hd. unfold base64url_decode.
  case_bool_decide; [done|]. destruct (mapM _ _) as [vs|]; simpl; [|done].
  destruct (_ =? 1); [done|]. intros [= <-]. apply decode_values_ok.
Qed.

(** ** Spellings of one token *)

Lemma encodes_blocks k pre l ws :
  bytes_ok pre → length pre = 3 * k → encodes l ws → encodes (pre ++ l) (encode_bytes pre ++ ws).
Proof.
  revert pre. induction k as [|k IH]; intros pre Hb Hl He.
  - apply nil_length_inv in Hl as ->. done.
  - rewrite <-(take_drop 3 pre). assert (length (take 3 pre) = 3) as H3 by (rewrite length_take; lia).
    rewrite encode_bytes_app by done. rewrite <-!app_assoc.
    destruct (decode_encoded_chunk (take 3 pre) ltac:(by apply Forall_take) ltac:(lia))
      as (vs & Hm & Hlen & _ & Hd).
    apply (encodes_app (take 3 pre) _ _ _ vs); [rewrite Hlen, H3; done|exact Hm|exact Hd|].
    apply IH; [by apply Forall_drop|rewrite length_drop; lia|done].
Qed.

Lemma encode_bytes_blocks k pre l :
  length pre = 3 * k → encode_bytes (pre ++ l) = encode_bytes pre ++ encode_bytes l.
Proof.
  revert pre. induction k as [|k IH]; intros pre Hl.
  - by apply nil_length_inv in Hl as ->.
  - rewrite <-(take_drop 3 pre). assert (length (take 3 pre) = 3) as H3 by (rewrite length_take; lia).
    rewrite <-app_assoc, !encode_bytes_app by done. rewrite IH by (rewrite length_drop; lia).
    rewrite encode_bytes_app by done. by rewrite <-app_assoc.
Qed.

(** The last character of a two-byte group has two bits that no byte uses. *)
Lemma loose_bits a b :
  (a < 256)%N → (b < 256)%N →
  ∃ w0 w1 w2 w2', encode_chunk [a; b] = [w0; w1; w2] ∧ w2' ≠ w2 ∧ bytes_ok [w0; w1; w2'] ∧
    encodes [a; b] [w0; w1; w2'].
Proof.
  intros Ha Hb.
  destruct (encode_chunk_sextets [a; b]) as (t & Ht & ->); [by repeat constructor|simpl; lia|].
  simpl in Ht. simpl. set (s0 := (t / 262144 mod 64)%N). set (s1 := (t / 4096 mod 64)%N).
  set (s2 := (t / 64 mod 64)%N).
  assert (s0 < 64 ∧ s1 < 64 ∧ s2 + 1 < 64)%N as (H0 & H1 & H2) by (unfold s0, s1, s2; lia).
  exists (alphabet_at s0), (alphabet_at s1), (alphabet_at s2), (alphabet_at (s2 + 1)).
  split; [done|]. split; [|split].
  - intros E. destruct (alphabet_byte (s2 + 1)) as [E1 _]; [lia|].
    destruct (alphabet_byte s2) as [E2 _]; [lia|]. rewrite E, E2 in E1. injection E1. lia.
  - rewrite !Forall_cons. split_and!; [apply alphabet_byte; lia..|constructor].
  - exists [s0; s1; (s2 + 1)%N]. split; [|split; [done|]].
    + apply mapM_Some. repeat constructor; apply alphabet_byte; lia.
    + rewrite decode_values_short by (simpl; lia). unfold decode_chunk. simpl length. simpl Nat.ltb.
      rewrite (proj2 (gather_pad s0 s1 (s2 + 1))), gather4 by lia. unfold as_u8. simpl app.
      rewrite !N.shiftr_div_pow2. unfold s0, s1, s2. repeat (f_equal; try lia).
Qed.

(** ** Properties *)

(** The external form is faithful: parsing the rendering of a token gives the
    token back, and whatever parses is a 32-byte token. *)
Theorem token_round_trip t s u :
  byte_array TOKEN_BYTES t →
  parse_token (token_to_external t) = Ok t ∧
  (parse_token s = Ok u → byte_array TOKEN_BYTES u).
Proof.
  intros [Hl Hb]. split; [|apply parse_token_wf]. unfold parse_token, token_to_external.
  rewrite strip_prefix_app. simpl. rewrite base64url_round_trip; [|done|by destruct t].
  simpl. by rewrite Hl.
Qed.

(** A token has more than one valid spelling: besides its rendering, at least
    one other string parses to it, because the decoder ignores the two unused
    bits of the last character. *)
Theorem token_second_spelling t :
  byte_array TOKEN_BYTES t → ∃ s, s ≠ token_to_external t ∧ parse_token s = Ok t.
Proof.
  intros [Hl Hb]. unfold TOKEN_BYTES in Hl.
  assert (length (take 30 t) = 3 * 10) as H30 by (rewrite length_take; lia).
  assert (length (drop 30 t) = 2) as H2 by (rewrite length_drop; lia).
  destruct (drop 30 t) as [|a [|b [|]]] eqn:Hd; simpl in H2; try lia.
  assert (t = take 30 t ++ [a; b]) as Ht by (rewrite <-Hd; by rewrite take_drop).
  assert (bytes_ok (take 30 t) ∧ bytes_ok [a; b]) as [Hb1 Hb2]
    by (rewrite Ht in Hb; by apply Forall_app in Hb).
  rewrite !Forall_cons in Hb2. destruct Hb2 as (Ha & Hbb & _).
  destruct (loose_bits a b Ha Hbb) as (w0 & w1 & w2 & w2' & Hw & Hne & Hok & Henc).
  set (ws := encode_bytes (take 30 t) ++ [w0; w1; w2']).
  assert (bytes_ok ws) as Hws by (apply Forall_app; split; [by apply encode_bytes_encodes|done]).
  exists (TOKEN_PREFIX +:+ str_of_bytes ws). split.
  - unfold token_to_external, base64url_encode. fold (encode_bytes t). intros E.
    apply (inj (String.append TOKEN_PREFIX)) in E. apply (f_equal str_bytes) in E.
    rewrite !str_bytes_of_bytes in E by (done || by apply encode_bytes_encodes).
    rewrite Ht, (encode_bytes_blocks 10), (encode_bytes_short [a; b]), Hw in E by (done || (simpl; lia)).
    unfold ws in E. apply (inj (app _)) in E. by injection E.
  - unfold parse_token. rewrite strip_prefix_app. simpl.
    rewrite (decode_encodes t (str_of_bytes ws)).
    + simpl. by rewrite Hl.
    + intros E. apply (f_equal str_bytes) in E. rewrite str_bytes_of_bytes in E by done.
      simpl in E. unfold ws in E. by destruct (encode_bytes _).
    + rewrite str_bytes_of_bytes by done. rewrite Ht at 1. unfold ws. by apply (encodes_blocks 10).
Qed.

(** A fixed token for the witnesses. *)
Definition sample_token : list N := replicate 32 7%N.

Lemma token_round_trip_witness : parse_token (token_to_external sample_token) = Ok sample_token.
Proof.
  apply (token_round_trip sample_token "" []). eapply (bool_decide_unpack _). vm_compute. exact I.
Defined.

Lemma token_second_spelling_witness :
  ∃ s, s ≠ token_to_external sample_token ∧ parse_token s = Ok sample_token.
Proof. apply token_second_spelling. eapply (bool_decide_unpack _). vm_compute. exact I. Defined.
