(* ===== verification/Locator.v ===== *)
(** * sv-runtime/src/references/locator.rs: public locators and their exchange

    A locator is a durable random identifier with no authority.  The ledger maps
    locators to resources and keeps each resource's aggregate use count;
    [exchange] is the only operation that yields a token. *)
From S2P Require Import Prelude Error Types Token.
Import RuntimeError.

Definition LOCATOR_PREFIX : string := "[SV:LOC:v1:".
Definition LOCATOR_SUFFIX : string := "]".
Definition LOCATOR_BYTES : nat := 32.

(** ** [PublicLocator] *)

Module PublicLocator.
(** The 32 identifier bytes. *)
Definition t : Type := list N.

(** [generate], given what the CSPRNG wrote ([None]: it failed). *)
Definition generate (filled : option t) : Result t := ok_or filled InvalidStructure.

Definition parse (value : string) : Result t :=
  let? body := ok_or (rest ← strip_prefix LOCATOR_PREFIX value; strip_suffix LOCATOR_SUFFIX rest)
                 ReferenceInvalid in
  let? decoded := ok_or (base64url_decode body) ReferenceInvalid in
  if length decoded =? LOCATOR_BYTES then Ok decoded else Err ReferenceInvalid.

Definition to_external (self : t) : string :=
  LOCATOR_PREFIX +:+ (base64url_encode self +:+ LOCATOR_SUFFIX).

Definition id (self : t) : list N := self.

Definition debug (self : t) : string := "PublicLocator([REDACTED])".
End PublicLocator.

(** ** [LocatorExchangeError] *)

Module LocatorExchangeError.
Inductive t := Unknown | EntryRevoked | ResourceRevoked | Exhausted | Internal.

#[global] Instance t_eq_dec : EqDecision t.
Proof. solve_decision. Defined.

Definition UNAVAILABLE_MESSAGE : string := "locator exchange unavailable".

Definition code (self : t) : string :=
  match self with
  | Unknown | EntryRevoked | ResourceRevoked => "locator_unavailable"
  | Exhausted => "locator_limit_reached"
  | Internal => "locator_exchange_failed"
  end.

Definition display (self : t) : string :=
  match self with
  | Unknown | EntryRevoked | ResourceRevoked => UNAVAILABLE_MESSAGE
  | Exhausted => "locator exchange limit reached"
  | Internal => "locator exchange failed"
  end.
End LocatorExchangeError.

(** ** Records and aggregate state *)

Module LocatorRecord.
Record t := mk { resource : InternalResourceId; revoked : bool }.

Definition new (resource : InternalResourceId) : t := mk resource false.
End LocatorRecord.

Module ResourceState.
Record t := mk { revoked : bool; max_uses : option N; use_count : N }.

Definition new (max_uses : option N) : t := mk false max_uses 0.

(** [consume]: on an error the state is left as it was. *)
Definition consume (self : t) : result t LocatorExchangeError.t :=
  if is_some_and (max_uses self) (λ max, (max <=? use_count self)%N)
  then Err LocatorExchangeError.Exhausted
  else
    let? n := ok_or (checked_add_u32 (use_count self) 1) LocatorExchangeError.Exhausted in
    Ok (mk (revoked self) (max_uses self) n).
End ResourceState.

(** ** [LocatorLedger] *)

Module LocatorLedger.
Record t := mk {
  records : gmap (list N) LocatorRecord.t;
  resources : gmap InternalResourceId ResourceState.t
}.

Definition new : t := mk ∅ ∅.

(** [map]: [entry(..).or_insert_with(..)], then the record. *)
Definition map (self : t) (locator : PublicLocator.t) (resource : InternalResourceId) : Result t :=
  match records self !! PublicLocator.id locator with
  | Some _ => Err InvalidStructure
  | None =>
      let resources' :=
        match resources self !! resource with
        | Some _ => resources self
        | None => <[resource := ResourceState.new None]> (resources self)
        end in
      Ok (mk (<[PublicLocator.id locator := LocatorRecord.new resource]> (records self)) resources')
  end.

Definition revoke_entry (self : t) (locator : PublicLocator.t) : t :=
  match records self !! PublicLocator.id locator with
  | Some record =>
      mk (<[PublicLocator.id locator := LocatorRecord.mk (LocatorRecord.resource record) true]>
            (records self)) (resources self)
  | None => self
  end.

Definition revoke_resource (self : t) (resource : InternalResourceId) : t :=
  match resources self !! resource with
  | Some state =>
      mk (records self)
        (<[resource := ResourceState.mk true (ResourceState.max_uses state)
                         (ResourceState.use_count state)]> (resources self))
  | None => self
  end.

(** [exchange], given what the CSPRNG writes for the token.  The use is consumed
    before the token is generated. *)
Definition exchange (filled : option (list N)) (self : t) (locator : PublicLocator.t) :
    t * result (list N) LocatorExchangeError.t :=
  match records self !! PublicLocator.id locator with
  | None => (self, Err LocatorExchangeError.Unknown)
  | Some record =>
      if LocatorRecord.revoked record then (self, Err LocatorExchangeError.EntryRevoked)
      else
        match resources self !! LocatorRecord.resource record with
        | None => (self, Err LocatorExchangeError.Unknown)
        | Some state =>
            if ResourceState.revoked state then (self, Err LocatorExchangeError.ResourceRevoked)
            else
              match ResourceState.consume state with
              | Err e => (self, Err e)
              | Ok state' =>
                  (mk (records self) (<[LocatorRecord.resource record := state']> (resources self)),
                   match generate_token filled with
                   | Ok token => Ok token
                   | Err _ => Err LocatorExchangeError.Internal
                   end)
              end
        end
  end.

Definition resource_of (self : t) (locator : PublicLocator.t) : option InternalResourceId :=
  LocatorRecord.resource <$> records self !! PublicLocator.id locator.

Definition use_count (self : t) (resource : InternalResourceId) : option N :=
  ResourceState.use_count <$> resources self !! resource.
End LocatorLedger.

(** ** Histories of a ledger

    One public call each; the ledger's fields are private, so a program changes a
    ledger only through these. *)
Inductive ledger_op :=
| OpMap (locator : PublicLocator.t) (resource : InternalResourceId)
| OpRevokeEntry (locator : PublicLocator.t)
| OpRevokeResource (resource : InternalResourceId)
| OpExchange (locator : PublicLocator.t) (filled : option (list N)).

(** The ledger after a call, and the resource a token was issued for. *)
Definition apply_op (l : LocatorLedger.t) (op : ledger_op) :
    LocatorLedger.t * option InternalResourceId :=
  match op with
  | OpMap loc r => (match LocatorLedger.map l loc r with Ok l' => l' | Err _ => l end, None)
  | OpRevokeEntry loc => (LocatorLedger.revoke_entry l loc, None)
  | OpRevokeResource r => (LocatorLedger.revoke_resource l r, None)
  | OpExchange loc filled =>
      let '(l', res) := LocatorLedger.exchange filled l loc in
      (l', match res with Ok _ => LocatorLedger.resource_of l loc | Err _ => None end)
  end.

Fixpoint run (l : LocatorLedger.t) (ops : list ledger_op) :
    LocatorLedger.t * list InternalResourceId :=
  match ops with
  | [] => (l, [])
  | op :: ops' =>
      let '(l1, issued) := apply_op l op in
      let '(l2, rest) := run l1 ops' in (l2, option_list issued ++ rest)
  end.

(** Tokens issued for [r]. *)
Definition issued_for (r : InternalResourceId) (issued : list InternalResourceId) : nat :=
  length (List.filter (λ x, bool_decide (x = r)) issued).

(** ** Lemmas *)

Lemma consume_Ok s s' :
  ResourceState.consume s = Ok s' ↔
  (∀ max, ResourceState.max_uses s = Some max → (ResourceState.use_count s < max)%N) ∧
  (ResourceState.use_count s + 1 ≤ u32_max)%N ∧
  s' = ResourceState.mk (ResourceState.revoked s) (ResourceState.max_uses s)
         (ResourceState.use_count s + 1).
Proof.
  unfold ResourceState.consume. destruct s as [rev mx n]. simpl.
  destruct mx as [max|]; simpl; [destruct (N.leb_spec max n) as [Hle|Hlt]|].
  - split; [done|]. intros [H _]. specialize (H max eq_refl). lia.
  - destruct (checked_add_u32 n 1) as [c|] eqn:Hc; simpl.
    + apply checked_add_u32_Some in Hc as [-> Hc]. split; [intros [= <-]|by intros (_ & _ & ->)].
      split_and!; [by intros ? [= <-]|done..].
    + split; [done|]. intros (_ & Hb & _). unfold checked_add_u32 in Hc.
      by rewrite (proj2 (N.leb_le _ _) Hb) in Hc.
  - destruct (checked_add_u32 n 1) as [c|] eqn:Hc; simpl.
    + apply checked_add_u32_Some in Hc as [-> Hc]. split; [by intros [= <-]|by intros (_ & _ & ->)].
    + split; [done|]. intros (_ & Hb & _). unfold checked_add_u32 in Hc.
      by rewrite (proj2 (N.leb_le _ _) Hb) in Hc.
Qed.

Lemma consume_Err s e : ResourceState.consume s = Err e → e = LocatorExchangeError.Exhausted.
Proof.
  unfold ResourceState.consume. destruct (is_some_and _ _); [by intros [= <-]|].
  by destruct (checked_add_u32 _ _); intros [= <-].
Qed.

(** A locator that cannot be exchanged: unmapped, revoked, or of a resource that
    is missing or revoked. *)
Definition unresolvable (l : LocatorLedger.t) (loc : PublicLocator.t) : Prop :=
  match LocatorLedger.records l !! PublicLocator.id loc with
  | None => True
  | Some record =>
      LocatorRecord.revoked record = true ∨
      match LocatorLedger.resources l !! LocatorRecord.resource record with
      | None => True
      | Some state => ResourceState.revoked state = true
      end
  end.

(** [exchange], by cases on the ledger. *)
Lemma exchange_cases filled l loc :
  (unresolvable l loc ∧ ∃ e, LocatorLedger.exchange filled l loc = (l, Err e) ∧
     LocatorExchangeError.code e = "locator_unavailable" ∧
     LocatorExchangeError.display e = LocatorExchangeError.UNAVAILABLE_MESSAGE) ∨
  (∃ record state, LocatorLedger.records l !! PublicLocator.id loc = Some record ∧
     LocatorRecord.revoked record = false ∧
     LocatorLedger.resources l !! LocatorRecord.resource record = Some state ∧
     ResourceState.revoked state = false ∧
     ((ResourceState.consume state = Err LocatorExchangeError.Exhausted ∧
       LocatorLedger.exchange filled l loc = (l, Err LocatorExchangeError.Exhausted)) ∨
      (∃ state', ResourceState.consume state = Ok state' ∧
       LocatorLedger.exchange filled l loc =
         (LocatorLedger.mk (LocatorLedger.records l)
            (<[LocatorRecord.resource record := state']> (LocatorLedger.resources l)),
          match filled with Some t => Ok t | None => Err LocatorExchangeError.Internal end)))).
Proof.
  unfold LocatorLedger.exchange, unresolvable.
  destruct (LocatorLedger.records l !! PublicLocator.id loc) as [record|]; [|left; split; [done|]; eauto].
  destruct (LocatorRecord.revoked record) eqn:Hrev; [left; split; [by left|]; eauto|].
  destruct (LocatorLedger.resources l !! _) as [state|] eqn:Hst; [|left; split; [by right|]; eauto].
  destruct (ResourceState.revoked state) eqn:Hsr; [left; split; [by right|]; eauto|].
  right. exists record, state. split_and!; [done..|].
  destruct (ResourceState.consume state) as [state'|e] eqn:Hc.
  - right. exists state'. split; [done|]. by destruct filled.
  - left. apply consume_Err in Hc as ->. done.
Qed.

Lemma unresolvable_fails filled l loc :
  unresolvable l loc → ∃ e, LocatorLedger.exchange filled l loc = (l, Err e) ∧
    LocatorExchangeError.code e = "locator_unavailable" ∧
    LocatorExchangeError.display e = LocatorExchangeError.UNAVAILABLE_MESSAGE.
Proof.
  intros Hun. destruct (exchange_cases filled l loc) as [(_ & H)|(rec & st & H1 & H2 & H3 & H4 & _)];
    [exact H|]. exfalso. unfold unresolvable in Hun. rewrite H1, H2, H3, H4 in Hun.
  by destruct Hun.
Qed.

(** The changes a single call can make to a mapping and to a resource. *)
Definition ledger_le (l l' : LocatorLedger.t) : Prop :=
  (∀ (loc : list N) rec, LocatorLedger.records l !! loc = Some rec →
     ∃ rec', LocatorLedger.records l' !! loc = Some rec' ∧
       LocatorRecord.resource rec' = LocatorRecord.resource rec ∧
       (LocatorRecord.revoked rec = true → LocatorRecord.revoked rec' = true)) ∧
  (∀ (r : InternalResourceId) st, LocatorLedger.resources l !! r = Some st →
     ∃ st', LocatorLedger.resources l' !! r = Some st' ∧
       ResourceState.max_uses st' = ResourceState.max_uses st ∧
       (ResourceState.use_count st ≤ ResourceState.use_count st')%N ∧
       (ResourceState.revoked st = true → ResourceState.revoked st' = true)).

#[global] Instance ledger_le_preorder : PreOrder ledger_le.
Proof.
  split.
  - intros l. split; eauto 10 with lia.
  - intros l1 l2 l3 [Ha1 Hb1] [Ha2 Hb2]. split.
    + intros loc rec Hr. destruct (Ha1 _ _ Hr) as (rec2 & Hr2 & E2 & M2).
      destruct (Ha2 _ _ Hr2) as (rec3 & Hr3 & E3 & M3). exists rec3. split_and!; [done|congruence|auto].
    + intros r st Hr. destruct (Hb1 _ _ Hr) as (st2 & Hr2 & E2 & L2 & M2).
      destruct (Hb2 _ _ Hr2) as (st3 & Hr3 & E3 & L3 & M3). exists st3.
      split_and!; [done|congruence|lia|auto].
Qed.

Lemma map_le l loc r l' : LocatorLedger.map l loc r = Ok l' → ledger_le l l'.
Proof.
  unfold LocatorLedger.map. destruct (LocatorLedger.records l !! PublicLocator.id loc) eqn:Hn; [done|].
  intros [= <-]. split; simpl.
  - intros loc' rec Hr. rewrite lookup_insert_ne by congruence. eauto.
  - intros r' st Hr. destruct (LocatorLedger.resources l !! r) eqn:Hres; simpl;
      [eauto 10 with lia|]. rewrite lookup_insert_ne by congruence. eauto 10 with lia.
Qed.

Lemma revoke_entry_le l loc : ledger_le l (LocatorLedger.revoke_entry l loc).
Proof.
  unfold LocatorLedger.revoke_entry.
  destruct (LocatorLedger.records l !! PublicLocator.id loc) as [rec0|] eqn:Hr0; [|done].
  split; simpl; [|eauto 10 with lia]. intros loc' rec Hr.
  destruct (decide (PublicLocator.id loc = loc')) as [<-|Hne].
  - rewrite lookup_insert_eq. simplify_eq. eauto.
  - rewrite lookup_insert_ne by done. eauto.
Qed.

(** Replacing a resource's state by a later one. *)
Lemma set_resource_le l r st0 st1 :
  LocatorLedger.resources l !! r = Some st0 →
  ResourceState.max_uses st1 = ResourceState.max_uses st0 →
  (ResourceState.use_count st0 ≤ ResourceState.use_count st1)%N →
  (ResourceState.revoked st0 = true → ResourceState.revoked st1 = true) →
  ledger_le l (LocatorLedger.mk (LocatorLedger.records l) (<[r := st1]> (LocatorLedger.resources l))).
Proof.
  intros H0 Hm Hu Hr. split; simpl; [eauto|]. intros r' st Hst.
  destruct (decide (r = r')) as [<-|Hne].
  - rewrite lookup_insert_eq. simplify_eq. eauto 10.
  - rewrite lookup_insert_ne by done. eauto 10 with lia.
Qed.

Lemma revoke_resource_le l r : ledger_le l (LocatorLedger.revoke_resource l r).
Proof.
  unfold LocatorLedger.revoke_resource.
  destruct (LocatorLedger.resources l !! r) as [st|] eqn:Hst; [|done].
  by eapply set_resource_le.
Qed.

Lemma exchange_le filled l loc : ledger_le l (LocatorLedger.exchange filled l loc).1.
Proof.
  destruct (exchange_cases filled l loc)
    as [(_ & e & -> & _)|(rec & st & _ & _ & Hst & _ & [[_ ->]|(st' & Hc & ->)])]; [done..|].
  apply consume_Ok in Hc as (_ & _ & ->). eapply set_resource_le; simpl; [done|done|lia|done].
Qed.

(** Mappings are never redirected, revocations never undone, counters never
    decreased and caps never changed, by any call. *)
Lemma apply_op_le l op : ledger_le l (apply_op l op).1.
Proof.
  destruct op as [loc r|loc|r|loc filled]; simpl.
  - destruct (LocatorLedger.map l loc r) as [l'|] eqn:Hm; [by eapply map_le|done].
  - apply revoke_entry_le.
  - apply revoke_resource_le.
  - pose proof (exchange_le filled l loc). by destruct (LocatorLedger.exchange filled l loc).
Qed.

Lemma run_le l ops : ledger_le l (run l ops).1.
Proof.
  revert l. induction ops as [|op ops IH]; intros l; simpl; [done|].
  pose proof (apply_op_le l op) as Hop. destruct (apply_op l op) as [l1 i].
  specialize (IH l1). destruct (run l1 ops) as [l2 rest]. simpl in *. by etrans.
Qed.

(** A capped resource stays within its cap. *)
Definition within_cap (l : LocatorLedger.t) : Prop :=
  ∀ r st max, LocatorLedger.resources l !! r = Some st →
    ResourceState.max_uses st = Some max → (ResourceState.use_count st ≤ max)%N.

Lemma apply_op_within_cap l op : within_cap l → within_cap (apply_op l op).1.
Proof.
  intros Hw. destruct op as [loc r|loc|r|loc filled]; simpl.
  - unfold LocatorLedger.map. destruct (LocatorLedger.records l !! _); [done|].
    destruct (LocatorLedger.resources l !! r) eqn:Hr; simpl; intros r' st max; [by apply Hw|].
    simpl. intros [[<- <-]|[_ H]]%lookup_insert_Some; [done|]. by eapply Hw.
  - unfold LocatorLedger.revoke_entry. by destruct (LocatorLedger.records l !! _).
  - unfold LocatorLedger.revoke_resource.
    destruct (LocatorLedger.resources l !! r) as [st0|] eqn:Hr; [|done]. intros r' st max.
    simpl. intros [[<- <-]|[_ H]]%lookup_insert_Some; [exact (Hw r st0 max Hr)|]. by eapply Hw.
  - destruct (exchange_cases filled l loc)
      as [(_ & e & -> & _)|(rec & st0 & _ & _ & Hst & _ & [[_ ->]|(st' & Hc & ->)])]; [done..|].
    apply consume_Ok in Hc as (Hcap & _ & ->). intros r' st max. simpl.
    intros [[<- <-]|[_ H]]%lookup_insert_Some; [|by eapply Hw]. simpl. intros Hm.
    specialize (Hcap max Hm). lia.
Qed.

(** Every token issued for a resource is counted on it. *)
Lemma apply_op_counts l op r st :
  LocatorLedger.resources l !! r = Some st →
  ∃ st', LocatorLedger.resources (apply_op l op).1 !! r = Some st' ∧
    ResourceState.max_uses st' = ResourceState.max_uses st ∧
    (ResourceState.use_count st + N.of_nat (issued_for r (option_list (apply_op l op).2))
       ≤ ResourceState.use_count st')%N.
Proof.
  intros Hst. destruct (proj2 (apply_op_le l op) r st Hst) as (st' & Hst' & Hm & Hle & _).
  exists st'. split_and!; [done..|]. unfold issued_for. destruct op as [loc r'|loc|r'|loc filled]; simpl in *; [lia..|].
  destruct (exchange_cases filled l loc) as [(_ & e & E & _)|(rec & st0 & Hrec & _ & Hst0 & _ & H)];
    [rewrite E in *; simpl in *; lia|].
  destruct H as [[_ E]|(st1 & Hc & E)]; rewrite E in *; simpl in *; [lia|].
  unfold LocatorLedger.resource_of. rewrite Hrec. simpl.
  destruct filled; simpl; [|lia].
  case_bool_decide as Heq; simpl; [|lia]. subst r.
  rewrite lookup_insert_eq in Hst'. apply consume_Ok in Hc as (_ & _ & ->). simplify_eq. simpl. lia.
Qed.

Lemma issued_for_app r a b : issued_for r (a ++ b) = issued_for r a + issued_for r b.
Proof. unfold issued_for. rewrite List.filter_app. apply length_app. Qed.

Lemma run_counts l ops r st :
  within_cap l → LocatorLedger.resources l !! r = Some st →
  within_cap (run l ops).1 ∧
  ∃ st', LocatorLedger.resources (run l ops).1 !! r = Some st' ∧
    ResourceState.max_uses st' = ResourceState.max_uses st ∧
    (ResourceState.use_count st + N.of_nat (issued_for r (run l ops).2)
       ≤ ResourceState.use_count st')%N.
Proof.
  revert l st. induction ops as [|op ops IH]; intros l st Hw Hst; simpl.
  - split; [done|]. exists st. split_and!; [done..|]. unfold issued_for. simpl. lia.
  - pose proof (apply_op_within_cap l op Hw) as Hw1.
    destruct (apply_op_counts l op r st Hst) as (st1 & Hst1 & Hm1 & Hc1).
    destruct (apply_op l op) as [l1 i1]. simpl in *.
    destruct (IH l1 st1 Hw1 Hst1) as (Hw2 & st2 & Hst2 & Hm2 & Hc2).
    destruct (run l1 ops) as [l2 rest]. simpl in *. split; [done|]. exists st2.
    split_and!; [done|congruence|]. rewrite issued_for_app. lia.
Qed.

(** Ledgers a program can build. *)
Definition reachable_ledger (l : LocatorLedger.t) : Prop := ∃ ops, l = (run LocatorLedger.new ops).1.

Lemma unresolvable_le l l' loc :
  ledger_le l l' → (∃ rec, LocatorLedger.records l !! PublicLocator.id loc = Some rec) →
  unresolvable l loc → (∀ rec, LocatorLedger.records l !! PublicLocator.id loc = Some rec →
    is_Some (LocatorLedger.resources l !! LocatorRecord.resource rec)) → unresolvable l' loc.
Proof.
  intros [Ha Hb] (rec & Hrec) Hun Hres. unfold unresolvable in *. rewrite Hrec in Hun.
  destruct (Ha _ _ Hrec) as (rec' & -> & E & Hrv). destruct Hun as [Hun|Hun]; [by left; apply Hrv|].
  right. rewrite E. destruct (Hres _ Hrec) as [st Hst]. rewrite Hst in Hun.
  destruct (Hb _ _ Hst) as (st' & -> & _ & _ & Hm). auto.
Qed.

(** What every reachable ledger satisfies: each mapping has its resource's state,
    and no resource has a cap. *)
Definition ledger_inv (l : LocatorLedger.t) : Prop :=
  (∀ (loc : list N) rec, LocatorLedger.records l !! loc = Some rec →
     is_Some (LocatorLedger.resources l !! LocatorRecord.resource rec)) ∧
  (∀ (r : InternalResourceId) st, LocatorLedger.resources l !! r = Some st →
     ResourceState.max_uses st = None).

Lemma apply_op_inv l op : ledger_inv l → ledger_inv (apply_op l op).1.
Proof.
  intros [Hc Hn]. split.
  - intros loc rec Hrec.
    assert (is_Some (LocatorLedger.resources l !! LocatorRecord.resource rec) ∨
            ∃ l' loc' r', op = OpMap loc' r' ∧ LocatorLedger.map l loc' r' = Ok l' ∧
              LocatorRecord.resource rec = r') as [[st Hst]|(l' & loc' & r' & -> & Hm & Er)].
    + destruct op as [loc' r|loc'|r|loc' filled]; simpl in Hrec.
      * unfold LocatorLedger.map in *.
        destruct (LocatorLedger.records l !! PublicLocator.id loc') eqn:Hx; [eauto|].
        simpl in Hrec. apply lookup_insert_Some in Hrec as [[_ <-]|[_ Hrec]]; [|eauto].
        right. do 3 eexists. split_and!; [done| |done]. by rewrite Hx.
      * unfold LocatorLedger.revoke_entry in Hrec.
        destruct (LocatorLedger.records l !! PublicLocator.id loc') eqn:Hx; simpl in Hrec; [|eauto].
        apply lookup_insert_Some in Hrec as [[_ <-]|[_ Hrec]]; simpl; eauto.
      * unfold LocatorLedger.revoke_resource in Hrec.
        destruct (LocatorLedger.resources l !! r); simpl in Hrec; eauto.
      * destruct (exchange_cases filled l loc')
          as [(_ & e & E & _)|(rec0 & st0 & _ & _ & _ & _ & [[_ E]|(st' & _ & E)])];
          rewrite E in Hrec; simpl in Hrec; eauto.
    + destruct (proj2 (apply_op_le l op) _ _ Hst) as (st' & Hst' & _). eauto.
    + simpl. rewrite Hm. rewrite Er. unfold LocatorLedger.map in Hm.
      destruct (LocatorLedger.records l !! PublicLocator.id loc'); [done|].
      injection Hm as <-. simpl. destruct (LocatorLedger.resources l !! r') eqn:Hr; [eauto|].
      rewrite lookup_insert_eq. eauto.
  - intros r st. destruct op as [loc' r'|loc'|r'|loc' filled]; simpl.
    + unfold LocatorLedger.map. destruct (LocatorLedger.records l !! _); [eauto|].
      destruct (LocatorLedger.resources l !! r') eqn:Hr; simpl; [eauto|].
      intros [[_ <-]|[_ H]]%lookup_insert_Some; [done|eauto].
    + unfold LocatorLedger.revoke_entry. destruct (LocatorLedger.records l !! _); simpl; eauto.
    + unfold LocatorLedger.revoke_resource.
      destruct (LocatorLedger.resources l !! r') as [st0|] eqn:Hr; simpl; [|eauto].
      intros [[_ <-]|[_ H]]%lookup_insert_Some; simpl; eauto.
    + destruct (exchange_cases filled l loc')
        as [(_ & e & -> & _)|(rec0 & st0 & _ & _ & Hst0 & _ & [[_ ->]|(st' & Hco & ->)])];
        simpl; [eauto..|]. apply consume_Ok in Hco as (_ & _ & ->).
      intros [[_ <-]|[_ H]]%lookup_insert_Some; simpl; eauto.
Qed.

Lemma run_inv l ops : ledger_inv l → ledger_inv (run l ops).1.
Proof.
  revert l. induction ops as [|op ops IH]; intros l Hl; simpl; [done|].
  pose proof (apply_op_inv l op Hl) as H1. destruct (apply_op l op) as [l1 i].
  specialize (IH l1 H1). by destruct (run l1 ops).
Qed.

Lemma ledger_reachable_inv l : reachable_ledger l → ledger_inv l.
Proof. intros [ops ->]. apply run_inv. split; intros ?? H; simpl in H; by rewrite lookup_empty in H. Qed.

(** ** Properties *)

(** The marker written into files is faithful: parsing the external form of a
    locator gives the locator back. *)
Theorem locator_round_trip (loc : PublicLocator.t) :
  byte_array LOCATOR_BYTES loc → PublicLocator.parse (PublicLocator.to_external loc) = Ok loc.
Proof.
  intros [Hl Hb]. unfold PublicLocator.parse, PublicLocator.to_external.
  rewrite strip_prefix_app. simpl. rewrite strip_suffix_app. simpl.
  rewrite base64url_round_trip; [|done|by destruct loc]. simpl. by rewrite Hl.
Qed.

Lemma locator_round_trip_witness :
  PublicLocator.parse (PublicLocator.to_external sample_token) = Ok sample_token.
Proof. apply locator_round_trip. eapply (bool_decide_unpack _). vm_compute. exact I. Defined.

(** Exchange is no existence oracle.  For a locator that was never mapped, was
    revoked, or names a revoked resource, the surfaced code and message are the
    same and the ledger does not change; and only such locators surface as
    unavailable. *)
Theorem exchange_no_oracle filled l loc :
  (unresolvable l loc →
   ∃ e, LocatorLedger.exchange filled l loc = (l, Err e) ∧
     LocatorExchangeError.code e = "locator_unavailable" ∧
     LocatorExchangeError.display e = "locator exchange unavailable") ∧
  (∀ l' e, LocatorLedger.exchange filled l loc = (l', Err e) →
     (LocatorExchangeError.code e = "locator_unavailable" ↔ unresolvable l loc)).
Proof.
  split; [apply unresolvable_fails|]. intros l' e E. split.
  - intros Hcode. destruct (exchange_cases filled l loc)
      as [(Hun & _)|(rec & st & _ & _ & _ & _ & [[_ E']|(st' & _ & E')])]; [done|..];
      rewrite E' in E; [|destruct filled]; simplify_eq; done.
  - intros (e' & E' & Hcode & _)%(unresolvable_fails filled). rewrite E' in E. by simplify_eq.
Qed.

(** Aggregate limits belong to the resource.  Along any sequence of calls from
    a ledger within its caps, through whichever locators, the number of tokens
    issued for a resource is at most what was left of its cap, and the counter
    accounts for every one of them. *)
Theorem aggregate_limit l ops r st max :
  within_cap l → LocatorLedger.resources l !! r = Some st → ResourceState.max_uses st = Some max →
  ∃ st', LocatorLedger.resources (run l ops).1 !! r = Some st' ∧
    ResourceState.max_uses st' = Some max ∧
    (ResourceState.use_count st + N.of_nat (issued_for r (run l ops).2)
       ≤ ResourceState.use_count st' ≤ max)%N.
Proof.
  intros Hw Hst Hm. destruct (run_counts l ops r st Hw Hst) as (Hw' & st' & Hst' & Hm' & Hc).
  rewrite Hm in Hm'. exists st'. split_and!; [done..|]. by eapply Hw'.
Qed.

(** A ledger with one locator and a resource capped at two uses. *)
Definition capped_ledger : LocatorLedger.t :=
  LocatorLedger.mk {[ [1%N] := LocatorRecord.new "r" ]} {[ "r" := ResourceState.new (Some 2%N) ]}.

Lemma aggregate_limit_witness :
  (issued_for "r" (run capped_ledger (replicate 5 (OpExchange [1%N] (Some [9%N])))).2 = 2)%nat ∧
  ∃ st', LocatorLedger.resources
           (run capped_ledger (replicate 5 (OpExchange [1%N] (Some [9%N])))).1 !! "r" = Some st' ∧
         (ResourceState.use_count st' ≤ 2)%N.
Proof.
  split; [vm_compute; reflexivity|].
  destruct (aggregate_limit capped_ledger (replicate 5 (OpExchange [1%N] (Some [9%N]))) "r"
    (ResourceState.new (Some 2%N)) 2%N) as (st' & H1 & _ & _ & H2).
  - intros r st max. unfold capped_ledger. simpl.
    intros [_ <-]%lookup_singleton_Some [= <-]. simpl. lia.
  - reflexivity.
  - reflexivity.
  - exists st'. split; [exact H1|exact H2].
Defined.

(** Revocation is final and mappings are stable.  In a reachable ledger, a
    mapped locator keeps naming the same resource whatever is called next, and
    after its mapping or its resource is revoked no sequence of calls makes it
    exchangeable again. *)
Theorem locator_revocation_final l loc r ops filled :
  reachable_ledger l → LocatorLedger.resource_of l loc = Some r →
  LocatorLedger.resource_of (run l ops).1 loc = Some r ∧
  ∀ l0, l0 = LocatorLedger.revoke_entry l loc ∨ l0 = LocatorLedger.revoke_resource l r →
    let l' := (run l0 ops).1 in
    ∃ e, LocatorLedger.exchange filled l' loc = (l', Err e) ∧
      LocatorExchangeError.code e = "locator_unavailable".
Proof.
  intros Hreach Hr. unfold LocatorLedger.resource_of in *.
  destruct (LocatorLedger.records l !! PublicLocator.id loc) as [rec|] eqn:Hrec; [|done].
  injection Hr as <-. split.
  { destruct (proj1 (run_le l ops) _ _ Hrec) as (rec' & -> & E & _). simpl. by rewrite E. }
  intros l0 Hl0. set (l' := (run l0 ops).1). cut (unresolvable l' loc).
  { intros (e & He & Hcode & _)%(unresolvable_fails filled). eauto. }
  destruct (proj1 (ledger_reachable_inv _ Hreach) _ _ Hrec) as [st Hst].
  apply (unresolvable_le l0); [apply run_le|..]; destruct Hl0 as [-> | ->];
    unfold unresolvable, LocatorLedger.revoke_entry, LocatorLedger.revoke_resource;
    rewrite ?Hrec, ?Hst; simpl; rewrite ?Hrec, ?lookup_insert_eq; simpl; eauto.
  - intros rec' [= <-]. eauto.
  - intros rec' [= <-]. rewrite lookup_insert_eq. eauto.
Qed.

Lemma locator_revocation_final_witness :
  LocatorLedger.resource_of (run LocatorLedger.new [OpMap [1%N] "r"]).1 [1%N] = Some "r" ∧
  ∃ e, (LocatorLedger.exchange None (LocatorLedger.revoke_resource
          (run LocatorLedger.new [OpMap [1%N] "r"]).1 "r") [1%N]).2 = Err e ∧
       LocatorExchangeError.code e = "locator_unavailable".
Proof.
  split; [vm_compute; reflexivity|].
  destruct (locator_revocation_final (run LocatorLedger.new [OpMap [1%N] "r"]).1 [1%N] "r" [] None)
    as [_ H].
  - exists [OpMap [1%N] "r"]. reflexivity.
  - vm_compute. reflexivity.
  - destruct (H _ (or_intror eq_refl)) as (e & He & Hcode). exists e.
    split; [|exact Hcode]. simpl run in He. exact (f_equal snd He).
Defined.

(** The aggregate cap is never set.  In every ledger the public calls can
    build, each resource's [max_uses] is [None], so an exchange reports
    exhaustion only when the 32-bit counter itself is full. *)
Theorem cap_never_configured l filled loc l' :
  reachable_ledger l →
  (∀ r st, LocatorLedger.resources l !! r = Some st → ResourceState.max_uses st = None) ∧
  (LocatorLedger.exchange filled l loc = (l', Err LocatorExchangeError.Exhausted) →
   ∃ r, LocatorLedger.resource_of l loc = Some r ∧
     ∃ n, LocatorLedger.use_count l r = Some n ∧ (u32_max ≤ n)%N).
Proof.
  intros [Hc Hn]%ledger_reachable_inv. split; [done|]. intros E.
  destruct (exchange_cases filled l loc) as [(_ & e & E' & Hcode & _)
    |(rec & st & Hrec & _ & Hst & _ & H)]; [rewrite E' in E; by simplify_eq|].
  exists (LocatorRecord.resource rec). unfold LocatorLedger.resource_of, LocatorLedger.use_count.
  rewrite Hrec, Hst. split; [done|]. exists (ResourceState.use_count st). split; [done|].
  destruct (decide (u32_max ≤ ResourceState.use_count st)%N) as [|Hlt]; [done|].
  exfalso. destruct H as [[Hco _]|(st' & _ & E')];
    [|rewrite E' in E; by destruct filled].
  assert (ResourceState.consume st = Ok (ResourceState.mk (ResourceState.revoked st)
    (ResourceState.max_uses st) (ResourceState.use_count st + 1))) as Hok; [|by rewrite Hok in Hco].
  apply consume_Ok. rewrite (Hn _ _ Hst). split_and!; [done|lia|done].
Qed.

Lemma cap_never_configured_witness :
  ∀ r st, LocatorLedger.resources (run LocatorLedger.new [OpMap [1%N] "r"]).1 !! r = Some st →
    ResourceState.max_uses st = None.
Proof.
  apply (cap_never_configured _ None [] LocatorLedger.new). exists [OpMap [1%N] "r"]. reflexivity.
Defined.
