(* ===== verification/Registry.v ===== *)
(** * sv-runtime/src/references/registry.rs: two-phase resolution and leases

    The registry keeps entries under the keyed hash of their token.  Metadata
    resolution validates a handle and reads its safe projection; material
    authorization consumes a use and gives a lease, which the broker settles or
    drops.  The [Mutex] makes each call one step; [lock] recovers a poisoned
    mutex, so it never fails. *)
From S2P Require Import Prelude Error Types Token.
Import RuntimeError.

(** [DateTime<Utc>], in nanoseconds from the epoch. *)
Definition DateTime : Type := Z.

Module SafeMetadata.
Record t := mk {
  kind : string;
  allowed_actions : gset OperationKind.t;
  destination : list DestinationSelector.t;
  expires_at : DateTime
}.
End SafeMetadata.

Module ReferenceEntry.
Record t := mk {
  id_hash : list N;
  resource : InternalResourceId;
  class : ExposureClass.t;
  owner_principal : option PrincipalId;
  audience : list DestinationSelector.t;
  allowed_operations : gset OperationKind.t;
  created_at : DateTime;
  expires_at : DateTime;
  session_id : option SessionId;
  max_uses : option N;
  use_count : N;
  metadata_projection : SafeMetadata.t;
  policy_version : PolicyVersion;
  revoked : bool
}.

(** Field updates. *)
Definition with_id (e : t) (h : list N) (n : N) : t :=
  mk h (resource e) (class e) (owner_principal e) (audience e) (allowed_operations e)
    (created_at e) (expires_at e) (session_id e) (max_uses e) n
    (metadata_projection e) (policy_version e) (revoked e).
Definition with_use_count (e : t) (n : N) : t := with_id e (id_hash e) n.
Definition with_revoked (e : t) : t :=
  mk (id_hash e) (resource e) (class e) (owner_principal e) (audience e) (allowed_operations e)
    (created_at e) (expires_at e) (session_id e) (max_uses e) (use_count e)
    (metadata_projection e) (policy_version e) true.
Definition with_resource (e : t) (r : InternalResourceId) : t :=
  mk (id_hash e) r (class e) (owner_principal e) (audience e) (allowed_operations e)
    (created_at e) (expires_at e) (session_id e) (max_uses e) (use_count e)
    (metadata_projection e) (policy_version e) (revoked e).
End ReferenceEntry.

Module ResolutionContext.
Record t := mk {
  principal : option PrincipalId;
  session : option SessionId;
  operation : OperationKind.t;
  destination : DestinationSelector.t;
  now : DateTime
}.
End ResolutionContext.

Module ResolvedReferenceMetadata.
Record t := mk {
  metadata : SafeMetadata.t;
  class : ExposureClass.t;
  policy_version : PolicyVersion
}.
End ResolvedReferenceMetadata.

Module MaterialUseGrant.
Record t := mk { context : ResolutionContext.t; operation_digest : list N }.
End MaterialUseGrant.

Module LeaseOutcome.
Inductive t := ConsumedNotExecuted | ExecutedUnknown | Completed.
#[global] Instance t_eq_dec : EqDecision t.
Proof. solve_decision. Defined.
End LeaseOutcome.

Module MaterialLease.
Record t := mk {
  resource : InternalResourceId;
  operation_digest : list N;
  id_hash : list N;
  settled : bool
}.
End MaterialLease.

(** [impl Drop for MaterialLease], on the thread's [UNSETTLED_DROPS] counter (a
    [u32] that wraps in the release profile). *)
Definition drop_lease (unsettled_drops : N) (lease : MaterialLease.t) : N :=
  if MaterialLease.settled lease then unsettled_drops
  else ((unsettled_drops + 1) mod 2 ^ 32)%N.

Module ReferenceRegistry.
Record t := mk { entries : gmap (list N) ReferenceEntry.t; key : list N }.

(** [new]: only a memory-only registry. *)
Definition new (key : list N) (durable : bool) : Result t :=
  if durable then Err InvalidStructure else Ok (mk ∅ key).

(** [lookup]. *)
Definition lookup (entries : gmap (list N) ReferenceEntry.t) (id_hash : list N) :
    Result ReferenceEntry.t :=
  ok_or (entry ← entries !! id_hash;
         if id_hash_eq (ReferenceEntry.id_hash entry) id_hash then Some entry else None)
    ReferenceInvalid.

(** [check], in the order of the code. *)
Definition check (entry : ReferenceEntry.t) (context : ResolutionContext.t) : Result unit :=
  reject_if (ReferenceEntry.revoked entry) ReferenceInvalid
  (reject_if (ReferenceEntry.expires_at entry <=? ResolutionContext.now context)%Z ReferenceExpired
  (reject_if (is_some_and (ReferenceEntry.owner_principal entry)
     (λ owner, negb (bool_decide (ResolutionContext.principal context = Some owner))))
     ReferenceAudienceDenied
  (reject_if (is_some_and (ReferenceEntry.session_id entry)
     (λ session, negb (bool_decide (ResolutionContext.session context = Some session))))
     ReferenceAudienceDenied
  (reject_if (negb (bool_decide
       (ResolutionContext.operation context ∈ ReferenceEntry.allowed_operations entry)))
     ReferenceAudienceDenied
  (reject_if (negb (bool_decide (ReferenceEntry.audience entry = []))
       && negb (bool_decide (ResolutionContext.destination context ∈ ReferenceEntry.audience entry)))
     ReferenceAudienceDenied
  (reject_if (is_some_and (ReferenceEntry.max_uses entry)
     (λ max, (max <=? ReferenceEntry.use_count entry)%N))
     ReferenceExpired (Ok tt))))))).

Section keyed.
Context (hmac : list N → list N → list N).

(** [create], given what the CSPRNG writes for the token. *)
Definition create (filled : option (list N)) (self : t) (entry : ReferenceEntry.t) :
    t * Result (list N) :=
  match generate_token filled with
  | Err e => (self, Err e)
  | Ok token =>
      let h := token_id_hash hmac token (key self) in
      match entries self !! h with
      | Some _ => (self, Err ReferenceInvalid)
      | None => (mk (<[h := ReferenceEntry.with_id entry h 0]> (entries self)) (key self), Ok token)
      end
  end.

Definition metadata (self : t) (token : list N) (context : ResolutionContext.t) :
    Result ResolvedReferenceMetadata.t :=
  let h := token_id_hash hmac token (key self) in
  let? entry := lookup (entries self) h in
  let? _ := check entry context in
  Ok (ResolvedReferenceMetadata.mk (ReferenceEntry.metadata_projection entry)
        (ReferenceEntry.class entry) (ReferenceEntry.policy_version entry)).

Definition authorize_material_use (self : t) (token : list N) (grant : MaterialUseGrant.t) :
    t * Result MaterialLease.t :=
  let h := token_id_hash hmac token (key self) in
  match lookup (entries self) h with
  | Err e => (self, Err e)
  | Ok entry =>
      match check entry (MaterialUseGrant.context grant) with
      | Err e => (self, Err e)
      | Ok _ =>
          match checked_add_u32 (ReferenceEntry.use_count entry) 1 with
          | None => (self, Err ReferenceExpired)
          | Some n =>
              (mk (<[h := ReferenceEntry.with_use_count entry n]> (entries self)) (key self),
               Ok (MaterialLease.mk (ReferenceEntry.resource entry)
                     (MaterialUseGrant.operation_digest grant) h false))
          end
      end
  end.

(** [settle]: takes the lease, marks it settled and lets it drop. *)
Definition settle (self : t) (lease : MaterialLease.t) (outcome : LeaseOutcome.t) : t * Result unit :=
  if bool_decide (outcome = LeaseOutcome.ConsumedNotExecuted)
  then
    match entries self !! MaterialLease.id_hash lease with
    | Some entry =>
        (mk (<[MaterialLease.id_hash lease :=
                 ReferenceEntry.with_use_count entry (ReferenceEntry.use_count entry - 1)]>
               (entries self)) (key self), Ok tt)
    | None => (self, Ok tt)
    end
  else (self, Ok tt).

Definition inspect (self : t) (token : list N) (context : ResolutionContext.t) :
    Result SafeMetadata.t :=
  let? m := metadata self token context in Ok (ResolvedReferenceMetadata.metadata m).

Definition revoke (self : t) (token : list N) : t * Result unit :=
  let h := token_id_hash hmac token (key self) in
  match entries self !! h with
  | None => (self, Err ReferenceInvalid)
  | Some entry => (mk (<[h := ReferenceEntry.with_revoked entry]> (entries self)) (key self), Ok tt)
  end.

Definition use_count (self : t) (token : list N) : Result N :=
  let? entry := lookup (entries self) (token_id_hash hmac token (key self)) in
  Ok (ReferenceEntry.use_count entry).
End keyed.
End ReferenceRegistry.

(** ** Histories

    A lease is neither [Clone] nor [Copy]: authorization puts it among the
    outstanding ones, settlement or a drop takes it out.  [spent] records, as a
    ghost, the handles of leases that ended without their use being refunded. *)
Module World.
Record t := mk {
  registry : ReferenceRegistry.t;
  outstanding : list MaterialLease.t;
  unsettled_drops : N;
  spent : list (list N)
}.
End World.

Inductive world_step (hmac : list N → list N → list N) : World.t → World.t → Prop :=
| step_create filled entry reg' res reg out d sp :
    ReferenceRegistry.create hmac filled reg entry = (reg', res) →
    world_step hmac (World.mk reg out d sp) (World.mk reg' out d sp)
| step_authorize token grant reg' lease reg out d sp :
    ReferenceRegistry.authorize_material_use hmac reg token grant = (reg', Ok lease) →
    world_step hmac (World.mk reg out d sp) (World.mk reg' (lease :: out) d sp)
| step_authorize_refused token grant reg' e reg out d sp :
    ReferenceRegistry.authorize_material_use hmac reg token grant = (reg', Err e) →
    world_step hmac (World.mk reg out d sp) (World.mk reg' out d sp)
| step_settle out1 lease out2 outcome reg' res reg d sp :
    ReferenceRegistry.settle reg lease outcome = (reg', res) →
    world_step hmac (World.mk reg (out1 ++ lease :: out2) d sp)
      (World.mk reg' (out1 ++ out2) d
         (if bool_decide (outcome = LeaseOutcome.ConsumedNotExecuted) then sp
          else MaterialLease.id_hash lease :: sp))
| step_drop out1 lease out2 reg d sp :
    world_step hmac (World.mk reg (out1 ++ lease :: out2) d sp)
      (World.mk reg (out1 ++ out2) (drop_lease d lease) (MaterialLease.id_hash lease :: sp))
| step_revoke token reg' res reg out d sp :
    ReferenceRegistry.revoke hmac reg token = (reg', res) →
    world_step hmac (World.mk reg out d sp) (World.mk reg' out d sp).

Inductive world_init (key : list N) : World.t → Prop :=
| world_fresh reg d :
    ReferenceRegistry.new key false = Ok reg → world_init key (World.mk reg [] d []).

Definition reachable_world hmac (w : World.t) : Prop :=
  ∃ key w0, world_init key w0 ∧ rtc (world_step hmac) w0 w.

(** Uses of a handle that are in flight or cannot be taken back. *)
Definition in_flight (h : list N) (w : World.t) : nat :=
  length (List.filter (λ l, bool_decide (MaterialLease.id_hash l = h)) (World.outstanding w)).
Definition spent_uses (h : list N) (w : World.t) : nat :=
  length (List.filter (λ x, bool_decide (x = h)) (World.spent w)).

(** ** What [check] admits *)

Definition admissible (entry : ReferenceEntry.t) (ctx : ResolutionContext.t) : Prop :=
  ReferenceEntry.revoked entry = false ∧
  (ResolutionContext.now ctx < ReferenceEntry.expires_at entry)%Z ∧
  (∀ o, ReferenceEntry.owner_principal entry = Some o → ResolutionContext.principal ctx = Some o) ∧
  (∀ s, ReferenceEntry.session_id entry = Some s → ResolutionContext.session ctx = Some s) ∧
  ResolutionContext.operation ctx ∈ ReferenceEntry.allowed_operations entry ∧
  (ReferenceEntry.audience entry = [] ∨
   ResolutionContext.destination ctx ∈ ReferenceEntry.audience entry) ∧
  (∀ m, ReferenceEntry.max_uses entry = Some m → (ReferenceEntry.use_count entry < m)%N).

Lemma is_some_and_negb_false {A} `{EqDecision A} (o c : option A) :
  is_some_and o (λ x, negb (bool_decide (c = Some x))) = false ↔ ∀ x, o = Some x → c = Some x.
Proof.
  destruct o as [x|]; simpl; [|done]. rewrite negb_false_iff, bool_decide_eq_true. split.
  - by intros H y [= <-].
  - intros H. by apply H.
Qed.

Lemma reject_if_Ok {A E} b (e : E) (k : result A E) v :
  reject_if b e k = Ok v ↔ b = false ∧ k = Ok v.
Proof. by destruct b; simpl; [split; [|intros [[=] _]]|split; [|intros [_ ?]]]. Qed.

Lemma check_admissible entry ctx :
  ReferenceRegistry.check entry ctx = Ok tt ↔ admissible entry ctx.
Proof.
  unfold ReferenceRegistry.check, admissible. rewrite !reject_if_Ok, !is_some_and_negb_false.
  rewrite Z.leb_gt, andb_false_iff, !negb_false_iff, !bool_decide_eq_true.
  assert (is_some_and (ReferenceEntry.max_uses entry)
    (λ max, (max <=? ReferenceEntry.use_count entry)%N) = false ↔
    ∀ m, ReferenceEntry.max_uses entry = Some m → (ReferenceEntry.use_count entry < m)%N) as ->.
  { destruct (ReferenceEntry.max_uses entry) as [m|]; simpl; [|done]. rewrite N.leb_gt.
    split; [by intros H ? [= <-]|auto]. }
  tauto.
Qed.

(** ** The accounting invariant *)

(** What the registry knows of one handle, given the uses in flight or spent. *)
Definition accounted (h : list N) (o : option ReferenceEntry.t) (uses : N) : Prop :=
  match o with
  | Some e => ReferenceEntry.id_hash e = h ∧ ReferenceEntry.use_count e = uses ∧
              ∀ m, ReferenceEntry.max_uses e = Some m → (uses ≤ m)%N
  | None => uses = 0%N
  end.

Definition world_inv (w : World.t) : Prop :=
  ∀ h, accounted h (ReferenceRegistry.entries (World.registry w) !! h)
         (N.of_nat (in_flight h w + spent_uses h w)).

Lemma lookup_Ok entries h e :
  ReferenceRegistry.lookup entries h = Ok e ↔
  entries !! h = Some e ∧ ReferenceEntry.id_hash e = h.
Proof.
  unfold ReferenceRegistry.lookup, id_hash_eq. destruct (entries !! h) as [e'|]; simpl.
  - case_bool_decide; simpl; split; intros; destruct_and?; simplify_eq; done.
  - split; [done|by intros [? _]].
Qed.

Lemma lookup_Err entries h e : ReferenceRegistry.lookup entries h = Err e → e = ReferenceInvalid.
Proof.
  unfold ReferenceRegistry.lookup. by destruct (_ ≫= _); intros [= <-].
Qed.

(** Material authorization, by cases. *)
Lemma authorize_cases hmac reg token grant :
  let h := token_id_hash hmac token (ReferenceRegistry.key reg) in
  (∃ err, ReferenceRegistry.authorize_material_use hmac reg token grant = (reg, Err err)) ∨
  (∃ e, ReferenceRegistry.entries reg !! h = Some e ∧ ReferenceEntry.id_hash e = h ∧
     admissible e (MaterialUseGrant.context grant) ∧ (ReferenceEntry.use_count e + 1 ≤ u32_max)%N ∧
     ReferenceRegistry.authorize_material_use hmac reg token grant =
       (ReferenceRegistry.mk (<[h := ReferenceEntry.with_use_count e
           (ReferenceEntry.use_count e + 1)]> (ReferenceRegistry.entries reg))
          (ReferenceRegistry.key reg),
        Ok (MaterialLease.mk (ReferenceEntry.resource e) (MaterialUseGrant.operation_digest grant)
              h false))).
Proof.
  intros h. unfold ReferenceRegistry.authorize_material_use. fold h.
  destruct (ReferenceRegistry.lookup _ h) as [e|err] eqn:Hl; [|by left; eexists].
  apply lookup_Ok in Hl as [Hl Hid].
  destruct (ReferenceRegistry.check e _) as [[]|err] eqn:Hc; [|by left; eexists].
  destruct (checked_add_u32 _ 1) as [n|] eqn:Hn; [|by left; eexists].
  apply checked_add_u32_Some in Hn as [-> Hn]. right. exists e.
  apply check_admissible in Hc. done.
Qed.

Lemma filter_middle {A} (p : A → bool) l1 x l2 :
  length (List.filter p (l1 ++ x :: l2)) =
  length (List.filter p (l1 ++ l2)) + (if p x then 1 else 0).
Proof.
  rewrite !List.filter_app. simpl. rewrite !length_app. destruct (p x); simpl; lia.
Qed.

(** Rewriting one entry keeps the invariant when the handle's own account does. *)
Lemma accounted_insert (entries : gmap (list N) ReferenceEntry.t) h0 e h uses uses' :
  accounted h (entries !! h) uses → (h ≠ h0 → uses' = uses) →
  (h = h0 → accounted h0 (Some e) uses') →
  accounted h (<[h0 := e]> entries !! h) uses'.
Proof.
  intros Ha Hne Heq. destruct (decide (h = h0)) as [->|Hd].
  - rewrite lookup_insert_eq. auto.
  - rewrite lookup_insert_ne by done. by rewrite Hne.
Qed.

Lemma world_init_inv key w : world_init key w → world_inv w.
Proof.
  intros [reg d Hnew] h. unfold ReferenceRegistry.new in Hnew. simplify_eq. simpl.
  by rewrite lookup_empty.
Qed.

Lemma create_inv hmac filled entry reg reg' res out d sp :
  ReferenceRegistry.create hmac filled reg entry = (reg', res) →
  world_inv (World.mk reg out d sp) → world_inv (World.mk reg' out d sp).
Proof.
  intros Hc Hw h. specialize (Hw h). unfold ReferenceRegistry.create in Hc.
  destruct (generate_token filled) as [token|]; [|by simplify_eq].
  set (h0 := token_id_hash _ _ _) in Hc.
  destruct (ReferenceRegistry.entries reg !! h0) eqn:Hn; [by simplify_eq|]. simplify_eq. simpl.
  eapply accounted_insert; [exact Hw|done|]. intros ->. simpl in Hw. rewrite Hn in Hw. simpl in Hw.
  unfold in_flight, spent_uses in *. simpl in *. rewrite Hw. split_and!; [done..|]. intros; lia.
Qed.

Lemma authorize_inv hmac token grant reg reg' lease out d sp :
  ReferenceRegistry.authorize_material_use hmac reg token grant = (reg', Ok lease) →
  world_inv (World.mk reg out d sp) → world_inv (World.mk reg' (lease :: out) d sp).
Proof.
  intros Ha Hw h. specialize (Hw h).
  destruct (authorize_cases hmac reg token grant) as [(err & E)|(e & He & Hid & Hadm & _ & E)];
    rewrite E in Ha; simplify_eq.
  unfold in_flight, spent_uses in *. simpl in *.
  eapply accounted_insert; [exact Hw|..].
  - intros Hne. rewrite bool_decide_eq_false_2 by done. done.
  - intros ->. rewrite bool_decide_eq_true_2 by done. simpl. rewrite He in Hw.
    destruct Hw as (_ & Hu & Hm). split_and!; [done|simpl; lia|].
    intros m Hmm. destruct Hadm as (_ & _ & _ & _ & _ & _ & Hlt). specialize (Hlt m Hmm). lia.
Qed.

Lemma settle_inv lease outcome reg reg' res out1 out2 d sp :
  ReferenceRegistry.settle reg lease outcome = (reg', res) →
  world_inv (World.mk reg (out1 ++ lease :: out2) d sp) →
  world_inv (World.mk reg' (out1 ++ out2) d
    (if bool_decide (outcome = LeaseOutcome.ConsumedNotExecuted) then sp
     else MaterialLease.id_hash lease :: sp)).
Proof.
  intros Hs Hw h. specialize (Hw h). unfold in_flight, spent_uses in *. simpl in *.
  rewrite filter_middle in Hw. unfold ReferenceRegistry.settle in Hs.
  destruct (bool_decide (outcome = _)).
  - destruct (ReferenceRegistry.entries reg !! MaterialLease.id_hash lease) as [e|] eqn:He;
      simplify_eq; simpl.
    + eapply accounted_insert; [exact Hw|..].
      * intros Hne. rewrite bool_decide_eq_false_2 by done. f_equal. lia.
      * intros ->. rewrite bool_decide_eq_true_2 in Hw by done. rewrite He in Hw.
        destruct Hw as (Hid & Hu & Hm). split_and!; [done|simpl; lia|].
        intros m Hmm. specialize (Hm m Hmm). lia.
    + case_bool_decide; [subst h; rewrite He in *; simpl in *; lia|].
      replace (_ + 0 + _) with (length (List.filter (λ l, bool_decide (MaterialLease.id_hash l = h))
        (out1 ++ out2)) + length (List.filter (λ x, bool_decide (x = h)) sp)) in Hw by lia. done.
  - simplify_eq. simpl. case_bool_decide; simpl;
      (eapply (eq_rect _ (accounted h _)); [exact Hw|lia]).
Qed.

Lemma drop_inv lease reg out1 out2 d d' sp :
  world_inv (World.mk reg (out1 ++ lease :: out2) d sp) →
  world_inv (World.mk reg (out1 ++ out2) d' (MaterialLease.id_hash lease :: sp)).
Proof.
  intros Hw h. specialize (Hw h). unfold in_flight, spent_uses in *. simpl in *.
  rewrite filter_middle in Hw. case_bool_decide; simpl;
    (eapply (eq_rect _ (accounted h _)); [exact Hw|lia]).
Qed.

Lemma revoke_inv hmac token reg reg' res out d sp :
  ReferenceRegistry.revoke hmac reg token = (reg', res) →
  world_inv (World.mk reg out d sp) → world_inv (World.mk reg' out d sp).
Proof.
  intros Hr Hw h. specialize (Hw h). unfold ReferenceRegistry.revoke in Hr.
  set (h0 := token_id_hash _ _ _) in Hr.
  destruct (ReferenceRegistry.entries reg !! h0) as [e|] eqn:He; simplify_eq; [|done]. simpl.
  eapply accounted_insert; [exact Hw|done|]. intros ->. simpl in Hw. rewrite He in Hw. exact Hw.
Qed.

Lemma world_step_inv hmac w w' : world_step hmac w w' → world_inv w → world_inv w'.
Proof.
  destruct 1 as [filled entry reg' res reg out d sp Hc|token grant reg' lease reg out d sp Ha
    |token grant reg' e reg out d sp Ha|out1 lease out2 outcome reg' res reg d sp Hs
    |out1 lease out2 reg d sp|token reg' res reg out d sp Hr]; intros Hw.
  - by eapply create_inv.
  - by eapply authorize_inv.
  - destruct (authorize_cases hmac reg token grant) as [(err & E)|(e' & _ & _ & _ & _ & E)];
      rewrite E in Ha; by simplify_eq.
  - by eapply settle_inv.
  - by eapply drop_inv.
  - by eapply revoke_inv.
Qed.

Lemma reachable_world_inv hmac w : reachable_world hmac w → world_inv w.
Proof.
  intros (key & w0 & Hi%world_init_inv & Hr). induction Hr as [|w1 w2 w3 Hs _ IH]; [done|].
  apply IH. by eapply world_step_inv.
Qed.

(** ** Revocation along histories *)

Definition revoked_handle (key h : list N) (w : World.t) : Prop :=
  ReferenceRegistry.key (World.registry w) = key ∧
  ∃ e, ReferenceRegistry.entries (World.registry w) !! h = Some e ∧ ReferenceEntry.revoked e = true.

(** A registry change that keeps the key and whether each stored handle is revoked. *)
Definition registry_le (reg reg' : ReferenceRegistry.t) : Prop :=
  ReferenceRegistry.key reg' = ReferenceRegistry.key reg ∧
  ∀ (h : list N) e, ReferenceRegistry.entries reg !! h = Some e →
    ∃ e', ReferenceRegistry.entries reg' !! h = Some e' ∧
      (ReferenceEntry.revoked e = true → ReferenceEntry.revoked e' = true).

Lemma registry_le_refl reg : registry_le reg reg.
Proof. split; eauto. Qed.

Lemma registry_le_insert reg h e' :
  (∀ e, ReferenceRegistry.entries reg !! h = Some e →
     ReferenceEntry.revoked e = true → ReferenceEntry.revoked e' = true) →
  registry_le reg (ReferenceRegistry.mk (<[h := e']> (ReferenceRegistry.entries reg))
                     (ReferenceRegistry.key reg)).
Proof.
  intros H. split; [done|]. intros h0 e He. simpl. destruct (decide (h0 = h)) as [->|Hne].
  - rewrite lookup_insert_eq. eauto.
  - rewrite lookup_insert_ne by done. eauto.
Qed.

#[export] Hint Resolve registry_le_refl : sv.

Lemma world_step_le hmac w w' :
  world_step hmac w w' → registry_le (World.registry w) (World.registry w').
Proof.
  destruct 1 as [filled entry reg' res reg out d sp Hc|token grant reg' lease reg out d sp Ha
    |token grant reg' e reg out d sp Ha|out1 lease out2 outcome reg' res reg d sp Hs
    |out1 lease out2 reg d sp|token reg' res reg out d sp Hr]; simpl; [..|auto with sv|].
  - unfold ReferenceRegistry.create in Hc. destruct (generate_token filled); [|simplify_eq; auto with sv].
    destruct (ReferenceRegistry.entries reg !! _) eqn:Hn; simplify_eq; [auto with sv|].
    apply registry_le_insert. intros e He. congruence.
  - destruct (authorize_cases hmac reg token grant) as [(err & E)|(e & He & _ & _ & _ & E)];
      rewrite E in Ha; simplify_eq.
    apply registry_le_insert. intros e' He'. by simplify_eq.
  - destruct (authorize_cases hmac reg token grant) as [(err & E)|(e' & _ & _ & _ & _ & E)];
      rewrite E in Ha; simplify_eq. auto with sv.
  - unfold ReferenceRegistry.settle in Hs. case_bool_decide; [|simplify_eq; auto with sv].
    destruct (ReferenceRegistry.entries reg !! _) eqn:He; simplify_eq; [|auto with sv].
    apply registry_le_insert. intros e' He'. by simplify_eq.
  - unfold ReferenceRegistry.revoke in Hr.
    destruct (ReferenceRegistry.entries reg !! _) eqn:He; simplify_eq; [|auto with sv].
    by apply registry_le_insert.
Qed.

Lemma world_steps_revoked hmac key h w w' :
  rtc (world_step hmac) w w' → revoked_handle key h w → revoked_handle key h w'.
Proof.
  induction 1 as [|w1 w2 w3 Hs _ IH]; [done|]. intros (Hk & e & He & Hr). apply IH.
  destruct (world_step_le _ _ _ Hs) as [Hk' Hle]. destruct (Hle _ _ He) as (e' & He' & Hr').
  split; [congruence|]. eauto.
Qed.

(** ** Properties *)

(** C24: uses are accounted for exactly.  In every reachable history a handle's
    counter is the number of its leases in flight plus those that ended without a
    refund, and never exceeds its cap, so a handle capped at [m] is never
    executed more than [m] times, however calls interleave; once the cap is
    reached every further authorization is refused and changes nothing. *)
Theorem no_replay hmac w token e grant :
  reachable_world hmac w →
  let reg := World.registry w in
  let h := token_id_hash hmac token (ReferenceRegistry.key reg) in
  ReferenceRegistry.entries reg !! h = Some e →
  ReferenceEntry.use_count e = N.of_nat (in_flight h w + spent_uses h w) ∧
  ∀ m, ReferenceEntry.max_uses e = Some m →
    (N.of_nat (in_flight h w + spent_uses h w) ≤ m)%N ∧
    (N.of_nat (in_flight h w + spent_uses h w) = m →
     ∃ err, ReferenceRegistry.authorize_material_use hmac reg token grant = (reg, Err err)).
Proof.
  intros Hr reg h He. pose proof (reachable_world_inv _ _ Hr h) as Hacc.
  change (World.registry w) with reg in Hacc. rewrite He in Hacc. destruct Hacc as (_ & Hu & Hm).
  split; [done|]. intros m Hmm. split; [auto|]. intros Hfull.
  destruct (authorize_cases hmac reg token grant) as [H|(e' & He' & _ & Hadm & _)]; [done|].
  exfalso. fold h in He'. assert (e' = e) as -> by congruence.
  destruct Hadm as (_ & _ & _ & _ & _ & _ & Hlt). specialize (Hlt m Hmm). lia.
Qed.

(** Revocation is final.  After a successful [revoke], in every later state of
    the registry both phases refuse the token with [ReferenceInvalid] and the
    authorization leaves the registry unchanged. *)
Theorem revoke_is_final hmac reg reg' token out d sp w' ctx grant :
  ReferenceRegistry.revoke hmac reg token = (reg', Ok tt) →
  rtc (world_step hmac) (World.mk reg' out d sp) w' →
  ReferenceRegistry.metadata hmac (World.registry w') token ctx = Err ReferenceInvalid ∧
  ReferenceRegistry.authorize_material_use hmac (World.registry w') token grant =
    (World.registry w', Err ReferenceInvalid).
Proof.
  intros Hrev Hsteps. set (h := token_id_hash hmac token (ReferenceRegistry.key reg)).
  assert (revoked_handle (ReferenceRegistry.key reg) h w') as (Hk & e & He & Hr).
  { eapply world_steps_revoked; [done|]. unfold ReferenceRegistry.revoke in Hrev. fold h in Hrev.
    destruct (ReferenceRegistry.entries reg !! h) as [e|] eqn:He; simplify_eq. split; [done|].
    simpl. rewrite lookup_insert_eq. eauto. }
  unfold ReferenceRegistry.metadata, ReferenceRegistry.authorize_material_use. rewrite Hk. fold h.
  destruct (ReferenceRegistry.lookup _ h) as [e'|err] eqn:Hl.
  - apply lookup_Ok in Hl as [Hl _]. assert (e' = e) as -> by congruence. simpl.
    unfold ReferenceRegistry.check. by rewrite Hr.
  - apply lookup_Err in Hl as ->. done.
Qed.

(** The two phases agree, and authorization does exactly one thing.  In a
    reachable history, for a handle whose counter is not full, metadata
    resolution succeeds iff material authorization would, which is iff the entry
    is live, unexpired, within its cap and bound to this principal, session,
    operation and destination; authorization adds one to that entry's counter,
    leaves every other entry alone, and its lease names the entry's resource and
    the approved digest. *)
Theorem two_phases_agree hmac w token ctx digest e :
  reachable_world hmac w →
  let reg := World.registry w in
  let h := token_id_hash hmac token (ReferenceRegistry.key reg) in
  ReferenceRegistry.entries reg !! h = Some e → (ReferenceEntry.use_count e < u32_max)%N →
  let meta := ReferenceRegistry.metadata hmac reg token ctx in
  let auth := ReferenceRegistry.authorize_material_use hmac reg token (MaterialUseGrant.mk ctx digest) in
  (is_ok meta = true ↔ admissible e ctx) ∧
  (is_ok auth.2 = true ↔ admissible e ctx) ∧
  (admissible e ctx →
     auth.2 = Ok (MaterialLease.mk (ReferenceEntry.resource e) digest h false) ∧
     ReferenceRegistry.entries auth.1 =
       <[h := ReferenceEntry.with_use_count e (ReferenceEntry.use_count e + 1)]>
         (ReferenceRegistry.entries reg)).
Proof.
  intros Hr reg h He Hb. pose proof (reachable_world_inv _ _ Hr h) as Hacc.
  change (World.registry w) with reg in Hacc. rewrite He in Hacc. destruct Hacc as (Hid & _ & _).
  assert (ReferenceRegistry.lookup (ReferenceRegistry.entries reg) h = Ok e) as Hl
    by by apply lookup_Ok.
  unfold ReferenceRegistry.metadata, ReferenceRegistry.authorize_material_use. fold h.
  rewrite Hl. simpl. rewrite <-check_admissible.
  destruct (ReferenceRegistry.check e ctx) as [[]|err]; simpl; [|naive_solver].
  replace (checked_add_u32 (ReferenceEntry.use_count e) 1)
    with (Some (ReferenceEntry.use_count e + 1)%N)
    by (symmetry; apply checked_add_u32_Some; lia). done.
Qed.

(** The registry with every resource id blanked. *)
Definition blank_resources (reg : ReferenceRegistry.t) : ReferenceRegistry.t :=
  ReferenceRegistry.mk ((λ e, ReferenceEntry.with_resource e "") <$> ReferenceRegistry.entries reg)
    (ReferenceRegistry.key reg).

(** Metadata resolution is blind to what a handle names: its result, success
    or error, is the same whatever the resource ids stored in the registry. *)
Theorem metadata_hides_resource hmac reg token ctx :
  ReferenceRegistry.metadata hmac (blank_resources reg) token ctx =
    ReferenceRegistry.metadata hmac reg token ctx ∧
  ReferenceRegistry.inspect hmac (blank_resources reg) token ctx =
    ReferenceRegistry.inspect hmac reg token ctx.
Proof.
  assert (ReferenceRegistry.metadata hmac (blank_resources reg) token ctx =
    ReferenceRegistry.metadata hmac reg token ctx) as E.
  { unfold ReferenceRegistry.metadata, ReferenceRegistry.lookup. simpl. rewrite lookup_fmap.
    destruct (ReferenceRegistry.entries reg !! _) as [e|]; simpl; [|done].
    by destruct (id_hash_eq _ _). }
  split; [exact E|]. unfold ReferenceRegistry.inspect. by rewrite E.
Qed.

(** ** A concrete history for the witnesses *)
Module SampleRegistry.
(** A stand-in for HMAC. *)
Definition mac (key token : list N) : list N := key ++ token.
Definition selector : DestinationSelector.t := DestinationSelector.mk None None None None.
Definition entry : ReferenceEntry.t :=
  ReferenceEntry.mk [] "vault/key" ExposureClass.ExecuteOnly (Some "p") [] {[OperationKind.Execute]}
    0%Z 100%Z None (Some 1%N) 5%N (SafeMetadata.mk "provider_credential" ∅ [] 100%Z) 1%N false.
Definition ctx : ResolutionContext.t :=
  ResolutionContext.mk (Some "p") None OperationKind.Execute selector 10%Z.
Definition grant : MaterialUseGrant.t := MaterialUseGrant.mk ctx [7%N].
Definition empty : ReferenceRegistry.t := ReferenceRegistry.mk ∅ [1%N].
Definition reg1 : ReferenceRegistry.t := (ReferenceRegistry.create mac (Some [2%N]) empty entry).1.
Definition reg2 : ReferenceRegistry.t :=
  (ReferenceRegistry.authorize_material_use mac reg1 [2%N] grant).1.
Definition lease : MaterialLease.t := MaterialLease.mk "vault/key" [7%N] [1%N; 2%N] false.
Definition world1 : World.t := World.mk reg1 [] 0 [].
Definition world2 : World.t := World.mk reg2 [lease] 0 [].

Lemma world1_reachable : reachable_world mac world1.
Proof.
  exists [1%N], (World.mk empty [] 0 []). split; [by constructor|].
  apply rtc_once. by apply (step_create mac (Some [2%N]) entry _ (Ok [2%N])).
Qed.

Lemma world2_reachable : reachable_world mac world2.
Proof.
  destruct world1_reachable as (key & w0 & Hi & Hr). exists key, w0. split; [done|].
  eapply rtc_r; [exact Hr|]. by apply (step_authorize mac [2%N] grant).
Qed.
End SampleRegistry.

Lemma no_replay_witness :
  ∃ err, ReferenceRegistry.authorize_material_use SampleRegistry.mac SampleRegistry.reg2 [2%N]
           SampleRegistry.grant = (SampleRegistry.reg2, Err err).
Proof.
  destruct (no_replay SampleRegistry.mac SampleRegistry.world2 [2%N]
    (ReferenceEntry.with_id SampleRegistry.entry [1%N; 2%N] 1) SampleRegistry.grant
    SampleRegistry.world2_reachable) as [_ H].
  - reflexivity.
  - apply (H 1%N); reflexivity.
Defined.

Lemma revoke_is_final_witness :
  ReferenceRegistry.metadata SampleRegistry.mac
    (ReferenceRegistry.revoke SampleRegistry.mac SampleRegistry.reg1 [2%N]).1 [2%N]
    SampleRegistry.ctx = Err ReferenceInvalid.
Proof.
  apply (revoke_is_final SampleRegistry.mac SampleRegistry.reg1
    (ReferenceRegistry.revoke SampleRegistry.mac SampleRegistry.reg1 [2%N]).1 [2%N] [] 0 []
    (World.mk (ReferenceRegistry.revoke SampleRegistry.mac SampleRegistry.reg1 [2%N]).1 [] 0 [])
    SampleRegistry.ctx SampleRegistry.grant).
  - reflexivity.
  - apply rtc_refl.
Defined.

Lemma two_phases_agree_witness :
  is_ok (ReferenceRegistry.authorize_material_use SampleRegistry.mac SampleRegistry.reg1 [2%N]
           SampleRegistry.grant).2 = true.
Proof.
  apply (two_phases_agree SampleRegistry.mac SampleRegistry.world1 [2%N] SampleRegistry.ctx [7%N]
    (ReferenceEntry.with_id SampleRegistry.entry [1%N; 2%N] 0) SampleRegistry.world1_reachable);
    [reflexivity|reflexivity|]. apply check_admissible. vm_compute. reflexivity.
Defined.
