(* ===== verification/PresenceOp.v ===== *)
(** * sv-presence/src/op.rs and lib.rs: what is approved, and its digest

    An operation descriptor, the length-prefixed encoding its digest hashes, and
    the text of the native prompt.  SHA-256 is a parameter. *)
From Stdlib Require Import ZifyN ZifyNat.
From S2P Require Import Prelude.

Ltac Zify.zify_post_hook ::= Z.div_mod_to_equations.

(** ** lib.rs: outcomes and errors *)

Module Modality.
Inductive t := Biometric | Password | Pin | Unknown.
#[global] Instance t_eq_dec : EqDecision t.
Proof. solve_decision. Defined.
End Modality.

Module Reason.
Inductive t := UnsupportedPlatform | BelowMinimumBuild | NotConfigured | DisabledByPolicy | DeviceNotPresent.
#[global] Instance t_eq_dec : EqDecision t.
Proof. solve_decision. Defined.

Definition message (self : t) : string :=
  match self with
  | UnsupportedPlatform => "no trustworthy OS presence check exists on this platform"
  | BelowMinimumBuild => "Windows Hello presence requires Windows 11 (build 22000) or later"
  | NotConfigured => "no biometric, PIN, or password verification is configured"
  | DisabledByPolicy => "OS presence verification is disabled by policy"
  | DeviceNotPresent => "no verification device is present"
  end.
End Reason.

Module Availability.
Inductive t := Protected (modalities : list Modality.t) | Unavailable (reason : Reason.t).
End Availability.

Module PresenceError.
Inductive t :=
| Cancelled | Failed | Busy | Exhausted | DisabledByPolicy | NotConfigured | Unavailable | Timeout.
#[global] Instance t_eq_dec : EqDecision t.
Proof. solve_decision. Defined.

Definition display (self : t) : string :=
  match self with
  | Cancelled => "verification was cancelled"
  | Failed => "verification failed"
  | Busy => "the verification device is busy"
  | Exhausted => "too many failed attempts; verification is locked out"
  | DisabledByPolicy => "verification is disabled by policy"
  | NotConfigured => "no verification method is configured for this user"
  | Unavailable => "verification is unavailable"
  | Timeout => "verification timed out"
  end.

Definition is_retryable (self : t) : bool :=
  match self with
  | Cancelled | Failed | Busy | Exhausted => true
  | DisabledByPolicy | NotConfigured | Unavailable | Timeout => false
  end.
End PresenceError.

Module Outcome.
Record t := mk { modality : Modality.t }.
End Outcome.

(** ** op.rs *)

Definition DOMAIN : list N := str_bytes "sv-presence-op-v1".
Definition MAX_FIELD_CHARS : nat := 48.
Definition MAX_PROMPT_CHARS : nat := 200.

Module Field.
Record t := mk { name : string; value : string; shown : bool }.
#[global] Instance t_eq_dec : EqDecision t.
Proof. solve_decision. Defined.
End Field.

(** [u64::to_be_bytes], most significant byte first. *)
Fixpoint be_bytes (k : nat) (n : N) : list N :=
  match k with
  | O => []
  | S k' => be_bytes k' (n / 256) ++ [(n mod 256)%N]
  end.

(** [(x.len() as u64).to_be_bytes()]. *)
Definition len_bytes (n : nat) : list N := be_bytes 8 (N.of_nat n mod 2 ^ 64).

(** [put]: what one call feeds to the hasher. *)
Definition put (bytes : list N) : list N := len_bytes (length bytes) ++ bytes.

(** [char::is_control]: the Unicode category Cc. *)
Definition is_control (c : char) : bool := ((c <? 32) || ((127 <=? c) && (c <=? 159)))%N.

(** The character U+2026. *)
Definition ELLIPSIS : char := 8230.

Definition truncate (value : list char) (max : nat) : list char :=
  if length value <=? max then value else take (max - 1) value ++ [ELLIPSIS].

Definition QUOTE : char := 34.
Definition APOSTROPHE : char := 39.

Definition sanitize (value : list char) : list char :=
  let cleaned :=
    (λ c, if (c =? QUOTE)%N then APOSTROPHE else c) <$> List.filter (λ c, negb (is_control c)) value in
  truncate cleaned MAX_FIELD_CHARS.

(** [[String]::join]. *)
Fixpoint join (sep : list char) (parts : list (list char)) : list char :=
  match parts with
  | [] => []
  | [p] => p
  | p :: parts' => p ++ sep ++ join sep parts'
  end.

Module OpDescriptor.
Record t := mk { kind : string; fields : list Field.t }.
#[global] Instance t_eq_dec : EqDecision t.
Proof. solve_decision. Defined.

Definition new (kind : string) : t := mk kind [].

Definition field (self : t) (name value : string) : t :=
  mk (kind self) (fields self ++ [Field.mk name value true]).

Definition bind (self : t) (name value : string) : t :=
  mk (kind self) (fields self ++ [Field.mk name value false]).

(** The bytes one field feeds to the hasher. *)
Definition encode_field (f : Field.t) : list N :=
  [if Field.shown f then 1%N else 0%N] ++ put (str_bytes (Field.name f)) ++ put (str_bytes (Field.value f)).

(** Everything [digest] feeds to the hasher, in order. *)
Definition encode (self : t) : list N :=
  DOMAIN ++ put (str_bytes (kind self)) ++ len_bytes (length (fields self))
  ++ concat (encode_field <$> fields self).

Definition digest (sha256 : list N → list N) (self : t) : list N := sha256 (encode self).

(** [format!("{} \"{}\"", name, sanitize(value))]. *)
Definition show_field (f : Field.t) : list char :=
  chars (Field.name f) ++ [32%N; QUOTE] ++ sanitize (chars (Field.value f)) ++ [QUOTE].

(** [prompt_text], as the characters of the text. *)
Definition prompt_text (self : t) : list char :=
  let text := chars "approve " ++ ((λ c, if (c =? 95)%N then 32%N else c) <$> chars (kind self)) in
  let shown := show_field <$> List.filter Field.shown (fields self) in
  let text := match shown with
              | [] => text
              | _ => text ++ [32; 8212; 32]%N ++ join [44; 32]%N shown
              end in
  truncate text MAX_PROMPT_CHARS.
End OpDescriptor.

(** ** The encoding *)

Lemma length_be_bytes k n : length (be_bytes k n) = k.
Proof. revert n. induction k as [|k IH]; intros n; simpl; [done|]. rewrite length_app, IH. simpl. lia. Qed.

Lemma be_bytes_inj k n m :
  (n < 256 ^ N.of_nat k)%N → (m < 256 ^ N.of_nat k)%N → be_bytes k n = be_bytes k m → n = m.
Proof.
  revert n m. induction k as [|k IH]; intros n m Hn Hm; simpl.
  - simpl in Hn, Hm. intros _. lia.
  - rewrite Nat2N.inj_succ, N.pow_succ_r' in Hn, Hm.
    intros [E1 E2]%app_inj_tail. apply IH in E1; [lia|..]; apply N.Div0.div_lt_upper_bound; lia.
Qed.

(** A [usize] length fits a [u64]. *)
Definition fits (n : nat) : Prop := (N.of_nat n < 2 ^ 64)%N.

Lemma length_len_bytes n : length (len_bytes n) = 8.
Proof. apply length_be_bytes. Qed.

Lemma len_bytes_inj n m : fits n → fits m → len_bytes n = len_bytes m → n = m.
Proof.
  unfold fits, len_bytes. intros Hn Hm H. apply be_bytes_inj in H.
  - rewrite !N.mod_small in H by done. lia.
  - change (256 ^ N.of_nat 8)%N with (2 ^ 64)%N. apply N.mod_lt. done.
  - change (256 ^ N.of_nat 8)%N with (2 ^ 64)%N. apply N.mod_lt. done.
Qed.

(** A length-prefixed string can be read back from whatever follows it. *)
Lemma put_inj a b ra rb :
  fits (length a) → fits (length b) → put a ++ ra = put b ++ rb → a = b ∧ ra = rb.
Proof.
  unfold put. rewrite <-!app_assoc. intros Ha Hb E.
  apply app_inj_1 in E as [E1 E2]; [|by rewrite !length_len_bytes].
  apply len_bytes_inj in E1; [|done..]. by apply app_inj_1 in E2.
Qed.

(** A [Vec] or [str] that exists in memory. *)
Definition in_memory (op : OpDescriptor.t) : Prop :=
  fits (String.length (OpDescriptor.kind op)) ∧ fits (length (OpDescriptor.fields op)) ∧
  Forall (λ f, fits (String.length (Field.name f)) ∧ fits (String.length (Field.value f)))
    (OpDescriptor.fields op).

#[global] Instance in_memory_dec op : Decision (in_memory op).
Proof. unfold in_memory, fits. apply _. Defined.

Lemma fields_inj fs gs ra rb :
  length fs = length gs →
  Forall (λ f, fits (String.length (Field.name f)) ∧ fits (String.length (Field.value f))) fs →
  Forall (λ f, fits (String.length (Field.name f)) ∧ fits (String.length (Field.value f))) gs →
  concat (OpDescriptor.encode_field <$> fs) ++ ra = concat (OpDescriptor.encode_field <$> gs) ++ rb →
  fs = gs.
Proof.
  revert gs. induction fs as [|f fs IH]; intros [|g gs]; simpl; try done.
  intros [= Hl] [[Hfn Hfv] Hfs]%Forall_cons [[Hgn Hgv] Hgs]%Forall_cons E.
  unfold OpDescriptor.encode_field in E. rewrite <-!app_assoc in E.
  apply cons_eq_inj in E as [Es E]. apply put_inj in E as [En E]; [|by rewrite length_str_bytes..].
  apply put_inj in E as [Ev E]; [|by rewrite length_str_bytes..].
  f_equal; [|by apply IH].
  destruct f as [n v s], g as [n' v' s']. simpl in *.
  apply str_bytes_inj in En as ->. apply str_bytes_inj in Ev as ->. by destruct s, s'.
Qed.

Lemma encode_inj op1 op2 :
  in_memory op1 → in_memory op2 → OpDescriptor.encode op1 = OpDescriptor.encode op2 → op1 = op2.
Proof.
  destruct op1 as [k1 f1], op2 as [k2 f2]. intros (Hk1 & Hn1 & Hf1) (Hk2 & Hn2 & Hf2) E.
  simpl in *. unfold OpDescriptor.encode in E. simpl OpDescriptor.kind in E.
  simpl OpDescriptor.fields in E. apply (inj (app DOMAIN)) in E.
  apply put_inj in E as [Ek E]; [|by rewrite length_str_bytes..].
  apply str_bytes_inj in Ek as ->.
  apply app_inj_1 in E as [El E]; [|by rewrite !length_len_bytes].
  apply len_bytes_inj in El; [|done..].
  f_equal. apply (fields_inj _ _ [] []); [done..|]. by rewrite !app_nil_r.
Qed.

(** ** The prompt *)

Abbreviation no_control l := (Forall (λ c : char, is_control c = false) l).

Lemma truncate_length v max : 0 < max → length (truncate v max) ≤ max.
Proof.
  intros Hm. unfold truncate. destruct (Nat.leb_spec (length v) max); [done|].
  rewrite length_app, length_take. simpl. lia.
Qed.

Lemma truncate_Forall (P : char → Prop) v max : P ELLIPSIS → Forall P v → Forall P (truncate v max).
Proof.
  intros He Hv. unfold truncate. destruct (_ <=? _); [done|].
  apply Forall_app. split; [by apply Forall_take|by constructor].
Qed.

Lemma sanitize_clean v : Forall (λ c, is_control c = false ∧ c ≠ QUOTE) (sanitize v).
Proof.
  unfold sanitize. apply truncate_Forall; [done|]. apply Forall_fmap, Forall_forall.
  intros c [_ Hc]%list_elem_of_In%List.filter_In. simpl. apply negb_true_iff in Hc.
  destruct (N.eqb_spec c QUOTE); done.
Qed.

Lemma join_Forall (P : char → Prop) sep parts :
  Forall P sep → Forall (Forall P) parts → Forall P (join sep parts).
Proof.
  intros Hs. induction 1 as [|p parts Hp Hps IH]; simpl; [constructor|].
  destruct parts; [done|]. by rewrite !Forall_app.
Qed.

(** The kind and the field names, which are literals of the program, hold no
    control characters. *)
Definition names_clean (op : OpDescriptor.t) : Prop :=
  no_control (chars (OpDescriptor.kind op)) ∧
  Forall (λ f, no_control (chars (Field.name f))) (OpDescriptor.fields op).

#[global] Instance names_clean_dec op : Decision (names_clean op).
Proof. unfold names_clean. apply _. Defined.

Lemma show_field_clean f : no_control (chars (Field.name f)) → no_control (OpDescriptor.show_field f).
Proof.
  intros Hn. unfold OpDescriptor.show_field. rewrite !Forall_app. split_and!; [done|..].
  - by repeat constructor.
  - eapply Forall_impl; [apply sanitize_clean|]. by intros c [? _].
  - by repeat constructor.
Qed.

Lemma prompt_no_control op : names_clean op → no_control (OpDescriptor.prompt_text op).
Proof.
  intros [Hk Hf]. unfold OpDescriptor.prompt_text. apply truncate_Forall; [done|].
  assert (no_control (chars "approve " ++
    ((λ c, if (c =? 95)%N then 32%N else c) <$> chars (OpDescriptor.kind op)))) as Hpre.
  { apply Forall_app. split; [by repeat constructor|]. apply Forall_fmap.
    eapply Forall_impl; [exact Hk|]. intros c Hc. simpl. by destruct (N.eqb_spec c 95). }
  assert (Forall (λ l, no_control l)
    (OpDescriptor.show_field <$> List.filter Field.shown (OpDescriptor.fields op))) as Hs.
  { apply Forall_fmap, Forall_forall. intros f [Hin _]%list_elem_of_In%List.filter_In. simpl.
    apply show_field_clean. rewrite Forall_forall in Hf. apply Hf. by apply list_elem_of_In. }
  destruct (OpDescriptor.show_field <$> _); [done|].
  apply Forall_app; split; [done|]. apply Forall_app; split; [by repeat constructor|].
  apply join_Forall; [by repeat constructor|done].
Qed.

Lemma filter_idem {A} (p : A → bool) l : List.filter p (List.filter p l) = List.filter p l.
Proof. induction l as [|x l IH]; simpl; [done|]. destruct (p x) eqn:E; simpl; by rewrite ?E, ?IH. Qed.

(** ** Properties *)

(** The digest binds the whole description.  Two descriptors with the same
    digest are the same operation (kind, every field name and value, its order
    and whether it is shown), or they exhibit a SHA-256 collision. *)
Theorem digest_binds sha256 op1 op2 :
  in_memory op1 → in_memory op2 →
  OpDescriptor.digest sha256 op1 = OpDescriptor.digest sha256 op2 →
  op1 = op2 ∨
  (OpDescriptor.encode op1 ≠ OpDescriptor.encode op2 ∧
   sha256 (OpDescriptor.encode op1) = sha256 (OpDescriptor.encode op2)).
Proof.
  intros H1 H2 E. destruct (decide (op1 = op2)) as [|Hne]; [by left|]. right.
  split; [|exact E]. intros Heq. by apply Hne, encode_inj.
Qed.

Lemma digest_binds_witness :
  let op := OpDescriptor.field (OpDescriptor.new "read_file") "file" "a.txt" in
  op = op ∨ (OpDescriptor.encode op ≠ OpDescriptor.encode op ∧
             (λ l : list N, l) (OpDescriptor.encode op) = (λ l : list N, l) (OpDescriptor.encode op)).
Proof.
  intros op. apply (digest_binds (λ l, l) op op).
  - eapply (bool_decide_unpack _). vm_compute. exact I.
  - eapply (bool_decide_unpack _). vm_compute. exact I.
  - reflexivity.
Defined.

(** The native prompt cannot be forged through field values: it is at most 200
    characters, has no control character, quotes only sanitized values (no inner
    double quote, at most 48 characters), and does not depend on bound-only
    fields. *)
Theorem prompt_is_safe op v :
  names_clean op →
  length (OpDescriptor.prompt_text op) ≤ MAX_PROMPT_CHARS ∧
  no_control (OpDescriptor.prompt_text op) ∧
  OpDescriptor.prompt_text op =
    OpDescriptor.prompt_text
      (OpDescriptor.mk (OpDescriptor.kind op) (List.filter Field.shown (OpDescriptor.fields op))) ∧
  QUOTE ∉ sanitize v ∧ length (sanitize v) ≤ MAX_FIELD_CHARS.
Proof.
  intros Hc. split_and!.
  - apply truncate_length. unfold MAX_PROMPT_CHARS. lia.
  - by apply prompt_no_control.
  - unfold OpDescriptor.prompt_text. simpl. by rewrite filter_idem.
  - intros Hin. pose proof (sanitize_clean v) as Hv. rewrite Forall_forall in Hv.
    by destruct (Hv _ Hin).
  - apply truncate_length. unfold MAX_FIELD_CHARS. lia.
Qed.

Lemma prompt_is_safe_witness :
  no_control (OpDescriptor.prompt_text
    (OpDescriptor.field (OpDescriptor.new "read_file") "file" "evil name")).
Proof.
  apply (prompt_is_safe (OpDescriptor.field (OpDescriptor.new "read_file") "file" "evil name") []).
  eapply (bool_decide_unpack _). vm_compute. exact I.
Defined.
