(* ===== verification/Gate.v ===== *)
(** * sv-presence/src/gate.rs: the per-request attempt state machine

    [Pending -> Verifying -> Authenticated], with every way back. *)
From S2P Require Import Prelude.

(** [AttemptId] is a [u64]; an [Instant] is a point on a monotonic clock; an
    [OpDigest] is 32 bytes. *)
Definition AttemptId : Type := N.
Definition Instant : Type := N.
Definition OpDigest : Type := list N.

#[global] Instance OpDigest_eq_dec : EqDecision OpDigest.
Proof. unfold OpDigest. apply _. Defined.

Module GateError.
Inductive t := AlreadyVerifying | NotPending | StaleAttempt | DigestMismatch | Expired.
#[global] Instance t_eq_dec : EqDecision t.
Proof. solve_decision. Defined.

Definition display (e : t) : string :=
  match e with
  | AlreadyVerifying => "a verification is already in progress for this request"
  | NotPending => "the request is not awaiting verification"
  | StaleAttempt => "the verification result belongs to an older attempt"
  | DigestMismatch => "the request changed during verification"
  | Expired => "the request expired during verification"
  end.
End GateError.

Module GateState.
Inductive t :=
| Pending
| Verifying (attempt : AttemptId) (digest : OpDigest)
| Authenticated (digest : OpDigest).

Definition default : t := Pending.

(** [begin]: the state after the call and its result. *)
Definition begin (self : t) (attempt : AttemptId) (digest : OpDigest) : t * result unit GateError.t :=
  match self with
  | Pending => (Verifying attempt digest, Ok tt)
  | Verifying _ _ => (self, Err GateError.AlreadyVerifying)
  | Authenticated _ => (self, Err GateError.NotPending)
  end.

Definition finish (self : t) (attempt : AttemptId) (granted current : OpDigest)
    (deadline now : Instant) : t * result unit GateError.t :=
  match self with
  | Verifying active digest =>
      if negb (active =? attempt)%N then (self, Err GateError.StaleAttempt)
      else if negb (bool_decide (digest = granted)) || negb (bool_decide (digest = current))
      then (Pending, Err GateError.DigestMismatch)
      else if (deadline <? now)%N then (Pending, Err GateError.Expired)
      else (Authenticated digest, Ok tt)
  | Pending | Authenticated _ => (self, Err GateError.StaleAttempt)
  end.

Definition abort (self : t) (attempt : AttemptId) : t :=
  match self with
  | Verifying a _ => if (a =? attempt)%N then Pending else self
  | Pending | Authenticated _ => self
  end.

Definition is_authenticated_for (self : t) (digest : OpDigest) : bool :=
  match self with
  | Authenticated d => bool_decide (d = digest)
  | Pending | Verifying _ _ => false
  end.

Definition reset (self : t) : t := Pending.
End GateState.

(** ** Histories of one gate *)

Inductive gate_event :=
| EBegin (attempt : AttemptId) (digest : OpDigest)
| EFinish (attempt : AttemptId) (granted current : OpDigest) (deadline now : Instant)
| EAbort (attempt : AttemptId)
| EReset.

Definition gate_apply (g : GateState.t) (ev : gate_event) : GateState.t :=
  match ev with
  | EBegin a d => (GateState.begin g a d).1
  | EFinish a gr cu dl now => (GateState.finish g a gr cu dl now).1
  | EAbort a => GateState.abort g a
  | EReset => GateState.reset g
  end.

Definition gate_run (evs : list gate_event) : GateState.t := foldl gate_apply GateState.default evs.

Lemma gate_run_snoc evs ev : gate_run (evs ++ [ev]) = gate_apply (gate_run evs) ev.
Proof. unfold gate_run. by rewrite foldl_app. Qed.

(** [P] holds of the state after each prefix of [mid] that follows [pre]. *)
Definition throughout (P : GateState.t → Prop) (pre mid : list gate_event) : Prop :=
  ∀ k, k ≤ length mid → P (gate_run (pre ++ take k mid)).

Lemma throughout_snoc P pre mid ev :
  throughout P pre mid → P (gate_run (pre ++ mid ++ [ev])) → throughout P pre (mid ++ [ev]).
Proof.
  intros Hm Hl k Hk. rewrite length_app in Hk. simpl in Hk.
  destruct (decide (k ≤ length mid)) as [Hle|Hgt].
  - rewrite take_app_le by done. by apply Hm.
  - rewrite take_ge; [done|]. rewrite length_app. simpl. lia.
Qed.

Lemma throughout_nil P pre : P (gate_run pre) → throughout P pre [].
Proof. intros H k _. rewrite take_nil, app_nil_r. done. Qed.

(** ** One step backwards *)

Lemma gate_to_verifying g ev a d :
  gate_apply g ev = GateState.Verifying a d →
  g = GateState.Verifying a d ∨ (g = GateState.Pending ∧ ev = EBegin a d).
Proof.
  destruct ev as [a' d'|a' gr cu dl now|a'|]; simpl.
  - destruct g; simpl; intros; simplify_eq; eauto.
  - destruct g as [|b e|]; simpl; [done| |done].
    repeat case_match; simpl; intros; simplify_eq; eauto.
  - destruct g as [|b e|]; simpl; [done| |done]. case_match; intros; simplify_eq; eauto.
  - done.
Qed.

Lemma gate_to_authenticated g ev d :
  gate_apply g ev = GateState.Authenticated d →
  g = GateState.Authenticated d ∨
  ∃ a dl now, g = GateState.Verifying a d ∧ ev = EFinish a d d dl now ∧ (now ≤ dl)%N.
Proof.
  destruct ev as [a' d'|a' gr cu dl now|a'|]; simpl.
  - destruct g; simpl; intros; simplify_eq; eauto.
  - destruct g as [|b e|]; simpl; [done| |by eauto].
    destruct (N.eqb_spec b a') as [->|]; simpl; [|done].
    repeat case_bool_decide; simpl; try done.
    destruct (N.ltb_spec dl now); simpl; [done|]. intros [= ->]. subst. right. eauto 10.
  - destruct g as [|b e|]; simpl; [done|by case_match|by eauto].
  - done.
Qed.

(** A gate that is verifying began that very attempt, and has been verifying it since. *)
Lemma verifying_origin evs a d :
  gate_run evs = GateState.Verifying a d →
  ∃ pre mid, evs = pre ++ EBegin a d :: mid ∧ gate_run pre = GateState.Pending ∧
    throughout (λ g, g = GateState.Verifying a d) (pre ++ [EBegin a d]) mid.
Proof.
  induction evs as [|ev evs IH] using rev_ind; [done|].
  rewrite gate_run_snoc. intros H. destruct (gate_to_verifying _ _ _ _ H) as [Hv|[Hp ->]].
  - destruct (IH Hv) as (pre & mid & -> & Hpre & Hmid). exists pre, (mid ++ [ev]).
    split_and!; [by rewrite <-app_assoc|done|].
    apply throughout_snoc; [done|]. rewrite <-H, <-gate_run_snoc. f_equal. by rewrite <-!app_assoc.
  - exists evs, []. split_and!; [done..|]. apply throughout_nil.
    by rewrite gate_run_snoc.
Qed.

(** ** Properties *)

(** Authentication is always earned.  If a gate is authenticated for a digest,
    its history contains a [begin] of some attempt with that digest from
    [Pending], the gate kept verifying that attempt without interruption until a
    [finish] of the same attempt whose granted and current digests both equal it
    and whose time is within the deadline, and nothing has changed it since. *)
Theorem authenticated_was_verified evs d :
  GateState.is_authenticated_for (gate_run evs) d = true →
  ∃ pre a mid dl now post,
    evs = pre ++ EBegin a d :: mid ++ EFinish a d d dl now :: post ∧
    gate_run pre = GateState.Pending ∧
    throughout (λ g, g = GateState.Verifying a d) (pre ++ [EBegin a d]) mid ∧
    (now ≤ dl)%N ∧
    throughout (λ g, g = GateState.Authenticated d)
      (pre ++ EBegin a d :: mid ++ [EFinish a d d dl now]) post.
Proof.
  destruct (gate_run evs) as [|a0 d0|d0] eqn:Hg; simpl; [done..|]. intros ->%bool_decide_eq_true_1.
  revert Hg. induction evs as [|ev evs IH] using rev_ind; [done|].
  rewrite gate_run_snoc. intros H.
  destruct (gate_to_authenticated _ _ _ H) as [Ha|(a & dl & now & Hv & -> & Hle)].
  - destruct (IH Ha) as (pre & a & mid & dl & now & post & -> & Hpre & Hmid & Hle & Hpost).
    exists pre, a, mid, dl, now, (post ++ [ev]). split_and!; [|done..|].
    { rewrite <-app_assoc. simpl. by rewrite <-app_assoc. }
    apply throughout_snoc; [done|]. rewrite <-H, <-gate_run_snoc. f_equal.
    rewrite <-!app_assoc. simpl. by rewrite <-!app_assoc.
  - destruct (verifying_origin _ _ _ Hv) as (pre & mid & -> & Hpre & Hmid).
    exists pre, a, mid, dl, now, []. split_and!; [by rewrite <-app_assoc|done..|].
    apply throughout_nil. rewrite <-H, <-gate_run_snoc. f_equal. by rewrite <-!app_assoc.
Qed.

Lemma authenticated_was_verified_witness :
  ∃ pre a mid dl now post,
    [EBegin 1%N [7%N]; EAbort 2%N; EFinish 1%N [7%N] [7%N] 10%N 9%N] =
      pre ++ EBegin a [7%N] :: mid ++ EFinish a [7%N] [7%N] dl now :: post.
Proof.
  destruct (authenticated_was_verified [EBegin 1%N [7%N]; EAbort 2%N; EFinish 1%N [7%N] [7%N] 10%N 9%N] [7%N])
    as (pre & a & mid & dl & now & post & E & _); [vm_compute; reflexivity|].
  exists pre, a, mid, dl, now, post. exact E.
Defined.

(** A result cannot be applied to the wrong request or twice: [finish] changes
    the gate only for the attempt it is verifying, a refusal never leaves the gate
    authenticated, and after a success the same result is stale. *)
Theorem finish_exact g a gr cu dl now :
  match GateState.finish g a gr cu dl now with
  | (g', Ok _) =>
      g = GateState.Verifying a gr ∧ gr = cu ∧ (now ≤ dl)%N ∧ g' = GateState.Authenticated gr ∧
      GateState.finish g' a gr cu dl now = (g', Err GateError.StaleAttempt)
  | (g', Err GateError.StaleAttempt) => g' = g ∧ ∀ d, g ≠ GateState.Verifying a d
  | (g', Err e) =>
      g' = GateState.Pending ∧ ∃ d, g = GateState.Verifying a d ∧
        (e = GateError.DigestMismatch ∧ (d ≠ gr ∨ d ≠ cu) ∨
         e = GateError.Expired ∧ d = gr ∧ d = cu ∧ (dl < now)%N)
  end.
Proof.
  destruct g as [|b d|d]; simpl; [done| |done].
  destruct (N.eqb_spec b a) as [->|Hne]; simpl; [|split; [done|congruence]].
  repeat case_bool_decide; simpl; subst; try (split; [done|]; eexists; split; [done|]; auto).
  destruct (N.ltb_spec dl now); simpl; [|done]. split; [done|]. eexists. split; [done|]. auto.
Qed.
