(* ===== verification/Coordinator.v ===== *)
(** * sv-presence/src/coordinator.rs: one native prompt at a time

    The coordinator's shared state (the one-permit semaphore, the waiting counter,
    the sticky flag, the attempt registry and its cancellation signals) and the
    [verify] calls in progress, as an interleaving of atomic steps: every step is
    one poll of a call, one event of a spawned prompt, or one call of an owner.

    A call is at one of the points where it can be suspended, plus [Rejecting] and
    [Holding], the points between two shared-memory accesses.  The spawned task
    that runs the native prompt outlives its caller, so it is a separate field. *)
From S2P Require Import Prelude PresenceOp Gate.

Definition MAX_WAITING : N := 8.

Module Classification.
Inductive t := Protected | Unprotected (reason : Reason.t).

Definition is_protected (self : t) : bool :=
  match self with Protected => true | Unprotected _ => false end.
End Classification.

Module Denial.
Inductive t :=
| Retryable (e : PresenceError.t)
| Denied (e : PresenceError.t)
| Expired
| QueueFull
| Invalidated.

Definition message (self : t) : string :=
  match self with
  | Retryable e => "presence not confirmed: " +:+ (PresenceError.display e +:+ "; you can try again")
  | Denied e => "presence verification denied: " +:+ PresenceError.display e
  | Expired => "presence verification expired"
  | QueueFull => "queue_full: too many requests are waiting for presence verification"
  | Invalidated =>
      "presence verification invalidated: the request was refused, expired, or the vault locked"
  end.
End Denial.

Module Verified.
Record t := mk { attempt : AttemptId; digest : OpDigest; outcome : Outcome.t }.
End Verified.

(** What the spawned task leaves in the oneshot channel: the backend's result, or
    nothing because the task panicked and dropped the sender. *)
Inductive backend_end :=
| Returned (r : result Outcome.t PresenceError.t)
| SenderDropped.

(** The last [match got] of [verify]. *)
Definition conclude (id : AttemptId) (digest : OpDigest) (got : backend_end) :
    result Verified.t Denial.t :=
  match got with
  | Returned (Ok outcome) => Ok (Verified.mk id digest outcome)
  | Returned (Err e) =>
      if bool_decide (e = PresenceError.Timeout) then Err Denial.Expired
      else if PresenceError.is_retryable e then Err (Denial.Retryable e)
      else Err (Denial.Denied e)
  | SenderDropped => Err (Denial.Denied PresenceError.Failed)
  end.

(** ** Calls in progress *)

Inductive phase :=
| Rejecting                                   (* counted, [before >= MAX_WAITING] *)
| Waiting                                     (* in the queue, holding a [QueuePlace] *)
| Holding                                     (* has the permit, before its two checks *)
| Awaiting (digest : OpDigest)                (* prompt spawned, selecting on the result *)
| Finished (r : result Verified.t Denial.t)
| Aborted.                                    (* the caller's future was dropped *)

Inductive backend :=
| NotSpawned
| Running                                     (* holds the permit *)
| Ended (got : backend_end).

Module Call.
Record t := mk {
  attempt : AttemptId;
  op : OpDescriptor.t;
  deadline : Instant;
  at_ : phase;
  prompt : backend
}.

Definition move (c : t) (p : phase) : t := mk (attempt c) (op c) (deadline c) p (prompt c).
Definition spawn (c : t) (digest : OpDigest) : t :=
  mk (attempt c) (op c) (deadline c) (Awaiting digest) Running.
Definition end_prompt (c : t) (got : backend_end) : t :=
  mk (attempt c) (op c) (deadline c) (at_ c) (Ended got).
End Call.

Module PresenceCoordinator.
Record t := mk {
  slot : N;                              (* available permits *)
  waiting : N;
  seen_protected : bool;
  next_attempt : N;                      (* attempts begun; the [AtomicU64] holds it mod 2^64 *)
  registry : gset AttemptId;
  fired : gset AttemptId;                (* attempts whose signal is [true] *)
  clock : Instant;
  calls : list Call.t
}.

Definition new : t := mk 1%N 0%N false 0%N ∅ ∅ 0%N [].

(** [begin_attempt]: the attempt's id, registered with a fresh signal. *)
Definition begin_attempt (self : t) : t * AttemptId :=
  let id := ((next_attempt self + 1) mod 2 ^ 64)%N in
  (mk (slot self) (waiting self) (seen_protected self) (next_attempt self + 1)
     ({[id]} ∪ registry self) (fired self ∖ {[id]}) (clock self) (calls self), id).

(** [impl Drop for Attempt]. *)
Definition drop_attempt (self : t) (id : AttemptId) : t :=
  mk (slot self) (waiting self) (seen_protected self) (next_attempt self)
    (registry self ∖ {[id]}) ({[id]} ∪ fired self) (clock self) (calls self).

(** [classify], given what the verifier's [availability] answers. *)
Definition classify (self : t) (availability : Availability.t) : t * Classification.t :=
  match availability with
  | Availability.Protected _ =>
      (mk (slot self) (waiting self) true (next_attempt self) (registry self) (fired self)
         (clock self) (calls self), Classification.Protected)
  | Availability.Unavailable reason =>
      if seen_protected self then (self, Classification.Protected)
      else (self, Classification.Unprotected reason)
  end.

(** Firing a signal ([send_replace(true)]). *)
Definition fire (self : t) (id : AttemptId) : t :=
  mk (slot self) (waiting self) (seen_protected self) (next_attempt self) (registry self)
    ({[id]} ∪ fired self) (clock self) (calls self).

(** [invalidate]. *)
Definition invalidate (self : t) (id : AttemptId) : t :=
  if bool_decide (id ∈ registry self) then fire self id else self.

(** Updates of the fields [verify] touches. *)
Definition set (self : t) (slot' waiting' : N) (calls' : list Call.t) : t :=
  mk slot' waiting' (seen_protected self) (next_attempt self) (registry self) (fired self)
    (clock self) calls'.

Definition tick (self : t) (later : Instant) : t :=
  mk (slot self) (waiting self) (seen_protected self) (next_attempt self) (registry self)
    (fired self) later (calls self).

(** The start of [verify]: [try_acquire_owned], else count a place and compare. *)
Definition verify_start (self : t) (id : AttemptId) (op : OpDescriptor.t) (deadline : Instant) : t :=
  if (0 <? slot self)%N
  then set self (slot self - 1) (waiting self) (Call.mk id op deadline Holding NotSpawned :: calls self)
  else
    let before := waiting self in
    set self (slot self) (before + 1)
      (Call.mk id op deadline (if (MAX_WAITING <=? before)%N then Rejecting else Waiting) NotSpawned
         :: calls self).
End PresenceCoordinator.
Import PresenceCoordinator.

(** ** Steps *)

Section steps.
Context (sha256 : list N → list N).

(** The polls of one call [c], in a coordinator [s]: the permits and places after
    the step, and the call. *)
Inductive call_step (s : t) (c : Call.t) : N → N → Call.t → Prop :=
| call_rejected :
    Call.at_ c = Rejecting →
    call_step s c (slot s) (waiting s - 1) (Call.move c (Finished (Err Denial.QueueFull)))
| call_wait_cancelled :
    Call.at_ c = Waiting → Call.attempt c ∈ fired s →
    call_step s c (slot s) (waiting s - 1) (Call.move c (Finished (Err Denial.Invalidated)))
| call_wait_expired :
    Call.at_ c = Waiting → Call.attempt c ∉ fired s → (Call.deadline c ≤ clock s)%N →
    call_step s c (slot s) (waiting s - 1) (Call.move c (Finished (Err Denial.Expired)))
| call_acquired :
    Call.at_ c = Waiting → Call.attempt c ∉ fired s → (0 < slot s)%N →
    call_step s c (slot s - 1) (waiting s - 1) (Call.move c Holding)
| call_wait_aborted :
    Call.at_ c = Waiting → call_step s c (slot s) (waiting s - 1) (Call.move c Aborted)
| call_hold_cancelled :
    Call.at_ c = Holding → Call.attempt c ∈ fired s →
    call_step s c (slot s + 1) (waiting s) (Call.move c (Finished (Err Denial.Invalidated)))
| call_hold_expired :
    Call.at_ c = Holding → Call.attempt c ∉ fired s → (Call.deadline c ≤ clock s)%N →
    call_step s c (slot s + 1) (waiting s) (Call.move c (Finished (Err Denial.Expired)))
| call_spawned :
    Call.at_ c = Holding → Call.attempt c ∉ fired s → (clock s < Call.deadline c)%N →
    call_step s c (slot s) (waiting s) (Call.spawn c (OpDescriptor.digest sha256 (Call.op c)))
| call_prompt_ended got :
    Call.prompt c = Running → call_step s c (slot s + 1) (waiting s) (Call.end_prompt c got)
| call_await_cancelled d :
    Call.at_ c = Awaiting d → Call.attempt c ∈ fired s →
    call_step s c (slot s) (waiting s) (Call.move c (Finished (Err Denial.Invalidated)))
| call_concluded d got :
    Call.at_ c = Awaiting d → Call.attempt c ∉ fired s → Call.prompt c = Ended got →
    call_step s c (slot s) (waiting s) (Call.move c (Finished (conclude (Call.attempt c) d got)))
| call_await_aborted d :
    Call.at_ c = Awaiting d → call_step s c (slot s) (waiting s) (Call.move c Aborted).

(** A step of the whole system.  An [Attempt] is registered from its creation to
    its drop, so only a registered one can be dropped or verified.  Expiry of an open prompt also fires the signal. *)
Inductive step : t → t → Prop :=
| step_begin s s' id : begin_attempt s = (s', id) → step s s'
| step_drop s id : id ∈ registry s → step s (drop_attempt s id)
| step_classify s a s' c : classify s a = (s', c) → step s s'
| step_invalidate s id : step s (invalidate s id)
| step_tick s later : (clock s ≤ later)%N → step s (tick s later)
| step_verify s id op deadline : id ∈ registry s → step s (verify_start s id op deadline)
| step_call s l1 c l2 n w c' :
    calls s = l1 ++ c :: l2 → call_step s c n w c' → step s (set s n w (l1 ++ c' :: l2))
| step_await_expired s l1 c l2 d :
    calls s = l1 ++ c :: l2 → Call.at_ c = Awaiting d → Call.attempt c ∉ fired s →
    (Call.deadline c ≤ clock s)%N →
    step s (fire (set s (slot s) (waiting s)
              (l1 ++ Call.move c (Finished (Err Denial.Expired)) :: l2)) (Call.attempt c)).

Definition reachable (s : t) : Prop := rtc step new s.
End steps.

(** ** Counting *)

Definition holds_permit (c : Call.t) : bool :=
  match Call.at_ c, Call.prompt c with
  | Holding, _ => true
  | _, Running => true
  | _, _ => false
  end.
Definition in_queue (c : Call.t) : bool :=
  match Call.at_ c with Waiting => true | _ => false end.
Definition has_place (c : Call.t) : bool :=
  match Call.at_ c with Waiting | Rejecting => true | _ => false end.
Definition prompting (c : Call.t) : bool :=
  match Call.prompt c with Running => true | _ => false end.

Definition count (p : Call.t → bool) (s : t) : N := N.of_nat (length (List.filter p (calls s))).

Abbreviation cnt p l := (N.of_nat (length (List.filter p l))).
Abbreviation b2n b := (if b then 1 else 0)%N.

Lemma cnt_middle (p : Call.t → bool) l1 c l2 : cnt p (l1 ++ c :: l2) = (cnt p (l1 ++ l2) + b2n (p c))%N.
Proof.
  rewrite !List.filter_app. simpl. rewrite !length_app. destruct (p c); simpl; lia.
Qed.

Lemma cnt_cons (p : Call.t → bool) c l : cnt p (c :: l) = (cnt p l + b2n (p c))%N.
Proof. apply (cnt_middle p []). Qed.

(** A call before its prompt is spawned, in the queue phases. *)
Definition call_wf (c : Call.t) : Prop :=
  match Call.at_ c with
  | Rejecting | Waiting | Holding => Call.prompt c = NotSpawned
  | Awaiting _ => Call.prompt c ≠ NotSpawned
  | Finished _ | Aborted => True
  end.

Definition coord_inv (s : t) : Prop :=
  (slot s + count holds_permit s = 1)%N ∧
  waiting s = count has_place s ∧
  (count in_queue s ≤ MAX_WAITING)%N ∧
  Forall call_wf (calls s).

(** How one poll moves the counts. *)
Lemma call_step_counts sha256 s c n w c' :
  call_step sha256 s c n w c' → call_wf c →
  (has_place c = true → (0 < waiting s)%N) →
  (n + b2n (holds_permit c') = slot s + b2n (holds_permit c))%N ∧
  (w + b2n (has_place c) = waiting s + b2n (has_place c'))%N ∧
  (in_queue c' = true → in_queue c = true) ∧ call_wf c'.
Proof.
  intros Hs Hwf Hpl. unfold call_wf, holds_permit, has_place, in_queue in *.
  destruct c as [a op dl p b]; simpl in *.
  destruct Hs; simpl in *; simplify_eq; simpl in *; try rewrite Hwf in *; subst;
    repeat (case_match; simplify_eq); simpl in *; try specialize (Hpl eq_refl); split_and!; try done; try lia.
Qed.

(** Replacing one call keeps the invariant when its counts balance. *)
Lemma replace_call_inv s l1 c l2 c' n w :
  coord_inv s → calls s = l1 ++ c :: l2 →
  (n + b2n (holds_permit c') = slot s + b2n (holds_permit c))%N →
  (w + b2n (has_place c) = waiting s + b2n (has_place c'))%N →
  (in_queue c' = true → in_queue c = true) → call_wf c' →
  coord_inv (set s n w (l1 ++ c' :: l2)).
Proof.
  intros (Hslot & Hwait & Hq & Hwf) Hc Hn Hw Hin Hwf'. unfold coord_inv, count in *. simpl.
  rewrite Hc, !cnt_middle in *. split_and!; [lia|lia| |].
  - destruct (in_queue c'); [rewrite Hin in Hq by done|]; destruct (in_queue c); lia.
  - rewrite Forall_app, Forall_cons in *. tauto.
Qed.

(** States that differ only in fields the invariant does not mention. *)
Lemma same_calls_inv s s' :
  coord_inv s → slot s' = slot s → waiting s' = waiting s → calls s' = calls s → coord_inv s'.
Proof. unfold coord_inv, count. by intros ? -> -> ->. Qed.

Lemma place_counted s l1 c l2 :
  coord_inv s → calls s = l1 ++ c :: l2 → has_place c = true → (0 < waiting s)%N.
Proof.
  intros (_ & Hw & _) Hc Hp. rewrite Hw. unfold count. rewrite Hc, cnt_middle, Hp. lia.
Qed.

Lemma verify_start_inv s id op dl : coord_inv s → coord_inv (verify_start s id op dl).
Proof.
  intros (Hslot & Hwait & Hq & Hwf). unfold verify_start.
  assert (cnt in_queue (calls s) ≤ cnt has_place (calls s))%N as Hle.
  { generalize (calls s). induction l as [|c l IH]; [done|]. rewrite !cnt_cons.
    unfold in_queue, has_place in *. destruct (Call.at_ c); lia. }
  unfold coord_inv, count in *. destruct (N.ltb_spec 0 (slot s)); cbn [set slot waiting calls];
    rewrite !cnt_cons.
  - cbn. split_and!; [lia..|by constructor].
  - destruct (N.leb_spec MAX_WAITING (waiting s)); cbn -[MAX_WAITING];
      (split_and!; [lia..|by constructor]).
Qed.

Lemma step_inv sha256 s s' : step sha256 s s' → coord_inv s → coord_inv s'.
Proof.
  destruct 1 as [s s' id Hb|s id _|s a s' c Hc|s id|s later _|s id op dl _
    |s l1 c l2 n w c' Hc Hs|s l1 c l2 d Hc Hat _ _]; intros Hi.
  - unfold begin_attempt in Hb. simplify_eq. by eapply same_calls_inv.
  - by eapply same_calls_inv.
  - unfold classify in Hc. destruct a; [|destruct (seen_protected s)]; simplify_eq; [|done..].
    by eapply same_calls_inv.
  - unfold invalidate. case_bool_decide; [|done]. by eapply same_calls_inv.
  - by eapply same_calls_inv.
  - by apply verify_start_inv.
  - assert (call_wf c) as Hwf.
    { destruct Hi as (_ & _ & _ & Hall). rewrite Hc, Forall_app, Forall_cons in Hall. tauto. }
    destruct (call_step_counts _ _ _ _ _ _ Hs Hwf (place_counted s l1 c l2 Hi Hc)) as (?&?&?&?).
    by eapply replace_call_inv.
  - eapply (same_calls_inv (set s (slot s) (waiting s)
      (l1 ++ Call.move c (Finished (Err Denial.Expired)) :: l2))); [|done..].
    assert (call_wf c) as Hwf.
    { destruct Hi as (_ & _ & _ & Hall). rewrite Hc, Forall_app, Forall_cons in Hall. tauto. }
    destruct c as [a op dl p b]. simpl in *. subst p.
    eapply replace_call_inv; [done|exact Hc|..]; simpl; try done; unfold holds_permit, has_place; simpl;
      destruct b; lia.
Qed.

Lemma coord_reachable_inv sha256 s : reachable sha256 s → coord_inv s.
Proof.
  intros Hr. assert (coord_inv new) as H0 by (by repeat split; try constructor).
  unfold reachable in Hr. induction Hr as [|s1 s2 s3 Hs _ IH]; [done|].
  apply IH. by eapply step_inv.
Qed.

(** ** Signals and attempts *)

Lemma step_next_attempt sha256 s s' : step sha256 s s' → (next_attempt s ≤ next_attempt s')%N.
Proof.
  destruct 1 as [s s' id Hb|s id _|s a s' c Hc|s id|s later _|s id op dl _
    |s l1 c l2 n w c' Hc Hs|s l1 c l2 d Hc Hat _ _]; simpl; try lia.
  - unfold begin_attempt in Hb. simplify_eq. simpl. lia.
  - unfold classify in Hc. destruct a; [|destruct (seen_protected s)]; simplify_eq; simpl; lia.
  - unfold invalidate. case_bool_decide; simpl; lia.
  - unfold verify_start. destruct (0 <? slot s)%N; simpl; lia.
Qed.

(** A fired signal of an attempt already begun stays fired. *)
Lemma step_fired sha256 s s' id :
  step sha256 s s' → id ∈ fired s → (id ≤ next_attempt s)%N → (next_attempt s' < 2 ^ 64)%N →
  id ∈ fired s'.
Proof.
  destruct 1 as [s s' i Hb|s i _|s a s' c Hc|s i|s later _|s i op dl _
    |s l1 c l2 n w c' Hc Hs|s l1 c l2 d Hc Hat _ _]; simpl; intros Hf Hle Hlt; try set_solver.
  - unfold begin_attempt in Hb. simplify_eq. simpl in *.
    rewrite N.mod_small by done. apply elem_of_difference. split; [done|].
    rewrite elem_of_singleton. lia.
  - unfold classify in Hc. destruct a; [|destruct (seen_protected s)]; by simplify_eq.
  - unfold invalidate. case_bool_decide; simpl; set_solver.
  - unfold verify_start. by destruct (0 <? slot s)%N.
Qed.

(** A cancelled call that has not spawned its prompt never will. *)
Definition never_prompts (id : AttemptId) (c : Call.t) : Prop :=
  Call.attempt c = id ∧ Call.prompt c = NotSpawned ∧ ∀ v, Call.at_ c ≠ Finished (Ok v).

Lemma call_step_never sha256 s c n w c' id :
  call_step sha256 s c n w c' → id ∈ fired s → call_wf c → never_prompts id c → never_prompts id c'.
Proof.
  intros Hs Hf Hwf (<- & Hp & Hok). unfold call_wf in Hwf.
  destruct c as [a op dl p b]; simpl in *. subst b.
  destruct Hs; simpl in *; simplify_eq; by repeat split.
Qed.

(** Calls are identified by their distance from the end of the list, which new
    calls do not change. *)
Lemma replace_at (l1 : list Call.t) c0 c1 l2 k c :
  reverse (l1 ++ c0 :: l2) !! k = Some c →
  (c = c0 ∧ reverse (l1 ++ c1 :: l2) !! k = Some c1) ∨ reverse (l1 ++ c1 :: l2) !! k = Some c.
Proof.
  rewrite !reverse_app, !reverse_cons, <-!app_assoc. intros Hk.
  destruct (decide (k < length (reverse l2))) as [Hlt|Hge].
  - right. rewrite lookup_app_l in Hk |- * by lia. done.
  - rewrite lookup_app_r in Hk |- * by lia.
    destruct (k - length (reverse l2)); simpl in *; [left; by simplify_eq|by right].
Qed.

Lemma step_call_at sha256 s s' k c id :
  step sha256 s s' → coord_inv s → reverse (calls s) !! k = Some c → id ∈ fired s →
  never_prompts id c → ∃ c', reverse (calls s') !! k = Some c' ∧ never_prompts id c'.
Proof.
  destruct 1 as [s s' i Hb|s i _|s a s' c0 Hc|s i|s later _|s i op dl _
    |s l1 c0 l2 n w c' Hc Hs|s l1 c0 l2 d Hc Hat _ _]; intros Hi Hk Hf Hn; try (by eauto).
  - unfold begin_attempt in Hb. simplify_eq. eauto.
  - unfold classify in Hc. destruct a; [|destruct (seen_protected s)]; simplify_eq; eauto.
  - unfold invalidate. case_bool_decide; eauto.
  - unfold verify_start. destruct (0 <? slot s)%N; simpl; rewrite reverse_cons;
      (rewrite lookup_app_l by (by eapply lookup_lt_Some)); eauto.
  - destruct Hi as (_ & _ & _ & Hall). rewrite Hc in Hk, Hall.
    rewrite Forall_app, Forall_cons in Hall. destruct Hall as (_ & Hwf & _).
    destruct (replace_at _ _ c' _ _ _ Hk) as [[-> Hk']|Hk']; [|by eauto].
    exists c'. split; [done|]. by eapply call_step_never.
  - destruct Hi as (_ & _ & _ & Hall). rewrite Hc in Hk, Hall.
    rewrite Forall_app, Forall_cons in Hall. destruct Hall as (_ & Hwf & _).
    destruct (replace_at _ _ (Call.move c0 (Finished (Err Denial.Expired))) _ _ _ Hk)
      as [[-> Hk']|Hk']; [|by eauto].
    unfold call_wf in Hwf. rewrite Hat in Hwf. by destruct Hn as (_ & Hn & _).
Qed.

Lemma steps_never_prompt sha256 s s' k c id :
  rtc (step sha256) s s' → coord_inv s → (next_attempt s' < 2 ^ 64)%N →
  reverse (calls s) !! k = Some c → id ∈ fired s → (id ≤ next_attempt s)%N → never_prompts id c →
  ∃ c', reverse (calls s') !! k = Some c' ∧ never_prompts id c'.
Proof.
  intros Hr. revert c. induction Hr as [s|s1 s2 s3 Hs Hr IH]; intros c Hi Hlt Hk Hf Hle Hn; [eauto|].
  assert (next_attempt s2 ≤ next_attempt s3)%N as H23.
  { clear -Hr. induction Hr as [|x y z Hxy _ IH]; [done|].
    pose proof (step_next_attempt _ _ _ Hxy). lia. }
  pose proof (step_next_attempt _ _ _ Hs) as H12.
  destruct (step_call_at _ _ _ _ _ _ Hs Hi Hk Hf Hn) as (c2 & Hk2 & Hn2).
  eapply IH; [by eapply step_inv|done|done| |lia|done]. eapply step_fired; [done..|lia].
Qed.

(** ** What a verified call stands for *)

Definition call_bound (sha256 : list N → list N) (c : Call.t) : Prop :=
  match Call.at_ c with
  | Awaiting d => d = OpDescriptor.digest sha256 (Call.op c)
  | Finished (Ok v) =>
      Verified.attempt v = Call.attempt c ∧
      Verified.digest v = OpDescriptor.digest sha256 (Call.op c) ∧
      Call.prompt c = Ended (Returned (Ok (Verified.outcome v)))
  | _ => True
  end.

Lemma conclude_Ok id d got v :
  conclude id d got = Ok v →
  v = Verified.mk id d (Verified.outcome v) ∧ got = Returned (Ok (Verified.outcome v)).
Proof.
  unfold conclude. destruct got as [[o|e]|]; [|repeat case_match|]; intros [= <-]. done.
Qed.

Lemma call_step_bound sha256 s c n w c' :
  call_step sha256 s c n w c' → call_bound sha256 c → call_bound sha256 c'.
Proof.
  destruct c as [a op dl p b]. unfold call_bound. intros Hs Hb. simpl in *.
  destruct Hs; simpl in *; simplify_eq; try done.
  - destruct p as [| | | |[v|]|]; try done. by destruct Hb as (_ & _ & ?).
  - destruct (conclude _ _ _) as [v|] eqn:Hv; [|done].
    apply conclude_Ok in Hv as [-> ->]. done.
Qed.

Lemma step_bound sha256 s s' :
  step sha256 s s' → Forall (call_bound sha256) (calls s) → Forall (call_bound sha256) (calls s').
Proof.
  destruct 1 as [s s' i Hb|s i _|s a s' c0 Hc|s i|s later _|s i op dl _
    |s l1 c0 l2 n w c' Hc Hs|s l1 c0 l2 d Hc Hat _ _]; intros Hf; simpl; try done.
  - unfold begin_attempt in Hb. by simplify_eq.
  - unfold classify in Hc. destruct a; [|destruct (seen_protected s)]; by simplify_eq.
  - unfold invalidate. by case_bool_decide.
  - unfold verify_start. destruct (0 <? slot s)%N; simpl; [by constructor|].
    constructor; [|done]. unfold call_bound. simpl. by destruct (MAX_WAITING <=? _)%N.
  - rewrite Hc, !Forall_app, !Forall_cons in *. destruct Hf as (? & ? & ?).
    split_and!; [done| |done]. by eapply call_step_bound.
  - rewrite Hc, !Forall_app, !Forall_cons in *. destruct Hf as (? & ? & ?). done.
Qed.

Lemma reachable_bound sha256 s : reachable sha256 s → Forall (call_bound sha256) (calls s).
Proof.
  assert (Forall (call_bound sha256) (calls new)) as H0 by constructor. unfold reachable. intros Hr.
  induction Hr as [|s1 s2 s3 Hs _ IH]; [done|]. apply IH. by eapply step_bound.
Qed.

Lemma step_seen sha256 s s' : step sha256 s s' → seen_protected s = true → seen_protected s' = true.
Proof.
  destruct 1 as [s s' i Hb|s i _|s a s' c0 Hc|s i|s later _|s i op dl _
    |s l1 c0 l2 n w c' Hc Hs|s l1 c0 l2 d Hc Hat _ _]; intros Hf; simpl; try done.
  - unfold begin_attempt in Hb. by simplify_eq.
  - unfold classify in Hc. destruct a; [|rewrite Hf in Hc]; by simplify_eq.
  - unfold invalidate. by case_bool_decide.
  - unfold verify_start. by destruct (0 <? slot s)%N.
Qed.

(** ** Properties *)

(** C25: under every interleaving of calls, cancellations, expiries, aborted callers
    and backend completions, at most one native prompt is open, the permit is
    never lost or duplicated, at most eight calls wait, and the waiting counter is
    exactly the places held, so none leaks. *)
Theorem one_prompt_bounded_queue sha256 s :
  reachable sha256 s →
  (count prompting s ≤ 1)%N ∧ (slot s + count holds_permit s = 1)%N ∧
  (count in_queue s ≤ MAX_WAITING)%N ∧ waiting s = count has_place s.
Proof.
  intros (Hslot & Hwait & Hq & _)%coord_reachable_inv. split_and!; [|done..].
  assert (count prompting s ≤ count holds_permit s)%N; [|lia].
  unfold count. generalize (calls s). induction l as [|c l IH]; [done|]. rewrite !cnt_cons.
  unfold prompting, holds_permit in *. destruct (Call.at_ c), (Call.prompt c); lia.
Qed.

(** A verification is what it claims: when a [verify] call returns [Ok], the
    result carries that call's own attempt, the digest of the operation it was
    asked about, and the outcome its own native prompt ended with. *)
Theorem verified_is_bound sha256 s c v :
  reachable sha256 s → c ∈ calls s → Call.at_ c = Finished (Ok v) →
  Verified.attempt v = Call.attempt c ∧
  Verified.digest v = OpDescriptor.digest sha256 (Call.op c) ∧
  Call.prompt c = Ended (Returned (Ok (Verified.outcome v))).
Proof.
  intros Hall%reachable_bound Hin Hat. rewrite Forall_forall in Hall. specialize (Hall _ Hin).
  unfold call_bound in Hall. by rewrite Hat in Hall.
Qed.

(** Cancellation before the prompt is never lost.  Once the signal of a begun
    attempt has fired while its call has not spawned the native prompt (queued, or
    holding the permit), that call never spawns one and never returns [Ok],
    whatever happens next (short of 2^64 attempts). *)
Theorem invalidated_never_prompts sha256 s s' k c :
  reachable sha256 s → rtc (step sha256) s s' → (next_attempt s' < 2 ^ 64)%N →
  reverse (calls s) !! k = Some c → Call.prompt c = NotSpawned →
  (∀ v, Call.at_ c ≠ Finished (Ok v)) →
  Call.attempt c ∈ fired s → (Call.attempt c ≤ next_attempt s)%N →
  ∃ c', reverse (calls s') !! k = Some c' ∧ Call.attempt c' = Call.attempt c ∧
    Call.prompt c' = NotSpawned ∧ ∀ v, Call.at_ c' ≠ Finished (Ok v).
Proof.
  intros Hr Hrs Hlt Hk Hp Hok Hf Hle.
  destruct (steps_never_prompt sha256 s s' k c (Call.attempt c)) as (c' & Hk' & Ha & Hp' & Hok');
    [done|by eapply coord_reachable_inv|done..|by repeat split|]. eauto 10.
Qed.

(** Classification never downgrades within a process: after one [Protected]
    answer, every later classification is [Protected], whatever the backend then
    reports. *)
Theorem classify_sticky sha256 s modalities s1 s' a :
  classify s (Availability.Protected modalities) = (s1, Classification.Protected) →
  rtc (step sha256) s1 s' → (classify s' a).2 = Classification.Protected.
Proof.
  intros Hc Hr. assert (seen_protected s' = true) as Hs.
  { assert (seen_protected s1 = true) as H1 by (simpl in Hc; by simplify_eq). clear -Hr H1.
    induction Hr as [|x y z Hs _ IH]; [done|]. apply IH. by eapply step_seen. }
  unfold classify. destruct a; [done|]. by rewrite Hs.
Qed.

(** ** A concrete run for the witnesses *)
Module SampleRun.
Definition sha (l : list N) : list N := l.
Definition op : OpDescriptor.t := OpDescriptor.new "read_file".
Definition s1 : t := (begin_attempt new).1.
Definition s2 : t := verify_start s1 1%N op 100%N.
Definition held : Call.t := Call.mk 1%N op 100%N Holding NotSpawned.
Definition s3 : t := set s2 0%N 0%N [Call.spawn held (OpDescriptor.digest sha op)].
Definition approved : backend_end := Returned (Ok (Outcome.mk Modality.Pin)).
Definition ended : Call.t := Call.end_prompt (Call.spawn held (OpDescriptor.digest sha op)) approved.
Definition s4 : t := set s3 1%N 0%N [ended].
Definition verified : Verified.t := Verified.mk 1%N (OpDescriptor.digest sha op) (Outcome.mk Modality.Pin).
Definition s5 : t := set s4 1%N 0%N [Call.move ended (Finished (Ok verified))].
Definition s2' : t := invalidate s2 1%N.

Lemma s2_reachable : reachable sha s2.
Proof.
  eapply rtc_l; [by apply (step_begin sha new s1 1%N)|].
  apply rtc_once. apply step_verify. simpl. set_solver.
Qed.

Lemma s3_reachable : reachable sha s3.
Proof.
  eapply rtc_r; [apply s2_reachable|]. apply (step_call sha s2 [] held [] 0%N 0%N); [done|].
  apply call_spawned; [done| |done]. simpl. set_solver.
Qed.

Lemma s5_reachable : reachable sha s5.
Proof.
  eapply rtc_r.
  - eapply rtc_r; [apply s3_reachable|].
    apply (step_call sha s3 [] (Call.spawn held (OpDescriptor.digest sha op)) [] 1%N 0%N ended); [done|].
    by apply call_prompt_ended.
  - apply (step_call sha s4 [] ended [] 1%N 0%N); [done|].
    apply (call_concluded sha s4 ended (OpDescriptor.digest sha op) approved); [done| |done].
    simpl. set_solver.
Qed.

Lemma s2'_reachable : reachable sha s2'.
Proof. eapply rtc_r; [apply s2_reachable|]. apply step_invalidate. Qed.
End SampleRun.

Lemma one_prompt_bounded_queue_witness :
  count prompting SampleRun.s3 = 1%N ∧ (count prompting SampleRun.s3 ≤ 1)%N.
Proof.
  split; [vm_compute; reflexivity|].
  apply (one_prompt_bounded_queue SampleRun.sha SampleRun.s3 SampleRun.s3_reachable).
Defined.

Lemma verified_is_bound_witness :
  Verified.attempt SampleRun.verified = 1%N ∧
  Verified.digest SampleRun.verified = OpDescriptor.digest SampleRun.sha SampleRun.op.
Proof.
  destruct (verified_is_bound SampleRun.sha SampleRun.s5
    (Call.move SampleRun.ended (Finished (Ok SampleRun.verified))) SampleRun.verified
    SampleRun.s5_reachable) as (H1 & H2 & _).
  - apply list_elem_of_singleton. reflexivity.
  - reflexivity.
  - split; [exact H1|exact H2].
Defined.

Lemma invalidated_never_prompts_witness :
  ∃ c', reverse (calls SampleRun.s2') !! 0 = Some c' ∧ Call.prompt c' = NotSpawned.
Proof.
  destruct (invalidated_never_prompts SampleRun.sha SampleRun.s2' SampleRun.s2' 0 SampleRun.held)
    as (c' & H1 & _ & H2 & _).
  - exact SampleRun.s2'_reachable.
  - apply rtc_refl.
  - reflexivity.
  - reflexivity.
  - reflexivity.
  - discriminate.
  - eapply (bool_decide_unpack _). vm_compute. exact I.
  - eapply (bool_decide_unpack _). vm_compute. exact I.
  - exists c'. split; [exact H1|exact H2].
Defined.

Lemma classify_sticky_witness :
  (classify (classify new (Availability.Protected [])).1
     (Availability.Unavailable Reason.NotConfigured)).2 = Classification.Protected.
Proof.
  apply (classify_sticky SampleRun.sha new [] (classify new (Availability.Protected [])).1);
    [reflexivity|apply rtc_refl].
Defined.
