(* ===== verification/Validators.v ===== *)
(** * sv-patterns/src/validators.rs: checksum validators for national identifiers

    A digit or a byte is an [N].  The running sums are [u32]s in the code; a sum
    of [n] terms is at most [25 * n], far below [2^32] for any input in memory. *)
From Stdlib Require Import ZifyN ZifyNat ZifyBool.
From S2P Require Import Prelude.

Ltac Zify.zify_post_hook ::= Z.div_mod_to_equations.

(** [char::to_digit(10)]. *)
Definition to_digit (c : char) : option N := if is_ascii_digit c then Some (c - 48)%N else None.

(** [digits_only], over the characters of the candidate. *)
Fixpoint digits_go (separators : list char) (cs : list char) : option (list N) :=
  match cs with
  | [] => Some []
  | c :: cs' =>
      match to_digit c with
      | Some d => cons d <$> digits_go separators cs'
      | None => if bool_decide (c ∈ separators) then digits_go separators cs' else None
      end
  end.

Definition digits_only (candidate : string) (separators : list char) : option (list N) :=
  digits_go separators (chars candidate).

Definition SPACE : char := 32.
Definition HYPHEN : char := 45.
Definition DOT : char := 46.
Definition SLASH : char := 47.

(** [candidate.chars().filter(|c| !matches!(c, ' ' | '-')).collect()], as bytes: the
    two separators are single bytes that occur in no other character's encoding. *)
Definition strip_separators (candidate : string) : list N :=
  List.filter (λ b, negb ((b =? SPACE) || (b =? HYPHEN)))%N (str_bytes candidate).

(** ** Luhn *)

(** The value a digit adds, when its position is doubled or not. *)
Definition luhn_value (double : bool) (d : N) : N :=
  if double then (if 9 <? d * 2 then d * 2 - 9 else d * 2)%N else d.

(** [for &d in digits.iter().rev()]. *)
Fixpoint luhn_loop (total : N) (double : bool) (rev_digits : list N) : N :=
  match rev_digits with
  | [] => total
  | d :: ds => luhn_loop (total + luhn_value double d) (negb double) ds
  end.

Definition validate_luhn (candidate : string) : bool :=
  match digits_only candidate [SPACE; HYPHEN] with
  | None => false
  | Some digits =>
      if length digits <? 2 then false
      else (luhn_loop 0 false (reverse digits) mod 10 =? 0)%N
  end.

(** ** IBAN *)

(** [(b - b'0').to_string()] or [(b - b'A' + 10).to_string()], as digits. *)
Definition iban_map (b : N) : list N :=
  let n := if is_ascii_digit b then (b - 48)%N else (b - 65 + 10)%N in
  if (n <? 10)%N then [n] else [n / 10; n mod 10]%N.

Definition iban_remainder (rearranged : list N) : N :=
  foldl (λ r b, foldl (λ r d, (r * 10 + d) mod 97)%N r (iban_map b)) 0%N rearranged.

Definition validate_iban (candidate : string) : bool :=
  let bytes := to_ascii_uppercase <$> strip_separators candidate in
  if (length bytes <? 15) || (34 <? length bytes) then false
  else
    match bytes with
    | b0 :: b1 :: b2 :: b3 :: rest =>
        if negb (is_ascii_uppercase b0) || negb (is_ascii_uppercase b1)
           || negb (is_ascii_digit b2) || negb (is_ascii_digit b3) then false
        else if negb (forallb is_ascii_alphanumeric bytes) then false
        else (iban_remainder (rest ++ [b0; b1; b2; b3]) =? 1)%N
    | _ => false
    end.

(** ** Verhoeff *)

Definition VERHOEFF_D : list (list N) :=
  [[0;1;2;3;4;5;6;7;8;9]; [1;2;3;4;0;6;7;8;9;5]; [2;3;4;0;1;7;8;9;5;6]; [3;4;0;1;2;8;9;5;6;7];
   [4;0;1;2;3;9;5;6;7;8]; [5;9;8;7;6;0;4;3;2;1]; [6;5;9;8;7;1;0;4;3;2]; [7;6;5;9;8;2;1;0;4;3];
   [8;7;6;5;9;3;2;1;0;4]; [9;8;7;6;5;4;3;2;1;0]]%N.

Definition VERHOEFF_P : list (list N) :=
  [[0;1;2;3;4;5;6;7;8;9]; [1;5;7;6;2;8;3;0;9;4]; [5;8;0;3;7;9;6;1;4;2]; [8;9;1;6;0;4;3;5;2;7];
   [9;4;5;3;1;2;6;8;7;0]; [4;2;8;6;5;7;3;9;0;1]; [2;7;9;3;8;0;6;4;1;5]; [7;0;4;6;9;1;3;2;5;8]]%N.

(** [T[i][j]] of a constant table; every index the code uses is in range. *)
Definition table_at (T : list (list N)) (i j : N) : N :=
  default 0%N (default [] (T !! N.to_nat i) !! N.to_nat j).

Definition verhoeff_step (i c d : N) : N :=
  table_at VERHOEFF_D c (table_at VERHOEFF_P (i mod 8) d).

(** [for (i, &d) in digits.iter().rev().enumerate()]. *)
Fixpoint verhoeff_loop (i c : N) (rev_digits : list N) : N :=
  match rev_digits with
  | [] => c
  | d :: ds => verhoeff_loop (i + 1) (verhoeff_step i c d) ds
  end.

Definition validate_verhoeff (candidate : string) : bool :=
  match digits_only candidate [SPACE; HYPHEN] with
  | None => false
  | Some digits =>
      if length digits <? 2 then false else (verhoeff_loop 0 0 (reverse digits) =? 0)%N
  end.

(** ** CPF and CNPJ *)

(** [d.iter().all(|&x| x == d[0])]. *)
Definition repdigit (d : list N) : bool :=
  match d with [] => true | d0 :: _ => forallb (λ x, (x =? d0)%N) d end.

Definition mod11_digit (sum : N) : N :=
  let r := (sum mod 11)%N in if (r <? 2)%N then 0%N else (11 - r)%N.

(** The closure [check] of [validate_cpf]: weights descend from [weight_start]. *)
Fixpoint descending_sum (weight : N) (slice : list N) : N :=
  match slice with [] => 0%N | x :: s => (x * weight + descending_sum (weight - 1) s)%N end.

Definition cpf_check (slice : list N) (weight_start : N) : N :=
  mod11_digit (descending_sum weight_start slice).

Definition validate_cpf (candidate : string) : bool :=
  match digits_only candidate [DOT; HYPHEN; SPACE] with
  | None => false
  | Some d =>
      if negb (length d =? 11) then false
      else if repdigit d then false
      else bool_decide (d !! 9 = Some (cpf_check (take 9 d) 10)) &&
           bool_decide (d !! 10 = Some (cpf_check (take 10 d) 11))
  end.

Definition CNPJ_W : list N := [5; 4; 3; 2; 9; 8; 7; 6; 5; 4; 3; 2]%N.

(** The closure [cd] of [validate_cnpj]. *)
Definition cnpj_cd (slice weights : list N) : N :=
  mod11_digit (foldr N.add 0%N (zip_with N.mul slice weights)).

Definition validate_cnpj (candidate : string) : bool :=
  match digits_only candidate [DOT; SLASH; HYPHEN; SPACE] with
  | None => false
  | Some d =>
      if negb (length d =? 14) then false
      else if repdigit d then false
      else if negb (bool_decide (d !! 12 = Some (cnpj_cd (take 12 d) CNPJ_W))) then false
      else bool_decide (d !! 13 = Some (cnpj_cd (take 13 d) (6%N :: CNPJ_W)))
  end.

(** ** DNI *)

Definition DNI_LETTERS : list N := str_bytes "TRWAGMYFPDXBNJZSQVHLCKE".

(** [s[..8].parse::<u64>()] of eight ASCII digits, which cannot fail. *)
Definition parse_digits (bytes : list N) : N := foldl (λ n b, n * 10 + (b - 48))%N 0%N bytes.

Definition validate_dni (candidate : string) : bool :=
  let bytes := strip_separators candidate in
  if negb (length bytes =? 9) then false
  else if negb (forallb is_ascii_digit (take 8 bytes)) then false
  else
    let letter := default 0%N (bytes !! 8) in
    if negb (is_ascii_uppercase letter) then false
    else bool_decide (DNI_LETTERS !! N.to_nat (parse_digits (take 8 bytes) mod 23) = Some letter).

(** ** NINO *)

Definition NINO_EXCLUDED : list N := str_bytes "DFIQUV".
Definition NINO_PROHIBITED : list (list N) :=
  str_bytes <$> ["BG"; "GB"; "NK"; "KN"; "TN"; "NT"; "ZZ"].

Definition validate_nino (candidate : string) : bool :=
  let bytes := to_ascii_uppercase <$> strip_separators candidate in
  if negb (length bytes =? 9) then false
  else
    let first := default 0%N (bytes !! 0) in
    let second := default 0%N (bytes !! 1) in
    if negb (is_ascii_uppercase first) || negb (is_ascii_uppercase second) then false
    else if negb ((first =? 81)%N && (second =? 81)%N) &&
            (bool_decide (first ∈ NINO_EXCLUDED) || bool_decide (second ∈ NINO_EXCLUDED)
             || (first =? 79)%N || bool_decide ([first; second] ∈ NINO_PROHIBITED)) then false
    else if negb (forallb is_ascii_digit (take 6 (drop 2 bytes))) then false
    else let b8 := default 0%N (bytes !! 8) in ((65 <=? b8) && (b8 <=? 68))%N.

(** ** Steuer-ID *)

(** [counts[v]] after the counting loop. *)
Definition digit_count (v : N) (ds : list N) : nat := length (List.filter (N.eqb v) ds).

Definition digit_counts (ds : list N) : list nat :=
  (λ v, digit_count v ds) <$> [0; 1; 2; 3; 4; 5; 6; 7; 8; 9]%N.

Definition validate_steuer_id (candidate : string) : bool :=
  match digits_only candidate [] with
  | None => false
  | Some d =>
      if negb (length d =? 11) then false
      else
        let counts := digit_counts (take 10 d) in
        let twice := length (List.filter (Nat.eqb 2) counts) in
        let more_than_twice := existsb (λ c, 2 <? c) counts in
        (twice =? 1) && negb more_than_twice
  end.

(** ** Codice Fiscale *)

Definition CF_ODD : list N :=
  [1; 0; 5; 7; 9; 13; 15; 17; 19; 21;
   1; 0; 5; 7; 9; 13; 15; 17; 19; 21; 2; 4; 18; 20; 11; 3; 6; 8; 12; 14; 16; 10; 22; 25; 24; 23]%N.

Definition cf_value (b : N) : option N :=
  if is_ascii_digit b then Some (b - 48)%N
  else if is_ascii_uppercase b then Some (b - 65 + 10)%N else None.

Definition cf_even_value (b : N) : option N :=
  if is_ascii_digit b then Some (b - 48)%N
  else if is_ascii_uppercase b then Some (b - 65)%N else None.

(** The loop over [bytes[..15].iter().enumerate()]; [None] is [return false]. *)
Fixpoint cf_sum (i : N) (bytes : list N) : option N :=
  match bytes with
  | [] => Some 0%N
  | b :: bs =>
      v ← (if (i mod 2 =? 0)%N then v ← cf_value b; Some (default 0%N (CF_ODD !! N.to_nat v))
           else cf_even_value b);
      rest ← cf_sum (i + 1) bs;
      Some (v + rest)%N
  end.

Definition validate_codice_fiscale (candidate : string) : bool :=
  let bytes := to_ascii_uppercase <$> strip_separators candidate in
  if negb (length bytes =? 16) then false
  else if negb (forallb is_ascii_alphanumeric (take 15 bytes)) then false
  else
    let check := default 0%N (bytes !! 15) in
    if negb (is_ascii_uppercase check) then false
    else match cf_sum 0 (take 15 bytes) with
         | None => false
         | Some sum => (65 + sum mod 26 =? check)%N
         end.

(** ** Dispatch *)

Module ValidatorId.
Inductive t :=
| LuhnV1 | IbanV1 | VerhoeffV1 | CpfV1 | CnpjV1 | DniV1 | NinoV1 | SteuerIdV1 | CodiceFiscaleV1 | None.
#[global] Instance t_eq_dec : EqDecision t.
Proof. solve_decision. Defined.

Definition validate (self : t) (candidate : string) : bool :=
  match self with
  | LuhnV1 => validate_luhn candidate
  | IbanV1 => validate_iban candidate
  | VerhoeffV1 => validate_verhoeff candidate
  | CpfV1 => validate_cpf candidate
  | CnpjV1 => validate_cnpj candidate
  | DniV1 => validate_dni candidate
  | NinoV1 => validate_nino candidate
  | SteuerIdV1 => validate_steuer_id candidate
  | CodiceFiscaleV1 => validate_codice_fiscale candidate
  | None => true
  end.
End ValidatorId.

(** ** Test vectors *)

Example validator_vectors :
  forallb (λ '(v, s), ValidatorId.validate v s)
    [(ValidatorId.LuhnV1, "4111-1111 11111111"); (ValidatorId.IbanV1, "gb82 west 1234 5698 7654 32");
     (ValidatorId.VerhoeffV1, "2363"); (ValidatorId.CpfV1, "529.982.247-25");
     (ValidatorId.CnpjV1, "11.222.333/0001-81"); (ValidatorId.DniV1, "12345678Z");
     (ValidatorId.NinoV1, "AB 12 34 56 C"); (ValidatorId.SteuerIdV1, "86095742719");
     (ValidatorId.CodiceFiscaleV1, "RSSMRA85T10A562S")] = true ∧
  existsb (λ '(v, s), ValidatorId.validate v s)
    [(ValidatorId.LuhnV1, "4111-1111 11111112"); (ValidatorId.IbanV1, "GB82WEST12345698765433");
     (ValidatorId.VerhoeffV1, "2364"); (ValidatorId.CpfV1, "111.111.111-11");
     (ValidatorId.DniV1, "12345678A"); (ValidatorId.NinoV1, "BG123456C");
     (ValidatorId.SteuerIdV1, "11111111111"); (ValidatorId.CodiceFiscaleV1, "RSSMRA85T10A562T")] = false.
Proof. vm_compute. done. Qed.

(** ** Digits *)

Lemma digits_lt seps cs ds : digits_go seps cs = Some ds → Forall (λ d, d < 10)%N ds.
Proof.
  revert ds. induction cs as [|c cs IH]; simpl; intros ds; [intros [= <-]; constructor|].
  unfold to_digit, is_ascii_digit. destruct (_ && _)%bool eqn:E.
  - destruct (digits_go seps cs) as [ds'|]; simpl; [|done]. intros [= <-]. constructor; [|by apply IH].
    apply andb_true_iff in E as [?%N.leb_le ?%N.leb_le]. lia.
  - case_bool_decide; [apply IH|done].
Qed.

Lemma digits_middle_lt seps cs l a r :
  digits_go seps cs = Some (l ++ a :: r) →
  (a < 10)%N ∧ Forall (λ d, d < 10)%N l ∧ Forall (λ d, d < 10)%N r.
Proof. intros H%digits_lt. rewrite Forall_app, Forall_cons in H. tauto. Qed.

(** A bounded check over digits, by evaluation. *)
Definition below (n : nat) : list N := N.of_nat <$> seq 0 n.

Lemma elem_of_below x n : (x < N.of_nat n)%N → x ∈ below n.
Proof.
  intros H. unfold below. apply list_elem_of_fmap. exists (N.to_nat x).
  rewrite N2Nat.id, elem_of_seq. split; [done|lia].
Qed.

(** ** Luhn *)

Lemma luhn_value_inj double a b :
  (a < 10)%N → (b < 10)%N → (luhn_value double a mod 10 = luhn_value double b mod 10)%N → a = b.
Proof.
  intros Ha Hb. unfold luhn_value. destruct double; [|lia].
  destruct (N.ltb_spec 9 (a * 2)), (N.ltb_spec 9 (b * 2)); lia.
Qed.

Lemma luhn_loop_total t double ds : luhn_loop t double ds = (t + luhn_loop 0 double ds)%N.
Proof.
  revert t double. induction ds as [|d ds IH]; intros t double; simpl; [lia|].
  rewrite IH, (IH (luhn_value double d)). lia.
Qed.

(** The loop's total with one digit singled out. *)
Lemma luhn_loop_middle double pre post :
  ∃ double' rest, ∀ x, luhn_loop 0 double (pre ++ x :: post) = (rest + luhn_value double' x)%N.
Proof.
  revert double. induction pre as [|p pre IH]; intros double; simpl.
  - exists double, (luhn_loop 0 (negb double) post). intros x. rewrite luhn_loop_total. lia.
  - destruct (IH (negb double)) as (double' & rest & H).
    exists double', (luhn_value double p + rest)%N. intros x. rewrite luhn_loop_total, H. lia.
Qed.

(** Luhn catches every mistyped digit: of two candidates whose digits differ in
    exactly one place, whatever their separators, at most one validates. *)
Theorem luhn_detects_substitution c1 c2 l a b r :
  digits_only c1 [SPACE; HYPHEN] = Some (l ++ a :: r) →
  digits_only c2 [SPACE; HYPHEN] = Some (l ++ b :: r) → a ≠ b →
  validate_luhn c1 && validate_luhn c2 = false.
Proof.
  intros H1 H2 Hne. unfold validate_luhn. rewrite H1, H2.
  destruct (digits_middle_lt _ _ _ _ _ H1) as [Ha _], (digits_middle_lt _ _ _ _ _ H2) as [Hb _].
  destruct (_ <? 2); [done|]. destruct (_ <? 2); [apply andb_false_r|].
  rewrite !reverse_app, !reverse_cons, <-!app_assoc. simpl.
  destruct (luhn_loop_middle false (reverse r) (reverse l)) as (double & rest & H).
  rewrite !H. apply not_true_is_false. intros [E1%N.eqb_eq E2%N.eqb_eq]%andb_true_iff.
  apply Hne, (luhn_value_inj double); [done..|]. lia.
Qed.

Lemma luhn_detects_substitution_witness :
  validate_luhn "4111 1111 1111 1111" && validate_luhn "4111-1111-1111-1171" = false.
Proof.
  apply (luhn_detects_substitution "4111 1111 1111 1111" "4111-1111-1111-1171"
    [4;1;1;1;1;1;1;1;1;1;1;1;1;1]%N 1%N 7%N [1%N]); [vm_compute; reflexivity..|discriminate].
Defined.

(** ** Verhoeff *)

Abbreviation digit_ok d := (d < 10)%N.

Lemma verhoeff_facts i c d e :
  (i < 8)%N → (c < 10)%N → (d < 10)%N → (e < 10)%N →
  (verhoeff_step i c d < 10)%N ∧
  (verhoeff_step i c d = verhoeff_step i c e → d = e) ∧
  (verhoeff_step i c d = verhoeff_step i e d → c = e) ∧
  (verhoeff_step ((i + 1) mod 8)%N (verhoeff_step i c d) e =
   verhoeff_step ((i + 1) mod 8)%N (verhoeff_step i c e) d → d = e).
Proof.
  intros Hi Hc Hd He.
  assert (forallb (λ i, forallb (λ c, forallb (λ d, forallb (λ e,
     (verhoeff_step i c d <? 10)%N
     && (negb (verhoeff_step i c d =? verhoeff_step i c e) || (d =? e))%N
     && (negb (verhoeff_step i c d =? verhoeff_step i e d) || (c =? e))%N
     && (negb (verhoeff_step ((i + 1) mod 8) (verhoeff_step i c d) e =?
           verhoeff_step ((i + 1) mod 8) (verhoeff_step i c e) d) || (d =? e))%N)
     (below 10)) (below 10)) (below 10)) (below 8) = true) as Hall by (vm_compute; reflexivity).
  rewrite forallb_Forall in Hall. specialize (Hall i (elem_of_below i 8 Hi)).
  rewrite forallb_Forall in Hall. specialize (Hall c (elem_of_below c 10 Hc)).
  rewrite forallb_Forall in Hall. specialize (Hall d (elem_of_below d 10 Hd)).
  rewrite forallb_Forall in Hall. specialize (Hall e (elem_of_below e 10 He)).
  apply andb_true_iff in Hall as [[[H1 H2]%andb_true_iff H3]%andb_true_iff H4].
  apply N.ltb_lt in H1. rewrite !orb_true_iff, !negb_true_iff, !N.eqb_neq, !N.eqb_eq in *.
  tauto.
Qed.

Lemma verhoeff_step_mod i c d : verhoeff_step i c d = verhoeff_step (i mod 8)%N c d.
Proof. unfold verhoeff_step. by rewrite N.Div0.mod_mod. Qed.

Lemma verhoeff_loop_app i c pre post :
  verhoeff_loop i c (pre ++ post) =
  verhoeff_loop (i + N.of_nat (length pre))%N (verhoeff_loop i c pre) post.
Proof.
  revert i c. induction pre as [|d pre IH]; intros i c; simpl.
  - f_equal. lia.
  - rewrite IH. f_equal. lia.
Qed.

Lemma verhoeff_loop_lt i c ds : (c < 10)%N → Forall (λ d, digit_ok d) ds → (verhoeff_loop i c ds < 10)%N.
Proof.
  intros Hc Hds. revert i c Hc. induction Hds as [|d ds Hd _ IH]; intros i c Hc; simpl; [done|].
  apply IH. rewrite verhoeff_step_mod.
  destruct (verhoeff_facts (i mod 8)%N c d d) as [H _]; [lia|done..].
Qed.

(** The rest of the digits never merges two different running values. *)
Lemma verhoeff_loop_inj i c c' ds :
  (c < 10)%N → (c' < 10)%N → Forall (λ d, digit_ok d) ds →
  verhoeff_loop i c ds = verhoeff_loop i c' ds → c = c'.
Proof.
  intros Hc Hc' Hds. revert i c c' Hc Hc'.
  induction Hds as [|d ds Hd _ IH]; intros i c c' Hc Hc'; simpl; [done|].
  intros E. destruct (verhoeff_facts (i mod 8)%N c d c') as (H1 & _ & H3 & _); [lia|done..|].
  destruct (verhoeff_facts (i mod 8)%N c' d c') as (H1' & _); [lia|done..|].
  apply H3. rewrite <-!verhoeff_step_mod in *. by eapply IH.
Qed.

(** Verhoeff catches every mistyped digit and every swap of two neighbours: of
    two candidates whose digits differ by one substitution or by one adjacent
    transposition, at most one validates. *)
Theorem verhoeff_detects c1 c2 l x1 x2 r :
  digits_only c1 [SPACE; HYPHEN] = Some (l ++ x1 ++ r) →
  digits_only c2 [SPACE; HYPHEN] = Some (l ++ x2 ++ r) →
  (∃ a b, a ≠ b ∧ (x1 = [a] ∧ x2 = [b] ∨ x1 = [a; b] ∧ x2 = [b; a])) →
  validate_verhoeff c1 && validate_verhoeff c2 = false.
Proof.
  intros H1 H2 (a & b & Hne & Hx). unfold validate_verhoeff. rewrite H1, H2.
  apply digits_lt in H1, H2. rewrite !Forall_app in H1, H2.
  destruct H1 as (Hl & Hx1 & Hr), H2 as (_ & Hx2 & _).
  destruct (_ <? 2); [done|]. destruct (_ <? 2); [apply andb_false_r|].
  rewrite !reverse_app, <-!app_assoc, !verhoeff_loop_app. simpl.
  apply not_true_is_false. intros [E1%N.eqb_eq E2%N.eqb_eq]%andb_true_iff. apply Hne. clear Hne.
  set (c := verhoeff_loop 0 0 (reverse r)) in *.
  set (i := N.of_nat (length (reverse r))) in *.
  assert (c < 10)%N as Hc by (apply verhoeff_loop_lt; [done|by apply Forall_reverse]).
  assert (length (reverse x1) = length (reverse x2)) as Hlen
    by (by destruct Hx as [[-> ->]|[-> ->]]).
  rewrite Hlen in E1. pose proof (eq_trans E1 (eq_sym E2)) as E.
  rewrite !N.add_0_l in E. apply verhoeff_loop_inj in E;
    [|apply verhoeff_loop_lt; [done|by apply Forall_reverse]..|by apply Forall_reverse].
  destruct Hx as [[-> ->]|[-> ->]]; rewrite ?Forall_cons in Hx1, Hx2; destruct_and!;
    rewrite ?reverse_cons, ?reverse_nil in E; simpl in E.
  - rewrite !(verhoeff_step_mod i) in E.
    destruct (verhoeff_facts (i mod 8)%N c a b) as (_ & Hinj & _); [lia|done..|]. by apply Hinj.
  - rewrite !(verhoeff_step_mod (i + 1)%N), !(verhoeff_step_mod i) in E.
    replace ((i + 1) mod 8)%N with ((i mod 8 + 1) mod 8)%N in E by lia.
    destruct (verhoeff_facts (i mod 8)%N c b a) as (_ & _ & _ & Hswap); [lia|done..|]. symmetry. by apply Hswap.
Qed.

Lemma verhoeff_detects_witness : validate_verhoeff "2363" && validate_verhoeff "3263" = false.
Proof.
  apply (verhoeff_detects "2363" "3263" [] [2;3]%N [3;2]%N [6;3]%N);
    [vm_compute; reflexivity..|]. exists 2%N, 3%N. split; [discriminate|]. right. split; reflexivity.
Defined.

(** ** IBAN: the streamed remainder is that of the whole number *)

(** The value of a letter or digit, and the number the rearranged string denotes. *)
Definition iban_letter (b : N) : N := if is_ascii_digit b then (b - 48)%N else (b - 65 + 10)%N.

Definition iban_number (bytes : list N) : N :=
  foldl (λ n b, n * (if iban_letter b <? 10 then 10 else 100) + iban_letter b)%N 0%N bytes.

(** [ISO 13616]: the check over the whole number. *)
Definition iban_valid (bytes : list N) : Prop :=
  15 ≤ length bytes ≤ 34 ∧
  Forall (λ b, is_ascii_uppercase b = true) (take 2 bytes) ∧
  Forall (λ b, is_ascii_digit b = true) (take 2 (drop 2 bytes)) ∧
  Forall (λ b, is_ascii_alphanumeric b = true) bytes ∧
  (iban_number (drop 4 bytes ++ take 4 bytes) mod 97 = 1)%N.

Lemma mod97_step n k v : ((n mod 97 * k + v) mod 97 = (n * k + v) mod 97)%N.
Proof.
  rewrite N.Div0.add_mod, N.Div0.mul_mod, N.Div0.mod_mod, <-N.Div0.mul_mod.
  by rewrite <-N.Div0.add_mod.
Qed.

Lemma iban_map_step n b :
  (iban_letter b < 100)%N →
  foldl (λ r d, (r * 10 + d) mod 97)%N (n mod 97)%N (iban_map b) =
  ((n * (if iban_letter b <? 10 then 10 else 100) + iban_letter b) mod 97)%N.
Proof.
  intros Hb. unfold iban_map. fold (iban_letter b). set (v := iban_letter b) in *.
  destruct (N.ltb_spec v 10); simpl; [apply mod97_step|].
  rewrite (mod97_step n 10 (v / 10)), mod97_step. f_equal. lia.
Qed.

Lemma iban_remainder_number bytes :
  Forall (λ b, is_ascii_alphanumeric (to_ascii_uppercase b) = true ∧ to_ascii_uppercase b = b) bytes →
  iban_remainder bytes = (iban_number bytes mod 97)%N.
Proof.
  intros Hb. unfold iban_remainder, iban_number.
  assert (∀ n, foldl (λ r b, foldl (λ r d, (r * 10 + d) mod 97)%N r (iban_map b)) (n mod 97)%N bytes =
    (foldl (λ n b, n * (if iban_letter b <? 10 then 10 else 100) + iban_letter b)%N n bytes mod 97)%N)
    as H; [|by apply (H 0%N)].
  induction Hb as [|b bytes [Hb Hup] _ IH]; intros n; simpl; [done|].
  rewrite iban_map_step; [apply IH|]. rewrite Hup in Hb.
  unfold iban_letter, is_ascii_alphanumeric, is_ascii_alphabetic, to_ascii_uppercase,
    is_ascii_uppercase, is_ascii_lowercase, is_ascii_digit in *.
  repeat match goal with |- context [if ?c then _ else _] => destruct c eqn:? end; lia.
Qed.

Lemma uppercase_idem b : to_ascii_uppercase (to_ascii_uppercase b) = to_ascii_uppercase b.
Proof.
  unfold to_ascii_uppercase, is_ascii_lowercase.
  destruct (N.leb_spec 97 b), (N.leb_spec b 122); simpl;
    repeat match goal with |- context [(?x <=? ?y)%N] => destruct (N.leb_spec x y) end; simpl; lia.
Qed.

(** The IBAN check is ISO 13616's: a candidate validates iff, with separators
    dropped and letters upper-cased, it has 15 to 34 letters and digits, starts
    with two letters and two digits, and the number it denotes after moving the
    first four characters to the end leaves remainder 1 modulo 97 (the code never
    builds that number, it streams the remainder). *)
Theorem validate_iban_correct candidate :
  validate_iban candidate = true ↔ iban_valid (to_ascii_uppercase <$> strip_separators candidate).
Proof.
  unfold validate_iban, iban_valid. set (bytes := to_ascii_uppercase <$> strip_separators candidate).
  assert (Forall (λ b, to_ascii_uppercase b = b) bytes) as Hup.
  { apply Forall_fmap, Forall_forall. intros b _. simpl. apply uppercase_idem. }
  destruct (Nat.ltb_spec (length bytes) 15); simpl; [split; [done|lia]|].
  destruct (Nat.ltb_spec 34 (length bytes)); simpl; [split; [done|lia]|].
  destruct bytes as [|b0 [|b1 [|b2 [|b3 rest]]]] eqn:Hbytes; simpl in *; try lia.
  rewrite !Forall_cons, !Forall_nil.
  destruct (is_ascii_uppercase b0), (is_ascii_uppercase b1); simpl;
    try (split; [done|]; intros (_ & Hletters & _); by destruct_and! Hletters).
  destruct (is_ascii_digit b2), (is_ascii_digit b3); simpl;
    try (split; [done|]; intros (_ & _ & Hdigits & _); by destruct_and! Hdigits).
  rewrite drop_0, take_0.
  set (all := is_ascii_alphanumeric b0 && _).
  destruct all eqn:Hall; unfold all in Hall; simpl.
  - assert (Forall (λ b, is_ascii_alphanumeric b = true) (b0 :: b1 :: b2 :: b3 :: rest)) as Ha.
    { apply Forall_forall, forallb_Forall. exact Hall. }
    rewrite N.eqb_eq, iban_remainder_number.
    + rewrite !Forall_cons in Ha. naive_solver lia.
    + assert (Forall (λ b, is_ascii_alphanumeric (to_ascii_uppercase b) = true ∧ to_ascii_uppercase b = b)
        (b0 :: b1 :: b2 :: b3 :: rest)) as Hboth.
      { apply Forall_forall. intros b Hb. rewrite Forall_forall in Ha, Hup.
        rewrite Hup by done. auto. }
      rewrite !Forall_cons in Hboth. rewrite Forall_app, !Forall_cons, Forall_nil. tauto.
  - split; [done|]. intros (_ & _ & _ & Ha & _). exfalso.
    assert (forallb is_ascii_alphanumeric (b0 :: b1 :: b2 :: b3 :: rest) = true) as Hf; [|].
    + apply forallb_Forall, Forall_forall. rewrite !Forall_cons. tauto.
    + simpl in Hf. by rewrite Hf in Hall.
Qed.

(** ** Steuer-ID: what the counting accepts *)

Definition occurrences (k : nat) (l : list nat) : nat := length (List.filter (Nat.eqb k) l).

Definition values_occurring (k : nat) (ds : list N) : nat := occurrences k (digit_counts ds).

Lemma occurrences_cons k c l : occurrences k (c :: l) = (if k =? c then 1 else 0) + occurrences k l.
Proof. unfold occurrences. cbn [List.filter]. by destruct (k =? c). Qed.

(** The counts of 0, 1, 2 and more make up the whole list. *)
Lemma counts_partition (l : list nat) :
  length l = occurrences 0 l + occurrences 1 l + occurrences 2 l
             + length (List.filter (λ c, 2 <? c) l) ∧
  (existsb (λ c, 2 <? c) l = false →
   length (List.filter (λ c, 2 <? c) l) = 0 ∧
   foldr Nat.add 0 l = occurrences 1 l + 2 * occurrences 2 l).
Proof.
  induction l as [|c l [IH1 IH2]]; [done|].
  rewrite !occurrences_cons. cbn [List.filter existsb length foldr].
  split; [destruct c as [|[|[|c]]]; cbn in *; lia|].
  intros [Hc Hl]%orb_false_iff. destruct (IH2 Hl) as [H0 Hs]. rewrite Hc. split; [done|].
  apply Nat.ltb_ge in Hc. destruct c as [|[|[|c]]]; cbn -[occurrences Nat.mul] in *; lia.
Qed.

Lemma digit_counts_sum ds :
  Forall (λ d, d < 10)%N ds → foldr Nat.add 0 (digit_counts ds) = length ds.
Proof.
  induction 1 as [|d ds Hd _ IH]; [done|]. simpl length. rewrite <-IH. clear IH.
  assert (d ∈ below 10) as Hin by (by apply elem_of_below).
  unfold digit_counts, digit_count. simpl. unfold below in Hin. simpl in Hin.
  repeat (apply elem_of_cons in Hin as [->|Hin]; [simpl; lia|]). by apply elem_of_nil in Hin.
Qed.

(** The Steuer-ID structure check accepts exactly the 11-digit strings among
    whose first ten digits one value occurs twice, eight values occur once and one
    value does not occur. *)
Theorem steuer_id_structure candidate :
  validate_steuer_id candidate = true ↔
  ∃ d, digits_only candidate [] = Some d ∧ length d = 11 ∧
    values_occurring 2 (take 10 d) = 1 ∧ values_occurring 1 (take 10 d) = 8 ∧
    values_occurring 0 (take 10 d) = 1.
Proof.
  unfold validate_steuer_id. destruct (digits_only candidate []) as [d|] eqn:Hd;
    [|split; [done|by intros (? & ? & _)]].
  assert (length (digit_counts (take 10 d)) = 10) as Hlen by done.
  pose proof (digit_counts_sum (take 10 d)) as Hsum. unfold values_occurring.
  set (counts := digit_counts (take 10 d)) in *.
  destruct (Nat.eqb_spec (length d) 11) as [H11|H11]; cbn [negb];
    [|split; [done|by intros (? & [= <-] & ? & _)]].
  rewrite length_take, H11 in Hsum. specialize (Hsum ltac:(by eapply Forall_take, digits_lt)).
  change (10 `min` 11) with 10 in Hsum.
  fold (occurrences 2 counts). rewrite andb_true_iff, negb_true_iff, Nat.eqb_eq.
  destruct (counts_partition counts) as [Hp Hno]. split.
  - intros [H2 Hn]. exists d. fold counts. destruct (Hno Hn). split_and!; [done..| |]; lia.
  - intros (d' & [= <-] & _ & H2 & H1 & H0). fold counts in H2, H1, H0. split; [done|].
    apply existsb_none. intros c Hin. apply not_true_is_false. intros Hc.
    assert (c ∈ List.filter (λ c, 2 <? c) counts) as Hf
      by (apply list_elem_of_In, List.filter_In; split; [by apply list_elem_of_In|done]).
    destruct (List.filter (λ c, 2 <? c) counts); [by apply elem_of_nil in Hf|].
    cbn [length] in Hp. lia.
Qed.

(** ** DNI: one wrong digit changes the letter *)

Lemma parse_digits_app l r : parse_digits (l ++ r) = foldl (λ n b, n * 10 + (b - 48))%N (parse_digits l) r.
Proof. unfold parse_digits. by rewrite foldl_app. Qed.

Lemma parse_digits_offset r n m :
  foldl (λ n b, n * 10 + (b - 48))%N (n + m)%N r =
  (foldl (λ n b, n * 10 + (b - 48)) n r + m * 10 ^ N.of_nat (length r))%N.
Proof.
  revert n m. induction r as [|b r IH]; intros n m; [simpl; lia|].
  cbn [foldl length]. replace ((n + m) * 10 + (b - 48))%N with ((n * 10 + (b - 48)) + m * 10)%N by lia.
  rewrite IH. rewrite Nat2N.inj_succ, N.pow_succ_r'. lia.
Qed.

Lemma dni_letters_inj i j :
  (i < 23)%N → (j < 23)%N → DNI_LETTERS !! N.to_nat i = DNI_LETTERS !! N.to_nat j → i = j.
Proof.
  intros Hi Hj.
  assert (forallb (λ i, forallb (λ j, bool_decide (DNI_LETTERS !! N.to_nat i = DNI_LETTERS !! N.to_nat j → i = j))
    (below 23)) (below 23) = true) as Hall by (vm_compute; reflexivity).
  rewrite forallb_Forall in Hall. specialize (Hall i (elem_of_below i 23 Hi)).
  rewrite forallb_Forall in Hall. specialize (Hall j (elem_of_below j 23 Hj)).
  by apply bool_decide_eq_true_1 in Hall.
Qed.

(** A difference of one digit at one of the last eight places is not a multiple of 23. *)
Lemma digit_delta_23 delta k :
  (0 < delta < 10)%N → k < 8 → ((delta * 10 ^ N.of_nat k) mod 23 ≠ 0)%N.
Proof.
  intros Hd Hk.
  assert (forallb (λ d, forallb (λ k, (d =? 0) || negb ((d * 10 ^ k) mod 23 =? 0))%N (below 8)) (below 10)
    = true) as Hall by (vm_compute; reflexivity).
  rewrite forallb_Forall in Hall. specialize (Hall delta (elem_of_below delta 10 ltac:(lia))).
  rewrite forallb_Forall in Hall. specialize (Hall (N.of_nat k) (elem_of_below (N.of_nat k) 8 ltac:(lia))).
  apply orb_true_iff in Hall as [?%N.eqb_eq|Hall]; [lia|].
  by apply negb_true_iff, N.eqb_neq in Hall.
Qed.

Lemma parse_digits_residue l a b r :
  length r < 8 → is_ascii_digit a = true → is_ascii_digit b = true →
  (parse_digits (l ++ a :: r) mod 23 = parse_digits (l ++ b :: r) mod 23)%N → a = b.
Proof.
  intros Hr Ha Hb. unfold is_ascii_digit in Ha, Hb.
  assert (∀ x y, (48 ≤ x)%N → (x ≤ y)%N → (y ≤ 57)%N →
    (parse_digits (l ++ x :: r) mod 23 = parse_digits (l ++ y :: r) mod 23)%N → x = y) as Hle.
  { intros x y Hx Hxy Hy. rewrite !parse_digits_app. cbn [foldl].
    replace (y - 48)%N with ((x - 48) + (y - x))%N by lia. rewrite N.add_assoc, (parse_digits_offset r _ (y - x)).
    set (n := foldl _ _ r). intros E. destruct (decide (x = y)) as [|Hne]; [done|]. exfalso.
    apply (digit_delta_23 (y - x) (length r)); [lia|done|].
    set (m := ((y - x) * 10 ^ N.of_nat (length r))%N) in *. lia. }
  intros E. destruct (N.le_ge_cases a b); [|symmetry; symmetry in E]; apply Hle in E; lia.
Qed.

(** The DNI letter catches every mistyped digit: of two candidates with the same
    letter whose eight digits differ in exactly one place, at most one validates. *)
Theorem dni_detects_substitution c1 c2 l a b r letter :
  strip_separators c1 = l ++ a :: r ++ [letter] → strip_separators c2 = l ++ b :: r ++ [letter] →
  a ≠ b → validate_dni c1 && validate_dni c2 = false.
Proof.
  intros E1 E2 Hne. unfold validate_dni. rewrite E1, E2.
  destruct (Nat.eqb_spec (length (l ++ a :: r ++ [letter])) 9) as [H9|]; cbn [negb]; [|done].
  assert (length l + length r = 7) as H7
    by (rewrite length_app in H9; cbn in H9; rewrite length_app in H9; cbn in H9; lia).
  assert (∀ x, take 8 (l ++ x :: r ++ [letter]) = l ++ x :: r ∧
    (l ++ x :: r ++ [letter]) !! 8 = Some letter ∧ length (l ++ x :: r ++ [letter]) = 9) as Hx.
  { intros x. replace (l ++ x :: r ++ [letter]) with ((l ++ x :: r) ++ [letter])
      by (by rewrite <-app_assoc). assert (length (l ++ x :: r) = 8) as H8
      by (rewrite length_app; cbn; lia).
    split_and!; [by rewrite take_app_length'|by rewrite lookup_app_r, H8 by lia|
      rewrite length_app, H8; done]. }
  destruct (Hx a) as (-> & -> & _), (Hx b) as (-> & -> & ->). cbn [negb Nat.eqb from_option id].
  destruct (forallb is_ascii_digit (l ++ a :: r)) eqn:Da; cbn [negb]; [|done].
  destruct (forallb is_ascii_digit (l ++ b :: r)) eqn:Db; cbn [negb]; [|apply andb_false_r].
  destruct (is_ascii_uppercase letter); cbn [negb]; [|done].
  apply not_true_is_false. intros [L1 L2]%andb_true_iff. to_prop. apply Hne.
  rewrite forallb_Forall in Da, Db.
  apply (parse_digits_residue l a b r); [lia|apply Da|apply Db|];
    [rewrite elem_of_app, elem_of_cons; auto..|].
  apply dni_letters_inj; [apply N.mod_lt; done..|]. congruence.
Qed.

Lemma dni_detects_substitution_witness : validate_dni "12345678Z" && validate_dni "12345978-Z" = false.
Proof.
  apply (dni_detects_substitution "12345678Z" "12345978-Z" (str_bytes "12345") 54%N 57%N
    (str_bytes "78") 90%N); [vm_compute; reflexivity..|discriminate].
Defined.
