(* ===== verification/Bytes.v ===== *)
(** * Bytes: scanning a byte string by index

    What the detectors of the scanner and the privacy filter share: character boundaries
    and checked slices of a [str], the inner loops that move one end of a span, and the
    outer loop [while i < n] with an index that is not a structural argument.  The outer
    loop has fuel and gives [None] when it runs out; [while_lt_total] is the condition under
    which it never does. *)
From S2P Require Import Prelude.

(** ** Slices *)

(** [str::is_char_boundary]. *)
Definition is_char_boundary (bytes : list N) (i : nat) : bool :=
  (i =? 0) || (i =? length bytes) || is_some_and (bytes !! i) (λ b, negb (is_continuation b)).

(** [&haystack[start..end]], of bytes. *)
Definition sub (bytes : list N) (start end_ : nat) : list N := take (end_ - start) (drop start bytes).

(** [&haystack[start..end]] of offsets that are known to be character boundaries. *)
Definition slice (bytes : list N) (start end_ : nat) : string := str_of_bytes (sub bytes start end_).

(** [&haystack[start..end]] of any offsets: [None] is the panic. *)
Definition str_slice (bytes : list N) (start end_ : nat) : option (list N) :=
  if (start <=? end_) && is_char_boundary bytes start && is_char_boundary bytes end_
  then Some (sub bytes start end_) else None.

(** ** Searching *)

Fixpoint bytes_prefix (p l : list N) : bool :=
  match p, l with
  | [], _ => true
  | x :: p', y :: l' => (x =? y)%N && bytes_prefix p' l'
  | _ :: _, [] => false
  end.

(** [haystack.contains(needle)]. *)
Fixpoint bytes_contain (needle l : list N) : bool :=
  bytes_prefix needle l || match l with [] => false | _ :: l' => bytes_contain needle l' end.

(** [haystack.ends_with(suffix)]. *)
Definition bytes_suffix (p l : list N) : bool := bytes_prefix (reverse p) (reverse l).

(** [haystack.rfind(needle)]. *)
Fixpoint rfind (needle l : list N) : option nat :=
  match l with
  | [] => if bytes_prefix needle [] then Some 0 else None
  | _ :: l' =>
      match rfind needle l' with
      | Some i => Some (S i)
      | None => if bytes_prefix needle l then Some 0 else None
      end
  end.

(** [haystack.split(sep)], of a byte that is a character. *)
Fixpoint split_bytes (sep : N → bool) (l : list N) : list (list N) :=
  match l with
  | [] => [[]]
  | c :: l' =>
      match split_bytes sep l' with
      | part :: parts => if sep c then [] :: part :: parts else (c :: part) :: parts
      | [] => [[c]]
      end
  end.

(** [trim_matches] of a class of bytes. *)
Fixpoint drop_while_bytes (p : N → bool) (l : list N) : list N :=
  match l with [] => [] | c :: l' => if p c then drop_while_bytes p l' else l end.

Definition trim_bytes (p : N → bool) (l : list N) : list N :=
  reverse (drop_while_bytes p (reverse (drop_while_bytes p l))).

(** ** Inner loops *)

(** [while i > lo && p(b[i - 1]) { i -= 1 }]. *)
Fixpoint back_while (p : N → bool) (lo : nat) (b : list N) (i : nat) : nat :=
  match i with
  | O => O
  | S j => if (lo <? i) && is_some_and (b !! j) p then back_while p lo b j else i
  end.

Fixpoint count_while (p : N → bool) (l : list N) : nat :=
  match l with
  | [] => 0
  | c :: l' => if p c then S (count_while p l') else 0
  end.

(** [while i < b.len() && p(b[i]) { i += 1 }]. *)
Definition run_while (p : N → bool) (b : list N) (i : nat) : nat := i + count_while p (drop i b).

(** ** The outer loop *)

(** [while i < n { ... }]; the body gives the next index and what it pushed. *)
Fixpoint while_lt {A} (fuel n : nat) (body : nat → nat * list A) (i : nat) : option (list A) :=
  if n <=? i then Some []
  else match fuel with
       | O => None
       | S fuel =>
           let '(i', pushed) := body i in
           match while_lt fuel n body i' with
           | Some rest => Some (pushed ++ rest)
           | None => None
           end
       end.

(** The loop from the start, with one unit of fuel for each index. *)
Definition scan_while {A} (n : nat) (body : nat → nat * list A) : list A :=
  default [] (while_lt n n body 0).

(** ** Facts about slices *)

Lemma boundary_0 b : is_char_boundary b 0 = true.
Proof. done. Qed.

Lemma boundary_len b : is_char_boundary b (length b) = true.
Proof. unfold is_char_boundary. by rewrite Nat.eqb_refl, orb_true_r. Qed.

(** The byte at a boundary does not continue a character. *)
Lemma boundary_at b i c : b !! i = Some c → is_continuation c = false → is_char_boundary b i = true.
Proof. intros E Hc. unfold is_char_boundary. rewrite E. simpl. rewrite Hc. by rewrite orb_true_r. Qed.

Lemma boundary_le b i : is_char_boundary b i = true → i ≤ length b.
Proof.
  unfold is_char_boundary. rewrite !orb_true_iff, is_some_and_true.
  intros [[E%Nat.eqb_eq|E%Nat.eqb_eq]|(c & E & _)]; [lia|lia|]. apply lookup_lt_Some in E. lia.
Qed.

Lemma sub_length b i j : j ≤ length b → length (sub b i j) = j - i.
Proof. intros H. unfold sub. rewrite length_take, length_drop. lia. Qed.

Lemma sub_app b i j k : i ≤ j → j ≤ k → sub b i j ++ sub b j k = sub b i k.
Proof.
  intros H1 H2. unfold sub. replace (k - i) with ((j - i) + (k - j)) by lia.
  rewrite <-take_take_drop, drop_drop. do 3 f_equal. lia.
Qed.

Lemma sub_all b : sub b 0 (length b) = b.
Proof. unfold sub. rewrite drop_0, Nat.sub_0_r. by apply firstn_all. Qed.

Lemma sub_split b i j : i ≤ j → j ≤ length b → b = sub b 0 i ++ sub b i j ++ sub b j (length b).
Proof. intros H1 H2. by rewrite !sub_app, sub_all by lia. Qed.

Lemma sub_empty b i j : j ≤ i → sub b i j = [].
Proof. intros H. unfold sub. by replace (j - i) with 0 by lia. Qed.

Lemma sub_lookup b i j k : k < j - i → sub b i j !! k = b !! (i + k).
Proof. intros H. unfold sub. by rewrite lookup_take, decide_True, lookup_drop by lia. Qed.

Lemma str_slice_ok b i j :
  i ≤ j → is_char_boundary b i = true → is_char_boundary b j = true → str_slice b i j = Some (sub b i j).
Proof. intros H Hi Hj. unfold str_slice. rewrite Hi, Hj. by apply Nat.leb_le in H as ->. Qed.

Lemma str_slice_Some b i j s :
  str_slice b i j = Some s →
  i ≤ j ∧ is_char_boundary b i = true ∧ is_char_boundary b j = true ∧ s = sub b i j.
Proof.
  unfold str_slice. destruct (i <=? j) eqn:E; [|done]. apply Nat.leb_le in E.
  destruct (is_char_boundary b i), (is_char_boundary b j); [|done..]. by intros [= <-].
Qed.

(** ** UTF-8 *)

(** One encoded character: a lead byte and its continuation bytes. *)
Definition utf8_char (c : list N) : Prop :=
  utf8_valid c = true ∧ ∃ a t, c = a :: t ∧ is_continuation a = false ∧
    Forall (λ b, is_continuation b = true) t ∧ ((a < 128)%N → t = []).

(** A valid string is a sequence of characters. *)
Inductive utf8 : list N → Prop :=
| utf8_nil : utf8 []
| utf8_cons c l : utf8_char c → utf8 l → utf8 (c ++ l).

Lemma second_byte_continues a b : second_byte_ok a b = true → is_continuation b = true.
Proof.
  unfold second_byte_ok, is_continuation.
  repeat match goal with |- context [if ?x then _ else _] => destruct x end; rewrite ?andb_true_iff, ?N.leb_le, ?N.ltb_lt;
    lia.
Qed.

Lemma utf8_of_valid l : utf8_valid l = true → utf8 l.
Proof.
  remember (length l) as n eqn:Hn. revert l Hn. induction n as [n IH] using lt_wf_ind. intros [|a l] ->; [constructor|].
  assert (∀ c k, a :: l = c ++ k → utf8_char c → utf8_valid k = true → utf8 (a :: l)) as Hstep.
  { intros c k E Hc Hk. rewrite E. constructor; [done|]. eapply IH; [|reflexivity|done].
    destruct Hc as [_ (a' & t & -> & _)]. apply (f_equal length) in E. rewrite length_app in E. simpl in *. lia. }
  assert (is_continuation a = false ∨ (128 ≤ a < 194)%N) as Hlead.
  { unfold is_continuation. destruct (N.ltb_spec a 128), (N.ltb_spec a 194); [left|left|right|left]; try lia.
    all: apply andb_false_iff; rewrite N.leb_gt, N.ltb_ge; lia. }
  intros Hv. pose proof Hv as Hv'. cbn in Hv.
  destruct (a <? 128)%N eqn:E0.
  { apply N.ltb_lt in E0. destruct Hlead as [Hlead|]; [|lia]. apply (Hstep [a] l); [done| |done]. split.
    - cbn. by apply N.ltb_lt in E0 as ->.
    - exists a, []. auto. }
  apply N.ltb_ge in E0.
  destruct ((194 <=? a) && (a <? 224))%N eqn:E1; [|destruct ((224 <=? a) && (a <? 240))%N eqn:E2;
    [|destruct ((240 <=? a) && (a <? 245))%N eqn:E3; [|done]]].
  all: destruct Hlead as [Hlead|]; [|rewrite ?andb_true_iff, ?N.leb_le in *; lia].
  - destruct l as [|b l]; [done|]. apply andb_true_iff in Hv as [Hb Hl]. apply (Hstep [a; b] l); [done| |done]. split.
    + cbn. apply N.ltb_ge in E0 as ->. by rewrite E1, Hb.
    + exists a, [b]. split_and!; [done|done|auto|lia].
  - destruct l as [|b [|c l]]; [done..|]. rewrite !andb_true_iff in Hv. destruct Hv as [[Hb Hc] Hl].
    apply (Hstep [a; b; c] l); [done| |done]. split.
    + cbn. apply N.ltb_ge in E0 as ->. by rewrite E1, E2, Hb, Hc.
    + exists a, [b; c]. apply second_byte_continues in Hb. split_and!; [done|done|auto|lia].
  - destruct l as [|b [|c [|d l]]]; [done..|]. rewrite !andb_true_iff in Hv. destruct Hv as [[[Hb Hc] Hd] Hl].
    apply (Hstep [a; b; c; d] l); [done| |done]. split.
    + cbn. apply N.ltb_ge in E0 as ->. by rewrite E1, E2, E3, Hb, Hc, Hd.
    + exists a, [b; c; d]. apply second_byte_continues in Hb. split_and!; [done|done|auto|lia].
Qed.

Lemma utf8_is_valid l : utf8 l → utf8_valid l = true.
Proof. induction 1 as [|c l [Hc _] _ IH]; [done|]. by apply utf8_valid_app. Qed.

(** A string splits at its character boundaries into valid strings. *)
Lemma utf8_split l i : utf8 l → is_char_boundary l i = true → utf8 (take i l) ∧ utf8 (drop i l).
Proof.
  intros Hl. revert i. induction Hl as [|c l Hc Hl IH]; intros i Hi; [destruct i; split; constructor|].
  destruct (decide (i = 0)) as [->|Hi0]; [split; [constructor|by constructor]|].
  destruct (decide (i < length c)) as [Hlt|Hge].
  { destruct Hc as [_ (a & t & -> & _ & Ht & _)]. exfalso. unfold is_char_boundary in Hi.
    rewrite !orb_true_iff, Nat.eqb_eq, Nat.eqb_eq, is_some_and_true in Hi. rewrite length_app in Hi.
    destruct Hi as [[?|?]|(b & E & Hb)]; [done|lia|]. destruct i as [|i]; [done|]. simpl in *.
    rewrite lookup_app_l in E by lia. eapply Forall_lookup_1 in Ht; [|exact E]. by rewrite Ht in Hb. }
  assert (is_char_boundary l (i - length c) = true) as Hb.
  { unfold is_char_boundary in *. rewrite length_app, lookup_app_r in Hi by lia.
    rewrite !orb_true_iff, !Nat.eqb_eq in *. destruct Hi as [[?|?]|?]; [done|left; right; lia|by right]. }
  destruct (IH _ Hb) as [H1 H2]. rewrite take_app, drop_app.
  rewrite take_ge, drop_ge by lia. split; [by constructor|done].
Qed.

(** The byte after an ASCII byte starts a character. *)
Lemma utf8_after_ascii l i c : utf8 l → l !! i = Some c → (c < 128)%N → is_char_boundary l (S i) = true.
Proof.
  intros Hl. revert i. induction Hl as [|k l Hk Hl IH]; intros i E Hc; [done|].
  destruct (decide (i < length k)) as [Hlt|Hge].
  - rewrite lookup_app_l in E by done. destruct Hk as [_ (a & t & -> & _ & Ht & Ha)]. destruct i as [|i].
    + injection E as [= <-]. rewrite (Ha Hc). destruct Hl as [|k' l' [_ (a' & t' & -> & Ha' & _)] _]; [done|].
      by apply boundary_at with a'.
    + exfalso. simpl in E. eapply Forall_lookup_1 in Ht; [|exact E]. unfold is_continuation in Ht.
      apply andb_true_iff in Ht as [Ht%N.leb_le _]. lia.
  - rewrite lookup_app_r in E by lia. specialize (IH _ E Hc). unfold is_char_boundary in *.
    rewrite length_app, lookup_app_r by lia. rewrite !orb_true_iff, !Nat.eqb_eq in *.
    replace (S i - length k) with (S (i - length k)) by lia. destruct IH as [[?|?]|?]; [done|left; right; lia|by right].
Qed.

Lemma utf8_sub l i j :
  utf8 l → is_char_boundary l i = true → is_char_boundary l j = true → i ≤ j → utf8 (sub l i j).
Proof.
  intros Hl Hi Hj Hle. destruct (utf8_split l j Hl Hj) as [H1 _].
  replace (sub l i j) with (drop i (take j l)) by (unfold sub; by rewrite skipn_firstn_comm).
  apply utf8_split; [done|]. pose proof (boundary_le _ _ Hj) as Hlen. unfold is_char_boundary in *.
  rewrite length_take. destruct (decide (i = j)) as [->|]; [rewrite Nat.min_l, Nat.eqb_refl, orb_true_r by lia; done|].
  rewrite lookup_take, decide_True by lia. rewrite !orb_true_iff, !Nat.eqb_eq in *.
  destruct Hi as [[?|?]|?]; [auto|lia|auto].
Qed.

(** ** Facts about searching *)

Lemma bytes_prefix_spec p l : bytes_prefix p l = true ↔ ∃ r, l = p ++ r.
Proof.
  revert l. induction p as [|x p IH]; intros l; simpl; [split; [by exists l|done]|].
  destruct l as [|y l]; [split; [done|by intros [r [=]]]|]. rewrite andb_true_iff, N.eqb_eq, IH. split.
  - intros [-> [r ->]]. by exists r.
  - intros [r [= -> ->]]. split; [done|by exists r].
Qed.

(** A pattern whose last byte is not in [b] has no occurrence that reaches into [b]. *)
Lemma bytes_prefix_app p z l b : z ∉ b → bytes_prefix (p ++ [z]) (l ++ b) = bytes_prefix (p ++ [z]) l.
Proof.
  intros Hz. revert l. induction p as [|x p IH]; intros [|y l]; simpl.
  - destruct b as [|y b]; [done|]. destruct (z =? y)%N eqn:E; [|done]. apply N.eqb_eq in E as ->. exfalso. apply Hz. left.
  - done.
  - destruct b as [|y b]; [done|]. destruct (x =? y)%N; [|done]. simpl. destruct (bytes_prefix (p ++ [z]) b) eqn:E; [|done].
    apply bytes_prefix_spec in E as [r ->]. exfalso. apply Hz. set_solver.
  - by rewrite IH.
Qed.

Lemma rfind_none p z b : z ∉ b → rfind (p ++ [z]) b = None.
Proof.
  intros Hz. induction b as [|y b IH]; simpl.
  - by destruct p.
  - rewrite IH by (intros H; apply Hz; by right). destruct (bytes_prefix (p ++ [z]) (y :: b)) eqn:E; [|done].
    apply bytes_prefix_spec in E as [r E]. exfalso. apply Hz. rewrite E. set_solver.
Qed.

Lemma rfind_app p z l b : z ∉ b → rfind (p ++ [z]) (l ++ b) = rfind (p ++ [z]) l.
Proof.
  intros Hz. induction l as [|y l IH]; cbn [app].
  - rewrite rfind_none by done. simpl. by destruct p.
  - cbn [rfind]. rewrite IH. change (y :: l ++ b) with ((y :: l) ++ b). by rewrite bytes_prefix_app.
Qed.

Lemma rfind_le p l i : rfind p l = Some i → i ≤ length l.
Proof.
  revert i. induction l as [|y l IH]; intros i; simpl.
  - destruct (bytes_prefix p []); [intros [= <-]; lia|done].
  - destruct (rfind p l) as [k|]; [intros [= <-]; specialize (IH k eq_refl); lia|].
    destruct (bytes_prefix p (y :: l)); [intros [= <-]; lia|done].
Qed.

Lemma bytes_contain_one z l : bytes_contain [z] l = bool_decide (z ∈ l).
Proof.
  induction l as [|y l IH]; [done|]. cbn [bytes_contain bytes_prefix]. rewrite IH, andb_true_r.
  destruct (z =? y)%N eqn:E.
  - apply N.eqb_eq in E as ->. symmetry. apply bool_decide_eq_true. left.
  - apply N.eqb_neq in E. apply bool_decide_ext. set_solver.
Qed.

(** ** Facts about the inner loops *)

Lemma back_while_le p lo b i : back_while p lo b i ≤ i.
Proof. induction i as [|i IH]; simpl; [done|]. destruct (_ && _); lia. Qed.

Lemma back_while_ge p lo b i : lo ≤ i → lo ≤ back_while p lo b i.
Proof.
  induction i as [|i IH]; simpl; [done|]. intros H. destruct (_ && _) eqn:E; [|done].
  apply andb_true_iff in E as [E%Nat.ltb_lt _]. apply IH. lia.
Qed.

(** Every byte the loop passed satisfies the test. *)
Lemma back_while_run p lo b i k :
  back_while p lo b i ≤ k → k < i → ∃ c, b !! k = Some c ∧ p c = true.
Proof.
  induction i as [|i IH]; simpl; [lia|]. intros H1 H2. destruct (_ && _) eqn:E; [|lia].
  apply andb_true_iff in E as [_ E%is_some_and_true]. destruct (decide (k = i)) as [->|]; [done|]. apply IH; lia.
Qed.

(** The loop stops at its bound or at a byte that fails the test. *)
Lemma back_while_stop p lo b i j :
  back_while p lo b i = S j → lo < S j → is_some_and (b !! j) p = false.
Proof.
  induction i as [|i IH]; simpl; [done|]. destruct (_ && _) eqn:E; [exact IH|].
  intros [= ->] H. apply andb_false_iff in E as [E%Nat.ltb_ge|E]; [lia|done].
Qed.

Lemma count_while_le p l : count_while p l ≤ length l.
Proof. induction l as [|c l IH]; simpl; [done|]. destruct (p c); lia. Qed.

Lemma count_while_run p l k : k < count_while p l → ∃ c, l !! k = Some c ∧ p c = true.
Proof.
  revert k. induction l as [|c l IH]; intros k; simpl; [lia|]. destruct (p c) eqn:E; [|lia].
  destruct k as [|k]; [by exists c|]. intros H. apply IH. lia.
Qed.

Lemma count_while_stop p l c : l !! count_while p l = Some c → p c = false.
Proof. induction l as [|x l IH]; simpl; [done|]. destruct (p x) eqn:E; simpl; [done|]. by intros [= <-]. Qed.

Lemma run_while_ge p b i : i ≤ run_while p b i.
Proof. unfold run_while. lia. Qed.

Lemma run_while_le p b i : i ≤ length b → run_while p b i ≤ length b.
Proof.
  intros H. unfold run_while. pose proof (count_while_le p (drop i b)) as Hc. rewrite length_drop in Hc. lia.
Qed.

Lemma run_while_run p b i k : i ≤ k → k < run_while p b i → ∃ c, b !! k = Some c ∧ p c = true.
Proof.
  unfold run_while. intros H1 H2. destruct (count_while_run p (drop i b) (k - i)) as (c & E & Hc); [lia|].
  rewrite lookup_drop in E. replace (i + (k - i)) with k in E by lia. by exists c.
Qed.

(** ** Facts about the outer loop *)

Section while_lt.
Context {A : Type} (n : nat) (body : nat → nat * list A).
Context (Hadv : ∀ i, i < n → i < (body i).1).

(** A body that always advances ends within the indices that are left. *)
Lemma while_lt_total fuel i : n - i ≤ fuel → ∃ l, while_lt fuel n body i = Some l.
Proof.
  revert i. induction fuel as [|fuel IH]; intros i H; simpl.
  - exists []. destruct (n <=? i) eqn:E; [done|]. apply Nat.leb_gt in E. lia.
  - destruct (n <=? i) eqn:E; [by exists []|]. apply Nat.leb_gt in E. specialize (Hadv i E).
    destruct (body i) as [i' pushed]. simpl in Hadv. destruct (IH i') as [l ->]; [lia|]. by exists (pushed ++ l).
Qed.

Lemma while_lt_more fuel fuel' i l :
  while_lt fuel n body i = Some l → fuel ≤ fuel' → while_lt fuel' n body i = Some l.
Proof.
  clear Hadv. revert fuel' i l. induction fuel as [|fuel IH]; intros fuel' i l; simpl.
  - destruct (n <=? i) eqn:E; [|done]. intros [= <-] _. destruct fuel'; simpl; by rewrite E.
  - destruct (n <=? i) eqn:E; [intros [= <-] _; destruct fuel'; simpl; by rewrite E|].
    intros H Hle. destruct fuel' as [|fuel']; [lia|]. simpl. rewrite E. destruct (body i) as [i' pushed].
    destruct (while_lt fuel n body i') as [rest|] eqn:Hr; [|done]. rewrite (IH fuel' i' rest Hr); [done|lia].
Qed.

Lemma scan_while_eq : while_lt n n body 0 = Some (scan_while n body).
Proof. unfold scan_while. destruct (while_lt_total n 0) as [l ->]; [lia|done]. Qed.

(** What is pushed comes from some index the loop visited. *)
Lemma while_lt_elem fuel i l x :
  while_lt fuel n body i = Some l → x ∈ l → ∃ j, i ≤ j ∧ j < n ∧ x ∈ (body j).2.
Proof.
  revert i l. induction fuel as [|fuel IH]; intros i l; simpl; destruct (n <=? i) eqn:E.
  1,3: intros [= <-] H; by apply elem_of_nil in H.
  - done.
  - apply Nat.leb_gt in E. pose proof (Hadv i E) as Hi. destruct (body i) as [i' pushed] eqn:Hb. simpl in Hi.
    destruct (while_lt fuel n body i') as [rest|] eqn:Hr; [|done]. intros [= <-] [Hx|Hx]%elem_of_app.
    + exists i. rewrite Hb. auto.
    + destruct (IH i' rest Hr Hx) as (j & Hj & Hn & Hx'). exists j. split; [lia|auto].
Qed.

Lemma elem_of_scan_while x : x ∈ scan_while n body → ∃ j, j < n ∧ x ∈ (body j).2.
Proof.
  intros Hx. destruct (while_lt_elem n 0 _ x scan_while_eq Hx) as (j & _ & Hn & Hj). by exists j.
Qed.

(** When the loop never skips an index that pushes something, it pushes exactly what the
    indices push one by one. *)
Lemma while_lt_exact fuel i l :
  (∀ i j, i < n → i < j → j < (body i).1 → (body j).2 = []) →
  while_lt fuel n body i = Some l → i ≤ n → l = concat (map (λ j, (body j).2) (seq i (n - i))).
Proof.
  intros Hskip. revert i l. induction fuel as [|fuel IH]; intros i l; simpl; destruct (n <=? i) eqn:E.
  1,3: intros [= <-] H; apply Nat.leb_le in E; by replace (n - i) with 0 by lia.
  - done.
  - apply Nat.leb_gt in E. pose proof (Hadv i E) as Hi. destruct (body i) as [i' pushed] eqn:Hb. simpl in Hi.
    destruct (while_lt fuel n body i') as [rest|] eqn:Hr; [|done]. intros [= <-] Hle.
    replace (n - i) with (S (n - S i)) by lia. cbn [seq map concat]. rewrite Hb. simpl. f_equal.
    assert (∀ k, S i + k ≤ i' → S i + k ≤ n →
      concat (map (λ j, (body j).2) (seq (S i) (n - S i))) =
      concat (map (λ j, (body j).2) (seq (S i + k) (n - (S i + k))))) as Hdrop.
    { induction k as [|k IHk]; intros H1 H2; [by rewrite Nat.add_0_r|]. rewrite IHk by lia.
      replace (n - (S i + k)) with (S (n - (S i + S k))) by lia. cbn [seq map concat].
      rewrite (Hskip i (S i + k)); [|lia..|rewrite Hb; simpl; lia]. simpl. by replace (S (i + k)) with (i + S k) by lia. }
    destruct (decide (i' ≤ n)) as [Hn|Hn].
    + rewrite (Hdrop (i' - S i)) by lia. replace (S i + (i' - S i)) with i' by lia. by apply IH.
    + rewrite (Hdrop (n - S i)) by lia. replace (n - (S i + (n - S i))) with 0 by lia.
      destruct fuel as [|fuel]; simpl in Hr; apply Nat.nle_gt in Hn;
        destruct (n <=? i') eqn:E'; try (apply Nat.leb_gt in E'; lia); by injection Hr as <-.
Qed.

Lemma scan_while_exact :
  (∀ i j, i < n → i < j → j < (body i).1 → (body j).2 = []) →
  scan_while n body = concat (map (λ j, (body j).2) (seq 0 n)).
Proof.
  intros H. rewrite (while_lt_exact n 0 (scan_while n body) H scan_while_eq) by lia. by rewrite Nat.sub_0_r.
Qed.
(** Every index is visited, or passed over by a turn at an earlier one. *)
Lemma while_lt_cover fuel i l j :
  while_lt fuel n body i = Some l → i ≤ j → j < n →
  ∃ k, k ≤ j ∧ j < (body k).1 ∧ ∀ x, x ∈ (body k).2 → x ∈ l.
Proof.
  revert i l. induction fuel as [|fuel IH]; intros i l; simpl; destruct (n <=? i) eqn:E; try (apply Nat.leb_le in E; lia).
  - done.
  - apply Nat.leb_gt in E. pose proof (Hadv i E) as Hi. destruct (body i) as [i' pushed] eqn:Hb. simpl in Hi.
    destruct (while_lt fuel n body i') as [rest|] eqn:Hr; [|done]. intros [= <-] H1 H2.
    destruct (decide (j < i')) as [Hj|Hj].
    + exists i. rewrite Hb. split_and!; [done|done|]. intros x Hx. apply elem_of_app. by left.
    + destruct (IH i' rest Hr) as (k & Hk1 & Hk2 & Hk3); [lia|done|]. exists k. split_and!; [done..|].
      intros x Hx. apply elem_of_app. right. by apply Hk3.
Qed.

Lemma scan_while_cover j :
  j < n → ∃ k, k ≤ j ∧ j < (body k).1 ∧ ∀ x, x ∈ (body k).2 → x ∈ scan_while n body.
Proof. intros Hj. apply (while_lt_cover n 0 _ j scan_while_eq); lia. Qed.
End while_lt.
