(* ===== verification/Patterns.v ===== *)
(** * sv-patterns/src/pack.rs, engine.rs and lib.rs: pattern packs

    Load-time validation of a pack and budgeted matching of enabled packs.  The
    regex crate is a parameter: compilation under limits, [is_match] and
    [find_iter] (byte offsets of the matches, in order). *)
From S2P Require Import Prelude Validators Bytes.

Definition MAX_RULES_PER_PACK : nat := 200.
Definition MAX_PATTERN_BYTES : nat := 4096.
Definition MAX_ENABLED_PACKS : nat := 64.

Module RuleConfidence.
Inductive t := Low | Medium | High.
#[global] Instance t_eq_dec : EqDecision t.
Proof. solve_decision. Defined.
End RuleConfidence.

Module PatternRule.
Record t := mk {
  name : string;
  description : string;
  pattern : string;
  validator : option ValidatorId.t;
  confidence : RuleConfidence.t;
  examples_valid : list string;
  examples_invalid : list string
}.
End PatternRule.

Module PatternPack.
Record t := mk {
  schema : string;
  id : string;
  version : string;
  name : string;
  jurisdictions : list string;
  regulatory_references : list string;
  rules : list PatternRule.t
}.
End PatternPack.

(** [lib.rs]: why a pack is rejected. *)
Module PackError.
Inductive t :=
| InvalidToml
| InvalidSchema (found : string)
| InvalidPackId (id : string)
| EmptyRules
| TooManyRules (count : nat)
| InvalidRuleName (rule : string)
| DuplicateRuleName (pack_id rule : string)
| PatternTooLarge (rule : string)
| PatternCompile (rule reason : string)
| EmptyValidExamples (rule : string)
| ValidExampleFailed (rule : string) (index : nat)
| InvalidExampleMatched (rule : string) (index : nat)
| UnknownBuiltin (id : string).
End PackError.

(** The errors of [RegexBuilder::build]. *)
Inductive regex_error := Syntax | CompiledTooBig | OtherRegexError.

Definition compile_reason (error : regex_error) : string :=
  match error with
  | Syntax => "syntax error"
  | CompiledTooBig => "pattern exceeds the compilation size limit"
  | OtherRegexError => "could not be compiled"
  end.

Definition valid_pack_id (id : string) : bool :=
  let bytes := str_bytes id in
  ((2 <=? length bytes) && (length bytes <=? 64))
  && is_some_and (bytes !! 0) (λ b, is_ascii_lowercase b || is_ascii_digit b)
  && forallb (λ b, is_ascii_lowercase b || is_ascii_digit b || (b =? 45)%N) bytes.

Definition valid_rule_name (name : string) : bool :=
  let bytes := str_bytes name in
  ((2 <=? length bytes) && (length bytes <=? 64))
  && is_some_and (bytes !! 0) (λ b, is_ascii_lowercase b || is_ascii_digit b)
  && forallb (λ b, is_ascii_lowercase b || is_ascii_digit b || (b =? 45)%N || (b =? 95)%N) bytes.

(** [for (index, x) in l.iter().enumerate() { if bad(x) { return Err(e(index)) } }]. *)
Fixpoint first_bad {A E} (bad : A → bool) (e : nat → E) (index : nat) (l : list A) : result unit E :=
  match l with
  | [] => Ok tt
  | x :: l' => if bad x then Err (e index) else first_bad bad e (S index) l'
  end.

Section regex.
Context {Regex : Type}.
Context (build : string → result Regex regex_error).
Context (is_match : Regex → string → bool).
Context (find_iter : Regex → string → list (nat * nat)).

Record CompiledRule := mkCompiled {
  rule_name : string;
  rule_description : string;
  rule_regex : Regex;
  rule_validator : option ValidatorId.t;
  rule_confidence : RuleConfidence.t
}.

Record ValidatedPack := mkValidated {
  pack_id : string;
  pack_version : string;
  pack_name : string;
  pack_jurisdictions : list string;
  pack_references : list string;
  pack_rules : list CompiledRule
}.

(** ** Load-time validation *)

(** A positive vector that does not match or fails validation. *)
Definition bad_valid_example (regex : Regex) (validator : option ValidatorId.t) (example : string) : bool :=
  negb (is_match regex example &&
        match validator with None => true | Some v => ValidatorId.validate v example end).

(** A negative vector that matches and is not rejected by the validator. *)
Definition bad_invalid_example (regex : Regex) (validator : option ValidatorId.t) (example : string) : bool :=
  is_match regex example
  && negb (is_some_and validator (λ v, negb (ValidatorId.validate v example))).

(** The body of the loop over the rules, [seen] aside. *)
Definition compile_rule (rule : PatternRule.t) : result CompiledRule PackError.t :=
  let name := PatternRule.name rule in
  reject_if (MAX_PATTERN_BYTES <? String.length (PatternRule.pattern rule))
    (PackError.PatternTooLarge name)
  (let? regex := match build (PatternRule.pattern rule) with
                 | Ok r => Ok r
                 | Err e => Err (PackError.PatternCompile name (compile_reason e))
                 end in
   reject_if (bool_decide (PatternRule.examples_valid rule = [])) (PackError.EmptyValidExamples name)
   (let? _ := first_bad (bad_valid_example regex (PatternRule.validator rule))
                (PackError.ValidExampleFailed name) 0 (PatternRule.examples_valid rule) in
    let? _ := first_bad (bad_invalid_example regex (PatternRule.validator rule))
                (PackError.InvalidExampleMatched name) 0 (PatternRule.examples_invalid rule) in
    Ok (mkCompiled name (PatternRule.description rule) regex (PatternRule.validator rule)
          (PatternRule.confidence rule)))).

Fixpoint compile_rules (id : string) (seen : gset string) (rules : list PatternRule.t) :
    result (list CompiledRule) PackError.t :=
  match rules with
  | [] => Ok []
  | rule :: rules' =>
      let name := PatternRule.name rule in
      reject_if (negb (valid_rule_name name)) (PackError.InvalidRuleName name)
      (reject_if (bool_decide (name ∈ seen)) (PackError.DuplicateRuleName id name)
       (let? compiled := compile_rule rule in
        let? rest := compile_rules id ({[name]} ∪ seen) rules' in
        Ok (compiled :: rest)))
  end.

Definition validate_pack (self : PatternPack.t) : result ValidatedPack PackError.t :=
  reject_if (negb (bool_decide (PatternPack.schema self = "1")))
    (PackError.InvalidSchema (PatternPack.schema self))
  (reject_if (negb (valid_pack_id (PatternPack.id self))) (PackError.InvalidPackId (PatternPack.id self))
  (reject_if (bool_decide (PatternPack.rules self = [])) PackError.EmptyRules
  (reject_if (MAX_RULES_PER_PACK <? length (PatternPack.rules self))
     (PackError.TooManyRules (length (PatternPack.rules self)))
  (let? compiled := compile_rules (PatternPack.id self) ∅ (PatternPack.rules self) in
   Ok (mkValidated (PatternPack.id self) (PatternPack.version self) (PatternPack.name self)
         (PatternPack.jurisdictions self) (PatternPack.regulatory_references self) compiled))))).

(** [PatternPack::from_toml] and [load_builtin], given the TOML parser and the
    bundled sources. *)
Definition from_toml (parse : string → option PatternPack.t) (source : string) :
    result PatternPack.t PackError.t :=
  ok_or (parse source) PackError.InvalidToml.

Definition load_builtin (parse : string → option PatternPack.t) (br eu us : string) (id : string) :
    result ValidatedPack PackError.t :=
  let? source :=
    if bool_decide (id = "br-lgpd") then Ok br
    else if bool_decide (id = "eu-gdpr") then Ok eu
    else if bool_decide (id = "us") then Ok us
    else Err (PackError.UnknownBuiltin id) in
  let? pack := from_toml parse source in
  validate_pack pack.

(** ** Matching *)

Record PatternMatch := mkMatch {
  m_pack_id : string;
  m_pack_version : string;
  m_rule_id : string;
  m_start : nat;
  m_end : nat;
  m_confidence : RuleConfidence.t;
  m_validated : option bool
}.

Record MatchBudget := mkBudget { max_matches : nat; max_input_bytes : nat }.

Definition default_budget : MatchBudget := mkBudget 1000 (1024 * 1024).

Record MatchOutcome := mkOutcome { matches : list PatternMatch; truncated : bool }.

(** [while !input.is_char_boundary(scan_len) { scan_len -= 1 }]. *)
Fixpoint clamp_boundary (bytes : list N) (scan_len : nat) : nat :=
  if is_char_boundary bytes scan_len then scan_len
  else match scan_len with O => O | S n => clamp_boundary bytes n end.

(** One candidate: [None] is [continue]. *)
Definition candidate_match (haystack : list N) (pack : ValidatedPack) (rule : CompiledRule)
    (regex_match : nat * nat) : option PatternMatch :=
  let '(start, end_) := regex_match in
  let candidate := slice haystack start end_ in
  let validated := (λ v, ValidatorId.validate v candidate) <$> rule_validator rule in
  if bool_decide (validated = Some false) then None
  else Some (mkMatch (pack_id pack) (pack_version pack)
               (pack_id pack +:+ ("/" +:+ rule_name rule)) start end_ (rule_confidence rule) validated).

(** The three nested loops; the flag says that [break 'outer] was taken. *)
Fixpoint match_loop (budget : MatchBudget) (haystack : list N) (pack : ValidatedPack)
    (rule : CompiledRule) (acc : list PatternMatch) (ms : list (nat * nat)) : list PatternMatch * bool :=
  match ms with
  | [] => (acc, false)
  | m :: ms' =>
      match candidate_match haystack pack rule m with
      | None => match_loop budget haystack pack rule acc ms'
      | Some pm =>
          let acc' := acc ++ [pm] in
          if max_matches budget <=? length acc' then (acc', true)
          else match_loop budget haystack pack rule acc' ms'
      end
  end.

Fixpoint rule_loop (budget : MatchBudget) (haystack : list N) (pack : ValidatedPack)
    (acc : list PatternMatch) (rules : list CompiledRule) : list PatternMatch * bool :=
  match rules with
  | [] => (acc, false)
  | rule :: rules' =>
      let '(acc', stop) :=
        match_loop budget haystack pack rule acc (find_iter (rule_regex rule) (str_of_bytes haystack)) in
      if stop then (acc', true) else rule_loop budget haystack pack acc' rules'
  end.

Fixpoint pack_loop (budget : MatchBudget) (haystack : list N) (acc : list PatternMatch)
    (packs : list ValidatedPack) : list PatternMatch * bool :=
  match packs with
  | [] => (acc, false)
  | pack :: packs' =>
      let '(acc', stop) := rule_loop budget haystack pack acc (pack_rules pack) in
      if stop then (acc', true) else pack_loop budget haystack acc' packs'
  end.

(** The comparison of [matches.sort_by]. *)
Definition match_leb (a b : PatternMatch) : bool :=
  match Nat.compare (m_start a) (m_start b) with
  | Lt => true
  | Gt => false
  | Eq =>
      match String.compare (m_rule_id a) (m_rule_id b) with
      | Lt => true
      | Gt => false
      | Eq => m_end a <=? m_end b
      end
  end.

Definition match_all (packs : list ValidatedPack) (input : string) (budget : MatchBudget) : MatchOutcome :=
  let effective_packs := take MAX_ENABLED_PACKS packs in
  let bytes := str_bytes input in
  let scan_len := Nat.min (length bytes) (max_input_bytes budget) in
  let haystack := take (clamp_boundary bytes scan_len) bytes in
  let '(found, stopped) := pack_loop budget haystack [] effective_packs in
  mkOutcome (sort_by match_leb found)
    ((MAX_ENABLED_PACKS <? length packs) || (scan_len <? length bytes) || stopped).

(** ** The specification of matching: every candidate, in order *)

Definition rule_matches_in (haystack : list N) (pack : ValidatedPack) (rule : CompiledRule) :
    list PatternMatch :=
  omap (candidate_match haystack pack rule) (find_iter (rule_regex rule) (str_of_bytes haystack)).

Definition all_matches (haystack : list N) (packs : list ValidatedPack) : list PatternMatch :=
  pack ← packs; rule ← pack_rules pack; rule_matches_in haystack pack rule.
End regex.

(** ** The order of results *)

Lemma match_leb_spec a b :
  match_leb a b = true ↔
  m_start a < m_start b ∨
  m_start a = m_start b ∧
    (String.compare (m_rule_id a) (m_rule_id b) = Lt ∨
     m_rule_id a = m_rule_id b ∧ m_end a ≤ m_end b).
Proof.
  unfold match_leb. destruct (Nat.compare_spec (m_start a) (m_start b)) as [E|E|E]; [|naive_solver lia..].
  destruct (String.compare (m_rule_id a) (m_rule_id b)) eqn:Hc.
  - apply String.compare_eq_iff in Hc. rewrite Nat.leb_le. naive_solver lia.
  - naive_solver.
  - split; [done|]. intros [?|[_ [?|[Hr _]]]]; [lia|done|].
    by rewrite Hr, str_compare_refl in Hc.
Qed.

Lemma match_leb_total a b : match_leb a b = true ∨ match_leb b a = true.
Proof.
  rewrite !match_leb_spec. destruct (Nat.lt_trichotomy (m_start a) (m_start b)) as [?|[E|?]]; [tauto| |tauto].
  rewrite (String.compare_antisym (m_rule_id b)).
  destruct (String.compare (m_rule_id a) (m_rule_id b)) eqn:Hc; [|tauto|].
  - apply String.compare_eq_iff in Hc. rewrite Hc, E. destruct (Nat.le_ge_cases (m_end a) (m_end b)); tauto.
  - right. right. split; [done|]. by left.
Qed.

Lemma match_leb_trans a b c : match_leb a b = true → match_leb b c = true → match_leb a c = true.
Proof.
  rewrite !match_leb_spec. intros [H1|[E1 H1]] [H2|[E2 H2]]; [left; lia..|]. right. split; [lia|].
  destruct H1 as [H1|[R1 H1]], H2 as [H2|[R2 H2]].
  - left. by eapply str_compare_lt_trans.
  - left. by rewrite <-R2.
  - left. by rewrite R1.
  - right. split; [congruence|lia].
Qed.

(** ** The loops take a prefix of all candidates *)

(** Pushing candidates until the budget is reached. *)
Fixpoint fill (max : nat) (acc l : list PatternMatch) : list PatternMatch * bool :=
  match l with
  | [] => (acc, false)
  | x :: l' => if max <=? length (acc ++ [x]) then (acc ++ [x], true) else fill max (acc ++ [x]) l'
  end.

Lemma fill_app max acc l1 l2 :
  fill max acc (l1 ++ l2) =
  let '(acc', stop) := fill max acc l1 in if stop then (acc', true) else fill max acc' l2.
Proof.
  revert acc. induction l1 as [|x l1 IH]; intros acc; simpl; [done|].
  destruct (_ <=? _); [done|]. apply IH.
Qed.

Lemma fill_spec max acc l :
  length acc < Nat.max 1 max →
  fill max acc l = (take (Nat.max 1 max) (acc ++ l), Nat.max 1 max <=? length (acc ++ l)).
Proof.
  revert acc. induction l as [|x l IH]; intros acc Hlt; cbn [fill].
  - rewrite app_nil_r, take_ge by lia. by rewrite (proj2 (Nat.leb_gt _ _)).
  - replace (acc ++ x :: l) with ((acc ++ [x]) ++ l) by (by rewrite <-app_assoc).
    destruct (Nat.leb_spec max (length (acc ++ [x]))) as [Hm|Hm].
    + assert (Nat.max 1 max = length (acc ++ [x])) as E by (rewrite length_app in *; simpl in *; lia).
      rewrite E, take_app_length. rewrite (proj2 (Nat.leb_le _ _)); [done|]. rewrite (length_app _ l). lia.
    + apply IH. lia.
Qed.

Section matching.
Context {Regex : Type} (find_iter : Regex → string → list (nat * nat)).
Implicit Types (packs : list (@ValidatedPack Regex)).

Lemma match_loop_fill budget haystack pack (rule : @CompiledRule Regex) acc ms :
  match_loop budget haystack pack rule acc ms =
  fill (max_matches budget) acc (omap (candidate_match haystack pack rule) ms).
Proof.
  revert acc. induction ms as [|m ms IH]; intros acc; [done|]. cbn [match_loop].
  change (omap ?f (m :: ms)) with (match f m with Some y => y :: omap f ms | None => omap f ms end).
  cbn beta. destruct (candidate_match haystack pack rule m); [|apply IH]. cbn [fill].
  destruct (_ <=? _); [done|]. apply IH.
Qed.

Lemma rule_loop_fill budget haystack (pack : @ValidatedPack Regex) acc rules :
  rule_loop find_iter budget haystack pack acc rules =
  fill (max_matches budget) acc (rules ≫= rule_matches_in find_iter haystack pack).
Proof.
  revert acc. induction rules as [|rule rules IH]; intros acc; [done|].
  cbn [rule_loop]. rewrite bind_cons, fill_app, match_loop_fill. unfold rule_matches_in at 1.
  destruct (fill _ acc _) as [acc' []]; [done|]. apply IH.
Qed.

Lemma pack_loop_fill budget haystack acc packs :
  pack_loop find_iter budget haystack acc packs =
  fill (max_matches budget) acc (all_matches find_iter haystack packs).
Proof.
  revert acc. induction packs as [|pack packs IH]; intros acc; [done|].
  cbn [pack_loop]. unfold all_matches. rewrite bind_cons, fill_app, rule_loop_fill.
  destruct (fill _ acc _) as [acc' []]; [done|]. apply IH.
Qed.

(** [match_all], as a take of the specification. *)
Lemma match_all_take packs input budget :
  let bytes := str_bytes input in
  let scan_len := Nat.min (length bytes) (max_input_bytes budget) in
  let all := all_matches find_iter (take (clamp_boundary bytes scan_len) bytes)
               (take MAX_ENABLED_PACKS packs) in
  let cap := Nat.max 1 (max_matches budget) in
  match_all find_iter packs input budget =
  mkOutcome (sort_by match_leb (take cap all))
    ((MAX_ENABLED_PACKS <? length packs) || (scan_len <? length bytes) || (cap <=? length all)).
Proof.
  intros bytes scan_len all cap. unfold match_all. fold bytes scan_len.
  rewrite pack_loop_fill, fill_spec by (simpl; lia). done.
Qed.
End matching.

Lemma clamp_whole bytes : clamp_boundary bytes (length bytes) = length bytes.
Proof.
  unfold clamp_boundary. destruct bytes as [|b bytes]; [done|]. cbn [length].
  unfold is_char_boundary. by rewrite Nat.eqb_refl, orb_true_r.
Qed.

(** ** What validation establishes *)

Lemma first_bad_Ok {A E} bad (e : nat → E) i (l : list A) :
  first_bad bad e i l = Ok tt ↔ ∀ x, x ∈ l → bad x = false.
Proof.
  revert i. induction l as [|x l IH]; intros i; simpl.
  - split; [|done]. by intros _ x ?%elem_of_nil.
  - setoid_rewrite elem_of_cons. destruct (bad x) eqn:Hx.
    + split; [done|]. intros H. rewrite H in Hx by auto. done.
    + rewrite IH. split; [by intros H y [->|?]; auto|auto].
Qed.

Section validation.
Context {Regex : Type} (build : string → result Regex regex_error) (is_match : Regex → string → bool).

(** A rule of a validated pack, and the compiled rule it gives. *)
Definition rule_conforms (rule : PatternRule.t) (c : @CompiledRule Regex) : Prop :=
  valid_rule_name (PatternRule.name rule) = true ∧
  String.length (PatternRule.pattern rule) ≤ MAX_PATTERN_BYTES ∧
  build (PatternRule.pattern rule) = Ok (rule_regex c) ∧
  rule_name c = PatternRule.name rule ∧ rule_validator c = PatternRule.validator rule ∧
  rule_confidence c = PatternRule.confidence rule ∧
  PatternRule.examples_valid rule ≠ [] ∧
  (∀ x, x ∈ PatternRule.examples_valid rule → is_match (rule_regex c) x = true ∧
     ∀ v, PatternRule.validator rule = Some v → ValidatorId.validate v x = true) ∧
  (∀ x, x ∈ PatternRule.examples_invalid rule → is_match (rule_regex c) x = true →
     ∃ v, PatternRule.validator rule = Some v ∧ ValidatorId.validate v x = false).

Lemma bad_valid_false r v x :
  bad_valid_example is_match r v x = false →
  is_match r x = true ∧ ∀ v', v = Some v' → ValidatorId.validate v' x = true.
Proof.
  unfold bad_valid_example. rewrite negb_false_iff, andb_true_iff. intros [Hm Hv]. split; [done|].
  by intros v' ->.
Qed.

Lemma bad_invalid_false r v x :
  bad_invalid_example is_match r v x = false → is_match r x = true →
  ∃ v', v = Some v' ∧ ValidatorId.validate v' x = false.
Proof.
  unfold bad_invalid_example. intros H Hm. rewrite Hm in H. simpl in H. to_prop.
  apply is_some_and_true in H as (v' & -> & Hv). apply negb_true_iff in Hv. eauto.
Qed.

Lemma compile_rule_conforms rule c :
  valid_rule_name (PatternRule.name rule) = true →
  compile_rule build is_match rule = Ok c → rule_conforms rule c.
Proof.
  intros Hn. unfold compile_rule. intros H. inv_result.
  destruct (build (PatternRule.pattern rule)) as [regex|] eqn:Hb; inv_result.
  repeat match goal with
  | u : unit |- _ => destruct u
  | H : first_bad _ _ _ _ = Ok _ |- _ => rewrite first_bad_Ok in H
  end. to_prop. unfold rule_conforms. simpl.
  split_and!; try done.
  - by apply Nat.ltb_ge.
  - eauto using bad_valid_false.
  - eauto using bad_invalid_false.
Qed.

Lemma compile_rules_conform id seen rules cs :
  compile_rules build is_match id seen rules = Ok cs →
  Forall2 rule_conforms rules cs ∧ NoDup (PatternRule.name <$> rules) ∧
  ∀ rule, rule ∈ rules → PatternRule.name rule ∉ seen.
Proof.
  revert seen cs. induction rules as [|rule rules IH]; intros seen cs; simpl.
  - intros [= <-]. split_and!; [constructor..|]. by intros ? ?%elem_of_nil.
  - intros H. inv_result. to_prop.
    match goal with H : compile_rules _ _ _ _ _ = Ok _ |- _ => apply IH in H as (HF & Hnd & Hfresh) end.
    split_and!.
    + constructor; [|done]. by apply compile_rule_conforms.
    + constructor; [|done]. intros (r & Hr & Hin)%list_elem_of_fmap. apply (Hfresh r Hin). set_solver.
    + intros r [->|Hin]%elem_of_cons; [done|]. specialize (Hfresh r Hin). set_solver.
Qed.
End validation.

(** ** Properties *)

(** A pack that loads keeps its promises: the schema is supported, there are 1
    to 200 rules with distinct well-formed names and bounded patterns, each
    compiled from its own source and carrying its own validator, every positive
    vector matches and validates, and every negative vector is unmatched or, as a
    whole, rejected by the rule's validator. *)
Theorem validated_pack_conforms {Regex} (build : string → result Regex regex_error) is_match pack v :
  validate_pack build is_match pack = Ok v →
  PatternPack.schema pack = "1" ∧ pack_id v = PatternPack.id pack ∧
  valid_pack_id (PatternPack.id pack) = true ∧
  1 ≤ length (PatternPack.rules pack) ≤ MAX_RULES_PER_PACK ∧
  NoDup (PatternRule.name <$> PatternPack.rules pack) ∧
  Forall2 (rule_conforms build is_match) (PatternPack.rules pack) (pack_rules v).
Proof.
  unfold validate_pack. intros H. inv_result. to_prop. simpl.
  match goal with H : compile_rules _ _ _ _ _ = Ok _ |- _ =>
    apply compile_rules_conform in H as (HF & Hnd & _) end.
  match goal with H : (MAX_RULES_PER_PACK <? _) = false |- _ => apply Nat.ltb_ge in H end.
  split_and!; try done. destruct (PatternPack.rules pack); simpl; [done|lia].
Qed.

(** An untruncated result is complete, and packs only add.  Results come sorted
    and within the match budget; when the outcome is not marked truncated, they
    are exactly the validated candidates of every enabled pack over the whole
    input, and enabling further packs (again without truncation) loses none. *)
Theorem untruncated_is_complete {Regex} (find_iter : Regex → string → list (nat * nat)) packs input budget :
  let out := match_all find_iter packs input budget in
  StronglySorted (λ a b, match_leb a b = true) (matches out) ∧
  length (matches out) ≤ Nat.max 1 (max_matches budget) ∧
  (truncated out = false →
   matches out ≡ₚ all_matches find_iter (str_bytes input) packs ∧
   ∀ extra, truncated (match_all find_iter (packs ++ extra) input budget) = false →
     ∀ m, m ∈ matches out → m ∈ matches (match_all find_iter (packs ++ extra) input budget)).
Proof.
  assert (∀ packs, truncated (match_all find_iter packs input budget) = false →
    matches (match_all find_iter packs input budget) ≡ₚ all_matches find_iter (str_bytes input) packs) as Hc.
  { intros ps. rewrite match_all_take. simpl. intros [[H1 H2]%orb_false_iff H3]%orb_false_iff.
    apply Nat.ltb_ge in H1, H2. apply Nat.leb_gt in H3. rewrite sort_by_perm.
    rewrite take_ge by lia. rewrite (take_ge ps) by done.
    replace (Nat.min (length (str_bytes input)) (max_input_bytes budget))
      with (length (str_bytes input)) by lia.
    by rewrite clamp_whole, take_ge. }
  intros out. split_and!.
  - unfold out. rewrite match_all_take. simpl.
    apply sort_by_sorted; [apply match_leb_total|apply match_leb_trans].
  - unfold out. rewrite match_all_take. cbn [matches]. rewrite sort_by_perm, length_take. lia.
  - intros Ht. split; [by apply Hc|]. intros extra Ht' m Hm. unfold out in *.
    rewrite (Hc _ Ht) in Hm. rewrite (Hc _ Ht'). unfold all_matches in *.
    rewrite bind_app. apply elem_of_app. by left.
Qed.

(** ** A concrete engine for the witnesses: literal patterns *)
Module Literal.
(** Where a literal first occurs, as a regex without metacharacters finds it. *)
Fixpoint find_from (pattern : string) (i : nat) (s : string) : list (nat * nat) :=
  if starts_with s pattern then [(i, i + String.length pattern)]
  else match s with EmptyString => [] | String _ s' => find_from pattern (S i) s' end.
Definition build (pattern : string) : result string regex_error := Ok pattern.
Definition find_iter (pattern s : string) : list (nat * nat) := find_from pattern 0 s.
Definition is_match (pattern s : string) : bool := negb (bool_decide (find_iter pattern s = [])).

Definition card_rule : PatternRule.t :=
  PatternRule.mk "card" "payment card" "4111111111111111" (Some ValidatorId.LuhnV1) RuleConfidence.High
    ["4111111111111111"] ["card 4111111111111111"].
Definition card_pack : PatternPack.t := PatternPack.mk "1" "cards" "1.0.0" "Cards" [] [] [card_rule].
Definition card_validated : @ValidatedPack string :=
  mkValidated "cards" "1.0.0" "Cards" [] []
    [mkCompiled "card" "payment card" "4111111111111111" (Some ValidatorId.LuhnV1) RuleConfidence.High].
End Literal.

Lemma validated_pack_conforms_witness :
  NoDup (PatternRule.name <$> PatternPack.rules Literal.card_pack).
Proof.
  apply (validated_pack_conforms Literal.build Literal.is_match Literal.card_pack Literal.card_validated).
  vm_compute. reflexivity.
Defined.

Lemma untruncated_is_complete_witness :
  matches (match_all Literal.find_iter [Literal.card_validated] "4111111111111111" default_budget) ≡ₚ
  all_matches Literal.find_iter (str_bytes "4111111111111111") [Literal.card_validated].
Proof.
  apply (untruncated_is_complete Literal.find_iter [Literal.card_validated] "4111111111111111" default_budget).
  vm_compute. reflexivity.
Defined.

(** The negative vectors are validated as a whole, but a match is validated on its
    own span: a pack can pass validation and still report its negative vector. *)
Lemma negative_vector_can_match :
  validate_pack Literal.build Literal.is_match Literal.card_pack = Ok Literal.card_validated ∧
  "card 4111111111111111" ∈ PatternRule.examples_invalid Literal.card_rule ∧
  length (matches (match_all Literal.find_iter [Literal.card_validated] "card 4111111111111111"
                     default_budget)) = 1.
Proof. split_and!; [vm_compute; reflexivity|by left|vm_compute; reflexivity]. Qed.

(** With a budget of zero matches, one match is returned. *)
Lemma zero_budget_returns_one :
  length (matches (match_all Literal.find_iter [Literal.card_validated] "4111111111111111"
                     (mkBudget 0 1000))) = 1.
Proof. vm_compute. reflexivity. Qed.
