(* ===== verification/Agents.v ===== *)
(** * sv-core/src/agents.rs: the agent identity registry

    [agents.json] holds one record per agent under an HMAC tag.  The state is what
    is on disk at the vault root; each call reads, checks, changes and atomically
    replaces the file.  Serde, HMAC-SHA256, the clock and the random generator are
    parameters; a call's environment also says where its I/O fails, if it does.
    The temporary file a write goes through is not part of the state. *)
From Stdlib Require Import ZifyN ZifyNat ZifyBool.
From stdpp Require Import pretty.
From S2P Require Import Prelude Token.

Ltac Zify.zify_post_hook ::= Z.div_mod_to_equations.

Definition AGENTS_SCHEMA : N := 2.
Definition HMAC_DOMAIN : list N := str_bytes "sovereign-vault/agent-registry/v2" ++ [0%N].
Definition DEFAULT_AGENT_NAME : string := "Default".

(** The variants of [CoreError] these functions return, and a panic of the thread. *)
Inductive failure :=
| Misuse (message : string)
| Io
| Crypto
| Panicked.

#[global] Instance failure_eq_dec : EqDecision failure.
Proof. solve_decision. Defined.

Module AgentScope.
Record t := mk {
  container_glob : string;
  actions : list string;
  mode_ceiling : option string
}.
#[global] Instance t_eq_dec : EqDecision t.
Proof. solve_decision. Defined.
#[global] Instance t_countable : Countable t.
Proof.
  refine (inj_countable' (λ s, (container_glob s, actions s, mode_ceiling s))
    (λ '(a, b, c), mk a b c) _). by intros [].
Defined.
End AgentScope.

Module AgentRecord.
Record t := mk {
  agent_id : string;
  name : string;
  token_hash : string;
  created_at : Z;
  expires_at : option Z;
  revoked : bool;
  scopes : list AgentScope.t
}.
#[global] Instance t_eq_dec : EqDecision t.
Proof. solve_decision. Defined.

Definition revoke (r : t) : t :=
  mk (agent_id r) (name r) (token_hash r) (created_at r) (expires_at r) true (scopes r).
(** [existing.token_hash = hash; existing.revoked = false]. *)
Definition renew (r : t) (hash : string) : t :=
  mk (agent_id r) (name r) hash (created_at r) (expires_at r) false (scopes r).
End AgentRecord.

Module AgentImportEntry.
Record t := mk { name : string; scopes : list AgentScope.t }.
End AgentImportEntry.

Module ImportedAgent.
Record t := mk { name : string; agent_id : string; one_time_token : string }.
End ImportedAgent.

Module AgentImportResult.
Record t := mk { imported : list ImportedAgent.t; skipped : list string; revoked : list string }.
End AgentImportResult.

Module AgentsFile.
Record t := mk { schema : N; agents : list AgentRecord.t; integrity : string }.
#[global] Instance t_eq_dec : EqDecision t.
Proof. solve_decision. Defined.

Definition default : t := mk AGENTS_SCHEMA [] "".
Definition with_agents (f : t) (l : list AgentRecord.t) : t := mk (schema f) l (integrity f).
End AgentsFile.

(** ** Hexadecimal *)

Definition hex_digit (n : N) : N := if (n <? 10)%N then (48 + n)%N else (97 + (n - 10))%N.

(** [format!("{b:02x}")] of every byte. *)
Definition to_hex (bytes : list N) : string :=
  str_of_bytes (concat ((λ b, [hex_digit (b / 16); hex_digit (b mod 16)]%N) <$> bytes)).

(** [char::to_digit(16)]. *)
Definition hex_value (c : N) : option N :=
  if is_ascii_digit c then Some (c - 48)%N
  else if ((97 <=? c) && (c <=? 102))%N then Some (c - 97 + 10)%N
  else if ((65 <=? c) && (c <=? 70))%N then Some (c - 65 + 10)%N
  else None.

(** [u8::from_str_radix(pair, 16)], which accepts a leading plus sign. *)
Definition from_str_radix_16 (a b : N) : option N :=
  if (a =? 43)%N then hex_value b
  else hi ← hex_value a; lo ← hex_value b; Some (hi * 16 + lo)%N.

Definition BAD_HEX : failure := Misuse "invalid hex integrity tag".

(** The pairs [&hex[i..i + 2]]: slicing inside a multi-byte character panics. *)
Fixpoint hex_pairs (bytes : list N) : result (list N) failure :=
  match bytes with
  | [] => Ok []
  | a :: b :: rest =>
      if is_continuation a || match rest with c :: _ => is_continuation c | [] => false end
      then Err Panicked
      else
        let? v := ok_or (from_str_radix_16 a b) BAD_HEX in
        let? vs := hex_pairs rest in
        Ok (v :: vs)
  | [_] => Err BAD_HEX
  end.

Definition hex_decode (hex : string) : result (list N) failure :=
  if negb (length (str_bytes hex) mod 2 =? 0) then Err BAD_HEX else hex_pairs (str_bytes hex).

(** ** The file *)

(** What is at [root/agents.json]; [NotRegular] is a symbolic link or a directory. *)
Inductive file_state := Missing | Regular (bytes : list N) | NotRegular.

Inductive dir_state := DirMissing | DirReal | DirOther.

Module Root.
Record t := mk { dir : dir_state; file : file_state }.
End Root.

(** Where a write fails: before the atomic replacement, or after it (syncing the
    directory). *)
Inductive write_fault := NoFault | BeforeReplace (e : failure) | AfterReplace (e : failure).

Module Env.
Record t := mk {
  read_fault : option failure;
  write_fault : write_fault;
  now : Z;
  random : nat → option (list N)      (* the results of successive draws *)
}.
End Env.

Section registry.
Context (from_slice : list N → result AgentsFile.t string).
Context (to_vec_pretty : AgentsFile.t → list N).
Context (to_vec : N → list AgentRecord.t → list N).
Context (hmac : list N → list N → list N).
Context (show_path : string).

Definition mac_of (key : list N) (schema : N) (agents : list AgentRecord.t) : list N :=
  hmac key (HMAC_DOMAIN ++ to_vec schema agents).

Definition compute_integrity (key : list N) (schema : N) (agents : list AgentRecord.t) : string :=
  to_hex (mac_of key schema agents).

Definition MISMATCH : failure :=
  Misuse "agents.json: integrity tag mismatch (file may be corrupted or tampered; re-pair the agent registry)".

Definition verify_integrity (key : list N) (schema : N) (agents : list AgentRecord.t)
    (tag_hex : string) : result unit failure :=
  let? tag := hex_decode tag_hex in
  if bool_decide (tag = mac_of key schema agents) then Ok tt else Err MISMATCH.

(** [ensure_directory(root, "vault root")]. *)
Definition ensure_directory (root : Root.t) : result unit failure :=
  match Root.dir root with
  | DirMissing => Err (Misuse ("vault root does not exist: " +:+ show_path))
  | DirOther => Err (Misuse ("vault root is not a real directory: " +:+ show_path))
  | DirReal => Ok tt
  end.

(** The refusal of [ensure_regular_file]. *)
Definition not_regular (label : string) : failure :=
  Misuse (label +:+ (" is not a regular file: " +:+ show_path)).

Definition read_file (env : Env.t) (root : Root.t) (key : list N) : result AgentsFile.t failure :=
  let? _ := ensure_directory root in
    match Root.file root with
    | Missing => Ok AgentsFile.default
    | NotRegular => Err (not_regular "agent registry")
    | Regular raw =>
        match Env.read_fault env with
        | Some e => Err e
        | None =>
            let? file := match from_slice raw with
                         | Ok f => Ok f
                         | Err e => Err (Misuse ("agents.json: " +:+ e))
                         end in
            if (AgentsFile.schema file =? 1)%N then
              Err (Misuse "agents.json: schema v1 is no longer supported; re-pair the agent registry")
            else if (AgentsFile.schema file =? 2)%N then
              if bool_decide (AgentsFile.integrity file = "") then
                Err (Misuse "agents.json: missing integrity tag; re-pair the agent registry")
              else
                let? _ := verify_integrity key (AgentsFile.schema file) (AgentsFile.agents file)
                            (AgentsFile.integrity file) in
                Ok file
            else Err (Misuse ("agents.json: unsupported schema version " +:+ pretty (AgentsFile.schema file)))
        end
    end.

(** [write_file]: the root after the call, and its result. *)
Definition write_file (env : Env.t) (root : Root.t) (key : list N) (file : AgentsFile.t) :
    Root.t * result unit failure :=
  match ensure_directory root with
  | Err e => (root, Err e)
  | Ok _ =>
    let integrity := compute_integrity key (AgentsFile.schema file) (AgentsFile.agents file) in
    let bytes := to_vec_pretty (AgentsFile.mk (AgentsFile.schema file) (AgentsFile.agents file) integrity) in
    match Root.file root with
    | NotRegular => (root, Err (not_regular "agent registry destination"))
    | Missing | Regular _ =>
        match Env.write_fault env with
        | BeforeReplace e => (root, Err e)
        | NoFault => (Root.mk (Root.dir root) (Regular bytes), Ok tt)
        | AfterReplace e => (Root.mk (Root.dir root) (Regular bytes), Err e)
        end
    end
  end.

(** [token_hash], [fresh_agent_id] and [fresh_token]. *)
Definition token_hash (key : list N) (token : string) : string := to_hex (hmac key (str_bytes token)).

Definition fresh_agent_id (draw : option (list N)) : result string failure :=
  let? bytes := ok_or draw Crypto in Ok ("ag_" +:+ to_hex bytes).

Definition fresh_token (draw : option (list N)) : result string failure :=
  let? bytes := ok_or draw Crypto in Ok (base64url_encode bytes).

(** ** The public operations *)

(** [let .. = f()?; .. write_file(..)?]: nothing is written when [f] fails. *)
Definition finish_write {A} (env : Env.t) (root : Root.t) (key : list N) (file : AgentsFile.t) (v : A) :
    Root.t * result A failure :=
  let '(root', r) := write_file env root key file in
  (root', let? _ := r in Ok v).

Definition create_agent (env : Env.t) (root : Root.t) (key : list N) (name : string)
    (scopes : list AgentScope.t) : Root.t * result (string * string) failure :=
  match (let? file := read_file env root key in
         let? agent_id := fresh_agent_id (Env.random env 0) in
         let? token := fresh_token (Env.random env 1) in
         Ok (file, agent_id, token)) with
  | Err e => (root, Err e)
  | Ok (file, agent_id, token) =>
      let record := AgentRecord.mk agent_id name (token_hash key token) (Env.now env) None false scopes in
      finish_write env root key
        (AgentsFile.with_agents file (AgentsFile.agents file ++ [record])) (agent_id, token)
  end.

(** The batch validation: no empty name, no duplicate. *)
Fixpoint check_entries (names : gset string) (entries : list AgentImportEntry.t) : result unit failure :=
  match entries with
  | [] => Ok tt
  | entry :: entries' =>
      let name := AgentImportEntry.name entry in
      reject_if (bool_decide (name = "")) (Misuse "agent.name must not be empty")
      (reject_if (bool_decide (name ∈ names)) (Misuse ("agent import contains duplicate name: " +:+ name))
       (check_entries ({[name]} ∪ names) entries'))
  end.

Definition has_name (name : string) (a : AgentRecord.t) : bool := bool_decide (AgentRecord.name a = name).

(** One iteration of the import loop, with the index of its first random draw. *)
Definition import_entry (env : Env.t) (key : list N) (replace_existing : bool) (k : nat)
    (agents : list AgentRecord.t) (res : AgentImportResult.t) (entry : AgentImportEntry.t) :
    result (nat * list AgentRecord.t * AgentImportResult.t) failure :=
  let name := AgentImportEntry.name entry in
  let has_existing := existsb (has_name name) agents in
  if has_existing && negb replace_existing then
    Ok (k, agents, AgentImportResult.mk (AgentImportResult.imported res)
                     (AgentImportResult.skipped res ++ [name]) (AgentImportResult.revoked res))
  else
    let agents1 := (λ a, if has_name name a then AgentRecord.revoke a else a) <$> agents in
    let revoked1 := if has_existing then AgentImportResult.revoked res ++ [name]
                    else AgentImportResult.revoked res in
    let? agent_id := fresh_agent_id (Env.random env k) in
    let? token := fresh_token (Env.random env (S k)) in
    Ok (S (S k),
        agents1 ++ [AgentRecord.mk agent_id name (token_hash key token) (Env.now env) None false
                      (AgentImportEntry.scopes entry)],
        AgentImportResult.mk
          (AgentImportResult.imported res ++ [ImportedAgent.mk name agent_id token])
          (AgentImportResult.skipped res) revoked1).

Fixpoint import_loop (env : Env.t) (key : list N) (replace_existing : bool) (k : nat)
    (agents : list AgentRecord.t) (res : AgentImportResult.t) (entries : list AgentImportEntry.t) :
    result (list AgentRecord.t * AgentImportResult.t) failure :=
  match entries with
  | [] => Ok (agents, res)
  | entry :: entries' =>
      let? (k', agents', res') := import_entry env key replace_existing k agents res entry in
      import_loop env key replace_existing k' agents' res' entries'
  end.

Definition import_agents_atomically (env : Env.t) (root : Root.t) (key : list N)
    (entries : list AgentImportEntry.t) (replace_existing : bool) :
    Root.t * result AgentImportResult.t failure :=
  match (let? _ := check_entries ∅ entries in
         let? file := read_file env root key in
         let? (agents, res) := import_loop env key replace_existing 0 (AgentsFile.agents file)
                                  (AgentImportResult.mk [] [] []) entries in
         Ok (AgentsFile.with_agents file agents, res)) with
  | Err e => (root, Err e)
  | Ok (file, res) => finish_write env root key file res
  end.

(** [iter_mut().find(p)] and an update of what it finds. *)
Fixpoint update_first (p : AgentRecord.t → bool) (f : AgentRecord.t → AgentRecord.t)
    (l : list AgentRecord.t) : option (list AgentRecord.t) :=
  match l with
  | [] => None
  | a :: l' => if p a then Some (f a :: l') else cons a <$> update_first p f l'
  end.

Definition ensure_default_agent (env : Env.t) (root : Root.t) (key : list N) (pairing_secret : string) :
    Root.t * result unit failure :=
  match read_file env root key with
  | Err e => (root, Err e)
  | Ok file =>
      let new_hash := token_hash key pairing_secret in
      match update_first (has_name DEFAULT_AGENT_NAME) (λ a, AgentRecord.renew a new_hash)
              (AgentsFile.agents file) with
      | Some agents => write_file env root key (AgentsFile.with_agents file agents)
      | None =>
          match fresh_agent_id (Env.random env 0) with
          | Err e => (root, Err e)
          | Ok agent_id =>
              write_file env root key (AgentsFile.with_agents file (AgentsFile.agents file ++
                [AgentRecord.mk agent_id DEFAULT_AGENT_NAME new_hash (Env.now env) None false []]))
          end
      end
  end.

Definition list_agents (env : Env.t) (root : Root.t) (key : list N) :
    result (list AgentRecord.t) failure :=
  let? file := read_file env root key in Ok (AgentsFile.agents file).

Definition has_id (agent_id : string) (a : AgentRecord.t) : bool :=
  bool_decide (AgentRecord.agent_id a = agent_id).

Definition revoke_agent (env : Env.t) (root : Root.t) (key : list N) (agent_id : string) :
    Root.t * result unit failure :=
  match read_file env root key with
  | Err e => (root, Err e)
  | Ok file =>
      match update_first (has_id agent_id) AgentRecord.revoke (AgentsFile.agents file) with
      | None => (root, Err (Misuse ("unknown agent: " +:+ agent_id)))
      | Some agents => write_file env root key (AgentsFile.with_agents file agents)
      end
  end.

Definition authenticate (env : Env.t) (root : Root.t) (key : list N) (agent_id token : string) :
    result AgentRecord.t failure :=
  let? file := read_file env root key in
  let? record := ok_or (List.find (has_id agent_id) (AgentsFile.agents file)) (Misuse "unknown agent") in
  reject_if (AgentRecord.revoked record) (Misuse "agent revoked")
  (reject_if (is_some_and (AgentRecord.expires_at record) (λ expiry, (expiry <=? Env.now env)%Z))
     (Misuse "agent expired")
  (if bool_decide (str_bytes (token_hash key token) = str_bytes (AgentRecord.token_hash record))
   then Ok record else Err (Misuse "invalid token"))).
End registry.

(** ** Hexadecimal round trip *)

Lemma hex_value_digit n : (n < 16)%N → hex_value (hex_digit n) = Some n ∧ hex_digit n ≠ 43%N ∧
  is_continuation (hex_digit n) = false ∧ (hex_digit n < 256)%N.
Proof.
  intros Hn. unfold hex_value, hex_digit, is_ascii_digit, is_continuation.
  destruct (N.ltb_spec n 10);
    repeat match goal with |- context [if ?b then _ else _] => destruct b eqn:? end;
    split_and!; try f_equal; lia.
Qed.

Lemma hex_pairs_of bytes :
  Forall (λ b, (b < 256)%N) bytes →
  hex_pairs (concat ((λ b, [hex_digit (b / 16); hex_digit (b mod 16)]%N) <$> bytes)) = Ok bytes.
Proof.
  induction 1 as [|b bytes Hb Hbs IH]; [done|]. cbn [fmap list_fmap concat app].
  destruct (hex_value_digit (b / 16)) as (H1 & H2 & H3 & _); [lia|].
  destruct (hex_value_digit (b mod 16)) as (H4 & _); [lia|].
  set (rest := concat _) in *. cbn [hex_pairs]. rewrite H3.
  assert (match rest with c :: _ => is_continuation c | [] => false end = false) as ->.
  { unfold rest. destruct Hbs as [|c bytes' Hc _]; [done|]. cbn. apply hex_value_digit. lia. }
  cbn [orb]. unfold from_str_radix_16. rewrite (proj2 (N.eqb_neq _ _) H2), H1. cbn [mbind option_bind].
  rewrite H4. cbn [mbind option_bind ok_or rbind]. rewrite IH. cbn [rbind]. f_equal. f_equal. lia.
Qed.

Lemma length_hex_bytes (bytes : list N) :
  length (concat ((λ b, [hex_digit (b / 16); hex_digit (b mod 16)]%N) <$> bytes)) = 2 * length bytes.
Proof. induction bytes as [|b bytes IH]; [done|]. cbn [fmap list_fmap concat app length]. rewrite IH. lia. Qed.

Lemma hex_bytes_lt bytes :
  Forall (λ b, (b < 256)%N) bytes →
  Forall (λ b, (b < 256)%N) (concat ((λ b, [hex_digit (b / 16); hex_digit (b mod 16)]%N) <$> bytes)).
Proof.
  intros Hb. apply Forall_concat, Forall_fmap. eapply Forall_impl; [exact Hb|]. intros b Hlt. cbn in *.
  rewrite !Forall_cons. split_and!; [apply hex_value_digit; lia..|constructor].
Qed.

Lemma hex_round_trip bytes : Forall (λ b, (b < 256)%N) bytes → hex_decode (to_hex bytes) = Ok bytes.
Proof.
  intros Hb. unfold hex_decode, to_hex. rewrite str_bytes_of_bytes by (by apply hex_bytes_lt).
  rewrite length_hex_bytes. replace (2 * length bytes mod 2 =? 0) with true by lia.
  by apply hex_pairs_of.
Qed.

(** ** Reading back what was written *)

Section refinement.
Context (from_slice : list N → result AgentsFile.t string).
Context (to_vec_pretty : AgentsFile.t → list N).
Context (to_vec : N → list AgentRecord.t → list N).
Context (hmac : list N → list N → list N).
Context (show_path : string).
(** Serde reads back what it writes, and HMAC-SHA256 gives 32 bytes. *)
Context (serde_round_trip : ∀ f, from_slice (to_vec_pretty f) = Ok f).
Context (hmac_32 : ∀ k m, byte_array 32 (hmac k m)).

Abbreviation read_file := (read_file from_slice to_vec hmac show_path).
Abbreviation write_file := (write_file to_vec_pretty to_vec hmac show_path).
Abbreviation finish_write := (finish_write to_vec_pretty to_vec hmac show_path).
Abbreviation create_agent := (create_agent from_slice to_vec_pretty to_vec hmac show_path).
Abbreviation import_agents_atomically :=
  (import_agents_atomically from_slice to_vec_pretty to_vec hmac show_path).
Abbreviation ensure_default_agent := (ensure_default_agent from_slice to_vec_pretty to_vec hmac show_path).
Abbreviation revoke_agent := (revoke_agent from_slice to_vec_pretty to_vec hmac show_path).
Abbreviation authenticate := (authenticate from_slice to_vec hmac show_path).
Abbreviation list_agents := (list_agents from_slice to_vec hmac show_path).

Lemma to_hex_nonempty k m : to_hex (hmac k m) ≠ "".
Proof.
  destruct (hmac_32 k m) as [Hl Hb]. intros E. pose proof (hex_round_trip _ Hb) as Hr.
  rewrite E in Hr. cbn in Hr. injection Hr as Hr. rewrite <-Hr in Hl. done.
Qed.

(** Every registry that reads back has schema 2. *)
Lemma read_schema env root key f : read_file env root key = Ok f → AgentsFile.schema f = 2%N.
Proof.
  unfold Agents.read_file. destruct (ensure_directory show_path root); cbn; [|done].
  destruct (Root.file root) as [|raw|]; [by intros [= <-]| |done].
  destruct (Env.read_fault env); [done|]. destruct (from_slice raw) as [f'|]; cbn; [|done].
  destruct (_ =? 1)%N; [done|]. destruct (N.eqb_spec (AgentsFile.schema f') 2); [|done].
  case_bool_decide; [done|]. destruct (verify_integrity _ _ _ _ _ _) as [[]|]; cbn; [|done].
  by intros [= <-].
Qed.

(** A write that took effect, with or without an error after the replacement. *)
Lemma write_view env root key f root' r :
  write_file env root key f = (root', r) → AgentsFile.schema f = 2%N →
  (root' = root ∧ ∃ e, r = Err e) ∨
  ((r = Ok tt ∨ ∃ e, Env.write_fault env = AfterReplace e ∧ r = Err e) ∧
   ∀ env', Env.read_fault env' = None →
     ∃ f', read_file env' root' key = Ok f' ∧ AgentsFile.agents f' = AgentsFile.agents f).
Proof.
  unfold Agents.write_file. intros H Hs.
  destruct (ensure_directory show_path root) as [[]|e] eqn:Hd; [|left; simplify_eq; eauto].
  assert (∀ env', Env.read_fault env' = None → ∃ f',
    read_file env' (Root.mk (Root.dir root) (Regular (to_vec_pretty (AgentsFile.mk (AgentsFile.schema f)
      (AgentsFile.agents f) (compute_integrity to_vec hmac key (AgentsFile.schema f) (AgentsFile.agents f))))))
      key = Ok f' ∧ AgentsFile.agents f' = AgentsFile.agents f) as Hread.
  { intros env' Hf. unfold Agents.read_file. change (ensure_directory show_path (Root.mk (Root.dir root) ?x))
      with (ensure_directory show_path root). rewrite Hd. cbn. rewrite Hf, serde_round_trip. cbn.
    rewrite Hs. cbn. rewrite bool_decide_eq_false_2 by apply to_hex_nonempty.
    unfold verify_integrity, compute_integrity, mac_of. rewrite hex_round_trip by apply hmac_32. cbn.
    rewrite bool_decide_eq_true_2 by done. cbn. eauto. }
  destruct (Root.file root); [| |left; simplify_eq; eauto];
    (destruct (Env.write_fault env) as [|e|e]; simplify_eq;
      [right; split; [by left|done]|left; eauto|right; split; [right; eauto|done]]).
Qed.

Lemma list_of_read env root key f :
  read_file env root key = Ok f → list_agents env root key = Ok (AgentsFile.agents f).
Proof. unfold Agents.list_agents. by intros ->. Qed.

Lemma read_env env env' root key f :
  read_file env root key = Ok f → Env.read_fault env' = None → read_file env' root key = Ok f.
Proof.
  unfold Agents.read_file. intros H Hf. destruct (ensure_directory show_path root); cbn in *; [|done].
  destruct (Root.file root); [done| |done]. rewrite Hf. by destruct (Env.read_fault env).
Qed.

(** ** Looking up a record through the changes a call makes *)

Lemma find_app id l r :
  List.find (has_id id) (l ++ r) =
  match List.find (has_id id) l with Some a => Some a | None => List.find (has_id id) r end.
Proof. induction l as [|a l IH]; simpl; [done|]. by destruct (has_id id a). Qed.

Lemma find_fmap id g l :
  (∀ a, AgentRecord.agent_id (g a) = AgentRecord.agent_id a) →
  List.find (has_id id) (g <$> l) = g <$> List.find (has_id id) l.
Proof.
  intros Hg. induction l as [|a l IH]; [done|]. cbn. unfold has_id at 1 3. rewrite Hg.
  by destruct (bool_decide _).
Qed.

Lemma find_update id p g l l' rec :
  update_first p g l = Some l' → List.find (has_id id) l = Some rec →
  (∀ a, AgentRecord.agent_id (g a) = AgentRecord.agent_id a) →
  List.find (has_id id) l' = Some rec ∨ (p rec = true ∧ List.find (has_id id) l' = Some (g rec)).
Proof.
  intros Hu Hr Hg. revert l' Hu Hr. induction l as [|a l IH]; intros l'; cbn; [done|].
  destruct (p a) eqn:Hp.
  - intros [= <-]. cbn. unfold has_id at 1 2 3 5. rewrite Hg. case_bool_decide; [|by left].
    intros [= <-]. by right.
  - destruct (update_first p g l) as [l1|]; cbn; [|done]. intros [= <-]. cbn.
    destruct (has_id id a); [by left|]. by apply IH.
Qed.

Lemma update_first_none p g l : update_first p g l = None → ∀ a, a ∈ l → p a = false.
Proof.
  induction l as [|a l IH]; cbn; [by intros _ ? ?%elem_of_nil|].
  destruct (p a) eqn:Hp; [done|]. destruct (update_first p g l); [done|].
  intros _ b [->|Hb]%elem_of_cons; [done|]. by apply IH.
Qed.

(** A revoked record that is not the default agent's stays revoked in [l']. *)
Definition keeps_revoked (id : string) (l l' : list AgentRecord.t) : Prop :=
  ∀ rec, List.find (has_id id) l = Some rec → AgentRecord.revoked rec = true →
    AgentRecord.name rec ≠ DEFAULT_AGENT_NAME →
    ∃ rec', List.find (has_id id) l' = Some rec' ∧ AgentRecord.revoked rec' = true ∧
      AgentRecord.name rec' ≠ DEFAULT_AGENT_NAME.

#[local] Instance keeps_revoked_trans id : Transitive (keeps_revoked id).
Proof.
  intros l1 l2 l3 H12 H23 rec Hf Hr Hn. destruct (H12 rec Hf Hr Hn) as (rec' & ? & ? & ?). eauto.
Qed.

Lemma keeps_app id l r : keeps_revoked id l (l ++ r).
Proof. intros rec Hf Hr Hn. exists rec. by rewrite find_app, Hf. Qed.

Lemma keeps_fmap id (p : AgentRecord.t → bool) l :
  keeps_revoked id l ((λ a, if p a then AgentRecord.revoke a else a) <$> l).
Proof.
  intros rec Hf Hr Hn. rewrite find_fmap by (intros a; by destruct (p a)). rewrite Hf. cbn.
  eexists. split; [done|]. by destruct (p rec).
Qed.

Lemma keeps_import env key replace k l res entries l' res' id :
  import_loop hmac env key replace k l res entries = Ok (l', res') → keeps_revoked id l l'.
Proof.
  revert k l res. induction entries as [|entry entries IH]; intros k l res; cbn.
  - intros [= <- <-] rec. eauto.
  - destruct (import_entry _ _ _ _ _ _ _ _) as [[[k1 l1] res1]|] eqn:He; cbn; [|done].
    intros Hl. etrans; [|by eapply IH]. unfold import_entry in He.
    destruct (_ && _); [simplify_eq; intros rec; eauto|]. inv_result. simplify_eq.
    etrans; [apply keeps_fmap|apply keeps_app].
Qed.

(** ** Histories *)

Inductive agent_op :=
| OpCreate (env : Env.t) (name : string) (scopes : list AgentScope.t)
| OpImport (env : Env.t) (entries : list AgentImportEntry.t) (replace_existing : bool)
| OpEnsureDefault (env : Env.t) (pairing_secret : string)
| OpRevoke (env : Env.t) (agent_id : string).

Definition apply_agent_op (key : list N) (root : Root.t) (op : agent_op) : Root.t :=
  match op with
  | OpCreate env name scopes => (create_agent env root key name scopes).1
  | OpImport env entries replace => (import_agents_atomically env root key entries replace).1
  | OpEnsureDefault env secret => (ensure_default_agent env root key secret).1
  | OpRevoke env id => (revoke_agent env root key id).1
  end.

(** Every call keeps the file or writes records derived from the ones it read. *)
Lemma apply_agent_op_cases key root op :
  apply_agent_op key root op = root ∨
  ∃ env f l, read_file env root key = Ok f ∧ (∀ id, keeps_revoked id (AgentsFile.agents f) l) ∧
    ∀ env', Env.read_fault env' = None →
      ∃ f', read_file env' (apply_agent_op key root op) key = Ok f' ∧ AgentsFile.agents f' = l.
Proof.
  assert (∀ env f l root' r, read_file env root key = Ok f →
    (∀ id, keeps_revoked id (AgentsFile.agents f) l) →
    write_file env root key (AgentsFile.with_agents f l) = (root', r) →
    root' = root ∨ ∃ env f l, read_file env root key = Ok f ∧
      (∀ id, keeps_revoked id (AgentsFile.agents f) l) ∧
      ∀ env', Env.read_fault env' = None →
        ∃ f', read_file env' root' key = Ok f' ∧ AgentsFile.agents f' = l) as Hw.
  { intros env f l root' r Hread Hk Hwrite.
    destruct (write_view _ _ _ _ _ _ Hwrite (read_schema _ _ _ _ Hread)) as [[-> _]|[_ Hv]];
      [by left|]. right. exists env, f, l. auto. }
  destruct op as [env name scopes|env entries replace|env secret|env id]; cbn [apply_agent_op].
  - unfold Agents.create_agent. destruct (read_file env root key) as [f|] eqn:Hf; cbn [rbind]; [|by left].
    destruct (fresh_agent_id _) as [id|]; cbn [rbind]; [|by left].
    destruct (fresh_token _) as [tok|]; cbn [rbind]; [|by left]. unfold Agents.finish_write.
    destruct (write_file _ _ _ _) as [root' r] eqn:Hwr. eapply Hw; [done| |done].
    intros id'. apply keeps_app.
  - unfold Agents.import_agents_atomically. destruct (check_entries _ _) as [[]|]; cbn [rbind]; [|by left].
    destruct (read_file env root key) as [f|] eqn:Hf; cbn [rbind]; [|by left].
    destruct (import_loop _ _ _ _ _ _ _ _) as [[l res]|] eqn:Hl; cbn [rbind]; [|by left].
    unfold Agents.finish_write. destruct (write_file _ _ _ _) as [root' r] eqn:Hwr.
    eapply Hw; [done| |done]. intros id'. by eapply keeps_import.
  - unfold Agents.ensure_default_agent. destruct (read_file env root key) as [f|] eqn:Hf; [|by left].
    destruct (update_first _ _ _) as [l|] eqn:Hu.
    + destruct (write_file _ _ _ _) as [root' r] eqn:Hwr. eapply Hw; [done| |done].
      intros id' rec Hr Hrv Hn. destruct (find_update id' _ _ _ _ _ Hu Hr (λ _, eq_refl)) as [?|[Hd _]]; [eauto|].
      by apply bool_decide_eq_true_1 in Hd.
    + destruct (fresh_agent_id _) as [id|]; [|by left].
      destruct (write_file _ _ _ _) as [root' r] eqn:Hwr. eapply Hw; [done| |done].
      intros id'. apply keeps_app.
  - unfold Agents.revoke_agent. destruct (read_file env root key) as [f|] eqn:Hf; [|by left].
    destruct (update_first _ _ _) as [l|] eqn:Hu; [|by left].
    destruct (write_file _ _ _ _) as [root' r] eqn:Hwr. eapply Hw; [done| |done].
    intros id' rec Hr Hrv Hn. destruct (find_update id' _ _ _ _ _ Hu Hr (λ _, eq_refl)) as [?|[_ ?]]; eauto.
Qed.

Definition revoked_on_disk (key : list N) (id : string) (root : Root.t) : Prop :=
  ∀ env, Env.read_fault env = None →
    ∃ f rec, read_file env root key = Ok f ∧ List.find (has_id id) (AgentsFile.agents f) = Some rec ∧
      AgentRecord.revoked rec = true ∧ AgentRecord.name rec ≠ DEFAULT_AGENT_NAME.

Lemma apply_agent_op_revoked key id root op :
  revoked_on_disk key id root → revoked_on_disk key id (apply_agent_op key root op).
Proof.
  intros Hr. destruct (apply_agent_op_cases key root op) as [->|(env & f & l & Hf & Hk & Hv)]; [done|].
  intros env' He'. destruct (Hv env' He') as (f' & Hf' & Hl). destruct (Hr env' He') as (f0 & rec & H0 & Hrec & Hrv & Hn).
  rewrite (read_env _ _ _ _ _ Hf He') in H0. injection H0 as <-.
  destruct (Hk id rec Hrec Hrv Hn) as (rec' & Hrec' & ? & ?). exists f', rec'. by rewrite Hl.
Qed.

(** ** What an import does *)

Definition import_names (entries : list AgentImportEntry.t) : list string :=
  AgentImportEntry.name <$> entries.

Lemma check_entries_Ok names entries :
  check_entries names entries = Ok tt →
  NoDup (import_names entries) ∧ (∀ n, n ∈ import_names entries → n ∉ names ∧ n ≠ "").
Proof.
  revert names. induction entries as [|e entries IH]; intros names; cbn.
  - intros _. split; [constructor|]. by intros n ?%elem_of_nil.
  - intros H. inv_result. to_prop. destruct (IH _ H) as [Hnd Hin]. split.
    + constructor; [|done]. intros Hx. destruct (Hin _ Hx). set_solver.
    + intros n [->|Hn]%elem_of_cons; [done|]. destruct (Hin n Hn). split; [set_solver|done].
Qed.

(** The agents after an import of [entries] over [old]: with replacement the old
    records of imported names are revoked; the fresh ones follow. *)
Definition imported_over (replace : bool) (names : list string) (old fresh : list AgentRecord.t) :
    list AgentRecord.t :=
  ((λ a, if replace && bool_decide (AgentRecord.name a ∈ names) then AgentRecord.revoke a else a) <$> old)
  ++ fresh.

(** The names that get a fresh credential. *)
Definition fresh_names (replace : bool) (old : list AgentRecord.t) (names : list string) : list string :=
  List.filter (λ n, replace || negb (existsb (has_name n) old)) names.

Lemma existsb_has_name_over replace done_ old fresh n :
  n ∉ AgentRecord.name <$> fresh →
  existsb (has_name n) (imported_over replace done_ old fresh) = existsb (has_name n) old.
Proof.
  intros Hn. unfold imported_over. rewrite existsb_app.
  replace (existsb (has_name n) fresh) with false.
  - rewrite orb_false_r. induction old as [|a old IH]; [done|]. cbn. rewrite IH. f_equal.
    unfold has_name. by destruct (_ && _).
  - symmetry. apply existsb_none. intros a Ha. unfold has_name. apply bool_decide_eq_false_2.
    intros E. apply Hn. rewrite <-E. by apply list_elem_of_fmap_2.
Qed.

Lemma revoke_named_over replace done_ old fresh n :
  n ∉ AgentRecord.name <$> fresh → replace = true ∨ existsb (has_name n) old = false →
  (λ a, if has_name n a then AgentRecord.revoke a else a) <$> imported_over replace done_ old fresh =
  imported_over replace (done_ ++ [n]) old fresh.
Proof.
  intros Hn Hcase. unfold imported_over. rewrite fmap_app. f_equal.
  - rewrite <-list_fmap_compose. apply list_fmap_ext. intros i a Ha. cbn. unfold has_name.
    destruct Hcase as [->|Hno]; cbn.
    + destruct (decide (AgentRecord.name a = n)) as [E|E].
      * rewrite (bool_decide_eq_true_2 (_ ∈ done_ ++ [n])) by (rewrite E; set_solver).
        destruct (bool_decide (_ ∈ done_)); cbn; by rewrite bool_decide_eq_true_2.
      * replace (bool_decide (AgentRecord.name a ∈ done_ ++ [n])) with (bool_decide (AgentRecord.name a ∈ done_))
          by (apply bool_decide_ext; set_solver).
        destruct (bool_decide (_ ∈ done_)); cbn; by rewrite bool_decide_eq_false_2.
    + rewrite existsb_none in Hno. pose proof (Hno a (list_elem_of_lookup_2 _ _ _ Ha)) as Hna.
      unfold has_name in Hna. apply bool_decide_eq_false_1 in Hna.
      replace (bool_decide (AgentRecord.name a ∈ done_ ++ [n])) with (bool_decide (AgentRecord.name a ∈ done_))
        by (apply bool_decide_ext; set_solver).
      destruct (_ && _); cbn; by rewrite bool_decide_eq_false_2.
  - etrans; [|apply list_fmap_id]. apply list_fmap_ext. intros i a Ha. unfold has_name.
    rewrite bool_decide_eq_false_2; [done|]. intros E. apply Hn. rewrite <-E.
    eapply list_elem_of_fmap_2, list_elem_of_lookup_2, Ha.
Qed.

Lemma import_loop_spec env key replace old k done_ fresh res entries l res' :
  import_loop hmac env key replace k (imported_over replace done_ old fresh) res entries = Ok (l, res') →
  NoDup (import_names entries) →
  (∀ n, n ∈ import_names entries → n ∉ AgentRecord.name <$> fresh) →
  ∃ more, l = imported_over replace (done_ ++ import_names entries) old (fresh ++ more) ∧
    AgentRecord.name <$> more = fresh_names replace old (import_names entries) ∧
    Forall (λ a, AgentRecord.revoked a = false) more.
Proof.
  revert k done_ fresh res. induction entries as [|e entries IH]; intros k done_ fresh res; cbn.
  - intros [= <- <-] _ _. exists []. by rewrite !app_nil_r.
  - intros H [Hnew Hnd]%NoDup_cons Hfr. set (n := AgentImportEntry.name e) in *.
    assert (n ∉ AgentRecord.name <$> fresh) as Hn by (apply Hfr; set_solver).
    destruct (import_entry _ _ _ _ _ _ _ _) as [[[k1 l1] res1]|] eqn:He; cbn in H; [|done].
    unfold import_entry in He. fold n in He. rewrite existsb_has_name_over in He by done.
    destruct (existsb (has_name n) old && negb replace) eqn:Hskip.
    + simplify_eq. apply andb_true_iff in Hskip as [Hex Hrep%negb_true_iff]. subst replace.
      destruct (IH _ _ _ _ H Hnd) as (more & -> & Hm & Hr); [set_solver|]. exists more.
      split_and!; [|by rewrite Hm; unfold fresh_names; rewrite Hex|done]. reflexivity.
    + assert (replace || negb (existsb (has_name n) old) = true) as Hkeep
        by (destruct replace, (existsb _ _); done).
      rewrite revoke_named_over in He; [|done|destruct replace, (existsb _ _); auto].
      inv_result. simplify_eq.
      match type of H with context [imported_over _ _ _ _ ++ [?r]] => set (new := r) in * end.
      replace (imported_over replace (done_ ++ [n]) old fresh ++ [new])
        with (imported_over replace (done_ ++ [n]) old (fresh ++ [new])) in H
        by (unfold imported_over; by rewrite app_assoc).
      destruct (IH _ _ _ _ H Hnd) as (more & -> & Hm & Hr).
      { intros x Hx. rewrite fmap_app, elem_of_app. cbn. set_solver. }
      exists (new :: more). split_and!.
      * by rewrite <-!app_assoc.
      * cbn. rewrite Hm. unfold fresh_names. cbn. by rewrite Hkeep.
      * by constructor.
Qed.

(** ** Properties *)

(** The registry is tamper-evident: a registry that reads back is either absent
    (and then empty) or a schema-2 file whose tag decodes to the HMAC, under this
    key and domain, of exactly the records returned. *)
Theorem registry_tamper_evident env root key f :
  read_file env root key = Ok f →
  (Root.file root = Missing ∧ f = AgentsFile.default) ∨
  (∃ raw, Root.file root = Regular raw ∧ from_slice raw = Ok f ∧ AgentsFile.schema f = 2%N ∧
     hex_decode (AgentsFile.integrity f) = Ok (hmac key (HMAC_DOMAIN ++ to_vec 2%N (AgentsFile.agents f)))).
Proof.
  intros H. pose proof (read_schema _ _ _ _ H) as Hs. unfold Agents.read_file in H.
  destruct (ensure_directory show_path root); cbn in H; [|done].
  destruct (Root.file root) as [|raw|]; [by left; injection H as <-| |done]. right. exists raw.
  destruct (Env.read_fault env); [done|]. destruct (from_slice raw) as [f'|]; cbn in H; [|done].
  destruct (_ =? 1)%N; [done|]. destruct (_ =? 2)%N; [|done]. case_bool_decide; [done|].
  unfold verify_integrity in H. destruct (hex_decode (AgentsFile.integrity f')) as [tag|] eqn:Ht; cbn in H; [|done].
  case_bool_decide as Htag; cbn in H; [|done]. injection H as <-. split_and!; [done..|].
  by rewrite Ht, Htag, Hs.
Qed.

(** A fresh credential works, and only it: after a successful [create_agent] with
    an identifier not in use, the returned token authenticates the new record, any
    other token only if it has the same keyed hash, and every other agent
    authenticates exactly as before. *)
Theorem create_then_authenticate env root key name scopes root' id token env' :
  create_agent env root key name scopes = (root', Ok (id, token)) →
  (∀ l, list_agents env root key = Ok l → id ∉ AgentRecord.agent_id <$> l) →
  Env.read_fault env' = None →
  let record := AgentRecord.mk id name (token_hash hmac key token) (Env.now env) None false scopes in
  authenticate env' root' key id token = Ok record ∧
  (∀ t, is_ok (authenticate env' root' key id t) = true →
        token_hash hmac key t = token_hash hmac key token) ∧
  (∀ id' t, id' ≠ id → authenticate env' root' key id' t = authenticate env' root key id' t).
Proof.
  intros H Hfresh He record. unfold Agents.create_agent in H.
  destruct (read_file env root key) as [f|] eqn:Hf; cbn [rbind] in H; [|done].
  destruct (fresh_agent_id _) as [id0|]; cbn [rbind] in H; [|done].
  destruct (fresh_token _) as [tok0|]; cbn [rbind] in H; [|done]. unfold Agents.finish_write in H.
  destruct (write_file _ _ _ _) as [r1 r] eqn:Hw. injection H as <- Hr.
  destruct (write_view _ _ _ _ _ _ Hw (read_schema _ _ _ _ Hf)) as [[_ [e ->]]|[_ Hv]]; [done|].
  destruct r as [[]|]; cbn in Hr; [|done]. injection Hr as -> ->.
  destruct (Hv env' He) as (f' & Hf' & Hl). cbn in Hl. fold record in Hl.
  pose proof (read_env _ _ _ _ _ Hf He) as Hf0.
  specialize (Hfresh _ (list_of_read _ _ _ _ Hf)).
  assert (List.find (has_id id) (AgentsFile.agents f) = None) as Hnone.
  { destruct (List.find _ _) as [a|] eqn:Hfd; [|done]. exfalso. apply Hfresh.
    apply List.find_some in Hfd as [Hin Hid]. apply bool_decide_eq_true_1 in Hid. rewrite <-Hid.
    apply list_elem_of_fmap_2. by apply list_elem_of_In. }
  unfold Agents.authenticate. rewrite Hf', Hf0. cbn [rbind]. rewrite Hl. split_and!.
  - rewrite find_app, Hnone. cbn. unfold has_id. cbn. rewrite bool_decide_eq_true_2 by done. cbn.
    by rewrite bool_decide_eq_true_2.
  - intros t. rewrite find_app, Hnone. cbn. unfold has_id. cbn. rewrite bool_decide_eq_true_2 by done. cbn.
    case_bool_decide as E; [|done]. intros _. by apply str_bytes_inj.
  - intros id' t Hne. rewrite find_app. destruct (List.find (has_id id') _); [done|]. cbn.
    unfold has_id. cbn. by rewrite bool_decide_eq_false_2.
Qed.

(** C32: revocation lasts: once an agent other than the default one has been revoked,
    no sequence of later creations, imports, revocations and default-agent
    refreshes, failing or not, lets it authenticate again with any token. *)
Theorem revoked_stays_revoked env root key id root1 ops env' token :
  revoke_agent env root key id = (root1, Ok tt) →
  (∀ l a, list_agents env root key = Ok l → List.find (has_id id) l = Some a →
          AgentRecord.name a ≠ DEFAULT_AGENT_NAME) →
  Env.read_fault env' = None →
  authenticate env' (foldl (apply_agent_op key) root1 ops) key id token = Err (Misuse "agent revoked").
Proof.
  unfold Agents.revoke_agent. intros H Hname He.
  destruct (read_file env root key) as [f|] eqn:Hf; [|done].
  destruct (update_first _ _ _) as [l|] eqn:Hu; [|done].
  destruct (write_view _ _ _ _ _ _ H (read_schema _ _ _ _ Hf)) as [[_ [e ?]]|[_ Hv]]; [done|].
  assert (revoked_on_disk key id root1) as Hdisk.
  { intros env0 He0. destruct (Hv env0 He0) as (f' & Hf' & Hl). cbn in Hl. exists f'.
    assert (∃ a, List.find (has_id id) (AgentsFile.agents f) = Some a ∧
      List.find (has_id id) l = Some (AgentRecord.revoke a)) as (a & Ha & Ha').
    { clear -Hu. revert l Hu. induction (AgentsFile.agents f) as [|b bs IH]; intros l; cbn; [done|].
      destruct (has_id id b) eqn:Hb.
      - intros [= <-]. cbn. unfold has_id in *. cbn. rewrite Hb. eauto.
      - destruct (update_first _ _ bs) as [l1|]; cbn; [|done]. intros [= <-]. cbn. rewrite Hb. by apply IH. }
    exists (AgentRecord.revoke a). rewrite Hl, Ha'. split_and!; [done..|].
    apply (Hname (AgentsFile.agents f) a); [by apply list_of_read|done]. }
  assert (revoked_on_disk key id (foldl (apply_agent_op key) root1 ops)) as Hend.
  { clear -Hdisk serde_round_trip hmac_32. revert root1 Hdisk.
    induction ops as [|op ops IH]; intros root1 Hd; [done|]. apply IH. by apply apply_agent_op_revoked. }
  destruct (Hend env' He) as (f' & rec & Hf' & Hrec & Hrv & _).
  unfold Agents.authenticate. rewrite Hf'. cbn [rbind]. rewrite Hrec. cbn. by rewrite Hrv.
Qed.

(** An import is all or nothing.  If it fails, the registry on disk is unchanged
    unless the failure came after the atomic replacement; if it succeeds, the new
    registry is the old records in their places (those of imported names revoked
    when replacing, untouched otherwise) followed by one live record for every
    imported name that was new or is being replaced. *)
Theorem import_all_or_nothing env root key entries replace root' r :
  import_agents_atomically env root key entries replace = (root', r) →
  match r with
  | Err _ => root' = root ∨ ∃ e, Env.write_fault env = AfterReplace e
  | Ok _ =>
      ∃ old fresh, list_agents env root key = Ok old ∧
        (∀ env', Env.read_fault env' = None →
           list_agents env' root' key = Ok (imported_over replace (import_names entries) old fresh)) ∧
        AgentRecord.name <$> fresh = fresh_names replace old (import_names entries) ∧
        Forall (λ a, AgentRecord.revoked a = false) fresh ∧ NoDup (import_names entries)
  end.
Proof.
  unfold Agents.import_agents_atomically. intros H.
  destruct (check_entries ∅ entries) as [[]|] eqn:Hc; cbn [rbind] in H; [|simplify_eq; by left].
  destruct (read_file env root key) as [f|] eqn:Hf; cbn [rbind] in H; [|simplify_eq; by left].
  destruct (import_loop _ _ _ _ _ _ _ _) as [[l res]|] eqn:Hl; cbn [rbind] in H; [|simplify_eq; by left].
  unfold Agents.finish_write in H. destruct (write_file _ _ _ _) as [r1 w] eqn:Hw. injection H as <- <-.
  apply check_entries_Ok in Hc as [Hnd _].
  destruct (write_view _ _ _ _ _ _ Hw (read_schema _ _ _ _ Hf)) as [[-> [e ->]]|[[->|(e & Hwf & ->)] Hv]];
    cbn [rbind]; [by left| |right; eauto].
  replace (AgentsFile.agents f) with (imported_over replace [] (AgentsFile.agents f) []) in Hl.
  - apply import_loop_spec in Hl as (more & -> & Hm & Hlive); [|done|by intros n _ ?%elem_of_nil].
    exists (AgentsFile.agents f), more. split_and!; [by apply list_of_read| |done..].
    intros env' He'. destruct (Hv env' He') as (f' & Hf' & Hl'). rewrite (list_of_read _ _ _ _ Hf').
    by rewrite Hl'.
  - unfold imported_over. rewrite app_nil_r. etrans; [|apply list_fmap_id].
    apply list_fmap_ext. intros i a _. by rewrite bool_decide_eq_false_2, andb_false_r by apply not_elem_of_nil.
Qed.
End refinement.

(** ** Concrete parameters for the witnesses *)
Module SampleAgents.
(** One number per field stands for the JSON text. *)
Definition field {A} `{Countable A} (x : A) : N := Npos (encode x).
Definition unfield {A} `{Countable A} (n : N) : option A :=
  match n with Npos p => decode p | N0 => None end.

Definition write_record (a : AgentRecord.t) : list N :=
  [field (AgentRecord.agent_id a); field (AgentRecord.name a); field (AgentRecord.token_hash a);
   field (AgentRecord.created_at a); field (AgentRecord.expires_at a); field (AgentRecord.revoked a);
   field (AgentRecord.scopes a)].

Fixpoint read_records (raw : list N) : option (list AgentRecord.t) :=
  match raw with
  | [] => Some []
  | a :: b :: c :: d :: e :: f :: g :: raw' =>
      a' ← unfield a; b' ← unfield b; c' ← unfield c; d' ← unfield d; e' ← unfield e; f' ← unfield f;
      g' ← unfield g; rest ← read_records raw'; Some (AgentRecord.mk a' b' c' d' e' f' g' :: rest)
  | _ => None
  end.

Definition to_vec (schema : N) (agents : list AgentRecord.t) : list N :=
  schema :: concat (write_record <$> agents).
Definition to_vec_pretty (f : AgentsFile.t) : list N :=
  field (AgentsFile.integrity f) :: to_vec (AgentsFile.schema f) (AgentsFile.agents f).
Definition from_slice (raw : list N) : result AgentsFile.t string :=
  match raw with
  | i :: schema :: raw' =>
      ok_or (i' ← unfield i; agents ← read_records raw'; Some (AgentsFile.mk schema agents i'))
        "expected a registry"
  | _ => Err "expected a registry"
  end.
(** A 32-byte checksum in place of HMAC-SHA256. *)
Definition mac (key msg : list N) : list N :=
  replicate 30 7%N ++ [(foldr N.add 0 key mod 256); (foldr N.add 0 msg mod 256)]%N.

Lemma unfield_field {A} `{Countable A} (x : A) : unfield (field x) = Some x.
Proof. unfold unfield, field. apply decode_encode. Qed.

Lemma serde_round_trip f : from_slice (to_vec_pretty f) = Ok f.
Proof.
  assert (read_records (concat (write_record <$> AgentsFile.agents f)) = Some (AgentsFile.agents f)) as Hr.
  { induction (AgentsFile.agents f) as [|a l IH]; [done|]. cbn [fmap list_fmap concat].
    unfold write_record at 1. cbn [app read_records]. rewrite !unfield_field. cbn [mbind option_bind].
    rewrite IH. cbn. by destruct a. }
  unfold from_slice, to_vec_pretty, to_vec. rewrite unfield_field. cbn. rewrite Hr. cbn. by destruct f.
Qed.

Lemma mac_32 k m : byte_array 32 (mac k m).
Proof.
  split; [done|]. unfold mac. apply Forall_app. split; [by apply Forall_replicate|].
  rewrite !Forall_cons. split_and!; [lia..|constructor].
Qed.

Definition env : Env.t := Env.mk None NoFault 5%Z (λ k, Some [N.of_nat k; 1%N]).
Definition env_sync_fails : Env.t := Env.mk None (AfterReplace Io) 5%Z (λ k, Some [N.of_nat k; 1%N]).
Definition key : list N := [9%N].
Definition empty : Root.t := Root.mk DirReal Missing.
Abbreviation create := (create_agent from_slice to_vec_pretty to_vec mac "/vault").
Abbreviation revoke := (revoke_agent from_slice to_vec_pretty to_vec mac "/vault").
Abbreviation import := (import_agents_atomically from_slice to_vec_pretty to_vec mac "/vault").
Abbreviation ensure_default := (ensure_default_agent from_slice to_vec_pretty to_vec mac "/vault").
Abbreviation auth := (authenticate from_slice to_vec mac "/vault").
Abbreviation agents_at := (list_agents from_slice to_vec mac "/vault").
Definition root1 : Root.t := (create env empty key "Claude" []).1.
Definition root2 : Root.t := (revoke env root1 key "ag_0001").1.
Definition entry : AgentImportEntry.t := AgentImportEntry.mk "Claude" [].
End SampleAgents.

Lemma registry_tamper_evident_witness :
  ∃ raw, Root.file SampleAgents.root1 = Regular raw.
Proof.
  destruct (read_file SampleAgents.from_slice SampleAgents.to_vec SampleAgents.mac "/vault"
    SampleAgents.env SampleAgents.root1 SampleAgents.key) as [f|e] eqn:Hf;
    [|vm_compute in Hf; discriminate Hf].
  destruct (registry_tamper_evident SampleAgents.from_slice SampleAgents.to_vec SampleAgents.mac "/vault"
    SampleAgents.env SampleAgents.root1 SampleAgents.key f Hf) as [[Hm _]|(raw & Hr & _)].
  - vm_compute in Hm. discriminate Hm.
  - exists raw. exact Hr.
Defined.

Lemma create_then_authenticate_witness :
  is_ok (SampleAgents.auth SampleAgents.env SampleAgents.root1 SampleAgents.key "ag_0001" "AQE") = true.
Proof.
  destruct (create_then_authenticate SampleAgents.from_slice SampleAgents.to_vec_pretty SampleAgents.to_vec
    SampleAgents.mac "/vault" SampleAgents.serde_round_trip SampleAgents.mac_32 SampleAgents.env
    SampleAgents.empty SampleAgents.key "Claude" [] SampleAgents.root1 "ag_0001" "AQE" SampleAgents.env)
    as [H _].
  - vm_compute. reflexivity.
  - intros l Hl. vm_compute in Hl. injection Hl as <-. apply not_elem_of_nil.
  - reflexivity.
  - rewrite H. reflexivity.
Defined.

Lemma revoked_stays_revoked_witness :
  SampleAgents.auth SampleAgents.env SampleAgents.root2 SampleAgents.key "ag_0001" "AQE" =
  Err (Misuse "agent revoked").
Proof.
  apply (revoked_stays_revoked SampleAgents.from_slice SampleAgents.to_vec_pretty SampleAgents.to_vec
    SampleAgents.mac "/vault" SampleAgents.serde_round_trip SampleAgents.mac_32 SampleAgents.env
    SampleAgents.root1 SampleAgents.key "ag_0001" SampleAgents.root2 [] SampleAgents.env "AQE").
  - vm_compute. reflexivity.
  - intros l a Hl Ha. vm_compute in Hl. injection Hl as <-. vm_compute in Ha. injection Ha as <-. discriminate.
  - reflexivity.
Defined.

Lemma import_all_or_nothing_witness :
  ∃ old, SampleAgents.agents_at SampleAgents.env SampleAgents.root1 SampleAgents.key = Ok old.
Proof.
  destruct (SampleAgents.import SampleAgents.env SampleAgents.root1 SampleAgents.key
    [SampleAgents.entry] true) as [root' r] eqn:Hi.
  pose proof (import_all_or_nothing SampleAgents.from_slice SampleAgents.to_vec_pretty SampleAgents.to_vec
    SampleAgents.mac "/vault" SampleAgents.serde_round_trip SampleAgents.mac_32 SampleAgents.env
    SampleAgents.root1 SampleAgents.key [SampleAgents.entry] true root' r Hi) as H.
  destruct r as [res|e].
  - destruct H as (old & fresh & Hold & _). exists old. exact Hold.
  - vm_compute in Hi. discriminate Hi.
Defined.

(** ** Corner cases of the code *)

(** A revoked default agent is live again after the next launch. *)
Lemma default_revocation_undone :
  let root := (SampleAgents.ensure_default SampleAgents.env SampleAgents.empty SampleAgents.key "s").1 in
  let revoked := (SampleAgents.revoke SampleAgents.env root SampleAgents.key "ag_0001").1 in
  let again := (SampleAgents.ensure_default SampleAgents.env revoked SampleAgents.key "s").1 in
  is_ok (SampleAgents.auth SampleAgents.env revoked SampleAgents.key "ag_0001" "s") = false ∧
  is_ok (SampleAgents.auth SampleAgents.env again SampleAgents.key "ag_0001" "s") = true.
Proof. vm_compute. done. Qed.

(** When only the final directory sync fails, the import reports an error, returns
    no token, and yet the existing agent is already revoked on disk. *)
Lemma failed_import_revokes :
  let '(root', r) := SampleAgents.import SampleAgents.env_sync_fails SampleAgents.root1 SampleAgents.key
                       [SampleAgents.entry] true in
  is_ok r = false ∧
  is_ok (SampleAgents.auth SampleAgents.env SampleAgents.root1 SampleAgents.key "ag_0001" "AQE") = true ∧
  SampleAgents.auth SampleAgents.env root' SampleAgents.key "ag_0001" "AQE" = Err (Misuse "agent revoked").
Proof. vm_compute. done. Qed.

(** A tag with a non-ASCII character across a pair boundary panics the decoder. *)
Lemma hex_decode_panics : hex_decode (str_of_bytes [97; 195; 169; 98]%N) = Err Panicked.
Proof. vm_compute. reflexivity. Qed.
