(* ===== verification/AuditTypes.v ===== *)
(** * sv-audit/src/lib.rs: events, records, checkpoints and their authentication

    The data of the audit log, its hexadecimal tags, and the functions that sign and
    verify a record and a checkpoint.  [AuditEnv] holds what comes from other crates
    (HMAC-SHA256, serde_json) or from the operating system (how a directory is
    listed, how a path is displayed); [AuditLaws] is what the code relies on. *)
From Stdlib Require Import ZifyN ZifyNat ZifyBool.
From stdpp Require Import pretty.
From S2P Require Import Prelude.

Ltac Zify.zify_post_hook ::= Z.div_mod_to_equations.

Definition AUDIT_FILE : string := "audit.jsonl".
Definition CHECKPOINT_FILE : string := "audit.head.json".
Definition GENESIS_PREV : string :=
  "0000000000000000000000000000000000000000000000000000000000000000".
Definition DEFAULT_MAX_BYTES : N := 8 * 1024 * 1024.
Definition FORMAT_VERSION : N := 2.
Definition RECORD_DOMAIN : list N := str_bytes "sovereign-vault/audit-record/v2" ++ [0%N].
Definition CHECKPOINT_DOMAIN : list N := str_bytes "sovereign-vault/audit-checkpoint/v2" ++ [0%N].
Definition REDACTION_DOMAIN : list N := str_bytes "sovereign-vault/audit-redaction/v2" ++ [0%N].
Definition LOCK_FILE : string := ".audit-write.lock".
Definition ARCHIVE_PREFIX : string := "audit-".
Definition ARCHIVE_SUFFIX : string := ".jsonl".
Definition ARCHIVE_DIGITS : nat := 20.
Definition MAX_ACTIVE_VERIFY_BYTES : N := 256 * 1024.

(** An [io::Error]: its kind [NotFound], or any other with its message. *)
Inductive io_error := NotFound | OtherIo (message : string).

Module AuditError.
Inductive t :=
| Io (error : io_error)
| Encoding (message : string)
| NotInitialized (message : string)
| AlreadyExists (path : string)
| Authentication (message : string)
| Integrity (message : string)
| Busy
| LockPoisoned.

(** [Display]; the message of [NotFound] is the operating system's. *)
Definition to_string (e : t) : string :=
  match e with
  | Io NotFound => "I/O: No such file or directory (os error 2)"
  | Io (OtherIo m) => "I/O: " +:+ m
  | Encoding m => "Encoding: " +:+ m
  | NotInitialized m => "audit state is not initialized: " +:+ m
  | AlreadyExists p => "audit state already exists: " +:+ p
  | Authentication m => "audit authentication failed: " +:+ m
  | Integrity m => "audit integrity check failed: " +:+ m
  | Busy => "audit log is busy; another writer may be active"
  | LockPoisoned => "audit log lock poisoned"
  end.
End AuditError.

Module AuditAction.
Inductive t :=
| VaultInit | VaultUnlock | VaultUnlockRecovery | VaultLock | RecoveryIssued
| PassphraseChanged | KeyRotated | ListContainers | ListFiles | ReadFile | WriteFile
| DeleteFile | CreateContainer | DeleteContainer | AgentCreate | AgentList | AgentRevoke
| AgentExport | AgentImport | CreateTransitKey | ListTransitKeys | Encrypt | Decrypt
| CreateSigningKey | ListSigningKeys | Sign | Verify | CreateBrokerSecret
| ListBrokerSecrets | Broker | VaultInfo | ScanRun | ScanStore | ScanReveal | PlanCreate
| PlanApprove | PlanExecute | RedactionRestore.
#[global] Instance t_eq_dec : EqDecision t.
Proof. solve_decision. Defined.
End AuditAction.

Module AuditDecision.
Inductive t := Attempted | Allowed | Denied | Error.
#[global] Instance t_eq_dec : EqDecision t.
Proof. solve_decision. Defined.
End AuditDecision.

Module PresenceOutcome.
Inductive t := DeviceOwnerAuthenticated | Click.
#[global] Instance t_eq_dec : EqDecision t.
Proof. solve_decision. Defined.
End PresenceOutcome.

Module PresenceModality.
Inductive t := Biometric | Password | Pin | Unknown.
#[global] Instance t_eq_dec : EqDecision t.
Proof. solve_decision. Defined.
End PresenceModality.

Module PresenceAudit.
Record t := mk {
  protected : bool;
  outcome : option PresenceOutcome.t;
  modality : option PresenceModality.t;
  operation_id : option string
}.
#[global] Instance t_eq_dec : EqDecision t.
Proof. solve_decision. Defined.

Definition authenticated (m : PresenceModality.t) : t :=
  mk true (Some PresenceOutcome.DeviceOwnerAuthenticated) (Some m) None.
Definition click : t := mk false (Some PresenceOutcome.Click) None None.
Definition denied (protected : bool) : t := mk protected None None None.
Definition with_operation (p : t) (id : string) : t :=
  mk (protected p) (outcome p) (modality p) (Some id).
End PresenceAudit.

Module AuditEvent.
Record t := mk {
  timestamp : Z;
  action : AuditAction.t;
  decision : AuditDecision.t;
  transport : string;
  container : option string;
  file_name : option string;
  mode : option string;
  byte_size : option N;
  detail : option string;
  error : option string;
  agent_id : option string;
  presence : option PresenceAudit.t
}.
#[global] Instance t_eq_dec : EqDecision t.
Proof. solve_decision. Defined.

(** [now] is the reading of the clock. *)
Definition new (now : Z) (action : AuditAction.t) (decision : AuditDecision.t) (transport : string) : t :=
  mk now action decision transport None None None None None None None None.

(** The event with its two path fields replaced. *)
Definition with_paths (e : t) (container file_name : option string) : t :=
  mk (timestamp e) (action e) (decision e) (transport e) container file_name (mode e)
     (byte_size e) (detail e) (error e) (agent_id e) (presence e).
End AuditEvent.

Module RecordPayload.
Record t := mk { format_version : N; sequence : N; prev_mac : string; event : AuditEvent.t }.
End RecordPayload.

Module AuditRecord.
Record t := mk {
  format_version : N;
  sequence : N;
  prev_mac : string;
  event : AuditEvent.t;
  mac : string
}.
#[global] Instance t_eq_dec : EqDecision t.
Proof. solve_decision. Defined.

Definition payload (r : t) : RecordPayload.t :=
  RecordPayload.mk (format_version r) (sequence r) (prev_mac r) (event r).
End AuditRecord.

Module CheckpointPayload.
Record t := mk {
  format_version : N;
  record_count : N;
  head_mac : string;
  active_segment : N;
  active_record_count : N;
  active_start_prev_mac : string
}.
End CheckpointPayload.

(** The struct [Checkpoint]; its operations follow below. *)
Module Checkpoint.
Record t := mk {
  format_version : N;
  record_count : N;
  head_mac : string;
  active_segment : N;
  active_record_count : N;
  active_start_prev_mac : string;
  mac : string
}.
Definition payload (c : t) : CheckpointPayload.t :=
  CheckpointPayload.mk (format_version c) (record_count c) (head_mac c) (active_segment c)
    (active_record_count c) (active_start_prev_mac c).
End Checkpoint.

(** ** Hexadecimal *)

Definition HEX : list N := str_bytes "0123456789abcdef".

(** The two digits pushed for a byte; both indices are below 16. *)
Definition hex_pair (byte : N) : list N :=
  [default 0%N (HEX !! N.to_nat (N.shiftr byte 4)); default 0%N (HEX !! N.to_nat (N.land byte 15))].

Fixpoint hex_bytes (bytes : list N) : list N :=
  match bytes with [] => [] | byte :: bytes' => hex_pair byte ++ hex_bytes bytes' end.

Definition encode_hex (bytes : list N) : string := str_of_bytes (hex_bytes bytes).

Definition decode_nibble (value : N) : option N :=
  if ((48 <=? value) && (value <=? 57))%N then Some (value - 48)%N
  else if ((97 <=? value) && (value <=? 102))%N then Some (value - 97 + 10)%N
  else None.

(** The loop over the pairs of [as_chunks::<2>()]. *)
Fixpoint decode_pairs (l : list N) : option (list N) :=
  match l with
  | a :: b :: l' =>
      high ← decode_nibble a; low ← decode_nibble b;
      output ← decode_pairs l'; Some (N.lor (N.shiftl high 4) low :: output)
  | _ => Some []
  end.

Definition decode_hex_32 (value : string) : option (list N) :=
  if negb (length (str_bytes value) =? 64) || negb (is_ascii_str value) then None
  else decode_pairs (str_bytes value).

Lemma decode_encode_pair b :
  (b < 256)%N →
  ∃ hi lo, decode_nibble (default 0 (HEX !! N.to_nat (N.shiftr b 4)))%N = Some hi ∧
    decode_nibble (default 0 (HEX !! N.to_nat (N.land b 15)))%N = Some lo ∧
    N.lor (N.shiftl hi 4) lo = b.
Proof.
  intros Hb. rewrite <-(N2Nat.id b) in *. assert (N.to_nat b < 256) as Hn by lia.
  generalize dependent (N.to_nat b). clear b. intros n _ Hn.
  do 256 (destruct n as [|n]; [vm_compute; eauto|]). lia.
Qed.

Lemma hex_bytes_Forall (P : N → Prop) l :
  (∀ b, b ∈ l → Forall P (hex_pair b)) → Forall P (hex_bytes l).
Proof.
  induction l as [|b l IH]; intros H; cbn [hex_bytes]; [constructor|]. apply Forall_app. split.
  - apply H. by left.
  - apply IH. intros b' Hb'. apply H. by right.
Qed.

Lemma hex_table k : (default 0 (HEX !! k) < 128)%N.
Proof. do 16 (destruct k as [|k]; [vm_compute; done|]). done. Qed.

Lemma hex_pair_ascii b : Forall (λ c, (c < 128)%N) (hex_pair b).
Proof. repeat constructor; apply hex_table. Qed.

Lemma encode_hex_bytes l : str_bytes (encode_hex l) = hex_bytes l.
Proof.
  apply str_bytes_of_bytes, hex_bytes_Forall. intros b _.
  eapply Forall_impl; [apply hex_pair_ascii|]. cbn. lia.
Qed.

Lemma decode_pairs_encode l : Forall (λ b, (b < 256)%N) l → decode_pairs (hex_bytes l) = Some l.
Proof.
  induction 1 as [|b l Hb _ IH]; [done|].
  destruct (decode_encode_pair b Hb) as (hi & lo & H1 & H2 & H3).
  cbn [hex_bytes hex_pair app decode_pairs]. rewrite H1, H2. cbn. rewrite IH. cbn. by rewrite H3.
Qed.

Lemma length_hex_text l : length (hex_bytes l) = 2 * length l.
Proof. induction l as [|b l IH]; [done|]. cbn [hex_bytes]. rewrite length_app, IH. simpl. lia. Qed.

(** A 32-byte tag survives its encoding. *)
Lemma decode_encode_hex l :
  length l = 32 → Forall (λ b, (b < 256)%N) l → decode_hex_32 (encode_hex l) = Some l.
Proof.
  intros Hl Hb. unfold decode_hex_32, is_ascii_str. rewrite encode_hex_bytes, length_hex_text, Hl.
  cbn [Nat.mul Nat.add Nat.eqb negb orb].
  assert (forallb (λ b, (b <? 128)%N) (hex_bytes l) = true) as ->; [|by apply decode_pairs_encode].
  apply forallb_Forall, Forall_forall, hex_bytes_Forall. intros b _.
  eapply Forall_impl; [apply hex_pair_ascii|]. intros c Hc. by apply N.ltb_lt.
Qed.

Lemma decode_nibble_hex v n : decode_nibble v = Some n → (n < 16)%N ∧ default 0%N (HEX !! N.to_nat n) = v.
Proof.
  unfold decode_nibble. intros H.
  destruct ((48 <=? v) && (v <=? 57))%N eqn:E1; [|destruct ((97 <=? v) && (v <=? 102))%N eqn:E2; [|done]];
    injection H as <-; split; try lia;
    rewrite <-(N2Nat.id v) in *; generalize dependent (N.to_nat v); clear v; intros v ?;
    try intros ?; do 103 (destruct v as [|v]; [first [done|lia]|]); lia.
Qed.

Lemma nibbles_join hi lo :
  (hi < 16)%N → (lo < 16)%N →
  N.shiftr (N.lor (N.shiftl hi 4) lo) 4 = hi ∧ N.land (N.lor (N.shiftl hi 4) lo) 15 = lo.
Proof.
  intros Hh Hl. rewrite lor_shiftl_add by done. change 15%N with (N.ones 4).
  rewrite N.land_ones, N.shiftr_div_pow2. change (2 ^ 4)%N with 16%N. lia.
Qed.

(** Only the canonical lowercase spelling of a tag decodes to it. *)
Lemma decode_hex_canonical s l : decode_hex_32 s = Some l → s = encode_hex l.
Proof.
  unfold decode_hex_32. destruct (_ || _) eqn:E; [done|]. to_prop. intros Hd.
  apply Nat.eqb_eq in H. apply str_bytes_inj. rewrite encode_hex_bytes.
  assert (∃ k, length (str_bytes s) = 2 * k) as [k Hk] by (exists 32; done). clear H H0.
  revert l Hd Hk. generalize (str_bytes s). clear s.
  induction k as [|k IH]; intros bs l Hd Hk.
  { destruct bs; [|simpl in Hk; lia]. by injection Hd as <-. }
  destruct bs as [|a [|b bs]]; [simpl in Hk; lia..|]. cbn [decode_pairs] in Hd.
  destruct (decode_nibble a) as [hi|] eqn:Ha; [|done].
  destruct (decode_nibble b) as [lo|] eqn:Hb; [|done].
  destruct (decode_pairs bs) as [out|] eqn:Ho; [|done]. cbn in Hd. injection Hd as <-.
  apply decode_nibble_hex in Ha as [? Ha], Hb as [? Hb].
  destruct (nibbles_join hi lo) as [Hs Hla]; [done..|].
  cbn [hex_bytes hex_pair app]. unfold hex_pair. rewrite Hs, Hla, Ha, Hb. cbn [app]. do 2 f_equal.
  apply IH; [done|]. simpl in Hk. lia.
Qed.

(** ** What comes from elsewhere *)

(** A directory entry: a regular file with its bytes, or anything else (a symbolic
    link, a directory, a device). *)
Inductive node := File (bytes : list N) | NotFile.

Class AuditEnv := {
  hmac : list N → list N → list N;                              (* HMAC-SHA256 *)
  record_payload_json : RecordPayload.t → list N;               (* serde_json::to_vec *)
  record_json : AuditRecord.t → list N;
  checkpoint_payload_json : CheckpointPayload.t → list N;
  checkpoint_json : Checkpoint.t → list N;
  parse_record : list N → option AuditRecord.t;                 (* serde_json::from_str *)
  is_json : list N → bool;
  parse_checkpoint : list N → result Checkpoint.t string;       (* serde_json::from_slice *)
  read_dir : gmap string node → list (string * node);           (* fs::read_dir *)
  show_path : string → string                                   (* root.join(name).display() *)
}.

(** HMAC-SHA256 gives 32 bytes; compact JSON is a nonempty UTF-8 text without line
    breaks; serde reads back what it wrote, also before a trailing newline; payloads
    that differ are written differently; a listing is the entries in some order. *)
Class AuditLaws {E : AuditEnv} : Prop := {
  hmac_bytes : ∀ key m, length (hmac key m) = 32 ∧ Forall (λ b, (b < 256)%N) (hmac key m);
  record_json_line : ∀ r, record_json r ≠ [] ∧ 10%N ∉ record_json r ∧
    last (record_json r) ≠ Some 13%N ∧ utf8_valid (record_json r) = true;
  parse_record_json : ∀ r, parse_record (record_json r) = Some r;
  parse_checkpoint_json : ∀ c, parse_checkpoint (checkpoint_json c ++ [10%N]) = Ok c;
  record_payload_inj : ∀ p q, record_payload_json p = record_payload_json q → p = q;
  read_dir_entries : ∀ d, read_dir d ≡ₚ map_to_list d
}.
Arguments AuditLaws E : clear implicits.

(** ** Authentication tags *)

Section tags.
Context `{E : AuditEnv}.

Definition authenticate_hex (key domain bytes : list N) : string :=
  encode_hex (hmac key (domain ++ bytes)).

Definition verify_hex_tag (key domain bytes : list N) (encoded_tag : string) : option unit :=
  tag ← decode_hex_32 encoded_tag;
  if bool_decide (tag = hmac key (domain ++ bytes)) then Some tt else None.

Definition validate_mac_string (value label : string) : result unit AuditError.t :=
  match decode_hex_32 value with
  | Some _ => Ok tt
  | None => Err (AuditError.Integrity (label +:+ " is not canonical lowercase hex"))
  end.

(** ** Records *)

Definition sign_record (sequence : N) (prev_mac : string) (event : AuditEvent.t) (key : list N) :
    AuditRecord.t :=
  let payload := RecordPayload.mk FORMAT_VERSION sequence prev_mac event in
  AuditRecord.mk FORMAT_VERSION sequence prev_mac event
    (authenticate_hex key RECORD_DOMAIN (record_payload_json payload)).

Definition verify_record (record : AuditRecord.t) (expected_sequence : N) (expected_prev : string)
    (key : list N) : result unit string :=
  if negb (AuditRecord.format_version record =? FORMAT_VERSION)%N then
    Err ("unsupported record format version " +:+ pretty (AuditRecord.format_version record))
  else if negb (AuditRecord.sequence record =? expected_sequence)%N then
    Err ("record sequence mismatch: expected " +:+ (pretty expected_sequence +:+
         (", found " +:+ pretty (AuditRecord.sequence record))))
  else if negb (bool_decide (AuditRecord.prev_mac record = expected_prev)) then
    Err ("previous MAC mismatch at sequence " +:+ pretty expected_sequence)
  else if negb (is_ok (validate_mac_string (AuditRecord.prev_mac record) "previous record MAC")) then
    Err ("invalid previous MAC encoding at sequence " +:+ pretty expected_sequence)
  else
    ok_or (verify_hex_tag key RECORD_DOMAIN (record_payload_json (AuditRecord.payload record))
             (AuditRecord.mac record))
          ("record MAC mismatch at sequence " +:+ pretty expected_sequence).

(** ** Checkpoints *)

Definition checkpoint_signed (record_count : N) (head_mac : string) (active_segment active_record_count : N)
    (active_start_prev_mac : string) (key : list N) : Checkpoint.t :=
  let payload := CheckpointPayload.mk FORMAT_VERSION record_count head_mac active_segment
                   active_record_count active_start_prev_mac in
  Checkpoint.mk FORMAT_VERSION record_count head_mac active_segment active_record_count
    active_start_prev_mac
    (authenticate_hex key CHECKPOINT_DOMAIN (checkpoint_payload_json payload)).

Definition checkpoint_genesis (key : list N) : Checkpoint.t :=
  checkpoint_signed 0 GENESIS_PREV 0 0 GENESIS_PREV key.

Definition checkpoint_verify (c : Checkpoint.t) (key : list N) : result unit AuditError.t :=
  if negb (Checkpoint.format_version c =? FORMAT_VERSION)%N then
    Err (AuditError.Integrity ("unsupported checkpoint format version " +:+
                               pretty (Checkpoint.format_version c)))
  else
    let? _ := validate_mac_string (Checkpoint.head_mac c) "checkpoint head" in
    let? _ := validate_mac_string (Checkpoint.active_start_prev_mac c) "active segment starting MAC" in
    let? _ := ok_or (verify_hex_tag key CHECKPOINT_DOMAIN
                       (checkpoint_payload_json (Checkpoint.payload c)) (Checkpoint.mac c))
                    (AuditError.Authentication "checkpoint MAC does not verify") in
    if (Checkpoint.record_count c <? Checkpoint.active_record_count c)%N then
      Err (AuditError.Integrity "active record count exceeds total record count")
    else Ok tt.

(** ** Redaction *)

Definition hmac_value (key : list N) (plaintext : string) : option string :=
  Some (authenticate_hex key REDACTION_DOMAIN (str_bytes plaintext)).

Definition redact (key : list N) (event : AuditEvent.t) : AuditEvent.t :=
  AuditEvent.with_paths event
    (value ← AuditEvent.container event; hmac_value key value)
    (value ← AuditEvent.file_name event; hmac_value key value).

(** ** Facts *)

Definition canonical (mac : string) : Prop := is_Some (decode_hex_32 mac).

Lemma verify_hex_tag_Some key domain bytes tag u :
  verify_hex_tag key domain bytes tag = Some u → tag = encode_hex (hmac key (domain ++ bytes)).
Proof.
  unfold verify_hex_tag. destruct (decode_hex_32 tag) as [t|] eqn:Ht; [|done]. cbn.
  case_bool_decide as Heq; [|done]. intros _. rewrite <-Heq. by apply decode_hex_canonical.
Qed.

Lemma validate_mac_string_ok mac label : canonical mac → validate_mac_string mac label = Ok tt.
Proof. intros [t Ht]. unfold validate_mac_string. by rewrite Ht. Qed.

Lemma genesis_canonical : canonical GENESIS_PREV.
Proof. vm_compute. eauto. Qed.

Context `{L : !AuditLaws E}.

Lemma authenticate_verifies key domain bytes :
  verify_hex_tag key domain bytes (authenticate_hex key domain bytes) = Some tt.
Proof.
  unfold verify_hex_tag, authenticate_hex.
  destruct (hmac_bytes key (domain ++ bytes)) as [Hl Hb]. rewrite decode_encode_hex by done. cbn.
  by rewrite bool_decide_eq_true_2.
Qed.

Lemma authenticate_canonical key domain bytes : canonical (authenticate_hex key domain bytes).
Proof.
  unfold canonical, authenticate_hex. destruct (hmac_bytes key (domain ++ bytes)) as [Hl Hb].
  rewrite decode_encode_hex by done. eauto.
Qed.

Lemma sign_record_verifies sequence prev event key :
  canonical prev → verify_record (sign_record sequence prev event key) sequence prev key = Ok tt.
Proof.
  intros Hp. unfold verify_record, sign_record, AuditRecord.payload. cbn.
  rewrite N.eqb_refl, bool_decide_eq_true_2 by done. cbn.
  rewrite validate_mac_string_ok by done. cbn. by rewrite authenticate_verifies.
Qed.

Lemma signed_verifies count head segment active start key :
  canonical head → canonical start → (active ≤ count)%N →
  checkpoint_verify (checkpoint_signed count head segment active start key) key = Ok tt.
Proof.
  intros Hh Hs Ha. unfold checkpoint_verify, checkpoint_signed, Checkpoint.payload. cbn.
  rewrite !validate_mac_string_ok by done. cbn. rewrite authenticate_verifies. cbn.
  by rewrite (proj2 (N.ltb_ge count active)).
Qed.

(** What a verified record is. *)
Lemma verify_record_Ok r sequence prev key :
  verify_record r sequence prev key = Ok tt →
  AuditRecord.payload r = RecordPayload.mk FORMAT_VERSION sequence prev (AuditRecord.event r) ∧
  AuditRecord.mac r = encode_hex (hmac key (RECORD_DOMAIN ++ record_payload_json (AuditRecord.payload r))).
Proof.
  unfold verify_record.
  destruct (_ =? FORMAT_VERSION)%N eqn:Hv; [cbn|done]. destruct (_ =? sequence)%N eqn:Hs; [cbn|done].
  case_bool_decide as Hp; [cbn|done]. destruct (is_ok _); [cbn|done].
  destruct (verify_hex_tag _ _ _ _) eqn:Ht; [|done]. intros _.
  apply verify_hex_tag_Some in Ht. apply N.eqb_eq in Hv, Hs. split; [|done].
  destruct r. cbn in *. by subst.
Qed.

Lemma encode_hex_inj a b :
  length a = 32 → Forall (λ b, (b < 256)%N) a → length b = 32 → Forall (λ b, (b < 256)%N) b →
  encode_hex a = encode_hex b → a = b.
Proof.
  intros ???? Heq. apply (f_equal decode_hex_32) in Heq. rewrite !decode_encode_hex in Heq by done.
  by injection Heq.
Qed.
End tags.

Lemma verified_mac_canonical `{AuditLaws} r sequence prev key :
  verify_record r sequence prev key = Ok tt → canonical (AuditRecord.mac r).
Proof. intros [_ ->]%verify_record_Ok. apply authenticate_canonical. Qed.
