(* ===== verification/AuditLog.v ===== *)
(** * sv-audit/src/lib.rs: the log on disk

    The state is the vault's audit directory.  Every call of the operating system
    consumes one entry of a list of faults, which says whether it succeeds; a call
    that fails midway leaves the progress it made (the prefix of an append, the
    completed replacement whose directory sync failed).  A crash is the failure of
    every later call.  Replacements and renames are atomic; the temporary file a
    replacement goes through is not part of the state.  The advisory write lock makes
    each operation below one step for other writers: either it is free for the whole
    operation, or the operation returns [Busy]. *)
From Stdlib Require Import ZifyN ZifyNat ZifyBool.
From stdpp Require Import pretty.
From S2P Require Import Prelude AuditTypes.

Ltac Zify.zify_post_hook ::= Z.div_mod_to_equations.

(** ** Disk, faults and the monad of the operations *)

Inductive fault := Done | Fails (progress : nat) (message : string).

(** What is at the vault's root path; [RootLink] is a symbolic link to a directory. *)
Inductive root_state := RootMissing | RootDirectory | RootLink | RootFile.

Module World.
Record t := mk {
  root : root_state;
  disk : gmap string node;
  locked : bool;                 (* another instance holds the write lock *)
  faults : list fault
}.
Definition with_disk (w : t) (d : gmap string node) : t := mk (root w) d (locked w) (faults w).
Definition with_root (w : t) (r : root_state) : t := mk r (disk w) (locked w) (faults w).
(** The next fault, and the world after it is consumed. *)
Definition next (w : t) : fault * t :=
  match faults w with
  | [] => (Done, w)
  | f :: fs => (f, mk (root w) (disk w) (locked w) fs)
  end.
End World.

Definition M (A : Type) : Type := World.t → World.t * result A AuditError.t.

Definition ret {A} (v : A) : M A := λ w, (w, Ok v).
Definition fail {A} (e : AuditError.t) : M A := λ w, (w, Err e).
Definition bind {A B} (m : M A) (k : A → M B) : M B :=
  λ w, match m w with (w', Ok v) => k v w' | (w', Err e) => (w', Err e) end.
(** A pure [Result] with [?]. *)
Definition lift {A} (r : result A AuditError.t) : M A := λ w, (w, r).
(** The [Result] of a call as a value, without [?]. *)
Definition attempt {A} (m : M A) : M (result A AuditError.t) :=
  λ w, let '(w', r) := m w in (w', Ok r).

(** [let! x := m in k] is [let x = m?; k] for a call that touches the disk. *)
Notation "'let!' x ':=' m 'in' k" := (bind m (fun x => k))
  (at level 10, x pattern, m at level 100, k at level 200) : sv_scope.

(** A call that reads: it gives [f] of the disk, or fails. *)
Definition io_read {A} (f : gmap string node → result A io_error) : M A := λ w,
  let '(ft, w1) := World.next w in
  match ft with
  | Done => match f (World.disk w) with Ok v => (w1, Ok v) | Err e => (w1, Err (AuditError.Io e)) end
  | Fails _ m => (w1, Err (AuditError.Io (OtherIo m)))
  end.

(** A call that changes the disk to [f], or fails having changed it to [partial n]. *)
Definition io_write (f : gmap string node → gmap string node)
    (partial : nat → gmap string node → gmap string node) : M unit := λ w,
  let '(ft, w1) := World.next w in
  match ft with
  | Done => (World.with_disk w1 (f (World.disk w)), Ok tt)
  | Fails n m => (World.with_disk w1 (partial n (World.disk w)), Err (AuditError.Io (OtherIo m)))
  end.

(** An atomic change: done or not when it fails. *)
Definition atomic (f : gmap string node → gmap string node) (n : nat) (d : gmap string node) :=
  match n with 0 => d | S _ => f d end.

(** ** The calls of std::fs *)

(** [fs::symlink_metadata], its [Result] as a value. *)
Definition symlink_metadata (name : string) : M (result node io_error) := λ w,
  let '(ft, w1) := World.next w in
  match ft with
  | Done => (w1, Ok (match World.disk w !! name with Some n => Ok n | None => Err NotFound end))
  | Fails _ m => (w1, Ok (Err (OtherIo m)))
  end.

(** [fs::read]; the callers have seen a regular file there. *)
Definition fs_read (name : string) : M (list N) :=
  io_read (λ d, match d !! name with
                | Some (File bytes) => Ok bytes
                | Some NotFile => Err (OtherIo "not a regular file")
                | None => Err NotFound
                end).

(** [fs::read_dir] and its iteration. *)
Definition read_dir_entries_of `{AuditEnv} : M (list (string * node)) := io_read (λ d, Ok (read_dir d)).

Definition sync_directory : M unit := io_read (λ _, Ok tt).

Definition put_file (name : string) (bytes : list N) (d : gmap string node) : gmap string node :=
  <[name := File bytes]> d.

Definition append_bytes (name : string) (bytes : list N) (d : gmap string node) : gmap string node :=
  match d !! name with Some (File old) => <[name := File (old ++ bytes)]> d | _ => d end.

Definition rename_file (from to : string) (d : gmap string node) : gmap string node :=
  match d !! from with Some n => <[to := n]> (delete from d) | None => d end.

(** [OpenOptions::new().append(true).open(path)?], [write_all] and [sync_all]. *)
Definition append_file (name : string) (bytes : list N) : M unit := λ w,
  match World.disk w !! name with
  | None => (w, Err (AuditError.Io NotFound))
  | Some _ => io_write (append_bytes name bytes) (λ n, append_bytes name (take n bytes)) w
  end.

Definition fs_rename (from to : string) : M unit := λ w,
  match World.disk w !! from with
  | None => (w, Err (AuditError.Io NotFound))
  | Some _ => io_write (rename_file from to) (atomic (rename_file from to)) w
  end.

Section log.
Context `{E : AuditEnv}.

(** ** Regular files *)

Definition ensure_regular_metadata (name : string) (metadata : node) (label : string) :
    result unit AuditError.t :=
  match metadata with
  | File _ => Ok tt
  | NotFile => Err (AuditError.Integrity (label +:+ (" is not a regular file: " +:+ show_path name)))
  end.

Definition ensure_regular_file (name label : string) : M unit :=
  let! metadata := symlink_metadata name in
  match metadata with
  | Ok metadata => lift (ensure_regular_metadata name metadata label)
  | Err NotFound => fail (AuditError.Integrity (label +:+ (" is missing: " +:+ show_path name)))
  | Err error => fail (AuditError.Io error)
  end.

Definition node_len (n : node) : N :=
  match n with File bytes => N.of_nat (length bytes) | NotFile => 0 end.

Definition regular_file_len (name label : string) : M N :=
  let! metadata := symlink_metadata name in
  match metadata with
  | Ok metadata => let! _ := lift (ensure_regular_metadata name metadata label) in ret (node_len metadata)
  | Err error => fail (AuditError.Io error)
  end.

(** The temporary file is written and synced, the destination is checked, the file
    is renamed over it, and the directory is synced. *)
Definition atomic_replace (name : string) (bytes : list N) : M unit :=
  let! metadata := symlink_metadata name in
  let! _ := match metadata with
            | Ok metadata => lift (ensure_regular_metadata name metadata "audit destination")
            | Err _ => ret tt
            end in
  io_write (put_file name bytes) (atomic (put_file name bytes)).

(** [fs::create_dir_all] makes a missing directory and refuses a file. *)
Definition ensure_root (create : bool) : M unit := λ w,
  let '(ft, w1) := World.next w in
  match ft with
  | Fails _ m => (w1, Err (AuditError.Io (OtherIo m)))
  | Done =>
      match World.root w with
      | RootDirectory => (w1, Ok tt)
      | RootMissing =>
          if create then (World.with_root w1 RootDirectory, Ok tt)
          else (w1, Err (AuditError.NotInitialized ("vault directory is missing: " +:+ show_path "")))
      | RootFile =>
          if create then (w1, Err (AuditError.Io (OtherIo "File exists")))
          else (w1, Err (AuditError.Integrity
                           ("vault audit root is not a regular directory: " +:+ show_path "")))
      | RootLink =>
          (w1, Err (AuditError.Integrity ("vault audit root is not a regular directory: " +:+ show_path "")))
      end
  end.

Definition NOT_A_LOCK : AuditError.t :=
  AuditError.Integrity ("audit write lock is not a regular file: " +:+ show_path LOCK_FILE).

Definition make_lock_file (d : gmap string node) : gmap string node :=
  match d !! LOCK_FILE with None => put_file LOCK_FILE [] d | Some _ => d end.

(** The [open] of the lock file, with [create(true)]. *)
Definition open_lock_file : M unit := λ w,
  match World.root w with
  | RootMissing => (w, Err NOT_A_LOCK)
  | RootFile => (w, Err (AuditError.Io (OtherIo "Not a directory")))
  | RootDirectory | RootLink => io_write make_lock_file (atomic make_lock_file) w
  end.

(** [AuditWriteLock::acquire]: the lock file is created when it is missing; the guard
    is released when the operation returns. *)
Definition acquire_lock : M unit :=
  let! metadata := symlink_metadata LOCK_FILE in
  let! _ := match metadata with Ok NotFile => fail NOT_A_LOCK | _ => ret tt end in
  let! _ := open_lock_file in
  let! _ := sync_directory in
  λ w, if World.locked w then (w, Err AuditError.Busy) else (w, Ok tt).

(** ** Archives *)

(** The [k] decimal digits of [n], most significant first; 20 digits hold any [u64]. *)
Fixpoint dec_digits (k : nat) (n : N) : list N :=
  match k with
  | 0 => []
  | S k' => dec_digits k' (n / 10) ++ [(48 + n mod 10)%N]
  end.

Definition archive_name (segment : N) : string :=
  ARCHIVE_PREFIX +:+ (str_of_bytes (dec_digits ARCHIVE_DIGITS segment) +:+ ARCHIVE_SUFFIX).

(** The part between prefix and suffix, which cannot overlap. *)
Definition archive_digits (name : string) : option string :=
  rest ← strip_prefix ARCHIVE_PREFIX name; strip_suffix ARCHIVE_SUFFIX rest.

Definition digits_value (digits : list N) : N := foldl (λ acc b, acc * 10 + (b - 48))%N 0%N digits.

Fixpoint collect_segments (entries : list (string * node)) (segments : gset N) : M (gset N) :=
  match entries with
  | [] => ret segments
  | (name, _) :: entries' =>
      match archive_digits name with
      | None => collect_segments entries' segments
      | Some digits =>
          if negb (length (str_bytes digits) =? ARCHIVE_DIGITS)
             || negb (forallb is_ascii_digit (str_bytes digits)) then
            fail (AuditError.Integrity ("unrecognized audit archive name: " +:+ name))
          else
            let segment := digits_value (str_bytes digits) in
            if (u64_max <? segment)%N then
              fail (AuditError.Integrity ("invalid audit archive segment: " +:+ name))
            else
              let! metadata := symlink_metadata name in
              let! metadata := lift (match metadata with Ok n => Ok n | Err e => Err (AuditError.Io e) end) in
              let! _ := lift (ensure_regular_metadata name metadata "audit archive") in
              collect_segments entries' ({[segment]} ∪ segments)
      end
  end.

Definition archive_segments : M (gset N) :=
  let! entries := read_dir_entries_of in collect_segments entries ∅.

Definition first_audit_artifact : M (option string) :=
  let! checkpoint := symlink_metadata CHECKPOINT_FILE in
  if is_ok checkpoint then ret (Some CHECKPOINT_FILE) else
  let! active := symlink_metadata AUDIT_FILE in
  if is_ok active then ret (Some AUDIT_FILE) else
  let! entries := read_dir_entries_of in
  ret (fst <$> List.find (λ entry : string * node, bool_decide (is_Some (archive_digits entry.1))) entries).

(** [(0..n).collect::<BTreeSet<u64>>()], and the ranges the paths are made of. *)
Definition range (n : N) : list N := N.of_nat <$> seq 0 (N.to_nat n).
Definition range_set (n : N) : gset N := list_to_set (range n).
Definition archive_paths (n : N) : list string := archive_name <$> range n.

(** [{:?}] of a [BTreeSet<u64>]. *)
Definition debug_set (s : gset N) : string :=
  "{" +:+ (String.concat ", " (pretty <$> sort_by N.leb (elements s)) +:+ "}").
End log.

Module VerifyReport.
Record t := mk {
  ok : bool;
  entries : N;
  legacy_entries : N;
  first_broken : option N;
  reason : option string
}.
Definition success (entries : N) : t := mk true entries 0 None None.
Definition failure (entries legacy_entries : N) (reason : string) : t :=
  mk false entries legacy_entries (Some entries) (Some reason).
End VerifyReport.

Module ScanResult.
Inductive t :=
| Valid (entries : N) (head_mac : string)
| Invalid (report : VerifyReport.t).
End ScanResult.

(** The struct [AuditLog]: the paths are the constants above. *)
Module AuditLog.
Record t := mk {
  max_bytes : N;
  key : list N;
  poisoned : bool                (* the state of the [operation] mutex *)
}.
Definition build (key : list N) (max_bytes : N) : t := mk max_bytes key false.
End AuditLog.

Section operations.
Context `{E : AuditEnv}.
Context (log : AuditLog.t).
Notation key := (AuditLog.key log).

(** ** Scanning *)

(** The loop over [text.lines()]. *)
Fixpoint scan_lines (ls : list (list N)) (expected_sequence : N) (expected_prev : string) :
    result ScanResult.t AuditError.t :=
  match ls with
  | [] => Ok (ScanResult.Valid expected_sequence expected_prev)
  | line :: ls' =>
      if bool_decide (line = []) then
        Ok (ScanResult.Invalid (VerifyReport.failure expected_sequence 0 "blank audit record"))
      else
        match parse_record line with
        | None =>
            let legacy := is_json line in
            Ok (ScanResult.Invalid (VerifyReport.failure expected_sequence (if legacy then 1 else 0)
              (if legacy then "legacy or unauthenticated audit record is not accepted"
               else "malformed audit record")))
        | Some record =>
            match verify_record record expected_sequence expected_prev key with
            | Err reason => Ok (ScanResult.Invalid (VerifyReport.failure expected_sequence 0 reason))
            | Ok _ =>
                let? next := ok_or (checked_add_u64 expected_sequence 1)
                               (AuditError.Integrity "record sequence overflow") in
                scan_lines ls' next (AuditRecord.mac record)
            end
        end
  end.

(** One segment's bytes. *)
Definition scan_segment (path : string) (raw : list N) (expected_sequence : N) (expected_prev : string) :
    result ScanResult.t AuditError.t :=
  if negb (bool_decide (raw = [])) && negb (bool_decide (last raw = Some 10%N)) then
    Ok (ScanResult.Invalid (VerifyReport.failure expected_sequence 0
      ("segment has an incomplete final record: " +:+ show_path path)))
  else if negb (utf8_valid raw) then
    Ok (ScanResult.Invalid (VerifyReport.failure expected_sequence 0
      ("segment is not valid UTF-8: " +:+ show_path path)))
  else scan_lines (lines raw) expected_sequence expected_prev.

Fixpoint scan_paths_from (paths : list string) (expected_sequence : N) (expected_prev : string) :
    M ScanResult.t :=
  match paths with
  | [] => ret (ScanResult.Valid expected_sequence expected_prev)
  | path :: paths' =>
      let! _ := ensure_regular_file path "audit segment" in
      let! raw := fs_read path in
      let! scanned := lift (scan_segment path raw expected_sequence expected_prev) in
      match scanned with
      | ScanResult.Valid sequence prev => scan_paths_from paths' sequence prev
      | ScanResult.Invalid report => ret (ScanResult.Invalid report)
      end
  end.

Definition scan_paths (paths : list string) : M ScanResult.t := scan_paths_from paths 0 GENESIS_PREV.

(** ** The checkpoint file *)

Definition load_checkpoint : M Checkpoint.t :=
  let! metadata := symlink_metadata CHECKPOINT_FILE in
  match metadata with
  | Err NotFound =>
      let! artifact := first_audit_artifact in
      fail (AuditError.NotInitialized
        (match artifact with
         | Some _ => "checkpoint is missing while audit artifacts exist"
         | None => "checkpoint is missing"
         end))
  | Err error => fail (AuditError.Io error)
  | Ok metadata =>
      let! _ := lift (ensure_regular_metadata CHECKPOINT_FILE metadata "audit checkpoint") in
      let! bytes := fs_read CHECKPOINT_FILE in
      let! checkpoint := lift (match parse_checkpoint bytes with
                               | Ok c => Ok c
                               | Err e => Err (AuditError.Integrity ("malformed audit checkpoint: " +:+ e))
                               end) in
      let! _ := lift (checkpoint_verify checkpoint key) in
      ret checkpoint
  end.

Definition write_checkpoint (checkpoint : Checkpoint.t) : M unit :=
  atomic_replace CHECKPOINT_FILE (checkpoint_json checkpoint ++ [10%N]).

(** [record_count.checked_sub(active_record_count)]. *)
Definition start_sequence (checkpoint : Checkpoint.t) : result N AuditError.t :=
  ok_or (checked_sub (Checkpoint.record_count checkpoint) (Checkpoint.active_record_count checkpoint))
    (AuditError.Integrity "invalid active record count").

(** ** Verification *)

Definition verify_against (checkpoint : Checkpoint.t) : M VerifyReport.t :=
  let! archives := attempt archive_segments in
  match archives with
  | Err error => ret (VerifyReport.failure 0 0 (AuditError.to_string error))
  | Ok archives =>
      let expected_archives := range_set (Checkpoint.active_segment checkpoint) in
      if negb (bool_decide (archives = expected_archives)) then
        ret (VerifyReport.failure 0 0 ("archive set mismatch: expected " +:+ (debug_set expected_archives +:+
               (", found " +:+ debug_set archives))))
      else
        let! active := attempt (ensure_regular_file AUDIT_FILE "active audit log") in
        match active with
        | Err error => ret (VerifyReport.failure 0 0 (AuditError.to_string error))
        | Ok _ =>
            let! archived := scan_paths (archive_paths (Checkpoint.active_segment checkpoint)) in
            match archived with
            | ScanResult.Invalid report => ret report
            | ScanResult.Valid archived_entries archived_head =>
                let! expected_archive_records := lift (start_sequence checkpoint) in
                if negb (archived_entries =? expected_archive_records)%N
                   || negb (bool_decide (archived_head = Checkpoint.active_start_prev_mac checkpoint)) then
                  ret (VerifyReport.failure archived_entries 0
                         "active segment boundary does not match checkpoint")
                else
                  let! scanned := scan_paths_from [AUDIT_FILE] archived_entries archived_head in
                  match scanned with
                  | ScanResult.Invalid report => ret report
                  | ScanResult.Valid entries head_mac =>
                      if negb (entries =? Checkpoint.record_count checkpoint)%N then
                        ret (VerifyReport.failure entries 0
                          ("checkpoint record count mismatch: expected " +:+
                           (pretty (Checkpoint.record_count checkpoint) +:+
                            (", found " +:+ pretty entries))))
                      else if negb (bool_decide (head_mac = Checkpoint.head_mac checkpoint)) then
                        ret (VerifyReport.failure entries 0 "checkpoint head MAC mismatch")
                      else ret (VerifyReport.success entries)
                  end
            end
        end
  end.

Definition verify_active_against (checkpoint : Checkpoint.t) : M VerifyReport.t :=
  let! active := attempt (ensure_regular_file AUDIT_FILE "active audit log") in
  match active with
  | Err error => ret (VerifyReport.failure 0 0 (AuditError.to_string error))
  | Ok _ =>
      let! start := lift (start_sequence checkpoint) in
      let! scanned := scan_paths_from [AUDIT_FILE] start (Checkpoint.active_start_prev_mac checkpoint) in
      match scanned with
      | ScanResult.Invalid report => ret report
      | ScanResult.Valid entries head_mac =>
          if negb (entries =? Checkpoint.record_count checkpoint)%N
             || negb (bool_decide (head_mac = Checkpoint.head_mac checkpoint)) then
            ret (VerifyReport.failure entries 0 "active segment does not match checkpoint")
          else ret (VerifyReport.success (Checkpoint.record_count checkpoint))
      end
  end.

Definition verify_committed_archives (checkpoint : Checkpoint.t) : M VerifyReport.t :=
  let! archives := archive_segments in
  let expected := range_set (Checkpoint.active_segment checkpoint) in
  let interrupted_rotation := range_set (Checkpoint.active_segment checkpoint + 1) in
  if negb (bool_decide (archives = expected)) && negb (bool_decide (archives = interrupted_rotation)) then
    ret (VerifyReport.failure 0 0 ("committed archive set mismatch: expected " +:+ (debug_set expected +:+
           (", found " +:+ debug_set archives))))
  else
    let! scanned := scan_paths (archive_paths (Checkpoint.active_segment checkpoint)) in
    match scanned with
    | ScanResult.Invalid report => ret report
    | ScanResult.Valid entries head_mac =>
        let! expected_entries := lift (start_sequence checkpoint) in
        if negb (entries =? expected_entries)%N
           || negb (bool_decide (head_mac = Checkpoint.active_start_prev_mac checkpoint)) then
          ret (VerifyReport.failure entries 0 "committed archive boundary does not match checkpoint")
        else ret (VerifyReport.success entries)
    end.

Definition verify_locked : M VerifyReport.t :=
  let! checkpoint := load_checkpoint in verify_against checkpoint.

(** The [operation] mutex of the log. *)
Definition lock_operation : M unit :=
  if AuditLog.poisoned log then fail AuditError.LockPoisoned else ret tt.

Definition verify_chain : M VerifyReport.t :=
  let! _ := lock_operation in
  let! _ := acquire_lock in
  verify_locked.

(** [if !report.ok { return Err(Integrity(report.reason.unwrap_or_else(..))) }]. *)
Definition require_ok (report : VerifyReport.t) (otherwise : string) : M unit :=
  if VerifyReport.ok report then ret tt
  else fail (AuditError.Integrity (default otherwise (VerifyReport.reason report))).

(** ** Recovery *)

(** The active file holds exactly one valid record beyond the checkpoint: commit it. *)
Definition advance (checkpoint : Checkpoint.t) (entries : N) (head_mac : string) : M Checkpoint.t :=
  let! active_record_count := lift (ok_or (checked_add_u64 (Checkpoint.active_record_count checkpoint) 1)
                                      (AuditError.Integrity "active record count overflow")) in
  ret (checkpoint_signed entries head_mac (Checkpoint.active_segment checkpoint) active_record_count
         (Checkpoint.active_start_prev_mac checkpoint) key).

(** The first half of [recover_interrupted_commit]: [Some true] is its early return. *)
Definition recover_append (checkpoint : Checkpoint.t) (start : N) : M (option bool) :=
  let! active := attempt (ensure_regular_file AUDIT_FILE "active audit log") in
  if negb (is_ok active) then ret None else
  let! scanned := scan_paths_from [AUDIT_FILE] start (Checkpoint.active_start_prev_mac checkpoint) in
  match scanned with
  | ScanResult.Invalid _ => ret None
  | ScanResult.Valid entries head_mac =>
      if (entries =? Checkpoint.record_count checkpoint)%N
         && bool_decide (head_mac = Checkpoint.head_mac checkpoint) then ret (Some true)
      else if (entries =? N.min (Checkpoint.record_count checkpoint + 1) u64_max)%N
              && negb (bool_decide (head_mac = Checkpoint.head_mac checkpoint)) then
        let! checkpoint' := advance checkpoint entries head_mac in
        let! _ := write_checkpoint checkpoint' in
        ret (Some true)
      else ret None
  end.

(** The checkpoint of the next, empty segment. *)
Definition next_segment (checkpoint : Checkpoint.t) (start_prev : string) : M Checkpoint.t :=
  let! segment := lift (ok_or (checked_add_u64 (Checkpoint.active_segment checkpoint) 1)
                          (AuditError.Integrity "segment sequence overflow")) in
  ret (checkpoint_signed (Checkpoint.record_count checkpoint) (Checkpoint.head_mac checkpoint)
         segment 0 start_prev key).

(** The second half: the active file was renamed and the checkpoint not yet advanced. *)
Definition recover_rotation (checkpoint : Checkpoint.t) : M bool :=
  let! archives := archive_segments in
  let interrupted_rotation := range_set (Checkpoint.active_segment checkpoint + 1) in
  if negb (bool_decide (archives = interrupted_rotation)) then ret false else
  let! scanned := scan_paths (archive_paths (Checkpoint.active_segment checkpoint + 1)) in
  match scanned with
  | ScanResult.Invalid _ => ret false
  | ScanResult.Valid entries head_mac =>
      if negb (entries =? Checkpoint.record_count checkpoint)%N
         || negb (bool_decide (head_mac = Checkpoint.head_mac checkpoint)) then ret false
      else
        let! metadata := symlink_metadata AUDIT_FILE in
        let! empty :=
          match metadata with
          | Ok metadata =>
              let! _ := lift (ensure_regular_metadata AUDIT_FILE metadata "active audit log") in
              ret (node_len metadata =? 0)%N
          | Err NotFound => let! _ := atomic_replace AUDIT_FILE [] in ret true
          | Err error => fail (AuditError.Io error)
          end in
        if negb empty then ret false
        else
          let! checkpoint' := next_segment checkpoint head_mac in
          let! _ := write_checkpoint checkpoint' in
          ret true
  end.

Definition recover_interrupted_commit : M bool :=
  let! checkpoint := load_checkpoint in
  let! start := lift (start_sequence checkpoint) in
  let! early := recover_append checkpoint start in
  match early with
  | Some b => ret b
  | None => recover_rotation checkpoint
  end.

(** ** Appending *)

Definition record_line (record : AuditRecord.t) : list N := record_json record ++ [10%N].

Definition rotate (checkpoint : Checkpoint.t) : M Checkpoint.t :=
  let archive := archive_name (Checkpoint.active_segment checkpoint) in
  let! existing := symlink_metadata archive in
  if is_ok existing then
    fail (AuditError.Integrity ("rotation destination already exists: " +:+ show_path archive))
  else
    let! _ := ensure_regular_file AUDIT_FILE "active audit log" in
    let! _ := fs_rename AUDIT_FILE archive in
    let! _ := sync_directory in
    let! _ := atomic_replace AUDIT_FILE [] in
    let! checkpoint' := next_segment checkpoint (Checkpoint.head_mac checkpoint) in
    let! _ := write_checkpoint checkpoint' in
    ret checkpoint'.

Definition sign_next (checkpoint : Checkpoint.t) (event : AuditEvent.t) : AuditRecord.t :=
  sign_record (Checkpoint.record_count checkpoint) (Checkpoint.head_mac checkpoint) event key.

(** The append and the checkpoint that follows it. *)
Definition commit_record (checkpoint : Checkpoint.t) (record : AuditRecord.t) : M unit :=
  let! _ := append_file AUDIT_FILE (record_line record) in
  let! record_count := lift (ok_or (checked_add_u64 (Checkpoint.record_count checkpoint) 1)
                               (AuditError.Integrity "record sequence overflow")) in
  let! checkpoint' := advance checkpoint record_count (AuditRecord.mac record) in
  write_checkpoint checkpoint'.

Definition record (event : AuditEvent.t) : M unit :=
  let! _ := lock_operation in
  let! _ := acquire_lock in
  let! active_verified := recover_interrupted_commit in
  let! checkpoint := load_checkpoint in
  let! _ := if active_verified then ret tt
            else let! report := verify_active_against checkpoint in
                 require_ok report "verification failed" in
  let redacted := redact key event in
  let record := sign_next checkpoint redacted in
  let line := record_line record in
  if (MAX_ACTIVE_VERIFY_BYTES <? N.of_nat (length line))%N then
    fail (AuditError.Integrity
      ("audit record exceeds the " +:+ (pretty MAX_ACTIVE_VERIFY_BYTES +:+ " byte limit")))
  else
    let! active_len := regular_file_len AUDIT_FILE "active audit log" in
    let active_limit := N.min (AuditLog.max_bytes log) MAX_ACTIVE_VERIFY_BYTES in
    if ((0 <? active_len) && (active_limit <? N.min (active_len + N.of_nat (length line)) u64_max))%N then
      let! checkpoint' := rotate checkpoint in
      commit_record checkpoint' (sign_next checkpoint' redacted)
    else commit_record checkpoint record.
End operations.

(** ** Creation and opening *)

Section lifecycle.
Context `{E : AuditEnv}.

Definition create_with_max_bytes (authentication_key : list N) (max_bytes : N) : M AuditLog.t :=
  let! _ := ensure_root true in
  let log := AuditLog.build authentication_key max_bytes in
  let! _ := acquire_lock in
  let! archives := archive_segments in
  let! has_state := if negb (bool_decide (archives = ∅)) then ret true
                    else let! checkpoint := symlink_metadata CHECKPOINT_FILE in ret (is_ok checkpoint) in
  if has_state then
    let! path := first_audit_artifact in
    fail (AuditError.AlreadyExists (show_path (default "" path)))
  else
    let! metadata := symlink_metadata AUDIT_FILE in
    let! _ := match metadata with
              | Ok metadata =>
                  let! _ := lift (ensure_regular_metadata AUDIT_FILE metadata "active audit log") in
                  if negb (node_len metadata =? 0)%N
                  then fail (AuditError.AlreadyExists (show_path AUDIT_FILE)) else ret tt
              | Err NotFound => atomic_replace AUDIT_FILE []
              | Err error => fail (AuditError.Io error)
              end in
    let! _ := write_checkpoint (checkpoint_genesis authentication_key) in
    ret log.

Definition create (authentication_key : list N) : M AuditLog.t :=
  create_with_max_bytes authentication_key DEFAULT_MAX_BYTES.

Definition open_with_max_bytes (authentication_key : list N) (max_bytes : N) : M AuditLog.t :=
  let! _ := ensure_root false in
  let log := AuditLog.build authentication_key max_bytes in
  let! _ := acquire_lock in
  let! checkpoint := load_checkpoint log in
  let! archive_report := verify_committed_archives log checkpoint in
  let! _ := require_ok archive_report "archive verification failed" in
  let! _ := recover_interrupted_commit log in
  let! report := verify_locked log in
  let! _ := require_ok report "verification failed" in
  ret log.

Definition open (authentication_key : list N) : M AuditLog.t :=
  open_with_max_bytes authentication_key DEFAULT_MAX_BYTES.

Definition with_hmac_key (authentication_key : list N) : M AuditLog.t := open authentication_key.
End lifecycle.
