(* ===== verification/AuditInstance.v ===== *)
(** * A concrete environment for the audit log

    A serializer with an exact inverse and a checksum in place of HMAC-SHA256: they
    satisfy [AuditLaws], so the theorems about the audit log are not vacuous, and
    the operations can be evaluated. *)
From S2P Require Import Prelude AuditTypes.

(** ** Bit codecs *)

Class Codec (A : Type) := {
  enc : A → list bool;
  dec : list bool → option (A * list bool);
  dec_enc : ∀ a rest, dec (enc a ++ rest) = Some (a, rest)
}.

(** A codec for a type that embeds into one with a codec. *)
Definition codec_via {A B} `{Codec B} (f : A → B) (g : B → option A)
    (Hfg : ∀ a, g (f a) = Some a) : Codec A.
Proof.
  refine {| enc := λ a, enc (f a);
            dec := λ l, '(b, rest) ← dec l; a ← g b; Some (a, rest) |}.
  intros a rest. rewrite dec_enc. cbn. by rewrite Hfg.
Defined.

#[global] Instance bool_codec : Codec bool.
Proof.
  refine {| enc := λ b, [b]; dec := λ l, match l with b :: rest => Some (b, rest) | [] => None end |}.
  done.
Defined.

Fixpoint pos_enc (p : positive) : list bool :=
  match p with
  | xH => [false]
  | xO p' => true :: false :: pos_enc p'
  | xI p' => true :: true :: pos_enc p'
  end.

Fixpoint pos_dec (l : list bool) : option (positive * list bool) :=
  match l with
  | false :: rest => Some (xH, rest)
  | true :: b :: l' => '(p, rest) ← pos_dec l'; Some (if b then xI p else xO p, rest)
  | _ => None
  end.

#[global] Instance positive_codec : Codec positive.
Proof.
  refine {| enc := pos_enc; dec := pos_dec |}.
  induction a as [p IH|p IH|]; intros rest; cbn; [by rewrite IH..|done].
Defined.

#[global] Instance N_codec : Codec N.
Proof.
  refine (codec_via N.succ_pos (λ p, Some (Pos.pred_N p)) _).
  intros a. by rewrite N.pos_pred_succ.
Defined.

#[global] Instance prod_codec {A B} `{Codec A, Codec B} : Codec (A * B).
Proof.
  refine {| enc := λ p, enc p.1 ++ enc p.2;
            dec := λ l, '(a, l1) ← dec l; '(b, l2) ← dec l1; Some ((a, b), l2) |}.
  intros [a b] rest. cbn. rewrite <-app_assoc, dec_enc. cbn. rewrite dec_enc. done.
Defined.

#[global] Instance option_codec {A} `{Codec A} : Codec (option A).
Proof.
  refine {| enc := λ o, match o with Some a => true :: enc a | None => [false] end;
            dec := λ l, match l with
                        | true :: l' => '(a, rest) ← dec l'; Some (Some a, rest)
                        | false :: rest => Some (None, rest)
                        | [] => None
                        end |}.
  intros [a|] rest; cbn; [by rewrite dec_enc|done].
Defined.

(** A string is the number whose base-256 digits are its bytes, after a leading one. *)
Fixpoint str_pos (s : string) : positive :=
  match s with
  | EmptyString => xH
  | String (Ascii b0 b1 b2 b3 b4 b5 b6 b7) s' =>
      let bit (b : bool) p := if b then xI p else xO p in
      bit b0 (bit b1 (bit b2 (bit b3 (bit b4 (bit b5 (bit b6 (bit b7 (str_pos s'))))))))
  end.

Definition pop (p : positive) : option (bool * positive) :=
  match p with xH => None | xO q => Some (false, q) | xI q => Some (true, q) end.

Fixpoint pos_str (fuel : nat) (p : positive) : option string :=
  match p, fuel with
  | xH, _ => Some EmptyString
  | _, 0 => None
  | _, S fuel' =>
      '(b0, p) ← pop p; '(b1, p) ← pop p; '(b2, p) ← pop p; '(b3, p) ← pop p;
      '(b4, p) ← pop p; '(b5, p) ← pop p; '(b6, p) ← pop p; '(b7, p) ← pop p;
      String (Ascii b0 b1 b2 b3 b4 b5 b6 b7) <$> pos_str fuel' p
  end.

Lemma pos_str_pos s fuel : String.length s ≤ fuel → pos_str fuel (str_pos s) = Some s.
Proof.
  revert fuel. induction s as [|a s IH]; intros fuel Hf; [by destruct fuel|].
  destruct fuel as [|fuel]; [simpl in Hf; lia|]. destruct a as [b0 b1 b2 b3 b4 b5 b6 b7].
  assert (pos_str fuel (str_pos s) = Some s) as Hs by (apply IH; simpl in Hf; lia).
  cbn [str_pos]. destruct b0; cbn [pos_str pop mbind option_bind];
    (destruct b1, b2, b3, b4, b5, b6, b7; cbn; by rewrite Hs).
Qed.

Lemma str_pos_size s : String.length s ≤ Pos.size_nat (str_pos s).
Proof.
  induction s as [|a s IH]; cbn [String.length]; [simpl; lia|].
  destruct a as [[] [] [] [] [] [] [] []]; cbn; lia.
Qed.

#[global] Instance string_codec : Codec string.
Proof.
  refine (codec_via str_pos (λ p, pos_str (Pos.size_nat p) p) _).
  intros s. apply pos_str_pos, str_pos_size.
Defined.

#[global] Instance Z_codec : Codec Z.
Proof.
  refine (codec_via (λ z, (Z.ltb z 0, Z.abs_N z))
            (λ '(neg, n), Some (if neg : bool then (- Z.of_N n)%Z else Z.of_N n)) _).
  intros z. f_equal. destruct (Z.ltb_spec z 0); lia.
Defined.

(** ** The audit data *)

Definition actions : list AuditAction.t :=
  [AuditAction.VaultInit; AuditAction.VaultUnlock; AuditAction.VaultUnlockRecovery;
    AuditAction.VaultLock; AuditAction.RecoveryIssued; AuditAction.PassphraseChanged;
    AuditAction.KeyRotated; AuditAction.ListContainers; AuditAction.ListFiles; AuditAction.ReadFile;
    AuditAction.WriteFile; AuditAction.DeleteFile; AuditAction.CreateContainer;
    AuditAction.DeleteContainer; AuditAction.AgentCreate; AuditAction.AgentList;
    AuditAction.AgentRevoke; AuditAction.AgentExport; AuditAction.AgentImport;
    AuditAction.CreateTransitKey; AuditAction.ListTransitKeys; AuditAction.Encrypt;
    AuditAction.Decrypt; AuditAction.CreateSigningKey; AuditAction.ListSigningKeys; AuditAction.Sign;
    AuditAction.Verify; AuditAction.CreateBrokerSecret; AuditAction.ListBrokerSecrets;
    AuditAction.Broker; AuditAction.VaultInfo; AuditAction.ScanRun; AuditAction.ScanStore;
    AuditAction.ScanReveal; AuditAction.PlanCreate; AuditAction.PlanApprove; AuditAction.PlanExecute;
    AuditAction.RedactionRestore].

(** The position of a value in the list of all values. *)
Definition index_of {A} `{EqDecision A} (l : list A) (a : A) : N :=
  match list_find (a =.) l with Some (i, _) => N.of_nat i | None => 0 end.

#[global] Instance action_codec : Codec AuditAction.t.
Proof.
  refine (codec_via (index_of actions) (λ n, actions !! N.to_nat n) _). by intros [].
Defined.

#[global] Instance decision_codec : Codec AuditDecision.t.
Proof.
  refine (codec_via (index_of [AuditDecision.Attempted; AuditDecision.Allowed; AuditDecision.Denied;
    AuditDecision.Error])
            (λ n, [AuditDecision.Attempted; AuditDecision.Allowed; AuditDecision.Denied;
    AuditDecision.Error] !! N.to_nat n) _). by intros [].
Defined.

#[global] Instance outcome_codec : Codec PresenceOutcome.t.
Proof.
  refine (codec_via (λ o, bool_decide (o = PresenceOutcome.Click))
            (λ b : bool,
    Some (if b then PresenceOutcome.Click else PresenceOutcome.DeviceOwnerAuthenticated)) _).
  by intros [].
Defined.

#[global] Instance modality_codec : Codec PresenceModality.t.
Proof.
  refine (codec_via (index_of [PresenceModality.Biometric; PresenceModality.Password;
    PresenceModality.Pin; PresenceModality.Unknown])
            (λ n, [PresenceModality.Biometric; PresenceModality.Password; PresenceModality.Pin;
    PresenceModality.Unknown] !! N.to_nat n) _). by intros [].
Defined.

#[global] Instance presence_codec : Codec PresenceAudit.t.
Proof.
  refine (codec_via (λ p : PresenceAudit.t, (PresenceAudit.protected p, PresenceAudit.outcome p,
              PresenceAudit.modality p, PresenceAudit.operation_id p))
            (λ '(a, b, c, d), Some (PresenceAudit.mk a b c d)) _). by intros [].
Defined.

#[global] Instance event_codec : Codec AuditEvent.t.
Proof.
  refine (codec_via (λ e : AuditEvent.t, (AuditEvent.timestamp e, AuditEvent.action e,
    AuditEvent.decision e, AuditEvent.transport e, AuditEvent.container e, AuditEvent.file_name e,
    AuditEvent.mode e, AuditEvent.byte_size e, AuditEvent.detail e, AuditEvent.error e,
    AuditEvent.agent_id e, AuditEvent.presence e))
            (λ '(a, b, c, d, e, f, g, h, i, j, k, l), Some (AuditEvent.mk a b c d e f g h i j k l)) _).
  by intros [].
Defined.

#[global] Instance payload_codec : Codec RecordPayload.t.
Proof.
  refine (codec_via (λ p : RecordPayload.t, (RecordPayload.format_version p, RecordPayload.sequence p,
    RecordPayload.prev_mac p, RecordPayload.event p))
            (λ '(a, b, c, d), Some (RecordPayload.mk a b c d)) _). by intros [].
Defined.

#[global] Instance record_codec : Codec AuditRecord.t.
Proof.
  refine (codec_via (λ r : AuditRecord.t,
              (AuditRecord.format_version r, AuditRecord.sequence r, AuditRecord.prev_mac r,
    AuditRecord.event r, AuditRecord.mac r))
            (λ '(a, b, c, d, e), Some (AuditRecord.mk a b c d e)) _). by intros [].
Defined.

#[global] Instance checkpoint_codec : Codec Checkpoint.t.
Proof.
  refine (codec_via (λ c : Checkpoint.t, (Checkpoint.format_version c, Checkpoint.record_count c,
    Checkpoint.head_mac c, Checkpoint.active_segment c, Checkpoint.active_record_count c,
    Checkpoint.active_start_prev_mac c, Checkpoint.mac c))
            (λ '(a, b, c, d, e, f, g), Some (Checkpoint.mk a b c d e f g)) _). by intros [].
Defined.

(** ** Text and checksum *)

(** Bits as the characters 0 and 1, after an opening bracket. *)
Definition text {A} `{Codec A} (a : A) : list N :=
  91%N :: ((λ b : bool, if b then 49 else 48)%N <$> enc a).

Definition read_text {A} `{Codec A} (l : list N) : option A :=
  match l with
  | 91%N :: l' => fst <$> dec ((λ c, (c =? 49)%N) <$> l')
  | _ => None
  end.

Lemma read_text_app {A} `{Codec A} (a : A) extra : read_text (text a ++ extra) = Some a.
Proof.
  cbn [text read_text app]. rewrite fmap_app, <-list_fmap_compose.
  assert (((λ c, (c =? 49)%N) ∘ (λ b : bool, if b then 49 else 48)%N) <$> enc a = enc a) as ->.
  { induction (enc a) as [|[] l IH]; cbn; by rewrite ?IH. }
  by rewrite dec_enc.
Qed.

Lemma read_text_text {A} `{Codec A} (a : A) : read_text (text a) = Some a.
Proof. rewrite <-(app_nil_r (text a)). apply read_text_app. Qed.

Lemma text_chars {A} `{Codec A} (a : A) : Forall (λ c, c = 91 ∨ c = 48 ∨ c = 49)%N (text a).
Proof.
  unfold text. constructor; [by left|]. apply Forall_fmap, Forall_true. intros b. destruct b; cbn; auto.
Qed.

Definition checksum (key m : list N) : list N :=
  let h := foldl (λ acc b, (acc * 31 + b + 7) mod 65521)%N 1%N (key ++ m) in
  [h / 256; h mod 256]%N ++ replicate 30 0%N.

#[global] Instance toy_env : AuditEnv := {|
  hmac := checksum;
  record_payload_json := text;
  record_json := text;
  checkpoint_payload_json := λ p, text (Checkpoint.mk (CheckpointPayload.format_version p)
    (CheckpointPayload.record_count p) (CheckpointPayload.head_mac p) (CheckpointPayload.active_segment p)
    (CheckpointPayload.active_record_count p) (CheckpointPayload.active_start_prev_mac p) "");
  checkpoint_json := text;
  parse_record := read_text;
  is_json := λ l, bool_decide (head l = Some 123%N);
  parse_checkpoint := λ l, ok_or (read_text l) "expected value";
  read_dir := map_to_list;
  show_path := λ name, "vault/" +:+ name
|}.

Lemma ascii_utf8 l : Forall (λ c, (c < 128)%N) l → utf8_valid l = true.
Proof.
  induction 1 as [|c l Hc _ IH]; [done|]. cbn. by rewrite (proj2 (N.ltb_lt c 128) Hc).
Qed.

Lemma checksum_bytes key m :
  length (checksum key m) = 32 ∧ Forall (λ b, (b < 256)%N) (checksum key m).
Proof.
  unfold checksum. split; [done|].
  assert (∀ l acc, (acc < 65521)%N → (foldl (λ acc b,
    (acc * 31 + b + 7) mod 65521) acc l < 65521)%N) as Hf.
  { induction l as [|b l IH]; intros acc Ha; [done|]. cbn [foldl]. apply IH. apply N.mod_lt. done. }
  specialize (Hf (key ++ m) 1%N ltac:(done)). revert Hf. generalize (foldl (λ acc b,
    (acc * 31 + b + 7) mod 65521)%N 1%N (key ++ m)).
  intros h Hh. cbn [app]. repeat constructor.
  - apply N.Div0.div_lt_upper_bound. lia.
  - apply N.mod_lt. done.
Qed.

#[global] Instance toy_laws : AuditLaws toy_env.
Proof.
  split; cbn [hmac record_payload_json record_json parse_record parse_checkpoint checkpoint_json read_dir toy_env].
  - apply checksum_bytes.
  - intros r. pose proof (text_chars r) as Hc. split; [done|]. split; [|split].
    + intros Hin. rewrite Forall_forall in Hc. destruct (Hc _ Hin) as [|[|]]; done.
    + intros Hl%last_Some_elem_of. rewrite Forall_forall in Hc. destruct (Hc _ Hl) as [|[|]]; done.
    + apply ascii_utf8. eapply Forall_impl; [exact Hc|]. intros c. cbn. lia.
  - intros r. apply read_text_text.
  - intros c. by rewrite read_text_app.
  - intros p q Heq. apply (f_equal (read_text (A := RecordPayload.t))) in Heq. rewrite !read_text_text in Heq. by injection Heq.
  - done.
Qed.
