(* ===== verification/AuditSpec.v ===== *)
(** * The audit log: refinement, crash recovery and tamper evidence

    The log promises a history: the list of records it has committed.  [Log] relates
    a disk to its history, [Recoverable] also holds in the states an interrupted
    [record] leaves behind.  The first sections are a small calculus for operations
    under faults, and what scanning computes; the theorems follow. *)
From Stdlib Require Import ZifyN ZifyNat ZifyBool.
From stdpp Require Import pretty.
From S2P Require Import Prelude AuditTypes AuditLog.

Ltac Zify.zify_post_hook ::= Z.div_mod_to_equations.

(** ** Operations under faults *)

Abbreviation quiet w := (World.faults w = []).

(** What no operation of a log changes, and that faults are only consumed. *)
Definition keeps (w w' : World.t) : Prop :=
  World.root w' = World.root w ∧ World.locked w' = World.locked w ∧ (quiet w → quiet w').

Definition same (w w' : World.t) : Prop := keeps w w' ∧ World.disk w' = World.disk w.

Lemma log_keeps_refl w : keeps w w.
Proof. done. Qed.

Lemma log_keeps_trans w1 w2 w3 : keeps w1 w2 → keeps w2 w3 → keeps w1 w3.
Proof. intros (? & ? & ?) (? & ? & ?). split_and!; [congruence..|auto]. Qed.

Lemma log_same_refl w : same w w.
Proof. done. Qed.

Lemma log_same_trans w1 w2 w3 : same w1 w2 → same w2 w3 → same w1 w3.
Proof. intros [? ?] [? ?]. split; [by eapply log_keeps_trans|congruence]. Qed.

#[export] Hint Resolve log_keeps_refl log_same_refl : sv.

(** The operation satisfies [Q] of its result and final world. *)
Definition wp {A} (m : M A) (w : World.t) (Q : result A AuditError.t → World.t → Prop) : Prop :=
  Q (m w).2 (m w).1.

Lemma log_wp_mono {A} (m : M A) w (Q Q' : result A AuditError.t → World.t → Prop) :
  wp m w Q → (∀ r w', Q r w' → Q' r w') → wp m w Q'.
Proof. unfold wp. auto. Qed.

Lemma log_wp_bind {A B} (m : M A) (k : A → M B) w Q :
  wp m w (λ r w', match r with Ok v => wp (k v) w' Q | Err e => Q (Err e) w' end) →
  wp (bind m k) w Q.
Proof. unfold wp, bind. destruct (m w) as [w' [v|e]]; done. Qed.

Lemma log_wp_ret {A} (v : A) w (Q : result A AuditError.t → World.t → Prop) : Q (Ok v) w → wp (ret v) w Q.
Proof. done. Qed.

Lemma log_wp_fail {A} e w (Q : result A AuditError.t → World.t → Prop) : Q (Err e) w → wp (fail e) w Q.
Proof. done. Qed.

Lemma log_wp_lift {A} (r : result A AuditError.t) w (Q : result A AuditError.t → World.t → Prop) :
  Q r w → wp (lift r) w Q.
Proof. done. Qed.

Lemma log_wp_attempt {A} (m : M A) w (Q : result (result A AuditError.t) AuditError.t → World.t → Prop) :
  wp m w (λ r w', Q (Ok r) w') → wp (attempt m) w Q.
Proof. unfold wp, attempt. by destruct (m w). Qed.

(** The operation changes nothing and returns [v], or an error under a fault. *)
Definition reads {A} (m : M A) (v : A) (w : World.t) : Prop :=
  wp m w (λ r w', same w w' ∧ (r = Ok v ∨ ¬ quiet w ∧ ∃ e, r = Err e)).

Lemma log_wp_reads {A} (m : M A) v w (Q : result A AuditError.t → World.t → Prop) :
  reads m v w →
  (∀ w', same w w' → Q (Ok v) w') →
  (∀ w' e, same w w' → ¬ quiet w → Q (Err e) w') →
  wp m w Q.
Proof.
  intros Hr HOk HErr. unfold reads in Hr. eapply log_wp_mono; [exact Hr|]. intros r w' [Hs [-> | [Hq [e ->]]]]; auto.
Qed.

Lemma wp_reads_quiet {A} (m : M A) v w (Q : result A AuditError.t → World.t → Prop) :
  reads m v w → quiet w → (∀ w', same w w' → quiet w' → Q (Ok v) w') → wp m w Q.
Proof.
  intros Hr Hq HOk. eapply log_wp_reads; [exact Hr| |done]. intros w' Hs. apply HOk; [done|]. by apply Hs.
Qed.

Lemma log_reads_ret {A} (v : A) w : reads (ret v) v w.
Proof. split; auto with sv. Qed.

Lemma log_reads_lift {A} (r : result A AuditError.t) v w : r = Ok v → reads (lift r) v w.
Proof. intros ->. apply log_reads_ret. Qed.

Lemma log_reads_after {A} (m : M A) v w w1 :
  same w w1 → reads m v w1 →
  wp m w1 (λ r w', same w w' ∧ (r = Ok v ∨ ¬ quiet w ∧ ∃ e, r = Err e)).
Proof.
  intros H1 Hm. eapply log_wp_reads; [exact Hm| |].
  - intros w2 H2. split; [by eapply log_same_trans|]. by left.
  - intros w2 e H2 Hq. split; [by eapply log_same_trans|]. right. split; [|eauto].
    destruct H1 as [(_ & _ & H1) _]. auto.
Qed.

Lemma log_reads_bind {A B} (m : M A) (k : A → M B) v u w :
  reads m v w → (∀ w', same w w' → reads (k v) u w') → reads (bind m k) u w.
Proof.
  intros Hm Hk. apply log_wp_bind. eapply log_wp_reads; [exact Hm| |].
  - intros w1 H1. apply log_reads_after; auto.
  - intros w' e Hs Hq. split; [done|]. right. eauto.
Qed.

Lemma log_next_cases w :
  ∃ w1, same w w1 ∧
    (World.next w = (Done, w1) ∨ ¬ quiet w ∧ ∃ n m, World.next w = (Fails n m, w1)).
Proof.
  destruct w as [r d l [|f fs]]; cbn; [eexists; split; [apply log_same_refl|by left]|].
  exists (World.mk r d l fs). split; [done|].
  destruct f as [|n m]; [by left|]. right. split; [done|eauto].
Qed.

Lemma log_reads_io {A} (f : gmap string node → result A io_error) v w :
  f (World.disk w) = Ok v → reads (io_read f) v w.
Proof.
  intros Hf. unfold reads, wp, io_read.
  destruct (log_next_cases w) as (w1 & H1 & [-> | (Hq & n & m & ->)]); [rewrite Hf|]; cbn; split; eauto.
Qed.

Definition metadata_of (d : gmap string node) (name : string) : result node io_error :=
  match d !! name with Some n => Ok n | None => Err NotFound end.

Lemma wp_metadata name w (Q : result (result node io_error) AuditError.t → World.t → Prop) :
  (∀ w', same w w' → Q (Ok (metadata_of (World.disk w) name)) w') →
  (∀ w' m, same w w' → ¬ quiet w → Q (Ok (Err (OtherIo m))) w') →
  wp (symlink_metadata name) w Q.
Proof.
  intros HD HF. unfold wp, symlink_metadata.
  destruct (log_next_cases w) as (w1 & H1 & [-> | (Hq & n & m & ->)]); cbn; auto.
Qed.

(** A primitive that writes: done, or failed with some progress. *)
Lemma log_wp_io_write f partial w (Q : result unit AuditError.t → World.t → Prop) :
  (∀ w', keeps w w' → World.disk w' = f (World.disk w) → Q (Ok tt) w') →
  (∀ w' n e, keeps w w' → ¬ quiet w → World.disk w' = partial n (World.disk w) → Q (Err e) w') →
  wp (io_write f partial) w Q.
Proof.
  intros HD HF. unfold wp, io_write.
  destruct (log_next_cases w) as (w1 & [H1 _] & [-> | (Hq & n & m & ->)]); cbn; [apply HD|eapply HF]; done.
Qed.

Lemma wp_append_file name bytes n w (Q : result unit AuditError.t → World.t → Prop) :
  World.disk w !! name = Some n →
  wp (io_write (append_bytes name bytes) (λ k, append_bytes name (take k bytes))) w Q →
  wp (append_file name bytes) w Q.
Proof. intros Hn. unfold wp, append_file. by rewrite Hn. Qed.

Lemma wp_rename from to n w (Q : result unit AuditError.t → World.t → Prop) :
  World.disk w !! from = Some n →
  wp (io_write (rename_file from to) (atomic (rename_file from to))) w Q →
  wp (fs_rename from to) w Q.
Proof. intros Hn. unfold wp, fs_rename. by rewrite Hn. Qed.

Lemma log_atomic_cases f n d : atomic f n d = d ∨ atomic f n d = f d.
Proof. destruct n; auto. Qed.

Section primitives.
Context `{E : AuditEnv}.

Lemma log_reads_fs_read name bytes w :
  World.disk w !! name = Some (File bytes) → reads (fs_read name) bytes w.
Proof. intros H. apply log_reads_io. by rewrite H. Qed.

Lemma log_reads_ensure_regular name label bytes w :
  World.disk w !! name = Some (File bytes) → reads (ensure_regular_file name label) tt w.
Proof.
  intros Hd. apply log_wp_bind, wp_metadata; [|intros w' m Hs Hq].
  - intros w' Hs. unfold metadata_of. rewrite Hd. split; [done|]. by left.
  - split; [done|]. right. eauto.
Qed.

Lemma reads_file_len name label bytes w :
  World.disk w !! name = Some (File bytes) →
  reads (regular_file_len name label) (N.of_nat (length bytes)) w.
Proof.
  intros Hd. apply log_wp_bind, wp_metadata; [|intros w' m Hs Hq].
  - intros w' Hs. unfold metadata_of. rewrite Hd. split; [done|]. by left.
  - split; [done|]. right. eauto.
Qed.

Lemma wp_atomic_replace name bytes w (Q : result unit AuditError.t → World.t → Prop) :
  World.disk w !! name ≠ Some NotFile →
  (∀ w', keeps w w' → World.disk w' = put_file name bytes (World.disk w) → Q (Ok tt) w') →
  (∀ w' e, keeps w w' → ¬ quiet w →
     World.disk w' = World.disk w ∨ World.disk w' = put_file name bytes (World.disk w) → Q (Err e) w') →
  wp (atomic_replace name bytes) w Q.
Proof.
  intros Hreg HD HF.
  assert (∀ w1, same w w1 → wp (io_write (put_file name bytes) (atomic (put_file name bytes))) w1 Q) as Hw.
  { intros w1 [Hk Hd]. apply log_wp_io_write.
    - intros w2 Hk2 Hd2. apply HD; [by eapply log_keeps_trans|]. by rewrite Hd2, Hd.
    - intros w2 n e Hk2 Hq Hd2. apply HF; [by eapply log_keeps_trans| |].
      + destruct Hk as (_ & _ & Hk). auto.
      + rewrite Hd2, Hd. apply log_atomic_cases. }
  apply log_wp_bind, wp_metadata.
  - intros w1 H1. unfold metadata_of. apply log_wp_bind.
    destruct (World.disk w !! name) as [[b|]|]; [by apply Hw|done|by apply Hw].
  - intros w1 m H1 Hq. apply log_wp_bind. by apply Hw.
Qed.

Lemma wp_acquire w (Q : result unit AuditError.t → World.t → Prop) :
  World.root w = RootDirectory → World.locked w = false → World.disk w !! LOCK_FILE ≠ Some NotFile →
  (∀ w', keeps w w' → World.disk w' = World.disk w ∨ World.disk w' = make_lock_file (World.disk w) →
     Q (Ok tt) w') →
  (∀ w' e, keeps w w' → ¬ quiet w →
     World.disk w' = World.disk w ∨ World.disk w' = make_lock_file (World.disk w) → Q (Err e) w') →
  wp acquire_lock w Q.
Proof.
  intros Hroot Hlock Hreg HD HF. set (d := World.disk w) in *.
  assert (∀ w3, keeps w w3 → World.disk w3 = d ∨ World.disk w3 = make_lock_file d →
            wp (let! _ := sync_directory in
                λ w, if World.locked w then (w, Err AuditError.Busy) else (w, Ok tt)) w3 Q) as Hsync.
  { intros w3 Hk3 Hd3. apply log_wp_bind. eapply log_wp_reads; [by apply (log_reads_io _ tt)| |].
    - intros w4 [Hk4 Hd4]. pose proof (log_keeps_trans _ _ _ Hk3 Hk4) as (Hr & Hl & Hq).
      unfold wp. rewrite Hl, Hlock. cbn. apply HD; [done|]. by rewrite Hd4.
    - intros w4 e [Hk4 Hd4] Hq. apply HF; [by eapply log_keeps_trans| |by rewrite Hd4].
      destruct Hk3 as (_ & _ & Hk3). auto. }
  assert (∀ w1, same w w1 →
            wp (let! _ := open_lock_file in let! _ := sync_directory in
                λ w, if World.locked w then (w, Err AuditError.Busy) else (w, Ok tt)) w1 Q) as Hopen.
  { intros w1 [Hk1 Hd1]. apply log_wp_bind. unfold open_lock_file, wp at 1. destruct Hk1 as (Hr1 & Hl1 & Hq1).
    rewrite Hr1, Hroot.
    pose proof (log_wp_io_write make_lock_file (atomic make_lock_file) w1) as Hw. apply Hw.
    - intros w2 Hk2 Hd2. apply Hsync; [by eapply log_keeps_trans|]. rewrite Hd2, Hd1. by right.
    - intros w2 n e Hk2 Hq2 Hd2. apply HF; [by eapply log_keeps_trans|auto|].
      rewrite Hd2, Hd1. apply log_atomic_cases. }
  apply log_wp_bind, wp_metadata; intros w1 H1; [|intros ? ?]; unfold metadata_of; apply log_wp_bind.
  - fold d. destruct (d !! LOCK_FILE) as [[b|]|]; [by apply Hopen|done|by apply Hopen].
  - by apply Hopen.
Qed.
End primitives.

(** ** Archive names *)

Lemma length_dec_digits k n : length (dec_digits k n) = k.
Proof. revert n. induction k as [|k IH]; intros n; [done|]. cbn. rewrite length_app, IH. cbn. lia. Qed.

Lemma dec_digits_digit k n : Forall (λ b, is_ascii_digit b = true) (dec_digits k n).
Proof.
  revert n. induction k as [|k IH]; intros n; cbn [dec_digits]; [constructor|].
  apply Forall_app. split; [apply IH|]. repeat constructor. unfold is_ascii_digit.
  pose proof (N.mod_lt n 10 ltac:(done)). lia.
Qed.

Lemma dec_digits_bytes k n : str_bytes (str_of_bytes (dec_digits k n)) = dec_digits k n.
Proof.
  apply str_bytes_of_bytes. eapply Forall_impl; [apply dec_digits_digit|].
  intros b. unfold is_ascii_digit. cbn. lia.
Qed.

Lemma digits_value_dec k n : (n < 10 ^ N.of_nat k)%N → digits_value (dec_digits k n) = n.
Proof.
  revert n. induction k as [|k IH]; intros n Hn; [cbn in *; lia|].
  rewrite Nat2N.inj_succ, N.pow_succ_r' in Hn. cbn [dec_digits].
  unfold digits_value in *. rewrite foldl_app. cbn [foldl]. rewrite IH; lia.
Qed.

Lemma archive_digits_name n :
  archive_digits (archive_name n) = Some (str_of_bytes (dec_digits ARCHIVE_DIGITS n)).
Proof.
  unfold archive_digits, archive_name. rewrite strip_prefix_app. cbn [mbind option_bind].
  apply strip_suffix_app.
Qed.

Lemma u64_digits n : (n ≤ u64_max)%N → (n < 10 ^ N.of_nat ARCHIVE_DIGITS)%N.
Proof. intros Hn. eapply N.le_lt_trans; [exact Hn|]. vm_compute. done. Qed.

(** The segment a directory entry stands for. *)
Definition segment_of (name : string) : option N := digits_value ∘ str_bytes <$> archive_digits name.

Lemma segment_of_name n : (n ≤ u64_max)%N → segment_of (archive_name n) = Some n.
Proof.
  intros Hn. unfold segment_of. rewrite archive_digits_name. cbn [fmap option_fmap option_map compose].
  by rewrite dec_digits_bytes, digits_value_dec by by apply u64_digits.
Qed.

Lemma archive_name_ne n name : archive_digits name = None → archive_name n ≠ name.
Proof. intros Hn <-. by rewrite archive_digits_name in Hn. Qed.

Lemma archive_name_inj m n :
  (m ≤ u64_max)%N → (n ≤ u64_max)%N → archive_name m = archive_name n → m = n.
Proof.
  intros Hm Hn Heq. apply (f_equal segment_of) in Heq. rewrite !segment_of_name in Heq by done. congruence.
Qed.

Lemma not_archive : archive_digits AUDIT_FILE = None ∧ archive_digits CHECKPOINT_FILE = None ∧
  archive_digits LOCK_FILE = None.
Proof. done. Qed.

Lemma elem_of_range n k : k ∈ range n ↔ (k < n)%N.
Proof.
  unfold range. rewrite list_elem_of_fmap. setoid_rewrite elem_of_seq. split.
  - intros (i & -> & Hi). lia.
  - intros Hk. exists (N.to_nat k). lia.
Qed.

Lemma range_set_inj m n : range_set m = range_set n → m = n.
Proof.
  intros Heq. assert (∀ k, (k < m)%N ↔ (k < n)%N) as Hk.
  { intros k. rewrite <-!elem_of_range. unfold range_set in Heq.
    rewrite <-(elem_of_list_to_set (C := gset N)), Heq. by rewrite elem_of_list_to_set. }
  pose proof (Hk m). pose proof (Hk n). lia.
Qed.

Lemma range_succ n : range (n + 1) = range n ++ [n].
Proof.
  unfold range. replace (N.to_nat (n + 1)) with (S (N.to_nat n)) by lia.
  rewrite seq_S, fmap_app. cbn. by rewrite N2Nat.id.
Qed.

Section collect.
Context `{E : AuditEnv}.

(** Listing a directory whose archives are regular and properly named. *)
Lemma reads_collect entries acc w :
  (∀ name n, (name, n) ∈ entries → is_Some (archive_digits name) →
     ∃ i bytes, (i ≤ u64_max)%N ∧ name = archive_name i ∧ World.disk w !! name = Some (File bytes)) →
  reads (collect_segments entries acc) (acc ∪ list_to_set (omap segment_of entries.*1)) w.
Proof.
  revert acc w. induction entries as [|[name n] entries IH]; intros acc w Hall.
  { cbn. replace (acc ∪ ∅) with acc by set_solver. apply log_reads_ret. }
  cbn [collect_segments fmap list_fmap fst omap list_omap].
  assert (∀ w', same w w' → ∀ acc, reads (collect_segments entries acc)
            (acc ∪ list_to_set (omap segment_of entries.*1)) w') as IHw.
  { intros w' [_ Hd] acc'. apply IH. intros name' n' Hin. rewrite Hd. apply (Hall name' n'). by right. }
  destruct (archive_digits name) as [digits|] eqn:Hdig.
  2: { unfold segment_of at 1. rewrite Hdig. cbn. by apply IHw. }
  destruct (Hall name n) as (i & bytes & Hi & -> & Hd); [by left|by rewrite Hdig|].
  rewrite segment_of_name by done. cbn [list_to_set]. rewrite archive_digits_name in Hdig. apply (inj Some) in Hdig as <-.
  rewrite dec_digits_bytes, length_dec_digits.
  rewrite (proj2 (forallb_Forall _ _)) by (apply Forall_forall, dec_digits_digit).
  rewrite digits_value_dec by by apply u64_digits.
  cbn [Nat.eqb negb orb ARCHIVE_DIGITS]. rewrite (proj2 (N.ltb_ge u64_max i)) by done.
  replace (acc ∪ ({[i]} ∪ list_to_set (omap segment_of entries.*1)))
    with (({[i]} ∪ acc) ∪ list_to_set (omap segment_of entries.*1) : gset N)
    by (generalize (list_to_set (C := gset N) (omap segment_of entries.*1)); intros; set_solver).
  apply log_wp_bind, wp_metadata.
  - intros w1 H1. unfold metadata_of. rewrite Hd. unfold bind, lift. cbn.
    apply (log_reads_after (collect_segments entries ({[i]} ∪ acc))); auto.
  - intros w1 m H1 Hq. split; [done|]. right. eauto.
Qed.
End collect.

(** ** Chains of records *)

(** The tag a chain ends in, when it follows a record with tag [prev]. *)
Definition last_mac (prev : string) (rs : list AuditRecord.t) : string :=
  foldl (λ _ r, AuditRecord.mac r) prev rs.

Lemma last_mac_app prev rs rs' : last_mac prev (rs ++ rs') = last_mac (last_mac prev rs) rs'.
Proof. unfold last_mac. apply foldl_app. Qed.

Definition count (rs : list AuditRecord.t) : N := N.of_nat (length rs).

Lemma count_app rs rs' : count (rs ++ rs') = (count rs + count rs')%N.
Proof. unfold count. rewrite length_app. lia. Qed.

Lemma count_cons r rs : count (r :: rs) = (1 + count rs)%N.
Proof. unfold count. cbn [length]. lia. Qed.

Section chains.
Context `{E : AuditEnv} (log : AuditLog.t).
Notation key := (AuditLog.key log).

(** Every record verifies as the successor of the one before it. *)
Fixpoint linked (sequence : N) (prev : string) (rs : list AuditRecord.t) : Prop :=
  match rs with
  | [] => True
  | r :: rs' => verify_record r sequence prev key = Ok tt ∧ linked (sequence + 1) (AuditRecord.mac r) rs'
  end.

Lemma linked_app sequence prev rs rs' :
  linked sequence prev (rs ++ rs') ↔
  linked sequence prev rs ∧ linked (sequence + count rs) (last_mac prev rs) rs'.
Proof.
  revert sequence prev. induction rs as [|r rs IH]; intros sequence prev; cbn [app linked].
  - change (count []) with 0%N. rewrite N.add_0_r. tauto.
  - rewrite IH, count_cons. replace (sequence + 1 + count rs)%N with (sequence + (1 + count rs))%N by lia.
    cbn [last_mac foldl]. tauto.
Qed.

Lemma linked_canonical `{!AuditLaws E} sequence prev rs :
  canonical prev → linked sequence prev rs → canonical (last_mac prev rs).
Proof.
  revert sequence prev. induction rs as [|r rs IH]; intros sequence prev Hp; [done|].
  intros [Hv Hl]. cbn. eapply IH; [|exact Hl]. by eapply verified_mac_canonical.
Qed.

Fixpoint seg_bytes (rs : list AuditRecord.t) : list N :=
  match rs with [] => [] | r :: rs' => record_line r ++ seg_bytes rs' end.

Lemma seg_bytes_app rs rs' : seg_bytes (rs ++ rs') = seg_bytes rs ++ seg_bytes rs'.
Proof. induction rs as [|r rs IH]; [done|]. cbn [app seg_bytes]. by rewrite IH, app_assoc. Qed.

Lemma seg_bytes_snoc rs r : seg_bytes (rs ++ [r]) = seg_bytes rs ++ record_line r.
Proof. rewrite seg_bytes_app. cbn [seg_bytes]. by rewrite app_nil_r. Qed.

Lemma seg_bytes_last rs : rs ≠ [] → last (seg_bytes rs) = Some 10%N.
Proof.
  destruct rs as [|r rs] using rev_ind; [done|]. intros _. rewrite seg_bytes_snoc. unfold record_line.
  by rewrite app_assoc, last_snoc.
Qed.

Lemma record_line_ne r : record_line r ≠ [].
Proof. unfold record_line. by destruct (record_json r). Qed.

Lemma seg_bytes_nil rs : seg_bytes rs = [] ↔ rs = [].
Proof.
  split; [|by intros ->]. destruct rs as [|r rs]; [done|]. cbn [seg_bytes].
  intros [H _]%app_eq_nil. by destruct (record_line_ne r).
Qed.

Context `{L : !AuditLaws E}.

Lemma seg_bytes_utf8 rs : utf8_valid (seg_bytes rs) = true.
Proof.
  induction rs as [|r rs IH]; [done|]. cbn [seg_bytes]. apply utf8_valid_app; [|done].
  destruct (record_json_line r) as (_ & _ & _ & Hu). by apply utf8_valid_app.
Qed.

Lemma seg_bytes_lines rs : lines (seg_bytes rs) = record_json <$> rs.
Proof.
  induction rs as [|r rs IH]; [done|]. cbn [seg_bytes fmap list_fmap]. unfold record_line.
  rewrite <-app_assoc. destruct (record_json_line r) as (_ & Hn & Hl & _).
  cbn [app]. rewrite lines_cons by done. by rewrite IH.
Qed.

Lemma scan_lines_linked rs sequence prev :
  linked sequence prev rs → (sequence + count rs ≤ u64_max)%N →
  scan_lines log (record_json <$> rs) sequence prev =
  Ok (ScanResult.Valid (sequence + count rs) (last_mac prev rs)).
Proof.
  revert sequence prev. induction rs as [|r rs IH]; intros sequence prev Hl Hb.
  { cbn. by rewrite N.add_0_r. }
  rewrite count_cons in *. destruct Hl as [Hv Hl]. cbn [fmap list_fmap scan_lines last_mac foldl].
  destruct (record_json_line r) as (Hne & _). rewrite bool_decide_eq_false_2 by done.
  rewrite parse_record_json, Hv, checked_add_u64_le by lia. cbn [ok_or rbind].
  rewrite IH by (done || lia). do 2 f_equal. lia.
Qed.

Lemma scan_segment_linked path rs sequence prev :
  linked sequence prev rs → (sequence + count rs ≤ u64_max)%N →
  scan_segment log path (seg_bytes rs) sequence prev =
  Ok (ScanResult.Valid (sequence + count rs) (last_mac prev rs)).
Proof.
  intros Hl Hb. unfold scan_segment. rewrite seg_bytes_utf8, seg_bytes_lines.
  rewrite (scan_lines_linked rs) by done.
  destruct (decide (rs = [])) as [->|Hne]; [done|].
  rewrite (bool_decide_eq_true_2 (last _ = _)) by by apply seg_bytes_last. by rewrite andb_false_r.
Qed.

(** Scanning files that hold the segments of a chain. *)
Lemma reads_scan paths segs sequence prev w :
  Forall2 (λ path seg, World.disk w !! path = Some (File (seg_bytes seg))) paths segs →
  linked sequence prev (concat segs) → (sequence + count (concat segs) ≤ u64_max)%N →
  reads (scan_paths_from log paths sequence prev)
    (ScanResult.Valid (sequence + count (concat segs)) (last_mac prev (concat segs))) w.
Proof.
  intros HF. revert sequence prev w HF. revert segs.
  induction paths as [|path paths IH]; intros segs sequence prev w HF Hl Hb.
  { apply Forall2_nil_inv_l in HF as ->. cbn. rewrite N.add_0_r. apply log_reads_ret. }
  apply Forall2_cons_inv_l in HF as (seg & segs' & Hd & HF & ->).
  cbn [concat] in *. rewrite count_app in *. apply linked_app in Hl as [Hl1 Hl2].
  cbn [scan_paths_from]. eapply log_reads_bind; [by eapply log_reads_ensure_regular|]. intros w1 [_ Hd1].
  eapply log_reads_bind; [eapply log_reads_fs_read; by rewrite Hd1|]. intros w2 [_ Hd2].
  eapply log_reads_bind; [apply log_reads_lift, scan_segment_linked; [done|lia]|]. intros w3 [_ Hd3].
  cbn beta iota. rewrite last_mac_app, N.add_assoc. apply IH; [|done|lia].
  rewrite Hd3, Hd2, Hd1. done.
Qed.
End chains.

(** ** What is on disk *)

Section layout.
Context `{E : AuditEnv} (log : AuditLog.t).
Notation key := (AuditLog.key log).

(** The archives hold exactly the segments [segs], the active file holds [active],
    and the checkpoint is [cp].  Other files of the directory do not matter. *)
Record Layout (d : gmap string node) (segs : list (list AuditRecord.t)) (active : option (list N))
    (cp : Checkpoint.t) : Prop := {
  lay_archives : ∀ i seg, segs !! i = Some seg → d !! archive_name (N.of_nat i) = Some (File (seg_bytes seg));
  lay_only : ∀ name, is_Some (d !! name) → is_Some (archive_digits name) →
    ∃ i, i < length segs ∧ name = archive_name (N.of_nat i);
  lay_active : d !! AUDIT_FILE = File <$> active;
  lay_checkpoint : d !! CHECKPOINT_FILE = Some (File (checkpoint_json cp ++ [10%N]));
  lay_lock : d !! LOCK_FILE ≠ Some NotFile
}.

(** The segments form one chain from the genesis value; no archive is empty. *)
Record good (segs : list (list AuditRecord.t)) (act : list AuditRecord.t) : Prop := {
  good_linked : linked log 0 GENESIS_PREV (concat segs ++ act);
  good_count : (count (concat segs ++ act) ≤ u64_max)%N;
  good_archived : Forall (λ seg, seg ≠ []) segs
}.

(** The checkpoint that commits them. *)
Definition cp_for (segs : list (list AuditRecord.t)) (act : list AuditRecord.t) : Checkpoint.t :=
  checkpoint_signed (count (concat segs ++ act)) (last_mac GENESIS_PREV (concat segs ++ act))
    (N.of_nat (length segs)) (count act) (last_mac GENESIS_PREV (concat segs)) key.

(** A log at rest, with its history. *)
Definition Log (d : gmap string node) (hist : list AuditRecord.t) : Prop :=
  ∃ segs act, good segs act ∧ Layout d segs (Some (seg_bytes act)) (cp_for segs act) ∧
    hist = concat segs ++ act.

(** The states an interrupted [record] can leave: as before, with the record appended
    and the checkpoint not advanced, or in the middle of a rotation. *)
Inductive Recoverable (d : gmap string node) : list AuditRecord.t → Prop :=
| rec_committed segs act :
    good segs act → Layout d segs (Some (seg_bytes act)) (cp_for segs act) →
    Recoverable d (concat segs ++ act)
| rec_appended segs act r :
    good segs (act ++ [r]) → AuditRecord.mac r ≠ last_mac GENESIS_PREV (concat segs ++ act) →
    Layout d segs (Some (seg_bytes (act ++ [r]))) (cp_for segs act) →
    Recoverable d (concat segs ++ act ++ [r])
| rec_rotated segs act active :
    good (segs ++ [act]) [] → active = None ∨ active = Some [] →
    Layout d (segs ++ [act]) active (cp_for segs act) →
    Recoverable d (concat (segs ++ [act])).

Lemma Log_Recoverable d hist : Log d hist → Recoverable d hist.
Proof. intros (segs & act & Hg & Hl & ->). by apply rec_committed. Qed.

Lemma concat_count segs :
  Forall (λ seg : list AuditRecord.t, seg ≠ []) segs → (N.of_nat (length segs) ≤ count (concat segs))%N.
Proof.
  induction 1 as [|seg segs Hs _ IH]; [done|]. cbn [concat length]. rewrite count_app.
  destruct seg as [|r seg]; [done|]. rewrite count_cons. lia.
Qed.

Lemma good_segments segs act : good segs act → (N.of_nat (length segs) ≤ u64_max)%N.
Proof.
  intros [_ Hc Hne]. pose proof (concat_count segs Hne). rewrite count_app in Hc. lia.
Qed.

Lemma good_split segs act : good segs act ↔
  linked log 0 GENESIS_PREV (concat segs) ∧
  linked log (count (concat segs)) (last_mac GENESIS_PREV (concat segs)) act ∧
  (count (concat segs) + count act ≤ u64_max)%N ∧ Forall (λ seg, seg ≠ []) segs.
Proof.
  split.
  - intros [Hl Hc Hne]. apply linked_app in Hl as [? ?]. rewrite count_app in Hc. done.
  - intros (Hl & Hl' & Hc & Hne). split; [|by rewrite count_app|done]. by apply linked_app.
Qed.

Lemma good_init segs act r : good segs (act ++ [r]) → good segs act.
Proof.
  rewrite !good_split, linked_app, count_app. intros (? & [? _] & ? & ?). split_and!; try done. lia.
Qed.

Lemma concat_snoc {A} (segs : list (list A)) act : concat (segs ++ [act]) = concat segs ++ act.
Proof. rewrite concat_app. cbn. by rewrite app_nil_r. Qed.

(** Closing the active segment, and opening it again. *)
Lemma good_rotated segs act : good (segs ++ [act]) [] ↔ good segs act ∧ act ≠ [].
Proof.
  split.
  - intros [Hl Hc Hne]. rewrite app_nil_r, concat_snoc in *.
    apply Forall_app in Hne as [Hne Ha]. apply Forall_cons in Ha as [Ha _]. by split; [split|].
  - intros [[Hl Hc Hne] Ha]. split; rewrite ?app_nil_r, ?concat_snoc; try done.
    apply Forall_app. by rewrite Forall_singleton.
Qed.

(** The lock file is no part of the layout. *)
Lemma Layout_lock d d' segs active cp :
  Layout d segs active cp → d' = d ∨ d' = make_lock_file d → Layout d' segs active cp.
Proof.
  intros HL [->| ->]; [done|]. unfold make_lock_file. destruct (d !! LOCK_FILE) eqn:Hlk; [done|].
  destruct HL as [Ha Ho Hact Hcp Hl]. unfold put_file. split.
  - intros i seg Hi. rewrite lookup_insert_ne; [by apply Ha|]. by apply not_eq_sym, archive_name_ne.
  - intros name Hn Hd. apply Ho; [|done]. rewrite lookup_insert_ne in Hn; [done|].
    intros <-. by destruct Hd.
  - by rewrite lookup_insert_ne.
  - by rewrite lookup_insert_ne.
  - by rewrite lookup_insert_eq.
Qed.

Context `{L : !AuditLaws E}.

Lemma Layout_segments d segs active cp n :
  Layout d segs active cp → (N.of_nat (length segs) ≤ u64_max)%N →
  n ∈ (list_to_set (omap segment_of (read_dir d).*1) : gset N) ↔ (n < N.of_nat (length segs))%N.
Proof.
  intros HL Hb. rewrite elem_of_list_to_set, list_elem_of_omap. split.
  - intros (name & Hin & Hseg). apply list_elem_of_fmap in Hin as ([name' nd] & -> & Hin).
    rewrite (read_dir_entries d) in Hin. apply elem_of_map_to_list in Hin. cbn [fst] in Hseg.
    destruct (lay_only _ _ _ _ HL name') as (i & Hi & ->); [by eexists| |].
    { unfold segment_of in Hseg. destruct (archive_digits name'); [by eexists|done]. }
    rewrite segment_of_name in Hseg by lia. injection Hseg as <-. lia.
  - intros Hn. destruct (lookup_lt_is_Some_2 segs (N.to_nat n)) as [seg Hseg]; [lia|].
    apply (lay_archives _ _ _ _ HL) in Hseg. rewrite N2Nat.id in Hseg.
    exists (archive_name n). rewrite segment_of_name by lia. split; [|done].
    apply list_elem_of_fmap. exists (archive_name n, File (seg_bytes seg)). split; [done|].
    rewrite (read_dir_entries d). by apply elem_of_map_to_list.
Qed.

Lemma reads_archive_segments w segs active cp :
  Layout (World.disk w) segs active cp → (N.of_nat (length segs) ≤ u64_max)%N →
  reads archive_segments (range_set (N.of_nat (length segs))) w.
Proof.
  intros HL Hb. eapply log_reads_bind; [by apply log_reads_io|]. intros w1 [_ Hd1].
  replace (range_set (N.of_nat (length segs)))
    with (∅ ∪ list_to_set (omap segment_of (read_dir (World.disk w)).*1) : gset N).
  2: { apply set_eq. intros n. rewrite elem_of_union, (Layout_segments _ _ _ _ n HL Hb).
       unfold range_set. rewrite elem_of_list_to_set, elem_of_range. set_solver. }
  apply reads_collect. intros name nd Hin Hdig. rewrite (read_dir_entries (World.disk w)) in Hin.
  apply elem_of_map_to_list in Hin.
  destruct (lay_only _ _ _ _ HL name) as (i & Hi & ->); [by eexists|done|].
  destruct (lookup_lt_is_Some_2 segs i Hi) as [seg Hseg]. rewrite Hd1.
  exists (N.of_nat i), (seg_bytes seg). split_and!; [lia|done|]. by apply (lay_archives _ _ _ _ HL).
Qed.

(** The first archives hold the first segments. *)
Lemma Layout_paths d segs active cp k :
  Layout d segs active cp → k ≤ length segs →
  Forall2 (λ path seg, d !! path = Some (File (seg_bytes seg))) (archive_paths (N.of_nat k)) (take k segs).
Proof.
  intros HL Hk. apply Forall2_same_length_lookup. unfold archive_paths, range. rewrite Nat2N.id.
  rewrite !length_fmap, length_seq, length_take_le by done. split; [done|].
  intros i path seg Hp Hs. rewrite !list_lookup_fmap in Hp.
  apply lookup_take_Some in Hs as [Hs Hi]. rewrite lookup_seq_lt in Hp by done. cbn in Hp.
  injection Hp as <-. by apply (lay_archives _ _ _ _ HL).
Qed.

Lemma log_reads_load w segs active cp :
  Layout (World.disk w) segs active cp → checkpoint_verify cp key = Ok tt →
  reads (load_checkpoint log) cp w.
Proof.
  intros HL Hv. pose proof (lay_checkpoint _ _ _ _ HL) as Hcp.
  apply log_wp_bind, wp_metadata; [|intros w1 m H1 Hq; split; [done|]; right; eauto].
  intros w1 H1. unfold metadata_of. rewrite Hcp. apply log_reads_after; [done|].
  eapply log_reads_bind; [by apply log_reads_lift|]. intros w2 [_ Hd2].
  eapply log_reads_bind; [apply log_reads_fs_read; rewrite Hd2; destruct H1 as [_ ->]; exact Hcp|].
  intros w3 _. eapply log_reads_bind; [by apply log_reads_lift; rewrite parse_checkpoint_json|].
  intros w4 _. eapply log_reads_bind; [by apply log_reads_lift|]. intros w5 _. apply log_reads_ret.
Qed.

Lemma cp_for_verifies segs act : good segs act → checkpoint_verify (cp_for segs act) key = Ok tt.
Proof.
  intros Hg. apply good_split in Hg as (H1 & H2 & _).
  assert (canonical (last_mac GENESIS_PREV (concat segs))) as Hc
    by exact (linked_canonical _ _ _ _ genesis_canonical H1).
  apply signed_verifies; [|done|rewrite count_app; lia].
  rewrite last_mac_app. exact (linked_canonical _ _ _ _ Hc H2).
Qed.

Lemma start_sequence_cp segs act : start_sequence (cp_for segs act) = Ok (count (concat segs)).
Proof.
  unfold start_sequence, cp_for. cbn. rewrite count_app, checked_sub_le by lia. cbn. f_equal. lia.
Qed.
End layout.

(** ** How the writes change the layout *)

Section updates.
Context `{E : AuditEnv} (log : AuditLog.t).
Notation key := (AuditLog.key log).

Lemma Layout_put_checkpoint d segs active cp cp' :
  Layout d segs active cp →
  Layout (put_file CHECKPOINT_FILE (checkpoint_json cp' ++ [10%N]) d) segs active cp'.
Proof.
  intros [Ha Ho Hact Hcp Hl]. unfold put_file. split.
  - intros i seg Hi. rewrite lookup_insert_ne by by apply not_eq_sym, archive_name_ne. by apply Ha.
  - intros name Hn Hd. apply Ho; [|done]. rewrite lookup_insert_ne in Hn; [done|]. intros <-. by destruct Hd.
  - by rewrite lookup_insert_ne.
  - by rewrite lookup_insert_eq.
  - by rewrite lookup_insert_ne.
Qed.

Lemma Layout_put_active d segs active cp bytes :
  Layout d segs active cp → Layout (put_file AUDIT_FILE bytes d) segs (Some bytes) cp.
Proof.
  intros [Ha Ho Hact Hcp Hl]. unfold put_file. split.
  - intros i seg Hi. rewrite lookup_insert_ne by by apply not_eq_sym, archive_name_ne. by apply Ha.
  - intros name Hn Hd. apply Ho; [|done]. rewrite lookup_insert_ne in Hn; [done|]. intros <-. by destruct Hd.
  - by rewrite lookup_insert_eq.
  - by rewrite lookup_insert_ne.
  - by rewrite lookup_insert_ne.
Qed.

Lemma Layout_append d segs old bytes cp :
  Layout d segs (Some old) cp → Layout (append_bytes AUDIT_FILE bytes d) segs (Some (old ++ bytes)) cp.
Proof.
  intros HL. unfold append_bytes. rewrite (lay_active _ _ _ _ HL). cbn. by eapply Layout_put_active.
Qed.

Lemma Layout_rename d segs act cp :
  Layout d segs (Some (seg_bytes act)) cp → (N.of_nat (length segs) ≤ u64_max)%N →
  Layout (rename_file AUDIT_FILE (archive_name (N.of_nat (length segs))) d) (segs ++ [act]) None cp.
Proof.
  intros [Ha Ho Hact Hcp Hl] Hb. unfold rename_file. rewrite Hact. cbn.
  set (name' := archive_name (N.of_nat (length segs))).
  assert (∀ name, archive_digits name = None → name ≠ AUDIT_FILE →
            <[name' := File (seg_bytes act)]> (delete AUDIT_FILE d) !! name = d !! name) as Hother.
  { intros name Hn Hne. rewrite lookup_insert_ne by by apply archive_name_ne.
    by rewrite lookup_delete_ne. }
  split.
  - intros i seg Hi. apply lookup_app_Some in Hi as [Hi|[Hle Hi]].
    + assert (i < length segs) by by eapply lookup_lt_Some.
      rewrite lookup_insert_ne by (intros Heq%archive_name_inj; lia).
      rewrite lookup_delete_ne by by apply not_eq_sym, archive_name_ne. by apply Ha.
    + apply list_lookup_singleton_Some in Hi as [Hi ->].
      replace i with (length segs) by lia. by rewrite lookup_insert_eq.
  - intros name Hn Hd. rewrite length_app. cbn. destruct (decide (name' = name)) as [<-|Hne].
    + exists (length segs). split; [lia|done].
    + rewrite lookup_insert_ne in Hn by done. apply lookup_delete_is_Some in Hn as [_ Hn].
      destruct (Ho name Hn Hd) as (i & Hi & ->). exists i. split; [lia|done].
  - rewrite lookup_insert_ne by by apply archive_name_ne. by rewrite lookup_delete_eq.
  - by rewrite Hother.
  - by rewrite Hother.
Qed.

Lemma Layout_eq d d' segs active cp : d' = d → Layout d segs active cp → Layout d' segs active cp.
Proof. by intros ->. Qed.

Lemma wp_write_checkpoint w segs active cp cp' (Q : result unit AuditError.t → World.t → Prop) :
  Layout (World.disk w) segs active cp →
  (∀ w', keeps w w' → Layout (World.disk w') segs active cp' → Q (Ok tt) w') →
  (∀ w' e, keeps w w' → ¬ quiet w →
     Layout (World.disk w') segs active cp ∨ Layout (World.disk w') segs active cp' → Q (Err e) w') →
  wp (write_checkpoint cp') w Q.
Proof.
  intros HL HD HF. apply wp_atomic_replace.
  - by rewrite (lay_checkpoint _ _ _ _ HL).
  - intros w' Hk Hd. apply HD; [done|]. rewrite Hd. by eapply Layout_put_checkpoint.
  - intros w' e Hk Hq Hd. apply HF; [done..|].
    destruct Hd as [-> | ->]; [by left|right]. by eapply Layout_put_checkpoint.
Qed.

Lemma wp_replace_active w segs active bytes cp (Q : result unit AuditError.t → World.t → Prop) :
  Layout (World.disk w) segs active cp →
  (∀ w', keeps w w' → Layout (World.disk w') segs (Some bytes) cp → Q (Ok tt) w') →
  (∀ w' e, keeps w w' → ¬ quiet w →
     Layout (World.disk w') segs active cp ∨ Layout (World.disk w') segs (Some bytes) cp → Q (Err e) w') →
  wp (atomic_replace AUDIT_FILE bytes) w Q.
Proof.
  intros HL HD HF. apply wp_atomic_replace.
  - rewrite (lay_active _ _ _ _ HL). by destruct active.
  - intros w' Hk Hd. apply HD; [done|]. rewrite Hd. by eapply Layout_put_active.
  - intros w' e Hk Hq Hd. apply HF; [done..|].
    destruct Hd as [-> | ->]; [by left|right]. by eapply Layout_put_active.
Qed.
End updates.

(** ** Recovery *)

Section recovery.
Context `{E : AuditEnv} `{L : !AuditLaws E} (log : AuditLog.t).
Notation key := (AuditLog.key log).

(** Scanning the active file of a chain. *)
Lemma reads_scan_active w segs act cp sequence prev :
  Layout (World.disk w) segs (Some (seg_bytes act)) cp →
  linked log sequence prev act → (sequence + count act ≤ u64_max)%N →
  reads (scan_paths_from log [AUDIT_FILE] sequence prev)
    (ScanResult.Valid (sequence + count act) (last_mac prev act)) w.
Proof.
  intros HL Hl Hb. pose proof (reads_scan log [AUDIT_FILE] [act] sequence prev w) as H.
  cbn [concat] in H. rewrite app_nil_r in H. apply H; try done. repeat constructor.
  by rewrite (lay_active _ _ _ _ HL).
Qed.

(** [attempt] of a check: its success is known unless there is a fault. *)
Lemma wp_attempt_reads {A} (m : M A) v w (Q : result (result A AuditError.t) AuditError.t → World.t → Prop) :
  reads m v w →
  (∀ w', same w w' → Q (Ok (Ok v)) w') →
  (∀ w' e, same w w' → ¬ quiet w → Q (Ok (Err e)) w') →
  wp (attempt m) w Q.
Proof. intros Hm HO HE. apply log_wp_attempt. by eapply log_wp_reads. Qed.

Lemma reads_active_regular w segs bytes cp label :
  Layout (World.disk w) segs (Some bytes) cp → reads (ensure_regular_file AUDIT_FILE label) tt w.
Proof. intros HL. eapply log_reads_ensure_regular. by rewrite (lay_active _ _ _ _ HL). Qed.

(** The scan of [recover_append] over a chain [act'] that continues the archives. *)
Lemma wp_recover_append w segs act act' (Q : result (option bool) AuditError.t → World.t → Prop) :
  good log segs act' → Layout (World.disk w) segs (Some (seg_bytes act')) (cp_for log segs act) →
  (∀ w', same w w' →
     let entries := count (concat segs ++ act') in
     let head_mac := last_mac GENESIS_PREV (concat segs ++ act') in
     let cp := cp_for log segs act in
     wp (if (entries =? Checkpoint.record_count cp)%N
            && bool_decide (head_mac = Checkpoint.head_mac cp) then ret (Some true)
         else if (entries =? N.min (Checkpoint.record_count cp + 1) u64_max)%N
                 && negb (bool_decide (head_mac = Checkpoint.head_mac cp)) then
           let! cp' := advance log cp entries head_mac in
           let! _ := write_checkpoint cp' in ret (Some true)
         else ret None) w' Q) →
  (∀ w', same w w' → ¬ quiet w → Q (Ok None) w' ∧ ∀ e, Q (Err e) w') →
  wp (recover_append log (cp_for log segs act) (count (concat segs))) w Q.
Proof.
  intros Hg HL HD HF. pose proof Hg as (Hl1 & Hl2 & Hc & _)%good_split.
  apply log_wp_bind. eapply wp_attempt_reads; [by eapply reads_active_regular| |].
  2: { intros w1 e H1 Hq. by apply HF. }
  intros w1 [Hk1 Hd1]. cbn [is_ok negb].
  change (Checkpoint.active_start_prev_mac (cp_for log segs act)) with (last_mac GENESIS_PREV (concat segs)).
  apply log_wp_bind. eapply log_wp_reads.
  - eapply reads_scan_active; [eapply Layout_eq; [exact Hd1|exact HL]|exact Hl2|done].
  - intros w2 H2. rewrite <-count_app, <-last_mac_app. apply HD.
    eapply log_same_trans; [|exact H2]. done.
  - intros w2 e H2 Hq. apply HF; [eapply log_same_trans; [|exact H2]; done|].
    destruct Hk1 as (_ & _ & Hk1). auto.
Qed.

Lemma recover_append_committed w segs act :
  good log segs act → Layout (World.disk w) segs (Some (seg_bytes act)) (cp_for log segs act) →
  wp (recover_append log (cp_for log segs act) (count (concat segs))) w (λ r w',
    same w w' ∧ (r = Ok (Some true) ∨ ¬ quiet w ∧ (r = Ok None ∨ ∃ e, r = Err e))).
Proof.
  intros Hg HL. eapply wp_recover_append; [exact Hg|exact HL| |].
  - intros w' H'. cbn -[last_mac]. rewrite N.eqb_refl, bool_decide_eq_true_2 by done. cbn.
    split; [done|by left].
  - intros w' H' Hq. split; [split; [done|]; right; auto|]. intros e. split; [done|]. right. eauto.
Qed.

Lemma advance_cp w segs act r (Q : result Checkpoint.t AuditError.t → World.t → Prop) :
  good log segs (act ++ [r]) →
  Q (Ok (cp_for log segs (act ++ [r]))) w →
  wp (advance log (cp_for log segs act) (count (concat segs ++ act ++ [r]))
        (last_mac GENESIS_PREV (concat segs ++ act ++ [r]))) w Q.
Proof.
  intros Hg HQ. apply good_split in Hg as (_ & _ & Hc & _).
  assert (count (act ++ [r]) = count act + 1)%N as Hcnt by (rewrite count_app; done).
  unfold advance, cp_for at 1. cbn -[last_mac count]. rewrite checked_add_u64_le by lia.
  unfold cp_for in HQ. rewrite Hcnt in HQ. exact HQ.
Qed.

Lemma recover_append_appended w segs act r :
  good log segs (act ++ [r]) → AuditRecord.mac r ≠ last_mac GENESIS_PREV (concat segs ++ act) →
  Layout (World.disk w) segs (Some (seg_bytes (act ++ [r]))) (cp_for log segs act) →
  wp (recover_append log (cp_for log segs act) (count (concat segs))) w (λ res w',
    keeps w w' ∧
    (res = Ok (Some true) ∧
       Layout (World.disk w') segs (Some (seg_bytes (act ++ [r]))) (cp_for log segs (act ++ [r])) ∨
     ¬ quiet w ∧
       (res = Ok None ∧ same w w' ∨
        (∃ e, res = Err e) ∧ ∃ act', (act' = act ∨ act' = act ++ [r]) ∧
          Layout (World.disk w') segs (Some (seg_bytes (act ++ [r]))) (cp_for log segs act')))).
Proof.
  intros Hg Hfresh HL. pose proof Hg as (_ & _ & Hc & _)%good_split. rewrite count_app in Hc.
  eapply wp_recover_append; [exact Hg|exact HL| |].
  2: { intros w' H' Hq. pose proof H' as [Hk' Hd']. split; [split; [done|]; right; auto|].
       intros e. split; [done|]. right. split; [done|]. right. split; [eauto|]. exists act.
       split; [by left|]. by rewrite Hd'. }
  intros w1 [Hk1 Hd1]. cbv zeta.
  assert (last_mac GENESIS_PREV (concat segs ++ act ++ [r]) = AuditRecord.mac r) as Hm
    by (by rewrite app_assoc, last_mac_app).
  assert (count (concat segs ++ act ++ [r]) = count (concat segs ++ act) + 1)%N as Hn
    by (by rewrite app_assoc, count_app).
  change (Checkpoint.record_count (cp_for log segs act)) with (count (concat segs ++ act)).
  change (Checkpoint.head_mac (cp_for log segs act)) with (last_mac GENESIS_PREV (concat segs ++ act)).
  rewrite !(bool_decide_eq_false_2 (last_mac GENESIS_PREV (concat segs ++ act ++ [r]) = _)) by (by rewrite Hm).
  rewrite andb_false_r.
  rewrite (proj2 (N.eqb_eq _ (N.min _ _))) by (change (count [r]) with 1%N in Hc; rewrite Hn, count_app; lia).
  cbn [andb negb].
  apply log_wp_bind, advance_cp; [done|]. apply log_wp_bind.
  eapply wp_write_checkpoint; [eapply Layout_eq; [exact Hd1|exact HL]| |].
  - intros w2 Hk2 HL2. split; [by eapply log_keeps_trans|]. by left.
  - intros w2 e Hk2 Hq2 HL2. split; [by eapply log_keeps_trans|]. right. split; [destruct Hk1 as (_ & _ & ?); auto|].
    right. split; [eauto|]. destruct HL2; eauto.
Qed.

(** No archive is waiting to be committed. *)
Lemma reads_recover_rotation_none w segs active act :
  Layout (World.disk w) segs active (cp_for log segs act) → (N.of_nat (length segs) ≤ u64_max)%N →
  reads (recover_rotation log (cp_for log segs act)) false w.
Proof.
  intros HL Hb. eapply log_reads_bind; [by eapply reads_archive_segments|]. intros w1 _. cbv zeta.
  change (Checkpoint.active_segment (cp_for log segs act)) with (N.of_nat (length segs)).
  rewrite bool_decide_eq_false_2; [apply log_reads_ret|]. intros Heq%range_set_inj. lia.
Qed.

Lemma reads_recover_append_rotated w segs act active :
  good log segs act → act ≠ [] → active = None ∨ active = Some [] →
  Layout (World.disk w) (segs ++ [act]) active (cp_for log segs act) →
  reads (recover_append log (cp_for log segs act) (count (concat segs))) None w.
Proof.
  intros Hg Ha Hact HL. pose proof Hg as (Hl1 & _ & Hc & Hne)%good_split.
  assert (0 < count act)%N as Hpos by (destruct act; [done|rewrite count_cons; lia]).
  apply log_wp_bind. destruct Hact as [-> | ->].
  { apply log_wp_attempt, log_wp_bind, wp_metadata; [|intros w1 m H1 Hq].
    - intros w1 H1. unfold metadata_of. rewrite (lay_active _ _ _ _ HL). cbn. split; [done|by left].
    - split; [done|by left]. }
  eapply wp_attempt_reads; [by eapply reads_active_regular| |].
  2: { intros w1 e H1 Hq. split; [done|by left]. }
  intros w1 H1. cbn [is_ok negb]. apply log_reads_after; [done|].
  eapply log_reads_bind.
  { eapply (reads_scan_active w1 (segs ++ [act]) []); [destruct H1 as [_ ->]; exact HL|done|].
    change (count []) with 0%N. lia. }
  intros w2 _. change (count []) with 0%N. rewrite N.add_0_r.
  change (Checkpoint.record_count (cp_for log segs act)) with (count (concat segs ++ act)).
  rewrite count_app.
  rewrite (proj2 (N.eqb_neq (count (concat segs)) (count (concat segs) + count act))) by lia.
  rewrite (proj2 (N.eqb_neq (count (concat segs)) (N.min (count (concat segs) + count act + 1) u64_max))) by lia.
  apply log_reads_ret.
Qed.

Lemma next_segment_cp w segs act (Q : result Checkpoint.t AuditError.t → World.t → Prop) :
  good log segs act → act ≠ [] →
  Q (Ok (cp_for log (segs ++ [act]) [])) w →
  wp (next_segment log (cp_for log segs act) (last_mac GENESIS_PREV (concat segs ++ act))) w Q.
Proof.
  intros Hg Ha HQ. assert (good log (segs ++ [act]) []) as Hb%good_segments by (by apply good_rotated).
  rewrite length_app in Hb. cbn in Hb. unfold next_segment, cp_for at 1. cbn -[last_mac count].
  rewrite checked_add_u64_le by lia. unfold cp_for in HQ.
  rewrite app_nil_r, concat_snoc, length_app in HQ. cbn [length] in HQ.
  replace (N.of_nat (length segs + 1)) with (N.of_nat (length segs) + 1)%N in HQ by lia. exact HQ.
Qed.

(** Scanning the archives of a layout. *)
Lemma reads_scan_archives w segs active cp k :
  Layout (World.disk w) segs active cp → k ≤ length segs →
  linked log 0 GENESIS_PREV (concat (take k segs)) → (count (concat (take k segs)) ≤ u64_max)%N →
  reads (scan_paths log (archive_paths (N.of_nat k)))
    (ScanResult.Valid (count (concat (take k segs))) (last_mac GENESIS_PREV (concat (take k segs)))) w.
Proof.
  intros HL Hk Hl Hb.
  pose proof (reads_scan log (archive_paths (N.of_nat k)) (take k segs) 0 GENESIS_PREV w) as H.
  rewrite N.add_0_l in H. apply H; [by eapply Layout_paths|done|done].
Qed.

(** A rotation is completed, or still to be completed after a fault. *)
Definition rotation_post (w : World.t) (segs : list (list AuditRecord.t)) (act : list AuditRecord.t)
    (r : result bool AuditError.t) (w' : World.t) : Prop :=
  keeps w w' ∧
  (r = Ok true ∧ Layout (World.disk w') (segs ++ [act]) (Some []) (cp_for log (segs ++ [act]) []) ∨
   ¬ quiet w ∧ (∃ e, r = Err e) ∧ Recoverable log (World.disk w') (concat (segs ++ [act]))).

Lemma rotation_post_err w segs act active w' e :
  good log segs act → act ≠ [] → active = None ∨ active = Some [] →
  keeps w w' → ¬ quiet w → Layout (World.disk w') (segs ++ [act]) active (cp_for log segs act) →
  rotation_post w segs act (Err e) w'.
Proof.
  intros Hg Ha Hact Hk Hq HL. split; [done|]. right. split_and!; [done|eauto|].
  eapply rec_rotated; [by apply good_rotated|exact Hact|done].
Qed.

Lemma rotation_finish w w1 segs act :
  good log segs act → act ≠ [] → keeps w w1 →
  Layout (World.disk w1) (segs ++ [act]) (Some []) (cp_for log segs act) →
  wp (let! cp' := next_segment log (cp_for log segs act) (last_mac GENESIS_PREV (concat segs ++ act)) in
      let! _ := write_checkpoint cp' in ret true) w1 (rotation_post w segs act).
Proof.
  intros Hg Ha Hk1 HL. apply log_wp_bind, next_segment_cp; [done|done|]. apply log_wp_bind.
  eapply wp_write_checkpoint; [exact HL| |].
  - intros w2 Hk2 HL2. split; [by eapply log_keeps_trans|]. by left.
  - intros w2 e Hk2 Hq HL2. assert (¬ quiet w) by (destruct Hk1 as (_ & _ & ?); auto).
    destruct HL2 as [HL2|HL2].
    + eapply rotation_post_err; try done; [by right|by eapply log_keeps_trans].
    + split; [by eapply log_keeps_trans|]. right. split_and!; [done|eauto|].
      rewrite <-(app_nil_r (concat _)). apply rec_committed; [by apply good_rotated|done].
Qed.

(** The rest of [recover_rotation], once the archives are scanned. *)
Lemma rotation_active w w1 segs act active :
  good log segs act → act ≠ [] → active = None ∨ active = Some [] → keeps w w1 →
  Layout (World.disk w1) (segs ++ [act]) active (cp_for log segs act) →
  wp (let! metadata := symlink_metadata AUDIT_FILE in
      let! empty :=
        match metadata with
        | Ok metadata =>
            let! _ := lift (ensure_regular_metadata AUDIT_FILE metadata "active audit log") in
            ret (node_len metadata =? 0)%N
        | Err NotFound => let! _ := atomic_replace AUDIT_FILE [] in ret true
        | Err error => fail (AuditError.Io error)
        end in
      if negb empty then ret false
      else
        let! cp' := next_segment log (cp_for log segs act) (last_mac GENESIS_PREV (concat segs ++ act)) in
        let! _ := write_checkpoint cp' in ret true) w1 (rotation_post w segs act).
Proof.
  intros Hg Ha Hact Hk1 HL. assert (∀ w', same w1 w' → ¬ quiet w1 → ∀ e, rotation_post w segs act (Err e) w') as Herr.
  { intros w' [Hk' Hd'] Hq e. eapply rotation_post_err; try done; [by eapply log_keeps_trans| |by rewrite Hd'].
    destruct Hk1 as (_ & _ & ?); auto. }
  apply log_wp_bind, wp_metadata; [|intros w2 m H2 Hq; apply log_wp_bind; by apply Herr].
  intros w2 [Hk2 Hd2]. unfold metadata_of. rewrite (lay_active _ _ _ _ HL).
  pose proof (log_keeps_trans _ _ _ Hk1 Hk2) as Hk. rewrite <-Hd2 in HL.
  destruct Hact as [-> | ->]; cbn [fmap option_fmap option_map].
  - apply log_wp_bind, log_wp_bind. eapply wp_replace_active; [exact HL| |].
    + intros w3 Hk3 HL3. apply rotation_finish; try done. by eapply log_keeps_trans.
    + intros w3 e Hk3 Hq HL3. assert (¬ quiet w) by (destruct Hk as (_ & _ & ?); auto).
      destruct HL3 as [HL3|HL3]; eapply rotation_post_err; try done; auto; by eapply log_keeps_trans.
  - apply log_wp_bind, log_wp_bind, log_wp_lift, log_wp_ret. by apply rotation_finish.
Qed.

Lemma recover_rotation_rotated w segs act active :
  good log segs act → act ≠ [] → active = None ∨ active = Some [] →
  Layout (World.disk w) (segs ++ [act]) active (cp_for log segs act) →
  wp (recover_rotation log (cp_for log segs act)) w (rotation_post w segs act).
Proof.
  intros Hg Ha Hact HL. assert (N.of_nat (length (segs ++ [act])) ≤ u64_max)%N as Hb.
  { eapply (good_segments log _ []). by apply good_rotated. }
  assert (∀ w', same w w' → ¬ quiet w → ∀ e, rotation_post w segs act (Err e) w') as Herr.
  { intros w' [Hk' Hd'] Hq e. eapply rotation_post_err; try done. by rewrite Hd'. }
  apply log_wp_bind. eapply log_wp_reads; [by eapply reads_archive_segments| |auto].
  intros w1 H1. cbv zeta.
  change (Checkpoint.active_segment (cp_for log segs act)) with (N.of_nat (length segs)).
  replace (N.of_nat (length segs) + 1)%N with (N.of_nat (length (segs ++ [act])))
    by (rewrite length_app; cbn; lia).
  rewrite bool_decide_eq_true_2 by done. cbn [negb]. apply log_wp_bind.
  pose proof (reads_scan_archives w1 (segs ++ [act]) active (cp_for log segs act) (length (segs ++ [act]))) as Hscan.
  rewrite firstn_all, concat_snoc in Hscan. pose proof H1 as [Hk1 Hd1]. rewrite Hd1 in Hscan.
  eapply log_wp_reads; [apply Hscan; [done|done|apply Hg|apply Hg]| |].
  2: { intros w2 e H2 Hq. apply Herr; [by eapply log_same_trans|]. destruct Hk1 as (_ & _ & ?); auto. }
  intros w2 [Hk2 Hd2]. cbn beta iota.
  change (Checkpoint.record_count (cp_for log segs act)) with (count (concat segs ++ act)).
  change (Checkpoint.head_mac (cp_for log segs act)) with (last_mac GENESIS_PREV (concat segs ++ act)).
  rewrite N.eqb_refl, bool_decide_eq_true_2 by done. cbn [negb orb].
  eapply rotation_active; try done; [by eapply log_keeps_trans|]. by rewrite Hd2, Hd1.
Qed.

Lemma wp_recover_start w segs segs' act active (Q : result bool AuditError.t → World.t → Prop) :
  good log segs act → Layout (World.disk w) segs' active (cp_for log segs act) →
  (∀ w1, same w w1 →
     wp (let! early := recover_append log (cp_for log segs act) (count (concat segs)) in
         match early with Some b => ret b | None => recover_rotation log (cp_for log segs act) end) w1 Q) →
  (∀ w1 e, same w w1 → ¬ quiet w → Q (Err e) w1) →
  wp (recover_interrupted_commit log) w Q.
Proof.
  intros Hg HL HD HF. apply log_wp_bind.
  eapply log_wp_reads; [eapply (log_reads_load log); [exact HL|by apply cp_for_verifies]| |done].
  intros w1 H1. apply log_wp_bind, log_wp_lift. rewrite start_sequence_cp. cbn beta iota. by apply HD.
Qed.

(** Recovery succeeds, or a fault leaves a state that can be recovered later. *)
Definition recover_post (w : World.t) (hist : list AuditRecord.t) (r : result bool AuditError.t)
    (w' : World.t) : Prop :=
  keeps w w' ∧ Recoverable log (World.disk w') hist ∧
  (r = Ok true ∧ Log log (World.disk w') hist ∨ ¬ quiet w ∧ r ≠ Ok true).

Lemma recover_post_fault w w' hist r :
  Recoverable log (World.disk w) hist → same w w' → ¬ quiet w → r ≠ Ok true → recover_post w hist r w'.
Proof. intros HR [Hk Hd] Hq Hr. split_and!; [done|by rewrite Hd|by right]. Qed.

Lemma recover_post_same w w1 w' hist r : same w w1 → recover_post w1 hist r w' → recover_post w hist r w'.
Proof.
  intros [Hk _] (Hk' & HR & Hr). split_and!; [by eapply log_keeps_trans|done|].
  destruct Hk as (_ & _ & Hk). destruct Hr as [?|[? ?]]; [by left|right; split; auto].
Qed.

Lemma recover_committed w segs act :
  good log segs act → Layout (World.disk w) segs (Some (seg_bytes act)) (cp_for log segs act) →
  wp (recover_interrupted_commit log) w (recover_post w (concat segs ++ act)).
Proof.
  intros Hg HL. assert (Recoverable log (World.disk w) (concat segs ++ act)) as HR by by apply rec_committed.
  eapply wp_recover_start; [exact Hg|exact HL| |intros; by apply recover_post_fault].
  intros w1 H1. apply log_wp_bind. pose proof H1 as [Hk1 Hd1]. rewrite <-Hd1 in HL.
  eapply log_wp_mono; [by apply recover_append_committed|]. cbn.
  intros r w2 [H2 [-> | [Hq [-> | [e ->]]]]].
  - apply log_wp_ret. destruct H2 as [Hk2 Hd2]. split_and!; [by eapply log_keeps_trans| |].
    + by rewrite Hd2, Hd1.
    + left. split; [done|]. exists segs, act. split_and!; [done|by rewrite Hd2|done].
  - pose proof H2 as [_ Hd2]. eapply log_wp_reads; [eapply reads_recover_rotation_none; [rewrite Hd2; exact HL|by eapply good_segments]| |];
      intros w3; intros; apply recover_post_fault; try done; try (destruct Hk1 as (_ & _ & ?); by auto);
      (eapply log_same_trans; [exact H1|]); by eapply log_same_trans.
  - apply recover_post_fault; try done; [by eapply log_same_trans|]. destruct Hk1 as (_ & _ & ?); auto.
Qed.

Lemma recover_appended w segs act r :
  good log segs (act ++ [r]) → AuditRecord.mac r ≠ last_mac GENESIS_PREV (concat segs ++ act) →
  Layout (World.disk w) segs (Some (seg_bytes (act ++ [r]))) (cp_for log segs act) →
  wp (recover_interrupted_commit log) w (recover_post w (concat segs ++ act ++ [r])).
Proof.
  intros Hg Hf HL. assert (Recoverable log (World.disk w) (concat segs ++ act ++ [r])) as HR by by apply rec_appended.
  eapply wp_recover_start; [by eapply good_init|exact HL| |intros; by apply recover_post_fault].
  intros w1 H1. apply log_wp_bind. pose proof H1 as [Hk1 Hd1]. rewrite <-Hd1 in HL.
  eapply log_wp_mono; [by apply recover_append_appended|]. cbn.
  intros res w2 [Hk2 [[-> HL2] | [Hq [[-> H2] | [[e ->] (act' & Hact & HL2)]]]]].
  - apply log_wp_ret. split_and!; [by eapply log_keeps_trans|by apply rec_committed|].
    left. split; [done|]. by exists segs, (act ++ [r]).
  - pose proof H2 as [_ Hd2]. eapply log_wp_reads; [eapply reads_recover_rotation_none; [rewrite Hd2; exact HL|by eapply good_segments]| |];
      intros w3; intros; apply recover_post_fault; try done; try (destruct Hk1 as (_ & _ & ?); by auto);
      (eapply log_same_trans; [exact H1|]); by eapply log_same_trans.
  - split_and!; [by eapply log_keeps_trans| |right; split; [destruct Hk1 as (_ & _ & ?); auto|done]].
    destruct Hact as [-> | ->]; [by apply rec_appended|by apply rec_committed].
Qed.

Lemma recover_rotated w segs act active :
  good log (segs ++ [act]) [] → active = None ∨ active = Some [] →
  Layout (World.disk w) (segs ++ [act]) active (cp_for log segs act) →
  wp (recover_interrupted_commit log) w (recover_post w (concat (segs ++ [act]))).
Proof.
  intros Hg Hact HL. assert (Recoverable log (World.disk w) (concat (segs ++ [act]))) as HR
    by by eapply rec_rotated.
  pose proof Hg as [Hg' Ha]%good_rotated.
  eapply wp_recover_start; [exact Hg'|exact HL| |intros; by apply recover_post_fault].
  intros w1 H1. apply log_wp_bind. rewrite <-(proj2 H1) in HL.
  eapply log_wp_reads; [by eapply reads_recover_append_rotated| |].
  - intros w2 H2. rewrite <-(proj2 H2) in HL.
    eapply log_wp_mono; [by eapply recover_rotation_rotated|]. intros r w3 (Hk3 & Hr).
    eapply recover_post_same; [by eapply log_same_trans|]. split; [done|].
    destruct Hr as [[-> HL3]|(Hq & [e ->] & HR3)]; [|split; [done|by right]].
    assert (Log log (World.disk w3) (concat (segs ++ [act]))) as HLog
      by (exists (segs ++ [act]), []; by rewrite app_nil_r).
    split; [by apply Log_Recoverable|]. by left.
  - intros w2 e H2 Hq. apply recover_post_fault; try done; [by eapply log_same_trans|].
    destruct H1 as [(_ & _ & ?) _]. auto.
Qed.

Lemma log_recover_spec w hist :
  Recoverable log (World.disk w) hist → wp (recover_interrupted_commit log) w (recover_post w hist).
Proof. intros HR. destruct HR; [by apply recover_committed|by apply recover_appended|by eapply recover_rotated]. Qed.
End recovery.

(** ** Appending *)

Section appending.
Context `{E : AuditEnv} `{L : !AuditLaws E} (log : AuditLog.t).
Notation key := (AuditLog.key log).

(** The record of an event after a history. *)
Definition next_record (hist : list AuditRecord.t) (event : AuditEvent.t) : AuditRecord.t :=
  sign_record (count hist) (last_mac GENESIS_PREV hist) (redact key event) key.

(** An append that stopped inside the line. *)
Definition Torn (d : gmap string node) (hist : list AuditRecord.t) (r : AuditRecord.t) : Prop :=
  ∃ segs act n, good log segs act ∧ hist = concat segs ++ act ∧ 0 < n < length (record_line r) ∧
    Layout d segs (Some (seg_bytes act ++ take n (record_line r))) (cp_for log segs act).

(** The active file a successful append leaves. *)
Definition active_bounded (d : gmap string node) (r : AuditRecord.t) : Prop :=
  ∃ bytes, d !! AUDIT_FILE = Some (File bytes) ∧
    (N.of_nat (length bytes) ≤ N.max (N.min (AuditLog.max_bytes log) MAX_ACTIVE_VERIFY_BYTES)
                                     (N.of_nat (length (record_line r))))%N.

Definition record_post (w : World.t) (hist : list AuditRecord.t) (r : AuditRecord.t)
    (res : result unit AuditError.t) (w' : World.t) : Prop :=
  keeps w w' ∧
  (res = Ok tt ∧ Log log (World.disk w') (hist ++ [r]) ∧ active_bounded (World.disk w') r ∨
   ¬ quiet w ∧ (∃ e, res = Err e) ∧
     (Recoverable log (World.disk w') hist ∨ Recoverable log (World.disk w') (hist ++ [r]) ∨
      Torn (World.disk w') hist r)).

Lemma record_post_fault w w' hist r e :
  keeps w w' → ¬ quiet w → Recoverable log (World.disk w') hist → record_post w hist r (Err e) w'.
Proof. intros Hk Hq HR. split; [done|]. right. split_and!; eauto. Qed.

Lemma good_extend segs act event :
  good log segs act → (count (concat segs ++ act) < u64_max)%N →
  good log segs (act ++ [next_record (concat segs ++ act) event]).
Proof.
  intros [Hl Hc Hne] Hb. split; [|rewrite app_assoc, count_app; unfold count in *; cbn [length]; lia|done].
  rewrite app_assoc. apply linked_app. split; [done|]. cbn [linked]. split; [|done].
  rewrite N.add_0_l. apply sign_record_verifies. exact (linked_canonical _ _ _ _ genesis_canonical Hl).
Qed.

Lemma commit_spec w w1 segs act event :
  let hist := concat segs ++ act in
  let r := next_record hist event in
  good log segs act → Layout (World.disk w1) segs (Some (seg_bytes act)) (cp_for log segs act) →
  (count hist < u64_max)%N → (¬ quiet w → AuditRecord.mac r ≠ last_mac GENESIS_PREV hist) → keeps w w1 →
  (N.of_nat (length (seg_bytes act ++ record_line r)) ≤
     N.max (N.min (AuditLog.max_bytes log) MAX_ACTIVE_VERIFY_BYTES) (N.of_nat (length (record_line r))))%N →
  wp (commit_record log (cp_for log segs act) r) w1 (record_post w hist r).
Proof.
  intros hist r Hg HL Hb Hf Hk Hlen. pose proof (good_extend segs act event Hg Hb) as Hg'.
  fold hist r in Hg'. assert (∀ w', ¬ quiet w' → keeps w w' → ¬ quiet w) as Hqw by (intros ? ? (_ & _ & ?); auto).
  apply log_wp_bind. eapply wp_append_file; [apply (lay_active _ _ _ _ HL)|]. apply log_wp_io_write.
  2: { intros w2 n e Hk2 Hq Hd2. assert (¬ quiet w) as Hqw' by eauto.
       split; [by eapply log_keeps_trans|]. right. split_and!; [done|eauto|].
       rewrite Hd2. apply (Layout_append _ _ _ (take n (record_line r))) in HL.
       destruct (decide (n = 0)) as [->|Hn0].
       { left. rewrite take_0, app_nil_r in HL. by apply rec_committed. }
       destruct (decide (n < length (record_line r))) as [Hn|Hn].
       { right; right. exists segs, act, n. split_and!; try done; lia. }
       rewrite take_ge in HL |- * by lia. rewrite <-seg_bytes_snoc in HL. right; left. unfold hist. rewrite <-app_assoc.
       apply rec_appended; [done|by apply Hf|done]. }
  intros w2 Hk2 Hd2. apply (Layout_append _ _ _ (record_line r)) in HL. rewrite <-Hd2 in HL.
  pose proof HL as HL'. rewrite <-seg_bytes_snoc in HL'.
  apply log_wp_bind, log_wp_lift. change (Checkpoint.record_count (cp_for log segs act)) with (count hist).
  rewrite checked_add_u64_le by lia. cbn [ok_or].
  apply log_wp_bind.
  replace (count hist + 1)%N with (count (concat segs ++ act ++ [r])) by (rewrite app_assoc, count_app; done).
  replace (AuditRecord.mac r) with (last_mac GENESIS_PREV (concat segs ++ act ++ [r]))
    by (by rewrite app_assoc, last_mac_app).
  apply advance_cp; [done|]. eapply wp_write_checkpoint; [exact HL'| |].
  - intros w3 Hk3 HL3. split; [eapply log_keeps_trans; [|exact Hk3]; by eapply log_keeps_trans|]. left.
    split_and!; [done| |].
    + exists segs, (act ++ [r]). split_and!; [done|done|]. by rewrite app_assoc.
    + eexists. split; [apply (lay_active _ _ _ _ HL3)|]. by rewrite seg_bytes_snoc.
  - intros w3 e Hk3 Hq HL3. split; [eapply log_keeps_trans; [|exact Hk3]; by eapply log_keeps_trans|]. right.
    assert (¬ quiet w) as Hqw' by (eapply Hqw; [exact Hq|by eapply log_keeps_trans]).
    split_and!; [done|eauto|]. right; left. unfold hist. rewrite <-app_assoc.
    destruct HL3; [apply rec_appended; [done|by apply Hf|done]|by apply rec_committed].
Qed.

(** A rotation ends with an empty active segment, or can be completed later. *)
Definition rotate_post (w : World.t) (segs : list (list AuditRecord.t)) (act : list AuditRecord.t)
    (r : result Checkpoint.t AuditError.t) (w' : World.t) : Prop :=
  keeps w w' ∧
  (r = Ok (cp_for log (segs ++ [act]) []) ∧
     Layout (World.disk w') (segs ++ [act]) (Some []) (cp_for log (segs ++ [act]) []) ∨
   ¬ quiet w ∧ (∃ e, r = Err e) ∧ Recoverable log (World.disk w') (concat segs ++ act)).

Lemma rotate_post_err w w1 w' e segs act :
  keeps w w1 → keeps w1 w' → ¬ quiet w1 → Recoverable log (World.disk w') (concat segs ++ act) →
  rotate_post w segs act (Err e) w'.
Proof.
  intros H1 H2 Hq HR. split; [by eapply log_keeps_trans|]. right. split_and!; [|eauto|done].
  destruct H1 as (_ & _ & ?). auto.
Qed.

Lemma rotated_Recoverable d segs act active :
  good log segs act → act ≠ [] → active = None ∨ active = Some [] →
  Layout d (segs ++ [act]) active (cp_for log segs act) → Recoverable log d (concat segs ++ act).
Proof. intros. rewrite <-concat_snoc. eapply rec_rotated; [by apply good_rotated|done|done]. Qed.

(** After the rename. *)
Lemma rotate_tail w w1 segs act :
  good log segs act → act ≠ [] → keeps w w1 →
  Layout (World.disk w1) (segs ++ [act]) None (cp_for log segs act) →
  wp (let! _ := sync_directory in
      let! _ := atomic_replace AUDIT_FILE [] in
      let! checkpoint' := next_segment log (cp_for log segs act) (Checkpoint.head_mac (cp_for log segs act)) in
      let! _ := write_checkpoint checkpoint' in
      ret checkpoint') w1 (rotate_post w segs act).
Proof.
  intros Hg Ha K1 HR. apply log_wp_bind. eapply log_wp_reads; [by apply (log_reads_io _ tt)| |].
  2: { intros w2 e [K2 Hd2] Hq. eapply rotate_post_err; [exact K1|exact K2|done|].
       eapply (rotated_Recoverable _ _ _ None); auto. by rewrite Hd2. }
  intros w2 [K2 Hd2]. rewrite <-Hd2 in HR. pose proof (log_keeps_trans _ _ _ K1 K2) as K.
  apply log_wp_bind. eapply wp_replace_active; [exact HR| |].
  2: { intros w3 e K3 Hq HL3. eapply rotate_post_err; [exact K|exact K3|done|].
       destruct HL3; [eapply (rotated_Recoverable _ _ _ None)|eapply (rotated_Recoverable _ _ _ (Some []))]; auto. }
  intros w3 K3 HL3. apply log_wp_bind, next_segment_cp; [done|done|]. apply log_wp_bind.
  eapply wp_write_checkpoint; [exact HL3| |].
  - intros w4 K4 HL4. apply log_wp_ret. split; [|by left]. eapply log_keeps_trans; [exact K|]. by eapply log_keeps_trans.
  - intros w4 e K4 Hq HL4. eapply rotate_post_err; [by eapply log_keeps_trans|exact K4|done|].
    destruct HL4; [eapply (rotated_Recoverable _ _ _ (Some [])); auto|].
    rewrite <-concat_snoc, <-(app_nil_r (concat _)). apply rec_committed; [by apply good_rotated|done].
Qed.

(** The name of the next archive is free. *)
Lemma next_archive_free d segs active cp :
  Layout d segs active cp → (N.of_nat (length segs) ≤ u64_max)%N →
  d !! archive_name (N.of_nat (length segs)) = None.
Proof.
  intros HL Hb. destruct (d !! archive_name (N.of_nat (length segs))) eqn:Hn; [|done]. exfalso.
  destruct (lay_only _ _ _ _ HL (archive_name (N.of_nat (length segs)))) as (i & Hi & Heq);
    [by eexists|rewrite archive_digits_name; by eexists|]. apply archive_name_inj in Heq; lia.
Qed.

Lemma rotate_spec w segs act :
  good log segs act → act ≠ [] → Layout (World.disk w) segs (Some (seg_bytes act)) (cp_for log segs act) →
  wp (rotate log (cp_for log segs act)) w (rotate_post w segs act).
Proof.
  intros Hg Ha HL. pose proof (good_segments _ _ _ Hg) as Hb. unfold rotate.
  change (Checkpoint.active_segment (cp_for log segs act)) with (N.of_nat (length segs)).
  set (k := λ existing : result node io_error, if is_ok existing then _ else _).
  assert (∀ w1 e, same w w1 → wp (k (Err e)) w1 (rotate_post w segs act)) as Hk1.
  2: { apply log_wp_bind, wp_metadata; [|auto]. intros w1 H1. unfold metadata_of.
       rewrite (next_archive_free _ _ _ _ HL Hb). by apply Hk1. }
  intros w1 e [K1 Hd1]. unfold k. cbn [is_ok]. rewrite <-Hd1 in HL.
  apply log_wp_bind. eapply log_wp_reads; [by eapply reads_active_regular| |].
  2: { intros w2 e2 [K2 Hd2] Hq. eapply rotate_post_err; [exact K1|exact K2|done|].
       apply rec_committed; [done|by rewrite Hd2]. }
  intros w2 [K2 Hd2]. rewrite <-Hd2 in HL. pose proof (log_keeps_trans _ _ _ K1 K2) as K.
  pose proof (Layout_rename _ _ _ _ HL Hb) as HR.
  apply log_wp_bind. eapply wp_rename; [apply (lay_active _ _ _ _ HL)|]. apply log_wp_io_write.
  - intros w3 K3 Hd3. rewrite <-Hd3 in HR. apply rotate_tail; try done. by eapply log_keeps_trans.
  - intros w3 n e3 K3 Hq Hd3. eapply rotate_post_err; [exact K|exact K3|done|]. rewrite Hd3.
    destruct (log_atomic_cases (rename_file AUDIT_FILE (archive_name (N.of_nat (length segs)))) n (World.disk w2))
      as [-> | ->]; [by apply rec_committed|]. eapply (rotated_Recoverable _ _ _ None); auto.
Qed.

(** Everything after the log is found in order. *)
Lemma append_spec w w1 segs act event :
  let hist := concat segs ++ act in
  let r := next_record hist event in
  good log segs act → Layout (World.disk w1) segs (Some (seg_bytes act)) (cp_for log segs act) →
  (count hist < u64_max)%N → (¬ quiet w → AuditRecord.mac r ≠ last_mac GENESIS_PREV hist) → keeps w w1 →
  (N.of_nat (length (record_line r)) ≤ MAX_ACTIVE_VERIFY_BYTES)%N →
  wp (let redacted := redact key event in
      let record := sign_next log (cp_for log segs act) redacted in
      let line := record_line record in
      if (MAX_ACTIVE_VERIFY_BYTES <? N.of_nat (length line))%N then
        fail (AuditError.Integrity
          ("audit record exceeds the " +:+ (pretty MAX_ACTIVE_VERIFY_BYTES +:+ " byte limit")))
      else
        let! active_len := regular_file_len AUDIT_FILE "active audit log" in
        let active_limit := N.min (AuditLog.max_bytes log) MAX_ACTIVE_VERIFY_BYTES in
        if ((0 <? active_len) && (active_limit <? N.min (active_len + N.of_nat (length line)) u64_max))%N then
          let! checkpoint' := rotate log (cp_for log segs act) in
          commit_record log checkpoint' (sign_next log checkpoint' redacted)
        else commit_record log (cp_for log segs act) record) w1 (record_post w hist r).
Proof.
  intros hist r Hg HL Hb Hf K1 Hline. cbv zeta.
  change (sign_next log (cp_for log segs act) (redact key event)) with r.
  rewrite (proj2 (N.ltb_ge _ _)) by done. apply log_wp_bind. pose proof (lay_active _ _ _ _ HL) as Hact.
  eapply log_wp_reads; [by apply reads_file_len| |].
  2: { intros w2 e [K2 Hd2] Hq. apply record_post_fault; [by eapply log_keeps_trans|destruct K1 as (_ & _ & ?); auto|].
       rewrite Hd2. by apply rec_committed. }
  intros w2 [K2 Hd2]. rewrite <-Hd2 in HL. pose proof (log_keeps_trans _ _ _ K1 K2) as K.
  assert (MAX_ACTIVE_VERIFY_BYTES < u64_max)%N as Hmax by done.
  destruct (_ && _)%N eqn:Hrot; to_prop.
  - assert (act ≠ []) as Ha by (intros ->; cbn in *; lia).
    apply log_wp_bind. eapply log_wp_mono; [by apply rotate_spec|]. cbn.
    intros res w3 [K3 [[-> HL3]|(Hq & [e ->] & HR)]].
    2: { apply record_post_fault; [by eapply log_keeps_trans|destruct K as (_ & _ & ?); auto|done]. }
    assert (good log (segs ++ [act]) []) as Hg' by by apply good_rotated.
    assert (concat (segs ++ [act]) ++ [] = hist) as Hh by (by rewrite app_nil_r, concat_snoc).
    pose proof (commit_spec w w3 (segs ++ [act]) [] event) as Hc. cbv zeta in Hc. rewrite Hh in Hc.
    replace (sign_next log (cp_for log (segs ++ [act]) []) (redact key event)) with r.
    { apply Hc; try done; [by eapply log_keeps_trans|]. cbn [seg_bytes app]. lia. }
    unfold sign_next, r, next_record, cp_for. cbn -[last_mac count]. by rewrite Hh.
  - apply commit_spec; try done. rewrite length_app. fold hist r.
    apply andb_false_iff in Hrot. rewrite Nat2N.inj_add.
    destruct Hrot as [H0%N.ltb_ge|H0%N.ltb_ge]; lia.
Qed.

(** The check of the active file accepts it only with as many records as committed. *)
Lemma verify_active_sound w segs segs' act act' :
  Layout (World.disk w) segs' (Some (seg_bytes act')) (cp_for log segs act) →
  linked log (count (concat segs)) (last_mac GENESIS_PREV (concat segs)) act' →
  (count (concat segs) + count act' ≤ u64_max)%N →
  wp (verify_active_against log (cp_for log segs act)) w (λ r w',
    same w w' ∧ ∀ rep, r = Ok rep → VerifyReport.ok rep = true → count act' = count act).
Proof.
  intros HL Hl Hc. apply log_wp_bind. eapply wp_attempt_reads; [by eapply reads_active_regular| |].
  2: { intros w1 e H1 _. split; [done|]. intros rep [= <-]. done. }
  intros w1 H1. cbn beta iota. apply log_wp_bind, log_wp_lift. rewrite start_sequence_cp. cbn beta iota.
  change (Checkpoint.active_start_prev_mac (cp_for log segs act)) with (last_mac GENESIS_PREV (concat segs)).
  change (Checkpoint.record_count (cp_for log segs act)) with (count (concat segs ++ act)).
  rewrite count_app. apply log_wp_bind. eapply log_wp_reads.
  - eapply reads_scan_active; [by rewrite (proj2 H1)|done|done].
  - intros w2 H2. pose proof (log_same_trans _ _ _ H1 H2). cbn beta iota.
    destruct (N.eqb_spec (count (concat segs) + count act') (count (concat segs) + count act)); cbn [negb orb].
    + destruct (bool_decide _); (split; [done|]); intros; lia.
    + split; [done|]. intros rep [= <-]. done.
  - intros w2 e H2 _. split; [by eapply log_same_trans|done].
Qed.

(** A log that passes the checks of [record] is at rest. *)
Lemma checked_spec {A} w hist (k : Checkpoint.t → M A) (Q : result A AuditError.t → World.t → Prop) :
  Recoverable log (World.disk w) hist →
  (∀ w1 segs act, same w w1 → good log segs act →
     Layout (World.disk w1) segs (Some (seg_bytes act)) (cp_for log segs act) →
     hist = concat segs ++ act → wp (k (cp_for log segs act)) w1 Q) →
  (∀ w1 e, same w w1 → Q (Err e) w1) →
  wp (let! checkpoint := load_checkpoint log in
      let! _ := (let! report := verify_active_against log checkpoint in
                 require_ok report "verification failed") in
      k checkpoint) w Q.
Proof.
  intros HR HD HF.
  assert (∀ segs segs' act active, good log segs act →
    Layout (World.disk w) segs' active (cp_for log segs act) →
    (∀ w1, same w w1 →
       wp (verify_active_against log (cp_for log segs act)) w1 (λ r w2, same w1 w2 ∧
         ∀ rep, r = Ok rep → VerifyReport.ok rep = true → wp (k (cp_for log segs act)) w2 Q)) →
    wp (let! checkpoint := load_checkpoint log in
        let! _ := (let! report := verify_active_against log checkpoint in
                   require_ok report "verification failed") in
        k checkpoint) w Q) as Hgen.
  { intros segs segs' act active Hg HL Hv. apply log_wp_bind.
    eapply log_wp_reads; [eapply (log_reads_load log); [exact HL|by apply cp_for_verifies]| |auto].
    intros w1 H1. apply log_wp_bind, log_wp_bind. eapply log_wp_mono; [by apply Hv|]. cbn.
    intros [rep|e] w2 [H2 Hok]; [|apply HF; by eapply log_same_trans].
    unfold require_ok. destruct (VerifyReport.ok rep) eqn:Hr; [by eapply Hok|].
    apply HF. by eapply log_same_trans. }
  destruct HR as [segs act Hg HL|segs act r Hg Hf HL|segs act active Hg Hact HL].
  - eapply Hgen; [exact Hg|exact HL|]. intros w1 H1. rewrite <-(proj2 H1) in HL.
    pose proof Hg as (_ & Hl & Hc & _)%good_split.
    eapply log_wp_mono; [by eapply verify_active_sound|]. cbn. intros r w2 [H2 _]. split; [done|].
    intros rep _ _. apply HD; try done; [by eapply log_same_trans|]. by rewrite (proj2 H2).
  - eapply Hgen; [by eapply good_init|exact HL|]. intros w1 H1. rewrite <-(proj2 H1) in HL.
    pose proof Hg as (_ & Hl & Hc & _)%good_split.
    eapply log_wp_mono; [by eapply verify_active_sound|]. cbn. intros res w2 [H2 Hok]. split; [done|].
    intros rep H3 H4. specialize (Hok rep H3 H4). rewrite count_app in Hok. unfold count in Hok. cbn in Hok. lia.
  - pose proof Hg as [Hg' Ha]%good_rotated. eapply Hgen; [exact Hg'|exact HL|].
    intros w1 H1. rewrite <-(proj2 H1) in HL. destruct Hact as [-> | ->].
    + apply log_wp_bind, log_wp_attempt, log_wp_bind, wp_metadata.
      * intros w2 H2. unfold metadata_of. rewrite (lay_active _ _ _ _ HL). split; [done|]. by intros rep [= <-].
      * intros w2 m H2 _. split; [done|]. by intros rep [= <-].
    + pose proof Hg' as (_ & _ & Hc & _)%good_split.
      eapply log_wp_mono; [apply (verify_active_sound w1 segs (segs ++ [act]) act []); [done|done|]|].
      { unfold count in *. cbn. lia. }
      cbn. intros res w2 [H2 Hok]. split; [done|]. intros rep H3 H4. specialize (Hok rep H3 H4).
      destruct act; [done|]. rewrite count_cons in Hok. unfold count in Hok. cbn in Hok. lia.
Qed.

Lemma Recoverable_lock d d' hist :
  Recoverable log d hist → d' = d ∨ d' = make_lock_file d → Recoverable log d' hist.
Proof.
  intros [segs act Hg HL|segs act r Hg Hf HL|segs act active Hg Hact HL] Hd.
  - apply rec_committed; [done|by eapply Layout_lock].
  - apply rec_appended; [done|done|by eapply Layout_lock].
  - eapply rec_rotated; [done|done|by eapply Layout_lock].
Qed.

Lemma Recoverable_lock_file d hist : Recoverable log d hist → d !! LOCK_FILE ≠ Some NotFile.
Proof. intros [segs act Hg HL|segs act r Hg Hf HL|segs act active Hg Hact HL]; by eapply lay_lock. Qed.

(** [record] under any faults. *)
Lemma record_spec w hist event :
  let r := next_record hist event in
  World.root w = RootDirectory → World.locked w = false → AuditLog.poisoned log = false →
  Recoverable log (World.disk w) hist → (count hist < u64_max)%N →
  (¬ quiet w → AuditRecord.mac r ≠ last_mac GENESIS_PREV hist) →
  (N.of_nat (length (record_line r)) ≤ MAX_ACTIVE_VERIFY_BYTES)%N →
  wp (record log event) w (record_post w hist r).
Proof.
  intros r Hroot Hlock Hp HR Hb Hf Hline. unfold record, lock_operation. rewrite Hp.
  apply log_wp_bind, log_wp_ret. apply log_wp_bind, wp_acquire; [done|done|by eapply Recoverable_lock_file| |].
  2: { intros w1 e K1 Hq Hd1. apply record_post_fault; [done|done|by eapply Recoverable_lock]. }
  intros w1 K1 Hd1. apply log_wp_bind.
  eapply log_wp_mono; [apply log_recover_spec; by eapply Recoverable_lock|]. cbn.
  intros res w2 (K2 & HR2 & Hres). pose proof (log_keeps_trans _ _ _ K1 K2) as K.
  destruct res as [b|e].
  2: { destruct Hres as [[? _]|[Hq _]]; [done|]. apply record_post_fault; [done|destruct K1 as (_ & _ & ?); auto|done]. }
  destruct Hres as [[[= ->] (segs & act & Hg & HL & ->)]|[Hq Hb']].
  - apply log_wp_bind. eapply log_wp_reads; [eapply (log_reads_load log); [exact HL|by apply cp_for_verifies]| |].
    + intros w3 H3. rewrite <-(proj2 H3) in HL. apply log_wp_bind, log_wp_ret.
      apply append_spec; try done. eapply log_keeps_trans; [exact K|apply H3].
    + intros w3 e H3 Hq. apply record_post_fault; [eapply log_keeps_trans; [exact K|apply H3]| |by rewrite (proj2 H3)].
      destruct K as (_ & _ & ?). auto.
  - destruct b; [done|]. assert (¬ quiet w) as Hqw by (destruct K1 as (_ & _ & ?); auto).
    eapply checked_spec; [exact HR2| |].
    + intros w3 segs act H3 Hg HL ->. apply append_spec; try done. eapply log_keeps_trans; [exact K|apply H3].
    + intros w3 e H3. apply record_post_fault; [eapply log_keeps_trans; [exact K|apply H3]|done|by rewrite (proj2 H3)].
Qed.

(** ** Verification and opening of a log in order *)

Lemma verify_against_complete w segs act :
  quiet w → good log segs act → Layout (World.disk w) segs (Some (seg_bytes act)) (cp_for log segs act) →
  wp (verify_against log (cp_for log segs act)) w (λ r w',
    same w w' ∧ r = Ok (VerifyReport.success (count (concat segs ++ act)))).
Proof.
  intros Hq Hg HL. pose proof (good_segments _ _ _ Hg) as Hb.
  pose proof Hg as (Hl1 & Hl2 & Hc & _)%good_split.
  apply log_wp_bind, log_wp_attempt. eapply wp_reads_quiet; [by eapply reads_archive_segments|done|].
  intros w1 H1 Hq1. cbn beta iota zeta.
  change (Checkpoint.active_segment (cp_for log segs act)) with (N.of_nat (length segs)).
  rewrite bool_decide_eq_true_2 by done. cbn [negb]. rewrite <-(proj2 H1) in HL.
  apply log_wp_bind, log_wp_attempt. eapply wp_reads_quiet; [by eapply reads_active_regular|done|].
  intros w2 H2 Hq2. cbn beta iota. rewrite <-(proj2 H2) in HL. pose proof (log_same_trans _ _ _ H1 H2) as H12.
  pose proof (reads_scan_archives log w2 segs _ _ (length segs) HL ltac:(done)) as Hscan.
  rewrite firstn_all in Hscan. apply log_wp_bind. eapply wp_reads_quiet; [apply Hscan; [done|lia]|done|].
  intros w3 H3 Hq3. cbn beta iota. apply log_wp_bind, log_wp_lift. rewrite start_sequence_cp. cbn beta iota.
  change (Checkpoint.active_start_prev_mac (cp_for log segs act)) with (last_mac GENESIS_PREV (concat segs)).
  rewrite N.eqb_refl, bool_decide_eq_true_2 by done. cbn [negb orb]. rewrite <-(proj2 H3) in HL.
  apply log_wp_bind. eapply wp_reads_quiet; [by eapply reads_scan_active|done|].
  intros w4 H4 _. cbn beta iota. rewrite <-count_app, <-last_mac_app.
  change (Checkpoint.record_count (cp_for log segs act)) with (count (concat segs ++ act)).
  change (Checkpoint.head_mac (cp_for log segs act)) with (last_mac GENESIS_PREV (concat segs ++ act)).
  rewrite N.eqb_refl, bool_decide_eq_true_2 by done.
  split; [|done]. eapply log_same_trans; [exact H12|]. by eapply log_same_trans.
Qed.

Lemma verify_locked_complete w hist :
  quiet w → Log log (World.disk w) hist →
  wp (verify_locked log) w (λ r w', same w w' ∧ r = Ok (VerifyReport.success (count hist))).
Proof.
  intros Hq (segs & act & Hg & HL & ->). apply log_wp_bind.
  eapply wp_reads_quiet; [eapply (log_reads_load log); [exact HL|by apply cp_for_verifies]|done|].
  intros w1 H1 Hq1. rewrite <-(proj2 H1) in HL.
  eapply log_wp_mono; [by apply verify_against_complete|]. cbn.
  intros r w2 [H2 ->]. split; [by eapply log_same_trans|done].
Qed.

(** The archives a checkpoint commits are accepted, also in the middle of a rotation. *)
Lemma reads_committed_archives w segs extra act active :
  good log segs act → extra = [] ∨ (∃ seg, extra = [seg]) → (N.of_nat (length (segs ++ extra)) ≤ u64_max)%N →
  Layout (World.disk w) (segs ++ extra) active (cp_for log segs act) →
  reads (verify_committed_archives log (cp_for log segs act)) (VerifyReport.success (count (concat segs))) w.
Proof.
  intros Hg Hx Hb HL. pose proof Hg as (Hl1 & Hl2 & Hc & _)%good_split.
  eapply log_reads_bind; [by eapply reads_archive_segments|]. intros w1 H1. cbv zeta.
  change (Checkpoint.active_segment (cp_for log segs act)) with (N.of_nat (length segs)).
  assert (negb (bool_decide (range_set (N.of_nat (length (segs ++ extra))) = range_set (N.of_nat (length segs))))
    && negb (bool_decide (range_set (N.of_nat (length (segs ++ extra))) =
                          range_set (N.of_nat (length segs) + 1))) = false) as ->.
  { rewrite length_app in *. destruct Hx as [-> | [seg ->]]; cbn [length].
    - rewrite Nat.add_0_r, bool_decide_eq_true_2 by done. done.
    - replace (N.of_nat (length segs + 1)) with (N.of_nat (length segs) + 1)%N by lia.
      rewrite (bool_decide_eq_true_2 (range_set (_ + 1) = range_set (_ + 1))) by done. by rewrite andb_false_r. }
  rewrite <-(proj2 H1) in HL.
  pose proof (reads_scan_archives log w1 (segs ++ extra) _ _ (length segs) HL) as Hscan.
  rewrite take_app_length in Hscan. eapply log_reads_bind; [apply Hscan; [rewrite length_app; lia|done|lia]|].
  intros w2 H2. cbn beta iota. eapply log_reads_bind; [apply log_reads_lift, start_sequence_cp|].
  intros w3 H3. rewrite N.eqb_refl, bool_decide_eq_true_2 by done. apply log_reads_ret.
Qed.

Lemma Recoverable_checkpoint d hist :
  Recoverable log d hist → ∃ segs extra act active,
    good log segs act ∧ (extra = [] ∨ ∃ seg, extra = [seg]) ∧ (N.of_nat (length (segs ++ extra)) ≤ u64_max)%N ∧
    Layout d (segs ++ extra) active (cp_for log segs act).
Proof.
  intros [segs act Hg HL|segs act r Hg Hf HL|segs act active Hg Hact HL].
  - exists segs, [], act, (Some (seg_bytes act)). rewrite app_nil_r. split_and!; auto. by eapply good_segments.
  - exists segs, [], act, (Some (seg_bytes (act ++ [r]))). rewrite app_nil_r.
    split_and!; auto; [by eapply good_init|by eapply good_segments].
  - exists segs, [act], act, active. split_and!; eauto; [by apply good_rotated in Hg as [? _]|by eapply good_segments].
Qed.
End appending.
