(* ===== verification/AuditTheorems.v ===== *)
(** * The audit log: what it promises

    A committed history survives crashes, an append is all or nothing, and a log that
    verifies against an untouched checkpoint holds exactly its history. *)
From Stdlib Require Import ZifyN ZifyNat ZifyBool.
From stdpp Require Import pretty.
From S2P Require Import Prelude AuditTypes AuditLog AuditInstance AuditSpec.

(** ** Opening *)

(** A world in which an operation starts: the directory is there, no other writer holds
    the lock and every call of the operating system succeeds. *)
Definition ready (w : World.t) : Prop :=
  World.root w = RootDirectory ∧ World.locked w = false ∧ World.faults w = [].

Section opening.
Context `{E : AuditEnv} `{L : !AuditLaws E}.

(** The history depends on the key of the log only. *)
Lemma linked_key log log' sequence prev rs :
  AuditLog.key log = AuditLog.key log' → linked log sequence prev rs → linked log' sequence prev rs.
Proof.
  intros Hk. revert sequence prev. induction rs as [|r rs IH]; intros sequence prev; [done|].
  cbn [linked]. rewrite Hk. intros [? ?]. auto.
Qed.

Lemma good_key log log' segs act :
  AuditLog.key log = AuditLog.key log' → good log segs act → good log' segs act.
Proof. intros Hk [Hl Hc Hne]. split; [by eapply linked_key|done|done]. Qed.

Lemma Recoverable_key log log' d hist :
  AuditLog.key log = AuditLog.key log' → Recoverable log d hist → Recoverable log' d hist.
Proof.
  intros Hk. assert (∀ segs act, cp_for log segs act = cp_for log' segs act) as Hcp
    by (intros; unfold cp_for; by rewrite Hk).
  intros [segs act Hg HL|segs act r Hg Hf HL|segs act active Hg Hact HL]; rewrite Hcp in HL.
  - apply rec_committed; [by eapply good_key|done].
  - apply rec_appended; [by eapply good_key|done|done].
  - eapply rec_rotated; [by eapply good_key|done|done].
Qed.

Lemma ensure_root_ready w create (Q : result unit AuditError.t → World.t → Prop) :
  ready w → Q (Ok tt) w → wp (ensure_root create) w Q.
Proof.
  intros (Hr & _ & Hq) HQ. unfold wp, ensure_root, World.next. rewrite Hq, Hr. exact HQ.
Qed.

(** What [open] does after it has the lock. *)
Lemma open_spec key max_bytes w hist :
  let log := AuditLog.build key max_bytes in
  ready w → Recoverable log (World.disk w) hist →
  wp (open_with_max_bytes key max_bytes) w (λ r w', r = Ok log ∧ ready w' ∧ Log log (World.disk w') hist).
Proof.
  intros log Hready HR. pose proof Hready as (Hroot & Hlock & Hq).
  apply log_wp_bind, ensure_root_ready; [done|]. cbv zeta. fold log.
  apply log_wp_bind, wp_acquire; [done|done|by eapply Recoverable_lock_file| |done].
  intros w1 K1 Hd1. assert (Recoverable log (World.disk w1) hist) as HR1 by by eapply Recoverable_lock.
  destruct K1 as (Hr1 & Hl1 & Hq1). specialize (Hq1 Hq).
  destruct (Recoverable_checkpoint _ _ _ HR1) as (segs & extra & act & active & Hg & Hx & Hb & HL).
  apply log_wp_bind. eapply wp_reads_quiet; [eapply (log_reads_load log); [exact HL|by apply cp_for_verifies]|done|].
  intros w2 H2 Hq2. rewrite <-(proj2 H2) in HL. apply log_wp_bind.
  eapply wp_reads_quiet; [by eapply reads_committed_archives|done|].
  intros w3 H3 Hq3. cbn [VerifyReport.success]. apply log_wp_bind, log_wp_ret. apply log_wp_bind.
  pose proof (log_same_trans _ _ _ H2 H3) as H13.
  eapply log_wp_mono; [apply log_recover_spec; by rewrite (proj2 H13)|]. cbn.
  intros r w4 (K4 & _ & [[-> HLog]|[Hn _]]); [|done].
  apply log_wp_bind. eapply log_wp_mono; [apply verify_locked_complete; [by apply K4|done]|]. cbn.
  intros r w5 [H5 ->]. apply log_wp_bind, log_wp_ret, log_wp_ret. rewrite (proj2 H5). split_and!; [done| |done].
  destruct H13 as [(Ha & Hb' & _) _]. destruct K4 as (Hc & Hd & Hqk). destruct H5 as [(He & Hf & Hqe) _].
  split_and!; [congruence|congruence|auto].
Qed.

(** ** A torn append *)

Lemma torn_last act r n :
  0 < n < length (record_line r) →
  seg_bytes act ++ take n (record_line r) ≠ [] ∧ last (seg_bytes act ++ take n (record_line r)) ≠ Some 10%N.
Proof.
  unfold record_line. rewrite length_app. cbn. intros Hn. rewrite take_app_le by lia.
  destruct (record_json_line r) as (_ & Hnl & _).
  assert (take n (record_json r) ≠ []) as Hne.
  { destruct (record_json r); [cbn in Hn; lia|]. destruct n; [lia|done]. }
  split; [by destruct (seg_bytes act)|]. rewrite last_app.
  destruct (last (take n (record_json r))) as [b|] eqn:Hl.
  - intros [= ->]. apply Hnl. apply last_Some_elem_of in Hl. eapply elem_of_take in Hl. 
    destruct Hl as (i & Hi & _). by eapply list_elem_of_lookup_2.
  - by apply last_None in Hl.
Qed.

Definition TORN : string := "segment has an incomplete final record: " +:+ show_path AUDIT_FILE.

Lemma reads_scan_torn log w segs act r n cp sequence prev :
  0 < n < length (record_line r) →
  Layout (World.disk w) segs (Some (seg_bytes act ++ take n (record_line r))) cp →
  reads (scan_paths_from log [AUDIT_FILE] sequence prev)
    (ScanResult.Invalid (VerifyReport.failure sequence 0 TORN)) w.
Proof.
  intros Hn HL. pose proof (lay_active _ _ _ _ HL) as Hact. cbn [fmap option_fmap option_map] in Hact.
  cbn [scan_paths_from]. eapply log_reads_bind; [by eapply log_reads_ensure_regular|]. intros w1 H1.
  eapply log_reads_bind; [apply log_reads_fs_read; by rewrite (proj2 H1)|]. intros w2 H2.
  destruct (torn_last act r n Hn) as [Hne Hl].
  eapply log_reads_bind; [apply log_reads_lift; unfold scan_segment; rewrite !bool_decide_eq_false_2 by done; done|].
  intros w3 _. apply log_reads_ret.
Qed.

Lemma verify_against_torn log w segs act r n :
  quiet w → good log segs act → 0 < n < length (record_line r) →
  Layout (World.disk w) segs (Some (seg_bytes act ++ take n (record_line r))) (cp_for log segs act) →
  wp (verify_against log (cp_for log segs act)) w (λ res w',
    same w w' ∧ res = Ok (VerifyReport.failure (count (concat segs)) 0 TORN)).
Proof.
  intros Hq Hg Hn HL. pose proof (good_segments _ _ _ Hg) as Hb.
  pose proof Hg as (Hl1 & Hl2 & Hc & _)%good_split.
  apply log_wp_bind, log_wp_attempt. eapply wp_reads_quiet; [by eapply reads_archive_segments|done|].
  intros w1 H1 Hq1. cbn beta iota zeta.
  change (Checkpoint.active_segment (cp_for log segs act)) with (N.of_nat (length segs)).
  rewrite bool_decide_eq_true_2 by done. cbn [negb]. rewrite <-(proj2 H1) in HL.
  apply log_wp_bind, log_wp_attempt. eapply wp_reads_quiet; [by eapply reads_active_regular|done|].
  intros w2 H2 Hq2. cbn beta iota. rewrite <-(proj2 H2) in HL.
  pose proof (reads_scan_archives log w2 segs _ _ (length segs) HL ltac:(done)) as Hscan.
  rewrite firstn_all in Hscan. apply log_wp_bind. eapply wp_reads_quiet; [apply Hscan; [done|lia]|done|].
  intros w3 H3 Hq3. cbn beta iota. apply log_wp_bind, log_wp_lift. rewrite start_sequence_cp. cbn beta iota.
  change (Checkpoint.active_start_prev_mac (cp_for log segs act)) with (last_mac GENESIS_PREV (concat segs)).
  rewrite N.eqb_refl, bool_decide_eq_true_2 by done. cbn [negb orb]. rewrite <-(proj2 H3) in HL.
  apply log_wp_bind. eapply wp_reads_quiet; [by eapply reads_scan_torn|done|].
  intros w4 H4 _. split; [|done]. eapply log_same_trans; [exact H1|]. eapply log_same_trans; [exact H2|].
  by eapply log_same_trans.
Qed.

Lemma reads_recover_torn log w segs act r n :
  good log segs act → 0 < n < length (record_line r) →
  Layout (World.disk w) segs (Some (seg_bytes act ++ take n (record_line r))) (cp_for log segs act) →
  quiet w → wp (recover_interrupted_commit log) w (λ res w', same w w' ∧ res = Ok false).
Proof.
  intros Hg Hn HL Hq. eapply wp_recover_start; [exact Hg|exact HL| |done].
  intros w1 H1. rewrite <-(proj2 H1) in HL. apply log_wp_bind, log_wp_bind, log_wp_attempt.
  eapply wp_reads_quiet; [by eapply reads_active_regular|by apply H1|].
  intros w2 H2 Hq2. cbn [is_ok negb]. rewrite <-(proj2 H2) in HL.
  apply log_wp_bind. eapply wp_reads_quiet; [by eapply reads_scan_torn|done|].
  intros w3 H3 Hq3. apply log_wp_ret. rewrite <-(proj2 H3) in HL.
  eapply wp_reads_quiet; [eapply reads_recover_rotation_none; [exact HL|by eapply good_segments]|done|].
  intros w4 H4 _. split; [|done]. eapply log_same_trans; [exact H1|]. eapply log_same_trans; [exact H2|].
  by eapply log_same_trans.
Qed.

Lemma open_torn key max_bytes w hist r :
  let log := AuditLog.build key max_bytes in
  ready w → Torn log (World.disk w) hist r →
  wp (open_with_max_bytes key max_bytes) w (λ res w', res = Err (AuditError.Integrity TORN)).
Proof.
  intros log Hready (segs & act & n & Hg & -> & Hn & HL). pose proof Hready as (Hroot & Hlock & Hq).
  pose proof (good_segments _ _ _ Hg) as Hb.
  apply log_wp_bind, ensure_root_ready; [done|]. cbv zeta. fold log.
  apply log_wp_bind, wp_acquire; [done|done|by eapply lay_lock| |done].
  intros w1 (Hr1 & Hl1 & Hq1) Hd1. specialize (Hq1 Hq). eapply Layout_lock in HL; [|exact Hd1].
  apply log_wp_bind. eapply wp_reads_quiet; [eapply (log_reads_load log); [exact HL|by apply cp_for_verifies]|done|].
  intros w2 H2 Hq2. rewrite <-(proj2 H2) in HL. apply log_wp_bind.
  eapply wp_reads_quiet;
    [eapply (reads_committed_archives log w2 segs []); rewrite ?app_nil_r; [done|by left|done|exact HL]|done|].
  intros w3 H3 Hq3. rewrite <-(proj2 H3) in HL. cbn [VerifyReport.success]. apply log_wp_bind, log_wp_ret. apply log_wp_bind.
  eapply log_wp_mono; [by eapply reads_recover_torn|]. cbn. intros res w4 [H4 ->]. rewrite <-(proj2 H4) in HL.
  apply log_wp_bind, log_wp_bind. eapply wp_reads_quiet; [eapply (log_reads_load log); [exact HL|by apply cp_for_verifies]| |].
  { by apply H4. }
  intros w5 H5 Hq5. rewrite <-(proj2 H5) in HL.
  eapply log_wp_mono; [by eapply verify_against_torn|]. cbn. intros res w6 [H6 ->]. done.
Qed.
End opening.

(** ** What a successful verification establishes, on any disk *)

(** The records in a file, and in the files of a log with [n] archives. *)
Definition file_records `{AuditEnv} (d : gmap string node) (name : string) : option (list AuditRecord.t) :=
  match d !! name with Some (File raw) => mapM parse_record (lines raw) | _ => None end.

Definition disk_records `{AuditEnv} (d : gmap string node) (n : N) : option (list AuditRecord.t) :=
  rss ← mapM (file_records d) (archive_paths n);
  rs ← file_records d AUDIT_FILE;
  Some (concat rss ++ rs).

Section soundness.
Context `{E : AuditEnv} (log : AuditLog.t).
Notation key := (AuditLog.key log).

Lemma log_wp_io_read {A} (f : gmap string node → result A io_error) w (Q : result A AuditError.t → World.t → Prop) :
  (∀ w' v, same w w' → f (World.disk w) = Ok v → Q (Ok v) w') →
  (∀ w' e, same w w' → Q (Err e) w') → wp (io_read f) w Q.
Proof.
  intros HO HE. unfold wp, io_read.
  destruct (log_next_cases w) as (w1 & H1 & [-> | (Hq & n & m & ->)]); [|by apply HE].
  destruct (f (World.disk w)) eqn:Hf; cbn; auto.
Qed.

Lemma ensure_regular_frame name label w :
  wp (ensure_regular_file name label) w (λ _ w', World.disk w' = World.disk w).
Proof.
  apply log_wp_bind, wp_metadata; [|by intros w1 m [_ Hd] _].
  intros w1 [_ Hd]. by destruct (metadata_of (World.disk w) name) as [[]|[]].
Qed.

Lemma acquire_frame w :
  wp acquire_lock w (λ _ w', World.disk w' = World.disk w ∨ World.disk w' = make_lock_file (World.disk w)).
Proof.
  assert (∀ w1, World.disk w1 = World.disk w →
    wp (let! _ := open_lock_file in let! _ := sync_directory in
        λ w, if World.locked w then (w, Err AuditError.Busy) else (w, Ok tt)) w1
      (λ _ w', World.disk w' = World.disk w ∨ World.disk w' = make_lock_file (World.disk w))) as Hopen.
  { intros w1 Hd1. apply log_wp_bind. unfold wp at 1, open_lock_file.
    destruct (World.root w1); try (left; exact Hd1);
      apply (log_wp_io_write make_lock_file (atomic make_lock_file) w1).
    all: try (intros w2 n e _ _ Hd2; rewrite Hd2, Hd1; apply log_atomic_cases).
    all: intros w2 _ Hd2; rewrite Hd1 in Hd2; apply log_wp_bind, log_wp_io_read;
      [intros w3 v [_ Hd3] _; unfold wp; destruct (World.locked w3)|intros w3 e [_ Hd3]];
      right; cbn; congruence. }
  apply log_wp_bind, wp_metadata; intros w1; [intros [_ Hd1]|intros m [_ Hd1] _]; apply log_wp_bind.
  - destruct (metadata_of (World.disk w) LOCK_FILE) as [[b|]|e]; try (by apply Hopen). by left.
  - by apply Hopen.
Qed.

Lemma collect_frame entries acc w :
  wp (collect_segments entries acc) w (λ _ w', World.disk w' = World.disk w).
Proof.
  revert acc w. induction entries as [|[name n] entries IH]; intros acc w; [done|]. cbn [collect_segments].
  destruct (archive_digits name) as [digits|]; [|apply IH].
  destruct (_ || _); [done|]. destruct (u64_max <? _)%N; [done|].
  apply log_wp_bind, wp_metadata; [|by intros w1 m [_ Hd] _].
  intros w1 [_ Hd]. destruct (metadata_of (World.disk w) name) as [[b|]|e]; try exact Hd.
  eapply log_wp_mono; [apply IH|]. cbn. intros _ w2 ->. done.
Qed.

Lemma archive_segments_frame w : wp archive_segments w (λ _ w', World.disk w' = World.disk w).
Proof.
  apply log_wp_bind, log_wp_io_read; [|by intros w1 e [_ Hd]]. intros w1 v [_ Hd] _.
  eapply log_wp_mono; [apply collect_frame|]. cbn. by intros _ w2 ->.
Qed.

Lemma scan_lines_sound ls sequence prev entries head :
  scan_lines log ls sequence prev = Ok (ScanResult.Valid entries head) →
  ∃ rs, mapM parse_record ls = Some rs ∧ linked log sequence prev rs ∧
    entries = (sequence + count rs)%N ∧ head = last_mac prev rs.
Proof.
  revert sequence prev. induction ls as [|line ls IH]; intros sequence prev H; cbn [scan_lines] in H.
  { injection H as <- <-. exists []. cbn. by rewrite N.add_0_r. }
  destruct (bool_decide (line = [])); [done|].
  destruct (parse_record line) as [r|] eqn:Hp; [|done].
  destruct (verify_record r sequence prev key) as [[]|] eqn:Hv; [|done].
  unfold checked_add_u64 in H. destruct (_ <=? _)%N; [|done]. cbn [ok_or rbind] in H.
  apply IH in H as (rs & Hm & Hl & -> & ->). exists (r :: rs). cbn [mapM mbind option_bind linked].
  rewrite Hp. cbn [mbind option_bind]. rewrite Hm. cbn. rewrite count_cons. split_and!; try done. lia.
Qed.

Lemma scan_sound paths sequence prev w :
  wp (scan_paths_from log paths sequence prev) w (λ r w', World.disk w' = World.disk w ∧
    ∀ entries head, r = Ok (ScanResult.Valid entries head) →
      ∃ rss, mapM (file_records (World.disk w)) paths = Some rss ∧ linked log sequence prev (concat rss) ∧
        entries = (sequence + count (concat rss))%N ∧ head = last_mac prev (concat rss)).
Proof.
  revert sequence prev w. induction paths as [|path paths IH]; intros sequence prev w.
  { split; [done|]. intros ? ? [= <- <-]. exists []. cbn. by rewrite N.add_0_r. }
  cbn [scan_paths_from]. apply log_wp_bind. eapply log_wp_mono; [apply ensure_regular_frame|]. cbn.
  intros [[]|e] w1 Hd1; [|done]. apply log_wp_bind, log_wp_io_read; [|by intros w2 e [_ Hd2]; rewrite Hd2].
  intros w2 raw [_ Hd2] Hraw. apply log_wp_bind, log_wp_lift.
  destruct (scan_segment log path raw sequence prev) as [[entries head|rep]|e] eqn:Hs; cbn beta iota.
  2, 3: split; [cbn; congruence|done].
  unfold scan_segment in Hs. destruct (_ && _); [done|]. destruct (negb _); [done|].
  apply scan_lines_sound in Hs as (rs & Hm & Hl & -> & ->).
  eapply log_wp_mono; [apply IH|]. cbn. intros r w3 [Hd3 Hr]. split; [congruence|].
  intros entries head Heq. destruct (Hr entries head Heq) as (rss & Hm' & Hl' & -> & ->).
  exists (rs :: rss). cbn [mapM concat]. rewrite Hd1 in Hraw. rewrite Hd2, Hd1 in Hm'.
  assert (file_records (World.disk w) path = Some rs) as ->.
  { unfold file_records. destruct (World.disk w !! path) as [[b|]|]; congruence. }
  cbn [mbind option_bind]. rewrite Hm'. cbn. rewrite last_mac_app, count_app, N.add_assoc.
  split_and!; try done. apply linked_app. done.
Qed.

Lemma entries_frame w : wp read_dir_entries_of w (λ _ w', World.disk w' = World.disk w).
Proof. apply log_wp_io_read; [intros w1 v [_ ?] _|intros w1 e [_ ?]]; done. Qed.

Lemma first_artifact_frame w : wp first_audit_artifact w (λ _ w', World.disk w' = World.disk w).
Proof.
  assert (∀ w1, World.disk w1 = World.disk w →
    wp (let! active := symlink_metadata AUDIT_FILE in
        if is_ok active then ret (Some AUDIT_FILE) else
        let! entries := read_dir_entries_of in
        ret (fst <$> List.find (λ entry : string * node, bool_decide (is_Some (archive_digits entry.1))) entries))
      w1 (λ _ w', World.disk w' = World.disk w)) as Hrest.
  { intros w1 Hd1.
    assert (∀ w2, World.disk w2 = World.disk w →
      wp (let! entries := read_dir_entries_of in
          ret (fst <$> List.find (λ entry : string * node, bool_decide (is_Some (archive_digits entry.1))) entries))
        w2 (λ _ w', World.disk w' = World.disk w)) as Hlist.
    { intros w2 Hd2. apply log_wp_bind. eapply log_wp_mono; [apply entries_frame|]. cbn.
      intros [v|e] w3 Hd3; [apply log_wp_ret|]; congruence. }
    apply log_wp_bind, wp_metadata; intros w2; [intros [_ Hd2]|intros m [_ Hd2] _; apply Hlist; congruence].
    destruct (is_ok _); [apply log_wp_ret; congruence|]. apply Hlist. congruence. }
  apply log_wp_bind, wp_metadata; intros w1; [intros [_ Hd1]|intros m [_ Hd1] _; by apply Hrest].
  destruct (is_ok _); [done|by apply Hrest].
Qed.

Lemma load_sound w :
  wp (load_checkpoint log) w (λ r w', World.disk w' = World.disk w ∧
    ∀ cp, r = Ok cp → ∃ bytes, World.disk w !! CHECKPOINT_FILE = Some (File bytes) ∧ parse_checkpoint bytes = Ok cp).
Proof.
  apply log_wp_bind, wp_metadata; [|by intros w1 m [_ Hd] _]. intros w1 [_ Hd1].
  unfold metadata_of. destruct (World.disk w !! CHECKPOINT_FILE) as [[bytes|]|] eqn:Hf.
  - apply log_wp_bind, log_wp_lift. cbn [ensure_regular_metadata]. apply log_wp_bind, log_wp_io_read; [|by intros w2 e [_ Hd2]; rewrite Hd2].
    intros w2 v [_ Hd2] Hv. rewrite Hd1, Hf in Hv. injection Hv as <-. apply log_wp_bind, log_wp_lift.
    destruct (parse_checkpoint bytes) as [cp|] eqn:Hp; [|split; [cbn; congruence|done]].
    apply log_wp_bind, log_wp_lift. destruct (checkpoint_verify cp key) as [[]|]; [|split; [cbn; congruence|done]].
    split; [cbn; congruence|]. intros cp' [= <-]. eauto.
  - split; [done|]. done.
  - apply log_wp_bind. eapply log_wp_mono; [apply first_artifact_frame|]. cbn.
    intros [o|e] w2 Hd2; (split; [cbn; congruence|done]).
Qed.

Lemma scan_lines_invalid ls sequence prev rep :
  scan_lines log ls sequence prev = Ok (ScanResult.Invalid rep) → VerifyReport.ok rep = false.
Proof.
  revert sequence prev. induction ls as [|line ls IH]; intros sequence prev; cbn [scan_lines]; [done|].
  destruct (bool_decide (line = [])); [by intros [= <-]|].
  destruct (parse_record line) as [r|]; [|by intros [= <-]].
  destruct (verify_record r sequence prev key); [|by intros [= <-]].
  destruct (checked_add_u64 sequence 1); [cbn; apply IH|done].
Qed.

Lemma scan_invalid paths sequence prev w :
  wp (scan_paths_from log paths sequence prev) w (λ r w',
    ∀ rep, r = Ok (ScanResult.Invalid rep) → VerifyReport.ok rep = false).
Proof.
  revert sequence prev w. induction paths as [|path paths IH]; intros sequence prev w; [done|].
  cbn [scan_paths_from]. apply log_wp_bind. eapply log_wp_mono; [apply ensure_regular_frame|].
  intros [[]|e] w1 _; [|done]. apply log_wp_bind, log_wp_io_read; [|done]. intros w2 raw _ _. apply log_wp_bind, log_wp_lift.
  destruct (scan_segment log path raw sequence prev) as [[entries head|rep]|e] eqn:Hs; [apply IH| |done].
  apply log_wp_ret. intros rep' [= <-]. unfold scan_segment in Hs.
  destruct (_ && _); [by injection Hs as <-|]. destruct (negb _); [by injection Hs as <-|].
  by eapply scan_lines_invalid.
Qed.

Lemma wp_and {A} (m : M A) w (Q1 Q2 : result A AuditError.t → World.t → Prop) :
  wp m w Q1 → wp m w Q2 → wp m w (λ r w', Q1 r w' ∧ Q2 r w').
Proof. done. Qed.

Lemma verify_against_sound cp w :
  wp (verify_against log cp) w (λ r w', World.disk w' = World.disk w ∧
    ∀ rep, r = Ok rep → VerifyReport.ok rep = true →
      ∃ rs, disk_records (World.disk w) (Checkpoint.active_segment cp) = Some rs ∧
        linked log 0 GENESIS_PREV rs ∧ count rs = Checkpoint.record_count cp ∧
        last_mac GENESIS_PREV rs = Checkpoint.head_mac cp).
Proof.
  apply log_wp_bind, log_wp_attempt. eapply log_wp_mono; [apply archive_segments_frame|].
  intros [archives|e] w1 Hd1; [|split; [done|by intros rep [= <-]]]. cbv zeta.
  destruct (negb _); [split; [done|by intros rep [= <-]]|].
  apply log_wp_bind, log_wp_attempt. eapply log_wp_mono; [apply ensure_regular_frame|].
  intros [[]|e] w2 Hd2; [|split; [cbn; congruence|by intros rep [= <-]]].
  apply log_wp_bind. eapply log_wp_mono; [apply wp_and; [apply scan_sound|apply scan_invalid]|].
  intros r w3 [[Hd3 Hr] Hi]. rewrite Hd2, Hd1 in *. destruct r as [[entries head|rep]|e]; [| |by split].
  2: { split; [done|]. intros rep' [= <-]. rewrite Hi by done. done. }
  destruct (Hr _ _ eq_refl) as (rss & Hm & Hl & -> & ->). apply log_wp_bind, log_wp_lift.
  destruct (start_sequence cp) as [start|e]; [|by split].
  destruct (_ || _); [split; [done|by intros rep [= <-]]|].
  apply log_wp_bind. eapply log_wp_mono; [apply wp_and; [apply scan_sound|apply scan_invalid]|].
  intros r w4 [[Hd4 Hr'] Hi']. rewrite Hd3 in *. destruct r as [[entries head|rep]|e]; [| |by split].
  2: { split; [done|]. intros rep' [= <-]. rewrite Hi' by done. done. }
  destruct (Hr' _ _ eq_refl) as (rss' & Hm' & Hl' & -> & ->).
  destruct (N.eqb_spec (0 + count (concat rss) + count (concat rss')) (Checkpoint.record_count cp)) as [Hc|]; cbn [negb];
    [|split; [done|by intros rep [= <-]]].
  case_bool_decide as Hh; cbn [negb]; (split; [done|]); intros rep [= <-] Hok; [|done].
  cbn [mapM] in Hm'. destruct (file_records (World.disk w) AUDIT_FILE) as [rs|] eqn:Hact; [|done].
  cbn in Hm'. injection Hm' as <-. cbn [concat] in *. rewrite app_nil_r in *.
  exists (concat rss ++ rs). unfold disk_records. rewrite Hm. cbn. rewrite Hact. cbn.
  rewrite last_mac_app, count_app. split_and!; [done|by apply linked_app|lia|done].
Qed.

Lemma verify_locked_sound w :
  wp (verify_locked log) w (λ r w', ∀ rep, r = Ok rep → VerifyReport.ok rep = true →
    ∃ bytes cp rs, World.disk w !! CHECKPOINT_FILE = Some (File bytes) ∧ parse_checkpoint bytes = Ok cp ∧
      disk_records (World.disk w) (Checkpoint.active_segment cp) = Some rs ∧
      linked log 0 GENESIS_PREV rs ∧ count rs = Checkpoint.record_count cp ∧
      last_mac GENESIS_PREV rs = Checkpoint.head_mac cp).
Proof.
  apply log_wp_bind. eapply log_wp_mono; [apply load_sound|]. intros [cp|e] w1 [Hd1 Hcp]; [|done].
  destruct (Hcp cp eq_refl) as (bytes & Hf & Hp). eapply log_wp_mono; [apply verify_against_sound|].
  cbn. rewrite Hd1. intros r w2 [_ Hr] rep Heq Hok. destruct (Hr rep Heq Hok) as (rs & ?).
  by exists bytes, cp, rs.
Qed.

(** ** A chain is determined by where it ends *)

(** Two different record payloads with the same tag. *)
Definition collision : Prop :=
  ∃ m1 m2, m1 ≠ m2 ∧ hmac key (RECORD_DOMAIN ++ m1) = hmac key (RECORD_DOMAIN ++ m2).

Context `{L : !AuditLaws E}.

Lemma same_mac r r' sequence prev prev' :
  verify_record r sequence prev key = Ok tt → verify_record r' sequence prev' key = Ok tt →
  AuditRecord.mac r = AuditRecord.mac r' → r = r' ∧ prev = prev' ∨ collision.
Proof.
  intros [Hp Hm]%verify_record_Ok [Hp' Hm']%verify_record_Ok Heq.
  assert (hmac key (RECORD_DOMAIN ++ record_payload_json (AuditRecord.payload r)) =
          hmac key (RECORD_DOMAIN ++ record_payload_json (AuditRecord.payload r'))) as Hh.
  { apply encode_hex_inj; try apply hmac_bytes. by rewrite <-Hm, <-Hm'. }
  destruct (decide (record_payload_json (AuditRecord.payload r) = record_payload_json (AuditRecord.payload r')))
    as [Hj|Hj]; [left|right; eexists _, _; eauto].
  apply record_payload_inj in Hj. rewrite Hp, Hp' in Hj. injection Hj as -> He.
  split; [|done]. unfold AuditRecord.payload in Hp, Hp'. destruct r, r'. cbn in *.
  injection Hp as -> -> ->. injection Hp' as -> -> ->. by subst.
Qed.

Lemma chain_unique rs rs' sequence prev :
  linked log sequence prev rs → linked log sequence prev rs' → count rs = count rs' →
  last_mac prev rs = last_mac prev rs' → rs = rs' ∨ collision.
Proof.
  revert rs'. induction rs as [|r rs IH] using rev_ind; intros rs' Hl Hl' Hc Hm.
  { destruct rs' as [|r' rs']; [by left|]. rewrite count_cons in Hc. unfold count in Hc. cbn in Hc. lia. }
  destruct rs' as [|r' rs' _] using rev_ind.
  { rewrite count_app in Hc. unfold count in Hc. cbn in Hc. lia. }
  rewrite !count_app in Hc. rewrite !last_mac_app in Hm. cbn [last_mac foldl] in Hm.
  apply linked_app in Hl as [Hl [Hr _]]. apply linked_app in Hl' as [Hl' [Hr' _]].
  assert (count rs = count rs') as Hc' by (unfold count in *; cbn in *; lia). rewrite Hc' in Hr.
  destruct (same_mac _ _ _ _ _ Hr Hr' Hm) as [[-> Hp]|]; [|by right].
  destruct (IH rs') as [->|]; auto.
Qed.
End soundness.

(** ** Creation *)

Section creation.
Context `{E : AuditEnv} `{L : !AuditLaws E}.

(** Nothing of an audit log is there, except perhaps the empty active file that an
    interrupted creation leaves. *)
Record unused (d : gmap string node) : Prop := {
  unused_archives : ∀ name, is_Some (d !! name) → archive_digits name = None;
  unused_checkpoint : d !! CHECKPOINT_FILE = None;
  unused_active : d !! AUDIT_FILE = None ∨ d !! AUDIT_FILE = Some (File []);
  unused_lock : d !! LOCK_FILE ≠ Some NotFile
}.

Lemma unused_make_lock d d' : unused d → d' = d ∨ d' = make_lock_file d → unused d'.
Proof.
  intros HU [->| ->]; [done|]. unfold make_lock_file. destruct (d !! LOCK_FILE) eqn:Hl; [done|].
  destruct HU as [Ha Hc Hact _]. unfold put_file. split.
  - intros name Hn. destruct (decide (name = LOCK_FILE)) as [->|Hne]; [done|].
    apply Ha. by rewrite lookup_insert_ne in Hn.
  - by rewrite lookup_insert_ne.
  - by rewrite lookup_insert_ne.
  - by rewrite lookup_insert_eq.
Qed.

Lemma reads_no_archives w : unused (World.disk w) → reads archive_segments ∅ w.
Proof.
  intros HU. eapply log_reads_bind; [by apply log_reads_io|]. intros w1 [_ Hd1].
  assert (∀ name n, (name, n) ∈ read_dir (World.disk w) → archive_digits name = None) as Hnone.
  { intros name n Hin. rewrite (read_dir_entries (World.disk w)) in Hin. apply elem_of_map_to_list in Hin.
    apply (unused_archives _ HU). by eexists. }
  pose proof (reads_collect (read_dir (World.disk w)) ∅ w1) as Hc.
  replace (∅ ∪ list_to_set (omap segment_of (read_dir (World.disk w)).*1) : gset N) with (∅ : gset N) in Hc.
  - apply Hc. intros name n Hin [x Hx]. rewrite (Hnone _ _ Hin) in Hx. done.
  - rewrite union_empty_l_L. apply set_eq. intros n. rewrite elem_of_list_to_set, list_elem_of_omap.
    split; [set_solver|]. intros (name & Hin & Hs). apply list_elem_of_fmap in Hin as ([name' nd] & -> & Hin).
    cbn [fst] in Hs. unfold segment_of in Hs. by rewrite (Hnone _ _ Hin) in Hs.
Qed.

Lemma genesis_Log log d :
  unused d → Log log (put_file CHECKPOINT_FILE (checkpoint_json (checkpoint_genesis (AuditLog.key log)) ++ [10%N])
                       (put_file AUDIT_FILE [] d)) [].
Proof.
  intros [Ha Hc Hact Hl]. exists [], []. split; [split; [done|done|constructor]|]. split; [|done].
  unfold put_file. split.
  - done.
  - intros name Hn [x Hx]. destruct (decide (name = CHECKPOINT_FILE)) as [->|Hne]; [done|].
    destruct (decide (name = AUDIT_FILE)) as [->|Hne']; [done|].
    rewrite !lookup_insert_ne in Hn by done. apply Ha in Hn. congruence.
  - rewrite lookup_insert_ne by done. by rewrite lookup_insert_eq.
  - by rewrite lookup_insert_eq.
  - by rewrite !lookup_insert_ne.
Qed.

Lemma log_create_spec key max_bytes w :
  let log := AuditLog.build key max_bytes in
  ready w → unused (World.disk w) →
  wp (create_with_max_bytes key max_bytes) w (λ r w', r = Ok log ∧ ready w' ∧ Log log (World.disk w') []).
Proof.
  intros log Hready HU. pose proof Hready as (Hroot & Hlock & Hq).
  apply log_wp_bind, ensure_root_ready; [done|]. cbv zeta. fold log.
  apply log_wp_bind, wp_acquire; [done|done|apply HU| |done].
  intros w1 (Hr1 & Hl1 & Hq1) Hd1. specialize (Hq1 Hq). eapply unused_make_lock in HU; [|exact Hd1]. clear Hd1.
  apply log_wp_bind. eapply wp_reads_quiet; [by apply reads_no_archives|done|].
  intros w2 [K2 Hd2] Hq2. rewrite <-Hd2 in HU. rewrite bool_decide_eq_true_2 by done. cbn [negb].
  apply log_wp_bind, log_wp_bind, wp_metadata; [|done]. intros w3 [K3 Hd3]. rewrite <-Hd3 in HU.
  unfold metadata_of at 1. rewrite <-Hd3, (unused_checkpoint _ HU). apply log_wp_ret.
  pose proof (log_keeps_trans _ _ _ K2 K3) as (Hr3 & Hl3 & Hq3). specialize (Hq3 Hq1).
  assert (∀ w4, keeps w3 w4 → World.disk w4 = put_file AUDIT_FILE [] (World.disk w3) →
    wp (let! _ := write_checkpoint (checkpoint_genesis key) in ret log) w4
      (λ r w', r = Ok log ∧ ready w' ∧ Log log (World.disk w') [])) as Hfin.
  { intros w4 (Hr4 & Hl4 & Hq4) Hd4. apply log_wp_bind, wp_atomic_replace.
    - rewrite Hd4. unfold put_file. rewrite lookup_insert_ne, (unused_checkpoint _ HU); done.
    - intros w5 (Hr5 & Hl5 & Hq5) Hd5. apply log_wp_ret. split_and!; [done| |].
      + split_and!; [congruence|congruence|auto].
      + rewrite Hd5, Hd4. by apply (genesis_Log log).
    - intros w5 e _ Hn. exfalso. auto. }
  cbn [is_ok]. apply log_wp_bind, wp_metadata; [|intros w4 m _ Hn; exfalso; auto].
  intros w4 [K4 Hd4]. unfold metadata_of. destruct (unused_active _ HU) as [Hact|Hact]; rewrite Hact; apply log_wp_bind.
  - apply wp_atomic_replace; [by rewrite Hd4, Hact| |intros w5 e _ Hn; exfalso; destruct K4 as (_ & _ & ?); auto].
    intros w5 K5 Hd5. apply Hfin; [by eapply log_keeps_trans|]. by rewrite Hd5, Hd4.
  - apply log_wp_bind, log_wp_lift. cbn [ensure_regular_metadata]. cbn [node_len length N.of_nat N.eqb negb].
    apply log_wp_ret, Hfin; [done|]. rewrite Hd4. unfold put_file. by rewrite insert_id.
Qed.
End creation.

(** ** The theorems *)

Section theorems.
Context `{E : AuditEnv} `{L : !AuditLaws E}.

(** The lock file is not a file of the log. *)
Lemma file_records_lock d name :
  name ≠ LOCK_FILE → file_records (make_lock_file d) name = file_records d name.
Proof.
  intros Hne. unfold file_records, make_lock_file, put_file. destruct (d !! LOCK_FILE); [done|].
  by rewrite lookup_insert_ne.
Qed.

Lemma disk_records_lock d n : disk_records (make_lock_file d) n = disk_records d n.
Proof.
  unfold disk_records. rewrite (file_records_lock d AUDIT_FILE) by done. f_equal.
  unfold archive_paths. induction (range n) as [|k ks IH]; [done|]. cbn [fmap list_fmap mapM].
  rewrite file_records_lock by by apply archive_name_ne. by rewrite IH.
Qed.

(** C28: when no call of the operating system fails, [record] refines the append of one record to the history: it succeeds, the history is extended by exactly the signed record of the redacted event, whether or not the segment was rotated, the active file stays within its bound, and the whole log verifies with one more entry. *)
Theorem record_refines log w hist event :
  ready w → AuditLog.poisoned log = false → Log log (World.disk w) hist → (count hist < u64_max)%N →
  (N.of_nat (length (record_line (next_record log hist event))) ≤ MAX_ACTIVE_VERIFY_BYTES)%N →
  ∃ w', record log event w = (w', Ok tt) ∧
    Log log (World.disk w') (hist ++ [next_record log hist event]) ∧
    active_bounded log (World.disk w') (next_record log hist event) ∧
    (verify_chain log w').2 = Ok (VerifyReport.success (count hist + 1)).
Proof.
  intros (Hroot & Hlock & Hq) Hp HLog Hc Hline.
  pose proof (record_spec log w hist event Hroot Hlock Hp (Log_Recoverable _ _ _ HLog) Hc) as Hspec.
  specialize (Hspec (λ Hn, False_ind _ (Hn Hq)) Hline). unfold wp in Hspec.
  destruct (record log event w) as [w' res] eqn:Hrec. cbn in Hspec.
  destruct Hspec as [K [(-> & HLog' & Hb)|(Hn & _)]]; [|done]. exists w'. split_and!; try done.
  destruct K as (Hr' & Hl' & Hq'). specialize (Hq' Hq).
  enough (wp (verify_chain log) w' (λ r _, r = Ok (VerifyReport.success (count hist + 1)))) as Hv by done.
  unfold verify_chain, lock_operation. rewrite Hp. apply log_wp_bind, log_wp_ret. apply log_wp_bind.
  apply wp_acquire; [congruence|congruence|by eapply Recoverable_lock_file, Log_Recoverable| |done].
  intros w1 (_ & _ & Hq1) Hd1. destruct HLog' as (segs & act & Hg & HL & Hh).
  eapply log_wp_mono; [apply verify_locked_complete; [auto|]|].
  - exists segs, act. split_and!; [done|by eapply Layout_lock|exact Hh].
  - cbn. intros r w2 [_ ->]. do 2 f_equal. by rewrite count_app.
Qed.

(** C26: an append is atomic under any failure of the operating system at any of its calls, and under a crash: afterwards, opening the log succeeds and gives the old history or the old history with the whole new record, always the latter when [record] reported success; the exception is a write torn inside the line, which is never accepted and makes opening fail with an integrity error. The starting state may itself be the remains of an earlier interruption. *)
Theorem record_crash_atomic log w hist event max_bytes :
  World.root w = RootDirectory → World.locked w = false → AuditLog.poisoned log = false →
  Recoverable log (World.disk w) hist → (count hist < u64_max)%N →
  AuditRecord.mac (next_record log hist event) ≠ last_mac GENESIS_PREV hist →
  (N.of_nat (length (record_line (next_record log hist event))) ≤ MAX_ACTIVE_VERIFY_BYTES)%N →
  let '(w', res) := record log event w in
  let reopened := AuditLog.build (AuditLog.key log) max_bytes in
  let '(w'', opened) := open_with_max_bytes (AuditLog.key log) max_bytes
                          (World.mk RootDirectory (World.disk w') false []) in
  (∃ hist', opened = Ok reopened ∧ Log reopened (World.disk w'') hist' ∧
     (hist' = hist ++ [next_record log hist event] ∨ hist' = hist ∧ res ≠ Ok tt)) ∨
  Torn log (World.disk w') hist (next_record log hist event) ∧ res ≠ Ok tt ∧
  opened = Err (AuditError.Integrity TORN).
Proof.
  intros Hroot Hlock Hp HR Hc Hf Hline.
  pose proof (record_spec log w hist event Hroot Hlock Hp HR Hc (λ _, Hf) Hline) as Hspec. unfold wp in Hspec.
  destruct (record log event w) as [w' res]. cbn in Hspec. cbv zeta.
  set (log' := AuditLog.build (AuditLog.key log) max_bytes).
  set (w0 := World.mk RootDirectory (World.disk w') false []).
  assert (ready w0) as Hready by done.
  assert (∀ hist', Recoverable log (World.disk w') hist' →
    wp (open_with_max_bytes (AuditLog.key log) max_bytes) w0
      (λ r w'', r = Ok log' ∧ Log log' (World.disk w'') hist')) as Hopen.
  { intros hist' HR'. eapply log_wp_mono; [apply open_spec; [done|]|].
    - by eapply (Recoverable_key log).
    - cbn. intros r w'' (-> & _ & HL). done. }
  unfold wp in Hopen. pose proof (open_torn (AuditLog.key log) max_bytes w0 hist (next_record log hist event)) as Htorn.
  cbv zeta in Htorn. unfold wp in Htorn. destruct (open_with_max_bytes _ _ _) as [w'' opened]. cbn in *.
  destruct Hspec as [_ [(-> & HLog & _)|(Hn & [e ->] & [HR'|[HR'|HT]])]].
  - left. destruct (Hopen _ (Log_Recoverable _ _ _ HLog)) as [? ?]. eauto.
  - left. destruct (Hopen _ HR') as [? ?]. exists hist. split_and!; try done. by right.
  - left. destruct (Hopen _ HR') as [? ?]. eauto.
  - right. split_and!; [done|done|]. apply Htorn; [done|].
    destruct HT as (segs & act & n & Hg & -> & Hnn & HL). exists segs, act, n.
    split_and!; [by apply (good_key log)|done|lia|lia|done].
Qed.

(** C27: if the checkpoint file is the one of a committed log, then whatever else was done to the directory (records edited, removed, reordered or replayed, files truncated, replaced or deleted), a verification that succeeds has read back exactly the committed history; the only way around it is a collision of HMAC-SHA256 under the log's key, which the proof exhibits. *)
Theorem history_tamper_evident log d hist w w' report :
  Log log d hist → World.disk w !! CHECKPOINT_FILE = d !! CHECKPOINT_FILE →
  verify_chain log w = (w', Ok report) → VerifyReport.ok report = true →
  (∃ n, disk_records (World.disk w) n = Some hist) ∨ collision log.
Proof.
  intros (segs & act & Hg & HL & ->) Hcp Hver Hok.
  assert (wp (verify_chain log) w (λ r _, ∀ rep, r = Ok rep → VerifyReport.ok rep = true →
    ∃ d' bytes cp rs, (d' = World.disk w ∨ d' = make_lock_file (World.disk w)) ∧
      d' !! CHECKPOINT_FILE = Some (File bytes) ∧ parse_checkpoint bytes = Ok cp ∧
      disk_records d' (Checkpoint.active_segment cp) = Some rs ∧ linked log 0 GENESIS_PREV rs ∧
      count rs = Checkpoint.record_count cp ∧ last_mac GENESIS_PREV rs = Checkpoint.head_mac cp)) as Hwp.
  { unfold verify_chain, lock_operation. destruct (AuditLog.poisoned log); [done|].
    apply log_wp_bind, log_wp_ret. apply log_wp_bind. eapply log_wp_mono; [apply acquire_frame|]. cbn.
    intros [[]|e] w1 Hd1; [|done]. eapply log_wp_mono; [apply verify_locked_sound|]. cbn.
    intros r w2 Hr rep Heq Hrep. destruct (Hr rep Heq Hrep) as (bytes & cp & rs & ?).
    by exists (World.disk w1), bytes, cp, rs. }
  unfold wp in Hwp. rewrite Hver in Hwp.
  destruct (Hwp report eq_refl Hok) as (d' & bytes & cp & rs & Hd' & Hb & Hparse & Hrs & Hl & Hcnt & Hm).
  assert (cp = cp_for log segs act) as ->.
  { assert (d' !! CHECKPOINT_FILE = World.disk w !! CHECKPOINT_FILE) as Heq.
    { destruct Hd' as [->| ->]; [done|]. unfold make_lock_file, put_file.
      destruct (World.disk w !! LOCK_FILE); [done|]. by rewrite lookup_insert_ne. }
    rewrite Heq, Hcp, (lay_checkpoint _ _ _ _ HL) in Hb. injection Hb as <-.
    rewrite parse_checkpoint_json in Hparse. by injection Hparse. }
  destruct (chain_unique log rs (concat segs ++ act) 0 GENESIS_PREV) as [->|]; [done|apply Hg|done|done| |by right].
  left. eexists. destruct Hd' as [->| ->]; [exact Hrs|]. rewrite disk_records_lock in Hrs. exact Hrs.
Qed.
End theorems.

(** ** A concrete log *)

(** A log created in an empty directory, with one record, and a second event that makes
    it rotate. *)
Definition demo_log : AuditLog.t := AuditLog.build [1; 2; 3]%N 3000.
Definition demo_event : AuditEvent.t :=
  AuditEvent.with_paths (AuditEvent.new 5 AuditAction.ReadFile AuditDecision.Allowed "mcp-ws")
    (Some "notes") None.
Definition demo_created : World.t :=
  (create_with_max_bytes [1; 2; 3]%N 3000 (World.mk RootDirectory ∅ false [])).1.
Definition demo_world : World.t := (record demo_log demo_event demo_created).1.
Definition demo_history : list AuditRecord.t := [next_record demo_log [] demo_event].
(** The same disk; the append after the rotation is written and then fails to sync. *)
Definition demo_faulty : World.t :=
  World.mk RootDirectory (World.disk demo_world) false (replicate 19 Done ++ [Fails 5000 "disk full"]).

Lemma demo_created_log : ready demo_created ∧ Log demo_log (World.disk demo_created) [].
Proof.
  destruct (log_create_spec [1; 2; 3]%N 3000 (World.mk RootDirectory ∅ false [])) as (_ & ? & ?).
  - done.
  - split; [by intros name [x Hx]|done|by left|done].
  - done.
Qed.

Lemma demo_world_log : ready demo_world ∧ Log demo_log (World.disk demo_world) demo_history.
Proof.
  destruct demo_created_log as [(Hr & Hl & Hq) HLog].
  assert (N.of_nat (length (record_line (next_record demo_log [] demo_event))) ≤ MAX_ACTIVE_VERIFY_BYTES)%N as Hline
    by (apply N.leb_le; vm_compute; reflexivity).
  pose proof (record_spec demo_log demo_created [] demo_event Hr Hl eq_refl (Log_Recoverable _ _ _ HLog)
                eq_refl (λ Hn, False_ind _ (Hn Hq)) Hline) as [(Hr' & Hl' & Hq') Hres].
  destruct Hres as [(_ & HLog' & _)|(Hn & _)]; [|destruct (Hn Hq)].
  split; [|exact HLog']. split; [exact (eq_trans Hr' Hr)|].
  split; [exact (eq_trans Hl' Hl)|exact (Hq' Hq)].
Qed.

Lemma demo_line :
  (N.of_nat (length (record_line (next_record demo_log demo_history demo_event))) ≤ MAX_ACTIVE_VERIFY_BYTES)%N.
Proof. apply N.leb_le. vm_compute. reflexivity. Qed.

Lemma record_refines_witness :
  ∃ w', record demo_log demo_event demo_world = (w', Ok tt) ∧
    Log demo_log (World.disk w') (demo_history ++ [next_record demo_log demo_history demo_event]) ∧
    active_bounded demo_log (World.disk w') (next_record demo_log demo_history demo_event) ∧
    (verify_chain demo_log w').2 = Ok (VerifyReport.success 2).
Proof.
  apply (record_refines demo_log demo_world demo_history demo_event).
  - apply demo_world_log.
  - reflexivity.
  - apply demo_world_log.
  - reflexivity.
  - apply demo_line.
Defined.

Lemma record_crash_atomic_witness :
  let '(w', res) := record demo_log demo_event demo_faulty in
  let '(w'', opened) := open_with_max_bytes [1; 2; 3]%N 3000 (World.mk RootDirectory (World.disk w') false []) in
  (∃ hist', opened = Ok demo_log ∧ Log demo_log (World.disk w'') hist' ∧
     (hist' = demo_history ++ [next_record demo_log demo_history demo_event] ∨
      hist' = demo_history ∧ res ≠ Ok tt)) ∨
  Torn demo_log (World.disk w') demo_history (next_record demo_log demo_history demo_event) ∧ res ≠ Ok tt ∧
  opened = Err (AuditError.Integrity TORN).
Proof.
  apply (record_crash_atomic demo_log demo_faulty demo_history demo_event 3000).
  - reflexivity.
  - reflexivity.
  - reflexivity.
  - apply Log_Recoverable, demo_world_log.
  - reflexivity.
  - vm_compute. discriminate.
  - apply demo_line.
Defined.

Lemma history_tamper_evident_witness :
  (∃ n, disk_records (World.disk demo_world) n = Some demo_history) ∨ collision demo_log.
Proof.
  apply (history_tamper_evident demo_log (World.disk demo_world) demo_history demo_world
           (verify_chain demo_log demo_world).1 (VerifyReport.success 1)).
  - apply demo_world_log.
  - reflexivity.
  - transitivity ((verify_chain demo_log demo_world).1, (verify_chain demo_log demo_world).2);
      [apply surjective_pairing|]. apply (f_equal (pair _)). vm_compute. reflexivity.
  - reflexivity.
Defined.
