(* ===== verification/Text.v ===== *)
(** * Text: the string functions of the standard library the vault's core uses

    ASCII case, substring search, [str::replace] and [String::from_utf8_lossy], on byte
    strings, with the facts about them that the components share. *)
From S2P Require Import Prelude.

Ltac Zify.zify_post_hook ::= Z.div_mod_to_equations.

(** ** ASCII case *)

Fixpoint str_map (f : N → N) (s : string) : string :=
  match s with
  | EmptyString => EmptyString
  | String a r => String (Ascii.ascii_of_N (f (Ascii.N_of_ascii a))) (str_map f r)
  end.

Definition to_ascii_lowercase (b : N) : N := if is_ascii_uppercase b then (b + 32)%N else b.

(** [str::to_ascii_lowercase] and [str::to_ascii_uppercase]. *)
Definition str_lower (s : string) : string := str_map to_ascii_lowercase s.
Definition str_upper (s : string) : string := str_map to_ascii_uppercase s.

(** [str::eq_ignore_ascii_case]. *)
Definition eq_ignore_ascii_case (s t : string) : bool := bool_decide (str_lower s = str_lower t).

(** ** Searching and replacing *)

(** [str::ends_with]. *)
Definition ends_with (s p : string) : bool :=
  match strip_suffix p s with Some _ => true | None => false end.

(** [s.contains(p)] for a string pattern [p]. *)
Fixpoint str_infix (p s : string) : bool :=
  starts_with s p || match s with EmptyString => false | String _ r => str_infix p r end.

(** [s.replace(p, rep)] for a non-empty [p]: the matches are taken from the left
    without overlap; [skip] counts the bytes of the last match still to pass. *)
Fixpoint replace_go (p rep : string) (skip : nat) (s : string) : string :=
  match s with
  | EmptyString => EmptyString
  | String a r =>
      match skip with
      | S k => replace_go p rep k r
      | O =>
          if starts_with s p then rep +:+ replace_go p rep (String.length p - 1) r
          else String a (replace_go p rep 0 r)
      end
  end.

Definition str_replace (p rep s : string) : string := replace_go p rep 0 s.

(** ** [String::from_utf8_lossy] *)

(** U+FFFD, the replacement character. *)
Definition REPLACEMENT : list N := [239; 191; 189]%N.

(** Each maximal invalid part is replaced by U+FFFD: the lead byte alone when the
    byte after it does not fit, otherwise the lead and the bytes that fit. *)
Fixpoint utf8_lossy (l : list N) : list N :=
  match l with
  | [] => []
  | b :: l1 =>
      if (b <? 128)%N then b :: utf8_lossy l1
      else if ((194 <=? b) && (b <=? 223))%N then
        match l1 with
        | c :: l2 => if is_continuation c then b :: c :: utf8_lossy l2
                     else REPLACEMENT ++ utf8_lossy l1
        | [] => REPLACEMENT
        end
      else if ((224 <=? b) && (b <=? 239))%N then
        match l1 with
        | c :: l2 =>
            if second_byte_ok b c then
              match l2 with
              | d :: l3 => if is_continuation d then b :: c :: d :: utf8_lossy l3
                           else REPLACEMENT ++ utf8_lossy l2
              | [] => REPLACEMENT
              end
            else REPLACEMENT ++ utf8_lossy l1
        | [] => REPLACEMENT
        end
      else if ((240 <=? b) && (b <=? 244))%N then
        match l1 with
        | c :: l2 =>
            if second_byte_ok b c then
              match l2 with
              | d :: l3 =>
                  if is_continuation d then
                    match l3 with
                    | e :: l4 => if is_continuation e then b :: c :: d :: e :: utf8_lossy l4
                                 else REPLACEMENT ++ utf8_lossy l3
                    | [] => REPLACEMENT
                    end
                  else REPLACEMENT ++ utf8_lossy l2
              | [] => REPLACEMENT
              end
            else REPLACEMENT ++ utf8_lossy l1
        | [] => REPLACEMENT
        end
      else REPLACEMENT ++ utf8_lossy l1
  end.

(** ** Facts *)

Lemma str_app_nil_r s : s +:+ "" = s.
Proof. induction s as [|a s IH]; [done|]. change (String a s +:+ "") with (String a (s +:+ "")). by rewrite IH. Qed.

Lemma str_app_assoc s t u : s +:+ (t +:+ u) = (s +:+ t) +:+ u.
Proof.
  induction s as [|a s IH]; [done|].
  change (String a s +:+ (t +:+ u)) with (String a (s +:+ (t +:+ u))). by rewrite IH.
Qed.

Lemma str_app_inj_l p s t : p +:+ s = p +:+ t → s = t.
Proof.
  intros E. assert (Some s = Some t) as [=]; [|done].
  rewrite <-(strip_prefix_app p s), <-(strip_prefix_app p t). by f_equal.
Qed.

Lemma starts_with_spec s p : starts_with s p = true ↔ ∃ r, s = p +:+ r.
Proof.
  unfold starts_with. destruct (strip_prefix p s) as [r|] eqn:E.
  - apply strip_prefix_Some in E. naive_solver.
  - split; [done|]. intros [r ->]. by rewrite strip_prefix_app in E.
Qed.

Lemma starts_with_cons a s b p :
  starts_with (String a s) (String b p) = bool_decide (b = a) && starts_with s p.
Proof. unfold starts_with. simpl. by case_decide; case_bool_decide. Qed.

Lemma starts_with_nil s : starts_with s "" = true.
Proof. by destruct s. Qed.

Lemma str_infix_cons p a s :
  str_infix p (String a s) = starts_with (String a s) p || str_infix p s.
Proof. done. Qed.

Lemma str_infix_spec p s : str_infix p s = true ↔ ∃ a b, s = a +:+ (p +:+ b).
Proof.
  split.
  - induction s as [|c s IH]; cbn [str_infix]; rewrite orb_true_iff.
    + intros [[r E]%starts_with_spec|[=]]. by exists "", r.
    + intros [[r E]%starts_with_spec|(a & b & ->)%IH]; [by exists "", r|by exists (String c a), b].
  - intros (a & b & ->). induction a as [|c a IH].
    + change ("" +:+ (p +:+ b)) with (p +:+ b). destruct (p +:+ b) as [|] eqn:E;
        cbn [str_infix]; rewrite orb_true_iff; left; apply starts_with_spec; by exists b.
    + change (String c a +:+ (p +:+ b)) with (String c (a +:+ (p +:+ b))).
      rewrite str_infix_cons, IH. apply orb_true_r.
Qed.

Lemma str_infix_app_r p s t : str_infix p s = true → str_infix p (s +:+ t) = true.
Proof.
  rewrite !str_infix_spec. intros (a & b & ->). exists a, (b +:+ t).
  by rewrite <-!str_app_assoc.
Qed.

(** A pattern without [c] that starts before a [c] ends before it. *)
Lemma starts_with_split p u c t :
  str_contains c p = false → starts_with (u +:+ String c t) p = true → starts_with u p = true.
Proof.
  revert u. induction p as [|a p IH]; intros u; [by rewrite !starts_with_nil|].
  cbn [str_contains]. rewrite orb_false_iff. intros [Ha Hp].
  destruct u as [|b u].
  - change ("" +:+ String c t) with (String c t). rewrite starts_with_cons.
    intros [E%bool_decide_eq_true_1 _]%andb_true_iff. subst. case_bool_decide; done.
  - change (String b u +:+ String c t) with (String b (u +:+ String c t)).
    rewrite !starts_with_cons, !andb_true_iff. naive_solver.
Qed.

Lemma str_infix_split p u c t :
  str_contains c p = false → p ≠ "" →
  str_infix p (u +:+ String c t) = true → str_infix p u = true ∨ str_infix p t = true.
Proof.
  intros Hc Hp. induction u as [|a u IH].
  - change ("" +:+ String c t) with (String c t). rewrite str_infix_cons, orb_true_iff.
    intros [H|H]; [|by right]. change (String c t) with ("" +:+ String c t) in H.
    apply starts_with_split in H; [|done]. by destruct p.
  - change (String a u +:+ String c t) with (String a (u +:+ String c t)).
    rewrite !str_infix_cons, !orb_true_iff.
    change (String a (u +:+ String c t)) with (String a u +:+ String c t).
    intros [H%starts_with_split|H]; naive_solver.
Qed.

(** Where a replaced string starts with a pattern that avoids the first character of
    the replacement, so did the string. *)
Lemma replace_starts_with p c rep q s :
  str_contains c q = false →
  starts_with (replace_go p (String c rep) 0 s) q = true → starts_with s q = true.
Proof.
  revert s. induction q as [|a q IH]; intros s; [by rewrite !starts_with_nil|].
  cbn [str_contains]. rewrite orb_false_iff. intros [Ha Hq].
  destruct s as [|b s]; [done|]. cbn [replace_go]. destruct (starts_with (String b s) p).
  - change (String c rep +:+ ?x) with (String c (rep +:+ x)). rewrite starts_with_cons.
    intros [E%bool_decide_eq_true_1 _]%andb_true_iff. subst. case_bool_decide; done.
  - rewrite !starts_with_cons, !andb_true_iff. naive_solver.
Qed.

(** After replacing [p] by a text that starts with [c] and ends with [d], neither of
    them in [p], and does not contain [p], no [p] is left. *)
Lemma replace_complete p c m d skip s :
  p ≠ "" → str_contains c p = false → str_contains d p = false →
  str_infix p (String c m +:+ String d "") = false →
  str_infix p (replace_go p (String c m +:+ String d "") skip s) = false.
Proof.
  intros Hne Hc Hd Hm. revert skip. induction s as [|a s IH]; intros skip.
  - cbn [replace_go str_infix]. by destruct p.
  - destruct skip as [|k]; [|apply IH]. cbn [replace_go].
    destruct (starts_with (String a s) p) eqn:Hs.
    + apply not_true_iff_false. rewrite <-str_app_assoc.
      change (String d "" +:+ ?x) with (String d x).
      intros [H|H]%str_infix_split; [|by rewrite IH in H|done|done].
      by rewrite (str_infix_app_r _ _ _ H) in Hm.
    + rewrite str_infix_cons, IH, orb_false_r. apply not_true_iff_false. intros H.
      change (String c m +:+ String d "") with (String c (m +:+ String d "")) in H.
      assert (starts_with (replace_go p (String c (m +:+ String d "")) 0 (String a s)) p = true) as H'.
      { cbn [replace_go]. by rewrite Hs. }
      apply replace_starts_with in H'; congruence.
Qed.

Lemma replace_absent p rep s : str_infix p s = false → str_replace p rep s = s.
Proof.
  unfold str_replace. induction s as [|a s IH]; [done|].
  rewrite str_infix_cons, orb_false_iff. intros [H1 H2]. cbn [replace_go].
  by rewrite H1, IH.
Qed.

Lemma utf8_lossy_valid l : utf8_valid l = true → utf8_lossy l = l.
Proof.
  remember (length l) as n eqn:Hn. revert l Hn.
  induction n as [n IH] using lt_wf_ind. intros [|a l] ->; [done|]. cbn [utf8_valid utf8_lossy].
  assert (∀ k, length k < length (a :: l) → utf8_valid k = true → utf8_lossy k = k) as IH' by eauto.
  destruct (a <? 128)%N; [intros H; f_equal; apply IH'; simpl; auto; lia|].
  assert ((a <=? 223) = (a <? 224))%N as -> by (apply eq_true_iff_eq; rewrite N.leb_le, N.ltb_lt; lia).
  assert ((a <=? 239) = (a <? 240))%N as -> by (apply eq_true_iff_eq; rewrite N.leb_le, N.ltb_lt; lia).
  assert ((a <=? 244) = (a <? 245))%N as -> by (apply eq_true_iff_eq; rewrite N.leb_le, N.ltb_lt; lia).
  destruct ((194 <=? a) && (a <? 224))%N; [|destruct ((224 <=? a) && (a <? 240))%N;
    [|destruct ((240 <=? a) && (a <? 245))%N; [|done]]];
    [destruct l as [|b l]|destruct l as [|b [|c l]]|destruct l as [|b [|c [|d l]]]]; try done;
    rewrite !andb_true_iff; intros H; destruct_and?;
    repeat match goal with E : _ = true |- _ => rewrite E; clear E end.
  all: f_equal; rewrite IH' by (done || (simpl; lia)); done.
Qed.

(** ** [str::split] at a character, and its inverse *)

Fixpoint split_on (c : ascii) (s : string) : list string :=
  match s with
  | EmptyString => [""]
  | String a r =>
      if decide (a = c) then "" :: split_on c r
      else match split_on c r with
           | h :: t => String a h :: t
           | [] => [String a ""]
           end
  end.

Fixpoint join_with (c : ascii) (l : list string) : string :=
  match l with
  | [] => ""
  | x :: l' => match l' with [] => x | _ => x +:+ String c (join_with c l') end
  end.

Lemma split_on_cons c s : ∃ h t, split_on c s = h :: t.
Proof. destruct s as [|a s]; simpl; [eauto|]. case_decide; [eauto|]. destruct (split_on c s); eauto. Qed.

Lemma join_with_cons c x l : l ≠ [] → join_with c (x :: l) = x +:+ String c (join_with c l).
Proof. by destruct l. Qed.

Lemma join_split c s : join_with c (split_on c s) = s.
Proof.
  induction s as [|a s IH]; [done|]. cbn [split_on]. destruct (split_on_cons c s) as (h & t & E).
  case_decide as Hc.
  - rewrite join_with_cons by by rewrite E. rewrite IH, Hc. done.
  - rewrite E in *. destruct t as [|y t].
    + by rewrite <-IH.
    + rewrite join_with_cons in * by done. rewrite <-IH. done.
Qed.

Lemma split_on_app c s t : split_on c (s +:+ String c t) = split_on c s ++ split_on c t.
Proof.
  induction s as [|a s IH].
  - change ("" +:+ String c t) with (String c t). simpl. by rewrite decide_True.
  - change (String a s +:+ String c t) with (String a (s +:+ String c t)). cbn [split_on].
    rewrite IH. destruct (split_on_cons c s) as (h & k & ->). by case_decide.
Qed.

Lemma join_with_app c l k : l ≠ [] → k ≠ [] →
  join_with c (l ++ k) = join_with c l +:+ String c (join_with c k).
Proof.
  intros Hl Hk. induction l as [|x [|y l] IH]; [done| |].
  - change ([x] ++ k) with (x :: k). by rewrite join_with_cons.
  - change ((x :: y :: l) ++ k) with (x :: (y :: l) ++ k).
    rewrite !join_with_cons, IH by done. by rewrite <-str_app_assoc.
Qed.

(** A prefix of the parts is a prefix of the string that ends where a part ends. *)
Lemma split_on_prefix c s t :
  split_on c s `prefix_of` split_on c t ↔ t = s ∨ ∃ r, t = s +:+ String c r.
Proof.
  split.
  - intros [k E]. destruct k as [|y k].
    + left. rewrite <-(join_split c t), <-(join_split c s), E. by rewrite app_nil_r.
    + right. exists (join_with c (y :: k)). rewrite <-(join_split c t), E.
      rewrite join_with_app by (done || by destruct (split_on_cons c s) as (? & ? & ->)).
      by rewrite join_split.
  - intros [->|[r ->]]; [done|]. rewrite split_on_app. by apply prefix_app_r.
Qed.

Lemma ends_with_spec s p : ends_with s p = true ↔ ∃ r, s = r +:+ p.
Proof.
  unfold ends_with. split.
  - intros H. destruct (strip_suffix p s) as [r|] eqn:E; [|done]. exists r. clear H.
    revert r E. induction s as [|a s IH]; intros r; cbn [strip_suffix].
    + case_decide as D; [|done]. intros [= <-]. by rewrite <-D.
    + case_decide as D; [intros [= <-]; by rewrite <-D|].
      destruct (strip_suffix p s) as [r'|]; [|done]. intros [= <-].
      by rewrite (IH r' eq_refl).
  - intros [r ->]. by rewrite strip_suffix_app.
Qed.

Lemma to_ascii_lowercase_idem b : to_ascii_lowercase (to_ascii_lowercase b) = to_ascii_lowercase b.
Proof.
  unfold to_ascii_lowercase, is_ascii_uppercase.
  destruct ((65 <=? b) && (b <=? 90))%N eqn:E; [|by rewrite E].
  apply andb_true_iff in E as [E1%N.leb_le E2%N.leb_le].
  destruct (_ && _) eqn:E; [|done]. apply andb_true_iff in E as [_ E%N.leb_le]. lia.
Qed.

Lemma to_ascii_lowercase_lt b : (b < 256 → to_ascii_lowercase b < 256)%N.
Proof.
  unfold to_ascii_lowercase, is_ascii_uppercase. destruct (_ && _) eqn:E; [|done].
  apply andb_true_iff in E as [_ E%N.leb_le]. lia.
Qed.

Lemma str_lower_idem s : str_lower (str_lower s) = str_lower s.
Proof.
  unfold str_lower. induction s as [|a s IH]; [done|]. cbn [str_map]. f_equal; [|done].
  rewrite N_ascii_embedding; [by rewrite to_ascii_lowercase_idem|].
  apply to_ascii_lowercase_lt. apply N_ascii_bounded.
Qed.

Lemma eq_ignore_ascii_case_spec s t : eq_ignore_ascii_case s t = true ↔ str_lower s = str_lower t.
Proof. unfold eq_ignore_ascii_case. by rewrite bool_decide_eq_true. Qed.

(** ** [{:?}] of a string *)

Definition hex_char (n : N) : ascii := Ascii.ascii_of_N (if (n <? 10)%N then 48 + n else 87 + n)%N.

(** The escapes of [str]'s [Debug]; text beyond ASCII is printed as it is. *)
Definition debug_char (a : ascii) : string :=
  let n := Ascii.N_of_ascii a in
  if (n =? 0)%N then "\0"
  else if (n =? 9)%N then "\t"
  else if (n =? 10)%N then "\n"
  else if (n =? 13)%N then "\r"
  else if (n =? 34)%N then String "\" (String (Ascii.ascii_of_N 34) "")
  else if (n =? 92)%N then "\\"
  else if (n <? 16)%N then "\u{" +:+ String (hex_char n) "}"
  else if (n <? 32)%N || (n =? 127)%N then
    "\u{" +:+ String (hex_char (n / 16)) (String (hex_char (n mod 16)) "}")
  else String a "".

Fixpoint debug_go (s : string) : string :=
  match s with
  | EmptyString => EmptyString
  | String a r => debug_char a +:+ debug_go r
  end.

Definition debug_str (s : string) : string :=
  String (Ascii.ascii_of_N 34) (debug_go s +:+ String (Ascii.ascii_of_N 34) "").
