(* ===== verification/Broker.v ===== *)
(** * sv-core/src/broker.rs: brokered outbound requests

    [execute] validates a request against a secret's allowlist, resolves and screens
    the target, injects the credential and returns a sanitized response.  The URL
    parser, the HTTP types, the resolver and the client are other crates or the
    network: they are the fields of the class [Net].  [execute] also returns what left
    the process, the lookups and the request, in order. *)
From Stdlib Require Import ZifyN ZifyNat ZifyBool.
From S2P Require Import Prelude Text.

Ltac Zify.zify_post_hook ::= Z.div_mod_to_equations.

(** [std::net::IpAddr]: octets, or 16-bit segments. *)
Inductive IpAddr :=
| V4 (a b c d : N)
| V6 (s0 s1 s2 s3 s4 s5 s6 s7 : N).

#[global] Instance IpAddr_eq_dec : EqDecision IpAddr.
Proof. solve_decision. Defined.

Definition ENABLE_ENV : string := "SV_ENABLE_BROKER".
Definition MAX_RESPONSE_BYTES : N := 1024 * 1024.
Definition MAX_REQUEST_BODY_BYTES : N := 1024 * 1024.
Definition MAX_REQUEST_HEADERS : N := 32.
Definition MAX_REQUEST_HEADER_BYTES : N := 32 * 1024.
Definition MAX_REQUEST_HEADER_NAME_BYTES : N := 128.
Definition MAX_REQUEST_HEADER_VALUE_BYTES : N := 8 * 1024.
Definition MAX_REQUEST_URL_BYTES : N := 8 * 1024.
Definition MAX_REQUEST_METHOD_BYTES : N := 32.
Definition STRIPPED_RESPONSE_HEADERS : list string :=
  ["set-cookie"; "authorization"; "proxy-authorization"].

Module BrokerError.
Inductive t :=
| Disabled (var : string)
| InvalidUrl (message : string)
| SchemeNotHttps (scheme : string)
| NotAllowed
| BlockedAddress (ip : IpAddr)
| Dns (message : string)
| Upstream (message : string)
| RequestTooLarge (what : string) (cap : N)
| HeaderNotPermitted (name : string)
| ResponseTooLarge (cap : N).
#[global] Instance t_eq_dec : EqDecision t.
Proof. solve_decision. Defined.
End BrokerError.

(** ** Allowlist entries and resolved secrets (transit.rs) *)

Module BrokerAllow.
Record t := mk {
  host : string;
  path_prefix : string;
  methods : list string;
  allow_private_ip : bool
}.
#[global] Instance t_eq_dec : EqDecision t.
Proof. solve_decision. Defined.
End BrokerAllow.

Module BrokerInjection.
Inductive t := BearerAuth | Header (name : string).
#[global] Instance t_eq_dec : EqDecision t.
Proof. solve_decision. Defined.
Definition default : t := BearerAuth.
End BrokerInjection.

Module ResolvedBrokerSecret.
Record t := mk {
  secret : string;
  allow : list BrokerAllow.t;
  injection : BrokerInjection.t
}.
End ResolvedBrokerSecret.

(** ** Requests and responses *)

(** Maps of headers are B-trees, iterated in the order of their keys. *)
Module BrokerRequest.
Record t := mk {
  method : string;
  url : string;
  headers : gmap string string;
  body : option string
}.
End BrokerRequest.

Module BrokerResponse.
Record t := mk { status : N; headers : gmap string string; body : string }.
End BrokerResponse.

Module ValidatedTarget.
Record t := mk { host : string; path : string; method : string; allow : BrokerAllow.t }.
End ValidatedTarget.

Definition btree_pairs {V} (m : gmap string V) : list (string * V) :=
  sort_by (λ a b, String.leb a.1 b.1) (map_to_list m).

Lemma elem_of_btree_pairs {V} (m : gmap string V) k v :
  (k, v) ∈ btree_pairs m ↔ m !! k = Some v.
Proof. unfold btree_pairs. by rewrite elem_of_sort_by, elem_of_map_to_list. Qed.

(** ** What comes from outside *)

(** The parts of [url::Url] the code reads. *)
Module Url.
Record t := mk {
  scheme : string;
  username : string;
  password : option string;
  fragment : option string;
  host_str : option string;
  path : string;
  port_or_known_default : option N
}.
End Url.

(** The request handed to the client: built with [redirect(Policy::none())] and
    [https_only(true)], with the target host pinned to [pinned]. *)
Module Outgoing.
Record t := mk {
  follow_redirects : bool;
  https_only : bool;
  pinned_host : string;
  pinned : list (IpAddr * N);
  method : string;
  url : Url.t;
  headers : list (string * string);
  body : option string
}.
End Outgoing.

(** A response: a body arrives in chunks, any of which may be an error. *)
Module Incoming.
Record t := mk {
  status : N;
  headers : list (string * list N);
  content_length : option N;
  chunks : list (result (list N) string)
}.
End Incoming.

(** An error of another crate is its text. *)
Class Net := {
  env_var : string → option string;
  url_parse : string → result Url.t string;
  method_from_bytes : string → result string string;
  header_name : string → result string string;
  header_value : string → result string string;
  header_to_str : list N → option string;
  to_socket_addrs : string → N → result (list (IpAddr * N)) string;
  client_build : string → list (IpAddr * N) → result unit string;
  send : Outgoing.t → result Incoming.t string
}.

(** What left the process. *)
Inductive event :=
| Lookup (host : string) (port : N)
| Send (request : Outgoing.t).

(** [map_err]. *)
Definition map_err {A E F} (r : result A E) (f : E → F) : result A F :=
  match r with Ok a => Ok a | Err e => Err (f e) end.

(** ** Headers and limits *)

Definition is_transport_controlled_header (name : string) : bool :=
  bool_decide (str_lower name ∈
    ["proxy-authorization"; "host"; "content-length"; "transfer-encoding"; "connection";
     "proxy-connection"; "upgrade"; "te"; "trailer"]).

Definition is_broker_controlled_header (name : string) : bool :=
  bool_decide (str_lower name ∈
    ["authorization"; "proxy-authorization"; "host"; "content-length"; "transfer-encoding";
     "connection"; "proxy-connection"; "upgrade"; "te"; "trailer"]).

Definition str_len (s : string) : N := N.of_nat (String.length s).

(** The header loop of [validate_request_shape]; [header_bytes] is its accumulator. *)
Fixpoint check_headers `{Net} (header_bytes : N) (headers : list (string * string)) :
    result unit BrokerError.t :=
  match headers with
  | [] => Ok tt
  | (name, value) :: rest =>
      if (MAX_REQUEST_HEADER_NAME_BYTES <? str_len name)%N then
        Err (BrokerError.RequestTooLarge "header name" MAX_REQUEST_HEADER_NAME_BYTES)
      else if (MAX_REQUEST_HEADER_VALUE_BYTES <? str_len value)%N then
        Err (BrokerError.RequestTooLarge "header value" MAX_REQUEST_HEADER_VALUE_BYTES)
      else
        let? header_bytes := ok_or (checked_add_u64 header_bytes (str_len name + str_len value))
          (BrokerError.RequestTooLarge "headers" MAX_REQUEST_HEADER_BYTES) in
        if (MAX_REQUEST_HEADER_BYTES <? header_bytes)%N then
          Err (BrokerError.RequestTooLarge "headers" MAX_REQUEST_HEADER_BYTES)
        else
          let? parsed := map_err (header_name name) (λ _, BrokerError.HeaderNotPermitted name) in
          let? _ := map_err (header_value value) (λ _, BrokerError.HeaderNotPermitted name) in
          if is_broker_controlled_header parsed then Err (BrokerError.HeaderNotPermitted name)
          else check_headers header_bytes rest
  end.

Definition validate_request_shape `{Net} (req : BrokerRequest.t) : result unit BrokerError.t :=
  if (MAX_REQUEST_URL_BYTES <? str_len (BrokerRequest.url req))%N then
    Err (BrokerError.RequestTooLarge "URL" MAX_REQUEST_URL_BYTES)
  else if bool_decide (BrokerRequest.method req = "")
       || (MAX_REQUEST_METHOD_BYTES <? str_len (BrokerRequest.method req))%N then
    Err (BrokerError.RequestTooLarge "method" MAX_REQUEST_METHOD_BYTES)
  else
    let? _ := map_err (method_from_bytes (BrokerRequest.method req))
      (λ _, BrokerError.InvalidUrl "invalid HTTP method") in
    if (MAX_REQUEST_HEADERS <? N.of_nat (size (BrokerRequest.headers req)))%N then
      Err (BrokerError.RequestTooLarge "header count" MAX_REQUEST_HEADERS)
    else
      let? _ := check_headers 0 (btree_pairs (BrokerRequest.headers req)) in
      if is_some_and (BrokerRequest.body req) (λ body, MAX_REQUEST_BODY_BYTES <? str_len body)%N
      then Err (BrokerError.RequestTooLarge "body" MAX_REQUEST_BODY_BYTES)
      else Ok tt.

(** ** The allowlist *)

Definition path_prefix_matches (prefix path : string) : bool :=
  if negb (starts_with prefix "/") then false
  else if bool_decide (prefix = "/") || ends_with prefix "/" then starts_with path prefix
  else bool_decide (path = prefix)
       || is_some_and (strip_prefix prefix path) (λ rest, starts_with rest "/").

Definition entry_matches (host path method : string) (entry : BrokerAllow.t) : bool :=
  eq_ignore_ascii_case (BrokerAllow.host entry) host
  && path_prefix_matches (BrokerAllow.path_prefix entry) path
  && existsb (λ m, eq_ignore_ascii_case m method) (BrokerAllow.methods entry).

Definition ENCODED_SEPARATORS : list string := ["%2e"; "%2f"; "%5c"].

Definition validate_against_allowlist `{Net} (req : BrokerRequest.t) (allow : list BrokerAllow.t) :
    result ValidatedTarget.t BrokerError.t :=
  let? _ := validate_request_shape req in
  let? url := map_err (url_parse (BrokerRequest.url req)) BrokerError.InvalidUrl in
  if negb (bool_decide (Url.scheme url = "https")) then
    Err (BrokerError.SchemeNotHttps (Url.scheme url))
  else if negb (bool_decide (Url.username url = "")) || bool_decide (Url.password url ≠ None) then
    Err (BrokerError.InvalidUrl "embedded URL credentials are not permitted")
  else if bool_decide (Url.fragment url ≠ None) then
    Err (BrokerError.InvalidUrl "URL fragments are not permitted")
  else
    let? host := ok_or (Url.host_str url) (BrokerError.InvalidUrl "missing host") in
    let host := str_lower host in
    let path := Url.path url in
    let encoded_path := str_lower path in
    if existsb (λ encoded, str_infix encoded encoded_path) ENCODED_SEPARATORS then
      Err (BrokerError.InvalidUrl "encoded path traversal or separators are not permitted")
    else
      let method := str_upper (BrokerRequest.method req) in
      match List.find (entry_matches host path method) allow with
      | Some entry => Ok (ValidatedTarget.mk host path method entry)
      | None => Err BrokerError.NotAllowed
      end.

(** ** Refused addresses *)

(** [Ipv4Addr::is_loopback], [is_private], [is_link_local], [is_broadcast],
    [is_unspecified]. *)
Definition v4_is_loopback (a b c d : N) : bool := (a =? 127)%N.
Definition v4_is_private (a b c d : N) : bool :=
  ((a =? 10) || ((a =? 172) && ((16 <=? b) && (b <=? 31))) || ((a =? 192) && (b =? 168)))%N.
Definition v4_is_link_local (a b c d : N) : bool := ((a =? 169) && (b =? 254))%N.
Definition v4_is_broadcast (a b c d : N) : bool :=
  ((a =? 255) && (b =? 255) && (c =? 255) && (d =? 255))%N.
Definition v4_is_unspecified (a b c d : N) : bool :=
  ((a =? 0) && (b =? 0) && (c =? 0) && (d =? 0))%N.

Definition is_blocked_v4 (a b c d : N) : bool :=
  (v4_is_loopback a b c d
   || v4_is_private a b c d
   || v4_is_link_local a b c d
   || v4_is_broadcast a b c d
   || v4_is_unspecified a b c d
   || (a =? 0)
   || ((a =? 100) && ((64 <=? b) && (b <=? 127)))
   || ((a =? 192) && (b =? 0) && (c =? 0))
   || ((a =? 192) && (b =? 0) && (c =? 2))
   || ((a =? 192) && (b =? 88) && (c =? 99))
   || ((a =? 198) && ((b =? 18) || (b =? 19)))
   || ((a =? 198) && (b =? 51) && (c =? 100))
   || ((a =? 203) && (b =? 0) && (c =? 113))
   || (224 <=? a))%N.

(** [(seg >> 8) as u8] and [seg as u8]. *)
Definition hi_byte (seg : N) : N := N.shiftr seg 8.
Definition lo_byte (seg : N) : N := N.land seg 255.

(** [Ipv6Addr::to_ipv4_mapped]. *)
Definition to_ipv4_mapped (s0 s1 s2 s3 s4 s5 s6 s7 : N) : option (N * N * N * N) :=
  if ((s0 =? 0) && (s1 =? 0) && (s2 =? 0) && (s3 =? 0) && (s4 =? 0) && (s5 =? 65535))%N
  then Some (hi_byte s6, lo_byte s6, hi_byte s7, lo_byte s7) else None.

Definition is_blocked_v6 (s0 s1 s2 s3 s4 s5 s6 s7 : N) : bool :=
  let rest0 := ((s0 =? 0) && (s1 =? 0) && (s2 =? 0) && (s3 =? 0) && (s4 =? 0) && (s5 =? 0)
                && (s6 =? 0))%N in
  if (rest0 && (s7 =? 1)%N) || (rest0 && (s7 =? 0)%N) || (N.land s0 65280 =? 65280)%N then true
  else if (N.land s0 65024 =? 64512)%N then true
  else if (N.land s0 65472 =? 65152)%N then true
  else if (N.land s0 65472 =? 65216)%N || ((s0 =? 8193) && (s1 =? 3512))%N then true
  else match to_ipv4_mapped s0 s1 s2 s3 s4 s5 s6 s7 with
       | Some (a, b, c, d) => is_blocked_v4 a b c d
       | None =>
           if ((s0 =? 100) && (s1 =? 65435) && ((s2 =? 0) && (s3 =? 0) && (s4 =? 0) && (s5 =? 0)))%N
           then is_blocked_v4 (hi_byte s6) (lo_byte s6) (hi_byte s7) (lo_byte s7)
           else false
       end.

Definition is_blocked_ip (ip : IpAddr) : bool :=
  match ip with
  | V4 a b c d => is_blocked_v4 a b c d
  | V6 s0 s1 s2 s3 s4 s5 s6 s7 => is_blocked_v6 s0 s1 s2 s3 s4 s5 s6 s7
  end.

Definition resolve_and_screen `{Net} (host : string) (port : N) (allow : BrokerAllow.t) :
    result (list IpAddr) BrokerError.t :=
  let? found := map_err (to_socket_addrs host port) BrokerError.Dns in
  let addrs := found.*1 in
  if bool_decide (addrs = []) then Err (BrokerError.Dns "no addresses")
  else if negb (BrokerAllow.allow_private_ip allow) then
    let? _ := try_for_each
      (λ ip, if is_blocked_ip ip then Err (BrokerError.BlockedAddress ip) else Ok tt) addrs in
    Ok addrs
  else Ok addrs.

(** ** The call *)

Definition is_enabled `{Net} : bool :=
  match env_var ENABLE_ENV with
  | Some v => bool_decide (v ∈ ["1"; "true"; "TRUE"; "yes"; "on"])
  | None => false
  end.

Definition REDACTED : string := "<redacted>".

Definition redact_secret (value secret : string) : string :=
  if bool_decide (secret = "") then value else str_replace secret REDACTED value.

Definition upstream_error (secret error : string) : BrokerError.t :=
  BrokerError.Upstream (redact_secret error secret).

(** The name and the value of the header that carries the credential. *)
Definition owned_header `{Net} (resolved : ResolvedBrokerSecret.t) :
    result (string * string) BrokerError.t :=
  let secret := ResolvedBrokerSecret.secret resolved in
  match ResolvedBrokerSecret.injection resolved with
  | BrokerInjection.BearerAuth =>
      let? value := map_err (header_value ("Bearer " +:+ secret)) (upstream_error secret) in
      Ok ("authorization", value)
  | BrokerInjection.Header name =>
      let? parsed := map_err (header_name name) (upstream_error secret) in
      if is_transport_controlled_header parsed then Err (BrokerError.HeaderNotPermitted name)
      else
        let? value := map_err (header_value secret) (upstream_error secret) in
        Ok (parsed, value)
  end.

(** The agent's headers: one with the name of the owned header is dropped. *)
Fixpoint agent_headers `{Net} (owned : string) (headers : list (string * string)) :
    result (list (string * string)) BrokerError.t :=
  match headers with
  | [] => Ok []
  | (k, v) :: rest =>
      let? name := map_err (header_name k) (λ _, BrokerError.HeaderNotPermitted k) in
      if bool_decide (name = owned) then agent_headers owned rest
      else
        let? value := map_err (header_value v) (λ _, BrokerError.HeaderNotPermitted k) in
        let? more := agent_headers owned rest in
        Ok ((name, value) :: more)
  end.

(** One header of the response into the map returned to the agent. *)
Definition add_response_header `{Net} (secret : string) (headers : gmap string string)
    (h : string * list N) : gmap string string :=
  if bool_decide (str_lower h.1 ∈ STRIPPED_RESPONSE_HEADERS) then headers
  else match header_to_str h.2 with
       | Some v => <[h.1 := redact_secret v secret]> headers
       | None => headers
       end.

(** The streaming loop; [buf] is what has been received. *)
Fixpoint read_body (secret : string) (buf : list N) (chunks : list (result (list N) string)) :
    result (list N) BrokerError.t :=
  match chunks with
  | [] => Ok buf
  | Err e :: _ => Err (upstream_error secret e)
  | Ok chunk :: rest =>
      if (MAX_RESPONSE_BYTES <? N.of_nat (length buf) + N.of_nat (length chunk))%N
      then Err (BrokerError.ResponseTooLarge MAX_RESPONSE_BYTES)
      else read_body secret (buf ++ chunk) rest
  end.

Definition receive `{Net} (secret : string) (resp : Incoming.t) :
    result BrokerResponse.t BrokerError.t :=
  let headers := foldl (add_response_header secret) ∅ (Incoming.headers resp) in
  if is_some_and (Incoming.content_length resp) (λ len, MAX_RESPONSE_BYTES <? len)%N
  then Err (BrokerError.ResponseTooLarge MAX_RESPONSE_BYTES)
  else
    let? buf := read_body secret [] (Incoming.chunks resp) in
    let body := redact_secret (str_of_bytes (utf8_lossy buf)) secret in
    Ok (BrokerResponse.mk (Incoming.status resp) headers body).

(** The request for the client, once the target has been validated and screened. *)
Definition build_request `{Net} (req : BrokerRequest.t) (resolved : ResolvedBrokerSecret.t)
    (target : ValidatedTarget.t) (url : Url.t) (screened : list (IpAddr * N)) :
    result Outgoing.t BrokerError.t :=
  let secret := ResolvedBrokerSecret.secret resolved in
  let? _ := map_err (client_build (ValidatedTarget.host target) screened) (upstream_error secret) in
  let? method := map_err (method_from_bytes (ValidatedTarget.method target))
    (upstream_error secret) in
  let? owned := owned_header resolved in
  let? headers := agent_headers owned.1 (btree_pairs (BrokerRequest.headers req)) in
  Ok (Outgoing.mk false true (ValidatedTarget.host target) screened method url
        (headers ++ [owned]) (BrokerRequest.body req)).

Definition execute `{Net} (req : BrokerRequest.t) (resolved : ResolvedBrokerSecret.t) :
    list event * result BrokerResponse.t BrokerError.t :=
  let secret := ResolvedBrokerSecret.secret resolved in
  if negb is_enabled then ([], Err (BrokerError.Disabled ENABLE_ENV))
  else
    match validate_against_allowlist req (ResolvedBrokerSecret.allow resolved) with
    | Err e => ([], Err e)
    | Ok target =>
    match map_err (url_parse (BrokerRequest.url req)) BrokerError.InvalidUrl with
    | Err e => ([], Err e)
    | Ok url =>
    match Url.port_or_known_default url with
    | None => ([], Err (BrokerError.InvalidUrl "no port"))
    | Some port =>
        let lookup := Lookup (ValidatedTarget.host target) port in
        match resolve_and_screen (ValidatedTarget.host target) port (ValidatedTarget.allow target) with
        | Err e => ([lookup], Err e)
        | Ok addrs =>
        match build_request req resolved target url ((λ ip, (ip, port)) <$> addrs) with
        | Err e => ([lookup], Err e)
        | Ok out =>
            ([lookup; Send out],
             let? resp := map_err (send out) (upstream_error secret) in receive secret resp)
        end
        end
    end
    end
    end.

(** ** Address blocks *)

(** The address as a number, and membership in the block [base/len] of a [w]-bit
    address space. *)
Definition v4_number (a b c d : N) : N := (a * 2 ^ 24 + b * 2 ^ 16 + c * 2 ^ 8 + d)%N.
Definition v6_number (s0 s1 s2 s3 s4 s5 s6 s7 : N) : N :=
  (s0 * 2 ^ 112 + s1 * 2 ^ 96 + s2 * 2 ^ 80 + s3 * 2 ^ 64 + s4 * 2 ^ 48 + s5 * 2 ^ 32
   + s6 * 2 ^ 16 + s7)%N.

Definition in_block (w ip : N) (block : N * N) : bool :=
  (ip / 2 ^ (w - block.2) =? block.1 / 2 ^ (w - block.2))%N.

Definition V4_BLOCKS : list (N * N) :=
  [(v4_number 0 0 0 0, 8); (v4_number 10 0 0 0, 8); (v4_number 100 64 0 0, 10);
   (v4_number 127 0 0 0, 8); (v4_number 169 254 0 0, 16); (v4_number 172 16 0 0, 12);
   (v4_number 192 0 0 0, 24); (v4_number 192 0 2 0, 24); (v4_number 192 88 99 0, 24);
   (v4_number 192 168 0 0, 16); (v4_number 198 18 0 0, 15); (v4_number 198 51 100 0, 24);
   (v4_number 203 0 113 0, 24); (v4_number 224 0 0 0, 3)]%N.

Definition V6_BLOCKS : list (N * N) :=
  [(v6_number 0 0 0 0 0 0 0 0, 128); (v6_number 0 0 0 0 0 0 0 1, 128);
   (v6_number 65280 0 0 0 0 0 0 0, 8); (v6_number 64512 0 0 0 0 0 0 0, 7);
   (v6_number 65152 0 0 0 0 0 0 0, 10); (v6_number 65216 0 0 0 0 0 0 0, 10);
   (v6_number 8193 3512 0 0 0 0 0 0, 32)]%N.

(** The blocks whose last 32 bits are an IPv4 address: [::ffff:0:0/96] and
    [64:ff9b::/96]. *)
Definition V4_IN_V6_BLOCKS : list (N * N) :=
  [(v6_number 0 0 0 0 0 65535 0 0, 96); (v6_number 100 65435 0 0 0 0 0 0, 96)]%N.

Definition v4_refused (ip : N) : bool := existsb (in_block 32 ip) V4_BLOCKS.
Definition v6_refused (ip : N) : bool :=
  existsb (in_block 128 ip) V6_BLOCKS
  || (existsb (in_block 128 ip) V4_IN_V6_BLOCKS && v4_refused (ip mod 2 ^ 32)).

Definition ip_wf (ip : IpAddr) : bool :=
  (match ip with
   | V4 a b c d => forallb (λ x, x <? 256) [a; b; c; d]
   | V6 s0 s1 s2 s3 s4 s5 s6 s7 => forallb (λ x, x <? 65536) [s0; s1; s2; s3; s4; s5; s6; s7]
   end)%N.

Definition ip_refused (ip : IpAddr) : bool :=
  match ip with
  | V4 a b c d => v4_refused (v4_number a b c d)
  | V6 s0 s1 s2 s3 s4 s5 s6 s7 => v6_refused (v6_number s0 s1 s2 s3 s4 s5 s6 s7)
  end.

(** *** The code's tests are membership in these blocks *)

Ltac block_number := unfold in_block; apply eq_true_iff_eq; rewrite ?andb_true_iff, ?orb_true_iff, ?N.eqb_eq, ?N.leb_le;
  cbn [fst snd]; unfold v4_number, v6_number;
  repeat match goal with |- context [(2 ^ ?e)%N] => let v := eval vm_compute in (2 ^ e)%N in change (2 ^ e)%N with v end; lia.

Lemma is_blocked_v4_refused a b c d :
  (a < 256 → b < 256 → c < 256 → d < 256 →
   is_blocked_v4 a b c d = v4_refused (v4_number a b c d))%N.
Proof.
  intros. unfold v4_refused, V4_BLOCKS. cbn [existsb].
  replace (in_block 32 (v4_number a b c d) (v4_number 0 0 0 0, 8%N)) with (a =? 0)%N by block_number.
  replace (in_block 32 (v4_number a b c d) (v4_number 10 0 0 0, 8%N)) with (a =? 10)%N by block_number.
  replace (in_block 32 (v4_number a b c d) (v4_number 100 64 0 0, 10%N))
    with ((a =? 100) && ((64 <=? b) && (b <=? 127)))%N by block_number.
  replace (in_block 32 (v4_number a b c d) (v4_number 127 0 0 0, 8%N)) with (a =? 127)%N by block_number.
  replace (in_block 32 (v4_number a b c d) (v4_number 169 254 0 0, 16%N))
    with ((a =? 169) && (b =? 254))%N by block_number.
  replace (in_block 32 (v4_number a b c d) (v4_number 172 16 0 0, 12%N))
    with ((a =? 172) && ((16 <=? b) && (b <=? 31)))%N by block_number.
  replace (in_block 32 (v4_number a b c d) (v4_number 192 0 0 0, 24%N))
    with ((a =? 192) && (b =? 0) && (c =? 0))%N by block_number.
  replace (in_block 32 (v4_number a b c d) (v4_number 192 0 2 0, 24%N))
    with ((a =? 192) && (b =? 0) && (c =? 2))%N by block_number.
  replace (in_block 32 (v4_number a b c d) (v4_number 192 88 99 0, 24%N))
    with ((a =? 192) && (b =? 88) && (c =? 99))%N by block_number.
  replace (in_block 32 (v4_number a b c d) (v4_number 192 168 0 0, 16%N))
    with ((a =? 192) && (b =? 168))%N by block_number.
  replace (in_block 32 (v4_number a b c d) (v4_number 198 18 0 0, 15%N))
    with ((a =? 198) && ((b =? 18) || (b =? 19)))%N by block_number.
  replace (in_block 32 (v4_number a b c d) (v4_number 198 51 100 0, 24%N))
    with ((a =? 198) && (b =? 51) && (c =? 100))%N by block_number.
  replace (in_block 32 (v4_number a b c d) (v4_number 203 0 113 0, 24%N))
    with ((a =? 203) && (b =? 0) && (c =? 113))%N by block_number.
  replace (in_block 32 (v4_number a b c d) (v4_number 224 0 0 0, 3%N)) with (224 <=? a)%N by block_number.
  unfold is_blocked_v4, v4_is_loopback, v4_is_private, v4_is_link_local, v4_is_broadcast, v4_is_unspecified.
  apply eq_true_iff_eq. rewrite !orb_true_iff. split.
  - intros Hor. repeat destruct Hor as [Hor|Hor]; try tauto.
    + do 13 right. left. lia.
    + left. lia.
  - intros Hor. repeat destruct Hor as [Hor|Hor]; tauto || done.
Qed.

Lemma land_high_mask x k :
  (x < 65536 → k ≤ 16 → N.land x (N.ldiff (N.ones 16) (N.ones k)) = (x / 2 ^ k) * 2 ^ k)%N.
Proof.
  intros Hx Hk. rewrite <-N.shiftr_div_pow2, <-N.shiftl_mul_pow2, <-N.ldiff_ones_r.
  apply N.bits_inj. intros i. rewrite N.land_spec, !N.ldiff_spec, andb_assoc. f_equal.
  destruct (decide (i < 16)%N).
  - by rewrite N.ones_spec_low, andb_true_r.
  - rewrite N.ones_spec_high, andb_false_r by lia. symmetry.
    destruct (decide (x = 0)%N) as [->|]; [apply N.bits_0|].
    apply N.bits_above_log2. apply N.log2_lt_pow2; [lia|].
    apply N.lt_le_trans with (2 ^ 16)%N; [done|]. apply N.pow_le_mono_r; lia.
Qed.

Lemma v6_top_block s0 s1 s2 s3 s4 s5 s6 s7 base len :
  (s0 < 65536 → s1 < 65536 → s2 < 65536 → s3 < 65536 → s4 < 65536 → s5 < 65536 → s6 < 65536 →
   s7 < 65536 → base < 65536 → len ≤ 16 →
   in_block 128 (v6_number s0 s1 s2 s3 s4 s5 s6 s7) (v6_number base 0 0 0 0 0 0 0, len)
   = (s0 / 2 ^ (16 - len) =? base / 2 ^ (16 - len)))%N.
Proof.
  intros. unfold in_block. cbn [fst snd].
  replace (128 - len)%N with (112 + (16 - len))%N by lia.
  rewrite N.pow_add_r, <-!N.Div0.div_div.
  replace (v6_number s0 s1 s2 s3 s4 s5 s6 s7 / 2 ^ 112)%N with s0 by (unfold v6_number; lia).
  replace (v6_number base 0 0 0 0 0 0 0 / 2 ^ 112)%N with base by (unfold v6_number; lia).
  done.
Qed.

Lemma N_land_mask x mask k :
  (x < 65536 → k ≤ 16 → mask = N.ldiff (N.ones 16) (N.ones k) → N.land x mask = (x / 2 ^ k) * 2 ^ k)%N.
Proof. intros ?? ->. by apply land_high_mask. Qed.

Lemma hi_lo_byte s : (hi_byte s = s / 256 ∧ lo_byte s = s mod 256)%N.
Proof.
  unfold hi_byte, lo_byte. rewrite N.shiftr_div_pow2. split; [done|].
  change 255%N with (N.ones 8). by rewrite N.land_ones.
Qed.

Lemma byte_bounds s : (s < 65536 → hi_byte s < 256 ∧ lo_byte s < 256)%N.
Proof. destruct (hi_lo_byte s) as [-> ->]. lia. Qed.

Lemma v6_embedded_v4 s0 s1 s2 s3 s4 s5 s6 s7 :
  (s6 < 65536 → s7 < 65536 →
   v6_number s0 s1 s2 s3 s4 s5 s6 s7 mod 2 ^ 32
   = v4_number (hi_byte s6) (lo_byte s6) (hi_byte s7) (lo_byte s7))%N.
Proof.
  intros. destruct (hi_lo_byte s6) as [-> ->], (hi_lo_byte s7) as [-> ->].
  unfold v6_number, v4_number. lia.
Qed.

Lemma is_blocked_v6_refused s0 s1 s2 s3 s4 s5 s6 s7 :
  (s0 < 65536 → s1 < 65536 → s2 < 65536 → s3 < 65536 → s4 < 65536 → s5 < 65536 → s6 < 65536 →
   s7 < 65536 →
   is_blocked_v6 s0 s1 s2 s3 s4 s5 s6 s7 = v6_refused (v6_number s0 s1 s2 s3 s4 s5 s6 s7))%N.
Proof.
  intros. unfold v6_refused, V6_BLOCKS, V4_IN_V6_BLOCKS. cbn [existsb].
  set (n := v6_number s0 s1 s2 s3 s4 s5 s6 s7).
  replace (in_block 128 n (v6_number 0 0 0 0 0 0 0 0, 128%N))
    with ((s0 =? 0) && (s1 =? 0) && (s2 =? 0) && (s3 =? 0) && (s4 =? 0) && (s5 =? 0)
                && (s6 =? 0) && (s7 =? 0))%N by (unfold n; block_number).
  replace (in_block 128 n (v6_number 0 0 0 0 0 0 0 1, 128%N))
    with ((s0 =? 0) && (s1 =? 0) && (s2 =? 0) && (s3 =? 0) && (s4 =? 0) && (s5 =? 0)
                && (s6 =? 0) && (s7 =? 1))%N by (unfold n; block_number).
  replace (in_block 128 n (v6_number 8193 3512 0 0 0 0 0 0, 32%N))
    with ((s0 =? 8193) && (s1 =? 3512))%N by (unfold n; block_number).
  replace (in_block 128 n (v6_number 0 0 0 0 0 65535 0 0, 96%N))
    with ((s0 =? 0) && (s1 =? 0) && (s2 =? 0) && (s3 =? 0) && (s4 =? 0) && (s5 =? 65535))%N
    by (unfold n; block_number).
  replace (in_block 128 n (v6_number 100 65435 0 0 0 0 0 0, 96%N))
    with ((s0 =? 100) && (s1 =? 65435) && ((s2 =? 0) && (s3 =? 0) && (s4 =? 0) && (s5 =? 0)))%N
    by (unfold n; block_number).
  unfold n at 1 2 3 4. rewrite !v6_top_block by (done || lia).
  unfold n. rewrite v6_embedded_v4, <-is_blocked_v4_refused by (done || by apply byte_bounds).
  unfold is_blocked_v6, to_ipv4_mapped.
  rewrite (N_land_mask s0 65280 8), (N_land_mask s0 65024 9), !(N_land_mask s0 65472 6) by done.
  change (16 - 8)%N with 8%N; change (16 - 7)%N with 9%N; change (16 - 10)%N with 6%N.
  replace (s0 / 2 ^ 8 * 2 ^ 8 =? 65280)%N with (s0 / 2 ^ 8 =? 65280 / 2 ^ 8)%N by lia.
  replace (s0 / 2 ^ 9 * 2 ^ 9 =? 64512)%N with (s0 / 2 ^ 9 =? 64512 / 2 ^ 9)%N by lia.
  replace (s0 / 2 ^ 6 * 2 ^ 6 =? 65152)%N with (s0 / 2 ^ 6 =? 65152 / 2 ^ 6)%N by lia.
  replace (s0 / 2 ^ 6 * 2 ^ 6 =? 65216)%N with (s0 / 2 ^ 6 =? 65216 / 2 ^ 6)%N by lia.
  set (Z7 := ((s0 =? 0) && (s1 =? 0) && (s2 =? 0) && (s3 =? 0) && (s4 =? 0) && (s5 =? 0) && (s6 =? 0))%N).
  set (M := ((s0 =? 0) && (s1 =? 0) && (s2 =? 0) && (s3 =? 0) && (s4 =? 0) && (s5 =? 65535))%N).
  set (D := ((s0 =? 100) && (s1 =? 65435) && ((s2 =? 0) && (s3 =? 0) && (s4 =? 0) && (s5 =? 0)))%N).
  assert (M && D = false) as Hdisj by (unfold M, D; lia). clearbody Z7 M D.
  set (blocked := is_blocked_v4 (hi_byte s6) (lo_byte s6) (hi_byte s7) (lo_byte s7)).
  replace (match (if M then _ else _) with Some _ => _ | None => _ end)
    with (if M then blocked else if D then blocked else false) by (by destruct M).
  clearbody blocked.
  generalize (s0 / 2 ^ 8 =? 65280 / 2 ^ 8)%N (s0 / 2 ^ 9 =? 64512 / 2 ^ 9)%N
    (s0 / 2 ^ 6 =? 65152 / 2 ^ 6)%N (s0 / 2 ^ 6 =? 65216 / 2 ^ 6)%N (s7 =? 0)%N (s7 =? 1)%N
    ((s0 =? 8193) && (s1 =? 3512))%N.
  intros b1 b2 b3 b4 b5 b6 b7.
  destruct M, D; try done; destruct Z7, b1, b2, b3, b4, b5, b6, b7, blocked; done.
Qed.

Lemma is_blocked_refused ip : ip_wf ip = true → is_blocked_ip ip = ip_refused ip.
Proof.
  destruct ip; unfold ip_wf; cbn [forallb]; rewrite !andb_true_iff, ?N.ltb_lt;
    intros; destruct_and?; [by apply is_blocked_v4_refused|by apply is_blocked_v6_refused].
Qed.

(** C31: An address is refused exactly when it lies in one of the listed blocks: the
    octet and segment tests of the code are membership in fourteen IPv4 blocks and seven
    IPv6 blocks, and an IPv4 address embedded in [::ffff:0:0/96] or [64:ff9b::/96] is
    refused exactly when that IPv4 address is. *)
Theorem blocked_is_block_membership ip :
  ip_wf ip = true → is_blocked_ip ip = ip_refused ip.
Proof. apply is_blocked_refused. Qed.

Lemma blocked_is_block_membership_witness :
  is_blocked_ip (V6 100 65435 0 0 0 0 2560 1)
    = ip_refused (V6 100 65435 0 0 0 0 2560 1).
Proof. apply blocked_is_block_membership. reflexivity. Defined.

(** ** Path prefixes *)

Definition segments (s : string) : list string := split_on "/" s.

(** A path prefix matches whole segments: a prefix that ends in a slash admits the
    paths that continue below it, any other prefix the path itself and the paths whose
    segments extend its segments; so [/api] never admits [/apikeys]. *)
Theorem path_prefix_is_segmentwise prefix path :
  path_prefix_matches prefix path = true ↔
  starts_with prefix "/" = true ∧
  (segments prefix `prefix_of` segments path
   ∨ ∃ dir rest, prefix = dir +:+ "/" ∧ segments path = segments dir ++ segments rest).
Proof.
  unfold path_prefix_matches, segments. rewrite split_on_prefix.
  destruct (starts_with prefix "/") eqn:Hp; cbn [negb]; [|naive_solver].
  assert (bool_decide (prefix = "/") || ends_with prefix "/" = ends_with prefix "/") as ->.
  { case_bool_decide as E; [|done]. by rewrite E. }
  destruct (ends_with prefix "/") eqn:He.
  - apply ends_with_spec in He as [dir ->]. rewrite starts_with_spec. split.
    + intros [r ->]. split; [done|]. right. exists dir, r. split; [done|].
      rewrite <-str_app_assoc. by rewrite <-split_on_app.
    + intros [_ [[->|[r ->]]|(d & r & E & Hs)]].
      * exists "". by rewrite str_app_nil_r.
      * by eexists.
      * exists r. assert (d = dir) as ->.
        { apply (f_equal (strip_suffix "/")) in E. rewrite !strip_suffix_app in E. by simplify_eq. }
        rewrite <-(join_split "/" path), Hs, <-split_on_app, join_split.
        by rewrite <-str_app_assoc.
  - assert (∀ d, prefix ≠ d +:+ "/") as Hno.
    { intros d ->. by rewrite (proj2 (ends_with_spec _ _) (ex_intro _ d eq_refl)) in He. }
    rewrite orb_true_iff, bool_decide_eq_true, is_some_and_true. split.
    + intros [->|(rest & Hr%strip_prefix_Some & Hs)]; split; try done; left; [by left|right].
      apply starts_with_spec in Hs as [r ->]. by exists r.
    + intros [_ [[->|[r ->]]|(d & r & E & _)]]; [by left| |by apply Hno in E].
      right. exists (String "/" r). by rewrite strip_prefix_app.
Qed.

(** ** What a sent request satisfies *)

Lemma map_err_Ok {A E F} (r : result A E) (f : E → F) a : map_err r f = Ok a ↔ r = Ok a.
Proof. destruct r; simpl; naive_solver. Qed.

Lemma map_err_Err {A E F} (r : result A E) (f : E → F) e :
  map_err r f = Err e ↔ ∃ e', r = Err e' ∧ e = f e'.
Proof. destruct r; simpl; naive_solver. Qed.

Lemma rbind_Ok {A B E} (m : result A E) (k : A → result B E) b :
  rbind m k = Ok b ↔ ∃ a, m = Ok a ∧ k a = Ok b.
Proof. destruct m; simpl; naive_solver. Qed.

(** Turns [... = Ok _] about the operations into what each of their tests says. *)
Ltac ok_steps :=
  repeat first
    [ match goal with
      | H : rbind _ _ = Ok _ |- _ => apply rbind_Ok in H as (? & ? & H)
      | H : map_err _ _ = Ok _ |- _ => apply map_err_Ok in H
      | H : ok_or ?o _ = Ok _ |- _ => destruct o eqn:?; [|discriminate H]; cbn [ok_or] in H
      | H : (if ?b then _ else _) = Ok _ |- _ => destruct b eqn:?; try discriminate H
      | H : Ok _ = Ok _ |- _ => injection H as H
      end ].

Section Sent.
Context `{Net}.

Lemma validated req allow target :
  validate_against_allowlist req allow = Ok target →
  ∃ url host,
    url_parse (BrokerRequest.url req) = Ok url ∧
    Url.scheme url = "https" ∧ Url.username url = "" ∧ Url.password url = None ∧
    Url.fragment url = None ∧ Url.host_str url = Some host ∧
    ValidatedTarget.host target = str_lower host ∧
    ValidatedTarget.path target = Url.path url ∧
    ValidatedTarget.method target = str_upper (BrokerRequest.method req) ∧
    Forall (λ enc, str_infix enc (str_lower (Url.path url)) = false) ENCODED_SEPARATORS ∧
    ValidatedTarget.allow target ∈ allow ∧
    entry_matches (str_lower host) (Url.path url) (ValidatedTarget.method target)
      (ValidatedTarget.allow target) = true.
Proof.
  unfold validate_against_allowlist. intros Hv. ok_steps.
  destruct (List.find _ allow) as [entry|] eqn:Hf; [|done]. injection Hv as <-.
  apply find_some in Hf as [Hin Hm].
  repeat match goal with
  | E : negb (bool_decide _) = false |- _ => apply negb_false_iff, bool_decide_eq_true in E
  | E : _ || _ = false |- _ => apply orb_false_iff in E as [? E]
  | E : bool_decide (_ ≠ None) = false |- _ => apply bool_decide_eq_false, dec_stable in E
  | E : existsb _ ENCODED_SEPARATORS = false |- _ => rewrite existsb_none in E
  end.
  simplify_eq. do 2 eexists. split_and!; eauto; [|by apply list_elem_of_In].
  by apply Forall_forall.
Qed.

Lemma shape_headers req allow target k v :
  validate_against_allowlist req allow = Ok target →
  (k, v) ∈ btree_pairs (BrokerRequest.headers req) →
  ∃ name, header_name k = Ok name ∧ is_broker_controlled_header name = false.
Proof.
  unfold validate_against_allowlist, validate_request_shape. intros Hv. ok_steps.
  repeat match goal with E : check_headers _ _ = Ok _ |- _ => revert E end.
  generalize 0%N. induction (btree_pairs _) as [|[k' v'] l IH]; intros n Hc Hin; [by inv Hin|].
  cbn [check_headers] in Hc. ok_steps. apply elem_of_cons in Hin as [[= -> ->]|Hin]; eauto.
Qed.

Lemma screened host port allow addrs :
  resolve_and_screen host port allow = Ok addrs →
  addrs ≠ [] ∧ (∃ found, to_socket_addrs host port = Ok found ∧ addrs = found.*1) ∧
  (BrokerAllow.allow_private_ip allow = false → Forall (λ ip, is_blocked_ip ip = false) addrs).
Proof.
  unfold resolve_and_screen. intros Hs. ok_steps.
  all: match goal with E : bool_decide (_ = []) = false |- _ => apply bool_decide_eq_false in E end.
  all: subst; split_and!; eauto.
  - intros _. match goal with E : try_for_each _ _ = Ok ?u |- _ =>
      destruct u; rewrite try_for_each_Ok in E; rename E into Hf end.
    apply Forall_forall. intros ip Hip. specialize (Hf ip Hip). cbv beta in Hf.
    by destruct (is_blocked_ip ip).
  - intros Hp. by rewrite Hp in *.
Qed.

Lemma agent_headers_names owned l headers :
  agent_headers owned l = Ok headers →
  Forall (λ h, h.1 ≠ owned ∧ ∃ k v, (k, v) ∈ l ∧ header_name k = Ok h.1 ∧ header_value v = Ok h.2)
    headers.
Proof.
  revert headers. induction l as [|[k v] l IH]; intros headers Ha; cbn [agent_headers] in Ha.
  - ok_steps. subst. constructor.
  - ok_steps.
    + apply IH in Ha. eapply Forall_impl; [exact Ha|]. simpl. intros h (Hn & k' & v' & Hin & Hk).
      split; [done|]. exists k', v'. split; [by right|done].
    + subst. constructor.
      * apply bool_decide_eq_false in Heqb. simpl. split; [done|].
        exists k, v. split; [by left|done].
      * apply IH in H2. eapply Forall_impl; [exact H2|]. simpl.
        intros h (Hn & k' & v' & Hin & Hk). split; [done|]. exists k', v'. split; [by right|done].
Qed.

(** What [execute] did when it sent something. *)
Lemma sent_inv req resolved events r out :
  execute req resolved = (events, r) → Send out ∈ events →
  ∃ target url port addrs,
    is_enabled = true ∧
    validate_against_allowlist req (ResolvedBrokerSecret.allow resolved) = Ok target ∧
    url_parse (BrokerRequest.url req) = Ok url ∧
    Url.port_or_known_default url = Some port ∧
    resolve_and_screen (ValidatedTarget.host target) port (ValidatedTarget.allow target) = Ok addrs ∧
    build_request req resolved target url ((λ ip, (ip, port)) <$> addrs) = Ok out ∧
    events = [Lookup (ValidatedTarget.host target) port; Send out].
Proof.
  unfold execute. destruct is_enabled; cbn [negb]; [|intros [= <- <-] []%elem_of_nil].
  destruct (validate_against_allowlist _ _) as [target|] eqn:Hv; [|intros [= <- <-] []%elem_of_nil].
  destruct (url_parse _) as [url|] eqn:Hu; simpl; [|intros [= <- <-] []%elem_of_nil].
  destruct (Url.port_or_known_default url) as [port|] eqn:Hp; [|intros [= <- <-] []%elem_of_nil].
  destruct (resolve_and_screen _ _ _) as [addrs|] eqn:Hr;
    [|intros [= <- <-] [=]%list_elem_of_singleton].
  destruct (build_request _ _ _ _ _) as [o|] eqn:Hb;
    [|intros [= <- <-] [=]%list_elem_of_singleton].
  intros [= <- <-] [[=]|[= <-]%list_elem_of_singleton]%elem_of_cons.
  exists target, url, port, addrs. done.
Qed.

(** The request that leaves is within the allowlist of the secret. *)
Definition within_allowlist (req : BrokerRequest.t) (url : Url.t) (host : string)
    (entry : BrokerAllow.t) : Prop :=
  str_lower (BrokerAllow.host entry) = str_lower host ∧
  path_prefix_matches (BrokerAllow.path_prefix entry) (Url.path url) = true ∧
  Exists (λ m, str_lower m = str_lower (str_upper (BrokerRequest.method req)))
    (BrokerAllow.methods entry) ∧
  Forall (λ enc, str_infix enc (str_lower (Url.path url)) = false) ENCODED_SEPARATORS.

Lemma entry_matches_within req url host entry :
  entry_matches (str_lower host) (Url.path url) (str_upper (BrokerRequest.method req)) entry = true →
  Forall (λ enc, str_infix enc (str_lower (Url.path url)) = false) ENCODED_SEPARATORS →
  within_allowlist req url host entry.
Proof.
  unfold entry_matches. rewrite !andb_true_iff. intros [[H1 H2] H3] He.
  apply eq_ignore_ascii_case_spec in H1. rewrite str_lower_idem in H1.
  apply existsb_Exists in H3. repeat split; try done.
  destruct H3 as (m & Hin & Hm%eq_ignore_ascii_case_spec). apply Exists_exists. eauto.
Qed.

(** C12: Nothing leaves the process unless it is allowed: whenever [execute] sends a
    request, brokering is enabled, the URL is https without embedded credentials or
    fragment, an entry of the secret's allowlist covers its host, path and method, and
    the client, which follows no redirect, is pinned to the addresses of the one lookup
    before it, every one of them outside the refused blocks unless the entry opts in. *)
Theorem broker_sends_only_allowed req resolved events r out :
  execute req resolved = (events, r) → Send out ∈ events →
  is_enabled = true ∧
  ∃ (url : Url.t) (host : string) (entry : BrokerAllow.t),
    url_parse (BrokerRequest.url req) = Ok url ∧ Outgoing.url out = url ∧
    Url.scheme url = "https" ∧ Url.username url = "" ∧ Url.password url = None ∧
    Url.fragment url = None ∧ Url.host_str url = Some host ∧
    entry ∈ ResolvedBrokerSecret.allow resolved ∧ within_allowlist req url host entry ∧
    Outgoing.follow_redirects out = false ∧ Outgoing.https_only out = true ∧
    Outgoing.pinned_host out = str_lower host ∧ Outgoing.pinned out ≠ [] ∧
    (∃ port found, events = [Lookup (str_lower host) port; Send out] ∧
       to_socket_addrs (str_lower host) port = Ok found ∧
       Outgoing.pinned out = (λ a, (a.1, port)) <$> found) ∧
    (BrokerAllow.allow_private_ip entry = false →
     Forall (λ a, is_blocked_ip a.1 = false) (Outgoing.pinned out)).
Proof.
  intros Hx Hs. destruct (sent_inv _ _ _ _ _ Hx Hs)
    as (target & url & port & addrs & Hen & Hv & Hu & Hp & Hr & Hb & ->).
  split; [done|]. apply validated in Hv
    as (url' & host & Hu' & ? & ? & ? & ? & ? & Hhost & Hpath & Hmeth & Henc & Hin & Hm).
  assert (url' = url) as -> by congruence. rewrite Hmeth in Hm.
  apply screened in Hr as (Hne & (found & Hf & ->) & Hpriv).
  unfold build_request in Hb. ok_steps. subst out. rewrite Hhost in *.
  exists url, host, (ValidatedTarget.allow target). cbn.
  split_and!; eauto using entry_matches_within.
  - by destruct found.
  - exists port, found. rewrite <-list_fmap_compose. done.
  - intros Hpr. apply Forall_fmap. by apply Hpriv.
Qed.

(** The credential travels in exactly one header: the last header of a request that
    is sent is the injected one, no other header has its name, and none of the headers
    is one that the transport controls, whatever headers the agent supplied. *)
Theorem credential_header_is_unique req resolved events r out :
  execute req resolved = (events, r) → Send out ∈ events →
  ∃ name value agent,
    owned_header resolved = Ok (name, value) ∧
    Outgoing.headers out = agent ++ [(name, value)] ∧
    Forall (λ h, h.1 ≠ name) agent ∧
    Forall (λ h, ∃ k v, BrokerRequest.headers req !! k = Some v ∧
                        header_name k = Ok h.1 ∧ header_value v = Ok h.2) agent ∧
    Forall (λ h, is_transport_controlled_header h.1 = false) (Outgoing.headers out).
Proof.
  intros Hx Hs. destruct (sent_inv _ _ _ _ _ Hx Hs)
    as (target & url & port & addrs & Hen & Hv & Hu & Hp & Hr & Hb & ->).
  unfold build_request in Hb. ok_steps. subst out. cbn.
  destruct x1 as [name value]. exists name, value, x2.
  match goal with E : agent_headers _ _ = Ok _ |- _ => apply agent_headers_names in E; rename E into Ha end.
  split_and!; try done.
  - eapply Forall_impl; [exact Ha|]. naive_solver.
  - eapply Forall_impl; [exact Ha|]. cbv beta. intros h (_ & k & v & Hin & Hh).
    exists k, v. by rewrite <-elem_of_btree_pairs.
  - apply Forall_app. split.
    + eapply Forall_impl; [exact Ha|]. cbv beta. intros h (_ & k & v & Hin & Hh & _).
      destruct (shape_headers _ _ _ _ _ Hv Hin) as (n & Hn & Hc).
      assert (n = h.1) as -> by congruence. clear -Hc.
      unfold is_broker_controlled_header, is_transport_controlled_header in *.
      rewrite bool_decide_eq_false in *. set_solver.
    + constructor; [|done]. cbn [fst].
      match goal with E : owned_header _ = Ok _ |- _ => unfold owned_header in E end.
      destruct (ResolvedBrokerSecret.injection resolved); ok_steps; simplify_eq; done.
Qed.

(** ** What the agent gets back *)

(** A secret that [redact_secret] removes completely. *)
Definition redactable (secret : string) : bool :=
  negb (bool_decide (secret = "")) && negb (str_contains "<" secret)
  && negb (str_contains ">" secret) && negb (str_infix secret REDACTED).

Lemma redact_complete secret value :
  redactable secret = true → str_infix secret (redact_secret value secret) = false.
Proof.
  unfold redactable, redact_secret. rewrite !andb_true_iff, !negb_true_iff.
  intros [[[Hne Hl] Hr] Hi]. rewrite Hne. apply bool_decide_eq_false in Hne.
  change REDACTED with (String "<" "redacted" +:+ String ">" "") in *.
  by apply replace_complete.
Qed.

(** Every error of a computation satisfies [P]. *)
Definition errs {A E} (P : E → Prop) (r : result A E) : Prop :=
  match r with Ok _ => True | Err e => P e end.

Lemma errs_rbind {A B E} (P : E → Prop) (m : result A E) (k : A → result B E) :
  errs P m → (∀ a, errs P (k a)) → errs P (rbind m k).
Proof. destruct m; simpl; auto. Qed.

Lemma errs_map_err {A E F} (P : F → Prop) (r : result A E) (f : E → F) :
  (∀ e, P (f e)) → errs P (map_err r f).
Proof. destruct r; simpl; auto. Qed.

Definition error_hides (secret : string) (e : BrokerError.t) : Prop :=
  match e with BrokerError.Upstream m => str_infix secret m = false | _ => True end.

Ltac errs_steps :=
  repeat first
    [ done
    | apply errs_rbind; [|intros ?]
    | apply errs_map_err; intros ?
    | match goal with
      | |- errs _ (if ?b then _ else _) => destruct b
      | |- errs _ (ok_or ?o _) => destruct o
      | |- errs _ (match ?o with _ => _ end) => destruct o
      | |- error_hides _ (upstream_error _ _) => by apply redact_complete
      end ].

Lemma check_headers_hides secret n l : errs (error_hides secret) (check_headers n l).
Proof. revert n. induction l as [|[k v] l IH]; intros n; cbn [check_headers]; errs_steps; apply IH. Qed.

Lemma validate_hides secret req allow :
  errs (error_hides secret) (validate_against_allowlist req allow).
Proof.
  unfold validate_against_allowlist, validate_request_shape. errs_steps. apply check_headers_hides.
Qed.

Lemma resolve_hides secret host port allow :
  errs (error_hides secret) (resolve_and_screen host port allow).
Proof.
  unfold resolve_and_screen. errs_steps. cbv zeta. errs_steps.
  induction (a.*1) as [|ip l IH]; cbn [try_for_each]; errs_steps.
Qed.

Lemma agent_headers_hides secret owned l : errs (error_hides secret) (agent_headers owned l).
Proof. induction l as [|[k v] l IH]; cbn [agent_headers]; errs_steps. Qed.

Lemma build_hides req resolved target url addrs :
  redactable (ResolvedBrokerSecret.secret resolved) = true →
  errs (error_hides (ResolvedBrokerSecret.secret resolved))
    (build_request req resolved target url addrs).
Proof.
  intros Hred. unfold build_request. cbv zeta. errs_steps.
  - unfold owned_header. cbv zeta. errs_steps.
  - apply agent_headers_hides.
Qed.

Lemma read_body_spec secret buf chunks out :
  (N.of_nat (length buf) ≤ MAX_RESPONSE_BYTES)%N →
  read_body secret buf chunks = Ok out ↔
  ∃ parts, chunks = Ok <$> parts ∧ out = buf ++ concat parts ∧
           (N.of_nat (length out) ≤ MAX_RESPONSE_BYTES)%N.
Proof.
  revert buf. induction chunks as [|[c|e] l IH]; intros buf Hbuf; cbn [read_body].
  - split; [intros [= <-]; exists []; by rewrite app_nil_r|].
    intros ([|] & [=] & -> & _). by rewrite app_nil_r.
  - destruct (_ <? _)%N eqn:Hlt.
    + apply N.ltb_lt in Hlt. split; [done|]. intros ([|p ps] & [= <- ->] & -> & Hle).
      rewrite !length_app in Hle. simpl in Hle. rewrite length_app in Hle. lia.
    + apply N.ltb_ge in Hlt. rewrite IH by (rewrite length_app; lia). split.
      * intros (ps & -> & -> & Hle). exists (c :: ps). by rewrite <-app_assoc in *.
      * intros ([|p ps] & [= <- ->] & -> & Hle). exists ps. by rewrite <-app_assoc.
  - split; [done|]. by intros ([|] & [=] & _).
Qed.

Lemma read_body_hides secret buf chunks :
  redactable secret = true → errs (error_hides secret) (read_body secret buf chunks).
Proof.
  intros Hred. revert buf. induction chunks as [|[c|e] l IH]; intros buf; cbn [read_body];
    [done|destruct (_ <? _)%N; [done|apply IH]|by apply redact_complete].
Qed.

Definition header_hides (secret name value : string) : Prop :=
  str_infix secret value = false ∧ str_lower name ∉ STRIPPED_RESPONSE_HEADERS.

Lemma response_headers_hide secret hs m :
  redactable secret = true → map_Forall (header_hides secret) m →
  map_Forall (header_hides secret) (foldl (add_response_header secret) m hs).
Proof.
  intros Hred. revert m. induction hs as [|[name raw] hs IH]; intros m Hm; [done|]. simpl.
  apply IH. unfold add_response_header. cbn [fst snd]. case_bool_decide as Hs; [done|].
  destruct (header_to_str raw) as [v|]; [|done].
  apply map_Forall_insert_2; [|done]. split; [by apply redact_complete|done].
Qed.

(** C13: What the agent gets back never contains the credential: for a secret that has no
    angle bracket and is not part of the replacement text, neither the body, nor the
    value of any returned header, nor the text of an upstream error contains it, and
    the sensitive response headers are gone, whatever the server answers. *)
Theorem response_hides_secret req resolved events r :
  redactable (ResolvedBrokerSecret.secret resolved) = true →
  execute req resolved = (events, r) →
  match r with
  | Ok resp =>
      str_infix (ResolvedBrokerSecret.secret resolved) (BrokerResponse.body resp) = false ∧
      map_Forall (header_hides (ResolvedBrokerSecret.secret resolved)) (BrokerResponse.headers resp)
  | Err e => error_hides (ResolvedBrokerSecret.secret resolved) e
  end.
Proof.
  intros Hred. set (secret := ResolvedBrokerSecret.secret resolved) in *.
  assert (∀ {A} (m : result A BrokerError.t) e, errs (error_hides secret) m → m = Err e →
    error_hides secret e) as Herr by (by intros A m e He ->).
  unfold execute. destruct is_enabled; cbn [negb]; [|by intros [= _ <-]].
  destruct (validate_against_allowlist _ _) as [target|e] eqn:Hv.
  2: { intros [= _ <-]. eapply Herr; [apply validate_hides|exact Hv]. }
  destruct (url_parse _) as [url|] eqn:Hu; simpl; [|by intros [= _ <-]].
  destruct (Url.port_or_known_default url) as [port|]; [|by intros [= _ <-]].
  destruct (resolve_and_screen _ _ _) as [addrs|e] eqn:Hr.
  2: { intros [= _ <-]. eapply Herr; [apply resolve_hides|exact Hr]. }
  destruct (build_request _ _ _ _ _) as [out|e] eqn:Hb.
  2: { intros [= _ <-]. eapply Herr; [by apply build_hides|exact Hb]. }
  intros [= _ <-]. fold secret. destruct (send out) as [resp|e]; simpl; [|by apply redact_complete].
  unfold receive. destruct (is_some_and _ _); [done|].
  pose proof (read_body_hides secret [] (Incoming.chunks resp) Hred) as Hbody.
  destruct (read_body _ _ _) as [buf|e]; simpl; [|done].
  split; [by apply redact_complete|]. by apply response_headers_hide.
Qed.

(** The response cap holds whatever the server announces: a response is returned
    exactly when the announced length, if any, is within the cap, every chunk arrived and
    the chunks together are within the cap; the body is then their redacted text. *)
Theorem response_is_capped secret resp r :
  receive secret resp = Ok r ↔
  ∃ parts,
    Incoming.chunks resp = Ok <$> parts ∧
    (N.of_nat (length (concat parts)) ≤ MAX_RESPONSE_BYTES)%N ∧
    (∀ len, Incoming.content_length resp = Some len → len ≤ MAX_RESPONSE_BYTES)%N ∧
    r = BrokerResponse.mk (Incoming.status resp)
          (foldl (add_response_header secret) ∅ (Incoming.headers resp))
          (redact_secret (str_of_bytes (utf8_lossy (concat parts))) secret).
Proof.
  unfold receive. destruct (is_some_and _ _) eqn:Hlen.
  - apply is_some_and_true in Hlen as (len & Hl & Hgt%N.ltb_lt). split; [done|].
    intros (parts & _ & _ & Hle & _). specialize (Hle _ Hl). lia.
  - assert (∀ len, Incoming.content_length resp = Some len → (len ≤ MAX_RESPONSE_BYTES)%N) as Hok.
    { intros len Hl. rewrite Hl in Hlen. simpl in Hlen. by apply N.ltb_ge. }
    rewrite rbind_Ok. setoid_rewrite read_body_spec; [|by vm_compute]. split.
    + intros (buf & (parts & Hc & -> & Hle) & [= <-]). by exists parts.
    + intros (parts & Hc & Hle & _ & ->). exists (concat parts). split; [|done]. by exists parts.
Qed.

End Sent.

(** ** A concrete network *)

(** One host that echoes the credential in a header name, a header value and the body. *)
Module BrokerDemo.
Definition the_url : Url.t :=
  Url.mk "https" "" None None (Some "api.example.com") "/v1/items" (Some 443%N).

Definition echo : Incoming.t :=
  Incoming.mk 200 [("x-tok-s3cr3t", str_bytes "s3cr3t"); ("set-cookie", str_bytes "a")] (Some 10%N)
    [Ok (str_bytes "you "); Ok (str_bytes "s3cr3t")].

#[global] Instance net : Net := {|
  env_var v := if decide (v = ENABLE_ENV) then Some "1" else None;
  url_parse u := if decide (u = "https://api.example.com/v1/items") then Ok the_url else Err "bad url";
  method_from_bytes m := Ok m;
  header_name n := Ok (str_lower n);
  header_value v := Ok v;
  header_to_str raw := Some (str_of_bytes raw);
  to_socket_addrs host port := Ok [(V4 93 184 216 34, port)];
  client_build _ _ := Ok tt;
  send _ := Ok echo
|}.

Definition req : BrokerRequest.t :=
  BrokerRequest.mk "get" "https://api.example.com/v1/items" {["X-Api-Key" := "mine"]} None.
Definition entry : BrokerAllow.t :=
  BrokerAllow.mk "API.example.com" "/v1" ["GET"] false.
Definition resolved : ResolvedBrokerSecret.t :=
  ResolvedBrokerSecret.mk "s3cr3t" [entry] (BrokerInjection.Header "x-api-key").

Definition sent : Outgoing.t :=
  Outgoing.mk false true "api.example.com" [(V4 93 184 216 34, 443%N)] "GET" the_url
    [("x-api-key", "s3cr3t")] None.

Definition response : BrokerResponse.t :=
  BrokerResponse.mk 200 {["x-tok-s3cr3t" := "<redacted>"]} "you <redacted>".

Lemma run : execute req resolved =
  ([Lookup "api.example.com" 443%N; Send sent], Ok response).
Proof. vm_compute. reflexivity. Qed.
End BrokerDemo.

Lemma broker_sends_only_allowed_witness :
  Forall (λ a, is_blocked_ip a.1 = false) (Outgoing.pinned BrokerDemo.sent).
Proof.
  edestruct (broker_sends_only_allowed BrokerDemo.req BrokerDemo.resolved _ _ BrokerDemo.sent
    BrokerDemo.run) as (_ & url & host & entry & _ & _ & _ & _ & _ & _ & _ & Hin & _ & _ & _ & _ & _ & _ & Hs).
  { right. left. }
  apply Hs. apply list_elem_of_singleton in Hin as ->. reflexivity.
Defined.

Lemma credential_header_is_unique_witness :
  ∃ name value, owned_header BrokerDemo.resolved = Ok (name, value).
Proof.
  destruct (credential_header_is_unique BrokerDemo.req BrokerDemo.resolved _ _ BrokerDemo.sent
    BrokerDemo.run) as (name & value & _ & H & _); [right; left|]. exists name, value. exact H.
Defined.

Lemma response_hides_secret_witness :
  str_infix "s3cr3t" (BrokerResponse.body BrokerDemo.response) = false.
Proof.
  exact (proj1 (response_hides_secret BrokerDemo.req BrokerDemo.resolved _ _ eq_refl BrokerDemo.run)).
Defined.

(** ** Where the sanitizing ends *)

(** The names of response headers are returned as they came: a server that puts the
    credential into a header name gives it to the agent, although the module's contract
    is that it is stripped from everything returned. *)
Theorem header_name_reveals_secret :
  ∃ (net : Net) req resolved events resp name value,
    redactable (ResolvedBrokerSecret.secret resolved) = true ∧
    execute req resolved = (events, Ok resp) ∧
    BrokerResponse.headers resp !! name = Some value ∧
    str_infix (ResolvedBrokerSecret.secret resolved) name = true.
Proof.
  exists BrokerDemo.net, BrokerDemo.req, BrokerDemo.resolved. do 2 eexists.
  exists "x-tok-s3cr3t", "<redacted>".
  split; [reflexivity|]. split; [exact BrokerDemo.run|]. split; vm_compute; reflexivity.
Qed.

(** Redaction is not complete for a secret that ends in an angle bracket. *)
Lemma redaction_gap : redact_secret "aa<" "a<" = "a<redacted>".
Proof. vm_compute. reflexivity. Qed.
