(* ===== verification/Fs.v ===== *)
(** * Fs: the vault directory and operations under faults

    The vault's core and storage keep their state in files under the vault root.  A
    disk maps paths below the root (the root itself is the empty path) to nodes.  Every
    call of the operating system consumes one entry of a list of faults, which says
    whether it succeeds; a call that fails leaves the progress it made, and a crash is
    the failure of every later call.  A replacement of a file goes through a temporary
    file that is not part of the state and is atomic; deleting a directory is not.
    [M] is the monad of operations, with the error type as a parameter; [wp] and [reads]
    are the calculus the components' specifications are proved in. *)
From S2P Require Import Prelude.

(** ** State *)

Abbreviation path := (list string).

(** [Special] is a symbolic link, a device or a socket. *)
Inductive node := Directory | File (bytes : list N) | Special.

#[global] Instance node_eq_dec : EqDecision node.
Proof. solve_decision. Defined.

(** [std::io::Error]: the kinds the code distinguishes. *)
Inductive io_error := NotFound | AlreadyExists | OtherIo (message : string).

#[global] Instance io_error_eq_dec : EqDecision io_error.
Proof. solve_decision. Defined.

Inductive fault := Done | Fails (progress : nat) (message : string).

Module World.
Record t := mk {
  disk : gmap path node;
  perms : gmap path N;            (* permission bits that have been set *)
  held : list path;               (* lock files another process holds *)
  keychain : gmap string string;  (* the operating system's credential store *)
  draws : nat;                    (* how often the random generator was asked *)
  faults : list fault
}.
Definition with_disk (w : t) (d : gmap path node) : t :=
  mk d (perms w) (held w) (keychain w) (draws w) (faults w).
Definition with_perms (w : t) (p : gmap path N) : t :=
  mk (disk w) p (held w) (keychain w) (draws w) (faults w).
Definition with_keychain (w : t) (k : gmap string string) : t :=
  mk (disk w) (perms w) (held w) k (draws w) (faults w).
Definition drawn (w : t) : t :=
  mk (disk w) (perms w) (held w) (keychain w) (S (draws w)) (faults w).
(** The next calls meet these faults. *)
Definition with_faults (w : t) (fs : list fault) : t :=
  mk (disk w) (perms w) (held w) (keychain w) (draws w) fs.
(** The next fault, and the world after it is consumed. *)
Definition next (w : t) : fault * t :=
  match faults w with
  | [] => (Done, w)
  | f :: fs => (f, mk (disk w) (perms w) (held w) (keychain w) (draws w) fs)
  end.
End World.

(** ** The monad *)

Definition M (E A : Type) : Type := World.t → World.t * result A E.

Definition ret {E A} (v : A) : M E A := λ w, (w, Ok v).
Definition fail {E A} (e : E) : M E A := λ w, (w, Err e).
Definition bind {E A B} (m : M E A) (k : A → M E B) : M E B :=
  λ w, match m w with (w', Ok v) => k v w' | (w', Err e) => (w', Err e) end.
(** A pure [Result] with [?]. *)
Definition lift {E A} (r : result A E) : M E A := λ w, (w, r).
(** The [Result] of a call as a value, without [?]. *)
Definition attempt {E F A} (m : M E A) : M F (result A E) :=
  λ w, let '(w', r) := m w in (w', Ok r).
(** [map_err], and [?] with [From]. *)
Definition errmap {E F A} (f : E → F) (m : M E A) : M F A :=
  λ w, let '(w', r) := m w in (w', match r with Ok v => Ok v | Err e => Err (f e) end).

(** [let! x := m in k] is [let x = m?; k] for a call with effects. *)
Notation "'let!' x ':=' m 'in' k" := (bind m (fun x => k))
  (at level 10, x pattern, m at level 100, k at level 200) : sv_scope.

(** [for x in l { f(x)?; }]. *)
Fixpoint for_each {E A} (f : A → M E unit) (l : list A) : M E unit :=
  match l with
  | [] => ret tt
  | x :: l' => let! _ := f x in for_each f l'
  end.

(** [l.iter().map(f).collect::<Result<Vec<_>>>()?]. *)
Fixpoint map_each {E A B} (f : A → M E B) (l : list A) : M E (list B) :=
  match l with
  | [] => ret []
  | x :: l' => let! y := f x in let! ys := map_each f l' in ret (y :: ys)
  end.

(** ** Calls of the operating system *)

(** A call that reads: it gives [f] of the disk, or fails. *)
Definition io_read {A} (f : gmap path node → result A io_error) : M io_error A := λ w,
  let '(ft, w1) := World.next w in
  match ft with
  | Done => (w1, f (World.disk w))
  | Fails _ m => (w1, Err (OtherIo m))
  end.

(** A call that changes the disk to [f], or fails having changed it to [partial n]. *)
Definition io_write (f : gmap path node → gmap path node)
    (partial : nat → gmap path node → gmap path node) : M io_error unit := λ w,
  let '(ft, w1) := World.next w in
  match ft with
  | Done => (World.with_disk w1 (f (World.disk w)), Ok tt)
  | Fails n m => (World.with_disk w1 (partial n (World.disk w)), Err (OtherIo m))
  end.

(** An atomic change: done or not when it fails. *)
Definition atomic (f : gmap path node → gmap path node) (n : nat) (d : gmap path node) :=
  match n with 0 => d | S _ => f d end.

Definition metadata_of (d : gmap path node) (p : path) : result node io_error :=
  match d !! p with Some n => Ok n | None => Err NotFound end.

(** [fs::symlink_metadata]. *)
Definition symlink_metadata (p : path) : M io_error node := io_read (λ d, metadata_of d p).

(** [fs::read]. *)
Definition fs_read (p : path) : M io_error (list N) :=
  io_read (λ d, match d !! p with
                | Some (File bytes) => Ok bytes
                | Some _ => Err (OtherIo "not a regular file")
                | None => Err NotFound
                end).

(** The names of the entries of a directory, [parent] of a path. *)
Definition parent (p : path) : path := removelast p.

Definition entries_of (d : gmap path node) (dir : path) : list (string * node) :=
  omap (λ pn : path * node,
    match last pn.1 with
    | Some name => if decide (pn.1 = dir ++ [name]) then Some (name, pn.2) else None
    | None => None
    end) (map_to_list d).

(** The order in which a directory lists its entries, the bytes the [i]-th call of the
    random generator gives, the time a file was modified, and a path below the vault root
    as it is displayed. *)
Class Os := {
  read_dir_order : list (string * node) → list (string * node);
  entropy : nat → nat → list N;
  modified : gmap path node → path → Z;
  show_path : path → string
}.

Class OsLaws `{Os} : Prop := {
  read_dir_perm l : read_dir_order l ≡ₚ l;
  entropy_length i n : length (entropy i n) = n;
  entropy_bytes i n : Forall (λ b, (b < 256)%N) (entropy i n)
}.

(** [fs::read_dir] and its iteration. *)
Definition read_dir `{Os} (p : path) : M io_error (list (string * node)) :=
  io_read (λ d, match d !! p with
                | Some Directory => Ok (read_dir_order (entries_of d p))
                | Some _ => Err (OtherIo "not a directory")
                | None => Err NotFound
                end).

(** [File::open(dir)?.sync_all()?]. *)
Definition sync_dir (p : path) : M io_error unit := io_read (λ _, Ok tt).

Definition put (p : path) (bytes : list N) (d : gmap path node) : gmap path node :=
  <[p := File bytes]> d.

(** Creating, writing and syncing a temporary file next to [p], then renaming it over
    [p]. *)
Definition write_temp : M io_error unit := io_read (λ _, Ok tt).
Definition replace_atomic (p : path) (bytes : list N) : M io_error unit :=
  io_write (put p bytes) (atomic (put p bytes)).

(** [fs::rename] of a regular file over another. *)
Definition move (from to : path) (d : gmap path node) : gmap path node :=
  match d !! from with Some n => <[to := n]> (delete from d) | None => d end.

Definition rename (from to : path) : M io_error unit := λ w,
  match World.disk w !! from with
  | None => (w, Err NotFound)
  | Some _ => io_write (move from to) (atomic (move from to)) w
  end.

Definition remove_file (p : path) : M io_error unit := λ w,
  match World.disk w !! p with
  | None => (w, Err NotFound)
  | Some _ => io_write (delete p) (atomic (delete p)) w
  end.

(** [fs::create_dir]. *)
Definition create_dir (p : path) : M io_error unit := λ w,
  match World.disk w !! p with
  | Some _ => (w, Err AlreadyExists)
  | None => io_write (<[p := Directory]>) (atomic (<[p := Directory]>)) w
  end.

(** [fs::create_dir_all] of a directory whose parents exist. *)
Definition create_dir_all (p : path) : M io_error unit := λ w,
  match World.disk w !! p with
  | Some Directory => io_read (λ _, Ok tt) w
  | Some _ => (w, Err AlreadyExists)
  | None => io_write (<[p := Directory]>) (atomic (<[p := Directory]>)) w
  end.

(** Is [p] the path [dir] or below it? *)
Definition below (dir p : path) : bool := bool_decide (dir `prefix_of` p).

Definition drop_paths (l : list path) (d : gmap path node) : gmap path node :=
  foldr delete d l.

(** [fs::remove_dir_all]: entries go one by one, the directory last; a failure leaves
    some of them. *)
Definition tree_paths (dir : path) (d : gmap path node) : list path :=
  List.filter (λ p, below dir p && negb (bool_decide (p = dir))) (map_to_list d).*1.

Definition remove_dir_all (p : path) : M io_error unit := λ w,
  io_write (λ d, delete p (drop_paths (tree_paths p d) d))
           (λ n d, drop_paths (take n (tree_paths p d)) d) w.

(** The metadata of a path with its permission bits; without a change they are those
    of a default [umask]. *)
Definition mode_of (w : World.t) (p : path) : N := default 420%N (World.perms w !! p).

Definition metadata_mode (p : path) : M io_error (node * N) := λ w,
  let '(w', r) := symlink_metadata p w in
  (w', match r with Ok n => Ok (n, mode_of w p) | Err e => Err e end).

(** [fs::set_permissions] with the mode [m]. *)
Definition set_permissions (p : path) (m : N) : M io_error unit := λ w,
  let '(ft, w1) := World.next w in
  match ft with
  | Done => (World.with_perms w1 (<[p := m]> (World.perms w)), Ok tt)
  | Fails _ e => (w1, Err (OtherIo e))
  end.

(** Opening a lock file with [create(true)], and [try_lock]: is the lock ours? *)
Definition open_lock (p : path) : M io_error unit :=
  io_write (λ d, match d !! p with None => put p [] d | Some _ => d end)
           (atomic (λ d, match d !! p with None => put p [] d | Some _ => d end)).

Definition try_lock (p : path) : M io_error bool := λ w,
  let '(ft, w1) := World.next w in
  match ft with
  | Done => (w1, Ok (negb (bool_decide (p ∈ World.held w))))
  | Fails _ e => (w1, Err (OtherIo e))
  end.

(** [getrandom::fill], which may fail, and [rand::rng().fill_bytes], which does not. *)
Definition fill_bytes {E} `{Os} (n : nat) : M E (list N) := λ w,
  (World.drawn w, Ok (entropy (World.draws w) n)).
Definition getrandom `{Os} (n : nat) : M io_error (list N) := λ w,
  let '(ft, w1) := World.next w in
  match ft with
  | Done => (World.drawn w1, Ok (entropy (World.draws w) n))
  | Fails _ e => (w1, Err (OtherIo e))
  end.

(** ** Operations under faults *)

Abbreviation quiet w := (World.faults w = []).

(** What no operation on files changes, and that faults are only consumed. *)
Definition keeps (w w' : World.t) : Prop :=
  World.held w' = World.held w ∧ World.keychain w' = World.keychain w ∧ (quiet w → quiet w').

(** Nothing but permissions and random draws changed. *)
Definition same (w w' : World.t) : Prop := keeps w w' ∧ World.disk w' = World.disk w.

Lemma keeps_refl w : keeps w w.
Proof. done. Qed.

Lemma keeps_trans w1 w2 w3 : keeps w1 w2 → keeps w2 w3 → keeps w1 w3.
Proof. intros (? & ? & ?) (? & ? & ?). split_and!; [congruence..|auto]. Qed.

Lemma keeps_quiet w w' : keeps w w' → ¬ quiet w' → ¬ quiet w.
Proof. intros (_ & _ & Hq) Hn Hw. auto. Qed.

Lemma same_refl w : same w w.
Proof. done. Qed.

Lemma same_trans w1 w2 w3 : same w1 w2 → same w2 w3 → same w1 w3.
Proof. intros [? ?] [? ?]. split; [by eapply keeps_trans|congruence]. Qed.

Lemma same_keeps w w' : same w w' → keeps w w'.
Proof. by intros []. Qed.

Lemma same_disk w w' : same w w' → World.disk w' = World.disk w.
Proof. by intros []. Qed.

#[export] Hint Resolve keeps_refl same_refl keeps_trans same_trans same_keeps same_disk keeps_quiet : sv.

Section calculus.
Context {E : Type}.
Implicit Types w : World.t.

(** The operation satisfies [Q] of its result and final world. *)
Definition wp {A} (m : M E A) w (Q : result A E → World.t → Prop) : Prop := Q (m w).2 (m w).1.

Lemma wp_mono {A} (m : M E A) w (Q Q' : result A E → World.t → Prop) :
  wp m w Q → (∀ r w', Q r w' → Q' r w') → wp m w Q'.
Proof. unfold wp. auto. Qed.

Lemma wp_bind {A B} (m : M E A) (k : A → M E B) w Q :
  wp m w (λ r w', match r with Ok v => wp (k v) w' Q | Err e => Q (Err e) w' end) →
  wp (bind m k) w Q.
Proof. unfold wp, bind. destruct (m w) as [w' [v|e]]; done. Qed.

Lemma wp_ret {A} (v : A) w (Q : result A E → World.t → Prop) : Q (Ok v) w → wp (ret v) w Q.
Proof. done. Qed.

Lemma wp_fail {A} e w (Q : result A E → World.t → Prop) : Q (Err e) w → wp (fail e) w Q.
Proof. done. Qed.

Lemma wp_lift {A} (r : result A E) w (Q : result A E → World.t → Prop) : Q r w → wp (lift r) w Q.
Proof. done. Qed.

(** The operation changes nothing and returns [v], or an error under a fault. *)
Definition reads {A} (m : M E A) (v : A) w : Prop :=
  wp m w (λ r w', same w w' ∧ (r = Ok v ∨ ¬ quiet w ∧ ∃ e, r = Err e)).

(** The operation changes nothing and returns an error. *)
Definition refuses {A} (m : M E A) w : Prop := wp m w (λ r w', same w w' ∧ ∃ e, r = Err e).

Lemma wp_reads {A} (m : M E A) v w (Q : result A E → World.t → Prop) :
  reads m v w →
  (∀ w', same w w' → Q (Ok v) w') →
  (∀ w' e, same w w' → ¬ quiet w → Q (Err e) w') →
  wp m w Q.
Proof.
  intros Hr HOk HErr. unfold reads in Hr. eapply wp_mono; [exact Hr|]. intros r w' [Hs [-> | [Hq [e ->]]]]; auto.
Qed.

Lemma wp_refuses {A} (m : M E A) w (Q : result A E → World.t → Prop) :
  refuses m w → (∀ w' e, same w w' → Q (Err e) w') → wp m w Q.
Proof. intros Hr HE. unfold refuses in Hr. eapply wp_mono; [exact Hr|]. intros r w' [Hs [e ->]]. auto. Qed.

Lemma reads_ret {A} (v : A) w : reads (ret v) v w.
Proof. split; auto with sv. Qed.

Lemma reads_lift {A} (r : result A E) v w : r = Ok v → reads (lift r) v w.
Proof. intros ->. apply reads_ret. Qed.

Lemma reads_bind {A B} (m : M E A) (k : A → M E B) v u w :
  reads m v w → (∀ w', same w w' → reads (k v) u w') → reads (bind m k) u w.
Proof.
  intros Hm Hk. apply wp_bind. eapply wp_reads; [exact Hm| |].
  - intros w1 H1. eapply wp_reads; [by apply Hk| |].
    + intros w2 H2. split; [eauto with sv|by left].
    + intros w2 e H2 Hq. split; [eauto with sv|]. right. split; [|eauto]. eauto with sv.
  - intros w' e Hs Hq. split; [done|]. right. eauto.
Qed.

Lemma refuses_bind {A B} (m : M E A) (k : A → M E B) v w :
  reads m v w → (∀ w', same w w' → refuses (k v) w') → refuses (bind m k) w.
Proof.
  intros Hm Hk. apply wp_bind. eapply wp_reads; [exact Hm| |].
  - intros w1 H1. eapply wp_refuses; [by apply Hk|]. intros w2 e H2. split; eauto with sv.
  - intros w' e Hs Hq. split; eauto.
Qed.

Lemma refuses_bind_l {A B} (m : M E A) (k : A → M E B) w : refuses m w → refuses (bind m k) w.
Proof. intros Hm. apply wp_bind. eapply wp_refuses; [exact Hm|]. intros w' e Hs. split; eauto. Qed.

Lemma refuses_fail {A} e w : refuses (fail e : M E A) w.
Proof. split; eauto with sv. Qed.

Lemma reads_after {A} (m : M E A) v w w1 : same w w1 → reads m v w1 →
  wp m w1 (λ r w', same w w' ∧ (r = Ok v ∨ ¬ quiet w ∧ ∃ e, r = Err e)).
Proof.
  intros H1 Hm. eapply wp_reads; [exact Hm| |].
  - intros w2 H2. split; [eauto with sv|by left].
  - intros w2 e H2 Hq. split; [eauto with sv|]. right. split; [|eauto]. eauto with sv.
Qed.

Lemma reads_for_each {A} (f : A → M E unit) l w :
  (∀ x w', x ∈ l → same w w' → reads (f x) tt w') → reads (for_each f l) tt w.
Proof.
  revert w. induction l as [|x l IH]; intros w Hf; [apply reads_ret|]. cbn [for_each].
  eapply reads_bind; [apply Hf; [left|auto with sv]|].
  intros w1 H1. apply IH. intros y w2 Hy H2. apply Hf; [by right|eauto with sv].
Qed.

Lemma reads_map_each {A B} (f : A → M E B) (g : A → B) l w :
  (∀ x w', x ∈ l → same w w' → reads (f x) (g x) w') → reads (map_each f l) (g <$> l) w.
Proof.
  revert w. induction l as [|x l IH]; intros w Hf; [apply reads_ret|]. cbn [map_each].
  eapply reads_bind; [apply Hf; [left|auto with sv]|]. intros w1 H1.
  eapply reads_bind; [apply IH; intros y w2 Hy H2; apply Hf; [by right|eauto with sv]|].
  intros w2 H2. apply reads_ret.
Qed.
End calculus.

Lemma wp_attempt {E F A} (m : M E A) w (Q : result (result A E) F → World.t → Prop) :
  wp m w (λ r w', Q (Ok r) w') → wp (attempt m) w Q.
Proof. unfold wp, attempt. by destruct (m w). Qed.

Lemma wp_errmap {E F A} (f : E → F) (m : M E A) w (Q : result A F → World.t → Prop) :
  wp m w (λ r w', Q (match r with Ok v => Ok v | Err e => Err (f e) end) w') → wp (errmap f m) w Q.
Proof. unfold wp, errmap. by destruct (m w). Qed.

Lemma reads_errmap {E F A} (f : E → F) (m : M E A) v w : reads m v w → reads (errmap f m) v w.
Proof.
  intros Hm. apply wp_errmap. eapply wp_reads; [exact Hm| |].
  - intros w' Hs. split; [done|by left].
  - intros w' e Hs Hq. split; [done|]. right. eauto.
Qed.

Lemma refuses_errmap {E F A} (f : E → F) (m : M E A) w : refuses m w → refuses (errmap f m) w.
Proof. intros Hm. apply wp_errmap. eapply wp_refuses; [exact Hm|]. intros w' e Hs. split; eauto. Qed.

Lemma next_cases w :
  ∃ w1, same w w1 ∧ World.draws w1 = World.draws w ∧ World.perms w1 = World.perms w ∧
    (World.next w = (Done, w1) ∨ ¬ quiet w ∧ ∃ n m, World.next w = (Fails n m, w1)).
Proof.
  destruct w as [d p h k n [|f fs]]; cbn; [eexists; split; [apply same_refl|auto]|].
  exists (World.mk d p h k n fs). split; [done|]. split; [done|]. split; [done|].
  destruct f as [|i m]; [by left|]. right. split; [done|eauto].
Qed.

Lemma reads_io {A} (f : gmap path node → result A io_error) v w :
  f (World.disk w) = Ok v → reads (io_read f) v w.
Proof.
  intros Hf. unfold reads, wp, io_read.
  destruct (next_cases w) as (w1 & H1 & _ & _ & [-> | (Hq & n & m & ->)]); [rewrite Hf|]; cbn; split; eauto.
Qed.

Lemma wp_io_read {A} (f : gmap path node → result A io_error) w (Q : result A io_error → World.t → Prop) :
  (∀ w', same w w' → Q (f (World.disk w)) w') →
  (∀ w' m, same w w' → ¬ quiet w → Q (Err (OtherIo m)) w') →
  wp (io_read f) w Q.
Proof.
  intros HD HF. unfold wp, io_read.
  destruct (next_cases w) as (w1 & H1 & _ & _ & [-> | (Hq & n & m & ->)]); cbn; auto.
Qed.

Lemma refuses_io {A} (f : gmap path node → result A io_error) e w :
  f (World.disk w) = Err e → refuses (io_read f) w.
Proof. intros Hf. apply wp_io_read; [rewrite Hf|]; intros; split; eauto. Qed.

(** A primitive that writes: done, or failed with some progress. *)
Lemma wp_io_write f partial w (Q : result unit io_error → World.t → Prop) :
  (∀ w', keeps w w' → World.disk w' = f (World.disk w) → Q (Ok tt) w') →
  (∀ w' n e, keeps w w' → ¬ quiet w → World.disk w' = partial n (World.disk w) → Q (Err e) w') →
  wp (io_write f partial) w Q.
Proof.
  intros HD HF. unfold wp, io_write.
  destruct (next_cases w) as (w1 & [H1 _] & _ & _ & [-> | (Hq & n & m & ->)]); cbn; [apply HD|eapply HF]; done.
Qed.

Lemma atomic_cases f n d : atomic f n d = d ∨ atomic f n d = f d.
Proof. destruct n; auto. Qed.

Lemma wp_atomic f w (Q : result unit io_error → World.t → Prop) :
  (∀ w', keeps w w' → World.disk w' = f (World.disk w) → Q (Ok tt) w') →
  (∀ w' e, keeps w w' → ¬ quiet w →
     World.disk w' = World.disk w ∨ World.disk w' = f (World.disk w) → Q (Err e) w') →
  wp (io_write f (atomic f)) w Q.
Proof.
  intros HD HF. apply wp_io_write; [done|]. intros w' n e Hk Hq Hd. apply HF; [done..|].
  rewrite Hd. apply atomic_cases.
Qed.

Lemma reads_metadata p n w :
  World.disk w !! p = Some n → reads (symlink_metadata p) n w.
Proof. intros Hd. apply reads_io. unfold metadata_of. by rewrite Hd. Qed.

Lemma reads_fs_read p bytes w :
  World.disk w !! p = Some (File bytes) → reads (fs_read p) bytes w.
Proof. intros Hd. apply reads_io. by rewrite Hd. Qed.

Lemma reads_sync p w : reads (sync_dir p) tt w.
Proof. by apply reads_io. Qed.

Lemma reads_temp w : reads write_temp tt w.
Proof. by apply reads_io. Qed.

Lemma reads_set_permissions p m w : reads (set_permissions p m) tt w.
Proof.
  unfold reads, wp, set_permissions.
  destruct (next_cases w) as (w1 & H1 & _ & _ & [-> | (Hq & n & e & ->)]); cbn; split; eauto.
Qed.

Lemma reads_try_lock p w :
  p ∉ World.held w → reads (try_lock p) true w.
Proof.
  intros Hp. unfold reads, wp, try_lock.
  destruct (next_cases w) as (w1 & H1 & _ & _ & [-> | (Hq & n & e & ->)]); cbn; split; eauto.
  left. rewrite bool_decide_eq_false_2; done.
Qed.

(** A draw of the generator gives some bytes of the right length. *)
Lemma wp_fill_bytes {E} `{OsLaws} n w (Q : result (list N) E → World.t → Prop) :
  (∀ bytes w', length bytes = n → Forall (λ b, (b < 256)%N) bytes → same w w' → Q (Ok bytes) w') →
  wp (fill_bytes n) w Q.
Proof. intros HQ. apply HQ; [apply entropy_length|apply entropy_bytes|done]. Qed.

Lemma wp_getrandom `{OsLaws} n w (Q : result (list N) io_error → World.t → Prop) :
  (∀ bytes w', length bytes = n → Forall (λ b, (b < 256)%N) bytes → same w w' → Q (Ok bytes) w') →
  (∀ w' e, same w w' → ¬ quiet w → Q (Err e) w') →
  wp (getrandom n) w Q.
Proof.
  intros HD HF. unfold wp, getrandom.
  destruct (next_cases w) as (w1 & H1 & Hdr & _ & [-> | (Hq & i & e & ->)]); cbn.
  - apply HD; [apply entropy_length|apply entropy_bytes|]. done.
  - by apply HF.
Qed.

(** ** Directory entries *)

Lemma elem_of_entries d dir name n : (name, n) ∈ entries_of d dir ↔ d !! (dir ++ [name]) = Some n.
Proof.
  unfold entries_of. rewrite list_elem_of_omap. split.
  - intros ([p m] & Hin%elem_of_map_to_list & Hp). cbn in Hp.
    destruct (last p) as [nm|]; [|done]. case_decide as E; [|done]. simplify_eq. done.
  - intros Hd. exists (dir ++ [name], n). rewrite elem_of_map_to_list. split; [done|]. cbn.
    rewrite last_snoc. by rewrite decide_True.
Qed.

Lemma NoDup_entries d dir : NoDup (entries_of d dir).*1.
Proof.
  unfold entries_of. pose proof (NoDup_fst_map_to_list d) as Hnd. revert Hnd.
  induction (map_to_list d) as [|[p n] l IH]; simpl; [constructor|].
  intros Hnd. apply NoDup_cons in Hnd as [Hp Hnd].
  destruct (last p) as [nm|]; [|by apply IH]. case_decide as E; [|by apply IH]. simpl. constructor; [|by apply IH].
  intros Hin. apply Hp. apply list_elem_of_fmap in Hin as ([nm' n'] & Hnm & Hin). cbn in Hnm. subst nm'.
  apply list_elem_of_omap in Hin as ([p' m'] & Hin & Hf). cbn in Hf.
  destruct (last p'); [|done]. case_decide as E'; [|done]. simplify_eq.
  apply list_elem_of_fmap. eexists. split; [|exact Hin]. done.
Qed.

(** ** Triples: the disk an operation leaves, on success and on failure

    Without a fault the operation fails only for the reason [X]. *)

Section triples.
Context {E : Type}.
Implicit Types w : World.t.

Definition triple {A} (X : Prop) (m : M E A) (w : World.t) (Qok : A → gmap path node → Prop)
    (Qerr : gmap path node → Prop) : Prop :=
  wp m w (λ r w', keeps w w' ∧
    match r with
    | Ok v => Qok v (World.disk w')
    | Err _ => (quiet w → X) ∧ Qerr (World.disk w')
    end).

Lemma triple_mono {A} (X Y : Prop) (m : M E A) w (Q1 Q2 : A → gmap path node → Prop)
    (R1 R2 : gmap path node → Prop) :
  triple X m w Q1 R1 → (X → Y) → (∀ v d, Q1 v d → Q2 v d) → (∀ d, R1 d → R2 d) → triple Y m w Q2 R2.
Proof.
  intros Hm HX HQ HR. unfold triple in *. eapply wp_mono; [exact Hm|].
  intros [v|e] w' [Hk Hd]; [auto|]. destruct Hd. auto.
Qed.

Lemma triple_ret {A} (X : Prop) (v : A) w (Qok : A → gmap path node → Prop) (Qerr : gmap path node → Prop) :
  Qok v (World.disk w) → triple X (ret v) w Qok Qerr.
Proof. split; auto with sv. Qed.

Lemma triple_fail {A} (X : Prop) (e : E) w (Qok : A → gmap path node → Prop) (Qerr : gmap path node → Prop) :
  (quiet w → X) → Qerr (World.disk w) → triple X (fail e) w Qok Qerr.
Proof. intros HX HR. split; [apply keeps_refl|]. done. Qed.

Lemma triple_reads {A} (X : Prop) (m : M E A) (v : A) w (Qok : A → gmap path node → Prop)
    (Qerr : gmap path node → Prop) :
  reads m v w → Qok v (World.disk w) → Qerr (World.disk w) → triple X m w Qok Qerr.
Proof.
  intros Hm HQ HR. eapply wp_reads; [exact Hm| |].
  - intros w' Hs. split; [auto with sv|]. by rewrite (same_disk _ _ Hs).
  - intros w' e Hs Hq. split; [auto with sv|]. by rewrite (same_disk _ _ Hs).
Qed.

Lemma triple_refuses {A} (X : Prop) (m : M E A) w (Qok : A → gmap path node → Prop)
    (Qerr : gmap path node → Prop) :
  refuses m w → X → Qerr (World.disk w) → triple X m w Qok Qerr.
Proof.
  intros Hm HX HR. eapply wp_refuses; [exact Hm|]. intros w' e Hs. split; [auto with sv|].
  rewrite (same_disk _ _ Hs). auto.
Qed.

Lemma triple_bind {A B} (X : Prop) (m : M E A) (k : A → M E B) w (Qok : B → gmap path node → Prop)
    (Qerr : gmap path node → Prop) :
  triple X m w (λ v d, ∀ w', keeps w w' → World.disk w' = d → triple X (k v) w' Qok Qerr) Qerr →
  triple X (bind m k) w Qok Qerr.
Proof.
  intros Hm. unfold triple in Hm. apply wp_bind. eapply wp_mono; [exact Hm|].
  intros [v|e] w1 [Hk1 Hd1]; [|done]. specialize (Hd1 w1 Hk1 eq_refl). unfold triple in Hd1.
  eapply wp_mono; [exact Hd1|]. intros r w2 [Hk2 Hd2]. split; [eauto with sv|].
  destruct r; [done|]. destruct Hd2 as [Hx HR]. split; [|done]. intros Hq. apply Hx. by apply Hk1.
Qed.

Lemma triple_bind_reads {A B} (X : Prop) (m : M E A) (k : A → M E B) (v : A) w (Qok : B → gmap path node → Prop)
    (Qerr : gmap path node → Prop) :
  reads m v w → (∀ w', same w w' → triple X (k v) w' Qok Qerr) → Qerr (World.disk w) →
  triple X (bind m k) w Qok Qerr.
Proof.
  intros Hm Hk HR. apply wp_bind. eapply wp_reads; [exact Hm| |].
  - intros w1 H1. specialize (Hk w1 H1). unfold triple in Hk. eapply wp_mono; [exact Hk|].
    intros r w2 [Hk2 Hd2]. split; [eauto with sv|]. destruct r; [done|].
    destruct Hd2 as [Hx Hd]. split; [|done]. intros Hq. apply Hx. by apply H1.
  - intros w1 e H1 Hq. split; [auto with sv|]. by rewrite (same_disk _ _ H1).
Qed.

(** A computation with a known triple, then one with the same errors. *)
Lemma triple_then {A B} (X : Prop) (m : M E A) (k : A → M E B) w (Q : A → gmap path node → Prop)
    (R : gmap path node → Prop) (Qok : B → gmap path node → Prop) (Qerr : gmap path node → Prop) :
  triple X m w Q R → (∀ d, R d → Qerr d) →
  (∀ v w', keeps w w' → Q v (World.disk w') → triple X (k v) w' Qok Qerr) →
  triple X (bind m k) w Qok Qerr.
Proof.
  intros Hm HR Hk. apply triple_bind. eapply triple_mono; [exact Hm|done| |done].
  intros v d HQ w' Hw' <-. auto.
Qed.
End triples.

Lemma triple_errmap {E F A : Type} (X : Prop) (f : E → F) (m : M E A) (w : World.t) (Qok : A → gmap path node → Prop)
    (Qerr : gmap path node → Prop) :
  triple X m w Qok Qerr → triple X (errmap f m) w Qok Qerr.
Proof.
  intros Hm. unfold triple in *. apply wp_errmap. eapply wp_mono; [exact Hm|]. by intros [].
Qed.

(** Catching the error. *)
Lemma triple_attempt {E F A : Type} (X Y : Prop) (m : M E A) (w : World.t) (Q : A → gmap path node → Prop)
    (R : gmap path node → Prop) (Qok : result A E → gmap path node → Prop) (Qerr : gmap path node → Prop) :
  triple X m w Q R → (∀ v d, Q v d → Qok (Ok v) d) → (∀ e d, (quiet w → X) → R d → Qok (Err e) d) →
  triple Y (attempt m : M F (result A E)) w Qok Qerr.
Proof.
  intros Hm HQ HR. unfold triple in *. apply wp_attempt. eapply wp_mono; [exact Hm|].
  intros [v|e] w' [Hk Hd]; split; auto. destruct Hd. eauto.
Qed.

Lemma triple_atomic (X : Prop) (f : gmap path node → gmap path node) (w : World.t)
    (Qok : unit → gmap path node → Prop) (Qerr : gmap path node → Prop) :
  Qok tt (f (World.disk w)) → Qerr (World.disk w) → Qerr (f (World.disk w)) →
  triple X (io_write f (atomic f)) w Qok Qerr.
Proof.
  intros HD HF1 HF2. apply wp_atomic.
  - intros w' Hk ->. done.
  - intros w' e Hk Hq [-> | ->]; (split; [done|]); by split.
Qed.

(** The outcome of a metadata call without [?]. *)
Lemma triple_bind_metadata {E B : Type} (X : Prop) (p : path) (k : result node io_error → M E B) (w : World.t)
    (Qok : B → gmap path node → Prop) (Qerr : gmap path node → Prop) :
  (∀ w', same w w' → triple X (k (metadata_of (World.disk w) p)) w' Qok Qerr) →
  (∀ w' m, same w w' → triple True (k (Err (OtherIo m))) w' Qok Qerr) →
  triple X (bind (attempt (symlink_metadata p)) k) w Qok Qerr.
Proof.
  intros HD HF. apply wp_bind, wp_attempt, wp_io_read; [intros w' Hs; specialize (HD w' Hs)|
    intros w' m Hs Hq; specialize (HF w' m Hs)]; unfold triple in *;
    (eapply wp_mono; [eassumption|]); intros r w2 [Hk2 Hd2]; (split; [eauto with sv|]);
    (destruct r; [done|]); destruct Hd2 as [Hx HR]; (split; [|done]); [|done].
  intros Hq. apply Hx. by apply Hs.
Qed.

Lemma triple_try_lock (X : Prop) (p : path) (w : World.t) (Qok : bool → gmap path node → Prop)
    (Qerr : gmap path node → Prop) :
  Qok (negb (bool_decide (p ∈ World.held w))) (World.disk w) → Qerr (World.disk w) →
  triple X (try_lock p) w Qok Qerr.
Proof.
  intros HQ HR. unfold triple, wp, try_lock.
  destruct (next_cases w) as (w1 & H1 & _ & _ & [-> | (Hq & n & e & ->)]); cbn;
    (split; [auto with sv|]); rewrite (same_disk _ _ H1); by auto.
Qed.

Lemma triple_ext {E A : Type} (X : Prop) (m m' : M E A) (w : World.t) (Qok : A → gmap path node → Prop)
    (Qerr : gmap path node → Prop) :
  m w = m' w → triple X m' w Qok Qerr → triple X m w Qok Qerr.
Proof. intros Hm. unfold triple, wp. by rewrite Hm. Qed.

Lemma triple_create_dir (X : Prop) (p : path) (w : World.t) (Qok : unit → gmap path node → Prop)
    (Qerr : gmap path node → Prop) :
  World.disk w !! p = None →
  Qok tt (<[p := Directory]> (World.disk w)) → Qerr (World.disk w) →
  Qerr (<[p := Directory]> (World.disk w)) →
  triple X (create_dir p) w Qok Qerr.
Proof.
  intros Hp ???. eapply triple_ext; [unfold create_dir; by rewrite Hp|].
  by apply (triple_atomic X (<[p := Directory]>)).
Qed.

Lemma triple_remove_file (X : Prop) (p : path) (n : node) (w : World.t)
    (Qok : unit → gmap path node → Prop) (Qerr : gmap path node → Prop) :
  World.disk w !! p = Some n →
  Qok tt (delete p (World.disk w)) → Qerr (World.disk w) → Qerr (delete p (World.disk w)) →
  triple X (remove_file p) w Qok Qerr.
Proof.
  intros Hp ???. eapply triple_ext; [unfold remove_file; by rewrite Hp|]. by apply triple_atomic.
Qed.

Lemma triple_rename (X : Prop) (from to : path) (n : node) (w : World.t)
    (Qok : unit → gmap path node → Prop) (Qerr : gmap path node → Prop) :
  World.disk w !! from = Some n →
  Qok tt (move from to (World.disk w)) → Qerr (World.disk w) → Qerr (move from to (World.disk w)) →
  triple X (rename from to) w Qok Qerr.
Proof.
  intros Hp ???. eapply triple_ext; [unfold rename; by rewrite Hp|]. by apply triple_atomic.
Qed.

(** ** Operations that change no file *)

Definition readonly {E A : Type} (m : M E A) : Prop := ∀ w, same w (m w).1.

Lemma readonly_ret {E A} (v : A) : readonly (ret v : M E A).
Proof. intros w. apply same_refl. Qed.
Lemma readonly_fail {E A} (e : E) : readonly (fail e : M E A).
Proof. intros w. apply same_refl. Qed.
Lemma readonly_lift {E A} (r : result A E) : readonly (lift r).
Proof. intros w. apply same_refl. Qed.
Lemma readonly_bind {E A B} (m : M E A) (k : A → M E B) :
  readonly m → (∀ v, readonly (k v)) → readonly (bind m k).
Proof.
  intros Hm Hk w. unfold bind. specialize (Hm w). destruct (m w) as [w1 [v|e]]; [|done].
  specialize (Hk v w1). cbn in *. eauto with sv.
Qed.
Lemma readonly_errmap {E F A} (f : E → F) (m : M E A) : readonly m → readonly (errmap f m).
Proof. intros Hm w. unfold errmap. specialize (Hm w). by destruct (m w). Qed.
Lemma readonly_attempt {E F A} (m : M E A) : readonly m → readonly (attempt m : M F _).
Proof. intros Hm w. unfold attempt. specialize (Hm w). by destruct (m w). Qed.
Lemma readonly_io {A} (f : gmap path node → result A io_error) : readonly (io_read f).
Proof.
  intros w. unfold io_read. destruct (next_cases w) as (w1 & H1 & _ & _ & [-> | (Hq & n & m & ->)]); done.
Qed.
Lemma readonly_set_permissions p m : readonly (set_permissions p m).
Proof.
  intros w. unfold set_permissions.
  destruct (next_cases w) as (w1 & H1 & _ & _ & [-> | (Hq & n & e & ->)]); done.
Qed.
Lemma readonly_metadata p : readonly (symlink_metadata p).
Proof. apply readonly_io. Qed.
Lemma readonly_metadata_mode p : readonly (metadata_mode p).
Proof.
  intros w. unfold metadata_mode. pose proof (readonly_metadata p w) as Hm. by destruct (symlink_metadata p w).
Qed.
Lemma readonly_try_lock p : readonly (try_lock p).
Proof.
  intros w. unfold try_lock. destruct (next_cases w) as (w1 & H1 & _ & _ & [-> | (Hq & n & e & ->)]); done.
Qed.
Lemma readonly_fill_bytes {E} `{Os} n : readonly (fill_bytes n : M E _).
Proof. intros w. done. Qed.
Lemma readonly_getrandom `{Os} n : readonly (getrandom n).
Proof.
  intros w. unfold getrandom. destruct (next_cases w) as (w1 & H1 & _ & _ & [-> | (Hq & i & e & ->)]); done.
Qed.
Lemma readonly_for_each {E A} (f : A → M E unit) l : (∀ x, readonly (f x)) → readonly (for_each f l).
Proof. intros Hf. induction l; cbn; [apply readonly_ret|]. by apply readonly_bind. Qed.
Lemma readonly_map_each {E A B} (f : A → M E B) l : (∀ x, readonly (f x)) → readonly (map_each f l).
Proof.
  intros Hf. induction l; cbn; [apply readonly_ret|]. apply readonly_bind; [done|].
  intros y. apply readonly_bind; [done|]. intros. apply readonly_ret.
Qed.

Create HintDb readonly.
#[export] Hint Resolve readonly_ret readonly_fail readonly_lift readonly_errmap readonly_attempt readonly_io
  readonly_set_permissions readonly_metadata readonly_metadata_mode readonly_try_lock readonly_fill_bytes
  readonly_getrandom readonly_for_each readonly_map_each : readonly.

(** Proves that a composed operation is read-only. *)
Ltac readonly :=
  repeat first
    [ progress intros
    | solve [auto with readonly]
    | apply readonly_bind
    | apply readonly_errmap
    | apply readonly_attempt
    | apply readonly_for_each
    | apply readonly_map_each
    | match goal with
      | |- readonly (if ?b then _ else _) => destruct b
      | |- readonly (let (_, _) := ?p in _) => destruct p
      | |- readonly (match ?x with _ => _ end) => destruct x
      end ].

Lemma triple_readonly {E A : Type} (m : M E A) (w : World.t) (Qok : A → gmap path node → Prop)
    (Qerr : gmap path node → Prop) :
  readonly m → (∀ v, Qok v (World.disk w)) → Qerr (World.disk w) → triple True m w Qok Qerr.
Proof.
  intros Hm HQ HR. unfold triple, wp. specialize (Hm w). split; [by apply Hm|].
  rewrite (same_disk _ _ Hm). destruct (m w).2; auto.
Qed.

Lemma triple_bind_readonly {E A B : Type} (m : M E A) (k : A → M E B) (w : World.t)
    (Qok : B → gmap path node → Prop) (Qerr : gmap path node → Prop) :
  readonly m → (∀ v w', same w w' → triple True (k v) w' Qok Qerr) → Qerr (World.disk w) →
  triple True (bind m k) w Qok Qerr.
Proof.
  intros Hm Hk HR. specialize (Hm w). unfold triple, wp, bind in *.
  destruct (m w) as [w1 [v|e]]; cbn in *.
  - specialize (Hk v w1 Hm) as [Hk1 Hk2]. split; [eauto with sv|]. destruct (k v w1) as [w2 [u|e]]; [done|].
    cbn in *. split; [done|]. apply Hk2.
  - split; [by apply Hm|]. split; [done|]. by rewrite (same_disk _ _ Hm).
Qed.

(** ** Values that depend on random draws

    The operation changes no file and returns a value that satisfies [P], or an error
    under a fault. *)

Definition yields {E A : Type} (m : M E A) (w : World.t) (P : A → Prop) : Prop :=
  wp m w (λ r w', same w w' ∧ match r with Ok v => P v | Err _ => ¬ quiet w end).

Section yields.
Context {E : Type}.
Implicit Types w : World.t.

Lemma yields_mono {A} (m : M E A) w (P Q : A → Prop) : yields m w P → (∀ v, P v → Q v) → yields m w Q.
Proof. intros Hm HQ. unfold yields in *. eapply wp_mono; [exact Hm|]. intros [v|e] w' [Hs Hv]; auto. Qed.

Lemma yields_ret {A} (v : A) w (P : A → Prop) : P v → yields (ret v : M E A) w P.
Proof. intros Hv. split; auto with sv. Qed.

Lemma yields_lift {A} (r : result A E) (v : A) w (P : A → Prop) : r = Ok v → P v → yields (lift r) w P.
Proof. intros -> Hv. by apply yields_ret. Qed.

Lemma yields_reads {A} (m : M E A) (v : A) w (P : A → Prop) : reads m v w → P v → yields m w P.
Proof.
  intros Hm Hv. eapply wp_reads; [exact Hm| |].
  - intros w' Hs. done.
  - intros w' e Hs Hq. done.
Qed.

Lemma yields_bind {A B} (m : M E A) (k : A → M E B) w (P : A → Prop) (Q : B → Prop) :
  yields m w P → (∀ v w', same w w' → P v → yields (k v) w' Q) → yields (bind m k) w Q.
Proof.
  intros Hm Hk. apply wp_bind. unfold yields in Hm. eapply wp_mono; [exact Hm|].
  intros [v|e] w1 [H1 Hv]; [|done]. specialize (Hk v w1 H1 Hv). unfold yields in Hk.
  eapply wp_mono; [exact Hk|]. intros r w2 [H2 Hr]. split; [eauto with sv|].
  destruct r; [done|]. eauto with sv.
Qed.

Lemma yields_map_each {A B} (f : A → M E B) (R : A → B → Prop) l w :
  (∀ x w', x ∈ l → same w w' → yields (f x) w' (R x)) → yields (map_each f l) w (Forall2 R l).
Proof.
  revert w. induction l as [|x l IH]; intros w Hf; [apply yields_ret; constructor|]. cbn [map_each].
  eapply yields_bind; [apply Hf; [left|auto with sv]|]. intros y w1 H1 Hy.
  eapply yields_bind; [apply IH; intros z w2 Hz H2; apply Hf; [by right|eauto with sv]|].
  intros ys w2 H2 Hys. apply yields_ret. by constructor.
Qed.

Lemma triple_bind_yields {A B} (X : Prop) (m : M E A) (k : A → M E B) w (P : A → Prop)
    (Qok : B → gmap path node → Prop) (Qerr : gmap path node → Prop) :
  yields m w P → (∀ v w', same w w' → P v → triple X (k v) w' Qok Qerr) → Qerr (World.disk w) →
  triple X (bind m k) w Qok Qerr.
Proof.
  intros Hm Hk HR. apply wp_bind. unfold yields in Hm. eapply wp_mono; [exact Hm|].
  intros [v|e] w1 [H1 Hv].
  - specialize (Hk v w1 H1 Hv). unfold triple in Hk. eapply wp_mono; [exact Hk|].
    intros r w2 [Hk2 Hd2]. split; [eauto with sv|]. destruct r; [done|].
    destruct Hd2 as [Hx Hd]. split; [|done]. intros Hq. apply Hx. by apply H1.
  - split; [auto with sv|]. by rewrite (same_disk _ _ H1).
Qed.

Lemma triple_bind_refuses {A B} (X : Prop) (m : M E A) (k : A → M E B) w
    (Qok : B → gmap path node → Prop) (Qerr : gmap path node → Prop) :
  refuses m w → X → Qerr (World.disk w) → triple X (bind m k) w Qok Qerr.
Proof. intros Hm HX HR. by apply triple_refuses; [apply refuses_bind_l|..]. Qed.
End yields.

Lemma yields_errmap {E F A : Type} (f : E → F) (m : M E A) (w : World.t) (P : A → Prop) :
  yields m w P → yields (errmap f m) w P.
Proof. intros Hm. unfold yields in *. apply wp_errmap. eapply wp_mono; [exact Hm|]. by intros []. Qed.

Lemma yields_getrandom `{OsLaws} n w :
  yields (getrandom n) w (λ b, length b = n ∧ Forall (λ x, (x < 256)%N) b).
Proof. apply wp_getrandom; auto. Qed.

Lemma reads_bind_yields {E A B : Type} (m : M E A) (k : A → M E B) (u : B) (w : World.t) (P : A → Prop) :
  yields m w P → (∀ v w', same w w' → P v → reads (k v) u w') → reads (bind m k) u w.
Proof.
  intros Hm Hk. apply wp_bind. unfold yields in Hm. eapply wp_mono; [exact Hm|].
  intros [v|e] w1 [H1 Hv].
  - eapply wp_mono; [apply reads_after; [exact H1|by apply Hk]|]. done.
  - split; [done|]. right. eauto.
Qed.

(** The outcome of removing a file that is there, without [?]. *)
Lemma triple_bind_remove {E B : Type} (X : Prop) (p : path) (n : node) (k : result unit io_error → M E B)
    (w : World.t) (Qok : B → gmap path node → Prop) (Qerr : gmap path node → Prop) :
  World.disk w !! p = Some n →
  (∀ w', keeps w w' → World.disk w' = delete p (World.disk w) → triple X (k (Ok tt)) w' Qok Qerr) →
  (∀ w' m, keeps w w' → World.disk w' = World.disk w ∨ World.disk w' = delete p (World.disk w) →
     triple True (k (Err (OtherIo m))) w' Qok Qerr) →
  triple X (bind (attempt (remove_file p)) k) w Qok Qerr.
Proof.
  intros Hp HD HF. apply wp_bind, wp_attempt. unfold wp, remove_file. rewrite Hp. unfold io_write.
  destruct (next_cases w) as (w1 & [H1 _] & _ & _ & [-> | (Hq & i & m & ->)]); cbn.
  - specialize (HD (World.with_disk w1 (delete p (World.disk w))) H1 eq_refl). unfold triple in HD.
    eapply wp_mono; [exact HD|]. intros r w2 [Hk2 Hd2]. split; [eauto with sv|].
    destruct r; [done|]. destruct Hd2 as [Hx HR]. split; [|done]. intros Hw. apply Hx. by apply H1.
  - specialize (HF (World.with_disk w1 (atomic (delete p) i (World.disk w))) m H1 (atomic_cases _ _ _)).
    unfold triple in HF. eapply wp_mono; [exact HF|]. intros r w2 [Hk2 Hd2]. split; [eauto with sv|].
    destruct r; [done|]. by destruct Hd2.
Qed.

(** Catching the outcome of an operation that reads, or that refuses. *)
Lemma triple_bind_attempt_reads {E F A B : Type} (X : Prop) (m : M F A) (v : A) (k : result A F → M E B)
    (w : World.t) (Qok : B → gmap path node → Prop) (Qerr : gmap path node → Prop) :
  reads m v w →
  (∀ w', same w w' → triple X (k (Ok v)) w' Qok Qerr) →
  (∀ w' e, same w w' → triple True (k (Err e)) w' Qok Qerr) →
  triple X (bind (attempt m) k) w Qok Qerr.
Proof.
  intros Hm HD HF. apply wp_bind, wp_attempt. eapply wp_reads; [exact Hm| |].
  - intros w1 H1. specialize (HD w1 H1). unfold triple in HD. eapply wp_mono; [exact HD|].
    intros r w2 [Hk2 Hd2]. split; [eauto with sv|]. destruct r; [done|]. destruct Hd2 as [Hx HR].
    split; [|done]. intros Hq. apply Hx. by apply H1.
  - intros w1 e H1 Hq. specialize (HF w1 e H1). unfold triple in HF. eapply wp_mono; [exact HF|].
    intros r w2 [Hk2 Hd2]. split; [eauto with sv|]. destruct r; [done|]. by destruct Hd2.
Qed.

Lemma triple_bind_attempt_refuses {E F A B : Type} (X : Prop) (m : M F A) (k : result A F → M E B)
    (w : World.t) (Qok : B → gmap path node → Prop) (Qerr : gmap path node → Prop) :
  refuses m w → (∀ w' e, same w w' → triple X (k (Err e)) w' Qok Qerr) →
  triple X (bind (attempt m) k) w Qok Qerr.
Proof.
  intros Hm HF. apply wp_bind, wp_attempt. eapply wp_refuses; [exact Hm|].
  intros w1 e H1. specialize (HF w1 e H1). unfold triple in HF. eapply wp_mono; [exact HF|].
  intros r w2 [Hk2 Hd2]. split; [eauto with sv|]. destruct r; [done|]. destruct Hd2 as [Hx HR].
  split; [|done]. intros Hq. apply Hx. by apply H1.
Qed.

Lemma triple_weaken {E A : Type} (X : Prop) (m : M E A) (w : World.t) (Q : A → gmap path node → Prop)
    (R : gmap path node → Prop) : triple False m w Q R → triple X m w Q R.
Proof. intros H. by eapply triple_mono. Qed.
