(* ===== verification/Crypto.v ===== *)
(** * sv-crypto/src/lib.rs: keys, sealing and signatures

    The ciphers, key derivation, hashes and base64 are other crates: the class [Prims]
    has one field per call of them, [PrimLaws] is what is relied on.  What this crate
    adds, the framing of a sealed buffer and the checks of lengths, is defined here. *)
From Stdlib Require Import ZifyN ZifyNat ZifyBool.
From stdpp Require Import pretty.
From S2P Require Import Prelude Fs.

Definition MASTER_KEY_LEN : nat := 32.
Definition NONCE_LEN : nat := 24.
Definition SALT_LEN : nat := 16.
Definition ED25519_SECRET_LEN : nat := 32.
Definition ED25519_PUBLIC_LEN : nat := 32.
Definition ED25519_SIGNATURE_LEN : nat := 64.

Module CryptoError.
Inductive t :=
| Aead (message : string)
| Kdf (message : string)
| Encoding (message : string)
| Random (message : string)
| SigningKey (message : string).
#[global] Instance t_eq_dec : EqDecision t.
Proof. solve_decision. Defined.
End CryptoError.

(** [MasterKey]: its 32 bytes. *)
Abbreviation MasterKey := (list N).
Definition key_wf (k : MasterKey) : Prop := length k = MASTER_KEY_LEN ∧ Forall (λ b, (b < 256)%N) k.

(** An error of another crate is its text. *)
Class Prims := {
  xchacha_encrypt : MasterKey → list N → list N → list N → result (list N) string;
  xchacha_decrypt : MasterKey → list N → list N → list N → result (list N) string;
  hkdf_expand : MasterKey → list N → list N;
  argon2id : list N → list N → result (list N) string;
  hmac_sha256 : list N → list N → list N;
  sha256 : list N → list N;
  dalek_public : list N → list N;
  dalek_sign : list N → list N → list N;
  dalek_point : list N → result (list N) string;
  dalek_verify : list N → list N → list N → bool;
  b64_encode : list N → string;
  b64_decode : string → result (list N) string
}.

(** What the code relies on: decryption inverts encryption under the same key, nonce
    and associated data, and encryption succeeds; outputs have their lengths; base64
    reads back what it writes; a signature verifies under the key's public half. *)
Class PrimLaws `{Prims} : Prop := {
  decrypt_encrypt k n m a : ∃ c, xchacha_encrypt k n m a = Ok c ∧ xchacha_decrypt k n c a = Ok m;
  hkdf_wf k c : key_wf (hkdf_expand k c);
  argon2id_ok p s : length s = SALT_LEN → ∃ k, argon2id p s = Ok k ∧ key_wf k;
  hmac_length k m : length (hmac_sha256 k m) = 32;
  hmac_bytes k m : Forall (λ b, (b < 256)%N) (hmac_sha256 k m);
  sha256_length m : length (sha256 m) = 32;
  sha256_bytes m : Forall (λ b, (b < 256)%N) (sha256 m);
  b64_round bytes : Forall (λ b, (b < 256)%N) bytes → b64_decode (b64_encode bytes) = Ok bytes;
  xchacha_bytes k n m a c : xchacha_encrypt k n m a = Ok c → Forall (λ b, (b < 256)%N) c;
  verify_sign seed m : length seed = ED25519_SECRET_LEN →
    length (dalek_public seed) = ED25519_PUBLIC_LEN ∧
    length (dalek_sign seed m) = ED25519_SIGNATURE_LEN ∧
    Forall (λ b, (b < 256)%N) (dalek_public seed) ∧ Forall (λ b, (b < 256)%N) (dalek_sign seed m) ∧
    ∃ pt, dalek_point (dalek_public seed) = Ok pt ∧ dalek_verify pt m (dalek_sign seed m) = true
}.

(** An idealisation of the cipher: a sealed buffer opens under one key only.  It is used for the
    lemmas on sealing the stores again, and in examples. *)
Class KeyCommitting `{Prims} : Prop := {
  key_committing k k' n c a m m' :
    xchacha_decrypt k n c a = Ok m → xchacha_decrypt k' n c a = Ok m' → k = k'
}.

Section crypto.
Context `{Os, Prims}.

(** ** Keys *)

(** [MasterKey::generate]. *)
Definition generate {E} : M E MasterKey := fill_bytes MASTER_KEY_LEN.

Definition from_passphrase (passphrase : string) (salt : list N) : result MasterKey CryptoError.t :=
  match argon2id (str_bytes passphrase) salt with
  | Ok k => Ok k
  | Err e => Err (CryptoError.Kdf e)
  end.

Definition derive_subkey (key : MasterKey) (context : list N) : list N := hkdf_expand key context.

Definition io_text (e : io_error) : string :=
  match e with
  | NotFound => "entity not found"
  | AlreadyExists => "entity already exists"
  | OtherIo m => m
  end.

Definition random_bytes (n : nat) : M CryptoError.t (list N) :=
  errmap (λ e, CryptoError.Random (io_text e)) (getrandom n).

Definition random_salt : M CryptoError.t (list N) :=
  errmap (λ e, CryptoError.Random (io_text e)) (getrandom SALT_LEN).

(** ** Sealed buffers *)

Definition seal (key : MasterKey) (plaintext aad : list N) : M CryptoError.t (list N) :=
  let! nonce := fill_bytes NONCE_LEN in
  match xchacha_encrypt key nonce plaintext aad with
  | Ok ct => ret (nonce ++ ct)
  | Err e => fail (CryptoError.Aead e)
  end.

Definition open (key : MasterKey) (sealed aad : list N) : result (list N) CryptoError.t :=
  if length sealed <? NONCE_LEN then
    Err (CryptoError.Encoding
           ("sealed buffer too short: " +:+ pretty (length sealed) +:+ " < " +:+ pretty NONCE_LEN))
  else
    match xchacha_decrypt key (take NONCE_LEN sealed) (drop NONCE_LEN sealed) aad with
    | Ok m => Ok m
    | Err e => Err (CryptoError.Aead e)
    end.

(** ** Ed25519 *)

Definition ed25519_generate : M CryptoError.t (list N * list N) :=
  let! seed := errmap (λ e, CryptoError.Random (io_text e)) (getrandom ED25519_SECRET_LEN) in
  ret (seed, dalek_public seed).

Definition ed25519_seed (secret : list N) : result (list N) CryptoError.t :=
  if length secret =? ED25519_SECRET_LEN then Ok secret
  else Err (CryptoError.SigningKey ("secret key len " +:+ pretty (length secret))).

Definition ed25519_public (secret : list N) : result (list N) CryptoError.t :=
  let? seed := ed25519_seed secret in Ok (dalek_public seed).

Definition ed25519_sign (secret msg : list N) : result (list N) CryptoError.t :=
  let? seed := ed25519_seed secret in Ok (dalek_sign seed msg).

Definition ed25519_verify (public msg signature : list N) : result bool CryptoError.t :=
  if negb (length public =? ED25519_PUBLIC_LEN) then
    Err (CryptoError.SigningKey ("public key len " +:+ pretty (length public)))
  else
    match dalek_point public with
    | Err e => Err (CryptoError.SigningKey e)
    | Ok verifying =>
        if negb (length signature =? ED25519_SIGNATURE_LEN) then Ok false
        else Ok (dalek_verify verifying msg signature)
    end.

(** ** Facts *)

Context `{!OsLaws, !PrimLaws}.

(** [sealed] is the result of sealing [m] under [key] and [aad] with some nonce. *)
Definition sealed_as (key m aad sealed : list N) : Prop :=
  open key sealed aad = Ok m ∧ Forall (λ b, (b < 256)%N) sealed.

Lemma wp_seal key m aad w (Q : result (list N) CryptoError.t → World.t → Prop) :
  (∀ sealed w', sealed_as key m aad sealed → same w w' → Q (Ok sealed) w') →
  wp (seal key m aad) w Q.
Proof.
  intros HQ. apply wp_bind, wp_fill_bytes. intros nonce w' Hlen Hb Hs.
  destruct (decrypt_encrypt key nonce m aad) as (c & He & Hd). rewrite He.
  apply HQ; [|done]. split.
  - unfold open. rewrite length_app, Hlen.
    destruct (NONCE_LEN + length c <? NONCE_LEN)%nat eqn:Hlt; [apply Nat.ltb_lt in Hlt; lia|].
    by rewrite <-Hlen, take_app_length, drop_app_length, Hd.
  - apply Forall_app. split; [done|]. by eapply xchacha_bytes.
Qed.

Lemma open_committing `{!KeyCommitting} k k' sealed aad m m' :
  open k sealed aad = Ok m → open k' sealed aad = Ok m' → k = k'.
Proof.
  unfold open. destruct (_ <? _)%nat; [done|]. intros Hm Hm'.
  destruct (xchacha_decrypt k _ _ _) eqn:E; [|done]. destruct (xchacha_decrypt k' _ _ _) eqn:E'; [|done].
  by eapply key_committing.
Qed.

Lemma yields_seal key m aad w : yields (seal key m aad) w (sealed_as key m aad).
Proof. apply wp_seal. auto. Qed.

Lemma yields_random n w : yields (random_bytes n) w (λ b, length b = n ∧ Forall (λ x, (x < 256)%N) b).
Proof. apply yields_errmap, yields_getrandom. Qed.

Lemma yields_salt w : yields random_salt w (λ b, length b = SALT_LEN ∧ Forall (λ x, (x < 256)%N) b).
Proof. apply yields_errmap, yields_getrandom. Qed.

Lemma from_passphrase_ok passphrase salt :
  length salt = SALT_LEN → ∃ k, from_passphrase passphrase salt = Ok k ∧ key_wf k.
Proof.
  intros Hs. unfold from_passphrase. destruct (argon2id_ok (str_bytes passphrase) salt Hs) as (k & -> & Hk).
  eauto.
Qed.

Lemma wp_generate {E} w (Q : result MasterKey E → World.t → Prop) :
  (∀ k w', key_wf k → same w w' → Q (Ok k) w') → wp generate w Q.
Proof. intros HQ. apply wp_fill_bytes. intros b w' Hl Hb Hs. by apply HQ. Qed.

Lemma yields_generate {E} w : yields (generate : M E MasterKey) w key_wf.
Proof. apply wp_generate. auto. Qed.

Lemma ed25519_sign_verify seed msg :
  length seed = ED25519_SECRET_LEN →
  ∃ sig, ed25519_sign seed msg = Ok sig ∧
    ed25519_verify (dalek_public seed) msg sig = Ok true.
Proof.
  intros Hl. destruct (verify_sign seed msg Hl) as (Hp & Hs & _ & _ & pt & Hpt & Hv).
  exists (dalek_sign seed msg). unfold ed25519_sign, ed25519_seed, ed25519_verify.
  rewrite Hl, Hp, Hpt, Hs. simpl. by rewrite Hv.
Qed.
End crypto.
