(* ===== verification/Storage.v ===== *)
(** * sv-storage/src/lib.rs: containers, files and the manifest

    A vault is a directory: [manifest.json] with the policy of each container under an
    HMAC tag, and one directory per container with one sealed envelope per file.  JSON
    and the parameters of [Crypto] and [Fs] come from outside.  Unix permissions are
    modelled; the branches for other systems are not. *)
From Stdlib Require Import ZifyN ZifyNat ZifyBool.
From stdpp Require Import pretty.
From S2P Require Import Prelude Text Fs Crypto.

Ltac Zify.zify_post_hook ::= Z.div_mod_to_equations.

Module StorageError.
Inductive t :=
| Io (e : io_error)
| Manifest (message : string)
| InvalidPath (message : string)
| State (message : string)
| Crypto (e : CryptoError.t)
| Serde (message : string).
#[global] Instance t_eq_dec : EqDecision t.
Proof. solve_decision. Defined.
End StorageError.

Definition FORMAT_VERSION : N := 1.
Definition KEY_VERSION : N := 1.
Definition FILE_SUFFIX : string := ".svault".
Definition MANIFEST_FILE : string := "manifest.json".
Definition MANIFEST_UPDATE_LOCK : string := ".manifest-update.lock".
Definition MANIFEST_AUTH_CONTEXT : list N := str_bytes "sv-manifest-auth-v1".
Definition MANIFEST_INTEGRITY_VERSION : N := 1.
Definition SCHEMA_VERSION : N := 1.

(** ** Modes and the manifest *)

Module SecurityMode.
Inductive t := Direct | Approval | Otp | Anonymized | Zkp | Native.
#[global] Instance t_eq_dec : EqDecision t.
Proof. solve_decision. Defined.

Definition as_str (m : t) : string :=
  match m with
  | Direct => "DIRECT" | Approval => "APPROVAL" | Otp => "OTP"
  | Anonymized => "ANONYMIZED" | Zkp => "ZKP" | Native => "NATIVE"
  end.

Definition parse (s : string) : result t StorageError.t :=
  let s := str_upper s in
  if decide (s = "DIRECT") then Ok Direct
  else if decide (s = "APPROVAL") then Ok Approval
  else if decide (s = "OTP") then Ok Otp
  else if decide (s = "ANONYMIZED") then Ok Anonymized
  else if decide (s = "ZKP") then Ok Zkp
  else if decide (s = "NATIVE") then Ok Native
  else Err (StorageError.Manifest ("unknown security mode: " +:+ s)).
End SecurityMode.

Module ManifestRule.
Record t := mk { pattern : string; mode : SecurityMode.t; description : option string }.
#[global] Instance t_eq_dec : EqDecision t.
Proof. solve_decision. Defined.
End ManifestRule.

Module ManifestIntegrity.
Record t := mk { version : N; hmac_sha256 : string }.
#[global] Instance t_eq_dec : EqDecision t.
Proof. solve_decision. Defined.
End ManifestIntegrity.

Module Manifest.
Record t := mk {
  schema_version : N;
  default_mode : SecurityMode.t;
  rules : list ManifestRule.t;
  integrity : option ManifestIntegrity.t
}.
#[global] Instance t_eq_dec : EqDecision t.
Proof. solve_decision. Defined.
Definition default : t := mk SCHEMA_VERSION SecurityMode.Direct [] None.
Definition with_rules (m : t) (l : list ManifestRule.t) : t :=
  mk (schema_version m) (default_mode m) l (integrity m).
Definition with_integrity (m : t) (i : option ManifestIntegrity.t) : t :=
  mk (schema_version m) (default_mode m) (rules m) i.
End Manifest.

Module ContainerInfo.
Record t := mk {
  name : string; mode : SecurityMode.t; file_count : nat; description : option string
}.
End ContainerInfo.

Module FileInfo.
Record t := mk { name : string; byte_size : N; modified_at : Z; mode : SecurityMode.t }.
End FileInfo.

(** The open handle; the root is implicit. *)
Module Vault.
Record t := mk {
  keys : gmap N MasterKey;
  active_version : N;
  manifest_auth_key : MasterKey
}.
End Vault.

(** [serde_json]: the pretty form that is stored, and the compact form that is
    authenticated. *)
Class ManifestJson := {
  manifest_pretty : Manifest.t → list N;
  manifest_compact : Manifest.t → list N;
  manifest_parse : list N → result Manifest.t string
}.

Class ManifestJsonLaws `{ManifestJson} : Prop := {
  manifest_parse_pretty m : manifest_parse (manifest_pretty m) = Ok m
}.

(** ** Names *)

Definition name_char (c : N) : bool := is_ascii_alphanumeric c || (c =? 45)%N || (c =? 95)%N.

Definition is_valid_container_name (name : string) : bool :=
  negb (bool_decide (name = "")) && (String.length name <=? 64) && forallb name_char (chars name).

Definition validate_container_name (name : string) : result unit StorageError.t :=
  if is_valid_container_name name then Ok tt
  else Err (StorageError.InvalidPath ("invalid container name: " +:+ debug_str name)).

Definition is_valid_file_name (name : string) : bool :=
  if bool_decide (name = "") || (128 <? String.length name) then false
  else if bool_decide (name = ".") || bool_decide (name = "..") then false
  else if str_infix ".." name then false
  else forallb (λ c, name_char c || (c =? 46)%N) (chars name).

Definition validate_file_name (name : string) : result unit StorageError.t :=
  if is_valid_file_name name then Ok tt
  else Err (StorageError.InvalidPath ("invalid file name: " +:+ debug_str name)).

Definition aad_for (container file_name : string) : string := container +:+ "/" +:+ file_name.

(** [to_str] and [to_string_lossy] of an entry's name. *)
Definition to_str (name : string) : option string :=
  if utf8_valid (str_bytes name) then Some name else None.
Definition to_string_lossy (name : string) : string := str_of_bytes (utf8_lossy (str_bytes name)).

(** ** Integers and hexadecimal *)

Definition to_be_bytes (v : N) : list N :=
  [v / 16777216; (v / 65536) mod 256; (v / 256) mod 256; v mod 256]%N.

Definition from_be_bytes (l : list N) : N := foldl (λ acc b, acc * 256 + b)%N 0%N l.

Definition hex_nibble (n : N) : N := if (n <? 10)%N then (48 + n)%N else (87 + n)%N.

Definition hex_encode (bytes : list N) : string :=
  str_of_bytes (concat ((λ b, [hex_nibble (b / 16); hex_nibble (b mod 16)]%N) <$> bytes)).

Definition is_ascii_hexdigit (c : N) : bool :=
  is_ascii_digit c || ((97 <=? c) && (c <=? 102))%N || ((65 <=? c) && (c <=? 70))%N.

Definition hex_digit_value (c : N) : N :=
  if is_ascii_digit c then (c - 48)%N
  else if (97 <=? c)%N then (c - 87)%N else (c - 55)%N.

(** Every byte is a hexadecimal digit by the time the pairs are read. *)
Fixpoint hex_pairs (l : list N) : list N :=
  match l with
  | a :: b :: rest => (hex_digit_value a * 16 + hex_digit_value b)%N :: hex_pairs rest
  | _ => []
  end.

Definition decode_hex_32 (encoded label : string) : result (list N) StorageError.t :=
  if negb (String.length encoded =? 64) || negb (forallb is_ascii_hexdigit (str_bytes encoded)) then
    Err (StorageError.Manifest (label +:+ " must be exactly 64 hexadecimal characters"))
  else Ok (hex_pairs (str_bytes encoded)).

Section storage.
Context `{Os, Prims, ManifestJson}.

Definition io {A} (m : M io_error A) : M StorageError.t A := errmap StorageError.Io m.

(** ** Directories and regular files *)

Definition ensure_directory_metadata (p : path) (metadata : node) (label : string) :
    result unit StorageError.t :=
  match metadata with
  | Directory => Ok tt
  | _ => Err (StorageError.State (label +:+ " is not a real directory: " +:+ show_path p))
  end.

Definition ensure_directory (p : path) (label : string) : M StorageError.t unit :=
  let! metadata := errmap (λ e, match e with
    | NotFound => StorageError.State (label +:+ " does not exist: " +:+ show_path p)
    | _ => StorageError.Io e end) (symlink_metadata p) in
  lift (ensure_directory_metadata p metadata label).

Definition ensure_regular_file_metadata (p : path) (metadata : node) (label : string) :
    result unit StorageError.t :=
  match metadata with
  | File _ => Ok tt
  | _ => Err (StorageError.State (label +:+ " is not a regular file: " +:+ show_path p))
  end.

Definition ensure_regular_file (p : path) (label : string) : M StorageError.t unit :=
  let! metadata := errmap (λ e, match e with
    | NotFound => StorageError.State (label +:+ " does not exist: " +:+ show_path p)
    | _ => StorageError.Io e end) (symlink_metadata p) in
  lift (ensure_regular_file_metadata p metadata label).

Definition ensure_destination_is_regular_or_missing (p : path) (label : string) :
    M StorageError.t unit :=
  let! metadata := attempt (symlink_metadata p) in
  match metadata with
  | Ok metadata => lift (ensure_regular_file_metadata p metadata label)
  | Err NotFound => ret tt
  | Err error => fail (StorageError.Io error)
  end.

Definition secure_directory_permissions (p : path) : M StorageError.t unit :=
  let! found := io (metadata_mode p) in
  let '(metadata, mode) := found in
  let! _ := lift (ensure_directory_metadata p metadata "permission target") in
  if negb (N.land mode 511 =? 448)%N then io (set_permissions p 448) else ret tt.

Definition secure_regular_file_permissions (p : path) : M StorageError.t unit :=
  let! found := io (metadata_mode p) in
  let '(metadata, mode) := found in
  let! _ := lift (ensure_regular_file_metadata p metadata "permission target") in
  if negb (N.land mode 511 =? 384)%N then io (set_permissions p 384) else ret tt.

Definition create_private_directory (p : path) : M StorageError.t unit :=
  let! _ := io (create_dir p) in
  secure_directory_permissions p.

(** The temporary file next to [p], the rename over it, and the sync of the directory. *)
Definition atomic_write (p : path) (bytes : list N) : M StorageError.t unit :=
  let! _ := ensure_directory (parent p) "destination parent" in
  let! _ := io write_temp in
  let! _ := io (replace_atomic p bytes) in
  io (sync_dir (parent p)).

(** [ManifestUpdateLock::acquire]; the guard is released when the operation ends. *)
Definition acquire_manifest_lock : M StorageError.t unit :=
  let! _ := ensure_directory [] "vault root" in
  let p := [MANIFEST_UPDATE_LOCK] in
  let! metadata := attempt (symlink_metadata p) in
  let! existed := match metadata with
    | Ok metadata =>
        let! _ := lift (ensure_regular_file_metadata p metadata "manifest update lock") in
        let! _ := secure_regular_file_permissions p in
        ret true
    | Err NotFound => ret false
    | Err error => fail (StorageError.Io error)
    end in
  let! _ := io (open_lock p) in
  let! metadata := io (symlink_metadata p) in
  let! _ := match metadata with
    | File _ => ret tt
    | _ => fail (StorageError.State ("manifest update lock is not a regular file: " +:+ show_path p))
    end in
  let! _ := if existed then ret tt else io (sync_dir []) in
  let! ours := io (try_lock p) in
  if ours then ret tt
  else fail (StorageError.State "another process is updating the vault manifest").

(** ** The manifest *)

Definition derive_manifest_auth_key (material : MasterKey) : MasterKey :=
  derive_subkey material MANIFEST_AUTH_CONTEXT.

Definition manifest_auth_bytes (manifest : Manifest.t) : list N :=
  manifest_compact (Manifest.with_integrity manifest None).

Definition manifest_hmac (key : MasterKey) (manifest : Manifest.t) : list N :=
  hmac_sha256 key (manifest_auth_bytes manifest).

Definition verify_manifest_integrity (manifest : Manifest.t) (key : MasterKey) :
    result unit StorageError.t :=
  let? integrity := ok_or (Manifest.integrity manifest) (StorageError.Manifest
    "manifest authentication is missing; explicit legacy migration is required") in
  if negb (ManifestIntegrity.version integrity =? MANIFEST_INTEGRITY_VERSION)%N then
    Err (StorageError.Manifest ("unsupported manifest integrity version: "
           +:+ pretty (ManifestIntegrity.version integrity)))
  else
    let? tag := decode_hex_32 (ManifestIntegrity.hmac_sha256 integrity) "manifest HMAC-SHA256" in
    if bool_decide (hmac_sha256 key (manifest_auth_bytes manifest) = tag) then Ok tt
    else Err (StorageError.Manifest "manifest authentication failed").

Definition read_manifest_unverified : M StorageError.t Manifest.t :=
  let! _ := ensure_directory [] "vault root" in
  let p := [MANIFEST_FILE] in
  let! _ := ensure_regular_file p "vault manifest" in
  let! _ := secure_regular_file_permissions p in
  let! raw := io (fs_read p) in
  let! manifest := lift (match manifest_parse raw with
                         | Ok m => Ok m | Err e => Err (StorageError.Serde e) end) in
  if negb (Manifest.schema_version manifest =? SCHEMA_VERSION)%N then
    fail (StorageError.Manifest ("unsupported manifest schema: "
            +:+ pretty (Manifest.schema_version manifest)))
  else ret manifest.

Definition read_manifest (key : MasterKey) : M StorageError.t Manifest.t :=
  let! manifest := read_manifest_unverified in
  let! _ := lift (verify_manifest_integrity manifest key) in
  ret manifest.

Definition authenticate_manifest (manifest : Manifest.t) (key : MasterKey) : Manifest.t :=
  let unsigned := Manifest.with_integrity manifest None in
  Manifest.with_integrity unsigned
    (Some (ManifestIntegrity.mk MANIFEST_INTEGRITY_VERSION (hex_encode (manifest_hmac key unsigned)))).

Definition write_manifest (manifest : Manifest.t) (key : MasterKey) : M StorageError.t unit :=
  let! _ := ensure_directory [] "vault root" in
  let p := [MANIFEST_FILE] in
  let! _ := ensure_destination_is_regular_or_missing p "vault manifest" in
  let! _ := atomic_write p (manifest_pretty (authenticate_manifest manifest key)) in
  secure_regular_file_permissions p.

Definition manifest_migration_digest : M StorageError.t string :=
  let! manifest := read_manifest_unverified in
  ret (hex_encode (sha256 (manifest_auth_bytes manifest))).

Definition migrate_legacy_manifest (key : MasterKey) (expected_sha256 : string) :
    M StorageError.t unit :=
  let! expected := lift (decode_hex_32 expected_sha256 "expected manifest SHA-256") in
  let! _ := acquire_manifest_lock in
  let! manifest := read_manifest_unverified in
  let actual := sha256 (manifest_auth_bytes manifest) in
  if negb (bool_decide (actual = expected)) then
    fail (StorageError.Manifest
            "legacy manifest changed after review; migration digest does not match")
  else
    match Manifest.integrity manifest with
    | Some _ => lift (verify_manifest_integrity manifest key)
    | None => write_manifest manifest key
    end.

(** The rule of each container: the last one with its pattern. *)
Definition container_rule_index (manifest : Manifest.t) : gmap string ManifestRule.t :=
  foldl (λ m rule, match strip_suffix "/**" (ManifestRule.pattern rule) with
                   | Some name => <[name := rule]> m
                   | None => m
                   end) ∅ (Manifest.rules manifest).

Definition mode_in (manifest : Manifest.t) (container : string) : SecurityMode.t :=
  match container_rule_index manifest !! container with
  | Some r => ManifestRule.mode r
  | None => Manifest.default_mode manifest
  end.

(** ** Opening *)

Definition is_svault (name : string) : bool := ends_with (to_string_lossy name) FILE_SUFFIX.

Definition harden_file (dir : path) (entry : string * node) : M StorageError.t unit :=
  if negb (is_svault entry.1) then ret tt
  else
    let p := dir ++ [entry.1] in
    let! metadata := io (symlink_metadata p) in
    let! _ := lift (ensure_regular_file_metadata p metadata "vault file") in
    secure_regular_file_permissions p.

Definition harden_container (entry : string * node) : M StorageError.t unit :=
  match to_str entry.1 with
  | None => ret tt
  | Some name =>
      if negb (is_valid_container_name name) then ret tt
      else
        let p := [name] in
        let! metadata := io (symlink_metadata p) in
        let! _ := lift (ensure_directory_metadata p metadata "container") in
        let! _ := secure_directory_permissions p in
        let! files := io (read_dir p) in
        for_each (harden_file p) files
  end.

Definition harden_existing_storage_permissions : M StorageError.t unit :=
  let! _ := secure_directory_permissions [] in
  let! _ := secure_regular_file_permissions [MANIFEST_FILE] in
  let lock := [MANIFEST_UPDATE_LOCK] in
  let! metadata := attempt (symlink_metadata lock) in
  let! _ := match metadata with
    | Ok metadata =>
        let! _ := lift (ensure_regular_file_metadata lock metadata "manifest update lock") in
        secure_regular_file_permissions lock
    | Err NotFound => ret tt
    | Err error => fail (StorageError.Io error)
    end in
  let! entries := io (read_dir []) in
  for_each harden_container entries.

Definition single_key_map (master : MasterKey) : gmap N MasterKey := {[KEY_VERSION := master]}.

(** [create_private_directory_all] of the vault root, whose parents are outside. *)
Definition create_private_root : M StorageError.t unit :=
  let! _ := io (io_write (<[[] := Directory]>) (atomic (<[[] := Directory]>))) in
  secure_directory_permissions [].

Definition open_or_init_with_manifest_key (master manifest_auth_key : MasterKey) :
    M StorageError.t Vault.t :=
  let! metadata := attempt (symlink_metadata []) in
  let! _ := match metadata with
    | Ok metadata => lift (ensure_directory_metadata [] metadata "vault root")
    | Err NotFound =>
        let! _ := create_private_root in
        ensure_directory [] "vault root"
    | Err error => fail (StorageError.Io error)
    end in
  let! _ := secure_directory_permissions [] in
  let p := [MANIFEST_FILE] in
  let! metadata := attempt (symlink_metadata p) in
  let! _ := match metadata with
    | Ok metadata =>
        let! _ := lift (ensure_regular_file_metadata p metadata "vault manifest") in
        let! _ := secure_regular_file_permissions p in
        let! _ := read_manifest manifest_auth_key in
        ret tt
    | Err NotFound => write_manifest Manifest.default manifest_auth_key
    | Err error => fail (StorageError.Io error)
    end in
  let! _ := harden_existing_storage_permissions in
  ret (Vault.mk (single_key_map master) KEY_VERSION manifest_auth_key).

Definition open_or_init (master : MasterKey) : M StorageError.t Vault.t :=
  open_or_init_with_manifest_key master (derive_manifest_auth_key master).

Definition ACTIVE_MISSING (active_version : N) : StorageError.t :=
  StorageError.State ("active key version " +:+ pretty active_version +:+ " not present in key map").

Definition open_existing_with_keys_and_manifest_key (keys : gmap N MasterKey) (active_version : N)
    (manifest_auth_key : MasterKey) : M StorageError.t Vault.t :=
  let! _ := ensure_directory [] "vault root" in
  let! _ := secure_directory_permissions [] in
  let p := [MANIFEST_FILE] in
  let! _ := ensure_regular_file p "vault manifest" in
  let! _ := secure_regular_file_permissions p in
  if bool_decide (keys !! active_version = None) then fail (ACTIVE_MISSING active_version)
  else
    let! _ := read_manifest manifest_auth_key in
    let! _ := harden_existing_storage_permissions in
    ret (Vault.mk keys active_version manifest_auth_key).

Definition open_existing (master : MasterKey) : M StorageError.t Vault.t :=
  open_existing_with_keys_and_manifest_key (single_key_map master) KEY_VERSION
    (derive_manifest_auth_key master).

(** [BTreeMap::first_key_value]: the entry with the least version. *)
Definition first_key_value (keys : gmap N MasterKey) : option (N * MasterKey) :=
  head (sort_by (λ a b, (a.1 <=? b.1)%N) (map_to_list keys)).

Definition open_existing_with_keys (keys : gmap N MasterKey) (active_version : N) :
    M StorageError.t Vault.t :=
  if bool_decide (keys !! active_version = None) then fail (ACTIVE_MISSING active_version)
  else
    match first_key_value keys with
    | None => fail (StorageError.State ("active key version " +:+ pretty active_version
                      +:+ " not present in empty key map"))
    | Some (_, key) =>
        open_existing_with_keys_and_manifest_key keys active_version (derive_manifest_auth_key key)
    end.

(** ** Containers *)

Definition container_mode (v : Vault.t) (container : string) : M StorageError.t SecurityMode.t :=
  let! _ := lift (validate_container_name container) in
  let! _ := ensure_directory [container] "container" in
  let! manifest := read_manifest (Vault.manifest_auth_key v) in
  ret (mode_in manifest container).

Definition count_files (dir : path) : M StorageError.t nat :=
  let! entries := io (read_dir dir) in
  ret (length (List.filter (λ e, match e.2 with File _ => is_svault e.1 | _ => false end) entries)).

Definition container_info (manifest : Manifest.t) (entry : string * node) :
    M StorageError.t (option ContainerInfo.t) :=
  match entry.2 with
  | Directory =>
      let name := to_string_lossy entry.1 in
      if negb (is_valid_container_name name) then ret None
      else
        let '(mode, description) :=
          match container_rule_index manifest !! name with
          | Some r => (ManifestRule.mode r, ManifestRule.description r)
          | None => (Manifest.default_mode manifest, None)
          end in
        let! file_count := count_files [entry.1] in
        ret (Some (ContainerInfo.mk name mode file_count description))
  | _ => ret None
  end.

Definition list_containers (v : Vault.t) : M StorageError.t (list ContainerInfo.t) :=
  let! manifest := read_manifest (Vault.manifest_auth_key v) in
  let! entries := io (read_dir []) in
  let! out := map_each (container_info manifest) entries in
  ret (sort_by (λ a b, String.leb (ContainerInfo.name a) (ContainerInfo.name b)) (omap id out)).

Definition container_pattern (name : string) : string := name +:+ "/**".

Definition without_rule (name : string) (rules : list ManifestRule.t) : list ManifestRule.t :=
  List.filter (λ r, negb (bool_decide (ManifestRule.pattern r = container_pattern name))) rules.

(** Policy is committed before the container is visible. *)
Definition create_container (v : Vault.t) (name : string) (mode : SecurityMode.t)
    (description : option string) : M StorageError.t unit :=
  let! _ := lift (validate_container_name name) in
  let! _ := acquire_manifest_lock in
  let p := [name] in
  let! metadata := attempt (symlink_metadata p) in
  let! _ := match metadata with
    | Ok _ => fail (StorageError.State ("container already exists: " +:+ name))
    | Err NotFound => ret tt
    | Err error => fail (StorageError.Io error)
    end in
  let! manifest := read_manifest (Vault.manifest_auth_key v) in
  let rules := without_rule name (Manifest.rules manifest)
                 ++ [ManifestRule.mk (container_pattern name) mode description] in
  let! _ := write_manifest (Manifest.with_rules manifest rules) (Vault.manifest_auth_key v) in
  let! _ := create_private_directory p in
  io (sync_dir []).

Definition delete_container (v : Vault.t) (name : string) : M StorageError.t unit :=
  let! _ := lift (validate_container_name name) in
  let! _ := acquire_manifest_lock in
  let p := [name] in
  let! metadata := attempt (symlink_metadata p) in
  let! _ := match metadata with
    | Ok metadata =>
        let! _ := lift (ensure_directory_metadata p metadata "container") in
        let! _ := io (remove_dir_all p) in
        io (sync_dir [])
    | Err NotFound => ret tt
    | Err error => fail (StorageError.Io error)
    end in
  let! manifest := read_manifest (Vault.manifest_auth_key v) in
  write_manifest (Manifest.with_rules manifest (without_rule name (Manifest.rules manifest)))
    (Vault.manifest_auth_key v).

(** ** Files *)

Definition file_path (container file_name : string) : path := [container; file_name +:+ FILE_SUFFIX].

Definition list_files (v : Vault.t) (container : string) : M StorageError.t (list FileInfo.t) :=
  let! _ := lift (validate_container_name container) in
  let! _ := ensure_directory [container] "container" in
  let! mode := container_mode v container in
  let! entries := io (read_dir [container]) in
  λ w,
    let out := omap (λ e : string * node,
      match e.2 with
      | File bytes =>
          match strip_suffix FILE_SUFFIX (to_string_lossy e.1) with
          | Some stem =>
              Some (FileInfo.mk stem (N.of_nat (length bytes))
                      (modified (World.disk w) [container; e.1]) mode)
          | None => None
          end
      | _ => None
      end) entries in
    (w, Ok (sort_by (λ a b, String.leb (FileInfo.name a) (FileInfo.name b)) out)).

Definition envelope (version : N) (sealed : list N) : list N :=
  FORMAT_VERSION :: to_be_bytes version ++ sealed.

Definition write_file (v : Vault.t) (container file_name : string) (plaintext : list N) :
    M StorageError.t unit :=
  let! _ := lift (validate_container_name container) in
  let! _ := lift (validate_file_name file_name) in
  let! _ := ensure_directory [container] "container" in
  let final_path := file_path container file_name in
  let! _ := ensure_destination_is_regular_or_missing final_path "vault file" in
  let! active_key := lift (ok_or (Vault.keys v !! Vault.active_version v)
    (StorageError.State ("active key version " +:+ pretty (Vault.active_version v)
                         +:+ " not present"))) in
  let! sealed := errmap StorageError.Crypto
    (seal active_key plaintext (str_bytes (aad_for container file_name))) in
  let! _ := atomic_write final_path (envelope (Vault.active_version v) sealed) in
  secure_regular_file_permissions final_path.

(** What [read_file] makes of an envelope. *)
Definition open_envelope (v : Vault.t) (container file_name : string) (raw : list N) :
    result (list N) StorageError.t :=
  if (length raw <? 5)%nat then Err (StorageError.State "envelope too short")
  else
    let format_version := default 0%N (head raw) in
    if negb (format_version =? FORMAT_VERSION)%N then
      Err (StorageError.State ("unsupported format_version: " +:+ pretty format_version))
    else
      let key_version := from_be_bytes (take 4 (drop 1 raw)) in
      let? key := ok_or (Vault.keys v !! key_version)
        (StorageError.State ("no key available for key_version " +:+ pretty key_version)) in
      match open key (drop 5 raw) (str_bytes (aad_for container file_name)) with
      | Ok pt => Ok pt
      | Err e => Err (StorageError.Crypto e)
      end.

Definition read_file (v : Vault.t) (container file_name : string) : M StorageError.t (list N) :=
  let! _ := lift (validate_container_name container) in
  let! _ := lift (validate_file_name file_name) in
  let p := file_path container file_name in
  let! _ := ensure_directory [container] "container" in
  let! _ := ensure_regular_file p "vault file" in
  let! raw := io (fs_read p) in
  lift (open_envelope v container file_name raw).

Definition delete_file (v : Vault.t) (container file_name : string) : M StorageError.t unit :=
  let! _ := lift (validate_container_name container) in
  let! _ := lift (validate_file_name file_name) in
  let p := file_path container file_name in
  let! _ := ensure_directory [container] "container" in
  let! metadata := attempt (symlink_metadata p) in
  match metadata with
  | Ok metadata =>
      let! _ := lift (ensure_regular_file_metadata p metadata "vault file") in
      let! _ := io (remove_file p) in
      io (sync_dir [container])
  | Err NotFound => ret tt
  | Err error => fail (StorageError.Io error)
  end.

(** [derive_subkey] of the active key; [expect] holds after opening. *)
Definition vault_derive_subkey (v : Vault.t) (context : list N) : option (list N) :=
  (λ k, derive_subkey k context) <$> (Vault.keys v !! Vault.active_version v).

Definition rewrap_file (v : Vault.t) (container file_name : string) : M StorageError.t bool :=
  let! _ := lift (validate_container_name container) in
  let! _ := lift (validate_file_name file_name) in
  let! raw := io (fs_read (file_path container file_name)) in
  if (5 <=? length raw)%nat && (from_be_bytes (take 4 (drop 1 raw)) =? Vault.active_version v)%N
  then ret false
  else
    let! plaintext := read_file v container file_name in
    let! _ := write_file v container file_name plaintext in
    ret true.

(** ** Legacy vaults *)

Definition check_legacy_file (candidate : MasterKey) (container logical_name : string)
    (p : path) : M StorageError.t unit :=
  let! _ := lift (validate_file_name logical_name) in
  let! metadata := io (symlink_metadata p) in
  let! _ := lift (ensure_regular_file_metadata p metadata "legacy vault file") in
  let! raw := io (fs_read p) in
  if (length raw <? 5)%nat then fail (StorageError.State "legacy envelope too short")
  else if negb (default 0%N (head raw) =? FORMAT_VERSION)%N then
    fail (StorageError.State ("unsupported legacy format_version: "
            +:+ pretty (default 0%N (head raw))))
  else if negb (from_be_bytes (take 4 (drop 1 raw)) =? KEY_VERSION)%N then
    fail (StorageError.State "legacy vault file does not use key version 1")
  else
    match open candidate (drop 5 raw) (str_bytes (aad_for container logical_name)) with
    | Ok _ => ret tt
    | Err e => fail (StorageError.Crypto e)
    end.

(** The loops return at the first envelope: [true] means that one was checked. *)
Fixpoint legacy_files (candidate : MasterKey) (container : string)
    (files : list (string * node)) : M StorageError.t bool :=
  match files with
  | [] => ret false
  | (file_name, _) :: rest =>
      match to_str file_name with
      | None => legacy_files candidate container rest
      | Some name =>
          match strip_suffix FILE_SUFFIX name with
          | None => legacy_files candidate container rest
          | Some logical_name =>
              let! _ := check_legacy_file candidate container logical_name [container; file_name] in
              ret true
          end
      end
  end.

Fixpoint legacy_containers (candidate : MasterKey) (entries : list (string * node)) :
    M StorageError.t unit :=
  match entries with
  | [] => ret tt
  | (name, _) :: rest =>
      match to_str name with
      | None => legacy_containers candidate rest
      | Some container =>
          if negb (is_valid_container_name container) then legacy_containers candidate rest
          else
            let p := [container] in
            let! metadata := io (symlink_metadata p) in
            let! _ := lift (ensure_directory_metadata p metadata "legacy container") in
            let! files := io (read_dir p) in
            let! checked := legacy_files candidate container files in
            if checked then ret tt else legacy_containers candidate rest
      end
  end.

Definition validate_legacy_vault_key (candidate : MasterKey) : M StorageError.t unit :=
  let! _ := read_manifest_unverified in
  let! entries := io (read_dir []) in
  legacy_containers candidate entries.

End storage.
