(* ===== verification/StorageSpec.v ===== *)
(** * Storage: what the operations of a vault guarantee under faults

    [VaultDisk] is a disk with an authenticated manifest.  The specifications say what
    each operation of [Storage] leaves on disk, whether or not a fault interrupts it; the
    theorems follow from them. *)
From Stdlib Require Import ZifyN ZifyNat ZifyBool.
From S2P Require Import Prelude Text Fs Crypto Storage.

Ltac Zify.zify_post_hook ::= Z.div_mod_to_equations.

(** ** Encodings *)

Lemma hex_digit_value_nibble n : (n < 16 → hex_digit_value (hex_nibble n) = n)%N.
Proof.
  intros Hn. unfold hex_digit_value, hex_nibble, is_ascii_digit.
  destruct (n <? 10)%N eqn:E;
    repeat match goal with |- context [if ?b then _ else _] => destruct b eqn:? end; lia.
Qed.

Lemma hex_nibble_digit n : (n < 16 → is_ascii_hexdigit (hex_nibble n) = true ∧ hex_nibble n < 256)%N.
Proof. intros Hn. unfold is_ascii_hexdigit, hex_nibble, is_ascii_digit. destruct (n <? 10)%N eqn:E; lia. Qed.

Lemma hex_encode_bytes bytes :
  Forall (λ b, (b < 256)%N) bytes →
  str_bytes (hex_encode bytes) = concat ((λ b, [hex_nibble (b / 16); hex_nibble (b mod 16)]%N) <$> bytes).
Proof.
  intros Hb. apply str_bytes_of_bytes. induction Hb as [|b l Hb _ IH]; cbn; [constructor|].
  constructor; [apply hex_nibble_digit; lia|]. constructor; [apply hex_nibble_digit; lia|]. exact IH.
Qed.

(** Round trip of the tags of manifests. *)
Lemma decode_hex_encode bytes label :
  length bytes = 32 → Forall (λ b, (b < 256)%N) bytes → decode_hex_32 (hex_encode bytes) label = Ok bytes.
Proof.
  intros Hlen Hb. unfold decode_hex_32. rewrite <-length_str_bytes, hex_encode_bytes by done.
  assert (length (concat ((λ b, [hex_nibble (b / 16); hex_nibble (b mod 16)]%N) <$> bytes)) = 64) as ->.
  { transitivity (2 * length bytes); [|lia]. clear. induction bytes as [|b l IH]; cbn; [done|].
    rewrite IH. lia. }
  replace (forallb _ _) with true.
  2: { symmetry. clear Hlen. induction Hb as [|b l Hb _ IH]; [done|]. cbn.
       destruct (hex_nibble_digit (b / 16)) as [-> _]; [lia|].
       destruct (hex_nibble_digit (b mod 16)) as [-> _]; [lia|]. cbn [andb]. exact IH. }
  cbn. f_equal. clear Hlen. induction Hb as [|b l Hb _ IH]; [done|]. cbn.
  rewrite IH, !hex_digit_value_nibble by lia. f_equal. lia.
Qed.

Lemma be_bytes_round v : (v < 4294967296)%N → from_be_bytes (to_be_bytes v) = v.
Proof. intros Hv. unfold from_be_bytes, to_be_bytes. cbn [foldl]. lia. Qed.

(** ** Names *)

Lemma name_char_ascii c : name_char c = true → (c < 128)%N.
Proof. unfold name_char, is_ascii_alphanumeric, is_ascii_alphabetic, is_ascii_uppercase,
  is_ascii_lowercase, is_ascii_digit. lia. Qed.

(** *** ASCII in valid UTF-8 *)

Lemma chars_go_valid c l : utf8_valid l = true → chars_go (Some c) l = c :: chars_go None l.
Proof.
  destruct l as [|b l]; [done|]. cbn [utf8_valid chars_go]. unfold is_continuation.
  destruct (b <? 128)%N eqn:E1; [intros _; replace (128 <=? b)%N with false by lia; done|].
  destruct ((128 <=? b) && (b <? 192))%N eqn:E2; [|done].
  replace ((194 <=? b) && (b <? 224))%N with false by lia.
  replace ((224 <=? b) && (b <? 240))%N with false by lia.
  replace ((240 <=? b) && (b <? 245))%N with false by lia. done.
Qed.

Lemma second_byte_continuation b c : second_byte_ok b c = true → is_continuation c = true.
Proof.
  unfold second_byte_ok, is_continuation.
  repeat match goal with |- context [if ?x then _ else _] => destruct x end; lia.
Qed.

Lemma chars_valid_ascii (P : N → bool) l :
  (∀ c, P c = true → (c < 128)%N) → utf8_valid l = true → forallb P (chars_go None l) = true →
  Forall (λ b, (b < 128)%N ∧ P b = true) l.
Proof.
  intros HP. remember (length l) as n eqn:Hn. revert l Hn.
  induction n as [n IH] using lt_wf_ind. intros [|b l] ->; [done|]. cbn [utf8_valid].
  assert (∀ k, length k < length (b :: l) → utf8_valid k = true → forallb P (chars_go None k) = true →
    Forall (λ b, (b < 128)%N ∧ P b = true) k) as IH' by eauto.
  unfold lead_bits in *. cbn [chars_go].
  destruct (b <? 128)%N eqn:E1.
  - intros Hv. unfold is_continuation at 1. replace (128 <=? b)%N with false by lia.
    cbn [andb option_list app]. unfold lead_bits. rewrite E1, chars_go_valid by done. cbn [forallb].
    intros [Hb Hl]%andb_true_iff. constructor; [split; [lia|done]|]. apply IH'; [simpl; lia|done..].
  - intros Hv Hp. exfalso. revert Hp. unfold is_continuation at 1.
    destruct ((128 <=? b) && (b <? 192))%N eqn:E2.
    { replace ((194 <=? b) && (b <? 224))%N with false in Hv by lia.
      replace ((224 <=? b) && (b <? 240))%N with false in Hv by lia.
      replace ((240 <=? b) && (b <? 245))%N with false in Hv by lia. done. }
    cbn [option_list app]. unfold lead_bits. rewrite E1.
    assert (∀ c k, (128 ≤ c)%N → utf8_valid k = true → forallb P (chars_go (Some c) k) = true → False) as Hbig.
    { intros c k Hc Hk. rewrite chars_go_valid by done. cbn [forallb]. intros [Hpc _]%andb_true_iff.
      apply HP in Hpc. lia. }
    destruct ((194 <=? b) && (b <? 224))%N eqn:E3.
    + destruct l as [|c l]; [done|]. apply andb_true_iff in Hv as [Hc Hl].
      replace (b <? 224)%N with true by lia. cbn [chars_go]. rewrite Hc. cbn [default].
      apply Hbig; [|done]. change 31%N with (N.ones 5). change 63%N with (N.ones 6).
      rewrite !N.land_ones. unfold is_continuation in Hc. cbn. lia.
    + destruct ((224 <=? b) && (b <? 240))%N eqn:E4.
      * destruct l as [|c [|d l]]; [done..|].
        apply andb_true_iff in Hv as [[Hc Hd]%andb_true_iff Hl].
        replace (b <? 224)%N with false by lia. replace (b <? 240)%N with true by lia.
        cbn [chars_go]. rewrite (second_byte_continuation b c) by done. rewrite Hd. cbn [default].
        apply Hbig; [|done]. change 15%N with (N.ones 4). change 63%N with (N.ones 6).
        rewrite !N.land_ones. unfold second_byte_ok, is_continuation in *. cbn.
        destruct (b =? 224)%N eqn:E5; [|clear Hc]; lia.
      * destruct ((240 <=? b) && (b <? 245))%N eqn:E5; [|done].
        destruct l as [|c [|d [|e l]]]; [done..|].
        apply andb_true_iff in Hv as [[[Hc Hd]%andb_true_iff He]%andb_true_iff Hl].
        replace (b <? 224)%N with false by lia. replace (b <? 240)%N with false by lia.
        cbn [chars_go]. rewrite (second_byte_continuation b c) by done. rewrite Hd, He. cbn [default].
        apply Hbig; [|done]. change 7%N with (N.ones 3). change 63%N with (N.ones 6).
        rewrite !N.land_ones. unfold second_byte_ok, is_continuation in *. cbn.
        replace (b =? 224)%N with false in Hc by lia. replace (b =? 237)%N with false in Hc by lia.
        destruct (b =? 240)%N eqn:E6; [|clear Hc]; lia.
Qed.

Lemma str_contains_bytes c s :
  Forall (λ b, b ≠ Ascii.N_of_ascii c) (str_bytes s) → str_contains c s = false.
Proof.
  induction s as [|a s IH]; cbn; [done|]. intros Hf. apply Forall_cons in Hf as [Ha Hs].
  rewrite IH by done. rewrite bool_decide_eq_false_2 by congruence. done.
Qed.

Lemma valid_container_bytes name :
  utf8_valid (str_bytes name) = true → is_valid_container_name name = true →
  Forall (λ b, (b < 128)%N ∧ name_char b = true) (str_bytes name).
Proof.
  unfold is_valid_container_name. rewrite !andb_true_iff. intros Hv [_ Hc].
  apply chars_valid_ascii; [apply name_char_ascii|done..].
Qed.

Lemma valid_container_no name c :
  utf8_valid (str_bytes name) = true → is_valid_container_name name = true →
  name_char (Ascii.N_of_ascii c) = false → str_contains c name = false.
Proof.
  intros Hv Hc Hn. apply str_contains_bytes. eapply Forall_impl; [by apply valid_container_bytes|].
  cbn. intros b [_ Hb] ->. congruence.
Qed.

Lemma split_at c a b a' b' :
  str_contains c a = false → str_contains c a' = false →
  a +:+ String c b = a' +:+ String c b' → a = a' ∧ b = b'.
Proof.
  revert a'. induction a as [|x a IH]; intros [|y a'] Ha Ha'; cbn in Ha, Ha' |- *.
  - intros [= ->]. done.
  - change ("" +:+ String c b) with (String c b).
    change (String y a' +:+ String c b') with (String y (a' +:+ String c b')).
    intros [= <- _]. rewrite bool_decide_eq_true_2 in Ha' by done. done.
  - change (String x a +:+ String c b) with (String x (a +:+ String c b)).
    change ("" +:+ String c b') with (String c b').
    intros [= -> _]. rewrite bool_decide_eq_true_2 in Ha by done. done.
  - change (String x a +:+ String c b) with (String x (a +:+ String c b)).
    change (String y a' +:+ String c b') with (String y (a' +:+ String c b')).
    intros [= -> E]. apply orb_false_iff in Ha as [_ Ha], Ha' as [_ Ha'].
    destruct (IH a' Ha Ha' E) as [-> ->]. done.
Qed.

(** The associated data of a file names its container and its name. *)
Lemma aad_for_inj c f c' f' :
  utf8_valid (str_bytes c) = true → utf8_valid (str_bytes c') = true →
  is_valid_container_name c = true → is_valid_container_name c' = true →
  aad_for c f = aad_for c' f' → c = c' ∧ f = f'.
Proof.
  intros ????. apply split_at; by apply valid_container_no.
Qed.

Lemma mode_parse_as_str m s :
  str_upper s = SecurityMode.as_str m → SecurityMode.parse s = Ok m.
Proof. intros Hs. unfold SecurityMode.parse. rewrite Hs. by destruct m. Qed.

(** ** Rules *)

Lemma rule_index_fold l (acc : gmap string ManifestRule.t) name :
  foldl (λ m rule, match strip_suffix "/**" (ManifestRule.pattern rule) with
                   | Some n => <[n := rule]> m | None => m end) acc l !! name =
  match last (List.filter (λ r, bool_decide (ManifestRule.pattern r = container_pattern name)) l) with
  | Some r => Some r
  | None => acc !! name
  end.
Proof.
  revert acc. induction l as [|r l IH]; intros acc; [done|]. cbn [foldl List.filter]. rewrite IH.
  case_bool_decide as Hp.
  - rewrite last_cons. destruct (last _); [done|]. rewrite Hp. unfold container_pattern.
    rewrite strip_suffix_app. by rewrite lookup_insert, decide_True.
  - destruct (last _); [done|]. destruct (strip_suffix "/**" (ManifestRule.pattern r)) as [n|] eqn:Hs; [|done].
    rewrite lookup_insert_ne; [done|]. intros ->. apply Hp.
    assert (ends_with (ManifestRule.pattern r) "/**" = true) as [q Hq]%ends_with_spec.
    { unfold ends_with. by rewrite Hs. }
    rewrite Hq in Hs. rewrite strip_suffix_app in Hs. injection Hs as ->. done.
Qed.

Lemma rule_index_lookup m name :
  container_rule_index m !! name =
  last (List.filter (λ r, bool_decide (ManifestRule.pattern r = container_pattern name)) (Manifest.rules m)).
Proof. unfold container_rule_index. rewrite rule_index_fold, lookup_empty. by destruct (last _). Qed.

Lemma container_pattern_inj a b : container_pattern a = container_pattern b → a = b.
Proof.
  intros E. apply (f_equal (strip_suffix "/**")) in E. unfold container_pattern in E.
  rewrite !strip_suffix_app in E. by injection E.
Qed.

Lemma filter_without name other rules :
  List.filter (λ r, bool_decide (ManifestRule.pattern r = container_pattern other)) (without_rule name rules)
  = if decide (name = other) then [] else
    List.filter (λ r, bool_decide (ManifestRule.pattern r = container_pattern other)) rules.
Proof.
  unfold without_rule. induction rules as [|r l IH]; cbn; [by case_decide|].
  case_bool_decide as Hn; cbn; rewrite IH; case_decide as Hd.
  - done.
  - rewrite bool_decide_eq_false_2; [done|]. rewrite Hn. by intros ?%container_pattern_inj.
  - rewrite bool_decide_eq_false_2; [done|]. by subst.
  - done.
Qed.

(** What adding a rule for [name] does to the modes. *)
Lemma mode_in_add m name mode desc other :
  mode_in (Manifest.with_rules m (without_rule name (Manifest.rules m)
             ++ [ManifestRule.mk (container_pattern name) mode desc])) other
  = if decide (name = other) then mode else mode_in m other.
Proof.
  unfold mode_in. rewrite !rule_index_lookup. cbn [Manifest.with_rules Manifest.rules Manifest.default_mode].
  rewrite List.filter_app, filter_without. cbn [List.filter ManifestRule.pattern].
  case_decide as Hd.
  - subst. rewrite bool_decide_eq_true_2 by done. done.
  - rewrite bool_decide_eq_false_2 by (by intros ?%container_pattern_inj). by rewrite app_nil_r.
Qed.

Lemma mode_in_remove m name other :
  name ≠ other →
  mode_in (Manifest.with_rules m (without_rule name (Manifest.rules m))) other = mode_in m other.
Proof.
  intros Hn. unfold mode_in. rewrite !rule_index_lookup. cbn [Manifest.with_rules Manifest.rules Manifest.default_mode].
  rewrite filter_without. by rewrite decide_False.
Qed.

Section spec.
Context `{OS : Os} `{OSL : !OsLaws} `{PR : Prims} `{PRL : !PrimLaws}.
Context `{MJ : ManifestJson} `{MJL : !ManifestJsonLaws}.
Implicit Types (w : World.t) (d : gmap path node).

Lemma reads_io_lift {A} (m : M io_error A) v w : reads m v w → reads (io m) v w.
Proof. apply reads_errmap. Qed.

Lemma reads_ensure_directory p label w :
  World.disk w !! p = Some Directory → reads (ensure_directory p label) tt w.
Proof.
  intros Hd. eapply reads_bind; [by apply reads_errmap, reads_metadata|]. intros w' Hs. by apply reads_lift.
Qed.

Lemma reads_ensure_regular p label bytes w :
  World.disk w !! p = Some (File bytes) → reads (ensure_regular_file p label) tt w.
Proof.
  intros Hd. eapply reads_bind; [by apply reads_errmap, reads_metadata|]. intros w' Hs. by apply reads_lift.
Qed.

Lemma refuses_ensure_directory p label w :
  World.disk w !! p ≠ Some Directory → refuses (ensure_directory p label) w.
Proof.
  intros Hd. unfold ensure_directory. destruct (World.disk w !! p) as [[]|] eqn:E; try done;
    try (eapply refuses_bind; [by apply reads_errmap, reads_metadata|]; intros; by apply refuses_fail).
  apply refuses_bind_l, refuses_errmap. eapply refuses_io. unfold metadata_of. by rewrite E.
Qed.

Lemma reads_metadata_mode p n w :
  World.disk w !! p = Some n → ∃ mode, reads (metadata_mode p) (n, mode) w.
Proof.
  intros Hd. exists (mode_of w p). unfold reads, wp, metadata_mode.
  pose proof (reads_metadata p n w Hd) as Hr. unfold reads, wp in Hr.
  destruct (symlink_metadata p w) as [w' [n'|e]]; cbn in *; destruct Hr as [Hs [[= ->]|[Hq [e' [=]]]]];
    split; eauto.
Qed.

Lemma reads_secure_directory p w :
  World.disk w !! p = Some Directory → reads (secure_directory_permissions p) tt w.
Proof.
  intros Hd. destruct (reads_metadata_mode p _ w Hd) as [mode Hm].
  eapply reads_bind; [by apply reads_io_lift|]. intros w1 H1. cbn beta iota.
  eapply reads_bind; [by apply reads_lift|]. intros w2 H2.
  destruct (negb _); [apply reads_io_lift, reads_set_permissions|apply reads_ret].
Qed.

Lemma reads_secure_file p bytes w :
  World.disk w !! p = Some (File bytes) → reads (secure_regular_file_permissions p) tt w.
Proof.
  intros Hd. destruct (reads_metadata_mode p _ w Hd) as [mode Hm].
  eapply reads_bind; [by apply reads_io_lift|]. intros w1 H1. cbn beta iota.
  eapply reads_bind; [by apply reads_lift|]. intros w2 H2.
  destruct (negb _); [apply reads_io_lift, reads_set_permissions|apply reads_ret].
Qed.

(** ** A vault on disk *)

Definition regular_or_missing (d : gmap path node) (p : path) : Prop :=
  ∀ n, d !! p = Some n → ∃ bytes, n = File bytes.

Record VaultDisk (d : gmap path node) (key : MasterKey) (m : Manifest.t) : Prop := {
  vd_root : d !! [] = Some Directory;
  vd_manifest : ∃ raw, d !! [MANIFEST_FILE] = Some (File raw) ∧ manifest_parse raw = Ok m;
  vd_schema : Manifest.schema_version m = SCHEMA_VERSION;
  vd_auth : verify_manifest_integrity m key = Ok tt;
  vd_lock : regular_or_missing d [MANIFEST_UPDATE_LOCK]
}.

Lemma reads_manifest_unverified key m w :
  VaultDisk (World.disk w) key m → reads read_manifest_unverified m w.
Proof.
  intros Hv. destruct (vd_manifest _ _ _ Hv) as (raw & Hraw & Hparse).
  eapply reads_bind; [apply reads_ensure_directory, Hv|]. intros w1 H1. rewrite <-(same_disk _ _ H1) in Hraw.
  eapply reads_bind; [by eapply reads_ensure_regular|]. intros w2 H2. rewrite <-(same_disk _ _ H2) in Hraw.
  eapply reads_bind; [by eapply reads_secure_file|]. intros w3 H3. rewrite <-(same_disk _ _ H3) in Hraw.
  eapply reads_bind; [by apply reads_io_lift, reads_fs_read|]. intros w4 H4.
  eapply reads_bind; [apply reads_lift; by rewrite Hparse|]. intros w5 H5.
  rewrite (vd_schema _ _ _ Hv). apply reads_ret.
Qed.

Lemma reads_manifest key m w :
  VaultDisk (World.disk w) key m → reads (read_manifest key) m w.
Proof.
  intros Hv. eapply reads_bind; [by eapply reads_manifest_unverified|]. intros w1 H1.
  eapply reads_bind; [apply reads_lift, Hv|]. intros w2 H2. apply reads_ret.
Qed.

Lemma verify_authenticate m key : verify_manifest_integrity (authenticate_manifest m key) key = Ok tt.
Proof.
  unfold verify_manifest_integrity, authenticate_manifest. cbn.
  rewrite decode_hex_encode; [|apply hmac_length|apply hmac_bytes]. cbn.
  rewrite bool_decide_eq_true_2; [done|]. reflexivity.
Qed.

Lemma mode_in_authenticate m key name : mode_in (authenticate_manifest m key) name = mode_in m name.
Proof. reflexivity. Qed.

(** The disk after a manifest has been written. *)
Definition put_manifest (m : Manifest.t) (key : MasterKey) (d : gmap path node) : gmap path node :=
  put [MANIFEST_FILE] (manifest_pretty (authenticate_manifest m key)) d.

Lemma put_manifest_vault d key m m' :
  VaultDisk d key m → Manifest.schema_version m' = SCHEMA_VERSION →
  VaultDisk (put_manifest m' key d) key (authenticate_manifest m' key).
Proof.
  intros Hv Hs. unfold put_manifest, put. split.
  - rewrite lookup_insert_ne by done. apply Hv.
  - eexists. rewrite lookup_insert, decide_True by done. split; [done|]. apply manifest_parse_pretty.
  - exact Hs.
  - apply verify_authenticate.
  - intros n. rewrite lookup_insert_ne by done. apply Hv.
Qed.

(** ** Writing *)

Lemma destination_spec p label w :
  regular_or_missing (World.disk w) p →
  triple False (ensure_destination_is_regular_or_missing p label) w
    (λ _ d, d = World.disk w) (λ d, d = World.disk w).
Proof.
  intros Hreg. apply triple_bind_metadata; unfold metadata_of.
  - intros w' Hs. destruct (World.disk w !! p) as [n|] eqn:Hn.
    + destruct (Hreg n Hn) as [bytes ->]. apply triple_ret. auto with sv.
    + apply triple_ret. auto with sv.
  - intros w' m Hs. apply triple_fail; auto with sv.
Qed.

Definition old_or_put p bytes d d' : Prop := d' = d ∨ d' = put p bytes d.

Lemma atomic_write_spec p bytes w :
  World.disk w !! parent p = Some Directory →
  triple False (atomic_write p bytes) w
    (λ _ d, d = put p bytes (World.disk w)) (old_or_put p bytes (World.disk w)).
Proof.
  intros Hp. eapply triple_bind_reads; [by apply reads_ensure_directory| |by left]. intros w1 H1.
  rewrite <-(same_disk _ _ H1).
  eapply triple_bind_reads; [apply reads_io_lift, reads_temp| |by left]. intros w2 H2.
  rewrite <-(same_disk _ _ H2).
  apply triple_bind, triple_errmap, triple_atomic; [|by left|by right].
  intros w3 H3 Hd3. eapply triple_reads; [apply reads_io_lift, reads_sync|by rewrite Hd3|].
  rewrite Hd3. by right.
Qed.

(** [atomic_write] followed by setting the permissions of the file. *)
Lemma atomic_write_secure_spec p bytes w :
  World.disk w !! parent p = Some Directory →
  triple False (let! _ := atomic_write p bytes in secure_regular_file_permissions p) w
    (λ _ d, d = put p bytes (World.disk w)) (old_or_put p bytes (World.disk w)).
Proof.
  intros Hp. eapply triple_then; [by apply atomic_write_spec|done|]. cbn beta. intros _ w1 H1 Hd1.
  eapply triple_reads; [eapply reads_secure_file|done|by right].
  rewrite Hd1. unfold put. by rewrite lookup_insert, decide_True.
Qed.

Lemma write_manifest_spec m key w :
  World.disk w !! [] = Some Directory → regular_or_missing (World.disk w) [MANIFEST_FILE] →
  triple False (write_manifest m key) w
    (λ _ d, d = put_manifest m key (World.disk w))
    (λ d, d = World.disk w ∨ d = put_manifest m key (World.disk w)).
Proof.
  intros Hroot Hreg. eapply triple_bind_reads; [by apply reads_ensure_directory| |by left].
  intros w1 H1. rewrite <-(same_disk _ _ H1) in *.
  eapply triple_then; [by apply destination_spec|by left|].
  cbn. intros _ w2 H2 Hd2. rewrite <-Hd2 in *. by apply atomic_write_secure_spec.
Qed.

(** The lock file may appear. *)
Definition touch_lock (d : gmap path node) : gmap path node :=
  match d !! [MANIFEST_UPDATE_LOCK] with None => put [MANIFEST_UPDATE_LOCK] [] d | Some _ => d end.

Definition touched d d' : Prop := d' = d ∨ d' = touch_lock d.

Lemma touched_lookup d d' p : touched d d' → p ≠ [MANIFEST_UPDATE_LOCK] → d' !! p = d !! p.
Proof.
  intros [-> | ->] Hp; [done|]. unfold touch_lock, put.
  destruct (d !! [MANIFEST_UPDATE_LOCK]); [done|]. by rewrite lookup_insert_ne.
Qed.

Lemma touched_lock d d' : touched d d' → regular_or_missing d [MANIFEST_UPDATE_LOCK] →
  regular_or_missing d' [MANIFEST_UPDATE_LOCK].
Proof.
  intros [-> | ->] Hr; [done|]. unfold touch_lock, put.
  destruct (d !! [MANIFEST_UPDATE_LOCK]) eqn:E; [done|]. intros n.
  rewrite lookup_insert, decide_True by done. intros [= <-]. eauto.
Qed.

Lemma touched_vault d d' key m : touched d d' → VaultDisk d key m → VaultDisk d' key m.
Proof.
  intros Ht Hv. destruct Hv. split; try done; try (by rewrite (touched_lookup d d') by done).
  by eapply touched_lock.
Qed.

Lemma acquire_lock_spec w :
  World.disk w !! [] = Some Directory → regular_or_missing (World.disk w) [MANIFEST_UPDATE_LOCK] →
  triple ([MANIFEST_UPDATE_LOCK] ∈ World.held w) acquire_manifest_lock w
    (λ _ d, touched (World.disk w) d) (touched (World.disk w)).
Proof.
  intros Hroot Hreg. set (p := [MANIFEST_UPDATE_LOCK]) in *.
  unfold acquire_manifest_lock. fold p.
  eapply triple_bind_reads; [by apply reads_ensure_directory| |by left]. intros w1 H1.
  assert (World.held w1 = World.held w) as Hh1 by apply H1. rewrite <-Hh1. rewrite <-(same_disk _ _ H1) in *.
  apply triple_bind_metadata; unfold metadata_of.
  2: { intros w2 m H2. apply triple_bind, triple_fail; [done|]. left. auto with sv. }
  intros w2 H2. assert (World.held w2 = World.held w1) as Hh2 by apply H2. rewrite <-Hh2.
  rewrite <-(same_disk _ _ H2) in *.
  assert (∃ existed : bool, reads (E := StorageError.t) (match
    match World.disk w2 !! p with Some n => Ok n | None => Err NotFound end with
    | Ok metadata =>
        let! _ := lift (ensure_regular_file_metadata p metadata "manifest update lock") in
        let! _ := secure_regular_file_permissions p in ret true
    | Err NotFound => ret false
    | Err error => fail (StorageError.Io error) end) existed w2) as [existed Hex].
  { destruct (World.disk w2 !! p) as [n|] eqn:Hn; [|exists false; apply reads_ret].
    destruct (Hreg n Hn) as [b ->]. exists true. eapply reads_bind; [by apply reads_lift|]. intros w3 H3.
    eapply reads_bind; [eapply reads_secure_file|intros; apply reads_ret]. by rewrite (same_disk _ _ H3). }
  eapply triple_bind_reads; [exact Hex| |by left]. clear Hex. intros w3 H3.
  assert (World.held w3 = World.held w2) as Hh3 by apply H3. rewrite <-Hh3. rewrite <-(same_disk _ _ H3) in *.
  apply triple_bind, triple_errmap, triple_atomic; [|by left|by right].
  intros w4 H4 Hd4. fold (touch_lock (World.disk w3)) in Hd4.
  assert (touched (World.disk w3) (World.disk w4)) as Ht by (by right).
  assert (World.held w4 = World.held w3) as Hh4 by apply H4. rewrite <-Hh4.
  assert (∃ b, World.disk w4 !! p = Some (File b)) as [b Hb].
  { rewrite Hd4. destruct (World.disk w3 !! p) as [n|] eqn:Hn.
    - destruct (Hreg n Hn) as [b ->]. eauto.
    - exists []. unfold put. by rewrite lookup_insert, decide_True. }
  eapply triple_bind_reads; [by apply reads_io_lift, reads_metadata| |done]. intros w5 H5. cbn beta iota.
  eapply triple_bind_reads; [apply reads_ret| |by rewrite (same_disk _ _ H5)]. intros w6 H6.
  assert (same w4 w6) as H46 by eauto with sv.
  eapply (triple_bind_reads _ _ _ tt).
  { destruct existed; [apply reads_ret|apply reads_io_lift, reads_sync]. }
  2: { by rewrite (same_disk _ _ H46). }
  intros w7 H7. assert (same w4 w7) as H47 by eauto with sv.
  assert (World.held w7 = World.held w4) as Hh7 by apply H47. rewrite <-Hh7. rewrite <-(same_disk _ _ H47) in *.
  apply triple_bind, triple_errmap, triple_try_lock; [|done].
  intros w8 H8 Hd8. case_bool_decide as Hh; cbn [negb].
  - apply triple_fail; [done|]. by rewrite Hd8.
  - apply triple_ret. by rewrite Hd8.
Qed.

(** ** Containers *)

Lemma valid_not_reserved name :
  is_valid_container_name name = true →
  name ≠ MANIFEST_FILE ∧ name ≠ MANIFEST_UPDATE_LOCK.
Proof. split; intros ->; by vm_compute in H. Qed.

Definition with_container (m : Manifest.t) (name : string) (mode : SecurityMode.t)
    (desc : option string) : Manifest.t :=
  Manifest.with_rules m (without_rule name (Manifest.rules m)
    ++ [ManifestRule.mk (container_pattern name) mode desc]).

(** The states between which [create_container] moves: nothing, the policy written,
    the container there. *)
Definition create_stages key m name mode desc d d' : Prop :=
  ∃ d0, touched d d0 ∧
    (d' = d0 ∨ d' = put_manifest (with_container m name mode desc) key d0
     ∨ d' = <[[name] := Directory]> (put_manifest (with_container m name mode desc) key d0)).

Lemma manifest_regular d key m : VaultDisk d key m → regular_or_missing d [MANIFEST_FILE].
Proof. intros Hv n Hn. destruct (vd_manifest _ _ _ Hv) as (raw & Hr & _). rewrite Hr in Hn. naive_solver. Qed.

Lemma create_dir_spec p w :
  World.disk w !! p = None →
  triple False (create_private_directory p) w
    (λ _ d, d = <[p := Directory]> (World.disk w))
    (λ d, d = World.disk w ∨ d = <[p := Directory]> (World.disk w)).
Proof.
  intros Hp. apply triple_bind, triple_errmap, triple_create_dir; [done| |by left|by right].
  intros w1 H1 Hd1. eapply triple_reads; [apply reads_secure_directory|done|by right].
  rewrite Hd1. by rewrite lookup_insert, decide_True.
Qed.

Lemma create_container_spec v m name mode desc w :
  VaultDisk (World.disk w) (Vault.manifest_auth_key v) m →
  is_valid_container_name name = true → World.disk w !! [name] = None →
  triple ([MANIFEST_UPDATE_LOCK] ∈ World.held w) (create_container v name mode desc) w
    (λ _ d, ∃ d0, touched (World.disk w) d0 ∧
       d = <[[name] := Directory]>
             (put_manifest (with_container m name mode desc) (Vault.manifest_auth_key v) d0))
    (create_stages (Vault.manifest_auth_key v) m name mode desc (World.disk w)).
Proof.
  intros Hv Hname Hnone. set (key := Vault.manifest_auth_key v) in *.
  destruct (valid_not_reserved name Hname) as [Hnm Hnl].
  assert (create_stages key m name mode desc (World.disk w) (World.disk w)) as Hrefl.
  { exists (World.disk w). split; [by left|by left]. }
  unfold create_container. fold key.
  eapply triple_bind_reads; [apply reads_lift; unfold validate_container_name; by rewrite Hname| |done].
  intros w1 H1. assert (World.held w1 = World.held w) as Hh1 by apply H1.
  rewrite <-Hh1. rewrite <-(same_disk _ _ H1) in *.
  eapply triple_then; [apply acquire_lock_spec; apply Hv| |].
  { intros d Ht. exists d. split; [done|by left]. }
  cbn beta. intros _ w2 H2 Ht. assert (World.disk w2 !! [name] = None) as Hn2.
  { rewrite (touched_lookup _ _ _ Ht); [done|]. congruence. }
  apply (touched_vault _ _ _ _ Ht) in Hv as Hv2.
  assert (create_stages key m name mode desc (World.disk w1) (World.disk w2)) as Hst2.
  { exists (World.disk w2). split; [done|by left]. }
  apply triple_bind_metadata.
  2: { intros w3 e H3. apply triple_bind, triple_fail; [done|]. by rewrite (same_disk _ _ H3). }
  intros w3 H3. unfold metadata_of. rewrite Hn2. rewrite <-(same_disk _ _ H3) in *.
  eapply triple_bind_reads; [apply reads_ret| |done]. intros w4 H4. rewrite <-(same_disk _ _ H4) in *.
  eapply triple_bind_reads; [by apply reads_manifest| |done]. intros w5 H5. rewrite <-(same_disk _ _ H5) in *.
  fold (with_container m name mode desc).
  eapply triple_mono with (X := False); [|done|exact (λ _ _ x, x)|exact (λ _ x, x)].
  eapply triple_then; [apply write_manifest_spec; [apply Hv2|by eapply manifest_regular]| |].
  { intros d [-> | ->]; [done|]. exists (World.disk w5). split; [done|]. right. by left. }
  cbn beta. intros _ w6 H6 Hd6.
  eapply triple_then; [apply create_dir_spec| |].
  { rewrite Hd6. unfold put_manifest, put. rewrite lookup_insert_ne; [done|]. congruence. }
  { intros d Hd. exists (World.disk w5). split; [done|]. rewrite Hd6 in Hd. tauto. }
  cbn beta. intros _ w7 H7 Hd7. rewrite Hd6 in Hd7.
  eapply triple_reads; [apply reads_io_lift, reads_sync|eauto|].
  exists (World.disk w5). split; [done|]. tauto.
Qed.

(** *** The readers change no file *)

Lemma readonly_ensure_directory p l : readonly (ensure_directory p l).
Proof. unfold ensure_directory. readonly. Qed.
Lemma readonly_ensure_regular p l : readonly (ensure_regular_file p l).
Proof. unfold ensure_regular_file. readonly. Qed.
Lemma readonly_destination p l : readonly (ensure_destination_is_regular_or_missing p l).
Proof. unfold ensure_destination_is_regular_or_missing. readonly. Qed.
Lemma readonly_secure_directory p : readonly (secure_directory_permissions p).
Proof. unfold secure_directory_permissions, io. readonly. Qed.
Lemma readonly_secure_file p : readonly (secure_regular_file_permissions p).
Proof. unfold secure_regular_file_permissions, io. readonly. Qed.
#[local] Hint Resolve readonly_ensure_directory readonly_ensure_regular readonly_destination
  readonly_secure_directory readonly_secure_file : readonly.

Lemma readonly_manifest_unverified : readonly read_manifest_unverified.
Proof. unfold read_manifest_unverified, io, fs_read. readonly. Qed.
#[local] Hint Resolve readonly_manifest_unverified : readonly.
Lemma readonly_manifest key : readonly (read_manifest key).
Proof. unfold read_manifest. readonly. Qed.
#[local] Hint Resolve readonly_manifest : readonly.

Lemma readonly_read_file v c f : readonly (read_file v c f).
Proof. unfold read_file, io, fs_read. readonly. Qed.
#[local] Hint Resolve readonly_read_file : readonly.

Lemma readonly_seal k m a : readonly (seal k m a).
Proof. unfold seal. readonly. Qed.
#[local] Hint Resolve readonly_seal : readonly.

(** *** Every outcome of writing, rewrapping and deleting a file *)

Definition file_changed p d d' : Prop := d' = d ∨ (∃ b, d' = put p b d) ∨ d' = delete p d.

Lemma atomic_write_any p bytes w :
  triple True (atomic_write p bytes) w (λ _ d, d = put p bytes (World.disk w))
    (old_or_put p bytes (World.disk w)).
Proof.
  apply triple_bind_readonly; [readonly| |by left]. intros _ w1 H1. rewrite <-(same_disk _ _ H1).
  apply triple_bind_readonly; [unfold io, write_temp; readonly| |by left].
  intros _ w2 H2. rewrite <-(same_disk _ _ H2).
  apply triple_bind, triple_errmap, triple_atomic; [|by left|by right].
  intros w3 H3 Hd3. apply triple_readonly; [unfold io, sync_dir; readonly| |]; rewrite Hd3; [done|by right].
Qed.

(** Passes a read-only step; the disk is the same after it. *)
Ltac ro_step :=
  apply triple_bind_readonly; [unfold io, fs_read, sync_dir, write_temp; readonly| |
    first [by left|done]];
  let w' := fresh "w" in let Hs := fresh "Hs" in
  intros ? w' Hs; rewrite <-?(same_disk _ _ Hs); clear Hs.

Lemma write_file_any v c f pt w :
  triple True (write_file v c f pt) w (λ _ d, file_changed (file_path c f) (World.disk w) d)
    (file_changed (file_path c f) (World.disk w)).
Proof.
  unfold write_file. do 6 ro_step.
  eapply triple_then; [apply atomic_write_any| |].
  { intros d [-> | ->]; [by left|]. right. left. eauto. }
  cbn beta. intros _ w6 H6 Hd6. apply triple_readonly; [readonly| |]; rewrite Hd6; right; left; eauto.
Qed.

Lemma rewrap_file_any v c f w :
  triple True (rewrap_file v c f) w (λ _ d, file_changed (file_path c f) (World.disk w) d)
    (file_changed (file_path c f) (World.disk w)).
Proof.
  unfold rewrap_file. do 3 ro_step. destruct (_ && _); [apply triple_ret; by left|]. ro_step.
  eapply triple_then; [apply write_file_any|done|]. cbn beta. intros _ w5 H5 Hd5. by apply triple_ret.
Qed.

Lemma delete_file_any v c f w :
  triple True (delete_file v c f) w (λ _ d, file_changed (file_path c f) (World.disk w) d)
    (file_changed (file_path c f) (World.disk w)).
Proof.
  unfold delete_file. do 4 ro_step. destruct v3 as [n|[]].
  - ro_step. apply triple_bind, triple_errmap.
    destruct (World.disk w4 !! file_path c f) as [n'|] eqn:Hn.
    + eapply triple_remove_file; [exact Hn| |by left|right; by right].
      intros w5 H5 Hd5. apply triple_readonly; [unfold io, sync_dir; readonly| |]; rewrite Hd5; right; by right.
    + apply (triple_ext _ _ (fail NotFound)); [unfold remove_file; by rewrite Hn|].
      apply triple_fail; [done|by left].
  - apply triple_ret. by left.
  - apply triple_fail; [done|by left].
  - apply triple_fail; [done|by left].
Qed.

(** ** Deleting a container *)

(** Paths below [dir] may be gone; everything else is as it was. *)
Definition pruned dir d d' : Prop :=
  (∀ p, below dir p = false → d' !! p = d !! p) ∧ (∀ p, d' !! p = None ∨ d' !! p = d !! p).

Lemma drop_paths_lookup l d p :
  drop_paths l d !! p = if decide (p ∈ l) then None else d !! p.
Proof.
  induction l as [|q l IH]; cbn; [done|]. destruct (decide (p = q)) as [->|Hne].
  - rewrite lookup_delete, decide_True by done. rewrite decide_True; [done|]. by left.
  - rewrite lookup_delete_ne by done. change (foldr delete d l) with (drop_paths l d). rewrite IH.
    destruct (decide (p ∈ l)) as [Hin|Hout].
    + rewrite decide_True; [done|]. by right.
    + rewrite decide_False; [done|]. by intros [?|?]%elem_of_cons.
Qed.

Lemma elem_of_tree_paths dir d p :
  p ∈ tree_paths dir d ↔ below dir p = true ∧ p ≠ dir ∧ is_Some (d !! p).
Proof.
  unfold tree_paths. rewrite list_elem_of_In, filter_In, <-list_elem_of_In, andb_true_iff,
    negb_true_iff, bool_decide_eq_false, list_elem_of_fmap. split.
  - intros [([q n] & -> & Hq%elem_of_map_to_list) [? ?]]. eauto.
  - intros (? & ? & n & Hn). split; [|done]. exists (p, n). split; [done|]. by apply elem_of_map_to_list.
Qed.

Lemma pruned_drop dir l d : l ⊆ tree_paths dir d → pruned dir d (drop_paths l d).
Proof.
  intros Hl. split; intros p; rewrite drop_paths_lookup; case_decide as Hin; try tauto.
  intros Hb. apply Hl, elem_of_tree_paths in Hin as [Ht _]. congruence.
Qed.

Lemma removed_lookup dir d p :
  delete dir (drop_paths (tree_paths dir d) d) !! p = if below dir p then None else d !! p.
Proof.
  destruct (decide (p = dir)) as [->|Hne].
  - rewrite lookup_delete, decide_True by done. unfold below. by rewrite bool_decide_eq_true_2.
  - rewrite lookup_delete_ne, drop_paths_lookup by done. destruct (below dir p) eqn:Hb.
    + case_decide as Hin; [done|]. destruct (d !! p) eqn:Hp; [|done].
      exfalso. apply Hin, elem_of_tree_paths. eauto.
    + case_decide as Hin; [|done]. apply elem_of_tree_paths in Hin as [Ht _]. congruence.
Qed.

Lemma remove_dir_all_spec p w :
  triple False (remove_dir_all p) w
    (λ _ d, d = delete p (drop_paths (tree_paths p (World.disk w)) (World.disk w)))
    (pruned p (World.disk w)).
Proof.
  unfold remove_dir_all. apply wp_io_write.
  - intros w' Hk Hd. done.
  - intros w' n e Hk Hq Hd. split; [done|]. split; [done|]. rewrite Hd. apply pruned_drop.
    intros q Hq'. by apply elem_of_take in Hq' as (? & Hi & _); eapply list_elem_of_lookup_2.
Qed.

Definition without_container (m : Manifest.t) (name : string) : Manifest.t :=
  Manifest.with_rules m (without_rule name (Manifest.rules m)).

(** The rule goes only after the whole container is gone. *)
Definition deleted key m (name : string) d d' : Prop :=
  ∃ d0 d1, touched d d0 ∧ pruned [name] d0 d1 ∧ d1 !! [name] = None ∧
    d' = put_manifest (without_container m name) key d1.

Definition delete_stages key m (name : string) d d' : Prop :=
  (∃ d0, touched d d0 ∧ pruned [name] d0 d') ∨ deleted key m name d d'.

Lemma pruned_refl dir d : pruned dir d d.
Proof. split; auto. Qed.

Lemma below_single (name : string) p : below [name] p = true ↔ ∃ rest, p = name :: rest.
Proof.
  unfold below. rewrite bool_decide_eq_true. split.
  - intros [rest ->]. eauto.
  - intros [rest ->]. by exists rest.
Qed.

Lemma pruned_vault key m (name : string) d d' :
  is_valid_container_name name = true → pruned [name] d d' → VaultDisk d key m → VaultDisk d' key m.
Proof.
  intros Hname [Hp _] Hv. destruct (valid_not_reserved name Hname) as [Hnm Hnl].
  assert (∀ q, q = [] ∨ q = [MANIFEST_FILE] ∨ q = [MANIFEST_UPDATE_LOCK] → d' !! q = d !! q) as Heq.
  { intros q Hq. apply Hp. apply not_true_iff_false. rewrite below_single. intros [rest ->]. naive_solver. }
  destruct Hv. split; try done; rewrite ?Heq by tauto; try done. unfold regular_or_missing. rewrite Heq by tauto. done.
Qed.

Lemma delete_container_spec v m (name : string) w :
  VaultDisk (World.disk w) (Vault.manifest_auth_key v) m →
  is_valid_container_name name = true →
  World.disk w !! [name] = None ∨ World.disk w !! [name] = Some Directory →
  triple ([MANIFEST_UPDATE_LOCK] ∈ World.held w) (delete_container v name) w
    (λ _ d, deleted (Vault.manifest_auth_key v) m name (World.disk w) d)
    (delete_stages (Vault.manifest_auth_key v) m name (World.disk w)).
Proof.
  intros Hv Hname Hdir. set (key := Vault.manifest_auth_key v) in *.
  destruct (valid_not_reserved name Hname) as [Hnm Hnl].
  assert (∀ d0, touched (World.disk w) d0 → delete_stages key m name (World.disk w) d0) as Hst.
  { intros d0 Ht. left. exists d0. split; [done|apply pruned_refl]. }
  unfold delete_container. fold key.
  eapply triple_bind_reads; [apply reads_lift; unfold validate_container_name; by rewrite Hname| |apply Hst; by left].
  intros w1 H1. assert (World.held w1 = World.held w) as Hh1 by apply H1. rewrite <-Hh1.
  rewrite <-(same_disk _ _ H1) in *.
  eapply triple_then; [apply acquire_lock_spec; apply Hv|done|].
  cbn beta. intros _ w2 H2 Ht. rewrite <-(touched_lookup _ _ _ Ht) in Hdir by congruence.
  apply (touched_vault _ _ _ _ Ht) in Hv as Hv2. clear Hv.
  eapply triple_mono with (X := False); [|done|exact (λ _ _ x, x)|exact (λ _ x, x)].
  apply triple_bind_metadata.
  2: { intros w3 e H3. apply triple_bind, triple_fail; [done|]. rewrite (same_disk _ _ H3). by apply Hst. }
  intros w3 H3. unfold metadata_of. rewrite <-(same_disk _ _ H3) in *.
  apply triple_then with (Q := λ _ d, pruned [name] (World.disk w3) d ∧ d !! [name] = None)
    (R := pruned [name] (World.disk w3)).
  - destruct Hdir as [Hd|Hd]; rewrite Hd.
    + apply triple_ret. split; [apply pruned_refl|done].
    + eapply triple_bind_reads; [by apply reads_lift| |apply pruned_refl].
      intros w4 H4. rewrite <-(same_disk _ _ H4) in *.
      eapply triple_then; [apply triple_errmap, remove_dir_all_spec|done|].
      cbn beta. intros _ w5 H5 Hd5.
      assert (pruned [name] (World.disk w4) (World.disk w5) ∧ World.disk w5 !! [name] = None) as Hpr.
      { rewrite Hd5. split; [split; intros p; rewrite removed_lookup|rewrite removed_lookup].
        - by intros ->.
        - destruct (below [name] p); auto.
        - unfold below. by rewrite bool_decide_eq_true_2. }
      eapply triple_reads; [apply reads_io_lift, reads_sync|done|apply Hpr].
  - intros d Hp. left. exists (World.disk w3). done.
  - cbn beta. intros _ w4 H4 [Hp Hnone].
    pose proof (pruned_vault _ _ _ _ _ Hname Hp Hv2) as Hv4.
    eapply triple_bind_reads; [by apply reads_manifest| |left; by exists (World.disk w3)].
    intros w5 H5. rewrite <-(same_disk _ _ H5) in *. fold (without_container m name).
    eapply triple_mono; [apply write_manifest_spec; [apply Hv4|by eapply manifest_regular]|done| |].
    + intros _ d ->. exists (World.disk w3), (World.disk w5). done.
    + intros d [-> | ->]; [left; by exists (World.disk w3)|]. right.
      exists (World.disk w3), (World.disk w5). done.
Qed.

Lemma create_taken v name mode desc n w :
  World.disk w !! [] = Some Directory → regular_or_missing (World.disk w) [MANIFEST_UPDATE_LOCK] →
  is_valid_container_name name = true → World.disk w !! [name] = Some n →
  triple True (create_container v name mode desc) w (λ _ _, False) (touched (World.disk w)).
Proof.
  intros Hroot Hlock Hname Hn. destruct (valid_not_reserved name Hname) as [_ Hnl]. unfold create_container.
  eapply triple_bind_reads; [apply reads_lift; unfold validate_container_name; by rewrite Hname| |by left].
  intros w1 H1. rewrite <-(same_disk _ _ H1) in *.
  eapply triple_then; [eapply triple_mono; [by apply acquire_lock_spec|done|exact (λ _ _ x, x)|exact (λ _ x, x)]|done|].
  cbn beta. intros _ w2 H2 Ht. rewrite <-(touched_lookup _ _ _ Ht) in Hn by congruence.
  apply triple_bind_metadata; [unfold metadata_of; rewrite Hn|]; intros w3 H3; [|intros H3'];
    apply triple_bind, triple_fail; try done; by rewrite (same_disk w2 w3) by done.
Qed.

Lemma delete_not_directory v name n w :
  World.disk w !! [] = Some Directory → regular_or_missing (World.disk w) [MANIFEST_UPDATE_LOCK] →
  is_valid_container_name name = true → World.disk w !! [name] = Some n → n ≠ Directory →
  triple True (delete_container v name) w (λ _ _, False) (touched (World.disk w)).
Proof.
  intros Hroot Hlock Hname Hn Hnd. destruct (valid_not_reserved name Hname) as [_ Hnl]. unfold delete_container.
  eapply triple_bind_reads; [apply reads_lift; unfold validate_container_name; by rewrite Hname| |by left].
  intros w1 H1. rewrite <-(same_disk _ _ H1) in *.
  eapply triple_then; [eapply triple_mono; [by apply acquire_lock_spec|done|exact (λ _ _ x, x)|exact (λ _ x, x)]|done|].
  cbn beta. intros _ w2 H2 Ht. rewrite <-(touched_lookup _ _ _ Ht) in Hn by congruence.
  apply triple_bind_metadata; [unfold metadata_of; rewrite Hn|]; intros w3 H3; [|intros H3'].
  - apply triple_bind. apply triple_bind. destruct n; [done|..]; apply triple_fail; try done; by rewrite (same_disk w2 w3) by done.
  - apply triple_bind, triple_fail; [done|]. by rewrite (same_disk w2 w3) by done.
Qed.

(** ** Histories of calls, each with its own faults *)

Inductive storage_op :=
| CreateContainer (name : string) (mode : SecurityMode.t) (description : option string)
| DeleteContainer (name : string)
| WriteFile (container file_name : string) (plaintext : list N)
| DeleteFile (container file_name : string)
| RewrapFile (container file_name : string).

Definition apply_storage_op (v : Vault.t) (op : storage_op) : M StorageError.t unit :=
  match op with
  | CreateContainer name mode desc => create_container v name mode desc
  | DeleteContainer name => delete_container v name
  | WriteFile c f pt => write_file v c f pt
  | DeleteFile c f => delete_file v c f
  | RewrapFile c f => let! _ := rewrap_file v c f in ret tt
  end.

(** The modes asked for when the containers were made. *)
Definition track (op : storage_op) (d : gmap path node) (asked : gmap string SecurityMode.t) :
    gmap string SecurityMode.t :=
  match op with
  | CreateContainer name mode _ =>
      if is_valid_container_name name && bool_decide (d !! [name] = None)
      then <[name := mode]> asked else asked
  | _ => asked
  end.

Fixpoint run_history (v : Vault.t) (history : list (storage_op * list fault))
    (asked : gmap string SecurityMode.t) (w : World.t) : gmap string SecurityMode.t * World.t :=
  match history with
  | [] => (asked, w)
  | (op, fs) :: rest =>
      run_history v rest (track op (World.disk w) asked)
        (apply_storage_op v op (World.with_faults w fs)).1
  end.

Definition policy_ok key (asked : gmap string SecurityMode.t) d : Prop :=
  ∃ m, VaultDisk d key m ∧
    ∀ name : string, is_valid_container_name name = true → d !! [name] = Some Directory →
      asked !! name = Some (mode_in m name).

(** A change that keeps the manifest, the lock and the containers keeps the policy. *)
Lemma policy_ok_frame key asked d d' :
  (∀ p, length p ≤ 1 → d' !! p = d !! p) → policy_ok key asked d → policy_ok key asked d'.
Proof.
  intros Heq (m & Hv & Hp). exists m. split.
  - destruct Hv. split; rewrite ?Heq by (simpl; lia); try done. unfold regular_or_missing.
    rewrite Heq by (simpl; lia). done.
  - intros name. rewrite Heq by (simpl; lia). apply Hp.
Qed.

Lemma policy_ok_touched key asked d d' : touched d d' → policy_ok key asked d → policy_ok key asked d'.
Proof.
  intros Ht (m & Hv & Hp). exists m. split; [by eapply touched_vault|]. intros name Hn Hd.
  destruct (valid_not_reserved name Hn). rewrite (touched_lookup d d') in Hd; [auto|done|congruence].
Qed.

Lemma policy_ok_file key asked c f d d' :
  file_changed (file_path c f) d d' → policy_ok key asked d → policy_ok key asked d'.
Proof.
  intros Hc. apply policy_ok_frame. intros p Hp. assert (p ≠ file_path c f) by (intros ->; simpl in Hp; lia).
  destruct Hc as [-> | [[b ->] | ->]]; [done|unfold put; by rewrite lookup_insert_ne|by rewrite lookup_delete_ne].
Qed.

Lemma policy_ok_create key asked m (name : string) mode desc d d' :
  is_valid_container_name name = true → VaultDisk d key m → d !! [name] = None →
  (∀ other : string, is_valid_container_name other = true → d !! [other] = Some Directory →
     asked !! other = Some (mode_in m other)) →
  create_stages key m name mode desc d d' → policy_ok key (<[name := mode]> asked) d'.
Proof.
  intros Hname Hv Hnone Hp (d0 & Ht & Hd). destruct (valid_not_reserved name Hname) as [Hnm Hnl].
  assert (∀ other : string, is_valid_container_name other = true → d0 !! [other] = d !! [other]) as Hd0.
  { intros o Ho. destruct (valid_not_reserved o Ho). apply (touched_lookup d d0); [done|congruence]. }
  assert (Hv0 : VaultDisk d0 key m) by by eapply touched_vault.
  assert (VaultDisk (put_manifest (with_container m name mode desc) key d0) key
    (authenticate_manifest (with_container m name mode desc) key)) as Hv1.
  { eapply put_manifest_vault; [done|]. apply Hv. }
  destruct Hd as [-> | Hd].
  - exists m. split; [done|]. intros o Ho. rewrite Hd0 by done. intros Hdir.
    rewrite lookup_insert_ne by congruence. auto.
  - exists (authenticate_manifest (with_container m name mode desc) key). split.
    + destruct Hd as [-> | ->]; [done|]. destruct Hv1. split; try done.
      * by rewrite lookup_insert_ne.
      * rewrite lookup_insert_ne by congruence. done.
      * unfold regular_or_missing. rewrite lookup_insert_ne by congruence. done.
    + intros o Ho Hdir. rewrite mode_in_authenticate. unfold with_container. rewrite mode_in_add.
      destruct (valid_not_reserved o Ho) as [Hom _].
      destruct (decide (name = o)) as [->|Hne]; [by rewrite lookup_insert, decide_True|].
      rewrite lookup_insert_ne by done. apply Hp; [done|]. rewrite <-Hd0 by done.
      destruct Hd as [-> | ->]; revert Hdir; unfold put_manifest, put; rewrite ?lookup_insert_ne by congruence; done.
Qed.

Lemma policy_ok_delete key asked m (name : string) d d' :
  is_valid_container_name name = true → VaultDisk d key m →
  (∀ other : string, is_valid_container_name other = true → d !! [other] = Some Directory →
     asked !! other = Some (mode_in m other)) →
  delete_stages key m name d d' → policy_ok key asked d'.
Proof.
  intros Hname Hv Hp Hst. destruct (valid_not_reserved name Hname) as [Hnm Hnl].
  assert (∀ d0 d1 other, touched d d0 → pruned [name] d0 d1 → is_valid_container_name other = true →
    d1 !! [other] = Some Directory → d !! [other] = Some Directory) as Hback.
  { intros d0 d1 o Ht [_ Hpr] Ho Hd1. destruct (valid_not_reserved o Ho) as [_ Hol].
    rewrite <-(touched_lookup d d0 [o]) by (done || congruence). destruct (Hpr [o]) as [E|E]; congruence. }
  destruct Hst as [(d0 & Ht & Hpr)|(d0 & d1 & Ht & Hpr & Hnone & ->)].
  - exists m. split; [eapply pruned_vault; [done|done|by eapply touched_vault]|]. eauto.
  - exists (authenticate_manifest (without_container m name) key). split.
    + eapply put_manifest_vault; [eapply pruned_vault; [done|done|by eapply touched_vault]|]. apply Hv.
    + intros o Ho Hdir. destruct (valid_not_reserved o Ho) as [Hom _].
      unfold put_manifest, put in Hdir. rewrite lookup_insert_ne in Hdir by congruence.
      rewrite mode_in_authenticate. unfold without_container.
      rewrite mode_in_remove by (intros ->; congruence). eauto.
Qed.

Lemma step_policy v op asked w :
  policy_ok (Vault.manifest_auth_key v) asked (World.disk w) →
  policy_ok (Vault.manifest_auth_key v) (track op (World.disk w) asked)
    (World.disk (apply_storage_op v op w).1).
Proof.
  intros Hok. set (key := Vault.manifest_auth_key v) in *.
  assert (∀ {A} (m : M StorageError.t A) X Q R g, triple X m w Q R →
    (∀ u d, Q u d → policy_ok key g d) → (∀ d, R d → policy_ok key g d) →
    policy_ok key g (World.disk (m w).1)) as Hout.
  { intros A m X Q R g Ht HQ HR. unfold triple, wp in Ht. destruct Ht as [_ Ht].
    destruct (m w).2; [eauto|]. destruct Ht. eauto. }
  pose proof Hok as (m & Hv & Hp).
  destruct op as [name mode desc|name|c f pt|c f|c f]; cbn [track apply_storage_op].
  - destruct (is_valid_container_name name) eqn:Hname; cbn [andb].
    2: { eapply (Hout _ _ True (λ _ d, d = World.disk w) (λ d, d = World.disk w)); [|by intros _ d ->|by intros d ->].
         unfold create_container, validate_container_name. rewrite Hname. apply triple_bind, triple_fail; done. }
    case_bool_decide as Hn.
    + eapply Hout; [by apply create_container_spec| |].
      * intros _ d (d0 & Ht & ->). eapply policy_ok_create; try done. exists d0. eauto.
      * intros d Hd. by eapply policy_ok_create.
    + destruct (World.disk w !! [name]) as [n|] eqn:Hd; [|done].
      eapply Hout; [eapply create_taken; [apply Hv|apply Hv|done..]|done|].
      intros d Ht. by eapply policy_ok_touched.
  - destruct (is_valid_container_name name) eqn:Hname.
    2: { eapply (Hout _ _ True (λ _ d, d = World.disk w) (λ d, d = World.disk w)); [|by intros _ d ->|by intros d ->].
         unfold delete_container, validate_container_name. rewrite Hname. apply triple_bind, triple_fail; done. }
    assert ((World.disk w !! [name] = None ∨ World.disk w !! [name] = Some Directory)
            ∨ ∃ n, World.disk w !! [name] = Some n ∧ n ≠ Directory) as [Hc|(n & Hn & Hnd)].
    { destruct (World.disk w !! [name]) as [n|]; [|auto]. destruct (decide (n = Directory)); naive_solver. }
    + eapply Hout; [by apply delete_container_spec| |].
      * intros ? d Hd. eapply policy_ok_delete; try done. by right.
      * intros d Hd. by eapply policy_ok_delete.
    + eapply Hout; [eapply delete_not_directory; [apply Hv|apply Hv|done..]|done|].
      intros d Ht. by eapply policy_ok_touched.
  - eapply Hout; [apply write_file_any|intros ? d|intros d]; intros Hd; (eapply policy_ok_file; [exact Hd|done]).
  - eapply Hout; [apply delete_file_any|intros ? d|intros d]; intros Hd; (eapply policy_ok_file; [exact Hd|done]).
  - eapply Hout; [eapply triple_then; [apply rewrap_file_any|exact (λ _ x, x)|]| |].
    + intros ? w' _ Hd. by apply (triple_ret _ tt w' (λ _ d, file_changed (file_path c f) (World.disk w) d)).
    + intros ? d Hd. (eapply policy_ok_file; [exact Hd|done]).
    + intros d Hd. (eapply policy_ok_file; [exact Hd|done]).
Qed.

Lemma history_policy v history asked w :
  policy_ok (Vault.manifest_auth_key v) asked (World.disk w) →
  policy_ok (Vault.manifest_auth_key v) (run_history v history asked w).1
    (World.disk (run_history v history asked w).2).
Proof.
  revert asked w. induction history as [|[op fs] rest IH]; intros asked w Hok; [done|].
  cbn [run_history]. apply IH. by apply (step_policy v op asked (World.with_faults w fs)).
Qed.

Lemma container_mode_reads v m (name : string) w :
  VaultDisk (World.disk w) (Vault.manifest_auth_key v) m → is_valid_container_name name = true →
  World.disk w !! [name] = Some Directory → reads (container_mode v name) (mode_in m name) w.
Proof.
  intros Hv Hname Hd. unfold container_mode, validate_container_name. rewrite Hname.
  eapply reads_bind; [by apply reads_lift|]. intros w1 H1. rewrite <-(same_disk _ _ H1) in *.
  eapply reads_bind; [by apply reads_ensure_directory|]. intros w2 H2. rewrite <-(same_disk _ _ H2) in *.
  eapply reads_bind; [by apply reads_manifest|]. intros w3 H3. apply reads_ret.
Qed.

Lemma reads_quiet {E A} (m : M E A) x w : reads m x w → quiet w → (m w).2 = Ok x.
Proof. intros [_ [H|[Hq _]]] Hw; [done|]. done. Qed.

(** ** Files *)

Lemma open_envelope_seal v c f version key pt sealed :
  (version < 4294967296)%N → Vault.keys v !! version = Some key →
  sealed_as key pt (str_bytes (aad_for c f)) sealed →
  open_envelope v c f (envelope version sealed) = Ok pt.
Proof.
  intros Hver Hkey [Hopen _]. unfold open_envelope, envelope.
  replace (length (FORMAT_VERSION :: to_be_bytes version ++ sealed) <? 5) with false
    by (symmetry; apply Nat.ltb_ge; cbn; lia).
  cbn [head default]. replace (FORMAT_VERSION =? FORMAT_VERSION)%N with true by done. cbn [negb].
  change (take 4 (drop 1 (FORMAT_VERSION :: to_be_bytes version ++ sealed))) with (to_be_bytes version).
  rewrite be_bytes_round by done. rewrite Hkey. cbn [ok_or rbind].
  change (drop 5 (FORMAT_VERSION :: to_be_bytes version ++ sealed)) with sealed. by rewrite Hopen.
Qed.

(** A disk on which [v] reads [pt] from a file. *)
Definition holds v (c f : string) pt d : Prop :=
  d !! [c] = Some Directory ∧
  ∃ raw, d !! file_path c f = Some (File raw) ∧ open_envelope v c f raw = Ok pt.

Definition names_ok (c f : string) : Prop :=
  is_valid_container_name c = true ∧ is_valid_file_name f = true.

Lemma holds_reads v c f pt w :
  names_ok c f → holds v c f pt (World.disk w) → reads (read_file v c f) pt w.
Proof.
  intros [Hc Hf] (Hdir & raw & Hraw & Hopen). unfold read_file, validate_container_name, validate_file_name.
  rewrite Hc, Hf.
  eapply reads_bind; [by apply reads_lift|]. intros w1 H1. rewrite <-(same_disk _ _ H1) in *.
  eapply reads_bind; [by apply reads_lift|]. intros w2 H2. rewrite <-(same_disk _ _ H2) in *.
  eapply reads_bind; [by apply reads_ensure_directory|]. intros w3 H3. rewrite <-(same_disk _ _ H3) in *.
  eapply reads_bind; [by eapply reads_ensure_regular|]. intros w4 H4. rewrite <-(same_disk _ _ H4) in *.
  eapply reads_bind; [by apply reads_io_lift, reads_fs_read|]. intros w5 H5. by apply reads_lift.
Qed.

(** The handle has an active key, whose version fits. *)
Definition vault_wf (v : Vault.t) : Prop :=
  (∃ key, Vault.keys v !! Vault.active_version v = Some key) ∧
  map_Forall (λ version _, version < 4294967296)%N (Vault.keys v).

Definition sealed_file v (c f : string) pt d d' : Prop :=
  ∃ key sealed, Vault.keys v !! Vault.active_version v = Some key ∧
    sealed_as key pt (str_bytes (aad_for c f)) sealed ∧
    d' = put (file_path c f) (envelope (Vault.active_version v) sealed) d.

Lemma sealed_file_holds v c f pt d d' :
  vault_wf v → d !! [c] = Some Directory → sealed_file v c f pt d d' → holds v c f pt d'.
Proof.
  intros [[key Hkey] Hall] Hdir (key' & sealed & Hkey' & Hs & ->). split.
  - unfold put. rewrite lookup_insert_ne; [done|]. unfold file_path. congruence.
  - eexists. unfold put. rewrite lookup_insert, decide_True by done. split; [done|].
    eapply open_envelope_seal; [|exact Hkey'|done]. by apply (Hall _ _ Hkey').
Qed.

Lemma write_file_spec v c f pt w :
  vault_wf v → names_ok c f → World.disk w !! [c] = Some Directory →
  regular_or_missing (World.disk w) (file_path c f) →
  triple False (write_file v c f pt) w
    (λ _ d, sealed_file v c f pt (World.disk w) d)
    (λ d, d = World.disk w ∨ sealed_file v c f pt (World.disk w) d).
Proof.
  intros [[key Hkey] Hall] [Hc Hf] Hdir Hreg. unfold write_file, validate_container_name, validate_file_name.
  rewrite Hc, Hf, Hkey.
  eapply triple_bind_reads; [by apply reads_lift| |by left]. intros w1 H1. rewrite <-(same_disk _ _ H1) in *.
  eapply triple_bind_reads; [by apply reads_lift| |by left]. intros w2 H2. rewrite <-(same_disk _ _ H2) in *.
  eapply triple_bind_reads; [by apply reads_ensure_directory| |by left]. intros w3 H3. rewrite <-(same_disk _ _ H3) in *.
  eapply triple_then; [by apply destination_spec|by left|]. cbn beta. intros _ w4 H4 Hd4. rewrite <-Hd4 in *.
  eapply triple_bind_reads; [by apply reads_lift| |by left]. intros w5 H5. rewrite <-(same_disk _ _ H5) in *.
  apply triple_bind, triple_errmap, wp_seal. intros sealed w6 Hs H6. split; [by apply H6|].
  intros w7 H7 Hd7. rewrite (same_disk _ _ H6) in Hd7.
  eapply triple_mono; [apply atomic_write_secure_spec|done| |].
  - change (parent (file_path c f)) with [c]. by rewrite Hd7.
  - intros _ d ->. rewrite Hd7. exists key, sealed. done.
  - intros d [-> | ->]; rewrite Hd7; [by left|]. right. exists key, sealed. done.
Qed.

Lemma rewrap_file_spec v c f pt w :
  vault_wf v → names_ok c f → holds v c f pt (World.disk w) →
  triple False (rewrap_file v c f) w
    (λ b d, holds v c f pt d ∧ (b = false → d = World.disk w) ∧
            (b = true → sealed_file v c f pt (World.disk w) d))
    (λ d, d = World.disk w ∨ sealed_file v c f pt (World.disk w) d).
Proof.
  intros Hwf Hn Hh. pose proof Hn as [Hc Hf]. pose proof Hh as (Hdir & raw & Hraw & Hopen).
  unfold rewrap_file, validate_container_name, validate_file_name. rewrite Hc, Hf.
  eapply triple_bind_reads; [by apply reads_lift| |by left]. intros w1 H1. rewrite <-(same_disk _ _ H1) in *.
  eapply triple_bind_reads; [by apply reads_lift| |by left]. intros w2 H2. rewrite <-(same_disk _ _ H2) in *.
  eapply triple_bind_reads; [by apply reads_io_lift, reads_fs_read| |by left].
  intros w3 H3. rewrite <-(same_disk _ _ H3) in *.
  destruct (_ && _); [by apply triple_ret|].
  eapply triple_bind_reads; [by apply holds_reads| |by left]. intros w4 H4. rewrite <-(same_disk _ _ H4) in *.
  eapply triple_then; [apply write_file_spec; [done..|]|done|].
  - intros n Hn'. rewrite Hraw in Hn'. naive_solver.
  - cbn beta. intros _ w5 H5 Hs. apply triple_ret. split; [by eapply sealed_file_holds|]. done.
Qed.

Lemma holds_other v c f pt c' f' d d' b :
  (c, f) ≠ (c', f') → d' = put (file_path c' f') b d → holds v c f pt d → holds v c f pt d'.
Proof.
  intros Hne -> (Hdir & raw & Hraw & Ho). unfold put, file_path in *. split.
  - rewrite lookup_insert_ne; [done|congruence].
  - exists raw. rewrite lookup_insert_ne; [done|]. intros [= -> E]. apply Hne. f_equal.
    apply (f_equal (strip_suffix FILE_SUFFIX)) in E. rewrite !strip_suffix_app in E. congruence.
Qed.
End spec.
