(* ===== verification/VaultInstance.v ===== *)
(** * A concrete environment for the vault's core

    Parameters of [Fs], [Crypto] and [Storage] that satisfy their laws, so that the
    theorems about them are not vacuous and the operations can be evaluated: a cipher
    that frames key, nonce, associated data and message, and serializers with exact
    inverses. *)
From S2P Require Import Prelude Text Fs Crypto Storage AuditInstance.

(** ** Lists as bits *)

Fixpoint list_enc {A} `{Codec A} (l : list A) : list bool :=
  match l with [] => [false] | x :: l' => true :: enc x ++ list_enc l' end.

Fixpoint list_dec {A} `{Codec A} (fuel : nat) (l : list bool) : option (list A * list bool) :=
  match fuel, l with
  | _, false :: rest => Some ([], rest)
  | S fuel', true :: l1 => '(x, l2) ← dec l1; '(xs, l3) ← list_dec fuel' l2; Some (x :: xs, l3)
  | _, _ => None
  end.

Lemma list_dec_enc {A} `{Codec A} (l : list A) fuel rest :
  length l ≤ fuel → list_dec fuel (list_enc l ++ rest) = Some (l, rest).
Proof.
  revert fuel. induction l as [|x l IH]; intros fuel Hf; [by destruct fuel|].
  destruct fuel as [|fuel]; [simpl in Hf; lia|]. cbn [list_enc list_dec app].
  rewrite <-app_assoc, dec_enc. cbn. rewrite IH by (simpl in Hf; lia). done.
Qed.

Lemma list_enc_length {A} `{Codec A} (l : list A) : length l ≤ length (list_enc l).
Proof. induction l as [|x l IH]; cbn; [lia|]. rewrite length_app. lia. Qed.

#[global] Instance list_codec {A} `{Codec A} : Codec (list A).
Proof.
  refine {| enc := list_enc; dec := λ l, list_dec (length l) l |}.
  intros l rest. apply list_dec_enc. rewrite length_app. pose proof (list_enc_length l). lia.
Defined.

(** ** Bytes *)

Definition to_bytes {A} `{Codec A} (a : A) : list N := (λ b : bool, if b then 1%N else 0%N) <$> enc a.

Definition of_bytes {A} `{Codec A} (l : list N) : result A string :=
  match dec ((λ n, (n =? 1)%N) <$> l) with
  | Some (a, []) => Ok a
  | _ => Err "malformed"
  end.

Lemma of_to_bytes {A} `{Codec A} (a : A) : of_bytes (to_bytes a) = Ok a.
Proof.
  unfold of_bytes, to_bytes. rewrite <-list_fmap_compose.
  replace ((λ n, (n =? 1)%N) ∘ (λ b : bool, if b then 1%N else 0%N) <$> enc a) with (enc a ++ []).
  - by rewrite dec_enc.
  - rewrite app_nil_r. induction (enc a) as [|[] l IH]; [done|..]; cbn; by rewrite <-IH.
Qed.

Lemma to_bytes_bytes {A} `{Codec A} (a : A) : Forall (λ b, (b < 256)%N) (to_bytes a).
Proof. unfold to_bytes. apply Forall_fmap, Forall_true. by intros []. Qed.

Definition pad32 (l : list N) : list N := take 32 (((λ b, (b mod 256)%N) <$> l) ++ replicate 32 0%N).

Lemma pad32_wf l : key_wf (pad32 l).
Proof.
  unfold pad32. split.
  - rewrite length_take, length_app, length_replicate. unfold MASTER_KEY_LEN. lia.
  - apply Forall_take, Forall_app. split.
    + apply Forall_fmap, Forall_true. intros b. cbn. apply N.mod_lt. done.
    + by apply Forall_replicate.
Qed.

(** ** The instances *)

#[global] Instance demo_os : Os := {|
  read_dir_order := id;
  entropy := λ i n, replicate n (N.of_nat i mod 256)%N;
  modified := λ _ _, 0%Z;
  show_path := λ p, join_with "/" ("vault" :: p)
|}.

#[global] Instance demo_os_laws : OsLaws.
Proof.
  split.
  - done.
  - intros i n. apply length_replicate.
  - intros i n. apply Forall_replicate. apply N.mod_lt. done.
Qed.

Definition demo_decrypt (k n c a : list N) : result (list N) string :=
  match of_bytes c with
  | Ok (k', (n', (a', m))) => if decide ((k, n, a) = (k', n', a')) then Ok m else Err "aead::Error"
  | Err e => Err e
  end.

Definition checksum (m : list N) : N := foldl (λ acc b, (acc * 31 + b + 1) mod 65521)%N 7%N m.

#[global] Instance demo_prims : Prims := {|
  xchacha_encrypt := λ k n m a, Ok (to_bytes (k, (n, (a, m))));
  xchacha_decrypt := demo_decrypt;
  hkdf_expand := λ k c, pad32 ((λ b, b + 1)%N <$> (drop 12 c ++ k));
  argon2id := λ p s, Ok (pad32 (s ++ p));
  hmac_sha256 := λ k m, pad32 (checksum m :: checksum m / 256 :: k)%N;
  sha256 := λ m, pad32 [checksum m; checksum m / 256]%N;
  dalek_public := pad32;
  dalek_sign := λ seed m, pad32 seed ++ pad32 (checksum m :: seed);
  dalek_point := λ p, Ok p;
  dalek_verify := λ pt m sig, bool_decide (take 32 sig = pt);
  b64_encode := str_of_bytes;
  b64_decode := λ s, Ok (str_bytes s)
|}.

#[global] Instance demo_prim_laws : PrimLaws.
Proof.
  split.
  - intros k n m a. exists (to_bytes (k, (n, (a, m)))). split; [done|].
    change (demo_decrypt k n (to_bytes (k, (n, (a, m)))) a = Ok m).
    unfold demo_decrypt. rewrite of_to_bytes. by rewrite decide_True.
  - intros k c. apply pad32_wf.
  - intros p s _. eexists. split; [done|]. apply pad32_wf.
  - intros k m. apply pad32_wf.
  - intros k m. apply pad32_wf.
  - intros m. apply pad32_wf.
  - intros m. apply pad32_wf.
  - intros bytes Hb. cbn. by rewrite str_bytes_of_bytes.
  - intros k n m a c [= <-]. apply to_bytes_bytes.
  - intros seed m Hl. pose proof (pad32_wf seed) as [Hlen Hb].
    pose proof (pad32_wf (checksum m :: seed)) as [Hlen' Hb'].
    change (dalek_sign seed m) with (pad32 seed ++ pad32 (checksum m :: seed)).
    change (dalek_public seed) with (pad32 seed).
    split_and!; try done.
    + rewrite length_app, Hlen, Hlen'. done.
    + by apply Forall_app.
    + exists (pad32 seed). split; [done|]. apply bool_decide_eq_true_2. by rewrite take_app_length'.
Qed.

(** ** JSON of the manifest *)

#[global] Instance mode_codec : Codec SecurityMode.t.
Proof.
  refine (codec_via SecurityMode.as_str
    (λ s, match SecurityMode.parse s with Ok m => Some m | Err _ => None end) _).
  by intros [].
Defined.

#[global] Instance rule_codec : Codec ManifestRule.t.
Proof.
  refine (codec_via (λ r, (ManifestRule.pattern r, (ManifestRule.mode r, ManifestRule.description r)))
    (λ '(p, (m, d)), Some (ManifestRule.mk p m d)) _).
  by intros [].
Defined.

#[global] Instance integrity_codec : Codec ManifestIntegrity.t.
Proof.
  refine (codec_via (λ i, (ManifestIntegrity.version i, ManifestIntegrity.hmac_sha256 i))
    (λ '(v, h), Some (ManifestIntegrity.mk v h)) _).
  by intros [].
Defined.

#[global] Instance manifest_codec : Codec Manifest.t.
Proof.
  refine (codec_via (λ m, (Manifest.schema_version m, (Manifest.default_mode m,
                            (Manifest.rules m, Manifest.integrity m))))
    (λ '(s, (d, (r, i))), Some (Manifest.mk s d r i)) _).
  by intros [].
Defined.

#[global] Instance demo_manifest_json : ManifestJson := {|
  manifest_pretty := to_bytes;
  manifest_compact := to_bytes;
  manifest_parse := of_bytes
|}.

#[global] Instance demo_manifest_laws : ManifestJsonLaws.
Proof. split. intros m. apply of_to_bytes. Qed.
