(* ===== verification/StorageTheorems.v ===== *)
(** * Storage: theorems

    The policy of a container under any interleaving of failures, files that are written
    and rewrapped atomically, envelopes bound to their place, and manifests that cannot be
    changed without the key; with a small vault on which the hypotheses hold. *)
From Stdlib Require Import ZifyN ZifyNat ZifyBool.
From S2P Require Import Prelude Text Fs Crypto Storage StorageSpec VaultInstance.

Section theorems.
Context `{OS : Os} `{OSL : !OsLaws} `{PR : Prims} `{PRL : !PrimLaws}.
Context `{MJ : ManifestJson} `{MJL : !ManifestJsonLaws}.
Implicit Types (w : World.t) (d : gmap path node).

(** ** Inversion of a successful read *)

Lemma bind_Ok_inv {E A B} (m : M E A) (k : A → M E B) w u :
  (bind m k w).2 = Ok u → ∃ w1 a, m w = (w1, Ok a) ∧ (k a w1).2 = Ok u.
Proof. unfold bind. destruct (m w) as [w1 [a|e]]; [eauto|done]. Qed.

Lemma ensure_directory_inv p l w w1 u :
  ensure_directory p l w = (w1, Ok u) → World.disk w !! p = Some Directory.
Proof.
  intros E. destruct (decide (World.disk w !! p = Some Directory)) as [|Hn]; [done|].
  pose proof (refuses_ensure_directory p l w Hn) as Hr. unfold refuses, wp in Hr. rewrite E in Hr.
  by destruct Hr as [_ [e [=]]].
Qed.

Lemma fs_read_inv p w w1 b : io (fs_read p) w = (w1, Ok b) → World.disk w !! p = Some (File b).
Proof.
  unfold io, errmap, fs_read, io_read.
  destruct (next_cases w) as (w2 & _ & _ & _ & [-> | (_ & n & m & ->)]); [|done].
  destruct (World.disk w !! p) as [[]|]; naive_solver.
Qed.

Lemma readonly_disk {E A} (m : M E A) w w1 r : readonly m → m w = (w1, r) → World.disk w1 = World.disk w.
Proof. intros Hm Em. specialize (Hm w). rewrite Em in Hm. apply Hm. Qed.

Lemma read_file_inv v c f pt w :
  (read_file v c f w).2 = Ok pt → names_ok c f ∧ holds v c f pt (World.disk w).
Proof.
  unfold read_file. intros E.
  apply bind_Ok_inv in E as (w1 & ? & E1 & E). apply bind_Ok_inv in E as (w2 & ? & E2 & E).
  apply bind_Ok_inv in E as (w3 & ? & E3 & E). apply bind_Ok_inv in E as (w4 & ? & E4 & E).
  apply bind_Ok_inv in E as (w5 & raw & E5 & E). unfold lift in E1, E2, E.
  injection E1 as <- E1. injection E2 as <- E2. cbn in E.
  pose proof (readonly_disk _ _ _ _ (readonly_ensure_directory _ _) E3) as D3.
  pose proof (readonly_disk _ _ _ _ (readonly_ensure_regular _ _) E4) as D4.
  apply ensure_directory_inv in E3. apply fs_read_inv in E5. rewrite D4, D3 in E5.
  unfold validate_container_name in E1. unfold validate_file_name in E2. split.
  - split; [by destruct (is_valid_container_name c)|by destruct (is_valid_file_name f)].
  - split; [done|]. eauto.
Qed.

Lemma holds_read v c f pt w fs :
  names_ok c f → holds v c f pt (World.disk w) → fs = [] →
  (read_file v c f (World.with_faults w fs)).2 = Ok pt.
Proof. intros Hn Hh ->. by apply reads_quiet; [apply holds_reads|]. Qed.

(** What a triple says of the outcome. *)
Lemma triple_outcome {E A} X (m : M E A) w Q R w' r :
  triple X m w Q R → m w = (w', r) →
  match r with Ok v => Q v (World.disk w') | Err _ => (quiet w → X) ∧ R (World.disk w') end.
Proof. intros Ht Em. unfold triple, wp in Ht. rewrite Em in Ht. by destruct Ht as [_ Ht]. Qed.

(** ** Policy *)

(** C11: A container never runs under another mode than the one it was created with:
    after any history of creations, deletions, writes and rewraps, each interrupted by any
    failures or a crash, a container that exists reports the mode its creator asked for
    (the policy is committed before the container is visible, and withdrawn after it is
    gone). *)
Theorem container_policy_survives_faults v asked w history asked' w' (name : string) :
  policy_ok (Vault.manifest_auth_key v) asked (World.disk w) →
  run_history v history asked w = (asked', w') →
  is_valid_container_name name = true → World.disk w' !! [name] = Some Directory →
  ∃ mode, asked' !! name = Some mode ∧
    (container_mode v name (World.with_faults w' [])).2 = Ok mode.
Proof.
  intros Hok Hrun Hname Hdir. pose proof (history_policy v history asked w Hok) as Hok'.
  rewrite Hrun in Hok'. destruct Hok' as (m & Hv & Hp). exists (mode_in m name).
  split; [by apply Hp|]. apply reads_quiet; [by apply container_mode_reads|done].
Qed.

(** ** Files *)

(** C10: Writing a file is all or nothing: whatever fails, the file afterwards reads as
    the new text or the disk is unchanged, it reads as the new text when the call
    returned success, the call fails only under a fault, and every other file that could
    be read still reads the same. *)
Theorem write_file_is_atomic v c f pt w w' r :
  vault_wf v → names_ok c f → World.disk w !! [c] = Some Directory →
  regular_or_missing (World.disk w) (file_path c f) →
  write_file v c f pt w = (w', r) →
  (match r with
   | Ok _ => (read_file v c f (World.with_faults w' [])).2 = Ok pt
   | Err _ => World.faults w ≠ [] ∧
       (World.disk w' = World.disk w ∨ (read_file v c f (World.with_faults w' [])).2 = Ok pt)
   end) ∧
  ∀ c' f' pt', (c', f') ≠ (c, f) →
    (read_file v c' f' (World.with_faults w [])).2 = Ok pt' →
    (read_file v c' f' (World.with_faults w' [])).2 = Ok pt'.
Proof.
  intros Hwf Hn Hdir Hreg Hrun.
  pose proof (triple_outcome _ _ _ _ _ _ _ (write_file_spec v c f pt w Hwf Hn Hdir Hreg) Hrun) as Hout.
  assert (World.disk w' = World.disk w ∨ sealed_file v c f pt (World.disk w) (World.disk w')) as Hd.
  { destruct r; [by right|]. apply Hout. }
  split.
  - destruct r as [u|e].
    + apply holds_read; [done|by eapply sealed_file_holds|done].
    + destruct Hout as [Hq Hd']. split; [exact Hq|]. destruct Hd' as [->|Hs]; [by left|right].
      apply holds_read; [done|by eapply sealed_file_holds|done].
  - intros c' f' pt' Hne [Hn' Hh]%read_file_inv. cbn in Hh. apply holds_read; [done| |done].
    destruct Hd as [->|(key & sealed & _ & _ & Hd)]; [done|]. by eapply holds_other.
Qed.

(** Moving a file to the active key never loses it: under any failures the file
    reads as before, and when the call reports that it rewrapped the file, the envelope
    carries the active version. *)
Theorem rewrap_preserves_contents v c f pt w w' r :
  vault_wf v → (read_file v c f (World.with_faults w [])).2 = Ok pt →
  rewrap_file v c f w = (w', r) →
  (read_file v c f (World.with_faults w' [])).2 = Ok pt ∧
  (r = Ok true → ∃ sealed, World.disk w' !! file_path c f
     = Some (File (envelope (Vault.active_version v) sealed))).
Proof.
  intros Hwf [Hn Hh]%read_file_inv Hrun. cbn in Hh.
  pose proof (triple_outcome _ _ _ _ _ _ _ (rewrap_file_spec v c f pt w Hwf Hn Hh) Hrun) as Hout.
  assert (World.disk w !! [c] = Some Directory) as Hdir by apply Hh.
  split.
  - apply holds_read; [done| |done]. destruct r as [b|e]; [by apply Hout|].
    destruct Hout as [_ [->|Hs]]; [done|]. by eapply sealed_file_holds.
  - intros ->. destruct Hout as (_ & _ & Hs). destruct (Hs eq_refl) as (key & sealed & _ & _ & ->).
    exists sealed. unfold put. by rewrite lookup_insert, decide_True.
Qed.

(** C29: An envelope cannot be moved: if the bytes that one vault directory holds for a file are
    copied to another place, in this directory or in another state of it, and the vault reads
    them there, then it is the same container and file name, or one of the vault's keys opens
    one and the same ciphertext under two different associated data, which is a forgery of the
    authenticated encryption, shown here with its key and texts. *)
Theorem envelope_bound_to_its_path v c f c' f' raw pt pt' w w' :
  utf8_valid (str_bytes c) = true → utf8_valid (str_bytes c') = true →
  World.disk w !! file_path c f = Some (File raw) → (read_file v c f (World.with_faults w [])).2 = Ok pt →
  World.disk w' !! file_path c' f' = Some (File raw) → (read_file v c' f' (World.with_faults w' [])).2 = Ok pt' →
  (c, f) = (c', f') ∨
  ∃ version key, Vault.keys v !! version = Some key ∧ aad_for c f ≠ aad_for c' f' ∧
    open key (drop 5 raw) (str_bytes (aad_for c f)) = Ok pt ∧ open key (drop 5 raw) (str_bytes (aad_for c' f')) = Ok pt'.
Proof.
  intros Hu Hu' Hraw [[Hc _] (_ & raw1 & Hraw1 & Ho)]%read_file_inv Hraw' [[Hc' _] (_ & raw2 & Hraw2 & Ho')]%read_file_inv.
  cbn in Hraw1, Hraw2. assert (raw1 = raw) as -> by congruence. assert (raw2 = raw) as -> by congruence.
  unfold open_envelope in Ho, Ho'. destruct (length raw <? 5); [done|]. destruct (negb _); [done|].
  destruct (Vault.keys v !! _) as [key|] eqn:Hk; [|done]. cbn [ok_or rbind] in Ho, Ho'.
  destruct (decide (aad_for c f = aad_for c' f')) as [He|Hne].
  { left. by destruct (aad_for_inj _ _ _ _ Hu Hu' Hc Hc' He) as [-> ->]. }
  right. eexists _, key. split; [exact Hk|]. split; [done|].
  destruct (open key (drop 5 raw) (str_bytes (aad_for c f))); [|done].
  destruct (open key (drop 5 raw) (str_bytes (aad_for c' f'))); [|done]. split; congruence.
Qed.

(** ** The manifest *)

(** A manifest cannot be altered without the key: if a manifest is accepted with the
    tag that was computed for another one, then both serialize alike, or the HMAC has a
    collision at these two texts. *)
Theorem manifest_tamper_evident key m m0 w w' :
  read_manifest key w = (w', Ok m) →
  Manifest.integrity m = Manifest.integrity (authenticate_manifest m0 key) →
  manifest_auth_bytes m = manifest_auth_bytes m0 ∨
  (manifest_auth_bytes m ≠ manifest_auth_bytes m0 ∧
   hmac_sha256 key (manifest_auth_bytes m) = hmac_sha256 key (manifest_auth_bytes m0)).
Proof.
  intros Hread Hint.
  assert (verify_manifest_integrity m key = Ok tt) as Hver.
  { unfold read_manifest in Hread. unfold bind at 1 in Hread.
    destruct (read_manifest_unverified w) as [w1 [m1|]]; [|done]. unfold bind, lift in Hread.
    destruct (verify_manifest_integrity m1 key) as [[]|] eqn:E; [|done]. unfold ret in Hread. congruence. }
  unfold verify_manifest_integrity in Hver. rewrite Hint in Hver. cbn in Hver.
  rewrite decode_hex_encode in Hver by (apply hmac_length || apply hmac_bytes). cbn in Hver.
  case_bool_decide as Htag; [|done].
  change (manifest_hmac key (Manifest.with_integrity m0 None)) with (hmac_sha256 key (manifest_auth_bytes m0)) in Htag.
  destruct (decide (manifest_auth_bytes m = manifest_auth_bytes m0)) as [|Hne]; [by left|by right].
Qed.

(** A manifest on disk that may carry no tag. *)
Definition unverified d m : Prop :=
  d !! [] = Some Directory ∧ (∃ raw, d !! [MANIFEST_FILE] = Some (File raw) ∧ manifest_parse raw = Ok m) ∧
  Manifest.schema_version m = SCHEMA_VERSION ∧ regular_or_missing d [MANIFEST_UPDATE_LOCK].

Lemma unverified_reads m w : unverified (World.disk w) m → reads read_manifest_unverified m w.
Proof.
  intros (Hroot & (raw & Hraw & Hparse) & Hs & _).
  eapply reads_bind; [by apply reads_ensure_directory|]. intros w1 H1. rewrite <-(same_disk _ _ H1) in Hraw.
  eapply reads_bind; [by eapply reads_ensure_regular|]. intros w2 H2. rewrite <-(same_disk _ _ H2) in Hraw.
  eapply reads_bind; [by eapply reads_secure_file|]. intros w3 H3. rewrite <-(same_disk _ _ H3) in Hraw.
  eapply reads_bind; [by apply reads_io_lift, reads_fs_read|]. intros w4 H4.
  eapply reads_bind; [apply reads_lift; by rewrite Hparse|]. intros w5 H5. rewrite Hs. apply reads_ret.
Qed.

Lemma unverified_touched d d' m : touched d d' → unverified d m → unverified d' m.
Proof.
  intros Ht (Hroot & Hman & Hs & Hl). split_and!; try done; rewrite ?(touched_lookup d d') by done; try done.
  by eapply touched_lock.
Qed.

(** What [migrate_legacy_manifest] leaves for a manifest without a tag. *)
Lemma migrate_spec key digest m w :
  unverified (World.disk w) m → Manifest.integrity m = None →
  triple True (migrate_legacy_manifest key digest) w
    (λ _ d, decode_hex_32 digest "expected manifest SHA-256" = Ok (sha256 (manifest_auth_bytes m)) ∧
            ∃ d0, touched (World.disk w) d0 ∧ d = put_manifest m key d0)
    (λ d, touched (World.disk w) d ∨
       decode_hex_32 digest "expected manifest SHA-256" = Ok (sha256 (manifest_auth_bytes m)) ∧
       ∃ d0, touched (World.disk w) d0 ∧ d = put_manifest m key d0).
Proof.
  intros Hu Hint. pose proof Hu as (Hroot & _ & _ & Hlock). unfold migrate_legacy_manifest.
  destruct (decode_hex_32 digest _) as [expected|e]; [|apply triple_bind, triple_fail; [done|left; by left]].
  eapply triple_bind_reads; [by apply reads_lift| |left; by left]. intros w1 H1. rewrite <-(same_disk _ _ H1) in *.
  eapply triple_then; [eapply triple_mono; [by apply acquire_lock_spec|done|exact (λ _ _ x, x)|exact (λ _ x, x)]|by left|].
  cbn beta. intros _ w2 H2 Ht. apply (unverified_touched _ _ _ Ht) in Hu as Hu2.
  eapply triple_bind_reads; [by apply unverified_reads| |by left]. intros w3 H3.
  rewrite <-(same_disk _ _ H3) in *. cbv zeta. case_bool_decide as Hd; cbn [negb];
    [|apply triple_fail; [done|by left]].
  rewrite Hint. destruct Hu2 as (Hr2 & (raw & Hraw & _) & _ & _).
  eapply triple_mono; [apply write_manifest_spec; [done|]|done| |].
  - intros n Hn. rewrite Hraw in Hn. naive_solver.
  - cbn beta. intros _ d ->. split; [by rewrite Hd|]. eauto.
  - intros d [-> | ->]; [by left|]. right. split; [by rewrite Hd|]. eauto.
Qed.

(** Migration endorses only what was reviewed: the tag of a legacy manifest is
    written only when the operator's digest is the digest of the manifest on disk, and
    then exactly that manifest is authenticated, whatever fails; with any other digest
    the manifest stays as it was and the call is refused. *)
Theorem migration_endorses_only_reviewed key digest m w w' r :
  unverified (World.disk w) m → Manifest.integrity m = None →
  migrate_legacy_manifest key digest w = (w', r) →
  (World.disk w' !! [MANIFEST_FILE] = World.disk w !! [MANIFEST_FILE] ∧ is_ok r = false) ∨
  (decode_hex_32 digest "expected manifest SHA-256" = Ok (sha256 (manifest_auth_bytes m)) ∧
   VaultDisk (World.disk w') key (authenticate_manifest m key)).
Proof.
  intros Hu Hint Hrun.
  pose proof (triple_outcome _ _ _ _ _ _ _ (migrate_spec key digest m w Hu Hint) Hrun) as Hout.
  assert (∀ d0, touched (World.disk w) d0 → VaultDisk (put_manifest m key d0) key (authenticate_manifest m key)) as Hput.
  { intros d0 Ht. apply (unverified_touched _ _ _ Ht) in Hu as (Hroot & _ & Hs & Hl). unfold put_manifest, put.
    split; [by rewrite lookup_insert_ne| |done|apply verify_authenticate|].
    - eexists. rewrite lookup_insert, decide_True by done. split; [done|]. apply manifest_parse_pretty.
    - unfold regular_or_missing. rewrite lookup_insert_ne; done. }
  destruct r as [u|e].
  - right. destruct Hout as [Hd (d0 & Ht & ->)]. auto.
  - destruct Hout as [_ [Ht|[Hd (d0 & Ht & ->)]]]; [left|right; auto].
    split; [|done]. by apply (touched_lookup _ _ _ Ht).
Qed.
End theorems.

(** ** A small vault *)

Module StorageDemo.
Definition key : MasterKey := pad32 [1]%N.
Definition auth : MasterKey := pad32 [2]%N.
Definition vault : Vault.t := Vault.mk {[1%N := key; 2%N := pad32 [3]%N]} 2 auth.

Definition manifest : Manifest.t := authenticate_manifest Manifest.default auth.

(** An empty vault. *)
Definition disk0 : gmap path node :=
  {[ [] := Directory; [MANIFEST_FILE] := File (manifest_pretty manifest) ]}.
Definition world0 : World.t := World.mk disk0 ∅ [] ∅ 0 [].

Lemma disk0_vault : VaultDisk disk0 auth manifest.
Proof.
  split; try reflexivity.
  - eexists. split; [vm_compute; reflexivity|]. vm_compute. reflexivity.
  - intros n. vm_compute. discriminate.
Qed.

Lemma empty_policy : policy_ok auth ∅ disk0.
Proof.
  exists manifest. split; [apply disk0_vault|]. intros name Hn Hd. exfalso.
  unfold disk0 in Hd. destruct (valid_not_reserved name Hn) as [Hm _].
  rewrite lookup_insert_ne, lookup_singleton_ne in Hd by congruence. done.
Qed.

(** A creation that dies before the directory is made, then one that succeeds with
    another mode, and a write. *)
Definition history : list (storage_op * list fault) :=
  [(CreateContainer "work" SecurityMode.Otp None, replicate 25 Done ++ [Fails 0 "power"]);
   (CreateContainer "work" SecurityMode.Approval None, []);
   (WriteFile "work" "a.txt" [7]%N, [])].

Definition after := run_history vault history ∅ world0.

Definition work : string := "work".
Definition file : string := "a.txt".

Lemma vault_ok : vault_wf vault.
Proof. split; [by eexists|]. apply map_Forall_insert_2; [done|]. apply map_Forall_singleton. done. Qed.

Lemma names : names_ok work file.
Proof. split; reflexivity. Qed.

(** After the history. *)
Definition world1 : World.t := after.2.
Lemma world1_dir : World.disk world1 !! [work] = Some Directory.
Proof. vm_compute. reflexivity. Qed.

Lemma world1_reads : (read_file vault work file (World.with_faults world1 [])).2 = Ok [7]%N.
Proof. vm_compute. reflexivity. Qed.

Definition raw : list N :=
  match World.disk world1 !! file_path work file with Some (File raw) => raw | _ => [] end.
Lemma raw_opens : open_envelope vault work file raw = Ok [7]%N.
Proof. vm_compute. reflexivity. Qed.
End StorageDemo.

Lemma container_policy_survives_faults_witness :
  ∃ mode, StorageDemo.after.1 !! StorageDemo.work = Some mode ∧
    (container_mode StorageDemo.vault StorageDemo.work (World.with_faults StorageDemo.world1 [])).2 = Ok mode.
Proof.
  apply (container_policy_survives_faults StorageDemo.vault ∅ StorageDemo.world0 StorageDemo.history).
  - apply StorageDemo.empty_policy.
  - apply surjective_pairing.
  - reflexivity.
  - apply StorageDemo.world1_dir.
Defined.

Lemma write_file_is_atomic_witness :
  (read_file StorageDemo.vault StorageDemo.work StorageDemo.file
     (World.with_faults (write_file StorageDemo.vault StorageDemo.work StorageDemo.file [9]%N
        StorageDemo.world1).1 [])).2 = Ok [9]%N.
Proof.
  refine (proj1 (write_file_is_atomic StorageDemo.vault StorageDemo.work StorageDemo.file [9]%N
    StorageDemo.world1 _ (Ok tt) StorageDemo.vault_ok StorageDemo.names StorageDemo.world1_dir _ _)).
  - intros n. vm_compute. intros [= <-]. eauto.
  - vm_compute. reflexivity.
Defined.

Lemma rewrap_preserves_contents_witness :
  (read_file StorageDemo.vault StorageDemo.work StorageDemo.file
     (World.with_faults (rewrap_file StorageDemo.vault StorageDemo.work StorageDemo.file
        (World.with_faults StorageDemo.world1 [Done; Fails 0 "power"])).1 [])).2 = Ok [7]%N.
Proof.
  refine (proj1 (rewrap_preserves_contents StorageDemo.vault StorageDemo.work StorageDemo.file [7]%N
    (World.with_faults StorageDemo.world1 [Done; Fails 0 "power"]) _ _ StorageDemo.vault_ok _ _)).
  - exact StorageDemo.world1_reads.
  - apply surjective_pairing.
Defined.

Lemma demo_aad_binding key key' sealed aad aad' m m' :
  open key sealed aad = Ok m → open key' sealed aad' = Ok m' → aad = aad'.
Proof.
  unfold open. destruct (length sealed <? NONCE_LEN); [done|].
  change (xchacha_decrypt ?k ?n ?c ?a) with (demo_decrypt k n c a). unfold demo_decrypt.
  destruct (of_bytes (drop NONCE_LEN sealed)) as [[k' [n' [a' m'']]]|]; [|done].
  repeat case_decide; naive_solver.
Qed.

(** The file is copied to another container: it can still be read at its own place, and not at
    the other. *)
Lemma envelope_bound_to_its_path_witness :
  let w' := World.mk (<[file_path "home" StorageDemo.file := File StorageDemo.raw]> (World.disk StorageDemo.world1)) ∅ [] ∅ 0 [] in
  ((StorageDemo.work, StorageDemo.file) = (StorageDemo.work, StorageDemo.file) ∨
   ∃ version key, Vault.keys StorageDemo.vault !! version = Some key ∧
     aad_for StorageDemo.work StorageDemo.file ≠ aad_for StorageDemo.work StorageDemo.file ∧
     open key (drop 5 StorageDemo.raw) (str_bytes (aad_for StorageDemo.work StorageDemo.file)) = Ok [7]%N ∧
     open key (drop 5 StorageDemo.raw) (str_bytes (aad_for StorageDemo.work StorageDemo.file)) = Ok [7]%N) ∧
  (read_file StorageDemo.vault "home" StorageDemo.file (World.with_faults w' [])).2 ≠ Ok [7]%N.
Proof.
  intros w'. split.
  - apply (envelope_bound_to_its_path StorageDemo.vault StorageDemo.work StorageDemo.file StorageDemo.work StorageDemo.file
      StorageDemo.raw [7]%N [7]%N StorageDemo.world1 w').
    + reflexivity.
    + reflexivity.
    + vm_compute. reflexivity.
    + exact StorageDemo.world1_reads.
    + vm_compute. reflexivity.
    + vm_compute. reflexivity.
  - intros Hpt.
    destruct (envelope_bound_to_its_path StorageDemo.vault StorageDemo.work StorageDemo.file "home" StorageDemo.file
      StorageDemo.raw [7]%N [7]%N StorageDemo.world1 w') as [E|(version & key & _ & Hne & H1 & H2)].
    + reflexivity.
    + reflexivity.
    + vm_compute. reflexivity.
    + exact StorageDemo.world1_reads.
    + vm_compute. reflexivity.
    + exact Hpt.
    + discriminate E.
    + apply Hne, str_bytes_inj. by eapply demo_aad_binding.
Defined.

Lemma manifest_tamper_evident_witness :
  manifest_auth_bytes StorageDemo.manifest = manifest_auth_bytes Manifest.default ∨
  (manifest_auth_bytes StorageDemo.manifest ≠ manifest_auth_bytes Manifest.default ∧
   hmac_sha256 StorageDemo.auth (manifest_auth_bytes StorageDemo.manifest)
   = hmac_sha256 StorageDemo.auth (manifest_auth_bytes Manifest.default)).
Proof.
  eapply (manifest_tamper_evident StorageDemo.auth StorageDemo.manifest Manifest.default StorageDemo.world0).
  - vm_compute. reflexivity.
  - reflexivity.
Defined.

Lemma migration_endorses_only_reviewed_witness :
  let w := World.mk {[ [] := Directory; [MANIFEST_FILE] := File (manifest_pretty Manifest.default) ]} ∅ [] ∅ 0 [] in
  let r := migrate_legacy_manifest StorageDemo.auth "00" w in
  (World.disk r.1 !! [MANIFEST_FILE] = World.disk w !! [MANIFEST_FILE] ∧ is_ok r.2 = false) ∨
  (decode_hex_32 "00" "expected manifest SHA-256" = Ok (sha256 (manifest_auth_bytes Manifest.default)) ∧
   VaultDisk (World.disk r.1) StorageDemo.auth (authenticate_manifest Manifest.default StorageDemo.auth)).
Proof.
  cbv zeta. apply migration_endorses_only_reviewed.
  - split; [reflexivity|]. split; [eexists; split; vm_compute; reflexivity|]. split; [reflexivity|].
    intros n. vm_compute. discriminate.
  - reflexivity.
  - apply surjective_pairing.
Defined.
