(* ===== verification/Keychain.v ===== *)
(** * sv-keychain/src/lib.rs: the operating system's credential store

    The [keyring] crate and the platform behind it are parameters: a call of it meets the
    next fault of the world, and the class [Backend] says which error of that crate a
    failure is.  What this crate adds is here: which errors mean an absent entry, how the
    others are named, and the probe that decides whether the store can be used. *)
From stdpp Require Import pretty.
From S2P Require Import Prelude Fs.

Definition SERVICE : string := "sovereign-vault".
Definition ACCOUNT : string := "master-key".

Module KeychainError.
Inductive t :=
| Unavailable (message : string)
| NotFound (account : string)
| Backend (message : string).
#[global] Instance t_eq_dec : EqDecision t.
Proof. solve_decision. Defined.
Definition to_string (e : t) : string :=
  match e with
  | Unavailable m => "Keychain unavailable: " +:+ m
  | NotFound m => "Item not found: " +:+ m
  | Backend m => "Backend error: " +:+ m
  end.
End KeychainError.

Module CustodyMode.
Inductive t := OsKeychain | Passphrase | Recovery.
#[global] Instance t_eq_dec : EqDecision t.
Proof. solve_decision. Defined.
End CustodyMode.

Module KeychainAvailability.
Record t := mk { backend : string; available : bool; error : option string }.
End KeychainAvailability.

(** [keyring::Error]. *)
Inductive keyring_error :=
| NoEntry
| NoStorageAccess (inner : string)
| PlatformFailure (inner : string)
| BadEncoding
| TooLong (attribute : string) (limit : N)
| Invalid (attribute reason : string)
| Ambiguous (items : nat)
| OtherError (text : string).

(** The platform: its name, the error a failing call reports, the process id and the
    clock.  A failure is not the report that an entry is absent. *)
Class Backend := {
  platform_backend : string;
  failure_kind : string → keyring_error;
  process_id : N;
  clock_nanos : World.t → N
}.

Class BackendLaws `{Backend} : Prop := {
  failure_not_absence m : failure_kind m ≠ NoEntry
}.

Section keychain.
Context `{BK : Backend}.

Definition format_platform_error (detail : string) : string := platform_backend +:+ ": " +:+ detail.

Definition keyring_error_for_account (account : string) (e : keyring_error) : KeychainError.t :=
  match e with
  | NoEntry => KeychainError.NotFound account
  | NoStorageAccess inner => KeychainError.Unavailable (format_platform_error inner)
  | PlatformFailure inner => KeychainError.Backend (format_platform_error inner)
  | BadEncoding => KeychainError.Backend "stored keychain credential is not valid UTF-8"
  | TooLong attribute limit => KeychainError.Backend ("keychain attribute '" +:+ attribute
      +:+ "' exceeds the platform limit of " +:+ pretty limit +:+ " characters")
  | Invalid attribute reason => KeychainError.Backend ("keychain attribute '" +:+ attribute
      +:+ "' is invalid: " +:+ reason)
  | Ambiguous items => KeychainError.Backend ("multiple keychain credentials matched account '"
      +:+ account +:+ "' (" +:+ pretty items +:+ ")")
  | OtherError text => KeychainError.Backend (format_platform_error text)
  end.

(** ** Calls of the [keyring] crate *)

(** [Entry::new]. *)
Definition entry_new (account : string) : M keyring_error unit := λ w,
  let '(ft, w1) := World.next w in
  match ft with Done => (w1, Ok tt) | Fails _ m => (w1, Err (failure_kind m)) end.

Definition get_password (account : string) : M keyring_error string := λ w,
  let '(ft, w1) := World.next w in
  match ft with
  | Done => (w1, match World.keychain w !! account with Some s => Ok s | None => Err NoEntry end)
  | Fails _ m => (w1, Err (failure_kind m))
  end.

(** A change of the store: done, or failed before or after it took effect. *)
Definition change_store (f : gmap string string → gmap string string) : M keyring_error unit := λ w,
  let '(ft, w1) := World.next w in
  match ft with
  | Done => (World.with_keychain w1 (f (World.keychain w)), Ok tt)
  | Fails 0 m => (w1, Err (failure_kind m))
  | Fails (S _) m => (World.with_keychain w1 (f (World.keychain w)), Err (failure_kind m))
  end.

Definition set_password (account b64 : string) : M keyring_error unit := change_store (<[account := b64]>).

Definition delete_credential (account : string) : M keyring_error unit := λ w,
  match World.keychain w !! account with
  | None => let '(ft, w1) := World.next w in
            (w1, Err (match ft with Done => NoEntry | Fails _ m => failure_kind m end))
  | Some _ => change_store (delete account) w
  end.

(** ** The functions of the crate *)

Definition entry_for_account (account : string) : M KeychainError.t unit :=
  errmap (keyring_error_for_account account) (entry_new account).

Definition store_account (account b64 : string) : M KeychainError.t unit :=
  let! _ := entry_for_account account in
  errmap (keyring_error_for_account account) (set_password account b64).

Definition load_account (account : string) : M KeychainError.t (option string) :=
  let! _ := entry_for_account account in
  let! found := attempt (get_password account) in
  match found with
  | Ok s => ret (Some s)
  | Err NoEntry => ret None
  | Err other => fail (keyring_error_for_account account other)
  end.

Definition delete_account (account : string) : M KeychainError.t unit :=
  let! _ := entry_for_account account in
  let! done := attempt (delete_credential account) in
  match done with
  | Ok _ | Err NoEntry => ret tt
  | Err other => fail (keyring_error_for_account account other)
  end.

Definition store_master_key (b64 : string) : M KeychainError.t unit := store_account ACCOUNT b64.
Definition store_master_key_for_account (account b64 : string) : M KeychainError.t unit :=
  store_account account b64.
Definition load_master_key : M KeychainError.t (option string) := load_account ACCOUNT.
Definition load_master_key_for_account (account : string) : M KeychainError.t (option string) :=
  load_account account.
Definition delete_master_key : M KeychainError.t unit := delete_account ACCOUNT.
Definition delete_master_key_for_account (account : string) : M KeychainError.t unit :=
  delete_account account.

Definition PROBE : string := "sovereign-vault-keychain-probe".

Definition probe_account (w : World.t) : string :=
  "availability-probe-" +:+ pretty process_id +:+ "-" +:+ pretty (clock_nanos w).

Definition roundtrip_probe : M KeychainError.t unit := λ w,
  let account := probe_account w in
  (let! _ := store_master_key_for_account account PROBE in
   let! loaded := attempt (load_master_key_for_account account) in
   let! delete_result := attempt (delete_master_key_for_account account) in
   let! _ := lift (delete_result : result unit KeychainError.t) in
   let! loaded := lift loaded in
   match loaded with
   | Some actual =>
       if bool_decide (actual = PROBE) then ret tt
       else fail (KeychainError.Backend (platform_backend +:+ " returned a different probe credential"))
   | None => fail (KeychainError.Backend (platform_backend +:+ " did not return the probe credential"))
   end) w.

Definition availability {E} : M E KeychainAvailability.t :=
  let! r := attempt roundtrip_probe in
  ret (match r with
       | Ok _ => KeychainAvailability.mk platform_backend true None
       | Err e => KeychainAvailability.mk platform_backend false (Some (KeychainError.to_string e))
       end).

Definition ensure_available : M KeychainError.t unit :=
  let! a := availability in
  if KeychainAvailability.available a then ret tt
  else fail (KeychainError.Unavailable
               (default (platform_backend +:+ " is unavailable") (KeychainAvailability.error a))).
End keychain.
