(* ===== verification/Recovery.v ===== *)
(** * sv-recovery/src/lib.rs: the recovery bundle

    [recovery.svault] holds a copy of the data key sealed under a key derived from a
    24-word phrase.  The word list and its checksum belong to the [bip39] crate: the class
    [Bip39] has its two conversions, each with the normalised spelling it gives. *)
From stdpp Require Import pretty.
From S2P Require Import Prelude Fs Crypto.

Definition RECOVERY_AAD : list N := str_bytes "sv-recovery-v1".
Definition RECOVERY_VERSION : N := 1.
Definition RECOVERY_FILE : string := "recovery.svault".
Definition PROVIDER_ID : string := "bip39-24".

Module RecoveryError.
Inductive t :=
| InvalidCode (message : string)
| Provider (message : string)
| Io (e : io_error)
| Encoding (message : string)
| Base64 (message : string)
| Crypto (e : CryptoError.t).
#[global] Instance t_eq_dec : EqDecision t.
Proof. solve_decision. Defined.
End RecoveryError.

Module RecoveryBundle.
Record t := mk {
  version : N;
  provider : string;
  dek_version : option N;
  salt_b64 : string;
  wrapped_key_b64 : string
}.
#[global] Instance t_eq_dec : EqDecision t.
Proof. solve_decision. Defined.
End RecoveryBundle.

Module RecoveredMasterKey.
Record t := mk { master_key : MasterKey; dek_version : option N }.
End RecoveredMasterKey.

(** [serde_json] for one type: the form that is stored, and reading it. *)
Class Json (A : Type) := {
  to_vec_pretty : A → list N;
  from_slice : list N → result A string
}.
Class JsonLaws (A : Type) `{Json A} : Prop := {
  from_slice_pretty (a : A) : from_slice (to_vec_pretty a) = Ok a
}.

(** [Mnemonic::from_entropy_in] and [Mnemonic::parse_in_normalized], each followed by
    [to_string]. *)
Class Bip39 := {
  mnemonic_of_entropy : list N → result string string;
  mnemonic_parse : string → result string string
}.
Class Bip39Laws `{Bip39} : Prop := {
  mnemonic_round entropy : length entropy = 32 →
    ∃ phrase, mnemonic_of_entropy entropy = Ok phrase ∧ mnemonic_parse phrase = Ok phrase
}.

Section recovery.
Context `{OS : Os} `{PR : Prims} `{BJ : !Json RecoveryBundle.t} `{BP : Bip39}.

Definition io {A} (m : M io_error A) : M RecoveryError.t A := errmap RecoveryError.Io m.
Definition crypto {A} (m : M CryptoError.t A) : M RecoveryError.t A := errmap RecoveryError.Crypto m.
Definition decode_b64 (s : string) : result (list N) RecoveryError.t :=
  match b64_decode s with Ok b => Ok b | Err e => Err (RecoveryError.Base64 e) end.
Definition of_crypto {A} (r : result A CryptoError.t) : result A RecoveryError.t :=
  match r with Ok v => Ok v | Err e => Err (RecoveryError.Crypto e) end.

(** ** The file *)

Definition ensure_directory_metadata (metadata : node) : result unit RecoveryError.t :=
  match metadata with
  | Directory => Ok tt
  | _ => Err (RecoveryError.Provider ("vault root is not a real directory: " +:+ show_path []))
  end.

Definition ensure_real_directory : M RecoveryError.t unit :=
  let! metadata := io (symlink_metadata []) in
  lift (ensure_directory_metadata metadata).

Definition ensure_real_directory_or_create : M RecoveryError.t unit :=
  let! metadata := attempt (symlink_metadata []) in
  match metadata with
  | Ok metadata => lift (ensure_directory_metadata metadata)
  | Err NotFound =>
      let! _ := io (create_dir_all []) in
      ensure_real_directory
  | Err error => fail (RecoveryError.Io error)
  end.

Definition ensure_regular_file (p : path) (label : string) : M RecoveryError.t unit :=
  let! metadata := io (symlink_metadata p) in
  match metadata with
  | File _ => ret tt
  | _ => fail (RecoveryError.Provider (label +:+ " is not a regular file: " +:+ show_path p))
  end.

Definition ensure_regular_file_or_missing (p : path) (label : string) : M RecoveryError.t unit :=
  let! metadata := attempt (symlink_metadata p) in
  match metadata with
  | Ok _ => ensure_regular_file p label
  | Err NotFound => ret tt
  | Err error => fail (RecoveryError.Io error)
  end.

Definition has_recovery_bundle {E} : M E bool :=
  let! metadata := attempt (symlink_metadata [RECOVERY_FILE]) in
  ret (match metadata with Ok (File _) => true | _ => false end).

Definition read_bundle : M RecoveryError.t RecoveryBundle.t :=
  let! _ := ensure_real_directory in
  let p := [RECOVERY_FILE] in
  let! _ := ensure_regular_file p "recovery bundle" in
  let! raw := errmap (λ e, RecoveryError.Io (match e with
      | OtherIo m => OtherIo (m +:+ " (" +:+ show_path p +:+ ")") | e => e end)) (fs_read p) in
  lift (match from_slice raw with Ok b => Ok b | Err e => Err (RecoveryError.Encoding e) end).

(** The name of the temporary file is drawn at random; the file is not part of the
    state. *)
Definition create_secure_temp : M RecoveryError.t unit :=
  let! _ := crypto (random_bytes 12) in
  io write_temp.

Definition write_bundle (bundle : RecoveryBundle.t) : M RecoveryError.t unit :=
  let! _ := ensure_real_directory_or_create in
  let p := [RECOVERY_FILE] in
  let! _ := ensure_regular_file_or_missing p "recovery bundle" in
  let bytes := to_vec_pretty bundle in
  let! _ := create_secure_temp in
  let! _ := ensure_regular_file_or_missing p "recovery bundle" in
  let! _ := io (replace_atomic p bytes) in
  io (sync_dir []).

(** ** Issuing and restoring *)

Definition issue_recovery_phrase_inner (master : MasterKey) (dek_version : option N) :
    M RecoveryError.t string :=
  let! entropy := crypto (random_bytes 32) in
  let! phrase := lift (match mnemonic_of_entropy entropy with
                       | Ok p => Ok p | Err e => Err (RecoveryError.Provider e) end) in
  let! salt := crypto random_salt in
  let! recovery_key := lift (of_crypto (from_passphrase phrase salt)) in
  let! wrapped_key := crypto (seal recovery_key master RECOVERY_AAD) in
  let bundle := RecoveryBundle.mk RECOVERY_VERSION PROVIDER_ID dek_version
                  (b64_encode salt) (b64_encode wrapped_key) in
  let! _ := write_bundle bundle in
  ret phrase.

Definition issue_recovery_phrase (master : MasterKey) : M RecoveryError.t string :=
  issue_recovery_phrase_inner master None.

Definition issue_recovery_phrase_for_version (master : MasterKey) (dek_version : N) :
    M RecoveryError.t string :=
  if (dek_version =? 0)%N then
    fail (RecoveryError.Provider "recovery DEK version must be greater than zero")
  else issue_recovery_phrase_inner master (Some dek_version).

Definition open_bundle (phrase : string) (bundle : RecoveryBundle.t) :
    result RecoveredMasterKey.t RecoveryError.t :=
  if negb (RecoveryBundle.version bundle =? RECOVERY_VERSION)%N then
    Err (RecoveryError.Provider ("unsupported recovery bundle version: "
           +:+ pretty (RecoveryBundle.version bundle)))
  else
    let? salt := decode_b64 (RecoveryBundle.salt_b64 bundle) in
    if negb (length salt =? SALT_LEN) then
      Err (RecoveryError.Provider ("invalid recovery salt length: " +:+ pretty (length salt)))
    else
      let? wrapped_key := decode_b64 (RecoveryBundle.wrapped_key_b64 bundle) in
      let? recovery_key := of_crypto (from_passphrase phrase salt) in
      let? raw := of_crypto (open recovery_key wrapped_key RECOVERY_AAD) in
      if negb (length raw =? MASTER_KEY_LEN) then
        Err (RecoveryError.Provider ("invalid recovered master-key length: " +:+ pretty (length raw)))
      else Ok (RecoveredMasterKey.mk raw (RecoveryBundle.dek_version bundle)).

Definition restore_master_key_with_version (phrase : string) : M RecoveryError.t RecoveredMasterKey.t :=
  let! normalized := lift (match mnemonic_parse phrase with
                           | Ok p => Ok p | Err e => Err (RecoveryError.InvalidCode e) end) in
  let! bundle := read_bundle in
  lift (open_bundle normalized bundle).

Definition restore_master_key (phrase : string) : M RecoveryError.t MasterKey :=
  let! r := restore_master_key_with_version phrase in
  ret (RecoveredMasterKey.master_key r).
End recovery.
