(* ===== verification/Core.v ===== *)
(** * sv-core/src/lib.rs: errors and the file helpers of the core

    Every file of the core lies directly under the vault root.  The keyring and the
    transit stores carry their own copies of these helpers, word for word. *)
From stdpp Require Import pretty.
From S2P Require Import Prelude Text AuditTypes Fs Crypto Storage Keychain Recovery.

(** An error of the MCP or HTTP layer is its text; no operation modelled here returns
    one. *)
Module CoreError.
Inductive t :=
| Crypto (e : CryptoError.t)
| Storage (e : StorageError.t)
| Keychain (e : KeychainError.t)
| Recovery (e : RecoveryError.t)
| Audit (e : AuditError.t)
| Mcp (message : string)
| Http (message : string)
| Io (e : io_error)
| Base64 (message : string)
| Misuse (message : string)
| VaultLocked (p : path).
End CoreError.

(** ** [Display] *)

Definition io_display (e : io_error) : string :=
  match e with
  | NotFound => "No such file or directory (os error 2)"
  | AlreadyExists => "File exists (os error 17)"
  | OtherIo m => m
  end.

Definition crypto_display (e : CryptoError.t) : string :=
  match e with
  | CryptoError.Aead m => "AEAD operation failed: " +:+ m
  | CryptoError.Kdf m => "Key derivation failed: " +:+ m
  | CryptoError.Encoding m => "Encoding error: " +:+ m
  | CryptoError.Random m => "Random number generation failed: " +:+ m
  | CryptoError.SigningKey m => "Invalid signing key: " +:+ m
  end.

Definition storage_display (e : StorageError.t) : string :=
  match e with
  | StorageError.Io e => "I/O: " +:+ io_display e
  | StorageError.Manifest m => "Manifest: " +:+ m
  | StorageError.InvalidPath m => "Invalid path: " +:+ m
  | StorageError.State m => "Vault state: " +:+ m
  | StorageError.Crypto e => crypto_display e
  | StorageError.Serde m => "Serde: " +:+ m
  end.

Definition recovery_display (e : RecoveryError.t) : string :=
  match e with
  | RecoveryError.InvalidCode m => "Invalid recovery code: " +:+ m
  | RecoveryError.Provider m => "Provider error: " +:+ m
  | RecoveryError.Io e => "I/O: " +:+ io_display e
  | RecoveryError.Encoding m => "Encoding: " +:+ m
  | RecoveryError.Base64 m => "Base64: " +:+ m
  | RecoveryError.Crypto e => crypto_display e
  end.

Definition core_display `{Os} (e : CoreError.t) : string :=
  match e with
  | CoreError.Crypto e => crypto_display e
  | CoreError.Storage e => storage_display e
  | CoreError.Keychain e => KeychainError.to_string e
  | CoreError.Recovery e => recovery_display e
  | CoreError.Audit e => AuditError.to_string e
  | CoreError.Mcp m | CoreError.Http m | CoreError.Misuse m => m
  | CoreError.Io e => "I/O: " +:+ io_display e
  | CoreError.Base64 m => "Base64 decode: " +:+ m
  | CoreError.VaultLocked p => "vault is already open by another process (" +:+ show_path p +:+ ")"
  end.

Definition SALT_FILENAME : string := "master.salt".
Definition LIFECYCLE_FILE : string := ".lifecycle.json".
Definition LIFECYCLE_AAD : list N := str_bytes "sv-lifecycle-phrase-v1".
Definition VAULT_LOCK_FILE : string := ".vault.lock".
Definition MIN_PASSPHRASE_CHARS : nat := 16.
Definition MATERIAL_WRAP_CONTEXT : list N := str_bytes "sv-transit-wrap-v1".

(** ** [?] with [From] *)

Definition io {A} (m : M io_error A) : M CoreError.t A := errmap CoreError.Io m.
Definition crypto {A} (m : M CryptoError.t A) : M CoreError.t A := errmap CoreError.Crypto m.
Definition of_crypto {A} (r : result A CryptoError.t) : result A CoreError.t :=
  match r with Ok v => Ok v | Err e => Err (CoreError.Crypto e) end.
Definition misuse {A} (m : string) : M CoreError.t A := fail (CoreError.Misuse m).

Section helpers.
Context `{OS : Os} `{PR : Prims}.

Definition decode_b64 (s : string) : result (list N) CoreError.t :=
  match b64_decode s with Ok b => Ok b | Err e => Err (CoreError.Base64 e) end.

(** ** Directories and regular files *)

Definition missing_as_misuse (p : path) (label : string) (e : io_error) : CoreError.t :=
  match e with
  | NotFound => CoreError.Misuse (label +:+ " does not exist: " +:+ show_path p)
  | e => CoreError.Io e
  end.

Definition ensure_directory (p : path) (label : string) : M CoreError.t unit :=
  let! metadata := errmap (missing_as_misuse p label) (symlink_metadata p) in
  match metadata with
  | Directory => ret tt
  | _ => misuse (label +:+ " is not a real directory: " +:+ show_path p)
  end.

Definition ensure_regular_file (p : path) (label : string) : M CoreError.t unit :=
  let! metadata := errmap (missing_as_misuse p label) (symlink_metadata p) in
  match metadata with
  | File _ => ret tt
  | _ => misuse (label +:+ " is not a regular file: " +:+ show_path p)
  end.

Definition ensure_destination_is_regular_or_missing (p : path) (label : string) : M CoreError.t unit :=
  let! metadata := attempt (symlink_metadata p) in
  match metadata with
  | Ok _ => ensure_regular_file p label
  | Err NotFound => ret tt
  | Err error => fail (CoreError.Io error)
  end.

Definition path_entry_exists {E} (p : path) : M E bool :=
  let! metadata := attempt (symlink_metadata p) in
  ret (is_ok metadata).

Definition sync_parent (p : path) : M CoreError.t unit := io (sync_dir p).

(** The name of the temporary file is drawn at random; the file is not part of the
    state. *)
Definition create_secure_temp : M CoreError.t unit :=
  let! _ := crypto (random_bytes 12) in
  io write_temp.

Definition write_atomic (p : path) (bytes : list N) : M CoreError.t unit :=
  let! _ := ensure_directory (parent p) "atomic destination parent" in
  let! _ := ensure_destination_is_regular_or_missing p "atomic destination" in
  let! _ := create_secure_temp in
  let! _ := ensure_destination_is_regular_or_missing p "atomic destination" in
  let! _ := io (replace_atomic p bytes) in
  sync_parent (parent p).

Definition remove_file_durable (p : path) : M CoreError.t unit :=
  let! metadata := attempt (symlink_metadata p) in
  match metadata with
  | Err NotFound => ret tt
  | Err error => fail (CoreError.Io error)
  | Ok _ =>
      let! _ := ensure_regular_file p "file removal target" in
      let! removed := attempt (remove_file p) in
      match removed with
      | Ok _ => sync_parent (parent p)
      | Err NotFound => ret tt
      | Err error => fail (CoreError.Io error)
      end
  end.

(** ** Passphrases and salts *)

Definition validate_new_passphrase (passphrase : string) : result unit CoreError.t :=
  let length := length (chars passphrase) in
  if (length <? MIN_PASSPHRASE_CHARS)%nat then
    Err (CoreError.Misuse ("new passphrases must contain at least " +:+ pretty MIN_PASSPHRASE_CHARS
      +:+ " characters (received " +:+ pretty length +:+ "); use a long, unique passphrase"))
  else Ok tt.

Definition read_salt : M CoreError.t (list N) :=
  let p := [SALT_FILENAME] in
  let! _ := ensure_regular_file p "passphrase salt" in
  let! raw := io (fs_read p) in
  if negb (length raw =? SALT_LEN)%nat then
    misuse ("master.salt has wrong length: " +:+ pretty (length raw))
  else ret raw.

Definition decode_salt (encoded : string) : result (list N) CoreError.t :=
  let? raw := decode_b64 encoded in
  if negb (length raw =? SALT_LEN)%nat then
    Err (CoreError.Misuse ("journal salt has wrong length: " +:+ pretty (length raw)))
  else Ok raw.

Definition derive_passphrase_kek (passphrase : string) : M CoreError.t MasterKey :=
  let! salt := read_salt in
  lift (of_crypto (from_passphrase passphrase salt)).

(** ** Permissions *)

Definition ensure_directory_metadata (metadata : node) (label : string) : result unit CoreError.t :=
  match metadata with
  | Directory => Ok tt
  | _ => Err (CoreError.Misuse (label +:+ " is not a real directory"))
  end.

Definition ensure_regular_file_metadata (metadata : node) (label : string) : result unit CoreError.t :=
  match metadata with
  | File _ => Ok tt
  | _ => Err (CoreError.Misuse (label +:+ " is not a regular file"))
  end.

Definition secure_core_directory (p : path) : M CoreError.t unit :=
  let! found := io (metadata_mode p) in
  let '(metadata, mode) := found in
  let! _ := lift (ensure_directory_metadata metadata "vault root") in
  if negb (N.land mode 511 =? 448)%N then io (set_permissions p 448) else ret tt.

Definition secure_core_regular_file (p : path) : M CoreError.t unit :=
  let! found := io (metadata_mode p) in
  let '(metadata, mode) := found in
  let! _ := lift (ensure_regular_file_metadata metadata "core file") in
  if negb (N.land mode 511 =? 384)%N then io (set_permissions p 384) else ret tt.

Definition create_private_directory_all : M CoreError.t unit :=
  let! _ := io (create_dir_all []) in
  secure_core_directory [].
End helpers.
