(* ===== verification/CoreSpec.v ===== *)
(** * Specifications of the core's file helpers and of the recovery bundle

    What each helper leaves on disk, on success and on failure, for the calculus of
    [Fs]. *)
From S2P Require Import Prelude Text AuditTypes Fs Crypto Storage StorageSpec Keychain Recovery Core.

(** Rewrites the disks of worlds that read-only steps lead to. *)
Ltac disks :=
  repeat match goal with H : same ?a ?b |- context [World.disk ?b] => rewrite (same_disk a b H) end.

Section core_spec.
Context `{OS : Os} `{OSL : !OsLaws} `{PR : Prims} `{PRL : !PrimLaws}.
Implicit Types (w : World.t) (p : path) (d : gmap path node).

Definition root_ok d : Prop := d !! [] = Some Directory.

Lemma reads_core_io {A} (m : M io_error A) v w : reads m v w → reads (io m) v w.
Proof. apply reads_errmap. Qed.

Lemma reads_core_directory p label w :
  World.disk w !! p = Some Directory → reads (ensure_directory p label) tt w.
Proof.
  intros Hd. eapply reads_bind; [by eapply reads_errmap, reads_metadata|]. intros w1 Hs. apply reads_ret.
Qed.

Lemma reads_core_regular p label bytes w :
  World.disk w !! p = Some (File bytes) → reads (ensure_regular_file p label) tt w.
Proof.
  intros Hd. eapply reads_bind; [by eapply reads_errmap, reads_metadata|]. intros w1 Hs. apply reads_ret.
Qed.

Lemma refuses_core_regular p label w :
  World.disk w !! p = None → refuses (ensure_regular_file p label) w.
Proof.
  intros Hd. apply refuses_bind_l, refuses_errmap. apply (refuses_io _ NotFound). unfold metadata_of. by rewrite Hd.
Qed.

Lemma regular_cases d p : regular_or_missing d p → d !! p = None ∨ ∃ b, d !! p = Some (File b).
Proof. intros H. destruct (d !! p) as [n|] eqn:E; [|by left]. destruct (H n E) as [b ->]. eauto. Qed.

Lemma core_destination p label w :
  regular_or_missing (World.disk w) p → reads (ensure_destination_is_regular_or_missing p label) tt w.
Proof.
  intros Hp. apply wp_bind, wp_attempt, wp_io_read.
  - intros w' Hs. unfold metadata_of. destruct (regular_cases _ _ Hp) as [E | [b E]]; rewrite E.
    + split; [done|by left].
    + eapply reads_after; [exact Hs|]. eapply (reads_core_regular _ _ b). by rewrite (same_disk _ _ Hs).
  - intros w' m Hs Hq. split; [done|]. right. eauto.
Qed.

Lemma yields_core_temp w : yields create_secure_temp w (λ _, True).
Proof.
  eapply yields_bind; [apply yields_errmap, yields_random|]. intros b w' Hs _.
  eapply yields_reads; [apply reads_core_io, reads_temp|done].
Qed.

(** The disk, or the disk with the file replaced. *)
Definition maybe (d d' d1 : gmap path node) : Prop := d1 = d ∨ d1 = d'.

(** The common end of every replacement: destination checked, renamed over, synced. *)
Lemma replace_spec p label bytes w d :
  World.disk w = d → regular_or_missing d p →
  triple False (let! _ := create_secure_temp in
                let! _ := ensure_destination_is_regular_or_missing p label in
                let! _ := io (replace_atomic p bytes) in sync_parent []) w
    (λ _ d', d' = put p bytes d) (maybe d (put p bytes d)).
Proof.
  intros <- Hp. eapply triple_bind_yields; [apply yields_core_temp| |by left].
  intros _ w1 H1 _. eapply triple_bind_reads; [apply core_destination; by disks| |disks; by left].
  intros w2 H2. eapply (triple_then _ _ _ _ (λ _ d', d' = put p bytes (World.disk w))
                          (maybe (World.disk w) (put p bytes (World.disk w)))).
  - apply triple_errmap, triple_atomic; unfold maybe; disks; auto.
  - done.
  - intros [] w3 H3 Hd3. eapply triple_reads; [apply reads_core_io, reads_sync| |]; rewrite Hd3; [done|by right].
Qed.

Lemma write_atomic_spec (name : string) bytes w d :
  World.disk w = d → root_ok d → regular_or_missing d [name] →
  triple False (write_atomic [name] bytes) w (λ _ d', d' = put [name] bytes d)
    (maybe d (put [name] bytes d)).
Proof.
  intros <- Hr Hp. unfold write_atomic. cbn [parent removelast].
  eapply triple_bind_reads; [by apply reads_core_directory| |by left]. intros w1 H1.
  eapply triple_bind_reads; [apply core_destination; by disks| |disks; by left].
  intros w2 H2. apply replace_spec; [by disks|done].
Qed.

(** Removing a regular file: it is gone, or it may still be there. *)
Lemma remove_spec p label w d :
  World.disk w = d → regular_or_missing d p →
  triple False (let! metadata := attempt (symlink_metadata p) in
    match metadata with
    | Err NotFound => ret tt
    | Err error => fail (CoreError.Io error)
    | Ok _ =>
        let! _ := ensure_regular_file p label in
        let! removed := attempt (remove_file p) in
        match removed with
        | Ok _ => sync_parent []
        | Err NotFound => ret tt
        | Err error => fail (CoreError.Io error)
        end
    end) w (λ _ d', d' = delete p d) (maybe d (delete p d)).
Proof.
  intros <- Hp. apply triple_bind_metadata.
  - intros w1 H1. unfold metadata_of. destruct (regular_cases _ _ Hp) as [E | [b E]]; rewrite E.
    + apply triple_ret. rewrite (same_disk _ _ H1). by rewrite delete_id.
    + eapply triple_bind_reads; [eapply reads_core_regular; by rewrite (same_disk _ _ H1)| |left; by apply same_disk].
      intros w2 H2. assert (World.disk w2 = World.disk w) as E2 by (by rewrite (same_disk _ _ H2), (same_disk _ _ H1)).
      eapply triple_bind_remove; [by rewrite E2|..]; rewrite E2.
      * intros w3 H3 Hd3. eapply triple_reads; [apply reads_core_io, reads_sync| |]; rewrite Hd3; [done|by right].
      * intros w3 m H3 Hd3. by apply triple_fail.
  - intros w1 m H1. apply triple_fail; [done|]. left. by apply same_disk.
Qed.
Lemma remove_file_durable_spec (name : string) w d :
  World.disk w = d → regular_or_missing d [name] →
  triple False (remove_file_durable [name]) w (λ _ d', d' = delete [name] d) (maybe d (delete [name] d)).
Proof. apply remove_spec. Qed.

(** ** Salts *)

Definition salt_at d salt : Prop := d !! [SALT_FILENAME] = Some (File salt) ∧ length salt = SALT_LEN.

Lemma reads_salt salt w : salt_at (World.disk w) salt → reads read_salt salt w.
Proof.
  intros [Hd Hl]. eapply reads_bind; [by eapply reads_core_regular|]. intros w1 H1.
  eapply reads_bind; [eapply reads_core_io, reads_fs_read; by disks|]. intros w2 H2.
  rewrite Hl, Nat.eqb_refl. apply reads_ret.
Qed.

Definition kek_of (pass : string) (salt : list N) (kek : MasterKey) : Prop :=
  from_passphrase pass salt = Ok kek.

Lemma reads_kek pass salt kek w :
  salt_at (World.disk w) salt → kek_of pass salt kek → reads (derive_passphrase_kek pass) kek w.
Proof.
  intros Hs Hk. eapply reads_bind; [by apply reads_salt|]. intros w1 H1.
  apply reads_lift. by rewrite Hk.
Qed.

Lemma decode_salt_encode salt :
  length salt = SALT_LEN → Forall (λ b, (b < 256)%N) salt → decode_salt (b64_encode salt) = Ok salt.
Proof. intros Hl Hb. unfold decode_salt, decode_b64. rewrite (b64_round _ Hb). cbn. by rewrite Hl. Qed.
End core_spec.

(** ** The recovery bundle *)

Section recovery_spec.
Context `{OS : Os} `{OSL : !OsLaws} `{PR : Prims} `{PRL : !PrimLaws}.
Context `{BJ : !Json RecoveryBundle.t} `{BJL : !JsonLaws RecoveryBundle.t} `{BP : Bip39} `{BPL : !Bip39Laws}.
Implicit Types (w : World.t) (d : gmap path node).

Lemma recovery_destination (p : path) label w :
  regular_or_missing (World.disk w) p → reads (ensure_regular_file_or_missing p label) tt w.
Proof.
  intros Hp. apply wp_bind, wp_attempt, wp_io_read.
  - intros w' Hs. unfold metadata_of. destruct (regular_cases _ _ Hp) as [E | [b E]]; rewrite E.
    + split; [done|by left].
    + eapply reads_after; [exact Hs|]. eapply reads_bind; [eapply reads_errmap, reads_metadata; by disks|].
      intros. apply reads_ret.
  - intros w' m Hs Hq. split; [done|]. right. eauto.
Qed.

Lemma recovery_root w : root_ok (World.disk w) → reads ensure_real_directory_or_create tt w.
Proof.
  intros Hp. apply wp_bind, wp_attempt, wp_io_read.
  - intros w' Hs. unfold metadata_of. rewrite Hp. split; [done|by left].
  - intros w' m Hs Hq. split; [done|]. right. eauto.
Qed.

Lemma write_bundle_spec b w d :
  World.disk w = d → root_ok d → regular_or_missing d [RECOVERY_FILE] →
  triple False (write_bundle b) w (λ _ d', d' = put [RECOVERY_FILE] (to_vec_pretty b) d)
    (maybe d (put [RECOVERY_FILE] (to_vec_pretty b) d)).
Proof.
  intros <- Hr Hp. unfold write_bundle.
  eapply triple_bind_reads; [by apply recovery_root| |by left]. intros w1 H1.
  eapply triple_bind_reads; [apply recovery_destination; by disks| |disks; by left]. intros w2 H2.
  eapply (triple_bind_yields _ _ _ _ (λ _, True)).
  { eapply yields_bind; [apply yields_errmap, yields_random|]. intros b' w3 H3 _.
    eapply yields_reads; [apply reads_errmap, reads_temp|done]. }
  2: { disks. by left. }
  intros _ w3 H3 _.
  eapply triple_bind_reads; [apply recovery_destination; by disks| |disks; by left]. intros w4 H4.
  eapply (triple_then _ _ _ _ (λ _ d', d' = put [RECOVERY_FILE] (to_vec_pretty b) (World.disk w))
            (maybe (World.disk w) (put [RECOVERY_FILE] (to_vec_pretty b) (World.disk w)))).
  - apply triple_errmap, triple_atomic; unfold maybe; disks; auto.
  - done.
  - intros [] w5 H5 Hd5. eapply triple_reads; [apply reads_errmap, reads_sync| |]; rewrite Hd5; [done|by right].
Qed.

(** The bundle on disk restores [key] and [version] from [phrase]. *)
Definition bundle_at d (phrase : string) (key : MasterKey) (version : option N) : Prop :=
  ∃ raw b, d !! [RECOVERY_FILE] = Some (File raw) ∧ from_slice raw = Ok b ∧
    mnemonic_parse phrase = Ok phrase ∧ open_bundle phrase b = Ok (RecoveredMasterKey.mk key version).

Lemma open_issued phrase salt rk sealed key version :
  length salt = SALT_LEN → Forall (λ b, (b < 256)%N) salt → length key = MASTER_KEY_LEN →
  from_passphrase phrase salt = Ok rk → sealed_as rk key RECOVERY_AAD sealed →
  open_bundle phrase (RecoveryBundle.mk RECOVERY_VERSION PROVIDER_ID version (b64_encode salt) (b64_encode sealed))
  = Ok (RecoveredMasterKey.mk key version).
Proof.
  intros Hl Hb Hk Hrk [Ho Hsb]. unfold open_bundle, Recovery.decode_b64. cbn [RecoveryBundle.version
    RecoveryBundle.salt_b64 RecoveryBundle.wrapped_key_b64 RecoveryBundle.dek_version].
  rewrite N.eqb_refl, (b64_round _ Hb), (b64_round _ Hsb). cbn [negb rbind]. rewrite Hl, Nat.eqb_refl. cbn [negb].
  rewrite Hrk. cbn [Recovery.of_crypto rbind]. rewrite Ho. cbn [Recovery.of_crypto rbind]. by rewrite Hk, Nat.eqb_refl.
Qed.

(** A replaced bundle: only the recovery file changes, to one that restores [key]. *)
Definition reissued d (key : MasterKey) (version : option N) (phrase : string) (d' : gmap path node) : Prop :=
  ∃ raw, d' = put [RECOVERY_FILE] raw d ∧ bundle_at d' phrase key version.

Lemma issue_spec key version w d :
  World.disk w = d → root_ok d → regular_or_missing d [RECOVERY_FILE] → length key = MASTER_KEY_LEN →
  triple False (issue_recovery_phrase_inner key version) w
    (λ phrase d', reissued d key version phrase d')
    (λ d', d' = d ∨ ∃ raw, d' = put [RECOVERY_FILE] raw d).
Proof.
  intros <- Hr Hp Hk. unfold issue_recovery_phrase_inner.
  eapply triple_bind_yields; [apply yields_errmap, yields_random| |by left]. intros entropy w1 H1 [He _].
  destruct (mnemonic_round entropy He) as (phrase & Hme & Hmp). rewrite Hme.
  eapply triple_bind_reads; [by apply reads_lift| |disks; by left]. intros w2 H2.
  eapply triple_bind_yields; [apply yields_errmap, yields_salt| |disks; by left]. intros salt w3 H3 [Hsl Hsb].
  destruct (from_passphrase_ok phrase salt Hsl) as (rk & Hrk & Hrkw). rewrite Hrk.
  eapply triple_bind_reads; [by apply reads_lift| |disks; by left]. intros w4 H4.
  eapply triple_bind_yields; [apply yields_errmap, yields_seal| |disks; by left]. intros sealed w5 H5 Hs.
  eapply triple_then; [apply write_bundle_spec; [reflexivity|by disks|by disks]| |].
  - disks. intros d' [-> | ->]; eauto.
  - cbn beta. disks. intros [] w6 H6 Hd6. apply triple_ret. rewrite Hd6. eexists. split; [reflexivity|].
    eexists _, _. split_and!; [unfold put; by rewrite lookup_insert, decide_True by done|apply from_slice_pretty|done|].
    by eapply open_issued.
Qed.

Lemma restore_reads phrase key version w :
  root_ok (World.disk w) → bundle_at (World.disk w) phrase key version →
  reads (restore_master_key_with_version phrase) (RecoveredMasterKey.mk key version) w.
Proof.
  intros Hr (raw & b & Hd & Hraw & Hp & Ho). unfold restore_master_key_with_version. rewrite Hp.
  eapply reads_bind; [by apply reads_lift|]. intros w1 H1.
  eapply (reads_bind _ _ b); [|intros; by apply reads_lift].
  eapply reads_bind.
  { eapply reads_bind; [eapply reads_errmap, reads_metadata; by disks|]. intros. by apply reads_lift. }
  intros w2 H2. eapply reads_bind.
  { eapply reads_bind; [eapply reads_errmap, reads_metadata; by disks|]. intros. by apply reads_ret. }
  intros w3 H3. eapply reads_bind; [eapply reads_errmap, reads_fs_read; by disks|]. intros w4 H4.
  apply reads_lift. by rewrite Hraw.
Qed.
End recovery_spec.
