(* ===== verification/Keyring.v ===== *)
(** * sv-core/src/keyring.rs: the keyring file

    [keyring.svault] maps version numbers to data keys, each sealed under the key that the
    custody method gives.  A change of custody prepares the new file under a second name
    and then renames it over the first. *)
From stdpp Require Import pretty.
From S2P Require Import Prelude Text Fs Crypto Recovery Core.

Definition KEYRING_FILE : string := "keyring.svault".
Definition STAGED_KEYRING_FILE : string := ".keyring.svault.next".
Definition KEYRING_AAD : list N := str_bytes "sv-keyring-v1".
Definition KEYRING_SCHEMA : N := 1.

Module WrappedDek.
Record t := mk { dek_version : N; wrapped_b64 : string }.
#[global] Instance t_eq_dec : EqDecision t.
Proof. solve_decision. Defined.
End WrappedDek.

Module KeyringFile.
Record t := mk {
  version : N;
  active_dek_version : N;
  min_decryption_version : N;
  entries : list WrappedDek.t
}.
#[global] Instance t_eq_dec : EqDecision t.
Proof. solve_decision. Defined.
Definition with_entries (kr : t) (l : list WrappedDek.t) : t :=
  mk (version kr) (active_dek_version kr) (min_decryption_version kr) l.
Definition with_active (kr : t) (v : N) : t :=
  mk (version kr) v (min_decryption_version kr) (entries kr).
Definition with_min (kr : t) (v : N) : t :=
  mk (version kr) (active_dek_version kr) v (entries kr).
End KeyringFile.

Module Unwrapped.
Record t := mk { keys : gmap N MasterKey; active_version : N }.
(** [None] is the panic of [expect]. *)
Definition active_dek (u : t) : option MasterKey := keys u !! active_version u.
End Unwrapped.

Section keyring.
Context `{OS : Os} `{PR : Prims} `{KJ : !Json KeyringFile.t}.

(** ** The files *)

Definition keyring_path : path := [KEYRING_FILE].
Definition staged_path : path := [STAGED_KEYRING_FILE].

Definition ensure_directory (p : path) (label : string) := Core.ensure_directory p label.
Definition ensure_regular_file (p : path) (label : string) := Core.ensure_regular_file p label.
Definition ensure_destination_is_regular_or_missing (p : path) (label : string) :=
  Core.ensure_destination_is_regular_or_missing p label.
Definition create_secure_temp := Core.create_secure_temp.
Definition sync_parent := Core.sync_parent.

Definition exists_keyring {E} : M E bool :=
  let! metadata := attempt (symlink_metadata keyring_path) in
  ret (is_ok metadata).

Definition read_keyring_file (p : path) : M CoreError.t KeyringFile.t :=
  let! _ := ensure_regular_file p "keyring" in
  let! raw := io (fs_read p) in
  let! kr := lift (match from_slice raw with
                   | Ok kr => Ok kr | Err e => Err (CoreError.Misuse ("keyring: " +:+ e)) end) in
  if negb (KeyringFile.version kr =? KEYRING_SCHEMA)%N then
    misuse ("unsupported keyring schema: " +:+ pretty (KeyringFile.version kr))
  else ret kr.

Definition read_keyring : M CoreError.t KeyringFile.t :=
  let! _ := ensure_directory [] "vault root" in
  read_keyring_file keyring_path.

Definition write_keyring_to (p : path) (kr : KeyringFile.t) : M CoreError.t unit :=
  let! _ := ensure_directory [] "vault root" in
  let! _ := ensure_destination_is_regular_or_missing p "keyring destination" in
  let bytes := to_vec_pretty kr in
  let! _ := create_secure_temp in
  let! _ := ensure_destination_is_regular_or_missing p "keyring destination" in
  let! _ := io (replace_atomic p bytes) in
  sync_parent [].

Definition write_keyring (kr : KeyringFile.t) : M CoreError.t unit := write_keyring_to keyring_path kr.
Definition write_staged_keyring (kr : KeyringFile.t) : M CoreError.t unit := write_keyring_to staged_path kr.

(** ** Wrapping *)

Definition wrap (kek dek : MasterKey) : M CoreError.t string :=
  let! sealed := crypto (seal kek dek KEYRING_AAD) in
  ret (b64_encode sealed).

Definition unwrap (kek : MasterKey) (wrapped_b64 : string) : result MasterKey CoreError.t :=
  let? sealed := decode_b64 wrapped_b64 in
  let? raw := of_crypto (open kek sealed KEYRING_AAD) in
  if negb (length raw =? MASTER_KEY_LEN)%nat then
    Err (CoreError.Misuse ("unwrapped DEK has wrong length: " +:+ pretty (length raw)))
  else Ok raw.

(** The loop over the entries of [unwrap_keyring]. *)
Fixpoint unwrap_entries (kek : MasterKey) (min : N) (keys : gmap N MasterKey)
    (entries : list WrappedDek.t) : result (gmap N MasterKey) CoreError.t :=
  match entries with
  | [] => Ok keys
  | entry :: rest =>
      if (WrappedDek.dek_version entry <? min)%N then unwrap_entries kek min keys rest
      else
        let? dek := unwrap kek (WrappedDek.wrapped_b64 entry) in
        unwrap_entries kek min (<[WrappedDek.dek_version entry := dek]> keys) rest
  end.

Definition unwrap_keyring (kr : KeyringFile.t) (kek : MasterKey) : result Unwrapped.t CoreError.t :=
  let? keys := unwrap_entries kek (KeyringFile.min_decryption_version kr) ∅ (KeyringFile.entries kr) in
  if bool_decide (keys !! KeyringFile.active_dek_version kr = None) then
    Err (CoreError.Misuse "keyring active version is not decryptable with this key")
  else Ok (Unwrapped.mk keys (KeyringFile.active_dek_version kr)).

(** ** Operations *)

Definition active_dek_version : M CoreError.t (option N) :=
  let! found := exists_keyring in
  if negb found then ret None
  else let! kr := read_keyring in ret (Some (KeyringFile.active_dek_version kr)).

Definition create (kek dek : MasterKey) : M CoreError.t unit :=
  let! wrapped := wrap kek dek in
  write_keyring (KeyringFile.mk KEYRING_SCHEMA 1 1 [WrappedDek.mk 1 wrapped]).

Definition replace_with_single_active_dek (kek : MasterKey) (active_version : N) (dek : MasterKey) :
    M CoreError.t unit :=
  if (active_version =? 0)%N then misuse "keyring active version must be greater than zero"
  else
    let! wrapped := wrap kek dek in
    write_keyring (KeyringFile.mk KEYRING_SCHEMA active_version active_version
                     [WrappedDek.mk active_version wrapped]).

Definition migrate_legacy (legacy_key : MasterKey) : M CoreError.t unit :=
  let! found := exists_keyring in
  if (found : bool) then ret tt else create legacy_key legacy_key.

Definition load (kek : MasterKey) : M CoreError.t Unwrapped.t :=
  let! kr := read_keyring in
  lift (unwrap_keyring kr kek).

Definition active_version : M CoreError.t N :=
  let! kr := read_keyring in
  ret (KeyringFile.active_dek_version kr).

(** Each entry, below the minimum version or not. *)
Definition rewrap_entry (old_kek new_kek : MasterKey) (entry : WrappedDek.t) : M CoreError.t WrappedDek.t :=
  let! dek := lift (unwrap old_kek (WrappedDek.wrapped_b64 entry)) in
  let! wrapped := wrap new_kek dek in
  ret (WrappedDek.mk (WrappedDek.dek_version entry) wrapped).

Definition rewrap_under_new_kek (old_kek new_kek : MasterKey) : M CoreError.t unit :=
  let! kr := read_keyring in
  let! entries := map_each (rewrap_entry old_kek new_kek) (KeyringFile.entries kr) in
  write_keyring (KeyringFile.with_entries kr entries).

Definition stage_rewrap_under_new_kek (old_kek new_kek : MasterKey) : M CoreError.t unit :=
  let! kr := read_keyring in
  let! entries := map_each (rewrap_entry old_kek new_kek) (KeyringFile.entries kr) in
  write_staged_keyring (KeyringFile.with_entries kr entries).

Definition load_staged (kek : MasterKey) : M CoreError.t Unwrapped.t :=
  let! _ := ensure_directory [] "vault root" in
  let! kr := read_keyring_file staged_path in
  lift (unwrap_keyring kr kek).

Definition commit_staged : M CoreError.t unit :=
  let! _ := ensure_directory [] "vault root" in
  let! _ := ensure_regular_file staged_path "staged keyring" in
  let! _ := ensure_destination_is_regular_or_missing keyring_path "keyring destination" in
  let! _ := io (rename staged_path keyring_path) in
  sync_parent [].

Definition discard_staged : M CoreError.t unit :=
  let! _ := ensure_directory [] "vault root" in
  let! metadata := attempt (symlink_metadata staged_path) in
  match metadata with
  | Err NotFound => ret tt
  | Err error => fail (CoreError.Io error)
  | Ok _ =>
      let! _ := ensure_regular_file staged_path "staged keyring" in
      let! removed := attempt (remove_file staged_path) in
      match removed with
      | Ok _ => sync_parent []
      | Err NotFound => ret tt
      | Err error => fail (CoreError.Io error)
      end
  end.

Definition u32_modulus : N := 4294967296.

(** [iter().max().unwrap_or(0) + 1] of a release build, which wraps. *)
Definition next_version (entries : list WrappedDek.t) : N :=
  ((foldr N.max 0 (WrappedDek.dek_version <$> entries) + 1) mod u32_modulus)%N.

Definition add_active_dek (kek new_dek : MasterKey) : M CoreError.t N :=
  let! kr := read_keyring in
  let new_version := next_version (KeyringFile.entries kr) in
  let! wrapped := wrap kek new_dek in
  let kr := KeyringFile.with_entries kr (KeyringFile.entries kr ++ [WrappedDek.mk new_version wrapped]) in
  let! _ := write_keyring (KeyringFile.with_active kr new_version) in
  ret new_version.

Definition retire_below (min : N) : M CoreError.t unit :=
  let! kr := read_keyring in
  let kept := List.filter (λ e, min <=? WrappedDek.dek_version e)%N (KeyringFile.entries kr) in
  write_keyring (KeyringFile.with_min (KeyringFile.with_entries kr kept) min).

Definition set_active_version (version : N) : M CoreError.t unit :=
  let! kr := read_keyring in
  if negb (existsb (λ e, WrappedDek.dek_version e =? version)%N (KeyringFile.entries kr)) then
    misuse ("keyring has no DEK version " +:+ pretty version)
  else write_keyring (KeyringFile.with_active kr version).

(** [iter().min().unwrap_or(1)]. *)
Definition min_version (entries : list WrappedDek.t) : N :=
  match WrappedDek.dek_version <$> entries with
  | [] => 1%N
  | v :: vs => foldr N.min v vs
  end.

Definition remove_version (version : N) : M CoreError.t unit :=
  let! kr := read_keyring in
  if (KeyringFile.active_dek_version kr =? version)%N then misuse "cannot remove the active DEK version"
  else
    let kept := List.filter (λ e, negb (WrappedDek.dek_version e =? version))%N (KeyringFile.entries kr) in
    write_keyring (KeyringFile.with_min (KeyringFile.with_entries kr kept) (min_version kept)).
End keyring.
