(* ===== verification/KeyringSpec.v ===== *)
(** * The keyring as a ring of data keys

    A keyring file that opens under a key is an abstract [ring]: an active version, a
    minimum version and the list of versioned data keys.  [refines] relates the two, and
    every operation on the file is shown to be the operation on the ring, atomic under
    faults. *)
From Stdlib Require Import ZifyN ZifyNat ZifyBool.
From S2P Require Import Prelude Text AuditTypes Fs Crypto Storage StorageSpec Keychain Recovery.
From S2P Require Import Core CoreSpec Keyring.

(** ** Rings *)

Module Ring.
Record t := mk { active : N; min : N; entries : list (N * MasterKey) }.

(** The keys of the entries at or above the minimum; later entries win. *)
Fixpoint keys_from (min : N) (keys : gmap N MasterKey) (l : list (N * MasterKey)) : gmap N MasterKey :=
  match l with
  | [] => keys
  | (v, k) :: l' => keys_from min (if (v <? min)%N then keys else <[v := k]> keys) l'
  end.
Definition keys (r : t) : gmap N MasterKey := keys_from (min r) ∅ (entries r).

(** What a holder of the wrapping key gets: nothing when the active version is missing. *)
Definition load (r : t) : option Unwrapped.t :=
  if bool_decide (keys r !! active r = None) then None else Some (Unwrapped.mk (keys r) (active r)).

Definition next (l : list (N * MasterKey)) : N :=
  ((foldr N.max 0 l.*1 + 1) mod u32_modulus)%N.
Definition single (v : N) (dek : MasterKey) : t := mk v v [(v, dek)].
Definition add (r : t) (dek : MasterKey) : t :=
  mk (next (entries r)) (min r) (entries r ++ [(next (entries r), dek)]).
Definition retire (r : t) (m : N) : t :=
  mk (active r) m (List.filter (λ e, m <=? e.1)%N (entries r)).
Definition set_active (r : t) (v : N) : option t :=
  if existsb (λ e, e.1 =? v)%N (entries r) then Some (mk v (min r) (entries r)) else None.
Definition least (l : list (N * MasterKey)) : N :=
  match l.*1 with [] => 1%N | v :: vs => foldr N.min v vs end.
Definition remove (r : t) (v : N) : option t :=
  if (active r =? v)%N then None
  else let kept := List.filter (λ e, negb (e.1 =? v))%N (entries r) in
       Some (mk (active r) (least kept) kept).
End Ring.

Section keyring_spec.
Context `{OS : Os} `{OSL : !OsLaws} `{PR : Prims} `{PRL : !PrimLaws}.
Context `{KJ : !Json KeyringFile.t} `{KJL : !JsonLaws KeyringFile.t}.
Implicit Types (w : World.t) (p : path) (d : gmap path node) (kek : MasterKey) (R : Ring.t).

Definition entry_opens kek (e : WrappedDek.t) (vk : N * MasterKey) : Prop :=
  WrappedDek.dek_version e = vk.1 ∧ unwrap kek (WrappedDek.wrapped_b64 e) = Ok vk.2.

(** The file [kr] opens under [kek] as the ring [R]. *)
Record refines kek (kr : KeyringFile.t) R : Prop := {
  refines_schema : KeyringFile.version kr = KEYRING_SCHEMA;
  refines_active : KeyringFile.active_dek_version kr = Ring.active R;
  refines_min : KeyringFile.min_decryption_version kr = Ring.min R;
  refines_entries : Forall2 (entry_opens kek) (KeyringFile.entries kr) (Ring.entries R)
}.

Definition ring_bytes kek (raw : list N) R : Prop := ∃ kr, from_slice raw = Ok kr ∧ refines kek kr R.

(** The file at [p] is a keyring that opens under [kek] as [R]. *)
Definition ring_at d p kek R : Prop := ∃ raw, d !! p = Some (File raw) ∧ ring_bytes kek raw R.

(** The file at [p] has been replaced by one that opens under [kek] as [R]. *)
Definition ring_put d p kek R (d' : gmap path node) : Prop := ∃ raw, ring_bytes kek raw R ∧ d' = put p raw d.

Lemma ring_put_at d p kek R d' : ring_put d p kek R d' → ring_at d' p kek R.
Proof. intros (raw & Hr & ->). exists raw. split; [|done]. unfold put. by rewrite lookup_insert, decide_True. Qed.

Lemma ring_at_regular d p kek R : ring_at d p kek R → regular_or_missing d p.
Proof. intros (raw & Hd & _) n Hn. rewrite Hd in Hn. simplify_eq. eauto. Qed.

(** ** Wrapping *)

Lemma yields_wrap kek dek w :
  length dek = MASTER_KEY_LEN → yields (wrap kek dek) w (λ s, unwrap kek s = Ok dek).
Proof.
  intros Hl. eapply yields_bind; [apply yields_errmap, yields_seal|]. intros sealed w1 H1 [Ho Hb].
  apply yields_ret. unfold unwrap, decode_b64. rewrite (b64_round _ Hb). cbn [rbind]. rewrite Ho.
  cbn [of_crypto rbind]. by rewrite Hl, Nat.eqb_refl.
Qed.

Lemma unwrap_length kek s dek : unwrap kek s = Ok dek → length dek = MASTER_KEY_LEN.
Proof.
  unfold unwrap. intros H. destruct (decode_b64 s); [|done]. cbn [rbind] in H.
  destruct (of_crypto _) as [raw|]; [|done]. cbn [rbind] in H.
  destruct (length raw =? MASTER_KEY_LEN)%nat eqn:E; [|done]. cbn in H. simplify_eq. by apply Nat.eqb_eq.
Qed.

Lemma unwrap_entries_ring kek min keys es l :
  Forall2 (entry_opens kek) es l → unwrap_entries kek min keys es = Ok (Ring.keys_from min keys l).
Proof.
  intros Hes. revert keys. induction Hes as [|e [v k] es l [Hv Hk] _ IH]; intros keys; [done|].
  cbn [unwrap_entries Ring.keys_from]. cbn in Hv, Hk. rewrite Hv. destruct (v <? min)%N; [apply IH|].
  rewrite Hk. apply IH.
Qed.

Lemma unwrap_keyring_ring kek kr R :
  refines kek kr R →
  match Ring.load R with
  | Some u => unwrap_keyring kr kek = Ok u
  | None => ∃ e, unwrap_keyring kr kek = Err e
  end.
Proof.
  intros [_ Ha Hm He]. unfold unwrap_keyring, Ring.load, Ring.keys. rewrite Ha, Hm.
  rewrite (unwrap_entries_ring _ _ _ _ _ He). cbn [rbind]. destruct (bool_decide _); eauto.
Qed.

Lemma reads_keyring_file_raw p kek R w raw kr :
  World.disk w !! p = Some (File raw) → from_slice raw = Ok kr → refines kek kr R →
  ∀ w', same w w' → reads (read_keyring_file p) kr w'.
Proof.
  intros Hd Hraw Hkr w' Hs.
  eapply reads_bind; [eapply reads_core_regular; by disks|]. intros w1 H1.
  eapply reads_bind; [eapply reads_core_io, reads_fs_read; by disks|]. intros w2 H2. rewrite Hraw.
  eapply reads_bind; [by apply reads_lift|]. intros w3 H3.
  rewrite (refines_schema _ _ _ Hkr), N.eqb_refl. apply reads_ret.
Qed.

Lemma reads_keyring_file p kek R w :
  ring_at (World.disk w) p kek R → ∃ kr, refines kek kr R ∧ ∀ w', same w w' → reads (read_keyring_file p) kr w'.
Proof.
  intros (raw & Hd & kr & Hraw & Hkr). exists kr. split; [done|]. by eapply reads_keyring_file_raw.
Qed.

Lemma reads_keyring_raw kek R w raw kr :
  root_ok (World.disk w) → World.disk w !! keyring_path = Some (File raw) → from_slice raw = Ok kr → refines kek kr R →
  reads read_keyring kr w.
Proof.
  intros Hr Hd Hraw Hkr. eapply reads_bind; [by apply reads_core_directory|]. by eapply reads_keyring_file_raw.
Qed.

Lemma reads_keyring kek R w :
  root_ok (World.disk w) → ring_at (World.disk w) keyring_path kek R →
  ∃ kr, refines kek kr R ∧ reads read_keyring kr w.
Proof.
  intros Hr (raw & Hd & kr & Hraw & Hkr). exists kr. split; [done|]. by eapply reads_keyring_raw.
Qed.

Lemma reads_load kek R u w :
  root_ok (World.disk w) → ring_at (World.disk w) keyring_path kek R → Ring.load R = Some u →
  reads (load kek) u w.
Proof.
  intros Hr Hk Hu. destruct (reads_keyring kek R w Hr Hk) as (kr & Hkr & Hread).
  eapply reads_bind; [exact Hread|]. intros w1 H1. apply reads_lift.
  pose proof (unwrap_keyring_ring _ _ _ Hkr) as Hl. by rewrite Hu in Hl.
Qed.

Lemma reads_load_staged kek R u w :
  root_ok (World.disk w) → ring_at (World.disk w) staged_path kek R → Ring.load R = Some u →
  reads (load_staged kek) u w.
Proof.
  intros Hr Hk Hu. destruct (reads_keyring_file _ _ _ w Hk) as (kr & Hkr & Hread).
  eapply reads_bind; [by apply reads_core_directory|]. intros w1 H1.
  eapply reads_bind; [by apply Hread|]. intros w2 H2. apply reads_lift.
  pose proof (unwrap_keyring_ring _ _ _ Hkr) as Hl. by rewrite Hu in Hl.
Qed.

(** ** Writing *)

Lemma write_keyring_to_spec p kek kr R w d :
  World.disk w = d → root_ok d → regular_or_missing d p → refines kek kr R →
  triple False (write_keyring_to p kr) w (λ _ d', ring_put d p kek R d')
    (λ d', d' = d ∨ ring_put d p kek R d').
Proof.
  intros <- Hr Hp Hkr. unfold write_keyring_to.
  eapply triple_bind_reads; [by apply reads_core_directory| |by left]. intros w1 H1.
  eapply triple_bind_reads; [apply core_destination; by disks| |disks; by left]. intros w2 H2.
  assert (∀ d', d' = put p (to_vec_pretty kr) (World.disk w) → ring_put (World.disk w) p kek R d') as Hput.
  { intros d' ->. exists (to_vec_pretty kr). split; [|done]. exists kr. split; [apply from_slice_pretty|done]. }
  eapply triple_mono; [apply replace_spec; [by disks|done]|done|auto|].
  intros d' [-> | Hd']; auto.
Qed.

(** An update of the live keyring: read, a new file, written. *)
Lemma update_spec kek R (f : KeyringFile.t → M CoreError.t unit) kek' R' w d :
  World.disk w = d → root_ok d → ring_at d keyring_path kek R →
  (∀ kr w', same w w' → refines kek kr R →
     triple False (f kr) w' (λ _ d', ring_put d keyring_path kek' R' d')
       (λ d', d' = d ∨ ring_put d keyring_path kek' R' d')) →
  triple False (let! kr := read_keyring in f kr) w (λ _ d', ring_put d keyring_path kek' R' d')
    (λ d', d' = d ∨ ring_put d keyring_path kek' R' d').
Proof.
  intros <- Hr Hk Hf. destruct (reads_keyring kek R w Hr Hk) as (kr & Hkr & Hread).
  eapply triple_bind_reads; [exact Hread|auto|by left].
Qed.

Lemma rewrap_entries_spec kek new_kek es l w :
  Forall2 (entry_opens kek) es l →
  yields (map_each (rewrap_entry kek new_kek) es) w (λ es', Forall2 (entry_opens new_kek) es' l).
Proof.
  intros Hes. eapply yields_mono.
  - apply (yields_map_each _ (λ e e', ∀ vk, entry_opens kek e vk → entry_opens new_kek e' vk)).
    intros e w' He Hs. apply list_elem_of_lookup in He as [i Hi].
    destruct (Forall2_lookup_l _ _ _ _ _ Hes Hi) as ([v k] & _ & Hv & Hk). cbn in Hv, Hk.
    unfold rewrap_entry. rewrite Hk. eapply yields_bind; [by eapply yields_lift with (P := eq k)|].
    intros k' w1 H1 <-. eapply yields_bind; [apply yields_wrap; by eapply unwrap_length|].
    intros s w2 H2 Hs2. apply yields_ret. intros [v' k'] [Hv' Hk']. cbn in *. split; cbn; congruence.
  - cbn beta. intros es' Hes'. clear w. revert es' Hes'. induction Hes as [|e vk es l He _ IH]; intros es' Hes'.
    + inversion Hes'; subst. constructor.
    + inversion Hes' as [|? e' ? es'' He' Hes'']; subst. constructor; auto.
Qed.

(** Every data key and version survives a change of the wrapping key. *)
Lemma rewrap_to_spec p kek new_kek R w d :
  World.disk w = d → root_ok d → ring_at d keyring_path kek R → regular_or_missing d p →
  triple False (let! kr := read_keyring in
                let! entries := map_each (rewrap_entry kek new_kek) (KeyringFile.entries kr) in
                write_keyring_to p (KeyringFile.with_entries kr entries)) w
    (λ _ d', ring_put d p new_kek R d') (λ d', d' = d ∨ ring_put d p new_kek R d').
Proof.
  intros <- Hr Hk Hp. destruct (reads_keyring kek R w Hr Hk) as (kr & Hkr & Hread).
  eapply triple_bind_reads; [exact Hread| |by left]. intros w1 H1.
  eapply triple_bind_yields; [apply rewrap_entries_spec, (refines_entries _ _ _ Hkr)| |disks; by left].
  intros es w2 H2 Hes. apply write_keyring_to_spec; [by disks|done..|].
  destruct Hkr. by split.
Qed.

Lemma commit_staged_spec kek R w d :
  World.disk w = d → root_ok d → ring_at d staged_path kek R → regular_or_missing d keyring_path →
  triple False commit_staged w (λ _ d', d' = move staged_path keyring_path d)
    (maybe d (move staged_path keyring_path d)).
Proof.
  intros <- Hr (raw & Hraw & _) Hp. unfold commit_staged.
  eapply triple_bind_reads; [by apply reads_core_directory| |by left]. intros w1 H1.
  eapply triple_bind_reads; [eapply reads_core_regular; by disks| |disks; by left]. intros w2 H2.
  eapply triple_bind_reads; [apply core_destination; by disks| |disks; by left]. intros w3 H3.
  eapply (triple_then _ _ _ _ (λ _ d', d' = move staged_path keyring_path (World.disk w))
            (maybe (World.disk w) (move staged_path keyring_path (World.disk w)))).
  - apply triple_errmap. eapply triple_rename; [by disks|..]; unfold maybe; disks; auto.
  - done.
  - intros [] w4 H4 Hd4. eapply triple_reads; [apply reads_core_io, reads_sync| |]; rewrite Hd4; [done|by right].
Qed.

Lemma discard_staged_spec w d :
  World.disk w = d → root_ok d → regular_or_missing d staged_path →
  triple False discard_staged w (λ _ d', d' = delete staged_path d) (maybe d (delete staged_path d)).
Proof.
  intros <- Hr Hp. unfold discard_staged.
  eapply triple_bind_reads; [by apply reads_core_directory| |by left]. intros w1 H1.
  apply remove_spec; [by disks|done].
Qed.

Lemma moved_ring_at d kek R :
  ring_at d staged_path kek R → ring_at (move staged_path keyring_path d) keyring_path kek R.
Proof.
  intros (raw & Hraw & Hb). exists raw. split; [|done]. unfold move. rewrite Hraw.
  by rewrite lookup_insert, decide_True.
Qed.

(** ** Operations on the live keyring as operations on the ring *)

Lemma versions_eq kek es l : Forall2 (entry_opens kek) es l → WrappedDek.dek_version <$> es = l.*1.
Proof. intros Hes. induction Hes as [|e vk es l [Hv _] _ IH]; [done|]. cbn. by rewrite Hv, IH. Qed.

Lemma existsb_versions (f : N → bool) kek es l :
  Forall2 (entry_opens kek) es l →
  existsb (λ e, f (WrappedDek.dek_version e)) es = existsb (λ vk, f vk.1) l.
Proof. intros Hes. induction Hes as [|e vk es l [Hv _] _ IH]; [done|]. cbn. by rewrite Hv, IH. Qed.

Lemma next_version_ring kek es l : Forall2 (entry_opens kek) es l → next_version es = Ring.next l.
Proof. intros Hes. unfold next_version, Ring.next. by rewrite (versions_eq _ _ _ Hes). Qed.

Lemma min_version_ring kek es l : Forall2 (entry_opens kek) es l → min_version es = Ring.least l.
Proof. intros Hes. unfold min_version, Ring.least. by rewrite (versions_eq _ _ _ Hes). Qed.

Lemma filter_refines (f : N → bool) kek es l :
  Forall2 (entry_opens kek) es l →
  Forall2 (entry_opens kek) (List.filter (λ e, f (WrappedDek.dek_version e)) es)
    (List.filter (λ vk, f vk.1) l).
Proof.
  intros Hes. induction Hes as [|e vk es l He _ IH]; [constructor|]. cbn.
  rewrite (proj1 He). destruct (f vk.1); [by constructor|done].
Qed.

Lemma add_active_dek_spec kek R dek w d :
  World.disk w = d → root_ok d → ring_at d keyring_path kek R → length dek = MASTER_KEY_LEN →
  triple False (add_active_dek kek dek) w
    (λ v d', v = Ring.next (Ring.entries R) ∧ ring_put d keyring_path kek (Ring.add R dek) d')
    (λ d', d' = d ∨ ring_put d keyring_path kek (Ring.add R dek) d').
Proof.
  intros <- Hr Hk Hl. destruct (reads_keyring kek R w Hr Hk) as (kr & Hkr & Hread).
  unfold add_active_dek. eapply triple_bind_reads; [exact Hread| |by left]. intros w1 H1.
  rewrite (next_version_ring kek _ _ (refines_entries _ _ _ Hkr)).
  eapply triple_bind_yields; [by apply yields_wrap| |disks; by left]. intros s w2 H2 Hs.
  eapply triple_then; [eapply (write_keyring_to_spec keyring_path kek _ (Ring.add R dek))|exact (λ _ x, x)|].
  - by disks.
  - done.
  - by eapply ring_at_regular.
  - destruct Hkr. split; try done. cbn. apply Forall2_app; [done|]. by repeat constructor.
  - cbn beta. intros [] w3 H3 Hp3. apply triple_ret. done.
Qed.

Lemma create_spec kek dek w d :
  World.disk w = d → root_ok d → regular_or_missing d keyring_path → length dek = MASTER_KEY_LEN →
  triple False (create kek dek) w
    (λ _ d', ring_put d keyring_path kek (Ring.mk 1 1 [(1%N, dek)]) d')
    (λ d', d' = d ∨ ring_put d keyring_path kek (Ring.mk 1 1 [(1%N, dek)]) d').
Proof.
  intros <- Hr Hp Hl. eapply triple_bind_yields; [by apply yields_wrap| |by left]. intros s w1 H1 Hs.
  apply write_keyring_to_spec; [by disks|done|done|]. split; try done. by repeat constructor.
Qed.

Inductive keyring_op :=
| Rewrap (new_kek : MasterKey)
| AddActive (dek : MasterKey)
| RetireBelow (m : N)
| SetActive (v : N)
| RemoveVersion (v : N)
| ReplaceWithSingle (new_kek : MasterKey) (v : N) (dek : MasterKey).

Definition apply_keyring_op kek (op : keyring_op) : M CoreError.t unit :=
  match op with
  | Rewrap new_kek => rewrap_under_new_kek kek new_kek
  | AddActive dek => let! _ := add_active_dek kek dek in ret tt
  | RetireBelow m => retire_below m
  | SetActive v => set_active_version v
  | RemoveVersion v => remove_version v
  | ReplaceWithSingle new_kek v dek => replace_with_single_active_dek new_kek v dek
  end.

(** The wrapping key and the ring after an operation; [None] when it is refused. *)
Definition ring_step kek R (op : keyring_op) : option (MasterKey * Ring.t) :=
  match op with
  | Rewrap new_kek => Some (new_kek, R)
  | AddActive dek => Some (kek, Ring.add R dek)
  | RetireBelow m => Some (kek, Ring.retire R m)
  | SetActive v => (kek,.) <$> Ring.set_active R v
  | RemoveVersion v => (kek,.) <$> Ring.remove R v
  | ReplaceWithSingle new_kek v dek => if (v =? 0)%N then None else Some (new_kek, Ring.single v dek)
  end.

Definition op_wf (op : keyring_op) : Prop :=
  match op with
  | AddActive dek | ReplaceWithSingle _ _ dek => length dek = MASTER_KEY_LEN
  | _ => True
  end.

(** An update that only edits the file. *)
Lemma edit_spec kek R (g : KeyringFile.t → KeyringFile.t) R' w d :
  World.disk w = d → root_ok d → ring_at d keyring_path kek R →
  (∀ kr, refines kek kr R → refines kek (g kr) R') →
  triple False (let! kr := read_keyring in write_keyring (g kr)) w
    (λ _ d', ring_put d keyring_path kek R' d') (λ d', d' = d ∨ ring_put d keyring_path kek R' d').
Proof.
  intros <- Hr Hk Hg. eapply update_spec; [done..|]. intros kr w1 H1 Hkr.
  apply write_keyring_to_spec; [by disks|done|by eapply ring_at_regular|auto].
Qed.

Lemma refuses_update kek R (f : KeyringFile.t → M CoreError.t unit) w :
  root_ok (World.disk w) → ring_at (World.disk w) keyring_path kek R →
  (∀ kr w', refines kek kr R → refuses (f kr) w') →
  refuses (let! kr := read_keyring in f kr) w.
Proof.
  intros Hr Hk Hf. destruct (reads_keyring kek R w Hr Hk) as (kr & Hkr & Hread).
  eapply refuses_bind; [exact Hread|auto].
Qed.

(** Each operation is the operation on the ring, or leaves the ring it found. *)
Lemma keyring_op_spec kek R op w :
  root_ok (World.disk w) → ring_at (World.disk w) keyring_path kek R → op_wf op →
  match ring_step kek R op with
  | Some (kek', R') =>
      triple False (apply_keyring_op kek op) w
        (λ _ d', ring_put (World.disk w) keyring_path kek' R' d')
        (λ d', d' = World.disk w ∨ ring_put (World.disk w) keyring_path kek' R' d')
  | None => refuses (apply_keyring_op kek op) w
  end.
Proof.
  intros Hr Hk Hwf. destruct op as [new_kek|dek|m|v|v|new_kek v dek]; cbn [ring_step apply_keyring_op].
  - apply rewrap_to_spec; [done..|]. by eapply ring_at_regular.
  - eapply triple_then; [by apply add_active_dek_spec|exact (λ _ x, x)|].
    cbn beta. intros v w1 H1 [_ Hp]. by apply triple_ret.
  - eapply (edit_spec kek R (λ kr, KeyringFile.with_min (KeyringFile.with_entries kr _) m)); [done..|].
    intros kr [? ? ? He]. split; try done. by apply (filter_refines (λ v, m <=? v)%N).
  - unfold Ring.set_active. destruct (existsb _ _) eqn:E; cbn.
    + eapply update_spec; [done..|]. intros kr w1 H1 Hkr.
      rewrite (existsb_versions (λ x, x =? v)%N kek _ _ (refines_entries _ _ _ Hkr)), E.
      apply write_keyring_to_spec; [by disks|done|by eapply ring_at_regular|]. destruct Hkr. by split.
    + eapply refuses_update; [done..|]. intros kr w1 Hkr.
      rewrite (existsb_versions (λ x, x =? v)%N kek _ _ (refines_entries _ _ _ Hkr)), E. apply refuses_fail.
  - unfold Ring.remove. destruct (Ring.active R =? v)%N eqn:E; cbn.
    + eapply refuses_update; [done..|]. intros kr w1 Hkr. rewrite (refines_active _ _ _ Hkr), E. apply refuses_fail.
    + eapply update_spec; [done..|]. intros kr w1 H1 Hkr. rewrite (refines_active _ _ _ Hkr), E.
      apply write_keyring_to_spec; [by disks|done|by eapply ring_at_regular|].
      pose proof (filter_refines (λ x, negb (x =? v))%N kek _ _ (refines_entries _ _ _ Hkr)) as Hf.
      destruct Hkr. split; cbn; [done|done| |done]. by eapply min_version_ring.
  - unfold replace_with_single_active_dek. destruct (v =? 0)%N; [apply refuses_fail|].
    eapply triple_bind_yields; [by apply yields_wrap| |by left]. intros s w1 H1 Hs.
    apply write_keyring_to_spec; [by disks|done|by eapply ring_at_regular|]. split; try done. by repeat constructor.
Qed.

(** ** Facts about rings *)

Lemma keys_from_app m keys l1 l2 :
  Ring.keys_from m keys (l1 ++ l2) = Ring.keys_from m (Ring.keys_from m keys l1) l2.
Proof. revert keys. induction l1 as [|[v k] l1 IH]; intros keys; [done|]. cbn. apply IH. Qed.

Lemma foldr_max_le (l : list N) v : v ∈ l → (v <= foldr N.max 0 l)%N.
Proof. induction l as [|x l IH]; intros H; [by apply elem_of_nil in H|]. apply elem_of_cons in H as [->|H]; cbn; [lia|]. specialize (IH H). lia. Qed.

(** A new data key becomes active and every older one stays available, as long as the
    version numbers last. *)
Lemma add_keeps_keys R dek :
  let v := (foldr N.max 0 (Ring.entries R).*1 + 1)%N in
  (v < u32_modulus)%N → (Ring.min R <= v)%N →
  Ring.load (Ring.add R dek) = Some (Unwrapped.mk (<[v := dek]> (Ring.keys R)) v) ∧
  v ∉ (Ring.entries R).*1.
Proof.
  intros v Hv Hm. assert (Ring.next (Ring.entries R) = v) as Hn by (unfold Ring.next; rewrite N.mod_small; done).
  split.
  - unfold Ring.load, Ring.add, Ring.keys. cbn [Ring.min Ring.entries Ring.active]. rewrite keys_from_app, Hn. cbn.
    replace (v <? Ring.min R)%N with false by (symmetry; apply N.ltb_ge; done).
    rewrite bool_decide_eq_false_2; [done|]. by rewrite lookup_insert, decide_True.
  - intros Hin%foldr_max_le. unfold v in Hin. lia.
Qed.

(** At the last version number the addition wraps to version 0, below every minimum the
    code ever writes, and the keyring no longer loads. *)
Lemma add_wraps_at_limit R dek :
  (foldr N.max 0 (Ring.entries R).*1 = u32_modulus - 1)%N → (0 < Ring.min R)%N →
  Forall (λ vk, 0 < vk.1)%N (Ring.entries R) →
  Ring.load (Ring.add R dek) = None.
Proof.
  intros Hmax Hm Hpos. assert (Ring.next (Ring.entries R) = 0%N) as Hn by (unfold Ring.next; rewrite Hmax; done).
  unfold Ring.load, Ring.add, Ring.keys. cbn [Ring.min Ring.entries Ring.active]. rewrite keys_from_app, Hn. cbn.
  replace (0 <? Ring.min R)%N with true by (symmetry; apply N.ltb_lt; done).
  rewrite bool_decide_eq_true_2; [done|]. generalize (Ring.min R) as m. intros m.
  assert (∀ keys l, Forall (λ vk, 0 < vk.1)%N l → keys !! 0%N = None → Ring.keys_from m keys l !! 0%N = None) as Hk.
  { intros keys l Hl. revert keys. induction Hl as [|[v k] l Hv Hl IH]; intros keys H0; [done|]. cbn. apply IH.
    cbn in Hv. destruct (v <? m)%N; [done|]. rewrite lookup_insert_ne; [done|lia]. }
  by apply Hk.
Qed.
End keyring_spec.
