(* ===== verification/Transit.v ===== *)
(** * sv-core/src/transit.rs: identity, transit keys, signing keys and brokered secrets

    Four files of the vault, each a list of entries whose secret is sealed under one
    wrapping key, derived from the active data key.  A rotation of the data key seals every
    secret again under the new wrapping key. *)
From stdpp Require Import pretty.
From S2P Require Import Prelude Text AuditTypes Broker Fs Crypto Storage Recovery Core.

Definition TRANSIT_FILE : string := "transit.svault".
Definition SIGNING_FILE : string := "signing.svault".
Definition BROKERS_FILE : string := "brokers.svault".
Definition IDENTITY_FILE : string := "identity.svault".
Definition TRANSIT_AAD : list N := str_bytes "sv-transit-key-v1".
Definition SIGNING_AAD : list N := str_bytes "sv-signing-key-v1".
Definition BROKER_AAD : list N := str_bytes "sv-broker-secret-v1".
Definition IDENTITY_AAD_V1 : list N := str_bytes "sv-identity-root-v1".
Definition IDENTITY_AAD_V2 : list N := str_bytes "sv-identity-root-v2".
Definition IDENTITY_SCHEMA_V1 : N := 1.
Definition IDENTITY_SCHEMA_V2 : N := 2.
Definition TRANSIT_KEY_LEN : nat := 32.
Definition SCHEMA : N := 1.

(** ** Data *)

Module IdentityFile.
Record t := mk { schema : N; wrapped_root_b64 : string }.
End IdentityFile.
Module IdentityPayloadV2.
Record t := mk { root_b64 : string; manifest_auth_required : bool }.
End IdentityPayloadV2.
Module IdentityState.
Record t := mk { root : MasterKey; manifest_auth_required : bool }.
End IdentityState.

Module TransitEntry.
Record t := mk { name : string; version : N; wrapped_b64 : string }.
Definition with_wrapped (e : t) (s : string) : t := mk (name e) (version e) s.
End TransitEntry.
Module TransitFile.
Record t := mk { schema : N; entries : list TransitEntry.t }.
Definition default : t := mk SCHEMA [].
End TransitFile.
Module TransitKeyInfo.
Record t := mk { name : string; version : N }.
End TransitKeyInfo.

Module SigningEntry.
Record t := mk { name : string; version : N; public_b64 : string; wrapped_secret_b64 : string }.
Definition with_wrapped (e : t) (s : string) : t := mk (name e) (version e) (public_b64 e) s.
End SigningEntry.
Module SigningFile.
Record t := mk { schema : N; entries : list SigningEntry.t }.
Definition default : t := mk SCHEMA [].
End SigningFile.
Module SigningKeyInfo.
Record t := mk { name : string; version : N; public_b64 : string }.
End SigningKeyInfo.

Module BrokerEntry.
Record t := mk {
  name : string;
  wrapped_secret_b64 : string;
  allow : list BrokerAllow.t;
  injection : BrokerInjection.t
}.
Definition with_wrapped (e : t) (s : string) : t := mk (name e) s (allow e) (injection e).
End BrokerEntry.
Module BrokerFile.
Record t := mk { schema : N; entries : list BrokerEntry.t }.
Definition default : t := mk SCHEMA [].
End BrokerFile.
Module BrokerSecretInfo.
Record t := mk { name : string; allow : list BrokerAllow.t; injection : BrokerInjection.t }.
End BrokerSecretInfo.

(** ** References to keys *)

(** [str::rsplit_once] at a character. *)
Fixpoint rsplit_once (c : ascii) (s : string) : option (string * string) :=
  match s with
  | EmptyString => None
  | String a s' =>
      match rsplit_once c s' with
      | Some (l, r) => Some (String a l, r)
      | None => if decide (a = c) then Some (EmptyString, s') else None
      end
  end.

(** [str::trim_start_matches] with a character. *)
Fixpoint trim_start_matches (c : ascii) (s : string) : string :=
  match s with
  | EmptyString => EmptyString
  | String a s' => if decide (a = c) then trim_start_matches c s' else s
  end.

(** [str::parse::<u32>]: an optional plus sign and at least one digit. *)
Definition is_digit (b : N) : bool := (48 <=? b)%N && (b <=? 57)%N.
Definition digits_value (l : list N) : N := foldl (λ acc b, acc * 10 + (b - 48))%N 0%N l.
Definition parse_u32 (s : string) : option N :=
  let digits := match str_bytes s with 43%N :: l => l | l => l end in
  if bool_decide (digits = []) || negb (forallb is_digit digits) then None
  else let v := digits_value digits in if (v <? 4294967296)%N then Some v else None.

Definition parse_key_ref (key_ref : string) : string * option N :=
  match rsplit_once ":" key_ref with
  | Some (name, ver) =>
      match parse_u32 (trim_start_matches "v" ver) with
      | Some v => (name, Some v)
      | None => (key_ref, None)
      end
  | None => (key_ref, None)
  end.

Definition validate_name (name : string) : result unit CoreError.t :=
  if bool_decide (name = "") || (64 <? String.length name)%nat then
    Err (CoreError.Misuse "name must be 1..=64 chars")
  else if negb (forallb name_char (chars name)) then
    Err (CoreError.Misuse "name must be alphanumeric, hyphen, or underscore")
  else Ok tt.

Section transit.
Context `{OS : Os} `{PR : Prims}.
Context `{IJ : !Json IdentityFile.t} `{PJ : !Json IdentityPayloadV2.t}.
Context `{TJ : !Json TransitFile.t} `{SJ : !Json SigningFile.t} `{BJ : !Json BrokerFile.t}.

(** ** Shared helpers *)

Definition ensure_directory (p : path) (label : string) := Core.ensure_directory p label.
Definition ensure_regular_file (p : path) (label : string) := Core.ensure_regular_file p label.
Definition ensure_destination_is_regular_or_missing (p : path) (label : string) :=
  Core.ensure_destination_is_regular_or_missing p label.
Definition create_secure_temp := Core.create_secure_temp.
Definition sync_parent := Core.sync_parent.

Definition store_path (file : string) : path := [file].

Definition parse_json {A} `{Json A} (file : string) (raw : list N) : result A CoreError.t :=
  match from_slice raw with Ok v => Ok v | Err e => Err (CoreError.Misuse (file +:+ ": " +:+ e)) end.

Definition read_json {A} `{Json A} (dflt : A) (file : string) : M CoreError.t A :=
  let! _ := ensure_directory [] "vault root" in
  let p := store_path file in
  let! metadata := attempt (symlink_metadata p) in
  match metadata with
  | Err NotFound => ret dflt
  | Err error => fail (CoreError.Io error)
  | Ok _ =>
      let! _ := ensure_regular_file p file in
      let! raw := io (fs_read p) in
      lift (parse_json file raw)
  end.

Definition read_json_required {A} `{Json A} (file : string) : M CoreError.t A :=
  let! _ := ensure_directory [] "vault root" in
  let p := store_path file in
  let! _ := ensure_regular_file p file in
  let! raw := errmap (λ e, match e with
    | NotFound => CoreError.Misuse ("required vault material is missing: " +:+ file)
    | e => CoreError.Io e end) (fs_read p) in
  lift (parse_json file raw).

Definition write_json {A} `{Json A} (file : string) (value : A) : M CoreError.t unit :=
  let! found := path_entry_exists [] in
  let! _ := if (found : bool) then ret tt else io (create_dir_all []) in
  let! _ := ensure_directory [] "vault root" in
  let bytes := to_vec_pretty value in
  let p := store_path file in
  let! _ := ensure_destination_is_regular_or_missing p file in
  let! _ := create_secure_temp in
  let! _ := ensure_destination_is_regular_or_missing p file in
  let! _ := io (replace_atomic p bytes) in
  sync_parent [].

(** ** The identity root *)

Definition identity_root_from_bytes (plaintext : list N) : result MasterKey CoreError.t :=
  if negb (length plaintext =? MASTER_KEY_LEN)%nat then
    Err (CoreError.Misuse ("identity root has wrong length: " +:+ pretty (length plaintext)))
  else Ok plaintext.

Definition open_identity (wrap_key : MasterKey) (identity : IdentityFile.t) :
    result IdentityState.t CoreError.t :=
  let? sealed := decode_b64 (IdentityFile.wrapped_root_b64 identity) in
  if (IdentityFile.schema identity =? IDENTITY_SCHEMA_V1)%N then
    let? plaintext := of_crypto (open wrap_key sealed IDENTITY_AAD_V1) in
    let? root := identity_root_from_bytes plaintext in
    Ok (IdentityState.mk root false)
  else if (IdentityFile.schema identity =? IDENTITY_SCHEMA_V2)%N then
    let? plaintext := of_crypto (open wrap_key sealed IDENTITY_AAD_V2) in
    let? payload := match from_slice plaintext with
      | Ok p => Ok p
      | Err e => Err (CoreError.Misuse (IDENTITY_FILE +:+ " protected payload: " +:+ e)) end in
    if negb (IdentityPayloadV2.manifest_auth_required payload) then
      Err (CoreError.Misuse "identity v2 does not require manifest authentication")
    else
      let? raw := decode_b64 (IdentityPayloadV2.root_b64 payload) in
      let? root := identity_root_from_bytes raw in
      Ok (IdentityState.mk root true)
  else Err (CoreError.Misuse ("unsupported identity schema: " +:+ pretty (IdentityFile.schema identity))).

Definition load_identity (wrap_key : MasterKey) : M CoreError.t IdentityState.t :=
  let! _ := ensure_directory [] "vault root" in
  let p := [IDENTITY_FILE] in
  let! _ := ensure_regular_file p "vault identity" in
  let! raw := errmap (λ e, match e with
    | NotFound => CoreError.Misuse "vault identity root is missing; unlock with normal custody once to migrate this vault before using recovery"
    | e => CoreError.Io e end) (fs_read p) in
  let! identity := lift (parse_json IDENTITY_FILE raw) in
  lift (open_identity wrap_key identity).

Definition write_authenticated_identity (wrap_key identity_root : MasterKey) : M CoreError.t unit :=
  let payload := to_vec_pretty (IdentityPayloadV2.mk (b64_encode identity_root) true) in
  let! wrapped := crypto (seal wrap_key payload IDENTITY_AAD_V2) in
  write_json IDENTITY_FILE (IdentityFile.mk IDENTITY_SCHEMA_V2 (b64_encode wrapped)).

Definition load_or_create_identity (wrap_key : MasterKey) (legacy_root : option MasterKey) :
    M CoreError.t IdentityState.t :=
  let! _ := ensure_directory [] "vault root" in
  let! metadata := attempt (symlink_metadata [IDENTITY_FILE]) in
  match metadata with
  | Ok _ => load_identity wrap_key
  | Err NotFound =>
      let! identity_root := match legacy_root with Some r => ret r | None => generate end in
      let! _ := write_authenticated_identity wrap_key identity_root in
      load_identity wrap_key
  | Err error => fail (CoreError.Io error)
  end.

Definition load_identity_if_present (wrap_key : MasterKey) : M CoreError.t (option IdentityState.t) :=
  let! metadata := attempt (symlink_metadata [IDENTITY_FILE]) in
  match metadata with
  | Ok _ => let! s := load_identity wrap_key in ret (Some s)
  | Err NotFound => ret None
  | Err error => fail (CoreError.Io error)
  end.

Definition enable_manifest_authentication (wrap_key identity_root : MasterKey) : M CoreError.t unit :=
  write_authenticated_identity wrap_key identity_root.

(** ** Transit keys *)

Definition transit_create_key (wrap_key : MasterKey) (name : string) : M CoreError.t TransitKeyInfo.t :=
  let! _ := lift (validate_name name) in
  let! file := read_json TransitFile.default TRANSIT_FILE in
  if existsb (λ e, bool_decide (TransitEntry.name e = name)) (TransitFile.entries file) then
    misuse ("transit key already exists: " +:+ name)
  else
    let! raw := crypto (random_bytes TRANSIT_KEY_LEN) in
    let! wrapped := crypto (seal wrap_key raw TRANSIT_AAD) in
    let entries := TransitFile.entries file ++ [TransitEntry.mk name 1 (b64_encode wrapped)] in
    let! _ := write_json TRANSIT_FILE (TransitFile.mk (TransitFile.schema file) entries) in
    ret (TransitKeyInfo.mk name 1).

Definition transit_list : M CoreError.t (list TransitKeyInfo.t) :=
  let! file := read_json TransitFile.default TRANSIT_FILE in
  ret ((λ e, TransitKeyInfo.mk (TransitEntry.name e) (TransitEntry.version e)) <$> TransitFile.entries file).

(** [e.name == name && version.map(|v| v == e.version).unwrap_or(true)]. *)
Definition ref_matches (name : string) (version : option N) (entry_name : string) (entry_version : N) : bool :=
  bool_decide (entry_name = name) && match version with Some v => (v =? entry_version)%N | None => true end.

Definition transit_key_bytes (wrap_key : MasterKey) (key_ref : string) : M CoreError.t MasterKey :=
  let '(name, version) := parse_key_ref key_ref in
  let! file := read_json TransitFile.default TRANSIT_FILE in
  match List.find (λ e, ref_matches name version (TransitEntry.name e) (TransitEntry.version e))
          (TransitFile.entries file) with
  | None => misuse ("unknown transit key_ref: " +:+ key_ref)
  | Some entry =>
      let! sealed := lift (decode_b64 (TransitEntry.wrapped_b64 entry)) in
      let! raw := lift (of_crypto (open wrap_key sealed TRANSIT_AAD)) in
      if negb (length raw =? TRANSIT_KEY_LEN)%nat then misuse "transit key wrong length" else ret raw
  end.

Definition transit_encrypt (wrap_key : MasterKey) (key_ref : string) (plaintext : list N) :
    M CoreError.t string :=
  let! key := transit_key_bytes wrap_key key_ref in
  let '(name, _) := parse_key_ref key_ref in
  let! sealed := crypto (seal key plaintext (str_bytes name)) in
  ret (b64_encode sealed).

Definition transit_decrypt (wrap_key : MasterKey) (key_ref ciphertext_b64 : string) :
    M CoreError.t (list N) :=
  let! key := transit_key_bytes wrap_key key_ref in
  let '(name, _) := parse_key_ref key_ref in
  let! sealed := lift (decode_b64 ciphertext_b64) in
  lift (of_crypto (open key sealed (str_bytes name))).

(** ** Signing keys *)

Definition signing_create_key (wrap_key : MasterKey) (name : string) : M CoreError.t SigningKeyInfo.t :=
  let! _ := lift (validate_name name) in
  let! file := read_json SigningFile.default SIGNING_FILE in
  if existsb (λ e, bool_decide (SigningEntry.name e = name)) (SigningFile.entries file) then
    misuse ("signing key already exists: " +:+ name)
  else
    let! generated := crypto ed25519_generate in
    let '(secret, public) := generated in
    let! wrapped := crypto (seal wrap_key secret SIGNING_AAD) in
    let info := SigningKeyInfo.mk name 1 (b64_encode public) in
    let entries := SigningFile.entries file
                     ++ [SigningEntry.mk name 1 (SigningKeyInfo.public_b64 info) (b64_encode wrapped)] in
    let! _ := write_json SIGNING_FILE (SigningFile.mk (SigningFile.schema file) entries) in
    ret info.

Definition signing_list : M CoreError.t (list SigningKeyInfo.t) :=
  let! file := read_json SigningFile.default SIGNING_FILE in
  ret ((λ e, SigningKeyInfo.mk (SigningEntry.name e) (SigningEntry.version e) (SigningEntry.public_b64 e))
         <$> SigningFile.entries file).

Definition signing_entry (key_ref : string) : M CoreError.t SigningEntry.t :=
  let '(name, version) := parse_key_ref key_ref in
  let! file := read_json SigningFile.default SIGNING_FILE in
  lift (ok_or (List.find (λ e, ref_matches name version (SigningEntry.name e) (SigningEntry.version e))
                 (SigningFile.entries file))
          (CoreError.Misuse ("unknown signing key_ref: " +:+ key_ref))).

Definition signing_public_key (key_ref : string) : M CoreError.t string :=
  let! entry := signing_entry key_ref in
  ret (SigningEntry.public_b64 entry).

Definition signing_sign (wrap_key : MasterKey) (key_ref : string) (payload : list N) : M CoreError.t string :=
  let! entry := signing_entry key_ref in
  let! sealed := lift (decode_b64 (SigningEntry.wrapped_secret_b64 entry)) in
  let! secret := lift (of_crypto (open wrap_key sealed SIGNING_AAD)) in
  let! sig := lift (of_crypto (ed25519_sign secret payload)) in
  ret (b64_encode sig).

Definition signing_verify (public_b64 : string) (payload : list N) (signature_b64 : string) :
    result bool CoreError.t :=
  let? public := decode_b64 public_b64 in
  if negb (length public =? ED25519_PUBLIC_LEN)%nat then Err (CoreError.Misuse "public key wrong length")
  else
    let? sig := decode_b64 signature_b64 in
    of_crypto (ed25519_verify public payload sig).

(** ** Brokered secrets *)

Definition broker_create (wrap_key : MasterKey) (name secret : string) (allow : list BrokerAllow.t)
    (injection : BrokerInjection.t) : M CoreError.t BrokerSecretInfo.t :=
  let! _ := lift (validate_name name) in
  let! file := read_json BrokerFile.default BROKERS_FILE in
  if existsb (λ e, bool_decide (BrokerEntry.name e = name)) (BrokerFile.entries file) then
    misuse ("brokered secret already exists: " +:+ name)
  else
    let! wrapped := crypto (seal wrap_key (str_bytes secret) BROKER_AAD) in
    let entries := BrokerFile.entries file ++ [BrokerEntry.mk name (b64_encode wrapped) allow injection] in
    let! _ := write_json BROKERS_FILE (BrokerFile.mk (BrokerFile.schema file) entries) in
    ret (BrokerSecretInfo.mk name allow injection).

Definition broker_list : M CoreError.t (list BrokerSecretInfo.t) :=
  let! file := read_json BrokerFile.default BROKERS_FILE in
  ret ((λ e, BrokerSecretInfo.mk (BrokerEntry.name e) (BrokerEntry.allow e) (BrokerEntry.injection e))
         <$> BrokerFile.entries file).

Definition broker_resolve (wrap_key : MasterKey) (secret_ref : string) :
    M CoreError.t ResolvedBrokerSecret.t :=
  let! file := read_json BrokerFile.default BROKERS_FILE in
  match List.find (λ e, bool_decide (BrokerEntry.name e = secret_ref)) (BrokerFile.entries file) with
  | None => misuse ("unknown brokered secret: " +:+ secret_ref)
  | Some entry =>
      let! sealed := lift (decode_b64 (BrokerEntry.wrapped_secret_b64 entry)) in
      let! raw := lift (of_crypto (open wrap_key sealed BROKER_AAD)) in
      if negb (utf8_valid raw) then misuse "broker secret not utf8"
      else ret (ResolvedBrokerSecret.mk (str_of_bytes raw) (BrokerEntry.allow entry) (BrokerEntry.injection entry))
  end.

(** ** Sealing again after a rotation *)

Definition reseal (old_wrap new_wrap : MasterKey) (aad : list N) (wrapped_b64 : string) : M CoreError.t string :=
  let! sealed := lift (decode_b64 wrapped_b64) in
  match open old_wrap sealed aad with
  | Ok raw =>
      let! resealed := crypto (seal new_wrap raw aad) in
      ret (b64_encode resealed)
  | Err old_error =>
      match open new_wrap sealed aad with
      | Ok _ => ret wrapped_b64
      | Err _ => fail (CoreError.Crypto old_error)
      end
  end.

Definition rewrap_identity (old_wrap new_wrap : MasterKey) : M CoreError.t unit :=
  let! identity := read_json_required IDENTITY_FILE in
  let! aad :=
    if (IdentityFile.schema identity =? IDENTITY_SCHEMA_V1)%N then ret IDENTITY_AAD_V1
    else if (IdentityFile.schema identity =? IDENTITY_SCHEMA_V2)%N then ret IDENTITY_AAD_V2
    else misuse ("unsupported identity schema: " +:+ pretty (IdentityFile.schema identity)) in
  let! wrapped := reseal old_wrap new_wrap aad (IdentityFile.wrapped_root_b64 identity) in
  write_json IDENTITY_FILE (IdentityFile.mk (IdentityFile.schema identity) wrapped).

Definition rewrap_transit (old_wrap new_wrap : MasterKey) : M CoreError.t unit :=
  let! file := read_json TransitFile.default TRANSIT_FILE in
  if bool_decide (length (TransitFile.entries file) = 0) then ret tt
  else
    let! entries := map_each (λ e,
      let! wrapped := reseal old_wrap new_wrap TRANSIT_AAD (TransitEntry.wrapped_b64 e) in
      ret (TransitEntry.with_wrapped e wrapped)) (TransitFile.entries file) in
    write_json TRANSIT_FILE (TransitFile.mk (TransitFile.schema file) entries).

Definition rewrap_signing (old_wrap new_wrap : MasterKey) : M CoreError.t unit :=
  let! file := read_json SigningFile.default SIGNING_FILE in
  if bool_decide (length (SigningFile.entries file) = 0) then ret tt
  else
    let! entries := map_each (λ e,
      let! wrapped := reseal old_wrap new_wrap SIGNING_AAD (SigningEntry.wrapped_secret_b64 e) in
      ret (SigningEntry.with_wrapped e wrapped)) (SigningFile.entries file) in
    write_json SIGNING_FILE (SigningFile.mk (SigningFile.schema file) entries).

Definition rewrap_brokers (old_wrap new_wrap : MasterKey) : M CoreError.t unit :=
  let! file := read_json BrokerFile.default BROKERS_FILE in
  if bool_decide (length (BrokerFile.entries file) = 0) then ret tt
  else
    let! entries := map_each (λ e,
      let! wrapped := reseal old_wrap new_wrap BROKER_AAD (BrokerEntry.wrapped_secret_b64 e) in
      ret (BrokerEntry.with_wrapped e wrapped)) (BrokerFile.entries file) in
    write_json BROKERS_FILE (BrokerFile.mk (BrokerFile.schema file) entries).

Definition rewrap_all_material (old_wrap new_wrap : MasterKey) : M CoreError.t unit :=
  let! _ := rewrap_identity old_wrap new_wrap in
  let! _ := rewrap_transit old_wrap new_wrap in
  let! _ := rewrap_signing old_wrap new_wrap in
  rewrap_brokers old_wrap new_wrap.
End transit.
