(* ===== verification/TransitSpec.v ===== *)
(** * Specifications of the stores of secrets

    The secrets of a store, and under which wrapping keys they open.  Sealing again is
    specified once for a generic store: it can be interrupted at any point and started
    again. *)
From S2P Require Import Prelude Text AuditTypes Broker Fs Crypto Storage StorageSpec Recovery Core.
From S2P Require Import CoreSpec Transit.

Section stores.
Context `{OS : Os} `{OSL : !OsLaws} `{PR : Prims} `{PRL : !PrimLaws}.
Implicit Types (w : World.t) (d : gmap path node).

(** The value of a JSON file; a missing file is the default. *)
Definition store_at {A} `{Json A} (dflt : A) (file : string) d (v : A) : Prop :=
  (d !! [file] = None ∧ v = dflt) ∨ ∃ raw, d !! [file] = Some (File raw) ∧ from_slice raw = Ok v.

Lemma store_at_regular {A} `{Json A} (dflt : A) file d v : store_at dflt file d v → regular_or_missing d [file].
Proof. intros [[Hd _] | (raw & Hd & _)] n Hn; rewrite Hd in Hn; simplify_eq; eauto. Qed.

Lemma store_at_put {A} `{Json A} (dflt : A) file d v name raw :
  file ≠ name → store_at dflt file d v → store_at dflt file (put [name] raw d) v.
Proof. intros Hne. unfold store_at, put. rewrite lookup_insert_ne by congruence. done. Qed.

Lemma store_at_here {A} `{Json A} `{!JsonLaws A} (dflt : A) file d v :
  store_at dflt file (put [file] (to_vec_pretty v) d) v.
Proof.
  right. eexists. unfold put. rewrite lookup_insert, decide_True by done. split; [done|apply from_slice_pretty].
Qed.

Lemma reads_json {A} `{Json A} (dflt : A) file v w :
  root_ok (World.disk w) → store_at dflt file (World.disk w) v → reads (read_json dflt file) v w.
Proof.
  intros Hr Hs. eapply reads_bind; [by apply reads_core_directory|]. intros w1 H1.
  apply wp_bind, wp_attempt, wp_io_read.
  - intros w2 H2. unfold metadata_of. disks. destruct Hs as [[Hd ->] | (raw & Hd & Hraw)];
      unfold store_path; rewrite Hd.
    + split; [done|by left].
    + eapply reads_after; [exact H2|]. eapply reads_bind; [eapply reads_core_regular; by disks|]. intros w3 H3.
      eapply reads_bind; [eapply reads_core_io, reads_fs_read; by disks|]. intros w4 H4.
      apply reads_lift. unfold parse_json. by rewrite Hraw.
  - intros w' m Hs' Hq. split; [done|]. right. eauto.
Qed.

Lemma reads_json_required {A} `{Json A} file raw (v : A) w :
  root_ok (World.disk w) → World.disk w !! [file] = Some (File raw) → from_slice raw = Ok v →
  reads (read_json_required file) v w.
Proof.
  intros Hr Hd Hraw. eapply reads_bind; [by apply reads_core_directory|]. intros w1 H1.
  eapply reads_bind; [eapply reads_core_regular; by disks|]. intros w3 H3.
  eapply reads_bind; [eapply reads_errmap, reads_fs_read; by disks|]. intros w4 H4.
  apply reads_lift. unfold parse_json. by rewrite Hraw.
Qed.

Lemma yields_entry_exists {E} p w : yields (path_entry_exists p : M E bool) w (λ _, True).
Proof.
  apply wp_bind, wp_attempt. pose proof (readonly_metadata p w) as Hs. unfold wp. split; [|done]. exact Hs.
Qed.

Lemma reads_create_dir_all p w : World.disk w !! p = Some Directory → reads (create_dir_all p) tt w.
Proof. intros Hd. unfold reads, wp, create_dir_all. rewrite Hd. by apply reads_io. Qed.

Lemma write_json_spec {A} `{Json A} file (v : A) w d :
  World.disk w = d → root_ok d → regular_or_missing d [file] →
  triple False (write_json file v) w (λ _ d', d' = put [file] (to_vec_pretty v) d)
    (maybe d (put [file] (to_vec_pretty v) d)).
Proof.
  intros <- Hr Hp. unfold write_json.
  eapply triple_bind_yields; [apply yields_entry_exists| |by left]. intros found w1 H1 _.
  eapply (triple_bind_reads _ _ _ tt).
  { destruct found; [apply reads_ret|]. apply reads_core_io, reads_create_dir_all. by disks. }
  2: { disks. by left. }
  intros w2 H2. eapply triple_bind_reads; [apply reads_core_directory; by disks| |disks; by left]. intros w3 H3.
  eapply triple_bind_reads; [apply core_destination; by disks| |disks; by left]. intros w4 H4.
  apply replace_spec; [by disks|done].
Qed.

(** ** Sealed under one of several keys *)

Definition opens_in (ks : list MasterKey) (aad : list N) (s : string) (raw : list N) : Prop :=
  ∃ k sealed, k ∈ ks ∧ decode_b64 s = Ok sealed ∧ open k sealed aad = Ok raw.

Lemma opens_in_subset ks ks' aad s raw : ks ⊆ ks' → opens_in ks aad s raw → opens_in ks' aad s raw.
Proof. intros Hks (k & sealed & Hk & Hd & Ho). exists k, sealed. auto. Qed.

Lemma opens_sealed k aad raw sealed : sealed_as k raw aad sealed → opens_in [k] aad (b64_encode sealed) raw.
Proof.
  intros [Ho Hb]. exists k, sealed. split; [apply list_elem_of_singleton; done|]. unfold decode_b64. by rewrite (b64_round _ Hb).
Qed.

Context `{KC : !KeyCommitting}.

(** Whichever of the two keys an entry is under, it ends under the new one. *)
Lemma reseal_spec old_wrap new_wrap aad s raw w :
  opens_in [old_wrap; new_wrap] aad s raw →
  yields (reseal old_wrap new_wrap aad s) w (λ s', opens_in [new_wrap] aad s' raw).
Proof.
  intros (k & sealed & Hk & Hd & Ho). unfold reseal. rewrite Hd.
  eapply yields_bind; [eapply yields_lift with (P := eq sealed); done|]. intros ? w1 H1 <-.
  assert (open old_wrap sealed aad = Ok raw ∨
          (∃ e, open old_wrap sealed aad = Err e) ∧ open new_wrap sealed aad = Ok raw) as [Hold | [[e Hold] Hnew]].
  { destruct (open old_wrap sealed aad) as [raw'|e] eqn:E.
    - left. assert (k = old_wrap) as -> by (symmetry; by eapply open_committing). congruence.
    - right. split; [eauto|]. apply elem_of_cons in Hk as [->|Hk]; [congruence|].
      by apply list_elem_of_singleton in Hk as ->. }
  - rewrite Hold. eapply yields_bind; [apply yields_errmap, yields_seal|]. intros sealed' w2 H2 Hs.
    apply yields_ret. by apply opens_sealed.
  - rewrite Hold, Hnew. apply yields_ret. exists new_wrap, sealed. split; [apply list_elem_of_singleton|]; done.
Qed.
End stores.

(** ** Sealing a whole store again *)

Section rewrap.
Context `{OS : Os} `{OSL : !OsLaws} `{PR : Prims} `{PRL : !PrimLaws} `{KC : !KeyCommitting}.
Context {A B : Type} `{JA : !Json A} `{JL : !JsonLaws A}.
Context (dflt : A) (file : string) (aad : list N).
Context (entries : A → list B) (rebuild : A → list B → A) (wrapped : B → string) (set : B → string → B).
Context (entries_rebuild : ∀ f l, entries (rebuild f l) = l).
Context (wrapped_set : ∀ e s, wrapped (set e s) = s) (set_set : ∀ e s s', set (set e s) s' = set e s').
Implicit Types (w : World.t) (d : gmap path node).

Definition rewrap_store (old_wrap new_wrap : MasterKey) : M CoreError.t unit :=
  let! f := read_json dflt file in
  if bool_decide (length (entries f) = 0) then ret tt
  else
    let! es := map_each (λ e,
      let! s := reseal old_wrap new_wrap aad (wrapped e) in ret (set e s)) (entries f) in
    write_json file (rebuild f es).

(** An entry: what is stored in the clear, and its secret. *)
Definition entry_holds (ks : list MasterKey) (e : B) (h : B * list N) : Prop :=
  set e EmptyString = h.1 ∧ opens_in ks aad (wrapped e) h.2.

Definition store_holds (ks : list MasterKey) d (l : list (B * list N)) : Prop :=
  ∃ f, store_at dflt file d f ∧ Forall2 (entry_holds ks) (entries f) l.

Lemma store_holds_subset ks ks' d l : ks ⊆ ks' → store_holds ks d l → store_holds ks' d l.
Proof.
  intros Hks (f & Hf & Hl). exists f. split; [done|]. eapply Forall2_impl; [exact Hl|].
  intros e h [Hp Ho]. split; [done|]. by eapply opens_in_subset.
Qed.

Lemma store_holds_put ks d l name raw :
  file ≠ name → store_holds ks d l → store_holds ks (put [name] raw d) l.
Proof. intros Hne (f & Hf & Hl). exists f. split; [by apply store_at_put|done]. Qed.

Lemma store_holds_regular ks d l : store_holds ks d l → regular_or_missing d [file].
Proof. intros (f & Hf & _). by eapply store_at_regular. Qed.

(** Only the store's file changed. *)
Definition only_file d (d' : gmap path node) : Prop := d' = d ∨ ∃ raw, d' = put [file] raw d.

Lemma rewrap_store_spec old_wrap new_wrap l w d :
  World.disk w = d → root_ok d → store_holds [old_wrap; new_wrap] d l →
  triple False (rewrap_store old_wrap new_wrap) w
    (λ _ d', only_file d d' ∧ store_holds [new_wrap] d' l)
    (λ d', only_file d d' ∧ store_holds [old_wrap; new_wrap] d' l).
Proof.
  intros <- Hr Hl. destruct Hl as (f & Hf & Hl). unfold rewrap_store.
  assert (only_file (World.disk w) (World.disk w) ∧ store_holds [old_wrap; new_wrap] (World.disk w) l) as Hsame.
  { split; [by left|]. exists f. done. }
  eapply triple_bind_reads; [by apply reads_json| |done]. intros w1 H1. case_bool_decide as Hlen.
  - apply triple_ret. disks. split; [by left|]. exists f. split; [done|].
    apply nil_length_inv in Hlen. rewrite Hlen in *. inversion Hl. constructor.
  - eapply (triple_bind_yields _ _ _ _ (λ es, Forall2 (entry_holds [new_wrap]) es l)).
    + eapply yields_mono.
      * apply (yields_map_each _ (λ e e', ∀ h, entry_holds [old_wrap; new_wrap] e h → entry_holds [new_wrap] e' h)).
        intros e w2 He H2. apply list_elem_of_lookup in He as [i Hi].
        destruct (Forall2_lookup_l _ _ _ _ _ Hl Hi) as ([p0 raw] & _ & Hp & Ho).
        eapply yields_bind; [by apply reseal_spec|]. intros s w3 H3 Hs. apply yields_ret.
        intros [p1 raw'] [Hp1 (k & sealed & Hk & Hd & Ho')]. cbn in *. split; cbn; [by rewrite set_set|].
        rewrite wrapped_set. destruct Ho as (k0 & sealed0 & Hk0 & Hd0 & Ho0).
        assert (sealed0 = sealed) as -> by congruence.
        assert (k0 = k) as -> by (by eapply open_committing). by assert (raw' = raw) as -> by congruence.
      * cbn beta. intros es' Hes'. clear - Hl Hes'. revert es' Hes'.
        induction Hl as [|e h es l He _ IH]; intros es' Hes'; inversion Hes'; subst; constructor; auto.
    + intros es w2 H2 Hes.
      assert (store_holds [new_wrap] (put [file] (to_vec_pretty (rebuild f es)) (World.disk w)) l) as Hnew.
      { exists (rebuild f es). split; [apply store_at_here|]. by rewrite entries_rebuild. }
      eapply triple_mono; [apply write_json_spec; [reflexivity|by disks|disks; by eapply store_at_regular]|done| |].
      * disks. intros [] d' ->. split; [right; eauto|done].
      * disks. intros d' [-> | ->]; [done|]. split; [right; eauto|].
        eapply store_holds_subset; [|exact Hnew]. set_solver.
    + disks. done.
Qed.
End rewrap.

(** ** All material of a vault *)

Module Material.
Record t := mk {
  schema : N;                                    (* of the identity file *)
  identity : list N;                             (* its protected payload *)
  transit : list (TransitEntry.t * list N);
  signing : list (SigningEntry.t * list N);
  brokers : list (BrokerEntry.t * list N)
}.
End Material.

Section material.
Context `{OS : Os} `{OSL : !OsLaws} `{PR : Prims} `{PRL : !PrimLaws} `{KC : !KeyCommitting}.
Context `{IJ : !Json IdentityFile.t} `{IJL : !JsonLaws IdentityFile.t}.
Context `{PJ : !Json IdentityPayloadV2.t} `{PJL : !JsonLaws IdentityPayloadV2.t}.
Context `{TJ : !Json TransitFile.t} `{TJL : !JsonLaws TransitFile.t}.
Context `{SJ : !Json SigningFile.t} `{SJL : !JsonLaws SigningFile.t}.
Context `{BJ : !Json BrokerFile.t} `{BJL : !JsonLaws BrokerFile.t}.
Implicit Types (w : World.t) (d : gmap path node).

Definition identity_aad (schema : N) : option (list N) :=
  if (schema =? IDENTITY_SCHEMA_V1)%N then Some IDENTITY_AAD_V1
  else if (schema =? IDENTITY_SCHEMA_V2)%N then Some IDENTITY_AAD_V2 else None.

Definition identity_at (ks : list MasterKey) d (schema : N) (raw : list N) : Prop :=
  ∃ fraw f aad, d !! [IDENTITY_FILE] = Some (File fraw) ∧ from_slice fraw = Ok f ∧
    IdentityFile.schema f = schema ∧ identity_aad schema = Some aad ∧
    opens_in ks aad (IdentityFile.wrapped_root_b64 f) raw.

Definition transit_holds ks d l :=
  store_holds TransitFile.default TRANSIT_FILE TRANSIT_AAD TransitFile.entries
    TransitEntry.wrapped_b64 TransitEntry.with_wrapped ks d l.
Definition signing_holds ks d l :=
  store_holds SigningFile.default SIGNING_FILE SIGNING_AAD SigningFile.entries
    SigningEntry.wrapped_secret_b64 SigningEntry.with_wrapped ks d l.
Definition brokers_hold ks d l :=
  store_holds BrokerFile.default BROKERS_FILE BROKER_AAD BrokerFile.entries
    BrokerEntry.wrapped_secret_b64 BrokerEntry.with_wrapped ks d l.

(** Every secret of the vault, and the keys under one of which it opens. *)
Record material_in (ki kt ks kb : list MasterKey) d (m : Material.t) : Prop := {
  mat_identity : identity_at ki d (Material.schema m) (Material.identity m);
  mat_transit : transit_holds kt d (Material.transit m);
  mat_signing : signing_holds ks d (Material.signing m);
  mat_brokers : brokers_hold kb d (Material.brokers m)
}.

Definition material_at (ks : list MasterKey) d (m : Material.t) : Prop := material_in ks ks ks ks d m.

Definition MATERIAL_FILES : list string := [IDENTITY_FILE; TRANSIT_FILE; SIGNING_FILE; BROKERS_FILE].

Lemma identity_at_put ks d s raw name bytes :
  IDENTITY_FILE ≠ name → identity_at ks d s raw → identity_at ks (put [name] bytes d) s raw.
Proof.
  intros Hne (fraw & f & aad & Hd & H). exists fraw, f, aad. split; [|done]. unfold put.
  by rewrite lookup_insert_ne by congruence.
Qed.

Lemma identity_at_subset ks ks' d s raw : ks ⊆ ks' → identity_at ks d s raw → identity_at ks' d s raw.
Proof.
  intros Hks (fraw & f & aad & Hd & Hf & Hs & Ha & Ho). exists fraw, f, aad. split_and!; try done.
  by eapply opens_in_subset.
Qed.

Lemma material_at_subset ki kt ks kb ki' kt' ks' kb' d m :
  ki ⊆ ki' → kt ⊆ kt' → ks ⊆ ks' → kb ⊆ kb' →
  material_in ki kt ks kb d m → material_in ki' kt' ks' kb' d m.
Proof.
  intros ???? [Hi Ht Hs Hb]. split; [by eapply identity_at_subset|..]; by eapply store_holds_subset.
Qed.

(** The disks agree outside the files of the material. *)
Definition frame (files : list string) d (d' : gmap path node) : Prop :=
  ∀ p, (∀ name, name ∈ files → p ≠ [name]) → d' !! p = d !! p.

Lemma frame_refl files d : frame files d d.
Proof. done. Qed.
Lemma frame_trans files d1 d2 d3 : frame files d1 d2 → frame files d2 d3 → frame files d1 d3.
Proof. intros H1 H2 p Hp. rewrite H2, H1; done. Qed.
Lemma frame_put files d name raw : name ∈ files → frame files d (put [name] raw d).
Proof. intros Hn p Hp. unfold put. rewrite lookup_insert_ne; [done|]. intros <-. by eapply Hp. Qed.
Lemma frame_only files file d d' : file ∈ files → only_file file d d' → frame files d d'.
Proof. intros Hf [-> | [raw ->]]; [done|by apply frame_put]. Qed.

Lemma rewrap_identity_spec old_wrap new_wrap s raw w d :
  World.disk w = d → root_ok d → identity_at [old_wrap; new_wrap] d s raw →
  triple False (rewrap_identity old_wrap new_wrap) w
    (λ _ d', only_file IDENTITY_FILE d d' ∧ identity_at [new_wrap] d' s raw)
    (λ d', only_file IDENTITY_FILE d d' ∧ identity_at [old_wrap; new_wrap] d' s raw).
Proof.
  intros <- Hr Hi. pose proof Hi as (fraw & f & aad & Hd & Hf & Hsch & Ha & Ho).
  assert (only_file IDENTITY_FILE (World.disk w) (World.disk w) ∧
          identity_at [old_wrap; new_wrap] (World.disk w) s raw) as Hsame by (split; [by left|done]).
  unfold rewrap_identity. eapply triple_bind_reads; [by eapply reads_json_required| |done]. intros w1 H1.
  rewrite Hsch. eapply (triple_bind_reads _ _ _ aad).
  { unfold identity_aad in Ha. destruct (s =? IDENTITY_SCHEMA_V1)%N; [simplify_eq; apply reads_ret|].
    destruct (s =? IDENTITY_SCHEMA_V2)%N; [simplify_eq; apply reads_ret|done]. }
  2: { by disks. }
  intros w2 H2. eapply triple_bind_yields; [by apply reseal_spec| |by disks].
  intros s' w3 H3 Hs'.
  assert (identity_at [new_wrap] (put [IDENTITY_FILE] (to_vec_pretty (IdentityFile.mk s s')) (World.disk w)) s raw)
    as Hnew.
  { eexists _, (IdentityFile.mk s s'), aad. unfold put. rewrite lookup_insert, decide_True by done.
    split; [done|]. split; [apply from_slice_pretty|]. done. }
  eapply triple_mono; [apply write_json_spec; [reflexivity|by disks|]|done| |]; disks.
  - intros n Hn. rewrite Hd in Hn. simplify_eq. eauto.
  - intros [] d' ->. split; [right; eauto|done].
  - intros d' [-> | ->]; [done|]. split; [right; eauto|]. eapply identity_at_subset; [|exact Hnew]. set_solver.
Qed.

Lemma root_put d name raw : root_ok d → root_ok (put [name] raw d).
Proof. intros Hr. unfold root_ok, put. by rewrite lookup_insert_ne. Qed.

Lemma root_only file d d' : root_ok d → only_file file d d' → root_ok d'.
Proof. intros Hr [-> | [raw ->]]; [done|by apply root_put]. Qed.

(** A change of one store's file keeps the others. *)
Lemma store_holds_only {A B} `{Json A} (dflt : A) file aad (entries : A → list B) wrapped set ks d d' l name :
  file ≠ name → only_file name d d' →
  store_holds dflt file aad entries wrapped set ks d l → store_holds dflt file aad entries wrapped set ks d' l.
Proof. intros Hne [-> | [raw ->]] Hs; [done|by apply store_holds_put]. Qed.

Lemma identity_at_only ks d d' s raw name :
  IDENTITY_FILE ≠ name → only_file name d d' → identity_at ks d s raw → identity_at ks d' s raw.
Proof. intros Hne [-> | [r ->]] Hs; [done|by apply identity_at_put]. Qed.

Lemma material_frame d d' : frame MATERIAL_FILES d d' → root_ok d → root_ok d'.
Proof. intros Hf Hr. unfold root_ok. rewrite Hf; [done|]. by intros name _. Qed.

(** One store of the four goes from [k] to [k']; the others are untouched. *)
Ltac one_store :=
  let Ho := fresh "Ho" in let Hn := fresh "Hn" in
  cbn beta; intros; match goal with H : only_file _ _ _ ∧ _ |- _ => destruct H as [Ho Hn] end;
  split; [by eapply frame_only; [|exact Ho]; unfold MATERIAL_FILES; set_solver|];
  split; first [exact Hn | by eapply identity_at_only; [|exact Ho|] | by eapply store_holds_only; [|exact Ho|]].

Context (old_wrap new_wrap : MasterKey).
Let both : list MasterKey := [old_wrap; new_wrap].

Lemma step_identity kt ks kb m w d :
  World.disk w = d → root_ok d → material_in both kt ks kb d m →
  triple False (rewrap_identity old_wrap new_wrap) w
    (λ _ d', frame MATERIAL_FILES d d' ∧ material_in [new_wrap] kt ks kb d' m)
    (λ d', frame MATERIAL_FILES d d' ∧ material_in both kt ks kb d' m).
Proof. intros Hd Hr [Hi Ht Hs Hb]. eapply triple_mono; [by apply rewrap_identity_spec|done|one_store|one_store]. Qed.

Lemma step_transit ki ks kb m w d :
  World.disk w = d → root_ok d → material_in ki both ks kb d m →
  triple False (rewrap_transit old_wrap new_wrap) w
    (λ _ d', frame MATERIAL_FILES d d' ∧ material_in ki [new_wrap] ks kb d' m)
    (λ d', frame MATERIAL_FILES d d' ∧ material_in ki both ks kb d' m).
Proof.
  intros Hd Hr [Hi Ht Hs Hb]. eapply triple_mono; [by apply (rewrap_store_spec TransitFile.default TRANSIT_FILE TRANSIT_AAD TransitFile.entries
    (λ f l, TransitFile.mk (TransitFile.schema f) l) TransitEntry.wrapped_b64 TransitEntry.with_wrapped)|done|one_store|one_store].
Qed.

Lemma step_signing ki kt kb m w d :
  World.disk w = d → root_ok d → material_in ki kt both kb d m →
  triple False (rewrap_signing old_wrap new_wrap) w
    (λ _ d', frame MATERIAL_FILES d d' ∧ material_in ki kt [new_wrap] kb d' m)
    (λ d', frame MATERIAL_FILES d d' ∧ material_in ki kt both kb d' m).
Proof.
  intros Hd Hr [Hi Ht Hs Hb]. eapply triple_mono; [by apply (rewrap_store_spec SigningFile.default SIGNING_FILE SIGNING_AAD SigningFile.entries
    (λ f l, SigningFile.mk (SigningFile.schema f) l) SigningEntry.wrapped_secret_b64 SigningEntry.with_wrapped)|done|one_store|one_store].
Qed.

Lemma step_brokers ki kt ks m w d :
  World.disk w = d → root_ok d → material_in ki kt ks both d m →
  triple False (rewrap_brokers old_wrap new_wrap) w
    (λ _ d', frame MATERIAL_FILES d d' ∧ material_in ki kt ks [new_wrap] d' m)
    (λ d', frame MATERIAL_FILES d d' ∧ material_in ki kt ks both d' m).
Proof.
  intros Hd Hr [Hi Ht Hs Hb]. eapply triple_mono; [by apply (rewrap_store_spec BrokerFile.default BROKERS_FILE BROKER_AAD BrokerFile.entries
    (λ f l, BrokerFile.mk (BrokerFile.schema f) l) BrokerEntry.wrapped_secret_b64 BrokerEntry.with_wrapped)|done|one_store|one_store].
Qed.

(** Interrupted anywhere, every secret still opens under one of the two keys, and the
    operation can be run again; completed, all of them open under the new one. *)
Lemma rewrap_all_material_spec m w d :
  World.disk w = d → root_ok d → material_at both d m →
  triple False (rewrap_all_material old_wrap new_wrap) w
    (λ _ d', frame MATERIAL_FILES d d' ∧ material_at [new_wrap] d' m)
    (λ d', frame MATERIAL_FILES d d' ∧ material_at both d' m).
Proof.
  intros <- Hr Hm. assert ([new_wrap] ⊆ both) as Hsub by set_solver. unfold rewrap_all_material.
  assert (∀ d0 ki kt ks kb, frame MATERIAL_FILES (World.disk w) d0 → ki ⊆ both → kt ⊆ both → ks ⊆ both → kb ⊆ both →
    ∀ d', frame MATERIAL_FILES d0 d' ∧ material_in ki kt ks kb d' m →
      frame MATERIAL_FILES (World.disk w) d' ∧ material_at both d' m) as Hweak.
  { intros d0 ki kt ks kb F0 ? ? ? ? d' [F Hin]. split; [by eapply frame_trans|]. eapply material_at_subset; [..|exact Hin]; done. }
  eapply triple_then; [by apply step_identity|by eapply Hweak|]. cbn beta. intros [] w1 _ [F1 M1].
  eapply triple_then; [apply step_transit; [done|by eapply material_frame|exact M1]|by eapply Hweak|].
  cbn beta. intros [] w2 _ [F2 M2]. eapply frame_trans in F2; [|exact F1].
  eapply triple_then; [apply step_signing; [done|by eapply material_frame|exact M2]|by eapply Hweak|].
  cbn beta. intros [] w3 _ [F3 M3]. eapply frame_trans in F3; [|exact F2].
  eapply triple_mono; [apply step_brokers; [done|by eapply material_frame|exact M3]|done| |by eapply Hweak].
  intros [] d' [F4 M4]. split; [by eapply frame_trans|done].
Qed.
End material.
