(* ===== verification/Lifecycle.v ===== *)
(** * sv-core/src/lib.rs: the lifecycle of a vault

    Bootstrap, unlock, changes of custody and rotation of the data key.  Each of the last
    three is a transaction over several files: a journal is written before the first change
    and removed after the last, and the next unlock completes or rolls back what it finds.
    The audit log of [AuditLog] is run on the vault's own directory. *)
From stdpp Require Import pretty.
From S2P Require Import Prelude Text AuditTypes AuditLog Broker Fs Crypto Storage Keychain Recovery.
From S2P Require Import Core Keyring Transit.

Module LifecycleJournal.
Inductive t :=
| Bootstrap (custody : string) (salt_b64 scoped_kek_fingerprint wrapped_phrase_b64 : option string)
| ChangePassphrase (old_salt_b64 new_salt_b64 : string)
| MoveToKeychain
| Rotate (old_version new_version : N) (recovery_backup_b64 : string).

Definition debug_option (o : option string) : string :=
  match o with Some s => "Some(" +:+ debug_str s +:+ ")" | None => "None" end.

(** [derive(Debug)]. *)
Definition debug (j : t) : string :=
  match j with
  | Bootstrap c s f p => "Bootstrap { custody: " +:+ debug_str c +:+ ", salt_b64: " +:+ debug_option s
      +:+ ", scoped_kek_fingerprint: " +:+ debug_option f +:+ ", wrapped_phrase_b64: " +:+ debug_option p +:+ " }"
  | ChangePassphrase o n => "ChangePassphrase { old_salt_b64: " +:+ debug_str o +:+ ", new_salt_b64: "
      +:+ debug_str n +:+ " }"
  | MoveToKeychain => "MoveToKeychain"
  | Rotate o n b => "Rotate { old_version: " +:+ pretty o +:+ ", new_version: " +:+ pretty n
      +:+ ", recovery_backup_b64: " +:+ debug_str b +:+ " }"
  end.
End LifecycleJournal.

Module VaultHandle.
Record t := mk { vault : Vault.t; custody : CustodyMode.t; identity_root : MasterKey }.
End VaultHandle.

Module BootstrapResult.
Record t := mk { handle : VaultHandle.t; recovery_phrase : string }.
End BootstrapResult.

Module KeychainKekSource.
Inductive t := Scoped | Legacy.
#[global] Instance t_eq_dec : EqDecision t.
Proof. solve_decision. Defined.
End KeychainKekSource.

Module KeychainKekCandidate.
Record t := mk { kek : MasterKey; source : KeychainKekSource.t }.
End KeychainKekCandidate.

(** What a rotation fixes before its first change. *)
Module Rotation.
Record t := mk {
  kek : MasterKey;
  old_wrap : MasterKey;
  old_version : N;
  new_dek : MasterKey;
  predicted : N;
  backup_b64 : string
}.
End Rotation.

(** The path the vault was opened with, what [canonicalize] makes of a path, and base64
    in its URL-safe alphabet. *)
Class CoreEnv := {
  vault_root : string;
  canonical : string → string;
  b64_url_encode : list N → string
}.

(** ** The audit log on the vault's directory *)

Section audit.
Definition audit_node (n : Fs.node) : AuditTypes.node :=
  match n with Fs.File b => AuditTypes.File b | _ => NotFile end.

Definition audit_dir (d : gmap path Fs.node) : gmap string AuditTypes.node :=
  list_to_map (prod_map id audit_node <$> entries_of d []).

Definition audit_root (d : gmap path Fs.node) : AuditLog.root_state :=
  match d !! [] with
  | None => AuditLog.RootMissing
  | Some Directory => AuditLog.RootDirectory
  | Some Special => AuditLog.RootLink
  | Some (Fs.File _) => AuditLog.RootFile
  end.

Definition outside_audit (a : gmap string AuditTypes.node) (p : path) : bool :=
  match p with [name] => bool_decide (a !! name ≠ None) | _ => true end.

(** The files directly below the root become those of [a]. *)
Definition with_audit_dir (d : gmap path Fs.node) (a : gmap string AuditTypes.node) : gmap path Fs.node :=
  map_fold (λ name n acc, match n with AuditTypes.File b => <[[name] := Fs.File b]> acc | NotFile => acc end)
    (filter (λ pn : path * Fs.node, outside_audit a pn.1 = true) d) a.

Definition with_audit_root (d : gmap path Fs.node) (r : AuditLog.root_state) : gmap path Fs.node :=
  match d !! [], r with None, AuditLog.RootDirectory => <[[] := Directory]> d | _, _ => d end.

Definition to_audit_fault (f : Fs.fault) : AuditLog.fault :=
  match f with Fs.Done => AuditLog.Done | Fs.Fails n m => AuditLog.Fails n m end.
Definition of_audit_fault (f : AuditLog.fault) : Fs.fault :=
  match f with AuditLog.Done => Fs.Done | AuditLog.Fails n m => Fs.Fails n m end.

Definition run_audit {A} (m : AuditLog.M A) : M AuditError.t A := λ w,
  let d := World.disk w in
  let '(aw, r) := m (AuditLog.World.mk (audit_root d) (audit_dir d)
                       (bool_decide ([LOCK_FILE] ∈ World.held w)) (to_audit_fault <$> World.faults w)) in
  (World.mk (with_audit_dir (with_audit_root d (AuditLog.World.root aw)) (AuditLog.World.disk aw))
     (World.perms w) (World.held w) (World.keychain w) (World.draws w)
     (of_audit_fault <$> AuditLog.World.faults aw), r).
End audit.

Section lifecycle.
Context `{OS : Os} `{PR : Prims} `{MJ : ManifestJson} `{AE : AuditEnv} `{BK : Backend} `{CE : CoreEnv}.
Context `{BP : Bip39} `{RJ : !Json RecoveryBundle.t} `{KJ : !Json KeyringFile.t} `{LJ : !Json LifecycleJournal.t}.
Context `{IJ : !Json IdentityFile.t} `{PJ : !Json IdentityPayloadV2.t}.
Context `{TJ : !Json TransitFile.t} `{SJ : !Json SigningFile.t} `{BJ : !Json BrokerFile.t}.

Definition storage {A} (m : M StorageError.t A) : M CoreError.t A := errmap CoreError.Storage m.
Definition keychain {A} (m : M KeychainError.t A) : M CoreError.t A := errmap CoreError.Keychain m.
Definition recovery {A} (m : M RecoveryError.t A) : M CoreError.t A := errmap CoreError.Recovery m.
Definition audit {A} (m : M AuditError.t A) : M CoreError.t A := errmap CoreError.Audit m.

(** ** The vault lock *)

Definition CORE_FILES : list string :=
  [VAULT_LOCK_FILE; LIFECYCLE_FILE; SALT_FILENAME; KEYRING_FILE; STAGED_KEYRING_FILE;
   RECOVERY_FILE; IDENTITY_FILE; TRANSIT_FILE; SIGNING_FILE; BROKERS_FILE].

Definition harden_existing_core_permissions : M CoreError.t unit :=
  let! _ := secure_core_directory [] in
  for_each (λ name,
    let! found := path_entry_exists [name] in
    if (found : bool) then secure_core_regular_file [name] else ret tt) CORE_FILES.

Definition NOT_A_LOCK : CoreError.t :=
  CoreError.Misuse ("vault lock is not a regular file: " +:+ show_path [VAULT_LOCK_FILE]).

(** Opening with [O_NOFOLLOW]: a symbolic link gives [ELOOP]. *)
Definition open_vault_lock : M CoreError.t unit := λ w,
  match World.disk w !! [VAULT_LOCK_FILE] with
  | Some Special => (w, Err NOT_A_LOCK)
  | Some Directory => (w, Err (CoreError.Io (OtherIo "Is a directory (os error 21)")))
  | _ => Core.io (open_lock [VAULT_LOCK_FILE]) w
  end.

(** [VaultLock::acquire]; the guard lives as long as the handle. *)
Definition acquire_vault_lock : M CoreError.t unit :=
  let p := [VAULT_LOCK_FILE] in
  let! _ := Core.ensure_directory [] "vault root" in
  let! _ := harden_existing_core_permissions in
  let! metadata := attempt (symlink_metadata p) in
  let! _ := match metadata with
            | Ok (Fs.File _) | Err _ => ret tt
            | Ok _ => fail NOT_A_LOCK
            end in
  let! _ := open_vault_lock in
  let! metadata := Core.io (symlink_metadata p) in
  let! _ := match metadata with Fs.File _ => ret tt | _ => fail NOT_A_LOCK end in
  let! found := Core.io (metadata_mode p) in
  let! _ := if negb (N.land found.2 511 =? 384)%N then Core.io (set_permissions p 384) else ret tt in
  let! _ := Core.sync_parent [] in
  let! ours := Core.io (try_lock p) in
  if (ours : bool) then ret tt else fail (CoreError.VaultLocked p).

(** ** Journal, identity and audit *)

Definition lifecycle_path : path := [LIFECYCLE_FILE].

Definition read_lifecycle : M CoreError.t (option LifecycleJournal.t) :=
  let! metadata := attempt (symlink_metadata lifecycle_path) in
  match metadata with
  | Err NotFound => ret None
  | Err error => fail (CoreError.Io error)
  | Ok _ =>
      let! _ := Core.ensure_regular_file lifecycle_path "lifecycle journal" in
      let! raw := Core.io (fs_read lifecycle_path) in
      lift (match from_slice raw with
            | Ok j => Ok (Some j)
            | Err e => Err (CoreError.Misuse ("lifecycle journal: " +:+ e))
            end)
  end.

Definition write_lifecycle (journal : LifecycleJournal.t) : M CoreError.t unit :=
  write_atomic lifecycle_path (to_vec_pretty journal).

Definition remove_lifecycle : M CoreError.t unit := remove_file_durable lifecycle_path.

Definition custody_label (custody : CustodyMode.t) : string :=
  match custody with
  | CustodyMode.OsKeychain => "os_keychain"
  | CustodyMode.Passphrase => "passphrase"
  | CustodyMode.Recovery => "recovery"
  end.

Definition material_wrap_for_dek (dek : MasterKey) : MasterKey := derive_subkey dek MATERIAL_WRAP_CONTEXT.

Definition create_identity (active_dek : MasterKey) : M CoreError.t IdentityState.t :=
  load_or_create_identity (material_wrap_for_dek active_dek) None.

Definition legacy_manifest_migration_error {A} : M CoreError.t A :=
  let! digest := attempt manifest_migration_digest in
  match digest with
  | Ok digest => misuse ("legacy manifest authentication migration is required; review manifest.json, then call VaultHandle::migrate_manifest_authentication with SHA-256 " +:+ digest)
  | Err error => misuse ("legacy manifest authentication migration is required, but its confirmation digest could not be computed: " +:+ storage_display error)
  end.

Definition load_authenticated_identity (active_dek : MasterKey) : M CoreError.t IdentityState.t :=
  let! identity := load_identity_if_present (material_wrap_for_dek active_dek) in
  match identity with
  | None => legacy_manifest_migration_error
  | Some identity =>
      if negb (IdentityState.manifest_auth_required identity) then legacy_manifest_migration_error
      else ret identity
  end.

Definition audit_key (identity_root : MasterKey) : list N :=
  derive_subkey identity_root (str_bytes "sv-audit-hmac-v1").

Definition ensure_bootstrap_audit (identity_root : MasterKey) : M CoreError.t unit :=
  let key := audit_key identity_root in
  let! opened := attempt (run_audit (AuditLog.open key)) in
  match opened with
  | Ok _ => ret tt
  | Err (AuditError.NotInitialized _) =>
      let! _ := audit (run_audit (AuditLog.create key)) in ret tt
  | Err error => fail (CoreError.Audit error)
  end.

Definition finish_pending_bootstrap (identity_root : MasterKey) : M CoreError.t unit :=
  let! journal := read_lifecycle in
  match journal with
  | Some (LifecycleJournal.Bootstrap _ _ _ (Some _)) =>
      let! _ := ensure_bootstrap_audit identity_root in
      remove_lifecycle
  | _ => ret tt
  end.

Definition seal_lifecycle_phrase (kek : MasterKey) (phrase : string) : M CoreError.t string :=
  let! sealed := crypto (seal kek (str_bytes phrase) LIFECYCLE_AAD) in
  ret (b64_encode sealed).

Definition open_lifecycle_phrase (kek : MasterKey) (encoded : string) : result string CoreError.t :=
  let? sealed := Core.decode_b64 encoded in
  let? raw := Core.of_crypto (open kek sealed LIFECYCLE_AAD) in
  if utf8_valid raw then Ok (str_of_bytes raw)
  else Err (CoreError.Misuse "lifecycle recovery phrase is not UTF-8").

(** [keys.get(active).expect(..)]; every keyring that loads has its active version. *)
Definition active_dek (u : Unwrapped.t) : MasterKey := default [] (Unwrapped.active_dek u).

Definition open_vault (u : Unwrapped.t) (manifest_auth_key : MasterKey) : M CoreError.t Vault.t :=
  storage (open_existing_with_keys_and_manifest_key (Unwrapped.keys u) (Unwrapped.active_version u)
             manifest_auth_key).

(** ** The operating system's keychain *)

Definition canonicalize (p : string) : M io_error string := io_read (λ _, Ok (canonical p)).

Definition keychain_account_for_root {E} : M E string :=
  let! found := attempt (canonicalize vault_root) in
  let root := match found with Ok r => r | Err _ => vault_root end in
  let normalized := str_replace "\" "/" root in
  ret ("master-key-" +:+ b64_url_encode (take 16 (sha256 (str_bytes normalized)))).

Definition load_scoped_keychain_b64 : M CoreError.t (option string) :=
  let! account := keychain_account_for_root in
  keychain (load_master_key_for_account account).

Definition store_scoped_keychain_kek (kek : MasterKey) : M CoreError.t unit :=
  let! account := keychain_account_for_root in
  keychain (store_master_key_for_account account (b64_encode kek)).

Definition decode_keychain_kek (b64 : string) : result MasterKey CoreError.t :=
  let? raw := Core.decode_b64 b64 in
  if negb (length raw =? MASTER_KEY_LEN)%nat then
    Err (CoreError.Misuse ("keychain entry has wrong length: " +:+ pretty (length raw)))
  else Ok raw.

Definition scoped_credential_fingerprint (encoded_kek : string) : string :=
  b64_url_encode (sha256 (str_bytes encoded_kek)).

Definition keychain_kek_fingerprint (kek : MasterKey) : string :=
  scoped_credential_fingerprint (b64_encode kek).

Definition cleanup_matching_bootstrap_keychain_kek (expected : string) : M CoreError.t bool :=
  let! loaded := load_scoped_keychain_b64 in
  match loaded with
  | None => ret false
  | Some encoded_kek =>
      if negb (bool_decide (scoped_credential_fingerprint encoded_kek = expected)) then ret false
      else
        let! account := keychain_account_for_root in
        let! _ := keychain (delete_master_key_for_account account) in
        ret true
  end.

(** The key of the keychain and what it unwraps: the entry of this vault first, the
    shared entry of older versions only when that one cannot serve. *)
Definition load_keychain_unwrapped : M CoreError.t (MasterKey * Unwrapped.t) :=
  let! scoped := load_scoped_keychain_b64 in
  let! first := match scoped with
    | None => ret (inr None)
    | Some b64 =>
        match decode_keychain_kek b64 with
        | Err error => ret (inr (Some error))
        | Ok kek =>
            let! r := attempt (Keyring.load kek) in
            ret (match r with Ok unwrapped => inl (kek, unwrapped) | Err _ => inr None end)
        end
    end in
  match first with
  | inl found => ret found
  | inr decode_error =>
      let! legacy := keychain load_master_key in
      if bool_decide (scoped = None) && bool_decide (legacy = None) then
        misuse "no key in OS keychain - bootstrap the vault first"
      else
        let finish decode_error := match decode_error with
          | Some error => fail error
          | None => misuse "OS keychain key could not unwrap this vault's keyring; use recovery unlock or restore the original OS keychain credential"
          end in
        match legacy with
        | Some b64 =>
            if bool_decide (scoped = Some b64) then finish decode_error
            else
              match decode_keychain_kek b64 with
              | Err error => finish (Some error)
              | Ok kek =>
                  let! r := attempt (Keyring.load kek) in
                  match r with
                  | Ok unwrapped =>
                      let! _ := store_scoped_keychain_kek kek in
                      ret (kek, unwrapped)
                  | Err _ => finish decode_error
                  end
              end
        | None => finish decode_error
        end
  end.

Definition load_verified_keychain_kek : M CoreError.t MasterKey :=
  let! found := load_keychain_unwrapped in
  ret found.1.

Definition load_keychain_kek_candidates : M CoreError.t (list KeychainKekCandidate.t) :=
  let! scoped := load_scoped_keychain_b64 in
  let '(candidates, decode_error) := match scoped with
    | None => ([], None)
    | Some b64 =>
        match decode_keychain_kek b64 with
        | Ok kek => ([KeychainKekCandidate.mk kek KeychainKekSource.Scoped], None)
        | Err error => ([], Some error)
        end
    end in
  let! legacy := keychain load_master_key in
  let '(candidates, decode_error) := match legacy with
    | None => (candidates, decode_error)
    | Some b64 =>
        if bool_decide (scoped = Some b64) then (candidates, decode_error)
        else
          match decode_keychain_kek b64 with
          | Ok kek => (candidates ++ [KeychainKekCandidate.mk kek KeychainKekSource.Legacy], decode_error)
          | Err error => (candidates, Some error)
          end
    end in
  match candidates, decode_error with
  | [], Some error => fail error
  | _, _ => ret candidates
  end.

Definition has_keychain_kek : M CoreError.t bool :=
  let! scoped := load_scoped_keychain_b64 in
  if bool_decide (scoped ≠ None) then ret true
  else
    let! has_manifest := path_entry_exists [MANIFEST_FILE] in
    let! has_passphrase_salt := path_entry_exists [SALT_FILENAME] in
    if has_manifest && negb has_passphrase_salt then
      let! legacy := keychain load_master_key in ret (bool_decide (legacy ≠ None))
    else ret false.

Definition should_repair_keychain_after_recovery : M CoreError.t bool :=
  let! found := exists_keyring in
  let! stop := if negb found then ret true else path_entry_exists [SALT_FILENAME] in
  if (stop : bool) then ret false
  else
    let! r := attempt load_keychain_unwrapped in
    match r with
    | Ok _ => ret false
    | Err (CoreError.Keychain (KeychainError.Unavailable _)) => ret false
    | Err _ => let! a := availability in ret (KeychainAvailability.available a)
    end.

(** ** Rolling back a rotation *)

(** [vault.derive_subkey(MATERIAL_WRAP_CONTEXT)]; an open vault has its active key. *)
Definition material_wrap_of (v : Vault.t) : MasterKey :=
  default [] (vault_derive_subkey v MATERIAL_WRAP_CONTEXT).
Definition material_wrap_key (h : VaultHandle.t) : MasterKey := material_wrap_of (VaultHandle.vault h).

Definition rewrap_all_files (v : Vault.t) : M CoreError.t unit :=
  let! containers := storage (list_containers v) in
  for_each (λ container,
    let! files := storage (list_files v (ContainerInfo.name container)) in
    for_each (λ file,
      let! _ := storage (rewrap_file v (ContainerInfo.name container) (FileInfo.name file)) in
      ret tt) files) containers.

(** Files and material back under the old data key. *)
Definition rollback_contents (kek : MasterKey) (old_version : N) (old_wrap new_wrap : MasterKey) :
    M CoreError.t unit :=
  let! first := attempt (load_identity new_wrap) in
  let! identity := match first with
                   | Ok identity => ret identity
                   | Err _ => load_identity old_wrap
                   end in
  if negb (IdentityState.manifest_auth_required identity) then legacy_manifest_migration_error
  else
    let manifest_auth_key := derive_manifest_auth_key (IdentityState.root identity) in
    let! _ := set_active_version old_version in
    let! unwrapped := Keyring.load kek in
    let! vault := open_vault unwrapped manifest_auth_key in
    let! _ := rewrap_all_files vault in
    rewrap_all_material new_wrap old_wrap.

Definition rollback_rotation (kek : MasterKey) (old_version new_version : N) (recovery_backup_b64 : string) :
    M CoreError.t unit :=
  let! unwrapped := Keyring.load kek in
  let! _ := match Unwrapped.keys unwrapped !! new_version with
    | None => ret tt
    | Some new_dek =>
        match Unwrapped.keys unwrapped !! old_version with
        | None => misuse "rotation rollback is missing the old DEK"
        | Some old_dek =>
            rollback_contents kek old_version (material_wrap_for_dek old_dek) (material_wrap_for_dek new_dek)
        end
    end in
  let! recovery_backup := lift (Core.decode_b64 recovery_backup_b64) in
  let! _ := write_atomic [RECOVERY_FILE] recovery_backup in
  let! active := Keyring.active_version in
  let! _ := if negb (active =? old_version)%N then set_active_version old_version else ret tt in
  let! _ := remove_version new_version in
  remove_lifecycle.

(** ** Recovery of interrupted transactions at unlock *)

Definition need_passphrase (passphrase : option string) : M CoreError.t string :=
  match passphrase with
  | Some p => ret p
  | None => misuse "passphrase custody requires a passphrase"
  end.

Definition finish_move_to_keychain (kek : MasterKey) : M CoreError.t unit :=
  let! loaded := attempt (Keyring.load kek) in
  let! _ := match loaded with
    | Err _ => let! _ := load_staged kek in commit_staged
    | Ok _ => discard_staged
    end in
  let! _ := remove_file_durable [SALT_FILENAME] in
  remove_lifecycle.

Fixpoint recover_move_to_keychain (custody : CustodyMode.t) (passphrase : option string)
    (keychain_candidates : list MasterKey) : M CoreError.t CustodyMode.t :=
  match keychain_candidates with
  | kek :: rest =>
      let! live := attempt (Keyring.load kek) in
      let! found := match live with
        | Ok _ => ret true
        | Err _ => let! staged := attempt (load_staged kek) in ret (is_ok staged)
        end in
      if (found : bool) then
        let! _ := finish_move_to_keychain kek in
        ret CustodyMode.OsKeychain
      else recover_move_to_keychain custody passphrase rest
  | [] =>
      if bool_decide (custody = CustodyMode.Passphrase) then
        let! passphrase := need_passphrase passphrase in
        let! old_kek := derive_passphrase_kek passphrase in
        let! _ := Keyring.load old_kek in
        let! _ := discard_staged in
        let! _ := remove_lifecycle in
        ret CustodyMode.Passphrase
      else misuse "OS keychain credential for the pending custody transaction is unavailable; unlock with the current passphrase to roll it back"
  end.

Definition recover_change_passphrase (passphrase : string) (old_salt_b64 new_salt_b64 : string) :
    M CoreError.t CustodyMode.t :=
  let! current := read_salt in
  let! old_salt := lift (decode_salt old_salt_b64) in
  let! new_salt := lift (decode_salt new_salt_b64) in
  let! _ :=
    if bool_decide (current = old_salt) then
      let! old_kek := lift (Core.of_crypto (from_passphrase passphrase old_salt)) in
      let! _ := Keyring.load old_kek in
      discard_staged
    else if bool_decide (current = new_salt) then
      let! new_kek := lift (Core.of_crypto (from_passphrase passphrase new_salt)) in
      let! loaded := attempt (Keyring.load new_kek) in
      match loaded with
      | Err _ => let! _ := load_staged new_kek in commit_staged
      | Ok _ => discard_staged
      end
    else misuse "master.salt does not match either side of the pending passphrase transaction" in
  let! _ := remove_lifecycle in
  ret CustodyMode.Passphrase.

Definition recover_lifecycle_for_unlock (custody : CustodyMode.t) (passphrase : option string) :
    M CoreError.t CustodyMode.t :=
  let! journal := read_lifecycle in
  match journal with
  | None => ret custody
  | Some (LifecycleJournal.Bootstrap _ _ _ (Some _)) => ret custody
  | Some (LifecycleJournal.Bootstrap _ _ _ None) =>
      misuse "bootstrap was interrupted before completion; call bootstrap again with the intended custody mode"
  | Some (LifecycleJournal.ChangePassphrase old_salt_b64 new_salt_b64) =>
      if negb (bool_decide (custody = CustodyMode.Passphrase)) then
        misuse "passphrase change is incomplete; unlock with passphrase custody to recover it"
      else
        let! passphrase := need_passphrase passphrase in
        recover_change_passphrase passphrase old_salt_b64 new_salt_b64
  | Some LifecycleJournal.MoveToKeychain =>
      let! loaded := attempt load_keychain_kek_candidates in
      let! candidates := match loaded with
        | Ok candidates => ret (KeychainKekCandidate.kek <$> candidates)
        | Err error => if bool_decide (custody = CustodyMode.Passphrase) then ret [] else fail error
        end in
      recover_move_to_keychain custody passphrase candidates
  | Some (LifecycleJournal.Rotate old_version new_version recovery_backup_b64) =>
      let! kek := match custody with
        | CustodyMode.Passphrase =>
            let! passphrase := need_passphrase passphrase in derive_passphrase_kek passphrase
        | CustodyMode.OsKeychain => load_verified_keychain_kek
        | CustodyMode.Recovery => misuse "rotation recovery requires normal custody"
        end in
      let! _ := rollback_rotation kek old_version new_version recovery_backup_b64 in
      ret custody
  end.

(** ** Bootstrap *)

Definition BOOTSTRAP_FILES : list string :=
  [MANIFEST_FILE; KEYRING_FILE; STAGED_KEYRING_FILE; RECOVERY_FILE; IDENTITY_FILE; SALT_FILENAME].

Definition rollback_incomplete_bootstrap (custody : string) (scoped_kek_fingerprint : option string) :
    M CoreError.t unit :=
  let! _ := for_each (λ file, remove_file_durable [file]) BOOTSTRAP_FILES in
  let! _ := if bool_decide (custody = "os_keychain") then
      match scoped_kek_fingerprint with
      | Some expected => let! _ := cleanup_matching_bootstrap_keychain_kek expected in ret tt
      | None => ret tt
      end
    else ret tt in
  remove_lifecycle.

(** The end of a bootstrap whose phrase is already in the journal. *)
Definition resume_bootstrap (custody : CustodyMode.t) (passphrase : option string)
    (pending_custody : string) (salt_b64 : option string) (wrapped_phrase_b64 : string) :
    M CoreError.t BootstrapResult.t :=
  if negb (bool_decide (pending_custody = custody_label custody)) then
    misuse ("bootstrap already completed with " +:+ pending_custody +:+ " custody")
  else
    let! kek := match custody with
      | CustodyMode.Passphrase =>
          let! pass := need_passphrase passphrase in
          let! encoded := lift (ok_or salt_b64 (CoreError.Misuse "bootstrap journal is missing its salt")) in
          let! salt := lift (decode_salt encoded) in
          lift (Core.of_crypto (from_passphrase pass salt))
      | CustodyMode.OsKeychain => load_verified_keychain_kek
      | CustodyMode.Recovery => misuse "recovery custody cannot be used for bootstrap"
      end in
    let! unwrapped := Keyring.load kek in
    let! identity := load_authenticated_identity (active_dek unwrapped) in
    let! vault := open_vault unwrapped (derive_manifest_auth_key (IdentityState.root identity)) in
    let! recovery_phrase := lift (open_lifecycle_phrase kek wrapped_phrase_b64) in
    let! _ := ensure_bootstrap_audit (IdentityState.root identity) in
    let! _ := remove_lifecycle in
    ret (BootstrapResult.mk (VaultHandle.mk vault custody (IdentityState.root identity)) recovery_phrase).

(** From the keyring on, both custody modes do the same. *)
Definition complete_bootstrap (custody : CustodyMode.t) (salt_b64 fingerprint : option string)
    (kek dek : MasterKey) : M CoreError.t BootstrapResult.t :=
  let! _ := Keyring.create kek dek in
  let! identity := create_identity dek in
  let! vault := storage (open_or_init_with_manifest_key dek
                           (derive_manifest_auth_key (IdentityState.root identity))) in
  let! _ := Core.ensure_destination_is_regular_or_missing [RECOVERY_FILE] "recovery bundle" in
  let! recovery_phrase := recovery (issue_recovery_phrase_for_version dek 1) in
  let! wrapped := seal_lifecycle_phrase kek recovery_phrase in
  let! _ := write_lifecycle (LifecycleJournal.Bootstrap (custody_label custody) salt_b64 fingerprint
                               (Some wrapped)) in
  let! _ := ensure_bootstrap_audit (IdentityState.root identity) in
  let! _ := remove_lifecycle in
  ret (BootstrapResult.mk (VaultHandle.mk vault custody (IdentityState.root identity)) recovery_phrase).

Definition bootstrap_keychain : M CoreError.t BootstrapResult.t :=
  let! _ := keychain ensure_available in
  let! existing := load_scoped_keychain_b64 in
  if bool_decide (existing ≠ None) then
    misuse "a vault-scoped OS keychain credential already exists without matching vault state; remove that scoped credential explicitly or use passphrase custody"
  else
    let! kek := generate in
    let! dek := generate in
    let fingerprint := Some (keychain_kek_fingerprint kek) in
    let! _ := write_lifecycle (LifecycleJournal.Bootstrap (custody_label CustodyMode.OsKeychain) None
                                 fingerprint None) in
    let! _ := store_scoped_keychain_kek kek in
    complete_bootstrap CustodyMode.OsKeychain None fingerprint kek dek.

Definition bootstrap_passphrase (passphrase : option string) : M CoreError.t BootstrapResult.t :=
  let! pass := need_passphrase passphrase in
  let! _ := lift (validate_new_passphrase pass) in
  let! salt := crypto random_salt in
  let! kek := lift (Core.of_crypto (from_passphrase pass salt)) in
  let! dek := generate in
  let salt_b64 := Some (b64_encode salt) in
  let! _ := write_lifecycle (LifecycleJournal.Bootstrap (custody_label CustodyMode.Passphrase) salt_b64
                               None None) in
  let! _ := write_atomic [SALT_FILENAME] salt in
  complete_bootstrap CustodyMode.Passphrase salt_b64 None kek dek.

Definition bootstrap_fresh (custody : CustodyMode.t) (passphrase : option string) :
    M CoreError.t BootstrapResult.t :=
  let! has_manifest := path_entry_exists [MANIFEST_FILE] in
  let! initialised := if (has_manifest : bool) then ret true else exists_keyring in
  if (initialised : bool) then misuse "vault already initialised on disk - call unlock instead"
  else
    match custody with
    | CustodyMode.OsKeychain => bootstrap_keychain
    | CustodyMode.Passphrase => bootstrap_passphrase passphrase
    | CustodyMode.Recovery => misuse "recovery custody cannot be used for bootstrap"
    end.

Definition bootstrap (custody : CustodyMode.t) (passphrase : option string) :
    M CoreError.t BootstrapResult.t :=
  let! found := path_entry_exists [] in
  let! _ := if (found : bool) then ret tt
            else let! _ := create_private_directory_all in Core.sync_parent [] in
  let! _ := acquire_vault_lock in
  let! journal := read_lifecycle in
  match journal with
  | Some (LifecycleJournal.Bootstrap pending_custody salt_b64 _ (Some wrapped_phrase_b64)) =>
      resume_bootstrap custody passphrase pending_custody salt_b64 wrapped_phrase_b64
  | Some (LifecycleJournal.Bootstrap pending_custody _ scoped_kek_fingerprint None) =>
      let! _ := rollback_incomplete_bootstrap pending_custody scoped_kek_fingerprint in
      bootstrap_fresh custody passphrase
  | Some _ => misuse "a vault lifecycle operation is already in progress; unlock the vault to recover it"
  | None => bootstrap_fresh custody passphrase
  end.

(** ** Unlocking *)

(** The end of every unlock: identity, vault, and a bootstrap that only lacks its end. *)
Definition open_handle (custody : CustodyMode.t) (unwrapped : Unwrapped.t) : M CoreError.t VaultHandle.t :=
  let! identity := load_authenticated_identity (active_dek unwrapped) in
  let! vault := open_vault unwrapped (derive_manifest_auth_key (IdentityState.root identity)) in
  let! _ := finish_pending_bootstrap (IdentityState.root identity) in
  ret (VaultHandle.mk vault custody (IdentityState.root identity)).

Definition unlock_with_keychain : M CoreError.t VaultHandle.t :=
  let! salted := path_entry_exists [SALT_FILENAME] in
  if (salted : bool) then misuse "this vault uses passphrase custody; unlock with passphrase or recovery instead"
  else
    let! found := exists_keyring in
    if negb found then legacy_manifest_migration_error
    else
      let! loaded := load_keychain_unwrapped in
      open_handle CustodyMode.OsKeychain loaded.2.

Definition unlock (custody : CustodyMode.t) (passphrase : option string) : M CoreError.t VaultHandle.t :=
  let! _ := acquire_vault_lock in
  let! recovered_custody := recover_lifecycle_for_unlock custody passphrase in
  if bool_decide (recovered_custody = CustodyMode.OsKeychain) then unlock_with_keychain
  else
    let! kek := match custody with
      | CustodyMode.Passphrase =>
          let! pass := need_passphrase passphrase in derive_passphrase_kek pass
      | CustodyMode.OsKeychain => misuse "internal error: entered unreachable code: handled above"
      | CustodyMode.Recovery => misuse "use unlock_with_recovery for recovery custody"
      end in
    let! found := exists_keyring in
    if negb found then legacy_manifest_migration_error
    else
      let! unwrapped := Keyring.load kek in
      open_handle custody unwrapped.

Definition detect_custody : M CoreError.t CustodyMode.t :=
  let! salted := path_entry_exists [SALT_FILENAME] in
  if (salted : bool) then
    let! _ := Core.ensure_regular_file [SALT_FILENAME] "passphrase salt" in
    ret CustodyMode.Passphrase
  else ret CustodyMode.OsKeychain.

Definition unlock_with_recovery (phrase : string) : M CoreError.t VaultHandle.t :=
  let! _ := acquire_vault_lock in
  let! _ := Core.ensure_regular_file [RECOVERY_FILE] "recovery bundle" in
  let! journal := read_lifecycle in
  let! _ := match journal with
    | None | Some (LifecycleJournal.Bootstrap _ _ _ (Some _)) => ret tt
    | Some _ => misuse "a vault lifecycle operation is incomplete; unlock with normal custody to recover it before using recovery"
    end in
  let! recovered := recovery (restore_master_key_with_version phrase) in
  let dek := RecoveredMasterKey.master_key recovered in
  let! found := exists_keyring in
  if negb found then legacy_manifest_migration_error
  else
    let! active := Keyring.active_version in
    let recovered_version := default active (RecoveredMasterKey.dek_version recovered) in
    if negb (recovered_version =? active)%N then
      misuse ("recovery bundle contains DEK v" +:+ pretty recovered_version
                +:+ ", but the vault requires active DEK v" +:+ pretty active)
    else
      let! identity := load_authenticated_identity dek in
      let manifest_auth_key := derive_manifest_auth_key (IdentityState.root identity) in
      let! repair := should_repair_keychain_after_recovery in
      let! custody := if (repair : bool) then
          let! _ := keychain ensure_available in
          let! kek := generate in
          let! _ := store_scoped_keychain_kek kek in
          let! _ := replace_with_single_active_dek kek active dek in
          ret CustodyMode.OsKeychain
        else ret CustodyMode.Recovery in
      let! vault := open_vault (Unwrapped.mk {[recovered_version := dek]} active) manifest_auth_key in
      let! _ := finish_pending_bootstrap (IdentityState.root identity) in
      ret (VaultHandle.mk vault custody (IdentityState.root identity)).

(** ** Migration of a legacy manifest *)

Definition source_rank (s : KeychainKekSource.t) : N :=
  match s with KeychainKekSource.Legacy => 0 | KeychainKekSource.Scoped => 1 end.

(** The first candidate that opens a file of the vault. *)
Fixpoint select_legacy_kek (candidates : list KeychainKekCandidate.t) : M CoreError.t (option (MasterKey * bool)) :=
  match candidates with
  | [] => ret None
  | candidate :: rest =>
      let! valid := attempt (validate_legacy_vault_key (KeychainKekCandidate.kek candidate)) in
      if is_ok valid then
        ret (Some (KeychainKekCandidate.kek candidate,
                   bool_decide (KeychainKekCandidate.source candidate = KeychainKekSource.Legacy)))
      else select_legacy_kek rest
  end.

Definition migration_kek (custody : CustodyMode.t) (passphrase : option string) :
    M CoreError.t (MasterKey * bool) :=
  match custody with
  | CustodyMode.Passphrase =>
      let! pass := need_passphrase passphrase in
      let! kek := derive_passphrase_kek pass in
      let! found := exists_keyring in
      let! _ := if (found : bool) then let! _ := Keyring.load kek in ret tt
                else storage (validate_legacy_vault_key kek) in
      ret (kek, false)
  | CustodyMode.OsKeychain =>
      let! found := exists_keyring in
      if (found : bool) then
        let! loaded := load_keychain_unwrapped in ret (loaded.1, false)
      else
        let! candidates := load_keychain_kek_candidates in
        let candidates := sort_by (λ a b, (source_rank (KeychainKekCandidate.source a)
                                           <=? source_rank (KeychainKekCandidate.source b))%N) candidates in
        let! selected := select_legacy_kek candidates in
        lift (ok_or selected (CoreError.Misuse "OS keychain key could not validate this legacy vault"))
  | CustodyMode.Recovery => misuse "legacy manifest migration requires normal passphrase or OS keychain custody"
  end.

Definition migrate_manifest_authentication (custody : CustodyMode.t) (passphrase : option string)
    (expected_manifest_sha256 : string) : M CoreError.t unit :=
  let! _ := acquire_vault_lock in
  let! journal := read_lifecycle in
  match journal with
  | Some _ => misuse "finish the pending vault lifecycle operation before migrating manifest authentication"
  | None =>
      let! selected := migration_kek custody passphrase in
      let '(kek, promote_legacy_keychain) := selected in
      let! _ := Keyring.migrate_legacy kek in
      let! unwrapped := Keyring.load kek in
      let dek := active_dek unwrapped in
      let material_wrap := material_wrap_for_dek dek in
      let! identity := load_identity_if_present material_wrap in
      let identity_root := match identity with Some s => IdentityState.root s | None => dek end in
      let! _ := storage (migrate_legacy_manifest (derive_manifest_auth_key identity_root)
                           expected_manifest_sha256) in
      let! _ := enable_manifest_authentication material_wrap identity_root in
      if (promote_legacy_keychain : bool) then store_scoped_keychain_kek kek else ret tt
  end.

(** ** Changes of custody *)

Definition ensure_operation_root (requested : string) : M CoreError.t unit :=
  let! handle_root := Core.io (canonicalize vault_root) in
  let! requested_root := Core.io (canonicalize requested) in
  if negb (bool_decide (handle_root = requested_root)) then
    misuse ("vault handle is locked for " +:+ handle_root +:+ ", not " +:+ requested_root)
  else ret tt.

Definition change_passphrase (h : VaultHandle.t) (root current new : string) : M CoreError.t unit :=
  let! _ := ensure_operation_root root in
  if negb (bool_decide (VaultHandle.custody h = CustodyMode.Passphrase)) then
    misuse "change_passphrase is only valid for passphrase custody"
  else
    let! old_kek := derive_passphrase_kek current in
    let! _ := Keyring.load old_kek in
    let! _ := lift (validate_new_passphrase new) in
    let! old_salt := read_salt in
    let! new_salt := crypto random_salt in
    let! new_kek := lift (Core.of_crypto (from_passphrase new new_salt)) in
    let! _ := stage_rewrap_under_new_kek old_kek new_kek in
    let! _ := write_lifecycle (LifecycleJournal.ChangePassphrase (b64_encode old_salt) (b64_encode new_salt)) in
    let! _ := write_atomic [SALT_FILENAME] new_salt in
    let! _ := commit_staged in
    remove_lifecycle.

Definition move_to_os_keychain (h : VaultHandle.t) (root current_passphrase : string) :
    M CoreError.t VaultHandle.t :=
  let! _ := ensure_operation_root root in
  if negb (bool_decide (VaultHandle.custody h = CustodyMode.Passphrase)) then
    misuse "move_to_os_keychain is only valid for passphrase custody"
  else
    let! _ := keychain ensure_available in
    let! old_kek := derive_passphrase_kek current_passphrase in
    let! _ := Keyring.load old_kek in
    let! new_kek := generate in
    let! _ := stage_rewrap_under_new_kek old_kek new_kek in
    let! _ := write_lifecycle LifecycleJournal.MoveToKeychain in
    let! _ := store_scoped_keychain_kek new_kek in
    let! _ := load_staged new_kek in
    let! _ := commit_staged in
    let! _ := remove_file_durable [SALT_FILENAME] in
    let! _ := remove_lifecycle in
    ret (VaultHandle.mk (VaultHandle.vault h) CustodyMode.OsKeychain (VaultHandle.identity_root h)).

(** ** Rotation of the data key *)

Definition rotation_kek (h : VaultHandle.t) (passphrase : option string) : M CoreError.t MasterKey :=
  match VaultHandle.custody h with
  | CustodyMode.OsKeychain => load_verified_keychain_kek
  | CustodyMode.Passphrase =>
      match passphrase with
      | Some pass => derive_passphrase_kek pass
      | None => misuse "passphrase custody requires a passphrase to rotate"
      end
  | CustodyMode.Recovery => misuse "cannot rotate from a recovery-unlocked session"
  end.

(** Up to and including the journal. *)
Definition rotate_prepare (h : VaultHandle.t) (root : string) (passphrase : option string) :
    M CoreError.t Rotation.t :=
  let! _ := ensure_operation_root root in
  let! kek := rotation_kek h passphrase in
  let! journal := read_lifecycle in
  match journal with
  | Some journal => misuse ("cannot start rotation while lifecycle operation " +:+ LifecycleJournal.debug journal
                              +:+ " is pending; unlock the vault to recover it")
  | None =>
      let old_wrap := material_wrap_key h in
      let! old_version := Keyring.active_version in
      let! _ := Core.ensure_regular_file [RECOVERY_FILE] "recovery bundle" in
      let! recovery_backup := Core.io (fs_read [RECOVERY_FILE]) in
      let! new_dek := generate in
      if (4294967295 <=? old_version)%N then misuse "DEK version space exhausted; create a new vault"
      else
        let predicted := (old_version + 1)%N in
        let backup_b64 := b64_encode recovery_backup in
        let! _ := write_lifecycle (LifecycleJournal.Rotate old_version predicted backup_b64) in
        ret (Rotation.mk kek old_wrap old_version new_dek predicted backup_b64)
  end.

(** The new data key, and every file sealed again under it. *)
Definition rotate_files (h : VaultHandle.t) (r : Rotation.t) : M CoreError.t Vault.t :=
  let! new_version := add_active_dek (Rotation.kek r) (Rotation.new_dek r) in
  if negb (new_version =? Rotation.predicted r)%N then
    misuse "keyring DEK version changed concurrently during rotation"
  else
    let! unwrapped := Keyring.load (Rotation.kek r) in
    let! vault := open_vault unwrapped (derive_manifest_auth_key (VaultHandle.identity_root h)) in
    let! _ := rewrap_all_files vault in
    ret vault.

(** Material, then the recovery bundle last; the version is the predicted one. *)
Definition rotate_material (v : Vault.t) (r : Rotation.t) : M CoreError.t string :=
  let! _ := rewrap_all_material (Rotation.old_wrap r) (material_wrap_of v) in
  let! _ := Core.ensure_destination_is_regular_or_missing [RECOVERY_FILE] "recovery bundle" in
  let! phrase := recovery (issue_recovery_phrase_for_version (Rotation.new_dek r) (Rotation.predicted r)) in
  let! _ := remove_lifecycle in
  ret phrase.

Definition with_vault (h : VaultHandle.t) (v : Vault.t) : VaultHandle.t :=
  VaultHandle.mk v (VaultHandle.custody h) (VaultHandle.identity_root h).

(** The failure of the transaction: roll back, and reopen the vault. *)
Definition rotate_failed {E} (h : VaultHandle.t) (r : Rotation.t) (operation_error : CoreError.t) :
    M E (VaultHandle.t * result string CoreError.t) :=
  let! rolled := attempt (rollback_rotation (Rotation.kek r) (Rotation.old_version r) (Rotation.predicted r)
                            (Rotation.backup_b64 r)) in
  match rolled with
  | Err rollback_error =>
      ret (h, Err (CoreError.Misuse ("rotation failed (" +:+ core_display operation_error
        +:+ "); rollback also failed (" +:+ core_display rollback_error
        +:+ "); unlock normal custody to resume recovery")))
  | Ok _ =>
      let! reopened := attempt (let! unwrapped := Keyring.load (Rotation.kek r) in
        open_vault unwrapped (derive_manifest_auth_key (VaultHandle.identity_root h))) in
      match reopened with
      | Ok vault => ret (with_vault h vault, Err operation_error)
      | Err e => ret (h, Err e)
      end
  end.

(** The handle after the call, and what the call returns. *)
Definition rotate_key {E} (h : VaultHandle.t) (root : string) (passphrase : option string) :
    M E (VaultHandle.t * result string CoreError.t) :=
  let! prepared := attempt (rotate_prepare h root passphrase) in
  match prepared with
  | Err e => ret (h, Err e)
  | Ok r =>
      let! files := attempt (rotate_files h r) in
      match files with
      | Err e => rotate_failed h r e
      | Ok vault =>
          let h := with_vault h vault in
          let! done := attempt (rotate_material vault r) in
          match done with
          | Ok phrase => ret (h, Ok phrase)
          | Err e => rotate_failed h r e
          end
      end
  end.

(** ** Keys derived from the identity *)

Definition audit_hmac_key (h : VaultHandle.t) : list N :=
  derive_subkey (VaultHandle.identity_root h) (str_bytes "sv-audit-hmac-v1").
Definition agent_token_key (h : VaultHandle.t) : list N :=
  derive_subkey (VaultHandle.identity_root h) (str_bytes "sv-agent-token-v1").
Definition remediation_plan_key (h : VaultHandle.t) : list N :=
  derive_subkey (VaultHandle.identity_root h) (str_bytes "sv-remediate-plan-v1").
End lifecycle.
