(* ===== verification/LifecycleSpec.v ===== *)
(** * Crash recovery of the custody transactions

    The states a change of passphrase can leave a vault in, whatever call of the
    operating system fails, and what the next unlock makes of each of them. *)
From S2P Require Import Prelude Text AuditTypes AuditLog Broker Fs Crypto Storage StorageSpec Keychain.
From S2P Require Import Recovery Core CoreSpec Keyring KeyringSpec Transit TransitSpec Lifecycle.

Lemma triple_assoc {E A B C : Type} (X : Prop) (m : M E A) (k : A → M E B) (k' : B → M E C) (w : World.t)
    (Q : C → gmap path node → Prop) (R : gmap path node → Prop) :
  triple X (bind m (λ v, bind (k v) k')) w Q R → triple X (bind (bind m k) k') w Q R.
Proof. apply triple_ext. unfold bind. by destruct (m w) as [w1 [v|e]]. Qed.

Section lifecycle_spec.
Context `{OS : Os} `{OSL : !OsLaws} `{PR : Prims} `{PRL : !PrimLaws}.
Context `{MJ : ManifestJson} `{AE : AuditEnv} `{BK : Backend} `{CE : CoreEnv} `{BP : Bip39}.
Context `{RJ : !Json RecoveryBundle.t} `{KJ : !Json KeyringFile.t} `{KJL : !JsonLaws KeyringFile.t}.
Context `{LJ : !Json LifecycleJournal.t} `{LJL : !JsonLaws LifecycleJournal.t}.
Context `{IJ : !Json IdentityFile.t} `{PJ : !Json IdentityPayloadV2.t}.
Context `{TJ : !Json TransitFile.t} `{SJ : !Json SigningFile.t} `{BJ : !Json BrokerFile.t}.
Implicit Types (w : World.t) (d : gmap path node) (kek : MasterKey) (R : Ring.t).

(** ** The wrong key *)

(** No entry of a keyring file opens under both of two keys. *)
Definition separated kek kek' (raw : list N) : Prop :=
  ∀ kr e k k', from_slice raw = Ok kr → e ∈ KeyringFile.entries kr →
    unwrap kek (WrappedDek.wrapped_b64 e) = Ok k → unwrap kek' (WrappedDek.wrapped_b64 e) = Ok k' → False.

Lemma unwrap_entries_wrong kek kek' min es l keys :
  (∀ e k k', e ∈ es → unwrap kek (WrappedDek.wrapped_b64 e) = Ok k → unwrap kek' (WrappedDek.wrapped_b64 e) = Ok k' → False) →
  Forall2 (entry_opens kek) es l →
  (∃ vk, vk ∈ l ∧ (min <= vk.1)%N) → ∃ e, unwrap_entries kek' min keys es = Err e.
Proof.
  intros Hne Hes. revert Hne keys. induction Hes as [|e [v k] es l [Hv Hk] Hes IH]; intros Hne keys (vk & Hin & Hmin);
    [by apply elem_of_nil in Hin|]. cbn in *. rewrite Hv.
  destruct (v <? min)%N eqn:E.
  - apply IH; [intros ? ? ? ?; apply Hne; by right|]. exists vk. split; [|done]. apply elem_of_cons in Hin as [->|]; [|done].
    apply N.ltb_lt in E. cbn in Hmin. lia.
  - destruct (unwrap kek' _) as [k'|err] eqn:E'; [|eauto]. exfalso. by eapply (Hne e); [left|..].
Qed.

Lemma keys_from_lookup m l : ∀ keys v k, Ring.keys_from m keys l !! v = Some k →
  keys !! v = Some k ∨ (∃ vk, vk ∈ l ∧ (m <= vk.1)%N).
Proof.
  induction l as [|[v' k'] l IH]; intros keys v k H; [by left|]. cbn in H.
  destruct (IH _ _ _ H) as [Hk | (vk & Hin & Hm)].
  - destruct (v' <? m)%N eqn:E; [by left|]. right. exists (v', k'). split; [left|]. apply N.ltb_ge in E. done.
  - right. exists vk. split; [by right|done].
Qed.

Lemma load_has_entry R u : Ring.load R = Some u → ∃ vk, vk ∈ Ring.entries R ∧ (Ring.min R <= vk.1)%N.
Proof.
  unfold Ring.load. case_bool_decide as E; [done|]. intros _.
  destruct (Ring.keys R !! Ring.active R) as [k|] eqn:Hk; [|done].
  unfold Ring.keys in Hk. destruct (keys_from_lookup _ _ _ _ _ Hk) as [H|H]; [by rewrite lookup_empty in H|done].
Qed.

(** A keyring that loads under one key is refused under any other. *)
Lemma refuses_load kek kek' R u w :
  root_ok (World.disk w) → ring_at (World.disk w) keyring_path kek R → Ring.load R = Some u →
  (∀ raw, World.disk w !! keyring_path = Some (Fs.File raw) → separated kek kek' raw) →
  refuses (Keyring.load kek') w.
Proof.
  intros Hr Hk Hu Hne. pose proof Hk as (raw & Hraw & kr & Hkr0 & Hkr). specialize (Hne raw Hraw).
  pose proof (reads_keyring_raw kek R w raw kr Hr Hraw Hkr0 Hkr) as Hread.
  eapply refuses_bind; [exact Hread|]. intros w1 H1.
  destruct (unwrap_entries_wrong kek kek' (Ring.min R) _ _ ∅ (λ e k k' He, Hne kr e k k' Hkr0 He) (refines_entries _ _ _ Hkr) (load_has_entry _ _ Hu))
    as [e He].
  unfold unwrap_keyring. rewrite (refines_min _ _ _ Hkr), He. apply refuses_fail.
Qed.

Lemma refuses_load_staged kek kek' R u w :
  root_ok (World.disk w) → ring_at (World.disk w) staged_path kek R → Ring.load R = Some u →
  (∀ raw, World.disk w !! staged_path = Some (Fs.File raw) → separated kek kek' raw) →
  refuses (load_staged kek') w.
Proof.
  intros Hr Hk Hu Hne. pose proof Hk as (raw & Hraw & kr & Hkr0 & Hkr). specialize (Hne raw Hraw).
  pose proof (reads_keyring_file_raw staged_path kek R w raw kr Hraw Hkr0 Hkr) as Hread.
  eapply refuses_bind; [by apply reads_core_directory|]. intros w1 H1.
  eapply refuses_bind; [by apply Hread|]. intros w2 H2.
  destruct (unwrap_entries_wrong kek kek' (Ring.min R) _ _ ∅ (λ e k k' He, Hne kr e k k' Hkr0 He) (refines_entries _ _ _ Hkr) (load_has_entry _ _ Hu))
    as [e He].
  unfold unwrap_keyring. rewrite (refines_min _ _ _ Hkr), He. apply refuses_fail.
Qed.

Lemma refuses_no_staged kek w :
  root_ok (World.disk w) → World.disk w !! staged_path = None → refuses (load_staged kek) w.
Proof.
  intros Hr Hs. eapply refuses_bind; [by apply reads_core_directory|]. intros w1 H1.
  apply refuses_bind_l, refuses_bind_l, refuses_core_regular. by disks.
Qed.

(** ** The journal *)

Definition journal_at d (j : LifecycleJournal.t) : Prop :=
  ∃ raw, d !! lifecycle_path = Some (Fs.File raw) ∧ from_slice raw = Ok j.
Definition no_journal d : Prop := d !! lifecycle_path = None.

Lemma reads_journal j w : journal_at (World.disk w) j → reads read_lifecycle (Some j) w.
Proof.
  intros (raw & Hd & Hraw). apply wp_bind, wp_attempt, wp_io_read.
  - intros w1 H1. unfold metadata_of. rewrite Hd. eapply reads_after; [exact H1|].
    eapply reads_bind; [eapply reads_core_regular; by disks|]. intros w2 H2.
    eapply reads_bind; [eapply reads_core_io, reads_fs_read; by disks|]. intros w3 H3.
    apply reads_lift. by rewrite Hraw.
  - intros w1 m H1 Hq. split; [done|]. right. eauto.
Qed.

Lemma reads_no_journal w : no_journal (World.disk w) → reads read_lifecycle None w.
Proof.
  intros Hd. apply wp_bind, wp_attempt, wp_io_read.
  - intros w1 H1. unfold metadata_of. rewrite Hd. split; [done|by left].
  - intros w1 m H1 Hq. split; [done|]. right. eauto.
Qed.

Lemma write_lifecycle_spec j w d :
  World.disk w = d → root_ok d → regular_or_missing d lifecycle_path →
  triple False (write_lifecycle j) w (λ _ d', d' = put lifecycle_path (to_vec_pretty j) d)
    (maybe d (put lifecycle_path (to_vec_pretty j) d)).
Proof. apply write_atomic_spec. Qed.

Lemma remove_lifecycle_spec w d :
  World.disk w = d → regular_or_missing d lifecycle_path →
  triple False remove_lifecycle w (λ _ d', d' = delete lifecycle_path d) (maybe d (delete lifecycle_path d)).
Proof. apply remove_file_durable_spec. Qed.

Lemma journal_regular d j : journal_at d j → regular_or_missing d lifecycle_path.
Proof. intros (raw & Hd & _) n Hn. rewrite Hd in Hn. simplify_eq. eauto. Qed.

Lemma journal_put j d : journal_at (put lifecycle_path (to_vec_pretty j) d) j.
Proof.
  eexists. split; [unfold put; by rewrite lookup_insert, decide_True by done|apply from_slice_pretty].
Qed.

(** ** The files of the transaction *)

(** The four files involved. *)
Definition CUSTODY_PATHS : list path := [keyring_path; staged_path; lifecycle_path; [SALT_FILENAME]].

Lemma ring_at_frame d d' p kek R : d' !! p = d !! p → ring_at d p kek R → ring_at d' p kek R.
Proof. intros He (raw & Hd & Hb). exists raw. by rewrite He. Qed.
Lemma salt_at_frame d d' salt : d' !! [SALT_FILENAME] = d !! [SALT_FILENAME] → salt_at d salt → salt_at d' salt.
Proof. unfold salt_at. by intros ->. Qed.
Lemma journal_at_frame d d' j : d' !! lifecycle_path = d !! lifecycle_path → journal_at d j → journal_at d' j.
Proof. unfold journal_at. by intros ->. Qed.
Lemma regular_frame d d' p : d' !! p = d !! p → regular_or_missing d p → regular_or_missing d' p.
Proof. unfold regular_or_missing. by intros ->. Qed.

(** The rest of the vault is as in [d0]. *)
Definition custody_frame d0 d : Prop := ∀ p, p ∉ CUSTODY_PATHS → d !! p = d0 !! p.

Lemma custody_frame_put d0 d p raw : p ∈ CUSTODY_PATHS → custody_frame d0 d → custody_frame d0 (put p raw d).
Proof. intros Hp Hf q Hq. unfold put. rewrite lookup_insert_ne; [by apply Hf|]. by intros ->. Qed.
Lemma custody_frame_delete d0 d p : p ∈ CUSTODY_PATHS → custody_frame d0 d → custody_frame d0 (delete p d).
Proof. intros Hp Hf q Hq. rewrite lookup_delete_ne; [by apply Hf|]. by intros ->. Qed.
Lemma custody_frame_move d0 d : custody_frame d0 d → custody_frame d0 (move staged_path keyring_path d).
Proof.
  intros Hf q Hq. unfold move. destruct (d !! staged_path); [|by apply Hf].
  rewrite lookup_insert_ne, lookup_delete_ne; [by apply Hf|..]; intros <-; apply Hq; unfold CUSTODY_PATHS; set_solver.
Qed.
Lemma custody_root d0 d : root_ok d0 → custody_frame d0 d → root_ok d.
Proof. intros Hr Hf. unfold root_ok. rewrite Hf; [done|]. unfold CUSTODY_PATHS. set_solver. Qed.

(** ** A change of passphrase *)

Context (d0 : gmap path node) (R : Ring.t) (u : Unwrapped.t) (Hroot : root_ok d0) (Hu : Ring.load R = Some u).

(** The vault opens with the passphrase [p]. *)
Record ready (p : string) d : Prop := {
  ready_frame : custody_frame d0 d;
  ready_keys : ∃ salt kek, salt_at d salt ∧ Forall (λ b, (b < 256)%N) salt ∧ kek_of p salt kek ∧
    ring_at d keyring_path kek R;
  ready_staged : regular_or_missing d staged_path
}.

Definition settled (p : string) d : Prop := ready p d ∧ no_journal d.

(** What is known of the keyring files and of the salts: nothing while the passphrase is
    changed, and later that they are those the change left. *)
Context (clear salts : list N → Prop).

Definition ring_files d : Prop :=
  ∀ raw, d !! keyring_path = Some (Fs.File raw) ∨ d !! staged_path = Some (Fs.File raw) → clear raw.

Lemma ring_files_delete p d : ring_files d → ring_files (delete p d).
Proof. intros Hc raw. rewrite !lookup_delete_Some. intros [[_ H]|[_ H]]; apply Hc; auto. Qed.
Lemma ring_files_put p raw d : p ≠ keyring_path → p ≠ staged_path → ring_files d → ring_files (put p raw d).
Proof. intros H1 H2 Hc raw'. unfold put. rewrite !lookup_insert_ne by done. apply Hc. Qed.
Lemma ring_files_move d : ring_files d → ring_files (move staged_path keyring_path d).
Proof.
  intros Hc raw. unfold move. destruct (d !! staged_path) as [n|] eqn:Hs; [|apply Hc].
  rewrite lookup_insert, decide_True, lookup_insert_ne, lookup_delete_eq by done.
  intros [[= ->]|]; [|done]. apply Hc. auto.
Qed.

Definition safe (p : string) d : Prop := settled p d ∧ ring_files d.

(** The two sides of a change, as the journal has them. *)
Record sides (old new : string) (s_old s_new : list N) (k_old k_new : MasterKey) : Prop := {
  old_salt_ok : length s_old = SALT_LEN ∧ Forall (λ b, (b < 256)%N) s_old;
  new_salt_ok : length s_new = SALT_LEN ∧ Forall (λ b, (b < 256)%N) s_new;
  old_kek : kek_of old s_old k_old;
  new_kek : kek_of new s_new k_new;
  old_salt_in : salts s_old;
  new_salt_in : salts s_new
}.

(** Where an interrupted change can stand: the salt not yet replaced, the salt replaced
    and the keyring not, both replaced. *)
Inductive change_state (old new : string) d : Prop :=
| Before s_old s_new k_old k_new :
    sides old new s_old s_new k_old k_new →
    journal_at d (LifecycleJournal.ChangePassphrase (b64_encode s_old) (b64_encode s_new)) →
    salt_at d s_old → ring_at d keyring_path k_old R → regular_or_missing d staged_path →
    change_state old new d
| Between s_old s_new k_old k_new :
    sides old new s_old s_new k_old k_new →
    journal_at d (LifecycleJournal.ChangePassphrase (b64_encode s_old) (b64_encode s_new)) →
    salt_at d s_new → ring_at d keyring_path k_old R → ring_at d staged_path k_new R →
    change_state old new d
| After s_old s_new k_old k_new :
    sides old new s_old s_new k_old k_new →
    journal_at d (LifecycleJournal.ChangePassphrase (b64_encode s_old) (b64_encode s_new)) →
    salt_at d s_new → ring_at d keyring_path k_new R → d !! staged_path = None →
    change_state old new d.

(** Every state of a vault whose passphrase is being changed among [ps]. *)
Definition custody_inv (ps : list string) d : Prop :=
  custody_frame d0 d ∧ ring_files d ∧
  ((∃ p, p ∈ ps ∧ settled p d) ∨ ∃ old new, old ∈ ps ∧ new ∈ ps ∧ change_state old new d).

Lemma settled_inv ps p d : p ∈ ps → safe p d → custody_inv ps d.
Proof. intros Hp [Hs Hc]. split; [by apply Hs|]. split; [done|]. left. eauto. Qed.

Lemma ready_delete_journal p d : ready p d → ring_files d → safe p (delete lifecycle_path d).
Proof.
  intros [Hf (salt & kek & Hs & Hb & Hk & Hr) Hst] Hc. split; [|by apply ring_files_delete]. split; [split|].
  - apply custody_frame_delete; [unfold CUSTODY_PATHS; set_solver|done].
  - exists salt, kek. split; [eapply salt_at_frame; [|done]; by rewrite lookup_delete_ne|].
    split; [done|]. split; [done|]. eapply ring_at_frame; [|done]. by rewrite lookup_delete_ne.
  - eapply regular_frame; [|done]. by rewrite lookup_delete_ne.
  - unfold no_journal. by rewrite lookup_delete_eq.
Qed.

(** The last step of every recovery. *)
Lemma settle_spec (X : Prop) (p : string) w d :
  World.disk w = d → ready p d → ring_files d → regular_or_missing d lifecycle_path →
  triple X (let! _ := remove_lifecycle in ret CustodyMode.Passphrase) w
    (λ c d', c = CustodyMode.Passphrase ∧ safe p d') (λ d', d' = d ∨ safe p d').
Proof.
  intros Hd Hr Hc Hj. eapply triple_then; [by apply triple_weaken, remove_lifecycle_spec| |].
  - intros d' [-> | ->]; [by left|right]. by apply ready_delete_journal.
  - cbn beta. intros [] w1 _ E. apply triple_ret. rewrite E. split; [done|]. by apply ready_delete_journal.
Qed.

(** Other files than the journal's keep it. *)
Ltac keep_file := first [by rewrite lookup_delete_ne | by unfold put; rewrite lookup_insert_ne].

(** Discarding the staged keyring, then settling. *)
Lemma discard_settle (X : Prop) (p : string) (j : LifecycleJournal.t) w d (err : gmap path node → Prop) :
  World.disk w = d → ready p d → ring_files d → journal_at d j →
  err d → err (delete staged_path d) → (∀ d', safe p d' → err d') →
  triple X (let! _ := discard_staged in let! _ := remove_lifecycle in ret CustodyMode.Passphrase) w
    (λ c d', c = CustodyMode.Passphrase ∧ safe p d') err.
Proof.
  intros Hd Hr Hc Hj E1 E2 E3. pose proof (ready_frame _ _ Hr) as Hf.
  assert (ready p (delete staged_path d)) as Hr'.
  { destruct Hr as [_ (salt & kek & Hs & Hb & Hk & Hring) Hst]. split.
    - apply custody_frame_delete; [unfold CUSTODY_PATHS; set_solver|done].
    - exists salt, kek. split; [eapply salt_at_frame; [keep_file|done]|]. split; [done|]. split; [done|].
      eapply ring_at_frame; [keep_file|done].
    - intros n Hn. by rewrite lookup_delete_eq in Hn. }
  eapply triple_then.
  - apply triple_weaken, discard_staged_spec; [exact Hd|by eapply custody_root|by apply ready_staged in Hr].
  - intros d' [-> | ->]; done.
  - cbn beta. intros [] w1 _ E. eapply triple_mono; [apply settle_spec; [exact E|done|by apply ring_files_delete|]|done|done|].
    + eapply regular_frame; [keep_file|by eapply journal_regular].
    + intros d' [-> | Hs]; auto.
Qed.

(** Promoting the staged keyring, then settling. *)
Lemma commit_settle (X : Prop) (p : string) (s : list N) (k : MasterKey) (j : LifecycleJournal.t) w d (err : gmap path node → Prop) :
  World.disk w = d → custody_frame d0 d → ring_files d → salt_at d s → Forall (λ b, (b < 256)%N) s → kek_of p s k →
  ring_at d staged_path k R → regular_or_missing d keyring_path → journal_at d j →
  err d → err (move staged_path keyring_path d) → (∀ d', safe p d' → err d') →
  triple X (let! _ := load_staged k in let! _ := commit_staged in
            let! _ := remove_lifecycle in ret CustodyMode.Passphrase) w
    (λ c d', c = CustodyMode.Passphrase ∧ safe p d') err.
Proof.
  intros <- Hf Hc Hs Hb Hk Hring Hreg Hj E1 E2 E3. assert (root_ok (World.disk w)) as Hr by (by eapply custody_root).
  eapply triple_bind_reads; [by eapply reads_load_staged| |done]. intros w1 H1.
  set (d' := move staged_path keyring_path (World.disk w)) in *.
  assert (∀ q, q ≠ keyring_path → q ≠ staged_path → d' !! q = World.disk w !! q) as Hother.
  { intros q Hq1 Hq2. unfold d', move. destruct (World.disk w !! staged_path); [|done].
    by rewrite lookup_insert_ne, lookup_delete_ne. }
  assert (ready p d') as Hr'.
  { split.
    - by apply custody_frame_move.
    - exists s, k. split; [eapply salt_at_frame; [by apply Hother|done]|]. split; [done|]. split; [done|].
      by apply moved_ring_at.
    - intros n Hn. exfalso. unfold d', move in Hn. destruct Hring as (raw & Hraw & _). rewrite Hraw in Hn.
      rewrite lookup_insert_ne, lookup_delete_eq in Hn by done. done. }
  eapply triple_then; [apply triple_weaken; eapply commit_staged_spec; [reflexivity|by disks..]| |].
  - disks. intros d1 [-> | ->]; done.
  - disks. cbn beta. intros [] w2 _ E. eapply triple_mono; [apply settle_spec; [exact E|done|by apply ring_files_move|]|done|done|].
    + eapply regular_frame; [by apply Hother|by eapply journal_regular].
    + intros d1 [-> | Hst]; auto.
Qed.

Lemma kek_of_some (p : string) salt : length salt = SALT_LEN → ∃ k, from_passphrase p salt = Ok k.
Proof. intros Hl. destruct (from_passphrase_ok p salt Hl) as (k & Hk & _). eauto. Qed.

(** The head of every recovery: the salts are read, and one branch taken. *)
Lemma recover_head (X : Prop) (p : string) (s s_old s_new : list N) w (Q : CustodyMode.t → gmap path node → Prop)
    (err : gmap path node → Prop) :
  salt_at (World.disk w) s → s = s_old ∨ s = s_new →
  length s_old = SALT_LEN ∧ Forall (λ b, (b < 256)%N) s_old →
  length s_new = SALT_LEN ∧ Forall (λ b, (b < 256)%N) s_new →
  err (World.disk w) →
  (∀ w' k, same w w' → from_passphrase p s = Ok k → s = s_old →
     triple X (let! _ := Keyring.load k in let! _ := discard_staged in
               let! _ := remove_lifecycle in ret CustodyMode.Passphrase) w' Q err) →
  (∀ w' k, same w w' → from_passphrase p s = Ok k → s ≠ s_old → s = s_new →
     triple X (let! loaded := attempt (Keyring.load k) in
               let! _ := match loaded with
                         | Err _ => let! _ := load_staged k in commit_staged
                         | Ok _ => discard_staged end in
               let! _ := remove_lifecycle in ret CustodyMode.Passphrase) w' Q err) →
  triple X (recover_change_passphrase p (b64_encode s_old) (b64_encode s_new)) w Q err.
Proof.
  intros Hs Hor [Lo Bo] [Ln Bn] Herr Hb1 Hb2. unfold recover_change_passphrase.
  eapply triple_bind_reads; [by apply reads_salt| |done]. intros w1 H1.
  eapply triple_bind_reads; [by apply reads_lift, decode_salt_encode| |by disks]. intros w2 H2.
  eapply triple_bind_reads; [by apply reads_lift, decode_salt_encode| |by disks]. intros w3 H3.
  assert (length s = SALT_LEN) as Ls by (by destruct Hs).
  destruct (kek_of_some p s Ls) as [k Hk].
  case_bool_decide as E1; [subst s|case_bool_decide as E2; [subst s|by destruct Hor]].
  - apply triple_assoc. rewrite Hk. eapply triple_bind_reads; [by apply reads_lift| |by disks]. intros w4 H4.
    apply triple_assoc. apply Hb1; [eauto with sv|done..].
  - apply triple_assoc. rewrite Hk. eapply triple_bind_reads; [by apply reads_lift| |by disks]. intros w4 H4.
    apply triple_assoc. apply Hb2; [eauto with sv|done..].
Qed.

(** A recovery that succeeds settles the vault under its passphrase. *)
Definition settled_by (p : string) (c : CustodyMode.t) d : Prop := c = CustodyMode.Passphrase ∧ safe p d.

Section recover.
Context (ps : list string).
Context (wrong_key : ∀ p p' s s' k k' raw, p ∈ ps → p' ∈ ps → salts s → salts s' → kek_of p s k → kek_of p' s' k' →
  clear raw → k ≠ k' → separated k k' raw).
Context (old new : string) (Hold : old ∈ ps) (Hnew : new ∈ ps).
Context (s_old s_new : list N) (k_old k_new : MasterKey) (Hsides : sides old new s_old s_new k_old k_new).
Let the_journal := LifecycleJournal.ChangePassphrase (b64_encode s_old) (b64_encode s_new).

Lemma change_inv d : custody_frame d0 d → ring_files d → change_state old new d → custody_inv ps d.
Proof. intros Hf Hr Hc. split; [done|]. split; [done|]. right. eauto. Qed.

(** The salt is the old one: the old passphrase settles it. *)
Lemma recover_before (p : string) w d :
  World.disk w = d → custody_frame d0 d → ring_files d → journal_at d the_journal → p ∈ ps →
  salt_at d s_old → ring_at d keyring_path k_old R → regular_or_missing d staged_path →
  triple (p ≠ old) (recover_change_passphrase p (b64_encode s_old) (b64_encode s_new)) w
    (settled_by p) (custody_inv ps).
Proof.
  intros <- Hf Hc Hj Hp Hs Hr Hst. pose proof Hsides as [Ho Hn Hko Hkn Hso Hsn].
  assert (custody_inv ps (World.disk w)) as Hinv by (apply change_inv; [done..|]; by eapply Before).
  eapply recover_head; [done|by left|done..| |done].
  intros w1 k H1 Hk _. destruct (decide (k = k_old)) as [->|Hne].
  - eapply triple_bind_reads; [eapply reads_load; [disks; by eapply custody_root|by disks|done]| |by disks].
    intros w2 H2. eapply (discard_settle _ p the_journal); [reflexivity|disks..].
    + split; [done| |done]. exists s_old, k_old. split_and!; try done. by destruct Ho.
    + done.
    + done.
    + done.
    + apply change_inv; [apply custody_frame_delete; [unfold CUSTODY_PATHS; set_solver|done]|by apply ring_files_delete|].
      eapply Before; [done|..].
      * eapply journal_at_frame; [keep_file|done].
      * eapply salt_at_frame; [keep_file|done].
      * eapply ring_at_frame; [keep_file|done].
      * intros n Hn'. by rewrite lookup_delete_eq in Hn'.
    + intros d' Hd'. by apply (settled_inv _ p).
  - eapply triple_bind_refuses; [eapply refuses_load; [disks; by eapply custody_root|by disks|done|]| |by disks].
    { disks. intros raw Hraw. apply (wrong_key old p s_old s_old); auto. }
    intros ->. unfold kek_of in Hko. congruence.
Qed.

(** Both files are the new ones: the new passphrase settles it. *)
Lemma recover_after (p : string) w d :
  World.disk w = d → custody_frame d0 d → ring_files d → journal_at d the_journal → p ∈ ps →
  salt_at d s_new → ring_at d keyring_path k_new R → d !! staged_path = None →
  triple (p ≠ new) (recover_change_passphrase p (b64_encode s_old) (b64_encode s_new)) w
    (settled_by p) (custody_inv ps).
Proof.
  intros <- Hf Hc Hj Hp Hs Hr Hst. pose proof Hsides as [Ho Hn Hko Hkn Hso Hsn].
  assert (root_ok (World.disk w)) as Hroot' by (by eapply custody_root).
  assert (custody_inv ps (World.disk w)) as Hinv by (apply change_inv; [done..|]; by eapply After).
  assert (∀ w2, same w w2 → from_passphrase p s_new = Ok k_new → triple (p ≠ new) (let! _ := discard_staged in
      let! _ := remove_lifecycle in ret CustodyMode.Passphrase) w2 (settled_by p) (custody_inv ps)) as Hdiscard.
  { intros w2 H2 Hk. eapply (discard_settle _ p the_journal); [reflexivity|disks..].
    - split; [done| |intros n Hn'; by rewrite Hst in Hn']. exists s_new, k_new. split_and!; try done. by destruct Hn.
    - done.
    - done.
    - done.
    - by rewrite delete_id.
    - intros d' Hd'. by apply (settled_inv _ p). }
  assert (∀ k, from_passphrase p s_new = Ok k → k ≠ k_new → ∀ raw, World.disk w !! keyring_path = Some (Fs.File raw) →
    separated k_new k raw) as Hsep by (intros k Hk Hne raw Hraw; apply (wrong_key new p s_new s_new); auto).
  eapply recover_head; [done|by right|done..| |]; intros w1 k H1 Hk.
  - intros _. destruct (decide (k = k_new)) as [->|Hne].
    + eapply triple_bind_reads; [by eapply reads_load; disks| |by disks]. intros w2 H2. apply Hdiscard; [eauto with sv|done].
    + eapply triple_bind_refuses; [eapply refuses_load; disks; [done..|by apply Hsep]| |by disks].
      intros ->. unfold kek_of in Hkn. congruence.
  - intros _ _. destruct (decide (k = k_new)) as [->|Hne].
    + eapply triple_bind_attempt_reads; [by eapply reads_load; disks| |].
      * intros w2 H2. apply Hdiscard; [eauto with sv|done].
      * intros w2 e H2. apply triple_assoc. eapply triple_bind_refuses; [by apply refuses_no_staged; disks|done|by disks].
    + eapply triple_bind_attempt_refuses; [eapply refuses_load; disks; [done..|by apply Hsep]|]. intros w2 e H2. apply triple_assoc.
      eapply triple_bind_refuses; [by apply refuses_no_staged; disks| |by disks].
      intros ->. unfold kek_of in Hkn. congruence.
Qed.

Lemma moved_after d :
  journal_at d the_journal → salt_at d s_new → ring_at d staged_path k_new R →
  change_state old new (move staged_path keyring_path d).
Proof.
  intros Hj Hs Hst. pose proof Hst as (raw & Hraw & _).
  eapply After; [exact Hsides|..].
  - eapply journal_at_frame; [|exact Hj]. unfold move. rewrite Hraw. by rewrite lookup_insert_ne, lookup_delete_ne.
  - eapply salt_at_frame; [|exact Hs]. unfold move. rewrite Hraw. by rewrite lookup_insert_ne, lookup_delete_ne.
  - by apply moved_ring_at.
  - unfold move. rewrite Hraw. by rewrite lookup_insert_ne, lookup_delete_eq.
Qed.

(** The salt is the new one and the keyring the old one. *)
Section between.
Context (p : string) (w : World.t) (Hp : p ∈ ps) (Hf : custody_frame d0 (World.disk w)) (Hclear : ring_files (World.disk w)).
Context (Hj : journal_at (World.disk w) the_journal) (Hs : salt_at (World.disk w) s_new).
Context (Hlive : ring_at (World.disk w) keyring_path k_old R) (Hst : ring_at (World.disk w) staged_path k_new R).

Let Hinv : custody_inv ps (World.disk w).
Proof. apply change_inv; [done..|]. by eapply Between. Qed.

Lemma between_discard (X : Prop) w2 :
  same w w2 → from_passphrase p s_new = Ok k_old →
  triple X (let! _ := discard_staged in let! _ := remove_lifecycle in ret CustodyMode.Passphrase) w2
    (settled_by p) (custody_inv ps).
Proof.
  intros H2 Hk. destruct Hsides as [Ho Hn Hko Hkn Hso Hsn].
  eapply (discard_settle _ p the_journal); [reflexivity|disks..]; try done.
  - split; [done| |by eapply ring_at_regular]. exists s_new, k_old. split_and!; try done. by destruct Hn.
  - split; [apply custody_frame_delete; [unfold CUSTODY_PATHS; set_solver|done]|].
    split; [by apply ring_files_delete|]. right. exists old, p.
    split; [done|]. split; [done|]. apply (After _ _ _ s_old s_new k_old k_old); [by split|..].
    + eapply journal_at_frame; [keep_file|done].
    + eapply salt_at_frame; [keep_file|done].
    + eapply ring_at_frame; [keep_file|done].
    + by rewrite lookup_delete_eq.
  - intros d' Hd'. by apply (settled_inv _ p).
Qed.

Lemma between_commit (X : Prop) w2 k :
  same w w2 → from_passphrase p s_new = Ok k → (k ≠ k_new → X) →
  triple X (let! _ := load_staged k in let! _ := commit_staged in
            let! _ := remove_lifecycle in ret CustodyMode.Passphrase) w2 (settled_by p) (custody_inv ps).
Proof.
  intros H2 Hk HX. destruct Hsides as [Ho Hn Hko Hkn Hso Hsn]. destruct (decide (k = k_new)) as [->|Hne].
  - apply (commit_settle _ p s_new k_new the_journal w2 (World.disk w)); try done.
    + by disks.
    + by destruct Hn.
    + by eapply ring_at_regular.
    + apply change_inv; [by apply custody_frame_move|by apply ring_files_move|by apply moved_after].
    + intros d' Hd'. by apply (settled_inv _ p).
  - eapply triple_bind_refuses; [eapply refuses_load_staged; disks; [by eapply custody_root|done..|]|auto|by disks].
    intros raw Hraw. apply (wrong_key new p s_new s_new); auto.
Qed.

Lemma recover_between :
  triple (p ≠ if decide (s_old = s_new) then old else new)
    (recover_change_passphrase p (b64_encode s_old) (b64_encode s_new)) w (settled_by p) (custody_inv ps).
Proof.
  destruct Hsides as [Ho Hn Hko Hkn Hso Hsn]. assert (root_ok (World.disk w)) as Hroot' by (by eapply custody_root).
  assert (∀ k, from_passphrase p s_new = Ok k → k ≠ k_old → ∀ raw, World.disk w !! keyring_path = Some (Fs.File raw) →
    separated k_old k raw) as Hsep by (intros k Hk Hne raw Hraw; apply (wrong_key old p s_old s_new); auto).
  eapply recover_head; [done|by right|done..| |]; intros w1 k H1 Hk.
  - intros Es. rewrite decide_True by done. destruct (decide (k = k_old)) as [->|Hne].
    + eapply triple_bind_reads; [by eapply reads_load; disks| |by disks]. intros w2 H2.
      apply between_discard; [eauto with sv|done].
    + eapply triple_bind_refuses; [eapply refuses_load; disks; [done..|by apply Hsep]| |by disks].
      intros ->. unfold kek_of in Hko. congruence.
  - intros Es _. rewrite decide_False by done.
    assert (k ≠ k_new → p ≠ new) as HX by (intros Hne ->; unfold kek_of in Hkn; congruence).
    destruct (decide (k = k_old)) as [->|Hne].
    + eapply triple_bind_attempt_reads; [by eapply reads_load; disks| |].
      * intros w2 H2. apply between_discard; [eauto with sv|done].
      * intros w2 e H2. apply triple_assoc. apply between_commit; [eauto with sv|done..].
    + eapply triple_bind_attempt_refuses; [eapply refuses_load; disks; [done..|by apply Hsep]|].
      intros w2 e H2. apply triple_assoc. apply between_commit; [eauto with sv|done..].
Qed.
End between.
End recover.

(** In every state some passphrase settles the change when nothing fails; with any other,
    and under any failure, the state stays recoverable. *)
Lemma recover_spec (ps : list string) w :
  (∀ p p' s s' k k' raw, p ∈ ps → p' ∈ ps → salts s → salts s' → kek_of p s k → kek_of p' s' k' →
     clear raw → k ≠ k' → separated k k' raw) →
  custody_inv ps (World.disk w) →
  ∃ q, q ∈ ps ∧ ∀ p w', p ∈ ps → same w w' →
    triple (p ≠ q) (recover_lifecycle_for_unlock CustodyMode.Passphrase (Some p)) w'
      (λ c d', ∃ q', q' ∈ ps ∧ settled_by q' c d' ∧ (p = q → q' = p)) (custody_inv ps).
Proof.
  intros wrong_key [Hf [Hcl [(q & Hq & Hr & Hj) | (old & new & Ho & Hn & Hc)]]].
  - exists q. split; [done|]. intros p w' Hp Hw.
    eapply triple_bind_reads; [apply reads_no_journal; by disks| |].
    + intros w1 H1. apply triple_ret. disks. exists q. split_and!; done.
    + disks. by apply (settled_inv _ q).
  - assert (∀ d s_old s_new (X : Prop) p w', World.disk w' = d → custody_frame d0 d → ring_files d → change_state old new d → p ∈ ps →
      journal_at d (LifecycleJournal.ChangePassphrase (b64_encode s_old) (b64_encode s_new)) →
      (∀ w1, same w' w1 → triple X (recover_change_passphrase p (b64_encode s_old) (b64_encode s_new)) w1
         (settled_by p) (custody_inv ps)) →
      triple X (recover_lifecycle_for_unlock CustodyMode.Passphrase (Some p)) w'
        (λ c d', ∃ q', q' ∈ ps ∧ settled_by q' c d' ∧ ∀ q : string, p = q → q' = p) (custody_inv ps))
      as Hhead.
    { intros d s_old s_new X p w' <- Hf' Hcl' Hc' Hp' Hj' Hrest. assert (custody_inv ps (World.disk w')) as Hinv.
      { split; [done|]. split; [done|]. right. eauto. }
      eapply triple_bind_reads; [by apply reads_journal| |done]. intros w1 H1. cbn.
      eapply triple_bind_reads; [by apply reads_ret| |by disks]. intros w2 H2.
      eapply triple_mono; [apply Hrest; eauto with sv|done| |done]. intros c d' Hd'. exists p. done. }
    pose proof Hc as Hc'. destruct Hc as [s_old s_new k_old k_new Hsd Hj Hs Hl Hst|s_old s_new k_old k_new Hsd Hj Hs Hl Hst
      |s_old s_new k_old k_new Hsd Hj Hs Hl Hst].
    + exists old. split; [done|]. intros p w' Hp Hw. eapply triple_mono;
        [eapply (Hhead (World.disk w)); [by disks|done..|]|exact id|intros c d' (q' & ? & ? & He); exists q'; by eauto|done].
      intros w1 H1. eapply (recover_before ps wrong_key old new) with (d := World.disk w); try done; by disks.
    + exists (if decide (s_old = s_new) then old else new). split; [by destruct (decide _)|].
      intros p w' Hp Hw. eapply triple_mono;
        [eapply (Hhead (World.disk w)); [by disks|done..|]|exact id|intros c d' (q' & ? & ? & He); exists q'; by eauto|done].
      intros w1 H1. eapply (recover_between ps wrong_key); try done; by disks.
    + exists new. split; [done|]. intros p w' Hp Hw. eapply triple_mono;
        [eapply (Hhead (World.disk w)); [by disks|done..|]|exact id|intros c d' (q' & ? & ? & He); exists q'; by eauto|done].
      intros w1 H1. eapply (recover_after ps wrong_key old new) with (d := World.disk w); try done; by disks.
Qed.

(** ** The change itself *)

Section change.
Context (all_clear : ∀ raw, clear raw) (all_salts : ∀ s, salts s).

Lemma all_ring_files d : ring_files d.
Proof. intros raw _. apply all_clear. Qed.
Lemma all_safe p d : settled p d → safe p d.
Proof. intros Hs. split; [done|apply all_ring_files]. Qed.

Lemma settled_put_staged p d raw : settled p d → settled p (put staged_path raw d).
Proof.
  intros [[Hf (salt & kek & Hs & Hb & Hk & Hr) Hst] Hj]. split; [split|].
  - apply custody_frame_put; [unfold CUSTODY_PATHS; set_solver|done].
  - exists salt, kek. split; [eapply salt_at_frame; [keep_file|done]|]. split; [done|]. split; [done|].
    eapply ring_at_frame; [keep_file|done].
  - intros n Hn. unfold put in Hn. rewrite lookup_insert, decide_True in Hn by done. simplify_eq. eauto.
  - unfold no_journal, put. by rewrite lookup_insert_ne.
Qed.

(** From the journal to the end, with the new keyring staged. *)
Section commit.
Context (ps : list string) (old new : string) (Hold : old ∈ ps) (Hnew : new ∈ ps).
Context (s_old s_new : list N) (k_old k_new : MasterKey) (Hsides : sides old new s_old s_new k_old k_new).
Let the_journal := LifecycleJournal.ChangePassphrase (b64_encode s_old) (b64_encode s_new).

(** The journal is written, the new keyring is staged, and the salt is [s]. *)
Record staged_change (s : list N) d : Prop := {
  sc_frame : custody_frame d0 d;
  sc_journal : journal_at d the_journal;
  sc_salt : salt_at d s;
  sc_live : ring_at d keyring_path k_old R;
  sc_staged : ring_at d staged_path k_new R
}.

Lemma staged_journal d :
  settled old d → salt_at d s_old → ring_at d keyring_path k_old R → ring_at d staged_path k_new R →
  staged_change s_old (put lifecycle_path (to_vec_pretty the_journal) d).
Proof.
  intros [[Hf _ _] _] Hs Hl Hst. split.
  - apply custody_frame_put; [unfold CUSTODY_PATHS; set_solver|done].
  - apply journal_put.
  - eapply salt_at_frame; [keep_file|done].
  - eapply ring_at_frame; [keep_file|done].
  - eapply ring_at_frame; [keep_file|done].
Qed.

Lemma staged_salt d : staged_change s_old d → staged_change s_new (put [SALT_FILENAME] s_new d).
Proof.
  intros [Hf Hj Hs Hl Hst]. split.
  - apply custody_frame_put; [unfold CUSTODY_PATHS; set_solver|done].
  - eapply journal_at_frame; [keep_file|done].
  - split; [unfold put; by rewrite lookup_insert, decide_True|]. by destruct Hsides as [_ [? _] _ _ _ _].
  - eapply ring_at_frame; [keep_file|done].
  - eapply ring_at_frame; [keep_file|done].
Qed.

(** Both salts may be on disk: the change can be recovered. *)
Lemma staged_inv s d : s = s_old ∨ s = s_new → staged_change s d → custody_inv ps d.
Proof.
  intros [-> | ->] [Hf Hj Hs Hl Hst]; (eapply (change_inv ps old new); [done..|apply all_ring_files|]).
  - eapply Before; try done. by eapply ring_at_regular.
  - by eapply Between.
Qed.

Lemma moved_ready d :
  staged_change s_new d → ready new (move staged_path keyring_path d) ∧
    journal_at (move staged_path keyring_path d) the_journal.
Proof.
  intros [Hf Hj Hs Hl Hst]. pose proof Hst as (raw & Hraw & _). destruct Hsides as [_ [_ Hb] _ Hkn _ _].
  assert (∀ q, q ≠ keyring_path → q ≠ staged_path → move staged_path keyring_path d !! q = d !! q) as Hother.
  { intros q Hq1 Hq2. unfold move. rewrite Hraw. by rewrite lookup_insert_ne, lookup_delete_ne. }
  split; [split|].
  - by apply custody_frame_move.
  - exists s_new, k_new. split; [eapply salt_at_frame; [by apply Hother|done]|]. split; [done|]. split; [done|].
    by apply moved_ring_at.
  - intros n Hn. exfalso. unfold move in Hn. rewrite Hraw in Hn.
    rewrite lookup_insert_ne, lookup_delete_eq in Hn by done. done.
  - eapply journal_at_frame; [by apply Hother|done].
Qed.

Lemma commit_change w d :
  World.disk w = d → settled old d → salt_at d s_old → ring_at d keyring_path k_old R →
  ring_at d staged_path k_new R →
  triple False (let! _ := write_lifecycle the_journal in
                let! _ := write_atomic [SALT_FILENAME] s_new in
                let! _ := commit_staged in
                remove_lifecycle) w (λ _ d', settled new d') (custody_inv ps).
Proof.
  intros <- Hset Hs Hlive Hst. pose proof (staged_journal _ Hset Hs Hlive Hst) as C1.
  pose proof Hset as [[Hf _ _] Hnj].
  eapply triple_then; [apply write_lifecycle_spec; [reflexivity|by eapply custody_root|]| |].
  { intros n Hn. by rewrite Hnj in Hn. }
  { intros d' [-> | ->]; [by apply (settled_inv _ old), all_safe|]. eapply staged_inv; [by left|done]. }
  cbn beta. intros [] w1 _ E1. rewrite <-E1 in C1. pose proof (staged_salt _ C1) as C2.
  eapply triple_then; [apply write_atomic_spec; [reflexivity|by eapply custody_root, sc_frame|]| |].
  { intros n Hn. destruct (sc_salt _ _ C1) as [S1 _]. rewrite S1 in Hn. simplify_eq. eauto. }
  { intros d' [-> | ->]; [eapply staged_inv; [by left|done]|eapply staged_inv; [by right|done]]. }
  cbn beta. intros [] w2 _ E2. rewrite <-E2 in C2. destruct (moved_ready _ C2) as [R3 J3].
  assert (custody_inv ps (move staged_path keyring_path (World.disk w2))) as I3.
  { destruct C2. eapply (change_inv ps old new); [done..|by apply custody_frame_move|apply all_ring_files|by eapply moved_after]. }
  eapply triple_then.
  { eapply commit_staged_spec; [reflexivity|by eapply custody_root, sc_frame|by apply sc_staged in C2|].
    eapply ring_at_regular, sc_live, C2. }
  { intros d' [-> | ->]; [|done]. eapply staged_inv; [by right|done]. }
  cbn beta. intros [] w3 _ E3. rewrite <-E3 in R3, J3, I3.
  eapply triple_mono; [apply remove_lifecycle_spec; [reflexivity|by eapply journal_regular]|done| |].
  - intros [] d' ->. apply ready_delete_journal; [done|apply all_ring_files].
  - intros d' [-> | ->]; [done|]. apply (settled_inv _ new); [done|]. apply ready_delete_journal; [done|apply all_ring_files].
Qed.
End commit.

(** Why a change is refused without a failure of the system. *)
Definition change_refused (h : VaultHandle.t) (root new : string) : Prop :=
  canonical vault_root ≠ canonical root ∨ VaultHandle.custody h ≠ CustodyMode.Passphrase ∨
  validate_new_passphrase new ≠ Ok tt.

Lemma operation_root_spec root w :
  (canonical vault_root = canonical root → reads (ensure_operation_root root) tt w) ∧
  (canonical vault_root ≠ canonical root → refuses (ensure_operation_root root) w).
Proof.
  split_and!.
  - intros He. eapply reads_bind; [by apply reads_core_io, reads_io|]. intros w1 H1.
    eapply reads_bind; [by apply reads_core_io, reads_io|]. intros w2 H2.
    rewrite bool_decide_eq_true_2 by done. apply reads_ret.
  - intros He. eapply refuses_bind; [by apply reads_core_io, reads_io|]. intros w1 H1.
    eapply refuses_bind; [by apply reads_core_io, reads_io|]. intros w2 H2.
    rewrite bool_decide_eq_false_2 by done. apply refuses_fail.
Qed.

Lemma change_passphrase_spec (ps : list string) (h : VaultHandle.t) (root old new : string) w :
  settled old (World.disk w) → old ∈ ps → new ∈ ps →
  triple (change_refused h root new) (change_passphrase h root old new) w
    (λ _ d', settled new d') (custody_inv ps).
Proof.
  intros Hset Hold Hnew. pose proof (settled_inv _ _ _ Hold (all_safe _ _ Hset)) as Hinv. unfold change_refused.
  destruct (operation_root_spec root w) as [Hsame Hdiff].
  destruct (decide (canonical vault_root = canonical root)) as [He|Hne].
  2: { eapply triple_bind_refuses; [auto|by left|done]. }
  eapply triple_bind_reads; [by apply Hsame| |done]. intros w1 H1.
  case_bool_decide as Hc; [|apply triple_fail; [auto|by disks]].
  pose proof Hset as [[Hf (s_old & k_old & Hs & Hb & Hko & Hlive) Hst] Hnj].
  assert (root_ok (World.disk w)) as Hroot' by (by eapply custody_root).
  eapply triple_bind_reads; [eapply reads_kek; [by disks|exact Hko]| |by disks]. intros w2 H2.
  eapply triple_bind_reads; [by eapply reads_load; disks| |by disks]. intros w3 H3.
  destruct (validate_new_passphrase new) as [[]|e] eqn:Hv.
  2: { eapply triple_bind_refuses; [apply refuses_fail|auto|by disks]. }
  eapply triple_bind_reads; [by apply reads_lift| |by disks]. intros w4 H4.
  eapply triple_bind_reads; [apply reads_salt; by disks| |by disks]. intros w5 H5.
  eapply triple_bind_yields; [apply yields_errmap, yields_salt| |by disks]. intros s_new w6 H6 [Hl Hb'].
  destruct (kek_of_some new s_new Hl) as [k_new Hkn]. rewrite Hkn.
  eapply triple_bind_reads; [by apply reads_lift| |by disks]. intros w7 H7.
  eapply triple_then; [apply triple_weaken, (rewrap_to_spec staged_path k_old k_new R); [reflexivity|by disks..]| |].
  { disks. intros d' [-> | (raw & _ & ->)]; [done|]. apply (settled_inv _ old); [done|by apply all_safe, settled_put_staged]. }
  disks. cbn beta. intros [] w8 _ (raw & Hraw & E8).
  apply triple_weaken.
  eapply (commit_change ps old new) with (k_old := k_old) (k_new := k_new); [done|done| |exact E8|..].
  - split; [split; [by destruct Hs|done]|done..].
  - by apply settled_put_staged.
  - eapply salt_at_frame; [keep_file|done].
  - eapply ring_at_frame; [keep_file|done].
  - exists raw. split; [unfold put; by rewrite lookup_insert, decide_True by done|done].
Qed.
End change.
End lifecycle_spec.

(** ** What a recovery relies on

    That a wrong key is refused, of the keys and the sealed keys that are there: no entry of a
    keyring file on the disk opens under the keys of two of the passphrases with a salt on
    the disk. *)
Section wrong_keys.
Context `{OS : Os} `{PR : Prims}.
Context `{KJ : !Json KeyringFile.t} `{LJ : !Json LifecycleJournal.t}.

Definition salt_used (d : gmap path node) (s : list N) : Prop :=
  salt_at d s ∨ ∃ a b, journal_at d (LifecycleJournal.ChangePassphrase a b) ∧ (a = b64_encode s ∨ b = b64_encode s).
Definition ring_file (d : gmap path node) (raw : list N) : Prop :=
  d !! keyring_path = Some (Fs.File raw) ∨ d !! staged_path = Some (Fs.File raw).
Definition wrong_keys_refused (ps : list string) (d : gmap path node) : Prop :=
  ∀ p p' s s' k k' raw, p ∈ ps → p' ∈ ps → salt_used d s → salt_used d s' → kek_of p s k → kek_of p' s' k' →
    ring_file d raw → k ≠ k' → separated k k' raw.

Lemma custody_inv_refined d0 R ps d :
  custody_inv d0 R (λ _, True) (λ _, True) ps d → custody_inv d0 R (ring_file d) (salt_used d) ps d.
Proof.
  intros [Hf [_ Hc]]. split; [done|]. split; [by intros raw|].
  destruct Hc as [Hc|(old & new & Ho & Hn & Hc)]; [by left|right]. exists old, new. split; [done|]. split; [done|].
  destruct Hc as [s_old s_new k_old k_new Hs Hj ?|s_old s_new k_old k_new Hs Hj ?|s_old s_new k_old k_new Hs Hj ?];
    assert (sides (salt_used d) old new s_old s_new k_old k_new) by (destruct Hs; split; try done; right; eauto 6).
  - by eapply Before.
  - by eapply Between.
  - by eapply After.
Qed.

(** With a cipher under which a sealed buffer opens under one key only. *)
Lemma committing_refuses `{!KeyCommitting} ps d : wrong_keys_refused ps d.
Proof.
  intros p p' s s' k k' raw _ _ _ _ _ _ _ Hne kr e dek dek' _ _. unfold unwrap.
  destruct (decode_b64 _) as [sealed|]; [|done]. cbn [rbind].
  destruct (open k sealed KEYRING_AAD) eqn:E; [|done].
  destruct (open k' sealed KEYRING_AAD) eqn:E'; [|done]. intros _ _. apply Hne. by eapply open_committing.
Qed.
End wrong_keys.
