(* ===== verification/CoreInstance.v ===== *)
(** * A concrete environment for the core

    Serializers for the core's files, a keychain that never refuses to name its errors, a
    word list of one byte per word, and paths that are their own canonical form. *)
From S2P Require Import Prelude Text AuditTypes AuditLog AuditInstance Broker Fs Crypto Storage.
From S2P Require Import Keychain Recovery Core Keyring Transit Lifecycle VaultInstance.

#[global] Instance demo_committing : KeyCommitting.
Proof.
  split. intros k k' n c a m m'. change (demo_decrypt k n c a = Ok m → demo_decrypt k' n c a = Ok m' → k = k').
  unfold demo_decrypt. destruct (of_bytes c) as [[k1 [n1 [a1 m1]]]|]; [|done].
  repeat case_decide; try done. intros _ _. congruence.
Qed.

#[global] Instance json_of_codec {A} `{Codec A} : Json A := {|
  to_vec_pretty := to_bytes;
  from_slice := of_bytes
|}.
#[global] Instance json_of_codec_laws {A} `{Codec A} : JsonLaws A.
Proof. split. intros a. apply of_to_bytes. Qed.

#[global] Instance wrapped_dek_codec : Codec WrappedDek.t.
Proof.
  refine (codec_via (λ e, (WrappedDek.dek_version e, WrappedDek.wrapped_b64 e))
    (λ '(v, s), Some (WrappedDek.mk v s)) _). by intros [].
Defined.
#[global] Instance keyring_codec : Codec KeyringFile.t.
Proof.
  refine (codec_via (λ k, (KeyringFile.version k, (KeyringFile.active_dek_version k,
                            (KeyringFile.min_decryption_version k, KeyringFile.entries k))))
    (λ '(v, (a, (m, e))), Some (KeyringFile.mk v a m e)) _). by intros [].
Defined.
#[global] Instance bundle_codec : Codec RecoveryBundle.t.
Proof.
  refine (codec_via (λ b, (RecoveryBundle.version b, (RecoveryBundle.provider b, (RecoveryBundle.dek_version b,
                            (RecoveryBundle.salt_b64 b, RecoveryBundle.wrapped_key_b64 b)))))
    (λ '(v, (p, (k, (s, w)))), Some (RecoveryBundle.mk v p k s w)) _). by intros [].
Defined.
#[global] Instance identity_codec : Codec IdentityFile.t.
Proof.
  refine (codec_via (λ i, (IdentityFile.schema i, IdentityFile.wrapped_root_b64 i))
    (λ '(s, r), Some (IdentityFile.mk s r)) _). by intros [].
Defined.
#[global] Instance payload_codec : Codec IdentityPayloadV2.t.
Proof.
  refine (codec_via (λ i, (IdentityPayloadV2.root_b64 i, IdentityPayloadV2.manifest_auth_required i))
    (λ '(s, r), Some (IdentityPayloadV2.mk s r)) _). by intros [].
Defined.
#[global] Instance transit_entry_codec : Codec TransitEntry.t.
Proof.
  refine (codec_via (λ e, (TransitEntry.name e, (TransitEntry.version e, TransitEntry.wrapped_b64 e)))
    (λ '(n, (v, s)), Some (TransitEntry.mk n v s)) _). by intros [].
Defined.
#[global] Instance transit_file_codec : Codec TransitFile.t.
Proof.
  refine (codec_via (λ f, (TransitFile.schema f, TransitFile.entries f))
    (λ '(s, e), Some (TransitFile.mk s e)) _). by intros [].
Defined.
#[global] Instance signing_entry_codec : Codec SigningEntry.t.
Proof.
  refine (codec_via (λ e, (SigningEntry.name e, (SigningEntry.version e, (SigningEntry.public_b64 e,
                            SigningEntry.wrapped_secret_b64 e))))
    (λ '(n, (v, (p, s))), Some (SigningEntry.mk n v p s)) _). by intros [].
Defined.
#[global] Instance signing_file_codec : Codec SigningFile.t.
Proof.
  refine (codec_via (λ f, (SigningFile.schema f, SigningFile.entries f))
    (λ '(s, e), Some (SigningFile.mk s e)) _). by intros [].
Defined.
#[global] Instance allow_codec : Codec BrokerAllow.t.
Proof.
  refine (codec_via (λ a, (BrokerAllow.host a, (BrokerAllow.path_prefix a, (BrokerAllow.methods a,
                            BrokerAllow.allow_private_ip a))))
    (λ '(h, (p, (m, i))), Some (BrokerAllow.mk h p m i)) _). by intros [].
Defined.
#[global] Instance injection_codec : Codec BrokerInjection.t.
Proof.
  refine (codec_via (λ i, match i with BrokerInjection.BearerAuth => None | BrokerInjection.Header n => Some n end)
    (λ o, Some (match o with None => BrokerInjection.BearerAuth | Some n => BrokerInjection.Header n end)) _).
  by intros [].
Defined.
#[global] Instance broker_entry_codec : Codec BrokerEntry.t.
Proof.
  refine (codec_via (λ e, (BrokerEntry.name e, (BrokerEntry.wrapped_secret_b64 e, (BrokerEntry.allow e,
                            BrokerEntry.injection e))))
    (λ '(n, (s, (a, i))), Some (BrokerEntry.mk n s a i)) _). by intros [].
Defined.
#[global] Instance broker_file_codec : Codec BrokerFile.t.
Proof.
  refine (codec_via (λ f, (BrokerFile.schema f, BrokerFile.entries f))
    (λ '(s, e), Some (BrokerFile.mk s e)) _). by intros [].
Defined.

(** A journal as its kind and its fields. *)
#[global] Instance journal_codec : Codec LifecycleJournal.t.
Proof.
  refine (codec_via (λ j, match j with
      | LifecycleJournal.Bootstrap c s f p => (0%N, (c, (s, (f, (p, (0%N, 0%N))))))
      | LifecycleJournal.ChangePassphrase o n => (1%N, (o, (Some n, (None, (None, (0%N, 0%N))))))
      | LifecycleJournal.MoveToKeychain => (2%N, (EmptyString, (None, (None, (None, (0%N, 0%N))))))
      | LifecycleJournal.Rotate o n b => (3%N, (b, (None, (None, (None, (o, n))))))
      end)
    (λ '(k, (c, (s, (f, (p, (o, n)))))), match k with
      | 0%N => Some (LifecycleJournal.Bootstrap c s f p)
      | 1%N => match s with Some new => Some (LifecycleJournal.ChangePassphrase c new) | None => None end
      | 2%N => Some LifecycleJournal.MoveToKeychain
      | _ => Some (LifecycleJournal.Rotate o n c)
      end) _).
  by intros [].
Defined.

#[global] Instance demo_backend : Backend := {|
  platform_backend := "test keychain";
  failure_kind := PlatformFailure;
  process_id := 1;
  clock_nanos := λ w, N.of_nat (World.draws w)
|}.
#[global] Instance demo_backend_laws : BackendLaws.
Proof. split. done. Qed.

#[global] Instance demo_core_env : CoreEnv := {|
  vault_root := "/vault";
  canonical := id;
  b64_url_encode := str_of_bytes
|}.

#[global] Instance demo_bip39 : Bip39 := {|
  mnemonic_of_entropy := λ e, Ok (str_of_bytes e);
  mnemonic_parse := λ s, Ok s
|}.
#[global] Instance demo_bip39_laws : Bip39Laws.
Proof. split. intros entropy _. by exists (str_of_bytes entropy). Qed.
