(* ===== verification/LifecycleTheorems.v ===== *)
(** * Theorems about the keyring and the lifecycle of a vault *)
From S2P Require Import Prelude Text AuditTypes AuditLog AuditInstance Broker Fs Crypto Storage.
From S2P Require Import StorageSpec Keychain Recovery Core CoreSpec Keyring KeyringSpec Transit.
From S2P Require Import TransitSpec Lifecycle LifecycleSpec VaultInstance CoreInstance.

Lemma triple_run {E A : Type} (X : Prop) (m : M E A) (w : World.t) Q R0 :
  triple X m w Q R0 →
  match m w with
  | (w', Ok v) => Q v (World.disk w')
  | (w', Err _) => (quiet w → X) ∧ R0 (World.disk w')
  end.
Proof. unfold triple, wp. destruct (m w) as [w' [v|e]]; cbn; by intros [_ H]. Qed.

(** ** The keyring *)

Section keyring_theorems.
Context `{OS : Os} `{OSL : !OsLaws} `{PR : Prims} `{PRL : !PrimLaws}.
Context `{KJ : !Json KeyringFile.t} `{KJL : !JsonLaws KeyringFile.t}.

(** C9: Every operation on the keyring file refines the operation on the abstract ring of
    data keys, under any failure of the system: it is refused exactly when the ring
    operation is, succeeds with the file of the new ring, and otherwise leaves either the
    ring it found or, after a failure late in the call, the new one, never a torn file or a
    lost key; nothing else on disk changes. *)
Theorem keyring_refines_ring (kek : MasterKey) (R : Ring.t) (op : keyring_op) (w : World.t) :
  root_ok (World.disk w) → ring_at (World.disk w) keyring_path kek R → op_wf op →
  let '(w', r) := apply_keyring_op kek op w in
  match ring_step kek R op with
  | None => World.disk w' = World.disk w ∧ ∃ e, r = Err e
  | Some (kek', R') =>
      (World.disk w' = World.disk w ∨ ring_put (World.disk w) keyring_path kek' R' (World.disk w')) ∧
      match r with
      | Ok _ => ring_put (World.disk w) keyring_path kek' R' (World.disk w')
      | Err _ => World.faults w ≠ []
      end
  end.
Proof.
  intros Hr Hk Hwf. pose proof (keyring_op_spec kek R op w Hr Hk Hwf) as Hs. cbn zeta.
  destruct (apply_keyring_op kek op w) as [w' r] eqn:E.
  destruct (ring_step kek R op) as [[kek' R']|]; unfold triple, refuses, wp in Hs; rewrite E in Hs; cbn in Hs.
  - destruct Hs as [_ Hs]. destruct r as [[]|e]; [split; [by right|done]|]. destruct Hs as [Hq Hs].
    split; [done|]. intros Hf. by apply Hq.
  - destruct Hs as [Hs He]. split; [by apply same_disk|done].
Qed.
End keyring_theorems.

(** ** The recovery phrase *)

Section recovery_theorems.
Context `{OS : Os} `{OSL : !OsLaws} `{PR : Prims} `{PRL : !PrimLaws} `{BP : Bip39} `{BPL : !Bip39Laws}.
Context `{RJ : !Json RecoveryBundle.t} `{RJL : !JsonLaws RecoveryBundle.t}.

(** C30: A recovery phrase that was issued restores the data key and its version: under any
    failure of the system, a phrase is returned only once its bundle is on disk, and restoring
    with it then gives exactly the key and the version it was issued for; a call that fails has
    met a fault, and nothing but the bundle ever changes. *)
Theorem recovery_phrase_restores (key : MasterKey) (version : N) (w : World.t) :
  root_ok (World.disk w) → regular_or_missing (World.disk w) [RECOVERY_FILE] →
  length key = MASTER_KEY_LEN → version ≠ 0%N →
  let '(w1, issued) := issue_recovery_phrase_for_version key version w in
  (∀ q, q ≠ [RECOVERY_FILE] → World.disk w1 !! q = World.disk w !! q) ∧
  match issued with
  | Ok phrase =>
      let '(w2, restored) := restore_master_key_with_version phrase (World.with_faults w1 []) in
      restored = Ok (RecoveredMasterKey.mk key (Some version)) ∧ World.disk w2 = World.disk w1
  | Err _ => World.faults w ≠ []
  end.
Proof.
  intros Hr Hb Hk Hv. unfold issue_recovery_phrase_for_version. apply N.eqb_neq in Hv. rewrite Hv.
  pose proof (triple_run _ _ _ _ _ (issue_spec key (Some version) w _ eq_refl Hr Hb Hk)) as Hi.
  destruct (issue_recovery_phrase_inner key (Some version) w) as [w1 [phrase|e]].
  - destruct Hi as (raw & E & Hat). split; [intros q Hq; rewrite E; unfold put; by rewrite lookup_insert_ne|].
    pose proof (restore_reads phrase key (Some version) (World.with_faults w1 [])) as Hread.
    assert (root_ok (World.disk w1)) as Hr1 by (rewrite E; unfold root_ok, put; by rewrite lookup_insert_ne).
    specialize (Hread Hr1 Hat). unfold reads, wp in Hread.
    destruct (restore_master_key_with_version phrase (World.with_faults w1 [])) as [w2 r]. cbn in Hread.
    destruct Hread as [Hs [->|[Hn _]]]; [|by destruct Hn]. split; [done|]. by apply same_disk in Hs.
  - destruct Hi as [Hx Hd]. split.
    + intros q Hq. destruct Hd as [->|(raw & ->)]; [done|]. unfold put. by rewrite lookup_insert_ne.
    + intros Hf. by destruct (Hx Hf).
Qed.

(** The version stands beside the sealed key and is not covered by its authentication: a
    bundle whose version is rewritten opens with the version it now carries. *)
Lemma recovery_version_relabelled (phrase : string) (b : RecoveryBundle.t) (key : MasterKey) (v v' : option N) :
  open_bundle phrase b = Ok (RecoveredMasterKey.mk key v) →
  open_bundle phrase (RecoveryBundle.mk (RecoveryBundle.version b) (RecoveryBundle.provider b) v'
    (RecoveryBundle.salt_b64 b) (RecoveryBundle.wrapped_key_b64 b)) = Ok (RecoveredMasterKey.mk key v').
Proof.
  unfold open_bundle. cbn [RecoveryBundle.version RecoveryBundle.salt_b64 RecoveryBundle.wrapped_key_b64
    RecoveryBundle.dek_version]. unfold rbind.
  repeat match goal with |- context [match ?x with _ => _ end] => destruct x eqn:?; try discriminate end.
  by intros [= -> _].
Qed.
End recovery_theorems.

(** ** Changing the passphrase *)

Section passphrase.
Context `{OS : Os} `{OSL : !OsLaws} `{PR : Prims} `{PRL : !PrimLaws}.
Context `{MJ : ManifestJson} `{AE : AuditEnv} `{BK : Backend} `{CE : CoreEnv} `{BP : Bip39}.
Context `{RJ : !Json RecoveryBundle.t} `{KJ : !Json KeyringFile.t} `{KJL : !JsonLaws KeyringFile.t}.
Context `{LJ : !Json LifecycleJournal.t} `{LJL : !JsonLaws LifecycleJournal.t}.
Context `{IJ : !Json IdentityFile.t} `{PJ : !Json IdentityPayloadV2.t}.
Context `{TJ : !Json TransitFile.t} `{SJ : !Json SigningFile.t} `{BJ : !Json BrokerFile.t}.

(** Unlocks that were tried, each with its passphrase and the faults it met. *)
Fixpoint recover_attempts (attempts : list (string * list Fs.fault)) (w : World.t) : World.t :=
  match attempts with
  | [] => w
  | (p, fs) :: rest =>
      recover_attempts rest
        (recover_lifecycle_for_unlock CustodyMode.Passphrase (Some p) (World.with_faults w fs)).1
  end.

(** The custody part of an unlock: recovery, the key of the passphrase, the data keys. *)
Definition reopen (p : string) : M CoreError.t Unwrapped.t :=
  let! _ := recover_lifecycle_for_unlock CustodyMode.Passphrase (Some p) in
  let! kek := derive_passphrase_kek p in
  Keyring.load kek.

(** Every key of these passphrases but the right one is refused by these files. *)
Definition refusing (clear salts : list N → Prop) (ps : list string) : Prop :=
  ∀ p p' s s' k k' raw, p ∈ ps → p' ∈ ps → salts s → salts s' → kek_of p s k → kek_of p' s' k' →
    clear raw → k ≠ k' → separated k k' raw.

Lemma recover_attempts_inv d0 R u clear salts (ps : list string) attempts w :
  root_ok d0 → Ring.load R = Some u → refusing clear salts ps → custody_inv d0 R clear salts ps (World.disk w) →
  Forall (λ a, a.1 ∈ ps) attempts → custody_inv d0 R clear salts ps (World.disk (recover_attempts attempts w)).
Proof.
  intros Hr Hu Hw Hinv Hall. revert w Hinv. induction Hall as [|[p fs] attempts Hp _ IH]; intros w Hinv; [done|].
  cbn [recover_attempts]. apply IH.
  destruct (recover_spec d0 R u Hr Hu clear salts ps (World.with_faults w fs) Hw Hinv) as (q & Hq & Hspec).
  specialize (Hspec p (World.with_faults w fs) Hp (same_refl _)). apply triple_run in Hspec.
  destruct (recover_lifecycle_for_unlock _ _ _) as [w' [c|e]]; cbn.
  - destruct Hspec as (q' & Hq' & [_ Hs] & _). by apply (settled_inv _ _ _ _ _ q').
  - apply Hspec.
Qed.

(** A settled vault gives its data keys to its passphrase, whatever else is tried. *)
Lemma settled_load d0 R u p w :
  root_ok d0 → Ring.load R = Some u → quiet w → settled d0 R p (World.disk w) →
  wp (let! kek := derive_passphrase_kek p in Keyring.load kek) w
    (λ r w', r = Ok u ∧ World.disk w' = World.disk w).
Proof.
  intros Hr Hu Hq [[Hf (salt & kek & Hs & _ & Hk & Hring) _] _].
  assert (reads (let! kek := derive_passphrase_kek p in Keyring.load kek) u w) as Hread.
  { eapply reads_bind; [by eapply reads_kek|]. intros w' Hw'.
    eapply reads_load; [disks; by eapply custody_root|by disks|done]. }
  eapply wp_reads; [exact Hread| |].
  - intros w' Hw'. split; [done|by apply same_disk].
  - intros w' e _ Hn. by destruct (Hn Hq).
Qed.

(** In every recoverable state one of the passphrases opens the vault. *)
Lemma reopen_spec d0 R u clear salts (ps : list string) w :
  root_ok d0 → Ring.load R = Some u → refusing clear salts ps → quiet w → custody_inv d0 R clear salts ps (World.disk w) →
  ∃ p, p ∈ ps ∧ wp (reopen p) w (λ r w', r = Ok u ∧ settled d0 R p (World.disk w')).
Proof.
  intros Hr Hu Hw Hq Hinv. destruct (recover_spec d0 R u Hr Hu clear salts ps w Hw Hinv) as (q & Hps & Hspec).
  exists q. split; [done|]. specialize (Hspec q w Hps (same_refl _)). apply wp_bind. unfold triple in Hspec.
  eapply wp_mono; [exact Hspec|]. intros [c|e] w1 [(_ & _ & Hq1) Hd].
  - destruct Hd as (q' & _ & [_ [Hs _]] & He). rewrite (He eq_refl) in Hs.
    eapply wp_mono; [eapply settled_load; [exact Hr|exact Hu|auto|exact Hs]|]. intros r w2 [-> E]. by rewrite E.
  - destruct Hd as [Hx _]. by destruct (Hx Hq).
Qed.

(** A settled vault has one key only. *)
Lemma settled_reopen d0 R u p w :
  root_ok d0 → Ring.load R = Some u → quiet w → settled d0 R p (World.disk w) →
  wp (reopen p) w (λ r w', r = Ok u ∧ settled d0 R p (World.disk w')).
Proof.
  intros Hr Hu Hq Hs. destruct (reopen_spec d0 R u (λ _, True) (salt_at (World.disk w)) [p] w Hr Hu) as (p' & Hp & Hw).
  - intros p1 p2 s1 s2 k1 k2 raw ->%list_elem_of_singleton ->%list_elem_of_singleton [S1 _] [S2 _] K1 K2 _ Hne.
    unfold kek_of in *. assert (s1 = s2) as -> by congruence. congruence.
  - done.
  - apply (settled_inv _ _ _ _ _ p); [by left|]. split; [done|by intros raw].
  - by apply list_elem_of_singleton in Hp as ->.
Qed.

(** C1: A change of passphrase is recoverable from a failure or crash at any call of the
    operating system, in a vault with passphrase custody and no unfinished transaction (after
    a rotation that was left unfinished it is not: [passphrase_change_loses_rotation]):
    whatever fails during the change, and however many later unlocks are tried and fail with
    whatever passphrases, one of the passphrases that were used opens the vault again with
    exactly the data keys it had, the transaction is then over, and no file outside the
    custody files has changed; this as long as the cipher refuses wrong keys, that is, no
    sealed key that the change left on disk opens under the keys of two of the passphrases
    that were used, with a salt that it left there.  When the change reports success, the new
    passphrase opens the vault, whatever the cipher does with wrong keys; it reports failure
    only under a failure of the system or for a stated reason. *)
Theorem passphrase_change_recoverable (h : VaultHandle.t) (root old new : string) (R : Ring.t) (u : Unwrapped.t)
    (w : World.t) (attempts : list (string * list Fs.fault)) :
  root_ok (World.disk w) → settled (World.disk w) R old (World.disk w) → Ring.load R = Some u →
  let '(w1, changed) := change_passphrase h root old new w in
  let w2 := World.with_faults (recover_attempts attempts w1) [] in
  (wrong_keys_refused (old :: new :: attempts.*1) (World.disk w1) →
   ∃ p, p ∈ old :: new :: attempts.*1 ∧
     wp (reopen p) w2 (λ reopened w3, reopened = Ok u ∧ no_journal (World.disk w3) ∧
       custody_frame (World.disk w) (World.disk w3))) ∧
  match changed with
  | Ok _ => (reopen new (World.with_faults w1 [])).2 = Ok u
  | Err _ => World.faults w ≠ [] ∨ change_refused h root new
  end.
Proof.
  intros Hr Hset Hu. set (ps := old :: new :: attempts.*1).
  assert (old ∈ ps ∧ new ∈ ps) as [Ho Hn] by (split; unfold ps; set_solver).
  pose proof (change_passphrase_spec _ R u Hr Hu (λ _, True) (λ _, True) (λ _, I) (λ _, I) ps h root old new w Hset Ho Hn) as Hc.
  apply triple_run in Hc. destruct (change_passphrase h root old new w) as [w1 changed]. cbn zeta. split.
  - intros Hw. assert (custody_inv (World.disk w) R (λ _, True) (λ _, True) ps (World.disk w1)) as Hinv%custody_inv_refined.
    { destruct changed as [[]|e]; [|apply Hc]. apply (settled_inv _ _ _ _ _ new); [done|]. split; [done|by intros raw]. }
    eapply (recover_attempts_inv _ _ _ _ _ _ attempts) in Hinv; [|done..|]; last first.
    { apply Forall_forall. intros [p fs] Hin. unfold ps. do 2 right. apply list_elem_of_fmap. by exists (p, fs). }
    destruct (reopen_spec _ R u _ _ ps (World.with_faults (recover_attempts attempts w1) []) Hr Hu Hw eq_refl Hinv)
      as (p & Hp & Hre).
    exists p. split; [done|]. eapply wp_mono; [exact Hre|]. intros r w3 [-> [[Hf _ _] Hj]]. done.
  - destruct changed as [[]|e].
    + by apply (settled_reopen _ _ _ _ (World.with_faults w1 []) Hr Hu eq_refl Hc).
    + destruct Hc as [Hx _]. destruct (World.faults w); [by right; apply Hx|by left].
Qed.
End passphrase.

(** ** A concrete vault *)

Lemma triple_quiet {E A : Type} (m : M E A) (w : World.t) Q R0 :
  triple False m w Q R0 → quiet w → ∃ v, (m w).2 = Ok v ∧ Q v (World.disk (m w).1).
Proof.
  unfold triple, wp. destruct (m w) as [w' [v|e]]; cbn; intros [_ H] Hq; [eauto|]. by destruct H as [[] _].
Qed.

Module LifecycleDemo.
Definition salt0 : list N := replicate 16 7%N.
Definition old_pass : string := "an old passphrase".
Definition new_pass : string := "another, newer passphrase".
Definition kek0 : MasterKey := pad32 (salt0 ++ str_bytes old_pass).
Definition dek0 : MasterKey := replicate 32 5%N.
Definition root0 : World.t :=
  World.mk (<[[SALT_FILENAME] := Fs.File salt0]> {[ [] := Directory ]}) ∅ [] ∅ 0 [].
(** A vault with passphrase custody and one data key. *)
Definition vault0 : World.t := (Keyring.create kek0 dek0 root0).1.
Definition ring0 : Ring.t := Ring.mk 1 1 [(1%N, dek0)].
Definition unwrapped0 : Unwrapped.t := Unwrapped.mk {[ 1%N := dek0 ]} 1.
Definition handle0 : VaultHandle.t :=
  VaultHandle.mk (Vault.mk {[ 1%N := dek0 ]} 1 dek0) CustodyMode.Passphrase dek0.

Lemma vault0_put : ring_put (World.disk root0) keyring_path kek0 ring0 (World.disk vault0).
Proof.
  destruct (triple_quiet (Keyring.create kek0 dek0) root0 _ _ (create_spec kek0 dek0 root0 _ eq_refl eq_refl
    ltac:(intros n; done) eq_refl) eq_refl) as (v & _ & Hp). exact Hp.
Qed.

Lemma vault0_root : root_ok (World.disk vault0).
Proof. destruct vault0_put as (raw & _ & ->). done. Qed.

Lemma vault0_settled (w : World.t) :
  World.disk w = World.disk vault0 → settled (World.disk w) ring0 old_pass (World.disk w).
Proof.
  intros ->. pose proof (ring_put_at _ _ _ _ _ vault0_put) as Hr. destruct vault0_put as (raw & _ & E). split; [split|].
  - done.
  - exists salt0, kek0. split; [by rewrite E|]. split; [by apply Forall_replicate|]. done.
  - rewrite E. by intros n.
  - by rewrite E.
Qed.

(** The vault when the eleventh call fails after taking effect, and when the thirty-seventh
    fails before. *)
Definition late_fault : World.t := World.with_faults vault0 (replicate 10 Fs.Done ++ [Fs.Fails 1 "no space"]).
Definition power_lost : World.t := World.with_faults vault0 (replicate 36 Fs.Done ++ [Fs.Fails 0 "power lost"]).
Definition add_op : keyring_op := AddActive (replicate 32 9%N).
Definition mistyped : list (string * list Fs.fault) := [("a mistyped passphrase", [])].

Lemma late_fault_root : root_ok (World.disk late_fault).
Proof. exact vault0_root. Qed.
Lemma late_fault_ring : ring_at (World.disk late_fault) keyring_path kek0 ring0.
Proof. exact (ring_put_at _ _ _ _ _ vault0_put). Qed.
Lemma power_lost_root : root_ok (World.disk power_lost).
Proof. exact vault0_root. Qed.
Lemma power_lost_settled : settled (World.disk power_lost) ring0 old_pass (World.disk power_lost).
Proof. apply vault0_settled. reflexivity. Qed.

(** A directory with nothing in it, and a vault created there. *)
Definition empty0 : World.t := World.mk ∅ ∅ [] ∅ 0 [].
Definition no_handle : VaultHandle.t := VaultHandle.mk (Vault.mk ∅ 0 []) CustodyMode.Recovery [].
Definition created : World.t * VaultHandle.t :=
  let '(w, r) := bootstrap CustodyMode.Passphrase (Some old_pass) empty0 in
  (w, match r with Ok b => BootstrapResult.handle b | Err _ => no_handle end).
Definition opens (pass : string) (w : World.t) : bool :=
  is_ok (unlock CustodyMode.Passphrase (Some pass) (World.with_faults w [])).2.
(** Two calls of a rotation fail: one of it, and one of the rollback that follows. *)
Definition rotation_faults : list Fs.fault :=
  replicate 81 Fs.Done ++ [Fs.Fails 1 "no space"] ++ replicate 25 Fs.Done ++ [Fs.Fails 0 "no space"].
Definition interrupted : World.t * VaultHandle.t * bool :=
  let '(w, h) := created in
  match rotate_key (E := unit) h "/vault" (Some old_pass) (World.with_faults w rotation_faults) with
  | (w', Ok (h', r)) => (World.with_faults w' [], h', is_ok r)
  | (w', Err _) => (World.with_faults w' [], h, false)
  end.
End LifecycleDemo.

Import LifecycleDemo.

(** Adding a data key, with a late failure. *)
Lemma keyring_refines_ring_witness :
  ring_step kek0 ring0 add_op = Some (kek0, Ring.mk 2 1 [(1%N, dek0); (2%N, replicate 32 9%N)]) ∧
  let '(w', r) := apply_keyring_op kek0 add_op late_fault in
  match ring_step kek0 ring0 add_op with
  | None => World.disk w' = World.disk late_fault ∧ ∃ e, r = Err e
  | Some (kek', R') =>
      (World.disk w' = World.disk late_fault ∨
         ring_put (World.disk late_fault) keyring_path kek' R' (World.disk w')) ∧
      match r with
      | Ok _ => ring_put (World.disk late_fault) keyring_path kek' R' (World.disk w')
      | Err _ => World.faults late_fault ≠ []
      end
  end.
Proof.
  split; [reflexivity|].
  pose proof (keyring_refines_ring kek0 ring0 add_op late_fault late_fault_root late_fault_ring) as H.
  exact (H eq_refl).
Defined.

(** The change meets a failure after the salt was replaced; a mistyped passphrase is tried
    before the vault is opened again. *)
Lemma passphrase_change_recoverable_witness :
  let '(w1, changed) := change_passphrase handle0 "/vault" old_pass new_pass power_lost in
  let w2 := World.with_faults (recover_attempts mistyped w1) [] in
  (∃ p, p ∈ old_pass :: new_pass :: mistyped.*1 ∧
     wp (reopen p) w2 (λ reopened w3, reopened = Ok unwrapped0 ∧ no_journal (World.disk w3) ∧
       custody_frame (World.disk power_lost) (World.disk w3))) ∧
  match changed with
  | Ok _ => (reopen new_pass (World.with_faults w1 [])).2 = Ok unwrapped0
  | Err _ => World.faults power_lost ≠ [] ∨ change_refused handle0 "/vault" new_pass
  end.
Proof.
  pose proof (passphrase_change_recoverable handle0 "/vault" old_pass new_pass ring0 unwrapped0 power_lost mistyped
                power_lost_root power_lost_settled eq_refl) as H.
  destruct (change_passphrase handle0 "/vault" old_pass new_pass power_lost) as [w1 changed]. cbv zeta in *.
  destruct H as [H1 H2]. split; [|exact H2]. apply H1. apply committing_refuses.
Defined.

(** Issuing a phrase for version 3. *)
Lemma recovery_phrase_restores_witness :
  let '(w1, issued) := issue_recovery_phrase_for_version dek0 3 vault0 in
  (∀ q, q ≠ [RECOVERY_FILE] → World.disk w1 !! q = World.disk vault0 !! q) ∧
  match issued with
  | Ok phrase =>
      let '(w2, restored) := restore_master_key_with_version phrase (World.with_faults w1 []) in
      restored = Ok (RecoveredMasterKey.mk dek0 (Some 3%N)) ∧ World.disk w2 = World.disk w1
  | Err _ => World.faults vault0 ≠ []
  end.
Proof.
  pose proof (recovery_phrase_restores dek0 3 vault0 vault0_root) as H.
  apply H; [vm_compute; discriminate|reflexivity|discriminate].
Defined.

(** A change of passphrase does not notice that a key rotation is unfinished, and loses
    it: when a rotation and its own rollback have both failed, the vault still opens with its
    passphrase, since unlocking completes the rollback; but changing the passphrase at that
    point reports success, and afterwards neither the new passphrase nor the old one opens
    the vault.  The journal of the rotation, which the recovery needed, has been overwritten. *)
Theorem passphrase_change_loses_rotation :
  let '(w, h, rotated) := interrupted in
  let '(w', changed) := change_passphrase h "/vault" old_pass new_pass w in
  rotated = false ∧ opens old_pass w = true ∧ is_ok changed = true ∧
  opens new_pass w' = false ∧ opens old_pass w' = false.
Proof. vm_compute. repeat split. Qed.
