(* ===== verification/Privacy.v ===== *)
(** * sv-privacy/src/lib.rs: detection and masking of personal data

    The seven detectors work on bytes; each is a loop [while i < b.len()] over the body that
    looks at one index ([Bytes.scan_while]).  A slice of a [str] that is not on character
    boundaries panics, which is [None] here; [Redaction] says that masking never does. *)
From S2P Require Import Prelude Bytes.

Module PiiCategory.
Inductive t := Email | Cpf | Cnpj | CreditCard | Ipv4 | Phone | Ssn.
#[global] Instance t_eq_dec : EqDecision t.
Proof. solve_decision. Defined.

Definition ALL : list t := [Cnpj; Cpf; CreditCard; Email; Ipv4; Phone; Ssn].

Definition label (self : t) : string :=
  match self with
  | Email => "EMAIL"
  | Cpf => "CPF"
  | Cnpj => "CNPJ"
  | CreditCard => "CREDIT_CARD"
  | Ipv4 => "IPV4"
  | Phone => "PHONE"
  | Ssn => "SSN"
  end.

Definition priority (self : t) : nat :=
  match self with
  | Cnpj => 6
  | Cpf => 5
  | CreditCard => 4
  | Email => 3
  | Ipv4 => 2
  | Phone => 1
  | Ssn => 2
  end.
End PiiCategory.

(** A [BTreeSet] of categories, of which only membership is used. *)
Module Policy.
Record t := mk { categories : list PiiCategory.t }.

Definition all : t := mk PiiCategory.ALL.

Definition only (categories : list PiiCategory.t) : t := mk categories.

Definition enabled (self : t) (category : PiiCategory.t) : bool :=
  bool_decide (category ∈ categories self).
End Policy.

Module Finding.
Record t := mk { category : PiiCategory.t; start : nat; end_ : nat }.
#[global] Instance t_eq_dec : EqDecision t.
Proof. solve_decision. Defined.
End Finding.

(** ** Byte-level character classes *)

Definition is_email_local (b : N) : bool :=
  is_ascii_alphanumeric b || bool_decide (b ∈ [ch "."; ch "_"; ch "%"; ch "+"; ch "-"]).

Definition is_email_domain (b : N) : bool :=
  is_ascii_alphanumeric b || bool_decide (b ∈ [ch "."; ch "-"]).

Definition is_number_boundary (b : option N) : bool :=
  match b with
  | None => true
  | Some c => negb (is_ascii_digit c) && negb (c =? ch ".")%N
  end.

Definition is_ssn_boundary (b : option N) : bool :=
  match b with
  | None => true
  | Some c => negb (is_ascii_digit c) && negb (c =? ch "-")%N
  end.

(** [i.checked_sub(1).map(|j| b[j])]. *)
Definition prev_byte (b : list N) (i : nat) : option N :=
  match i with O => None | S j => b !! j end.

(** ** Checksum validators *)

Fixpoint luhn_sum (double : bool) (rev_digits : list N) : N :=
  match rev_digits with
  | [] => 0
  | d :: ds =>
      let v := if double then (if (9 <? d * 2)%N then (d * 2 - 9)%N else (d * 2)%N) else d in
      (v + luhn_sum (negb double) ds)%N
  end.

Definition luhn_valid (digits : list N) : bool :=
  if length digits <? 2 then false else (luhn_sum false (reverse digits) mod 10 =? 0)%N.

(** [d.iter().all(|&x| x == d[0])]. *)
Definition all_equal (d : list N) : bool := forallb (λ x, (x =? default 0 (head d))%N) d.

(** The closure [check]: [sum += digit * (start_weight - k)] over the first [upto]. *)
Fixpoint weighted (start_weight : N) (d : list N) : N :=
  match d with [] => 0 | x :: d' => (x * start_weight + weighted (start_weight - 1) d')%N end.

Definition cpf_digit (d : list N) (upto : nat) (start_weight : N) : N :=
  let r := (weighted start_weight (take upto d) * 10 mod 11)%N in
  if (r =? 10)%N then 0%N else r.

Definition cpf_valid (d : list N) : bool :=
  if negb (length d =? 11) || all_equal d then false
  else bool_decide (d !! 9 = Some (cpf_digit d 9 10)) && bool_decide (d !! 10 = Some (cpf_digit d 10 11)).

Definition weights1 : list N := [5; 4; 3; 2; 9; 8; 7; 6; 5; 4; 3; 2]%N.
Definition weights2 : list N := [6; 5; 4; 3; 2; 9; 8; 7; 6; 5; 4; 3; 2]%N.

(** The closure [digit]: [sum += d[k] * w] over the weights. *)
Fixpoint dot (d weights : list N) : N :=
  match d, weights with x :: d', w :: ws => (x * w + dot d' ws)%N | _, _ => 0%N end.

Definition cnpj_digit (d weights : list N) : N :=
  let r := (dot d weights mod 11)%N in if (r <? 2)%N then 0%N else (11 - r)%N.

Definition cnpj_valid (d : list N) : bool :=
  if negb (length d =? 14) || all_equal d then false
  else bool_decide (d !! 12 = Some (cnpj_digit d weights1)) && bool_decide (d !! 13 = Some (cnpj_digit d weights2)).

(** ** Detectors: the body of each loop, at one index *)

(** [domain.iter().rposition(|&c| c == b'.')] and what follows it. *)
Fixpoint after_last_dot (l : list N) : option (list N) :=
  match l with
  | [] => None
  | c :: l' =>
      match after_last_dot l' with
      | Some tld => Some tld
      | None => if (c =? ch ".")%N then Some l' else None
      end
  end.

Definition valid_email_domain (domain : list N) : bool :=
  if bool_decide (domain = []) || bool_decide (head domain = Some (ch ".")) then false
  else match after_last_dot domain with
       | None => false
       | Some tld => (2 <=? length tld) && forallb is_ascii_alphabetic tld
       end.

Definition email_at (b : list N) (i : nat) : nat * list Finding.t :=
  if negb (bool_decide (b !! i = Some (ch "@"))) then (i + 1, [])
  else
    let start := back_while is_email_local 0 b i in
    let end_ := run_while is_email_domain b (i + 1) in
    let end_ := back_while (λ c, bool_decide (c ∈ [ch "."; ch "-"])) (i + 1) b end_ in
    (end_ `max` (i + 1),
     if (start <? i) && valid_email_domain (sub b (i + 1) end_)
     then [Finding.mk PiiCategory.Email start end_] else []).

Definition find_emails (b : list N) : list Finding.t := scan_while (length b) (email_at b).

(** A run of at most [k] digits: its value, its length and what follows. *)
Fixpoint octet_digits (k : nat) (l : list N) (val : N) (len : nat) : N * nat * list N :=
  match k, l with
  | S k', c :: l' => if is_ascii_digit c then octet_digits k' l' (val * 10 + (c - 48))%N (S len) else (val, len, l)
  | _, _ => (val, len, l)
  end.

(** The loop over [octets]: [k] octets are left, of the bytes [l] at [end_]. *)
Fixpoint ipv4_octets (k : nat) (l : list N) (end_ : nat) : option nat :=
  match k with
  | O => Some end_
  | S k' =>
      let '(val, len, rest) := octet_digits 3 l 0 0 in
      if (len =? 0) || (255 <? val)%N || ((1 <? len) && bool_decide (head l = Some (ch "0"))) then None
      else match k' with
           | O => Some (end_ + len)
           | S _ =>
               match rest with
               | c :: rest' => if (c =? ch ".")%N then ipv4_octets k' rest' (end_ + len + 1) else None
               | [] => None
               end
           end
  end.

Definition ipv4_at (b : list N) (i : nat) : nat * list Finding.t :=
  if negb (is_some_and (b !! i) is_ascii_digit) || negb (is_number_boundary (prev_byte b i)) then (i + 1, [])
  else match ipv4_octets 4 (drop i b) i with
       | Some end_ =>
           if is_number_boundary (b !! end_) then (end_, [Finding.mk PiiCategory.Ipv4 i end_]) else (i + 1, [])
       | None => (i + 1, [])
       end.

Definition find_ipv4 (b : list N) : list Finding.t := scan_while (length b) (ipv4_at b).

(** The loop of [collect_grouped_digits], on the bytes that are left. *)
Fixpoint collect_go (max : nat) (l digits : list N) (end_ : nat) : list N * nat :=
  match l with
  | [] => (digits, end_)
  | c :: l' =>
      if max <=? length digits then (digits, end_)
      else if is_ascii_digit c then collect_go max l' (digits ++ [(c - 48)%N]) (end_ + 1)
      else if bool_decide (c ∈ [ch " "; ch "."; ch "-"; ch "/"]) && is_some_and (head l') is_ascii_digit
              && negb (bool_decide (digits = []))
      then collect_go max l' digits (end_ + 1)
      else (digits, end_)
  end.

Definition collect_grouped_digits (b : list N) (i max : nat) : list N * nat := collect_go max (drop i b) [] i.

Definition checked_id_at (len : nat) (category : PiiCategory.t) (validate : list N → bool) (b : list N) (i : nat) :
    nat * list Finding.t :=
  if negb (is_some_and (b !! i) is_ascii_digit) || negb (is_number_boundary (prev_byte b i)) then (i + 1, [])
  else
    let '(digits, end_) := collect_grouped_digits b i len in
    if (length digits =? len) && is_number_boundary (b !! end_) && validate digits
    then (end_, [Finding.mk category i end_]) else (i + 1, []).

Definition find_checked_id (b : list N) (len : nat) (category : PiiCategory.t) (validate : list N → bool) :
    list Finding.t :=
  scan_while (length b) (checked_id_at len category validate b).

Definition find_cpf (b : list N) : list Finding.t := find_checked_id b 11 PiiCategory.Cpf cpf_valid.
Definition find_cnpj (b : list N) : list Finding.t := find_checked_id b 14 PiiCategory.Cnpj cnpj_valid.

Definition card_at (b : list N) (i : nat) : nat * list Finding.t :=
  if negb (is_some_and (b !! i) is_ascii_digit) || negb (is_number_boundary (prev_byte b i)) then (i + 1, [])
  else
    let '(digits, end_) := collect_grouped_digits b i 19 in
    if (13 <=? length digits) && (length digits <=? 19) && is_number_boundary (b !! end_) && luhn_valid digits
    then (end_, [Finding.mk PiiCategory.CreditCard i end_]) else (i + 1, []).

Definition find_credit_cards (b : list N) : list Finding.t := scan_while (length b) (card_at b).

(** The inner loop of [find_phones]: digits seen, whether a parenthesis closed, the end. *)
Fixpoint phone_run (l : list N) (digits : nat) (closed : bool) (end_ : nat) : nat * bool * nat :=
  match l with
  | [] => (digits, closed, end_)
  | c :: l' =>
      if is_ascii_digit c then phone_run l' (S digits) closed (end_ + 1)
      else if bool_decide (c ∈ [ch " "; ch "-"; ch "."; ch "("; ch ")"])
      then phone_run l' digits (closed || (c =? ch ")")%N) (end_ + 1)
      else (digits, closed, end_)
  end.

Definition phone_at (b : list N) (i : nat) : nat * list Finding.t :=
  match b !! i with
  | None => (i + 1, [])
  | Some lead =>
      if negb (lead =? ch "+")%N && negb (lead =? ch "(")%N then (i + 1, [])
      else if negb (is_number_boundary (prev_byte b i)) then (i + 1, [])
      else
        let '(digits, closed, end_) := phone_run (drop (i + 1) b) 0 false (i + 1) in
        let end_ := back_while (λ c, negb (is_ascii_digit c)) i b end_ in
        if (10 <=? digits) && (digits <=? 13) && (negb (lead =? ch "(")%N || closed)
        then (end_ `max` (i + 1), [Finding.mk PiiCategory.Phone i end_]) else (i + 1, [])
  end.

Definition find_phones (b : list N) : list Finding.t := scan_while (length b) (phone_at b).

(** [DDD-DD-DDDD]. *)
Definition ssn_shape (s : list N) : bool :=
  match s with
  | [s0; s1; s2; s3; s4; s5; s6; s7; s8; s9; s10] =>
      is_ascii_digit s0 && is_ascii_digit s1 && is_ascii_digit s2 && (s3 =? ch "-")%N
      && is_ascii_digit s4 && is_ascii_digit s5 && (s6 =? ch "-")%N
      && is_ascii_digit s7 && is_ascii_digit s8 && is_ascii_digit s9 && is_ascii_digit s10
  | _ => false
  end.

Definition ssn_at (b : list N) (i : nat) : nat * list Finding.t :=
  if negb (is_some_and (b !! i) is_ascii_digit) then (i + 1, [])
  else if negb (is_ssn_boundary (prev_byte b i)) then (i + 1, [])
  else if length b <? i + 11 then (i + 1, [])
  else if ssn_shape (sub b i (i + 11)) && is_ssn_boundary (b !! (i + 11))
  then (i + 11, [Finding.mk PiiCategory.Ssn i (i + 11)]) else (i + 1, []).

Definition find_ssns (b : list N) : list Finding.t := scan_while (length b) (ssn_at b).

(** ** Scanning and masking *)

(** [a] is not after [b]: by start, then by falling priority, then by falling length. *)
Definition finding_le (a b : Finding.t) : bool :=
  match Nat.compare (Finding.start a) (Finding.start b) with
  | Lt => true
  | Gt => false
  | Eq =>
      let pa := PiiCategory.priority (Finding.category a) in
      let pb := PiiCategory.priority (Finding.category b) in
      match Nat.compare pb pa with
      | Lt => true
      | Gt => false
      | Eq => Finding.end_ b - Finding.start b <=? Finding.end_ a - Finding.start a
      end
  end.

Fixpoint keep_disjoint (last_end : nat) (findings : list Finding.t) : list Finding.t :=
  match findings with
  | [] => []
  | f :: rest =>
      if last_end <=? Finding.start f then f :: keep_disjoint (Finding.end_ f) rest
      else keep_disjoint last_end rest
  end.

Definition resolve_overlaps (findings : list Finding.t) : list Finding.t :=
  keep_disjoint 0 (sort_by finding_le findings).

(** Everything the enabled detectors pushed, in order. *)
Definition scan_raw (b : list N) (policy : Policy.t) : list Finding.t :=
  let on category found := if Policy.enabled policy category then found else [] in
  on PiiCategory.Email (find_emails b) ++ on PiiCategory.Ipv4 (find_ipv4 b) ++ on PiiCategory.Cpf (find_cpf b)
  ++ on PiiCategory.Cnpj (find_cnpj b) ++ on PiiCategory.CreditCard (find_credit_cards b)
  ++ on PiiCategory.Phone (find_phones b) ++ on PiiCategory.Ssn (find_ssns b).

Definition scan (input : list N) (policy : Policy.t) : list Finding.t :=
  resolve_overlaps (scan_raw input policy).

Definition placeholder (category : PiiCategory.t) : list N :=
  str_bytes "[REDACTED:" ++ str_bytes (PiiCategory.label category) ++ str_bytes "]".

(** [apply] from [cursor] on; [None] when a slice panics. *)
Fixpoint apply_from (input : list N) (cursor : nat) (findings : list Finding.t) : option (list N) :=
  match findings with
  | [] => if cursor <? length input then str_slice input cursor (length input) else Some []
  | f :: rest =>
      match (if cursor <? Finding.start f then str_slice input cursor (Finding.start f) else Some []) with
      | None => None
      | Some gap =>
          match apply_from input (Finding.end_ f) rest with
          | None => None
          | Some out => Some (gap ++ placeholder (Finding.category f) ++ out)
          end
      end
  end.

Definition apply (input : list N) (findings : list Finding.t) : option (list N) := apply_from input 0 findings.

Module Redaction.
Record t := mk { output : list N; findings : list Finding.t }.

Definition count (self : t) : nat := length (findings self).
Definition is_clean (self : t) : bool := bool_decide (findings self = []).

Definition counts_by_category (self : t) : list (PiiCategory.t * nat) :=
  List.filter (λ cn, 0 <? cn.2)
    (map (λ c, (c, length (List.filter (λ f, bool_decide (Finding.category f = c)) (findings self)))) PiiCategory.ALL).
End Redaction.

Definition redact (input : list N) (policy : Policy.t) : option Redaction.t :=
  let findings := scan input policy in
  match apply input findings with
  | Some output => Some (Redaction.mk output findings)
  | None => None
  end.
