(* ===== verification/PrivacySpec.v ===== *)
(** * What the detectors of sv-privacy find, and what masking leaves

    Every detector advances at each turn of its loop, so it ends; what it pushes is a
    nonempty span of ASCII bytes.  [resolve_overlaps] keeps disjoint spans in order and drops
    a finding only for one it overlaps; masking replaces exactly the spans that are kept. *)
From Stdlib Require Import ZifyN ZifyNat ZifyBool.
From S2P Require Import Prelude Validators Bytes Privacy.

Definition is_ascii (c : N) : bool := (c <? 128)%N.

(** A nonempty span of the input, of ASCII bytes. *)
Definition span_ok (b : list N) (f : Finding.t) : Prop :=
  Finding.start f < Finding.end_ f ∧ Finding.end_ f ≤ length b ∧
  ∀ k, Finding.start f ≤ k → k < Finding.end_ f → is_some_and (b !! k) is_ascii = true.

(** What a body of a detector's loop promises: it advances, and pushes spans. *)
Definition body_ok (b : list N) (body : nat → nat * list Finding.t) : Prop :=
  ∀ i, i < length b → i < (body i).1 ∧ Forall (span_ok b) (body i).2.

(** ** Character classes are ASCII *)

Ltac byte_cases :=
  unfold is_ascii_alphanumeric, is_ascii_alphabetic, is_ascii_uppercase, is_ascii_lowercase, is_ascii_digit, is_ascii in *;
  rewrite ?orb_true_iff, ?andb_true_iff, ?N.leb_le, ?N.ltb_lt, ?bool_decide_eq_true, ?elem_of_cons, ?elem_of_nil in *.

Lemma digit_ascii c : is_ascii_digit c = true → is_ascii c = true.
Proof. byte_cases. lia. Qed.

Lemma local_ascii c : is_email_local c = true → is_ascii c = true.
Proof. unfold is_email_local, ch. byte_cases. cbn. lia. Qed.

Lemma domain_ascii c : is_email_domain c = true → is_ascii c = true.
Proof. unfold is_email_domain, ch. byte_cases. cbn. lia. Qed.

Lemma ascii_byte (b : list N) i c : b !! i = Some c → is_ascii c = true → is_some_and (b !! i) is_ascii = true.
Proof. intros -> H. exact H. Qed.

(** ** The detectors *)

Lemma email_ok b : body_ok b (email_at b).
Proof.
  intros i Hi. unfold email_at. case_bool_decide as Hat; simpl; [|split; [lia|constructor]].
  set (e0 := run_while is_email_domain b (i + 1)).
  set (e := back_while _ (i + 1) b e0). set (s := back_while is_email_local 0 b i).
  assert (i + 1 ≤ e0 ∧ e0 ≤ length b) as [H1 H2] by (split; [apply run_while_ge|apply run_while_le; lia]).
  assert (i + 1 ≤ e ∧ e ≤ e0) as [H3 H4] by (split; [by apply back_while_ge|apply back_while_le]).
  split; [lia|]. destruct (_ && _) eqn:E; [|constructor]. apply andb_true_iff in E as [E _]. apply Nat.ltb_lt in E.
  constructor; [|constructor]. split_and!; simpl; [lia..|]. intros k Hk1 Hk2.
  destruct (decide (k < i)) as [?|?]; [|destruct (decide (k = i)) as [->|?]].
  - destruct (back_while_run _ _ _ _ _ Hk1) as (c & -> & Hc); [done|]. by apply local_ascii.
  - by rewrite Hat.
  - destruct (run_while_run is_email_domain b (i + 1) k) as (c & -> & Hc); [lia|unfold e0 in *; lia|].
    by apply domain_ascii.
Qed.

Lemma octet_digits_spec k l val len :
  let '(v, n, rest) := octet_digits k l val len in
  ∃ ds, l = ds ++ rest ∧ n = len + length ds ∧ length ds ≤ k ∧ Forall (λ c, is_ascii_digit c = true) ds ∧
    (length ds < k → is_some_and (head rest) is_ascii_digit = false) ∧
    v = fold_left (λ a c, a * 10 + (c - 48))%N ds val.
Proof.
  revert l val len. induction k as [|k IH]; intros l val len; simpl.
  { exists []. split_and!; [done|simpl; lia|simpl; lia|constructor|simpl; lia|done]. }
  destruct l as [|c l]; [exists []; split_and!; [done|simpl; lia|simpl; lia|constructor|done|done]|].
  destruct (is_ascii_digit c) eqn:E.
  - specialize (IH l (val * 10 + (c - 48))%N (S len)). destruct (octet_digits k l _ _) as [[v n] rest].
    destruct IH as (ds & -> & -> & Hk & Hf & Hs & ->). exists (c :: ds).
    split_and!; [done|simpl; lia|simpl; lia|by constructor| |done]. simpl. intros. apply Hs. lia.
  - exists []. split_and!; [done|simpl; lia|simpl; lia|constructor|by intros _|done].
Qed.

Lemma drop_lookup_app {A} (b ds rest : list A) i k :
  drop i b = ds ++ rest → k < length ds → b !! (i + k) = ds !! k.
Proof. intros E H. by rewrite <-lookup_drop, E, lookup_app_l. Qed.

Lemma drop_shift {A} (b ds rest : list A) i : drop i b = ds ++ rest → drop (i + length ds) b = rest.
Proof. intros E. by rewrite <-drop_drop, E, drop_app_length. Qed.

Lemma octets_span b k e e' :
  ipv4_octets k (drop e b) e = Some e' → 0 < k →
  e < e' ∧ e' ≤ length b ∧
  ∀ j, e ≤ j → j < e' → is_some_and (b !! j) (λ c, is_ascii_digit c || (c =? ch ".")%N) = true.
Proof.
  revert e. induction k as [|k IH]; intros e; [lia|]. cbn [ipv4_octets].
  pose proof (octet_digits_spec 3 (drop e b) 0 0) as Ho. destruct (octet_digits 3 (drop e b) 0 0) as [[v n] rest].
  destruct Ho as (ds & E & -> & _ & Hds & _ & _). destruct (_ || _ || _) eqn:Hbad; [done|].
  rewrite !orb_false_iff in Hbad. destruct Hbad as [[Hn _] _]. apply Nat.eqb_neq in Hn. simpl in Hn. rewrite Nat.add_0_l.
  assert (∀ j, e ≤ j → j < e + length ds → is_some_and (b !! j) (λ c, is_ascii_digit c || (c =? ch ".")%N) = true) as Hdig.
  { intros j H1 H2. replace j with (e + (j - e)) by lia. rewrite (drop_lookup_app _ _ _ _ _ E) by lia.
    destruct (lookup_lt_is_Some_2 ds (j - e)) as [c Hc]; [lia|]. rewrite Hc. simpl.
    eapply Forall_lookup_1 in Hds; [|exact Hc]. by rewrite Hds. }
  assert (e + length ds + length rest = length b) as Hlen.
  { pose proof (f_equal length E) as H. rewrite length_drop, length_app in H. lia. }
  destruct k as [|k].
  - intros [= <-] _. split_and!; [lia..|done].
  - destruct rest as [|c rest]; [done|]. destruct (c =? ch ".")%N eqn:Ec; [|done]. intros Hrec _.
    assert (drop (e + length ds) b = c :: rest) as Ed by (by apply drop_shift).
    replace (e + length ds + 1) with (S (e + length ds)) in Hrec by lia.
    replace rest with (drop (S (e + length ds)) b) in Hrec
      by (replace (S (e + length ds)) with (e + length ds + 1) by lia; by rewrite <-drop_drop, Ed).
    destruct (IH _ Hrec) as (H1 & H2 & H3); [lia|]. split_and!; [lia|done|]. intros j Hj1 Hj2.
    destruct (decide (j < e + length ds)); [by apply Hdig|]. destruct (decide (j = e + length ds)) as [->|].
    + pose proof (lookup_drop b (e + length ds) 0) as Hx. rewrite Ed, Nat.add_0_r in Hx. rewrite <-Hx. unfold is_some_and, lookup, list_lookup. cbn beta iota.
      by rewrite Ec, orb_true_r.
    + apply H3; lia.
Qed.

Lemma digit_dot_ascii (b : list N) k :
  is_some_and (b !! k) (λ c, is_ascii_digit c || (c =? ch ".")%N) = true → is_some_and (b !! k) is_ascii = true.
Proof.
  rewrite !is_some_and_true. intros (c & E & Hc). exists c. split; [done|].
  apply orb_true_iff in Hc as [Hc|Hc]; [by apply digit_ascii|]. apply N.eqb_eq in Hc as ->. done.
Qed.

Lemma ipv4_ok b : body_ok b (ipv4_at b).
Proof.
  intros i Hi. unfold ipv4_at. destruct (_ || _); cbn [fst snd]; [split; [lia|constructor]|].
  destruct (ipv4_octets 4 (drop i b) i) as [e|] eqn:E; cbn [fst snd]; [|split; [lia|constructor]].
  destruct (is_number_boundary _); cbn [fst snd]; [|split; [lia|constructor]].
  destruct (octets_span _ _ _ _ E) as (H1 & H2 & H3); [lia|]. split; [done|]. constructor; [|constructor].
  split_and!; [done..|]. intros k Hk1 Hk2. by apply digit_dot_ascii, H3.
Qed.

(** The digits collected and the bytes passed over. *)
Lemma collect_span b max e ds e0 :
  e0 + (e - e0) = e → e ≤ length b →
  let '(digits, e') := collect_go max (drop e b) ds e in
  e ≤ e' ∧ e' ≤ length b ∧ length digits ≤ length ds + (e' - e) ∧ (length ds < length digits → e < e') ∧
  ∀ j, e ≤ j → j < e' → is_some_and (b !! j) is_ascii = true.
Proof.
  intros _. remember (length b - e) as n eqn:Hn. revert e ds Hn. induction n as [|n IH]; intros e ds Hn He.
  { rewrite drop_ge by lia. simpl. split_and!; [lia..|]. intros. lia. }
  destruct (lookup_lt_is_Some_2 b e) as [c Hc]; [lia|]. rewrite (drop_S _ _ _ Hc). cbn [collect_go].
  destruct (max <=? length ds); [split_and!; [lia..|intros; lia]|].
  destruct (is_ascii_digit c) eqn:Ed.
  - replace (e + 1) with (S e) by lia. specialize (IH (S e) (ds ++ [(c - 48)%N])).
    destruct (collect_go max (drop (S e) b) _ _) as [digits e']. destruct IH as (H1 & H2 & H3 & H4 & H5); [lia..|].
    rewrite length_app in H3, H4. simpl in H3, H4. split_and!; [lia..|]. intros j Hj1 Hj2.
    destruct (decide (j = e)) as [->|]; [|apply H5; lia]. eapply ascii_byte; [done|]. by apply digit_ascii.
  - destruct (_ && _ && _) eqn:Es; [|split_and!; [lia..|intros; lia]].
    replace (e + 1) with (S e) by lia. specialize (IH (S e) ds).
    destruct (collect_go max (drop (S e) b) _ _) as [digits e']. destruct IH as (H1 & H2 & H3 & H4 & H5); [lia..|].
    split_and!; [lia..|]. intros j Hj1 Hj2. destruct (decide (j = e)) as [->|]; [|apply H5; lia].
    rewrite !andb_true_iff in Es. destruct Es as [[Es _] _]. eapply ascii_byte; [done|]. revert Es. unfold ch.
    byte_cases. cbn. lia.
Qed.

Lemma grouped_span b i max digits e :
  i < length b → collect_grouped_digits b i max = (digits, e) → 0 < length digits →
  span_ok b (Finding.mk PiiCategory.Cpf i e).
Proof.
  intros Hi E Hd. pose proof (collect_span b max i [] i) as H. unfold collect_grouped_digits in E. rewrite E in H.
  destruct H as (H1 & H2 & _ & H4 & H5); [lia..|]. split_and!; simpl in *; [auto..|]. intros. by apply H5.
Qed.

Lemma checked_id_ok b len category validate : 0 < len → body_ok b (checked_id_at len category validate b).
Proof.
  intros Hlen i Hi. unfold checked_id_at. destruct (_ || _); cbn [fst snd]; [split; [lia|constructor]|].
  destruct (collect_grouped_digits b i len) as [digits e] eqn:E.
  destruct (_ && _ && _) eqn:H; cbn [fst snd]; [|split; [lia|constructor]].
  rewrite !andb_true_iff, Nat.eqb_eq in H. destruct H as [[H _] _].
  destruct (grouped_span b i len digits e Hi E) as (H1 & H2 & H3); [lia|]. split; [exact H1|].
  constructor; [by split_and!|constructor].
Qed.

Lemma card_ok b : body_ok b (card_at b).
Proof.
  intros i Hi. unfold card_at. destruct (_ || _); cbn [fst snd]; [split; [lia|constructor]|].
  destruct (collect_grouped_digits b i 19) as [digits e] eqn:E.
  destruct (_ && _ && _ && _) eqn:H; cbn [fst snd]; [|split; [lia|constructor]].
  rewrite !andb_true_iff, !Nat.leb_le in H. destruct H as [[[H _] _] _].
  destruct (grouped_span b i 19 digits e Hi E) as (H1 & H2 & H3); [lia|]. split; [exact H1|].
  constructor; [by split_and!|constructor].
Qed.

Lemma phone_span b e n closed :
  e ≤ length b →
  let '(digits, _, e') := phone_run (drop e b) n closed e in
  e ≤ e' ∧ e' ≤ length b ∧ n ≤ digits ∧
  (n < digits → ∃ j, e ≤ j ∧ j < e' ∧ is_some_and (b !! j) is_ascii_digit = true) ∧
  ∀ j, e ≤ j → j < e' → is_some_and (b !! j) is_ascii = true.
Proof.
  remember (length b - e) as m eqn:Hm. revert e n closed Hm. induction m as [|m IH]; intros e n closed Hm He.
  { rewrite drop_ge by lia. simpl. split_and!; [lia..|intros; lia]. }
  destruct (lookup_lt_is_Some_2 b e) as [c Hc]; [lia|]. rewrite (drop_S _ _ _ Hc). cbn [phone_run].
  destruct (is_ascii_digit c) eqn:Ed; [|case_bool_decide as Es; [|split_and!; [lia..|intros; lia]]];
    replace (e + 1) with (S e) by lia.
  - specialize (IH (S e) (S n) closed). destruct (phone_run (drop (S e) b) _ _ _) as [[digits cl] e'].
    destruct IH as (H1 & H2 & H3 & H4 & H5); [lia..|]. split_and!; [lia..| |].
    + intros _. exists e. split_and!; [lia..|]. by rewrite Hc.
    + intros j Hj1 Hj2. destruct (decide (j = e)) as [->|]; [|apply H5; lia].
      eapply ascii_byte; [done|]. by apply digit_ascii.
  - specialize (IH (S e) n (closed || (c =? ch ")")%N)).
    destruct (phone_run (drop (S e) b) _ _ _) as [[digits cl] e']. destruct IH as (H1 & H2 & H3 & H4 & H5); [lia..|].
    split_and!; [lia..| |].
    + intros Hd. destruct (H4 Hd) as (j & Hj1 & Hj2 & Hj3). exists j. split_and!; [lia..|done].
    + intros j Hj1 Hj2. destruct (decide (j = e)) as [->|]; [|apply H5; lia].
      eapply ascii_byte; [done|]. revert Es. unfold ch. byte_cases. cbn. lia.
Qed.

Lemma back_while_keeps p lo (b : list N) i j :
  is_some_and (b !! j) p = false → lo ≤ j → j < i → j < back_while p lo b i.
Proof.
  intros Hj Hlo Hi. destruct (decide (j < back_while p lo b i)) as [?|Hn]; [done|]. exfalso.
  destruct (back_while_run p lo b i j) as (c & E & Hc); [lia|done|]. rewrite E in Hj. simpl in Hj. by rewrite Hc in Hj.
Qed.

Lemma phone_ok b : body_ok b (phone_at b).
Proof.
  intros i Hi. unfold phone_at. destruct (b !! i) as [lead|] eqn:El; cbn [fst snd]; [|split; [lia|constructor]].
  destruct (negb _ && negb _) eqn:Hlead; cbn [fst snd]; [split; [lia|constructor]|].
  destruct (negb (is_number_boundary _)); cbn [fst snd]; [split; [lia|constructor]|].
  pose proof (phone_span b (i + 1) 0 false) as Hp. destruct (phone_run (drop (i + 1) b) 0 false (i + 1)) as [[digits cl] e].
  destruct Hp as (H1 & H2 & _ & H4 & H5); [lia|]. destruct (_ && _ && _) eqn:H; cbn [fst snd]; [|split; [lia|constructor]].
  split; [lia|]. rewrite !andb_true_iff, !Nat.leb_le in H. destruct H as [[H _] _].
  destruct H4 as (j & Hj1 & Hj2 & Hj3); [lia|].
  set (e' := back_while (λ c, negb (is_ascii_digit c)) i b e).
  assert (j < e') as Hje.
  { apply back_while_keeps; [|lia..]. apply is_some_and_true in Hj3 as (c & -> & Hc). simpl. by rewrite Hc. }
  pose proof (back_while_le (λ c, negb (is_ascii_digit c)) i b e) as Hle. fold e' in Hle |- *. clearbody e'.
  constructor; [|constructor]. split_and!; simpl; [lia..|]. intros k Hk1 Hk2.
  destruct (decide (k = i)) as [->|]; [|apply H5; lia].
  eapply ascii_byte; [done|]. apply andb_false_iff in Hlead as [Hl|Hl]; apply negb_false_iff, N.eqb_eq in Hl as ->; done.
Qed.

Lemma ssn_shape_digits (s : list N) k :
  ssn_shape s = true → k < 11 → is_some_and (s !! k) (λ c, is_ascii_digit c || (c =? ch "-")%N) = true.
Proof.
  intros Hs Hk. do 11 (destruct s as [|? s]; [done|]). destruct s; [|done]. cbn in Hs. rewrite !andb_true_iff in Hs.
  destruct_and!. do 11 (destruct k as [|k]; [simpl; rewrite ?orb_true_iff; auto|]). lia.
Qed.

Lemma ssn_ok b : body_ok b (ssn_at b).
Proof.
  intros i Hi. unfold ssn_at. destruct (negb (is_some_and _ _)); cbn [fst snd]; [split; [lia|constructor]|].
  destruct (negb (is_ssn_boundary _)); cbn [fst snd]; [split; [lia|constructor]|]. destruct (length b <? i + 11) eqn:Hlen; cbn [fst snd]; [split; [lia|constructor]|].
  apply Nat.ltb_ge in Hlen. destruct (_ && _) eqn:H; cbn [fst snd]; [|split; [lia|constructor]].
  split; [lia|]. apply andb_true_iff in H as [H _]. constructor; [|constructor]. split_and!; simpl; [lia..|].
  intros k Hk1 Hk2. pose proof (ssn_shape_digits _ (k - i) H) as Hd. rewrite sub_lookup in Hd by lia.
  replace (i + (k - i)) with k in Hd by lia. specialize (Hd ltac:(lia)).
  apply is_some_and_true in Hd as (c & -> & Hc). simpl. apply orb_true_iff in Hc as [Hc|Hc]; [by apply digit_ascii|].
  by apply N.eqb_eq in Hc as ->.
Qed.

(** ** Every loop ends *)

(** The detectors with their loops' bodies. *)
Definition detectors (b : list N) : list (nat → nat * list Finding.t) :=
  [email_at b; ipv4_at b; checked_id_at 11 PiiCategory.Cpf cpf_valid b;
   checked_id_at 14 PiiCategory.Cnpj cnpj_valid b; card_at b; phone_at b; ssn_at b].

Lemma detectors_ok b : Forall (body_ok b) (detectors b).
Proof.
  unfold detectors. repeat (apply Forall_cons_2); [..|constructor];
    auto using email_ok, ipv4_ok, card_ok, phone_ok, ssn_ok, checked_id_ok, Nat.lt_0_succ.
Qed.

Lemma body_ok_scan b body : body_ok b body → Forall (span_ok b) (scan_while (length b) body).
Proof.
  intros H. apply Forall_forall. intros f Hf.
  apply elem_of_scan_while in Hf as (j & Hj & Hf); [|intros i Hi; by apply H].
  destruct (H j Hj) as [_ Hall]. by eapply Forall_forall in Hall.
Qed.

(** Every detector ends on every input: its loop [while i < b.len()], whose index moves by
    the length of a match or by one, runs out within one turn for each byte that is left,
    wherever it starts, and any larger bound on the number of turns gives the same findings. *)
Theorem detectors_terminate (b : list N) (body : nat → nat * list Finding.t) (i fuel : nat) :
  body ∈ detectors b → length b - i ≤ fuel →
  ∃ found, while_lt fuel (length b) body i = Some found ∧
    ∀ more, fuel ≤ more → while_lt more (length b) body i = Some found.
Proof.
  intros Hin Hfuel. pose proof (detectors_ok b) as H. rewrite Forall_forall in H. specialize (H _ Hin).
  destruct (while_lt_total (length b) body (λ i Hi, proj1 (H i Hi)) fuel i Hfuel) as [found Hf].
  exists found. split; [done|]. intros more Hm. by eapply while_lt_more.
Qed.

Lemma detectors_terminate_witness :
  ∃ found, while_lt 3 3 (email_at (str_bytes "a@b")) 0 = Some found ∧
    ∀ more, 3 ≤ more → while_lt more 3 (email_at (str_bytes "a@b")) 0 = Some found.
Proof. apply (detectors_terminate (str_bytes "a@b") (email_at (str_bytes "a@b")) 0 3); [left|simpl; lia]. Defined.

Lemma scan_raw_ok b policy : Forall (span_ok b) (scan_raw b policy).
Proof.
  pose proof (detectors_ok b) as H. unfold detectors in H. rewrite !Forall_cons in H. destruct_and!.
  unfold scan_raw. rewrite !Forall_app. split_and!; destruct (Policy.enabled _ _); try constructor;
    by apply body_ok_scan.
Qed.

(** ** Overlaps *)

Definition overlaps (f g : Finding.t) : Prop :=
  Finding.start f < Finding.end_ g ∧ Finding.start g < Finding.end_ f.

Lemma finding_le_spec a b :
  finding_le a b = true ↔
  Finding.start a < Finding.start b ∨
  Finding.start a = Finding.start b ∧
    (PiiCategory.priority (Finding.category b) < PiiCategory.priority (Finding.category a) ∨
     PiiCategory.priority (Finding.category b) = PiiCategory.priority (Finding.category a) ∧
     Finding.end_ b - Finding.start b ≤ Finding.end_ a - Finding.start a).
Proof.
  unfold finding_le. destruct (Nat.compare_spec (Finding.start a) (Finding.start b)); [|split; [auto|done]|split; [done|lia]].
  cbn zeta. destruct (Nat.compare_spec (PiiCategory.priority (Finding.category b)) (PiiCategory.priority (Finding.category a)));
    [rewrite Nat.leb_le|split; [auto|done]|split; [done|]]; lia.
Qed.

Lemma sorted_by_start l :
  StronglySorted (λ a b, Finding.start a ≤ Finding.start b) (sort_by finding_le l).
Proof.
  eapply StronglySorted_mono; [|apply sort_by_sorted].
  - cbn beta. intros a b. rewrite finding_le_spec. lia.
  - intros a b. rewrite !finding_le_spec. lia.
  - intros a b c. rewrite !finding_le_spec. lia.
Qed.

(** What is kept from [last] on: spans in order, each after the last, and a dropped finding
    overlaps one that is kept. *)
Lemma keep_disjoint_spec (b : list N) last l :
  Forall (span_ok b) l → StronglySorted (λ a b, Finding.start a ≤ Finding.start b) l →
  let kept := keep_disjoint last l in
  (∀ f, f ∈ kept → f ∈ l ∧ last ≤ Finding.start f) ∧
  StronglySorted (λ f g, Finding.end_ f ≤ Finding.start g) kept ∧
  ∀ f, f ∈ l → Finding.start f < last ∨ ∃ g, g ∈ kept ∧ overlaps f g.
Proof.
  intros Hok Hs. revert last. induction Hs as [|f l Hs IH Hf]; intros last kept; subst kept; cbn [keep_disjoint].
  { split_and!; [intros f Hf; by apply elem_of_nil in Hf|constructor|intros f Hf; by apply elem_of_nil in Hf]. }
  apply Forall_cons in Hok as [Hfok Hok]. specialize (IH Hok). destruct Hfok as (Hfe & _ & _).
  destruct (last <=? Finding.start f) eqn:E.
  - apply Nat.leb_le in E. destruct (IH (Finding.end_ f)) as (H1 & H2 & H3). split_and!.
    + intros g [->|Hg]%elem_of_cons; [split; [left|done]|]. destruct (H1 g Hg) as [? ?]. split; [by right|lia].
    + constructor; [done|]. apply Forall_forall. intros g Hg. by apply H1.
    + intros g [->|Hg]%elem_of_cons.
      * right. exists f. split; [left|]. by split.
      * right. destruct (H3 g Hg) as [Hlt|(k & Hk & Ho)]; [|exists k; split; [by right|done]].
        exists f. split; [left|]. rewrite Forall_forall in Hf, Hok. specialize (Hf g Hg). destruct (Hok g Hg) as (? & _).
        split; lia.
  - apply Nat.leb_gt in E. destruct (IH last) as (H1 & H2 & H3). split_and!; [|done|].
    + intros g Hg. destruct (H1 g Hg). split; [by right|done].
    + intros g [->|Hg]%elem_of_cons; [by left|]. by apply H3.
Qed.

(** ** Masking *)

(** [g0 ++ x1 ++ g1 ++ ... ++ xn ++ gn]. *)
Fixpoint weave (gaps xs : list (list N)) : list N :=
  match gaps, xs with
  | g :: gaps', x :: xs' => g ++ x ++ weave gaps' xs'
  | g :: _, [] => g
  | [], _ => []
  end.

Definition text_of (b : list N) (f : Finding.t) : list N := sub b (Finding.start f) (Finding.end_ f).

Lemma span_bounds b f :
  utf8 b → span_ok b f →
  is_char_boundary b (Finding.start f) = true ∧ is_char_boundary b (Finding.end_ f) = true.
Proof.
  intros Hb (H1 & H2 & H3). split.
  - pose proof (H3 (Finding.start f)) as H. apply is_some_and_true in H as (c & E & Hc); [|lia..].
    apply boundary_at with c; [done|]. unfold is_ascii, is_continuation in *. apply N.ltb_lt in Hc.
    apply andb_false_iff. left. apply N.leb_gt. lia.
  - pose proof (H3 (Finding.end_ f - 1)) as H. apply is_some_and_true in H as (c & E & Hc); [|lia..].
    replace (Finding.end_ f) with (S (Finding.end_ f - 1)) by lia. apply (utf8_after_ascii b _ c); [done..|].
    by apply N.ltb_lt in Hc.
Qed.

Lemma apply_spec b cursor fs :
  utf8 b → is_char_boundary b cursor = true → Forall (span_ok b) fs →
  (∀ f, f ∈ fs → cursor ≤ Finding.start f) → StronglySorted (λ f g, Finding.end_ f ≤ Finding.start g) fs →
  ∃ out gaps, apply_from b cursor fs = Some out ∧ length gaps = S (length fs) ∧
    sub b cursor (length b) = weave gaps (text_of b <$> fs) ∧
    out = weave gaps ((placeholder ∘ Finding.category) <$> fs).
Proof.
  intros Hb. revert cursor. induction fs as [|f fs IH]; intros cursor Hc Hok Hge Hs; cbn [apply_from].
  - pose proof (boundary_le _ _ Hc) as Hle. destruct (cursor <? length b) eqn:E.
    + apply Nat.ltb_lt in E. rewrite str_slice_ok by (auto using boundary_len; lia).
      exists (sub b cursor (length b)), [sub b cursor (length b)]. done.
    + apply Nat.ltb_ge in E. exists [], [[]]. split_and!; [done|done| |done]. by rewrite sub_empty.
  - apply Forall_cons in Hok as [Hf Hok]. apply StronglySorted_inv in Hs as [Hs Hall].
    destruct (span_bounds b f Hb Hf) as [B1 B2]. destruct Hf as (F1 & F2 & _).
    assert (cursor ≤ Finding.start f) as Hcf by (apply Hge; left).
    destruct (IH (Finding.end_ f) B2 Hok) as (out & gaps & E & Hlen & Hin & Hout); [|done|].
    { rewrite Forall_forall in Hall. exact Hall. }
    set (gap := sub b cursor (Finding.start f)).
    assert ((if cursor <? Finding.start f then str_slice b cursor (Finding.start f) else Some []) = Some gap) as ->.
    { destruct (cursor <? Finding.start f) eqn:Ec; [by apply str_slice_ok|]. apply Nat.ltb_ge in Ec. subst gap.
      by rewrite sub_empty. }
    rewrite E. exists (gap ++ placeholder (Finding.category f) ++ out), (gap :: gaps).
    split_and!; [done|simpl; lia| |].
    + cbn. rewrite <-Hin. unfold text_of. subst gap. rewrite app_assoc, !sub_app by lia. done.
    + cbn. by rewrite Hout.
Qed.

(** C33: Masking is total, exact and complete.  On every UTF-8 text and under every policy,
    [redact] returns (no slice panics); the findings it reports are nonempty, in bounds, in
    document order and disjoint; the output is the text with exactly those spans replaced by
    the placeholder of their category and every other byte kept; and whatever an enabled
    detector found overlaps a span that was masked. *)
Theorem redact_masks (input : list N) (policy : Policy.t) :
  utf8_valid input = true →
  ∃ r gaps, redact input policy = Some r ∧
    let fs := Redaction.findings r in
    Forall (span_ok input) fs ∧ StronglySorted (λ f g, Finding.end_ f ≤ Finding.start g) fs ∧
    length gaps = S (length fs) ∧
    input = weave gaps (text_of input <$> fs) ∧
    Redaction.output r = weave gaps ((placeholder ∘ Finding.category) <$> fs) ∧
    ∀ f, f ∈ scan_raw input policy → ∃ g, g ∈ fs ∧ overlaps f g.
Proof.
  intros Hu%utf8_of_valid. set (raw := scan_raw input policy).
  pose proof (scan_raw_ok input policy) as Hraw. fold raw in Hraw.
  assert (Forall (span_ok input) (sort_by finding_le raw)) as Hsort by (by rewrite sort_by_perm).
  destruct (keep_disjoint_spec input 0 _ Hsort (sorted_by_start raw)) as (H1 & H2 & H3).
  assert (Forall (span_ok input) (scan input policy)) as Hfs.
  { apply Forall_forall. intros f Hf. destruct (H1 f Hf) as [Hin _]. by eapply Forall_forall in Hsort. }
  destruct (apply_spec input 0 (scan input policy) Hu (boundary_0 _) Hfs) as (out & gaps & E & Hlen & Hin & Hout);
    [intros; lia|exact H2|].
  exists (Redaction.mk out (scan input policy)), gaps. rewrite sub_all in Hin. unfold redact, apply. rewrite E.
  split_and!; [done..|]. intros f Hf. destruct (H3 f) as [?|?]; [by rewrite sort_by_perm|lia|done].
Qed.

Lemma redact_masks_witness :
  ∃ r gaps, redact (str_bytes "to a@b.com.") Policy.all = Some r ∧
    let fs := Redaction.findings r in
    Forall (span_ok (str_bytes "to a@b.com.")) fs ∧ StronglySorted (λ f g, Finding.end_ f ≤ Finding.start g) fs ∧
    length gaps = S (length fs) ∧
    str_bytes "to a@b.com." = weave gaps (text_of (str_bytes "to a@b.com.") <$> fs) ∧
    Redaction.output r = weave gaps ((placeholder ∘ Finding.category) <$> fs) ∧
    ∀ f, f ∈ scan_raw (str_bytes "to a@b.com.") Policy.all → ∃ g, g ∈ fs ∧ overlaps f g.
Proof. apply (redact_masks (str_bytes "to a@b.com.") Policy.all). reflexivity. Defined.

(** * sv-privacy: exact detectors, and checksums shared with the pattern packs

    The detectors of IPv4 addresses and social security numbers find exactly the delimited
    occurrences of the printed form; the checksums that sv-privacy repeats agree with those of
    sv-patterns. *)
Ltac Zify.zify_post_hook ::= Z.div_mod_to_equations.

(** ** Social security numbers *)

Definition digits_of (n : nat) (s : list N) : Prop := length s = n ∧ Forall (λ c, is_ascii_digit c = true) s.

(** [DDD-DD-DDDD] at [i], with neither a digit nor a hyphen on either side. *)
Definition ssn_here (b : list N) (i : nat) : Prop :=
  (∃ area group serial, digits_of 3 area ∧ digits_of 2 group ∧ digits_of 4 serial ∧
     sub b i (i + 11) = area ++ [ch "-"] ++ group ++ [ch "-"] ++ serial) ∧
  is_ssn_boundary (prev_byte b i) = true ∧ is_ssn_boundary (b !! (i + 11)) = true.

Lemma ssn_shape_spec s :
  ssn_shape s = true ↔
  ∃ area group serial, digits_of 3 area ∧ digits_of 2 group ∧ digits_of 4 serial ∧
    s = area ++ [ch "-"] ++ group ++ [ch "-"] ++ serial.
Proof.
  split.
  - intros Hs. destruct s as [|x0 [|x1 [|x2 [|x3 [|x4 [|x5 [|x6 [|x7 [|x8 [|x9 [|x10 [|? ?]]]]]]]]]]]]; try done.
    cbn [ssn_shape] in Hs. rewrite !andb_true_iff, !N.eqb_eq in Hs. destruct_and!. subst.
    exists [x0; x1; x2], [x4; x5], [x7; x8; x9; x10]. unfold digits_of. by split_and!; repeat constructor.
  - intros (area & group & serial & [L1 F1] & [L2 F2] & [L3 F3] & ->).
    destruct area as [|? [|? [|? [|? ?]]]], group as [|? [|? [|? ?]]], serial as [|? [|? [|? [|? [|? ?]]]]]; try done.
    rewrite !Forall_cons in *. destruct_and!. cbn [ssn_shape app]. by rewrite !andb_true_iff, !N.eqb_refl.
Qed.

Lemma ssn_at_spec b i f :
  f ∈ (ssn_at b i).2 ↔ f = Finding.mk PiiCategory.Ssn i (i + 11) ∧ ssn_here b i.
Proof.
  assert (ssn_shape (sub b i (i + 11)) = true → i + 11 ≤ length b ∧ is_some_and (b !! i) is_ascii_digit = true) as Hsh.
  { intros H. assert (length (sub b i (i + 11)) = 11) as Hl.
    { destruct (sub b i (i + 11)) as [|x0 [|x1 [|x2 [|x3 [|x4 [|x5 [|x6 [|x7 [|x8 [|x9 [|x10 [|? ?]]]]]]]]]]]]; done. }
    unfold sub in Hl. rewrite length_take, length_drop in Hl. split; [lia|].
    pose proof (sub_lookup b i (i + 11) 0 ltac:(lia)) as E. rewrite Nat.add_0_r in E. rewrite <-E.
    destruct (sub b i (i + 11)) as [|x0 [|x1 [|x2 [|x3 [|x4 [|x5 [|x6 [|x7 [|x8 [|x9 [|x10 [|? ?]]]]]]]]]]]]; try done.
    cbn in H. rewrite !andb_true_iff in H. cbn. tauto. }
  unfold ssn_here. rewrite <-ssn_shape_spec. unfold ssn_at. split.
  - destruct (is_some_and _ _); cbn [negb snd]; [|by intros ?%elem_of_nil].
    destruct (is_ssn_boundary (prev_byte b i)); cbn [negb snd]; [|by intros ?%elem_of_nil].
    destruct (_ <? _); [by intros ?%elem_of_nil|]. destruct (_ && _) eqn:E; cbn [snd]; [|by intros ?%elem_of_nil].
    intros ->%list_elem_of_singleton. apply andb_true_iff in E as [? ?]. auto.
  - intros (-> & Hs & Hp & Hn). destruct (Hsh Hs) as [Hl ->]. rewrite Hp. cbn [negb].
    replace (length b <? i + 11) with false by (symmetry; apply Nat.ltb_ge; lia). rewrite Hs, Hn. cbn. set_solver.
Qed.

(** Inside a match, the byte before is part of it, so no other match starts there. *)
Lemma ssn_skip b i j : i < j → j < (ssn_at b i).1 → (ssn_at b j).2 = [].
Proof.
  intros Hij Hj. destruct (ssn_at b j).2 as [|f l] eqn:E; [done|]. exfalso.
  assert (f ∈ (ssn_at b j).2) as Hf by (rewrite E; left). apply ssn_at_spec in Hf as [_ (_ & Hp & _)].
  unfold ssn_at in Hj. destruct (negb _); cbn [fst] in Hj; [lia|].
  destruct (negb _); cbn [fst] in Hj; [lia|]. destruct (_ <? _) eqn:Hl; cbn [fst] in Hj; [lia|].
  destruct (_ && _) eqn:Hs; cbn [fst] in Hj; [|lia]. apply andb_true_iff in Hs as [Hs _].
  pose proof (ssn_shape_digits _ (j - 1 - i) Hs ltac:(lia)) as Hd. rewrite sub_lookup in Hd by lia.
  replace (i + (j - 1 - i)) with (j - 1) in Hd by lia. destruct j as [|j]; [lia|]. cbn [prev_byte] in Hp.
  replace (S j - 1) with j in Hd by lia. apply is_some_and_true in Hd as (c & Ec & Hc). rewrite Ec in Hp. cbn [is_ssn_boundary] in Hp.
  apply andb_true_iff in Hp as [Hp1 Hp2]. apply orb_true_iff in Hc as [Hc|Hc].
  - by rewrite Hc in Hp1.
  - by rewrite Hc in Hp2.
Qed.

(** ** IPv4 addresses *)

(** The decimal form of a number below 1000. *)
Definition dec (n : N) : list N :=
  (if n <? 10 then [48 + n]
   else if n <? 100 then [48 + n / 10; 48 + n mod 10]
   else [48 + n / 100; 48 + n / 10 mod 10; 48 + n mod 10])%N.

Fixpoint dotted (octets : list N) : list N :=
  match octets with
  | [] => []
  | [o] => dec o
  | o :: rest => dec o ++ ch "." :: dotted rest
  end.

(** The printed form of an address at [i, e), with neither a digit nor a dot on either side. *)
Definition ipv4_here (b : list N) (i e : nat) : Prop :=
  (∃ octets, length octets = 4 ∧ Forall (λ o, o ≤ 255)%N octets ∧ sub b i e = dotted octets) ∧
  e ≤ length b ∧ is_number_boundary (prev_byte b i) = true ∧ is_number_boundary (b !! e) = true.

Lemma digit_range c : is_ascii_digit c = true ↔ (48 ≤ c ∧ c ≤ 57)%N.
Proof. unfold is_ascii_digit. rewrite andb_true_iff, !N.leb_le. done. Qed.

Lemma dec_digits n : (n ≤ 255)%N → Forall (λ c, is_ascii_digit c = true) (dec n).
Proof.
  intros H. unfold dec. destruct (n <? 10)%N eqn:E1; [|destruct (n <? 100)%N eqn:E2];
    repeat constructor; apply digit_range; lia.
Qed.

Lemma dec_head n : (n ≤ 255)%N → 1 < length (dec n) → head (dec n) ≠ Some (ch "0").
Proof.
  intros H. unfold dec. destruct (n <? 10)%N eqn:E1; [simpl; lia|]. destruct (n <? 100)%N eqn:E2; intros _ [= E];
    change (Ascii.N_of_ascii _) with 48%N in E; lia.
Qed.

Lemma dec_value n : (n ≤ 255)%N → fold_left (λ a c, a * 10 + (c - 48))%N (dec n) 0%N = n.
Proof.
  intros H. unfold dec. destruct (n <? 10)%N eqn:E1; [simpl; lia|]. destruct (n <? 100)%N eqn:E2; cbn [fold_left]; lia.
Qed.

Lemma dec_length n : 1 ≤ length (dec n) ∧ length (dec n) ≤ 3.
Proof. unfold dec. destruct (n <? 10)%N; [|destruct (n <? 100)%N]; simpl; lia. Qed.

(** A run of one to three digits without a leading zero is the decimal form of its value. *)
Lemma dec_of_digits ds :
  Forall (λ c, is_ascii_digit c = true) ds → 1 ≤ length ds → length ds ≤ 3 →
  (1 < length ds → head ds ≠ Some (ch "0")) →
  dec (fold_left (λ a c, a * 10 + (c - 48))%N ds 0%N) = ds.
Proof.
  change (ch "0") with 48%N. intros Hf H1 H3 Hz.
  destruct ds as [|c [|d [|e [|? ?]]]]; simpl in H1, H3; try lia; rewrite !Forall_cons, ?digit_range in Hf; destruct_and!;
    cbn [fold_left]; unfold dec.
  - replace (_ <? 10)%N with true by lia. f_equal. lia.
  - assert (c ≠ 48)%N by (intros ->; apply Hz; [simpl; lia|done]).
    replace (_ <? 10)%N with false by lia. replace (_ <? 100)%N with true by lia. f_equal; [lia|]. f_equal. lia.
  - assert (c ≠ 48)%N by (intros ->; apply Hz; [simpl; lia|done]).
    replace (_ <? 10)%N with false by lia. replace (_ <? 100)%N with false by lia. f_equal; [lia|]. f_equal; [lia|]. f_equal. lia.
Qed.

Definition starts_no_digit (l : list N) : Prop := is_some_and (head l) is_ascii_digit = false.

Lemma octet_digits_exact k ds l val len :
  Forall (λ c, is_ascii_digit c = true) ds → length ds ≤ k → starts_no_digit l →
  octet_digits k (ds ++ l) val len = (fold_left (λ a c, a * 10 + (c - 48))%N ds val, len + length ds, l).
Proof.
  intros Hf. revert k val len. induction Hf as [|c ds Hc Hf IH]; intros k val len Hk Hl.
  - cbn [app fold_left length]. rewrite Nat.add_0_r. destruct k; [done|]. destruct l as [|c l]; [done|]. cbn. 
    unfold starts_no_digit in Hl. simpl in Hl. by rewrite Hl.
  - destruct k as [|k]; [simpl in Hk; lia|]. cbn. rewrite Hc, IH by (simpl in *; lia || done). f_equal. f_equal. simpl. lia.
Qed.

(** The loop over the octets accepts exactly the dotted forms. *)
Lemma octets_exact k l e e' :
  0 < k →
  (ipv4_octets k l e = Some e' ∧ starts_no_digit (drop (e' - e) l)) ↔
  ∃ octets rest, length octets = k ∧ Forall (λ o, o ≤ 255)%N octets ∧ l = dotted octets ++ rest ∧
    e' = e + length (dotted octets) ∧ starts_no_digit rest.
Proof.
  revert l e e'. induction k as [|k IH]; intros l e e' Hk; [lia|]. split.
  - intros [H Hend]. cbn [ipv4_octets] in H. pose proof (octet_digits_spec 3 l 0 0) as Ho.
    destruct (octet_digits 3 l 0 0) as [[v n] rest]. destruct Ho as (ds & El & -> & Hn3 & Hds & _ & ->).
    destruct (_ || _ || _) eqn:Hbad; [done|]. rewrite !orb_false_iff, Nat.eqb_neq, N.ltb_ge in Hbad.
    destruct Hbad as [[Hn Hv] Hz]. rewrite Nat.add_0_l in *.
    assert (dec (fold_left (λ a c, a * 10 + (c - 48))%N ds 0%N) = ds) as Hdec.
    { apply dec_of_digits; [done|lia|lia|]. intros H1. apply Nat.ltb_lt in H1. rewrite H1 in Hz. cbn [andb] in Hz.
      apply bool_decide_eq_false in Hz. intros E. apply Hz. rewrite El. by destruct ds. }
    set (o := fold_left (λ a c, a * 10 + (c - 48))%N ds 0%N) in *.
    destruct k as [|k].
    + injection H as <-. exists [o], rest. cbn [dotted]. rewrite Hdec. split_and!; [done|by constructor|done|done|].
      rewrite El in Hend. replace (e + length ds - e) with (length ds) in Hend by lia. by rewrite drop_app_length in Hend.
    + destruct rest as [|c rest]; [done|]. destruct (c =? ch ".")%N eqn:Ec; [|done]. apply N.eqb_eq in Ec as ->.
      assert (e + length ds + 1 ≤ e') as Hle.
      { pose proof (octets_span (replicate (e + length ds + 1) 0%N ++ rest) (S k) (e + length ds + 1) e') as Hsp.
        rewrite drop_app_length' in Hsp by (by rewrite length_replicate). destruct (Hsp H) as [? _]; lia. }
      destruct (proj1 (IH rest (e + length ds + 1) e' ltac:(lia))) as (os & rest' & Hlen & Hos & -> & -> & Hr).
      { split; [exact H|]. rewrite El in Hend. replace (e' - e) with (length (ds ++ [ch "."]) + (e' - (e + length ds + 1))) in Hend
          by (rewrite length_app; simpl; lia).
        replace (ds ++ ch "." :: rest) with ((ds ++ [ch "."]) ++ rest) in Hend by (by rewrite <-app_assoc).
        by rewrite <-drop_drop, drop_app_length in Hend. }
      exists (o :: os), rest'. destruct os as [|o' os]; [done|].
      change (dotted (o :: o' :: os)) with (dec o ++ ch "." :: dotted (o' :: os)). rewrite Hdec.
      split_and!; [simpl in *; lia|by constructor| | |done].
      * rewrite El, <-app_assoc. done.
      * rewrite length_app. cbn [length]. lia.
  - intros (os & rest & Hlen & Hos & -> & -> & Hr). destruct os as [|o os]; [done|]. apply Forall_cons in Hos as [Ho Hos].
    pose proof (dec_length o) as [Hd1 Hd3]. cbn [ipv4_octets].
    assert (∀ tl, starts_no_digit tl → octet_digits 3 (dec o ++ tl) 0 0 = (o, length (dec o), tl)) as Hoct.
    { intros tl Htl. rewrite octet_digits_exact by auto using dec_digits. by rewrite dec_value. }
    assert (∀ tl, (length (dec o) =? 0) || (255 <? o)%N || (1 <? length (dec o)) && bool_decide (head (dec o ++ tl) = Some (ch "0")) = false) as Hok.
    { intros tl. rewrite !orb_false_iff, Nat.eqb_neq, N.ltb_ge. split_and!; [lia|done|].
      destruct (1 <? length (dec o)) eqn:E1; [|done]. apply Nat.ltb_lt in E1. cbn [andb]. apply bool_decide_eq_false.
      pose proof (dec_head o Ho E1) as Hz. destruct (dec o); [simpl in *; lia|]. exact Hz. }
    destruct os as [|o' os].
    + destruct k as [|k]; [|simpl in Hlen; lia]. cbn [dotted]. rewrite Hoct, Hok by done. split; [done|].
      replace (e + length (dec o) - e) with (length (dec o)) by lia. by rewrite drop_app_length.
    + change (dotted (o :: o' :: os)) with (dec o ++ ch "." :: dotted (o' :: os)).
      rewrite <-app_assoc. cbn [app]. rewrite Hoct, Hok by done. destruct k as [|k]; [simpl in Hlen; lia|].
      rewrite N.eqb_refl.
      destruct (proj2 (IH (dotted (o' :: os) ++ rest) (e + length (dec o) + 1)
                        (e + length (dec o) + 1 + length (dotted (o' :: os))) ltac:(lia))) as [H1 H2].
      { exists (o' :: os), rest. split_and!; [simpl in *; lia|done|done|lia|done]. }
      rewrite length_app. cbn [length].
      replace (e + (length (dec o) + S (length (dotted (o' :: os))))) with (e + length (dec o) + 1 + length (dotted (o' :: os))) by lia.
      split; [exact H1|]. 
      replace (e + length (dec o) + 1 + length (dotted (o' :: os)) - e) with (length (dec o ++ [ch "."] ++ dotted (o' :: os)))
        by (rewrite !length_app; simpl; lia).
      replace (dec o ++ ch "." :: dotted (o' :: os) ++ rest) with ((dec o ++ [ch "."] ++ dotted (o' :: os)) ++ rest)
        by (by rewrite <-!app_assoc). by rewrite drop_app_length.
Qed.

Lemma head_drop {A} (b : list A) i : head (drop i b) = b !! i.
Proof. revert i. induction b as [|x b IH]; intros [|i]; simpl; [done..|]. apply IH. Qed.

Lemma boundary_no_digit (b : list N) e : is_number_boundary (b !! e) = true → starts_no_digit (drop e b).
Proof.
  unfold starts_no_digit. rewrite head_drop. destruct (b !! e) as [c|]; [|done]. simpl.
  intros [H _]%andb_true_iff. by apply negb_true_iff in H.
Qed.

Lemma dotted_head octets : length octets = 4 → Forall (λ o, o ≤ 255)%N octets →
  is_some_and (head (dotted octets)) is_ascii_digit = true.
Proof.
  intros Hl Hf. destruct octets as [|o [|o' os]]; [done|done|]. apply Forall_cons in Hf as [Ho _].
  pose proof (dec_digits o Ho) as Hd. pose proof (dec_length o) as [H1 _]. cbn. destruct (dec o) as [|c l]; [simpl in *; lia|].
  apply Forall_cons in Hd as [Hc _]. exact Hc.
Qed.

Lemma ipv4_at_spec b i f :
  f ∈ (ipv4_at b i).2 ↔ ∃ e, f = Finding.mk PiiCategory.Ipv4 i e ∧ ipv4_here b i e.
Proof.
  unfold ipv4_at, ipv4_here. split.
  - destruct (is_some_and _ _); cbn [negb orb]; [|by intros ?%elem_of_nil].
    destruct (is_number_boundary (prev_byte b i)); cbn [negb]; [|by intros ?%elem_of_nil].
    destruct (ipv4_octets 4 (drop i b) i) as [e|] eqn:E; [|by intros ?%elem_of_nil].
    destruct (is_number_boundary (b !! e)) eqn:Hb; [|by intros ?%elem_of_nil]. intros ->%list_elem_of_singleton.
    destruct (octets_span _ _ _ _ E) as (H1 & H2 & _); [lia|].
    destruct (proj1 (octets_exact 4 (drop i b) i e ltac:(lia))) as (os & rest & Hl & Hos & Ed & He & _).
    { split; [done|]. rewrite drop_drop. replace (i + (e - i)) with e by lia. by apply boundary_no_digit. }
    exists e. split; [done|]. split_and!; [|done..]. exists os. split_and!; [done..|]. unfold sub.
    rewrite Ed. replace (e - i) with (length (dotted os)) by lia. by rewrite take_app_length.
  - intros (e & -> & (os & Hl & Hos & Es) & He & Hp & Hn). rewrite Hp.
    pose proof (dotted_head os Hl Hos) as Hh. rewrite <-Es in Hh.
    assert (i < e) as Hie.
    { destruct (decide (i < e)); [done|]. rewrite sub_empty in Hh by lia. done. }
    assert (is_some_and (b !! i) is_ascii_digit = true) as ->.
    { rewrite <-(Nat.add_0_r i), <-(sub_lookup b i e 0) by lia. by destruct (sub b i e). }
    cbn [negb orb].
    assert (drop i b = dotted os ++ drop e b) as Ed.
    { rewrite <-Es. unfold sub. rewrite <-(take_drop (e - i) (drop i b)) at 1. rewrite drop_drop. do 2 f_equal. lia. }
    assert (e = i + length (dotted os)) as Hee by (rewrite <-Es, sub_length by done; lia).
    destruct (proj2 (octets_exact 4 (drop i b) i e ltac:(lia))) as [-> _].
    { exists os, (drop e b). split_and!; [done..|]. by apply boundary_no_digit. }
    rewrite Hn. set_solver.
Qed.

Lemma ipv4_skip b i j : i < j → j < (ipv4_at b i).1 → (ipv4_at b j).2 = [].
Proof.
  intros Hij Hj. destruct (ipv4_at b j).2 as [|f l] eqn:E; [done|]. exfalso.
  assert (f ∈ (ipv4_at b j).2) as Hf by (rewrite E; left). apply ipv4_at_spec in Hf as (e & _ & _ & _ & Hp & _).
  unfold ipv4_at in Hj. destruct (_ || _); cbn [fst] in Hj; [lia|].
  destruct (ipv4_octets 4 (drop i b) i) as [e'|] eqn:Eo; cbn [fst] in Hj; [|lia].
  destruct (is_number_boundary (b !! e')); cbn [fst] in Hj; [|lia].
  destruct (octets_span _ _ _ _ Eo) as (_ & _ & Hd); [lia|]. specialize (Hd (j - 1) ltac:(lia) ltac:(lia)).
  destruct j as [|j]; [lia|]. replace (S j - 1) with j in Hd by lia. cbn [prev_byte] in Hp.
  apply is_some_and_true in Hd as (c & Ec & Hc). rewrite Ec in Hp. cbn [is_number_boundary] in Hp.
  apply andb_true_iff in Hp as [Hp1 Hp2]. apply orb_true_iff in Hc as [Hc|Hc].
  - by rewrite Hc in Hp1.
  - by rewrite Hc in Hp2.
Qed.

Lemma elem_of_exact (n : nat) (body : nat → nat * list Finding.t) f :
  (∀ i, i < n → i < (body i).1) → (∀ i j, i < n → i < j → j < (body i).1 → (body j).2 = []) →
  f ∈ scan_while n body ↔ ∃ i, i < n ∧ f ∈ (body i).2.
Proof.
  intros H1 H2. rewrite scan_while_exact by done. rewrite list_elem_of_In, in_concat. split.
  - intros (l & (i & <- & Hi)%in_map_iff & Hf). exists i. apply in_seq in Hi. split; [lia|]. by apply list_elem_of_In.
  - intros (i & Hi & Hf). exists (body i).2. split; [|by apply list_elem_of_In].
    apply in_map_iff. exists i. split; [done|]. apply in_seq. lia.
Qed.

(** The detectors of IPv4 addresses and of social security numbers are exact: although
    their loops skip past each match, they report every delimited occurrence of the printed
    form in the text, and nothing else.  An address is four numbers up to 255 in decimal
    without leading zeros, joined by dots, with no digit or dot on either side; a social
    security number is [DDD-DD-DDDD] with no digit or hyphen on either side. *)
Theorem exact_detectors (b : list N) (f : Finding.t) :
  (f ∈ find_ipv4 b ↔ ∃ i e, f = Finding.mk PiiCategory.Ipv4 i e ∧ ipv4_here b i e) ∧
  (f ∈ find_ssns b ↔ ∃ i, f = Finding.mk PiiCategory.Ssn i (i + 11) ∧ ssn_here b i).
Proof.
  unfold find_ipv4, find_ssns. rewrite !elem_of_exact; [|intros i Hi; by apply ssn_ok|eauto using ssn_skip
    |intros i Hi; by apply ipv4_ok|eauto using ipv4_skip].
  setoid_rewrite ipv4_at_spec. setoid_rewrite ssn_at_spec. split; split.
  - intros (i & _ & e & H). by exists i, e.
  - intros (i & e & H). exists i. split; [|by exists e]. destruct H as (_ & (os & Hl & Hos & Es) & He & _).
    pose proof (dotted_head os Hl Hos) as Hh. rewrite <-Es in Hh. unfold sub in Hh.
    destruct (decide (i < length b)); [done|]. by rewrite drop_ge, take_nil in Hh by lia.
  - intros (i & _ & H). by exists i.
  - intros (i & H). exists i. split; [|done]. destruct H as (_ & (s1 & s2 & s3 & _ & _ & _ & Es) & _).
    destruct (decide (i < length b)); [done|]. unfold sub in Es. rewrite drop_ge, take_nil in Es by lia.
    by destruct s1.
Qed.

(** ** Checksums *)

(** Digits as the text of a candidate. *)
Definition digit_text (d : list N) : string := str_of_bytes ((λ x, x + 48)%N <$> d).

Lemma digits_only_text d seps :
  Forall (λ x, x < 10)%N d → digits_only (digit_text d) seps = Some d.
Proof.
  intros Hd. unfold digits_only, digit_text. rewrite chars_ascii.
  - rewrite str_bytes_of_bytes.
    + induction Hd as [|x d Hx Hd IH]; [done|]. cbn. unfold to_digit.
      replace (is_ascii_digit (x + 48)) with true by (symmetry; apply digit_range; lia). rewrite IH. cbn. f_equal. f_equal. lia.
    + apply Forall_fmap. eapply Forall_impl; [exact Hd|]. simpl. lia.
  - unfold is_ascii_str. rewrite str_bytes_of_bytes.
    + apply forallb_Forall. intros c (x & -> & Hx)%list_elem_of_fmap. rewrite Forall_forall in Hd.
      specialize (Hd x Hx). apply N.ltb_lt. lia.
    + apply Forall_fmap. eapply Forall_impl; [exact Hd|]. simpl. lia.
Qed.

Lemma luhn_sum_loop double ds total : luhn_loop total double ds = (total + luhn_sum double ds)%N.
Proof.
  revert double total. induction ds as [|d ds IH]; intros double total; simpl; [lia|]. rewrite IH. unfold luhn_value. lia.
Qed.

Lemma weighted_descending w d : weighted w d = descending_sum w d.
Proof. revert w. induction d as [|x d IH]; intros w; simpl; [done|]. by rewrite IH. Qed.

Lemma mod11_forms s : (let r := s * 10 mod 11 in if r =? 10 then 0 else r)%N = mod11_digit s.
Proof. unfold mod11_digit. cbn zeta. destruct (s mod 11 <? 2)%N eqn:E1, (s * 10 mod 11 =? 10)%N eqn:E2; lia. Qed.

Lemma all_equal_repdigit d : d ≠ [] → all_equal d = repdigit d.
Proof. by destruct d. Qed.

Lemma dot_zip d ws : dot d ws = foldr N.add 0%N (zip_with N.mul d ws).
Proof. revert ws. induction d as [|x d IH]; intros [|w ws]; simpl; [done..|]. by rewrite IH. Qed.

Lemma dot_take d ws : dot (take (length ws) d) ws = dot d ws.
Proof. revert d. induction ws as [|w ws IH]; intros [|x d]; simpl; [done..|]. by rewrite IH. Qed.

(** The checksums that the privacy filter repeats are those of the pattern packs: on any
    string of digits, each of its validators for payment cards, CPF and CNPJ accepts exactly
    what the corresponding validator of sv-patterns accepts, although the CPF check digit is
    computed by another formula. *)
Theorem checksums_agree (d : list N) :
  Forall (λ x, x < 10)%N d →
  luhn_valid d = validate_luhn (digit_text d) ∧
  cpf_valid d = validate_cpf (digit_text d) ∧
  cnpj_valid d = validate_cnpj (digit_text d).
Proof.
  intros Hd. unfold validate_luhn, validate_cpf, validate_cnpj. rewrite !digits_only_text by done. split_and!.
  - unfold luhn_valid. destruct (length d <? 2); [done|]. by rewrite luhn_sum_loop.
  - unfold cpf_valid. destruct (length d =? 11) eqn:E; [|done]. cbn [negb orb].
    apply Nat.eqb_eq in E. rewrite all_equal_repdigit by (by intros ->). destruct (repdigit d); [done|].
    unfold cpf_digit, cpf_check. rewrite !weighted_descending. cbn zeta. by rewrite !mod11_forms.
  - unfold cnpj_valid. destruct (length d =? 14) eqn:E; [|done]. cbn [negb orb].
    apply Nat.eqb_eq in E. rewrite all_equal_repdigit by (by intros ->). destruct (repdigit d); [done|].
    unfold cnpj_digit, cnpj_cd, mod11_digit. cbn zeta. rewrite <-!dot_zip.
    change CNPJ_W with weights1. change (6%N :: weights1) with weights2.
    rewrite <-(dot_take d weights1), <-(dot_take d weights2). change (length weights1) with 12. change (length weights2) with 13.
    by destruct (bool_decide (d !! 12 = _)).
Qed.

Lemma checksums_agree_witness :
  luhn_valid [7; 9; 9; 2; 7; 3; 9; 8; 7; 1; 3]%N = validate_luhn (digit_text [7; 9; 9; 2; 7; 3; 9; 8; 7; 1; 3]%N) ∧
  cpf_valid [7; 9; 9; 2; 7; 3; 9; 8; 7; 1; 3]%N = validate_cpf (digit_text [7; 9; 9; 2; 7; 3; 9; 8; 7; 1; 3]%N) ∧
  cnpj_valid [7; 9; 9; 2; 7; 3; 9; 8; 7; 1; 3]%N = validate_cnpj (digit_text [7; 9; 9; 2; 7; 3; 9; 8; 7; 1; 3]%N).
Proof. apply (checksums_agree [7; 9; 9; 2; 7; 3; 9; 8; 7; 1; 3]%N). repeat constructor. Defined.

(** A full stop after a number keeps it from being found: the same CPF is masked before a
    comma and left in clear at the end of a sentence. *)
Lemma sentence_end_unmasked :
  (Redaction.output <$> redact (str_bytes "CPF 529.982.247-25, ok") Policy.all)
    = Some (str_bytes "CPF [REDACTED:CPF], ok") ∧
  (Redaction.output <$> redact (str_bytes "CPF 529.982.247-25.") Policy.all)
    = Some (str_bytes "CPF 529.982.247-25.").
Proof. split; vm_compute; reflexivity. Qed.
