(* ===== verification/Paths.v ===== *)
(** * Paths: [std::path] on Unix, as the scanner and the remediation use it

    A [PathBuf] is its list of components: comparison, ordering and iteration of paths only
    look at them. *)
From S2P Require Import Prelude Text.

Module Component.
Inductive t := RootDir | CurDir | ParentDir | Normal (name : string).
#[global] Instance t_eq_dec : EqDecision t.
Proof. solve_decision. Defined.

Definition rank (c : t) : nat :=
  match c with RootDir => 0 | CurDir => 1 | ParentDir => 2 | Normal _ => 3 end.

(** [#[derive(Ord)]]. *)
Definition compare (a b : t) : comparison :=
  match a, b with
  | Normal x, Normal y => String.compare x y
  | _, _ => Nat.compare (rank a) (rank b)
  end.

(** [as_os_str().to_string_lossy()]. *)
Definition text (c : t) : string :=
  match c with
  | RootDir => "/"
  | CurDir => "."
  | ParentDir => ".."
  | Normal name => str_of_bytes (utf8_lossy (str_bytes name))
  end.
End Component.

Abbreviation PathBuf := (list Component.t).

(** [Path::cmp]. *)
Fixpoint path_compare (a b : PathBuf) : comparison :=
  match a, b with
  | [], [] => Eq
  | [], _ => Lt
  | _, [] => Gt
  | x :: a', y :: b' => match Component.compare x y with Eq => path_compare a' b' | c => c end
  end.

Definition path_leb (a b : PathBuf) : bool := match path_compare a b with Gt => false | _ => true end.

(** [to_string_lossy]. *)
Fixpoint to_string_lossy (p : PathBuf) : string :=
  match p with
  | [] => ""
  | [c] => Component.text c
  | Component.RootDir :: p' => "/" +:+ to_string_lossy p'
  | c :: p' => Component.text c +:+ "/" +:+ to_string_lossy p'
  end.

(** [path.file_name().and_then(|n| n.to_str())]. *)
Definition file_name (p : PathBuf) : option string :=
  match last p with
  | Some (Component.Normal name) => if utf8_valid (str_bytes name) then Some name else None
  | _ => None
  end.

(** ** The order is total *)

Lemma component_compare_eq a b : Component.compare a b = Eq ↔ a = b.
Proof.
  destruct a as [| | |x], b as [| | |y]; cbn; try (split; [by intros [=]|by intros [=]]); try done.
  split; [by intros ->%String.compare_eq_iff|intros [= ->]; apply str_compare_refl].
Qed.

Lemma component_compare_antisym a b : Component.compare b a = CompOpp (Component.compare a b).
Proof. destruct a as [| | |x], b as [| | |y]; cbn; try done. apply String.compare_antisym. Qed.

Lemma component_lt_trans a b c :
  Component.compare a b = Lt → Component.compare b c = Lt → Component.compare a c = Lt.
Proof. destruct a as [| | |x], b as [| | |y], c as [| | |z]; cbn; try done. apply str_compare_lt_trans. Qed.

Lemma path_compare_eq a b : path_compare a b = Eq ↔ a = b.
Proof.
  revert b. induction a as [|x a IH]; intros [|y b]; cbn; try done.
  destruct (Component.compare x y) eqn:E.
  - apply component_compare_eq in E as ->. rewrite IH. split; [by intros ->|by intros [= ->]].
  - split; [done|]. intros [= -> ->]. by rewrite (proj2 (component_compare_eq y y) eq_refl) in E.
  - split; [done|]. intros [= -> ->]. by rewrite (proj2 (component_compare_eq y y) eq_refl) in E.
Qed.

Lemma path_compare_antisym a b : path_compare b a = CompOpp (path_compare a b).
Proof.
  revert b. induction a as [|x a IH]; intros [|y b]; cbn; try done.
  rewrite (component_compare_antisym x y). destruct (Component.compare x y); cbn; auto.
Qed.

Lemma path_lt_trans a b c : path_compare a b = Lt → path_compare b c = Lt → path_compare a c = Lt.
Proof.
  revert b c. induction a as [|x a IH]; intros [|y b] [|z c]; cbn; try done.
  destruct (Component.compare x y) eqn:E1; try done.
  - apply component_compare_eq in E1 as ->. destruct (Component.compare y z); try done. apply IH.
  - destruct (Component.compare y z) eqn:E2; try done.
    + apply component_compare_eq in E2 as ->. by rewrite E1.
    + by rewrite (component_lt_trans x y z).
Qed.

Lemma path_leb_total a b : path_leb a b = true ∨ path_leb b a = true.
Proof. unfold path_leb. rewrite (path_compare_antisym a b). destruct (path_compare a b); auto. Qed.

Lemma path_leb_trans a b c : path_leb a b = true → path_leb b c = true → path_leb a c = true.
Proof.
  unfold path_leb. destruct (path_compare a b) eqn:E1, (path_compare b c) eqn:E2; try done.
  - apply path_compare_eq in E1 as ->. by rewrite E2.
  - apply path_compare_eq in E1 as ->. by rewrite E2.
  - apply path_compare_eq in E2 as ->. by rewrite E1.
  - by rewrite (path_lt_trans a b c).
Qed.
