(* ===== verification/ScanTypes.v ===== *)
(** * sv-scan/src/types.rs and rules.rs: findings, coverage and the reviewed secret formats *)
From S2P Require Import Prelude Bytes Paths Privacy.

Module FindingKind.
Inductive t :=
| Pii (category : PiiCategory.t)
| Secret (rule_id : string)
| Jurisdiction (pack_id pack_version rule_id : string) (validated : option bool).
#[global] Instance t_eq_dec : EqDecision t.
Proof. solve_decision. Defined.
End FindingKind.

Module Confidence.
Inductive t := Low | Medium | High.
#[global] Instance t_eq_dec : EqDecision t.
Proof. solve_decision. Defined.

(** [#[derive(Ord)]]. *)
Definition rank (c : t) : nat := match c with Low => 0 | Medium => 1 | High => 2 end.
End Confidence.

Module ScanFinding.
Record t := mk {
  path : PathBuf;
  line : N;
  start : nat;
  end_ : nat;
  kind : FindingKind.t;
  confidence : Confidence.t;
  preview : list N;
  matched_fingerprint : string
}.
Definition with_confidence (f : t) (c : Confidence.t) : t :=
  mk (path f) (line f) (start f) (end_ f) (kind f) c (preview f) (matched_fingerprint f).
End ScanFinding.

Module SkipReason.
Inductive t := TooLarge | Binary | NotUtf8 | Ignored | Unreadable | BudgetExhausted.
#[global] Instance t_eq_dec : EqDecision t.
Proof. solve_decision. Defined.
End SkipReason.

Module Skipped.
Record t := mk { path : PathBuf; reason : SkipReason.t }.
#[global] Instance t_eq_dec : EqDecision t.
Proof. solve_decision. Defined.
End Skipped.

Module SuppressionReason.
Inductive t :=
| GeneratedFile
| NonIdentifyingAddress
| EmbeddedInNumericRun
| StructuredNumericData
| PlaceholderValue
| ImplausibleKeyContext.
#[global] Instance t_eq_dec : EqDecision t.
Proof. solve_decision. Defined.

Definition ALL : list t :=
  [GeneratedFile; NonIdentifyingAddress; EmbeddedInNumericRun; StructuredNumericData; PlaceholderValue;
   ImplausibleKeyContext].

Definition label (self : t) : string :=
  match self with
  | GeneratedFile => "generated_file"
  | NonIdentifyingAddress => "non_identifying_address"
  | EmbeddedInNumericRun => "embedded_in_numeric_run"
  | StructuredNumericData => "structured_numeric_data"
  | PlaceholderValue => "placeholder_value"
  | ImplausibleKeyContext => "implausible_key_context"
  end.

Definition is_removal (self : t) : bool := bool_decide (self = EmbeddedInNumericRun).

(** [#[derive(Ord)]]. *)
Definition rank (r : t) : nat :=
  match r with
  | GeneratedFile => 0
  | NonIdentifyingAddress => 1
  | EmbeddedInNumericRun => 2
  | StructuredNumericData => 3
  | PlaceholderValue => 4
  | ImplausibleKeyContext => 5
  end.
End SuppressionReason.

Module Suppressed.
Record t := mk { reason : SuppressionReason.t; count : N }.
End Suppressed.

(** The counters are [u64]; the number of files and findings of a scan is far below. *)
Module Coverage.
Record t := mk {
  files_scanned : N;
  files_skipped : N;
  files_ignored : N;
  bytes_scanned : N;
  skipped : list Skipped.t;
  suppressed : list Suppressed.t
}.

Definition default : t := mk 0 0 0 0 [] [].

Definition record_skip (self : t) (path : PathBuf) (reason : SkipReason.t) : t :=
  let skipped := skipped self ++ [Skipped.mk path reason] in
  mk (files_scanned self) (N.of_nat (length skipped)) (files_ignored self) (bytes_scanned self) skipped
    (suppressed self).

(** [iter_mut().find(...)]: the first entry of the reason counts one more, or a new entry. *)
Fixpoint count_suppression (reason : SuppressionReason.t) (l : list Suppressed.t) : list Suppressed.t :=
  match l with
  | [] => [Suppressed.mk reason 1]
  | s :: l' =>
      if bool_decide (Suppressed.reason s = reason)
      then Suppressed.mk (Suppressed.reason s) (Suppressed.count s + 1) :: l'
      else s :: count_suppression reason l'
  end.

Definition record_suppression (self : t) (reason : SuppressionReason.t) : t :=
  mk (files_scanned self) (files_skipped self) (files_ignored self) (bytes_scanned self) (skipped self)
    (count_suppression reason (suppressed self)).

Definition sum_counts (l : list Suppressed.t) : N := foldr (λ s n, Suppressed.count s + n)%N 0%N l.

Definition total_suppressed (self : t) : N := sum_counts (suppressed self).

Definition total_removed (self : t) : N :=
  sum_counts (List.filter (λ s, SuppressionReason.is_removal (Suppressed.reason s)) (suppressed self)).

Definition total_demoted (self : t) : N := (total_suppressed self - total_removed self)%N.

Definition files_unexamined (self : t) : N := (files_skipped self + files_ignored self)%N.
End Coverage.

Module ScanReport.
Record t := mk { findings : list ScanFinding.t; coverage : Coverage.t; config_salt : list N }.
End ScanReport.

Module PreviewMode.
Inductive t := Opaque | RevealPrefix.
#[global] Instance t_eq_dec : EqDecision t.
Proof. solve_decision. Defined.
Definition default : t := Opaque.
End PreviewMode.

Definition ALWAYS_SCAN : list string :=
  ["**/.env"; "**/.env.*"; "**/*.env"; "**/.envrc"; "**/.npmrc"; "**/.pypirc"; "**/.netrc"; "**/_netrc";
   "**/credentials"; "**/credentials.*"; "**/*.pem"; "**/*.key"; "**/*.p12"; "**/*.pfx"; "**/id_rsa";
   "**/id_ed25519"; "**/id_ecdsa"; "**/.htpasswd"; "**/secrets.*"; "**/*.secrets";
   "**/service-account*.json"; "**/serviceaccount*.json"].

Definition DEFAULT_EXCLUDES : list string :=
  ["**/target/**"; "**/node_modules/**"; "**/.git/**"; "**/dist/**"; "**/build/**"; "**/vendor/**";
   "**/.venv/**"; "**/__pycache__/**"; "**/.yarn/releases/**"; "**/.yarn/cache/**"; "**/.gradle/**";
   "**/Pods/**"; "**/*.lock"; "**/*.min.js"; "**/*.min.css"; "**/*.map"; "**/*.png"; "**/*.jpg";
   "**/*.jpeg"; "**/*.gif"; "**/*.svg"; "**/*.pdf"; "**/*.woff"; "**/*.woff2"; "**/*.ttf"; "**/*.ico";
   "**/*.zip"; "**/*.gz"; "**/*.exe"; "**/*.dll"; "**/*.so"; "**/*.dylib"].

Module ScanConfig.
Record t := mk {
  max_file_bytes : N;
  respect_gitignore : bool;
  follow_symlinks : bool;
  exclude : list string;
  always_scan : list string;
  packs : list string;
  preview_mode : PreviewMode.t;
  fingerprint_salt : list N
}.
(** [Default], given the salt that was drawn. *)
Definition default (random_salt : list N) : t :=
  mk (5 * 1024 * 1024) true false DEFAULT_EXCLUDES ALWAYS_SCAN [] PreviewMode.default random_salt.
End ScanConfig.

(** [lib.rs]. *)
Module ScanError.
Inductive t := InvalidRoot | Walk (message : string) | Pack (message : string).
End ScanError.

(** ** rules.rs *)

Module Alphabet.
Inductive t := Alnum | AlnumDashUnderscore | UpperAlnum | HexLower | Base64.

Definition contains (self : t) (b : N) : bool :=
  match self with
  | Alnum => is_ascii_alphanumeric b
  | AlnumDashUnderscore => is_ascii_alphanumeric b || (b =? ch "-")%N || (b =? ch "_")%N
  | UpperAlnum => is_ascii_uppercase b || is_ascii_digit b
  | HexLower => is_ascii_digit b || ((97 <=? b) && (b <=? 102))%N
  | Base64 => is_ascii_alphanumeric b || bool_decide (b ∈ [ch "+"; ch "/"; ch "="])
  end.
End Alphabet.

Module SecretRule.
Record t := mk {
  id : string;
  name : string;
  prefix : option string;
  exact_len : option nat;
  len_range : option (nat * nat);
  alphabet : Alphabet.t;
  confidence : Confidence.t
}.
End SecretRule.

Definition PEM_RULE_ID : string := "private_key_pem".

Definition RULES : list SecretRule.t :=
  [SecretRule.mk "aws_access_key_id" "AWS access key ID" (Some "AKIA") (Some 20) None Alphabet.UpperAlnum Confidence.High;
   SecretRule.mk "github_pat" "GitHub personal access token" (Some "ghp_") (Some 40) None Alphabet.AlnumDashUnderscore Confidence.High;
   SecretRule.mk "github_oauth" "GitHub OAuth access token" (Some "gho_") (Some 40) None Alphabet.AlnumDashUnderscore Confidence.High;
   SecretRule.mk "github_fine_grained_pat" "GitHub fine-grained personal access token" (Some "github_pat_") None (Some (82, 100)) Alphabet.AlnumDashUnderscore Confidence.High;
   SecretRule.mk "slack_bot_token" "Slack bot token" (Some "xoxb-") None (Some (24, 80)) Alphabet.AlnumDashUnderscore Confidence.High;
   SecretRule.mk "slack_user_token" "Slack user token" (Some "xoxp-") None (Some (24, 80)) Alphabet.AlnumDashUnderscore Confidence.High;
   SecretRule.mk "stripe_secret_key" "Stripe live secret key" (Some "sk_live_") None (Some (20, 60)) Alphabet.Alnum Confidence.High;
   SecretRule.mk "stripe_test_key" "Stripe test secret key" (Some "sk_test_") None (Some (20, 60)) Alphabet.Alnum Confidence.Medium;
   SecretRule.mk "openai_api_key" "OpenAI API key" (Some "sk-") None (Some (20, 120)) Alphabet.AlnumDashUnderscore Confidence.Medium;
   SecretRule.mk "anthropic_api_key" "Anthropic API key" (Some "sk-ant-") None (Some (30, 120)) Alphabet.AlnumDashUnderscore Confidence.High;
   SecretRule.mk "google_api_key" "Google API key" (Some "AIza") (Some 39) None Alphabet.AlnumDashUnderscore Confidence.High;
   SecretRule.mk "npm_token" "npm access token" (Some "npm_") (Some 40) None Alphabet.Alnum Confidence.High;
   SecretRule.mk PEM_RULE_ID "PEM private-key header" (Some "-----BEGIN") None None Alphabet.Alnum Confidence.High].

Definition SECRET_KEYWORDS : list string :=
  ["api_key"; "apikey"; "api-key"; "secret"; "secret_key"; "token"; "password"; "passwd"; "pwd"; "credential";
   "private_key"; "access_key"; "auth"; "bearer"].
