(* ===== verification/Scan.v ===== *)
(** * sv-scan/src/detect.rs, filter.rs and walk.rs: scanning a project tree

    The detectors run over the bytes of a UTF-8 text.  What comes from other crates is a
    parameter: SHA-256 and its hexadecimal form (fingerprints), the regular expressions of the
    pattern packs, and the walker of the [ignore] crate with what it yields.  A slice that
    panics makes the whole scan [None]. *)
From S2P Require Import Prelude Text Bytes Paths Validators Patterns Privacy ScanTypes.

Definition NEWLINE : N := 10.
Definition MASK_STARS : list N := str_bytes "********".

(** ** Previews *)

(** The first four characters; [chars] of a valid text start at the bytes that do not
    continue a character. *)
Fixpoint take_chars (n : nat) (l : list N) : list N :=
  match l with
  | [] => []
  | c :: l' =>
      if is_continuation c then c :: take_chars n l'
      else match n with O => [] | S n' => c :: take_chars n' l' end
  end.

Definition mask (value : list N) : list N :=
  let first4 := take_chars 4 value in
  if length first4 =? length value then MASK_STARS else first4 ++ MASK_STARS.

Definition mask_opaque (_ : list N) : list N := MASK_STARS.

Definition preview_with (mode : PreviewMode.t) (value : list N) : list N :=
  match mode with PreviewMode.Opaque => mask_opaque value | PreviewMode.RevealPrefix => mask value end.

(** ** Lines, markers and confidence *)

Definition lower_bytes (l : list N) : list N := to_ascii_lowercase <$> l.

(** [while line_start > 0 && bytes[line_start - 1] != b'\n' { line_start -= 1 }]. *)
Definition line_start (content : list N) (start : nat) : nat :=
  back_while (λ c, negb (c =? NEWLINE)%N) 0 content start.

Definition line_number (content : list N) (start : nat) : N :=
  (N.of_nat (length (List.filter (λ b, (b =? NEWLINE)%N) (take start content))) + 1)%N.

(** [windows(n).any(|w| w.eq_ignore_ascii_case(needle))] of a needle that is not empty. *)
Definition contains_ignore_ascii_case (haystack needle : list N) : bool :=
  if bool_decide (needle = []) then false else bytes_contain (lower_bytes needle) (lower_bytes haystack).

Definition keyword_before_on_line (content : list N) (start : nat) : bool :=
  let before := sub content (line_start content start) start in
  existsb (λ kw, contains_ignore_ascii_case before (str_bytes kw)) SECRET_KEYWORDS.

Definition REDACTED_OPEN : list N := str_bytes "[REDACTED:".
Definition LOCATOR_OPEN : list N := str_bytes "[SV:LOC:".

(** [[a, b].into_iter().flatten().max()]. *)
Definition max_opt (a b : option nat) : option nat :=
  match a, b with
  | Some x, Some y => Some (x `max` y)
  | Some x, None => Some x
  | None, o => o
  end.

Definition is_inside_marker (content : list N) (start : nat) : bool :=
  let before := sub content (line_start content start) start in
  match max_opt (rfind REDACTED_OPEN before) (rfind LOCATOR_OPEN before) with
  | None => false
  | Some open => negb (bytes_contain [ch "]"] (drop open before))
  end.

Definition promote (confidence : Confidence.t) : Confidence.t :=
  match confidence with
  | Confidence.Low => Confidence.Medium
  | Confidence.Medium => Confidence.High
  | Confidence.High => Confidence.High
  end.

Definition demote (confidence : Confidence.t) : Confidence.t :=
  match confidence with
  | Confidence.High => Confidence.Medium
  | Confidence.Medium => Confidence.Low
  | Confidence.Low => Confidence.Low
  end.

Definition pii_confidence (category : PiiCategory.t) : Confidence.t :=
  match category with
  | PiiCategory.Cpf | PiiCategory.Cnpj | PiiCategory.CreditCard => Confidence.High
  | PiiCategory.Email | PiiCategory.Ipv4 | PiiCategory.Phone | PiiCategory.Ssn => Confidence.Medium
  end.

(** [shannon_entropy(value) < ENTROPY_DEMOTE_THRESHOLD].  The entropy is the sum of
    [-(c/n) log2 (c/n)] over the bytes with a count [c]; it is below 2 exactly when
    [n^n < 4^n * prod c^c].  The code computes it in [f64]; the two differ at most in its
    rounding. *)
Definition occurrences (value : list N) (b : N) : N := N.of_nat (length (List.filter (λ x, (x =? b)%N) value)).

Definition entropy_below_threshold (value : list N) : bool :=
  if bool_decide (value = []) then true
  else
    let n := N.of_nat (length value) in
    let powers := (λ i, let c := occurrences value (N.of_nat i) in c ^ c)%N <$> seq 0 256 in
    (n ^ n <? 4 ^ n * foldr N.mul 1 powers)%N.

(** ** Secret rules *)

Definition length_valid (rule : SecretRule.t) (token_len : nat) : bool :=
  match SecretRule.exact_len rule with
  | Some exact => token_len =? exact
  | None =>
      match SecretRule.len_range rule with
      | Some (lo, hi) => (lo <=? token_len) && (token_len <=? hi)
      | None => true
      end
  end.

(** ** What the walk gives *)

Module ScannedFile.
Record t := mk { path : PathBuf; content : list N }.
End ScannedFile.

(** An entry of the walker: its path below the root ([None] when it is not below it), what
    its own file type says, and what [fs::metadata] (directory, length) and [fs::read] of it
    give. *)
Module Entry.
Record t := mk {
  relative : option PathBuf;
  is_dir : bool;
  is_file : bool;
  metadata : option (bool * N);
  bytes : option (list N)
}.
End Entry.

(** The [ignore] crate: building overrides, walking with and without the ignore rules (an
    entry that is an error is [None]), and matching a path. *)
Class Walker := {
  Overrides : Type;
  override_add : string → result unit string;
  override_build : list string → result Overrides string;
  walk_filtered : ScanConfig.t → Overrides → list (option Entry.t);
  walk_unfiltered : bool → list (option Entry.t);
  is_whitelist : Overrides → PathBuf → bool;
  is_ignore : Overrides → PathBuf → bool
}.

Section scan.
Context (sha256 : list N → list N) (hex_encode : list N → string).

Definition matched_fingerprint (value salt : list N) : string := hex_encode (sha256 (salt ++ value)).

Section one_file.
Context (content : list N) (path : PathBuf) (mode : PreviewMode.t) (fingerprint_salt : list N).

Definition secret_finding (rule : SecretRule.t) (start end_ : nat) (entropy_check : bool) : option ScanFinding.t :=
  if is_inside_marker content start then None
  else
    let value := sub content start end_ in
    let confidence := SecretRule.confidence rule in
    let confidence := if keyword_before_on_line content start then promote confidence else confidence in
    let confidence := if entropy_check && entropy_below_threshold value then demote confidence else confidence in
    Some (ScanFinding.mk path (line_number content start) start end_
            (FindingKind.Secret (SecretRule.id rule)) confidence (preview_with mode value)
            (matched_fingerprint value fingerprint_salt)).

(** One turn of the loop of [scan_rule]. *)
Definition rule_at (rule : SecretRule.t) (prefix : list N) (i : nat) : nat * list ScanFinding.t :=
  if bytes_prefix prefix (drop i content) then
    let end_ := run_while (Alphabet.contains (SecretRule.alphabet rule)) content (i + length prefix) in
    if length_valid rule (end_ - i) && is_char_boundary content i && is_char_boundary content end_
    then (end_ `max` (i + 1), option_list (secret_finding rule i end_ true))
    else (i + 1, [])
  else (i + 1, []).

(** The loop runs while [i <= bytes.len() - prefix.len()]. *)
Definition scan_rule (rule : SecretRule.t) : list ScanFinding.t :=
  match SecretRule.prefix rule with
  | None => []
  | Some prefix =>
      let prefix := str_bytes prefix in
      if length content <? length prefix then []
      else scan_while (length content - length prefix + 1) (rule_at rule prefix)
  end.

Definition PEM_BEGIN : list N := str_bytes "-----BEGIN".
Definition HEADER_PREFIX : list N := str_bytes "-----BEGIN ".
Definition END_MARKER : list N := str_bytes "PRIVATE KEY-----".

Definition pem_at (rule : SecretRule.t) (i : nat) : nat * list ScanFinding.t :=
  if bytes_prefix PEM_BEGIN (drop i content) then
    let line_end := run_while (λ c, negb (c =? NEWLINE)%N) content i in
    let tail := if (i <? line_end) && bool_decide (content !! (line_end - 1) = Some 13%N) then line_end - 1 else line_end in
    if is_char_boundary content i && is_char_boundary content tail then
      let line := sub content i tail in
      if bytes_prefix HEADER_PREFIX line && bytes_suffix END_MARKER line
      then (line_end `max` (i + 1), option_list (secret_finding rule i tail false))
      else (i + 1, [])
    else (i + 1, [])
  else (i + 1, []).

Definition scan_pem (rule : SecretRule.t) : list ScanFinding.t :=
  if length content <? length PEM_BEGIN then []
  else scan_while (length content - length PEM_BEGIN + 1) (pem_at rule).

Definition secret_id (kind : FindingKind.t) : string :=
  match kind with
  | FindingKind.Secret rule_id => rule_id
  | FindingKind.Jurisdiction _ _ rule_id _ => rule_id
  | FindingKind.Pii _ => ""
  end.

(** Best first: higher confidence, then longer, then smaller rule id. *)
Definition candidate_leb (a b : ScanFinding.t) : bool :=
  let ca := Confidence.rank (ScanFinding.confidence a) in
  let cb := Confidence.rank (ScanFinding.confidence b) in
  match Nat.compare cb ca with
  | Lt => true
  | Gt => false
  | Eq =>
      match Nat.compare (ScanFinding.end_ b - ScanFinding.start b) (ScanFinding.end_ a - ScanFinding.start a) with
      | Lt => true
      | Gt => false
      | Eq => match String.compare (secret_id (ScanFinding.kind a)) (secret_id (ScanFinding.kind b)) with
              | Gt => false | _ => true end
      end
  end.

Definition overlapping (c k : ScanFinding.t) : bool :=
  (ScanFinding.start c <? ScanFinding.end_ k) && (ScanFinding.start k <? ScanFinding.end_ c).

Fixpoint keep_best (kept candidates : list ScanFinding.t) : list ScanFinding.t :=
  match candidates with
  | [] => kept
  | c :: rest => if existsb (overlapping c) kept then keep_best kept rest else keep_best (kept ++ [c]) rest
  end.

Definition start_leb (a b : ScanFinding.t) : bool := ScanFinding.start a <=? ScanFinding.start b.

Definition dedup_overlaps (candidates : list ScanFinding.t) : list ScanFinding.t :=
  sort_by start_leb (keep_best [] (sort_by candidate_leb candidates)).

Definition secret_candidates : list ScanFinding.t :=
  concat (map (λ rule, if bool_decide (SecretRule.id rule = PEM_RULE_ID) then scan_pem rule else scan_rule rule) RULES).

Definition detect_secrets : list ScanFinding.t := dedup_overlaps secret_candidates.

(** ** Personal data and pattern packs *)

Definition detect_pii (policy : Policy.t) : list ScanFinding.t :=
  map (λ f, let value := sub content (Finding.start f) (Finding.end_ f) in
            ScanFinding.mk path (line_number content (Finding.start f)) (Finding.start f) (Finding.end_ f)
              (FindingKind.Pii (Finding.category f)) (pii_confidence (Finding.category f)) (preview_with mode value)
              (matched_fingerprint value fingerprint_salt))
    (List.filter (λ f, negb (is_inside_marker content (Finding.start f))) (scan content policy)).

Definition rule_confidence_of (c : RuleConfidence.t) : Confidence.t :=
  match c with
  | RuleConfidence.High => Confidence.High
  | RuleConfidence.Medium => Confidence.Medium
  | RuleConfidence.Low => Confidence.Low
  end.

Section packs.
Context {Regex : Type} (find_iter : Regex → string → list (nat * nat)).

Definition jurisdiction_finding (m : PatternMatch) : ScanFinding.t :=
  let value := sub content (m_start m) (m_end m) in
  ScanFinding.mk path (line_number content (m_start m)) (m_start m) (m_end m)
    (FindingKind.Jurisdiction (m_pack_id m) (m_pack_version m) (m_rule_id m) (m_validated m))
    (rule_confidence_of (m_confidence m)) (preview_with mode value) (matched_fingerprint value fingerprint_salt).

Definition detect_jurisdiction (packs : list (@ValidatedPack Regex)) (budget : MatchBudget) : list ScanFinding.t * bool :=
  if bool_decide (length packs = 0) then ([], false)
  else
    let outcome := match_all find_iter packs (str_of_bytes content) budget in
    (map jurisdiction_finding (List.filter (λ m, negb (is_inside_marker content (m_start m))) (matches outcome)),
     truncated outcome).
End packs.
End one_file.

(** ** filter.rs: context filters *)

Definition MAX_CARD_DIGITS : nat := 19.

(** [text.replace('\\', "/")]. *)
Definition slashes (text : list N) : list N := (λ b, if (b =? 92)%N then ch "/" else b) <$> text.

Definition GENERATED_DIRS : list string :=
  ["/node_modules/"; "/target/"; "/dist/"; "/build/"; "/vendor/"; "/.venv/"; "/__pycache__/"; "/.vite/";
   "/coverage/"; "/.next/"; "/.svelte-kit/"].

Definition GENERATED_SUFFIXES : list string :=
  [".min.js"; ".min.css"; ".map"; ".fdb_latexmk"; ".fls"; ".aux"; ".synctex.gz"; ".lock"; "-lock.json";
   ".bundle.js"; ".chunk.js"].

Definition is_generated_path (path : PathBuf) : bool :=
  let text := slashes (str_bytes (to_string_lossy path)) in
  let probe := ch "/" :: text in
  existsb (λ d, bytes_contain (str_bytes d) probe) GENERATED_DIRS
  || existsb (λ s, bytes_suffix (str_bytes s) text) GENERATED_SUFFIXES.

(** [p.parse::<u8>()]: an optional plus sign, then digits, at most 255. *)
Definition parse_u8 (p : list N) : option N :=
  let digits := match p with c :: p' => if (c =? ch "+")%N then p' else p | [] => [] end in
  if bool_decide (digits = []) || negb (forallb is_ascii_digit digits) then None
  else
    let n := foldl (λ n b, n * 10 + (b - 48))%N 0%N digits in
    if (n <=? 255)%N then Some n else None.

Definition is_non_identifying_ip (value : list N) : bool :=
  match parse_u8 <$> split_bytes (λ c, (c =? ch ".")%N) value with
  | [Some a; Some b; Some c; Some d] =>
      (a =? 127) || (a =? 0) || ((a =? 255) && (b =? 255) && (c =? 255) && (d =? 255))
      || (a =? 10) || ((a =? 172) && (16 <=? b) && (b <=? 31)) || ((a =? 192) && (b =? 168))
      || ((a =? 169) && (b =? 254)) || ((a =? 100) && (64 <=? b) && (b <=? 127)) || (224 <=? a)
      || ((a =? 192) && (b =? 0) && (c =? 2)) || ((a =? 198) && (b =? 51) && (c =? 100))
      || ((a =? 203) && (b =? 0) && (c =? 113))
  | _ => false
  end%N.

Definition adjacent_to_digits (content : list N) (start end_ : nat) : bool :=
  is_some_and (prev_byte content start) is_ascii_digit || is_some_and (content !! end_) is_ascii_digit.

Definition in_numeric_run (content : list N) (start end_ : nat) : bool :=
  adjacent_to_digits content start end_
  || (MAX_CARD_DIGITS <? length (List.filter is_ascii_digit (sub content start end_))).

(** The whole line containing byte offset [start]. *)
Definition line_slice (content : list N) (start : nat) : list N :=
  let start := start `min` length content in
  sub content (line_start content start) (run_while (λ c, negb (c =? NEWLINE)%N) content start).

Definition GEOMETRY_MARKERS : list (list N) :=
  [str_bytes "<path"; [32; 100; 61; 34]%N; str_bytes "viewBox"; str_bytes "translate("; str_bytes "matrix(";
   str_bytes "cubic-bezier("; str_bytes "polygon"; str_bytes "polyline"; str_bytes "stroke-dasharray";
   str_bytes "pathData"; str_bytes "android:path"; str_bytes "clipPathData"; str_bytes "fillColor"].

Definition is_geometry_byte (b : N) : bool :=
  is_ascii_digit b || bool_decide (b ∈ str_bytes ".,  -+MLCZHVSQTAmlczhvsqta").

Definition is_structured_numeric_context (content : list N) (start : nat) : bool :=
  let line := line_slice content start in
  existsb (λ m, bytes_contain m line) GEOMETRY_MARKERS
  || ((80 <=? length line) && (length line * 9 <=? length (List.filter is_geometry_byte line) * 10)).

(** [None] when [&content[..content.len().min(4096)]] cuts a character. *)
Definition is_vector_graphic (content : list N) (path : PathBuf) : option bool :=
  let name := lower_bytes (str_bytes (to_string_lossy path)) in
  if bytes_suffix (str_bytes ".svg") name then Some true
  else if negb (bytes_suffix (str_bytes ".xml") name) then Some false
  else
    match str_slice content 0 (length content `min` 4096) with
    | None => None
    | Some head => Some (bytes_contain (str_bytes "<vector") head || bytes_contain (str_bytes "<svg") head
                         || bytes_contain (str_bytes "android:pathData") head)
    end.

Definition PLACEHOLDER_MARKERS : list string :=
  ["your-api"; "your_api"; "your-key"; "your_key"; "your-token"; "your_token"; "changeme"; "change-me";
   "change_me"; "placeholder"; "redacted"; "insert-your"; "insert_your"; "replace-with"; "replace_with";
   "xxxxxxxx"; "aaaaaaaa"; "12345678"; "notarealkey"; "example.com"; "examplekey"; "example-key"; "example_key"].

Definition is_placeholder_value (value : list N) : bool :=
  let lower := lower_bytes value in
  existsb (λ m, bytes_contain (str_bytes m) lower) PLACEHOLDER_MARKERS
  || (let body := trim_bytes (λ c, negb (is_ascii_alphanumeric c))
                    (List.last (split_bytes (λ c, (c =? ch "-")%N || (c =? ch "_")%N) lower) lower) in
      (8 <=? length body) && forallb (λ c, (c =? default 0 (head body))%N) body).

Definition ASSIGNMENT_HINTS : list string :=
  ["api_key"; "apikey"; "api-key"; "openai"; "secret"; "token"; "key ="; "key="; "key:"; "bearer"; "authorization"].

Definition plausible_openai_key (content : list N) (finding : ScanFinding.t) : bool :=
  let value := sub content (ScanFinding.start finding) (ScanFinding.end_ finding) in
  let body := if bytes_prefix (str_bytes "sk-") value then drop 3 value else value in
  (40 <=? length body)
  || (let line := lower_bytes (line_slice content (ScanFinding.start finding)) in
      existsb (λ h, bytes_contain (str_bytes h) line) ASSIGNMENT_HINTS).

(** The end of the numeric branches: [None] is the panic. *)
Definition structured (content : list N) (path : PathBuf) (start : nat) : option (option SuppressionReason.t) :=
  match is_vector_graphic content path with
  | None => None
  | Some vector =>
      Some (if vector || is_structured_numeric_context content start
            then Some SuppressionReason.StructuredNumericData else None)
  end.

Definition suppression_reason (finding : ScanFinding.t) (content : list N) (path : PathBuf) :
    option (option SuppressionReason.t) :=
  let start := ScanFinding.start finding in
  let end_ := ScanFinding.end_ finding in
  if is_generated_path path then Some (Some SuppressionReason.GeneratedFile)
  else
    match ScanFinding.kind finding with
    | FindingKind.Pii PiiCategory.Ipv4 =>
        Some (if is_non_identifying_ip (sub content start end_) then Some SuppressionReason.NonIdentifyingAddress else None)
    | FindingKind.Pii (PiiCategory.CreditCard | PiiCategory.Cpf | PiiCategory.Cnpj | PiiCategory.Ssn) =>
        if in_numeric_run content start end_ then Some (Some SuppressionReason.EmbeddedInNumericRun)
        else structured content path start
    | FindingKind.Jurisdiction _ _ _ _ =>
        if adjacent_to_digits content start end_ then Some (Some SuppressionReason.EmbeddedInNumericRun)
        else structured content path start
    | FindingKind.Secret rule_id =>
        Some (if is_placeholder_value (sub content start end_) then Some SuppressionReason.PlaceholderValue
              else if bool_decide (rule_id = "openai_api_key") && negb (plausible_openai_key content finding)
              then Some SuppressionReason.ImplausibleKeyContext else None)
    | _ => Some None
    end.

Definition CARD_WORDS : list string :=
  ["card"; "cartao"; "cartão"; "credit"; "debit"; "pan"; "visa"; "mastercard"; "amex"; "payment"; "pagamento";
   "cvv"; "cvc"; "expiry"; "validade"].

Definition has_card_context (content : list N) (start : nat) : bool :=
  let line := lower_bytes (line_slice content start) in
  existsb (λ w, bytes_contain (str_bytes w) line) CARD_WORDS.

Definition adjust_confidence (finding : ScanFinding.t) (content : list N) (current : Confidence.t) : Confidence.t :=
  if bool_decide (ScanFinding.kind finding = FindingKind.Pii PiiCategory.CreditCard)
     && negb (has_card_context content (ScanFinding.start finding))
     && negb (bool_decide (current = Confidence.Low))
  then Confidence.Low else current.

(** ** walk.rs *)

Definition BINARY_SNIFF_LEN : nat := 8192.

Section walker.
Context `{W : Walker}.

Definition walk_error {A} (r : result A string) : result A ScanError.t :=
  match r with Ok v => Ok v | Err e => Err (ScanError.Walk e) end.

(** [OverrideBuilder::new(root)], one [add] per pattern, then [build]. *)
Definition build_overrides (patterns : list string) : result Overrides ScanError.t :=
  let? _ := try_for_each (λ p, walk_error (override_add p)) patterns in
  walk_error (override_build patterns).

Definition negate (pattern : string) : string := "!" +:+ pattern.

(** [coverage.skipped.push(...)], without the count. *)
Definition push_skip (coverage : Coverage.t) (path : PathBuf) (reason : SkipReason.t) : Coverage.t :=
  Coverage.mk (Coverage.files_scanned coverage) (Coverage.files_skipped coverage) (Coverage.files_ignored coverage)
    (Coverage.bytes_scanned coverage) (Coverage.skipped coverage ++ [Skipped.mk path reason]) (Coverage.suppressed coverage).

Definition scanned (coverage : Coverage.t) (content : list N) : Coverage.t :=
  Coverage.mk (Coverage.files_scanned coverage + 1) (Coverage.files_skipped coverage) (Coverage.files_ignored coverage)
    (Coverage.bytes_scanned coverage + N.of_nat (length content)) (Coverage.skipped coverage) (Coverage.suppressed coverage).

Abbreviation walk_state := (list ScannedFile.t * Coverage.t)%type.

(** What is read of a file below the root: its text, or why it is skipped. *)
Definition read_text (config : ScanConfig.t) (entry : Entry.t) : result (list N) SkipReason.t :=
  match Entry.metadata entry with
  | None => Err SkipReason.Unreadable
  | Some (_, len) =>
      if (ScanConfig.max_file_bytes config <? len)%N then Err SkipReason.TooLarge
      else match Entry.bytes entry with
           | None => Err SkipReason.Unreadable
           | Some bytes =>
               if existsb (λ b, (b =? 0)%N) (take BINARY_SNIFF_LEN bytes) then Err SkipReason.Binary
               else if utf8_valid bytes then Ok bytes else Err SkipReason.NotUtf8
           end
  end.

Definition collect (config : ScanConfig.t) (entry : Entry.t) (relative : PathBuf) (st : walk_state) : walk_state :=
  let '(files, coverage) := st in
  match read_text config entry with
  | Err reason => (files, push_skip coverage relative reason)
  | Ok content => (files ++ [ScannedFile.mk relative content], scanned coverage content)
  end.

(** The body of the main loop. *)
Definition walk_entry (config : ScanConfig.t) (st : walk_state) (entry : option Entry.t) : walk_state :=
  match entry with
  | None => st
  | Some entry =>
      if Entry.is_dir entry then st
      else match Entry.relative entry with
           | None => st
           | Some relative =>
               if is_some_and (Entry.metadata entry) fst then st
               else collect config entry relative st
           end
  end.

(** The body of the loop of [collect_always_scan]. *)
Definition always_entry (config : ScanConfig.t) (includes excludes : Overrides) (already : list PathBuf)
    (st : walk_state) (entry : option Entry.t) : walk_state :=
  match entry with
  | None => st
  | Some entry =>
      if negb (Entry.is_file entry) then st
      else match Entry.relative entry with
           | None => st
           | Some relative =>
               if negb (is_whitelist includes relative) || is_ignore excludes relative
                  || bool_decide (relative ∈ already)
               then st else collect config entry relative st
           end
  end.

Definition collect_always_scan (config : ScanConfig.t) (st : walk_state) : result walk_state ScanError.t :=
  let? includes := build_overrides (ScanConfig.always_scan config) in
  let? excludes := build_overrides ("!.git/**" :: (negate <$> ScanConfig.exclude config)) in
  let already := ScannedFile.path <$> st.1 in
  Ok (foldl (always_entry config includes excludes already) st (walk_unfiltered (ScanConfig.follow_symlinks config))).

Definition is_git_internal (relative : option PathBuf) : bool :=
  match relative with Some rel => bool_decide (Component.Normal ".git" ∈ rel) | None => false end.

Definition count_ignored (config : ScanConfig.t) (files : list ScannedFile.t) (coverage : Coverage.t) : N :=
  let examined := (N.of_nat (length files) + N.of_nat (length (Coverage.skipped coverage)))%N in
  let total := N.of_nat (length (List.filter
    (λ e, match e with
          | Some entry => Entry.is_file entry && negb (is_git_internal (Entry.relative entry))
          | None => false
          end) (walk_unfiltered (ScanConfig.follow_symlinks config)))) in
  (total - examined)%N.

Definition file_leb (a b : ScannedFile.t) : bool := path_leb (ScannedFile.path a) (ScannedFile.path b).
Definition skip_leb (a b : Skipped.t) : bool := path_leb (Skipped.path a) (Skipped.path b).

Definition walk (root_is_dir : bool) (config : ScanConfig.t) : result walk_state ScanError.t :=
  if negb root_is_dir then Err ScanError.InvalidRoot
  else
    let? overrides := build_overrides ("!.git/**" :: (negate <$> ScanConfig.exclude config)) in
    let st := foldl (walk_entry config) ([], Coverage.default) (walk_filtered config overrides) in
    let? st := if ScanConfig.respect_gitignore config && negb (bool_decide (ScanConfig.always_scan config = []))
               then collect_always_scan config st else Ok st in
    let '(files, coverage) := st in
    let files := sort_by file_leb files in
    let skipped := sort_by skip_leb (Coverage.skipped coverage) in
    let coverage := Coverage.mk (Coverage.files_scanned coverage) (N.of_nat (length skipped))
                      (Coverage.files_ignored coverage) (Coverage.bytes_scanned coverage) skipped
                      (Coverage.suppressed coverage) in
    Ok (files, Coverage.mk (Coverage.files_scanned coverage) (Coverage.files_skipped coverage)
                 (count_ignored config files coverage) (Coverage.bytes_scanned coverage) skipped
                 (Coverage.suppressed coverage)).
End walker.

(** ** The whole scan *)

Section project.
Context `{W : Walker} {Regex : Type}.
Context (build : string → result Regex regex_error) (is_match : Regex → string → bool).
Context (find_iter : Regex → string → list (nat * nat)).
Context (parse_pack : string → option PatternPack.t) (br eu us : string).
(** A pack named by a file: its text, or why it cannot be read. *)
Context (pack_file : string → option (result string string)) (show_pack_error : PackError.t → string).

Definition pack_error {A} (id : string) (r : result A PackError.t) : result A ScanError.t :=
  match r with Ok v => Ok v | Err e => Err (ScanError.Pack ("pack " +:+ id +:+ ": " +:+ show_pack_error e)) end.

Definition load_pack (id : string) : result (@ValidatedPack Regex) ScanError.t :=
  match pack_file id with
  | Some source =>
      let? source := match source with
                     | Ok s => Ok s
                     | Err e => Err (ScanError.Pack ("cannot read pack " +:+ id +:+ ": " +:+ e))
                     end in
      pack_error id (let? pack := from_toml parse_pack source in validate_pack build is_match pack)
  | None => pack_error id (load_builtin build is_match parse_pack br eu us id)
  end.

Fixpoint load_packs (ids : list string) : result (list (@ValidatedPack Regex)) ScanError.t :=
  match ids with
  | [] => Ok []
  | id :: ids' =>
      let? pack := load_pack id in
      let? packs := load_packs ids' in
      Ok (pack :: packs)
  end.

(** One candidate through the context filters; [None] is the panic. *)
Definition judge (file : ScannedFile.t) (st : list ScanFinding.t * Coverage.t) (finding : ScanFinding.t) :
    option (list ScanFinding.t * Coverage.t) :=
  let '(findings, coverage) := st in
  match suppression_reason finding (ScannedFile.content file) (ScannedFile.path file) with
  | None => None
  | Some (Some reason) =>
      let coverage := Coverage.record_suppression coverage reason in
      if SuppressionReason.is_removal reason then Some (findings, coverage)
      else Some (findings ++ [ScanFinding.with_confidence finding Confidence.Low], coverage)
  | Some None =>
      let confidence := adjust_confidence finding (ScannedFile.content file) (ScanFinding.confidence finding) in
      Some (findings ++ [ScanFinding.with_confidence finding confidence], coverage)
  end.

Fixpoint judge_all (file : ScannedFile.t) (st : list ScanFinding.t * Coverage.t) (candidates : list ScanFinding.t) :
    option (list ScanFinding.t * Coverage.t) :=
  match candidates with
  | [] => Some st
  | c :: rest => match judge file st c with None => None | Some st' => judge_all file st' rest end
  end.

(** The candidates of one file, and whether a budget cut the matching short. *)
Definition file_candidates (config : ScanConfig.t) (packs : list (@ValidatedPack Regex)) (file : ScannedFile.t) :
    list ScanFinding.t * bool :=
  let mode := ScanConfig.preview_mode config in
  let salt := ScanConfig.fingerprint_salt config in
  let content := ScannedFile.content file in
  let path := ScannedFile.path file in
  let '(jurisdiction, truncated) := detect_jurisdiction content path mode salt find_iter packs default_budget in
  (detect_secrets content path mode salt ++ detect_pii content path mode salt Policy.all ++ jurisdiction, truncated).

Fixpoint scan_files (config : ScanConfig.t) (packs : list (@ValidatedPack Regex))
    (st : list ScanFinding.t * Coverage.t) (files : list ScannedFile.t) : option (list ScanFinding.t * Coverage.t) :=
  match files with
  | [] => Some st
  | file :: rest =>
      let '(candidates, truncated) := file_candidates config packs file in
      let coverage := if truncated
                      then Coverage.record_skip st.2 (ScannedFile.path file) SkipReason.BudgetExhausted else st.2 in
      match judge_all file (st.1, coverage) candidates with
      | None => None
      | Some st' => scan_files config packs st' rest
      end
  end.

Definition report_leb (a b : ScanFinding.t) : bool :=
  match path_compare (ScanFinding.path a) (ScanFinding.path b) with
  | Lt => true
  | Gt => false
  | Eq => ScanFinding.start a <=? ScanFinding.start b
  end.

Definition reason_leb (a b : Suppressed.t) : bool :=
  SuppressionReason.rank (Suppressed.reason a) <=? SuppressionReason.rank (Suppressed.reason b).

Definition scan_project (root_is_dir : bool) (config : ScanConfig.t) : option (result ScanReport.t ScanError.t) :=
  match (let? walked := walk root_is_dir config in
         let? packs := load_packs (ScanConfig.packs config) in
         Ok (walked, packs)) with
  | Err e => Some (Err e)
  | Ok ((files, coverage), packs) =>
      match scan_files config packs ([], coverage) files with
      | None => None
      | Some (findings, coverage) =>
          let coverage := Coverage.mk (Coverage.files_scanned coverage) (Coverage.files_skipped coverage)
            (Coverage.files_ignored coverage) (Coverage.bytes_scanned coverage) (Coverage.skipped coverage)
            (sort_by reason_leb (Coverage.suppressed coverage)) in
          Some (Ok (ScanReport.mk (sort_by report_leb findings) coverage (ScanConfig.fingerprint_salt config)))
      end
  end.
End project.
End scan.
