(* ===== verification/Plan.v ===== *)
(** * Plan: remediation plans, their verification and their preview

    sv-remediate's [plan.rs], [verify.rs], [recovery.rs], [diff.rs] and [trust.rs].  A plan
    item pins one edit to an exact snapshot of a file; a plan is a list of items in canonical
    order with the digest an approval binds to.  HMAC-SHA256 and the JSON serialization are
    parameters; a Rust [String] is the list of its bytes. *)
From S2P Require Import Prelude Types Locator Bytes Paths Privacy ScanTypes.

(** ** Digests and keys *)

Abbreviation Digest := (list N).

Module PlanError.
Inductive t :=
| InvalidKey | NotRelative | SpanOutOfBounds | SpanNotCharBoundary | MarkerSpan
| OverlappingSpans (path : PathBuf) | Serialization (message : string) | IdentityUnavailable | InvalidDigest.

(** The [Display] strings. *)
Definition display (e : t) : string :=
  match e with
  | InvalidKey => "plan key must be exactly 32 bytes"
  | NotRelative => "path must be relative and stay inside the project"
  | SpanOutOfBounds => "span out of bounds or empty"
  | SpanNotCharBoundary => "span is not on a UTF-8 character boundary"
  | MarkerSpan => "span already contains a durable locator marker"
  | OverlappingSpans _ => "plan contains overlapping spans in one file"
  | Serialization m => "serialization failed: " +:+ m
  | IdentityUnavailable => "file identity unavailable on this platform or filesystem"
  | InvalidDigest => "invalid digest encoding"
  end.
End PlanError.

Module PlanKey.
Record t := mk { bytes : list N }.

Definition from_bytes (key : list N) : result t PlanError.t :=
  if length key =? 32 then Ok (mk key) else Err PlanError.InvalidKey.
End PlanKey.

(** ** Spans, identities and pins *)

Module ByteSpan.
Record t := mk { start : nat; end_ : nat }.
#[global] Instance t_eq_dec : EqDecision t.
Proof. solve_decision. Defined.

Definition new (start end_ : nat) : result t PlanError.t :=
  if end_ <=? start then Err PlanError.SpanOutOfBounds else Ok (mk start end_).

Definition slice (self : t) (src : list N) : result (list N) PlanError.t :=
  if (length src <? end_ self) || (end_ self <=? start self) then Err PlanError.SpanOutOfBounds
  else if negb (is_char_boundary src (start self)) || negb (is_char_boundary src (end_ self))
  then Err PlanError.SpanNotCharBoundary
  else Ok (sub src (start self) (end_ self)).

Definition overlaps (self other : t) : bool :=
  (start self <? end_ other) && (start other <? end_ self).
End ByteSpan.

(** [String::replace_range], of offsets that are character boundaries in order. *)
Definition replace_range (text : list N) (span : ByteSpan.t) (replacement : list N) : list N :=
  take (ByteSpan.start span) text ++ replacement ++ drop (ByteSpan.end_ span) text.

Module FileIdentity.
Inductive t := Unix (device inode : N) | Windows (volume index : N).
#[global] Instance t_eq_dec : EqDecision t.
Proof. solve_decision. Defined.
End FileIdentity.

Module RulePin.
Record t := mk { detector_version : string; pack_id : string; pack_version : string }.
#[global] Instance t_eq_dec : EqDecision t.
Proof. solve_decision. Defined.

(** The version of the scanner is the workspace's. *)
Definition scan_baseline (version : string) : t := mk version "sv-scan/baseline" version.
End RulePin.

(** ** Items *)

Module PlanItem.
Record t := mk {
  project_id : string;
  path : PathBuf;
  identity : FileIdentity.t;
  whole_file_digest : Digest;
  span : ByteSpan.t;
  matched_digest : Digest;
  rule_pin : RulePin.t;
  replacement : list N;
  kind : FindingKind.t
}.
#[global] Instance t_eq_dec : EqDecision t.
Proof. solve_decision. Defined.
End PlanItem.

Module PlanItemDraft.
Record t := mk {
  project_id : string;
  path : PathBuf;
  identity : FileIdentity.t;
  source : list N;
  span : ByteSpan.t;
  replacement : list N;
  kind : FindingKind.t;
  rule_pin : RulePin.t
}.
End PlanItemDraft.

(** The whole text is a durable locator marker. *)
Definition is_marker (text : list N) : bool :=
  match PublicLocator.parse (str_of_bytes text) with Ok _ => true | Err _ => false end.

(** The components that are pushed: [None] at one that is neither normal nor the current
    directory. *)
Fixpoint normal_components (path : PathBuf) : option PathBuf :=
  match path with
  | [] => Some []
  | Component.Normal segment :: rest =>
      match normal_components rest with Some out => Some (Component.Normal segment :: out) | None => None end
  | Component.CurDir :: rest => normal_components rest
  | _ => None
  end.

Definition normalize_relative (path : PathBuf) : result PathBuf PlanError.t :=
  match path with
  | [] => Err PlanError.NotRelative
  | _ => match normal_components path with
         | Some (c :: out) => Ok (c :: out)
         | _ => Err PlanError.NotRelative
         end
  end.

(** ** Recovery records and the journal *)

Module RecoveryRecord.
Record t := mk {
  plan_digest : Digest;
  project_id : string;
  path : PathBuf;
  identity : FileIdentity.t;
  snapshot_digest : Digest;
  snapshot_ref : string;
  discovery : DiscoveryPolicy.t;
  locator : option (list N);
  span : option ByteSpan.t;
  replacement : option (list N);
  created_at : N
}.

Definition locator_consistent (self : t) : bool :=
  match discovery self, locator self with
  | DiscoveryPolicy.Opaque, None => true
  | DiscoveryPolicy.Discoverable, Some external => is_marker external
  | _, _ => false
  end.
End RecoveryRecord.

Module JournalState.
Inductive t :=
| Pending
| VaultStored (locator : option (list N))
| FileReplaced
| Failed (reason : string)
| RolledBack.
#[global] Instance t_eq_dec : EqDecision t.
Proof. solve_decision. Defined.
End JournalState.

Module JournalEntry.
Record t := mk { path : PathBuf; state : JournalState.t; at_ : N }.
End JournalEntry.

Module RewriteJournal.
Record t := mk { plan_digest : Digest; project_id : string; entries : list JournalEntry.t }.
End RewriteJournal.

(** ** Building and verifying *)

Module RewritePlan.
Record t := mk { items : list PlanItem.t; plan_digest : Digest }.
End RewritePlan.

Inductive VerifyOutcome := Verified | Stale.

(** The canonical order: project, path, start, end. *)
Definition item_compare (a b : PlanItem.t) : comparison :=
  match String.compare (PlanItem.project_id a) (PlanItem.project_id b) with
  | Eq =>
      match path_compare (PlanItem.path a) (PlanItem.path b) with
      | Eq =>
          match Nat.compare (ByteSpan.start (PlanItem.span a)) (ByteSpan.start (PlanItem.span b)) with
          | Eq => Nat.compare (ByteSpan.end_ (PlanItem.span a)) (ByteSpan.end_ (PlanItem.span b))
          | c => c
          end
      | c => c
      end
  | c => c
  end.

Definition item_leb (a b : PlanItem.t) : bool := match item_compare a b with Gt => false | _ => true end.

(** Two items of one file whose spans meet. *)
Definition clash (a b : PlanItem.t) : bool :=
  bool_decide (PlanItem.project_id a = PlanItem.project_id b)
  && bool_decide (PlanItem.path a = PlanItem.path b)
  && ByteSpan.overlaps (PlanItem.span a) (PlanItem.span b).

(** [for pair in items.windows(2)]. *)
Fixpoint check_adjacent (items : list PlanItem.t) : result unit PlanError.t :=
  match items with
  | a :: (b :: _) as rest =>
      if clash a b then Err (PlanError.OverlappingSpans (PlanItem.path a)) else check_adjacent rest
  | _ => Ok tt
  end.

Section keyed.
Context (hmac : list N → list N → list N).
Context (encode_items : list PlanItem.t → result (list N) string).

Definition keyed_digest (key : PlanKey.t) (bytes : list N) : Digest := hmac (PlanKey.bytes key) bytes.

Definition build_item (draft : PlanItemDraft.t) (key : PlanKey.t) : result PlanItem.t PlanError.t :=
  let? path := normalize_relative (PlanItemDraft.path draft) in
  let? matched := ByteSpan.slice (PlanItemDraft.span draft) (PlanItemDraft.source draft) in
  if is_marker matched then Err PlanError.MarkerSpan
  else
    let whole_file_digest := keyed_digest key (PlanItemDraft.source draft) in
    let matched_digest := keyed_digest key matched in
    Ok (PlanItem.mk (PlanItemDraft.project_id draft) path (PlanItemDraft.identity draft) whole_file_digest
          (PlanItemDraft.span draft) matched_digest (PlanItemDraft.rule_pin draft)
          (PlanItemDraft.replacement draft) (PlanItemDraft.kind draft)).

Definition build_plan (items : list PlanItem.t) (key : PlanKey.t) : result RewritePlan.t PlanError.t :=
  let items := sort_by item_leb items in
  let? _ := check_adjacent items in
  let? encoded := match encode_items items with Ok e => Ok e | Err m => Err (PlanError.Serialization m) end in
  Ok (RewritePlan.mk items (keyed_digest key encoded)).

Definition verify_plan_item (item : PlanItem.t) (key : PlanKey.t) (current : list N) : VerifyOutcome :=
  if negb (bool_decide (keyed_digest key current = PlanItem.whole_file_digest item)) then Stale
  else match ByteSpan.slice (PlanItem.span item) current with
       | Err _ => Stale
       | Ok matched =>
           if negb (bool_decide (keyed_digest key matched = PlanItem.matched_digest item)) then Stale else Verified
       end.
End keyed.

(** ** The preview (diff.rs) *)

Definition LCS_CELL_CAP : N := 1000000.

Module DiffTag.
Inductive t := Context | Delete | Insert.
#[global] Instance t_eq_dec : EqDecision t.
Proof. solve_decision. Defined.
End DiffTag.

Module DiffLine.
Record t := mk { tag : DiffTag.t; old_no : option nat; new_no : option nat; text : list N }.
End DiffLine.

Module FileDiff.
Record t := mk { path : PathBuf; missing : bool; skipped_spans : nat; lines : list DiffLine.t }.
End FileDiff.

(** The lines of a text without their newline; no empty line after a final newline. *)
Fixpoint split_lines_go (line text : list N) : list (list N) :=
  match text with
  | [] => match line with [] => [] | _ => [reverse line] end
  | c :: text' => if (c =? 10)%N then reverse line :: split_lines_go [] text' else split_lines_go (c :: line) text'
  end.

Definition split_lines (text : list N) : list (list N) := split_lines_go [] text.

Module MiddleOp.
Inductive t := Equal | Del (i : nat) | Ins (j : nat).
End MiddleOp.

(** Row [i] of the table, from line [i] and row [i + 1]. *)
Fixpoint lcs_row (x : list N) (b : list (list N)) (below : list nat) : list nat :=
  match b, below with
  | y :: b', d :: below' =>
      let rest := lcs_row x b' below' in
      (if bool_decide (x = y) then default 0 (head below') + 1 else d `max` default 0 (head rest)) :: rest
  | _, _ => [0]
  end.

Fixpoint lcs_table (a b : list (list N)) : list (list nat) :=
  match a with
  | [] => [replicate (length b + 1) 0]
  | x :: a' => let table := lcs_table a' b in lcs_row x b (default [] (head table)) :: table
  end.

Definition cell (table : list (list nat)) (i j : nat) : nat := default 0 (default [] (table !! i) !! j).

(** [while i < n && j < m], then the rests. *)
Fixpoint lcs_walk (fuel : nat) (a b : list (list N)) (table : list (list nat)) (i j : nat) : option (list MiddleOp.t) :=
  match a !! i, b !! j with
  | Some x, Some y =>
      match fuel with
      | 0 => None
      | S fuel =>
          if bool_decide (x = y) then cons MiddleOp.Equal <$> lcs_walk fuel a b table (S i) (S j)
          else if cell table i (S j) <=? cell table (S i) j
          then cons (MiddleOp.Del i) <$> lcs_walk fuel a b table (S i) j
          else cons (MiddleOp.Ins j) <$> lcs_walk fuel a b table i (S j)
      end
  | _, _ => Some ((MiddleOp.Del <$> seq i (length a - i)) ++ (MiddleOp.Ins <$> seq j (length b - j)))
  end.

Definition diff_middle (a b : list (list N)) : option (list MiddleOp.t) :=
  match a, b with
  | [], _ => Some (MiddleOp.Ins <$> seq 0 (length b))
  | _, [] => Some (MiddleOp.Del <$> seq 0 (length a))
  | _, _ =>
      if (LCS_CELL_CAP <? N.of_nat (length a) * N.of_nat (length b))%N
      then Some ((MiddleOp.Del <$> seq 0 (length a)) ++ (MiddleOp.Ins <$> seq 0 (length b)))
      else lcs_walk (length a + length b) a b (lcs_table a b) 0 0
  end.

(** The length of the common prefix. *)
Fixpoint common_prefix (a b : list (list N)) : nat :=
  match a, b with
  | x :: a', y :: b' => if bool_decide (x = y) then S (common_prefix a' b') else 0
  | _, _ => 0
  end.

(** The operations as lines; [None] is an index out of range. *)
Fixpoint emit (a b : list (list N)) (old_no new_no : nat) (ops : list MiddleOp.t) : option (list DiffLine.t) :=
  match ops with
  | [] => Some []
  | MiddleOp.Equal :: ops' =>
      match a !! old_no with
      | None => None
      | Some text =>
          cons (DiffLine.mk DiffTag.Context (Some (S old_no)) (Some (S new_no)) text) <$> emit a b (S old_no) (S new_no) ops'
      end
  | MiddleOp.Del i :: ops' =>
      match a !! i with
      | None => None
      | Some text => cons (DiffLine.mk DiffTag.Delete (Some (S old_no)) None text) <$> emit a b (S old_no) new_no ops'
      end
  | MiddleOp.Ins j :: ops' =>
      match b !! j with
      | None => None
      | Some text => cons (DiffLine.mk DiffTag.Insert None (Some (S new_no)) text) <$> emit a b old_no (S new_no) ops'
      end
  end.

(** Middle-relative indices on the full arrays. *)
Definition rebase (prefix : nat) (op : MiddleOp.t) : MiddleOp.t :=
  match op with
  | MiddleOp.Equal => MiddleOp.Equal
  | MiddleOp.Del i => MiddleOp.Del (prefix + i)
  | MiddleOp.Ins j => MiddleOp.Ins (prefix + j)
  end.

Definition line_diff (old new : list N) : option (list DiffLine.t) :=
  let a := split_lines old in
  let b := split_lines new in
  let prefix := common_prefix a b in
  let suffix := common_prefix (reverse (drop prefix a)) (reverse (drop prefix b)) in
  let middle_a := take (length a - suffix - prefix) (drop prefix a) in
  let middle_b := take (length b - suffix - prefix) (drop prefix b) in
  match diff_middle middle_a middle_b with
  | None => None
  | Some middle_ops =>
      emit a b 0 0 (replicate prefix MiddleOp.Equal ++ (rebase prefix <$> middle_ops) ++ replicate suffix MiddleOp.Equal)
  end.

(** One item on the text so far: the new text and whether the span was skipped.  [None] is
    the panic of [replace_range] on an inverted span. *)
Definition preview_item (item : PlanItem.t) (st : list N * nat) : option (list N * nat) :=
  let '(text, skipped) := st in
  let span := PlanItem.span item in
  if (length text <? ByteSpan.end_ span) || negb (is_char_boundary text (ByteSpan.start span))
     || negb (is_char_boundary text (ByteSpan.end_ span))
  then Some (text, S skipped)
  else if ByteSpan.end_ span <? ByteSpan.start span then None
  else Some (replace_range text span (PlanItem.replacement item), skipped).

(** [for item in group.iter().rev()]. *)
Fixpoint preview_group (group : list PlanItem.t) (content : list N) : option (list N * nat) :=
  match group with
  | [] => Some (content, 0)
  | item :: rest => match preview_group rest content with None => None | Some st => preview_item item st end
  end.

(** The maximal runs of items with one path. *)
Fixpoint groups (items : list PlanItem.t) : list (PathBuf * list PlanItem.t) :=
  match items with
  | [] => []
  | item :: rest =>
      match groups rest with
      | (path, group) :: gs =>
          if bool_decide (path = PlanItem.path item) then (path, item :: group) :: gs
          else (PlanItem.path item, [item]) :: (path, group) :: gs
      | [] => [(PlanItem.path item, [item])]
      end
  end.

Definition file_diff (files : PathBuf → option (list N)) (g : PathBuf * list PlanItem.t) : option FileDiff.t :=
  match files g.1 with
  | None => Some (FileDiff.mk g.1 true 0 [])
  | Some content =>
      match preview_group g.2 content with
      | None => None
      | Some (text, skipped) =>
          match line_diff content text with
          | None => None
          | Some lines => Some (FileDiff.mk g.1 false skipped lines)
          end
      end
  end.

Definition dry_run_diff (plan : RewritePlan.t) (files : PathBuf → option (list N)) : option (list FileDiff.t) :=
  mapM (file_diff files) (groups (RewritePlan.items plan)).

(** The rendering. *)
Definition tag_prefix (tag : DiffTag.t) : N :=
  match tag with DiffTag.Context => 32 | DiffTag.Delete => 45 | DiffTag.Insert => 43 end.

Definition to_unified (self : FileDiff.t) : list N :=
  let name := str_bytes (to_string_lossy (FileDiff.path self)) in
  if FileDiff.missing self
  then str_bytes "--- a/" ++ name ++ [10%N] ++ str_bytes "+++ (content not supplied)" ++ [10%N]
  else str_bytes "--- a/" ++ name ++ [10%N] ++ str_bytes "+++ b/" ++ name ++ [10%N]
       ++ concat (map (λ line, tag_prefix (DiffLine.tag line) :: DiffLine.text line ++ [10%N]) (FileDiff.lines self)).

(** ** Trust defaults (trust.rs) *)

Section trust.
(** [str::to_lowercase], which uses the Unicode tables. *)
Context (to_lowercase : list N → list N).

Definition default_selected (_ : ScanFinding.t) : bool := false.

Definition pii_is_never_default (category : PiiCategory.t) : bool :=
  match category with
  | PiiCategory.Email | PiiCategory.Cpf | PiiCategory.Cnpj | PiiCategory.CreditCard
  | PiiCategory.Phone | PiiCategory.Ssn | PiiCategory.Ipv4 => true
  end.

Definition test_credential_rule (rule_id : string) : bool :=
  bytes_contain (str_bytes "_test_") (str_bytes rule_id) || bytes_prefix (str_bytes "test_") (str_bytes rule_id).

Definition path_is_generated_artifact (path : PathBuf) : bool :=
  existsb (λ component, bool_decide (component ∈ str_bytes <$> ["out"; "dist"; "target"; "build"; "node_modules"]))
    (split_bytes (λ c, (c =? ch "/")%N || (c =? 92)%N) (to_lowercase (str_bytes (to_string_lossy path)))).

Definition path_is_test_fixture (path : PathBuf) : bool :=
  match file_name path with
  | None => false
  | Some name =>
      let name := to_lowercase (str_bytes name) in
      bool_decide (name = str_bytes ".env.example") || bool_decide (name = str_bytes ".env.fake")
      || bytes_contain (str_bytes ".test.") name
  end.

Definition is_never_default (finding : ScanFinding.t) : bool :=
  if path_is_generated_artifact (ScanFinding.path finding) || path_is_test_fixture (ScanFinding.path finding) then true
  else match ScanFinding.kind finding with
       | FindingKind.Pii category => pii_is_never_default category
       | FindingKind.Jurisdiction _ _ _ _ => true
       | FindingKind.Secret rule_id => test_credential_rule rule_id
       end.
End trust.
