(* ===== verification/PlanSpec.v ===== *)
(** * PlanSpec: plans are canonical, previews are substitutions

    The order of a plan is total, the check of adjacent items finds every overlap, and a list
    of edits in any order gives one plan.  The preview of a file is compared with the
    simultaneous substitution of its spans, and a line diff with the two texts it is between. *)
From S2P Require Import Prelude Types Locator Bytes Paths Privacy ScanTypes Plan.

Lemma StronglySorted_lookup_lt {A} (R : relation A) l i j a b :
  StronglySorted R l → l !! i = Some a → l !! j = Some b → i < j → R a b.
Proof.
  intros Hs. revert i j. induction Hs as [|x l Hs IH Hx]; intros [|i] [|j] Hi Hj Hij; try done; try lia.
  - cbn in Hi, Hj. simplify_eq. rewrite Forall_lookup in Hx. eauto.
  - apply (IH i j); [done|done|lia].
Qed.

(** ** Lexicographic comparisons *)

(** What a comparison has to satisfy for sorting by it. *)
Record CmpLaws {A} (cmp : A → A → comparison) : Prop := {
  cmp_antisym : ∀ a b, cmp b a = CompOpp (cmp a b);
  cmp_trans : ∀ a b c, cmp a b = Lt → cmp b c = Lt → cmp a c = Lt;
  cmp_subst : ∀ a b c, cmp a b = Eq → cmp a c = cmp b c
}.

Definition cmp_then {A} (f g : A → A → comparison) (a b : A) : comparison :=
  match f a b with Eq => g a b | c => c end.

Section cmp.
Context {A : Type}.
Implicit Types (f g : A → A → comparison).

Lemma cmp_on {B} (key : A → B) (cmp : B → B → comparison) :
  CmpLaws cmp → CmpLaws (λ a b, cmp (key a) (key b)).
Proof. intros [H1 H2 H3]. split; eauto. Qed.

Lemma cmp_subst_r f a b c : CmpLaws f → f b c = Eq → f a b = f a c.
Proof.
  intros Hf Hbc. rewrite (cmp_antisym _ Hf b a), (cmp_antisym _ Hf c a). by rewrite (cmp_subst _ Hf _ _ a Hbc).
Qed.

Lemma cmp_then_laws f g : CmpLaws f → CmpLaws g → CmpLaws (cmp_then f g).
Proof.
  intros Hf Hg. split; unfold cmp_then.
  - intros a b. rewrite (cmp_antisym _ Hf a b). destruct (f a b); cbn; [apply (cmp_antisym _ Hg)|done..].
  - intros a b c. destruct (f a b) eqn:E1; [|destruct (f b c) eqn:E2|done].
    + rewrite (cmp_subst _ Hf _ _ c E1). destruct (f b c); [apply (cmp_trans _ Hg)|done..].
    + by rewrite <-(cmp_subst_r _ a _ _ Hf E2), E1.
    + by rewrite (cmp_trans _ Hf _ _ _ E1 E2).
    + done.
  - intros a b c. destruct (f a b) eqn:E1; [|done..]. intros E2. rewrite (cmp_subst _ Hf _ _ c E1).
    destruct (f b c); [by apply (cmp_subst _ Hg)|done..].
Qed.

Definition leb_of f (a b : A) : bool := match f a b with Gt => false | _ => true end.

Lemma leb_of_total f a b : CmpLaws f → leb_of f a b = true ∨ leb_of f b a = true.
Proof. intros Hf. unfold leb_of. rewrite (cmp_antisym _ Hf a b). destruct (f a b); auto. Qed.

Lemma leb_of_trans f a b c : CmpLaws f → leb_of f a b = true → leb_of f b c = true → leb_of f a c = true.
Proof.
  intros Hf. unfold leb_of. destruct (f a b) eqn:E1; [|destruct (f b c) eqn:E2|done].
  - by rewrite (cmp_subst _ Hf _ _ c E1).
  - by rewrite <-(cmp_subst_r _ a _ _ Hf E2), E1.
  - by rewrite (cmp_trans _ Hf _ _ _ E1 E2).
  - done.
Qed.

(** Between two elements with equal first keys there is no other first key. *)
Lemma leb_of_squeeze f g a b c :
  CmpLaws f → CmpLaws g → leb_of (cmp_then f g) a b = true → leb_of (cmp_then f g) b c = true →
  f a c = Eq → f a b = Eq.
Proof.
  intros Hf Hg. unfold leb_of, cmp_then. destruct (f a b) eqn:E1; [done| |done]. intros _.
  destruct (f b c) eqn:E2; [| |done]; intros _ Hac.
  - by rewrite <-(cmp_subst_r _ a _ _ Hf E2), E1 in Hac.
  - by rewrite (cmp_trans _ Hf _ _ _ E1 E2) in Hac.
Qed.
End cmp.

Lemma string_cmp_laws : CmpLaws String.compare.
Proof.
  split.
  - intros a b. apply String.compare_antisym.
  - apply str_compare_lt_trans.
  - by intros a b c ->%String.compare_eq_iff.
Qed.

Lemma path_cmp_laws : CmpLaws path_compare.
Proof.
  split.
  - intros a b. apply path_compare_antisym.
  - apply path_lt_trans.
  - intros a b c H. by apply path_compare_eq in H as ->.
Qed.

Lemma nat_cmp_laws : CmpLaws Nat.compare.
Proof.
  split.
  - intros a b. apply Nat.compare_antisym.
  - intros a b c. rewrite !Nat.compare_lt_iff. lia.
  - by intros a b c ->%Nat.compare_eq.
Qed.

(** ** The order of a plan *)

Definition file_compare : PlanItem.t → PlanItem.t → comparison :=
  cmp_then (λ a b, String.compare (PlanItem.project_id a) (PlanItem.project_id b))
           (λ a b, path_compare (PlanItem.path a) (PlanItem.path b)).

Definition span_compare : PlanItem.t → PlanItem.t → comparison :=
  cmp_then (λ a b, Nat.compare (ByteSpan.start (PlanItem.span a)) (ByteSpan.start (PlanItem.span b)))
           (λ a b, Nat.compare (ByteSpan.end_ (PlanItem.span a)) (ByteSpan.end_ (PlanItem.span b))).

Lemma item_compare_then a b : item_compare a b = cmp_then file_compare span_compare a b.
Proof.
  unfold item_compare, file_compare, span_compare, cmp_then.
  destruct (String.compare _ _); [|done..]. destruct (path_compare _ _); [|done..]. by destruct (Nat.compare _ _).
Qed.

Lemma item_leb_of a b : item_leb a b = leb_of (cmp_then file_compare span_compare) a b.
Proof. unfold item_leb, leb_of. by rewrite item_compare_then. Qed.

Lemma file_cmp_laws : CmpLaws file_compare.
Proof. apply cmp_then_laws; [apply cmp_on, string_cmp_laws|apply cmp_on, path_cmp_laws]. Qed.

Lemma span_cmp_laws : CmpLaws span_compare.
Proof. apply cmp_then_laws; apply cmp_on, nat_cmp_laws. Qed.

Lemma item_leb_total a b : item_leb a b = true ∨ item_leb b a = true.
Proof. rewrite !item_leb_of. apply leb_of_total, cmp_then_laws; [apply file_cmp_laws|apply span_cmp_laws]. Qed.

Lemma item_leb_trans a b c : item_leb a b = true → item_leb b c = true → item_leb a c = true.
Proof. rewrite !item_leb_of. apply leb_of_trans, cmp_then_laws; [apply file_cmp_laws|apply span_cmp_laws]. Qed.

(** The items of one file. *)
Definition same_file (a b : PlanItem.t) : Prop :=
  PlanItem.project_id a = PlanItem.project_id b ∧ PlanItem.path a = PlanItem.path b.

Lemma same_file_compare a b : file_compare a b = Eq ↔ same_file a b.
Proof.
  unfold file_compare, cmp_then, same_file. destruct (String.compare _ _) eqn:E.
  - apply String.compare_eq_iff in E. rewrite path_compare_eq. naive_solver.
  - split; [done|]. intros [H _]. by rewrite H, str_compare_refl in E.
  - split; [done|]. intros [H _]. by rewrite H, str_compare_refl in E.
Qed.

Lemma item_leb_start a b :
  item_leb a b = true → same_file a b → ByteSpan.start (PlanItem.span a) ≤ ByteSpan.start (PlanItem.span b).
Proof.
  rewrite item_leb_of. intros H Hs%same_file_compare. revert H. unfold leb_of, cmp_then. rewrite Hs.
  unfold span_compare, cmp_then. destruct (Nat.compare _ _) eqn:E; [|intros _|done].
  - apply Nat.compare_eq in E. lia.
  - apply Nat.compare_lt_iff in E. lia.
Qed.

(** [PlanItem::build] only makes items with non-empty spans. *)
Definition span_nonempty (item : PlanItem.t) : Prop :=
  ByteSpan.start (PlanItem.span item) < ByteSpan.end_ (PlanItem.span item).

(** [a] ends before [b] starts, when they edit one file. *)
Definition before (a b : PlanItem.t) : Prop :=
  same_file a b → ByteSpan.end_ (PlanItem.span a) ≤ ByteSpan.start (PlanItem.span b).

Lemma clash_spec a b :
  clash a b = true ↔ same_file a b ∧ ByteSpan.overlaps (PlanItem.span a) (PlanItem.span b) = true.
Proof. unfold clash, same_file. rewrite !andb_true_iff, !bool_decide_eq_true. tauto. Qed.

Lemma check_adjacent_before l :
  Forall span_nonempty l → StronglySorted (λ a b, item_leb a b = true) l →
  check_adjacent l = Ok tt → StronglySorted before l.
Proof.
  induction l as [|a l IH]; [constructor|].
  intros [Ha Hl]%Forall_cons [Hs Hle]%StronglySorted_inv Hc.
  destruct l as [|b l]; [repeat constructor|]. cbn [check_adjacent] in Hc.
  destruct (clash a b) eqn:E; [done|]. specialize (IH Hl Hs Hc).
  assert (before a b) as Hab.
  { intros Hf. apply not_true_iff_false in E. rewrite clash_spec in E. apply Forall_cons in Hle as [Hle _].
    pose proof (item_leb_start _ _ Hle Hf). apply Forall_cons in Hl as [Hb _].
    unfold span_nonempty in *. unfold ByteSpan.overlaps in E. rewrite andb_true_iff, !Nat.ltb_lt in E.
    apply Nat.nlt_ge. intros Hlt. apply E. split; [done|]. lia. }
  constructor; [done|]. apply Forall_cons. split; [done|].
  apply Forall_forall. intros c Hcl Hac.
  apply Forall_cons in Hle as [Hle1 Hle2]. apply StronglySorted_inv in Hs as [_ Hle3].
  apply StronglySorted_inv in IH as [_ IH].
  rewrite Forall_forall in Hle3, IH. specialize (Hle3 c Hcl). specialize (IH c Hcl).
  assert (same_file a b) as Hs1.
  { apply same_file_compare. rewrite item_leb_of in Hle1, Hle3. apply same_file_compare in Hac.
    eapply leb_of_squeeze; [apply file_cmp_laws|apply span_cmp_laws|done..]. }
  assert (same_file b c) as Hs2 by (unfold same_file in *; naive_solver congruence).
  specialize (Hab Hs1). specialize (IH Hs2). apply Forall_cons in Hl as [Hb _]. unfold span_nonempty in Hb. lia.
Qed.

(** Two edits of a valid plan with the same key are the same edit. *)
Lemma before_unique l a b :
  Forall span_nonempty l → StronglySorted before l → a ∈ l → b ∈ l →
  item_leb a b = true → item_leb b a = true → a = b.
Proof.
  intros Hn Hs Ha Hb H1 H2.
  assert (same_file a b) as Hf.
  { apply same_file_compare. rewrite item_leb_of in H1, H2. unfold leb_of, cmp_then in H1, H2.
    rewrite (cmp_antisym _ file_cmp_laws a b) in H2. by destruct (file_compare a b). }
  assert (same_file b a) as Hf' by (by destruct Hf).
  pose proof (item_leb_start _ _ H1 Hf). pose proof (item_leb_start _ _ H2 Hf').
  apply list_elem_of_lookup in Ha as [i Hi]. apply list_elem_of_lookup in Hb as [j Hj].
  rewrite Forall_lookup in Hn. pose proof (Hn _ _ Hi). pose proof (Hn _ _ Hj). unfold span_nonempty in *.
  destruct (decide (i = j)) as [->|Hij]; [congruence|]. exfalso.
  destruct (decide (i < j)) as [Hlt|Hge].
  - pose proof (StronglySorted_lookup_lt _ _ _ _ _ _ Hs Hi Hj Hlt Hf). lia.
  - pose proof (StronglySorted_lookup_lt _ _ _ _ _ _ Hs Hj Hi ltac:(lia) Hf'). lia.
Qed.

Lemma check_adjacent_clash l a b :
  Forall span_nonempty l → StronglySorted (λ a b, item_leb a b = true) l →
  ∀ i j, i ≠ j → l !! i = Some a → l !! j = Some b → clash a b = true →
  ∃ path, check_adjacent l = Err (PlanError.OverlappingSpans path).
Proof.
  intros Hn Hs i j Hij Hi Hj Hc.
  destruct (check_adjacent l) as [[]|e] eqn:E.
  - apply check_adjacent_before in E; [|done..]. exfalso. apply clash_spec in Hc as [Hf Ho].
    unfold ByteSpan.overlaps in Ho. rewrite andb_true_iff, !Nat.ltb_lt in Ho.
    destruct (decide (i < j)) as [Hlt|Hge].
    + pose proof (StronglySorted_lookup_lt _ _ _ _ _ _ E Hi Hj Hlt Hf). lia.
    + assert (same_file b a) as Hf' by (by destruct Hf).
      pose proof (StronglySorted_lookup_lt _ _ _ _ _ _ E Hj Hi ltac:(lia) Hf'). lia.
  - clear -E. revert E. induction l as [|x l IH]; [done|]. destruct l as [|y l]; [done|]. cbn [check_adjacent].
    destruct (clash x y); [|done]. intros [= <-]. by exists (PlanItem.path x).
Qed.

(** ** Line diffs *)

(** The operations lead from line [i], [j] of the two texts to line [i'], [j']. *)
Inductive script (a b : list (list N)) : nat → nat → list MiddleOp.t → nat → nat → Prop :=
| script_nil i j : script a b i j [] i j
| script_equal i j x ops i' j' :
    a !! i = Some x → b !! j = Some x → script a b (S i) (S j) ops i' j' →
    script a b i j (MiddleOp.Equal :: ops) i' j'
| script_del i j x ops i' j' :
    a !! i = Some x → script a b (S i) j ops i' j' → script a b i j (MiddleOp.Del i :: ops) i' j'
| script_ins i j y ops i' j' :
    b !! j = Some y → script a b i (S j) ops i' j' → script a b i j (MiddleOp.Ins j :: ops) i' j'.

Create HintDb script.
#[export] Hint Constructors script : script.

Lemma script_app a b i j ops i1 j1 ops' i2 j2 :
  script a b i j ops i1 j1 → script a b i1 j1 ops' i2 j2 → script a b i j (ops ++ ops') i2 j2.
Proof. induction 1; cbn [app]; eauto with script. Qed.

Lemma script_equals a b i j n :
  (∀ k, k < n → ∃ x, a !! (i + k) = Some x ∧ b !! (j + k) = Some x) →
  script a b i j (replicate n MiddleOp.Equal) (i + n) (j + n).
Proof.
  revert i j. induction n as [|n IH]; intros i j H; cbn [replicate].
  { rewrite !Nat.add_0_r. constructor. }
  destruct (H 0 ltac:(lia)) as (x & Ha & Hb). rewrite Nat.add_0_r in Ha, Hb.
  econstructor; [done..|]. replace (i + S n) with (S i + n) by lia. replace (j + S n) with (S j + n) by lia.
  apply IH. intros k Hk. destruct (H (S k) ltac:(lia)) as (y & Hy). exists y. by rewrite <-!Nat.add_succ_comm in Hy.
Qed.

Lemma script_dels a b i j n :
  i + n ≤ length a → script a b i j (MiddleOp.Del <$> seq i n) (i + n) j.
Proof.
  revert i. induction n as [|n IH]; intros i H; cbn [seq fmap list_fmap].
  { rewrite Nat.add_0_r. constructor. }
  destruct (lookup_lt_is_Some_2 a i) as [x Hx]; [lia|]. econstructor; [done|].
  replace (i + S n) with (S i + n) by lia. apply IH. lia.
Qed.

Lemma script_inss a b i j n :
  j + n ≤ length b → script a b i j (MiddleOp.Ins <$> seq j n) i (j + n).
Proof.
  revert j. induction n as [|n IH]; intros j H; cbn [seq fmap list_fmap].
  { rewrite Nat.add_0_r. constructor. }
  destruct (lookup_lt_is_Some_2 b j) as [x Hx]; [lia|]. econstructor; [done|].
  replace (j + S n) with (S j + n) by lia. apply IH. lia.
Qed.

Lemma script_rest a b i j :
  i ≤ length a → j ≤ length b →
  script a b i j ((MiddleOp.Del <$> seq i (length a - i)) ++ (MiddleOp.Ins <$> seq j (length b - j))) (length a) (length b).
Proof.
  intros Hi Hj. eapply script_app.
  - apply script_dels. lia.
  - replace (i + (length a - i)) with (length a) by lia.
    replace (length b) with (j + (length b - j)) at 2 by lia. apply script_inss. lia.
Qed.

Lemma script_shift a b p n m i j ops i' j' :
  script (take n (drop p a)) (take m (drop p b)) i j ops i' j' →
  script a b (p + i) (p + j) (rebase p <$> ops) (p + i') (p + j').
Proof.
  assert (∀ (l : list (list N)) k i x, take k (drop p l) !! i = Some x → l !! (p + i) = Some x) as Hl.
  { intros l k u x (H & _)%lookup_take_Some. by rewrite lookup_drop in H. }
  induction 1 as [|u v x ops u' v' Ha Hb _ IH|u v x ops u' v' Ha _ IH|u v y ops u' v' Hb _ IH];
    cbn [fmap list_fmap rebase]; [constructor| | |]; econstructor; eauto;
    rewrite <-?Nat.add_succ_r; done.
Qed.

(** The walk needs no more steps than there are lines. *)
Lemma lcs_walk_script fuel a b table i j :
  i ≤ length a → j ≤ length b → (length a - i) + (length b - j) ≤ fuel →
  ∃ ops, lcs_walk fuel a b table i j = Some ops ∧ script a b i j ops (length a) (length b).
Proof.
  revert i j. induction fuel as [|fuel IH]; intros i j Hi Hj Hf; cbn [lcs_walk].
  - rewrite (lookup_ge_None_2 a i) by lia. eexists. split; [done|]. by apply script_rest.
  - destruct (a !! i) as [x|] eqn:Ha; [|eexists; split; [done|by apply script_rest]].
    destruct (b !! j) as [y|] eqn:Hb; [|eexists; split; [done|by apply script_rest]].
    apply lookup_lt_Some in Ha as Hla. apply lookup_lt_Some in Hb as Hlb.
    case_bool_decide as Hxy; [subst y|destruct (_ <=? _)].
    + destruct (IH (S i) (S j)) as (ops & -> & Hs); [lia..|]. eauto with script.
    + destruct (IH (S i) j) as (ops & -> & Hs); [lia..|]. eauto with script.
    + destruct (IH i (S j)) as (ops & -> & Hs); [lia..|]. eauto with script.
Qed.

Lemma diff_middle_script a b :
  ∃ ops, diff_middle a b = Some ops ∧ script a b 0 0 ops (length a) (length b).
Proof.
  unfold diff_middle. destruct a as [|x a]; [|destruct b as [|y b]].
  - eexists. split; [done|]. apply (script_inss [] b 0 0 (length b)). lia.
  - eexists. split; [done|]. apply (script_dels (x :: a) [] 0 0 (length (x :: a))). lia.
  - destruct (_ <? _)%N.
    + eexists. split; [done|]. pose proof (script_rest (x :: a) (y :: b) 0 0) as H. rewrite !Nat.sub_0_r in H.
      apply H; cbn; lia.
    + apply lcs_walk_script; lia.
Qed.

Definition old_lines (lines : list DiffLine.t) : list (list N) :=
  DiffLine.text <$> filter (λ l, DiffLine.tag l ≠ DiffTag.Insert) lines.
Definition new_lines (lines : list DiffLine.t) : list (list N) :=
  DiffLine.text <$> filter (λ l, DiffLine.tag l ≠ DiffTag.Delete) lines.

Lemma emit_script a b i j ops i' j' :
  script a b i j ops i' j' → i' = length a → j' = length b →
  ∃ lines, emit a b i j ops = Some lines ∧ old_lines lines = drop i a ∧ new_lines lines = drop j b ∧
    omap DiffLine.old_no lines = seq (S i) (length a - i) ∧ omap DiffLine.new_no lines = seq (S j) (length b - j).
Proof.
  induction 1 as [i j|i j x ops i' j' Ha Hb _ IH|i j x ops i' j' Ha _ IH|i j y ops i' j' Hb _ IH]; intros Hi Hj.
  - subst. exists []. rewrite !drop_all, !Nat.sub_diag. done.
  - destruct (IH Hi Hj) as (lines & He & H1 & H2 & H3 & H4). eexists. cbn [emit]. rewrite Ha, He. split; [done|].
    apply lookup_lt_Some in Ha as La. apply lookup_lt_Some in Hb as Lb.
    rewrite (drop_S a x i Ha), (drop_S b x j Hb), <-H1, <-H2.
    replace (length a - i) with (S (length a - S i)) by lia. replace (length b - j) with (S (length b - S j)) by lia.
    cbn [seq omap list_omap DiffLine.old_no DiffLine.new_no]. by rewrite H3, H4.
  - destruct (IH Hi Hj) as (lines & He & H1 & H2 & H3 & H4). eexists. cbn [emit]. rewrite Ha, He. split; [done|].
    apply lookup_lt_Some in Ha as La. rewrite (drop_S a x i Ha), <-H1, <-H2.
    replace (length a - i) with (S (length a - S i)) by lia.
    cbn [seq omap list_omap DiffLine.old_no DiffLine.new_no]. by rewrite H3, H4.
  - destruct (IH Hi Hj) as (lines & He & H1 & H2 & H3 & H4). eexists. cbn [emit]. rewrite Hb, He. split; [done|].
    apply lookup_lt_Some in Hb as Lb. rewrite (drop_S b y j Hb), <-H1, <-H2.
    replace (length b - j) with (S (length b - S j)) by lia.
    cbn [seq omap list_omap DiffLine.old_no DiffLine.new_no]. by rewrite H3, H4.
Qed.

Lemma common_prefix_spec a b k :
  k < common_prefix a b → ∃ x, a !! k = Some x ∧ b !! k = Some x.
Proof.
  revert b k. induction a as [|x a IH]; intros [|y b] k; cbn; try lia. case_bool_decide as H; [|lia]. subst y.
  destruct k as [|k]; cbn; [eauto|]. intros Hk. apply IH. lia.
Qed.

Lemma common_prefix_le a b : common_prefix a b ≤ length a ∧ common_prefix a b ≤ length b.
Proof.
  revert b. induction a as [|x a IH]; intros [|y b]; cbn; try lia. case_bool_decide; [|lia]. specialize (IH b). lia.
Qed.

(** The lines before and after the middle are common. *)
Lemma line_diff_script a b :
  let p := common_prefix a b in
  let s := common_prefix (reverse (drop p a)) (reverse (drop p b)) in
  ∃ ops, diff_middle (take (length a - s - p) (drop p a)) (take (length b - s - p) (drop p b)) = Some ops ∧
    script a b 0 0 (replicate p MiddleOp.Equal ++ (rebase p <$> ops) ++ replicate s MiddleOp.Equal) (length a) (length b).
Proof.
  intros p s. destruct (diff_middle_script (take (length a - s - p) (drop p a)) (take (length b - s - p) (drop p b)))
    as (ops & Hops & Hs). exists ops. split; [done|].
  pose proof (common_prefix_le a b) as [Hpa Hpb]. fold p in Hpa, Hpb.
  pose proof (common_prefix_le (reverse (drop p a)) (reverse (drop p b))) as [Hsa Hsb]. fold s in Hsa, Hsb.
  rewrite length_reverse, length_drop in Hsa, Hsb.
  eapply script_app; [|eapply script_app; [exact (script_shift _ _ _ _ _ _ _ _ _ _ Hs)|]].
  - rewrite !Nat.add_0_r. apply (script_equals a b 0 0 p). intros k Hk. by apply common_prefix_spec.
  - rewrite !length_take, !length_drop, !Nat.min_l by lia.
    assert (script a b (length a - s) (length b - s) (replicate s MiddleOp.Equal) (length a - s + s) (length b - s + s)) as H.
    { apply script_equals. intros k Hk.
      destruct (common_prefix_spec (reverse (drop p a)) (reverse (drop p b)) (s - 1 - k)) as (x & Hx & Hy); [fold s; lia|].
      rewrite reverse_lookup, length_drop, lookup_drop in Hx by (rewrite length_drop; lia).
      rewrite reverse_lookup, length_drop, lookup_drop in Hy by (rewrite length_drop; lia).
      exists x. split; [rewrite <-Hx|rewrite <-Hy]; f_equal; lia. }
    replace (p + (length a - s - p)) with (length a - s) by lia.
    replace (p + (length b - s - p)) with (length b - s) by lia.
    replace (length a - s + s) with (length a) in H by lia. by replace (length b - s + s) with (length b) in H by lia.
Qed.

Lemma line_diff_total old new :
  ∃ lines, line_diff old new = Some lines ∧ old_lines lines = split_lines old ∧ new_lines lines = split_lines new ∧
    omap DiffLine.old_no lines = seq 1 (length (split_lines old)) ∧
    omap DiffLine.new_no lines = seq 1 (length (split_lines new)).
Proof.
  unfold line_diff. destruct (line_diff_script (split_lines old) (split_lines new)) as (ops & -> & Hs).
  destruct (emit_script _ _ _ _ _ _ _ Hs eq_refl eq_refl) as (lines & He & H). rewrite !Nat.sub_0_r in H.
  exists lines. by rewrite !drop_0 in H.
Qed.

(** ** Previews *)

(** The reference: all spans at once, the text between them unchanged. *)
Fixpoint substitute (content : list N) (pos : nat) (group : list PlanItem.t) : list N :=
  match group with
  | [] => drop pos content
  | item :: rest =>
      sub content pos (ByteSpan.start (PlanItem.span item)) ++ PlanItem.replacement item
        ++ substitute content (ByteSpan.end_ (PlanItem.span item)) rest
  end.

(** The first edit position of a group. *)
Definition first_start (content : list N) (group : list PlanItem.t) : nat :=
  match group with item :: _ => ByteSpan.start (PlanItem.span item) | [] => length content end.

Definition span_fits (content : list N) (item : PlanItem.t) : Prop :=
  ∃ matched, ByteSpan.slice (PlanItem.span item) content = Ok matched.

Lemma slice_Ok span src matched :
  ByteSpan.slice span src = Ok matched ↔
  ByteSpan.start span < ByteSpan.end_ span ∧ ByteSpan.end_ span ≤ length src ∧
  is_char_boundary src (ByteSpan.start span) = true ∧ is_char_boundary src (ByteSpan.end_ span) = true ∧
  matched = sub src (ByteSpan.start span) (ByteSpan.end_ span).
Proof.
  unfold ByteSpan.slice. destruct (_ || _) eqn:E1.
  { split; [done|]. apply orb_true_iff in E1. rewrite Nat.ltb_lt, Nat.leb_le in E1. lia. }
  apply orb_false_iff in E1 as [E1 E2]. apply Nat.ltb_ge in E1. apply Nat.leb_gt in E2.
  destruct (is_char_boundary src (ByteSpan.start span)); cbn; [|naive_solver].
  destruct (is_char_boundary src (ByteSpan.end_ span)); cbn; naive_solver.
Qed.

Lemma utf8_app l k : utf8 l → utf8 k → utf8 (l ++ k).
Proof. induction 1 as [|c l Hc _ IH]; [done|]. rewrite <-app_assoc. by constructor; [|apply IH]. Qed.

Lemma boundary_before p t : utf8 t → is_char_boundary (p ++ t) (length p) = true.
Proof.
  intros [|c l [_ (a & r & -> & Ha & _)] _]; [rewrite app_nil_r; apply boundary_len|].
  eapply boundary_at; [|exact Ha]. rewrite lookup_app_r, Nat.sub_diag by lia. done.
Qed.

Lemma boundary_prefix b b' n i :
  i < n → n ≤ length b → take n b = take n b' → is_char_boundary b i = true → is_char_boundary b' i = true.
Proof.
  intros Hi Hn Ht. unfold is_char_boundary. rewrite !orb_true_iff, !Nat.eqb_eq, !is_some_and_true.
  intros [[->|?]|(c & Hc & Hcont)]; [auto|lia|]. right. exists c. split; [|done].
  rewrite <-(lookup_take_lt b' n), <-Ht, lookup_take_lt by done. done.
Qed.

Section preview.
Context (content : list N) (Hcontent : utf8 content).

(** The edits of one file in order, each on the content and with text for text. *)
Definition applicable (group : list PlanItem.t) : Prop :=
  Forall (λ item, span_fits content item ∧ utf8 (PlanItem.replacement item)) group ∧
  StronglySorted (λ a b, ByteSpan.end_ (PlanItem.span a) ≤ ByteSpan.start (PlanItem.span b)) group.

Lemma applicable_cons item rest :
  applicable (item :: rest) →
  applicable rest ∧ utf8 (PlanItem.replacement item) ∧
  ByteSpan.start (PlanItem.span item) < ByteSpan.end_ (PlanItem.span item) ∧
  ByteSpan.end_ (PlanItem.span item) ≤ length content ∧
  is_char_boundary content (ByteSpan.start (PlanItem.span item)) = true ∧
  is_char_boundary content (ByteSpan.end_ (PlanItem.span item)) = true ∧
  ByteSpan.end_ (PlanItem.span item) ≤ first_start content rest.
Proof.
  intros [[[(m & Hm) Hr] Hf]%Forall_cons [Hs Hb]%StronglySorted_inv].
  apply slice_Ok in Hm as (H1 & H2 & H3 & H4 & _). split_and!; try done.
  destruct rest as [|b rest]; [done|]. by apply Forall_cons in Hb as [Hb _].
Qed.

Lemma substitute_split pos group :
  applicable group → pos ≤ first_start content group →
  substitute content 0 group = take pos content ++ substitute content pos group.
Proof.
  intros Ha Hp. destruct group as [|item rest]; cbn [substitute first_start] in *.
  - by rewrite drop_0, take_drop.
  - rewrite <-(sub_app content 0 pos) by lia. rewrite <-!app_assoc. f_equal. unfold sub. by rewrite drop_0, Nat.sub_0_r.
Qed.

Lemma utf8_substitute pos group :
  applicable group → pos ≤ first_start content group → is_char_boundary content pos = true →
  utf8 (substitute content pos group).
Proof.
  revert pos. induction group as [|item rest IH]; intros pos Ha Hp Hb; cbn [substitute].
  - by apply utf8_split.
  - apply applicable_cons in Ha as (Ha & Hr & Hlt & Hle & Hbs & Hbe & Hn).
    apply utf8_app; [by apply utf8_sub|]. apply utf8_app; [done|]. by apply IH.
Qed.

Lemma preview_substitute group :
  applicable group → preview_group group content = Some (substitute content 0 group, 0).
Proof.
  induction group as [|item rest IH]; intros Ha; cbn [preview_group]; [by rewrite <-(drop_0 content)|].
  apply applicable_cons in Ha as (Ha & Hr & Hlt & Hle & Hbs & Hbe & Hn). rewrite IH by done.
  rewrite (substitute_split (ByteSpan.end_ (PlanItem.span item))) by done.
  set (T := substitute content (ByteSpan.end_ (PlanItem.span item)) rest).
  set (e := ByteSpan.end_ (PlanItem.span item)) in *. set (s := ByteSpan.start (PlanItem.span item)) in *.
  assert (length (take e content) = e) as Hlen by (rewrite length_take; lia).
  unfold preview_item. fold e s.
  rewrite (proj2 (Nat.ltb_ge _ _)) by (rewrite length_app, Hlen; lia).
  assert (take e content = take e (take e content ++ T)) as Hpre by (by rewrite take_app_length').
  rewrite (boundary_prefix content (take e content ++ T) e s Hlt Hle Hpre) by done.
  pose proof (boundary_before (take e content) T (utf8_substitute _ _ Ha Hn Hbe)) as HT. rewrite Hlen in HT. rewrite HT.
  cbn [negb orb]. rewrite (proj2 (Nat.ltb_ge _ _)) by lia. f_equal. f_equal.
  unfold replace_range. fold e s. cbn [substitute]. fold e s T.
  rewrite drop_app_length' by done. rewrite take_app_le by lia. rewrite take_take, Nat.min_l by lia.
  unfold sub. by rewrite drop_0, Nat.sub_0_r.
Qed.
End preview.

(** ** Grouping by file *)

Lemma filter_none {A} (P : A → Prop) `{∀ x, Decision (P x)} l : (∀ x, x ∈ l → ¬ P x) → filter P l = [].
Proof.
  induction l as [|x l IH]; [done|]. intros Hl. rewrite filter_cons_False by (apply Hl, list_elem_of_here).
  apply IH. intros y Hy. apply Hl. by right.
Qed.

(** In a plan of one project the groups are the items of each path. *)
Lemma groups_spec l :
  StronglySorted (λ a b, path_leb (PlanItem.path a) (PlanItem.path b) = true) l →
  StronglySorted (λ p q, path_compare p q = Lt) (groups l).*1 ∧
  head (groups l).*1 = PlanItem.path <$> head l ∧
  Forall (λ g, g.2 = filter (λ i, PlanItem.path i = g.1) l) (groups l) ∧
  Forall (λ i, PlanItem.path i ∈ (groups l).*1) l.
Proof.
  induction 1 as [|item l Hs (IHs & IHh & IHg & IHi) Hle]; [repeat constructor|]. cbn [groups].
  assert (∀ g, g ∈ groups l → path_leb (PlanItem.path item) g.1 = true) as Hmin.
  { intros g Hg. rewrite Forall_forall in Hle. destruct (groups l) as [|g0 gs]; [by apply not_elem_of_nil in Hg|].
    destruct l as [|i0 l]; [done|]. injection IHh as Eh.
    pose proof (Hle i0 (list_elem_of_here _ _)) as H0. rewrite <-Eh in H0.
    apply elem_of_cons in Hg as [->|Hg]; [done|].
    eapply path_leb_trans; [exact H0|]. cbn in IHs. apply StronglySorted_inv in IHs as [_ IHs].
    rewrite Forall_forall in IHs. unfold path_leb. rewrite (IHs g.1); [done|]. by apply list_elem_of_fmap_2. }
  destruct (groups l) as [|[p0 g0] gs] eqn:E.
  { destruct l as [|i0 l]; [|done]. cbn. split_and!; [repeat constructor|done| |repeat constructor].
    constructor; [|constructor]. cbn. by rewrite decide_True. }
  cbn [fmap list_fmap fst] in *. apply Forall_cons in IHg as [Hg0 IHg]. cbn in Hg0.
  case_bool_decide as Hp; cbn [fmap list_fmap fst].
  - subst p0. split_and!; [done|done| |].
    + constructor; [cbn [fst snd]; by rewrite filter_cons_True, <-Hg0|].
      apply StronglySorted_inv in IHs as [_ Hlt]. rewrite Forall_forall in IHg. rewrite Forall_forall in Hlt. apply Forall_forall.
      intros g Hg. rewrite (IHg g Hg). rewrite filter_cons_False; [done|]. intros Heq.
      specialize (Hlt g.1 (list_elem_of_fmap_2 _ _ _ Hg)). rewrite Heq in Hlt.
      by rewrite (proj2 (path_compare_eq _ _) eq_refl) in Hlt.
    + constructor; [apply list_elem_of_here|done].
  - assert (∀ g, g ∈ (p0, g0) :: gs → path_compare (PlanItem.path item) g.1 = Lt) as Hlt.
    { intros g Hg. pose proof (Hmin g Hg) as H1. unfold path_leb in H1.
      destruct (path_compare (PlanItem.path item) g.1) eqn:Ec; [|done..]. apply path_compare_eq in Ec.
      exfalso. apply Hp. apply elem_of_cons in Hg as [->|Hg]; [done|].
      pose proof (Hmin _ (list_elem_of_here _ _)) as H0. cbn in H0. apply StronglySorted_inv in IHs as [_ IHs].
      rewrite Forall_forall in IHs. specialize (IHs g.1 (list_elem_of_fmap_2 _ _ _ Hg)). rewrite <-Ec in IHs.
      unfold path_leb in H0. rewrite path_compare_antisym, IHs in H0. done. }
    split_and!.
    + constructor; [done|]. apply Forall_forall. intros p Hpin.
      change (p0 :: gs.*1) with (((p0, g0) :: gs).*1) in Hpin. apply list_elem_of_fmap in Hpin as (g & -> & Hg). by apply Hlt.
    + done.
    + constructor; [|].
      { cbn [fst snd]. rewrite filter_cons_True by done. f_equal. symmetry. apply filter_none.
        intros i Hi Heq. rewrite Forall_forall in IHi. specialize (IHi i Hi).
        change (p0 :: gs.*1) with (((p0, g0) :: gs).*1) in IHi. apply list_elem_of_fmap in IHi as (g & Hg1 & Hg).
        specialize (Hlt g Hg). rewrite <-Hg1, Heq in Hlt. by rewrite (proj2 (path_compare_eq _ _) eq_refl) in Hlt. }
      rewrite Forall_forall in IHg. apply Forall_forall. intros g Hg. rewrite filter_cons_False; [|].
      * apply elem_of_cons in Hg as [->|Hg]; [done|by apply IHg].
      * intros Heq. specialize (Hlt g Hg). rewrite Heq in Hlt. by rewrite (proj2 (path_compare_eq _ _) eq_refl) in Hlt.
    + constructor; [apply list_elem_of_here|]. eapply Forall_impl; [exact IHi|]. cbn. intros i Hi. by right.
Qed.

Lemma StronglySorted_filter {A} (R : relation A) (P : A → Prop) `{∀ x, Decision (P x)} l :
  StronglySorted R l → StronglySorted R (filter P l).
Proof.
  induction 1 as [|x l Hs IH Hx]; [constructor|]. rewrite filter_cons. destruct (decide (P x)); [|done].
  constructor; [done|]. apply Forall_forall. intros y [_ Hy]%list_elem_of_filter. rewrite Forall_forall in Hx. auto.
Qed.

Lemma groups_nonempty l g : g ∈ groups l → g.2 ≠ [].
Proof.
  revert g. induction l as [|item l IH]; intros g; cbn [groups]; [by intros ?%not_elem_of_nil|].
  destruct (groups l) as [|[p0 g0] gs]; [by intros ->%list_elem_of_singleton|].
  case_bool_decide; rewrite !elem_of_cons.
  - intros [->|Hg]; [done|]. apply IH. by right.
  - intros [->|Hg]; [done|]. apply IH. by apply elem_of_cons.
Qed.
