(* ===== verification/PlanTheorems.v ===== *)
(** * PlanTheorems: what an approval binds to, and what a preview shows

    A plan is determined by its set of edits, its edits never meet, its digest identifies
    it, and its preview shows exactly the simultaneous replacement of its spans.  The line diff of a preview is
    minimal. *)
From S2P Require Import Prelude Types Locator Bytes Privacy Paths ScanTypes Plan PlanSpec.

Section plans.
Context (hmac : list N → list N → list N) (encode_items : list PlanItem.t → result (list N) string).

Lemma build_plan_Ok items key plan :
  build_plan hmac encode_items items key = Ok plan →
  RewritePlan.items plan = sort_by item_leb items ∧ check_adjacent (sort_by item_leb items) = Ok tt ∧
  ∃ encoded, encode_items (sort_by item_leb items) = Ok encoded ∧
    RewritePlan.plan_digest plan = keyed_digest hmac key encoded.
Proof.
  unfold build_plan. destruct (check_adjacent _) as [[]|] eqn:E1; [|done]. cbn [rbind].
  destruct (encode_items _) as [encoded|] eqn:E2; [|done]. cbn [rbind]. intros [= <-]. eauto.
Qed.

Lemma build_plan_sorted items key plan :
  Forall span_nonempty items → build_plan hmac encode_items items key = Ok plan →
  RewritePlan.items plan ≡ₚ items ∧ Forall span_nonempty (RewritePlan.items plan) ∧
  StronglySorted (λ a b, item_leb a b = true) (RewritePlan.items plan) ∧ StronglySorted before (RewritePlan.items plan).
Proof.
  intros Hn (-> & Hc & _)%build_plan_Ok.
  assert (Forall span_nonempty (sort_by item_leb items)) as Hn' by (by rewrite sort_by_perm).
  pose proof (sort_by_sorted item_leb item_leb_total item_leb_trans items) as Hs.
  split_and!; [apply sort_by_perm|done|done|]. by apply check_adjacent_before.
Qed.

(** A remediation plan is canonical.  The plan that is built from a list of edits holds
    exactly those edits, the edits of one file are in order and claim no byte in common
    (though only neighbours are compared), and the same edits listed in any other order give
    the same plan, with the same digest for an approval to bind to. *)
Theorem plan_canonical (items : list PlanItem.t) (key : PlanKey.t) (plan : RewritePlan.t) :
  Forall span_nonempty items → build_plan hmac encode_items items key = Ok plan →
  RewritePlan.items plan ≡ₚ items ∧ StronglySorted before (RewritePlan.items plan) ∧
  ∀ items', items' ≡ₚ items → build_plan hmac encode_items items' key = Ok plan.
Proof.
  intros Hn Hb. destruct (build_plan_sorted _ _ _ Hn Hb) as (Hp & Hn' & Hs & Hd). split_and!; [done..|].
  intros items' Hperm. rewrite <-Hb. unfold build_plan.
  assert (sort_by item_leb items' = sort_by item_leb items) as ->; [|done].
  pose proof (proj1 (build_plan_Ok _ _ _ Hb)) as E. rewrite E in Hn', Hs, Hd, Hp. symmetry.
  eapply StronglySorted_unique_strong with (R := λ a b, item_leb a b = true); [|done| |].
  - intros a b Ha Hb'. apply (before_unique (sort_by item_leb items)); [done|done|done|].
    rewrite elem_of_sort_by in Hb' |- *. by rewrite <-Hperm.
  - apply (sort_by_sorted item_leb item_leb_total item_leb_trans).
  - by rewrite !sort_by_perm.
Qed.

(** An edit that meets another one of its file is never planned. *)
Lemma overlap_refused items key i j a b :
  Forall span_nonempty items → i ≠ j → items !! i = Some a → items !! j = Some b → clash a b = true →
  ∃ path, build_plan hmac encode_items items key = Err (PlanError.OverlappingSpans path).
Proof.
  intros Hn Hij Hi Hj Hc. unfold build_plan.
  pose proof (sort_by_sorted item_leb item_leb_total item_leb_trans items) as Hs.
  assert (∃ i' j', i' ≠ j' ∧ sort_by item_leb items !! i' = Some a ∧ sort_by item_leb items !! j' = Some b)
    as (i' & j' & Hij' & Hi' & Hj').
  { pose proof (sort_by_perm item_leb items) as Hp. symmetry in Hp.
    apply Permutation_inj in Hp as (_ & f & Hf & Hl).
    exists (f i), (f j). rewrite <-!Hl. split_and!; [|done..]. intros E. apply Hij. by apply Hf. }
  destruct (check_adjacent_clash (sort_by item_leb items) a b) with (i := i') (j := j') as (path & ->); [|done..|by eauto].
  by rewrite sort_by_perm.
Qed.

(** An approval of a plan's digest is an approval of its exact edits.  When two plans are
    built under one key and have one digest, they are the same plan, or two byte strings with
    one HMAC have been found; the serialization of plans is assumed to be injective. *)
Theorem approval_binds (items items' : list PlanItem.t) (key : PlanKey.t) (plan plan' : RewritePlan.t)
    (Hencode : ∀ l l' e, encode_items l = Ok e → encode_items l' = Ok e → l = l')
    (Hb : build_plan hmac encode_items items key = Ok plan)
    (Hb' : build_plan hmac encode_items items' key = Ok plan')
    (Hd : RewritePlan.plan_digest plan = RewritePlan.plan_digest plan') :
  plan = plan' ∨ ∃ x y, x ≠ y ∧ keyed_digest hmac key x = keyed_digest hmac key y.
Proof.
  destruct plan as [l d], plan' as [l' d']. cbn in Hd. subst d'.
  apply build_plan_Ok in Hb as (H1 & _ & e & He & E). apply build_plan_Ok in Hb' as (H1' & _ & e' & He' & E').
  cbn in *. destruct (decide (e = e')) as [->|Hne].
  - left. f_equal. rewrite H1, H1'. by eapply Hencode.
  - right. exists e, e'. split; [done|]. congruence.
Qed.

Lemma mapM_exists {A B} (f : A → option B) (Q : A → B → Prop) l :
  (∀ x, x ∈ l → ∃ y, f x = Some y ∧ Q x y) → ∃ k, mapM f l = Some k ∧ Forall2 Q l k.
Proof.
  induction l as [|x l IH]; intros H; [by exists []|].
  destruct (H x (list_elem_of_here _ _)) as (y & Hy & HQ).
  destruct IH as (k & Hk & HF); [intros z Hz; apply H; by right|].
  exists (y :: k). cbn. rewrite Hy. cbn. rewrite Hk. cbn. auto.
Qed.

(** What a preview has to say about one file of a plan. *)
Definition shows (files : PathBuf → option (list N)) (items : list PlanItem.t) (d : FileDiff.t) : Prop :=
  FileDiff.missing d = false ∧ FileDiff.skipped_spans d = 0 ∧
  ∃ content, files (FileDiff.path d) = Some content ∧
    let result := substitute content 0 (filter (λ i, PlanItem.path i = FileDiff.path d) items) in
    old_lines (FileDiff.lines d) = split_lines content ∧ new_lines (FileDiff.lines d) = split_lines result ∧
    omap DiffLine.old_no (FileDiff.lines d) = seq 1 (length (split_lines content)) ∧
    omap DiffLine.new_no (FileDiff.lines d) = seq 1 (length (split_lines result)).

Lemma verified_fits item key content :
  verify_plan_item hmac item key content = Verified → span_fits content item.
Proof.
  unfold verify_plan_item. case_bool_decide; [|done]. cbn [negb]. destruct (ByteSpan.slice _ _) as [m|] eqn:E; [|done].
  intros _. by exists m.
Qed.

Lemma group_applicable project l p content :
  StronglySorted before l →
  (∀ i, i ∈ l → PlanItem.path i = p →
    PlanItem.project_id i = project ∧ span_fits content i ∧ utf8 (PlanItem.replacement i)) →
  applicable content (filter (λ i, PlanItem.path i = p) l).
Proof.
  intros Hs Hl. split; [apply Forall_forall; intros i [Hp Hi]%list_elem_of_filter; by apply Hl|].
  assert (∀ i, i ∈ filter (λ i, PlanItem.path i = p) l → PlanItem.project_id i = project ∧ PlanItem.path i = p) as Hpp.
  { intros i [Hp Hi]%list_elem_of_filter. split; [by apply Hl|done]. }
  apply (StronglySorted_filter before (λ i, PlanItem.path i = p)) in Hs. revert Hs Hpp.
  generalize (filter (λ i, PlanItem.path i = p) l). intros k Hs Hpp. clear -Hs Hpp.
  induction Hs as [|a k Hs IH Hab]; constructor.
  - apply IH. intros i Hi. apply Hpp. by right.
  - apply Forall_forall. intros b Hb. rewrite Forall_forall in Hab. apply (Hab b Hb).
    destruct (Hpp a (list_elem_of_here _ _)), (Hpp b (list_elem_of_further _ _ _ Hb)). split; congruence.
Qed.

(** The preview of a plan is exact.  For a plan of one project whose items verify against
    the texts that are supplied, the preview has one entry per file of the plan in order; none
    of its spans is skipped; read without its insertions it is the current text line by line,
    read without its deletions it is the text in which all the file's spans have been replaced
    at once, and both numberings are consecutive. *)
Theorem preview_exact (items : list PlanItem.t) (key : PlanKey.t) (plan : RewritePlan.t) (project : string)
    (files : PathBuf → option (list N)) :
  Forall span_nonempty items → build_plan hmac encode_items items key = Ok plan →
  (∀ item, item ∈ items →
    PlanItem.project_id item = project ∧ utf8_valid (PlanItem.replacement item) = true ∧
    ∃ content, files (PlanItem.path item) = Some content ∧ utf8_valid content = true ∧
      verify_plan_item hmac item key content = Verified) →
  ∃ diffs, dry_run_diff plan files = Some diffs ∧
    StronglySorted (λ p q, path_compare p q = Lt) (FileDiff.path <$> diffs) ∧
    (∀ item, item ∈ items → PlanItem.path item ∈ FileDiff.path <$> diffs) ∧
    ∀ d, d ∈ diffs → shows files (RewritePlan.items plan) d.
Proof.
  intros Hn Hb Hok. destruct (build_plan_sorted _ _ _ Hn Hb) as (Hp & _ & Hs & Hd).
  set (l := RewritePlan.items plan) in *.
  assert (∀ item, item ∈ l → item ∈ items) as Hin by (intros item Hi; by rewrite <-Hp).
  destruct (groups_spec l) as (G1 & _ & G3 & G4).
  { clear -Hs Hok Hin. induction Hs as [|a l Hs IH Ha]; constructor.
    - apply IH. intros i Hi. apply Hin. by right.
    - rewrite Forall_forall in Ha |- *. intros b Hbl. specialize (Ha b Hbl). unfold item_leb, item_compare in Ha.
      destruct (Hok a (Hin _ (list_elem_of_here _ _))) as (Pa & _).
      destruct (Hok b (Hin _ (list_elem_of_further _ _ _ Hbl))) as (Pb & _).
      rewrite Pa, Pb, str_compare_refl in Ha. unfold path_leb. by destruct (path_compare _ _). }
  assert (∀ g, g ∈ groups l → ∃ d, file_diff files g = Some d ∧ FileDiff.path d = g.1 ∧ shows files l d) as Hg.
  { intros [p g'] Hgin. rewrite Forall_forall in G3. pose proof (G3 _ Hgin) as Eg. cbn in Eg.
    assert (∃ i0, i0 ∈ g') as (i0 & Hi0').
    { apply groups_nonempty in Hgin. destruct g' as [|i0 g]; [done|]. exists i0. apply list_elem_of_here. }
    rewrite Eg in Hi0'. apply list_elem_of_filter in Hi0' as [Ep0 Hi0].
    destruct (Hok i0 (Hin _ Hi0)) as (_ & _ & content & Hf & Hu & _). rewrite Ep0 in Hf.
    assert (applicable content g') as Ha.
    { rewrite Eg. apply (group_applicable project); [done|]. intros i Hil Epi.
      destruct (Hok i (Hin _ Hil)) as (Hpi & Hr & c' & Hf' & _ & Hv). rewrite Epi, Hf in Hf'. injection Hf' as <-.
      split_and!; [done|by eapply verified_fits|by apply utf8_of_valid]. }
    unfold file_diff. cbn [fst snd]. rewrite Hf, (preview_substitute content (utf8_of_valid _ Hu) g' Ha).
    destruct (line_diff_total content (substitute content 0 g')) as (lines & -> & H).
    eexists. split; [done|]. split; [done|]. split; [done|]. split; [done|]. exists content. split; [done|].
    cbn [FileDiff.path FileDiff.lines]. by rewrite <-Eg. }
  destruct (mapM_exists _ _ _ Hg) as (diffs & Hdiffs & HF). exists diffs. split; [exact Hdiffs|].
  assert (FileDiff.path <$> diffs = (groups l).*1) as Epaths.
  { clear -HF. induction HF as [|g d gs ds [Hp _] _ IH]; [done|]. cbn. by rewrite Hp, IH. }
  rewrite Epaths. split_and!; [done| |].
  - intros item Hi. rewrite Forall_forall in G4. apply G4. by rewrite Hp.
  - intros d Hdin. apply list_elem_of_lookup in Hdin as [i Hi]. eapply Forall2_lookup_r in HF as (g & _ & _ & H); done.
Qed.
End plans.

(** ** A plan of two edits of one file, listed out of order *)

Definition demo_source : list N := str_bytes "k1 k2".
Definition demo_edit (start : nat) : PlanItem.t :=
  PlanItem.mk "p" [Component.Normal "f"] (FileIdentity.Unix 1 2) demo_source (ByteSpan.mk start (start + 2))
    (sub demo_source start (start + 2)) (RulePin.scan_baseline "1") (str_bytes "#") (FindingKind.Secret "r").
Definition demo_items : list PlanItem.t := [demo_edit 3; demo_edit 0].
Definition demo_hmac (key bytes : list N) : list N := bytes.
Definition demo_encode (items : list PlanItem.t) : result (list N) string := Ok (N.of_nat <$> (ByteSpan.start ∘ PlanItem.span <$> items)).
Definition demo_plan : RewritePlan.t := RewritePlan.mk [demo_edit 0; demo_edit 3] [0; 3]%N.
Definition demo_files (path : PathBuf) : option (list N) := if decide (path = [Component.Normal "f"]) then Some demo_source else None.

Lemma demo_nonempty : Forall span_nonempty demo_items.
Proof. repeat constructor. Qed.

Lemma plan_canonical_witness :
  StronglySorted before (RewritePlan.items demo_plan) ∧
  build_plan demo_hmac demo_encode [demo_edit 0; demo_edit 3] (PlanKey.mk []) = Ok demo_plan.
Proof.
  destruct (plan_canonical demo_hmac demo_encode demo_items (PlanKey.mk []) demo_plan) as (_ & H1 & H2).
  - exact demo_nonempty.
  - reflexivity.
  - split; [exact H1|]. apply H2. apply Permutation_swap.
Defined.

(** A serialization that is injective where it succeeds. *)
Definition demo_encode_inj (items : list PlanItem.t) : result (list N) string :=
  if decide (items = RewritePlan.items demo_plan) then Ok [0; 3]%N else Err "unsupported".

Lemma approval_binds_witness :
  demo_plan = demo_plan ∨
  ∃ x y, x ≠ y ∧ keyed_digest demo_hmac (PlanKey.mk []) x = keyed_digest demo_hmac (PlanKey.mk []) y.
Proof.
  apply (approval_binds demo_hmac demo_encode_inj demo_items [demo_edit 0; demo_edit 3] (PlanKey.mk [])).
  - intros l l' e. unfold demo_encode_inj. do 2 destruct (decide _); congruence.
  - reflexivity.
  - reflexivity.
  - reflexivity.
Defined.

Lemma preview_exact_witness :
  ∃ diffs, dry_run_diff demo_plan demo_files = Some diffs ∧ length diffs = 1 ∧
    ∀ d, d ∈ diffs → shows demo_files (RewritePlan.items demo_plan) d.
Proof.
  destruct (preview_exact demo_hmac demo_encode demo_items (PlanKey.mk []) demo_plan "p" demo_files)
    as (diffs & H1 & _ & _ & H2).
  - exact demo_nonempty.
  - reflexivity.
  - intros item Hi; apply list_elem_of_In in Hi; destruct Hi as [<-|[<-|[]]]; (split; [reflexivity|]; split; [reflexivity|];
      exists demo_source; vm_compute; auto).
  - exists diffs. split; [exact H1|]. split; [|exact H2]. injection H1 as <-. reflexivity.
Defined.

(** * The line diff of the preview is minimal

    The reference is the longest common subsequence of the two lists of lines.  Below the
    cell cap the table holds its lengths, the walk keeps that many lines, and trimming the
    common ends loses none. *)
(** ** The reference *)

Fixpoint lcs (a b : list (list N)) : nat :=
  match a with
  | [] => 0
  | x :: a' =>
      (fix go (b : list (list N)) : nat :=
        match b with
        | [] => 0
        | y :: b' => if bool_decide (x = y) then S (lcs a' b') else lcs a' b `max` go b'
        end) b
  end.

Lemma lcs_cons x a y b :
  lcs (x :: a) (y :: b) = if bool_decide (x = y) then S (lcs a b) else lcs a (y :: b) `max` lcs (x :: a) b.
Proof. done. Qed.

Lemma lcs_nil_r a : lcs a [] = 0.
Proof. by destruct a. Qed.

Lemma sublist_drop_prefix {A} (p c a : list A) : sublist c (p ++ a) → sublist (drop (length p) c) a.
Proof.
  intros (c1 & c2 & -> & Hp%sublist_length & Ha)%sublist_app_r. etransitivity; [|exact Ha].
  rewrite drop_app, (drop_ge c1) by done. apply sublist_drop.
Qed.

Lemma sublist_take_suffix {A} (s c a : list A) : sublist c (a ++ s) → sublist (take (length c - length s) c) a.
Proof.
  intros (c1 & c2 & -> & Ha & Hs%sublist_length)%sublist_app_r. etransitivity; [|exact Ha].
  rewrite length_app, take_app_le by lia. apply sublist_take.
Qed.

Lemma lcs_bound c a b : sublist c a → sublist c b → length c ≤ lcs a b.
Proof.
  revert c b. induction a as [|x a IHa]; intros c b Ha; [by apply sublist_nil_r in Ha as ->; cbn; lia|].
  revert c Ha. induction b as [|y b IHb]; intros c Ha Hb; [by apply sublist_nil_r in Hb as ->; cbn; lia|].
  rewrite lcs_cons. case_bool_decide as Hxy.
  - pose proof (sublist_drop_prefix [x] _ _ Ha) as Ha'. pose proof (sublist_drop_prefix [y] _ _ Hb) as Hb'.
    pose proof (IHa _ _ Ha' Hb') as H. rewrite length_drop in H. cbn [length] in H. lia.
  - apply sublist_cons_r in Ha as [Ha|(c' & -> & Ha)].
    + specialize (IHa _ _ Ha Hb). lia.
    + apply sublist_cons_r in Hb as [Hb|(c'' & [=] & _)]; [|done].
      specialize (IHb (x :: c')). rewrite sublist_cons_r in IHb. specialize (IHb (or_intror (ex_intro _ c' (conj eq_refl Ha))) Hb). lia.
Qed.

(** ** The table *)

Fixpoint tails_lcs (a b : list (list N)) : list nat :=
  match b with [] => [0] | y :: b' => lcs a b :: tails_lcs a b' end.

Lemma head_tails a b : head (tails_lcs a b) = Some (lcs a b).
Proof. destruct b; cbn; [by rewrite lcs_nil_r|done]. Qed.

Lemma lcs_row_tails x a b : lcs_row x b (tails_lcs a b) = tails_lcs (x :: a) b.
Proof.
  induction b as [|y b IH]; [done|]. cbn [tails_lcs lcs_row]. rewrite IH, !head_tails. cbn [from_option id].
  rewrite lcs_cons. f_equal. case_bool_decide; [lia|done].
Qed.

Lemma lcs_table_rows a b i : i ≤ length a → lcs_table a b !! i = Some (tails_lcs (drop i a) b).
Proof.
  revert i. induction a as [|x a IH]; intros i Hi; cbn [lcs_table].
  - destruct i; [|cbn in Hi; lia]. cbn. f_equal. induction b as [|y b IHb]; [done|]. cbn. by rewrite <-IHb.
  - destruct i as [|i]; [|cbn; apply IH; cbn in Hi; lia]. cbn [lookup list_lookup drop]. f_equal.
    specialize (IH 0 ltac:(lia)). rewrite drop_0 in IH. destruct (lcs_table a b) as [|row rows]; [done|].
    injection IH as ->. cbn [head from_option id]. apply lcs_row_tails.
Qed.

Lemma tails_lookup a b j : j ≤ length b → tails_lcs a b !! j = Some (lcs a (drop j b)).
Proof.
  revert j. induction b as [|y b IH]; intros j Hj; [destruct j; [cbn; by rewrite lcs_nil_r|cbn in Hj; lia]|].
  destruct j as [|j]; [done|]. cbn. apply IH. cbn in Hj. lia.
Qed.

Lemma cell_lcs a b i j : i ≤ length a → j ≤ length b → cell (lcs_table a b) i j = lcs (drop i a) (drop j b).
Proof. intros Hi Hj. unfold cell. rewrite lcs_table_rows by done. cbn [from_option id]. by rewrite tails_lookup. Qed.

(** ** The walk *)

Definition is_equal (op : MiddleOp.t) : bool := match op with MiddleOp.Equal => true | _ => false end.
Definition equals (ops : list MiddleOp.t) : nat := length (List.filter is_equal ops).

Lemma equals_app o o' : equals (o ++ o') = equals o + equals o'.
Proof. unfold equals. by rewrite List.filter_app, length_app. Qed.

Lemma equals_del l : equals (MiddleOp.Del <$> l) = 0.
Proof. by induction l. Qed.

Lemma equals_ins l : equals (MiddleOp.Ins <$> l) = 0.
Proof. by induction l. Qed.

Lemma equals_rebase p l : equals (rebase p <$> l) = equals l.
Proof. induction l as [|[| |] l IH]; [done| |done..]. unfold equals in *. cbn. by rewrite IH. Qed.

Lemma equals_replicate n : equals (replicate n MiddleOp.Equal) = n.
Proof. unfold equals. induction n as [|n IH]; [done|]. cbn. by rewrite IH. Qed.

Lemma lcs_walk_equals fuel a b i j ops :
  i ≤ length a → j ≤ length b →
  lcs_walk fuel a b (lcs_table a b) i j = Some ops → equals ops = lcs (drop i a) (drop j b).
Proof.
  revert i j ops. induction fuel as [|fuel IH]; intros i j ops Hi Hj H; cbn [lcs_walk] in H;
    destruct (a !! i) as [x|] eqn:Ea; [destruct (b !! j) as [y|] eqn:Eb; [done|]| |destruct (b !! j) as [y|] eqn:Eb|].
  all: try (apply lookup_ge_None in Ea; rewrite (drop_ge a) by done; injection H as <-;
            by rewrite equals_app, equals_del, equals_ins).
  all: try (apply lookup_ge_None in Eb; rewrite (drop_ge b), lcs_nil_r by done; injection H as <-;
            by rewrite equals_app, equals_del, equals_ins).
  apply lookup_lt_Some in Ea as La. apply lookup_lt_Some in Eb as Lb.
  rewrite (drop_S a x i Ea), (drop_S b y j Eb), lcs_cons.
  rewrite !cell_lcs in H by lia. case_bool_decide as Hxy.
  - apply fmap_Some in H as (ops' & H & ->). apply IH in H; [|lia..]. unfold equals in *. cbn. by rewrite H.
  - rewrite (drop_S b y j Eb), (drop_S a x i Ea) in H. destruct (Nat.leb_spec (lcs (x :: drop (S i) a) (drop (S j) b)) (lcs (drop (S i) a) (y :: drop (S j) b))) as [Hle|Hgt].
    + apply fmap_Some in H as (ops' & H & ->). apply IH in H; [|lia..]. rewrite (drop_S b y j Eb) in H.
      unfold equals in *. cbn [List.filter is_equal]. rewrite H, Nat.max_l by done. done.
    + apply fmap_Some in H as (ops' & H & ->). apply IH in H; [|lia..]. rewrite (drop_S a x i Ea) in H.
      unfold equals in *. cbn [List.filter is_equal]. rewrite H, Nat.max_r by lia. done.
Qed.

Lemma diff_middle_equals a b ops :
  (N.of_nat (length a) * N.of_nat (length b) ≤ LCS_CELL_CAP)%N → diff_middle a b = Some ops → equals ops = lcs a b.
Proof.
  intros Hcap. unfold diff_middle. destruct a as [|x a]; [|destruct b as [|y b]].
  - intros [= <-]. apply equals_ins.
  - intros H. apply (inj Some) in H as <-. by rewrite equals_del, lcs_nil_r.
  - rewrite (proj2 (N.ltb_ge _ _)) by done. intros H. apply lcs_walk_equals in H; [|cbn; lia..]. done.
Qed.

(** ** Trimming *)

Lemma trim_bound p s c a b :
  p + s ≤ length a → p + s ≤ length b → sublist c a → sublist c b →
  length c ≤ p + lcs (take (length a - s - p) (drop p a)) (take (length b - s - p) (drop p b)) + s.
Proof.
  intros Hla Hlb Ha Hb.
  assert (∀ l : list (list N), p + s ≤ length l → sublist c l →
    sublist (take (length (drop p c) - s) (drop p c)) (take (length l - s - p) (drop p l))) as Hmid.
  { intros l Hl Hs. rewrite <-(take_drop p l) in Hs. apply sublist_drop_prefix in Hs. rewrite length_take, Nat.min_l in Hs by lia.
    rewrite <-(take_drop (length l - s - p) (drop p l)) in Hs. apply sublist_take_suffix in Hs.
    assert (length (drop (length l - s - p) (drop p l)) = s) as E by (rewrite !length_drop; lia). by rewrite E in Hs. }
  pose proof (lcs_bound _ _ _ (Hmid a Hla Ha) (Hmid b Hlb Hb)) as H. rewrite length_take, length_drop in H. lia.
Qed.

Definition is_context (l : DiffLine.t) : bool := bool_decide (DiffLine.tag l = DiffTag.Context).
Definition context_lines (lines : list DiffLine.t) : list (list N) := DiffLine.text <$> List.filter is_context lines.

Lemma emit_equals a b i j ops lines : emit a b i j ops = Some lines → length (context_lines lines) = equals ops.
Proof.
  unfold context_lines, equals. rewrite length_fmap.
  revert i j lines. induction ops as [|[|k|k] ops IH]; intros i j lines H; cbn [emit] in H; [by injection H as <-|..].
  all: match type of H with match ?x with _ => _ end = _ => destruct x; [|done] end.
  all: apply fmap_Some in H as (ls & H & ->); apply IH in H; simpl; by rewrite H.
Qed.

(** The diff a preview shows is minimal: for texts whose line counts multiply to at most
    the cell cap, the unchanged lines it keeps are a common subsequence of the lines of the
    two texts, and no common subsequence is longer, so no diff has fewer changes. *)
Theorem diff_minimal (old new : list N) (lines : list DiffLine.t) :
  (N.of_nat (length (split_lines old)) * N.of_nat (length (split_lines new)) ≤ LCS_CELL_CAP)%N →
  line_diff old new = Some lines →
  sublist (context_lines lines) (split_lines old) ∧ sublist (context_lines lines) (split_lines new) ∧
  ∀ c, sublist c (split_lines old) → sublist c (split_lines new) → length c ≤ length (context_lines lines).
Proof.
  intros Hcap Hd. destruct (line_diff_total old new) as (l' & E & Hold & Hnew & _). rewrite Hd in E. injection E as <-.
  assert (∀ t, t ≠ DiffTag.Context → sublist (context_lines lines)
    (DiffLine.text <$> filter (λ l, DiffLine.tag l ≠ t) lines)) as Hsub.
  { intros t Ht. unfold context_lines. clear -Ht. induction lines as [|x lines IH]; [done|]. rewrite filter_cons. cbn [List.filter].
    unfold is_context at 1. case_bool_decide as Hx.
    - rewrite decide_True by congruence. cbn. by constructor.
    - destruct (decide _); [|done]. cbn. by constructor. }
  split_and!; [rewrite <-Hold; by apply Hsub|rewrite <-Hnew; by apply Hsub|]. intros c Ha Hb. clear Hsub Hold Hnew.
  unfold line_diff in Hd. destruct (diff_middle _ _) as [ops|] eqn:Em; [|done].
  apply diff_middle_equals in Em; [|rewrite !length_take, !length_drop; etransitivity; [|exact Hcap]; apply N.mul_le_mono; lia]. apply emit_equals in Hd. rewrite Hd.
  rewrite !equals_app, !equals_replicate, equals_rebase, Em.
  pose proof (common_prefix_le (split_lines old) (split_lines new)) as [Hp1 Hp2].
  set (p := common_prefix (split_lines old) (split_lines new)) in *.
  pose proof (common_prefix_le (reverse (drop p (split_lines old))) (reverse (drop p (split_lines new)))) as [Hs1 Hs2].
  rewrite length_reverse, length_drop in Hs1, Hs2.
  set (s := common_prefix (reverse (drop p (split_lines old))) _) in *.
  pose proof (trim_bound p s c (split_lines old) (split_lines new) ltac:(lia) ltac:(lia) Ha Hb). lia.
Qed.

Lemma diff_minimal_witness :
  ∃ lines, line_diff [97; 10; 98; 10; 99]%N [97; 10; 99; 10; 100]%N = Some lines ∧
    ∀ c, sublist c [[97]; [98]; [99]]%N → sublist c [[97]; [99]; [100]]%N → length c ≤ 2.
Proof.
  eexists. split; [vm_compute; reflexivity|].
  destruct (diff_minimal [97; 10; 98; 10; 99]%N [97; 10; 99; 10; 100]%N _ ltac:(vm_compute; discriminate) ltac:(vm_compute; reflexivity))
    as (_ & _ & H). exact H.
Defined.
