(* ===== verification/Apply.v ===== *)
(** * Apply: journalled application of a plan, restoration, and whole-file ingestion

    sv-remediate's [apply.rs] and [managed.rs].  The project tree maps paths below the
    canonical root to nodes.  Every call of the operating system consumes one entry of a list
    of faults; a call that fails changes nothing, except that an atomic replacement may fail
    after its rename and the creation of directories after some of them.  The vault behind [VaultSink] is a class over a state of its own;
    a call of it may also change the tree, which is how a change of the file by another
    program while the vault works is part of the model.  [log] is a ghost: the effects that
    succeeded, latest first. *)
From S2P Require Import Prelude Types Locator Bytes Paths Privacy ScanTypes Patterns Scan AuditTypes Plan.

(** ** The project tree *)

Module file.
Record t := mk { bytes : list N; identity : N * N; mode : N; readonly_attribute : bool }.
End file.

Inductive link_target := Dangling | ToDirectory | ToFile (f : file.t).

Inductive node := Directory | Regular (f : file.t) | Link (target : link_target) | Special.

(** A path below the root. *)
Abbreviation location := (list string).
Abbreviation Tree := (gmap location node).

Inductive io_error := NotFound | OtherIo (message : string).

(** How a call of the operating system ends: done, or failed with some progress. *)
Inductive fault := Done | Fails (progress : nat) (message : string).

Inductive event :=
| SnapshotStored (path : PathBuf) (bytes : list N) (snapshot_ref : string)
| LocatorCommitted (path : PathBuf) (locator : option (list N))
| RecoveryStored (record : RecoveryRecord.t)
| Journalled (entry : JournalEntry.t)
| Audited (action : AuditAction.t) (operation_digest : Digest)
| Replaced (target : location) (old new : list N)
| Removed (target : location) (old : option node)
| StartupPassed (manifest_path consumed_path : PathBuf).

Module World.
Record t {S : Type} := mk {
  tree : Tree;
  sink : S;
  locked : list location;   (* locked by another writer *)
  faults : list fault;
  inodes : nat;             (* how many files have been created *)
  clock : N;
  log : list event
}.
Arguments t : clear implicits.
Section setters.
Context {S : Type}.
Definition with_tree (w : t S) (d : Tree) : t S := mk S d (sink w) (locked w) (faults w) (inodes w) (clock w) (log w).
Definition with_outside (w : t S) (o : Tree * S) : t S := mk S o.1 o.2 (locked w) (faults w) (inodes w) (clock w) (log w).
Definition with_faults (w : t S) (fs : list fault) : t S := mk S (tree w) (sink w) (locked w) fs (inodes w) (clock w) (log w).
Definition created (w : t S) : t S := mk S (tree w) (sink w) (locked w) (faults w) (inodes w + 1) (clock w) (log w).
Definition ticked (w : t S) : t S := mk S (tree w) (sink w) (locked w) (faults w) (inodes w) (clock w + 1) (log w).
Definition logged (w : t S) (e : event) : t S := mk S (tree w) (sink w) (locked w) (faults w) (inodes w) (clock w) (e :: log w).
Definition next (w : t S) : fault * t S :=
  match faults w with [] => (Done, w) | f :: fs => (f, with_faults w fs) end.
End setters.
End World.

(** ** Errors, modes and results *)

Module ApplyMode.
Inductive t := DryRun | Commit.
Definition default : t := DryRun.
End ApplyMode.

Module IdentityAssurance.
Inductive t := Enforced | AcknowledgedUnavailable.
End IdentityAssurance.

Definition show_io (e : io_error) : string := match e with NotFound => "entity not found" | OtherIo m => m end.

Module ApplyError.
Inductive t :=
| Io (e : io_error) | InvalidRoot | PathEscapesRoot | SymlinkRejected | NotARegularFile | Locked
| Sink (message : string) | DetectorUnavailable (message : string) | JournalMismatch
| Ineligible (message : string) | ManifestConsumed | Serialization (message : string).

Definition display (e : t) : string :=
  match e with
  | Io e => "I/O: " +:+ show_io e
  | InvalidRoot => "project root is not a readable directory"
  | PathEscapesRoot => "target escapes the approved project root"
  | SymlinkRejected => "target path contains a symbolic link or reparse point; refused"
  | NotARegularFile => "target is not a regular file"
  | Locked => "target is locked by another writer"
  | Sink m => "vault sink failed: " +:+ m
  | DetectorUnavailable m => "pinned detector unavailable: " +:+ m
  | JournalMismatch => "journal does not match the plan"
  | Ineligible m => "file is not eligible for whole-file ingestion: " +:+ m
  | ManifestConsumed => "manifest path must differ from the consumed path"
  | Serialization m => "serialization failed: " +:+ m
  end.

(** [From<PlanError>]. *)
Definition of_plan_error (e : PlanError.t) : t := Sink (PlanError.display e).
End ApplyError.

Module FileApplyStatus.
Inductive t :=
| DryRun | Applied (locator : option (list N)) | AlreadyReplaced | Stale
| Skipped (reason : string) | Failed (reason : string).
End FileApplyStatus.

Module FileApplyResult.
Record t := mk { path : PathBuf; status : FileApplyStatus.t }.
End FileApplyResult.

Module ApplyOutcome.
Record t := mk { mode : ApplyMode.t; results : list FileApplyResult.t }.
End ApplyOutcome.

Module RestoreOutcome.
Inductive t := Restored (bytes : list N) | Conflict.
End RestoreOutcome.

Inductive ResumePoint := Fresh | ResumeVaultStored (locator : option (list N)).

Module ConsumerAdapter.
Inductive t := EnvInjection | TempFile.
#[global] Instance t_eq_dec : EqDecision t.
Proof. solve_decision. Defined.

Definition as_str (self : t) : string :=
  match self with EnvInjection => "env-injection" | TempFile => "temp-file" end.

Definition parse (value : string) : option t :=
  if decide (value = "env-injection") then Some EnvInjection
  else if decide (value = "temp-file") then Some TempFile else None.
End ConsumerAdapter.

(** ** The vault *)

(** What a call outside the crate sees and changes: the tree and the vault's own state. *)
Abbreviation outside S A := (Tree * S → (Tree * S) * result A ApplyError.t).

Class VaultSink (S : Type) := {
  store_snapshot : PlanItem.t → list N → outside S string;
  commit_locator : PlanItem.t → string → outside S (option (list N));
  store_recovery : RecoveryRecord.t → outside S unit;
  append_journal : JournalEntry.t → outside S unit;
  load_snapshot : RecoveryRecord.t → S → result (list N) ApplyError.t;
  audit : AuditAction.t → Digest → outside S unit;
  store_managed_snapshot : string → PathBuf → list N → outside S string;
  startup_check_sink : ConsumerAdapter.t → PathBuf → PathBuf → Tree → S → result unit ApplyError.t
}.

(** ** The monad *)

Section monad.
Context {S : Type}.

Definition M (E A : Type) : Type := World.t S → World.t S * result A E.
Definition ret {E A} (v : A) : M E A := λ w, (w, Ok v).
Definition fail {E A} (e : E) : M E A := λ w, (w, Err e).
Definition bind {E A B} (m : M E A) (k : A → M E B) : M E B :=
  λ w, match m w with (w', Ok v) => k v w' | (w', Err e) => (w', Err e) end.
Definition lift {E A} (r : result A E) : M E A := λ w, (w, r).
(** The result of a call as a value, without [?]. *)
Definition attempt {E F A} (m : M E A) : M F (result A E) := λ w, let '(w', r) := m w in (w', Ok r).
Definition errmap {E F A} (f : E → F) (m : M E A) : M F A :=
  λ w, let '(w', r) := m w in (w', match r with Ok v => Ok v | Err e => Err (f e) end).
Definition emit_event {E} (e : event) : M E unit := λ w, (World.logged w e, Ok tt).
(** [chrono::Utc::now()]. *)
Definition now {E} : M E N := λ w, (World.ticked w, Ok (World.clock w)).

(** A call of the vault. *)
Definition call {A} (f : outside S A) : M ApplyError.t A := λ w,
  let '(o, r) := f (World.tree w, World.sink w) in (World.with_outside w o, r).
End monad.
Arguments M : clear implicits.

Notation "'do' x '<-' m ';' k" := (bind m (fun x => k))
  (at level 10, x pattern, m at level 100, k at level 200, format "'do'  x  '<-'  m ;  '/' k") : sv_scope.

(** ** Calls of the operating system *)

Section os.
Context {S : Type}.
Abbreviation IO := (M S io_error).

(** A call that reads. *)
Definition io_read {A} (f : Tree → result A io_error) : IO A := λ w,
  let '(ft, w1) := World.next w in
  match ft with Done => (w1, f (World.tree w)) | Fails _ m => (w1, Err (OtherIo m)) end.

(** [fs::symlink_metadata]. *)
Definition symlink_metadata (p : location) : IO node :=
  io_read (λ d, match d !! p with Some n => Ok n | None => Err NotFound end).

(** What a node is once links are followed: a directory ([None]) or a file. *)
Definition followed (n : node) : result (option file.t) io_error :=
  match n with
  | Directory => Ok None
  | Regular f => Ok (Some f)
  | Link ToDirectory => Ok None
  | Link (ToFile f) => Ok (Some f)
  | Link Dangling => Err NotFound
  | Special => Err (OtherIo "not a regular file")
  end.

Definition follow (d : Tree) (p : location) : result (option file.t) io_error :=
  match d !! p with Some n => followed n | None => Err NotFound end.

(** [fs::metadata] of what has to be a file. *)
Definition metadata (p : location) : IO file.t :=
  io_read (λ d, match follow d p with Ok (Some f) => Ok f | Ok None => Err (OtherIo "is a directory") | Err e => Err e end).

(** [fs::read]. *)
Definition fs_read (p : location) : IO (list N) :=
  io_read (λ d, match follow d p with Ok (Some f) => Ok (file.bytes f) | Ok None => Err (OtherIo "is a directory") | Err e => Err e end).

(** [path.exists()]: an error is no file. *)
Definition exists_ (p : location) : M S ApplyError.t bool :=
  do r <- attempt (io_read (λ d, follow d p)); ret (match r with Ok _ => true | Err _ => false end).

(** [root.canonicalize()] and [is_dir()]. *)
Definition canonicalize : M S ApplyError.t unit :=
  errmap ApplyError.Io (io_read (λ d, match d !! [] with Some _ => Ok tt | None => Err NotFound end)).

Definition root_is_dir : M S ApplyError.t bool :=
  do r <- attempt (io_read (λ d, follow d []));
  ret (match r with Ok None => true | _ => false end).

(** [fs::OpenOptions::open] and [fs4::try_lock]. *)
Definition open_locked (target : location) : M S ApplyError.t unit :=
  do _ <- errmap ApplyError.Io (io_read (λ d, match follow d target with Ok _ => Ok tt | Err e => Err e end));
  λ w, let '(ft, w1) := World.next w in
       match ft with
       | Fails _ m => (w1, Err (ApplyError.Io (OtherIo m)))
       | Done => if decide (target ∈ World.locked w) then (w1, Err ApplyError.Locked) else (w1, Ok tt)
       end.

(** [handle.read_to_end]. *)
Definition read_to_end (target : location) : M S ApplyError.t (list N) := errmap ApplyError.Io (fs_read target).

(** [fs::remove_file]. *)
Definition remove_file (p : location) : IO unit := λ w,
  let '(ft, w1) := World.next w in
  match ft with
  | Fails _ m => (w1, Err (OtherIo m))
  | Done =>
      match World.tree w !! p with
      | None => (w1, Err NotFound)
      | Some Directory => (w1, Err (OtherIo "is a directory"))
      | Some _ => (World.with_tree w1 (delete p (World.tree w)), Ok tt)
      end
  end.

(** The ancestors of a path, the root first. *)
Fixpoint ancestors (p : location) : list location :=
  match p with [] => [[]] | x :: p' => [] :: (cons x <$> ancestors p') end.

Definition create_missing (d : Tree) (p : location) : Tree :=
  match d !! p with None => <[p := Directory]> d | Some _ => d end.

Definition is_directory (d : Tree) (p : location) : bool :=
  match d !! p with Some Directory | Some (Link ToDirectory) | None => true | _ => false end.

(** [fs::create_dir_all]. *)
Definition create_dir_all (p : location) : IO unit := λ w,
  let '(ft, w1) := World.next w in
  if forallb (is_directory (World.tree w)) (ancestors p)
  then
    match ft with
    | Fails n m => (World.with_tree w1 (foldl create_missing (World.tree w) (take n (ancestors p))), Err (OtherIo m))
    | Done => (World.with_tree w1 (foldl create_missing (World.tree w) (ancestors p)), Ok tt)
    end
  else (w1, Err (OtherIo "not a directory")).
End os.

(** ** Permissions *)

Module PermissionSnapshot.
Record t := mk { readonly : bool; unix_mode : option N }.
#[global] Instance t_eq_dec : EqDecision t.
Proof. solve_decision. Defined.

Section platform.
Context (unix : bool).

(** [Permissions::readonly]. *)
Definition is_readonly (f : file.t) : bool :=
  if unix then (N.land (file.mode f) 146 =? 0)%N else file.readonly_attribute f.

Definition capture (f : file.t) : t :=
  if unix then mk (is_readonly f) (Some (N.land (file.mode f) 511)) else mk (is_readonly f) None.

Definition restricted : t := mk false (if unix then Some 384%N else None).

(** The permissions of a file after [apply_to]. *)
Definition apply_to (self : t) (f : file.t) : file.t :=
  if unix then file.mk (file.bytes f) (file.identity f) (default 384%N (unix_mode self)) (file.readonly_attribute f)
  else file.mk (file.bytes f) (file.identity f) (file.mode f) (readonly self).
End platform.
End PermissionSnapshot.

(** ** Whole-file ingestion: data and decisions *)

Module Eligibility.
Inductive t := WhollySensitive | PartlySensitive (reason : string).
End Eligibility.

Module SharedBinding.
Inductive t := Independent | Shared (binding_id : string).
#[global] Instance t_eq_dec : EqDecision t.
Proof. solve_decision. Defined.
End SharedBinding.

Module AuthorizationRecord.
Record t := mk { resource_id : string; project_id : string; content_digest : Digest; binding_id : option string }.
End AuthorizationRecord.

(** [hex_encode] is how a digest is displayed. *)
Definition authorization_record (hex_encode : list N → string) (project_id : string) (content_digest : Digest)
    (binding : SharedBinding.t) : AuthorizationRecord.t :=
  let '(resource_id, binding_id) :=
    match binding with
    | SharedBinding.Independent => (project_id +:+ ":" +:+ hex_encode content_digest, None)
    | SharedBinding.Shared binding_id => ("shared:" +:+ binding_id, Some binding_id)
    end in
  AuthorizationRecord.mk resource_id project_id content_digest binding_id.

Definition rotation_blast_radius (records : list AuthorizationRecord.t) (binding : SharedBinding.t) : nat :=
  match binding with
  | SharedBinding.Independent => 1
  | SharedBinding.Shared binding_id =>
      length (List.filter (λ r, bool_decide (AuthorizationRecord.binding_id r = Some binding_id)) records)
  end.

Inductive PlaintextStatus := Clear | UnexpectedPlaintext.

Module ManagedManifest.
Record t := mk {
  manifest_version : N;
  original : string;
  adapter : string;
  project_id : string;
  snapshot_ref : string;
  launch_hint : string;
  created_at : N
}.
End ManagedManifest.

Definition MANIFEST_VERSION : N := 1.

Module ManagedFilePlan.
Record t := mk {
  project_id : string;
  path : PathBuf;
  identity : FileIdentity.t;
  permissions : PermissionSnapshot.t;
  adapter : ConsumerAdapter.t;
  manifest_path : PathBuf;
  snapshot_digest : Digest;
  binding : SharedBinding.t
}.
End ManagedFilePlan.

Module ManagedIngestStatus.
Inductive t :=
| Ingested (manifest : PathBuf)
| StartupCheckFailed (reason : string)
| Ineligible (reason : string)
| Failed (reason : string).
End ManagedIngestStatus.

Section eligibility.
Context (to_lowercase : list N → list N).

Definition WHOLLY_SUFFIXES : list string := [".pem"; ".key"; ".p12"; ".pfx"].
Definition WHOLLY_NAMES : list string := ["id_rsa"; "id_ed25519"; "id_ecdsa"].
Definition CONFIG_EXTENSIONS : list string := ["yml"; "yaml"; "toml"; "json"; "py"; "xml"; "ini"; "conf"; "cfg"].

Definition is_wholly (lower : list N) : bool :=
  bool_decide (lower = str_bytes ".env")
  || existsb (λ ext, bytes_suffix (str_bytes ext) lower) WHOLLY_SUFFIXES
  || bool_decide (lower ∈ str_bytes <$> WHOLLY_NAMES)
  || (bytes_prefix (str_bytes "service-account") lower && bytes_suffix (str_bytes ".json") lower).

Definition eligibility_hint (lower : list N) : string :=
  if existsb (λ ext, bytes_suffix (str_bytes ("." +:+ ext)) lower) CONFIG_EXTENSIONS
  then "a configuration file whose legitimate content must stay in place; "
  else if bytes_prefix (str_bytes ".env.") lower then "an env template or example, not live material; "
  else "".

Definition check_eligibility (path : PathBuf) : Eligibility.t :=
  match file_name path with
  | None => Eligibility.PartlySensitive "path has no file name"
  | Some name =>
      let lower := to_lowercase (str_bytes name) in
      if is_wholly lower then Eligibility.WhollySensitive
      else Eligibility.PartlySensitive
             ("'" +:+ name +:+ "' is not on the wholly-sensitive allowlist: " +:+ eligibility_hint lower
              +:+ "partly-sensitive files stay in place and route through span redaction (ADR-0020 §1)")
  end.
End eligibility.

(** ** The pipeline *)

Section apply.
Context {S : Type} `{V : VaultSink S}.
(** The platform, and the identity a created file gets. *)
Context (unix : bool) (new_identity : nat → N * N).
Context (hmac : list N → list N → list N).
(** The scanner's version and parameters. *)
Context (version : string) (sha256 : list N → list N) (hex_encode : list N → string) {Regex : Type}.
Context (build : string → result Regex regex_error) (is_match : Regex → string → bool).
Context (find_iter : Regex → string → list (nat * nat)).
Context (parse_pack : string → option PatternPack.t) (br eu us : string) (show_pack_error : PackError.t → string).

Abbreviation M := (M S ApplyError.t).

Definition is_link (n : node) : bool := match n with Link _ => true | _ => false end.

Fixpoint resolve_components (probe : location) (relative : PathBuf) : M location :=
  match relative with
  | [] => ret probe
  | Component.Normal segment :: rest =>
      let probe := probe ++ [segment] in
      do n <- errmap ApplyError.Io (symlink_metadata probe);
      if is_link n then fail ApplyError.SymlinkRejected else resolve_components probe rest
  | _ => fail ApplyError.PathEscapesRoot
  end.

Definition resolve_target (relative : PathBuf) : M location :=
  do probe <- resolve_components [] relative;
  do n <- errmap ApplyError.Io (symlink_metadata probe);
  match n with Regular _ => ret probe | _ => fail ApplyError.NotARegularFile end.

(** [FileIdentity::capture_from_path]. *)
Definition capture_from_path (p : location) : M (result FileIdentity.t PlanError.t) :=
  do r <- attempt (metadata p);
  ret (match r with
       | Err _ => Err PlanError.IdentityUnavailable
       | Ok f => if unix then Ok (FileIdentity.Unix (file.identity f).1 (file.identity f).2)
                 else Err PlanError.IdentityUnavailable
       end).

(** What is written in place of a node: a new file with the given permissions. *)
Definition new_file (w : World.t S) (content : list N) (permissions : PermissionSnapshot.t) : file.t :=
  PermissionSnapshot.apply_to unix permissions
    (file.mk content (new_identity (World.inodes w)) 384 false).

(** What a reader of the path gets before the replacement. *)
Definition bytes_at (d : Tree) (p : location) : list N :=
  match follow d p with Ok (Some f) => file.bytes f | _ => [] end.

(** The temporary file is complete before its rename; after the rename only the directory
    is still synced.  [Replaced] is logged when the rename happened. *)
Definition replace_atomic (target : location) (content : list N) (permissions : PermissionSnapshot.t) : Apply.M S io_error unit := λ w,
  let '(ft, w1) := World.next w in
  let renamed :=
    World.created (World.logged (World.with_tree w1 (<[target := Regular (new_file w content permissions)]> (World.tree w)))
      (Replaced target (bytes_at (World.tree w) target) content)) in
  match World.tree w !! target with
  | Some Directory => (w1, Err (OtherIo "is a directory"))
  | _ => match ft with
         | Done => (renamed, Ok tt)
         | Fails 0 m => (w1, Err (OtherIo m))
         | Fails _ m => (renamed, Err (OtherIo m))
         end
  end.

(** [sink.f(..).map_err(|error| ApplyError::Sink(error.to_string()))?], with its effect. *)
Definition sink_call {A} (f : outside S A) (e : A → event) : M A :=
  do v <- errmap (λ error, ApplyError.Sink (ApplyError.display error)) (call f);
  do _ <- emit_event (e v); ret v.

Definition journal (path : PathBuf) (state : JournalState.t) : M unit :=
  do at_ <- now;
  let entry := JournalEntry.mk path state at_ in
  sink_call (append_journal entry) (λ _, Journalled entry).

Definition span_at (item : PlanItem.t) (f : ScanFinding.t) : bool :=
  (ScanFinding.start f =? ByteSpan.start (PlanItem.span item)) && (ScanFinding.end_ f =? ByteSpan.end_ (PlanItem.span item)).

Definition pinned_evidence (item : PlanItem.t) (content : list N) : result bool ApplyError.t :=
  if negb (bool_decide (RulePin.detector_version (PlanItem.rule_pin item) = version))
  then Err (ApplyError.DetectorUnavailable
         ("plan pinned detector " +:+ RulePin.detector_version (PlanItem.rule_pin item) +:+ ", current is " +:+ version))
  else
    let salt := replicate 32 0%N in
    match PlanItem.kind item with
    | FindingKind.Secret _ =>
        Ok (existsb (span_at item) (detect_secrets sha256 hex_encode content (PlanItem.path item) PreviewMode.Opaque salt))
    | FindingKind.Pii category =>
        Ok (existsb (λ f, span_at item f && bool_decide (ScanFinding.kind f = FindingKind.Pii category))
              (detect_pii sha256 hex_encode content (PlanItem.path item) PreviewMode.Opaque salt Policy.all))
    | FindingKind.Jurisdiction pack_id pack_version rule_id _ =>
        if negb (bool_decide (RulePin.pack_id (PlanItem.rule_pin item) = pack_id))
           || negb (bool_decide (RulePin.pack_version (PlanItem.rule_pin item) = pack_version))
        then Err (ApplyError.DetectorUnavailable "plan pin does not match the finding's rule pack")
        else
          match load_builtin build is_match parse_pack br eu us pack_id with
          | Err e => Err (ApplyError.DetectorUnavailable ("pinned rule pack unavailable: " +:+ show_pack_error e))
          | Ok pack =>
              let '(findings, _) := detect_jurisdiction sha256 hex_encode content (PlanItem.path item) PreviewMode.Opaque salt
                                      find_iter [pack] default_budget in
              Ok (existsb (λ f, span_at item f &&
                    match ScanFinding.kind f with
                    | FindingKind.Jurisdiction _ v r _ => bool_decide (r = rule_id) && bool_decide (v = pack_version)
                    | _ => false
                    end) findings)
          end
    end.

Definition IDENTITY_REFUSED : string :=
  "OS file identity check is unavailable on this platform; commit refused because the caller did not acknowledge IdentityAssurance::AcknowledgedUnavailable (ADR-0019 §2 identity check)".

(** The identity check: [None] lets the item pass. *)
Definition identity_check (assurance : IdentityAssurance.t) (expected : FileIdentity.t)
    (captured : result FileIdentity.t PlanError.t) : option FileApplyStatus.t :=
  match assurance, captured with
  | _, Ok identity => if decide (identity = expected) then None else Some FileApplyStatus.Stale
  | IdentityAssurance.AcknowledgedUnavailable, Err _ => None
  | IdentityAssurance.Enforced, Err _ => Some (FileApplyStatus.Failed IDENTITY_REFUSED)
  end.

(** The checks on the content that is read: [Ok true] when it is the approved content. *)
Definition check_content (item : PlanItem.t) (key : PlanKey.t) (bytes : list N) : result bool ApplyError.t :=
  if negb (bool_decide (keyed_digest hmac key bytes = PlanItem.whole_file_digest item)) then Ok false
  else if negb (utf8_valid bytes) then Ok false
  else match verify_plan_item hmac item key bytes with
       | Stale => Ok false
       | Verified => pinned_evidence item bytes
       end.

(** Steps (b) to (d): the vault's side. *)
Definition commit_vault (item : PlanItem.t) (plan_digest : Digest) (key : PlanKey.t) (bytes : list N) : M (option (list N)) :=
  do snapshot_ref <- sink_call (store_snapshot item bytes) (SnapshotStored (PlanItem.path item) bytes);
  do locator <- sink_call (commit_locator item snapshot_ref) (LocatorCommitted (PlanItem.path item));
  if match locator with Some external => negb (is_marker external) | None => false end
  then fail (ApplyError.Sink "vault returned a locator that is not a valid marker")
  else
    let discovery := match locator with Some _ => DiscoveryPolicy.Discoverable | None => DiscoveryPolicy.Opaque end in
    do created_at <- now;
    let record := RecoveryRecord.mk plan_digest (PlanItem.project_id item) (PlanItem.path item) (PlanItem.identity item)
      (keyed_digest hmac key bytes) snapshot_ref discovery locator (Some (PlanItem.span item))
      (Some (PlanItem.replacement item)) created_at in
    do _ <- sink_call (store_recovery record) (λ _, RecoveryStored record);
    do _ <- journal (PlanItem.path item) (JournalState.VaultStored locator);
    ret locator.

(** Steps (e) and (f): the replacement, after a second verification. *)
Definition replace_item (item : PlanItem.t) (plan_digest : Digest) (key : PlanKey.t) (target : location)
    (permissions : PermissionSnapshot.t) (locator : option (list N)) : M FileApplyStatus.t :=
  do _ <- open_locked target;
  do current <- read_to_end target;
  do approved <- lift (check_content item key current);
  if negb approved then ret FileApplyStatus.Stale
  else
    let updated := replace_range current (PlanItem.span item) (PlanItem.replacement item) in
    do _ <- errmap ApplyError.Io (replace_atomic target updated permissions);
    do at_ <- now;
    let entry := JournalEntry.mk (PlanItem.path item) JournalState.FileReplaced at_ in
    do journalled <- attempt (call (append_journal entry));
    match journalled with
    | Err error => ret (FileApplyStatus.Failed ("file replaced but journal append failed: " +:+ ApplyError.display error))
    | Ok _ =>
        do _ <- emit_event (Journalled entry);
        do audited <- attempt (call (audit AuditAction.PlanExecute plan_digest));
        match audited with
        | Err error => ret (FileApplyStatus.Failed ("file replaced but audit failed: " +:+ ApplyError.display error))
        | Ok _ =>
            do _ <- emit_event (Audited AuditAction.PlanExecute plan_digest);
            ret (FileApplyStatus.Applied locator)
        end
    end.

Definition apply_item (item : PlanItem.t) (plan_digest : Digest) (mode : ApplyMode.t) (key : PlanKey.t)
    (assurance : IdentityAssurance.t) (resume : ResumePoint) : M FileApplyStatus.t :=
  do target <- resolve_target (PlanItem.path item);
  do f <- errmap ApplyError.Io (metadata target);
  let permissions := PermissionSnapshot.capture unix f in
  do captured <- capture_from_path target;
  match identity_check assurance (PlanItem.identity item) captured with
  | Some status => ret status
  | None =>
      do _ <- open_locked target;
      do bytes <- read_to_end target;
      do approved <- lift (check_content item key bytes);
      if negb approved then ret FileApplyStatus.Stale
      else
        match mode with
        | ApplyMode.DryRun => ret FileApplyStatus.DryRun
        | ApplyMode.Commit =>
            do locator <- match resume with
                          | Fresh => commit_vault item plan_digest key bytes
                          | ResumeVaultStored committed => ret committed
                          end;
            replace_item item plan_digest key target permissions locator
        end
  end.

(** A failure of one item is a result, not the end of the run. *)
Definition status_of (r : result FileApplyStatus.t ApplyError.t) : FileApplyStatus.t :=
  match r with Ok status => status | Err error => FileApplyStatus.Failed (ApplyError.display error) end.

(** [root.canonicalize()?] and the directory check. *)
Definition usable_root : M unit :=
  do _ <- canonicalize;
  do dir <- root_is_dir;
  if dir then ret tt else fail ApplyError.InvalidRoot.

Fixpoint execute_items (items : list PlanItem.t) (plan_digest : Digest) (mode : ApplyMode.t) (key : PlanKey.t)
    (assurance : IdentityAssurance.t) : M (list FileApplyResult.t) :=
  match items with
  | [] => ret []
  | item :: rest =>
      do r <- attempt (apply_item item plan_digest mode key assurance Fresh);
      do results <- execute_items rest plan_digest mode key assurance;
      ret (FileApplyResult.mk (PlanItem.path item) (status_of r) :: results)
  end.

Definition execute (plan : RewritePlan.t) (mode : ApplyMode.t) (key : PlanKey.t) (assurance : IdentityAssurance.t) :
    M ApplyOutcome.t :=
  do _ <- usable_root;
  do results <- execute_items (RewritePlan.items plan) (RewritePlan.plan_digest plan) mode key assurance;
  ret (ApplyOutcome.mk mode results).

Definition latest_state (j : RewriteJournal.t) (path : PathBuf) : option JournalState.t :=
  match List.find (λ entry, bool_decide (JournalEntry.path entry = path)) (reverse (RewriteJournal.entries j)) with
  | Some entry => Some (JournalEntry.state entry)
  | None => None
  end.

Definition resume_item (j : RewriteJournal.t) (item : PlanItem.t) (plan_digest : Digest) (key : PlanKey.t)
    (assurance : IdentityAssurance.t) : M FileApplyStatus.t :=
  match latest_state j (PlanItem.path item) with
  | Some JournalState.FileReplaced => ret FileApplyStatus.AlreadyReplaced
  | Some JournalState.RolledBack => ret (FileApplyStatus.Skipped "rolled back")
  | Some (JournalState.VaultStored locator) =>
      do r <- attempt (apply_item item plan_digest ApplyMode.Commit key assurance (ResumeVaultStored locator));
      ret (status_of r)
  | _ =>
      do r <- attempt (apply_item item plan_digest ApplyMode.Commit key assurance Fresh);
      ret (status_of r)
  end.

Fixpoint resume_items (j : RewriteJournal.t) (items : list PlanItem.t) (plan_digest : Digest) (key : PlanKey.t)
    (assurance : IdentityAssurance.t) : M (list FileApplyResult.t) :=
  match items with
  | [] => ret []
  | item :: rest =>
      do status <- resume_item j item plan_digest key assurance;
      do results <- resume_items j rest plan_digest key assurance;
      ret (FileApplyResult.mk (PlanItem.path item) status :: results)
  end.

Definition resume (plan : RewritePlan.t) (j : RewriteJournal.t) (key : PlanKey.t) (assurance : IdentityAssurance.t) :
    M ApplyOutcome.t :=
  if negb (bool_decide (RewriteJournal.plan_digest j = RewritePlan.plan_digest plan)) then fail ApplyError.JournalMismatch
  else
    do _ <- usable_root;
    do results <- resume_items j (RewritePlan.items plan) (RewritePlan.plan_digest plan) key assurance;
    ret (ApplyOutcome.mk ApplyMode.Commit results).

(** [fs::read_to_string(&target).unwrap_or_default()]. *)
Definition read_to_string_or_default (target : location) : M (list N) :=
  do r <- attempt (fs_read target);
  ret (match r with Ok bytes => if utf8_valid bytes then bytes else [] | Err _ => [] end).

(** What the rewrite should have left on disk: [None] when the record cannot be checked. *)
Definition expected_rewrite (record : RecoveryRecord.t) (original : list N) : option (list N) :=
  match RecoveryRecord.span record, RecoveryRecord.replacement record with
  | Some span, Some replacement =>
      if negb (utf8_valid original) then None
      else match ByteSpan.slice span original with
           | Err _ => None
           | Ok _ => Some (replace_range original span replacement)
           end
  | _, _ => None
  end.

Definition restore_target (record : RecoveryRecord.t) (original expected : list N) : M RestoreOutcome.t :=
  do _ <- usable_root;
  do resolved <- attempt (resolve_target (RecoveryRecord.path record));
  match resolved with
  | Err _ => ret RestoreOutcome.Conflict
  | Ok target =>
      do current <- read_to_string_or_default target;
      if negb (bool_decide (current = expected)) then ret RestoreOutcome.Conflict
      else
        do f <- errmap ApplyError.Io (metadata target);
        let permissions := PermissionSnapshot.capture unix f in
        do _ <- errmap ApplyError.Io (replace_atomic target original permissions);
        do _ <- journal (RecoveryRecord.path record) JournalState.RolledBack;
        do _ <- sink_call (audit AuditAction.RedactionRestore (RecoveryRecord.snapshot_digest record))
                  (λ _, Audited AuditAction.RedactionRestore (RecoveryRecord.snapshot_digest record));
        ret (RestoreOutcome.Restored original)
  end.

Definition restore (record : RecoveryRecord.t) (_ : IdentityAssurance.t) : M RestoreOutcome.t :=
  match RecoveryRecord.span record, RecoveryRecord.replacement record with
  | Some _, Some _ =>
      do original <- errmap (λ error, ApplyError.Sink (ApplyError.display error))
                       (λ w, (w, load_snapshot record (World.sink w)));
      match expected_rewrite record original with
      | None => ret RestoreOutcome.Conflict
      | Some expected => restore_target record original expected
      end
  | _, _ => ret RestoreOutcome.Conflict
  end.

(** ** managed.rs *)

(** The directory for temporary files, the process, and the mode the umask leaves. *)
Context (temp_dir : location) (process_id : string) (hex16 : N → string) (created_mode : N).

(** [create_new]: the file appears empty, with the mode of a new file. *)
Definition create_new (p : location) : Apply.M S io_error unit := λ w,
  let '(ft, w1) := World.next w in
  match ft, World.tree w !! p with
  | Fails _ m, _ => (w1, Err (OtherIo m))
  | Done, Some _ => (w1, Err (OtherIo "file exists"))
  | Done, None =>
      (World.created (World.with_tree w1 (<[p := Regular (file.mk [] (new_identity (World.inodes w)) created_mode false)]>
         (World.tree w))), Ok tt)
  end.

(** A change of an open file, or the part of it that was done. *)
Definition update_file (p : location) (f : file.t → file.t) (partial : nat → file.t → file.t) : Apply.M S io_error unit := λ w,
  let '(ft, w1) := World.next w in
  let change g := match World.tree w !! p with Some (Regular x) => World.with_tree w1 (<[p := Regular (g x)]> (World.tree w)) | _ => w1 end in
  match ft with Done => (change f, Ok tt) | Fails n m => (change (partial n), Err (OtherIo m)) end.

Definition set_bytes (bytes : list N) (x : file.t) : file.t :=
  file.mk bytes (file.identity x) (file.mode x) (file.readonly_attribute x).

(** [TempMaterial::materialize]: the path of the file, which is removed on drop. *)
Definition materialize (nonce : N) (contents : list N) : M location :=
  let path := temp_dir ++ [".sv-managed-" +:+ process_id +:+ "-" +:+ hex16 nonce] in
  do _ <- errmap ApplyError.Io (create_new path);
  do _ <- errmap ApplyError.Io (update_file path (set_bytes contents) (λ n, set_bytes (take n contents)));
  do _ <- errmap ApplyError.Io
            (update_file path (PermissionSnapshot.apply_to unix (PermissionSnapshot.restricted unix)) (λ _ x, x));
  ret path.

Definition drop_material (path : location) : M unit :=
  do _ <- attempt (remove_file path); ret tt.

Context (to_lowercase : list N → list N).
Context (encode_manifest : ManagedManifest.t → result (list N) string).
Context (decode_manifest : list N → result ManagedManifest.t string).

(** The names of a path that has only normal components. *)
Fixpoint join (relative : PathBuf) : location :=
  match relative with
  | [] => []
  | Component.Normal segment :: rest => segment :: join rest
  | _ :: rest => join rest
  end.

Definition detect_unexpected_plaintext (managed_relative : PathBuf) : M PlaintextStatus :=
  do present <- exists_ (join managed_relative);
  ret (if present then UnexpectedPlaintext else Clear).

Definition build_managed (project_id : string) (path : PathBuf) (adapter : ConsumerAdapter.t) (manifest_path : PathBuf)
    (binding : SharedBinding.t) (key : PlanKey.t) : M ManagedFilePlan.t :=
  match check_eligibility to_lowercase path with
  | Eligibility.PartlySensitive reason => fail (ApplyError.Ineligible reason)
  | Eligibility.WhollySensitive =>
      do normalized <- errmap ApplyError.of_plan_error (lift (normalize_relative path));
      do normalized_manifest <- errmap ApplyError.of_plan_error (lift (normalize_relative manifest_path));
      if decide (normalized = normalized_manifest) then fail ApplyError.ManifestConsumed
      else
        do target <- resolve_target normalized;
        do f <- errmap ApplyError.Io (metadata target);
        let permissions := PermissionSnapshot.capture unix f in
        do bytes <- errmap ApplyError.Io (fs_read target);
        let snapshot_digest := keyed_digest hmac key bytes in
        do captured <- capture_from_path target;
        let identity := match captured with Ok identity => identity | Err _ => FileIdentity.Windows 0 0 end in
        ret (ManagedFilePlan.mk project_id normalized identity permissions adapter normalized_manifest snapshot_digest binding)
  end.

(** Like [resolve_components], for a path that may not exist yet. *)
Fixpoint resolve_after_create (probe : location) (relative : PathBuf) : M location :=
  match relative with
  | [] => ret probe
  | Component.Normal segment :: rest =>
      let probe := probe ++ [segment] in
      do r <- attempt (symlink_metadata probe);
      if match r with Ok n => is_link n | Err _ => false end then fail ApplyError.SymlinkRejected
      else resolve_after_create probe rest
  | _ => fail ApplyError.PathEscapesRoot
  end.

Definition resolve_target_after_create (relative : PathBuf) : M location := resolve_after_create [] relative.

Definition launch_hint (adapter : ConsumerAdapter.t) : string :=
  match adapter with
  | ConsumerAdapter.EnvInjection => "launch via the vault launch adapter; material is injected as environment variables"
  | ConsumerAdapter.TempFile => "launch via the vault launch adapter; material is materialized to a restricted temp path"
  end.

(** The vault's side of an ingestion. *)
Definition commit_managed (plan : ManagedFilePlan.t) (bytes : list N) : M string :=
  do snapshot_ref <- sink_call (store_managed_snapshot (ManagedFilePlan.project_id plan) (ManagedFilePlan.path plan) bytes)
                       (SnapshotStored (ManagedFilePlan.path plan) bytes);
  do created_at <- now;
  let record := RecoveryRecord.mk (ManagedFilePlan.snapshot_digest plan) (ManagedFilePlan.project_id plan)
    (ManagedFilePlan.path plan) (ManagedFilePlan.identity plan) (ManagedFilePlan.snapshot_digest plan) snapshot_ref
    DiscoveryPolicy.Opaque None None None created_at in
  do _ <- sink_call (store_recovery record) (λ _, RecoveryStored record);
  do _ <- journal (ManagedFilePlan.path plan) (JournalState.VaultStored None);
  ret snapshot_ref.

(** The manifest at its own path. *)
Definition write_manifest (plan : ManagedFilePlan.t) (snapshot_ref : string) : M location :=
  do manifest_target <- resolve_target_after_create (ManagedFilePlan.manifest_path plan);
  do _ <- match manifest_target with
          | [] => ret tt
          | _ => errmap ApplyError.Io (create_dir_all (removelast manifest_target))
          end;
  do created_at <- now;
  let manifest := ManagedManifest.mk MANIFEST_VERSION (to_string_lossy (ManagedFilePlan.path plan))
    (ConsumerAdapter.as_str (ManagedFilePlan.adapter plan)) (ManagedFilePlan.project_id plan) snapshot_ref
    (launch_hint (ManagedFilePlan.adapter plan)) created_at in
  do manifest_bytes <- errmap ApplyError.Serialization (lift (encode_manifest manifest));
  do _ <- errmap ApplyError.Io (replace_atomic manifest_target manifest_bytes (PermissionSnapshot.restricted unix));
  ret manifest_target.

(** The startup check, the removal and the last records. *)
Definition remove_original (plan : ManagedFilePlan.t) (target manifest_target : location) : M ManagedIngestStatus.t :=
  do checked <- λ w, (w, Ok (startup_check_sink (ManagedFilePlan.adapter plan) (ManagedFilePlan.manifest_path plan)
                               (ManagedFilePlan.path plan) (World.tree w) (World.sink w)));
  match checked with
  | Err error =>
      do _ <- attempt (remove_file manifest_target);
      ret (ManagedIngestStatus.StartupCheckFailed (ApplyError.display error))
  | Ok _ =>
      do _ <- emit_event (StartupPassed (ManagedFilePlan.manifest_path plan) (ManagedFilePlan.path plan));
      do old <- λ w, (w, Ok (World.tree w !! target));
      do removed <- attempt (remove_file target);
      match removed with
      | Err error =>
          ret (ManagedIngestStatus.Failed ("the startup check passed but removal failed: " +:+ show_io error))
      | Ok _ =>
          do _ <- emit_event (Removed target old);
          do _ <- journal (ManagedFilePlan.path plan) JournalState.FileReplaced;
          do _ <- sink_call (audit AuditAction.PlanExecute (ManagedFilePlan.snapshot_digest plan))
                    (λ _, Audited AuditAction.PlanExecute (ManagedFilePlan.snapshot_digest plan));
          ret (ManagedIngestStatus.Ingested (ManagedFilePlan.manifest_path plan))
      end
  end.

Definition INGEST_REFUSED : string :=
  "OS file identity check is unavailable on this platform;                          ingestion refused because the caller did not acknowledge                          IdentityAssurance::AcknowledgedUnavailable (ADR-0019 §2                          identity check)".

Definition managed_identity_check (assurance : IdentityAssurance.t) (expected : FileIdentity.t)
    (captured : result FileIdentity.t PlanError.t) : option ManagedIngestStatus.t :=
  match assurance, captured with
  | _, Ok identity =>
      if decide (identity = expected) then None
      else Some (ManagedIngestStatus.Failed "file identity no longer matches the plan")
  | IdentityAssurance.AcknowledgedUnavailable, Err _ => None
  | IdentityAssurance.Enforced, Err _ => Some (ManagedIngestStatus.Failed INGEST_REFUSED)
  end.

Definition ingest_managed_file (plan : ManagedFilePlan.t) (key : PlanKey.t) (assurance : IdentityAssurance.t) :
    M ManagedIngestStatus.t :=
  match check_eligibility to_lowercase (ManagedFilePlan.path plan) with
  | Eligibility.PartlySensitive reason => ret (ManagedIngestStatus.Ineligible reason)
  | Eligibility.WhollySensitive =>
      do _ <- usable_root;
      do target <- resolve_target (ManagedFilePlan.path plan);
      do captured <- capture_from_path target;
      match managed_identity_check assurance (ManagedFilePlan.identity plan) captured with
      | Some status => ret status
      | None =>
          do bytes <- errmap ApplyError.Io (fs_read target);
          if negb (bool_decide (keyed_digest hmac key bytes = ManagedFilePlan.snapshot_digest plan))
          then ret (ManagedIngestStatus.Failed "file content changed since the plan was built")
          else
            do snapshot_ref <- commit_managed plan bytes;
            do manifest_target <- write_manifest plan snapshot_ref;
            remove_original plan target manifest_target
      end
  end.

(** The built-in startup check. *)
Definition startup_check (adapter : ConsumerAdapter.t) (manifest_relative expected_original : PathBuf) (d : Tree) :
    result unit string :=
  match follow d (join manifest_relative) with
  | Ok (Some f) =>
      match decode_manifest (file.bytes f) with
      | Err e => Err ("managed-file manifest malformed: " +:+ e)
      | Ok manifest =>
          if negb (bool_decide (ManagedManifest.adapter manifest = ConsumerAdapter.as_str adapter))
          then Err ("manifest names adapter '" +:+ ManagedManifest.adapter manifest +:+ "', but the plan selected '"
                    +:+ ConsumerAdapter.as_str adapter +:+ "'")
          else if negb (bool_decide (ManagedManifest.original manifest = to_string_lossy expected_original))
          then Err "manifest records a different consumed path than the plan"
          else Ok tt
      end
  | Ok None => Err "managed-file manifest unreadable: is a directory"
  | Err e => Err ("managed-file manifest unreadable: " +:+ show_io e)
  end.
End apply.
