(* ===== verification/ApplySpec.v ===== *)
(** * ApplySpec: a calculus for the remediation pipeline

    [wp] is the weakest precondition of a computation, [observes] says that it changes
    neither the tree nor the vault nor the log and what it returns.  The steps of the
    pipeline are specified with them, for any vault and any faults. *)
From S2P Require Import Prelude Types Locator Bytes Paths Privacy ScanTypes Patterns Scan AuditTypes Plan PlanSpec Apply.

(** ** The calculus *)

Section calculus.
Context {S : Type}.

(** Nothing the outside can see has changed. *)
Definition unchanged (w w' : World.t S) : Prop :=
  World.tree w' = World.tree w ∧ World.sink w' = World.sink w ∧ World.log w' = World.log w.

Lemma unchanged_refl w : unchanged w w.
Proof. done. Qed.

Lemma unchanged_trans w1 w2 w3 : unchanged w1 w2 → unchanged w2 w3 → unchanged w1 w3.
Proof. unfold unchanged. intros (-> & -> & ->) (-> & -> & ->). done. Qed.

Definition wp {E A} (m : M S E A) (w : World.t S) (Q : result A E → World.t S → Prop) : Prop := Q (m w).2 (m w).1.

Lemma run_mono {E A} (m : M S E A) w (Q Q' : result A E → World.t S → Prop) :
  wp m w Q → (∀ r w', Q r w' → Q' r w') → wp m w Q'.
Proof. unfold wp. auto. Qed.

Lemma run_bind {E A B} (m : M S E A) (k : A → M S E B) w (Q : result B E → World.t S → Prop) :
  wp m w (λ r w', match r with Ok v => wp (k v) w' Q | Err e => Q (Err e) w' end) → wp (bind m k) w Q.
Proof. unfold wp, bind. destruct (m w) as [w' [v|e]]; cbn; done. Qed.

Lemma run_ret {E A} (v : A) w (Q : result A E → World.t S → Prop) : Q (Ok v) w → wp (ret v) w Q.
Proof. done. Qed.

Lemma run_fail {E A} (e : E) w (Q : result A E → World.t S → Prop) : Q (Err e) w → wp (fail e) w Q.
Proof. done. Qed.

Lemma run_attempt {E F A} (m : M S E A) w (Q : result (result A E) F → World.t S → Prop) :
  wp m w (λ r w', Q (Ok r) w') → wp (attempt m) w Q.
Proof. unfold wp, attempt. by destruct (m w). Qed.

Lemma run_errmap {E F A} (f : E → F) (m : M S E A) w (Q : result A F → World.t S → Prop) :
  wp m w (λ r w', Q (match r with Ok v => Ok v | Err e => Err (f e) end) w') → wp (errmap f m) w Q.
Proof. unfold wp, errmap. by destruct (m w). Qed.

(** [m] only looks: what it returns satisfies [P]. *)
Definition observes {E A} (m : M S E A) (w : World.t S) (P : A → Prop) : Prop :=
  wp m w (λ r w', unchanged w w' ∧ ∀ v, r = Ok v → P v).

Lemma observes_wp {E A} (m : M S E A) w (P : A → Prop) (Q : result A E → World.t S → Prop) :
  observes m w P → (∀ r w', unchanged w w' → (∀ v, r = Ok v → P v) → Q r w') → wp m w Q.
Proof. intros [Hu Hr] HQ. by apply HQ. Qed.

Lemma observes_mono {E A} (m : M S E A) w (P P' : A → Prop) :
  observes m w P → (∀ v, P v → P' v) → observes m w P'.
Proof. intros H HP. apply (observes_wp _ _ _ _ H). eauto. Qed.

Lemma observes_ret {E A} (v : A) w (P : A → Prop) : P v → observes (ret v : M S E A) w P.
Proof. intros HP. split; [apply unchanged_refl|]. by intros ? [= <-]. Qed.

Lemma observes_fail {E A} (e : E) w (P : A → Prop) : observes (fail e : M S E A) w P.
Proof. split; [apply unchanged_refl|done]. Qed.

Lemma observes_lift {E A} (r : result A E) w (P : A → Prop) : (∀ v, r = Ok v → P v) → observes (lift r) w P.
Proof. intros HP. split; [apply unchanged_refl|done]. Qed.

Lemma observes_errmap {E F A} (f : E → F) (m : M S E A) w (P : A → Prop) : observes m w P → observes (errmap f m) w P.
Proof.
  intros H. apply run_errmap. apply (observes_wp _ _ _ _ H). intros [v|e] w' Hu Hr; split; try done.
  intros v' [= <-]. auto.
Qed.

Lemma observes_attempt {E F A} (m : M S E A) w (P : A → Prop) :
  observes m w P → observes (attempt m : M S F _) w (λ r, ∀ v, r = Ok v → P v).
Proof. intros H. apply run_attempt. apply (observes_wp _ _ _ _ H). intros r w' Hu Hr. split; [done|]. by intros ? [= <-]. Qed.

Lemma observes_bind {E A B} (m : M S E A) (k : A → M S E B) w (P : A → Prop) (Q : B → Prop) :
  observes m w P → (∀ v w', unchanged w w' → P v → observes (k v) w' Q) → observes (bind m k) w Q.
Proof.
  intros Hm Hk. apply run_bind. apply (observes_wp _ _ _ _ Hm). intros [v|e] w' Hu Hr; [|split; done].
  apply (observes_wp _ _ _ _ (Hk v w' Hu (Hr v eq_refl))). intros r w'' Hu' Hr'. split; [by eapply unchanged_trans|done].
Qed.

(** A step of observation in front of a computation. *)
Lemma wp_bind_observes {E A B} (m : M S E A) (k : A → M S E B) w (P : A → Prop) (Q : result B E → World.t S → Prop) :
  observes m w P →
  (∀ v w', unchanged w w' → P v → wp (k v) w' Q) →
  (∀ e w', unchanged w w' → Q (Err e) w') → wp (bind m k) w Q.
Proof.
  intros Hm Hk He. apply run_bind. apply (observes_wp _ _ _ _ Hm). intros [v|e] w' Hu Hr; eauto.
Qed.

Lemma wp_bind_emit {E B} (e : event) (k : unit → M S E B) w (Q : result B E → World.t S → Prop) :
  wp (k tt) (World.logged w e) Q → wp (bind (emit_event e) k) w Q.
Proof. done. Qed.

Lemma observes_now {E} w (P : N → Prop) : (∀ n, P n) → observes (now : M S E N) w P.
Proof. intros HP. split; [done|]. intros v _. apply HP. Qed.

Lemma next_unchanged (w : World.t S) : unchanged w (World.next w).2.
Proof. unfold World.next. destruct (World.faults w); done. Qed.

Lemma observes_io {A} (f : Tree → result A io_error) w (P : A → Prop) :
  (∀ v, f (World.tree w) = Ok v → P v) → observes (io_read f) w P.
Proof.
  intros HP. unfold observes, wp, io_read. pose proof (next_unchanged w) as Hu.
  destruct (World.next w) as [[|n m] w1]; cbn in *; split; done.
Qed.
End calculus.

Create HintDb observes.
#[export] Hint Resolve observes_ret observes_fail observes_now unchanged_refl unchanged_trans : observes.

(** Rewrites with what an observation left alone. *)
Ltac use_unchanged :=
  repeat match goal with
  | H : unchanged ?w ?w' |- _ => destruct H as (? & ? & ?)
  end.

(** ** Looking at the tree *)

Section looking.
Context {S : Type}.
Implicit Types (w : World.t S).

Lemma observes_symlink_metadata p w : observes (symlink_metadata p) w (λ n, World.tree w !! p = Some n).
Proof. apply observes_io. intros n. destruct (World.tree w !! p); [by intros [= <-]|done]. Qed.

Lemma observes_metadata p w : observes (metadata p) w (λ f, follow (World.tree w) p = Ok (Some f)).
Proof. apply observes_io. intros f. destruct (follow (World.tree w) p) as [[x|]|]; [by intros [= <-]|done..]. Qed.

Lemma observes_fs_read p w :
  observes (fs_read p) w (λ bytes, ∃ f, follow (World.tree w) p = Ok (Some f) ∧ bytes = file.bytes f).
Proof. apply observes_io. intros f. destruct (follow (World.tree w) p) as [[x|]|]; [intros [= <-]; eauto|done..]. Qed.

Lemma observes_open_locked p w : observes (open_locked p) w (λ _, True).
Proof.
  eapply observes_bind; [apply observes_errmap, observes_io; by instantiate (1 := λ _, True)|]. intros [] w' Hu _.
  unfold observes, wp. pose proof (next_unchanged w') as Hn. destruct (World.next w') as [[|n m] w1]; cbn in *.
  - destruct (decide _); cbn; done.
  - done.
Qed.

Lemma observes_read_to_end p w :
  observes (read_to_end p) w (λ bytes, ∃ f, follow (World.tree w) p = Ok (Some f) ∧ bytes = file.bytes f).
Proof. apply observes_errmap, observes_fs_read. Qed.

Lemma observes_capture unix p w : observes (capture_from_path unix p) w (λ _, True).
Proof.
  eapply observes_bind; [eapply observes_attempt, observes_metadata|]. intros r w' _ _. by apply observes_ret.
Qed.

Lemma observes_resolve probe relative w :
  observes (resolve_components probe relative) w (λ p, p = probe ++ join relative).
Proof.
  revert probe w. induction relative as [|c rest IH]; intros probe w; cbn [resolve_components].
  { apply observes_ret. cbn. by rewrite app_nil_r. }
  destruct c as [| | |segment]; try apply observes_fail.
  eapply observes_bind; [apply observes_errmap, observes_symlink_metadata|]. intros n w' _ _.
  destruct (is_link n); [apply observes_fail|]. eapply observes_mono; [apply IH|]. intros p ->. cbn.
  by rewrite <-app_assoc.
Qed.

Lemma observes_resolve_target relative w :
  observes (resolve_target relative) w (λ p, p = join relative ∧ ∃ f, World.tree w !! p = Some (Regular f)).
Proof.
  eapply observes_bind; [apply observes_resolve|]. intros p w1 Hu ->. cbn [app].
  eapply observes_bind; [apply observes_errmap, observes_symlink_metadata|]. intros n w2 Hu2 Hn.
  destruct n as [|f|t|]; try apply observes_fail. apply observes_ret. use_unchanged. split; [done|]. exists f. congruence.
Qed.

Lemma observes_usable_root w : observes usable_root w (λ _, True).
Proof.
  eapply observes_bind; [apply observes_errmap, observes_io; by instantiate (1 := λ _, True)|]. intros [] w1 _ _.
  eapply observes_bind; [|intros b w2 _ _; destruct b; [by apply observes_ret|apply observes_fail]].
  eapply observes_bind; [apply observes_attempt, observes_io; by instantiate (1 := λ _, True)|]. intros r w2 _ _.
  apply observes_ret. by instantiate (1 := λ _, True).
Qed.

(** ** Without faults *)

(** [m] looks, and returns [v]. *)
Definition sees {E A} (m : M S E A) w (v : A) : Prop :=
  ∃ w', m w = (w', Ok v) ∧ unchanged w w' ∧ World.faults w' = [].

Lemma wp_bind_sees {E A B} (m : M S E A) (k : A → M S E B) v w (Q : result B E → World.t S → Prop) :
  sees m w v → (∀ w', unchanged w w' → World.faults w' = [] → wp (k v) w' Q) → wp (bind m k) w Q.
Proof. intros (w' & E1 & Hu & Hf) Hk. apply run_bind. unfold wp at 1. rewrite E1. by apply Hk. Qed.

Lemma sees_ret {E A} (v : A) w : World.faults w = [] → sees (ret v : M S E A) w v.
Proof. by exists w. Qed.

Lemma sees_io {A} (f : Tree → result A io_error) w v :
  World.faults w = [] → f (World.tree w) = Ok v → sees (io_read f) w v.
Proof. intros Hw Hf. exists w. unfold io_read, World.next. rewrite Hw. by rewrite Hf. Qed.

Lemma sees_errmap {E F A} (f : E → F) (m : M S E A) w v : sees m w v → sees (errmap f m) w v.
Proof. intros (w' & E1 & H). exists w'. unfold errmap. by rewrite E1. Qed.

Lemma sees_attempt {E F A} (m : M S E A) w v : sees m w v → sees (attempt m : M S F _) w (Ok v).
Proof. intros (w' & E1 & H). exists w'. unfold attempt. by rewrite E1. Qed.

Lemma sees_bind {E A B} (m : M S E A) (k : A → M S E B) v u w :
  sees m w v → (∀ w', unchanged w w' → World.faults w' = [] → sees (k v) w' u) → sees (bind m k) w u.
Proof.
  intros (w1 & E1 & Hu1 & Hf1) Hk. destruct (Hk w1 Hu1 Hf1) as (w2 & E2 & Hu2 & Hf2). exists w2.
  unfold bind. rewrite E1. split_and!; [done|by eapply unchanged_trans|done].
Qed.

(** Every component exists and none is a link. *)
Fixpoint resolvable (d : Tree) (probe : location) (relative : PathBuf) : Prop :=
  match relative with
  | [] => True
  | Component.Normal segment :: rest =>
      (∃ n, d !! (probe ++ [segment]) = Some n ∧ is_link n = false) ∧ resolvable d (probe ++ [segment]) rest
  | _ => False
  end.

Lemma observes_resolvable probe relative w :
  observes (resolve_components probe relative) w (λ _, resolvable (World.tree w) probe relative).
Proof.
  revert probe w. induction relative as [|c rest IH]; intros probe w; cbn [resolve_components resolvable]; [by apply observes_ret|].
  destruct c as [| | |segment]; try apply observes_fail.
  eapply observes_bind; [apply observes_errmap, observes_symlink_metadata|]. intros n w' Hu Hn.
  destruct (is_link n) eqn:E; [apply observes_fail|]. eapply observes_mono; [apply IH|]. cbv beta. intros p Hr.
  destruct Hu as (Ht & _). rewrite Ht in Hr. split; [by exists n|done].
Qed.

Lemma sees_resolve probe relative w :
  World.faults w = [] → resolvable (World.tree w) probe relative →
  sees (resolve_components probe relative) w (probe ++ join relative).
Proof.
  revert probe w. induction relative as [|c rest IH]; intros probe w Hf Hr; cbn [resolve_components].
  { cbn. rewrite app_nil_r. by apply sees_ret. }
  destruct c as [| | |segment]; try done. cbn in Hr. destruct Hr as [(n & Hn & Hl) Hr].
  eapply sees_bind; [apply sees_errmap, sees_io; [done|by rewrite Hn]|]. intros w' (Ht & _) Hf'. rewrite Hl.
  cbn [join]. replace (probe ++ segment :: join rest) with ((probe ++ [segment]) ++ join rest) by (by rewrite <-app_assoc).
  apply IH; [done|by rewrite Ht].
Qed.

Lemma resolvable_insert d p f probe relative :
  resolvable d probe relative → resolvable (<[p := Regular f]> d) probe relative.
Proof.
  revert probe. induction relative as [|c rest IH]; intros probe; [done|]. destruct c as [| | |segment]; cbn; try done.
  intros [(n & Hn & Hl) Hr]. split; [|by apply IH]. destruct (decide (p = probe ++ [segment])) as [->|Hne].
  - exists (Regular f). by rewrite lookup_insert_eq.
  - exists n. by rewrite lookup_insert_ne.
Qed.

Lemma sees_usable_root w : World.faults w = [] → World.tree w !! [] = Some Directory → sees usable_root w tt.
Proof.
  intros Hf Hd. unfold usable_root. eapply sees_bind; [apply sees_errmap, sees_io; [done|by rewrite Hd]|].
  intros w1 (Ht & _) Hf1. apply (sees_bind _ _ true); [|intros w2 _ Hf2; by apply sees_ret].
  eapply sees_bind; [apply sees_attempt, sees_io; [done|unfold follow; by rewrite Ht, Hd]|].
  intros w2 _ Hf2. by apply sees_ret.
Qed.

(** ** Replacing a file *)

Lemma replace_atomic_spec unix new_identity target content permissions w :
  wp (replace_atomic unix new_identity target content permissions) w
    (λ r w', (unchanged w w' ∧ ∃ e, r = Err e) ∨
             (World.tree w' = <[target := Regular (new_file unix new_identity w content permissions)]> (World.tree w) ∧
              World.sink w' = World.sink w ∧
              World.log w' = Replaced target (bytes_at (World.tree w) target) content :: World.log w)).
Proof.
  unfold wp, replace_atomic. pose proof (next_unchanged w) as Hn. destruct (World.next w) as [ft w1]. cbn in Hn.
  destruct (World.tree w !! target) as [[|f|t|]|]; [left; cbn; split; eauto| | | |].
  all: destruct ft as [|[|n] m]; cbn [fst snd].
  all: try (left; split; [done|by eexists]).
  all: right; destruct Hn as (_ & Hs & Hl); cbn; by rewrite Hs, Hl.
Qed.
End looking.

(** ** Steps that call the vault *)

Definition outside_of {S} (w : World.t S) : Tree * S := (World.tree w, World.sink w).

Lemma unchanged_outside {S} (w w' : World.t S) : unchanged w w' → outside_of w' = outside_of w.
Proof. unfold outside_of. by intros (-> & -> & _). Qed.

Lemma unchanged_log {S} (w w' : World.t S) : unchanged w w' → World.log w' = World.log w.
Proof. by intros (_ & _ & ->). Qed.

(** What the calls of a vault do to the outside is within [R]. *)
Class Calls {S : Type} `{V : VaultSink S} (R : relation (Tree * S)) : Prop := {
  calls_preorder :: PreOrder R;
  calls_store_snapshot item bytes o : R o (store_snapshot item bytes o).1;
  calls_commit_locator item ref o : R o (commit_locator item ref o).1;
  calls_store_recovery record o : R o (store_recovery record o).1;
  calls_append_journal entry o : R o (append_journal entry o).1;
  calls_audit action digest o : R o (audit action digest o).1;
  calls_store_managed project path bytes o : R o (store_managed_snapshot project path bytes o).1
}.

(** Any vault at all. *)
#[export] Instance calls_any {S} `{V : VaultSink S} : Calls (λ _ _ : Tree * S, True).
Proof. by split. Qed.

Definition is_replacement (e : event) : bool := match e with Replaced _ _ _ => true | _ => false end.

Section steps.
Context {S : Type} `{V : VaultSink S} (R : relation (Tree * S)) `{HR : !Calls R}.
Implicit Types (w : World.t S).

(** Only records have been added to the log, and the outside moved within [R]. *)
Definition records w w' : Prop :=
  R (outside_of w) (outside_of w') ∧
  ∃ evs, World.log w' = evs ++ World.log w ∧ Forall (λ e, is_replacement e = false) evs.

Lemma records_unchanged w w' : unchanged w w' → records w w'.
Proof.
  intros Hu. split; [rewrite (unchanged_outside _ _ Hu); reflexivity|]. exists []. by rewrite (unchanged_log _ _ Hu).
Qed.

Lemma records_trans w1 w2 w3 : records w1 w2 → records w2 w3 → records w1 w3.
Proof.
  intros [H1 (e1 & E1 & F1)] [H2 (e2 & E2 & F2)]. split; [by etransitivity|]. exists (e2 ++ e1).
  rewrite E2, E1, <-app_assoc.
  split; [done|]. by apply Forall_app.
Qed.

(** A call of the vault, and the record of it in the log. *)
Lemma wp_sink_call {A} (f : outside S A) (e : A → event) w (Q : result A ApplyError.t → World.t S → Prop) :
  R (outside_of w) (f (outside_of w)).1 →
  (∀ v o w', f (outside_of w) = (o, Ok v) → R (outside_of w) o → outside_of w' = o → World.log w' = e v :: World.log w →
    Q (Ok v) w') →
  (∀ err w', records w w' → Q (Err err) w') → wp (sink_call f e) w Q.
Proof.
  intros Hf Hok Herr. unfold sink_call. apply run_bind, run_errmap. unfold wp, call.
  destruct (f (World.tree w, World.sink w)) as [o [v|err]] eqn:E; cbn [fst snd].
  - unfold bind, emit_event, ret. cbn [fst snd]. unfold outside_of in *. rewrite E in *.
    apply (Hok v o); [done|done|by destruct o|done].
  - apply Herr. split; [|by exists []]. unfold outside_of in *. rewrite E in Hf. by destruct o.
Qed.

Lemma wp_journal path state w (Q : result unit ApplyError.t → World.t S → Prop) :
  (∀ at_ w', R (outside_of w) (outside_of w') →
    World.log w' = Journalled (JournalEntry.mk path state at_) :: World.log w → Q (Ok tt) w') →
  (∀ err w', records w w' → Q (Err err) w') → wp (journal path state) w Q.
Proof.
  intros Hok Herr. unfold journal. eapply wp_bind_observes; [apply observes_now; by instantiate (1 := λ _, True)| |].
  - intros at_ w1 Hu _. apply wp_sink_call; [apply calls_append_journal| |].
    + intros [] o w' _ Ho Hw Hl. apply (Hok at_).
      * rewrite Hw. by rewrite <-(unchanged_outside _ _ Hu).
      * by rewrite Hl, (unchanged_log _ _ Hu).
    + intros err w' Hrec. apply Herr. eapply records_trans; [by apply records_unchanged|done].
  - intros err w' Hu. apply Herr. by apply records_unchanged.
Qed.
End steps.

(** ** The pipeline *)

(** The record that is stored for an item. *)
Definition record_of (hmac : list N → list N → list N) (item : PlanItem.t) (plan_digest : Digest) (key : PlanKey.t)
    (bytes : list N) (snapshot_ref : string) (locator : option (list N)) (created_at : N) : RecoveryRecord.t :=
  RecoveryRecord.mk plan_digest (PlanItem.project_id item) (PlanItem.path item) (PlanItem.identity item)
    (keyed_digest hmac key bytes) snapshot_ref
    (match locator with Some _ => DiscoveryPolicy.Discoverable | None => DiscoveryPolicy.Opaque end) locator
    (Some (PlanItem.span item)) (Some (PlanItem.replacement item)) created_at.

(** The log between the verification and the replacement, latest first. *)
Definition commit_log (item : PlanItem.t) (bytes : list N) (snapshot_ref : string) (locator : option (list N))
    (record : RecoveryRecord.t) (at_ : N) : list event :=
  [Journalled (JournalEntry.mk (PlanItem.path item) (JournalState.VaultStored locator) at_); RecoveryStored record;
   LocatorCommitted (PlanItem.path item) locator; SnapshotStored (PlanItem.path item) bytes snapshot_ref].

Section pipeline.
Context {S : Type} `{V : VaultSink S} (R : relation (Tree * S)) `{HR : !Calls R}.
Context (unix : bool) (new_identity : nat → N * N) (hmac : list N → list N → list N).
Context (version : string) (sha256 : list N → list N) (hex_encode : list N → string) {Regex : Type}.
Context (build : string → result Regex regex_error) (is_match : Regex → string → bool).
Context (find_iter : Regex → string → list (nat * nat)).
Context (parse_pack : string → option PatternPack.t) (br eu us : string) (show_pack_error : PackError.t → string).
Implicit Types (w : World.t S).

Local Abbreviation check := (check_content hmac version sha256 hex_encode build is_match find_iter parse_pack br eu us show_pack_error).
Local Abbreviation apply_it := (apply_item unix new_identity hmac version sha256 hex_encode build is_match find_iter parse_pack br eu us show_pack_error).
Local Abbreviation replace_it := (replace_item unix new_identity hmac version sha256 hex_encode build is_match find_iter parse_pack br eu us show_pack_error).

(** The vault's side of an item has been committed between [w] and [w']. *)
Definition committed (item : PlanItem.t) (plan_digest : Digest) (key : PlanKey.t) (bytes : list N)
    (locator : option (list N)) (w w' : World.t S) : Prop :=
  ∃ snapshot_ref at1 at2 o1 o2,
    let record := record_of hmac item plan_digest key bytes snapshot_ref locator at1 in
    store_snapshot item bytes (outside_of w) = (o1, Ok snapshot_ref) ∧ R o1 (outside_of w') ∧
    (store_recovery record o2).2 = Ok tt ∧
    World.log w' = commit_log item bytes snapshot_ref locator record at2 ++ World.log w ∧
    RecoveryRecord.locator_consistent record = true.

Lemma commit_vault_spec item plan_digest key bytes w :
  wp (commit_vault hmac item plan_digest key bytes) w
    (λ r w', records R w w' ∧ ∀ locator, r = Ok locator → committed item plan_digest key bytes locator w w').
Proof.
  unfold commit_vault. apply run_bind. apply (wp_sink_call R); [apply calls_store_snapshot| |by intros err w' Hr].
  intros ref o1 w1 E1 R1 O1 L1. apply run_bind.
  assert (records R w w1) as Hw1.
  { split; [by rewrite O1|]. eexists [_]. split; [exact L1|]. by repeat constructor. }
  apply (wp_sink_call R); [apply calls_commit_locator| |].
  2:{ intros err w' Hr. split; [by eapply records_trans|done]. }
  intros locator o2 w2 _ R2 O2 L2. rewrite <-O2 in R2.
  assert (records R w w2) as Hw2.
  { eapply records_trans; [done|exact Hw1|]. split; [done|]. eexists [_]. split; [exact L2|]. by repeat constructor. }
  destruct (match locator with Some external => negb (is_marker external) | None => false end) eqn:Em; [by split|].
  eapply wp_bind_observes; [apply observes_now; by instantiate (1 := λ _, True)| |].
  2:{ intros e w' Hu. split; [|done]. eapply records_trans; [done|exact Hw2|by apply records_unchanged]. }
  intros at1 w3 Hu3 _. fold (record_of hmac item plan_digest key bytes ref locator at1).
  set (record := record_of hmac item plan_digest key bytes ref locator at1).
  assert (records R w w3) as Hw3 by (eapply records_trans; [done|exact Hw2|by apply records_unchanged]).
  apply run_bind. apply (wp_sink_call R); [apply calls_store_recovery| |].
  2:{ intros err w' Hr. split; [by eapply records_trans|done]. }
  intros [] o4 w4 E4 R4 O4 L4. rewrite <-O4 in R4.
  assert (records R w w4) as Hw4.
  { eapply records_trans; [done|exact Hw3|]. split; [done|]. eexists [_]. split; [exact L4|]. by repeat constructor. }
  apply run_bind. apply (wp_journal R).
  2:{ intros err w' Hr. split; [by eapply records_trans|done]. }
  intros at2 w5 R5 L5. apply run_ret.
  assert (records R w w5) as Hw5.
  { eapply records_trans; [done|exact Hw4|]. split; [done|]. eexists [_]. split; [exact L5|]. by repeat constructor. }
  split; [done|]. intros ? [= <-]. exists ref, at1, at2, o1, (outside_of w3). split_and!; [done| |exact (f_equal snd E4)| |].
  - rewrite <-O1. etransitivity; [exact R2|]. rewrite <-(unchanged_outside _ _ Hu3). by etransitivity.
  - rewrite L5, L4, (unchanged_log _ _ Hu3), L2, L1. done.
  - unfold RecoveryRecord.locator_consistent. cbn. destruct locator as [external|]; [|done].
    by destruct (is_marker external).
Qed.
(** The file at [target] was replaced between [w] and [w'], after its content had been checked
    once more, and only records followed. *)
Definition replaced (item : PlanItem.t) (key : PlanKey.t) (target : location) (permissions : PermissionSnapshot.t)
    (w w' : World.t S) : Prop :=
  ∃ f w1 w2,
    let updated := replace_range (file.bytes f) (PlanItem.span item) (PlanItem.replacement item) in
    follow (World.tree w) target = Ok (Some f) ∧ check item key (file.bytes f) = Ok true ∧
    World.tree w2 = <[target := Regular (new_file unix new_identity w1 updated permissions)]> (World.tree w) ∧
    World.sink w2 = World.sink w ∧ World.log w2 = Replaced target (file.bytes f) updated :: World.log w ∧
    records R w2 w'.

Definition not_applied (r : result FileApplyStatus.t ApplyError.t) : Prop :=
  match r with
  | Ok (FileApplyStatus.Applied _) | Ok FileApplyStatus.AlreadyReplaced | Ok (FileApplyStatus.Skipped _) => False
  | _ => True
  end.

Lemma wp_attempt_call {A B : Type} (f : outside S A) (k : result A ApplyError.t → M S ApplyError.t B) w
    (Q : result B ApplyError.t → World.t S → Prop) :
  R (outside_of w) (f (outside_of w)).1 →
  (∀ v w', R (outside_of w) (outside_of w') → World.log w' = World.log w → wp (k v) w' Q) →
  wp (bind (attempt (call f)) k) w Q.
Proof.
  intros Hf Hk. apply run_bind, run_attempt. unfold wp at 1, call. unfold outside_of in Hf.
  destruct (f (World.tree w, World.sink w)) as [o r] eqn:E. cbn [fst snd] in *. apply Hk; [|done].
  by destruct o.
Qed.

Lemma replace_item_spec item plan_digest key target permissions locator w :
  wp (replace_it item plan_digest key target permissions locator) w
    (λ r w', (unchanged w w' ∧ not_applied r) ∨
             (replaced item key target permissions w w' ∧
              match r with Ok (FileApplyStatus.Applied l) => l = locator | Ok (FileApplyStatus.Failed _) | Err _ => True | _ => False end)).
Proof.
  unfold replace_item. eapply wp_bind_observes; [apply observes_open_locked| |by left].
  intros [] w1 Hu1 _. eapply wp_bind_observes; [apply observes_read_to_end| |].
  2:{ intros e w' Hu. left. split; [by eapply unchanged_trans|done]. }
  intros current w2 Hu2 (f & Hf & ->). eapply wp_bind_observes; [by apply observes_lift; intros v Hv; exact Hv| |].
  2:{ intros e w' Hu. left. split; [eauto using unchanged_trans|done]. }
  intros approved w3 Hu3 Hok. destruct approved; cbn [negb].
  2:{ apply run_ret. left. split; [eauto using unchanged_trans|done]. }
  assert (unchanged w w3) as Hu by eauto using unchanged_trans.
  assert (follow (World.tree w) target = Ok (Some f)) as Hfw by (by destruct Hu1 as (<- & _)).
  apply run_bind, run_errmap. eapply run_mono; [apply replace_atomic_spec|].
  intros r w4 [[Hu4 [e ->]]|(Ht & Hs & Hl)].
  { left. split; [by eapply unchanged_trans|done]. }
  assert (∀ w', records R w4 w' → replaced item key target permissions w w') as Hdone.
  { intros w' Hr. exists f, w3, w4. split_and!; [done|done| | | |done].
    - rewrite Ht. by destruct Hu as (-> & _).
    - rewrite Hs. by destruct Hu as (_ & -> & _).
    - rewrite Hl, (unchanged_log _ _ Hu). unfold bytes_at. destruct Hu as (-> & _). by rewrite Hfw. }
  destruct r as [[]|e]; [|right; split; [apply Hdone, (records_unchanged R), unchanged_refl|done]].
  eapply wp_bind_observes; [apply observes_now; by instantiate (1 := λ _, True)| |].
  2:{ intros e w' Hu'. right. split; [by apply Hdone, (records_unchanged R)|done]. }
  intros at_ w5 Hu5 _. assert (records R w4 w5) as Hr5 by (by apply (records_unchanged R)).
  apply wp_attempt_call; [apply calls_append_journal|]. intros v w6 R6 L6.
  assert (records R w4 w6) as Hr6 by (eapply records_trans; [done|exact Hr5|]; split; [done|]; by exists []).
  destruct v as [[]|e]; [|apply run_ret; right; split; [by apply Hdone|done]].
  apply wp_bind_emit.
  set (w7 := World.logged w6 _).
  assert (records R w4 w7) as Hr7.
  { eapply records_trans; [done|exact Hr6|]. split; [reflexivity|]. eexists [_]. split; [reflexivity|]. by repeat constructor. }
  apply (wp_attempt_call (audit AuditAction.PlanExecute plan_digest)); [apply calls_audit|]. intros v w8 R8 L8.
  assert (records R w4 w8) as Hr8 by (eapply records_trans; [done|exact Hr7|]; split; [done|]; by exists []).
  destruct v as [[]|e]; [|apply run_ret; right; split; [by apply Hdone|done]].
  apply wp_bind_emit, run_ret.
  right. split; [|done]. apply Hdone. eapply records_trans; [done|exact Hr8|]. split; [reflexivity|].
  eexists [_]. split; [reflexivity|]. by repeat constructor.
Qed.
Lemma committed_unchanged item plan_digest key bytes locator w w0 w' :
  unchanged w w0 → committed item plan_digest key bytes locator w0 w' → committed item plan_digest key bytes locator w w'.
Proof. intros Hu. unfold committed. by rewrite (unchanged_outside _ _ Hu), (unchanged_log _ _ Hu). Qed.

(** How far the vault's side was when the file was replaced. *)
Definition vault_done (item : PlanItem.t) (plan_digest : Digest) (key : PlanKey.t) (resume : ResumePoint) (bytes : list N)
    (locator : option (list N)) (w w1 : World.t S) : Prop :=
  match resume with
  | Fresh => committed item plan_digest key bytes locator w w1
  | ResumeVaultStored committed => unchanged w w1 ∧ locator = committed
  end.

(** The two ways one item can end. *)
Definition left_alone (mode : ApplyMode.t) (w : World.t S) (r : result FileApplyStatus.t ApplyError.t) (w' : World.t S) : Prop :=
  records R w w' ∧ not_applied r ∧ (mode = ApplyMode.DryRun → unchanged w w').

Definition rewritten (item : PlanItem.t) (plan_digest : Digest) (mode : ApplyMode.t) (key : PlanKey.t) (resume : ResumePoint)
    (w : World.t S) (r : result FileApplyStatus.t ApplyError.t) (w' : World.t S) : Prop :=
  mode = ApplyMode.Commit ∧ ∃ f locator w1,
    World.tree w !! join (PlanItem.path item) = Some (Regular f) ∧ check item key (file.bytes f) = Ok true ∧
    records R w w1 ∧ vault_done item plan_digest key resume (file.bytes f) locator w w1 ∧
    replaced item key (join (PlanItem.path item)) (PermissionSnapshot.capture unix f) w1 w' ∧
    match r with
    | Ok (FileApplyStatus.Applied l) => l = locator
    | Ok (FileApplyStatus.Failed _) | Err _ => True
    | _ => False
    end.

Lemma apply_item_spec item plan_digest mode key assurance resume w :
  wp (apply_it item plan_digest mode key assurance resume) w
    (λ r w', left_alone mode w r w' ∨ rewritten item plan_digest mode key resume w r w').
Proof.
  assert (∀ r w', unchanged w w' → not_applied r → left_alone mode w r w') as Hstop.
  { intros r w' Hu Hr. split_and!; [by apply (records_unchanged R)|done|done]. }
  unfold apply_item. eapply wp_bind_observes; [apply observes_resolve_target| |by intros e w' Hu; left; apply Hstop].
  intros target w1 Hu1 (-> & f & Hf). eapply wp_bind_observes; [apply observes_errmap, observes_metadata| |].
  2:{ intros e w' Hu. left. apply Hstop; [by eapply unchanged_trans|done]. }
  intros f' w2 Hu2 Hf'. assert (f' = f) as ->.
  { unfold follow in Hf'. destruct Hu1 as (E & _). rewrite E, Hf in Hf'. cbn in Hf'. congruence. }
  assert (unchanged w w2) as Huw2 by (by eapply unchanged_trans).
  eapply wp_bind_observes; [apply observes_capture| |].
  2:{ intros e w' Hu. left. apply Hstop; [by eapply unchanged_trans|done]. }
  intros captured w3 Hu3 _. assert (unchanged w w3) as Huw3 by (by eapply unchanged_trans).
  destruct (identity_check assurance (PlanItem.identity item) captured) as [status|] eqn:Ei.
  { apply run_ret. left. apply Hstop; [done|]. unfold identity_check in Ei.
    destruct assurance, captured; try destruct (decide _); by simplify_eq. }
  eapply wp_bind_observes; [apply observes_open_locked| |].
  2:{ intros e w' Hu. left. apply Hstop; [by eapply unchanged_trans|done]. }
  intros [] w4 Hu4 _. assert (unchanged w w4) as Huw4 by (by eapply unchanged_trans).
  eapply wp_bind_observes; [apply observes_read_to_end| |].
  2:{ intros e w' Hu. left. apply Hstop; [by eapply unchanged_trans|done]. }
  intros bytes w5 Hu5 (f' & Hf5 & ->). assert (unchanged w w5) as Huw5 by (by eapply unchanged_trans).
  assert (f' = f) as ->.
  { unfold follow in Hf5. destruct Huw4 as (E & _). rewrite E, Hf in Hf5. cbn in Hf5. congruence. }
  eapply wp_bind_observes; [by apply observes_lift; intros v Hv; exact Hv| |].
  2:{ intros e w' Hu. left. apply Hstop; [by eapply unchanged_trans|done]. }
  intros approved w6 Hu6 Hok. assert (unchanged w w6) as Huw6 by (by eapply unchanged_trans).
  destruct approved; cbn [negb]; [|by apply run_ret; left; apply Hstop].
  destruct mode; [by apply run_ret; left; apply Hstop|].
  assert (∀ locator w7, records R w w7 → vault_done item plan_digest key resume (file.bytes f) locator w w7 →
    wp (replace_it item plan_digest key (join (PlanItem.path item)) (PermissionSnapshot.capture unix f) locator) w7
      (λ r w', left_alone ApplyMode.Commit w r w' ∨ rewritten item plan_digest ApplyMode.Commit key resume w r w')) as Hrep.
  { intros locator w7 Hr7 Hv. eapply run_mono; [apply replace_item_spec|]. intros r w' [[Hu' Hr]|[Hr Hres]].
    - left. split_and!; [|done|done]. eapply records_trans; [done|exact Hr7|by apply (records_unchanged R)].
    - right. split; [done|]. exists f, locator, w7. split_and!; done. }
  apply run_bind. destruct resume as [|l].
  - eapply run_mono; [apply commit_vault_spec|]. intros [locator|e] w7 [Hr7 Hc].
    + apply Hrep; [eapply records_trans; [done|by apply (records_unchanged R)|done]|].
      eapply committed_unchanged; [exact Huw6|by apply Hc].
    + left. split_and!; [|done|done]. eapply records_trans; [done|by apply (records_unchanged R)|done].
  - apply run_ret. apply Hrep; [by apply (records_unchanged R)|done].
Qed.
End pipeline.
