(* ===== verification/ApplyTheorems.v ===== *)
(** * ApplyTheorems: remediation is ordered, atomic and reversible

    For any vault and any faults, no file is replaced before its original bytes, its recovery
    record and its journal entry are in the vault; a dry run changes nothing; with a vault
    that leaves the project alone every file keeps its content or gets an approved one.  The original of an ingested file is removed last. *)
From S2P Require Import Prelude Types Locator Bytes Patterns AuditTypes Privacy Paths ScanTypes Scan Plan PlanSpec Apply ApplySpec ApplyInstance.

(** ** Logs *)

(** Every replacement in the log satisfies [P] of what was logged before it. *)
Definition replacements (P : list event → location → list N → list N → Prop) (l : list event) : Prop :=
  ∀ l2 target old new l1, l = l2 ++ Replaced target old new :: l1 → P l1 target old new.

Lemma replacements_nil P : replacements P [].
Proof. intros [|e l2] target old new l1; by intros [=]. Qed.

Lemma replacements_cons P e l :
  replacements P l → (∀ target old new, e = Replaced target old new → P l target old new) → replacements P (e :: l).
Proof. intros Hl He [|e' l2] target old new l1 [= -> E]; [subst; by apply He|by eapply Hl]. Qed.

Lemma replacements_records P evs l :
  Forall (λ e, is_replacement e = false) evs → replacements P l → replacements P (evs ++ l).
Proof.
  intros Hf Hl. induction Hf as [|e evs He Hf IH]; [done|]. cbn [app]. apply replacements_cons; [done|].
  by intros target old new ->.
Qed.

(** A vault that does not touch the project tree. *)
Abbreviation same_tree := (λ o o', o'.1 = o.1).
Class QuietSink (S : Type) `{V : VaultSink S} : Prop := quiet_calls :: Calls (S := S) same_tree.

(** A vault that moreover keeps what it stored and gives it back. *)
Class KeepingSink (S : Type) `{V : VaultSink S} := {
  holds : S → string → list N → Prop;
  kept (o o' : Tree * S) := o'.1 = o.1 ∧ ∀ ref bytes, holds o.2 ref bytes → holds o'.2 ref bytes;
  keeping_calls :: Calls (S := S) kept;
  holds_stored item bytes o o' ref : store_snapshot item bytes o = (o', Ok ref) → holds o'.2 ref bytes;
  holds_load record s bytes : holds s (RecoveryRecord.snapshot_ref record) bytes → load_snapshot record s = Ok bytes
}.

#[export] Instance keeping_quiet {S} `{V : VaultSink S} `{K : !KeepingSink S} : QuietSink S.
Proof.
  split; [|apply keeping_calls..]. split; [done|intros o1 o2 o3 E1 E2; congruence].
Qed.

Section remediation.
Context {S : Type} `{V : VaultSink S}.
Context (unix : bool) (new_identity : nat → N * N) (hmac : list N → list N → list N).
Context (version : string) (sha256 : list N → list N) (hex_encode : list N → string) {Regex : Type}.
Context (build : string → result Regex regex_error) (is_match : Regex → string → bool).
Context (find_iter : Regex → string → list (nat * nat)).
Context (parse_pack : string → option PatternPack.t) (br eu us : string) (show_pack_error : PackError.t → string).
Implicit Types (w : World.t S).

Local Abbreviation pinned := (pinned_evidence version sha256 hex_encode build is_match find_iter parse_pack br eu us show_pack_error).
Local Abbreviation check := (check_content hmac version sha256 hex_encode build is_match find_iter parse_pack br eu us show_pack_error).
Local Abbreviation apply_it := (apply_item unix new_identity hmac version sha256 hex_encode build is_match find_iter parse_pack br eu us show_pack_error).
Local Abbreviation execute_plan := (execute unix new_identity hmac version sha256 hex_encode build is_match find_iter parse_pack br eu us show_pack_error).
Local Abbreviation execute_its := (execute_items unix new_identity hmac version sha256 hex_encode build is_match find_iter parse_pack br eu us show_pack_error).

(** The content is what was approved, byte for byte, and the pinned rules still find it. *)
Definition approved (item : PlanItem.t) (key : PlanKey.t) (content : list N) : Prop :=
  keyed_digest hmac key content = PlanItem.whole_file_digest item ∧
  (∃ matched, ByteSpan.slice (PlanItem.span item) content = Ok matched ∧
    keyed_digest hmac key matched = PlanItem.matched_digest item) ∧
  utf8_valid content = true ∧ pinned item content = Ok true.

Lemma check_content_approved item key content : check item key content = Ok true ↔ approved item key content.
Proof.
  unfold check_content, approved, verify_plan_item. case_bool_decide as Hd; cbn [negb]; [|naive_solver].
  destruct (utf8_valid content); cbn [negb]; [|naive_solver].
  destruct (ByteSpan.slice _ _) as [m|e]; [|naive_solver]. case_bool_decide; cbn [negb]; naive_solver.
Qed.

(** ** Order *)

(** A replacement of [old] by [new] at [target] is one the plan allows, and by then the vault
    held the original, the recovery record and the journal entry of its item, in this order. *)
Definition vaulted_first (plan : RewritePlan.t) (key : PlanKey.t) (before : list event) (target : location)
    (old new : list N) : Prop :=
  ∃ item bytes snapshot_ref locator at1 at2,
    let record := record_of hmac item (RewritePlan.plan_digest plan) key bytes snapshot_ref locator at1 in
    item ∈ RewritePlan.items plan ∧ target = join (PlanItem.path item) ∧ approved item key old ∧
    new = replace_range old (PlanItem.span item) (PlanItem.replacement item) ∧
    keyed_digest hmac key bytes = PlanItem.whole_file_digest item ∧
    RecoveryRecord.locator_consistent record = true ∧
    commit_log item bytes snapshot_ref locator record at2 `sublist_of` before.

Lemma apply_item_ordered plan item mode key assurance w :
  item ∈ RewritePlan.items plan → replacements (vaulted_first plan key) (World.log w) →
  wp (apply_it item (RewritePlan.plan_digest plan) mode key assurance Fresh) w
    (λ _ w', replacements (vaulted_first plan key) (World.log w')).
Proof.
  intros Hi Hl. eapply run_mono; [apply (apply_item_spec (λ _ _, True))|]. intros r w' [Hleft|Hdone].
  - destruct Hleft as ((_ & evs & -> & Hf) & _). by apply replacements_records.
  - destruct Hdone as (_ & f & locator & w1 & _ & Hc & _ & Hv & Hr & _).
    destruct Hv as (ref & at1 & at2 & o1 & o2 & _ & _ & _ & L1 & Hcons).
    destruct Hr as (f1 & wa & w2 & _ & Hc1 & _ & _ & L2 & (_ & evs & -> & Hf)).
    apply replacements_records; [done|]. rewrite L2. apply replacements_cons.
    + rewrite L1. apply replacements_records; [by repeat constructor|done].
    + intros target old new [= <- <- <-]. apply check_content_approved in Hc as (Hd & _).
      exists item, (file.bytes f), ref, locator, at1, at2. split_and!; try done; [by apply check_content_approved|].
      rewrite L1. by apply sublist_inserts_r.
Qed.

Lemma execute_items_ordered plan items mode key assurance w :
  (∀ item, item ∈ items → item ∈ RewritePlan.items plan) → replacements (vaulted_first plan key) (World.log w) →
  wp (execute_its items (RewritePlan.plan_digest plan) mode key assurance) w
    (λ _ w', replacements (vaulted_first plan key) (World.log w')).
Proof.
  revert w. induction items as [|item items IH]; intros w Hin Hl; [done|]. cbn [execute_items].
  apply run_bind, run_attempt. eapply run_mono; [apply apply_item_ordered; [|done]; apply Hin, list_elem_of_here|].
  intros r w1 H1. apply run_bind. eapply run_mono; [apply IH; [|done]; intros i Hi; apply Hin; by right|].
  by intros [v|e] w2 H2.
Qed.

(** C14: Vault before file.  However the vault answers, whatever it or another program does to
    the project while the vault works, and wherever a call of the operating system fails, a
    file that a run of the plan replaced held the approved bytes at that moment, was given
    exactly the approved replacement, and before that the vault had stored a snapshot with the
    approved digest, committed the locator, stored a consistent recovery record for the item
    and appended its journal entry, in this order. *)
Theorem execute_vaults_first (plan : RewritePlan.t) (mode : ApplyMode.t) (key : PlanKey.t) (assurance : IdentityAssurance.t)
    (w : World.t S) :
  World.log w = [] →
  replacements (vaulted_first plan key) (World.log (execute_plan plan mode key assurance w).1).
Proof.
  intros Hl. change (wp (execute_plan plan mode key assurance) w (λ _ w', replacements (vaulted_first plan key) (World.log w'))).
  unfold execute. eapply wp_bind_observes; [apply observes_usable_root| |].
  - intros [] w1 Hu _. apply run_bind. eapply run_mono; [apply execute_items_ordered; [done|]|by intros [v|e]].
    rewrite (unchanged_log _ _ Hu), Hl. apply replacements_nil.
  - intros e w' Hu. rewrite (unchanged_log _ _ Hu), Hl. apply replacements_nil.
Qed.

(** A dry run touches nothing: whatever fails, the project tree, the vault and its journal
    are as they were, so previewing a plan is always safe. *)
Theorem dry_run_touches_nothing (plan : RewritePlan.t) (key : PlanKey.t) (assurance : IdentityAssurance.t) (w : World.t S) :
  unchanged w (execute_plan plan ApplyMode.DryRun key assurance w).1.
Proof.
  change (wp (execute_plan plan ApplyMode.DryRun key assurance) w (λ _ w', unchanged w w')).
  unfold execute. eapply wp_bind_observes; [apply observes_usable_root| |done].
  intros [] w1 Hu _. apply run_bind. apply (run_mono _ _ (λ _ w', unchanged w1 w')).
  2:{ intros [v|e] w' Hu'; by eapply unchanged_trans. }
  clear w Hu. generalize (RewritePlan.items plan). intros items. revert w1.
  induction items as [|item items IH]; intros w; [done|]. cbn [execute_items]. apply run_bind, run_attempt.
  eapply run_mono; [apply (apply_item_spec (λ _ _, True))|]. intros r w1 [(_ & _ & Hu)|[[=] _]]. specialize (Hu eq_refl).
  apply run_bind. eapply run_mono; [apply IH|]. intros [v|e] w2 Hu2; by eapply unchanged_trans.
Qed.

(** ** Atomicity *)

(** One approved rewrite of a file: the content of the item, the permissions of the file. *)
Definition rewrite_step (items : list PlanItem.t) (key : PlanKey.t) (p : location) (f f' : file.t) : Prop :=
  ∃ item, item ∈ items ∧ p = join (PlanItem.path item) ∧ approved item key (file.bytes f) ∧
    file.bytes f' = replace_range (file.bytes f) (PlanItem.span item) (PlanItem.replacement item) ∧
    PermissionSnapshot.capture unix f' = PermissionSnapshot.capture unix f.

(** Every path is as it was, or a file that went through approved rewrites. *)
Definition rewritten_tree (items : list PlanItem.t) (key : PlanKey.t) (d d' : Tree) : Prop :=
  ∀ p, d' !! p = d !! p ∨
       ∃ f f', d !! p = Some (Regular f) ∧ d' !! p = Some (Regular f') ∧ tc (rewrite_step items key p) f f'.

Lemma rewritten_tree_trans items key d1 d2 d3 :
  rewritten_tree items key d1 d2 → rewritten_tree items key d2 d3 → rewritten_tree items key d1 d3.
Proof.
  intros H1 H2 p. destruct (H1 p) as [E1|(f & f' & E1 & E2 & T1)], (H2 p) as [E3|(g & g' & E3 & E4 & T2)].
  - left. congruence.
  - right. exists g, g'. split_and!; congruence.
  - right. exists f, f'. split_and!; congruence.
  - right. exists f, g'. split_and!; [done|done|]. assert (f' = g) as <- by congruence. by etransitivity.
Qed.

Lemma captured_again f content identity :
  let f' := PermissionSnapshot.apply_to unix (PermissionSnapshot.capture unix f) (file.mk content identity 384 false) in
  PermissionSnapshot.capture unix f' = PermissionSnapshot.capture unix f ∧ file.bytes f' = content.
Proof.
  unfold PermissionSnapshot.apply_to, PermissionSnapshot.capture, PermissionSnapshot.is_readonly. destruct unix; cbn; [|done].
  split; [|done]. rewrite <-!N.land_assoc. done.
Qed.

Lemma apply_item_atomic `{!QuietSink S} item plan_digest mode key assurance resume w :
  wp (apply_it item plan_digest mode key assurance resume) w
    (λ r w', (World.tree w' = World.tree w ∧ not_applied r) ∨
             (∃ f f', World.tree w !! join (PlanItem.path item) = Some (Regular f) ∧
                rewrite_step [item] key (join (PlanItem.path item)) f f' ∧
                World.tree w' = <[join (PlanItem.path item) := Regular f']> (World.tree w))).
Proof.
  eapply run_mono; [apply (apply_item_spec same_tree)|]. intros r w' [Hleft|Hdone].
  - left. destruct Hleft as ((Ht & _) & Hr & _). done.
  - right. destruct Hdone as (_ & f & locator & w1 & Hf & Hc & (Ht1 & _) & _ & Hr & _). cbn in Ht1.
    destruct Hr as (f1 & wa & w2 & Hf1 & Hc1 & Ht2 & _ & _ & (Ht & _)). cbn in Ht.
    assert (f1 = f) as ->. { unfold follow in Hf1. rewrite Ht1, Hf in Hf1. cbn in Hf1. congruence. }
    eexists f, _. split; [done|]. split; [|by rewrite Ht, Ht2, Ht1].
    exists item. destruct (captured_again f (replace_range (file.bytes f) (PlanItem.span item) (PlanItem.replacement item))
      (new_identity (World.inodes wa))) as [H1 H2].
    split_and!; [apply list_elem_of_here|done|by apply check_content_approved|exact H2|exact H1].
Qed.

(** C15: A run of a plan never damages a file.  With a vault that leaves the project alone, and
    wherever the operating system fails, every path of the project is afterwards exactly as it
    was, or a file whose approved content was replaced by the approved replacement with its
    permissions kept; nothing else is created, removed or half written. *)
Theorem execute_atomic `{!QuietSink S} (plan : RewritePlan.t) (mode : ApplyMode.t) (key : PlanKey.t)
    (assurance : IdentityAssurance.t) (w : World.t S) :
  rewritten_tree (RewritePlan.items plan) key (World.tree w) (World.tree (execute_plan plan mode key assurance w).1).
Proof.
  change (wp (execute_plan plan mode key assurance) w
    (λ _ w', rewritten_tree (RewritePlan.items plan) key (World.tree w) (World.tree w'))).
  unfold execute. eapply wp_bind_observes; [apply observes_usable_root| |by intros e w' (-> & _) p; left].
  intros [] w1 (<- & _) _. apply run_bind.
  apply (run_mono _ _ (λ _ w', rewritten_tree (RewritePlan.items plan) key (World.tree w1) (World.tree w'))); [|by intros [v|e]].
  assert (∀ item, item ∈ RewritePlan.items plan → item ∈ RewritePlan.items plan) as Hin by done. revert Hin.
  generalize (RewritePlan.items plan) at 1 3. intros items. revert w1.
  induction items as [|item items IH]; intros w' Hin; [by intros p; left|]. cbn [execute_items].
  apply run_bind, run_attempt. eapply run_mono; [apply apply_item_atomic|]. intros r w2 Hr. apply run_bind.
  assert (rewritten_tree (RewritePlan.items plan) key (World.tree w') (World.tree w2)) as H2.
  { destruct Hr as [[-> _]|(f & f' & Hf & (i & ->%list_elem_of_singleton & Hp & Ha & Hb & Hm) & ->)]; [by intros p; left|].
    intros p. destruct (decide (p = join (PlanItem.path item))) as [->|Hne]; [|left; by rewrite lookup_insert_ne].
    right. exists f, f'. rewrite lookup_insert_eq. split_and!; [done|done|]. apply tc_once. exists item.
    split_and!; try done. apply Hin, list_elem_of_here. }
  eapply run_mono; [apply IH; intros i Hi; apply Hin; by right|].
  intros [v|e] w3 H3; by eapply rewritten_tree_trans.
Qed.

(** ** Restoring *)

Local Abbreviation restore_record := (restore unix new_identity).

Lemma observes_read_or_default p w :
  observes (read_to_string_or_default p) w
    (λ text, text = [] ∨ ∃ f, follow (World.tree w) p = Ok (Some f) ∧ text = file.bytes f).
Proof.
  unfold read_to_string_or_default. eapply observes_bind; [apply observes_attempt, observes_fs_read|].
  intros r w' Hu Hr. apply observes_ret. destruct r as [bytes|e]; [|by left].
  destruct (Hr _ eq_refl) as (f & Hf & ->). destruct (utf8_valid _); eauto.
Qed.

(** Either nothing happened, or exactly the state of the rewrite was replaced by the original. *)
Definition put_back (record : RecoveryRecord.t) (w w' : World.t S) : Prop :=
  ∃ original expected f f',
    let p := join (RecoveryRecord.path record) in
    load_snapshot record (World.sink w) = Ok original ∧ expected_rewrite record original = Some expected ∧
    World.tree w !! p = Some (Regular f) ∧ (expected = [] ∨ file.bytes f = expected) ∧
    file.bytes f' = original ∧ PermissionSnapshot.capture unix f' = PermissionSnapshot.capture unix f ∧
    World.tree w' = <[p := Regular f']> (World.tree w).

(** How a restore may end. *)
Definition restore_end (record : RecoveryRecord.t) w (r : result RestoreOutcome.t ApplyError.t) w' : Prop :=
  (World.tree w' = World.tree w ∧ ∀ bytes, r ≠ Ok (RestoreOutcome.Restored bytes)) ∨
  (put_back record w w' ∧ r ≠ Ok RestoreOutcome.Conflict).

(** What follows the replacement only records it. *)
Lemma restore_records `{!QuietSink S} record original w w5 :
  (∀ w', World.tree w' = World.tree w5 → put_back record w w') →
  wp (bind (journal (RecoveryRecord.path record) JournalState.RolledBack) (λ _,
      bind (sink_call (audit AuditAction.RedactionRestore (RecoveryRecord.snapshot_digest record))
              (λ _, Audited AuditAction.RedactionRestore (RecoveryRecord.snapshot_digest record))) (λ _,
      ret (RestoreOutcome.Restored original)))) w5 (λ r w', put_back record w w' ∧ r ≠ Ok RestoreOutcome.Conflict).
Proof.
  intros Hput. apply run_bind. apply (wp_journal same_tree).
  2:{ intros err w' (Hr & _). split; [by apply Hput|done]. }
  intros at_ w6 R6 _. apply run_bind. apply (wp_sink_call same_tree); [exact (calls_audit (R := same_tree) _ _ _)| |].
  2:{ intros err w' (Hr & _). split; [|done]. apply Hput. cbn in Hr, R6. congruence. }
  intros [] o w7 _ R7 O7 _. apply run_ret. split; [|done]. apply Hput. rewrite <-O7 in R7. cbn in R7, R6. congruence.
Qed.

Lemma restore_target_spec `{!QuietSink S} record original expected w :
  load_snapshot record (World.sink w) = Ok original → expected_rewrite record original = Some expected →
  wp (restore_target unix new_identity record original expected) w (restore_end record w).
Proof.
  intros El Ee.
  assert (∀ r w', unchanged w w' → (∀ bytes, r ≠ Ok (RestoreOutcome.Restored bytes)) → restore_end record w r w') as Hstop.
  { intros r w' (Ht & _) Hr. by left. }
  unfold restore_target. eapply wp_bind_observes; [apply observes_usable_root| |by intros e w' Hu; apply Hstop].
  intros [] w1 Hu1 _. eapply wp_bind_observes; [apply observes_attempt, observes_resolve_target| |].
  2:{ intros e w' Hu. apply Hstop; [by eapply unchanged_trans|done]. }
  intros resolved w2 Hu2 Hres. pose proof (unchanged_trans _ _ _ Hu1 Hu2) as Huw2.
  destruct resolved as [target|e]; [|by apply run_ret, Hstop].
  destruct (Hres _ eq_refl) as (-> & f & Hf).
  eapply wp_bind_observes; [apply observes_read_or_default| |].
  2:{ intros e w' Hu. apply Hstop; [by eapply unchanged_trans|done]. }
  intros text w3 Hu3 Htext. pose proof (unchanged_trans _ _ _ Huw2 Hu3) as Huw3.
  case_bool_decide as Hcur; cbn [negb]; [|by apply run_ret, Hstop]. subst text.
  eapply wp_bind_observes; [apply observes_errmap, observes_metadata| |].
  2:{ intros e w' Hu. apply Hstop; [by eapply unchanged_trans|done]. }
  intros f' w4 Hu4 Hf'. pose proof (unchanged_trans _ _ _ Huw3 Hu4) as Huw4.
  assert (World.tree w !! join (RecoveryRecord.path record) = Some (Regular f)) as Hfw by (by destruct Hu1 as (<- & _)).
  assert (∀ u, unchanged w u → follow (World.tree u) (join (RecoveryRecord.path record)) = Ok (Some f)) as Hfollow.
  { intros u (-> & _). unfold follow. by rewrite Hfw. }
  assert (f' = f) as -> by (rewrite Hfollow in Hf' by done; congruence).
  apply run_bind, run_errmap. eapply run_mono; [apply replace_atomic_spec|].
  intros r w5 [[Hu5 [e ->]]|(Ht & _ & _)]; [apply Hstop; [by eapply unchanged_trans|done]|].
  assert (∀ w', World.tree w' = World.tree w5 → put_back record w w') as Hput.
  { intros w' E. exists original, expected, f, (new_file unix new_identity w4 original (PermissionSnapshot.capture unix f)).
    destruct (captured_again f original (new_identity (World.inodes w4))) as [H1 H2].
    split_and!; [done|done|done| |exact H2|exact H1|rewrite E, Ht; by destruct Huw4 as (-> & _)].
    destruct Htext as [->|(g & Hg & Hgb)]; [by left|]. right. rewrite Hfollow in Hg by done. congruence. }
  destruct r as [[]|e]; [|right; split; [by apply Hput|done]].
  eapply run_mono; [by apply restore_records|]. intros r w' H. by right.
Qed.

Lemma restore_spec `{!QuietSink S} record assurance w : wp (restore_record record assurance) w (restore_end record w).
Proof.
  unfold restore. destruct (RecoveryRecord.span record); [|by left]. destruct (RecoveryRecord.replacement record); [|by left].
  apply run_bind, run_errmap. unfold wp at 1. cbn [fst snd].
  destruct (load_snapshot record (World.sink w)) as [original|e] eqn:El; [|by left].
  destruct (expected_rewrite record original) as [expected|] eqn:Ee; [|by left]. by apply restore_target_spec.
Qed.

(** Restoring never overwrites the owner's work.  With a vault that leaves the project
    alone, and wherever the operating system fails, a restore changes at most the file of its
    record, and only when the file is exactly what the rewrite left (or what the rewrite left is
    empty); it then holds the bytes of the snapshot with the permissions the file had.  In every
    other case, reported as a conflict or an error, the project is untouched. *)
Theorem restore_never_clobbers `{!QuietSink S} (record : RecoveryRecord.t) (assurance : IdentityAssurance.t) (w : World.t S) :
  let '(w', r) := restore_record record assurance w in
  (World.tree w' = World.tree w ∧ ∀ bytes, r ≠ Ok (RestoreOutcome.Restored bytes)) ∨
  (put_back record w w' ∧ r ≠ Ok RestoreOutcome.Conflict).
Proof. pose proof (restore_spec record assurance w) as H. unfold wp in H. by destruct (restore_record record assurance w). Qed.

(** ** Undoing *)

Lemma apply_item_resolvable item plan_digest mode key assurance resume w :
  wp (apply_it item plan_digest mode key assurance resume) w
    (λ r _, (∃ v, r = Ok v) → resolvable (World.tree w) [] (PlanItem.path item)).
Proof.
  unfold apply_item. eapply wp_bind_observes with (P := λ _, resolvable (World.tree w) [] (PlanItem.path item)).
  - unfold resolve_target. eapply observes_bind; [apply observes_resolvable|]. intros p w1 _ Hr.
    eapply observes_bind; [apply observes_errmap, observes_symlink_metadata|]. intros n w2 _ _.
    destruct n; try apply observes_fail. by apply observes_ret.
  - by intros target w' _ Hr _.
  - by intros e w' _ [v [=]].
Qed.

(** A rewrite is text. *)
Lemma replace_range_utf8 text span replacement matched :
  utf8_valid text = true → utf8_valid replacement = true → ByteSpan.slice span text = Ok matched →
  utf8_valid (replace_range text span replacement) = true.
Proof.
  intros Ht Hr (Hlt & Hle & Hs & He & _)%slice_Ok. apply utf8_is_valid. unfold replace_range.
  apply utf8_of_valid in Ht, Hr. apply utf8_app; [by apply utf8_split|]. apply utf8_app; [done|by apply utf8_split].
Qed.

(** Without faults, and on the state the rewrite left, a restore puts the original back. *)
Lemma restore_succeeds `{!QuietSink S} record assurance original expected f w :
  World.faults w = [] → World.tree w !! [] = Some Directory →
  resolvable (World.tree w) [] (RecoveryRecord.path record) →
  World.tree w !! join (RecoveryRecord.path record) = Some (Regular f) → file.bytes f = expected →
  utf8_valid expected = true → load_snapshot record (World.sink w) = Ok original →
  expected_rewrite record original = Some expected →
  wp (restore_record record assurance) w (λ r w', put_back record w w' ∧ r ≠ Ok RestoreOutcome.Conflict).
Proof.
  intros Hf Hroot Hres Hfile Hb Hu Hl He. subst expected. unfold restore.
  assert (∃ span replacement, RecoveryRecord.span record = Some span ∧ RecoveryRecord.replacement record = Some replacement)
    as (span & replacement & -> & ->).
  { unfold expected_rewrite in He. destruct (RecoveryRecord.span record), (RecoveryRecord.replacement record); naive_solver. }
  apply run_bind, run_errmap. unfold wp at 1. cbn [fst snd]. rewrite Hl, He. unfold restore_target.
  eapply wp_bind_sees; [by apply sees_usable_root|]. intros w1 Hu1 Hf1.
  assert (follow (World.tree w) (join (RecoveryRecord.path record)) = Ok (Some f)) as Hfol by (unfold follow; by rewrite Hfile).
  assert (sees (resolve_target (RecoveryRecord.path record)) w1 (join (RecoveryRecord.path record))) as Hseen.
  { unfold resolve_target. eapply sees_bind; [apply sees_resolve; [done|by destruct Hu1 as (-> & _)]|].
    intros w2 (Ht2 & _) Hf2. cbn [app]. apply (sees_bind _ _ (Regular f)); [|intros w3 _ Hf3; by apply sees_ret].
    apply sees_errmap, sees_io; [done|]. destruct Hu1 as (Ht1 & _). by rewrite Ht2, Ht1, Hfile. }
  eapply wp_bind_sees; [by apply sees_attempt|]. intros w2 Hu2 Hf2. pose proof (unchanged_trans _ _ _ Hu1 Hu2) as Huw2.
  eapply wp_bind_sees.
  { eapply sees_bind; [apply sees_attempt, sees_io; [done|]|intros w3 _ Hf3; by apply sees_ret].
    destruct Huw2 as (-> & _). by rewrite Hfol. }
  intros w3 Hu3 Hf3. pose proof (unchanged_trans _ _ _ Huw2 Hu3) as Huw3. rewrite Hu, bool_decide_eq_true_2 by done. cbn [negb].
  eapply wp_bind_sees; [apply sees_errmap, sees_io; [done|destruct Huw3 as (-> & _); by rewrite Hfol]|].
  intros w4 Hu4 Hf4. pose proof (unchanged_trans _ _ _ Huw3 Hu4) as Huw4.
  apply run_bind, run_errmap. unfold wp at 1, replace_atomic, World.next. rewrite Hf4.
  destruct Huw4 as (Ht4 & _). rewrite Ht4, Hfile. cbn [fst snd].
  apply restore_records. intros w' Ht'.
  exists original, (file.bytes f), f, (new_file unix new_identity w4 original (PermissionSnapshot.capture unix f)).
  destruct (captured_again f original (new_identity (World.inodes w4))) as [H1 H2].
  split_and!; [done|done|done|by right|exact H2|exact H1|]. by rewrite Ht'.
Qed.

(** C16: A redaction can be undone.  With a vault that leaves the project alone, keeps what it
    stored and gives it back, after an item was applied the log holds a recovery record with
    which, as long as the project is left as it is and the operating system does not fail, the
    file is restored: the project is then the one before the redaction, with the original bytes
    and permissions in the file, and the restore is not reported as a conflict. *)
Theorem restore_undoes `{K : !KeepingSink S} (item : PlanItem.t) (plan_digest : Digest) (key : PlanKey.t)
    (assurance : IdentityAssurance.t) (w w' : World.t S) (locator : option (list N))
    (Hroot : World.tree w !! [] = Some Directory) (Hu : utf8_valid (PlanItem.replacement item) = true)
    (Happly : apply_it item plan_digest ApplyMode.Commit key assurance Fresh w = (w', Ok (FileApplyStatus.Applied locator))) :
  let p := join (PlanItem.path item) in
  ∃ f record, World.tree w !! p = Some (Regular f) ∧ RecoveryStored record ∈ World.log w' ∧
    ∀ w2 assurance2, kept (outside_of w') (outside_of w2) → World.faults w2 = [] →
      let '(w3, r) := restore_record record assurance2 w2 in
      (∃ f3, World.tree w3 = <[p := Regular f3]> (World.tree w) ∧ file.bytes f3 = file.bytes f ∧
         PermissionSnapshot.capture unix f3 = PermissionSnapshot.capture unix f) ∧
      r ≠ Ok RestoreOutcome.Conflict.
Proof.
  intros p. pose proof (apply_item_resolvable item plan_digest ApplyMode.Commit key assurance Fresh w) as Hres.
  pose proof (apply_item_spec kept unix new_identity hmac version sha256 hex_encode build is_match find_iter parse_pack br eu us
    show_pack_error item plan_digest ApplyMode.Commit key assurance Fresh w) as Hspec.
  unfold wp in Hres, Hspec. rewrite Happly in Hres, Hspec. cbn [fst snd] in Hres, Hspec.
  destruct Hspec as [(_ & [] & _)|(_ & f & l & w1 & Hf & Hc & Hr1 & Hv & Hrep & _)].
  destruct Hv as (ref & at1 & at2 & o1 & o2 & Hstore & Hk1 & _ & L1 & _).
  destruct Hrep as (f1 & wa & w2 & Hf1 & Hc1 & Ht2 & Hs2 & L2 & (Hk2 & evs & L3 & _)).
  destruct Hr1 as ((Ht1 & _) & _). cbn in Ht1. fold p in Hf, Ht2.
  assert (f1 = f) as ->. { unfold follow in Hf1. fold p in Hf1. rewrite Ht1, Hf in Hf1. cbn in Hf1. congruence. }
  set (record := record_of hmac item plan_digest key (file.bytes f) ref l at1) in *.
  exists f, record. split_and!; [done|rewrite L3, L2, L1; set_solver|]. intros w3 assurance2 [Ht3 Hk3] Hfaults.
  apply holds_stored in Hstore. apply Hk1 in Hstore. destruct Hk2 as [Ht2' Hk2]. cbn in Ht2', Ht3, Hstore.
  rewrite <-Hs2 in Hstore. apply Hk2, Hk3 in Hstore. cbn in Hstore.
  set (f2 := new_file unix new_identity wa _ _) in Ht2.
  assert (World.tree w3 = <[p := Regular f2]> (World.tree w)) as Hw3 by congruence.
  destruct (captured_again f (replace_range (file.bytes f) (PlanItem.span item) (PlanItem.replacement item))
    (new_identity (World.inodes wa))) as [Hcap Hbytes].
  apply check_content_approved in Hc as (_ & (m & Hm & _) & Hutf & _).
  assert (p ≠ []) as Hne by (intros E; rewrite E, Hroot in Hf; discriminate).
  epose proof (restore_succeeds record assurance2 (file.bytes f) _ f2 w3 Hfaults) as Hdone.
  unfold wp in Hdone. destruct (restore_record record assurance2 w3) as [w4 r]. cbn [fst snd] in Hdone.
  destruct Hdone as [(original & expected & g & g' & Hl & _ & Hg & _ & Hgb & Hgc & Ht4) Hr].
  - rewrite Hw3. by rewrite lookup_insert_ne.
  - rewrite Hw3. apply resolvable_insert, Hres. eauto.
  - rewrite Hw3. apply lookup_insert_eq.
  - exact Hbytes.
  - by eapply replace_range_utf8.
  - by apply holds_load.
  - unfold expected_rewrite. cbn. rewrite Hutf. cbn [negb]. by rewrite Hm.
  - split; [|done]. exists g'. rewrite Ht4, Hw3. cbn [RecoveryRecord.path record record_of] in *. fold p in Hg |- *.
    rewrite Hw3, lookup_insert_eq in Hg. injection Hg as <-. rewrite insert_insert_eq.
    split_and!; [done| |rewrite Hgc; exact Hcap].
    rewrite Hgb. apply (holds_load record) in Hstore. rewrite Hl in Hstore. congruence.
Qed.
End remediation.

(** ** The vault in memory *)

#[export] Instance memory_vault_sink : VaultSink Vault.t := memory_vault id.

#[export] Program Instance memory_keeping : KeepingSink Vault.t := {
  holds s ref bytes := Vault.snapshots s !! String.length ref = Some bytes
}.
Next Obligation.
  split.
  - split; [by intros o|]. intros o1 o2 o3 [E1 H1] [E2 H2]. split; [congruence|auto].
  - intros item bytes [d s]. split; [done|]. intros ref b H. cbn in *. by apply lookup_app_l_Some.
  - by intros item ref o.
  - by intros record o.
  - by intros entry o.
  - by intros action digest o.
  - intros project path bytes [d s]. split; [done|]. intros ref b H. cbn in *. by apply lookup_app_l_Some.
Qed.
Next Obligation.
  intros item bytes [d s] o' ref [= <- <-]. cbn. rewrite length_unary, lookup_app_r, Nat.sub_diag by lia. done.
Qed.
Next Obligation. intros record s bytes H. cbn in *. by rewrite H. Qed.

Lemma execute_vaults_first_witness :
  let w := (demo_execute id one_plan ApplyMode.Commit one_world).1 in
  List.filter is_replacement (World.log w) = [Replaced ["f"] demo_secret (str_bytes "#")] ∧
  replacements (vaulted_first demo_hmac "1" (λ l, l) str_of_bytes (λ _, Ok tt) (λ _ _, false) (λ _ _, []) (λ _, None) "" "" ""
    (λ _, "") one_plan (PlanKey.mk [])) (World.log w).
Proof.
  split; [vm_compute; reflexivity|].
  apply (execute_vaults_first (V := memory_vault id) (Regex := unit) true demo_identity demo_hmac "1" (λ l, l) str_of_bytes
    (λ _, Ok tt) (λ _ _, false) (λ _ _, []) (λ _, None) "" "" "" (λ _, "") one_plan ApplyMode.Commit (PlanKey.mk [])
    IdentityAssurance.Enforced one_world). reflexivity.
Defined.

Lemma execute_atomic_witness :
  let d := World.tree (demo_execute id one_plan ApplyMode.Commit one_world).1 in
  bytes_at d ["f"] = str_bytes "#" ∧
  rewritten_tree true demo_hmac "1" (λ l, l) str_of_bytes (λ _, Ok tt) (λ _ _, false) (λ _ _, []) (λ _, None) "" "" ""
    (λ _, "") (RewritePlan.items one_plan) (PlanKey.mk []) (World.tree one_world) d.
Proof.
  split; [vm_compute; reflexivity|].
  apply (execute_atomic (V := memory_vault id) (Regex := unit) true demo_identity demo_hmac "1" (λ l, l) str_of_bytes
    (λ _, Ok tt) (λ _ _, false) (λ _ _, []) (λ _, None) "" "" "" (λ _, "") one_plan ApplyMode.Commit (PlanKey.mk [])
    IdentityAssurance.Enforced one_world).
Defined.

Definition demo_record : RecoveryRecord.t :=
  RecoveryRecord.mk [] "p" [Component.Normal "f"] (FileIdentity.Unix 1 7) [] "" DiscoveryPolicy.Opaque None
    (Some (ByteSpan.mk 0 1)) (Some (str_bytes "#")) 0.

Lemma restore_never_clobbers_witness :
  let w := World.mk Vault.t (demo_tree "f" (str_bytes "edited")) (Vault.mk [str_bytes "A"] [] [] true) [] [] 0 0 [] in
  (demo_restore id demo_record w).2 = Ok RestoreOutcome.Conflict ∧
  World.tree (demo_restore id demo_record w).1 = World.tree w.
Proof.
  intros w. assert ((demo_restore id demo_record w).2 = Ok RestoreOutcome.Conflict) as E by (vm_compute; reflexivity).
  split; [exact E|].
  pose proof (restore_never_clobbers (V := memory_vault id) true demo_identity demo_record IdentityAssurance.Enforced w) as H.
  unfold demo_restore in *. destruct (restore true demo_identity demo_record IdentityAssurance.Enforced w) as [w' r].
  cbn [fst snd] in *. destruct H as [[H _]|[_ H]]; [exact H|]. by destruct H.
Defined.

Lemma restore_undoes_witness :
  ∃ w' f record,
    demo_apply id (demo_edit_at demo_secret 0) one_world = (w', Ok (FileApplyStatus.Applied None)) ∧
    World.tree one_world !! ["f"] = Some (Regular f) ∧ RecoveryStored record ∈ World.log w' ∧
    file.bytes f = demo_secret.
Proof.
  eexists. destruct (restore_undoes (V := memory_vault id) (Regex := unit) true demo_identity demo_hmac "1" (λ l, l) str_of_bytes
    (λ _, Ok tt) (λ _ _, false) (λ _ _, []) (λ _, None) "" "" "" (λ _, "") (demo_edit_at demo_secret 0) [] (PlanKey.mk [])
    IdentityAssurance.Enforced one_world _ None ltac:(vm_compute; reflexivity) ltac:(vm_compute; reflexivity)
    ltac:(vm_compute; reflexivity)) as (f & record & Hf & Hr & _).
  exists f, record. split; [vm_compute; reflexivity|]. split; [exact Hf|]. split; [exact Hr|].
  vm_compute in Hf. injection Hf as <-. reflexivity.
Defined.

(** * Whole-file ingestion

    The original of an ingested file is removed last: after the vault holds its bytes, its
    recovery record and its journal entry, and after the startup check has passed. *)
Section ingestion.
Context {S : Type} `{V : VaultSink S} `{!QuietSink S}.
Context (unix : bool) (new_identity : nat → N * N) (hmac : list N → list N → list N).
Context (to_lowercase : list N → list N) (encode_manifest : ManagedManifest.t → result (list N) string).
Implicit Types (w : World.t S).

Local Abbreviation ingest := (ingest_managed_file unix new_identity hmac to_lowercase encode_manifest).

(** The nodes that are there stay, except at one path. *)
Definition keeps_but (q : location) w w' : Prop :=
  (∀ p n, p ≠ q → World.tree w !! p = Some n → World.tree w' !! p = Some n) ∧
  ∃ evs, World.log w' = evs ++ World.log w.

Lemma keeps_but_unchanged q w w' : unchanged w w' → keeps_but q w w'.
Proof. intros (Ht & _ & Hl). split; [by rewrite Ht|]. by exists []. Qed.

Lemma keeps_but_trans q w1 w2 w3 : keeps_but q w1 w2 → keeps_but q w2 w3 → keeps_but q w1 w3.
Proof.
  intros [H1 [e1 E1]] [H2 [e2 E2]]. split; [auto|]. exists (e2 ++ e1). by rewrite E2, E1, <-app_assoc.
Qed.

Lemma keeps_but_records q w w' : records same_tree w w' → keeps_but q w w'.
Proof. intros [Ht (evs & Hl & _)]. cbn in Ht. split; [by rewrite Ht|]. by exists evs. Qed.

Lemma create_missing_keeps (l : list location) (d : Tree) (p : location) (n : node) : d !! p = Some n → foldl create_missing d l !! p = Some n.
Proof.
  revert d. induction l as [|q l IH]; intros d Hd; [done|]. cbn. apply IH. unfold create_missing.
  destruct (d !! q) eqn:E; [done|]. rewrite lookup_insert_ne; [done|congruence].
Qed.

Lemma create_dir_all_spec p q w : wp (create_dir_all p) w (λ _ w', keeps_but q w w').
Proof.
  unfold wp, create_dir_all. pose proof (next_unchanged w) as Hu. destruct (World.next w) as [ft w1]. cbn [snd] in Hu.
  destruct (forallb _ _); [|by apply keeps_but_unchanged].
  destruct ft; (split; [intros p' n _ Hn; cbn; by apply create_missing_keeps|exists []; cbn; by destruct Hu as (_ & _ & ->)]).
Qed.

Lemma observes_resolve_after probe relative w :
  observes (resolve_after_create probe relative) w (λ p, p = probe ++ join relative).
Proof.
  revert probe w. induction relative as [|c rest IH]; intros probe w; cbn [resolve_after_create].
  { apply observes_ret. cbn. by rewrite app_nil_r. }
  destruct c as [| | |segment]; try apply observes_fail.
  eapply observes_bind; [apply observes_attempt, observes_symlink_metadata|]. intros r w' _ _.
  destruct (match r with Ok n => is_link n | Err _ => false end); [apply observes_fail|].
  eapply observes_mono; [apply IH|]. intros p ->. cbn. by rewrite <-app_assoc.
Qed.

(** Writing the manifest only concerns its own path. *)
Lemma managed_manifest_spec plan ref w :
  let q := join (ManagedFilePlan.manifest_path plan) in
  wp (write_manifest unix new_identity encode_manifest plan ref) w
    (λ r w', keeps_but q w w' ∧ ∀ t, r = Ok t → t = q).
Proof.
  intros q. unfold write_manifest. eapply wp_bind_observes; [apply observes_resolve_after| |].
  2:{ intros e w' Hu. split; [by apply keeps_but_unchanged|done]. }
  intros t w1 Hu1 ->. cbn [app]. fold q. apply run_bind.
  apply (run_mono _ _ (λ _ w', keeps_but q w w')).
  { generalize q at 1. intros [|x t]; [apply run_ret; by apply keeps_but_unchanged|]. apply run_errmap.
    eapply run_mono; [apply (create_dir_all_spec _ q)|]. intros r w2 H2.
    eapply keeps_but_trans; [by apply keeps_but_unchanged|done]. }
  intros [[]|e] w2 H2; [|done]. eapply wp_bind_observes; [apply observes_now; by instantiate (1 := λ _, True)| |].
  2:{ intros e w' Hu. split; [|done]. eapply keeps_but_trans; [done|by apply keeps_but_unchanged]. }
  intros at_ w3 Hu3 _. eapply wp_bind_observes; [by apply observes_errmap, observes_lift; intros v Hv; exact Hv| |].
  2:{ intros e w' Hu. split; [|done]. eapply keeps_but_trans; [done|].
      apply keeps_but_unchanged. by eapply unchanged_trans. }
  intros bytes w4 Hu4 _. assert (keeps_but q w w4) as H4.
  { eapply keeps_but_trans; [done|]. apply keeps_but_unchanged. by eapply unchanged_trans. }
  apply run_bind, run_errmap. eapply run_mono; [apply replace_atomic_spec|].
  intros r w5 H5. assert (keeps_but q w w5) as Hk.
  { destruct H5 as [[Hu5 _]|(Ht & _ & Hl)]; (eapply keeps_but_trans; [done|]); [by apply keeps_but_unchanged|].
    split; [intros p n Hne Hn; by rewrite Ht, lookup_insert_ne|by eexists [_]]. }
  destruct r as [[]|e]; [|done]. apply run_ret. split; [done|]. by intros ? [= <-].
Qed.

(** The record of an ingestion, and the log of its commit, latest first. *)
Definition managed_record (plan : ManagedFilePlan.t) (ref : string) (created_at : N) : RecoveryRecord.t :=
  RecoveryRecord.mk (ManagedFilePlan.snapshot_digest plan) (ManagedFilePlan.project_id plan) (ManagedFilePlan.path plan)
    (ManagedFilePlan.identity plan) (ManagedFilePlan.snapshot_digest plan) ref DiscoveryPolicy.Opaque None None None created_at.

Definition managed_log (plan : ManagedFilePlan.t) (bytes : list N) (ref : string) (at1 at2 : N) : list event :=
  [Journalled (JournalEntry.mk (ManagedFilePlan.path plan) (JournalState.VaultStored None) at2);
   RecoveryStored (managed_record plan ref at1); SnapshotStored (ManagedFilePlan.path plan) bytes ref].

Lemma commit_managed_spec plan bytes w :
  wp (commit_managed plan bytes) w
    (λ r w', records same_tree w w' ∧
             ∀ ref, r = Ok ref → ∃ at1 at2, World.log w' = managed_log plan bytes ref at1 at2 ++ World.log w).
Proof.
  unfold commit_managed. apply run_bind.
  apply (wp_sink_call same_tree); [exact (calls_store_managed (R := same_tree) _ _ _ _)| |by intros err w' Hr].
  intros ref o1 w1 _ R1 O1 L1. rewrite <-O1 in R1.
  assert (records same_tree w w1) as H1 by (split; [done|]; eexists [_]; split; [exact L1|by repeat constructor]).
  eapply wp_bind_observes; [apply observes_now; by instantiate (1 := λ _, True)| |].
  2:{ intros e w' Hu. split; [|done]. eapply (records_trans same_tree); [exact H1|by apply (records_unchanged same_tree)]. }
  intros at1 w2 Hu2 _. assert (records same_tree w w2) as H2.
  { eapply (records_trans same_tree); [exact H1|by apply (records_unchanged same_tree)]. }
  apply run_bind. apply (wp_sink_call same_tree); [exact (calls_store_recovery (R := same_tree) _ _)| |].
  2:{ intros err w' Hr. split; [by eapply (records_trans same_tree)|done]. }
  intros [] o3 w3 _ R3 O3 L3. rewrite <-O3 in R3.
  assert (records same_tree w w3) as H3.
  { eapply (records_trans same_tree); [exact H2|]. split; [done|]. eexists [_]. split; [exact L3|by repeat constructor]. }
  apply run_bind. apply (wp_journal same_tree).
  2:{ intros err w' Hr. split; [by eapply (records_trans same_tree)|done]. }
  intros at2 w4 R4 L4. apply run_ret. split.
  - eapply (records_trans same_tree); [exact H3|]. split; [done|]. eexists [_]. split; [exact L4|by repeat constructor].
  - intros ? [= <-]. exists at1, at2. rewrite L4, L3, (unchanged_log _ _ Hu2), L1. done.
Qed.

(** The original at [p] was removed after the startup check. *)
Definition removed_at (plan : ManagedFilePlan.t) (p : location) w w' : Prop :=
  World.tree w' !! p = None ∧ ∃ n evs, World.tree w !! p = Some n ∧
    World.log w' = evs ++ [Removed p (Some n); StartupPassed (ManagedFilePlan.manifest_path plan) (ManagedFilePlan.path plan)]
                     ++ World.log w.

Lemma remove_file_spec p w :
  wp (remove_file p) w
    (λ r w', World.log w' = World.log w ∧ World.sink w' = World.sink w ∧
             ((World.tree w' = World.tree w ∧ ∃ e, r = Err e) ∨
              (r = Ok tt ∧ World.tree w' = delete p (World.tree w) ∧ ∃ n, World.tree w !! p = Some n))).
Proof.
  unfold wp, remove_file. pose proof (next_unchanged w) as (Ht & Hs & Hl). destruct (World.next w) as [ft w1]. cbn [snd] in *.
  destruct ft; [|cbn; eauto 10]. destruct (World.tree w !! p) as [[| | |]|]; cbn; eauto 10.
Qed.

Lemma remove_original_spec plan p q w :
  p ≠ q →
  wp (remove_original plan p q) w
    (λ r w', (World.tree w' !! p = World.tree w !! p ∧ ∀ m, r ≠ Ok (ManagedIngestStatus.Ingested m)) ∨ removed_at plan p w w').
Proof.
  intros Hne. unfold remove_original. apply run_bind. unfold wp at 1. cbn [fst snd].
  destruct (startup_check_sink _ _ _ _ _) as [[]|e].
  - apply wp_bind_emit. apply run_bind. unfold wp at 1. cbn [fst snd].
    set (w1 := World.logged w _). apply run_bind, run_attempt. eapply run_mono; [apply remove_file_spec|].
    intros r w2 (L2 & _ & [[T2 [e ->]]|(-> & T2 & n & Hn)]); [apply run_ret; left; by rewrite T2|].
    apply wp_bind_emit. set (w3 := World.logged w2 _).
    assert (World.tree w3 !! p = None) as T3 by (cbn; rewrite T2; apply lookup_delete_eq).
    assert (∀ w', records same_tree w3 w' → removed_at plan p w w') as Hdone.
    { intros w' [Ht (evs & Hl & _)]. cbn in Ht. split; [by rewrite Ht|]. exists n, evs. split; [exact Hn|].
      rewrite Hl. f_equal. cbn. rewrite L2. cbn in Hn |- *. by rewrite Hn. }
    apply run_bind. apply (wp_journal same_tree); [|intros err w' Hr; right; by apply Hdone].
    intros at_ w4 R4 L4. assert (records same_tree w3 w4) as H4.
    { split; [done|]. eexists [_]. split; [exact L4|by repeat constructor]. }
    apply run_bind. apply (wp_sink_call same_tree); [exact (calls_audit (R := same_tree) _ _ _)| |].
    + intros [] o w5 _ R5 O5 L5. rewrite <-O5 in R5. apply run_ret. right. apply Hdone.
      eapply (records_trans same_tree); [exact H4|]. split; [done|]. eexists [_]. split; [exact L5|by repeat constructor].
    + intros err w' Hr. right. apply Hdone. by eapply (records_trans same_tree).
  - apply run_bind, run_attempt. eapply run_mono; [apply remove_file_spec|].
    intros r w2 (_ & _ & H). apply run_ret. left. split; [|done].
    destruct H as [[-> _]|(_ & -> & _)]; [done|by rewrite lookup_delete_ne].
Qed.

(** C17: The original of an ingested file is removed last.  With a vault that leaves the project
    alone, a manifest path of its own, and wherever the operating system fails, either the file
    is still there as it was and the ingestion is not reported as done, or the bytes of the file
    had the planned digest and the vault first stored them as a snapshot, then the recovery record
    that names the snapshot, then the journal entry, and the startup check passed, all before the
    removal. *)
Theorem original_removed_last (plan : ManagedFilePlan.t) (key : PlanKey.t) (assurance : IdentityAssurance.t) (w : World.t S) :
  join (ManagedFilePlan.path plan) ≠ join (ManagedFilePlan.manifest_path plan) →
  let p := join (ManagedFilePlan.path plan) in
  let '(w', r) := ingest plan key assurance w in
  (World.tree w' !! p = World.tree w !! p ∧ ∀ m, r ≠ Ok (ManagedIngestStatus.Ingested m)) ∨
  (World.tree w' !! p = None ∧ ∃ f ref at1 at2,
     World.tree w !! p = Some (Regular f) ∧ keyed_digest hmac key (file.bytes f) = ManagedFilePlan.snapshot_digest plan ∧
     [Removed p (Some (Regular f)); StartupPassed (ManagedFilePlan.manifest_path plan) (ManagedFilePlan.path plan)]
       ++ managed_log plan (file.bytes f) ref at1 at2 `sublist_of` World.log w').
Proof.
  intros Hne p. enough (wp (ingest plan key assurance) w
    (λ r w', (World.tree w' !! p = World.tree w !! p ∧ ∀ m, r ≠ Ok (ManagedIngestStatus.Ingested m)) ∨
             (∃ f ref at1 at2 w1, World.tree w !! p = Some (Regular f) ∧
                keyed_digest hmac key (file.bytes f) = ManagedFilePlan.snapshot_digest plan ∧
                managed_log plan (file.bytes f) ref at1 at2 `sublist_of` World.log w1 ∧
                World.tree w1 !! p = World.tree w !! p ∧ removed_at plan p w1 w'))) as H.
  { unfold wp in H. destruct (ingest plan key assurance w) as [w' r]. cbn [fst snd] in H.
    destruct H as [H|(f & ref & at1 & at2 & w1 & Hf & Hd & Hs & T1 & (T & n & evs & Hn & L))]; [by left|].
    right. split; [done|]. exists f, ref, at1, at2. split_and!; [done|done|]. rewrite L. apply sublist_inserts_l.
    assert (n = Regular f) as -> by congruence. apply sublist_app; [done|done]. }
  unfold ingest_managed_file. destruct (check_eligibility _ _); [|by left].
  eapply wp_bind_observes; [apply observes_usable_root| |by intros e w' (-> & _); left].
  intros [] w1 Hu1 _. eapply wp_bind_observes; [apply observes_resolve_target| |].
  2:{ intros e w' Hu. left. by destruct (unchanged_trans _ _ _ Hu1 Hu) as (-> & _). }
  intros target w2 Hu2 (-> & f & Hf). fold p in Hf |- *. pose proof (unchanged_trans _ _ _ Hu1 Hu2) as Huw2.
  assert (World.tree w !! p = Some (Regular f)) as Hfw by (by destruct Hu1 as (<- & _)).
  eapply wp_bind_observes; [apply observes_capture| |].
  2:{ intros e w' Hu. left. by destruct (unchanged_trans _ _ _ Huw2 Hu) as (-> & _). }
  intros captured w3 Hu3 _. pose proof (unchanged_trans _ _ _ Huw2 Hu3) as Huw3.
  destruct (managed_identity_check _ _ _) as [status|] eqn:Ei.
  { apply run_ret. left. destruct Huw3 as (-> & _). split; [done|]. intros m [= ->].
    unfold managed_identity_check in Ei. destruct assurance, captured; try destruct (decide _); by simplify_eq. }
  eapply wp_bind_observes; [apply observes_errmap, observes_fs_read| |].
  2:{ intros e w' Hu. left. by destruct (unchanged_trans _ _ _ Huw3 Hu) as (-> & _). }
  intros bytes w4 Hu4 (f' & Hf' & ->). pose proof (unchanged_trans _ _ _ Huw3 Hu4) as Huw4.
  assert (f' = f) as ->.
  { unfold follow in Hf'. destruct Huw3 as (E & _). rewrite E, Hfw in Hf'. cbn in Hf'. congruence. }
  case_bool_decide as Hd; cbn [negb]; [|apply run_ret; left; by destruct Huw4 as (-> & _)].
  apply run_bind. eapply run_mono; [apply commit_managed_spec|]. intros r5 w5 [[T5 _] L5]. cbn in T5.
  destruct Huw4 as (T4 & _). rewrite T4 in T5. destruct r5 as [ref|e]; [|left; by rewrite T5].
  destruct (L5 _ eq_refl) as (at1 & at2 & E5). clear L5.
  apply run_bind. eapply run_mono; [apply managed_manifest_spec|]. intros r6 w6 [[K6 [evs6 E6]] Hq].
  assert (World.tree w6 !! p = World.tree w !! p) as T6 by (rewrite Hfw; apply K6; [done|]; by rewrite T5).
  destruct r6 as [q|e]; [|by left]. rewrite (Hq _ eq_refl).
  eapply run_mono; [by apply remove_original_spec|]. intros r w' [[T Hr]|Hrem]; [left; by rewrite T|].
  right. exists f, ref, at1, at2, w6. split_and!; [done|done| |done|done].
  rewrite E6, E5. by apply sublist_inserts_l, sublist_inserts_r.
Qed.
End ingestion.

Lemma original_removed_last_witness :
  let w := demo_world (demo_tree "k.pem" [1; 2]%N) true [] in
  let '(w', r) := demo_ingest id (pem_plan [1; 2]%N "k.manifest") w in
  r = Ok (ManagedIngestStatus.Ingested [Component.Normal "k.manifest"]) ∧ World.tree w' !! ["k.pem"] = None ∧
  ∃ f ref at1 at2, World.tree w !! ["k.pem"] = Some (Regular f) ∧
    [Removed ["k.pem"] (Some (Regular f)); StartupPassed [Component.Normal "k.manifest"] [Component.Normal "k.pem"]]
      ++ managed_log (pem_plan [1; 2]%N "k.manifest") (file.bytes f) ref at1 at2 `sublist_of` World.log w'.
Proof.
  pose proof (original_removed_last (V := memory_vault id) true demo_identity demo_hmac (λ l, l) (λ _, Ok [123; 125]%N)
    (pem_plan [1; 2]%N "k.manifest") (PlanKey.mk []) IdentityAssurance.Enforced (demo_world (demo_tree "k.pem" [1; 2]%N) true [])
    ltac:(vm_compute; discriminate)) as H.
  assert ((demo_ingest id (pem_plan [1; 2]%N "k.manifest") (demo_world (demo_tree "k.pem" [1; 2]%N) true [])).2
    = Ok (ManagedIngestStatus.Ingested [Component.Normal "k.manifest"])) as E by (vm_compute; reflexivity).
  unfold demo_ingest in *.
  destruct (ingest_managed_file true demo_identity demo_hmac (λ l, l) _ _ _ _ _) as [w' r]. cbn [snd] in E. subst r.
  split; [reflexivity|]. destruct H as [[_ H]|(H1 & f & ref & at1 & at2 & H2 & _ & H3)]; [by destruct (H [Component.Normal "k.manifest"])|].
  split; [exact H1|]. exists f, ref, at1, at2. split; [exact H2|exact H3].
Defined.
