(* ===== verification/Json.v ===== *)
(** * Json: serde_json values, and computations that thread a state *)
From S2P Require Import Prelude.

(** ** [serde_json::Value]

    The keys of an object are distinct; a number that is not an integer has no value here.
    [Map] is a [BTreeMap]: insertion keeps the order of the keys. *)
Module Value.
Inductive t := Null | Bool (b : bool) | Number (n : option Z) | Str (s : string) | Array (l : list t)
             | Object (m : list (string * t)).

Fixpoint lookup (key : string) (m : list (string * t)) : option t :=
  match m with
  | [] => None
  | (k, v) :: m' => if bool_decide (k = key) then Some v else lookup key m'
  end.

Definition get (key : string) (v : t) : option t := match v with Object m => lookup key m | _ => None end.
Definition as_str (v : t) : option string := match v with Str s => Some s | _ => None end.
Definition as_u64 (v : t) : option N :=
  match v with
  | Number (Some n) => if bool_decide (0 ≤ n ≤ Z.of_N u64_max)%Z then Some (Z.to_N n) else None
  | _ => None
  end.
Definition is_null (v : t) : bool := match v with Null => true | _ => false end.
Definition get_str (key : string) (v : t) : option string := v ← get key v; as_str v.

(** [Map::remove]. *)
Definition remove (key : string) (m : list (string * t)) : list (string * t) :=
  List.filter (λ kv, negb (bool_decide (kv.1 = key))) m.

(** [Map::insert]. *)
Fixpoint insert (key : string) (v : t) (m : list (string * t)) : list (string * t) :=
  match m with
  | [] => [(key, v)]
  | (k, w) :: m' =>
      if bool_decide (k = key) then (key, v) :: m'
      else if String.ltb key k then (key, v) :: (k, w) :: m'
      else (k, w) :: insert key v m'
  end.

(** [json!({...})]: the entries are inserted one by one. *)
Definition object (l : list (string * t)) : t := Object (foldl (λ m kv, insert kv.1 kv.2 m) [] l).

Definition number (n : N) : t := Number (Some (Z.of_N n)).

Definition of_option {A} (f : A → t) (o : option A) : t := match o with Some a => f a | None => Null end.
End Value.

(** ** Computations *)

(** A computation threads a state, here the commands or requests it has issued. *)
Definition GS (S E A : Type) : Type := S → result A E * S.
Definition gret {S E A} (v : A) : GS S E A := λ h, (Ok v, h).
Definition gfail {S E A} (e : E) : GS S E A := λ h, (Err e, h).
Definition gbind {S E A B} (m : GS S E A) (k : A → GS S E B) : GS S E B :=
  λ h, match m h with (Ok v, h') => k v h' | (Err e, h') => (Err e, h') end.
(** [match m { Ok .. Err .. }]: the error is a value. *)
Definition gtry {S E F A} (m : GS S E A) : GS S F (result A E) := λ h, let '(r, h') := m h in (Ok r, h').
(** [m.map_err(f)?]. *)
Definition gmap_err {S E F A} (f : E → F) (m : GS S E A) : GS S F A :=
  λ h, match m h with (Ok v, h') => (Ok v, h') | (Err e, h') => (Err (f e), h') end.
Definition glift {S E A} (r : result A E) : GS S E A := λ h, (r, h).

Notation "'let*' x ':=' m 'in' k" := (gbind m (fun x => k))
  (at level 10, x pattern, m at level 100, k at level 200) : sv_scope.

Lemma gbind_inv {S E A B} (m : GS S E A) (k : A → GS S E B) h r h' :
  gbind m k h = (r, h') →
  (∃ e, m h = (Err e, h') ∧ r = Err e) ∨ (∃ v h1, m h = (Ok v, h1) ∧ k v h1 = (r, h')).
Proof. unfold gbind. destruct (m h) as [[v|e] h1]; [intros H; right; by exists v, h1|intros [= <- <-]; left; by exists e]. Qed.

(** The cases of [gbind m k h = (r, h')] in hypothesis [H]. *)
Ltac step H v h1 Hv :=
  let e := fresh "e" in let He := fresh "He" in let Hr := fresh "Hr" in
  apply gbind_inv in H as [(e & He & Hr)|(v & h1 & Hv & H)]; [first [discriminate Hr | subst]|].

(** [Result::map_err]. *)
Definition map_err {A E F} (f : E → F) (r : result A E) : result A F :=
  match r with Ok v => Ok v | Err e => Err (f e) end.
