(* ===== verification/Exposure.v ===== *)
(** * Exposure: where a credential has appeared in the git history

    sv-exposure's [issuer.rs], [urgency.rs] and [git.rs].  Git is a child process: what a
    command answers is a parameter that may depend on every command run before, so the
    repository may change during a scan.  The state of a computation is the list of commands
    that were started, latest first. *)
From S2P Require Import Prelude Text Bytes Json Paths Privacy ScanTypes Patterns Scan.

(** ** [str::split_whitespace], [str::trim] and [str::parse::<i64>] *)

(** The length of the white space character (Unicode's White_Space) that begins the bytes, 0
    when they begin with another one. *)
Definition whitespace_len (l : list N) : nat :=
  match l with
  | a :: l1 =>
      if ((9 <=? a) && (a <=? 13) || (a =? 32))%N then 1
      else match l1 with
           | b :: l2 =>
               if ((a =? 194) && ((b =? 133) || (b =? 160)))%N then 2
               else match l2 with
                    | c :: _ =>
                        if ((a =? 225) && (b =? 154) && (c =? 128)
                            || (a =? 226) && (b =? 128) && ((128 <=? c) && (c <=? 138) || (c =? 168) || (c =? 169) || (c =? 175))
                            || (a =? 226) && (b =? 129) && (c =? 159)
                            || (a =? 227) && (b =? 128) && (c =? 128))%N then 3
                        else 0
                    | [] => 0
                    end
           | [] => 0
           end
  | [] => 0
  end.

(** [skip] bytes of a white space character are still to be passed; [cur] is the token so far. *)
Fixpoint tokens_go (skip : nat) (cur l : list N) : list (list N) :=
  match l with
  | [] => match cur with [] => [] | _ => [cur] end
  | b :: l' =>
      match skip with
      | S k => tokens_go k cur l'
      | 0 =>
          match whitespace_len l with
          | S k => match cur with [] => tokens_go k [] l' | _ => cur :: tokens_go k [] l' end
          | 0 => tokens_go 0 (cur ++ [b]) l'
          end
      end
  end.

Definition split_whitespace (l : list N) : list string := map str_of_bytes (tokens_go 0 [] l).

Fixpoint trim_start_go (skip : nat) (l : list N) : list N :=
  match l with
  | [] => []
  | _ :: l' =>
      match skip with
      | S k => trim_start_go k l'
      | 0 => match whitespace_len l with S k => trim_start_go k l' | 0 => l end
      end
  end.

Fixpoint trim_end (l : list N) : list N :=
  match l with
  | [] => []
  | b :: l' => match tokens_go 0 [] l with [] => [] | _ => b :: trim_end l' end
  end.

Definition trim (l : list N) : list N := trim_end (trim_start_go 0 l).

Definition i64_min : Z := (-9223372036854775808)%Z.
Definition i64_max : Z := 9223372036854775807%Z.

(** The digits are read one by one and the value stays in range after each. *)
Fixpoint i64_digits (negative : bool) (acc : Z) (l : list N) : result Z string :=
  match l with
  | [] => Ok acc
  | b :: l' =>
      if is_ascii_digit b then
        let d := Z.of_N (b - 48) in
        let acc := if negative then (acc * 10 - d)%Z else (acc * 10 + d)%Z in
        if (acc <? i64_min)%Z then Err "number too small to fit in target type"
        else if (i64_max <? acc)%Z then Err "number too large to fit in target type"
        else i64_digits negative acc l'
      else Err "invalid digit found in string"
  end.

Definition parse_i64 (l : list N) : result Z string :=
  match l with
  | [] => Err "cannot parse integer from empty string"
  | a :: l' =>
      if ((a =? 43) || (a =? 45))%N
      then match l' with
           | [] => Err "invalid digit found in string"
           | _ => i64_digits (a =? 45)%N 0 l'
           end
      else i64_digits false 0 l
  end.

(** [str::split_once]. *)
Fixpoint split_once (c : ascii) (s : string) : option (string * string) :=
  match s with
  | EmptyString => None
  | String a r =>
      if decide (a = c) then Some ("", r)
      else match split_once c r with Some (x, y) => Some (String a x, y) | None => None end
  end.

(** ** Issuers ([issuer.rs]) *)

Module IssuerRule.
Record t := mk { rule_id : string; name : string; revoke_url : string; guidance : string }.
End IssuerRule.

Module Issuer.
Inductive t :=
| GithubPat
| GithubOauth
| GithubFineGrainedPat
| AwsAccessKeyId
| StripeSecretKey
| StripeTestKey
| OpenAiApiKey
| AnthropicApiKey
| SlackBotToken
| SlackUserToken
| GoogleApiKey
| NpmToken
| PrivateKeyPem.
#[global] Instance t_eq_dec : EqDecision t.
Proof. solve_decision. Defined.

Definition rule (self : t) : IssuerRule.t :=
  match self with
  | GithubPat => IssuerRule.mk "github_pat" "GitHub personal access token" "https://github.com/settings/tokens"
      "GitHub auto-revokes many leaked tokens on detection. Still, revoke the token manually and verify it is gone."
  | GithubOauth => IssuerRule.mk "github_oauth" "GitHub OAuth access token" "https://github.com/settings/tokens"
      "Revoke the token in GitHub settings. Check authorized applications and audit logs for unexpected use."
  | GithubFineGrainedPat => IssuerRule.mk "github_fine_grained_pat" "GitHub fine-grained personal access token"
      "https://github.com/settings/tokens"
      "Fine-grained tokens have scoped repository access. Revoke and replace with a new token scoped to the minimum required."
  | AwsAccessKeyId => IssuerRule.mk "aws_access_key_id" "AWS access key ID"
      "https://console.aws.amazon.com/iam/home#/security_credentials"
      "Deactivate the key pair in IAM before deleting it. Review CloudTrail for unexpected use."
  | StripeSecretKey => IssuerRule.mk "stripe_secret_key" "Stripe live secret key" "https://dashboard.stripe.com/apikeys"
      "Roll the key in the Stripe dashboard. Check the events log for unexpected charges or refunds."
  | StripeTestKey => IssuerRule.mk "stripe_test_key" "Stripe test secret key" "https://dashboard.stripe.com/apikeys"
      "Test keys move no money, but they still authenticate to Stripe. Rotate and check for unexpected test traffic."
  | OpenAiApiKey => IssuerRule.mk "openai_api_key" "OpenAI API key" "https://platform.openai.com/api-keys"
      "Revoke the key in the OpenAI platform. Check usage for unexpected spend."
  | AnthropicApiKey => IssuerRule.mk "anthropic_api_key" "Anthropic API key" "https://console.anthropic.com/settings/keys"
      "Revoke the key in the Anthropic console. Check usage for unexpected requests."
  | SlackBotToken => IssuerRule.mk "slack_bot_token" "Slack bot token" "https://api.slack.com/apps"
      "Revoke the bot token in the Slack app OAuth settings and reinstall the app to mint a new one."
  | SlackUserToken => IssuerRule.mk "slack_user_token" "Slack user token" "https://api.slack.com/apps"
      "Revoke the user token in the Slack app OAuth settings. Reinstall the app if it is distributed."
  | GoogleApiKey => IssuerRule.mk "google_api_key" "Google API key" "https://console.cloud.google.com/apis/credentials"
      "Delete the key in the Google Cloud console and consider additional IP or referrer restrictions on the replacement."
  | NpmToken => IssuerRule.mk "npm_token" "npm access token" "https://www.npmjs.com/settings/~/tokens"
      "Revoke the token on npmjs.com and check for unexpected publishes."
  | PrivateKeyPem => IssuerRule.mk "private_key_pem" "PEM private key" ""
      "There is no single revocation path for a PEM private key. Remove the old key from every trust store and reissue certificates or reconfigure services that accepted it."
  end.

Definition id (self : t) : string := IssuerRule.rule_id (rule self).
Definition name (self : t) : string := IssuerRule.name (rule self).
Definition revoke_url (self : t) : string := IssuerRule.revoke_url (rule self).
Definition guidance (self : t) : string := IssuerRule.guidance (rule self).
End Issuer.

Definition RULE_ISSUERS : list Issuer.t :=
  [Issuer.AwsAccessKeyId; Issuer.GithubPat; Issuer.GithubOauth; Issuer.GithubFineGrainedPat; Issuer.SlackBotToken;
   Issuer.SlackUserToken; Issuer.StripeSecretKey; Issuer.StripeTestKey; Issuer.OpenAiApiKey; Issuer.AnthropicApiKey;
   Issuer.GoogleApiKey; Issuer.NpmToken; Issuer.PrivateKeyPem].

Definition lookup_issuer (rule_id : string) : option Issuer.t :=
  List.find (λ i, bool_decide (Issuer.id i = rule_id)) RULE_ISSUERS.

(** Dates are seconds since the epoch. *)
Module RotationState.
Inductive t := Unknown | UserAttested (at_ : Z) | ProviderConfirmed (at_ : Z) (evidence : string).
End RotationState.

(** ** Exposure and urgency ([urgency.rs]) *)

Module ScanLimit.
Inductive t :=
| ShallowClone
| ReflogExpired
| ObjectsGarbageCollected
| SubmodulesNotScanned (count : nat)
| UnreachableObjectsSkipped
| NothingScanned.
#[global] Instance t_eq_dec : EqDecision t.
Proof. solve_decision. Defined.
End ScanLimit.

Module Exposure.
Inductive t :=
| NotFoundInScannedHistory (scanned_refs : nat) (limits : list ScanLimit.t)
| FoundLocalOnly (commits : nat)
| FoundOnRemote (remote : string) (earliest_commit : Z)
| FoundPublic (remote : string) (earliest_commit visibility_observed_at : Z).
#[global] Instance t_eq_dec : EqDecision t.
Proof. solve_decision. Defined.
End Exposure.

Module RotationUrgency.
Inductive t := None | Undetermined | BeforePush | Now | Immediate.
#[global] Instance t_eq_dec : EqDecision t.
Proof. solve_decision. Defined.
End RotationUrgency.

Definition derive_urgency (exposure : Exposure.t) : RotationUrgency.t :=
  match exposure with
  | Exposure.NotFoundInScannedHistory _ limits =>
      match limits with [] => RotationUrgency.None | _ => RotationUrgency.Undetermined end
  | Exposure.FoundLocalOnly _ => RotationUrgency.BeforePush
  | Exposure.FoundOnRemote _ _ => RotationUrgency.Now
  | Exposure.FoundPublic _ _ _ => RotationUrgency.Immediate
  end.

Module FindingExposure.
Record t := mk { finding : ScanFinding.t; exposure : Exposure.t; urgency : RotationUrgency.t; issuer : Issuer.t }.
End FindingExposure.

(** ** Running git ([git.rs]) *)

Module IoError.
Record t := mk { not_found : bool; text : string }.
End IoError.

Module GitRunError.
Inductive t := InvalidRoot | GitNotFound | CommandFailed (status : option Z) (message : string) | NotUtf8.
#[global] Instance t_eq_dec : EqDecision t.
Proof. solve_decision. Defined.
End GitRunError.

Module ClassificationError.
Inductive t :=
| Git (e : GitRunError.t)
| UnknownRuleId (rule_id : string)
| NotASecret
| FingerprintSalt (message : string).
End ClassificationError.

(** [std::process::Command]: the program is always git, in the root of the repository. *)
Module Command.
Record t := mk { envs : list (string * string); args : list string }.
End Command.

Module Output.
Record t := mk { success : bool; code : option Z; stdout : list N; stderr : list N }.
End Output.

(** How a child process goes: whether it starts, whether it takes its standard input, and
    how it ends. *)
Module Child.
Record t := mk { spawned : option IoError.t; written : option IoError.t; waited : result Output.t IoError.t }.

(** [Command::output]. *)
Definition output (c : t) : result Output.t IoError.t :=
  match spawned c with Some e => Err e | None => waited c end.
End Child.

Module CommitHit.
Record t := mk { oid : string; timestamp_seconds : Z; remote : option string }.
End CommitHit.

Module BlobIndex.
Record t := mk { by_blob : gmap string (list CommitHit.t); limits : list ScanLimit.t; scanned_refs : nat }.
Definition default : t := mk ∅ [] 0.
Definition is_empty (self : t) : bool := bool_decide (by_blob self = ∅).
End BlobIndex.

(** The commands started so far, latest first. *)
Abbreviation History := (list Command.t).

(** The operating system, git, chrono's range of dates and the order in which a [HashMap]
    gives its keys. *)
Class Repository := {
  root_is_dir : bool;
  dot_git_exists : bool;
  shallow_metadata : result bool IoError.t;                 (* [.git/shallow]: whether a regular file *)
  run_child : History → Command.t → list N → Child.t;       (* the last argument is the standard input *)
  utc_now : Z;
  timestamp_opt : Z → option Z;
  random_bytes : nat → result (list N) string;
  keys_of : gmap string (list CommitHit.t) → list string
}.

(** A [HashMap] gives each key once, in some order. *)
Class RepositoryLaws `{Repository} : Prop := {
  keys_of_perm : ∀ m, keys_of m ≡ₚ elements (dom m)
}.

(** A computation threads the commands it has issued. *)
Abbreviation G := (GS History).
Section git.
Context `{RP : Repository} (sha256 : list N → list N) (hex_encode : list N → string).

Definition base_git_cmd (args : list string) : Command.t :=
  Command.mk
    [("GIT_EXTERNAL_DIFF", ""); ("GIT_DIFF_EXTERNAL", ""); ("GIT_TEXTCONV", ""); ("GIT_CONFIG_GLOBAL", "");
     ("GIT_CONFIG_SYSTEM", "")]
    (["--no-pager"; "-c"; "core.pager="; "-c"; "diff.external="; "-c"; "diff.textconv="; "-c";
      "protocol.allow=never"] ++ args).

Definition git_spawn_error (e : IoError.t) : GitRunError.t :=
  if IoError.not_found e then GitRunError.GitNotFound else GitRunError.CommandFailed None (IoError.text e).

(** The child of a command: the command joins the history. *)
Definition start (args : list string) (stdin : list N) : G GitRunError.t Child.t := λ h,
  let cmd := base_git_cmd args in (Ok (run_child h cmd stdin), cmd :: h).

(** [String::from_utf8_lossy(&output.stderr).trim().to_string()]. *)
Definition stderr_summary (o : Output.t) : string := str_of_bytes (trim (utf8_lossy (Output.stderr o))).

(** A child that ended without success is an error. *)
Definition check_status (o : Output.t) : result (list N) GitRunError.t :=
  if Output.success o then Ok (Output.stdout o)
  else Err (GitRunError.CommandFailed (Output.code o) (stderr_summary o)).

(** [String::from_utf8(...).map_err(|_| NotUtf8)]. *)
Definition from_utf8 (l : list N) : result (list N) GitRunError.t :=
  if utf8_valid l then Ok l else Err GitRunError.NotUtf8.

Definition run_git (args : list string) : G GitRunError.t (list N) :=
  let* child := start args [] in
  glift (let? output := map_err git_spawn_error (Child.output child) in
         let? stdout := check_status output in
         from_utf8 stdout).

Definition cat_blob (blob_oid : string) : G GitRunError.t (list N) :=
  let* child := start ["cat-file"; "blob"; blob_oid] [] in
  glift (let? output := map_err git_spawn_error (Child.output child) in check_status output).

Definition commit_timestamp (commit : string) : G GitRunError.t Z :=
  let* out := run_git ["log"; "-1"; "--format=%ct"; commit] in
  glift (map_err (λ e, GitRunError.CommandFailed None
                   ("invalid commit timestamp for " +:+ (commit +:+ (": " +:+ e)))) (parse_i64 (trim out))).

Definition is_shallow : result bool GitRunError.t :=
  match shallow_metadata with
  | Ok is_file => Ok is_file
  | Err e => if IoError.not_found e then Ok false
             else Err (GitRunError.CommandFailed None ("could not read .git/shallow: " +:+ IoError.text e))
  end.

Definition non_empty_lines (out : list N) : list (list N) := List.filter (λ l, negb (bool_decide (l = []))) (lines out).

(** [writeln!(stdin, "{oid}")] for each object. *)
Definition batch_input (object_paths : list (string * string * string)) : list N :=
  concat (map (λ p, str_bytes p.1.2 ++ [10%N]) object_paths).

Definition parse_batch (text : list N) : gset string :=
  foldl (λ blobs line, match split_whitespace line with
                       | [oid; kind] => if bool_decide (kind = "blob") then {[oid]} ∪ blobs else blobs
                       | _ => blobs
                       end) ∅ (non_empty_lines text).

Definition batch_check_blob_types (object_paths : list (string * string * string)) : G GitRunError.t (gset string) :=
  match object_paths with
  | [] => gret ∅
  | _ =>
      let* child := start ["cat-file"; "--batch-check=%(objectname) %(objecttype)"] (batch_input object_paths) in
      glift (let? _ := match Child.spawned child with Some e => Err (git_spawn_error e) | None => Ok tt end in
             let? _ := match Child.written child with
                       | Some e => Err (GitRunError.CommandFailed None (IoError.text e))
                       | None => Ok tt
                       end in
             let? output := map_err git_spawn_error (Child.waited child) in
             let? stdout := check_status output in
             let? text := from_utf8 stdout in
             Ok (parse_batch text))
  end.

(** The first token of each line, when it has 40 bytes. *)
Definition reflog_tokens (out : list N) : list string :=
  omap (λ line, match split_whitespace line with
                | token :: _ => if bool_decide (String.length token = 40) then Some token else None
                | [] => None
                end) (non_empty_lines out).

Fixpoint reflog_roots (reflogs : list string) (roots : list string) : G GitRunError.t (list string) :=
  match reflogs with
  | [] => gret roots
  | reflog :: reflogs' =>
      let* out := gtry (run_git ["reflog"; reflog]) in
      reflog_roots reflogs' (match out with Ok out => roots ++ reflog_tokens out | Err _ => roots end)
  end.

Definition collect_reflog_roots : G GitRunError.t (list string) := reflog_roots ["HEAD"; "--all"] [].

(** ** [collect_blobs] *)

(** [seen_commits], [commit_queue], [remote_by_commit] and [index.scanned_refs] while the refs
    are read. *)
Record Refs := mkRefs {
  seen_commits : gset string;
  commit_queue : list string;
  remote_by_commit : gmap string string;
  refs_scanned : nat
}.

Definition remote_of (refname : string) : option string :=
  match strip_prefix "refs/remotes/" refname with
  | Some suffix => Some (split_first "/" suffix)
  | None => None
  end.

Definition record_ref (s : Refs) (oid refname : string) : Refs :=
  let remotes := match remote_of refname with
                 | Some r => <[oid := r]> (remote_by_commit s)
                 | None => remote_by_commit s
                 end in
  if bool_decide (oid ∈ seen_commits s)
  then mkRefs (seen_commits s) (commit_queue s) remotes (refs_scanned s + 1)
  else mkRefs ({[oid]} ∪ seen_commits s) (commit_queue s ++ [oid]) remotes (refs_scanned s + 1).

Fixpoint read_refs (s : Refs) (ref_lines : list (list N)) : result Refs GitRunError.t :=
  match ref_lines with
  | [] => Ok s
  | line :: ref_lines' =>
      match split_once " " (str_of_bytes line) with
      | None => Err (GitRunError.CommandFailed None "unexpected for-each-ref format")
      | Some (oid, refname) => read_refs (record_ref s oid refname) ref_lines'
      end
  end.

(** The roots of the reflog that no ref names are queued, each with a limit. *)
Fixpoint add_roots (seen : gset string) (queue : list string) (limits : list ScanLimit.t) (roots : list string) :
    list string * list ScanLimit.t :=
  match roots with
  | [] => (queue, limits)
  | oid :: roots' =>
      if bool_decide (oid ∈ seen) then add_roots seen queue limits roots'
      else add_roots ({[oid]} ∪ seen) (queue ++ [oid]) (limits ++ [ScanLimit.ReflogExpired]) roots'
  end.

(** The lines of [git rev-list --objects]: [current_commit] is the last line of one token. *)
Fixpoint read_objects (current_commit : option string) (output : list (list N)) : list (string * string * string) :=
  match output with
  | [] => []
  | line :: output' =>
      let tokens := split_whitespace line in
      let oid := default (str_of_bytes line) (head tokens) in
      if negb (bool_decide (String.length oid = 40)) then read_objects current_commit output'
      else if bool_decide (length tokens = 1) then read_objects (Some oid) output'
      else match tokens !! 1, current_commit with
           | Some path, Some commit => (commit, oid, path) :: read_objects current_commit output'
           | _, _ => read_objects current_commit output'
           end
  end.

Definition add_hit (m : gmap string (list CommitHit.t)) (blob_oid : string) (hit : CommitHit.t) :
    gmap string (list CommitHit.t) :=
  <[blob_oid := default [] (m !! blob_oid) ++ [hit]]> m.

(** [entry(commit).or_insert(commit_timestamp(..).unwrap_or(0))]: the argument is evaluated
    even when the entry exists. *)
Fixpoint index_objects (remotes : gmap string string) (blob_oids : gset string) (cache : gmap string Z)
    (m : gmap string (list CommitHit.t)) (object_paths : list (string * string * string)) :
    G GitRunError.t (gmap string (list CommitHit.t)) :=
  match object_paths with
  | [] => gret m
  | (commit, blob_oid, _) :: object_paths' =>
      if bool_decide (blob_oid ∈ blob_oids) then
        let* looked_up := gtry (commit_timestamp commit) in
        let fresh := match looked_up with Ok ts => ts | Err _ => 0%Z end in
        let ts := default fresh (cache !! commit) in
        index_objects remotes blob_oids (<[commit := ts]> cache)
          (add_hit m blob_oid (CommitHit.mk commit ts (remotes !! commit))) object_paths'
      else index_objects remotes blob_oids cache m object_paths'
  end.

Definition submodule_lines (modules : list N) : nat :=
  length (List.filter (λ l, starts_with (str_of_bytes l) "submodule.") (lines modules)).

Definition rev_list (queue : list string) : G GitRunError.t (list (string * string * string)) :=
  match queue with
  | [] => gret []
  | _ => let* output := run_git ("rev-list" :: "--objects" :: queue) in
         gret (read_objects None (non_empty_lines output))
  end.

Definition add_shallow (limits : list ScanLimit.t) : result (list ScanLimit.t) GitRunError.t :=
  let? shallow := is_shallow in
  Ok (if shallow then limits ++ [ScanLimit.ShallowClone] else limits).

Definition add_submodules (limits : list ScanLimit.t) (modules : result (list N) GitRunError.t) : list ScanLimit.t :=
  match modules with
  | Ok modules =>
      let count := submodule_lines modules in
      if 0 <? count then limits ++ [ScanLimit.SubmodulesNotScanned count] else limits
  | Err _ => limits
  end.

Definition collect_blobs : G GitRunError.t BlobIndex.t :=
  if negb root_is_dir then gfail GitRunError.InvalidRoot
  else if negb dot_git_exists then gret BlobIndex.default
  else
    let* ref_lines := run_git ["for-each-ref"; "--format=%(objectname) %(refname)"; "refs/heads"; "refs/remotes";
                               "refs/tags"; "refs/stash"; "refs/notes"] in
    let* refs := glift (read_refs (mkRefs ∅ [] ∅ 0) (non_empty_lines ref_lines)) in
    let* roots := gtry collect_reflog_roots in
    let '(queue, limits) := match roots with
                            | Ok roots => add_roots (seen_commits refs) (commit_queue refs) [] roots
                            | Err _ => (commit_queue refs, [ScanLimit.ReflogExpired])
                            end in
    let* object_paths := rev_list queue in
    let* blob_oids := batch_check_blob_types object_paths in
    let* by_blob := index_objects (remote_by_commit refs) blob_oids ∅ ∅ object_paths in
    let* limits := glift (add_shallow limits) in
    let* modules := gtry (run_git ["config"; "--file"; ".gitmodules"; "--list"]) in
    gret (BlobIndex.mk by_blob (add_submodules limits modules) (refs_scanned refs)).

(** ** [classify_finding] *)

Definition finding_rule_id (finding : ScanFinding.t) : option string :=
  match ScanFinding.kind finding with FindingKind.Secret rule_id => Some rule_id | _ => None end.

Definition blob_contains_finding (finding : ScanFinding.t) (content salt : list N) : bool :=
  if utf8_valid content then
    let candidates := detect_secrets sha256 hex_encode content [Component.Normal "blob"] PreviewMode.Opaque salt in
    let target := finding_rule_id finding in
    existsb (λ candidate, match ScanFinding.kind candidate with
                          | FindingKind.Secret rule_id => bool_decide (Some rule_id = target)
                          | _ => false
                          end) candidates
  else false.

Definition fingerprint_salt : result (list N) ClassificationError.t :=
  let? bytes := map_err ClassificationError.FingerprintSalt (random_bytes 32) in
  if bool_decide (length bytes = 32) then Ok bytes
  else Err (ClassificationError.FingerprintSalt "short random salt").

Fixpoint collect_hits (index : BlobIndex.t) (finding : ScanFinding.t) (salt : list N) (hits : list CommitHit.t)
    (blob_oids : list string) : G ClassificationError.t (list CommitHit.t) :=
  match blob_oids with
  | [] => gret hits
  | blob_oid :: blob_oids' =>
      let* content := gmap_err ClassificationError.Git (cat_blob blob_oid) in
      collect_hits index finding salt
        (if blob_contains_finding finding content salt
         then hits ++ default [] (BlobIndex.by_blob index !! blob_oid) else hits) blob_oids'
  end.

Definition min_timestamp (hits : list CommitHit.t) : option Z :=
  match map CommitHit.timestamp_seconds hits with
  | [] => None
  | t :: ts => Some (foldl Z.min t ts)
  end.

Definition exposure_of (index : BlobIndex.t) (hits : list CommitHit.t) : Exposure.t :=
  match hits with
  | [] => Exposure.NotFoundInScannedHistory (BlobIndex.scanned_refs index) (BlobIndex.limits index)
  | _ =>
      let remote_hits := List.filter (λ h, bool_decide (is_Some (CommitHit.remote h))) hits in
      match remote_hits with
      | [] => Exposure.FoundLocalOnly (length hits)
      | _ =>
          let earliest := default 0%Z (min_timestamp remote_hits) in
          let earliest_dt := default utc_now (timestamp_opt earliest) in
          let remote := default "" (head (omap CommitHit.remote remote_hits)) in
          Exposure.FoundOnRemote remote earliest_dt
      end
  end.

Definition classify_finding (index : BlobIndex.t) (finding : ScanFinding.t) :
    G ClassificationError.t FindingExposure.t :=
  match ScanFinding.kind finding with
  | FindingKind.Secret rule_id =>
      let* issuer := glift (ok_or (lookup_issuer rule_id) (ClassificationError.UnknownRuleId rule_id)) in
      let answer exposure := FindingExposure.mk finding exposure (derive_urgency exposure) issuer in
      if BlobIndex.is_empty index then
        let limits := if bool_decide (ScanLimit.NothingScanned ∈ BlobIndex.limits index)
                      then BlobIndex.limits index
                      else BlobIndex.limits index ++ [ScanLimit.NothingScanned] in
        gret (answer (Exposure.NotFoundInScannedHistory (BlobIndex.scanned_refs index) limits))
      else
        let* salt := glift fingerprint_salt in
        let* hits := collect_hits index finding salt [] (keys_of (BlobIndex.by_blob index)) in
        gret (answer (exposure_of index hits))
  | _ => gfail ClassificationError.NotASecret
  end.
End git.
