(* ===== verification/ExposureTheorems.v ===== *)
(** * ExposureTheorems: what sv-exposure's verdicts rest on, and what it says of a small repository

    The small repository has one commit, which the branch [main] and the remote-tracking branch [origin/main] name, with
    one file.  What git prints follows its documentation; the output of [rev-list --objects]
    is a parameter, and so is the content of the file.  It comes first, as an example. *)
From S2P Require Import Prelude Bytes Patterns Text Privacy Paths ScanTypes Scan ScanSpec Json Exposure.

Definition line_of (l : list string) : list N := concat (map str_bytes l) ++ [10%N].

Fixpoint repeat_str (n : nat) (s : string) : string :=
  match n with 0 => "" | S n' => s +:+ repeat_str n' s end.

Definition tip : string := repeat_str 40 "1".
Definition tree : string := repeat_str 40 "2".
Definition blob : string := repeat_str 40 "3".
Definition copy : string := repeat_str 40 "4".

Definition printed (out : list N) : Child.t := Child.mk None None (Ok (Output.mk true (Some 0%Z) out [])).
Definition refused : Child.t := Child.mk None None (Ok (Output.mk false (Some 128%Z) [] [])).

(** [cat-file --batch-check]: a line of type for each line of the input. *)
Definition batch_output (stdin : list N) : list N := concat (map (λ l, l ++ line_of [" blob"]) (lines stdin)).

Definition answer_of (objects content stdin : list N) (args : list string) : Child.t :=
  match args with
  | "for-each-ref" :: _ => printed (line_of [tip; " refs/heads/main"] ++ line_of [tip; " refs/remotes/origin/main"])
  | "reflog" :: _ => refused
  | "rev-list" :: _ => printed objects
  | ["cat-file"; _] => printed (batch_output stdin)
  | ["cat-file"; "blob"; _] => printed content
  | ["log"; _; _; oid] => if bool_decide (oid = tip) then printed (line_of ["1700000000"]) else printed []
  | "config" :: _ => printed (line_of ["submodule.lib.path=lib"] ++ line_of ["submodule.lib.url=../lib"])
  | _ => refused
  end.

(** The base arguments of [base_git_cmd] are nine. *)
Definition small (objects content : list N) : Repository := {|
  root_is_dir := true;
  dot_git_exists := true;
  shallow_metadata := Err (IoError.mk true "not found");
  run_child _ cmd stdin := answer_of objects content stdin (drop 9 (Command.args cmd));
  utc_now := 1800000000;
  timestamp_opt t := Some t;
  random_bytes n := Ok (repeat 7%N n);
  keys_of m := elements (dom m)
|}.

#[global] Instance small_laws objects content : @RepositoryLaws (small objects content).
Proof. split. intros m. done. Qed.

Definition token : list N := str_bytes ("ghp_" +:+ repeat_str 36 "a").

Definition leaked : ScanFinding.t :=
  ScanFinding.mk [Component.Normal "key.txt"] 1 0 40 (FindingKind.Secret "github_pat") Confidence.High [] "".

(** The lines that the comments of [collect_blobs] describe: a commit, then its objects. *)
Definition described_lines : list N := line_of [tip] ++ line_of [blob; " key.txt"].

(** The lines that git prints: the root tree comes with an empty path. *)
Definition printed_lines : list N := line_of [tip] ++ line_of [tree; " "] ++ line_of [blob; " key.txt"].

Definition classified (objects content : list N) : result Exposure.t ClassificationError.t :=
  match @collect_blobs (small objects content) [] with
  | (Ok index, h) =>
      match @classify_finding (small objects content) (λ l, l) str_of_bytes index leaked h with
      | (Ok answer, _) => Ok (FindingExposure.exposure answer)
      | (Err e, _) => Err e
      end
  | (Err e, _) => Err (ClassificationError.Git e)
  end.

(** The commit is the tip of a remote-tracking branch, and the verdict says so when the lines
    are as described; with the line of the root tree the object is attributed to the tree,
    whose id is no ref, and the pushed credential is reported as local only. *)
Lemma pushed_secret_reported_local :
  classified described_lines token = Ok (Exposure.FoundOnRemote "origin" 1700000000)
  ∧ classified printed_lines token = Ok (Exposure.FoundLocalOnly 1).
Proof. split; vm_compute; reflexivity. Qed.

(** A blob that is not UTF-8 counts as a blob without the credential, and no limit of the
    answer says that it was not examined: the limits are those of the repository alone. *)
Lemma binary_blob_reported_clean :
  classified described_lines (token ++ [255%N])
  = Ok (Exposure.NotFoundInScannedHistory 2 [ScanLimit.SubmodulesNotScanned 2]).
Proof. vm_compute. reflexivity. Qed.

Definition commits_of (r : result BlobIndex.t GitRunError.t * History) (cmd : list string) : nat :=
  length (List.filter (λ c, bool_decide (drop 9 (Command.args c) = cmd)) r.2).

(** Two objects of one commit: the timestamp is asked for twice. *)
Lemma timestamp_asked_per_object :
  commits_of (@collect_blobs (small (described_lines ++ line_of [copy; " copy.txt"]) token) [])
    ["log"; "-1"; "--format=%ct"; tip] = 2.
Proof. vm_compute. reflexivity. Qed.

(** One submodule has a path and a URL, and counts as two. *)
Lemma submodule_counted_per_line :
  BlobIndex.limits <$> (match (@collect_blobs (small described_lines token) []).1 with Ok i => Some i | Err _ => None end)
  = Some [ScanLimit.SubmodulesNotScanned 2].
Proof. vm_compute. reflexivity. Qed.

(** The reflog of the repository cannot be read, and no limit is recorded: the roots of the
    reflog are never an error. *)
Lemma reflog_failure_is_silent `{RP : Repository} h : ∃ roots h', collect_reflog_roots h = (Ok roots, h').
Proof.
  unfold collect_reflog_roots.
  assert (∀ l roots h, ∃ roots' h', reflog_roots l roots h = (Ok roots', h')) as H; [|apply H].
  induction l as [|r l IH]; intros roots h0; cbn [reflog_roots]; [by exists roots, h0|].
  unfold gbind, gtry. destruct (run_git ["reflog"; r] h0) as [[out|e] h1]; apply IH.
Qed.

(** A credential in two files of one commit has two hits: [commits]
    is the number of hits, not of distinct commits. *)
Lemma commits_are_hits :
  classified (line_of [tree] ++ line_of [blob; " key.txt"] ++ line_of [copy; " copy.txt"]) token
  = Ok (Exposure.FoundLocalOnly 2).
Proof. vm_compute. reflexivity. Qed.

(** * What sv-exposure's verdicts rest on *)
Section commands.
Context `{RP : Repository}.

(** A command that one of the functions may start. *)
Definition cat_blob_cmd (oid : string) : Command.t := base_git_cmd ["cat-file"; "blob"; oid].

Lemma cat_blob_history oid h : (cat_blob oid h).2 = cat_blob_cmd oid :: h.
Proof. unfold cat_blob, gbind, start, glift. done. Qed.

Lemma run_git_history args h : (run_git args h).2 = base_git_cmd args :: h.
Proof. unfold run_git, gbind, start, glift. done. Qed.

Lemma commit_timestamp_history c h : (commit_timestamp c h).2 = base_git_cmd ["log"; "-1"; "--format=%ct"; c] :: h.
Proof.
  unfold commit_timestamp, gbind, glift. pose proof (run_git_history ["log"; "-1"; "--format=%ct"; c] h) as H.
  by destruct (run_git _ h) as [[v|e] h'].
Qed.
End commands.

(** ** The index *)

Section index.
Context `{RP : Repository}.

Definition hit_of (remotes : gmap string string) (stamp : string → Z) (entry : string * string * string) : CommitHit.t :=
  CommitHit.mk entry.1.1 (stamp entry.1.1) (remotes !! entry.1.1).

Definition entries_of (oid : string) (entries : list (string * string * string)) : list (string * string * string) :=
  List.filter (λ e, bool_decide (e.1.2 = oid)) entries.

(** The index groups the entries of [rev-list] by object: an object that the batch check calls
    a blob has one hit for each of its entries, in their order. *)
Definition groups (remotes : gmap string string) (blobs : gset string) (stamp : string → Z)
    (entries : list (string * string * string)) (m : gmap string (list CommitHit.t)) : Prop :=
  ∀ oid, default [] (m !! oid) =
         if bool_decide (oid ∈ blobs) then map (hit_of remotes stamp) (entries_of oid entries) else [].

Lemma index_objects_spec remotes blobs cache m entries h :
  ∃ m' h' stamp,
    index_objects remotes blobs cache m entries h = (Ok m', h')
    ∧ (∀ c ts, cache !! c = Some ts → stamp c = ts)
    ∧ (∀ oid, is_Some (m' !! oid) → is_Some (m !! oid) ∨ ∃ e, e ∈ entries ∧ e.1.2 = oid)
    ∧ ∀ oid, default [] (m' !! oid) =
             default [] (m !! oid) ++
             (if bool_decide (oid ∈ blobs) then map (hit_of remotes stamp) (entries_of oid entries) else []).
Proof.
  revert cache m h. induction entries as [|[[commit oid] path] entries IH]; intros cache m h; cbn [index_objects].
  - exists m, h, (λ c, default 0%Z (cache !! c)). split_and!; [done| |by left|].
    + intros c ts Hc. by rewrite Hc.
    + intros o. case_bool_decide; by rewrite app_nil_r.
  - case_bool_decide as Hb.
    + unfold gbind at 1, gtry. destruct (commit_timestamp commit h) as [looked h1].
      set (fresh := match looked with Ok ts => ts | Err _ => 0%Z end).
      set (ts := default fresh (cache !! commit)).
      destruct (IH (<[commit := ts]> cache) (add_hit m oid (CommitHit.mk commit ts (remotes !! commit))) h1)
        as (m' & h' & stamp & -> & Hc & Hd & Hm). exists m', h', stamp. split_and!; [done| | |].
      * intros c t0 Hl. apply Hc. destruct (decide (c = commit)) as [->|]; [|by rewrite lookup_insert_ne].
        rewrite lookup_insert_eq. unfold ts. by rewrite Hl.
      * intros o Ho. destruct (Hd o Ho) as [Hin|(e & He & <-)]; [|right; exists e; split; [by right|done]].
        unfold add_hit in Hin. destruct (decide (o = oid)) as [->|]; [|rewrite lookup_insert_ne in Hin by done; by left].
        right. exists (commit, oid, path). split; [by left|done].
      * intros o. rewrite Hm. cbn [entries_of List.filter]. unfold add_hit.
        destruct (decide (o = oid)) as [->|Hne].
        -- rewrite lookup_insert_eq. cbn. rewrite (bool_decide_eq_true_2 (oid = oid)) by done.
           rewrite (bool_decide_eq_true_2 (oid ∈ blobs)) by done. cbn. rewrite <-app_assoc. f_equal. cbn. f_equal.
           unfold hit_of. cbn. by rewrite (Hc commit ts) by apply lookup_insert_eq.
        -- rewrite lookup_insert_ne by done. cbn. by rewrite (bool_decide_eq_false_2 (oid = o)).
    + destruct (IH cache m h) as (m' & h' & stamp & -> & Hc & Hd & Hm). exists m', h', stamp. split_and!; [done..| |].
      * intros o Ho. destruct (Hd o Ho) as [?|(e & He & <-)]; [by left|right; exists e; split; [by right|done]].
      * intros o. rewrite Hm. cbn [entries_of List.filter]. destruct (decide (o = oid)) as [->|Hne].
        -- by rewrite !(bool_decide_eq_false_2 (oid ∈ blobs)).
        -- cbn. by rewrite (bool_decide_eq_false_2 (oid = o)).
Qed.

Lemma read_objects_40 cur out c oid path :
  (∀ c, cur = Some c → String.length c = 40) →
  (c, oid, path) ∈ read_objects cur out → String.length c = 40 ∧ String.length oid = 40.
Proof.
  revert cur. induction out as [|line out IH]; intros cur Hcur; cbn [read_objects]; [set_solver|].
  case_bool_decide as H40; cbn [negb]; [|by apply IH].
  case_bool_decide as H1; [apply IH; by intros ? [= <-]|].
  destruct (_ !! 1) as [p|]; [|by apply IH]. destruct cur as [c0|]; [|by apply IH].
  intros [[= -> -> ->]|Hin]%elem_of_cons; [split; [by apply Hcur|done]|by apply (IH (Some c0))].
Qed.

(** The refs that git listed: each line is an object id, a blank and a name. *)
Definition listed_refs (out : list N) : list (option (string * string)) :=
  map (λ line, split_once " " (str_of_bytes line)) (non_empty_lines out).

Lemma read_refs_spec lines s refs :
  read_refs s lines = Ok refs → NoDup (commit_queue s) → (∀ oid, oid ∈ commit_queue s ↔ oid ∈ seen_commits s) →
  let listed := map (λ line, split_once " " (str_of_bytes line)) lines in
  NoDup (commit_queue refs)
  ∧ refs_scanned refs = refs_scanned s + length listed
  ∧ (∀ oid, oid ∈ commit_queue refs ↔ oid ∈ seen_commits refs)
  ∧ (∀ oid, oid ∈ commit_queue refs ↔ oid ∈ commit_queue s ∨ ∃ name, Some (oid, name) ∈ listed)
  ∧ ∀ c r, remote_by_commit refs !! c = Some r →
           remote_by_commit s !! c = Some r ∨ ∃ name, Some (c, name) ∈ listed ∧ remote_of name = Some r.
Proof.
  revert s. induction lines as [|line lines IH]; intros s; cbn [read_refs map].
  { intros [= <-] Hnd Hseen. split_and!; [done|cbn; lia|done|set_solver|by left]. }
  destruct (split_once " " (str_of_bytes line)) as [[oid name]|]; [|done]. intros Hr Hnd Hseen.
  assert (NoDup (commit_queue (record_ref s oid name))
          ∧ (∀ o, o ∈ commit_queue (record_ref s oid name) ↔ o ∈ seen_commits (record_ref s oid name))
          ∧ refs_scanned (record_ref s oid name) = refs_scanned s + 1
          ∧ (∀ o, o ∈ commit_queue (record_ref s oid name) ↔ o ∈ commit_queue s ∨ o = oid)) as (N1 & S1 & R1 & Q1).
  { unfold record_ref. case_bool_decide as Hin; cbn; split_and!; try done.
    - intros o. split; [by left|]. intros [?| ->]; [done|by apply Hseen].
    - apply NoDup_app. split_and!; [done| |apply NoDup_singleton]. intros o Ho ->%list_elem_of_singleton. by apply Hin, Hseen.
    - intros o. rewrite elem_of_app, Hseen. set_solver.
    - intros o. rewrite elem_of_app. set_solver. }
  destruct (IH _ Hr N1 S1) as (N2 & R2 & S2 & Q2 & M2). split_and!; [done|cbn in *; lia|done| |].
  - intros o. rewrite Q2, Q1. set_solver.
  - intros c r Hc. destruct (M2 c r Hc) as [Hc'|(n & Hn & Hrem)]; [|right; exists n; set_solver].
    assert (remote_by_commit (record_ref s oid name)
            = match remote_of name with Some r => <[oid := r]> (remote_by_commit s) | None => remote_by_commit s end) as E
      by (unfold record_ref; by case_bool_decide).
    rewrite E in Hc'. destruct (remote_of name) as [r'|] eqn:Hrn; [|by left].
    destruct (decide (c = oid)) as [->|]; [|rewrite lookup_insert_ne in Hc' by done; by left].
    rewrite lookup_insert_eq in Hc'. injection Hc' as ->. right. exists name. split; [by left|done].
Qed.

Lemma add_roots_prefix seen queue limits roots : queue `prefix_of` (add_roots seen queue limits roots).1.
Proof.
  revert seen queue limits. induction roots as [|r roots IH]; intros seen queue limits; cbn [add_roots]; [done|].
  case_bool_decide; [apply IH|]. etransitivity; [|apply IH]. by apply prefix_app_r.
Qed.

(** What the blob index is.  When [collect_blobs] succeeds on a repository: the refs are
    those git listed, counted once per line and queued once per object; the queue that
    [rev-list] walks begins with them; an entry of the index is an object that [rev-list]
    printed with a path and that the batch check called a blob, and its hits are its lines
    in order, with one timestamp per commit; every id has 40 bytes; and a hit names a remote
    only when the line of one token before it is the object of a remote-tracking ref. *)
Theorem index_is_grouped_history h index h' :
  dot_git_exists = true → collect_blobs h = (Ok index, h') →
  ∃ ref_out queue entries blobs stamp remotes h1 h2,
    (run_git ["for-each-ref"; "--format=%(objectname) %(refname)"; "refs/heads"; "refs/remotes"; "refs/tags";
              "refs/stash"; "refs/notes"] h).1 = Ok ref_out
    ∧ BlobIndex.scanned_refs index = length (listed_refs ref_out)
    ∧ (∀ oid name, Some (oid, name) ∈ listed_refs ref_out → oid ∈ queue)
    ∧ (queue = [] ∧ entries = []
       ∨ ∃ out, (run_git ("rev-list" :: "--objects" :: queue) h1).1 = Ok out
                ∧ entries = read_objects None (non_empty_lines out))
    ∧ (batch_check_blob_types entries h2).1 = Ok blobs
    ∧ groups remotes blobs stamp entries (BlobIndex.by_blob index)
    ∧ (∀ oid, is_Some (BlobIndex.by_blob index !! oid) → ∃ e, e ∈ entries ∧ e.1.2 = oid)
    ∧ (∀ c oid path, (c, oid, path) ∈ entries → String.length c = 40 ∧ String.length oid = 40)
    ∧ ∀ c r, remotes !! c = Some r → ∃ name, Some (c, name) ∈ listed_refs ref_out ∧ remote_of name = Some r.
Proof.
  intros Hgit Hc. unfold collect_blobs in Hc. destruct root_is_dir; cbn [negb] in Hc; [|done].
  rewrite Hgit in Hc. cbn [negb] in Hc. step Hc ref_lines h1 H1.
  step Hc refs h2 H2. unfold glift in H2. injection H2 as H2 <-.
  step Hc roots h3 H3.
  assert (commit_queue refs `prefix_of` (match roots with
            | Ok roots => add_roots (seen_commits refs) (commit_queue refs) [] roots
            | Err _ => (commit_queue refs, [ScanLimit.ReflogExpired]) end).1) as Hpre
    by (destruct roots; [apply add_roots_prefix|done]).
  destruct (match roots with Ok r => _ | Err _ => _ end) as [queue limits]. cbn [fst] in Hpre.
  step Hc entries h4 H4. step Hc blobs h5 H5. step Hc m h6 H6. step Hc limits' h7 H7. step Hc modules h8 H8.
  injection Hc as <- <-.
  destruct (index_objects_spec (remote_by_commit refs) blobs ∅ ∅ entries h5) as (m' & h6' & stamp & E6 & _ & Hd & Hm).
  rewrite E6 in H6. injection H6 as <- <-.
  destruct (read_refs_spec _ _ _ H2) as (_ & Hn & _ & Hq & Hrem); [apply NoDup_nil_2|set_solver|].
  assert (queue = [] ∧ entries = [] ∨ ∃ out, (run_git ("rev-list" :: "--objects" :: queue) h3).1 = Ok out
            ∧ entries = read_objects None (non_empty_lines out)) as Hentries.
  { unfold rev_list in H4. destruct queue as [|q queue]; [injection H4 as <- <-; by left|].
    step H4 out h9 H9. injection H4 as <- <-. right. exists out. by rewrite H9. }
  exists ref_lines, queue, entries, blobs, stamp, (remote_by_commit refs), h3, h4. cbn [BlobIndex.by_blob BlobIndex.scanned_refs]. split_and!.
  - by rewrite H1.
  - done.
  - intros oid name Hin. destruct Hpre as [rest ->]. apply elem_of_app. left. apply Hq. right. by exists name.
  - done.
  - by rewrite H5.
  - intros oid. by rewrite Hm, lookup_empty.
  - intros oid Ho. destruct (Hd oid Ho) as [[? Hno]|]; [by rewrite lookup_empty in Hno|done].
  - intros c oid path. destruct Hentries as [[_ ->]|(out & _ & ->)]; [set_solver|]. by apply read_objects_40.
  - intros c r Hc. destruct (Hrem c r Hc) as [Hno|]; [cbn [remote_by_commit] in Hno; by rewrite lookup_empty in Hno|done].
Qed.
End index.

(** ** The verdict *)

Section verdict.
Context `{RP : Repository} `{RL : !RepositoryLaws} (sha256 : list N → list N) (hex_encode : list N → string).

(** Git gave [content] for the object in a call made after the commands [h]. *)
Definition was_read (h : History) (oid : string) (content : list N) : Prop :=
  ∃ h0, h `suffix_of` h0 ∧ (cat_blob oid h0).1 = Ok content.

(** A hit of the index in one of the [matching] blobs. *)
Definition hit_in (index : BlobIndex.t) (matching : string → bool) (x : CommitHit.t) : Prop :=
  ∃ oid l, BlobIndex.by_blob index !! oid = Some l ∧ matching oid = true ∧ x ∈ l.

(** The hits of the matching blobs among [oids]. *)
Definition matching_hits (index : BlobIndex.t) (matching : string → bool) (oids : list string) : list CommitHit.t :=
  concat (map (λ oid, if matching oid then default [] (BlobIndex.by_blob index !! oid) else []) oids).

(** What the verdict says of an index whose blobs match or not; nothing in it depends on the
    order in which the blobs were read. *)
Definition verdict (index : BlobIndex.t) (matching : string → bool) (e : Exposure.t) : Prop :=
  match e with
  | Exposure.NotFoundInScannedHistory refs limits =>
      refs = BlobIndex.scanned_refs index ∧ limits = BlobIndex.limits index ∧ ∀ x, ¬ hit_in index matching x
  | Exposure.FoundLocalOnly commits =>
      (∃ x, hit_in index matching x) ∧ (∀ x, hit_in index matching x → CommitHit.remote x = None)
      ∧ commits = length (matching_hits index matching (elements (dom (BlobIndex.by_blob index))))
  | Exposure.FoundOnRemote remote date =>
      (∃ x, hit_in index matching x ∧ CommitHit.remote x = Some remote)
      ∧ ∃ x, hit_in index matching x ∧ is_Some (CommitHit.remote x)
             ∧ date = default utc_now (timestamp_opt (CommitHit.timestamp_seconds x))
             ∧ ∀ y, hit_in index matching y → is_Some (CommitHit.remote y) →
                    (CommitHit.timestamp_seconds x ≤ CommitHit.timestamp_seconds y)%Z
  | Exposure.FoundPublic _ _ _ => False
  end.

Lemma foldl_min_spec t ts : (foldl Z.min t ts ∈ t :: ts) ∧ ∀ u, u ∈ t :: ts → (foldl Z.min t ts ≤ u)%Z.
Proof.
  revert t. induction ts as [|u ts IH]; intros t; cbn [foldl].
  - split; [by left|]. intros u [->|[]%not_elem_of_nil]%elem_of_cons. lia.
  - destruct (IH (Z.min t u)) as [Hin Hle]. split.
    + apply elem_of_cons in Hin as [->|Hin]; [|by right; right]. destruct (Z.min_dec t u) as [->| ->]; [left|right; left].
    + intros v [->|[->|Hv]%elem_of_cons]%elem_of_cons; [| |apply Hle; by right];
        (etransitivity; [apply Hle; by left|]; lia).
Qed.

Lemma min_timestamp_spec hits : hits ≠ [] →
  ∃ x, x ∈ hits ∧ min_timestamp hits = Some (CommitHit.timestamp_seconds x)
       ∧ ∀ y, y ∈ hits → (CommitHit.timestamp_seconds x ≤ CommitHit.timestamp_seconds y)%Z.
Proof.
  intros Hne. unfold min_timestamp. destruct hits as [|h hits]; [done|]. cbn [map].
  destruct (foldl_min_spec (CommitHit.timestamp_seconds h) (map CommitHit.timestamp_seconds hits)) as [Hin Hle].
  change (_ :: map _ hits) with (map CommitHit.timestamp_seconds (h :: hits)) in Hin, Hle.
  apply list_elem_of_fmap in Hin as (x & Hx & Hx'). exists x. split_and!; [done|by rewrite Hx|].
  intros y Hy. rewrite <-Hx. apply Hle. by apply list_elem_of_fmap_2.
Qed.

Lemma keys_NoDup (m : gmap string (list CommitHit.t)) : NoDup (keys_of m).
Proof. rewrite keys_of_perm. apply NoDup_elements. Qed.

Lemma elem_of_keys (m : gmap string (list CommitHit.t)) oid : oid ∈ keys_of m ↔ is_Some (m !! oid).
Proof. rewrite keys_of_perm, elem_of_elements. apply elem_of_dom. Qed.

Lemma elem_of_matching_hits index matching x :
  x ∈ matching_hits index matching (keys_of (BlobIndex.by_blob index)) ↔ hit_in index matching x.
Proof.
  unfold matching_hits, hit_in. rewrite list_elem_of_In, in_concat. setoid_rewrite in_map_iff.
  setoid_rewrite <-list_elem_of_In. setoid_rewrite elem_of_keys. split.
  - intros (k & (oid & <- & [l Hl]) & Hx). destruct (matching oid) eqn:Hm; [|set_solver].
    rewrite Hl in Hx. by exists oid, l.
  - intros (oid & l & Hl & Hm & Hx). exists l. split; [|done]. exists oid. by rewrite Hl, Hm.
Qed.

Lemma exposure_of_verdict index matching :
  verdict index matching (exposure_of index (matching_hits index matching (keys_of (BlobIndex.by_blob index)))).
Proof.
  pose proof (elem_of_matching_hits index matching) as Hhits.
  assert (length (matching_hits index matching (keys_of (BlobIndex.by_blob index)))
          = length (matching_hits index matching (elements (dom (BlobIndex.by_blob index))))) as Hlen.
  { unfold matching_hits. apply Permutation_length. by rewrite keys_of_perm. }
  unfold exposure_of. destruct (matching_hits _ _ (keys_of _)) as [|h0 hits].
  { split_and!; [done..|]. intros x Hx%Hhits. set_solver. }
  set (hs := h0 :: hits) in *. set (remote_hits := List.filter _ hs).
  assert (∀ x, x ∈ remote_hits ↔ hit_in index matching x ∧ is_Some (CommitHit.remote x)) as Hr.
  { intros x. unfold remote_hits. rewrite list_elem_of_In, filter_In, <-list_elem_of_In, Hhits. by rewrite bool_decide_eq_true. }
  destruct remote_hits as [|r rs] eqn:Hrs.
  - split_and!; [exists h0; apply Hhits; by left| |done]. intros x Hx. apply eq_None_not_Some. intros Hs.
    assert (x ∈ []) as Hn by by apply Hr. set_solver.
  - destruct (min_timestamp_spec (r :: rs)) as (x & Hx & -> & Hmin); [done|]. split.
    + exists r. destruct (Hr r) as [[Hh [n Hn]] _]; [by left|]. split; [done|]. cbn. by rewrite Hn.
    + exists x. apply Hr in Hx as [? ?]. split_and!; [done..|]. intros y Hy1 Hy2. apply Hmin, Hr. done.
Qed.

Lemma collect_hits_spec index finding salt hits oids h :
  NoDup oids →
  match collect_hits sha256 hex_encode index finding salt hits oids h with
  | (Ok found, h') =>
      ∃ content, (∀ oid, oid ∈ oids → was_read h oid (content oid))
                 ∧ h' = reverse (map cat_blob_cmd oids) ++ h
                 ∧ found = hits ++ matching_hits index
                     (λ oid, blob_contains_finding sha256 hex_encode finding (content oid) salt) oids
  | (Err e, _) => ∃ oid h0 e', oid ∈ oids ∧ (cat_blob oid h0).1 = Err e' ∧ e = ClassificationError.Git e'
  end.
Proof.
  revert hits h. induction oids as [|oid oids IH]; intros hits h Hnd; cbn [collect_hits].
  { exists (λ _, []). split_and!; [set_solver|done|]. by rewrite app_nil_r. }
  apply NoDup_cons in Hnd as [Hnew Hnd].
  unfold gbind at 1, gmap_err. pose proof (cat_blob_history oid h) as Hh. destruct (cat_blob oid h) as [[c|e] h1] eqn:Hcat.
  2: { exists oid, h, e. split_and!; [by left|by rewrite Hcat|done]. }
  cbn in Hh. subst h1.
  set (hits' := if blob_contains_finding sha256 hex_encode finding c salt then _ else hits).
  specialize (IH hits' (cat_blob_cmd oid :: h) Hnd).
  destruct (collect_hits sha256 hex_encode index finding salt hits' oids (cat_blob_cmd oid :: h)) as [[found|e] h2].
  2: { destruct IH as (o & h0 & e' & Ho & Hr). exists o, h0, e'. split; [by right|done]. }
  destruct IH as (content & Hread & -> & ->).
  exists (λ o, if decide (o = oid) then c else content o). split_and!.
  - intros o [->|Ho]%elem_of_cons.
    + rewrite decide_True by done. exists h. split; [done|]. by rewrite Hcat.
    + rewrite decide_False by congruence. destruct (Hread o Ho) as (h0 & Hs & Hr). exists h0. split; [|done].
      etransitivity; [|exact Hs]. by apply suffix_cons_r.
  - cbn [map]. by rewrite reverse_cons, <-app_assoc.
  - unfold matching_hits. cbn [map concat]. rewrite decide_True by done. unfold hits'.
    rewrite (map_ext_in _ (λ o, if blob_contains_finding sha256 hex_encode finding
               (if decide (o = oid) then c else content o) salt then default [] (BlobIndex.by_blob index !! o) else [])).
    + destruct (blob_contains_finding _ _ _ c _); [by rewrite <-app_assoc|done].
    + intros o Ho%list_elem_of_In. by rewrite decide_False by congruence.
Qed.

(** The answer of [classify_finding] is the declared one on every branch.  It keeps the
    finding, names the issuer of its rule and derives the urgency from the exposure.  With
    an empty index nothing is read and the limit [NothingScanned] is in the answer, so the
    urgency is [Undetermined].  Otherwise every blob of the index was read, and with
    [matching] telling the blobs in which the detectors report the rule: the value is "not
    found" exactly when no matching blob has a hit, "local only" with the number of hits when no hit has a remote,
    and "on a remote" otherwise, with the remote of such a hit and the date of the earliest
    one, in whatever order the hash map gives the blobs.  An error means that the finding is
    not a secret, that its rule has no issuer, that no salt could be drawn, or that git could
    not give a blob of the index. *)
Theorem classify_finding_verdict index finding h :
  match classify_finding sha256 hex_encode index finding h with
  | (Ok answer, h') =>
      FindingExposure.finding answer = finding
      ∧ finding_rule_id finding = Some (Issuer.id (FindingExposure.issuer answer))
      ∧ FindingExposure.urgency answer = derive_urgency (FindingExposure.exposure answer)
      ∧ ((BlobIndex.by_blob index = ∅ ∧ h' = h ∧ FindingExposure.urgency answer = RotationUrgency.Undetermined
          ∧ ∃ limits, FindingExposure.exposure answer
                      = Exposure.NotFoundInScannedHistory (BlobIndex.scanned_refs index) limits
                      ∧ ScanLimit.NothingScanned ∈ limits ∧ BlobIndex.limits index ⊆ limits)
         ∨ ∃ salt content,
             length salt = 32
             ∧ (∀ oid, is_Some (BlobIndex.by_blob index !! oid) → was_read h oid (content oid))
             ∧ h' = reverse (map cat_blob_cmd (keys_of (BlobIndex.by_blob index))) ++ h
             ∧ verdict index (λ oid, blob_contains_finding sha256 hex_encode finding (content oid) salt)
                 (FindingExposure.exposure answer))
  | (Err ClassificationError.NotASecret, _) => finding_rule_id finding = None
  | (Err (ClassificationError.UnknownRuleId r), _) => finding_rule_id finding = Some r ∧ lookup_issuer r = None
  | (Err (ClassificationError.FingerprintSalt _), _) => ¬ ∃ salt, random_bytes 32 = Ok salt ∧ length salt = 32
  | (Err (ClassificationError.Git e), _) =>
      ∃ oid h0, is_Some (BlobIndex.by_blob index !! oid) ∧ (cat_blob oid h0).1 = Err e
  end.
Proof.
  unfold classify_finding, finding_rule_id. destruct (ScanFinding.kind finding) as [cat|rule|a b c d]; [done| |done].
  unfold gbind at 1, glift. destruct (lookup_issuer rule) as [issuer|] eqn:Hi; cbn [ok_or]; [|done].
  assert (Issuer.id issuer = rule) as Hid by by apply find_some in Hi as [_ ?%bool_decide_eq_true].
  unfold BlobIndex.is_empty. case_bool_decide as He.
  { cbn. rewrite Hid. split_and!; [done..|]. left. split_and!; [done..| |].
    - case_bool_decide as Hn; [|by destruct (BlobIndex.limits index)]. by destruct (BlobIndex.limits index) as [|l ls]; [set_solver|].
    - eexists. split; [done|]. case_bool_decide; set_solver. }
  unfold gbind at 1, fingerprint_salt. destruct (random_bytes 32) as [salt|e] eqn:Hrnd; cbn.
  2: { intros (s & [=] & _). }
  case_bool_decide as Hlen; [|by intros (s & [= <-] & ?)].
  unfold gbind. pose proof (collect_hits_spec index finding salt [] (keys_of (BlobIndex.by_blob index)) h (keys_NoDup _)) as Hs.
  destruct (collect_hits _ _ _ _ _ _ _ h) as [[found|e] h2].
  - cbn. rewrite Hid. split_and!; [done..|]. destruct Hs as (content & Hread & -> & ->).
    right. exists salt, content. split_and!; [done| |done|].
    + intros oid Ho. by apply Hread, elem_of_keys.
    + apply exposure_of_verdict.
  - destruct Hs as (oid & h0 & e' & Ho%elem_of_keys & Hr & ->). by exists oid, h0.
Qed.
End verdict.

(** ** Findings of the scanner have an issuer *)

Lemma rules_have_issuers rule : rule ∈ RULES → is_Some (lookup_issuer (SecretRule.id rule)).
Proof.
  intros Hr. assert (forallb (λ r, bool_decide (is_Some (lookup_issuer (SecretRule.id r)))) RULES = true) as H by done.
  rewrite forallb_forall in H. by apply list_elem_of_In, H, bool_decide_eq_true in Hr.
Qed.

Lemma collect_hits_errors `{RP : Repository} sha256 hex_encode index finding salt hits oids h e :
  (collect_hits sha256 hex_encode index finding salt hits oids h).1 = Err e → ∃ g, e = ClassificationError.Git g.
Proof.
  revert hits h. induction oids as [|oid oids IH]; intros hits h; cbn [collect_hits]; [done|].
  unfold gbind, gmap_err. destruct (cat_blob oid h) as [[c|g] h1]; [apply IH|]. intros [= <-]. by exists g.
Qed.

Lemma collect_hits_commands `{RP : Repository} sha256 hex_encode index finding salt hits oids h :
  ∃ k, (collect_hits sha256 hex_encode index finding salt hits oids h).2
       = reverse (map cat_blob_cmd (take k oids)) ++ h.
Proof.
  revert hits h. induction oids as [|oid oids IH]; intros hits h; cbn [collect_hits]; [by exists 0|].
  unfold gbind, gmap_err. pose proof (cat_blob_history oid h) as Hh.
  destruct (cat_blob oid h) as [[c|g] h1]; cbn in Hh; subst h1; [|by exists 1].
  destruct (IH (if blob_contains_finding sha256 hex_encode finding c salt
                then hits ++ default [] (BlobIndex.by_blob index !! oid) else hits) (cat_blob_cmd oid :: h)) as [k Hk].
  exists (S k). cbn [take map]. by rewrite reverse_cons, <-app_assoc.
Qed.

(** Every secret that the scanner reports can be classified: its rule has an issuer, whose
    id is that rule, so [classify_finding] never answers [NotASecret] or [UnknownRuleId] for
    it, whatever the repository does; and the table of issuers is in bijection with its
    rules. *)
Theorem scanned_secrets_are_classified `{RP : Repository} (sha256 : list N → list N) (hex_encode : list N → string)
    (content : list N) (path : PathBuf) (mode : PreviewMode.t) (salt : list N) (finding : ScanFinding.t)
    (index : BlobIndex.t) (h : History) :
  finding ∈ detect_secrets sha256 hex_encode content path mode salt →
  (∃ issuer, finding_rule_id finding = Some (Issuer.id issuer) ∧ lookup_issuer (Issuer.id issuer) = Some issuer)
  ∧ (∀ issuer, lookup_issuer (Issuer.id issuer) = Some issuer)
  ∧ match (classify_finding sha256 hex_encode index finding h).1 with
    | Ok answer => finding_rule_id finding = Some (Issuer.id (FindingExposure.issuer answer))
    | Err e => (∃ g, e = ClassificationError.Git g) ∨ ∃ m, e = ClassificationError.FingerprintSalt m
    end.
Proof.
  intros Hf.
  assert (Forall (λ f, ScanFinding.start f < ScanFinding.end_ f)
            (secret_candidates sha256 hex_encode content path mode salt)) as Hok.
  { apply Forall_forall. intros f Hc. by eapply reported_span, candidates_reported. }
  apply (proj1 (dedup_spec _ Hok)), candidates_reported in Hf as (rule & Hr & Hmatch).
  assert (ScanFinding.kind finding = FindingKind.Secret (SecretRule.id rule)) as Hk.
  { unfold secret_match in Hmatch. case_bool_decide; by destruct Hmatch as [(_ & _ & ? & _) _]. }
  destruct (rules_have_issuers rule Hr) as [issuer Hi].
  assert (Issuer.id issuer = SecretRule.id rule) as Hid by by apply find_some in Hi as [_ ?%bool_decide_eq_true].
  unfold finding_rule_id. rewrite Hk. split_and!; [exists issuer; by rewrite Hid|by intros []|].
  unfold classify_finding. rewrite Hk. unfold gbind at 1, glift. rewrite Hi. cbn [ok_or].
  destruct BlobIndex.is_empty; [cbn; by rewrite Hid|].
  unfold gbind at 1, fingerprint_salt. destruct (random_bytes 32) as [s|m]; cbn; [|right; by eexists].
  case_bool_decide; [|right; by eexists]. unfold gbind.
  pose proof (collect_hits_errors sha256 hex_encode index finding s [] (keys_of (BlobIndex.by_blob index)) h) as He.
  destruct (collect_hits _ _ _ _ _ _ _ h) as [[hits|e] h1]; cbn; [by rewrite Hid|left; by apply He].
Qed.

(** ** The commands do not depend on what the blobs hold *)

(** The same course of a child process, except for what it prints. *)
Definition alike (c1 c2 : Child.t) : Prop :=
  Child.spawned c1 = Child.spawned c2
  ∧ match Child.waited c1, Child.waited c2 with
    | Ok o1, Ok o2 =>
        Output.success o1 = Output.success o2 ∧ Output.code o1 = Output.code o2 ∧ Output.stderr o1 = Output.stderr o2
    | Err e1, Err e2 => e1 = e2
    | _, _ => False
    end.

(** Two repositories that may differ in the contents of every blob. *)
Definition same_but_blobs (R1 R2 : Repository) : Prop :=
  @random_bytes R1 = @random_bytes R2 ∧ @keys_of R1 = @keys_of R2
  ∧ ∀ h oid, alike (@run_child R1 h (cat_blob_cmd oid) []) (@run_child R2 h (cat_blob_cmd oid) []).

Section noninterference.
Context (R1 R2 : Repository) (sha256 : list N → list N) (hex_encode : list N → string).
Context (Hsame : same_but_blobs R1 R2).

Lemma cat_blob_alike oid h :
  (∃ c1 c2, (@cat_blob R1 oid h).1 = Ok c1 ∧ (@cat_blob R2 oid h).1 = Ok c2)
  ∨ ∃ e, (@cat_blob R1 oid h).1 = Err e ∧ (@cat_blob R2 oid h).1 = Err e.
Proof.
  destruct Hsame as (_ & _ & Halike). destruct (Halike h oid) as [Hs Hw].
  unfold cat_blob, gbind, start, glift, Child.output, cat_blob_cmd in *. cbn.
  rewrite <-Hs. destruct (Child.spawned _) as [e|]; [right; by eexists|].
  destruct (Child.waited _) as [o1|e1], (Child.waited _) as [o2|e2]; try done; cbn in *; [|subst; right; by eexists].
  destruct Hw as (Hok & Hcode & Herr). unfold check_status, stderr_summary. rewrite Hok, Hcode, Herr.
  destruct (Output.success o2); [left; by eexists _, _|right; by eexists].
Qed.

Lemma collect_hits_alike index f1 f2 salt hits1 hits2 oids h :
  (@collect_hits R1 sha256 hex_encode index f1 salt hits1 oids h).2
  = (@collect_hits R2 sha256 hex_encode index f2 salt hits2 oids h).2.
Proof.
  revert hits1 hits2 h. induction oids as [|oid oids IH]; intros hits1 hits2 h; cbn [collect_hits]; [done|].
  unfold gbind, gmap_err. pose proof (@cat_blob_history R1 oid h) as H1. pose proof (@cat_blob_history R2 oid h) as H2.
  destruct (cat_blob_alike oid h) as [(c1 & c2 & E1 & E2)|(e & E1 & E2)];
    destruct (@cat_blob R1 oid h) as [? ?], (@cat_blob R2 oid h) as [? ?]; cbn in *; subst; [apply IH|done].
Qed.
End noninterference.

(** A detected value never reaches a command line.  The commands that [classify_finding]
    starts are the same for two repositories that differ in the content of every blob, and
    for two findings of the same rule that differ in everything else (path, span, preview,
    fingerprint); each of them is [git cat-file blob <id>] for an id of the index, with the
    external diff and textconv helpers, the pager and the network protocols turned off. *)
Theorem commands_independent_of_values (R1 R2 : Repository) (sha256 : list N → list N) (hex_encode : list N → string)
    (index : BlobIndex.t) (f1 f2 : ScanFinding.t) (h : History) :
  same_but_blobs R1 R2 → finding_rule_id f1 = finding_rule_id f2 →
  (@classify_finding R1 sha256 hex_encode index f1 h).2 = (@classify_finding R2 sha256 hex_encode index f2 h).2
  ∧ ∃ k, (@classify_finding R1 sha256 hex_encode index f1 h).2
         = reverse (map cat_blob_cmd (take k (@keys_of R1 (BlobIndex.by_blob index)))) ++ h.
Proof.
  intros Hsame Hid.
  assert (∀ R f, ∃ k, (@classify_finding R sha256 hex_encode index f h).2
            = reverse (map cat_blob_cmd (take k (@keys_of R (BlobIndex.by_blob index)))) ++ h) as Hform.
  { intros R f. unfold classify_finding. destruct (ScanFinding.kind f); [by exists 0| |by exists 0].
    unfold gbind at 1, glift. destruct (ok_or _ _); [|by exists 0]. destruct BlobIndex.is_empty; [by exists 0|].
    unfold gbind at 1. destruct fingerprint_salt as [s|]; [|by exists 0]. unfold gbind.
    destruct (collect_hits_commands sha256 hex_encode index f s [] (keys_of (BlobIndex.by_blob index)) h) as [k Hk].
    exists k. by destruct (collect_hits _ _ _ _ _ _ _ h) as [[?|?] ?]. }
  split; [|apply Hform]. unfold finding_rule_id in Hid. unfold classify_finding.
  destruct (ScanFinding.kind f1) as [?|rule|????], (ScanFinding.kind f2) as [?|rule2|????]; try done.
  injection Hid as <-. unfold gbind at 1 3, glift. destruct (lookup_issuer rule) as [i|]; cbn [ok_or]; [|done].
  destruct BlobIndex.is_empty; [done|]. pose proof Hsame as (Hrnd & Hkeys & _).
  assert (@fingerprint_salt R1 = @fingerprint_salt R2) as Hsalt by (unfold fingerprint_salt; by rewrite Hrnd).
  unfold gbind at 1 3. rewrite <-Hsalt. destruct (@fingerprint_salt R1) as [s|e]; [|done]. rewrite <-Hkeys.
  pose proof (collect_hits_alike R1 R2 sha256 hex_encode Hsame index f1 f2 s [] []
                (@keys_of R1 (BlobIndex.by_blob index)) h) as Hh.
  unfold gbind. by destruct (@collect_hits R1 _ _ _ _ _ _ _ h) as [[?|?] ?], (@collect_hits R2 _ _ _ _ _ _ _ h) as [[?|?] ?].
Qed.

(** ** Witnesses *)

Definition sample_run : result BlobIndex.t GitRunError.t * History := @collect_blobs (small described_lines token) [].
Definition sample_index : BlobIndex.t := match sample_run.1 with Ok i => i | Err _ => BlobIndex.default end.

Lemma classify_finding_verdict_witness :
  ∃ answer h',
    @classify_finding (small described_lines token) (λ l, l) str_of_bytes sample_index leaked [] = (Ok answer, h')
    ∧ FindingExposure.finding answer = leaked
    ∧ FindingExposure.urgency answer = derive_urgency (FindingExposure.exposure answer).
Proof.
  pose proof (classify_finding_verdict (RP := small described_lines token) (λ l, l) str_of_bytes sample_index leaked []) as H.
  destruct (classify_finding _ _ _ _ _) as [[answer|e] h'] eqn:E; [|exfalso; vm_compute in E; discriminate].
  exists answer, h'. destruct H as (H1 & _ & H3 & _). split; [exact eq_refl|]. split; [exact H1|exact H3].
Defined.

Lemma index_is_grouped_history_witness : ∃ ref_out, BlobIndex.scanned_refs sample_index = length (listed_refs ref_out).
Proof.
  destruct (index_is_grouped_history (RP := small described_lines token) [] sample_index sample_run.2)
    as (ref_out & _ & _ & _ & _ & _ & _ & _ & _ & H & _); [reflexivity|vm_compute; reflexivity|]. by exists ref_out.
Defined.

Definition sample_secret : ScanFinding.t :=
  default leaked (head (detect_secrets (λ l, l) str_of_bytes token [] PreviewMode.Opaque [])).

Lemma scanned_secrets_are_classified_witness :
  ∃ issuer, finding_rule_id sample_secret = Some (Issuer.id issuer) ∧ lookup_issuer (Issuer.id issuer) = Some issuer.
Proof.
  destruct (scanned_secrets_are_classified (RP := small described_lines token) (λ l, l) str_of_bytes token []
              PreviewMode.Opaque [] sample_secret sample_index []) as [H _]; [vm_compute; left|exact H].
Defined.

Lemma commands_independent_of_values_witness :
  (@classify_finding (small described_lines token) (λ l, l) str_of_bytes sample_index leaked []).2
  = (@classify_finding (small described_lines []) (λ l, l) str_of_bytes sample_index sample_secret []).2.
Proof.
  destruct (commands_independent_of_values (small described_lines token) (small described_lines [])
              (λ l, l) str_of_bytes sample_index leaked sample_secret []) as [H _]; [| |exact H].
  - split; [reflexivity|]. split; [reflexivity|]. intros h oid. repeat split.
  - vm_compute. reflexivity.
Defined.
