(* ===== verification/GitHub.v ===== *)
(** * GitHub: what GitHub already found

    sv-exposure's [github.rs].  The HTTP client, the JSON parser, the date parser and the hash
    are parameters; what the server answers may depend on every request made before.  The
    state of a computation is the list of requests that were sent, latest first. *)
From stdpp Require Import pretty.
From S2P Require Import Prelude Bytes Text Json Exposure ExposureTheorems.

(** ** Types *)

Module GitHubError.
Inductive t := MissingToken | InvalidRepo | RequestFailed (e : string) | ParseFailed.
End GitHubError.

(** How an operation ends without a result: an error, an [unwrap] that panics, or a loop that
    has not ended after the turns that were allowed. *)
Inductive stop := Error (e : GitHubError.t) | Panic | Looping.

Module RepoId.
Record t := mk { owner : string; name : string }.
#[global] Instance t_eq_dec : EqDecision t.
Proof. solve_decision. Defined.

Definition trim_str (s : string) : string := str_of_bytes (trim (str_bytes s)).

(** [splitn(2, '/')]: the second part is missing when there is no slash. *)
Definition parse (value : string) : option t :=
  match split_once "/" value with
  | None => None
  | Some (owner, name) =>
      let owner := trim_str owner in
      let name := trim_str name in
      if bool_decide (owner = "") || bool_decide (name = "") || str_contains "/" owner || str_contains "/" name
      then None else Some (mk owner name)
  end.
End RepoId.

Module RepoVisibility.
Inductive t := Public | Private | Unknown.
End RepoVisibility.

Module PushProtectionStatus.
Inductive t := Enabled | Disabled | Unknown.
End PushProtectionStatus.

Module SecretScanningAlert.
Record t := mk {
  number : N;
  secret_type : string;
  state : string;
  created_at : option Z;
  html_url : string;
  resolution : option string;
  secret_fingerprint : option string
}.
End SecretScanningAlert.

Module SecretScanningAlerts.
Inductive t :=
| Known (repo : RepoId.t) (states_queried : list string) (alerts : list SecretScanningAlert.t) (observed_at : Z)
| Unknown (repo : RepoId.t) (states_queried : list string) (reason : string).
End SecretScanningAlerts.

Module RepositorySecurityPosture.
Record t := mk { repo : RepoId.t; push_protection : PushProtectionStatus.t; observed_at : Z; source : string }.
End RepositorySecurityPosture.

Module GitHubClient.
Record t := mk { token : string; base_url : string }.
End GitHubClient.

Module PageOutcome.
Inductive t := Done (alerts : list SecretScanningAlert.t) | Failed (status : N).
End PageOutcome.

Module Request.
Record t := mk { url : string; headers : list (string * string) }.
End Request.

(** The body may fail to arrive after the status did. *)
Module Response.
Record t := mk { status : N; bytes : result (list N) string }.
(** [StatusCode::is_success]. *)
Definition is_success (r : t) : bool := ((200 <=? status r) && (status r <? 300))%N.
End Response.

Class GitHubApi := {
  github_token_var : option string;                            (* [std::env::var("GITHUB_TOKEN").ok()] *)
  gh_auth_token : result Output.t IoError.t;                   (* [gh auth token] *)
  build_client : result unit string;
  parse_header_value : string → option string;
  send : list Request.t → Request.t → result Response.t string;
  from_slice : list N → option Value.t;
  parse_rfc3339 : string → option Z;                           (* in UTC *)
  status_text : N → string;                                    (* [StatusCode]'s [Display] *)
  observed_now : Z
}.

Definition H := (GS (list Request.t) stop).

Section github.
Context `{GA : GitHubApi} (sha256 : list N → list N) (hex_encode : list N → string).

(** ** Fingerprints and parsing *)

Definition transient_fingerprint (value : string) (key : list N) : string := hex_encode (sha256 (key ++ str_bytes value)).

(** [ct_eq] of two slices of the same length decides whether they are equal. *)
Definition matches_value (self : SecretScanningAlert.t) (value : string) (key : list N) : bool :=
  match SecretScanningAlert.secret_fingerprint self with
  | None => false
  | Some alert_fp =>
      let value_fp := transient_fingerprint value key in
      if negb (bool_decide (String.length alert_fp = String.length value_fp)) then false
      else bool_decide (str_bytes alert_fp = str_bytes value_fp)
  end.

Definition str_field (key : string) (entry : list (string * Value.t)) : option string :=
  v ← Value.lookup key entry; Value.as_str v.

Definition parse_alert (correlation_key : list N) (entry : list (string * Value.t)) :
    result SecretScanningAlert.t GitHubError.t :=
  let secret_fingerprint := (λ secret, transient_fingerprint secret correlation_key) <$> str_field "secret" entry in
  let entry := Value.remove "secret" entry in
  let? number := ok_or (v ← Value.lookup "number" entry; Value.as_u64 v) GitHubError.ParseFailed in
  let secret_type := default "" (str_field "secret_type" entry) in
  let state := default "" (str_field "state" entry) in
  let created_at := s ← str_field "created_at" entry; parse_rfc3339 s in
  let html_url := default "" (str_field "html_url" entry) in
  let resolution := str_field "resolution" entry in
  Ok (SecretScanningAlert.mk number secret_type state created_at html_url resolution secret_fingerprint).

Fixpoint parse_alerts (correlation_key : list N) (raw : list (list (string * Value.t))) :
    result (list SecretScanningAlert.t) GitHubError.t :=
  match raw with
  | [] => Ok []
  | entry :: raw' =>
      let? alert := parse_alert correlation_key entry in
      let? alerts := parse_alerts correlation_key raw' in
      Ok (alert :: alerts)
  end.

(** [serde_json::from_slice::<Vec<Map<..>>>]: an array of objects. *)
Definition objects_of (v : Value.t) : option (list (list (string * Value.t))) :=
  match v with
  | Value.Array l => mapM (λ v, match v with Value.Object m => Some m | _ => None end) l
  | _ => None
  end.

Definition parse_alert_page (bytes correlation_key : list N) : result (list SecretScanningAlert.t) GitHubError.t :=
  let? raw := ok_or (v ← from_slice bytes; objects_of v) GitHubError.ParseFailed in
  parse_alerts correlation_key raw.

Definition parse_visibility (bytes : list N) : result RepoVisibility.t GitHubError.t :=
  let? value := ok_or (from_slice bytes) GitHubError.ParseFailed in
  match v ← Value.get "visibility" value; Value.as_str v with
  | Some s => if bool_decide (s = "public") then Ok RepoVisibility.Public
              else if bool_decide (s = "private") then Ok RepoVisibility.Private
              else Ok RepoVisibility.Unknown
  | None => Ok RepoVisibility.Unknown
  end.

Definition parse_push_protection (bytes : list N) : result PushProtectionStatus.t GitHubError.t :=
  let? value := ok_or (from_slice bytes) GitHubError.ParseFailed in
  let enabled := sa ← Value.get "security_and_analysis" value;
                 pp ← Value.get "secret_scanning_push_protection" sa;
                 st ← Value.get "status" pp;
                 s ← Value.as_str st;
                 Some (bool_decide (s = "enabled")) in
  match enabled with
  | Some true => Ok PushProtectionStatus.Enabled
  | Some false => Ok PushProtectionStatus.Disabled
  | None => Ok PushProtectionStatus.Unknown
  end.

(** ** The client *)

(** The bytes of the token are trimmed when it comes from the [gh] program. *)
Definition run_gh_auth_token : result string string :=
  match gh_auth_token with
  | Err e => Err (IoError.text e)
  | Ok output =>
      if negb (Output.success output) then Err "gh auth token failed"
      else if utf8_valid (Output.stdout output) then Ok (str_of_bytes (trim (Output.stdout output)))
      else Err "invalid data"
  end.

Definition with_token (token : string) : result GitHubClient.t GitHubError.t :=
  let? _ := map_err GitHubError.RequestFailed build_client in
  Ok (GitHubClient.mk token "https://api.github.com").

Definition from_env_or_gh : result GitHubClient.t GitHubError.t :=
  match github_token_var with
  | Some token => with_token token
  | None =>
      let? token := map_err (λ _, GitHubError.MissingToken) run_gh_auth_token in
      with_token token
  end.

(** Each value is parsed and unwrapped: [None] is the panic. *)
Definition base_headers (self : GitHubClient.t) : option (list (string * string)) :=
  auth ← parse_header_value ("Bearer " +:+ GitHubClient.token self);
  accept ← parse_header_value "application/vnd.github+json";
  agent ← parse_header_value "sovereign-vault-exposure";
  version ← parse_header_value "2022-11-28";
  Some [("authorization", auth); ("accept", accept); ("user-agent", agent); ("x-github-api-version", version)].

(** [self.client.get(&url).headers(self.base_headers()).send().await?]. *)
Definition get (self : GitHubClient.t) (url : string) : H Response.t := λ h,
  match base_headers self with
  | None => (Err Panic, h)
  | Some headers =>
      let request := Request.mk url headers in
      (map_err (λ e, Error (GitHubError.RequestFailed e)) (send h request), request :: h)
  end.

(** [response.bytes().await?], then a parser whose error is [ParseFailed]. *)
Definition body {A} (parse : list N → result A GitHubError.t) (r : Response.t) : result A stop :=
  let? bytes := map_err (λ e, Error (GitHubError.RequestFailed e)) (Response.bytes r) in
  map_err (λ _, Error GitHubError.ParseFailed) (parse bytes).

Definition repo_url (self : GitHubClient.t) (repo : RepoId.t) : string :=
  GitHubClient.base_url self +:+ ("/repos/" +:+ (RepoId.owner repo +:+ ("/" +:+ RepoId.name repo))).

Definition current_visibility (self : GitHubClient.t) (repo : RepoId.t) : H RepoVisibility.t :=
  let* response := get self (repo_url self repo) in
  if negb (Response.is_success response) then gret RepoVisibility.Unknown
  else glift (body parse_visibility response).

Definition repository_posture (self : GitHubClient.t) (repo : RepoId.t) : H RepositorySecurityPosture.t :=
  let url := repo_url self repo in
  let* response := get self url in
  if negb (Response.is_success response)
  then gret (RepositorySecurityPosture.mk repo PushProtectionStatus.Unknown observed_now url)
  else
    let* push_protection := glift (body parse_push_protection response) in
    gret (RepositorySecurityPosture.mk repo push_protection observed_now url).

Definition alerts_url (self : GitHubClient.t) (repo : RepoId.t) (state : string) (page : N) : string :=
  repo_url self repo +:+ ("/secret-scanning/alerts?state=" +:+ (state +:+ ("&per_page=100&page=" +:+ pretty page))).

(** [page] is a [u32], and the release profile has no overflow checks. *)
Definition next_page (page : N) : N := ((page + 1) mod (u32_max + 1))%N.

(** The loop of [fetch_alert_state], with a number of turns. *)
Fixpoint fetch_pages (fuel : nat) (self : GitHubClient.t) (repo : RepoId.t) (state : string) (correlation_key : list N)
    (page : N) (collected : list SecretScanningAlert.t) : H PageOutcome.t :=
  match fuel with
  | 0 => gfail Looping
  | S fuel' =>
      let* response := get self (alerts_url self repo state page) in
      if negb (Response.is_success response) then gret (PageOutcome.Failed (Response.status response))
      else
        let* alerts := glift (body (λ bytes, parse_alert_page bytes correlation_key) response) in
        let collected := collected ++ alerts in
        if length alerts <? 100 then gret (PageOutcome.Done collected)
        else fetch_pages fuel' self repo state correlation_key (next_page page) collected
  end.

Definition fetch_alert_state (fuel : nat) (self : GitHubClient.t) (repo : RepoId.t) (state : string)
    (correlation_key : list N) : H PageOutcome.t :=
  fetch_pages fuel self repo state correlation_key 1 [].

Definition STATES : list string := ["open"; "resolved"].

Fixpoint query_states (fuel : nat) (self : GitHubClient.t) (repo : RepoId.t) (correlation_key : list N)
    (all_alerts : list SecretScanningAlert.t) (states_queried states : list string) : H SecretScanningAlerts.t :=
  match states with
  | [] => gret (SecretScanningAlerts.Known repo states_queried all_alerts observed_now)
  | state :: states' =>
      let* outcome := fetch_alert_state fuel self repo state correlation_key in
      match outcome with
      | PageOutcome.Done alerts =>
          query_states fuel self repo correlation_key (all_alerts ++ alerts) (states_queried ++ [state]) states'
      | PageOutcome.Failed status =>
          gret (SecretScanningAlerts.Unknown repo STATES
                  ("GitHub returned " +:+ (status_text status +:+ (" while listing " +:+ (state +:+ " alerts")))))
      end
  end.

Definition secret_scanning_alerts (fuel : nat) (self : GitHubClient.t) (repo : RepoId.t) (correlation_key : list N) :
    H SecretScanningAlerts.t :=
  query_states fuel self repo correlation_key [] [] STATES.
End github.

(** * What a query of GitHub's alerts means *)
Section paging.
Context `{GA : GitHubApi} (sha256 : list N → list N) (hex_encode : list N → string).
Context (client : GitHubClient.t) (repo : RepoId.t) (key : list N).

(** The server answered the request for a page with these alerts. *)
Definition page_at (state : string) (page : N) (h : list Request.t) (alerts : list SecretScanningAlert.t)
    (h' : list Request.t) : Prop :=
  ∃ response, get client (alerts_url client repo state page) h = (Ok response, h')
              ∧ Response.is_success response = true
              ∧ body (λ bytes, parse_alert_page sha256 hex_encode bytes key) response = Ok alerts.

(** The pages from [page] on: all but the last are full, and the last is short. *)
Inductive listing (state : string) : N → list Request.t → list SecretScanningAlert.t → list Request.t → Prop :=
| listing_last page h alerts h' :
    page_at state page h alerts h' → length alerts < 100 → listing state page h alerts h'
| listing_more page h alerts h1 rest h' :
    page_at state page h alerts h1 → 100 ≤ length alerts → listing state (next_page page) h1 rest h' →
    listing state page h (alerts ++ rest) h'.

(** Some page from [page] on is answered with a status that is not a success. *)
Inductive refusal (state : string) : N → list Request.t → N → list Request.t → Prop :=
| refusal_here page h response h' :
    get client (alerts_url client repo state page) h = (Ok response, h') → Response.is_success response = false →
    refusal state page h (Response.status response) h'
| refusal_later page h alerts h1 status h' :
    page_at state page h alerts h1 → 100 ≤ length alerts → refusal state (next_page page) h1 status h' →
    refusal state page h status h'.

Local Abbreviation fetch fuel state page collected :=
  (fetch_pages sha256 hex_encode fuel client repo state key page collected).

Lemma fetch_page_at fuel state page collected h alerts h1 :
  page_at state page h alerts h1 →
  fetch (S fuel) state page collected h
  = if length alerts <? 100 then (Ok (PageOutcome.Done (collected ++ alerts)), h1)
    else fetch fuel state (next_page page) (collected ++ alerts) h1.
Proof.
  intros (response & Hg & Hs & Hb). cbn [fetch_pages]. unfold gbind at 1. rewrite Hg, Hs. cbn [negb].
  unfold gbind, glift. rewrite Hb. by destruct (length alerts <? 100).
Qed.

(** The outcomes of the loop are these two, whatever the number of turns. *)
Lemma fetch_sound fuel state page collected h outcome h' :
  fetch fuel state page collected h = (Ok outcome, h') →
  match outcome with
  | PageOutcome.Done all => ∃ alerts, all = collected ++ alerts ∧ listing state page h alerts h'
  | PageOutcome.Failed status => refusal state page h status h'
  end.
Proof.
  revert page collected h. induction fuel as [|fuel IH]; intros page collected h; [done|]. cbn [fetch_pages].
  intros Hf. step Hf response h1 Hg. destruct (Response.is_success response) eqn:Hs; cbn [negb] in Hf.
  2: { injection Hf as <- <-. by apply refusal_here. }
  step Hf alerts h2 Hb. unfold glift in Hb. injection Hb as Hb <-.
  assert (page_at state page h alerts h1) as Hp by by exists response.
  destruct (length alerts <? 100) eqn:Hl.
  - apply Nat.ltb_lt in Hl. injection Hf as <- <-. exists alerts. split; [done|]. by apply listing_last.
  - apply Nat.ltb_ge in Hl. specialize (IH _ _ _ Hf). destruct outcome as [all|status].
    + destruct IH as (rest & -> & Hr). exists (alerts ++ rest). split; [by rewrite app_assoc|]. by eapply listing_more.
    + by eapply refusal_later.
Qed.

Lemma listing_fetched state page h alerts h' :
  listing state page h alerts h' →
  ∃ n, ∀ fuel collected, n ≤ fuel → fetch fuel state page collected h = (Ok (PageOutcome.Done (collected ++ alerts)), h').
Proof.
  induction 1 as [page h alerts h' Hp Hl|page h alerts h1 rest h' Hp Hl _ [n IH]].
  - exists 1. intros [|fuel] collected Hn; [lia|]. rewrite (fetch_page_at _ _ _ _ _ _ _ Hp).
    by rewrite (proj2 (Nat.ltb_lt _ _) Hl).
  - exists (S n). intros [|fuel] collected Hn; [lia|]. rewrite (fetch_page_at _ _ _ _ _ _ _ Hp).
    rewrite (proj2 (Nat.ltb_ge _ _) Hl), IH by lia. by rewrite app_assoc.
Qed.

Lemma refusal_fetched state page h status h' :
  refusal state page h status h' →
  ∃ n, ∀ fuel collected, n ≤ fuel → fetch fuel state page collected h = (Ok (PageOutcome.Failed status), h').
Proof.
  induction 1 as [page h response h' Hg Hs|page h alerts h1 status h' Hp Hl _ [n IH]].
  - exists 1. intros [|fuel] collected Hn; [lia|]. cbn [fetch_pages]. unfold gbind at 1. by rewrite Hg, Hs.
  - exists (S n). intros [|fuel] collected Hn; [lia|]. rewrite (fetch_page_at _ _ _ _ _ _ _ Hp).
    rewrite (proj2 (Nat.ltb_ge _ _) Hl). apply IH. lia.
Qed.

(** A query of the alerts is complete or says that it is not.  It answers [Known] exactly
    when, for the open and then for the resolved alerts, every page was answered with a
    success up to a short one, and the alerts are those of all these pages; it answers
    [Unknown] exactly when some page of one of the two listings was refused, and then names
    the status; a partial listing is never an answer, and more turns of the loop never
    change one. *)
Theorem alerts_complete_or_unknown h answer h' :
  (∃ n, ∀ fuel, n ≤ fuel →
     secret_scanning_alerts sha256 hex_encode fuel client repo key h = (Ok answer, h'))
  ↔ match answer with
    | SecretScanningAlerts.Known r states alerts at_ =>
        r = repo ∧ states = STATES ∧ at_ = observed_now
        ∧ ∃ opened resolved h1, listing "open" 1 h opened h1 ∧ listing "resolved" 1 h1 resolved h'
                                ∧ alerts = opened ++ resolved
    | SecretScanningAlerts.Unknown r states reason =>
        r = repo ∧ states = STATES
        ∧ ∃ status state, reason = "GitHub returned " +:+ (status_text status +:+ (" while listing " +:+ (state +:+ " alerts")))
          ∧ ((state = "open" ∧ refusal "open" 1 h status h')
             ∨ (state = "resolved" ∧ ∃ opened h1, listing "open" 1 h opened h1 ∧ refusal "resolved" 1 h1 status h'))
    end.
Proof.
  unfold secret_scanning_alerts, STATES. cbn [query_states]. unfold fetch_alert_state. split.
  - intros [n Hn]. specialize (Hn n (le_n n)). step Hn o1 h1 H1. apply fetch_sound in H1. destruct o1 as [opened|status].
    2: { injection Hn as <- <-. split_and!; [done..|]. exists status, "open". split; [done|]. by left. }
    destruct H1 as (alerts1 & -> & L1). step Hn o2 h2 H2. apply fetch_sound in H2. destruct o2 as [res|status].
    2: { injection Hn as <- <-. split_and!; [done..|]. exists status, "resolved". split; [done|]. right. split; [done|].
         by exists alerts1, h1. }
    destruct H2 as (alerts2 & -> & L2). injection Hn as <- <-. split_and!; [done..|]. by exists alerts1, alerts2, h1.
  - destruct answer as [r states alerts at_|r states reason].
    + intros (-> & -> & -> & opened & resolved & h1 & [n1 L1]%listing_fetched & [n2 L2]%listing_fetched & ->).
      exists (n1 + n2). intros fuel Hf. unfold gbind. rewrite L1 by lia. cbn. rewrite L2 by lia. done.
    + intros (-> & -> & status & state & -> & [[-> [n Hr]%refusal_fetched]|(-> & opened & h1 & [n1 L1]%listing_fetched & [n2 L2]%refusal_fetched)]).
      * exists n. intros fuel Hf. unfold gbind. by rewrite Hr by lia.
      * exists (n1 + n2). intros fuel Hf. unfold gbind. rewrite L1 by lia. cbn. by rewrite L2 by lia.
Qed.

(** The request for a page. *)
Definition page_request (headers : list (string * string)) (state : string) (page : N) : Request.t :=
  Request.mk (alerts_url client repo state page) headers.

(** C35: the loop over the pages ends.  When the server has a finite number of pages, all but
    the last full, and answers each with a success, then as many turns as there are pages
    are enough: the result is all their alerts in order, and the requests are one for each
    page, numbered from 1. *)
Theorem paging_terminates (headers : list (string * string)) (state : string) (h : list Request.t)
    (full : list (list SecretScanningAlert.t)) (final : list SecretScanningAlert.t) :
  base_headers client = Some headers →
  Forall (λ p, 100 ≤ length p) full → length final < 100 → (N.of_nat (length full) < u32_max)%N →
  (∀ i p h0, (full ++ [final]) !! i = Some p →
     ∃ response, send h0 (page_request headers state (N.of_nat i + 1)) = Ok response
                 ∧ Response.is_success response = true
                 ∧ body (λ bytes, parse_alert_page sha256 hex_encode bytes key) response = Ok p) →
  fetch_alert_state sha256 hex_encode (length full + 1) client repo state key h
  = (Ok (PageOutcome.Done (concat full ++ final)),
     reverse (map (λ i, page_request headers state (N.of_nat i + 1)) (seq 0 (length full + 1))) ++ h).
Proof.
  intros Hh Hfull Hfinal Hbound Hpages. unfold fetch_alert_state.
  assert (∀ k collected h0, k + length full < N.to_nat u32_max →
    (∀ i p h0, (full ++ [final]) !! i = Some p →
       page_at state (N.of_nat (k + i) + 1) h0 p (page_request headers state (N.of_nat (k + i) + 1) :: h0)) →
    fetch (length full + 1) state (N.of_nat k + 1) collected h0
    = (Ok (PageOutcome.Done (collected ++ concat full ++ final)),
       reverse (map (λ i, page_request headers state (N.of_nat i + 1)) (seq k (length full + 1))) ++ h0)) as Hgo.
  { clear Hpages Hbound. induction Hfull as [|p full Hp _ IH]; intros k collected h0 Hk Hat.
    - pose proof (Hat 0 final h0 eq_refl) as H0. rewrite Nat.add_0_r in H0.
      cbn [length Nat.add]. rewrite (fetch_page_at _ _ _ _ _ _ _ H0). by rewrite (proj2 (Nat.ltb_lt _ _) Hfinal).
    - pose proof (Hat 0 p h0 eq_refl) as H0. rewrite Nat.add_0_r in H0. cbn [length] in *.
      change (S (length full) + 1) with (S (length full + 1)). rewrite (fetch_page_at _ _ _ _ _ _ _ H0).
      rewrite (proj2 (Nat.ltb_ge _ _) Hp).
      replace (next_page (N.of_nat k + 1)) with (N.of_nat (S k) + 1)%N.
      2: { unfold next_page. rewrite N.mod_small; [lia|]. unfold u32_max in *. lia. }
      rewrite IH; [|lia|].
      + cbn [seq map concat]. by rewrite reverse_cons, <-!app_assoc.
      + intros i q h2 Hi. replace (S k + i) with (k + S i) by lia. by apply Hat. }
  apply (Hgo 0); [lia|]. intros i p h0 Hi. destruct (Hpages i p h0 Hi) as (response & Hs & Hok & Hb).
  exists response. split_and!; [|done..]. unfold get. rewrite Hh. unfold page_request in Hs. cbn. by rewrite Hs.
Qed.
End paging.

(** ** Secrets of the alerts *)

(** The same object, except for the text of the field [secret]. *)
Definition field_alike (a b : string * Value.t) : Prop :=
  a = b ∨ a.1 = "secret" ∧ b.1 = "secret" ∧ ∃ s t, a.2 = Value.Str s ∧ b.2 = Value.Str t.

Definition object_alike (v w : Value.t) : Prop :=
  match v, w with Value.Object m, Value.Object m' => Forall2 field_alike m m' | _, _ => v = w end.

Definition page_alike (v w : option Value.t) : Prop :=
  match v, w with Some (Value.Array l), Some (Value.Array l') => Forall2 object_alike l l' | _, _ => v = w end.

(** What is left of an alert without the value of its fingerprint. *)
Definition erase (a : SecretScanningAlert.t) : SecretScanningAlert.t :=
  SecretScanningAlert.mk (SecretScanningAlert.number a) (SecretScanningAlert.secret_type a) (SecretScanningAlert.state a)
    (SecretScanningAlert.created_at a) (SecretScanningAlert.html_url a) (SecretScanningAlert.resolution a)
    ((λ _, "") <$> SecretScanningAlert.secret_fingerprint a).

Definition erase_answer (s : SecretScanningAlerts.t) : SecretScanningAlerts.t :=
  match s with
  | SecretScanningAlerts.Known r states alerts at_ => SecretScanningAlerts.Known r states (map erase alerts) at_
  | SecretScanningAlerts.Unknown _ _ _ => s
  end.

Definition erase_page (p : PageOutcome.t) : PageOutcome.t :=
  match p with PageOutcome.Done alerts => PageOutcome.Done (map erase alerts) | PageOutcome.Failed _ => p end.

Definition rmap {A B E} (f : A → B) (r : result A E) : result B E :=
  match r with Ok v => Ok (f v) | Err e => Err e end.

(** Two servers whose answers differ at most in the secrets of the alerts. *)
Record same_but_secrets (A1 A2 : GitHubApi) : Prop := {
  same_headers : @parse_header_value A1 = @parse_header_value A2;
  same_dates : @parse_rfc3339 A1 = @parse_rfc3339 A2;
  same_status_text : @status_text A1 = @status_text A2;
  same_now : @observed_now A1 = @observed_now A2;
  same_answers : ∀ h r,
    match @send A1 h r, @send A2 h r with
    | Ok r1, Ok r2 =>
        Response.status r1 = Response.status r2
        ∧ match Response.bytes r1, Response.bytes r2 with
          | Ok b1, Ok b2 => page_alike (@from_slice A1 b1) (@from_slice A2 b2)
          | Err e1, Err e2 => e1 = e2
          | _, _ => False
          end
    | Err e1, Err e2 => e1 = e2
    | _, _ => False
    end
}.

Lemma remove_alike m m' : Forall2 field_alike m m' → Value.remove "secret" m = Value.remove "secret" m'.
Proof.
  induction 1 as [|a b m m' Hab _ IH]; [done|]. unfold Value.remove in *. cbn [List.filter].
  destruct Hab as [->|(Ha & Hb & _)]; [by rewrite IH|]. by rewrite Ha, Hb.
Qed.

Lemma secret_alike m m' : Forall2 field_alike m m' →
  is_Some (str_field "secret" m) ↔ is_Some (str_field "secret" m').
Proof.
  unfold str_field. induction 1 as [|[k v] [k' v'] m m' Hab _ IH]; [done|]. cbn [Value.lookup].
  destruct Hab as [[= -> ->]|(Ha & Hb & s & t & Hs & Ht)]; [by case_bool_decide|]. cbn in *. subst.
  cbn. split; intros _; by eexists.
Qed.

Lemma erase_fmap (f g : string → string) (x y : option string) :
  (is_Some x ↔ is_Some y) → (λ _ : string, "") <$> (f <$> x) = (λ _ : string, "") <$> (g <$> y).
Proof.
  intros Hxy. destruct x as [s|], y as [t|]; try done; exfalso.
  - destruct (proj1 Hxy) as [? [=]]. by eexists.
  - destruct (proj2 Hxy) as [? [=]]. by eexists.
Qed.

Section hidden.
Context (A1 A2 : GitHubApi) (Hsame : same_but_secrets A1 A2).
Context (sha256 : list N → list N) (hex_encode : list N → string) (client : GitHubClient.t) (repo : RepoId.t) (key : list N).

Lemma parse_alert_hides m m' : Forall2 field_alike m m' →
  rmap erase (@parse_alert A1 sha256 hex_encode key m) = rmap erase (@parse_alert A2 sha256 hex_encode key m').
Proof.
  intros Hm. unfold parse_alert. rewrite <-(remove_alike _ _ Hm), (same_dates _ _ Hsame).
  destruct (ok_or _ _) as [n|e]; [|done]. cbn [rbind rmap]. unfold erase. cbn. do 2 f_equal.
  by apply erase_fmap, secret_alike.
Qed.

Lemma parse_alerts_hides l l' : Forall2 (Forall2 field_alike) l l' →
  rmap (map erase) (@parse_alerts A1 sha256 hex_encode key l)
  = rmap (map erase) (@parse_alerts A2 sha256 hex_encode key l').
Proof.
  induction 1 as [|m m' l l' Hm _ IH]; [done|]. cbn [parse_alerts]. pose proof (parse_alert_hides m m' Hm) as Ha.
  destruct (@parse_alert A1 sha256 hex_encode key m) as [a|e], (@parse_alert A2 sha256 hex_encode key m') as [a'|e'];
    try done; cbn [rbind]; [|by injection Ha as ->].
  assert (erase a = erase a') as Ha' by (cbn [rmap] in Ha; congruence). destruct (@parse_alerts A1 _ _ _ _) as [r|e], (@parse_alerts A2 _ _ _ _) as [r'|e'];
    try done; cbn [rbind rmap] in *. injection IH as IH. cbn [map]. by rewrite IH, Ha'.
Qed.

Lemma objects_alike v w : page_alike v w →
  match (v ≫= objects_of), (w ≫= objects_of) with
  | Some l, Some l' => Forall2 (Forall2 field_alike) l l'
  | None, None => True
  | _, _ => False
  end.
Proof.
  assert (∀ v : Value.t, field_alike (("", v)) ("", v)) as _ by (intros; by left).
  assert (∀ l : list (string * Value.t), Forall2 field_alike l l) as Hrefl.
  { induction l; constructor; [by left|done]. }
  intros H. destruct v as [[| | | |l|]|], w as [[| | | |l'|]|]; cbn in *; try done; try (injection H as <-; done).
  induction H as [|x y l l' Hxy _ IH]; cbn; [constructor|].
  destruct x as [| | | | |m], y as [| | | | |m']; cbn in Hxy; try done; cbn;
    destruct (mapM _ l), (mapM _ l'); try done; cbn; by constructor.
Qed.

Lemma body_hides r1 r2 :
  match Response.bytes r1, Response.bytes r2 with
  | Ok b1, Ok b2 => page_alike (@from_slice A1 b1) (@from_slice A2 b2)
  | Err e1, Err e2 => e1 = e2
  | _, _ => False
  end →
  rmap (map erase) (body (λ bytes, @parse_alert_page A1 sha256 hex_encode bytes key) r1)
  = rmap (map erase) (body (λ bytes, @parse_alert_page A2 sha256 hex_encode bytes key) r2).
Proof.
  unfold body. destruct (Response.bytes r1) as [b1|e1], (Response.bytes r2) as [b2|e2]; try done; [|by intros ->].
  intros Hp%objects_alike. cbn [map_err rbind]. unfold parse_alert_page.
  destruct (@from_slice A1 b1 ≫= objects_of) as [l|], (@from_slice A2 b2 ≫= objects_of) as [l'|]; try done.
  cbn [ok_or rbind]. apply parse_alerts_hides in Hp.
  destruct (@parse_alerts A1 _ _ _ _), (@parse_alerts A2 _ _ _ _); try done; cbn in *; by injection Hp as ->.
Qed.

Lemma get_hides url h :
  (@get A1 client url h).2 = (@get A2 client url h).2
  ∧ match (@get A1 client url h).1, (@get A2 client url h).1 with
    | Ok r1, Ok r2 =>
        Response.status r1 = Response.status r2
        ∧ match Response.bytes r1, Response.bytes r2 with
          | Ok b1, Ok b2 => page_alike (@from_slice A1 b1) (@from_slice A2 b2)
          | Err e1, Err e2 => e1 = e2
          | _, _ => False
          end
    | Err e1, Err e2 => e1 = e2
    | _, _ => False
    end.
Proof.
  unfold get. assert (@base_headers A1 client = @base_headers A2 client) as ->
    by (unfold base_headers; by rewrite (same_headers _ _ Hsame)).
  destruct (@base_headers A2 client) as [headers|]; [|done]. cbn. split; [done|].
  pose proof (same_answers _ _ Hsame h (Request.mk url headers)) as Ha.
  destruct (@send A1 h _) as [r1|e1], (@send A2 h _) as [r2|e2]; try done. cbn. by subst.
Qed.

Lemma fetch_hides fuel state page c1 c2 h :
  map erase c1 = map erase c2 →
  (@fetch_pages A1 sha256 hex_encode fuel client repo state key page c1 h).2
  = (@fetch_pages A2 sha256 hex_encode fuel client repo state key page c2 h).2
  ∧ rmap erase_page (@fetch_pages A1 sha256 hex_encode fuel client repo state key page c1 h).1
    = rmap erase_page (@fetch_pages A2 sha256 hex_encode fuel client repo state key page c2 h).1.
Proof.
  revert page c1 c2 h. induction fuel as [|fuel IH]; intros page c1 c2 h Hc; [done|]. cbn [fetch_pages].
  unfold gbind at 1 3 5 7. destruct (get_hides (alerts_url client repo state page) h) as [Hh Hr].
  destruct (@get A1 client _ h) as [[r1|e1] h1], (@get A2 client _ h) as [[r2|e2] h2]; cbn in Hh, Hr; try done; subst; [|done].
  destruct Hr as [Hst Hb%body_hides]. unfold Response.is_success. rewrite Hst.
  destruct (_ && _)%N; cbn [negb]; [|done]. unfold gbind, glift.
  destruct (body _ r1) as [a1|e1], (body _ r2) as [a2|e2]; try done; cbn in Hb; [|by injection Hb as ->].
  injection Hb as Hb. assert (length a1 = length a2) as -> by (apply (f_equal length) in Hb; by rewrite !length_map in Hb).
  destruct (length a2 <? 100); [cbn; by rewrite !map_app, Hc, Hb|]. apply IH. by rewrite !map_app, Hc, Hb.
Qed.

Lemma query_hides fuel c1 c2 queried states h :
  map erase c1 = map erase c2 →
  (@query_states A1 sha256 hex_encode fuel client repo key c1 queried states h).2
  = (@query_states A2 sha256 hex_encode fuel client repo key c2 queried states h).2
  ∧ rmap erase_answer (@query_states A1 sha256 hex_encode fuel client repo key c1 queried states h).1
    = rmap erase_answer (@query_states A2 sha256 hex_encode fuel client repo key c2 queried states h).1.
Proof.
  revert c1 c2 queried h. induction states as [|state states IH]; intros c1 c2 queried h Hc; cbn [query_states].
  { cbn. by rewrite Hc, (same_now _ _ Hsame). }
  unfold gbind, fetch_alert_state. destruct (fetch_hides fuel state 1 [] [] h eq_refl) as [Hh Ho].
  destruct (@fetch_pages A1 _ _ _ _ _ _ _ _ _ h) as [[o1|e1] h1], (@fetch_pages A2 _ _ _ _ _ _ _ _ _ h) as [[o2|e2] h2];
    cbn in Hh, Ho; try done; subst; [|by injection Ho as ->].
  injection Ho as Ho. destruct o1 as [a1|s1], o2 as [a2|s2]; try done; cbn in Ho.
  - apply IH. injection Ho as Ho. by rewrite !map_app, Hc, Ho.
  - injection Ho as ->. cbn. by rewrite (same_status_text _ _ Hsame).
Qed.
End hidden.

(** The plaintext secrets of the alerts go nowhere.  For two servers whose answers differ
    only in the secrets of the alerts, a query sends the same requests and gives the same
    answer or error, up to the keyed fingerprints of the alerts; in particular no secret is
    in a later request, in a field of an alert or in an error. *)
Theorem alert_secrets_stay_hidden (A1 A2 : GitHubApi) (sha256 : list N → list N) (hex_encode : list N → string)
    (fuel : nat) (client : GitHubClient.t) (repo : RepoId.t) (key : list N) (h : list Request.t) :
  same_but_secrets A1 A2 →
  (@secret_scanning_alerts A1 sha256 hex_encode fuel client repo key h).2
  = (@secret_scanning_alerts A2 sha256 hex_encode fuel client repo key h).2
  ∧ rmap erase_answer (@secret_scanning_alerts A1 sha256 hex_encode fuel client repo key h).1
    = rmap erase_answer (@secret_scanning_alerts A2 sha256 hex_encode fuel client repo key h).1.
Proof. intros Hsame. by apply query_hides. Qed.

(** An alert is correlated with a value by the secret that GitHub reported, and by nothing
    else.  When the keyed fingerprint does not collide, the alert that the parser made of an
    entry matches a value exactly when the entry has that value as its secret; an entry
    without a secret matches no value. *)
Theorem alert_matches_only_its_secret `{GA : GitHubApi} (sha256 : list N → list N) (hex_encode : list N → string)
    (key : list N) (entry : list (string * Value.t)) (alert : SecretScanningAlert.t) (value : string) :
  (∀ s t, transient_fingerprint sha256 hex_encode s key = transient_fingerprint sha256 hex_encode t key → s = t) →
  parse_alert sha256 hex_encode key entry = Ok alert →
  matches_value sha256 hex_encode alert value key = true ↔ str_field "secret" entry = Some value.
Proof.
  intros Hinj Hp. unfold parse_alert in Hp. destruct (ok_or _ _) as [n|e]; [|done]. injection Hp as <-.
  unfold matches_value. cbn [SecretScanningAlert.secret_fingerprint].
  destruct (str_field "secret" entry) as [s|]; [|by split]. cbn [fmap option_fmap option_map].
  case_bool_decide as Hl; cbn [negb].
  - rewrite bool_decide_eq_true. split; [intros E%str_bytes_inj; by apply Hinj in E as ->|by intros [= ->]].
  - split; [done|]. intros [= ->]. done.
Qed.

(** ** Witnesses *)

Definition visible (b : N) : bool := ((32 <=? b) && (b <? 127) || (b =? 9))%N.

Definition entry_of (secret : string) : list (string * Value.t) :=
  [("number", Value.Number (Some 42%Z)); ("secret_type", Value.Str "github_pat"); ("secret", Value.Str secret)].

(** A server with one full page and one empty page; the body of a page is its number. *)
Definition two_pages (secret : string) : GitHubApi := {|
  github_token_var := Some "ghp_connector";
  gh_auth_token := Err (IoError.mk true "not found");
  build_client := Ok tt;
  parse_header_value s := if forallb visible (str_bytes s) then Some s else None;
  send h r := Ok (Response.mk 200 (Ok (if str_infix "&page=1" (Request.url r) then [1%N] else [2%N])));
  from_slice b := Some (Value.Array (if bool_decide (b = [1%N]) then repeat (Value.Object (entry_of secret)) 100 else []));
  parse_rfc3339 _ := None;
  status_text n := pretty n;
  observed_now := 1700000000
|}.

Definition sample_client : GitHubClient.t := GitHubClient.mk "ghp_connector" "https://api.github.com".
Definition sample_repo : RepoId.t := RepoId.mk "pealmeida" "sovereign-vault".

Definition sample_headers : list (string * string) := default [] (@base_headers (two_pages "s") sample_client).
Definition sample_page : list SecretScanningAlert.t :=
  match @parse_alert_page (two_pages "s") (λ l, l) str_of_bytes [1%N] [] with Ok l => l | Err _ => [] end.

Lemma sample_pages i p h0 :
  ([sample_page] ++ [[]]) !! i = Some p →
  ∃ response, @send (two_pages "s") h0 (page_request sample_client sample_repo sample_headers "open" (N.of_nat i + 1)) = Ok response
              ∧ Response.is_success response = true
              ∧ body (λ bytes, @parse_alert_page (two_pages "s") (λ l, l) str_of_bytes bytes []) response = Ok p.
Proof.
  destruct i as [|[|i]]; intros Hi; cbn in Hi; [injection Hi as <-|injection Hi as <-|done].
  - exists (Response.mk 200 (Ok [1%N])). split; [vm_compute; reflexivity|]. split; [reflexivity|vm_compute; reflexivity].
  - exists (Response.mk 200 (Ok [2%N])). split; [vm_compute; reflexivity|]. split; [reflexivity|vm_compute; reflexivity].
Qed.

Lemma paging_terminates_witness :
  (@fetch_alert_state (two_pages "s") (λ l, l) str_of_bytes 2 sample_client sample_repo "open" [] []).1
  = Ok (PageOutcome.Done (concat [sample_page] ++ [])).
Proof.
  apply (f_equal fst (paging_terminates (GA := two_pages "s") (λ l, l) str_of_bytes sample_client sample_repo []
                        sample_headers "open" [] [sample_page] [] ltac:(reflexivity) ltac:(constructor; [vm_compute; lia|constructor])
                        ltac:(cbn; lia) ltac:(vm_compute; reflexivity) sample_pages)).
Defined.

Lemma alert_secrets_stay_hidden_witness :
  (@secret_scanning_alerts (two_pages "first") (λ l, l) str_of_bytes 3 sample_client sample_repo [] []).2
  = (@secret_scanning_alerts (two_pages "second") (λ l, l) str_of_bytes 3 sample_client sample_repo [] []).2.
Proof.
  destruct (alert_secrets_stay_hidden (two_pages "first") (two_pages "second") (λ l, l) str_of_bytes 3 sample_client
              sample_repo [] []) as [H _]; [|exact H].
  split; [reflexivity..|]. intros h r. cbn. split; [reflexivity|]. destruct (str_infix "&page=1" (Request.url r)); [|constructor].
  cbn. repeat (constructor; [constructor; [by left|]; constructor; [by left|]; constructor;
    [right; split_and!; [done..|]; by eexists _, _|constructor]|]). constructor.
Defined.

Lemma alert_matches_only_its_secret_witness :
  ∃ alert, @parse_alert (two_pages "s") (λ l, l) str_of_bytes [] (entry_of "ghp_1") = Ok alert
           ∧ (matches_value (λ l, l) str_of_bytes alert "ghp_1" [] = true
              ↔ str_field "secret" (entry_of "ghp_1") = Some "ghp_1").
Proof.
  eexists. split; [reflexivity|].
  apply (alert_matches_only_its_secret (GA := two_pages "s") (λ l, l) str_of_bytes [] (entry_of "ghp_1")).
  - unfold transient_fingerprint. cbn [app]. intros s t. by rewrite !str_of_bytes_bytes.
  - reflexivity.
Defined.

(** A token from the environment is not trimmed: one that ends in a line feed makes the first
    request panic, where the token of the [gh] program would have been used without it. *)
Lemma untrimmed_token_panics :
  let client := GitHubClient.mk (String.append "ghp_connector" (String (Ascii.ascii_of_N 10) "")) "https://api.github.com" in
  @current_visibility (two_pages "s") client sample_repo [] = (Err Panic, []).
Proof. vm_compute. reflexivity. Qed.

(** [RepoId::parse] reads back a trimmed owner and name. *)
Lemma repo_id_round_trip owner name :
  RepoId.trim_str owner = owner → RepoId.trim_str name = name → owner ≠ "" → name ≠ "" →
  str_contains "/" owner = false → str_contains "/" name = false →
  RepoId.parse (owner +:+ String "/" name) = Some (RepoId.mk owner name).
Proof.
  intros Ho Hn Hoe Hne Hos Hns. unfold RepoId.parse.
  assert (split_once "/" (owner +:+ String "/" name) = Some (owner, name)) as ->.
  { clear Ho Hoe. induction owner as [|a owner IH].
    - change ("" +:+ String "/" name) with (String "/" name). cbn. by rewrite decide_True.
    - change (String a owner +:+ String "/" name) with (String a (owner +:+ String "/" name)). cbn [split_once].
      cbn in Hos. apply orb_false_iff in Hos as [Ha Hos]. apply bool_decide_eq_false in Ha.
      rewrite decide_False by done. by rewrite IH. }
  rewrite Ho, Hn, Hos, Hns. by rewrite !bool_decide_eq_false_2.
Qed.
