(* ===== verification/Loopback.v ===== *)
(** * Loopback: who may open a WebSocket

    The handshake check of sv-mcp: the path, the [Host] and the [Origin] of the upgrade
    request.  A header value is [None] when it is not visible ASCII.  The parser of IP addresses
    is the standard library's: IPv4 in dotted decimal without leading zeros, or IPv6 with at
    most one double colon and an optional IPv4 tail. *)
From S2P Require Import Prelude Text Bytes Broker Exposure.

(** ** [IpAddr::from_str] *)

Definition digit_of (radix b : N) : option N :=
  let v := if is_ascii_digit b then Some (b - 48)%N
           else if ((97 <=? b) && (b <=? 102))%N then Some (b - 87)%N
           else if ((65 <=? b) && (b <=? 70))%N then Some (b - 55)%N
           else None in
  d ← v; if (d <? radix)%N then Some d else None.

(** The digits that begin the text: how many, and their value. *)
Fixpoint read_digits (radix : N) (count : nat) (acc : N) (l : list N) : nat * N * list N :=
  match l with
  | [] => (count, acc, [])
  | b :: l' =>
      match digit_of radix b with
      | Some d => read_digits radix (count + 1) (acc * radix + d) l'
      | None => (count, acc, l)
      end
  end.

Definition read_number (radix : N) (max_digits : nat) (max : N) (allow_zero_prefix : bool) (l : list N) :
    option (N * list N) :=
  let has_leading_zero := bool_decide (head l = Some 48%N) in
  let '(count, value, rest) := read_digits radix 0 0 l in
  if max_digits <? count then None
  else if count =? 0 then None
  else if negb allow_zero_prefix && has_leading_zero && (1 <? count) then None
  else if (max <? value)%N then None
  else Some (value, rest).

Definition read_given (b : N) (l : list N) : option (list N) :=
  match l with c :: l' => if (c =? b)%N then Some l' else None | [] => None end.

(** [read_separator]: the separator comes before every part but the first. *)
Definition read_separator {A} (sep : N) (index : nat) (inner : list N → option (A * list N)) (l : list N) :
    option (A * list N) :=
  match index with 0 => inner l | S _ => l ← read_given sep l; inner l end.

Definition read_octet : list N → option (N * list N) := read_number 10 3 255 false.

Definition read_ipv4 (l : list N) : option (N * N * N * N * list N) :=
  '(a, l) ← read_octet l;
  '(b, l) ← read_separator 46 1 read_octet l;
  '(c, l) ← read_separator 46 2 read_octet l;
  '(d, l) ← read_separator 46 3 read_octet l;
  Some (a, b, c, d, l).

(** [read_groups] with [left] of the groups still empty: the groups, whether they end in an
    IPv4 address, and the rest. *)
Fixpoint read_groups (left i : nat) (groups : list N) (l : list N) : list N * bool * list N :=
  match left with
  | 0 => (groups, false, l)
  | S left' =>
      let v4 := if 1 <=? left' then read_separator 58 i (λ l, '(a, b, c, d, r) ← read_ipv4 l; Some ((a, b, c, d), r)) l
                else None in
      match v4 with
      | Some ((a, b, c, d), r) => (groups ++ [a * 256 + b; c * 256 + d]%N, true, r)
      | None =>
          match read_separator 58 i (read_number 16 4 65535 true) l with
          | Some (g, r) => read_groups left' (i + 1) (groups ++ [g]) r
          | None => (groups, false, l)
          end
      end
  end.

Definition v6_of (groups : list N) : IpAddr :=
  let g := λ i, default 0%N (groups !! i) in V6 (g 0) (g 1) (g 2) (g 3) (g 4) (g 5) (g 6) (g 7).

Definition read_ipv6 (l : list N) : option (IpAddr * list N) :=
  let '(head, head_ipv4, l) := read_groups 8 0 [] l in
  if length head =? 8 then Some (v6_of head, l)
  else if head_ipv4 then None
  else
    l ← read_given 58 l;
    l ← read_given 58 l;
    let '(tail, _, l) := read_groups (7 - length head) 0 [] l in
    Some (v6_of (head ++ repeat 0%N (8 - length head - length tail) ++ tail), l).

Definition parse_ip (s : string) : option IpAddr :=
  let l := str_bytes s in
  match read_ipv4 l with
  | Some (a, b, c, d, rest) => if bool_decide (rest = []) then Some (V4 a b c d) else None
  | None =>
      match read_ipv6 l with
      | Some (ip, rest) => if bool_decide (rest = []) then Some ip else None
      | None => None
      end
  end.

(** [IpAddr::is_loopback]. *)
Definition ip_is_loopback (ip : IpAddr) : bool :=
  match ip with
  | V4 a b c d => v4_is_loopback a b c d
  | V6 s0 s1 s2 s3 s4 s5 s6 s7 => bool_decide (V6 s0 s1 s2 s3 s4 s5 s6 s7 = V6 0 0 0 0 0 0 0 1)
  end.

(** [str::parse::<u16>]: a plus sign is allowed. *)
Definition parse_u16 (s : string) : option N :=
  let l := str_bytes s in
  let digits := match l with 43%N :: l' => l' | _ => l end in
  if bool_decide (digits = []) || negb (forallb is_ascii_digit digits) then None
  else
    let v := foldl (λ acc b, acc * 10 + (b - 48))%N 0%N digits in
    if (v <? 65536)%N then Some v else None.

(** [str::rsplit_once]. *)
Fixpoint rsplit_once (c : ascii) (s : string) : option (string * string) :=
  match s with
  | EmptyString => None
  | String a r =>
      match rsplit_once c r with
      | Some (x, y) => Some (String a x, y)
      | None => if decide (a = c) then Some ("", r) else None
      end
  end.

(** ** The handshake *)

Definition host_is_loopback (host : string) : bool :=
  eq_ignore_ascii_case host "localhost" || is_some_and (parse_ip host) ip_is_loopback.

(** The host of an authority; [None] when its brackets or port are malformed. *)
Definition authority_host (authority : string) : option string :=
  match strip_prefix "[" authority with
  | Some rest =>
      match split_once "]" rest with
      | None => None
      | Some (host, suffix) =>
          if bool_decide (suffix = "") then Some host
          else match strip_prefix ":" suffix with
               | Some port => if bool_decide (is_Some (parse_u16 port)) then Some host else None
               | None => None
               end
      end
  | None =>
      match rsplit_once ":" authority with
      | Some (host, port) => if bool_decide (is_Some (parse_u16 port)) then Some host else None
      | None => Some authority
      end
  end.

Definition authority_is_loopback (authority : string) : bool := is_some_and (authority_host authority) host_is_loopback.

Definition origin_is_loopback (origin : string) : bool :=
  let authority := match strip_prefix "http://" origin with
                   | Some a => Some a
                   | None => strip_prefix "https://" origin
                   end in
  match authority with
  | None => false
  | Some authority =>
      negb (str_contains "/" authority || str_contains "?" authority || str_contains "#" authority)
      && authority_is_loopback authority
  end.

Module WsRequest.
Record t := mk { path : string; hosts : list (option string); origins : list (option string) }.
End WsRequest.

Definition ws_request_has_safe_origin (request : WsRequest.t) : bool :=
  match WsRequest.hosts request with
  | Some host :: hosts =>
      if negb (bool_decide (hosts = [])) || negb (authority_is_loopback host) then false
      else
        match WsRequest.origins request with
        | [] => true
        | origin :: origins =>
            let valid := is_some_and origin origin_is_loopback in
            valid && bool_decide (origins = [])
        end
  | _ => false
  end.

(** [Ok] keeps the response; [Err] is the status of the refusal. *)
Definition validate_ws_handshake (request : WsRequest.t) : result unit N :=
  if negb (bool_decide (WsRequest.path request = "/")) || negb (ws_request_has_safe_origin request)
  then Err 403%N else Ok tt.

(** ** What is let in *)

(** A port that may follow a host. *)
Definition port_suffix (s : string) : Prop := s = "" ∨ ∃ port, s = String ":" port ∧ is_Some (parse_u16 port).

Lemma parse_u16_no_colon s : is_Some (parse_u16 s) → str_contains ":" s = false.
Proof.
  unfold parse_u16. assert (∀ t, forallb is_ascii_digit (str_bytes t) = true → str_contains ":" t = false) as Hd.
  { induction t as [|a t IH]; [done|]. cbn. intros [Ha Ht]%andb_true_iff. apply orb_false_iff. split; [|by apply IH].
    apply bool_decide_eq_false. intros ->. done. }
  destruct s as [|a s]; [intros [? [=]]|]. cbn [str_bytes].
  destruct (decide (Ascii.N_of_ascii a = 43%N)) as [Ha|Ha].
  - rewrite Ha. destruct (_ || _) eqn:E; [intros [? [=]]|]. apply orb_false_iff in E as [_ E%negb_false_iff]. intros _.
    cbn. rewrite (Hd s E), orb_false_r. apply bool_decide_eq_false. intros ->. done.
  - replace (match Ascii.N_of_ascii a with 43%N => str_bytes s | _ => Ascii.N_of_ascii a :: str_bytes s end)
      with (str_bytes (String a s)) by (cbn; repeat (case_match; try done)).
    destruct (_ || _) eqn:E; [intros [? [=]]|]. apply orb_false_iff in E as [_ E%negb_false_iff]. intros _. by apply Hd.
Qed.

Lemma split_once_Some c s x y : split_once c s = Some (x, y) ↔ s = x +:+ String c y ∧ str_contains c x = false.
Proof.
  revert x. induction s as [|a s IH]; intros x; cbn [split_once].
  { split; [done|]. intros [H _]. by destruct x. }
  destruct (decide (a = c)) as [->|Hne].
  - split; [by intros [= <- <-]|]. intros [H Hx]. destruct x as [|b x].
    + change ("" +:+ String c y) with (String c y) in H. by injection H as ->.
    + change (String b x +:+ String c y) with (String b (x +:+ String c y)) in H. injection H as <- _. cbn in Hx.
      by rewrite bool_decide_eq_true_2 in Hx.
  - destruct (split_once c s) as [[u v]|].
    + split.
      * intros [= <- <-]. destruct (proj1 (IH u) eq_refl) as [-> Hu]. split; [done|]. cbn.
        by rewrite bool_decide_eq_false_2.
      * intros [H Hx]. destruct x as [|b x]; [by injection H|].
        change (String b x +:+ String c y) with (String b (x +:+ String c y)) in H. injection H as -> H.
        cbn in Hx. apply orb_false_iff in Hx as [_ Hx]. pose proof (proj2 (IH x) (conj H Hx)) as E. by injection E as -> ->.
    + split; [done|]. intros [H Hx]. destruct x as [|b x]; [by injection H|].
      change (String b x +:+ String c y) with (String b (x +:+ String c y)) in H. injection H as -> H.
      cbn in Hx. apply orb_false_iff in Hx as [_ Hx]. by discriminate (proj2 (IH x) (conj H Hx)).
Qed.

Lemma rsplit_once_spec c s :
  match rsplit_once c s with
  | Some (x, y) => s = x +:+ String c y ∧ str_contains c y = false
  | None => str_contains c s = false
  end.
Proof.
  induction s as [|a s IH]; cbn; [done|]. destruct (rsplit_once c s) as [[x y]|]; [by destruct IH as [-> ?]|].
  destruct (decide (a = c)) as [->|]; [done|]. by rewrite IH, orb_false_r, bool_decide_eq_false_2.
Qed.

Lemma rsplit_once_Some c x y : str_contains c y = false → rsplit_once c (x +:+ String c y) = Some (x, y).
Proof.
  intros Hy. induction x as [|b x IH].
  - change ("" +:+ String c y) with (String c y). cbn. pose proof (rsplit_once_spec c y) as H.
    destruct (rsplit_once c y) as [[u v]|]; [|by rewrite decide_True].
    destruct H as [-> _]. rewrite str_contains_app in Hy. cbn in Hy. rewrite bool_decide_eq_true_2 in Hy by done.
    by rewrite orb_true_r in Hy.
  - change (String b x +:+ String c y) with (String b (x +:+ String c y)). cbn. by rewrite IH.
Qed.

(** The authorities of a host: plain or in brackets, with or without a port. *)
Lemma authority_host_spec a h :
  authority_host a = Some h ↔
  (∃ suffix, a = "[" +:+ (h +:+ String "]" suffix) ∧ str_contains "]" h = false ∧ port_suffix suffix)
  ∨ (strip_prefix "[" a = None
     ∧ ((a = h ∧ str_contains ":" h = false) ∨ ∃ port, a = h +:+ String ":" port ∧ is_Some (parse_u16 port))).
Proof.
  unfold authority_host, port_suffix. destruct (strip_prefix "[" a) as [rest|] eqn:Hb.
  - apply strip_prefix_Some in Hb as ->. split.
    + destruct (split_once "]" rest) as [[host suffix]|] eqn:Hs; [|done]. apply split_once_Some in Hs as [-> Hn].
      case_bool_decide as He; [intros [= <-]; left; exists suffix; split_and!; [done|done|by left]|].
      destruct (strip_prefix ":" suffix) as [port|] eqn:Hp; [|done]. apply strip_prefix_Some in Hp as ->.
      case_bool_decide; [|done]. intros [= <-]. left. eexists. split_and!; [done|done|]. right. by exists port.
    + intros [(suffix & Heq & Hn & Hp)|[[=] _]].
      assert (rest = h +:+ String "]" suffix) as -> by by injection Heq.
      rewrite (proj2 (split_once_Some "]" _ h suffix)) by done.
      destruct Hp as [->|(port & -> & Hp)]; [done|]. rewrite bool_decide_eq_false_2 by done.
      change (String ":" port) with (":" +:+ port). rewrite strip_prefix_app. by rewrite bool_decide_eq_true_2.
  - split.
    + intros H. right. split; [done|]. pose proof (rsplit_once_spec ":" a) as Hr.
      destruct (rsplit_once ":" a) as [[host port]|]; [|injection H as <-; by left].
      case_bool_decide; [|done]. injection H as <-. destruct Hr as [-> _]. right. by exists port.
    + intros [(suffix & -> & _)|[_ H]]; [by rewrite strip_prefix_app in Hb|].
      destruct H as [[-> Hn]|(port & -> & Hp)].
      * pose proof (rsplit_once_spec ":" h) as Hr. destruct (rsplit_once ":" h) as [[x y]|]; [|done].
        destruct Hr as [-> _]. rewrite str_contains_app in Hn. cbn in Hn. by rewrite orb_true_r in Hn.
      * rewrite rsplit_once_Some by by apply parse_u16_no_colon. by rewrite bool_decide_eq_true_2.
Qed.

(** A host that names this machine: [localhost] in any case, or a loopback address. *)
Definition local_host (h : string) : Prop :=
  str_lower h = "localhost" ∨ ∃ ip, parse_ip h = Some ip ∧ ip_is_loopback ip = true.

Lemma host_is_loopback_spec h : host_is_loopback h = true ↔ local_host h.
Proof.
  unfold host_is_loopback, local_host, eq_ignore_ascii_case. rewrite orb_true_iff, bool_decide_eq_true.
  change (str_lower "localhost") with "localhost". destruct (parse_ip h) as [ip|]; cbn; [|naive_solver]. naive_solver.
Qed.

Lemma authority_is_loopback_spec a :
  authority_is_loopback a = true ↔ ∃ h, authority_host a = Some h ∧ local_host h.
Proof.
  unfold authority_is_loopback. destruct (authority_host a) as [h|]; cbn; [|naive_solver].
  rewrite host_is_loopback_spec. naive_solver.
Qed.

(** A web origin on this machine: a scheme and an authority, nothing more. *)
Definition local_origin (o : string) : Prop :=
  ∃ scheme a h, o = scheme +:+ a ∧ scheme ∈ ["http://"; "https://"] ∧ authority_host a = Some h ∧ local_host h
                ∧ str_contains "/" a = false ∧ str_contains "?" a = false ∧ str_contains "#" a = false.

Lemma origin_is_loopback_spec o : origin_is_loopback o = true ↔ local_origin o.
Proof.
  unfold origin_is_loopback, local_origin. split.
  - assert (∀ scheme a, o = scheme +:+ a → scheme ∈ ["http://"; "https://"] →
      negb (str_contains "/" a || str_contains "?" a || str_contains "#" a) && authority_is_loopback a = true →
      local_origin o) as Hgo.
    { intros scheme a Ho Hs [Hn Ha]%andb_true_iff. apply negb_true_iff in Hn. rewrite !orb_false_iff in Hn.
      apply authority_is_loopback_spec in Ha as (h & ? & ?). exists scheme, a, h. naive_solver. }
    destruct (strip_prefix "http://" o) as [a|] eqn:H1.
    { apply strip_prefix_Some in H1. apply (Hgo _ _ H1). by left. }
    destruct (strip_prefix "https://" o) as [a|] eqn:H2; [|done].
    apply strip_prefix_Some in H2. apply (Hgo _ _ H2). by right; left.
  - intros (scheme & a & h & -> & Hs & Ha & Hh & N1 & N2 & N3).
    assert (authority_is_loopback a = true) as Hl by (apply authority_is_loopback_spec; by exists h).
    apply elem_of_cons in Hs as [->|Hs%list_elem_of_singleton]; [|subst scheme].
    + by rewrite strip_prefix_app, N1, N2, N3, Hl.
    + assert (strip_prefix "http://" ("https://" +:+ a) = None) as -> by reflexivity.
      by rewrite strip_prefix_app, N1, N2, N3, Hl.
Qed.

(** Only programs and pages of this machine may open a WebSocket.  The handshake succeeds
    exactly when the path is the root, there is one [Host] header and its host is [localhost]
    or a loopback address, and there is either no [Origin] header or exactly one, an http or
    https origin without a path whose host is [localhost] or a loopback address; so a page
    of another site, a name that is rebound to this machine, and a repeated header are all
    refused with status 403. *)
Theorem handshake_is_local request :
  (validate_ws_handshake request = Ok tt ↔
     WsRequest.path request = "/"
     ∧ (∃ a h, WsRequest.hosts request = [Some a] ∧ authority_host a = Some h ∧ local_host h)
     ∧ (WsRequest.origins request = [] ∨ ∃ o, WsRequest.origins request = [Some o] ∧ local_origin o))
  ∧ (validate_ws_handshake request ≠ Ok tt → validate_ws_handshake request = Err 403%N).
Proof.
  unfold validate_ws_handshake. split; [|by destruct (_ || _)].
  assert (ws_request_has_safe_origin request = true ↔
    (∃ a h, WsRequest.hosts request = [Some a] ∧ authority_host a = Some h ∧ local_host h)
    ∧ (WsRequest.origins request = [] ∨ ∃ o, WsRequest.origins request = [Some o] ∧ local_origin o)) as <-.
  { unfold ws_request_has_safe_origin.
    destruct (WsRequest.hosts request) as [|[a|] hosts]; [naive_solver| |naive_solver].
    case_bool_decide as Hh; cbn [negb orb]; [|naive_solver]. subst hosts.
    destruct (authority_is_loopback a) eqn:Ha; cbn [negb].
    - apply authority_is_loopback_spec in Ha as (h & ? & ?).
      destruct (WsRequest.origins request) as [|o os]; [naive_solver|]. rewrite andb_true_iff, bool_decide_eq_true.
      split.
      + intros [Ho ->]. destruct o as [o|]; [|done]. apply origin_is_loopback_spec in Ho. naive_solver.
      + intros [_ [?|(o' & [= -> ->] & Ho)]]; [done|]. by apply origin_is_loopback_spec in Ho.
    - split; [done|]. intros [(a' & h & [= ->] & Hh) _].
      assert (authority_is_loopback a' = true) by (apply authority_is_loopback_spec; naive_solver). congruence. }
  case_bool_decide; cbn [negb orb]; [|naive_solver]. destruct (ws_request_has_safe_origin request); cbn; naive_solver.
Qed.

(** Forms of an address, and what is refused. *)
Example loopback_forms :
  map authority_is_loopback
    ["localhost"; "LOCALHOST:9944"; "127.0.0.1:9944"; "127.1.2.3"; "[::1]:9944"; "[0:0:0:0:0:0:0:1]"; "[::0.0.0.1]";
     "evil.example"; "127.0.0.1.evil.example"; "localhost:99999"; "localhost:"; "[::1]x"; "0127.0.0.1"; "[::ffff:127.0.0.1]"]
  = [true; true; true; true; true; true; true; false; false; false; false; false; false; false].
Proof. vm_compute. reflexivity. Qed.
