(* ===== verification/Scopes.v ===== *)
(** * Scopes: what an authenticated agent may do

    sv-mcp's actions, scopes and glob matcher.  A scope names containers by a glob, actions, and
    possibly the strongest mode it covers; [enforce_scopes] decides a request. *)
From S2P Require Import Prelude AuditTypes Text Fs Crypto Storage.

Module AccessTransport.
Inductive t := McpStdio | McpWs.
#[global] Instance t_eq_dec : EqDecision t.
Proof. solve_decision. Defined.
Definition as_str (self : t) : string := match self with McpStdio => "mcp-stdio" | McpWs => "mcp-ws" end.
End AccessTransport.

Module AccessAction.
Inductive t :=
| ListContainers | ListFiles | ReadFile | WriteFile | DeleteFile | CreateContainer | CreateTransitKey
| ListTransitKeys | Encrypt | Decrypt | CreateSigningKey | ListSigningKeys | Sign | Verify
| CreateBrokerSecret | ListBrokerSecrets | Broker | DestroyContainer | VaultInfo | ExportAgents | ImportAgents.
#[global] Instance t_eq_dec : EqDecision t.
Proof. solve_decision. Defined.

(** [#[derive(Debug)]]. *)
Definition debug (self : t) : string :=
  match self with
  | ListContainers => "ListContainers" | ListFiles => "ListFiles" | ReadFile => "ReadFile"
  | WriteFile => "WriteFile" | DeleteFile => "DeleteFile" | CreateContainer => "CreateContainer"
  | CreateTransitKey => "CreateTransitKey" | ListTransitKeys => "ListTransitKeys" | Encrypt => "Encrypt"
  | Decrypt => "Decrypt" | CreateSigningKey => "CreateSigningKey" | ListSigningKeys => "ListSigningKeys"
  | Sign => "Sign" | Verify => "Verify" | CreateBrokerSecret => "CreateBrokerSecret"
  | ListBrokerSecrets => "ListBrokerSecrets" | Broker => "Broker" | DestroyContainer => "DestroyContainer"
  | VaultInfo => "VaultInfo" | ExportAgents => "ExportAgents" | ImportAgents => "ImportAgents"
  end.

(** The action names of the [match]; several may stand for one action. *)
Definition scope_names : list (string * t) :=
  [("list", ListContainers); ("list_containers", ListContainers); ("list_files", ListFiles);
   ("read", ReadFile); ("read_file", ReadFile); ("write", WriteFile); ("write_file", WriteFile);
   ("delete", DeleteFile); ("delete_file", DeleteFile); ("create_container", CreateContainer);
   ("destroy", DestroyContainer); ("destroy_container", DestroyContainer); ("create_transit_key", CreateTransitKey);
   ("list_transit_keys", ListTransitKeys); ("encrypt", Encrypt); ("decrypt", Decrypt);
   ("create_signing_key", CreateSigningKey); ("list_signing_keys", ListSigningKeys); ("sign", Sign);
   ("verify", Verify); ("create_broker_secret", CreateBrokerSecret); ("list_broker_secrets", ListBrokerSecrets);
   ("broker", Broker); ("broker_request", Broker); ("vault_info", VaultInfo); ("info", VaultInfo);
   ("export_agents", ExportAgents); ("import_agents", ImportAgents)].

Definition parse_scope_action (action : string) : result t string :=
  match List.find (λ na, bool_decide (na.1 = action)) scope_names with
  | Some (_, a) => Ok a
  | None => Err ("unknown agent scope action: " +:+ action)
  end.

Definition audit_action (self : t) : AuditAction.t :=
  match self with
  | ListContainers => AuditAction.ListContainers
  | ListFiles => AuditAction.ListFiles
  | ReadFile => AuditAction.ReadFile
  | WriteFile => AuditAction.WriteFile
  | DeleteFile => AuditAction.DeleteFile
  | CreateContainer => AuditAction.CreateContainer
  | CreateTransitKey => AuditAction.CreateTransitKey
  | ListTransitKeys => AuditAction.ListTransitKeys
  | Encrypt => AuditAction.Encrypt
  | Decrypt => AuditAction.Decrypt
  | CreateSigningKey => AuditAction.CreateSigningKey
  | ListSigningKeys => AuditAction.ListSigningKeys
  | Sign => AuditAction.Sign
  | Verify => AuditAction.Verify
  | CreateBrokerSecret => AuditAction.CreateBrokerSecret
  | ListBrokerSecrets => AuditAction.ListBrokerSecrets
  | Broker => AuditAction.Broker
  | DestroyContainer => AuditAction.DeleteContainer
  | VaultInfo => AuditAction.VaultInfo
  | ExportAgents => AuditAction.AgentExport
  | ImportAgents => AuditAction.AgentImport
  end.
End AccessAction.

(** The scope as persisted or imported. *)
Module AgentScope.
Record t := mk { container_glob : string; actions : list string; mode_ceiling : option string }.
#[global] Instance t_eq_dec : EqDecision t.
Proof. solve_decision. Defined.
End AgentScope.

Module ResolvedScope.
Record t := mk { container_glob : string; actions : list AccessAction.t; mode_ceiling : option SecurityMode.t }.
End ResolvedScope.

Module ResolvedAgent.
Record t := mk { agent_id : string; scopes : list ResolvedScope.t }.
End ResolvedAgent.

Module ImportApprovalAgent.
Record t := mk { name : string; scopes : list AgentScope.t }.
End ImportApprovalAgent.

Module ImportApprovalSummary.
Record t := mk { mode : string; agent_count : nat; agents : list ImportApprovalAgent.t }.
End ImportApprovalSummary.

Module AccessRequest.
Record t := mk {
  transport : AccessTransport.t;
  action : AccessAction.t;
  container : option string;
  file_name : option string;
  mode : option SecurityMode.t;
  byte_size : option nat;
  agent_id : option string;
  otp : option string;
  authorization_context : string;
  import_summary : option ImportApprovalSummary.t
}.
Definition with_agent (r : t) (agent_id : option string) : t :=
  mk (transport r) (action r) (container r) (file_name r) (mode r) (byte_size r) agent_id (otp r)
    (authorization_context r) (import_summary r).
Definition with_summary (r : t) (s : ImportApprovalSummary.t) : t :=
  mk (transport r) (action r) (container r) (file_name r) (mode r) (byte_size r) (agent_id r) (otp r)
    (authorization_context r) (Some s).
End AccessRequest.

(** ** Validation of scopes *)

Definition glob_char (c : char) : bool :=
  is_ascii_alphanumeric c || bool_decide (c ∈ [ch "-"; ch "_"; ch "*"; ch "/"]).

Definition validate_scope_glob (glob : string) : result unit string :=
  if bool_decide (glob = "") then Err "agent scope.container_glob must not be empty"
  else if (128 <? String.length glob) || starts_with glob "/" || ends_with glob "/"
          || existsb (λ part, bool_decide (part = "")) (split_on "/" glob)
          || negb (forallb glob_char (chars glob))
  then Err ("invalid agent scope.container_glob: " +:+ debug_str glob)
  else Ok tt.

(** The text of an error of [SecurityMode::parse], which is always a [Manifest]. *)
Definition parse_error (e : StorageError.t) : string :=
  match e with StorageError.Manifest m => "Manifest: " +:+ m | _ => "" end.

Definition invalid_ceiling (mode : string) (error : StorageError.t) : string :=
  "invalid agent scope mode_ceiling " +:+ (debug_str mode +:+ (": " +:+ parse_error error)).

Definition parse_ceiling (mode : string) : result SecurityMode.t string :=
  match SecurityMode.parse mode with Ok m => Ok m | Err e => Err (invalid_ceiling mode e) end.

Fixpoint parse_actions (actions : list string) : result (list AccessAction.t) string :=
  match actions with
  | [] => Ok []
  | a :: actions' =>
      let? a := AccessAction.parse_scope_action a in
      let? rest := parse_actions actions' in
      Ok (a :: rest)
  end.

Definition validate_agent_scope (scope : AgentScope.t) : result unit string :=
  let? _ := validate_scope_glob (AgentScope.container_glob scope) in
  if bool_decide (AgentScope.actions scope = []) then Err "agent scope.actions must contain at least one action"
  else
    let? _ := try_for_each (λ a, let? _ := AccessAction.parse_scope_action a in Ok tt) (AgentScope.actions scope) in
    match AgentScope.mode_ceiling scope with
    | Some mode => let? _ := parse_ceiling mode in Ok tt
    | None => Ok tt
    end.

Definition resolve (self : AgentScope.t) : result ResolvedScope.t string :=
  let? _ := validate_agent_scope self in
  let? actions := parse_actions (AgentScope.actions self) in
  let? ceiling := match AgentScope.mode_ceiling self with
                  | Some mode => let? m := parse_ceiling mode in Ok (Some m)
                  | None => Ok None
                  end in
  Ok (ResolvedScope.mk (AgentScope.container_glob self) actions ceiling).

(** ** Globs *)

Definition star : char := ch "*".
Definition slash : char := ch "/".

Fixpoint glob_inner (p : list char) : list char → bool :=
  match p with
  | [] => λ v, bool_decide (v = [])
  | c :: p1 =>
      let any (double : bool) (rest : list char → bool) :=
        fix any (v : list char) : bool :=
          rest v || match v with
                    | [] => false
                    | x :: v' => if negb double && bool_decide (x = slash) then false else any v'
                    end in
      if bool_decide (c = star) then
        match p1 with
        | c' :: p2 => if bool_decide (c' = star) then any true (glob_inner p2) else any false (glob_inner p1)
        | [] => any false (glob_inner p1)
        end
      else λ v, match v with
                | x :: v' => if bool_decide (c = x) then glob_inner p1 v' else false
                | [] => false
                end
  end.

Definition glob_match (pattern value : string) : bool := glob_inner (chars pattern) (chars value).

(** ** Enforcement *)

Definition mode_rank (mode : SecurityMode.t) : nat :=
  match mode with
  | SecurityMode.Direct => 0
  | SecurityMode.Approval => 1
  | SecurityMode.Otp => 2
  | SecurityMode.Anonymized => 3
  | SecurityMode.Zkp => 4
  | SecurityMode.Native => 5
  end.

(** The actions without a container that a scope may grant. *)
Definition grantable_without_container (a : AccessAction.t) : bool :=
  match a with
  | AccessAction.Verify | AccessAction.CreateTransitKey | AccessAction.ListTransitKeys | AccessAction.Encrypt
  | AccessAction.Decrypt | AccessAction.CreateSigningKey | AccessAction.ListSigningKeys | AccessAction.Sign
  | AccessAction.CreateBrokerSecret | AccessAction.ListBrokerSecrets | AccessAction.Broker => true
  | _ => false
  end.

Definition not_scoped (agent : ResolvedAgent.t) (action : AccessAction.t) : string :=
  "agent " +:+ (ResolvedAgent.agent_id agent +:+ (" is not scoped for " +:+ AccessAction.debug action)).

(** The scopes in order, for a request that names a container. *)
Fixpoint enforce_container (agent : ResolvedAgent.t) (request : AccessRequest.t) (container : string)
    (scopes : list ResolvedScope.t) : result unit string :=
  match scopes with
  | [] => Err (not_scoped agent (AccessRequest.action request) +:+ (" on container " +:+ container))
  | scope :: scopes' =>
      if negb (glob_match (ResolvedScope.container_glob scope) container) then
        enforce_container agent request container scopes'
      else if negb (bool_decide (AccessRequest.action request ∈ ResolvedScope.actions scope)) then
        enforce_container agent request container scopes'
      else match ResolvedScope.mode_ceiling scope, AccessRequest.mode request with
           | Some ceiling, Some mode =>
               if mode_rank ceiling <? mode_rank mode
               then Err ("agent scope mode_ceiling " +:+ (SecurityMode.as_str ceiling +:+
                         (" cannot widen container mode " +:+ SecurityMode.as_str mode)))
               else Ok tt
           | _, _ => Ok tt
           end
  end.

Definition enforce_scopes (agent : ResolvedAgent.t) (request : AccessRequest.t) : result unit string :=
  if bool_decide (ResolvedAgent.scopes agent = []) then Ok tt
  else match AccessRequest.container request with
       | None =>
           if bool_decide (AccessRequest.action request = AccessAction.ListContainers) then
             Err ("agent " +:+ (ResolvedAgent.agent_id agent +:+ " may not enumerate all containers"))
           else if grantable_without_container (AccessRequest.action request) then
             if existsb (λ s, bool_decide (AccessRequest.action request ∈ ResolvedScope.actions s))
                  (ResolvedAgent.scopes agent)
             then Ok tt else Err (not_scoped agent (AccessRequest.action request))
           else Err (not_scoped agent (AccessRequest.action request))
       | Some container => enforce_container agent request container (ResolvedAgent.scopes agent)
       end.

(** * Scopes can only narrow *)
(** ** Globs *)

(** What a pattern matches: [**] any text, [*] any text without a slash, and every other
    character itself. *)
Inductive glob_matches : list char → list char → Prop :=
| glob_end : glob_matches [] []
| glob_double p v w : glob_matches p w → glob_matches (star :: star :: p) (v ++ w)
| glob_single p v w : head p ≠ Some star → slash ∉ v → glob_matches p w → glob_matches (star :: p) (v ++ w)
| glob_one c p v : c ≠ star → glob_matches p v → glob_matches (c :: p) (c :: v).

(** The loop over the ends of a run. *)
Definition any_run (double : bool) (rest : list char → bool) : list char → bool :=
  fix any (v : list char) : bool :=
    rest v || match v with
              | [] => false
              | x :: v' => if negb double && bool_decide (x = slash) then false else any v'
              end.

Lemma any_run_spec double rest v :
  any_run double rest v = true ↔ ∃ u w, v = u ++ w ∧ (double = true ∨ slash ∉ u) ∧ rest w = true.
Proof.
  induction v as [|x v IH]; cbn [any_run].
  - rewrite orb_false_r. split; [intros H; exists [], []; set_solver|].
    intros (u & w & [-> ->]%eq_sym%app_eq_nil & _ & H). done.
  - rewrite orb_true_iff. split.
    + intros [H|H]; [exists [], (x :: v); set_solver|].
      destruct (negb double && bool_decide (x = slash)) eqn:E; [done|]. apply IH in H as (u & w & -> & Hu & Hw).
      exists (x :: u), w. split_and!; [done| |done]. apply andb_false_iff in E as [E%negb_false_iff|E]; [by left|].
      destruct Hu as [|Hu]; [by left|]. right. apply bool_decide_eq_false in E. set_solver.
    + intros ([|y u] & w & E & Hu & Hw); [left; by rewrite E|]. injection E as <- ->. right.
      assert (negb double && bool_decide (x = slash) = false) as ->.
      { apply andb_false_iff. destruct Hu as [->|Hu]; [by left|]. right. apply bool_decide_eq_false. set_solver. }
      apply IH. exists u, w. split_and!; [done| |done]. destruct Hu; [by left|right; set_solver].
Qed.

Lemma glob_inner_star p v :
  glob_inner (star :: p) v
  = match p with
    | c :: p' => if bool_decide (c = star) then any_run true (glob_inner p') v else any_run false (glob_inner p) v
    | [] => any_run false (glob_inner p) v
    end.
Proof. destruct p as [|c p]; [done|]. cbn [glob_inner]. rewrite (bool_decide_eq_true_2 (star = star)) by done. by case_bool_decide. Qed.

Lemma glob_inner_one c p v : c ≠ star →
  glob_inner (c :: p) v = match v with x :: v' => if bool_decide (c = x) then glob_inner p v' else false | [] => false end.
Proof. intros Hc. cbn [glob_inner]. by rewrite bool_decide_eq_false_2. Qed.

Lemma glob_inner_spec p v : glob_inner p v = true ↔ glob_matches p v.
Proof.
  revert v. remember (length p) as n eqn:Hn. revert p Hn. induction n as [n IH] using lt_wf_ind. intros p -> v.
  destruct p as [|c p].
  { cbn. rewrite bool_decide_eq_true. split; [intros ->; constructor|by inversion 1]. }
  destruct (decide (c = star)) as [->|Hc].
  - rewrite glob_inner_star. destruct p as [|c p].
    + rewrite any_run_spec. split.
      * intros (u & w & -> & [|Hu] & Hw); [done|]. apply (IH 0) in Hw; [|simpl; lia|done]. by constructor.
      * inversion 1; subst; try done. exists v0, w. split_and!; [done|by right|]. apply (IH 0); [simpl; lia|done|done].
    + case_bool_decide as Hs.
      * subst. rewrite any_run_spec. split.
        -- intros (u & w & -> & _ & Hw). apply (IH (length p)) in Hw; [|simpl; lia|done]. by constructor.
        -- inversion 1; subst; try done. exists v0, w. split_and!; [done|by left|].
           apply (IH (length p)); [simpl; lia|done|done].
      * rewrite any_run_spec. split.
        -- intros (u & w & -> & [|Hu] & Hw); [done|]. apply (IH (S (length p))) in Hw; [|simpl; lia|done].
           apply glob_single; [by intros [= ->]|done|done].
        -- inversion 1; subst; try done. exists v0, w. split_and!; [done|by right|].
           apply (IH (S (length p))); [simpl; lia|done|done].
  - rewrite glob_inner_one by done. destruct v as [|x v]; [split; [done|inversion 1; congruence]|].
    case_bool_decide as Hx.
    + subst. rewrite (IH (length p)) by (simpl; lia || done). split; [by constructor|].
      inversion 1; subst; done.
    + split; [done|]. inversion 1; subst; congruence.
Qed.

Lemma scope_glob_aux pattern value : glob_match pattern value = true ↔ glob_matches (chars pattern) (chars value).
Proof. apply glob_inner_spec. Qed.

(** The matcher of the scopes decides the relation that the patterns mean, for every
    pattern and container name, although it searches with nested loops: two stars stand for
    any text, one star for any text without a slash, any other character for itself. *)
Theorem scope_glob_means pattern value :
  glob_match pattern value = true ↔ glob_matches (chars pattern) (chars value).
Proof. apply glob_inner_spec. Qed.

(** ** Enforcement *)

(** A scope that covers the container and the action. *)
Definition applies (action : AccessAction.t) (container : string) (s : ResolvedScope.t) : Prop :=
  glob_matches (chars (ResolvedScope.container_glob s)) (chars container) ∧ action ∈ ResolvedScope.actions s.

(** Its ceiling is at least the mode of the request. *)
Definition within_ceiling (s : ResolvedScope.t) (mode : option SecurityMode.t) : Prop :=
  ∀ ceiling m, ResolvedScope.mode_ceiling s = Some ceiling → mode = Some m → mode_rank m ≤ mode_rank ceiling.

Lemma enforce_container_spec agent request container scopes :
  enforce_container agent request container scopes = Ok tt ↔
  ∃ before s after, scopes = before ++ s :: after
    ∧ Forall (λ s, ¬ applies (AccessRequest.action request) container s) before
    ∧ applies (AccessRequest.action request) container s ∧ within_ceiling s (AccessRequest.mode request).
Proof.
  induction scopes as [|s scopes IH]; cbn [enforce_container].
  { split; [done|]. by intros ([|? ?] & ? & ? & ? & _). }
  assert ((∃ before s' after, s :: scopes = before ++ s' :: after
             ∧ Forall (λ s, ¬ applies (AccessRequest.action request) container s) before
             ∧ applies (AccessRequest.action request) container s' ∧ within_ceiling s' (AccessRequest.mode request))
          ↔ (applies (AccessRequest.action request) container s ∧ within_ceiling s (AccessRequest.mode request))
            ∨ (¬ applies (AccessRequest.action request) container s
               ∧ ∃ before s' after, scopes = before ++ s' :: after
                 ∧ Forall (λ s, ¬ applies (AccessRequest.action request) container s) before
                 ∧ applies (AccessRequest.action request) container s' ∧ within_ceiling s' (AccessRequest.mode request)))
    as ->.
  { split.
    - intros ([|b before] & s' & after & E & Hb & Ha & Hc); injection E as <- ->; [by left|].
      apply Forall_cons in Hb as [Hb1 Hb]. right. split; [done|]. by exists before, s', after.
    - intros [[Ha Hc]|(Hn & before & s' & after & -> & Hb & Ha & Hc)]; [by exists [], s, scopes|].
      exists (s :: before), s', after. split_and!; [done|by constructor|done|done]. }
  rewrite <-IH. unfold applies. rewrite <-!scope_glob_aux.
  destruct (glob_match _ _); cbn [negb]; [|naive_solver]. case_bool_decide as Hin; cbn [negb]; [|naive_solver].
  unfold within_ceiling. destruct (ResolvedScope.mode_ceiling s) as [ceiling|], (AccessRequest.mode request) as [m|];
    try (split; [intros _; left; split; [done|naive_solver]|done]).
  destruct (mode_rank ceiling <? mode_rank m) eqn:E.
  - apply Nat.ltb_lt in E. split; [done|]. intros [[_ H]|[[]%not_and_l _]]; [|done|done]. specialize (H _ _ eq_refl eq_refl). lia.
  - apply Nat.ltb_ge in E. split; [|done]. intros _. left. split; [done|]. by intros ? ? [= <-] [= <-].
Qed.

(** C36: scopes only narrow.  A request of an agent passes exactly when the agent has no scope
    at all; or it names no container, its action is one of those that may be granted without
    one, and some scope lists that action; or the first scope, in their order, whose glob
    matches the container and that lists the action has no ceiling below the mode of the
    container.  So an agent with scopes never gets an action that no scope lists, never
    enumerates the containers, never sees the vault's metadata and never exports or imports
    agents. *)
Theorem scopes_only_narrow agent request :
  enforce_scopes agent request = Ok tt ↔
  ResolvedAgent.scopes agent = []
  ∨ (AccessRequest.container request = None
     ∧ grantable_without_container (AccessRequest.action request) = true
     ∧ ∃ s, s ∈ ResolvedAgent.scopes agent ∧ AccessRequest.action request ∈ ResolvedScope.actions s)
  ∨ ∃ container before s after,
      AccessRequest.container request = Some container
      ∧ ResolvedAgent.scopes agent = before ++ s :: after
      ∧ Forall (λ s, ¬ applies (AccessRequest.action request) container s) before
      ∧ applies (AccessRequest.action request) container s ∧ within_ceiling s (AccessRequest.mode request).
Proof.
  unfold enforce_scopes. case_bool_decide as He; [naive_solver|].
  destruct (AccessRequest.container request) as [container|].
  - rewrite enforce_container_spec. naive_solver.
  - case_bool_decide as Hl; [rewrite Hl; naive_solver|]. destruct (grantable_without_container _); [|naive_solver].
    destruct (existsb _ _) eqn:E.
    + apply existsb_exists in E as (s & Hs%list_elem_of_In & Ha%bool_decide_eq_true). naive_solver.
    + split; [done|]. intros [?|[(_ & _ & s & Hs & Ha)|?]]; [done| |naive_solver].
      assert (existsb (λ s, bool_decide (AccessRequest.action request ∈ ResolvedScope.actions s))
                (ResolvedAgent.scopes agent) = true) as E'; [|congruence].
      apply existsb_exists. exists s. by rewrite <-list_elem_of_In, bool_decide_eq_true.
Qed.

(** ** Resolution *)

Lemma parse_actions_spec names actions :
  parse_actions names = Ok actions ↔ Forall2 (λ n a, AccessAction.parse_scope_action n = Ok a) names actions.
Proof.
  revert actions. induction names as [|n names IH]; intros actions; cbn [parse_actions].
  { split; [intros [= <-]; constructor|by inversion 1]. }
  destruct (AccessAction.parse_scope_action n) as [a|e] eqn:Ha; cbn [rbind].
  2: { split; [done|]. inversion 1; congruence. }
  destruct (parse_actions names) as [rest|e]; cbn [rbind].
  - split; [intros [= <-]; constructor; [done|by apply IH]|].
    inversion 1 as [|? b ? rest' Hb Hr]; subst. apply IH in Hr. congruence.
  - split; [done|]. inversion 1 as [|? b ? rest' Hb Hr]; subst. apply IH in Hr. done.
Qed.

Lemma try_for_each_parse names :
  try_for_each (λ a, let? _ := AccessAction.parse_scope_action a in Ok tt) names = Ok tt ↔
  ∃ actions, parse_actions names = Ok actions.
Proof.
  induction names as [|n names IH]; cbn [try_for_each parse_actions]; [naive_solver|].
  destruct (AccessAction.parse_scope_action n); cbn [rbind]; [|naive_solver]. rewrite IH.
  split; [intros [actions ->]; by eexists|]. destruct (parse_actions names); naive_solver.
Qed.

(** C40: resolving a scope fails closed.  A scope resolves exactly when it is valid, and then
    nothing of the restriction is lost: the glob is the same and well formed, every action
    name is known and stands at its place, and a ceiling, when there is one, is the parsed
    mode; an unknown action or mode is an error, never a wider scope. *)
Theorem resolution_loses_nothing scope :
  (∀ e, resolve scope = Err e → validate_agent_scope scope = Err e)
  ∧ ∀ r, resolve scope = Ok r ↔
      validate_agent_scope scope = Ok tt
      ∧ ResolvedScope.container_glob r = AgentScope.container_glob scope
      ∧ Forall2 (λ n a, AccessAction.parse_scope_action n = Ok a) (AgentScope.actions scope) (ResolvedScope.actions r)
      ∧ match AgentScope.mode_ceiling scope, ResolvedScope.mode_ceiling r with
        | Some m, Some c => SecurityMode.parse m = Ok c
        | None, None => True
        | _, _ => False
        end.
Proof.
  unfold resolve. destruct (validate_agent_scope scope) as [[]|e] eqn:Hv; cbn [rbind]; [|naive_solver].
  assert (∃ actions, parse_actions (AgentScope.actions scope) = Ok actions) as [actions Ha].
  { unfold validate_agent_scope in Hv. destruct (validate_scope_glob _); [|done]. cbn in Hv. case_bool_decide; [done|].
    destruct (try_for_each _ _) as [[]|] eqn:Ht; [|done]. by apply try_for_each_parse. }
  assert (match AgentScope.mode_ceiling scope with Some m => ∃ c, SecurityMode.parse m = Ok c | None => True end) as Hc.
  { unfold validate_agent_scope in Hv. destruct (validate_scope_glob _); [|done]. cbn in Hv. case_bool_decide; [done|].
    destruct (try_for_each _ _); [|done]. cbn in Hv. destruct (AgentScope.mode_ceiling scope); [|done].
    unfold parse_ceiling in Hv. destruct (SecurityMode.parse _); [by eexists|done]. }
  rewrite Ha. cbn [rbind]. apply parse_actions_spec in Ha as Ha'.
  unfold parse_ceiling. destruct (AgentScope.mode_ceiling scope) as [m|].
  - destruct Hc as [c ->]. cbn [rbind]. split; [done|]. intros [g acts ceiling]. cbn. split.
    + by intros [= <- <- <-].
    + intros (_ & -> & Hr & Hm). apply parse_actions_spec in Hr. rewrite Ha in Hr. injection Hr as <-.
      destruct ceiling; [|done]. by injection Hm as ->.
  - cbn [rbind]. split; [done|]. intros [g acts ceiling]. cbn. split.
    + by intros [= <- <- <-].
    + intros (_ & -> & Hr & Hm). apply parse_actions_spec in Hr. rewrite Ha in Hr. injection Hr as <-. by destruct ceiling.
Qed.

(** ** Findings *)

Definition sample_request (action : AccessAction.t) (container : option string) (mode : option SecurityMode.t) : AccessRequest.t :=
  AccessRequest.mk AccessTransport.McpWs action container None mode None (Some "ag_1") None "" None.

Definition low : ResolvedScope.t := ResolvedScope.mk "notes" [AccessAction.ReadFile] (Some SecurityMode.Direct).
Definition high : ResolvedScope.t := ResolvedScope.mk "notes" [AccessAction.ReadFile] (Some SecurityMode.Native).

(** The doc asks for at least one scope that matches, allows the action and is not widened by
    the mode; the code stops at the first scope that matches and allows the action. *)
Lemma scope_order_matters :
  let request := sample_request AccessAction.ReadFile (Some "notes") (Some SecurityMode.Approval) in
  is_ok (enforce_scopes (ResolvedAgent.mk "ag_1" [low; high]) request) = false
  ∧ is_ok (enforce_scopes (ResolvedAgent.mk "ag_1" [high; low]) request) = true.
Proof. split; vm_compute; reflexivity. Qed.

(** Grants that validation accepts and enforcement never honours. *)
Lemma accepted_grant_without_effect name action agent :
  (name, action) ∈ [("list", AccessAction.ListContainers); ("vault_info", AccessAction.VaultInfo);
                    ("export_agents", AccessAction.ExportAgents); ("import_agents", AccessAction.ImportAgents)] →
  AccessAction.parse_scope_action name = Ok action
  ∧ (ResolvedAgent.scopes agent ≠ [] → is_ok (enforce_scopes agent (sample_request action None None)) = false).
Proof.
  intros Hin. split; [by repeat (apply elem_of_cons in Hin as [[= -> ->]|Hin]; [done|]); apply elem_of_nil in Hin|].
  intros Hne. unfold enforce_scopes. rewrite bool_decide_eq_false_2 by done. cbn.
  by repeat (apply elem_of_cons in Hin as [[= -> ->]|Hin]; [done|]); apply elem_of_nil in Hin.
Qed.
