(* ===== verification/AgentImport.v ===== *)
(** * AgentImport: the envelope of exported agents

    sv-mcp's [validate_agent_import] with the records it reads, and the envelope that
    [vault.export_agents] writes.  The readers of records are those that serde derives: an
    object or an array of the fields in order, unknown fields refused, an absent optional field
    read as [None].  The text of a serde error is a parameter. *)
From Stdlib Require Import ZifyN ZifyNat ZifyBool.
From stdpp Require Import pretty.
From S2P Require Import Prelude Text Json AuditTypes Fs Crypto Storage Scopes.

Module AgentInfo.
Record t := mk {
  agent_id : string;
  name : string;
  scopes : list AgentScope.t;
  created_at : string;
  expires_at : option string;
  revoked : bool
}.
End AgentInfo.

Module AgentImportEntry.
Record t := mk { name : string; scopes : list AgentScope.t }.
End AgentImportEntry.

Module ImportedAgent.
Record t := mk { name : string; agent_id : string; one_time_token : string }.
End ImportedAgent.

Module AgentImportResult.
Record t := mk { imported : list ImportedAgent.t; skipped : list string; revoked : list string }.
End AgentImportResult.

Module AgentImportEnvelopeEntry.
Record t := mk { name : string; scopes : list AgentScope.t; expires_at : option string; revoked : bool }.
End AgentImportEnvelopeEntry.

Module AgentImportEnvelope.
Record t := mk { version : N; exported_at_unix : N; agent_count : N; agents : list AgentImportEnvelopeEntry.t }.
End AgentImportEnvelope.

Module ValidatedAgentImport.
Record t := mk { summary : ImportApprovalSummary.t; entries : list AgentImportEntry.t; replace_existing : bool }.
End ValidatedAgentImport.

(** ** The derived readers *)

(** The values of the fields, [None] where one is absent. *)
Definition struct_fields (names : list string) (v : Value.t) : option (list (option Value.t)) :=
  match v with
  | Value.Object m =>
      if forallb (λ kv, bool_decide (kv.1 ∈ names)) m then Some (map (λ n, Value.lookup n m) names) else None
  | Value.Array l =>
      if length l <=? length names then Some (map (λ i, l !! i) (seq 0 (length names))) else None
  | _ => None
  end.

Definition read_string (v : Value.t) : option string := Value.as_str v.
Definition read_bool (v : Value.t) : option bool := match v with Value.Bool b => Some b | _ => None end.
Definition read_u32 (v : Value.t) : option N := n ← Value.as_u64 v; if (n <=? u32_max)%N then Some n else None.
Definition read_list {A} (read : Value.t → option A) (v : Value.t) : option (list A) :=
  match v with Value.Array l => mapM read l | _ => None end.
(** An optional field: absent or null is [None]. *)
Definition read_optional {A} (read : Value.t → option A) (v : option Value.t) : option (option A) :=
  match v with
  | None | Some Value.Null => Some None
  | Some v => Some <$> read v
  end.

Definition read_scope (v : Value.t) : option AgentScope.t :=
  fields ← struct_fields ["container_glob"; "actions"; "mode_ceiling"] v;
  match fields with
  | [Some glob; Some actions; ceiling] =>
      glob ← read_string glob;
      actions ← read_list read_string actions;
      ceiling ← read_optional read_string ceiling;
      Some (AgentScope.mk glob actions ceiling)
  | _ => None
  end.

Definition read_entry (v : Value.t) : option AgentImportEnvelopeEntry.t :=
  fields ← struct_fields ["name"; "scopes"; "expires_at"; "revoked"] v;
  match fields with
  | [Some name; Some scopes; expires_at; Some revoked] =>
      name ← read_string name;
      scopes ← read_list read_scope scopes;
      expires_at ← read_optional read_string expires_at;
      revoked ← read_bool revoked;
      Some (AgentImportEnvelopeEntry.mk name scopes expires_at revoked)
  | _ => None
  end.

Definition read_envelope (v : Value.t) : option AgentImportEnvelope.t :=
  fields ← struct_fields ["version"; "exported_at_unix"; "agent_count"; "agents"] v;
  match fields with
  | [Some version; Some exported_at_unix; Some agent_count; Some agents] =>
      version ← read_u32 version;
      exported_at_unix ← Value.as_u64 exported_at_unix;
      agent_count ← Value.as_u64 agent_count;
      agents ← read_list read_entry agents;
      Some (AgentImportEnvelope.mk version exported_at_unix agent_count agents)
  | _ => None
  end.

(** ** The envelope written *)

Definition scope_to_value (s : AgentScope.t) : Value.t :=
  Value.object ([("container_glob", Value.Str (AgentScope.container_glob s));
                 ("actions", Value.Array (map Value.Str (AgentScope.actions s)))]
                ++ match AgentScope.mode_ceiling s with Some m => [("mode_ceiling", Value.Str m)] | None => [] end).

Definition entry_to_value (a : AgentInfo.t) : Value.t :=
  Value.object [("name", Value.Str (AgentInfo.name a));
                ("scopes", Value.Array (map scope_to_value (AgentInfo.scopes a)));
                ("expires_at", Value.of_option Value.Str (AgentInfo.expires_at a));
                ("revoked", Value.Bool (AgentInfo.revoked a))].

Definition export_envelope (agents : list AgentInfo.t) (now : N) : Value.t :=
  Value.object [("version", Value.number 1);
                ("exported_at_unix", Value.number now);
                ("agent_count", Value.number (N.of_nat (length agents)));
                ("agents", Value.Array (map entry_to_value agents))].

(** ** [validate_agent_import] *)

Section import.
Context (decode_error : Value.t → string).

Definition check_entry (names : list string) (entry : AgentImportEnvelopeEntry.t) : result unit string :=
  let name := AgentImportEnvelopeEntry.name entry in
  if bool_decide (name = "") then Err "agent.name must not be empty"
  else if bool_decide (name ∈ names) then Err ("agent import contains duplicate name: " +:+ name)
  else if AgentImportEnvelopeEntry.revoked entry
  then Err ("cannot import revoked agent " +:+ (name +:+ "; revoke it in the destination instead"))
  else if bool_decide (is_Some (AgentImportEnvelopeEntry.expires_at entry))
  then Err ("cannot import expiring agent " +:+ (name +:+ "; expiry preservation is unsupported"))
  else if bool_decide (AgentImportEnvelopeEntry.scopes entry = [])
  then Err ("cannot import unscoped agent " +:+ (name +:+ "; at least one concrete scope is required"))
  else try_for_each validate_agent_scope (AgentImportEnvelopeEntry.scopes entry).

(** [names] are those of the entries before. *)
Fixpoint check_entries (names : list string) (entries : list AgentImportEnvelopeEntry.t) :
    result (list AgentImportEntry.t) string :=
  match entries with
  | [] => Ok []
  | entry :: entries' =>
      let? _ := check_entry names entry in
      let? rest := check_entries (AgentImportEnvelopeEntry.name entry :: names) entries' in
      Ok (AgentImportEntry.mk (AgentImportEnvelopeEntry.name entry) (AgentImportEnvelopeEntry.scopes entry) :: rest)
  end.

Definition import_mode (args : Value.t) : result (string * bool) string :=
  let mode := default "create_only" (Value.get_str "mode" args) in
  if bool_decide (mode = "create_only") then Ok ("create_only", false)
  else if bool_decide (mode = "create_or_replace") then Ok ("create_or_replace", true)
  else Err ("unsupported import mode: " +:+ mode).

Definition validate_agent_import (args : Value.t) : result ValidatedAgentImport.t string :=
  let? raw := ok_or (Value.get "envelope" args) "envelope is required" in
  let? envelope := ok_or (read_envelope raw) ("invalid agent import envelope: " +:+ decode_error raw) in
  if negb (bool_decide (AgentImportEnvelope.version envelope = 1%N))
  then Err ("unsupported envelope version: " +:+ pretty (AgentImportEnvelope.version envelope))
  else if negb (bool_decide (AgentImportEnvelope.agent_count envelope
                             = N.of_nat (length (AgentImportEnvelope.agents envelope))))
  then Err "envelope.agent_count does not match agents length"
  else
    let? (mode, replace_existing) := import_mode args in
    let? entries := check_entries [] (AgentImportEnvelope.agents envelope) in
    let agents := map (λ e, ImportApprovalAgent.mk (AgentImportEntry.name e) (AgentImportEntry.scopes e)) entries in
    Ok (ValidatedAgentImport.mk (ImportApprovalSummary.mk mode (length agents) agents) entries replace_existing).

(** ** What is imported is what is shown, and what was exported *)

(** An entry that may be imported after others with the given names. *)
Definition importable (name : string) (scopes : list AgentScope.t) (expires_at : option string) (revoked : bool) : Prop :=
  name ≠ "" ∧ revoked = false ∧ expires_at = None ∧ scopes ≠ [] ∧ Forall (λ s, validate_agent_scope s = Ok tt) scopes.

Lemma try_validate scopes :
  try_for_each validate_agent_scope scopes = Ok tt ↔ Forall (λ s, validate_agent_scope s = Ok tt) scopes.
Proof.
  induction scopes as [|s scopes IH]; cbn [try_for_each]; [by split|].
  rewrite Forall_cons, <-IH. destruct (validate_agent_scope s) as [[]|e]; cbn; naive_solver.
Qed.

Lemma check_entry_spec names e :
  check_entry names e = Ok tt ↔
  AgentImportEnvelopeEntry.name e ∉ names
  ∧ importable (AgentImportEnvelopeEntry.name e) (AgentImportEnvelopeEntry.scopes e)
      (AgentImportEnvelopeEntry.expires_at e) (AgentImportEnvelopeEntry.revoked e).
Proof.
  unfold check_entry, importable. rewrite <-try_validate, eq_None_not_Some.
  repeat case_bool_decide; try (split; [done|naive_solver]).
  all: destruct (AgentImportEnvelopeEntry.revoked e); naive_solver.
Qed.

Lemma check_entries_spec names entries out :
  check_entries names entries = Ok out ↔
  out = map (λ e, AgentImportEntry.mk (AgentImportEnvelopeEntry.name e) (AgentImportEnvelopeEntry.scopes e)) entries
  ∧ NoDup (map AgentImportEnvelopeEntry.name entries)
  ∧ (∀ e, e ∈ entries → AgentImportEnvelopeEntry.name e ∉ names)
  ∧ Forall (λ e, importable (AgentImportEnvelopeEntry.name e) (AgentImportEnvelopeEntry.scopes e)
                   (AgentImportEnvelopeEntry.expires_at e) (AgentImportEnvelopeEntry.revoked e)) entries.
Proof.
  revert names out. induction entries as [|e entries IH]; intros names out; cbn [check_entries map].
  { split; [intros [= <-]; split_and!; [done|constructor|set_solver|done]|by intros (-> & _)]. }
  pose proof (check_entry_spec names e) as He. rewrite Forall_cons, NoDup_cons.
  destruct (check_entry names e) as [[]|err]; cbn [rbind].
  - destruct (proj1 He eq_refl) as [Hn Hi]. specialize (IH (AgentImportEnvelopeEntry.name e :: names)).
    assert ((∀ e', e' ∈ entries → AgentImportEnvelopeEntry.name e' ∉ AgentImportEnvelopeEntry.name e :: names) ↔
            AgentImportEnvelopeEntry.name e ∉ map AgentImportEnvelopeEntry.name entries
            ∧ ∀ e', e' ∈ e :: entries → AgentImportEnvelopeEntry.name e' ∉ names) as Hnames.
    { rewrite list_elem_of_fmap. set_solver. }
    destruct (check_entries _ entries) as [rest|err]; cbn [rbind].
    + destruct (proj1 (IH rest) eq_refl) as (-> & Hd & Hf & Ha). apply Hnames in Hf as [? ?].
      split; [by intros [= <-]|]. by intros (-> & _).
    + split; [done|]. intros (_ & [Hx Hd] & Hf & _ & Ha).
      discriminate (proj2 (IH _) (conj eq_refl (conj Hd (conj (proj2 Hnames (conj Hx Hf)) Ha)))).
  - split; [done|]. intros (_ & _ & Hf & Hi & _). assert (@Err unit string err = Ok tt) as [=]. apply He. split; [|done].
    apply Hf. by left.
Qed.

(** What an import gives is what its approval shows.  When an import is accepted, the
    summary lists, in order, exactly the names and scopes of the entries that the vault will
    get, with their number and the requested mode; the names are not empty and all different,
    every entry has a scope and every scope is valid, and no entry was revoked or had an
    expiry. *)
Theorem approval_shows_import args import :
  validate_agent_import args = Ok import →
  let entries := ValidatedAgentImport.entries import in
  let summary := ValidatedAgentImport.summary import in
  map (λ a, (ImportApprovalAgent.name a, ImportApprovalAgent.scopes a)) (ImportApprovalSummary.agents summary)
  = map (λ e, (AgentImportEntry.name e, AgentImportEntry.scopes e)) entries
  ∧ ImportApprovalSummary.agent_count summary = length entries
  ∧ ImportApprovalSummary.mode summary
    = (if ValidatedAgentImport.replace_existing import then "create_or_replace" else "create_only")
  ∧ NoDup (map AgentImportEntry.name entries)
  ∧ Forall (λ e, AgentImportEntry.name e ≠ "" ∧ AgentImportEntry.scopes e ≠ []
                 ∧ Forall (λ s, validate_agent_scope s = Ok tt) (AgentImportEntry.scopes e)) entries
  ∧ ∃ raw envelope, Value.get "envelope" args = Some raw ∧ read_envelope raw = Some envelope
      ∧ map (λ e, (AgentImportEnvelopeEntry.name e, AgentImportEnvelopeEntry.scopes e)) (AgentImportEnvelope.agents envelope)
        = map (λ e, (AgentImportEntry.name e, AgentImportEntry.scopes e)) entries
      ∧ Forall (λ e, AgentImportEnvelopeEntry.revoked e = false ∧ AgentImportEnvelopeEntry.expires_at e = None)
          (AgentImportEnvelope.agents envelope).
Proof.
  unfold validate_agent_import. destruct (Value.get "envelope" args) as [raw|]; cbn [ok_or rbind]; [|done].
  destruct (read_envelope raw) as [envelope|] eqn:Henv; cbn [ok_or rbind]; [|done].
  repeat (case_bool_decide; cbn [negb]; [|done]).
  destruct (import_mode args) as [[mode replace]|] eqn:Hmode; cbn [rbind]; [|done].
  destruct (check_entries [] _) as [entries|] eqn:Hentries; cbn [rbind]; [|done]. intros [= <-]. cbn.
  apply check_entries_spec in Hentries as (-> & Hd & _ & Hall). rewrite !map_map. cbn. split_and!; [done| | |done| |].
  - by rewrite !length_map.
  - unfold import_mode in Hmode. repeat case_bool_decide; by simplify_eq.
  - apply Forall_map. eapply Forall_impl; [exact Hall|]. cbn. intros e (H1 & _ & _ & H2 & H3). done.
  - exists raw, envelope. split_and!; [done..|]. eapply Forall_impl; [exact Hall|]. cbn. intros e (_ & H1 & H2 & _). done.
Qed.

Lemma mapM_written_as {A B} (read : Value.t → option B) (write : A → Value.t) (f : A → B) l :
  (∀ a, read (write a) = Some (f a)) → mapM read (map write l) = Some (map f l).
Proof. intros H. induction l as [|a l IH]; [done|]. cbn. rewrite H. cbn. by rewrite IH. Qed.

Lemma mapM_written {A} (read : Value.t → option A) (write : A → Value.t) l :
  (∀ a, read (write a) = Some a) → mapM read (map write l) = Some l.
Proof. intros H. rewrite (mapM_written_as _ _ id) by done. by rewrite map_id. Qed.

Lemma read_scope_written s : read_scope (scope_to_value s) = Some s.
Proof.
  unfold read_scope. destruct s as [glob actions ceiling].
  assert (struct_fields ["container_glob"; "actions"; "mode_ceiling"] (scope_to_value (AgentScope.mk glob actions ceiling))
          = Some [Some (Value.Str glob); Some (Value.Array (map Value.Str actions)); Value.Str <$> ceiling]) as ->
    by by destruct ceiling.
  cbn -[mapM]. rewrite (mapM_written read_string Value.Str) by done. by destruct ceiling.
Qed.

Definition exported (a : AgentInfo.t) : AgentImportEnvelopeEntry.t :=
  AgentImportEnvelopeEntry.mk (AgentInfo.name a) (AgentInfo.scopes a) (AgentInfo.expires_at a) (AgentInfo.revoked a).

Lemma read_entry_written a : read_entry (entry_to_value a) = Some (exported a).
Proof.
  unfold read_entry. destruct a as [id name scopes created expires revoked].
  assert (struct_fields ["name"; "scopes"; "expires_at"; "revoked"]
            (entry_to_value (AgentInfo.mk id name scopes created expires revoked))
          = Some [Some (Value.Str name); Some (Value.Array (map scope_to_value scopes));
                  Some (Value.of_option Value.Str expires); Some (Value.Bool revoked)]) as -> by reflexivity.
  cbn -[mapM]. rewrite (mapM_written read_scope) by apply read_scope_written. by destruct expires.
Qed.

Lemma read_envelope_written agents now :
  (now ≤ u64_max)%N → (N.of_nat (length agents) ≤ u64_max)%N →
  read_envelope (export_envelope agents now)
  = Some (AgentImportEnvelope.mk 1 now (N.of_nat (length agents)) (map exported agents)).
Proof.
  intros Hn Hl.
  assert (∀ n, (n ≤ u64_max)%N → Value.as_u64 (Value.number n) = Some n) as Hnum.
  { intros n Hle. unfold Value.number, Value.as_u64, u64_max in *. rewrite bool_decide_eq_true_2 by lia. by rewrite N2Z.id. }
  unfold read_envelope.
  assert (struct_fields ["version"; "exported_at_unix"; "agent_count"; "agents"] (export_envelope agents now)
          = Some [Some (Value.number 1); Some (Value.number now); Some (Value.number (N.of_nat (length agents)));
                  Some (Value.Array (map entry_to_value agents))]) as -> by reflexivity.
  cbn -[mapM Value.as_u64 Value.number]. rewrite (Hnum now Hn), (Hnum _ Hl). cbn -[mapM].
  by rewrite (mapM_written_as _ _ exported) by apply read_entry_written.
Qed.

(** An export can be imported exactly when every agent of it can.  The envelope that
    [vault.export_agents] writes for a list of agents is read back by [vault.import_agents],
    in create-only mode, as the same names and scopes; it is accepted if and only if the
    names are different and every agent has a name, is not revoked, does not expire and has
    at least one scope, all valid.  So one revoked, expiring or unscoped agent in the
    registry makes its whole export unusable. *)
Theorem export_import_round_trip (agents : list AgentInfo.t) (now : N) :
  (now ≤ u64_max)%N → (N.of_nat (length agents) ≤ u64_max)%N →
  let args := Value.object [("envelope", export_envelope agents now)] in
  (is_ok (validate_agent_import args) = true ↔
     NoDup (map AgentInfo.name agents)
     ∧ Forall (λ a, importable (AgentInfo.name a) (AgentInfo.scopes a) (AgentInfo.expires_at a) (AgentInfo.revoked a)) agents)
  ∧ ∀ import, validate_agent_import args = Ok import →
      ValidatedAgentImport.entries import = map (λ a, AgentImportEntry.mk (AgentInfo.name a) (AgentInfo.scopes a)) agents
      ∧ ValidatedAgentImport.replace_existing import = false.
Proof.
  intros Hn Hl args. unfold validate_agent_import.
  assert (Value.get "envelope" args = Some (export_envelope agents now)) as -> by reflexivity.
  cbn [ok_or rbind]. rewrite read_envelope_written by done.
  cbn [ok_or rbind AgentImportEnvelope.version AgentImportEnvelope.agent_count AgentImportEnvelope.agents].
  rewrite bool_decide_eq_true_2 by done. rewrite length_map, bool_decide_eq_true_2 by done. cbn [negb].
  change (import_mode _) with (@Ok _ string ("create_only", false)). cbn [rbind].
  assert (∀ out, check_entries [] (map exported agents) = Ok out ↔
    out = map (λ a, AgentImportEntry.mk (AgentInfo.name a) (AgentInfo.scopes a)) agents
    ∧ NoDup (map AgentInfo.name agents)
    ∧ Forall (λ a, importable (AgentInfo.name a) (AgentInfo.scopes a) (AgentInfo.expires_at a) (AgentInfo.revoked a)) agents)
    as Hspec.
  { intros out. rewrite check_entries_spec, Forall_map, !map_map. cbn. set_solver. }
  destruct (check_entries [] (map exported agents)) as [entries|e]; cbn [rbind].
  - destruct (proj1 (Hspec entries) eq_refl) as (-> & Hd & Ha). split; [split; [by intros _|done]|]. by intros import [= <-].
  - split; [|done]. split; [done|]. intros [Hd Ha].
    discriminate (proj2 (Hspec _) (conj eq_refl (conj Hd Ha))).
Qed.
End import.

Definition sample_scope : AgentScope.t := AgentScope.mk "notes" ["read"; "list_files"] (Some "APPROVAL").
Definition sample_agents : list AgentInfo.t := [AgentInfo.mk "ag_1" "reader" [sample_scope] "2026-01-01T00:00:00Z" None false].

Lemma export_import_round_trip_witness :
  let args := Value.object [("envelope", export_envelope sample_agents 1767225600)] in
  is_ok (validate_agent_import (λ _, "") args) = true ↔
    NoDup (map AgentInfo.name sample_agents)
    ∧ Forall (λ a, importable (AgentInfo.name a) (AgentInfo.scopes a) (AgentInfo.expires_at a) (AgentInfo.revoked a)) sample_agents.
Proof. apply (export_import_round_trip (λ _, "") sample_agents 1767225600); vm_compute; discriminate. Defined.

Lemma approval_shows_import_witness :
  ∃ import, validate_agent_import (λ _, "") (Value.object [("envelope", export_envelope sample_agents 1767225600)]) = Ok import
            ∧ ImportApprovalSummary.agent_count (ValidatedAgentImport.summary import)
              = length (ValidatedAgentImport.entries import).
Proof.
  eexists. split; [vm_compute; reflexivity|].
  apply (approval_shows_import (λ _, "") (Value.object [("envelope", export_envelope sample_agents 1767225600)])).
  vm_compute. reflexivity.
Defined.

(** The description of the tool names the field [exported_at]; an envelope with that field
    instead of [exported_at_unix] is refused. *)
Lemma described_envelope_refused :
  read_envelope (Value.object [("version", Value.number 1); ("exported_at", Value.number 0); ("agents", Value.Array [])]) = None.
Proof. vm_compute. reflexivity. Qed.

(** A registry with the unscoped default agent cannot be imported from its own export. *)
Lemma default_agent_blocks_import :
  is_ok (validate_agent_import (λ _, "")
           (Value.object [("envelope", export_envelope
              (AgentInfo.mk "ag_0" "Default" [] "2026-01-01T00:00:00Z" None false :: sample_agents) 0)])) = false.
Proof. vm_compute. reflexivity. Qed.
