(* ===== verification/Mcp.v ===== *)
(** * Mcp: the tool calls of the MCP server

    sv-mcp's server.  The vault behind [VaultFacade] is a class over a state of its own; it sits
    behind a mutex, and every time the mutex is taken another task may have changed it, locked
    it or unlocked it.  The approval controller, the audit sink and the authenticator are
    functions of the server.  Every reading of the clock advances it.  [log] is a ghost: what
    the call did, latest first. *)
From stdpp Require Import pretty.
From S2P Require Import Prelude Text Bytes Privacy Json AuditTypes Fs Crypto Storage Scopes AgentImport.

Definition MAX_WS_CONNECTIONS : nat := 32.
Definition MAX_WS_MESSAGE_BYTES : N := 8 * 1024 * 1024.
Definition MAX_WS_FILE_BYTES : N := 4 * 1024 * 1024.

(** ** Data of the facade *)

Module McpError.
Inductive t := Transport (m : string) | Protocol (m : string) | Unpaired | Locked | Vault (m : string) | Io (m : string).
Definition display (e : t) : string :=
  match e with
  | Transport m => "Transport: " +:+ m
  | Protocol m => "Protocol: " +:+ m
  | Unpaired => "Unpaired connection"
  | Locked => "Vault is locked"
  | Vault m => "Vault: " +:+ m
  | Io m => "I/O: " +:+ m
  end.
End McpError.

Definition PARSE_ERROR : Z := (-32700)%Z.
Definition METHOD_NOT_FOUND : Z := (-32601)%Z.
Definition UNPAIRED : Z := (-32001)%Z.

Module BrokerOutcome.
Record t := mk { status : N; headers : gmap string string; body : string; host : string; method : string }.
End BrokerOutcome.

Module TransitKeyInfo.
Record t := mk { name : string; version : N }.
Definition to_value (i : t) : Value.t := Value.object [("name", Value.Str (name i)); ("version", Value.number (version i))].
End TransitKeyInfo.

Module SigningKeyInfo.
Record t := mk { name : string; version : N; public_key_b64 : string }.
Definition to_value (i : t) : Value.t :=
  Value.object [("name", Value.Str (name i)); ("version", Value.number (version i));
                ("public_key_b64", Value.Str (public_key_b64 i))].
End SigningKeyInfo.

Module BrokerAllow.
Record t := mk { host : string; path_prefix : string; methods : list string; allow_private_ip : bool }.
Definition to_value (a : t) : Value.t :=
  Value.object [("host", Value.Str (host a)); ("path_prefix", Value.Str (path_prefix a));
                ("methods", Value.Array (map Value.Str (methods a))); ("allow_private_ip", Value.Bool (allow_private_ip a))].
End BrokerAllow.

(** Tagged by [type] in JSON. *)
Module BrokerInjection.
Inductive t := BearerAuth | Header (name : string).
Definition default : t := BearerAuth.
Definition to_value (i : t) : Value.t :=
  match i with
  | BearerAuth => Value.object [("type", Value.Str "bearer_auth")]
  | Header name => Value.object [("type", Value.Str "header"); ("name", Value.Str name)]
  end.
End BrokerInjection.

Module BrokerSecretInfo.
Record t := mk { name : string; allow : list BrokerAllow.t; injection : BrokerInjection.t }.
Definition to_value (i : t) : Value.t :=
  Value.object [("name", Value.Str (name i)); ("allow", Value.Array (map BrokerAllow.to_value (allow i)));
                ("injection", BrokerInjection.to_value (injection i))].
End BrokerSecretInfo.

(** The calls of the vault. *)
Inductive vault_op :=
| OpListContainers
| OpListFiles (container : string)
| OpReadFile (container file_name : string)
| OpWriteFile (container file_name : string) (plaintext : list N)
| OpDeleteFile (container file_name : string)
| OpCreateContainer (name mode : string) (description : option string)
| OpContainerMode (container : string)
| OpDestroyContainer (name : string)
| OpListAgents
| OpImportAgents (entries : list AgentImportEntry.t) (replace_existing : bool)
| OpTransitCreateKey (name : string)
| OpTransitList
| OpTransitEncrypt (key_ref : string) (plaintext : list N)
| OpTransitDecrypt (key_ref ciphertext_b64 : string)
| OpSign (key_ref : string) (payload : list N)
| OpSigningPublicKey (key_ref : string)
| OpSigningCreateKey (name : string)
| OpSigningList
| OpBrokerCreate (name secret : string) (allow : list BrokerAllow.t) (injection : BrokerInjection.t)
| OpBrokerList
| OpBrokerRequest (secret_ref method url : string) (headers : gmap string string) (body : option string).

(** [VaultFacade]: each method may change the vault. *)
Class VaultFacade (V : Type) := {
  list_containers : V → result (list ContainerInfo.t) string * V;
  list_files : string → V → result (list FileInfo.t) string * V;
  read_file : string → string → V → result (list N) string * V;
  write_file : string → string → list N → V → result unit string * V;
  delete_file : string → string → V → result unit string * V;
  create_container : string → string → option string → V → result unit string * V;
  container_mode : string → V → result SecurityMode.t string * V;
  destroy_container : string → V → result unit string * V;
  list_agents : V → result (list AgentInfo.t) string * V;
  import_agents_atomically : list AgentImportEntry.t → bool → V → result AgentImportResult.t string * V;
  transit_create_key : string → V → result TransitKeyInfo.t string * V;
  transit_list : V → result (list TransitKeyInfo.t) string * V;
  transit_encrypt : string → list N → V → result string string * V;
  transit_decrypt : string → string → V → result (list N) string * V;
  sign : string → list N → V → result string string * V;
  signing_public_key : string → V → result string string * V;
  signing_create_key : string → V → result SigningKeyInfo.t string * V;
  signing_list : V → result (list SigningKeyInfo.t) string * V;
  broker_create : string → string → list BrokerAllow.t → BrokerInjection.t → V → result BrokerSecretInfo.t string * V;
  broker_list : V → result (list BrokerSecretInfo.t) string * V;
  broker_enabled : V → bool;
  custody_mode_label : V → string;
  broker_request : string → string → string → gmap string string → option string → V → result BrokerOutcome.t string * V
}.

(** The texts of JSON, the derived readers of the broker's records, and the clocks of the
    system at an instant. *)
Class McpEnv := {
  from_str : string → result Value.t string;
  to_string : Value.t → string;
  utf8_error : list N → string;
  decode_error : Value.t → string;
  decode_allow : Value.t → result (list BrokerAllow.t) string;
  decode_injection : Value.t → result BrokerInjection.t string;
  utc : N → Z;
  unix_seconds : N → N;
  crate_version : string
}.

Module StageTimings.
Record t := mk {
  action : AccessAction.t;
  mode : option SecurityMode.t;
  byte_size : option nat;
  allowed : bool;
  validate : N;
  authorize : N;
  execute : N;
  filter : N;
  total : N
}.
End StageTimings.

Module RateLimiter.
Record t := mk { max_requests : nat; window : N }.

(** [check] at an instant, with the text of the window: the instants of the key that are
    still in the window are kept, and the new one joins them when there is room. *)
Definition check (self : t) (window_text : string) (now : N) (key : string) (state : gmap string (list N)) :
    result unit McpError.t * gmap string (list N) :=
  let entry := List.filter (λ t, (now - t <? window self)%N) (default [] (state !! key)) in
  if max_requests self <=? length entry
  then (Err (McpError.Protocol ("rate limit exceeded: " +:+ (pretty (length entry) +:+ (" requests in " +:+ window_text)))),
        <[key := entry]> state)
  else (Ok tt, <[key := entry ++ [now]]> state).
End RateLimiter.

Inductive event :=
| Authorized (request : AccessRequest.t)
| Refused (request : AccessRequest.t)
| Recorded (e : AuditEvent.t) (stored : bool)
| Called (op : vault_op)
| Timed (t : StageTimings.t).

Module World.
Record t {V C K : Type} := mk {
  vault : option V;                          (* [None] while locked *)
  others : list (option V → option V);       (* what other tasks do before each acquisition *)
  controller : C;
  sink : K;
  limiter : gmap string (list N);
  clock : N;
  delays : list N;                           (* between the readings of the clock *)
  log : list event
}.
Arguments t : clear implicits.
Section setters.
Context {V C K : Type}.
Definition with_vault (w : t V C K) (v : option V) : t V C K :=
  mk V C K v (others w) (controller w) (sink w) (limiter w) (clock w) (delays w) (log w).
Definition with_controller (w : t V C K) (c : C) : t V C K :=
  mk V C K (vault w) (others w) c (sink w) (limiter w) (clock w) (delays w) (log w).
Definition with_sink (w : t V C K) (k : K) : t V C K :=
  mk V C K (vault w) (others w) (controller w) k (limiter w) (clock w) (delays w) (log w).
Definition with_limiter (w : t V C K) (l : gmap string (list N)) : t V C K :=
  mk V C K (vault w) (others w) (controller w) (sink w) l (clock w) (delays w) (log w).
Definition logged (w : t V C K) (e : event) : t V C K :=
  mk V C K (vault w) (others w) (controller w) (sink w) (limiter w) (clock w) (delays w) (e :: log w).
Definition tick (w : t V C K) : t V C K :=
  mk V C K (vault w) (others w) (controller w) (sink w) (limiter w) (clock w + default 0 (head (delays w)))%N
    (tail (delays w)) (log w).
Definition interfere (w : t V C K) : t V C K :=
  match others w with
  | [] => w
  | f :: fs => mk V C K (f (vault w)) fs (controller w) (sink w) (limiter w) (clock w) (delays w) (log w)
  end.
End setters.
End World.

(** The hooks installed in a server; the vault itself is in the world. *)
Module McpServer.
Record t {C K : Type} := mk {
  pairing_secret : string;
  access_controller : option (AccessRequest.t → C → result unit string * C);
  audit_sink : option (AuditEvent.t → K → result unit string * K);
  agent_authenticator : option (option string → string → result ResolvedAgent.t string);
  timing_sink : bool;
  rate_limiter : option (RateLimiter.t * string)   (* with the text of its window *)
}.
Arguments t : clear implicits.
Definition new {C K} (pairing_secret : string) : t C K := mk C K pairing_secret None None None false None.
Section builder.
Context {C K : Type} (self : t C K).
Definition with_access_controller (controller : AccessRequest.t → C → result unit string * C) : t C K :=
  mk C K (pairing_secret self) (Some controller) (audit_sink self) (agent_authenticator self) (timing_sink self) (rate_limiter self).
Definition with_audit_sink (sink : AuditEvent.t → K → result unit string * K) : t C K :=
  mk C K (pairing_secret self) (access_controller self) (Some sink) (agent_authenticator self) (timing_sink self) (rate_limiter self).
Definition with_agent_authenticator (authenticator : option string → string → result ResolvedAgent.t string) : t C K :=
  mk C K (pairing_secret self) (access_controller self) (audit_sink self) (Some authenticator) (timing_sink self) (rate_limiter self).
Definition with_timing_sink : t C K :=
  mk C K (pairing_secret self) (access_controller self) (audit_sink self) (agent_authenticator self) true (rate_limiter self).
Definition with_rate_limiter (limiter : RateLimiter.t * string) : t C K :=
  mk C K (pairing_secret self) (access_controller self) (audit_sink self) (agent_authenticator self) (timing_sink self) (Some limiter).
End builder.
End McpServer.

(** ** Helpers *)

Definition required_str (value : Value.t) (key : string) : result string string :=
  ok_or (Value.get_str key value) ("missing required string field: " +:+ key).

Definition combine_denial_and_audit (denial : string) (audit : result unit string) : string :=
  match audit with Ok _ => denial | Err audit_error => denial +:+ ("; " +:+ audit_error) end.

Definition combine_result_and_audit {T} (r : result T string) (audit : result unit string) : result T string :=
  match r, audit with
  | Ok value, Ok _ => Ok value
  | Ok _, Err audit_error =>
      Err ("operation completed, but its authenticated audit outcome could not be recorded: " +:+ audit_error)
  | Err error, Ok _ => Err error
  | Err error, Err audit_error => Err (error +:+ ("; " +:+ audit_error))
  end.

(** Objects sorted by key, at every depth. *)
Fixpoint canonicalize_json (v : Value.t) : Value.t :=
  match v with
  | Value.Object m =>
      Value.Object (foldl (λ acc kv, Value.insert kv.1 kv.2 acc) [] (map (λ kv, (kv.1, canonicalize_json kv.2)) m))
  | Value.Array l => Value.Array (map canonicalize_json l)
  | v => v
  end.

Definition CONTEXT_DOMAIN : list N := str_bytes "sovereign-vault/access-request/v1" ++ [0%N].

Definition without_otp (args : Value.t) : Value.t :=
  match args with Value.Object m => Value.Object (Value.remove "otp" m) | v => v end.

Section context.
Context `{ME : McpEnv} `{PR : Prims}.

(** [format!("{b:02x}")] of each byte. *)
Definition hex_byte (b : N) : string := String (hex_char (b / 16)) (String (hex_char (b mod 16)) "").
Definition lower_hex (l : list N) : string := foldr (λ b s, hex_byte b +:+ s) "" l.

Definition build_authorization_context (name : string) (args : Value.t) : string :=
  let canonical := str_bytes (to_string (canonicalize_json (without_otp args))) in
  lower_hex (sha256 (CONTEXT_DOMAIN ++ str_bytes name ++ [0%N] ++ canonical)).

Definition required_broker_allow (value : Value.t) : result (list BrokerAllow.t) string :=
  let? raw := ok_or (Value.get "allow" value) "missing required array field: allow" in
  map_err (λ e, "invalid allow list: " +:+ e) (decode_allow raw).

Definition parse_broker_injection (value : Value.t) : result BrokerInjection.t string :=
  match Value.get "injection" value with
  | Some raw => map_err (λ e, "invalid injection: " +:+ e) (decode_injection raw)
  | None => Ok BrokerInjection.default
  end.

(** [B64.decode(..).map_err(|e| format!("invalid base64: {e}"))]. *)
Definition decode_base64 (s : string) : result (list N) string := map_err (λ e, "invalid base64: " +:+ e) (b64_decode s).

Definition simple_request (transport : AccessTransport.t) (action : AccessAction.t) (authorization_context : string) :
    AccessRequest.t :=
  AccessRequest.mk transport action None None None None None None authorization_context None.

Definition otp_of (args : Value.t) : option string := Value.get_str "otp" args.

(** [serde_json::from_value::<BTreeMap<String, String>>(..).ok().unwrap_or_default()]. *)
Definition headers_of (args : Value.t) : gmap string string :=
  match Value.get "headers" args with
  | Some (Value.Object m) =>
      match mapM (λ kv, v ← Value.as_str kv.2; Some (kv.1, v)) m with Some l => collect_map l | None => ∅ end
  | _ => ∅
  end.

Definition headers_to_value (headers : gmap string string) : Value.t :=
  Value.object (map (λ kv, (kv.1, Value.Str kv.2)) (map_to_list headers)).

(** The text of an error of [ed25519_verify]. *)
Definition crypto_error (e : CryptoError.t) : string :=
  match e with
  | CryptoError.Aead m => "AEAD operation failed: " +:+ m
  | CryptoError.Kdf m => "Key derivation failed: " +:+ m
  | CryptoError.Encoding m => "Encoding error: " +:+ m
  | CryptoError.Random m => "Random number generation failed: " +:+ m
  | CryptoError.SigningKey m => "Invalid signing key: " +:+ m
  end.
End context.

Definition ok_true : string * Value.t := ("ok", Value.Bool true).
Definition BROKER_DISABLED : string := "broker disabled: set SV_ENABLE_BROKER to enable broker secret management".
Definition LOCKED : string := "vault is locked".

Section server.
Context {V C K : Type} `{VF : VaultFacade V} `{ME : McpEnv} `{PR : Prims} (server : McpServer.t C K).

Abbreviation W := (World.t V C K).
Abbreviation M := (GS W string).

(** ** The world *)

Definition emit (e : event) : M unit := λ w, (Ok tt, World.logged w e).

(** [Instant::now()]. *)
Definition instant : M N := λ w, let w := World.tick w in (Ok (World.clock w), w).
Definition elapsed (started : N) : M N := let* now := instant in gret (now - started)%N.

(** [self.handle.lock().await] and the test that the vault is unlocked. *)
Definition lock : M unit := λ w,
  let w := World.interfere w in
  match World.vault w with Some _ => (Ok tt, w) | None => (Err LOCKED, w) end.

(** A call of the vault under the lock. *)
Definition call {A} (op : vault_op) (f : V → result A string * V) : M A := λ w,
  match World.vault w with
  | None => (Err LOCKED, w)
  | Some v => let '(r, v') := f v in (r, World.logged (World.with_vault w (Some v')) (Called op))
  end.

Definition asks (f : V → bool) : M bool := λ w,
  (Ok (match World.vault w with Some v => f v | None => false end), w).

(** ** Requests *)

(** The container's mode, then the request. *)
Definition container_request (transport : AccessTransport.t) (action : AccessAction.t) (container : string)
    (file_name : option string) (byte_size : option nat) (context_name : string) (args : Value.t) : M AccessRequest.t :=
  let* mode := call (OpContainerMode container) (container_mode container) in
  gret (AccessRequest.mk transport action (Some container) file_name (Some mode) byte_size None (otp_of args)
          (build_authorization_context context_name args) None).

Definition plain_request (transport : AccessTransport.t) (action : AccessAction.t) (required : list string) (name : string)
    (args : Value.t) : M AccessRequest.t :=
  let* _ := glift (try_for_each (λ key, let? _ := required_str args key in Ok tt) required) in
  gret (simple_request transport action (build_authorization_context name args)).

(** [vault.create_container] and [vault.destroy] bind a [name] of their own, which the
    context is then built from. *)
Definition build_access_request (name : string) (args : Value.t) (transport : AccessTransport.t) : M AccessRequest.t :=
  if bool_decide (name = "vault.list") then
    match Value.get_str "container" args with
    | Some container => container_request transport AccessAction.ListFiles container None None name args
    | None =>
        gret (AccessRequest.mk transport AccessAction.ListContainers None None None None None (otp_of args)
                (build_authorization_context name args) None)
    end
  else if bool_decide (name = "vault.read") then
    let* container := glift (required_str args "container") in
    let* file_name := glift (required_str args "file_name") in
    container_request transport AccessAction.ReadFile container (Some file_name) None name args
  else if bool_decide (name = "vault.write") then
    let* container := glift (required_str args "container") in
    let* file_name := glift (required_str args "file_name") in
    let* content_b64 := glift (required_str args "content_b64") in
    let* bytes := glift (decode_base64 content_b64) in
    container_request transport AccessAction.WriteFile container (Some file_name) (Some (length bytes)) name args
  else if bool_decide (name = "vault.delete") then
    let* container := glift (required_str args "container") in
    let* file_name := glift (required_str args "file_name") in
    container_request transport AccessAction.DeleteFile container (Some file_name) None name args
  else if bool_decide (name = "vault.create_container") then
    let* name := glift (required_str args "name") in
    let mode := default "DIRECT" (Value.get_str "mode" args) in
    let* mode := glift (map_err parse_error (SecurityMode.parse mode)) in
    gret (AccessRequest.mk transport AccessAction.CreateContainer (Some name) None (Some mode) None None (otp_of args)
            (build_authorization_context name args) None)
  else if bool_decide (name = "vault.destroy") then
    let* name := glift (required_str args "name") in
    container_request transport AccessAction.DestroyContainer name None None name args
  else if bool_decide (name = "vault.info") then plain_request transport AccessAction.VaultInfo [] name args
  else if bool_decide (name = "vault.export_agents") then plain_request transport AccessAction.ExportAgents [] name args
  else if bool_decide (name = "vault.import_agents") then
    let* import := glift (validate_agent_import decode_error args) in
    let request := simple_request transport AccessAction.ImportAgents (build_authorization_context name args) in
    gret (AccessRequest.with_summary request (ValidatedAgentImport.summary import))
  else if bool_decide (name = "vault.create_transit_key") then
    plain_request transport AccessAction.CreateTransitKey ["name"] name args
  else if bool_decide (name = "vault.list_transit_keys") then plain_request transport AccessAction.ListTransitKeys [] name args
  else if bool_decide (name = "vault.encrypt") then
    plain_request transport AccessAction.Encrypt ["key_ref"; "plaintext_b64"] name args
  else if bool_decide (name = "vault.decrypt") then
    plain_request transport AccessAction.Decrypt ["key_ref"; "ciphertext_b64"] name args
  else if bool_decide (name = "vault.sign") then
    plain_request transport AccessAction.Sign ["key_ref"; "payload_b64"] name args
  else if bool_decide (name = "vault.create_signing_key") then
    plain_request transport AccessAction.CreateSigningKey ["name"] name args
  else if bool_decide (name = "vault.list_signing_keys") then plain_request transport AccessAction.ListSigningKeys [] name args
  else if bool_decide (name = "vault.verify") then
    plain_request transport AccessAction.Verify ["public_key_b64"; "payload_b64"; "signature_b64"] name args
  else if bool_decide (name = "vault.create_broker_secret") then
    let* _ := glift (required_str args "name") in
    let* _ := glift (required_str args "secret") in
    let* _ := glift (required_broker_allow args) in
    let* _ := glift (parse_broker_injection args) in
    plain_request transport AccessAction.CreateBrokerSecret [] name args
  else if bool_decide (name = "vault.list_broker_secrets") then
    plain_request transport AccessAction.ListBrokerSecrets [] name args
  else if bool_decide (name = "vault.broker_request") then
    plain_request transport AccessAction.Broker ["secret_ref"; "method"; "url"] name args
  else gfail ("unknown tool: " +:+ name).

(** ** Execution *)

Definition list_tool (args : Value.t) : M Value.t :=
  match Value.get_str "container" args with
  | Some container =>
      let* files := call (OpListFiles container) (list_files container) in
      gret (Value.Array (map (λ f, Value.object [("name", Value.Str (FileInfo.name f));
                                                 ("mode", Value.Str (SecurityMode.as_str (FileInfo.mode f)))]) files))
  | None =>
      let* containers := call OpListContainers list_containers in
      gret (Value.Array (map (λ c, Value.object [("name", Value.Str (ContainerInfo.name c));
                                                 ("mode", Value.Str (SecurityMode.as_str (ContainerInfo.mode c)));
                                                 ("description", Value.of_option Value.Str (ContainerInfo.description c))])
                           containers))
  end.

Definition read_tool (args : Value.t) (transport : AccessTransport.t) : M Value.t :=
  let* container := glift (required_str args "container") in
  let* file_name := glift (required_str args "file_name") in
  let* bytes := call (OpReadFile container file_name) (read_file container file_name) in
  if bool_decide (transport = AccessTransport.McpWs) && (MAX_WS_FILE_BYTES <? N.of_nat (length bytes))%N
  then gfail ("file exceeds WebSocket read limit of " +:+ (pretty MAX_WS_FILE_BYTES +:+
              " bytes; use the local stdio transport"))
  else gret (Value.object [("container", Value.Str container); ("file_name", Value.Str file_name);
                           ("content_b64", Value.Str (b64_encode bytes)); ("byte_size", Value.number (N.of_nat (length bytes)))]).

Definition write_tool (args : Value.t) : M Value.t :=
  let* container := glift (required_str args "container") in
  let* file_name := glift (required_str args "file_name") in
  let* content_b64 := glift (required_str args "content_b64") in
  let* bytes := glift (decode_base64 content_b64) in
  let* _ := call (OpWriteFile container file_name bytes) (write_file container file_name bytes) in
  gret (Value.object [ok_true; ("byte_size", Value.number (N.of_nat (length bytes)))]).

Definition create_container_tool (args : Value.t) : M Value.t :=
  let* name := glift (required_str args "name") in
  let mode := default "DIRECT" (Value.get_str "mode" args) in
  let description := Value.get_str "description" args in
  let* _ := call (OpCreateContainer name mode description) (create_container name mode description) in
  gret (Value.object [ok_true; ("name", Value.Str name); ("mode", Value.Str mode)]).

Definition export_tool : M Value.t :=
  let* agents := call OpListAgents list_agents in
  let* now := instant in
  gret (export_envelope agents (unix_seconds now)).

Definition import_tool (args : Value.t) : M Value.t :=
  let* import := glift (validate_agent_import decode_error args) in
  let* r := call (OpImportAgents (ValidatedAgentImport.entries import) (ValidatedAgentImport.replace_existing import))
              (import_agents_atomically (ValidatedAgentImport.entries import) (ValidatedAgentImport.replace_existing import)) in
  let count (n : nat) := Value.number (N.of_nat n) in
  gret (Value.object
    [("imported_count", count (length (AgentImportResult.imported r)));
     ("skipped_count", count (length (AgentImportResult.skipped r)));
     ("revoked_count", count (length (AgentImportResult.revoked r)));
     ("imported", Value.Array (map (λ a, Value.object [("name", Value.Str (ImportedAgent.name a));
                                                       ("agent_id", Value.Str (ImportedAgent.agent_id a));
                                                       ("one_time_token", Value.Str (ImportedAgent.one_time_token a))])
                                 (AgentImportResult.imported r)));
     ("skipped", Value.Array (map Value.Str (AgentImportResult.skipped r)));
     ("revoked", Value.Array (map Value.Str (AgentImportResult.revoked r)))]).

Definition encrypt_tool (args : Value.t) : M Value.t :=
  let* key_ref := glift (required_str args "key_ref") in
  let* plaintext_b64 := glift (required_str args "plaintext_b64") in
  let* plaintext := glift (decode_base64 plaintext_b64) in
  let* ciphertext_b64 := call (OpTransitEncrypt key_ref plaintext) (transit_encrypt key_ref plaintext) in
  gret (Value.object [("key_ref", Value.Str key_ref); ("ciphertext_b64", Value.Str ciphertext_b64)]).

Definition decrypt_tool (args : Value.t) : M Value.t :=
  let* key_ref := glift (required_str args "key_ref") in
  let* ciphertext_b64 := glift (required_str args "ciphertext_b64") in
  let* plaintext := call (OpTransitDecrypt key_ref ciphertext_b64) (transit_decrypt key_ref ciphertext_b64) in
  gret (Value.object [("key_ref", Value.Str key_ref); ("plaintext_b64", Value.Str (b64_encode plaintext))]).

Definition sign_tool (args : Value.t) : M Value.t :=
  let* key_ref := glift (required_str args "key_ref") in
  let* payload_b64 := glift (required_str args "payload_b64") in
  let* payload := glift (decode_base64 payload_b64) in
  let* signature_b64 := call (OpSign key_ref payload) (sign key_ref payload) in
  let* public_key_b64 := call (OpSigningPublicKey key_ref) (signing_public_key key_ref) in
  gret (Value.object [("key_ref", Value.Str key_ref); ("signature_b64", Value.Str signature_b64);
                      ("public_key_b64", Value.Str public_key_b64)]).

Definition verify_tool (args : Value.t) : M Value.t :=
  glift (let? public_key_b64 := required_str args "public_key_b64" in
         let? payload_b64 := required_str args "payload_b64" in
         let? payload := decode_base64 payload_b64 in
         let? signature_b64 := required_str args "signature_b64" in
         let? signature := decode_base64 signature_b64 in
         let? public := decode_base64 public_key_b64 in
         let? valid := map_err crypto_error (ed25519_verify public payload signature) in
         Ok (Value.object [("valid", Value.Bool valid)])).

Definition create_broker_tool (args : Value.t) : M Value.t :=
  let* enabled := asks broker_enabled in
  if negb enabled then gfail BROKER_DISABLED
  else
    let* name := glift (required_str args "name") in
    let* secret := glift (required_str args "secret") in
    let* allow := glift (required_broker_allow args) in
    let* injection := glift (parse_broker_injection args) in
    let* info := call (OpBrokerCreate name secret allow injection) (broker_create name secret allow injection) in
    gret (BrokerSecretInfo.to_value info).

Definition execute_tool (name : string) (args : Value.t) (transport : AccessTransport.t) : M Value.t :=
  if bool_decide (name = "vault.list") then list_tool args
  else if bool_decide (name = "vault.read") then read_tool args transport
  else if bool_decide (name = "vault.write") then write_tool args
  else if bool_decide (name = "vault.delete") then
    let* container := glift (required_str args "container") in
    let* file_name := glift (required_str args "file_name") in
    let* _ := call (OpDeleteFile container file_name) (delete_file container file_name) in
    gret (Value.object [ok_true])
  else if bool_decide (name = "vault.create_container") then create_container_tool args
  else if bool_decide (name = "vault.destroy") then
    let* name := glift (required_str args "name") in
    let* _ := call (OpDestroyContainer name) (destroy_container name) in
    gret (Value.object [ok_true; ("name", Value.Str name)])
  else if bool_decide (name = "vault.info") then
    let* containers := call OpListContainers list_containers in
    λ w, (Ok (Value.object [("version", Value.Str crate_version);
                            ("custody_mode", Value.Str (match World.vault w with Some v => custody_mode_label v | None => "unknown" end));
                            ("containers", Value.number (N.of_nat (length containers)))]), w)
  else if bool_decide (name = "vault.export_agents") then export_tool
  else if bool_decide (name = "vault.import_agents") then import_tool args
  else if bool_decide (name = "vault.create_transit_key") then
    let* name := glift (required_str args "name") in
    let* info := call (OpTransitCreateKey name) (transit_create_key name) in
    gret (TransitKeyInfo.to_value info)
  else if bool_decide (name = "vault.list_transit_keys") then
    let* info := call OpTransitList transit_list in
    gret (Value.Array (map TransitKeyInfo.to_value info))
  else if bool_decide (name = "vault.encrypt") then encrypt_tool args
  else if bool_decide (name = "vault.decrypt") then decrypt_tool args
  else if bool_decide (name = "vault.sign") then sign_tool args
  else if bool_decide (name = "vault.create_signing_key") then
    let* name := glift (required_str args "name") in
    let* info := call (OpSigningCreateKey name) (signing_create_key name) in
    gret (SigningKeyInfo.to_value info)
  else if bool_decide (name = "vault.list_signing_keys") then
    let* info := call OpSigningList signing_list in
    gret (Value.Array (map SigningKeyInfo.to_value info))
  else if bool_decide (name = "vault.verify") then verify_tool args
  else if bool_decide (name = "vault.create_broker_secret") then create_broker_tool args
  else if bool_decide (name = "vault.list_broker_secrets") then
    let* enabled := asks broker_enabled in
    if negb enabled then gfail BROKER_DISABLED
    else
      let* info := call OpBrokerList broker_list in
      gret (Value.Array (map BrokerSecretInfo.to_value info))
  else gfail ("unknown tool: " +:+ name).

(** ** Audit, timing and the privacy filter *)

(** The event of an outcome; errors are replaced by fixed texts. *)
Definition audit_event (now : Z) (request : AccessRequest.t) (decision : AuditDecision.t) (detail : option string) :
    AuditEvent.t :=
  let error := match decision with
               | AuditDecision.Denied => Some "request denied"
               | AuditDecision.Error => Some "operation failed"
               | _ => None
               end in
  AuditEvent.mk now (AccessAction.audit_action (AccessRequest.action request)) decision
    (AccessTransport.as_str (AccessRequest.transport request)) (AccessRequest.container request)
    (AccessRequest.file_name request) (SecurityMode.as_str <$> AccessRequest.mode request)
    (N.of_nat <$> AccessRequest.byte_size request) detail error (AccessRequest.agent_id request) None.

Definition record_audit (request : AccessRequest.t) (decision : AuditDecision.t) (detail : option string) : M unit :=
  match McpServer.audit_sink server with
  | None => gret tt
  | Some record =>
      let* now := instant in
      let e := audit_event (utc now) request decision detail in
      λ w, let '(r, k) := record e (World.sink w) in
           (map_err (λ error, "authenticated audit log unavailable: " +:+ error) r,
            World.logged (World.with_sink w k) (Recorded e (is_ok r)))
  end.

Definition emit_timing (access : AccessRequest.t) (allowed : bool) (validate authorize execute filter : N) : M unit :=
  if McpServer.timing_sink server
  then emit (Timed (StageTimings.mk (AccessRequest.action access) (AccessRequest.mode access) (AccessRequest.byte_size access)
                      allowed validate authorize execute filter (validate + authorize + execute + filter)%N))
  else gret tt.

(** A slice of [redact] panics only on bytes that are not UTF-8, which never get there. *)
Definition apply_privacy_filter (access : AccessRequest.t) (value : Value.t) : result (Value.t * option string) string :=
  if negb (bool_decide (AccessRequest.action access = AccessAction.ReadFile))
     || negb (bool_decide (AccessRequest.mode access = Some SecurityMode.Anonymized))
  then Ok (value, None)
  else match Value.get_str "content_b64" value with
       | None => Err "anonymized read response is missing encoded content"
       | Some content_b64 =>
           let? bytes := map_err (λ _, "anonymized read response contains invalid base64") (b64_decode content_b64) in
           if negb (utf8_valid bytes)
           then Err "anonymized egress denied: content is not valid UTF-8 and cannot be safely redacted"
           else match Privacy.redact bytes Policy.all with
                | None => Err "panic"
                | Some redaction =>
                    let count := Redaction.count redaction in
                    let detail := Some ("anonymized: " +:+ (pretty count +:+ " pii span(s) masked")) in
                    let value := match value with
                                 | Value.Object m =>
                                     Value.Object
                                       (Value.insert "pii_redactions" (Value.number (N.of_nat count))
                                        (Value.insert "anonymized" (Value.Bool true)
                                         (Value.insert "byte_size" (Value.number (N.of_nat (length (Redaction.output redaction))))
                                          (Value.insert "content_b64" (Value.Str (b64_encode (Redaction.output redaction))) m))))
                                 | v => v
                                 end in
                    Ok (value, detail)
                end
       end.

(** The size limit of a response over the WebSocket. *)
Definition check_size (transport : AccessTransport.t) (value : Value.t) : result Value.t string :=
  if bool_decide (transport = AccessTransport.McpWs)
     && (MAX_WS_MESSAGE_BYTES <? N.of_nat (String.length (to_string value)))%N
  then Err ("response exceeds WebSocket limit of " +:+ (pretty MAX_WS_MESSAGE_BYTES +:+
            " bytes; use the local stdio transport"))
  else Ok value.

(** The result with the detail for its audit; the vault is locked during the request. *)
Definition execute_broker (args : Value.t) : M (result Value.t string * option string) :=
  match required_str args "secret_ref", required_str args "method", required_str args "url" with
  | Err e, _, _ | Ok _, Err e, _ | Ok _, Ok _, Err e => gret (Err e, None)
  | Ok secret_ref, Ok method, Ok url =>
      let headers := headers_of args in
      let body := Value.get_str "body" args in
      let* held := gtry lock in
      match held with
      | Err e => gret (Err e, None)
      | Ok _ =>
          let* enabled := asks broker_enabled in
          if negb enabled
          then gret (Err "broker disabled: set SV_ENABLE_BROKER to enable vault.broker_request", None)
          else
            let* outcome := gtry (call (OpBrokerRequest secret_ref method url headers body)
                                    (broker_request secret_ref method url headers body)) in
            gret (match outcome with
                  | Ok o =>
                      (Ok (Value.object [("status", Value.number (BrokerOutcome.status o));
                                         ("headers", headers_to_value (BrokerOutcome.headers o));
                                         ("body", Value.Str (BrokerOutcome.body o))]),
                       Some ("broker " +:+ (BrokerOutcome.method o +:+ (" " +:+ (BrokerOutcome.host o +:+
                             (" -> " +:+ pretty (BrokerOutcome.status o)))))))
                  | Err e => (Err e, None)
                  end)
      end
  end.

(** ** [call_tool] *)

Definition rate_key (transport : AccessTransport.t) (agent : option ResolvedAgent.t) : string :=
  match agent with
  | Some a => ResolvedAgent.agent_id a
  | None => "__shared__:" +:+ AccessTransport.as_str transport
  end.

Definition rate_gate (transport : AccessTransport.t) (agent : option ResolvedAgent.t) : M unit :=
  match McpServer.rate_limiter server with
  | None => gret tt
  | Some (limiter, window_text) =>
      let* now := instant in
      λ w, let '(r, state) := RateLimiter.check limiter window_text now (rate_key transport agent) (World.limiter w) in
           (map_err McpError.display r, World.with_limiter w state)
  end.

(** A refusal: its audit, its timing, and the error. *)
Definition refuse {A} (access : AccessRequest.t) (error : string) (timing : M unit) : M A :=
  let* _ := emit (Refused access) in
  let* audit := gtry (record_audit access AuditDecision.Denied None) in
  let* _ := timing in
  gfail (combine_denial_and_audit error audit).

Definition scope_gate (agent : option ResolvedAgent.t) (access : AccessRequest.t) (started : N) : M unit :=
  match agent with
  | None => gret tt
  | Some agent =>
      match enforce_scopes agent access with
      | Ok _ => gret tt
      | Err error => refuse access error (let* validate := elapsed started in emit_timing access false validate 0 0 0)
      end
  end.

Definition consent_gate (access : AccessRequest.t) (validate authorize_started : N) : M unit :=
  match McpServer.access_controller server with
  | None => emit (Authorized access)
  | Some authorize =>
      let* answer := λ w, let '(r, c) := authorize access (World.controller w) in (Ok r, World.with_controller w c) in
      match answer with
      | Ok _ => emit (Authorized access)
      | Err error =>
          refuse access error (let* authorized := elapsed authorize_started in emit_timing access false validate authorized 0 0)
      end
  end.

Definition outcome_audit {A} (access : AccessRequest.t) (result : result A string) (ok_detail error_detail : option string) :
    M unit :=
  match result with
  | Ok _ => record_audit access AuditDecision.Allowed ok_detail
  | Err _ => record_audit access AuditDecision.Error error_detail
  end.

Definition broker_call (access : AccessRequest.t) (args : Value.t) (validate authorize : N) : M Value.t :=
  let* execute_started := instant in
  let* (result, detail) := execute_broker args in
  let* execute := elapsed execute_started in
  let* audit := gtry (outcome_audit access result detail detail) in
  let* _ := emit_timing access (is_ok result) validate authorize execute 0 in
  glift (combine_result_and_audit result audit).

Definition filter_result (access : AccessRequest.t) (transport : AccessTransport.t) (result : result Value.t string) :
    Prelude.result Value.t string * option string :=
  let '(result, filter_detail) := match result with
                                  | Ok value => match apply_privacy_filter access value with
                                                | Ok (value, detail) => (Ok value, detail)
                                                | Err error => (Err error, None)
                                                end
                                  | Err error => (Err error, None)
                                  end in
  (let? value := result in check_size transport value, filter_detail).

(** When the vault was locked in the meantime the call ends without an outcome. *)
Definition vault_call (access : AccessRequest.t) (name : string) (args : Value.t) (transport : AccessTransport.t)
    (validate authorize : N) : M Value.t :=
  let* execute_started := instant in
  let* _ := lock in
  let* result := gtry (execute_tool name args transport) in
  let* execute := elapsed execute_started in
  let* filter_started := instant in
  let '(result, filter_detail) := filter_result access transport result in
  let* filter := elapsed filter_started in
  let* audit := gtry (outcome_audit access result filter_detail None) in
  let* _ := emit_timing access (is_ok result) validate authorize execute filter in
  glift (combine_result_and_audit result audit).

Definition call_tool (name : string) (args : Value.t) (transport : AccessTransport.t) (agent : option ResolvedAgent.t) :
    M Value.t :=
  let* started := instant in
  let* _ := rate_gate transport agent in
  let* _ := lock in
  let* access := build_access_request name args transport in
  let access := AccessRequest.with_agent access (ResolvedAgent.agent_id <$> agent) in
  let* _ := scope_gate agent access started in
  let* validate := elapsed started in
  let* authorize_started := instant in
  let* _ := consent_gate access validate authorize_started in
  let* authorize := elapsed authorize_started in
  let* _ := record_audit access AuditDecision.Attempted None in
  if bool_decide (name = "vault.broker_request") then broker_call access args validate authorize
  else vault_call access name args transport validate authorize.
End server.
