(* ===== verification/McpInstance.v ===== *)
(** * A concrete vault for the MCP server

    Parameters of [Mcp] that satisfy its hypotheses: a vault that keeps containers in memory,
    a printer of JSON, and a few messages that a client may send. *)
From stdpp Require Import pretty.
From S2P Require Import Prelude Text Bytes Json AuditTypes Fs Crypto Storage VaultInstance Scopes AgentImport Mcp.

Module DemoVault.
(** A container: its name, its mode and its files. *)
Definition container : Type := string * (SecurityMode.t * list (string * string)).
Definition t : Type := list container.

Definition find (name : string) (v : t) : option (SecurityMode.t * list (string * string)) :=
  snd <$> List.find (λ c, bool_decide (c.1 = name)) v.

Definition read (c f : string) (v : t) : result (list N) string * t :=
  (match find c v with
   | Some (_, files) =>
       match List.find (λ kv, bool_decide (kv.1 = f)) files with
       | Some (_, text) => Ok (str_bytes text)
       | None => Err "no such file"
       end
   | None => Err "no such container"
   end, v).

Definition mode (c : string) (v : t) : result SecurityMode.t string * t :=
  (match find c v with Some (m, _) => Ok m | None => Err "no such container" end, v).

Definition destroy (c : string) (v : t) : result unit string * t :=
  (Ok tt, List.filter (λ x, negb (bool_decide (x.1 = c))) v).

Definition create (c m : string) (d : option string) (v : t) : result unit string * t :=
  match SecurityMode.parse m with
  | Ok mode => (Ok tt, (c, (mode, [])) :: v)
  | Err e => (Err (parse_error e), v)
  end.

Definition unsupported {A} (v : t) : result A string * t := (Err "unsupported", v).
End DemoVault.

#[global] Instance demo_facade : VaultFacade DemoVault.t := {|
  list_containers v := (Ok (map (λ c, ContainerInfo.mk c.1 c.2.1 (length c.2.2) None) v), v);
  list_files _ := DemoVault.unsupported;
  read_file := DemoVault.read;
  write_file _ _ _ := DemoVault.unsupported;
  delete_file _ _ := DemoVault.unsupported;
  create_container := DemoVault.create;
  container_mode := DemoVault.mode;
  destroy_container := DemoVault.destroy;
  list_agents v := (Ok [], v);
  import_agents_atomically _ _ := DemoVault.unsupported;
  transit_create_key _ := DemoVault.unsupported;
  transit_list v := (Ok [], v);
  transit_encrypt _ _ := DemoVault.unsupported;
  transit_decrypt _ _ := DemoVault.unsupported;
  sign _ _ := DemoVault.unsupported;
  signing_public_key _ := DemoVault.unsupported;
  signing_create_key _ := DemoVault.unsupported;
  signing_list v := (Ok [], v);
  broker_create _ _ _ _ := DemoVault.unsupported;
  broker_list v := (Ok [], v);
  broker_enabled _ := false;
  custody_mode_label _ := "demo";
  broker_request _ _ _ _ _ := DemoVault.unsupported
|}.

Fixpoint show (v : Value.t) : string :=
  match v with
  | Value.Null => "null"
  | Value.Bool b => if b then "true" else "false"
  | Value.Number (Some n) => pretty n
  | Value.Number None => "0.5"
  | Value.Str s => "'" +:+ s +:+ "'"
  | Value.Array l => "[" +:+ foldr (λ v s, show v +:+ "," +:+ s) "]" l
  | Value.Object m => "{" +:+ foldr (λ kv s, kv.1 +:+ ":" +:+ show kv.2 +:+ "," +:+ s) "}" m
  end.

Definition request (method : string) (params : Value.t) : Value.t :=
  Value.object [("id", Value.number 1); ("method", Value.Str method); ("params", params)].

Definition read_args : Value.t := Value.object [("container", Value.Str "notes"); ("file_name", Value.Str "a.txt")].

(** The messages that the printer's reader knows. *)
Definition messages : list (string * Value.t) :=
  [("pair", request "vault.pair" (Value.object [("secret", Value.Str "s3cret")]));
   ("guess", request "vault.pair" (Value.object [("secret", Value.Str "guess")]));
   ("ping", request "ping" Value.Null);
   ("read", request "tools/call" (Value.object [("name", Value.Str "vault.read"); ("arguments", read_args)]))].

#[global] Instance demo_mcp : McpEnv := {|
  from_str s := match List.find (λ m, bool_decide (m.1 = s)) messages with Some (_, v) => Ok v | None => Err "expected value" end;
  to_string := show;
  utf8_error _ := "invalid utf-8";
  decode_error _ := "invalid type";
  decode_allow _ := Err "invalid type";
  decode_injection _ := Err "invalid type";
  utc now := Z.of_N now;
  unix_seconds now := now;
  crate_version := "0.1.0"
|}.

(** A server with every hook: a controller that approves everything and counts, a sink that
    stores everything. *)
Definition demo_server : McpServer.t nat (list AuditEvent.t) :=
  McpServer.with_audit_sink
    (McpServer.with_access_controller (McpServer.new "s3cret") (λ _ n, (Ok tt, S n)))
    (λ e l, (Ok tt, e :: l)).

Definition demo_vault (mode : SecurityMode.t) : DemoVault.t := [("notes", (mode, [("a.txt", "to a@b.com.")]))].

Definition demo_world (mode : SecurityMode.t) (others : list (option DemoVault.t → option DemoVault.t)) :
    World.t DemoVault.t nat (list AuditEvent.t) :=
  World.mk _ _ _ (Some (demo_vault mode)) others 0 [] ∅ 0%N [] [].

Lemma demo_contents_are_bytes c f v l v' : read_file c f v = (Ok l, v') → Forall (λ b, (b < 256)%N) l.
Proof.
  unfold read_file, demo_facade, DemoVault.read. destruct (DemoVault.find c v) as [[m files]|]; [|done].
  destruct (List.find _ files) as [[n text]|]; [|done]. intros [= <- _]. apply str_bytes_lt.
Qed.

