(* ===== verification/McpTools.v ===== *)
(** * McpTools: the descriptors of the tools

    The literals that [tools/list] answers with, as sv-mcp writes them. *)
From S2P Require Import Prelude Json.

Definition broker_tool_descriptor : Value.t :=
  Value.object [("name", Value.Str "vault.broker_request");
   ("description", Value.Str "Perform an outbound HTTPS request using a vault-stored secret WITHOUT exposing it. The vault injects the credential, enforces the secret's destination allowlist and SSRF protections, and returns only the sanitized response. Requires desktop approval.");
   ("inputSchema", Value.object [("type", Value.Str "object");
    ("required", Value.Array (map Value.Str ["secret_ref"; "method"; "url"]));
    ("properties", Value.object [("secret_ref", Value.object [("type", Value.Str "string");
      ("description", Value.Str "Name of the brokered secret to inject.")]);
     ("method", Value.object [("type", Value.Str "string");
      ("description", Value.Str "HTTP method; must be allowed by the secret.")]);
     ("url", Value.object [("type", Value.Str "string");
      ("description", Value.Str "HTTPS target URL; host+path must match the allowlist.")]);
     ("headers", Value.object [("type", Value.Str "object");
      ("description", Value.Str "Optional extra request headers (auth headers are ignored).")]);
     ("body", Value.object [("type", Value.Str "string");
      ("description", Value.Str "Optional request body.")])]);
    ("additionalProperties", Value.Bool false)])].

Definition broker_secret_create_descriptor : Value.t :=
  Value.object [("name", Value.Str "vault.create_broker_secret");
   ("description", Value.Str "Create a brokered secret plus its destination allowlist. The secret value is stored wrapped in the vault and is never returned to the caller.");
   ("inputSchema", Value.object [("type", Value.Str "object");
    ("required", Value.Array (map Value.Str ["name"; "secret"; "allow"]));
    ("properties", Value.object [("name", Value.object [("type", Value.Str "string");
      ("description", Value.Str "Brokered secret name, used later as `secret_ref`.")]);
     ("secret", Value.object [("type", Value.Str "string");
      ("description", Value.Str "The cleartext secret value to wrap and store.")]);
     ("allow", Value.object [("type", Value.Str "array");
      ("description", Value.Str "Destination allowlist entries for the brokered secret.");
      ("items", Value.object [("type", Value.Str "object");
       ("required", Value.Array (map Value.Str ["host"; "path_prefix"; "methods"]));
       ("properties", Value.object [("host", Value.object [("type", Value.Str "string")]);
        ("path_prefix", Value.object [("type", Value.Str "string")]);
        ("methods", Value.object [("type", Value.Str "array");
         ("items", Value.object [("type", Value.Str "string")])]);
        ("allow_private_ip", Value.object [("type", Value.Str "boolean");
         ("default", Value.Bool false)])]);
       ("additionalProperties", Value.Bool false)])]);
     ("injection", Value.object [("type", Value.Str "object");
      ("description", Value.Str "Optional injection strategy. Omit for bearer auth.");
      ("properties", Value.object [("type", Value.object [("type", Value.Str "string");
        ("enum", Value.Array (map Value.Str ["bearer_auth"; "header"]))]);
       ("name", Value.object [("type", Value.Str "string");
        ("description", Value.Str "Required when `type` is `header`.")])]);
      ("additionalProperties", Value.Bool false)])]);
    ("additionalProperties", Value.Bool false)])].

Definition broker_secret_list_descriptor : Value.t :=
  Value.object [("name", Value.Str "vault.list_broker_secrets");
   ("description", Value.Str "List brokered-secret metadata and allowlists without returning secret values.");
   ("inputSchema", Value.object [("type", Value.Str "object");
    ("properties", Value.object []);
    ("additionalProperties", Value.Bool false)])].

Definition base_tool_descriptors : list Value.t :=
  [Value.object [("name", Value.Str "vault.list");
    ("description", Value.Str "List containers in the vault, or files in a single container. Requests for protected containers may require desktop approval.");
    ("inputSchema", Value.object [("type", Value.Str "object");
     ("properties", Value.object [("container", Value.object [("type", Value.Str "string");
       ("description", Value.Str "Container name. Omit to list all containers.")]);
      ("otp", Value.object [("type", Value.Str "string");
       ("description", Value.Str "One-time code shown on the trusted desktop (OTP-mode containers only). Resend the same request carrying this code to authorize.")])]);
     ("additionalProperties", Value.Bool false)])];
   Value.object [("name", Value.Str "vault.read");
    ("description", Value.Str "Read and decrypt a single file from a container. Returns base64-encoded content.");
    ("inputSchema", Value.object [("type", Value.Str "object");
     ("required", Value.Array (map Value.Str ["container"; "file_name"]));
     ("properties", Value.object [("container", Value.object [("type", Value.Str "string")]);
      ("file_name", Value.object [("type", Value.Str "string")]);
      ("otp", Value.object [("type", Value.Str "string");
       ("description", Value.Str "One-time code shown on the trusted desktop (OTP-mode containers only). Resend the same request carrying this code to authorize.")])]);
     ("additionalProperties", Value.Bool false)])];
   Value.object [("name", Value.Str "vault.write");
    ("description", Value.Str "Encrypt and write a file into a container. content_b64 is base64-encoded plaintext.");
    ("inputSchema", Value.object [("type", Value.Str "object");
     ("required", Value.Array (map Value.Str ["container"; "file_name"; "content_b64"]));
     ("properties", Value.object [("container", Value.object [("type", Value.Str "string")]);
      ("file_name", Value.object [("type", Value.Str "string")]);
      ("content_b64", Value.object [("type", Value.Str "string");
       ("description", Value.Str "Base64-encoded plaintext content.")]);
      ("otp", Value.object [("type", Value.Str "string");
       ("description", Value.Str "One-time code shown on the trusted desktop (OTP-mode containers only). Resend the same request carrying this code to authorize.")])]);
     ("additionalProperties", Value.Bool false)])];
   Value.object [("name", Value.Str "vault.delete");
    ("description", Value.Str "Delete a file from a container.");
    ("inputSchema", Value.object [("type", Value.Str "object");
     ("required", Value.Array (map Value.Str ["container"; "file_name"]));
     ("properties", Value.object [("container", Value.object [("type", Value.Str "string")]);
      ("file_name", Value.object [("type", Value.Str "string")]);
      ("otp", Value.object [("type", Value.Str "string");
       ("description", Value.Str "One-time code shown on the trusted desktop (OTP-mode containers only). Resend the same request carrying this code to authorize.")])]);
     ("additionalProperties", Value.Bool false)])];
   Value.object [("name", Value.Str "vault.create_container");
    ("description", Value.Str "Create a new empty container (directory) at the vault root. The mode determines the default security level inherited by files.");
    ("inputSchema", Value.object [("type", Value.Str "object");
     ("required", Value.Array (map Value.Str ["name"]));
     ("properties", Value.object [("name", Value.object [("type", Value.Str "string");
       ("description", Value.Str "Alphanumeric, hyphen, underscore. <=64 chars.")]);
      ("mode", Value.object [("type", Value.Str "string");
       ("enum", Value.Array (map Value.Str ["DIRECT"; "APPROVAL"; "OTP"; "ANONYMIZED"; "ZKP"; "NATIVE"]));
       ("default", Value.Str "DIRECT")]);
      ("description", Value.object [("type", Value.Str "string");
       ("description", Value.Str "Optional human-readable description.")]);
      ("otp", Value.object [("type", Value.Str "string");
       ("description", Value.Str "One-time code shown on the trusted desktop (OTP-mode only). Resend the same request carrying this code to authorize.")])]);
     ("additionalProperties", Value.Bool false)])];
   Value.object [("name", Value.Str "vault.destroy");
    ("description", Value.Str "Permanently destroy a container and all its contents. This is irreversible. Requires desktop approval for APPROVAL/OTP/ZKP containers.");
    ("inputSchema", Value.object [("type", Value.Str "object");
     ("required", Value.Array (map Value.Str ["name"]));
     ("properties", Value.object [("name", Value.object [("type", Value.Str "string");
       ("description", Value.Str "Container name to destroy.")]);
      ("otp", Value.object [("type", Value.Str "string");
       ("description", Value.Str "One-time code shown on the trusted desktop (OTP-mode only).")])]);
     ("additionalProperties", Value.Bool false)])];
   Value.object [("name", Value.Str "vault.info");
    ("description", Value.Str "Return vault metadata: version, custody mode, and number of containers. No parameters required. Safe to call without any approval.");
    ("inputSchema", Value.object [("type", Value.Str "object");
     ("properties", Value.object []);
     ("additionalProperties", Value.Bool false)])];
   Value.object [("name", Value.Str "vault.create_transit_key");
    ("description", Value.Str "Create a symmetric transit key held by the vault.");
    ("inputSchema", Value.object [("type", Value.Str "object");
     ("required", Value.Array (map Value.Str ["name"]));
     ("properties", Value.object [("name", Value.object [("type", Value.Str "string");
       ("description", Value.Str "Transit key name.")])]);
     ("additionalProperties", Value.Bool false)])];
   Value.object [("name", Value.Str "vault.list_transit_keys");
    ("description", Value.Str "List transit-key metadata without revealing key bytes.");
    ("inputSchema", Value.object [("type", Value.Str "object");
     ("properties", Value.object []);
     ("additionalProperties", Value.Bool false)])];
   Value.object [("name", Value.Str "vault.encrypt");
    ("description", Value.Str "Encrypt plaintext under a named transit key held by the vault. The key never leaves the vault. Returns base64 ciphertext.");
    ("inputSchema", Value.object [("type", Value.Str "object");
     ("required", Value.Array (map Value.Str ["key_ref"; "plaintext_b64"]));
     ("properties", Value.object [("key_ref", Value.object [("type", Value.Str "string");
       ("description", Value.Str "Transit key reference, e.g. `mykey` or `mykey:v1`.")]);
      ("plaintext_b64", Value.object [("type", Value.Str "string");
       ("description", Value.Str "Base64-encoded plaintext.")])]);
     ("additionalProperties", Value.Bool false)])];
   Value.object [("name", Value.Str "vault.decrypt");
    ("description", Value.Str "Decrypt base64 ciphertext produced by vault.encrypt under the same transit key.");
    ("inputSchema", Value.object [("type", Value.Str "object");
     ("required", Value.Array (map Value.Str ["key_ref"; "ciphertext_b64"]));
     ("properties", Value.object [("key_ref", Value.object [("type", Value.Str "string")]);
      ("ciphertext_b64", Value.object [("type", Value.Str "string")])]);
     ("additionalProperties", Value.Bool false)])];
   Value.object [("name", Value.Str "vault.create_signing_key");
    ("description", Value.Str "Create an Ed25519 signing key held by the vault.");
    ("inputSchema", Value.object [("type", Value.Str "object");
     ("required", Value.Array (map Value.Str ["name"]));
     ("properties", Value.object [("name", Value.object [("type", Value.Str "string");
       ("description", Value.Str "Signing key name.")])]);
     ("additionalProperties", Value.Bool false)])];
   Value.object [("name", Value.Str "vault.list_signing_keys");
    ("description", Value.Str "Listing signing-key metadata including exportable public keys.");
    ("inputSchema", Value.object [("type", Value.Str "object");
     ("properties", Value.object []);
     ("additionalProperties", Value.Bool false)])];
   Value.object [("name", Value.Str "vault.sign");
    ("description", Value.Str "Sign a payload with a vault-held Ed25519 key. The private key never leaves the vault. Returns a base64 signature and the public key.");
    ("inputSchema", Value.object [("type", Value.Str "object");
     ("required", Value.Array (map Value.Str ["key_ref"; "payload_b64"]));
     ("properties", Value.object [("key_ref", Value.object [("type", Value.Str "string");
       ("description", Value.Str "Signing key reference.")]);
      ("payload_b64", Value.object [("type", Value.Str "string");
       ("description", Value.Str "Base64-encoded payload to sign.")])]);
     ("additionalProperties", Value.Bool false)])];
   Value.object [("name", Value.Str "vault.verify");
    ("description", Value.Str "Verify an Ed25519 signature over a payload against a public key. Stateless.");
    ("inputSchema", Value.object [("type", Value.Str "object");
     ("required", Value.Array (map Value.Str ["public_key_b64"; "payload_b64"; "signature_b64"]));
     ("properties", Value.object [("public_key_b64", Value.object [("type", Value.Str "string")]);
      ("payload_b64", Value.object [("type", Value.Str "string")]);
      ("signature_b64", Value.object [("type", Value.Str "string")])]);
     ("additionalProperties", Value.Bool false)])];
   Value.object [("name", Value.Str "vault.export_agents");
    ("description", Value.Str "Export every registered agent identity as a JSON envelope. Names, scopes, expiry, and revoked flag are included; agent_id and token_hash are intentionally EXCLUDED (tokens are regenerated on import). Output is suitable for backup or migration to another vault.");
    ("inputSchema", Value.object [("type", Value.Str "object");
     ("properties", Value.object []);
     ("additionalProperties", Value.Bool false)])];
   Value.object [("name", Value.Str "vault.import_agents");
    ("description", Value.Str "Import agent identities from a JSON envelope produced by vault.export_agents (or any compatible tool). Fresh tokens are minted for each imported entry and returned ONCE in the response. Use mode=create_only to skip names that already exist, or mode=create_or_replace to revoke existing names first.");
    ("inputSchema", Value.object [("type", Value.Str "object");
     ("required", Value.Array (map Value.Str ["envelope"]));
     ("properties", Value.object [("envelope", Value.object [("type", Value.Str "object");
       ("description", Value.Str "JSON envelope with version, exported_at, agents[]. Required.")]);
      ("mode", Value.object [("type", Value.Str "string");
       ("enum", Value.Array (map Value.Str ["create_only"; "create_or_replace"]));
       ("default", Value.Str "create_only")])]);
     ("additionalProperties", Value.Bool false)])]].

Definition tool_descriptors (broker_enabled : bool) : Value.t :=
  Value.Array (base_tool_descriptors
               ++ if broker_enabled
                  then [broker_secret_create_descriptor; broker_secret_list_descriptor; broker_tool_descriptor]
                  else []).
