(* ===== verification/McpSession.v ===== *)
(** * McpSession: pairing, dispatch and the connections

    sv-mcp's JSON-RPC dispatcher, the pairing of a connection, the WebSocket loop over the
    messages of one connection, the stdio loop over its lines, and the bound on the number of
    connections.  The transport is the list of what arrives; a message may come with a failure
    to send what answers it. *)
From S2P Require Import Prelude Text Bytes Json AuditTypes Fs Crypto Storage Scopes AgentImport Exposure Mcp McpTools.

(** ** Responses *)

Definition ok_response (id result : Value.t) : Value.t :=
  Value.object [("jsonrpc", Value.Str "2.0"); ("id", id); ("result", result)].

Definition error_response (id : Value.t) (code : Z) (message : string) : Value.t :=
  Value.object [("jsonrpc", Value.Str "2.0"); ("id", id);
                ("error", Value.object [("code", Value.Number (Some code)); ("message", Value.Str message)])].

Definition tool_result `{McpEnv} (r : result Value.t string) : Value.t :=
  let '(text, is_error) := match r with Ok value => (to_string value, false) | Err error => (error, true) end in
  Value.object [("content", Value.Array [Value.object [("type", Value.Str "text"); ("text", Value.Str text)]]);
                ("isError", Value.Bool is_error)].

Module PairState.
Inductive t := Unpaired | AlreadyPaired (agent : option ResolvedAgent.t) | Failed.
Definition agent (self : t) : option ResolvedAgent.t := match self with AlreadyPaired a => a | _ => None end.
End PairState.

(** What arrives on a WebSocket: nothing within the time limit, the end of the stream, an
    error, or a message. *)
Inductive incoming :=
| TimedOut
| EndOfStream
| Broken (message : string)
| Text (bytes : list N)
| Binary (bytes : list N)
| Ping (payload : list N)
| Close
| OtherMessage.

Inductive outgoing := SentText (text : string) | SentPong (payload : list N) | SentClose.

Section session.
Context {V C K : Type} `{VF : VaultFacade V} `{ME : McpEnv} `{PR : Prims} (server : McpServer.t C K).

Abbreviation W := (World.t V C K).

(** With an authenticator it decides; without one the shared secret does, and binds no agent. *)
Definition resolve_pairing (agent_id : option string) (token : string) : result (option ResolvedAgent.t) string :=
  match McpServer.agent_authenticator server with
  | Some authenticate => let? agent := authenticate agent_id token in Ok (Some agent)
  | None =>
      let token_matches := bool_decide (str_bytes token = str_bytes (McpServer.pairing_secret server)) in
      if bool_decide (agent_id = None) && token_matches then Ok None else Err "Unpaired connection"
  end.

Definition pairing_token (params : Value.t) : string :=
  default "" (match Value.get_str "token" params with Some t => Some t | None => Value.get_str "secret" params end).

(** The request of an unpaired connection. *)
Definition pair_step (id : Value.t) (method : string) (params : Value.t) : Value.t * PairState.t :=
  if bool_decide (method = "vault.pair") then
    match resolve_pairing (Value.get_str "agent_id" params) (pairing_token params) with
    | Ok agent =>
        (ok_response id (Value.object [("paired", Value.Bool true);
                                       ("agent_id", Value.of_option (λ a, Value.Str (ResolvedAgent.agent_id a)) agent)]),
         PairState.AlreadyPaired agent)
    | Err _ => (error_response id UNPAIRED "Unpaired connection", PairState.Failed)
    end
  else (error_response id UNPAIRED "Unpaired connection", PairState.Failed).

(** The methods of a connection that is not unpaired. *)
Definition run_method (id : Value.t) (method : string) (params : Value.t) (pairing : PairState.t)
    (transport : AccessTransport.t) (w : W) : Value.t * W :=
  if bool_decide (method = "initialize") then
    (ok_response id (Value.object
       [("protocolVersion", Value.Str "2024-11-05");
        ("serverInfo", Value.object [("name", Value.Str "sovereign-vault"); ("version", Value.Str crate_version)]);
        ("capabilities", Value.object [("tools", Value.object [])])]), w)
  else if bool_decide (method = "tools/list") then
    let w := World.interfere w in
    let enabled := match World.vault w with Some v => broker_enabled v | None => false end in
    (ok_response id (Value.object [("tools", tool_descriptors enabled)]), w)
  else if bool_decide (method = "tools/call") then
    let name := default "" (Value.get_str "name" params) in
    let arguments := default Value.Null (Value.get "arguments" params) in
    let '(result, w) := call_tool server name arguments transport (PairState.agent pairing) w in
    (ok_response id (tool_result result), w)
  else if bool_decide (method = "vault.pair") then (ok_response id (Value.object [("paired", Value.Bool true)]), w)
  else if bool_decide (method = "ping") then (ok_response id (Value.object []), w)
  else (error_response id METHOD_NOT_FOUND ("method not found: " +:+ method), w).

(** A message without a method or with a null id is not answered. *)
Definition dispatch (raw : string) (pairing : PairState.t) (transport : AccessTransport.t) (w : W) :
    option Value.t * PairState.t * W :=
  match from_str raw with
  | Err e => (Some (error_response Value.Null PARSE_ERROR e), pairing, w)
  | Ok req =>
      match Value.get_str "method" req with
      | None => (None, pairing, w)
      | Some method =>
          let params := default Value.Null (Value.get "params" req) in
          match Value.get "id" req with
          | None | Some Value.Null => (None, pairing, w)
          | Some id =>
              match pairing with
              | PairState.Unpaired => let '(response, pairing) := pair_step id method params in (Some response, pairing, w)
              | _ => let '(response, w) := run_method id method params pairing transport w in (Some response, pairing, w)
              end
          end
      end
  end.

(** ** The WebSocket loop *)

Definition trimmed (bytes : list N) : string := str_of_bytes (trim bytes).

(** One turn with a text: the response is sent, and a failed pairing closes the connection.
    [failure] is the error of sending the response, if that fails; the result tells whether
    the loop goes on. *)
Definition ws_text (bytes : list N) (failure : option string) (pairing : PairState.t) (w : W) :
    result bool McpError.t * PairState.t * W * list outgoing :=
  let '(response, pairing, w) := dispatch (trimmed bytes) pairing AccessTransport.McpWs w in
  let sent := match response with Some r => [SentText (to_string r)] | None => [] end in
  match response, failure with
  | Some _, Some e => (Err (McpError.Transport e), pairing, w, [])
  | _, _ =>
      match pairing with
      | PairState.Failed => (Ok false, pairing, w, sent ++ [SentClose])
      | _ => (Ok true, pairing, w, sent)
      end
  end.

(** The loop over what arrives, each with the failure to send what answers it; when the list
    ends the connection is still open. *)
Fixpoint handle_ws (messages : list (incoming * option string)) (pairing : PairState.t) (w : W) (sent : list outgoing) :
    result unit McpError.t * PairState.t * W * list outgoing :=
  match messages with
  | [] => (Ok tt, pairing, w, sent)
  | (message, failure) :: messages' =>
      let text bytes :=
        match ws_text bytes failure pairing w with
        | (Ok true, pairing, w, more) => handle_ws messages' pairing w (sent ++ more)
        | (Ok false, pairing, w, more) => (Ok tt, pairing, w, sent ++ more)
        | (Err e, pairing, w, more) => (Err e, pairing, w, sent ++ more)
        end in
      match message with
      | TimedOut => (Err (McpError.Transport "WebSocket connection timed out"), pairing, w, sent)
      | EndOfStream => (Ok tt, pairing, w, sent)
      | Broken e => (Err (McpError.Transport e), pairing, w, sent)
      | Text bytes => text bytes
      | Binary bytes => if utf8_valid bytes then text bytes else (Err (McpError.Protocol (utf8_error bytes)), pairing, w, sent)
      | Ping p =>
          match failure with
          | None => handle_ws messages' pairing w (sent ++ [SentPong p])
          | Some e => (Err (McpError.Transport e), pairing, w, sent)
          end
      | Close => (Ok tt, pairing, w, sent)
      | OtherMessage => handle_ws messages' pairing w sent
      end
  end.

(** The handshake may run out of time ([None]) or fail. *)
Definition handle_ws_conn (handshake : option (result unit string)) (messages : list (incoming * option string)) (w : W) :
    result unit McpError.t * PairState.t * W * list outgoing :=
  match handshake with
  | None => (Err (McpError.Transport "WebSocket handshake timed out"), PairState.Unpaired, w, [])
  | Some (Err e) => (Err (McpError.Transport e), PairState.Unpaired, w, [])
  | Some (Ok _) => handle_ws messages PairState.Unpaired w []
  end.

(** ** The stdio loop *)

(** Every line is dispatched as paired, without an agent.  A line is valid UTF-8, or reading
    it fails; writing its response may fail. *)
Fixpoint serve_stdio (input : list (result (list N) string * option string)) (w : W) (sent : list string) :
    result unit McpError.t * W * list string :=
  match input with
  | [] => (Ok tt, w, sent)
  | (Err e, _) :: _ => (Err (McpError.Io e), w, sent)
  | (Ok line, failure) :: input' =>
      let text := trim line in
      if bool_decide (text = []) then serve_stdio input' w sent
      else
        let '(response, _, w) := dispatch (str_of_bytes text) (PairState.AlreadyPaired None) AccessTransport.McpStdio w in
        match response, failure with
        | Some _, Some e => (Err (McpError.Io e), w, sent)
        | Some r, None => serve_stdio input' w (sent ++ [to_string r])
        | None, _ => serve_stdio input' w sent
        end
  end.
End session.

(** ** The listener: connections that are open, and what happens at it *)

Inductive listener_event := Accepted (peer_is_loopback : bool) | AcceptFailed | ConnectionEnded.

Definition listener_step (open : nat) (e : listener_event) : nat :=
  match e with
  | Accepted peer_is_loopback =>
      if negb peer_is_loopback then open
      else if open <? MAX_WS_CONNECTIONS then open + 1 else open
  | AcceptFailed => open
  | ConnectionEnded => open - 1
  end.

(** [serve_ws_listener] refuses a listener of another address before it accepts. *)
Definition serve_ws_listener (listener_is_loopback : bool) (events : list listener_event) : option nat :=
  if negb listener_is_loopback then None else Some (foldl listener_step 0 events).
