(* ===== verification/McpTheorems.v ===== *)
(** * McpTheorems: every tool call is gated and recorded

    The log of a call, latest first, is described by [traces]: what a computation appends and
    what it answers.  The call of a tool appends the reading of a mode, the authorization, the
    recorded attempt, the calls of the vault that the approved request describes, and the
    recorded outcome, in this order. *)
From stdpp Require Import pretty.
From S2P Require Import Prelude Text Bytes Privacy Json AuditTypes Fs Crypto Storage VaultInstance Scopes AgentImport Mcp McpInstance.

(** ** What a call of the vault needs the request to say *)

Definition is_mode_read (op : vault_op) : Prop := match op with OpContainerMode _ => True | _ => False end.

(** The call [op] is one that the request describes, for the arguments [args]. *)
Definition performs `{McpEnv} `{Prims} (args : Value.t) (r : AccessRequest.t) (op : vault_op) : Prop :=
  let a := AccessRequest.action r in
  let on c := AccessRequest.container r = Some c in
  let file f := AccessRequest.file_name r = Some f in
  let str key s := required_str args key = Ok s in
  let bytes key l := ∃ s, str key s ∧ decode_base64 s = Ok l in
  match op with
  | OpListContainers => a = AccessAction.ListContainers ∨ a = AccessAction.VaultInfo
  | OpListFiles c => a = AccessAction.ListFiles ∧ on c
  | OpReadFile c f => a = AccessAction.ReadFile ∧ on c ∧ file f
  | OpWriteFile c f p => a = AccessAction.WriteFile ∧ on c ∧ file f ∧ AccessRequest.byte_size r = Some (length p)
                         ∧ bytes "content_b64" p
  | OpDeleteFile c f => a = AccessAction.DeleteFile ∧ on c ∧ file f
  | OpCreateContainer c m _ => a = AccessAction.CreateContainer ∧ on c ∧
                               ∃ mode, SecurityMode.parse m = Ok mode ∧ AccessRequest.mode r = Some mode
  | OpContainerMode _ => False
  | OpDestroyContainer c => a = AccessAction.DestroyContainer ∧ on c
  | OpListAgents => a = AccessAction.ExportAgents
  | OpImportAgents entries replace =>
      a = AccessAction.ImportAgents ∧
      ∃ import, validate_agent_import decode_error args = Ok import ∧ entries = ValidatedAgentImport.entries import ∧
                replace = ValidatedAgentImport.replace_existing import ∧
                AccessRequest.import_summary r = Some (ValidatedAgentImport.summary import)
  | OpTransitCreateKey n => a = AccessAction.CreateTransitKey ∧ str "name" n
  | OpTransitList => a = AccessAction.ListTransitKeys
  | OpTransitEncrypt k p => a = AccessAction.Encrypt ∧ str "key_ref" k ∧ bytes "plaintext_b64" p
  | OpTransitDecrypt k c => a = AccessAction.Decrypt ∧ str "key_ref" k ∧ str "ciphertext_b64" c
  | OpSign k p => a = AccessAction.Sign ∧ str "key_ref" k ∧ bytes "payload_b64" p
  | OpSigningPublicKey k => a = AccessAction.Sign ∧ str "key_ref" k
  | OpSigningCreateKey n => a = AccessAction.CreateSigningKey ∧ str "name" n
  | OpSigningList => a = AccessAction.ListSigningKeys
  | OpBrokerCreate n s allow i => a = AccessAction.CreateBrokerSecret ∧ str "name" n ∧ str "secret" s ∧
                                  required_broker_allow args = Ok allow ∧ parse_broker_injection args = Ok i
  | OpBrokerList => a = AccessAction.ListBrokerSecrets
  | OpBrokerRequest s m u h b => a = AccessAction.Broker ∧ str "secret_ref" s ∧ str "method" m ∧ str "url" u ∧
                                 h = headers_of args ∧ b = Value.get_str "body" args
  end.

(** The tests of a name that is known. *)
Ltac run_names :=
  repeat match goal with
    | |- context [bool_decide (?a = ?b)] =>
        let v := eval vm_compute in (bool_decide (a = b)) in
        lazymatch v with
        | true => rewrite (bool_decide_true (a = b)) by reflexivity
        | false => rewrite (bool_decide_false (a = b)) by discriminate
        end
    end.

(** Runs the successful lifted steps of [H]. *)
Ltac lifted H :=
  repeat match type of H with
    | gbind (glift ?r) _ _ = _ =>
        let x := fresh "x" in let w := fresh "w" in let Hx := fresh "Hx" in
        step H x w Hx; injection Hx as Hx <-
    end.

Section traces.
Context {V C K : Type} `{VF : VaultFacade V} `{ME : McpEnv} `{PR : Prims} (server : McpServer.t C K).

Abbreviation W := (World.t V C K).
Abbreviation M := (GS W string).

Definition traces {A} (m : M A) (Q : list event → result A string → Prop) : Prop :=
  ∀ w, ∃ new, World.log (m w).2 = new ++ World.log w ∧ Q new (m w).1.

Lemma traces_mono {A} (m : M A) (Q Q' : list event → result A string → Prop) :
  traces m Q → (∀ new r, Q new r → Q' new r) → traces m Q'.
Proof. intros Hm HQ w. destruct (Hm w) as (new & ? & ?). exists new. auto. Qed.

Lemma traces_pure {A} (r : result A string) (m : M A) (Q : list event → result A string → Prop) :
  (∀ w, (m w).1 = r ∧ World.log (m w).2 = World.log w) → Q [] r → traces m Q.
Proof. intros Hm HQ w. destruct (Hm w) as [-> ->]. by exists []. Qed.

Lemma traces_lift {A} (r : result A string) (Q : list event → result A string → Prop) : Q [] r → traces (glift r) Q.
Proof. by apply traces_pure. Qed.
Lemma traces_ret {A} (a : A) (Q : list event → result A string → Prop) : Q [] (Ok a) → traces (gret a) Q.
Proof. by apply traces_pure. Qed.
Lemma traces_fail {A} e (Q : list event → result A string → Prop) : Q [] (Err e) → traces (gfail e) Q.
Proof. by apply traces_pure. Qed.

Lemma traces_bind {A B} (m : M A) (k : A → M B) Q (R : list event → result B string → Prop) :
  traces m Q → (∀ new e, Q new (Err e) → R new (Err e)) →
  (∀ new a, Q new (Ok a) → traces (k a) (λ new' r, R (new' ++ new) r)) → traces (gbind m k) R.
Proof.
  intros Hm He Hk w. destruct (Hm w) as (new & Hlog & HQ). unfold gbind. destruct (m w) as [[a|e] w1]; simpl in *.
  - destruct (Hk _ _ HQ w1) as (new' & Hlog' & HR). exists (new' ++ new). by rewrite Hlog', Hlog, app_assoc.
  - exists new. auto.
Qed.

Lemma traces_try {A} (m : M A) (Q : list event → result (result A string) string → Prop) :
  traces m (λ new r, Q new (Ok r)) → traces (gtry m) Q.
Proof. intros Hm w. pose proof (Hm w) as H. unfold gtry. destruct (m w). exact H. Qed.

Lemma traces_instant Q : (∀ now, Q [] (Ok now)) → traces instant Q.
Proof. intros HQ w. exists []. split; [done|apply HQ]. Qed.

Lemma log_interfere (w : W) : World.log (World.interfere w) = World.log w.
Proof. unfold World.interfere. by destruct (World.others w). Qed.

Lemma traces_lock Q : Q [] (Ok tt) → Q [] (Err LOCKED) → traces lock Q.
Proof. intros ? ? w. unfold lock. exists []. destruct (World.vault _); simpl; by rewrite log_interfere. Qed.

Lemma traces_call {A} op (f : V → result A string * V) Q :
  Q [] (Err LOCKED) → (∀ v r v', f v = (r, v') → Q [Called op] r) → traces (call op f) Q.
Proof.
  intros H0 H1 w. unfold call. destruct (World.vault w) as [v|]; [|by exists []].
  destruct (f v) as [r v'] eqn:Hf. exists [Called op]. simpl. eauto.
Qed.

Lemma traces_asks f Q : (∀ b, Q [] (Ok b)) → traces (asks f) Q.
Proof. intros HQ w. exists []. split; [done|apply HQ]. Qed.

Lemma traces_emit e Q : Q [e] (Ok tt) → traces (emit e) Q.
Proof. intros ? w. by exists [e]. Qed.

Lemma traces_elapsed started Q : (∀ now, Q [] (Ok now)) → traces (elapsed started) Q.
Proof. intros HQ w. exists []. split; [done|apply HQ]. Qed.

(** ** Execution *)

(** The calls of the vault in a segment of the log. *)
Definition only_calls (P : vault_op → Prop) (new : list event) : Prop :=
  Forall (λ e, ∃ op, e = Called op ∧ P op) new.

Lemma only_calls_app P new1 new2 : only_calls P new1 → only_calls P new2 → only_calls P (new1 ++ new2).
Proof. intros. by apply Forall_app. Qed.

Lemma only_calls_nil P : only_calls P [].
Proof. constructor. Qed.

Definition executes {A} (P : vault_op → Prop) (m : M A) : Prop := traces m (λ new _, only_calls P new).

Lemma executes_lift {A} P (r : result A string) : executes P (glift r).
Proof. apply traces_lift, only_calls_nil. Qed.
Lemma executes_ret {A} P (a : A) : executes P (gret a).
Proof. apply traces_ret, only_calls_nil. Qed.
Lemma executes_fail {A} P e : executes P (gfail (A := A) e).
Proof. apply traces_fail, only_calls_nil. Qed.
Lemma executes_call {A} (P : vault_op → Prop) op (f : V → result A string * V) : P op → executes P (call op f).
Proof. intros HP. apply traces_call; [constructor|intros; repeat constructor; eauto]. Qed.
Lemma executes_bind {A B} P (m : M A) (k : A → M B) : executes P m → (∀ a, executes P (k a)) → executes P (gbind m k).
Proof.
  intros Hm Hk. eapply traces_bind; [exact Hm|done|]. intros new a Hn. eapply traces_mono; [apply Hk|].
  intros new' r Hn'. by apply only_calls_app.
Qed.
Lemma executes_bind_lift {A B} P (r : result A string) (k : A → M B) :
  (∀ a, r = Ok a → executes P (k a)) → executes P (let* x := glift r in k x).
Proof.
  intros Hk. eapply (traces_bind _ _ (λ new r', new = [] ∧ r' = r)).
  - by apply traces_lift.
  - intros new e [-> _]. constructor.
  - intros new a [-> Hr]. eapply traces_mono; [by apply Hk|]. intros. by rewrite app_nil_r.
Qed.
Lemma executes_asks P f : executes P (asks f).
Proof. apply traces_asks. intros. constructor. Qed.
Lemma executes_instant P : executes P instant.
Proof. apply traces_instant. intros. constructor. Qed.

Lemma container_request_ok transport action container file_name byte_size context args (w w1 : W) access :
  container_request transport action container file_name byte_size context args w = (Ok access, w1) →
  ∃ mode, access = AccessRequest.mk transport action (Some container) file_name (Some mode) byte_size None (otp_of args)
                     (build_authorization_context context args) None.
Proof. unfold container_request. intros H. step H mode w' Hm. injection H as <- <-. eauto. Qed.

Lemma plain_request_ok transport action required name args (w w1 : W) access :
  plain_request transport action required name args w = (Ok access, w1) →
  access = simple_request transport action (build_authorization_context name args).
Proof. unfold plain_request. intros H. step H u w' Hm. by injection H as <- <-. Qed.

Lemma map_err_inv {A E F} (f : E → F) (r : result A E) v : map_err f r = Ok v → r = Ok v.
Proof. destruct r; [by intros [= ->]|done]. Qed.

Hint Resolve executes_lift executes_ret executes_fail executes_asks executes_instant : core.

Lemma execute_performs name args tr (w w1 : W) access :
  build_access_request name args tr w = (Ok access, w1) →
  executes (performs args access) (execute_tool name args tr : M Value.t).
Proof.
  intros H. unfold build_access_request in H.
  repeat match type of H with
    | (if bool_decide (name = ?s) then _ else _) _ = _ => destruct (bool_decide_reflect (name = s)) as [->|?]
    end; [..|discriminate H]; unfold execute_tool; run_names; cbv iota.
  all: try (lifted H; first [apply container_request_ok in H as [? ->] | apply plain_request_ok in H as -> | injection H as <- <-]).
  all: unfold read_tool, write_tool, create_container_tool, export_tool, import_tool, encrypt_tool, decrypt_tool,
    sign_tool, verify_tool, create_broker_tool.
  1: { unfold list_tool. destruct (Value.get_str "container" args).
       - apply container_request_ok in H as [mode ->]. apply executes_bind; [|auto]. by apply executes_call.
       - injection H as <- <-. apply executes_bind; [|auto]. apply executes_call. by left. }
  all: repeat first [ solve [auto] | apply executes_bind_lift; intros ? ? | apply executes_bind; intros | case_match | apply executes_call].
  all: repeat match goal with H1 : ?t = Ok _, H2 : ?t = Ok _ |- _ => rewrite H1 in H2; injection H2 as H2; subst end.
  all: repeat match goal with H : map_err _ _ = Ok _ |- _ => apply map_err_inv in H end.
  all: simpl; eauto 10.
  intros w2. exists []. split; [done|constructor].
Qed.

Lemma build_reads name args tr : executes is_mode_read (build_access_request name args tr : M AccessRequest.t).
Proof.
  unfold build_access_request, container_request, plain_request.
  repeat first [ progress auto | case_match | apply executes_bind; intros | by apply executes_call ].
Qed.

(** ** The gates *)

Definition is_call (e : event) : bool := match e with Called _ => true | _ => false end.
Definition no_calls (new : list event) : Prop := Forall (λ e, is_call e = false) new.

(** What recording an outcome appends. *)
Definition recorded (access : AccessRequest.t) (d : AuditDecision.t) (detail : option string) (new : list event)
    (r : result unit string) : Prop :=
  match McpServer.audit_sink server with
  | None => new = [] ∧ r = Ok tt
  | Some _ => ∃ now, new = [Recorded (audit_event now access d detail) (is_ok r)]
  end.

Lemma traces_run {A} (m : M A) Q : traces m Q → traces m (λ new r, Q new r ∧ ∃ w0 w1, m w0 = (r, w1)).
Proof.
  intros Hm w. destruct (Hm w) as (new & ? & ?). exists new. split; [done|]. split; [done|].
  exists w, (m w).2. by destruct (m w).
Qed.

(** A step that cannot fail and appends nothing. *)
Definition total_quiet {A} (m : M A) : Prop := ∀ w, ∃ a, (m w).1 = Ok a ∧ World.log (m w).2 = World.log w.

Lemma traces_bind_quiet {A B} (m : M A) (k : A → M B) R :
  total_quiet m → (∀ a, traces (k a) R) → traces (gbind m k) R.
Proof.
  intros Hm Hk w. destruct (Hm w) as (a & Ha & Hlog). unfold gbind. destruct (m w) as [[a'|e] w1]; [|done]. simpl in *.
  destruct (Hk a' w1) as (new & Hnew & HR). exists new. by rewrite Hnew, Hlog.
Qed.

Lemma quiet_instant : total_quiet instant.
Proof. intros w. by eexists. Qed.
Lemma quiet_elapsed started : total_quiet (elapsed started).
Proof. intros w. by eexists. Qed.
Lemma quiet_asks f : total_quiet (asks f).
Proof. intros w. by eexists. Qed.
Hint Resolve quiet_instant quiet_elapsed quiet_asks : core.

(** The errors of [m] are values for what follows. *)
Lemma traces_bind_try {A B} (m : M A) (k : result A string → M B) Q (R : list event → result B string → Prop) :
  traces m Q → (∀ new r, Q new r → traces (k r) (λ new' r', R (new' ++ new) r')) → traces (let* r := gtry m in k r) R.
Proof.
  intros Hm Hk w. destruct (Hm w) as (new & Hlog & HQ). unfold gbind, gtry. destruct (m w) as [r w1]; simpl in *.
  destruct (Hk _ _ HQ w1) as (new' & Hlog' & HR). exists (new' ++ new). by rewrite Hlog', Hlog, app_assoc.
Qed.

Lemma traces_record_audit access d detail : traces (record_audit server access d detail) (recorded access d detail).
Proof.
  unfold record_audit, recorded. destruct (McpServer.audit_sink server) as [record|]; [|by apply traces_ret].
  apply traces_bind_quiet; [done|]. intros now w. simpl.
  destruct (record _ (World.sink w)) as [r k]. eexists [_]. split; [done|]. simpl. exists (utc now). by destruct r.
Qed.

Lemma traces_emit_timing access allowed v a x f :
  traces (emit_timing server access allowed v a x f) (λ new r, r = Ok tt ∧ no_calls new).
Proof.
  unfold emit_timing. destruct (McpServer.timing_sink server); [apply traces_emit|apply traces_ret]; repeat constructor.
Qed.

Lemma recorded_no_calls access d detail new r : recorded access d detail new r → no_calls new.
Proof. unfold recorded. destruct (McpServer.audit_sink server); [intros [now ->]|intros [-> _]]; repeat constructor. Qed.

(** A refusal is an error, without a call of the vault. *)
Lemma traces_refuse {A} access error timing :
  traces timing (λ new r, r = Ok tt ∧ no_calls new) →
  traces (refuse server access error timing : M A) (λ new r, is_ok r = false ∧ no_calls new).
Proof.
  intros Ht. unfold refuse.
  eapply (traces_bind _ _ (λ new r, r = Ok tt ∧ no_calls new)); [apply traces_emit; repeat constructor|by intros ? ? []|].
  intros n1 _ [_ H1]. eapply traces_bind_try; [apply traces_record_audit|]. intros n2 audit H2%recorded_no_calls.
  eapply traces_bind; [exact Ht|by intros ? ? []|]. intros n3 _ [_ H3]. apply traces_fail. split; [done|].
  repeat (apply Forall_app; split); auto.
Qed.

Definition in_scope (agent : option ResolvedAgent.t) (access : AccessRequest.t) : Prop :=
  match agent with Some a => enforce_scopes a access = Ok tt | None => True end.

Definition approved (access : AccessRequest.t) : Prop :=
  match McpServer.access_controller server with
  | Some authorize => ∃ c, (authorize access c).1 = Ok tt
  | None => True
  end.

Lemma traces_scope_gate agent access started :
  traces (scope_gate server agent access started)
    (λ new r, match r with Ok _ => new = [] ∧ in_scope agent access | Err _ => no_calls new end).
Proof.
  unfold scope_gate, in_scope. destruct agent as [a|]; [|by apply traces_ret].
  destruct (enforce_scopes a access) as [[]|error]; [by apply traces_ret|].
  eapply traces_mono; [apply traces_refuse|by intros new [?|?]; simpl; intros [? ?]].
  apply traces_bind_quiet; [auto|]. intros. apply traces_emit_timing.
Qed.

Lemma traces_consent_gate access validate started :
  traces (consent_gate server access validate started)
    (λ new r, match r with Ok _ => new = [Authorized access] ∧ approved access | Err _ => no_calls new end).
Proof.
  unfold consent_gate, approved. destruct (McpServer.access_controller server) as [authorize|]; [|by apply traces_emit].
  eapply (traces_bind _ _ (λ new r, new = [] ∧ match r with Ok a => ∃ c, (authorize access c).1 = a | Err _ => False end)).
  - intros w. exists []. destruct (authorize access (World.controller w)) as [r c] eqn:Hc; simpl.
    repeat split. exists (World.controller w). by rewrite Hc.
  - by intros ? ? [_ []].
  - intros new [[]|error] [-> [c Hc]]; [apply traces_emit; eauto|].
    eapply traces_mono; [apply traces_refuse|by intros new [?|?]; simpl; rewrite app_nil_r; intros [? ?]].
    apply traces_bind_quiet; [auto|]. intros. apply traces_emit_timing.
Qed.

Lemma traces_rate_gate tr agent : traces (rate_gate server tr agent) (λ new _, new = []).
Proof.
  unfold rate_gate. destruct (McpServer.rate_limiter server) as [[limiter text]|]; [|by apply traces_ret].
  apply traces_bind_quiet; [auto|]. intros now w. simpl. destruct (RateLimiter.check _ _ _ _ _) as [r state]. by exists [].
Qed.

(** ** The two ways to execute *)

(** What follows the recorded attempt: the calls, the outcome, the timing; when the vault was
    locked in between, nothing. *)
Definition completed (args : Value.t) (access : AccessRequest.t) (answers : result Value.t string → Prop)
    (new : list event) (r : result Value.t string) : Prop :=
  (new = [] ∧ r = Err LOCKED)
  ∨ ∃ timing outcome calls (answer : result Value.t string) detail audit,
      new = timing ++ outcome ++ calls ∧ no_calls timing ∧ only_calls (performs args access) calls ∧
      recorded access (if is_ok answer then AuditDecision.Allowed else AuditDecision.Error) detail outcome audit ∧
      answers answer ∧ r = combine_result_and_audit answer audit.

Lemma traces_outcome_audit access (answer : result Value.t string) d1 d2 :
  traces (outcome_audit server access answer d1 d2)
    (recorded access (if is_ok answer then AuditDecision.Allowed else AuditDecision.Error)
       (if is_ok answer then d1 else d2)).
Proof. unfold outcome_audit. destruct answer; apply traces_record_audit. Qed.

(** The outcome, the timing and the answer. *)
Lemma traces_finish args access answers calls (answer : result Value.t string) d1 d2 allowed v a x f :
  answers answer → only_calls (performs args access) calls →
  traces (let* audit := gtry (outcome_audit server access answer d1 d2) in
          let* _ := emit_timing server access allowed v a x f in
          glift (combine_result_and_audit answer audit))
    (λ new r, completed args access answers (new ++ calls) r).
Proof.
  intros Hanswer Hcalls. eapply traces_bind_try; [apply traces_outcome_audit|]. intros outcome audit Ho.
  eapply traces_bind; [apply traces_emit_timing|by intros ? ? []|]. intros timing [] [_ Ht].
  apply traces_lift. right. exists timing, outcome, calls, answer. do 2 eexists.
  split; [by rewrite app_nil_l, <- app_assoc|]. done.
Qed.

Lemma traces_execute_broker args access :
  AccessRequest.action access = AccessAction.Broker →
  traces (execute_broker args : M (result Value.t string * option string))
    (λ new r, is_ok r ∧ only_calls (performs args access) new).
Proof.
  intros Ha. unfold execute_broker.
  destruct (required_str args "secret_ref") as [secret_ref|] eqn:Hs; [|by apply traces_ret; split; [|apply only_calls_nil]].
  destruct (required_str args "method") as [method|] eqn:Hm; [|by apply traces_ret; split; [|apply only_calls_nil]].
  destruct (required_str args "url") as [url|] eqn:Hu; [|by apply traces_ret; split; [|apply only_calls_nil]].
  eapply (traces_bind_try _ _ (λ new _, new = [])); [by apply traces_lock|].
  intros new [[]|e] ->; [|by apply traces_ret; split; [|apply only_calls_nil]].
  apply traces_bind_quiet; [auto|]. intros enabled. case_match; [by apply traces_ret; split; [|apply only_calls_nil]|].
  eapply traces_bind_try; [apply (executes_call (performs args access)); simpl; auto 10|].
  intros new answer Hn. apply traces_ret. rewrite app_nil_r. by destruct answer.
Qed.

Lemma traces_broker_call access args v a :
  AccessRequest.action access = AccessAction.Broker →
  traces (broker_call server access args v a) (completed args access (λ _, True)).
Proof.
  intros Ha. unfold broker_call. apply traces_bind_quiet; [auto|]. intros started.
  eapply traces_bind; [by apply traces_execute_broker|by intros ? ? []|]. intros new [answer detail] [_ Hn].
  apply traces_bind_quiet; [auto|]. intros execute. by apply traces_finish.
Qed.

(** What a tool answers: what it computed at some time, filtered for the request. *)
Definition filtered (name : string) (args : Value.t) (tr : AccessTransport.t) (access : AccessRequest.t)
    (answer : result Value.t string) : Prop :=
  name = "vault.broker_request" ∨
  ∃ (w0 w1 : W) raw, execute_tool name args tr w0 = (raw, w1) ∧ answer = (filter_result access tr raw).1.

Lemma traces_vault_call access name args tr v a :
  executes (performs args access) (execute_tool name args tr : M Value.t) →
  traces (vault_call server access name args tr v a) (completed args access (filtered name args tr access)).
Proof.
  intros He. unfold vault_call. apply traces_bind_quiet; [auto|]. intros started.
  eapply (traces_bind _ _ (λ new r, new = [] ∧ (r = Ok tt ∨ r = Err LOCKED))); [apply traces_lock; auto|..].
  { intros new e [-> [?|?]]; [done|]. left. split; congruence. }
  intros new [] [-> _]. eapply traces_bind_try; [apply traces_run, He|].
  intros calls answer [Hc (w0 & w1 & Hrun)].
  apply traces_bind_quiet; [auto|]. intros execute. apply traces_bind_quiet; [auto|]. intros filter_started.
  destruct (filter_result access tr answer) as [answer' detail] eqn:Hf.
  apply traces_bind_quiet; [auto|]. intros filter.
  eapply traces_mono; [apply (traces_finish args access (filtered name args tr access) calls)|].
  { right. exists w0, w1, answer. by rewrite Hf. }
  { exact Hc. }
  intros. by rewrite app_nil_r.
Qed.

Lemma completed_mono args access (P Q : result Value.t string → Prop) new r :
  completed args access P new r → (∀ a, P a → Q a) → completed args access Q new r.
Proof.
  intros [?|(timing & outcome & calls & answer & detail & audit & ? & ? & ? & ? & ? & ?)] HPQ; [by left|right].
  exists timing, outcome, calls, answer, detail, audit. auto 10.
Qed.

(** ** The shape of a call *)

(** What a request that gets past the gates is. *)
Definition admitted (name : string) (args : Value.t) (tr : AccessTransport.t) (agent : option ResolvedAgent.t)
    (access : AccessRequest.t) : Prop :=
  (∃ (w0 w1 : W) request, build_access_request name args tr w0 = (Ok request, w1) ∧
     access = AccessRequest.with_agent request (ResolvedAgent.agent_id <$> agent))
  ∧ in_scope agent access ∧ approved access.

Definition call_shape name args tr agent (new : list event) (r : result Value.t string) : Prop :=
  (is_ok r = false ∧ ∃ stopped asked, new = stopped ++ asked ∧ no_calls stopped ∧ only_calls is_mode_read asked)
  ∨ ∃ access rest attempt asked,
      new = rest ++ attempt ++ Authorized access :: asked ∧ only_calls is_mode_read asked ∧
      admitted name args tr agent access ∧ recorded access AuditDecision.Attempted None attempt (Ok tt) ∧
      completed args access (filtered name args tr access) rest r.

Lemma broker_request_action args tr (w w1 : W) access :
  build_access_request "vault.broker_request" args tr w = (Ok access, w1) → AccessRequest.action access = AccessAction.Broker.
Proof.
  unfold build_access_request. intros H. revert H. run_names. intros H. by apply plain_request_ok in H as ->.
Qed.

Lemma stopped_shape name args tr agent stopped asked r :
  is_ok r = false → no_calls stopped → only_calls is_mode_read asked → call_shape name args tr agent (stopped ++ asked) r.
Proof. intros. left. eauto 10. Qed.

Lemma stopped_nil name args tr agent r : is_ok r = false → call_shape name args tr agent [] r.
Proof. intros. apply (stopped_shape _ _ _ _ [] []); [done|constructor..]. Qed.

(** A step that appends nothing and may stop the call. *)
Lemma traces_bind_silent {A B} (m : M A) (k : A → M B) (P : A → Prop) R :
  traces m (λ new r, new = [] ∧ match r with Ok a => P a | Err _ => True end) →
  (∀ e, R [] (Err e)) → (∀ a, P a → traces (k a) R) → traces (gbind m k) R.
Proof.
  intros Hm He Hk. eapply traces_bind; [exact Hm|by intros new e [-> _]|].
  intros new a [-> Ha]. eapply traces_mono; [by apply Hk|]. intros. by rewrite app_nil_r.
Qed.

(** A gate: it appends [passed], or refuses without a call of the vault. *)
Lemma traces_bind_gate {B} (m : M unit) (k : unit → M B) (P : Prop) passed R :
  traces m (λ new r, match r with Ok _ => new = passed ∧ P | Err _ => no_calls new end) →
  (∀ new e, no_calls new → R new (Err e)) → (P → traces (k tt) (λ new r, R (new ++ passed) r)) → traces (gbind m k) R.
Proof. intros Hm He Hk. eapply traces_bind; [exact Hm|done|]. intros new [] [-> HP]. by apply Hk. Qed.

Lemma traces_call_tool name args tr agent :
  traces (call_tool server name args tr agent) (call_shape name args tr agent).
Proof.
  unfold call_tool. apply traces_bind_quiet; [auto|]. intros started.
  apply (traces_bind_silent _ _ (λ _, True)); [|intros; by apply stopped_nil|intros _ _].
  { eapply traces_mono; [apply traces_rate_gate|]. intros ? [] ?; done. }
  apply (traces_bind_silent _ _ (λ _, True)); [by apply traces_lock|intros; by apply stopped_nil|intros _ _].
  eapply traces_bind; [apply traces_run, build_reads|intros new e [? _]; by apply (stopped_shape _ _ _ _ [] new); [|constructor|]|].
  intros asked request [Hasked (w0 & w1 & Hbuild)].
  set (access := AccessRequest.with_agent request (ResolvedAgent.agent_id <$> agent)).
  apply (traces_bind_gate _ _ (in_scope agent access) []); [apply traces_scope_gate|intros; by apply stopped_shape|intros Hscope].
  apply traces_bind_quiet; [auto|]. intros validate. apply traces_bind_quiet; [auto|]. intros authorize_started.
  apply (traces_bind_gate _ _ (approved access) [Authorized access]); [apply traces_consent_gate|..].
  { intros. rewrite app_nil_r. by apply stopped_shape. }
  intros Happroved. apply traces_bind_quiet; [auto|]. intros authorize.
  eapply traces_bind; [apply traces_record_audit|intros new e Hr|].
  { rewrite app_nil_r. apply (stopped_shape _ _ _ _ (new ++ [_])); [done| |done].
    apply Forall_app. split; [by eapply recorded_no_calls|repeat constructor]. }
  intros attempt [] Hattempt.
  assert (Hdone : ∀ rest r, completed args access (filtered name args tr access) rest r →
    call_shape name args tr agent ((((rest ++ attempt) ++ [Authorized access]) ++ []) ++ asked) r).
  { intros rest r Hrest. right. exists access, rest, attempt, asked. rewrite app_nil_r, <- !app_assoc. repeat split; try done. eauto. }
  destruct (bool_decide_reflect (name = "vault.broker_request")) as [->|_].
  - eapply traces_mono; [apply traces_broker_call|].
    2: { intros rest r Hrest. apply Hdone. eapply completed_mono; [exact Hrest|]. by left. }
    exact (broker_request_action _ _ _ _ _ Hbuild).
  - eapply traces_mono; [apply traces_vault_call|exact Hdone]. exact (execute_performs _ _ _ _ _ _ Hbuild).
Qed.

(** ** Every call of the vault, and what came before it *)

Fixpoint every_call (P : vault_op → list event → Prop) (log : list event) : Prop :=
  match log with
  | [] => True
  | e :: earlier => match e with Called op => P op earlier | _ => True end ∧ every_call P earlier
  end.

Lemma every_call_free P new log : no_calls new → every_call P log → every_call P (new ++ log).
Proof. induction 1 as [|e new He]; [done|]. intros. simpl. split; [by destruct e|auto]. Qed.

Lemma every_call_only P Q new log :
  only_calls Q new → (∀ op earlier, Q op → P op (earlier ++ log)) → every_call P log → every_call P (new ++ log).
Proof. intros Hn HQ Hlog. induction Hn as [|e new (op & -> & Hop)]; [done|]. simpl. auto. Qed.

(** A longer past keeps what is monotone in it. *)
Lemma every_call_app P new log :
  (∀ op earlier, P op earlier → P op (earlier ++ log)) → every_call P new → every_call P log → every_call P (new ++ log).
Proof. intros HP. induction new as [|e new IH]; [done|]. simpl. intros [He Hn] Hl. split; [destruct e; auto|auto]. Qed.

(** The attempt of the request stands in the audit log. *)
Definition attempted (access : AccessRequest.t) (log : list event) : Prop :=
  match McpServer.audit_sink server with
  | None => True
  | Some _ => ∃ now, Recorded (audit_event now access AuditDecision.Attempted None) true ∈ log
  end.

(** The call [op] after [earlier] belongs to an admitted request that names it, that was
    authorized and whose attempt was recorded. *)
Definition gated (name : string) (args : Value.t) (tr : AccessTransport.t) (agent : option ResolvedAgent.t)
    (op : vault_op) (earlier : list event) : Prop :=
  is_mode_read op
  ∨ ∃ access, admitted name args tr agent access ∧ performs args access op
              ∧ Authorized access ∈ earlier ∧ attempted access earlier.

Lemma gated_app name args tr agent op earlier log :
  gated name args tr agent op earlier → gated name args tr agent op (earlier ++ log).
Proof.
  intros [?|(access & ? & ? & Hauth & Hatt)]; [by left|right]. exists access. split_and!; [done..|set_solver|].
  unfold attempted in *. destruct (McpServer.audit_sink server); [|done]. destruct Hatt as [now ?]. exists now. set_solver.
Qed.

Lemma shape_gated name args tr agent new r :
  call_shape name args tr agent new r → every_call (gated name args tr agent) new.
Proof.
  intros [(_ & stopped & asked & -> & Hs & Ha)|(access & rest & attempt & asked & -> & Ha & Hadm & Hatt & Hrest)].
  - apply every_call_free; [done|]. rewrite <- (app_nil_r asked). by eapply every_call_only; [exact Ha|left|].
  - assert (Hasked : every_call (gated name args tr agent) (attempt ++ Authorized access :: asked)).
    { apply every_call_free; [by eapply recorded_no_calls|]. split; [done|].
      rewrite <- (app_nil_r asked). by eapply every_call_only; [exact Ha|left|]. }
    destruct Hrest as [[-> _]|(timing & outcome & calls & answer & detail & audit & -> & Ht & Hc & Ho & _)]; [done|].
    rewrite <- !app_assoc. apply every_call_free; [done|]. apply every_call_free; [by eapply recorded_no_calls|].
    eapply every_call_only; [exact Hc| |done]. intros op earlier Hop. right. exists access.
    split_and!; [done..|set_solver|]. unfold attempted, recorded in *. destruct (McpServer.audit_sink server); [|done].
    destruct Hatt as [now ->]. exists now. set_solver.
Qed.

(** C2: Whatever tool is called, with whatever arguments, by whatever agent, and however other
    tasks lock, unlock or change the vault meanwhile, every call of the vault except the
    reading of a container's mode belongs to a request built from these arguments that the
    agent's scopes cover, that the controller approved and whose attempt is already in the
    audit log; and the call is one that the approved request describes. *)
Theorem tool_calls_are_gated name args tr agent w :
  ∃ new, World.log (call_tool server name args tr agent w).2 = new ++ World.log w
         ∧ every_call (gated name args tr agent) new.
Proof.
  destruct (traces_call_tool name args tr agent w) as (new & Hlog & Hshape).
  exists new. split; [exact Hlog|]. by eapply shape_gated.
Qed.

(** C7: A tool call that answers with success under an audit sink has appended, in this order,
    the authorization of one request, its stored attempt, the calls of the vault for it, and
    its stored outcome [Allowed]; only timing comes after. *)
Theorem success_is_audited name args tr agent w value w' :
  is_Some (McpServer.audit_sink server) → call_tool server name args tr agent w = (Ok value, w') →
  ∃ access timing calls asked now now' detail,
    World.log w' = timing ++ Recorded (audit_event now' access AuditDecision.Allowed detail) true
                   :: calls ++ Recorded (audit_event now access AuditDecision.Attempted None) true
                   :: Authorized access :: asked ++ World.log w
    ∧ admitted name args tr agent access ∧ no_calls timing
    ∧ only_calls (performs args access) calls ∧ only_calls is_mode_read asked.
Proof.
  intros [sink Hsink] Hcall. destruct (traces_call_tool name args tr agent w) as (new & Hlog & Hshape).
  rewrite Hcall in *. simpl in *.
  destruct Hshape as [[? _]|(access & rest & attempt & asked & -> & Ha & Hadm & Hatt & Hrest)]; [done|].
  unfold completed, recorded in *. rewrite Hsink in *. destruct Hatt as [now ->].
  destruct Hrest as [[_ ?]|(timing & outcome & calls & answer & detail & audit & -> & Ht & Hc & [now' ->] & _ & Hr)]; [done|].
  destruct answer as [v|], audit as [[]|]; simplify_eq/=.
  exists access, timing, calls, asked, now, now', detail. rewrite Hlog. repeat (rewrite <- app_assoc; simpl). done.
Qed.
End traces.

(** ** Reads of anonymized containers *)

Section anonymized.
Context {V C K : Type} `{VF : VaultFacade V} `{ME : McpEnv} `{PR : Prims} `{PL : !PrimLaws} (server : McpServer.t C K).
(** The contents are bytes. *)
Hypothesis contents_are_bytes :
  ∀ c f v l v', read_file c f v = (Ok l, v') → Forall (λ b, (b < 256)%N) l.

Abbreviation W := (World.t V C K).

(** What a read answers for [bytes] of a container of this mode. *)
Definition read_answers (mode : SecurityMode.t) (bytes : list N) (value : Value.t) : Prop :=
  if bool_decide (mode = SecurityMode.Anonymized)
  then utf8_valid bytes = true ∧ Value.get "anonymized" value = Some (Value.Bool true) ∧
       ∃ redaction, Privacy.redact bytes Policy.all = Some redaction ∧
                    Value.get_str "content_b64" value = Some (b64_encode (Redaction.output redaction))
  else Value.get_str "content_b64" value = Some (b64_encode bytes).

Lemma filter_result_ok access tr raw value :
  (filter_result access tr raw).1 = Ok value →
  ∃ v detail, raw = Ok v ∧ apply_privacy_filter access v = Ok (value, detail) ∧ check_size tr value = Ok value.
Proof.
  unfold filter_result. destruct raw as [v|]; [|done].
  destruct (apply_privacy_filter access v) as [[v' detail]|] eqn:Hf; [|done]. simpl.
  intros Hsize. exists v, detail. split; [done|]. assert (v' = value) as ->; [|done].
  revert Hsize. unfold check_size. by case_match; intros [= ->].
Qed.

Lemma read_tool_ok args tr (w w1 : W) raw :
  execute_tool "vault.read" args tr w = (Ok raw, w1) →
  ∃ c f bytes v v', required_str args "container" = Ok c ∧ required_str args "file_name" = Ok f
    ∧ read_file c f v = (Ok bytes, v')
    ∧ raw = Value.object [("container", Value.Str c); ("file_name", Value.Str f);
                          ("content_b64", Value.Str (b64_encode bytes)); ("byte_size", Value.number (N.of_nat (length bytes)))].
Proof.
  unfold execute_tool. intros H. revert H. run_names. cbv iota. intros H. unfold read_tool in H. lifted H.
  step H bytes w2 Hc. unfold call in Hc. destruct (World.vault _) as [v|]; [|done].
  destruct (read_file x x0 v) as [r v'] eqn:Hr. injection Hc as -> <-.
  case_match; [discriminate H|]. injection H as <- <-. eauto 12.
Qed.

Lemma read_filter_answers access mode c f bytes value detail :
  AccessRequest.action access = AccessAction.ReadFile → AccessRequest.mode access = Some mode →
  Forall (λ b, (b < 256)%N) bytes →
  apply_privacy_filter access
    (Value.object [("container", Value.Str c); ("file_name", Value.Str f);
                   ("content_b64", Value.Str (b64_encode bytes)); ("byte_size", Value.number (N.of_nat (length bytes)))])
    = Ok (value, detail) →
  read_answers mode bytes value.
Proof.
  intros Ha Hm Hb. unfold apply_privacy_filter, read_answers. rewrite Ha, Hm.
  rewrite (bool_decide_true (AccessAction.ReadFile = AccessAction.ReadFile)) by done. simpl.
  destruct (bool_decide_reflect (mode = SecurityMode.Anonymized)) as [->|Hne].
  - rewrite (bool_decide_true (Some _ = Some _)) by done. simpl. rewrite b64_round by done. simpl.
    destruct (utf8_valid bytes); [|done]. simpl. destruct (Privacy.redact bytes Policy.all) as [redaction|]; [|done].
    intros [= <- <-]. split; [done|]. split; [|exists redaction; split; [done|]].
    + reflexivity.
    + reflexivity.
  - rewrite (bool_decide_false (Some _ = Some _)) by congruence. simpl. intros [= <- <-]. done.
Qed.

Lemma read_request args tr (w w1 : W) request :
  build_access_request "vault.read" args tr w = (Ok request, w1) →
  AccessRequest.action request = AccessAction.ReadFile
  ∧ ∃ c f mode v v', required_str args "container" = Ok c ∧ required_str args "file_name" = Ok f
      ∧ AccessRequest.mode request = Some mode ∧ container_mode c v = (Ok mode, v').
Proof.
  unfold build_access_request. intros H. revert H. run_names. cbv iota. intros H. lifted H.
  unfold container_request in H. step H mode w2 Hm. injection H as <- <-. split; [done|].
  unfold call in Hm. destruct (World.vault _) as [v|]; [|done].
  destruct (container_mode x v) as [r v'] eqn:Hr. injection Hm as -> <-. eauto 12.
Qed.

(** C6: A successful [vault.read] answers with what the vault read for the requested container
    and file, under the mode that the container had when the request was authorized.  For
    [ANONYMIZED] the content is valid UTF-8, the answer carries its redaction and says so; for
    the other modes it carries the content itself. *)
Theorem anonymized_reads_masked args tr agent w value w' :
  call_tool server "vault.read" args tr agent w = (Ok value, w') →
  ∃ access c f mode bytes,
    Authorized access ∈ World.log w' ∧ AccessRequest.mode access = Some mode
    ∧ required_str args "container" = Ok c ∧ required_str args "file_name" = Ok f
    ∧ (∃ v v', container_mode c v = (Ok mode, v')) ∧ (∃ v v', read_file c f v = (Ok bytes, v'))
    ∧ read_answers mode bytes value.
Proof.
  intros Hcall. destruct (traces_call_tool server "vault.read" args tr agent w) as (new & Hlog & Hshape).
  rewrite Hcall in *. simpl in *.
  destruct Hshape as [[? _]|(access & rest & attempt & asked & -> & _ & Hadm & _ & Hrest)]; [done|].
  destruct Hrest as [[_ ?]|(timing & outcome & calls & answer & detail & audit & _ & _ & _ & _ & Hfil & Hr)]; [done|].
  assert (answer = Ok value) as -> by (destruct answer, audit as [[]|]; by simplify_eq/=).
  destruct Hfil as [?|(w0 & w1 & raw & Hrun & Hfil)]; [done|].
  symmetry in Hfil. apply filter_result_ok in Hfil as (v & fd & -> & Hfilter & _).
  apply read_tool_ok in Hrun as (c & f & bytes & v0 & v1 & Hc & Hf & Hread & ->).
  destruct Hadm as [(u0 & u1 & request & Hbuild & ->) _].
  apply read_request in Hbuild as (Ha & c' & f' & mode & v2 & v3 & Hc' & Hf' & Hm & Hmode). simplify_eq.
  rewrite Hc in Hc'. injection Hc' as <-.
  exists (AccessRequest.with_agent request (ResolvedAgent.agent_id <$> agent)), c, f, mode, bytes. split; [rewrite Hlog; set_solver|]. split; [exact Hm|].
  split_and!; [done..|eauto|eauto|]. eapply read_filter_answers; [exact Ha|exact Hm|by eapply contents_are_bytes|exact Hfilter].
Qed.
End anonymized.

(** ** At a concrete vault *)

Lemma anonymized_reads_masked_witness :
  ∃ value w',
    call_tool demo_server "vault.read" read_args AccessTransport.McpWs None (demo_world SecurityMode.Anonymized []) = (Ok value, w')
    ∧ ∃ access c f mode bytes,
        Authorized access ∈ World.log w' ∧ AccessRequest.mode access = Some mode
        ∧ required_str read_args "container" = Ok c ∧ required_str read_args "file_name" = Ok f
        ∧ (∃ v v', container_mode c v = (Ok mode, v')) ∧ (∃ v v', read_file c f v = (Ok bytes, v'))
        ∧ read_answers mode bytes value.
Proof.
  eexists _, _. split; [vm_compute; reflexivity|].
  eapply (anonymized_reads_masked demo_server demo_contents_are_bytes read_args AccessTransport.McpWs None
            (demo_world SecurityMode.Anonymized [])).
  vm_compute. reflexivity.
Defined.

Lemma success_is_audited_witness :
  ∃ value w',
    call_tool demo_server "vault.read" read_args AccessTransport.McpWs None (demo_world SecurityMode.Direct []) = (Ok value, w')
    ∧ ∃ access timing calls asked now now' detail,
        World.log w' = timing ++ Recorded (audit_event now' access AuditDecision.Allowed detail) true
                       :: calls ++ Recorded (audit_event now access AuditDecision.Attempted None) true
                       :: Authorized access :: asked ++ World.log (demo_world SecurityMode.Direct [])
        ∧ admitted (V := DemoVault.t) demo_server "vault.read" read_args AccessTransport.McpWs None access ∧ no_calls timing
        ∧ only_calls (performs read_args access) calls ∧ only_calls is_mode_read asked.
Proof.
  eexists _, _. split; [vm_compute; reflexivity|].
  eapply (success_is_audited demo_server "vault.read" read_args AccessTransport.McpWs None (demo_world SecurityMode.Direct [])).
  - by eexists.
  - vm_compute. reflexivity.
Defined.

(** ** What the code does besides *)

(** The contexts of [vault.create_container] and [vault.destroy] are made with the name of the
    container instead of the tool's, so for the same arguments they are the same. *)
Lemma context_confuses_tools {V C K} `{VF : VaultFacade V} `{ME : McpEnv} `{PR : Prims} args tr
    (w1 w1' w2 w2' : World.t V C K) created destroyed :
  build_access_request "vault.create_container" args tr w1 = (Ok created, w1') →
  build_access_request "vault.destroy" args tr w2 = (Ok destroyed, w2') →
  AccessRequest.authorization_context created = AccessRequest.authorization_context destroyed.
Proof.
  unfold build_access_request. intros H1 H2. revert H1 H2. run_names. cbv iota. intros H1 H2. lifted H1. lifted H2.
  injection H1 as <- <-. apply container_request_ok in H2 as [mode ->]. simpl. congruence.
Qed.

(** The mode is read when the request is made; a container that is made anew as [ANONYMIZED]
    before the read answers unmasked. *)
Lemma unmasked_after_change :
  ∃ value w',
    call_tool demo_server "vault.read" read_args AccessTransport.McpWs None
      (demo_world SecurityMode.Direct [id; λ _, Some (demo_vault SecurityMode.Anonymized)]) = (Ok value, w')
    ∧ (v ← World.vault w'; v' ← DemoVault.find "notes" v; Some v'.1) = Some SecurityMode.Anonymized
    ∧ Value.get_str "content_b64" value = Some (b64_encode (str_bytes "to a@b.com.")).
Proof. eexists _, _. split_and!; vm_compute; reflexivity. Qed.

(** A vault that is locked after the attempt was recorded ends the call with neither an
    outcome in the audit log nor a timing. *)
Lemma locked_call_leaves_no_outcome :
  ∃ access e w',
    call_tool (McpServer.with_timing_sink demo_server) "vault.read" read_args AccessTransport.McpWs None
      (demo_world SecurityMode.Direct [id; λ _, None]) = (Err LOCKED, w')
    ∧ World.log w' = [Recorded e true; Authorized access; Called (OpContainerMode "notes")]
    ∧ AuditEvent.decision e = AuditDecision.Attempted.
Proof. eexists _, _, _. split_and!; vm_compute; reflexivity. Qed.
