(* ===== verification/McpSessionTheorems.v ===== *)
(** * McpSessionTheorems: contexts, listed tools, connections and the rate limiter

    The context of a request hashes the tool's name and the arguments in canonical form.
    Canonical objects are sorted by key, so they are equal exactly when their fields are.
    Then what the listed tools require, and what holds of connections and their limits. *)
From S2P Require Import Prelude Bytes AuditTypes Text Fs Crypto Storage Scopes VaultInstance Json AgentImport Mcp McpInstance McpTools McpSession McpTheorems.

(** ** Objects in canonical form *)

Notation keys_sorted := (StronglySorted (λ a b : string * Value.t, String.compare a.1 b.1 = Lt)).

Lemma json_lookup_insert key key' v m :
  Value.lookup key' (Value.insert key v m) = if bool_decide (key = key') then Some v else Value.lookup key' m.
Proof.
  induction m as [|[k u] m IH]; simpl; [done|].
  destruct (bool_decide_reflect (k = key)) as [->|Hk]; simpl.
  { by destruct (bool_decide_reflect (key = key')). }
  destruct (String.ltb key k); simpl; [done|].
  rewrite IH. do 2 case_bool_decide; congruence.
Qed.

Lemma json_Forall_insert (P : string → Prop) key v m :
  P key → Forall (λ kv, P kv.1) m → Forall (λ kv, P kv.1) (Value.insert key v m).
Proof.
  intros Hk. induction 1 as [|[k u] m Hu Hm IH]; simpl; [by repeat constructor|].
  repeat case_match; repeat constructor; auto.
Qed.

Lemma json_sorted_insert key v m : keys_sorted m → keys_sorted (Value.insert key v m).
Proof.
  induction 1 as [|[k u] m Hm IH Hall]; simpl; [by repeat constructor|].
  destruct (bool_decide_reflect (k = key)) as [->|Hk]; [by constructor|].
  unfold String.ltb. destruct (String.compare key k) eqn:Hc.
  - apply String.compare_eq_iff in Hc. congruence.
  - constructor; [by constructor|]. constructor; [done|].
    eapply Forall_impl; [exact Hall|]. simpl. intros [k' u'] Hlt. by eapply str_compare_lt_trans.
  - constructor; [done|]. apply (json_Forall_insert (λ k', String.compare k k' = Lt)); [|done].
    by rewrite String.compare_antisym, Hc.
Qed.

Lemma json_lookup_below k m : Forall (λ kv, String.compare k kv.1 = Lt) m → Value.lookup k m = None.
Proof.
  induction 1 as [|[k' v] m Hlt _ IH]; simpl; [done|]. case_bool_decide; [|done]. subst. by rewrite str_compare_refl in Hlt.
Qed.

(** Sorted objects with the same fields are the same. *)
Lemma json_sorted_ext m m' : keys_sorted m → keys_sorted m' → (∀ k, Value.lookup k m = Value.lookup k m') → m = m'.
Proof.
  intros Hm. revert m'. induction Hm as [|[k v] m Hm IH Hall]; intros m' Hm' Hext.
  - destruct Hm' as [|[k v] m' _ _]; [done|]. specialize (Hext k). simpl in Hext. by rewrite bool_decide_true in Hext.
  - destruct Hm' as [|[k' v'] m' Hm' Hall'].
    { specialize (Hext k). simpl in Hext. by rewrite bool_decide_true in Hext. }
    assert (k = k') as <-.
    { destruct (String.compare k k') eqn:Hc; [by apply String.compare_eq_iff|exfalso..].
      - specialize (Hext k). simpl in Hext. rewrite bool_decide_true, bool_decide_false in Hext by (congruence || by intros ->; rewrite str_compare_refl in Hc).
        rewrite json_lookup_below in Hext; [done|]. eapply Forall_impl; [exact Hall'|]. intros [] ?. by eapply str_compare_lt_trans.
      - rewrite String.compare_antisym in Hc. destruct (String.compare k' k) eqn:Hc'; try done.
        specialize (Hext k'). simpl in Hext. rewrite (bool_decide_true (k' = k')), bool_decide_false in Hext by (congruence || by intros ->; rewrite str_compare_refl in Hc').
        rewrite json_lookup_below in Hext; [done|]. eapply Forall_impl; [exact Hall|]. intros [] ?. by eapply str_compare_lt_trans. }
    assert (v = v') as <-. { specialize (Hext k). simpl in Hext. rewrite !bool_decide_true in Hext by done. congruence. }
    f_equal. apply IH; [done|]. intros k0. destruct (decide (k0 = k)) as [->|Hne].
    + rewrite !json_lookup_below; done.
    + specialize (Hext k0). simpl in Hext. by rewrite !bool_decide_false in Hext by congruence.
Qed.

Notation canonical_field := (λ kv : string * Value.t, (kv.1, canonicalize_json kv.2)).
Notation collect m := (foldl (λ acc kv, Value.insert kv.1 kv.2 acc) [] m).

Lemma collect_sorted (l : list (string * Value.t)) : keys_sorted (collect l).
Proof. induction l as [|x l IH] using rev_ind; [constructor|]. rewrite foldl_app. by apply json_sorted_insert. Qed.

Lemma json_lookup_None k m : Value.lookup k m = None ↔ k ∉ m.*1.
Proof.
  induction m as [|[k' v] m IH]; simpl; [set_solver|]. rewrite not_elem_of_cons, <- IH. case_bool_decide; naive_solver.
Qed.

Lemma json_lookup_app k m m' :
  Value.lookup k (m ++ m') = match Value.lookup k m with Some v => Some v | None => Value.lookup k m' end.
Proof. induction m as [|[k' v] m IH]; simpl; [done|]. by case_bool_decide. Qed.

Lemma lookup_collect (l : list (string * Value.t)) k : NoDup l.*1 → Value.lookup k (collect l) = Value.lookup k l.
Proof.
  induction l as [|[k' v] l IH] using rev_ind; [done|]. rewrite fmap_app, NoDup_app. intros (Hl & Hd & _).
  rewrite foldl_app. simpl. rewrite json_lookup_insert, json_lookup_app, IH by done. simpl.
  destruct (bool_decide_reflect (k' = k)) as [->|]; [|by destruct (Value.lookup k l)].
  destruct (Value.lookup k l) as [u|] eqn:Hu; [|done]. exfalso.
  assert (k ∈ l.*1) as Hin by (apply dec_stable; intros Hn; apply json_lookup_None in Hn; congruence).
  apply Hd in Hin. set_solver.
Qed.

Lemma json_lookup_map (f : Value.t → Value.t) (m : list (string * Value.t)) k :
  Value.lookup k (map (λ kv, (kv.1, f kv.2)) m) = f <$> Value.lookup k m.
Proof. induction m as [|[k' v] m IH]; simpl; [done|]. by case_bool_decide. Qed.

Lemma json_keys_map (f : Value.t → Value.t) (m : list (string * Value.t)) : (map (λ kv, (kv.1, f kv.2)) m).*1 = m.*1.
Proof. rewrite <- list_fmap_compose. by apply list_fmap_ext. Qed.

Lemma json_lookup_remove key k m :
  Value.lookup k (Value.remove key m) = if bool_decide (k = key) then None else Value.lookup k m.
Proof.
  induction m as [|[k' v] m IH]; simpl; [by case_bool_decide|].
  destruct (bool_decide_reflect (k' = key)) as [->|Hne]; simpl; rewrite IH;
    repeat case_bool_decide; congruence.
Qed.

Lemma NoDup_remove key (m : list (string * Value.t)) : NoDup m.*1 → NoDup (Value.remove key m).*1.
Proof.
  induction m as [|[k' v] m IH]; simpl; [done|]. rewrite NoDup_cons. intros [Hn Hm].
  case_match; simpl; [|auto]. apply NoDup_cons. split; [|auto].
  intros Hin. apply Hn. clear -Hin. induction m as [|[k u] m IH]; simpl in *; [done|].
  case_match; simpl in *; set_solver.
Qed.

(** The canonical forms of two objects are equal exactly when their fields have equal
    canonical forms, whatever the order of the fields. *)
Lemma canonical_objects m m' :
  NoDup m.*1 → NoDup m'.*1 →
  canonicalize_json (Value.Object m) = canonicalize_json (Value.Object m')
  ↔ ∀ k, canonicalize_json <$> Value.lookup k m = canonicalize_json <$> Value.lookup k m'.
Proof.
  intros Hm Hm'. simpl. split.
  - intros Heq k. injection Heq as Heq. apply (f_equal (Value.lookup k)) in Heq.
    rewrite !lookup_collect in Heq by (by rewrite json_keys_map). by rewrite !json_lookup_map in Heq.
  - intros Hext. f_equal. apply json_sorted_ext; [apply collect_sorted..|]. intros k.
    rewrite !lookup_collect by (by rewrite json_keys_map). by rewrite !json_lookup_map.
Qed.

(** ** The context *)

Lemma hex_char_inj a b : (a < 16)%N → (b < 16)%N → hex_char a = hex_char b → a = b.
Proof.
  unfold hex_char. intros Ha Hb H. apply (f_equal Ascii.N_of_ascii) in H.
  destruct (N.ltb_spec a 10), (N.ltb_spec b 10); rewrite !Ascii.N_ascii_embedding in H by lia; lia.
Qed.

Lemma lower_hex_inj l l' :
  Forall (λ b, (b < 256)%N) l → Forall (λ b, (b < 256)%N) l' → lower_hex l = lower_hex l' → l = l'.
Proof.
  intros Hl. revert l'. induction Hl as [|b l Hb _ IH]; intros l' Hl'; destruct Hl' as [|b' l' Hb' Hl']; try done.
  unfold lower_hex, hex_byte. cbn [foldr]. intros [= H1 H2 H3].
  apply hex_char_inj in H1; [|by apply N.Div0.div_lt_upper_bound..].
  apply hex_char_inj in H2; [|by apply N.mod_lt..].
  f_equal; [|by apply IH]. rewrite (N.div_mod b 16), (N.div_mod b' 16) by done. congruence.
Qed.

Lemma app_zero_inj (l l' k k' : list N) : 0%N ∉ l → 0%N ∉ l' → l ++ 0%N :: k = l' ++ 0%N :: k' → l = l' ∧ k = k'.
Proof.
  revert l'. induction l as [|x l IH]; intros [|x' l'] Hl Hl' H; simplify_eq/=; [done|set_solver|set_solver|].
  destruct (IH l') as [-> ->]; [set_solver..|done|done].
Qed.

(** The bytes that are hashed. *)
Definition canonical_text `{McpEnv} (args : Value.t) : string := to_string (canonicalize_json (without_otp args)).

Section context.
Context `{ME : McpEnv} `{PR : Prims} `{PL : !PrimLaws}.

(** The name a request's context is made with: the tool's, but the container's for the two
    tools whose arm binds a [name] of its own. *)
Definition bound_name (name : string) (args : Value.t) : string :=
  if bool_decide (name = "vault.create_container") || bool_decide (name = "vault.destroy")
  then default "" (Value.get_str "name" args) else name.

Lemma plain_request_context {V C K} transport action required name args (w w1 : World.t V C K) access :
  plain_request transport action required name args w = (Ok access, w1) →
  AccessRequest.authorization_context access = build_authorization_context name args.
Proof. by intros ->%plain_request_ok. Qed.

Lemma container_request_context {V C K} `{VF : VaultFacade V} transport action container file_name byte_size name args
    (w w1 : World.t V C K) access :
  container_request transport action container file_name byte_size name args w = (Ok access, w1) →
  AccessRequest.authorization_context access = build_authorization_context name args.
Proof. by intros [mode ->]%container_request_ok. Qed.

Lemma required_str_some args key s : required_str args key = Ok s → default "" (Value.get_str key args) = s.
Proof. unfold required_str. destruct (Value.get_str key args); [by intros [= ->]|done]. Qed.

(** On every branch the context is made with [bound_name]. *)
Lemma built_context {V C K} `{VF : VaultFacade V} name args tr (w w1 : World.t V C K) access :
  build_access_request name args tr w = (Ok access, w1) →
  AccessRequest.authorization_context access = build_authorization_context (bound_name name args) args.
Proof.
  intros H. unfold build_access_request in H.
  repeat match type of H with
    | (if bool_decide (name = ?s) then _ else _) _ = _ => destruct (bool_decide_reflect (name = s)) as [->|?]
    end; [..|discriminate H]; unfold bound_name; run_names; cbv iota.
  all: try lifted H.
  all: repeat match goal with H : required_str _ "name" = Ok _ |- _ => apply required_str_some in H end.
  all: cbn [orb]; cbv iota; subst.
  all: try match type of H with context [Value.get_str "container" ?a] => destruct (Value.get_str "container" a) end.
  all: first [by apply container_request_context in H | by apply plain_request_context in H | by injection H as <- _].
Qed.

(** C37: The authorization context of a request determines what it asks for.  Two requests the
    server builds have the same context only when they have the same bound name and the same
    arguments in canonical form, their one-time codes aside, or when their contexts exhibit a
    collision of SHA-256; and requests with the same bound name and the same such arguments do
    have the same context.  The bound name is the tool's name, except that for
    vault.create_container and vault.destroy it is the container's: so requests for any two
    other tools with one context are for the same tool, while a creation and a destruction of
    one container share theirs.  (A bound name has no zero byte; those of the tools have none.) *)
Theorem context_binds_request {V C K} `{VF : VaultFacade V} name args tr name' args' tr'
    (w1 w1' w2 w2' : World.t V C K) access access' :
  build_access_request name args tr w1 = (Ok access, w1') →
  build_access_request name' args' tr' w2 = (Ok access', w2') →
  0%N ∉ str_bytes (bound_name name args) → 0%N ∉ str_bytes (bound_name name' args') →
  (AccessRequest.authorization_context access = AccessRequest.authorization_context access' →
    (bound_name name args = bound_name name' args' ∧ canonical_text args = canonical_text args')
    ∨ ∃ m m' : list N, m ≠ m' ∧ sha256 m = sha256 m')
  ∧ (bound_name name args = bound_name name' args' → canonical_text args = canonical_text args' →
    AccessRequest.authorization_context access = AccessRequest.authorization_context access').
Proof.
  intros ->%built_context ->%built_context Hn Hn'. unfold build_authorization_context. split.
  - intros H. apply lower_hex_inj in H; [|apply sha256_bytes..].
    match type of H with sha256 ?x = sha256 ?y => destruct (decide (x = y)) as [E|?]; [left|right; by exists x, y] end.
    apply app_inv_head in E. apply app_zero_inj in E as [E1 E2]; [|done..].
    split; [by apply str_bytes_inj|]. by apply str_bytes_inj.
  - unfold canonical_text. by intros -> ->.
Qed.

(** The authorization context of an object of arguments depends neither on the order of the
    fields, at any depth, nor on the one-time code that accompanies it: when the other fields
    have the same canonical forms, the contexts are equal. *)
Theorem context_ignores_order_and_otp name fields fields' :
  NoDup fields.*1 → NoDup fields'.*1 →
  (∀ k, k ≠ "otp" → canonicalize_json <$> Value.lookup k fields = canonicalize_json <$> Value.lookup k fields') →
  build_authorization_context name (Value.Object fields) = build_authorization_context name (Value.Object fields').
Proof.
  intros Hf Hf' Hext. unfold build_authorization_context, without_otp.
  rewrite (proj2 (canonical_objects (Value.remove "otp" fields) (Value.remove "otp" fields')
                    (NoDup_remove _ _ Hf) (NoDup_remove _ _ Hf'))); [done|].
  intros k. rewrite !json_lookup_remove. case_bool_decide; [done|]. by apply Hext.
Qed.
End context.

(** One request sent twice, the second time with a one-time code and its fields in another
    order, and a request for another tool. *)
Definition read_again : Value.t :=
  Value.Object [("otp", Value.Str "123456"); ("file_name", Value.Str "a.txt"); ("container", Value.Str "notes")].

Lemma context_binds_request_witness :
  let w := demo_world SecurityMode.Direct [] in
  ∃ read again delete w1 w2 w3,
    build_access_request "vault.read" read_args AccessTransport.McpWs w = (Ok read, w1)
    ∧ build_access_request "vault.read" read_again AccessTransport.McpWs w = (Ok again, w2)
    ∧ build_access_request "vault.delete" read_args AccessTransport.McpWs w = (Ok delete, w3)
    ∧ AccessRequest.authorization_context read = AccessRequest.authorization_context again
    ∧ ((∀ m m' : list N, sha256 m = sha256 m' → m = m') →
        AccessRequest.authorization_context read ≠ AccessRequest.authorization_context delete).
Proof.
  assert (0%N ∉ str_bytes "vault.read") as Hr by (vm_compute; set_solver).
  assert (0%N ∉ str_bytes "vault.delete") as Hd by (vm_compute; set_solver).
  do 6 eexists. split_and!; [vm_compute; reflexivity..| |].
  - eapply (context_binds_request "vault.read" read_args AccessTransport.McpWs "vault.read" read_again AccessTransport.McpWs
              (demo_world SecurityMode.Direct []) _ (demo_world SecurityMode.Direct []) _);
      [vm_compute; reflexivity..|done|done|done|vm_compute; reflexivity].
  - intros Hinj Heq.
    eapply (context_binds_request "vault.read" read_args AccessTransport.McpWs "vault.delete" read_args AccessTransport.McpWs
              (demo_world SecurityMode.Direct []) _ (demo_world SecurityMode.Direct []) _)
      in Heq as [[Hname _]|(m & m' & Hne & He)]; [|by apply Hne, Hinj|vm_compute; reflexivity..|done|done].
    discriminate Hname.
Defined.

Lemma context_ignores_order_and_otp_witness :
  build_authorization_context "vault.read"
    (Value.Object [("otp", Value.Str "123456"); ("file_name", Value.Str "f"); ("container", Value.Str "c")])
  = build_authorization_context "vault.read" (Value.Object [("container", Value.Str "c"); ("file_name", Value.Str "f")]).
Proof.
  apply (context_ignores_order_and_otp "vault.read").
  - apply (bool_decide_unpack _). vm_compute. exact I.
  - apply (bool_decide_unpack _). vm_compute. exact I.
  - intros k Hk. unfold Value.lookup. rewrite (bool_decide_false ("otp" = k)) by congruence.
    destruct (bool_decide_reflect ("file_name" = k)) as [<-|]; [by vm_compute|]. by case_bool_decide.
Defined.

(** ** The listed tools *)

(** What [tools/list] answers with the broker's flag. *)
Definition listed_tools (flag : bool) : list Value.t := match tool_descriptors flag with Value.Array l => l | _ => [] end.

(** The [required] fields in the input schema of a descriptor. *)
Definition required_fields (d : Value.t) : list string :=
  match (schema ← Value.get "inputSchema" d; Value.get "required" schema) with
  | Some (Value.Array l) => omap Value.as_str l
  | _ => []
  end.

(** What [tools/list] says that a call of [name] needs; [None] when it lists no such tool. *)
Definition requires (flag : bool) (name : string) : option (list string) :=
  required_fields <$> List.find (λ d, bool_decide (Value.get_str "name" d = Some name)) (listed_tools flag).

(** The tools that are only listed with the broker enabled. *)
Definition broker_tools : list string := ["vault.create_broker_secret"; "vault.list_broker_secrets"; "vault.broker_request"].

Definition has_field (args : Value.t) (key : string) : Prop := is_Some (Value.get key args).

Lemma required_str_field args key s : required_str args key = Ok s → has_field args key.
Proof. unfold required_str, Value.get_str, has_field. destruct (Value.get key args); [by eexists|done]. Qed.

Lemma required_allow_field `{McpEnv} args allow : required_broker_allow args = Ok allow → has_field args "allow".
Proof. unfold required_broker_allow, has_field. destruct (Value.get "allow" args); [by eexists|done]. Qed.

Lemma import_field `{McpEnv} args import : validate_agent_import decode_error args = Ok import → has_field args "envelope".
Proof. unfold validate_agent_import, has_field. destruct (Value.get "envelope" args); [by eexists|done]. Qed.

Section listed.
Context {V C K : Type} `{VF : VaultFacade V} `{ME : McpEnv} `{PR : Prims} (server : McpServer.t C K).
Abbreviation W := (World.t V C K).

Lemma plain_request_fields transport action required name args (w w1 : W) access :
  plain_request transport action required name args w = (Ok access, w1) → Forall (has_field args) required.
Proof.
  unfold plain_request. intros H. step H u w' Hm. clear H. injection Hm as Hm _. clear w1 access.
  induction required as [|key required IH]; [done|]. simpl in Hm.
  destruct (required_str args key) as [s|] eqn:Hs; [|done]. constructor; [by eapply required_str_field|]. by apply IH.
Qed.

Lemma request_is_listed flag name args tr (w w1 : W) access :
  build_access_request name args tr w = (Ok access, w1) → (name ∈ broker_tools → flag = true) →
  ∃ keys, requires flag name = Some keys ∧ Forall (has_field args) keys.
Proof.
  intros H Hflag. unfold build_access_request in H.
  repeat match type of H with
    | (if bool_decide (name = ?s) then _ else _) _ = _ => destruct (bool_decide_reflect (name = s)) as [->|?]
    end; [..|discriminate H].
  all: try (rewrite Hflag by (apply (bool_decide_unpack _); vm_compute; exact I)); clear Hflag.
  all: eexists; split; [try destruct flag; vm_compute; reflexivity|].
  all: try (lifted H; try apply plain_request_fields in H).
  all: repeat match goal with
    | H : required_str _ _ = Ok _ |- _ => apply required_str_field in H
    | H : required_broker_allow _ = Ok _ |- _ => apply required_allow_field in H
    | H : validate_agent_import _ _ = Ok _ |- _ => apply import_field in H
    end.
  all: first [assumption | repeat (apply Forall_cons_2; [assumption|]); apply Forall_nil_2].
Qed.

(** With the broker disabled none of its tools succeeds. *)
Lemma broker_needs_flag flag name args tr (w w1 : W) value :
  (∀ v : V, broker_enabled v = flag) → name ∈ broker_tools →
  execute_tool name args tr w = (Ok value, w1) → flag = true.
Proof.
  intros Hflag Hname. assert (∀ w : W, (asks broker_enabled w).1 = Ok true → flag = true) as Hasks.
  { intros w0. unfold asks. destruct (World.vault w0) as [v|]; [|done]. rewrite Hflag. by intros [= ->]. }
  unfold execute_tool. repeat (apply elem_of_cons in Hname as [->|Hname]); [..|by apply elem_of_nil in Hname];
    run_names; cbv iota; [| |done].
  all: unfold create_broker_tool; intros H; step H enabled w0 Hen; destruct enabled; [|discriminate H].
  all: apply (Hasks w); by rewrite Hen.
Qed.

Lemma broker_call_needs_flag flag access args validate authorize (w w1 : W) value :
  (∀ v : V, broker_enabled v = flag) →
  broker_call server access args validate authorize w = (Ok value, w1) → flag = true.
Proof.
  intros Hflag H. unfold broker_call in H. step H s w2 Hs. step H answer w3 Hx. destruct answer as [res detail].
  step H e w4 He. step H audit w5 Ha. step H u w6 Hu. unfold glift in H.
  destruct res as [out|]; [|by destruct audit]. clear H Ha Hu He. unfold execute_broker in Hx.
  destruct (required_str args "secret_ref"), (required_str args "method"), (required_str args "url"); try discriminate Hx.
  step Hx held w7 Hh. destruct held; [|discriminate Hx]. step Hx enabled w8 Hen.
  unfold asks in Hen. destruct enabled; [|discriminate Hx].
  destruct (World.vault w7) as [open|]; [|discriminate Hen]. rewrite Hflag in Hen. by injection Hen.
Qed.

Lemma vault_call_executed access name args tr validate authorize (w w1 : W) value :
  vault_call server access name args tr validate authorize w = (Ok value, w1) →
  ∃ (w2 : W) v w3, execute_tool name args tr w2 = (Ok v, w3).
Proof.
  intros H. unfold vault_call in H. step H s w2 Hs. step H u w3 Hl. step H r w4 Hx. step H e w5 He. step H f w6 Hf.
  unfold gtry in Hx. destruct (execute_tool name args tr w3) as [result w3'] eqn:Hex. injection Hx as <- <-.
  destruct result as [v|err]; [by eexists _, _, _|]. exfalso.
  unfold filter_result in H. cbn in H. step H audit w7 Ha. step H t w8 Ht. unfold glift in H.
  by destruct audit.
Qed.

Lemma call_tool_runs name args tr agent (w w1 : W) value :
  call_tool server name args tr agent w = (Ok value, w1) →
  ∃ access validate authorize w2,
    (if bool_decide (name = "vault.broker_request") then broker_call server access args validate authorize
     else vault_call server access name args tr validate authorize) w2 = (Ok value, w1).
Proof.
  intros H. unfold call_tool in H. step H s w2 H2. step H u w3 H3. step H l w4 H4. step H access w5 H5. step H c w6 H6.
  step H validate w7 H7. step H started w8 H8. step H d w9 H9. step H authorize w10 H10. step H f w11 H11.
  by eexists _, _, _, _.
Qed.

(** C39: A tool call that succeeds is one that the server's own [tools/list] describes.  On a
    server whose broker flag (an environment variable of its process) has the value [flag], a
    successful call is of a tool in the list [tools/list] answers with that flag, and the
    arguments have every field that its input schema marks as required; so with the broker
    disabled no call of a broker tool succeeds. *)
Theorem calls_follow_schema flag name args tr agent w value w' :
  (∀ v : V, broker_enabled v = flag) →
  call_tool server name args tr agent w = (Ok value, w') →
  (∃ keys, requires flag name = Some keys ∧ Forall (has_field args) keys)
  ∧ ∀ id params pairing transport (w0 : W), is_Some (World.vault (World.interfere w0)) →
      (run_method server id "tools/list" params pairing transport w0).1
      = ok_response id (Value.object [("tools", Value.Array (listed_tools flag))]).
Proof.
  intros Hflag Hcall. split.
  - destruct (traces_call_tool server name args tr agent w) as (new & _ & Hshape).
    rewrite Hcall in Hshape. destruct Hshape as [[? _]|(access & rest & attempt & asked & _ & _ & Hadm & _)]; [done|].
    destruct Hadm as [(w0 & w1 & request & Hbuild & _) _]. eapply request_is_listed; [done|]. intros Hname.
    apply call_tool_runs in Hcall as (? & ? & ? & w2 & Hrun). case_bool_decide.
    + by eapply broker_call_needs_flag.
    + apply vault_call_executed in Hrun as (? & ? & ? & ?). by eapply broker_needs_flag.
  - intros id params pairing transport w0 [v Hv]. unfold run_method. run_names. cbv iota. rewrite Hv, Hflag. done.
Qed.
End listed.

Lemma calls_follow_schema_witness :
  requires false "vault.broker_request" = None ∧
  ∃ value w',
    call_tool demo_server "vault.read" read_args AccessTransport.McpWs None (demo_world SecurityMode.Direct []) = (Ok value, w')
    ∧ ∃ keys, requires false "vault.read" = Some keys ∧ Forall (has_field read_args) keys.
Proof.
  split; [vm_compute; reflexivity|]. eexists _, _. split; [vm_compute; reflexivity|].
  eapply (calls_follow_schema demo_server false "vault.read" read_args AccessTransport.McpWs None (demo_world SecurityMode.Direct [])).
  - done.
  - vm_compute. reflexivity.
Defined.

(** * Connections, the rate limiter and the listener *)
(** ** The rate limiter

    The limiter forgets what is out of the window.  Its reference keeps everything. *)

Section limiter.
Context (self : RateLimiter.t) (text : string).

(** The requests that [check] accepts, oldest first. *)
Fixpoint accepted (requests : list (N * string)) (state : gmap string (list N)) : list (N * string) :=
  match requests with
  | [] => []
  | (now, key) :: requests' =>
      let '(r, state) := RateLimiter.check self text now key state in
      (if is_ok r then [(now, key)] else []) ++ accepted requests' state
  end.

Definition times (key : string) (history : list (N * string)) : list N :=
  (List.filter (λ r, bool_decide (r.2 = key)) history).*1.

Definition in_window (now t : N) : bool := (now - t <? RateLimiter.window self)%N.

(** The reference: a request is accepted when the whole history has room in the window. *)
Fixpoint reference (requests history : list (N * string)) : list (N * string) :=
  match requests with
  | [] => []
  | (now, key) :: requests' =>
      if length (List.filter (in_window now) (times key history)) <? RateLimiter.max_requests self
      then (now, key) :: reference requests' (history ++ [(now, key)])
      else reference requests' history
  end.

Fixpoint ascending (last : N) (requests : list (N * string)) : Prop :=
  match requests with [] => True | (now, _) :: requests' => (last ≤ now)%N ∧ ascending now requests' end.

Lemma times_app key h h' : times key (h ++ h') = times key h ++ times key h'.
Proof. unfold times. by rewrite List.filter_app, fmap_app. Qed.

Lemma filter_later now now' l :
  (now ≤ now')%N → List.filter (in_window now') (List.filter (in_window now) l) = List.filter (in_window now') l.
Proof.
  intros Hle. induction l as [|t l IH]; [done|]. simpl. destruct (in_window now t) eqn:E; simpl; rewrite IH; [done|].
  enough (in_window now' t = false) as -> by done. unfold in_window in *. rewrite N.ltb_ge in *. lia.
Qed.

(** The state agrees with the history from [last] on. *)
Definition remembers (last : N) (state : gmap string (list N)) (history : list (N * string)) : Prop :=
  ∀ key now, (last ≤ now)%N →
    List.filter (in_window now) (default [] (state !! key)) = List.filter (in_window now) (times key history).

Lemma remembers_step last now key state history extra :
  (last ≤ now)%N → remembers last state history → Forall (λ r, r.2 = key) extra →
  remembers now (<[key := List.filter (in_window now) (times key history) ++ extra.*1]> state) (history ++ extra).
Proof.
  intros Hle Hst Hextra key' now' Hle'. rewrite times_app, List.filter_app.
  assert (times key' extra = if bool_decide (key = key') then extra.*1 else []) as ->.
  { induction Hextra as [|[t k] extra Hk _ IH]; [by case_bool_decide|]. simpl in Hk. subst k.
    unfold times in *. simpl. revert IH. destruct (bool_decide (key = key')); simpl; intros IH; [f_equal|]; exact IH. }
  case_bool_decide as Hk.
  - subst key'. rewrite lookup_insert_eq. simpl. by rewrite List.filter_app, filter_later.
  - rewrite lookup_insert_ne by done. rewrite app_nil_r. apply Hst. lia.
Qed.

Lemma accepted_reference last requests state history :
  ascending last requests → remembers last state history → accepted requests state = reference requests history.
Proof.
  revert last state history. induction requests as [|[now key] requests IH]; intros last state history; [done|].
  cbn [ascending accepted reference]. intros [Hle Hasc] Hst.
  unfold RateLimiter.check. change (λ t, (now - t <? RateLimiter.window self)%N) with (in_window now).
  rewrite (Hst key now Hle), Nat.leb_antisym.
  destruct (length _ <? _); simpl.
  - f_equal. eapply IH; [done|]. apply (remembers_step last now key state history [(now, key)]); [done..|by repeat constructor].
  - eapply IH; [done|]. rewrite <- (app_nil_r history) at 2.
    rewrite <- (app_nil_r (List.filter _ _)). by apply (remembers_step last now key state history []).
Qed.

(** How many accepted requests of [key] fall in the window from [start]. *)
Definition load (key : string) (start : N) (history : list (N * string)) : nat :=
  length (List.filter (λ t, (start <=? t) && (t <? start + RateLimiter.window self))%N (times key history)).

Lemma load_app key start h h' : load key start (h ++ h') = load key start h + load key start h'.
Proof. unfold load. by rewrite times_app, List.filter_app, length_app. Qed.

Lemma length_filter_le (P Q : N → bool) l :
  Forall (λ t, P t = true → Q t = true) l → length (List.filter P l) ≤ length (List.filter Q l).
Proof.
  induction 1 as [|t l Ht _ IH]; simpl; [done|]. destruct (P t); [rewrite Ht by done; simpl; lia|]. case_match; simpl; lia.
Qed.

Lemma load_reference last requests history key start :
  ascending last requests → Forall (λ r, r.1 ≤ last)%N history → load key start history ≤ RateLimiter.max_requests self →
  load key start (history ++ reference requests history) ≤ RateLimiter.max_requests self.
Proof.
  revert last history. induction requests as [|[now k] requests IH]; intros last history.
  { intros. by rewrite app_nil_r. }
  cbn [ascending reference]. intros [Hle Hasc] Hlast Hload.
  assert (Hnow : Forall (λ r, r.1 ≤ now)%N history) by (eapply Forall_impl; [exact Hlast|simpl; lia]).
  destruct (Nat.ltb_spec (length (List.filter (in_window now) (times k history))) (RateLimiter.max_requests self)) as [Hroom|];
    [|by eapply IH].
  replace (history ++ (now, k) :: reference requests (history ++ [(now, k)]))
    with ((history ++ [(now, k)]) ++ reference requests (history ++ [(now, k)])) by by rewrite <- app_assoc.
  eapply IH; [done|by apply Forall_app; repeat constructor|].
  rewrite load_app. unfold load at 2, times. simpl.
  destruct (bool_decide_reflect (k = key)) as [->|]; simpl; [|lia].
  destruct ((start <=? now) && (now <? start + RateLimiter.window self))%N eqn:Hin; simpl; [|lia].
  apply andb_true_iff in Hin as [H1%N.leb_le H2%N.ltb_lt].
  enough (load key start history ≤ length (List.filter (in_window now) (times key history))) by lia.
  apply length_filter_le. unfold times. apply Forall_fmap.
  assert (Hsub : Forall (λ r, r.1 ≤ now)%N (List.filter (λ r, bool_decide (r.2 = key)) history)).
  { clear -Hnow. induction Hnow; simpl; [constructor|]. case_match; by repeat constructor. }
  eapply Forall_impl; [exact Hsub|]. simpl. intros [t k'] Ht. simpl in *. unfold in_window.
  rewrite andb_true_iff, N.leb_le, !N.ltb_lt. lia.
Qed.

(** C38: Over any sequence of requests whose instants do not decrease, the limiter, which only
    keeps the instants of the current window, accepts exactly the requests that a limiter with
    the whole history accepts; and no window of its length, wherever it starts, holds more
    than [max_requests] accepted requests of one key. *)
Theorem rate_limit_window requests :
  ascending 0 requests →
  accepted requests ∅ = reference requests [] ∧
  ∀ key start, load key start (accepted requests ∅) ≤ RateLimiter.max_requests self.
Proof.
  intros Hasc. assert (Heq : accepted requests ∅ = reference requests []).
  { apply (accepted_reference 0); [done|]. intros key now _. by rewrite lookup_empty. }
  split; [done|]. intros key start. rewrite Heq.
  apply (load_reference 0 requests [] key start); [done|constructor|unfold load; simpl; lia].
Qed.
End limiter.

Lemma rate_limit_window_witness :
  let self := RateLimiter.mk 2 10 in
  let requests := [(1%N, "a"); (3%N, "a"); (5%N, "a"); (6%N, "b"); (12%N, "a")] in
  accepted self "10s" requests ∅ = [(1%N, "a"); (3%N, "a"); (6%N, "b"); (12%N, "a")]
  ∧ accepted self "10s" requests ∅ = reference self requests []
  ∧ ∀ key start, load self key start (accepted self "10s" requests ∅) ≤ 2.
Proof. split; [vm_compute; reflexivity|]. apply (rate_limit_window (RateLimiter.mk 2 10) "10s"). simpl. lia. Defined.

(** ** Connections *)

Section connection.
Context {V C K : Type} `{VF : VaultFacade V} `{ME : McpEnv} `{PR : Prims} (server : McpServer.t C K).
Abbreviation W := (World.t V C K).

(** The text asks to pair, and the secret or the authenticator accepts it for [agent]. *)
Definition pairing_request (raw : string) (agent : option ResolvedAgent.t) : Prop :=
  ∃ req, from_str raw = Ok req ∧ Value.get_str "method" req = Some "vault.pair" ∧
    let params := default Value.Null (Value.get "params" req) in
    resolve_pairing server (Value.get_str "agent_id" params) (pairing_token params) = Ok agent.

(** Every call of the vault on behalf of [agent] belongs to some gated tool call. *)
Definition all_gated (tr : AccessTransport.t) (agent : option ResolvedAgent.t) (new : list event) : Prop :=
  every_call (λ op earlier, ∃ name args, gated (V := V) server name args tr agent op earlier) new.

Lemma all_gated_app tr agent new new' : all_gated tr agent new → all_gated tr agent new' → all_gated tr agent (new ++ new').
Proof. apply every_call_app. intros op earlier (name & args & Hg). exists name, args. by apply gated_app. Qed.

(** What a paired connection does to the world. *)
Definition gated_step tr agent (w w' : W) : Prop :=
  ∃ new, World.log w' = new ++ World.log w ∧ all_gated tr agent new.

Lemma gated_step_refl tr agent (w w' : W) : World.log w' = World.log w → gated_step tr agent w w'.
Proof. intros. by exists []. Qed.

Lemma gated_step_trans tr agent (w1 w2 w3 : W) :
  gated_step tr agent w1 w2 → gated_step tr agent w2 w3 → gated_step tr agent w1 w3.
Proof.
  intros (n1 & H1 & G1) (n2 & H2 & G2). exists (n2 ++ n1). rewrite H2, H1, app_assoc. split; [done|]. by apply all_gated_app.
Qed.

Lemma every_call_mono (P Q : vault_op → list event → Prop) log :
  (∀ op earlier, P op earlier → Q op earlier) → every_call P log → every_call Q log.
Proof. intros HPQ. induction log as [|e log IH]; [done|]. simpl. intros [He Hl]. split; [destruct e; auto|auto]. Qed.

Lemma run_method_gated id method params pairing tr (w : W) :
  gated_step tr (PairState.agent pairing) w (run_method server id method params pairing tr w).2.
Proof.
  unfold run_method. repeat (case_bool_decide; [|]); try by apply gated_step_refl.
  - apply gated_step_refl. simpl. apply log_interfere.
  - destruct (traces_call_tool server (default "" (Value.get_str "name" params))
                (default Value.Null (Value.get "arguments" params)) tr (PairState.agent pairing) w) as (new & Hlog & Hshape).
    destruct (call_tool _ _ _ _ _ w) as [r w'] eqn:Hr. exists new. split; [exact Hlog|].
    eapply every_call_mono; [|by eapply shape_gated]. intros op earlier Hg. by do 2 eexists.
Qed.

Lemma dispatch_paired raw agent tr (w : W) response pairing w' :
  dispatch server raw (PairState.AlreadyPaired agent) tr w = (response, pairing, w') →
  pairing = PairState.AlreadyPaired agent ∧ gated_step tr agent w w'.
Proof.
  unfold dispatch. destruct (from_str raw) as [req|e]; [|intros [= _ <- <-]; split; [done|by apply gated_step_refl]].
  destruct (Value.get_str "method" req) as [method|]; [|intros [= _ <- <-]; split; [done|by apply gated_step_refl]].
  destruct (Value.get "id" req) as [id|]; [|intros [= _ <- <-]; split; [done|by apply gated_step_refl]].
  pose proof (run_method_gated id method (default Value.Null (Value.get "params" req))
                (PairState.AlreadyPaired agent) tr w) as Hrun.
  destruct (run_method _ _ _ _ _ _ _) as [answer w1].
  destruct id; intros [= _ <- <-]; (split; [done|]); first [exact Hrun | by apply gated_step_refl].
Qed.

(** An unpaired connection does not touch the world. *)
Lemma dispatch_unpaired raw tr (w : W) response pairing w' :
  dispatch server raw PairState.Unpaired tr w = (response, pairing, w') →
  w' = w ∧ match pairing with PairState.AlreadyPaired agent => pairing_request raw agent | _ => True end.
Proof.
  unfold dispatch. destruct (from_str raw) as [req|e] eqn:Hreq; [|by intros [= _ <- <-]].
  destruct (Value.get_str "method" req) as [method|] eqn:Hmethod; [|by intros [= _ <- <-]].
  assert (Hpair : ∀ id response pairing, pair_step server id method (default Value.Null (Value.get "params" req)) = (response, pairing) →
            match pairing with PairState.AlreadyPaired agent => pairing_request raw agent | _ => True end).
  { unfold pair_step. intros id ? ?. case_bool_decide; [subst|by intros [= _ <-]].
    destruct (resolve_pairing _ _ _) as [agent|] eqn:Hres; intros [= _ <-]; [|done]. by exists req. }
  destruct (Value.get "id" req) as [id|]; [|by intros [= _ <- <-]].
  specialize (Hpair id). destruct (pair_step _ _ _ _) as [answer p]. specialize (Hpair _ _ eq_refl).
  by destruct id; intros [= _ <- <-].
Qed.

(** Messages that carry a request. *)
Definition carries (message : incoming) (bytes : list N) : Prop := message = Text bytes ∨ message = Binary bytes.

Lemma ws_text_paired bytes failure agent (w : W) r pairing w' more :
  ws_text server bytes failure (PairState.AlreadyPaired agent) w = (r, pairing, w', more) →
  pairing = PairState.AlreadyPaired agent ∧ gated_step AccessTransport.McpWs agent w w'.
Proof.
  unfold ws_text. destruct (dispatch _ _ _ _ _) as [[response p] w1] eqn:Hd. apply dispatch_paired in Hd as [-> Hstep].
  by destruct response, failure; intros [= <- <- <- <-].
Qed.

Lemma handle_ws_paired messages agent (w : W) sent r pairing w' sent' :
  handle_ws server messages (PairState.AlreadyPaired agent) w sent = (r, pairing, w', sent') →
  pairing = PairState.AlreadyPaired agent ∧ gated_step AccessTransport.McpWs agent w w'.
Proof.
  revert w sent. induction messages as [|[message failure] messages IH]; intros w sent; simpl.
  { intros [= _ <- <- _]. split; [done|by apply gated_step_refl]. }
  assert (Htext : ∀ bytes,
    match ws_text server bytes failure (PairState.AlreadyPaired agent) w with
    | (Ok true, pairing, w, more) => handle_ws server messages pairing w (sent ++ more)
    | (Ok false, pairing, w, more) => (Ok tt, pairing, w, sent ++ more)
    | (Err e, pairing, w, more) => (Err e, pairing, w, sent ++ more)
    end = (r, pairing, w', sent') → pairing = PairState.AlreadyPaired agent ∧ gated_step AccessTransport.McpWs agent w w').
  { intros bytes. destruct (ws_text _ _ _ _ _) as [[[[[]|e] p] w1] more] eqn:Ht; apply ws_text_paired in Ht as [-> Hstep].
    - intros [-> ?]%IH. split; [done|]. by eapply gated_step_trans.
    - by intros [= _ <- <- _].
    - by intros [= _ <- <- _]. }
  destruct message; try (intros [= _ <- <- _]; split; [done|by apply gated_step_refl]);
    [apply Htext| |destruct failure|apply IH].
  - destruct (utf8_valid _); [apply Htext|]. intros [= _ <- <- _]. split; [done|by apply gated_step_refl].
  - intros [= _ <- <- _]. split; [done|by apply gated_step_refl].
  - apply IH.
Qed.

(** The verdict on a run that starts unpaired. *)
Definition pairs_first (run : list (incoming * option string) → result unit McpError.t * PairState.t * W * list outgoing)
    (messages : list (incoming * option string)) (w : W) : Prop :=
  let '(r, pairing, w', sent) := run messages in
  match pairing with
  | PairState.Unpaired => w' = w
  | PairState.Failed => w' = w ∧ ∀ more, run (messages ++ more) = (r, pairing, w', sent)
  | PairState.AlreadyPaired agent =>
      gated_step AccessTransport.McpWs agent w w' ∧
      ∃ before message failure after bytes sent0,
        messages = before ++ (message, failure) :: after ∧ carries message bytes ∧ pairing_request (trimmed bytes) agent
        ∧ run before = (Ok tt, PairState.Unpaired, w, sent0)
  end.

Lemma handle_ws_unpaired messages (w : W) sent :
  pairs_first (λ messages, handle_ws server messages PairState.Unpaired w sent) messages w.
Proof.
  unfold pairs_first. revert sent. induction messages as [|[message failure] messages IH]; intros sent; [done|].
  assert (Hskip : ∀ sent1, (∀ l, handle_ws server ((message, failure) :: l) PairState.Unpaired w sent
                                 = handle_ws server l PairState.Unpaired w sent1) →
    pairs_first (λ messages, handle_ws server messages PairState.Unpaired w sent) ((message, failure) :: messages) w).
  { intros sent1 Heq. unfold pairs_first. rewrite Heq. specialize (IH sent1).
    destruct (handle_ws server messages PairState.Unpaired w sent1) as [[[r pairing] w'] sent'].
    destruct pairing as [|agent|]; [done| |].
    - destruct IH as (Hstep & before & m & f & after & bytes & sent0 & -> & Hc & Hp & Hb). split; [done|].
      exists ((message, failure) :: before), m, f, after, bytes, sent0. split_and!; [done..|]. by rewrite Heq.
    - destruct IH as [-> Hmore]. split; [done|]. intros more. rewrite <- app_comm_cons, Heq. apply Hmore. }
  assert (Hstop : ∀ r sent1, (∀ l, handle_ws server ((message, failure) :: l) PairState.Unpaired w sent
                                   = (r, PairState.Unpaired, w, sent1)) →
    pairs_first (λ messages, handle_ws server messages PairState.Unpaired w sent) ((message, failure) :: messages) w).
  { intros r sent1 Heq. unfold pairs_first. by rewrite Heq. }
  assert (Htext : ∀ bytes, carries message bytes →
    (∀ l, handle_ws server ((message, failure) :: l) PairState.Unpaired w sent =
      match ws_text server bytes failure PairState.Unpaired w with
      | (Ok true, pairing, w, more) => handle_ws server l pairing w (sent ++ more)
      | (Ok false, pairing, w, more) => (Ok tt, pairing, w, sent ++ more)
      | (Err e, pairing, w, more) => (Err e, pairing, w, sent ++ more)
      end) →
    pairs_first (λ messages, handle_ws server messages PairState.Unpaired w sent) ((message, failure) :: messages) w).
  { intros bytes Hc Heq. unfold ws_text in Heq.
    destruct (dispatch _ _ _ _ _) as [[response p] w1] eqn:Hd. apply dispatch_unpaired in Hd as [-> Hp].
    destruct p as [|agent|].
    - destruct response, failure; simpl in Heq; first [by eapply Hstop | by eapply Hskip].
    - assert (Hfirst : ∃ before m f after b sent0, (message, failure) :: messages = before ++ (m, f) :: after ∧ carries m b
        ∧ pairing_request (trimmed b) agent ∧ handle_ws server before PairState.Unpaired w sent = (Ok tt, PairState.Unpaired, w, sent0)).
      { by exists [], message, failure, messages, bytes, sent. }
      unfold pairs_first. rewrite Heq. destruct response, failure; simpl;
        try (split; [by apply gated_step_refl|exact Hfirst]);
        destruct (handle_ws _ _ _ _ _) as [[[r p] w'] sent'] eqn:Hh; by apply handle_ws_paired in Hh as [-> Hstep].
    - unfold pairs_first. rewrite Heq.
      destruct response, failure; simpl in Heq |- *; (split; [done|]); intros more; by rewrite Heq. }
  destruct message; try (by eapply Hstop; intros l).
  - apply (Htext bytes); [by left|done].
  - destruct (utf8_valid bytes) eqn:Hu.
    + apply (Htext bytes); [by right|]. intros l. simpl. by rewrite Hu.
    + eapply Hstop. intros l. simpl. by rewrite Hu.
  - destruct failure; [by eapply Hstop; intros l|by eapply Hskip; intros l].
  - by eapply Hskip; intros l.
Qed.

(** C8: A WebSocket connection reaches the vault only after pairing.  Until a message asks to
    pair with an accepted secret the world is untouched; a refused attempt ends the connection,
    whatever follows; and after an accepted one every call of the vault on the connection is
    gated for the agent that the pairing bound, which never changes. *)
Theorem connection_pairs_first handshake messages (w : W) :
  pairs_first (λ messages, handle_ws_conn server handshake messages w) messages w.
Proof.
  unfold handle_ws_conn. destruct handshake as [[|]|]; [apply handle_ws_unpaired|done..].
Qed.
End connection.

(** Two connections: one guesses, one pairs and reads. *)
Example connections_run :
  let w := demo_world SecurityMode.Direct [] in
  let msgs l := map (λ m : string, (Text (str_bytes m), None : option string)) l in
  (handle_ws_conn demo_server (Some (Ok tt)) (msgs ["guess"; "pair"; "read"]) w).1.1.2 = PairState.Failed
  ∧ (handle_ws_conn demo_server (Some (Ok tt)) (msgs ["read"]) w).1.1.2 = PairState.Failed
  ∧ let '(r, pairing, w', sent) := handle_ws_conn demo_server (Some (Ok tt)) (msgs ["pair"; "ping"; "read"]) w in
    r = Ok tt ∧ pairing = PairState.AlreadyPaired None ∧ length sent = 3 ∧ length (World.log w') = 5.
Proof. vm_compute. auto 10. Qed.

(** ** The listener *)

Lemma listener_bound peer_ok events n : serve_ws_listener peer_ok events = Some n → n ≤ MAX_WS_CONNECTIONS.
Proof.
  unfold serve_ws_listener. destruct peer_ok; [|done]. intros [= <-].
  enough (∀ open, open ≤ MAX_WS_CONNECTIONS → foldl listener_step open events ≤ MAX_WS_CONNECTIONS) as H
    by (apply H; unfold MAX_WS_CONNECTIONS; lia).
  induction events as [|e events IH]; intros open Hopen; simpl; [done|]. apply IH.
  destruct e as [[]| |]; simpl; [case_match eqn:E; [apply Nat.ltb_lt in E|]; lia|lia..].
Qed.
