(* ===== verification/Approvals.v ===== *)
(** * Approvals: what the person at the desktop decides

    The approval controller of the desktop application: requests that wait for a click behind
    the presence prompt, and one-time codes.  Every definition that changes the state is what
    runs while a lock is held, with what follows it up to the next suspension; an operation
    that gives its locks up is cut into several, with a [task] for what it keeps in between.
    What the verifier and the random generator answer is an argument.  The calls of [verify]
    and the end of an attempt are steps of the coordinator, which follow an operation here.  A caller may
    go away while its task is suspended.  The log is a ghost: what was emitted, answered and recorded, latest first.  Emitting an event is taken to
    succeed; the tray menu and the notifications are left out.  Writing to the audit log may fail
    at any time, and the code ignores that it did: [Desk.auditing] says whether it works now. *)
From stdpp Require Import pretty.
From S2P Require Import Prelude Text Json AuditTypes Fs Crypto Storage PresenceOp Gate Coordinator Scopes.

Definition secs (n : N) : N := (n * 1000000000)%N.

Definition APPROVAL_TIMEOUT_SECS : N := 120.
(** How long an issued challenge stays valid. *)
Definition OTP_TTL_SECS : N := 120.
Definition OTP_MAX_ATTEMPTS : N := 5.
Definition OTP_LOCKOUT_SECS : N := 300.
Definition OTP_MAX_PENDING : nat := 1024.

Definition debug_option (o : option string) : string :=
  match o with Some s => "Some(" +:+ (debug_str s +:+ ")") | None => "None" end.

(** Retries of a request have the same signature. *)
Definition request_signature (request : AccessRequest.t) : string :=
  AccessAction.debug (AccessRequest.action request) +:+ ("|" +:+
  (debug_option (AccessRequest.container request) +:+ ("|" +:+
  (debug_option (AccessRequest.file_name request) +:+ ("|" +:+
  (debug_option (AccessRequest.agent_id request) +:+ ("|" +:+
   AccessRequest.authorization_context request))))))).

Definition audit_action_for (action : AccessAction.t) : AuditAction.t :=
  match action with
  | AccessAction.ListContainers => AuditAction.ListContainers
  | AccessAction.ListFiles => AuditAction.ListFiles
  | AccessAction.ReadFile => AuditAction.ReadFile
  | AccessAction.WriteFile => AuditAction.WriteFile
  | AccessAction.DeleteFile => AuditAction.DeleteFile
  | AccessAction.CreateContainer => AuditAction.CreateContainer
  | AccessAction.DestroyContainer => AuditAction.DeleteContainer
  | AccessAction.CreateTransitKey => AuditAction.CreateTransitKey
  | AccessAction.ListTransitKeys => AuditAction.ListTransitKeys
  | AccessAction.Encrypt => AuditAction.Encrypt
  | AccessAction.Decrypt => AuditAction.Decrypt
  | AccessAction.CreateSigningKey => AuditAction.CreateSigningKey
  | AccessAction.ListSigningKeys => AuditAction.ListSigningKeys
  | AccessAction.Sign => AuditAction.Sign
  | AccessAction.Verify => AuditAction.Verify
  | AccessAction.CreateBrokerSecret => AuditAction.CreateBrokerSecret
  | AccessAction.ListBrokerSecrets => AuditAction.ListBrokerSecrets
  | AccessAction.Broker => AuditAction.Broker
  | AccessAction.VaultInfo => AuditAction.VaultInfo
  | AccessAction.ExportAgents => AuditAction.AgentExport
  | AccessAction.ImportAgents => AuditAction.AgentImport
  end.

Definition op_for_access (request : AccessRequest.t) : OpDescriptor.t :=
  let op := OpDescriptor.new "mcp_request" in
  let op := OpDescriptor.field op "action" (AccessAction.debug (AccessRequest.action request)) in
  let op := OpDescriptor.field op "container" (default "" (AccessRequest.container request)) in
  let op := OpDescriptor.field op "file" (default "" (AccessRequest.file_name request)) in
  let op := OpDescriptor.field op "agent" (default "" (AccessRequest.agent_id request)) in
  let op := OpDescriptor.bind op "mode" (default "" (SecurityMode.as_str <$> AccessRequest.mode request)) in
  let op := OpDescriptor.bind op "byte_size"
              (match AccessRequest.byte_size request with Some b => pretty b | None => "" end) in
  OpDescriptor.bind op "authorization_context" (AccessRequest.authorization_context request).

(** ** What needs whom *)

Module ApprovalPromptKind.
Inductive t := NotRequired | Click | Otp.
#[global] Instance t_eq_dec : EqDecision t.
Proof. solve_decision. Defined.
End ApprovalPromptKind.

Definition approval_requirement (request : AccessRequest.t) : result ApprovalPromptKind.t string :=
  match AccessRequest.action request with
  | AccessAction.Broker | AccessAction.ImportAgents | AccessAction.ExportAgents => Ok ApprovalPromptKind.Click
  | AccessAction.CreateTransitKey | AccessAction.ListTransitKeys | AccessAction.Encrypt | AccessAction.Decrypt
  | AccessAction.CreateSigningKey | AccessAction.ListSigningKeys | AccessAction.Sign => Ok ApprovalPromptKind.Click
  | AccessAction.CreateBrokerSecret | AccessAction.ListBrokerSecrets => Ok ApprovalPromptKind.Click
  | AccessAction.Verify => Ok ApprovalPromptKind.NotRequired
  | action =>
      match AccessRequest.mode request with
      | Some SecurityMode.Direct | Some SecurityMode.Anonymized | None =>
          match action with
          | AccessAction.ListContainers | AccessAction.CreateContainer => Ok ApprovalPromptKind.Click
          | _ => Ok ApprovalPromptKind.NotRequired
          end
      | Some SecurityMode.Approval => Ok ApprovalPromptKind.Click
      | Some SecurityMode.Otp => Ok ApprovalPromptKind.Otp
      | Some SecurityMode.Zkp => Err "ZKP mode is not implemented for live MCP access"
      | Some SecurityMode.Native => Err "NATIVE mode is not implemented for live MCP access"
      end
  end.

(** ** State *)

Module PendingApproval.
Record t := mk {
  otp_code : option string;
  signature : string;
  protected : bool;
  gate : GateState.t;
  deadline : Instant;
  op : OpDescriptor.t;
  audit_action : AuditAction.t;
  pre_unlock : bool
}.
Definition with_gate (e : t) (g : GateState.t) : t :=
  mk (otp_code e) (signature e) (protected e) g (deadline e) (op e) (audit_action e) (pre_unlock e).
End PendingApproval.

Module OtpChallenge.
Record t := mk {
  code : string;
  modal_id : N;
  issued_at : Instant;
  failed_attempts : N;
  lockout_until : option Instant;
  protected : bool;
  gate : GateState.t;
  op : OpDescriptor.t;
  audit_action : AuditAction.t;
  revealed_modality : option Modality.t
}.
Definition new (now : Instant) (code : string) (modal_id : N) (protected : bool) (op : OpDescriptor.t)
    (audit_action : AuditAction.t) : t :=
  mk code modal_id now 0 None protected GateState.default op audit_action None.
Definition with_gate (c : t) (g : GateState.t) : t :=
  mk (code c) (modal_id c) (issued_at c) (failed_attempts c) (lockout_until c) (protected c) g (op c) (audit_action c)
    (revealed_modality c).
Definition with_modality (c : t) (m : Modality.t) : t :=
  mk (code c) (modal_id c) (issued_at c) (failed_attempts c) (lockout_until c) (protected c) (gate c) (op c)
    (audit_action c) (Some m).

Definition is_expired (c : t) (now : Instant) : bool := (secs OTP_TTL_SECS <? now - issued_at c)%N.
Definition is_locked_out (c : t) (now : Instant) : bool :=
  match lockout_until c with Some until => (now <? until)%N | None => false end.

(** The counter is a [u8] that saturates. *)
Definition record_failure (c : t) (now : Instant) : t * bool :=
  let failed := N.min (failed_attempts c + 1) 255 in
  if (OTP_MAX_ATTEMPTS <=? failed)%N
  then (mk (code c) (modal_id c) (issued_at c) failed (Some (now + secs OTP_LOCKOUT_SECS)%N) (protected c) (gate c) (op c)
          (audit_action c) (revealed_modality c), true)
  else (mk (code c) (modal_id c) (issued_at c) failed (lockout_until c) (protected c) (gate c) (op c)
          (audit_action c) (revealed_modality c), false).

Definition validate (sha256 : list N → list N) (c : t) (now : Instant) (supplied : string) : bool :=
  if is_expired c now || is_locked_out c now then false
  else if protected c && negb (GateState.is_authenticated_for (gate c) (OpDescriptor.digest sha256 (op c))) then false
  else bool_decide (str_bytes supplied = str_bytes (code c)).
End OtpChallenge.

Module OtpProcessResult.
Inductive t := Accepted (modal_id : N) | NeedFresh | LockedOut | Invalid | Expired.
End OtpProcessResult.

Module ApprovalPrompt.
Record t := mk {
  id : N; action : string; container : option string; file_name : option string; mode : option string;
  byte_size : option nat; otp_code : option string; import_summary : option ImportApprovalSummary.t;
  protected : bool; otp_reveal_required : bool; pre_unlock : bool
}.
End ApprovalPrompt.

Module ClickRequest.
Record t := mk {
  action_label : string;
  audit_action : AuditAction.t;
  container : option string;
  file_name : option string;
  mode : option SecurityMode.t;
  byte_size : option nat;
  import_summary : option ImportApprovalSummary.t;
  signature : string;
  op : OpDescriptor.t;
  pre_unlock : bool
}.
Definition from_access (request : AccessRequest.t) : t :=
  mk (AccessAction.debug (AccessRequest.action request)) (audit_action_for (AccessRequest.action request))
    (AccessRequest.container request) (AccessRequest.file_name request) (AccessRequest.mode request)
    (AccessRequest.byte_size request) (AccessRequest.import_summary request) (request_signature request)
    (op_for_access request) false.
Definition desktop (sha256 : list N → list N) (label : string) (audit_action : AuditAction.t) (op : OpDescriptor.t) : t :=
  mk label audit_action None None None None None ("desktop|" +:+ encode_hex (OpDescriptor.digest sha256 op)) op false.
Definition desktop_pre_unlock (sha256 : list N → list N) (label : string) (audit_action : AuditAction.t)
    (op : OpDescriptor.t) : t :=
  let click := desktop sha256 label audit_action op in
  mk (action_label click) (ClickRequest.audit_action click) (container click) (file_name click) (mode click)
    (byte_size click) (import_summary click) (signature click) (ClickRequest.op click) true.
End ClickRequest.

(** ** The desktop's state *)

(** [GatePass] of presence.rs. *)
Module GatePass.
Record t := mk { presence : PresenceAudit.t; digest : OpDigest; epoch : N; operation_id : string }.
End GatePass.

(** [PendingDesktopOp] of presence.rs. *)
Module PendingDesktopOp.
Record t := mk { id : N; deadline : Instant; protected : bool; gate : GateState.t }.
Definition with_gate (o : t) (g : GateState.t) : t := mk (id o) (deadline o) (protected o) g.
End PendingDesktopOp.

(** [Prompted] and [Cancelled] are the events of the user interface; [Answered] is what is
    sent to the task that waits; [Recorded] an audit event that was offered to the audit log
    with the vault's handle held, and whether the log has it; [Posted] one that is handed over,
    to be offered once the handle is free;
    [Tried] a one-time code that was compared; [Revealed] a code handed to the desktop, with
    the modality of the verification if it needed one; [Confirmed] a verification that a
    request accepted; [Granted] an agent's request that was let through, and the identifier of
    the approval or of the code that let it; [Passed] a desktop
    operation that passed its gate, [Released] one that ran with the handle held, [Opened] the
    unlocking of the vault with the key of the operating system. *)
Inductive effect :=
| Prompted (p : ApprovalPrompt.t)
| Cancelled (id : N)
| Answered (id : N) (approved : bool)
| Recorded (e : AuditEvent.t) (kept : bool)
| Posted (e : AuditEvent.t)
| Tried (modal_id : N) (accepted : bool)
| Revealed (modal_id : N) (modality : option Modality.t)
| Confirmed (id : N) (digest : OpDigest) (outcome : Outcome.t)
| Granted (request : AccessRequest.t) (epoch : N) (via : option N)
| Passed (pass : GatePass.t)
| Released (pass : GatePass.t)
| Opened (pass : GatePass.t).

(** For whom a click is asked: the authorization of an agent's request, or the gate of a
    desktop operation. *)
Inductive purpose :=
| ForAgent (request : AccessRequest.t) (epoch : N)
| ForGate (digest : OpDigest) (op_id : N) (epoch : N).

(** A call in progress, at a point where it holds no lock.  The identifier that [Checking]
    keeps is a ghost: the approval or the code it was let through with, if it needed one. *)
Inductive task :=
| Asked (request : AccessRequest.t) (epoch : N)
| Checking (request : AccessRequest.t) (epoch : N) (via : option N)
| Issue (request : AccessRequest.t)
| Issuing (request : AccessRequest.t) (code : string) (id : N) (protected : bool)
| Clicking (click : ClickRequest.t) (id : N) (protected : bool) (deadline : Instant) (for_ : purpose)
| AwaitingAnswer (id : N) (for_ : purpose)
| Responding (id : N) (attempt : AttemptId) (op : OpDescriptor.t) (deadline : Instant)
| Revealing (modal_id : N) (key : string) (attempt : AttemptId) (op : OpDescriptor.t) (deadline : Instant) (epoch : N)
| Opening (click : ClickRequest.t) (epoch : N) (attempt : AttemptId)
| Gating (click : ClickRequest.t) (op_id : N) (deadline : Instant) (epoch : N) (attempt : AttemptId)
| HoldingPass (pass : GatePass.t).

(** What is left of a lock that holds the handle. *)
Inductive lock_stage := ClearPending | ClearChallenges | ClearOps.

Module Desk.
Record t := mk {
  unlocked : bool;                       (* whether there is a handle *)
  epoch : N;
  locking : option lock_stage;           (* the handle's guard is held by a lock *)
  presence : PresenceCoordinator.t;
  next_id : N;
  pending : gmap N PendingApproval.t;
  otp_pending : gmap string OtpChallenge.t;
  next_op : N;
  ops : gmap OpDigest PendingDesktopOp.t;
  tasks : list task;
  log : list effect;
  auditing : bool;                       (* whether [audit_root], [with_hmac_key] and [record] succeed *)
  posts : list AuditEvent.t              (* what waits for the handle to be recorded *)
}.
Definition new : t := mk false 0 None PresenceCoordinator.new 1 ∅ ∅ 0 ∅ [] [] true [].
Definition now (d : t) : Instant := PresenceCoordinator.clock (presence d).
Definition handle_free (d : t) : Prop := locking d = None.

Definition with_presence (d : t) (p : PresenceCoordinator.t) : t :=
  mk (unlocked d) (epoch d) (locking d) p (next_id d) (pending d) (otp_pending d) (next_op d) (ops d) (tasks d) (log d) (auditing d) (posts d).
Definition with_id (d : t) (n : N) : t :=
  mk (unlocked d) (epoch d) (locking d) (presence d) n (pending d) (otp_pending d) (next_op d) (ops d) (tasks d) (log d) (auditing d) (posts d).
Definition with_pending (d : t) (m : gmap N PendingApproval.t) : t :=
  mk (unlocked d) (epoch d) (locking d) (presence d) (next_id d) m (otp_pending d) (next_op d) (ops d) (tasks d) (log d) (auditing d) (posts d).
Definition with_otp (d : t) (m : gmap string OtpChallenge.t) : t :=
  mk (unlocked d) (epoch d) (locking d) (presence d) (next_id d) (pending d) m (next_op d) (ops d) (tasks d) (log d) (auditing d) (posts d).
Definition with_ops (d : t) (n : N) (m : gmap OpDigest PendingDesktopOp.t) : t :=
  mk (unlocked d) (epoch d) (locking d) (presence d) (next_id d) (pending d) (otp_pending d) n m (tasks d) (log d) (auditing d) (posts d).
Definition with_tasks (d : t) (l : list task) : t :=
  mk (unlocked d) (epoch d) (locking d) (presence d) (next_id d) (pending d) (otp_pending d) (next_op d) (ops d) l (log d) (auditing d) (posts d).
Definition spawned (d : t) (k : task) : t := with_tasks d (k :: tasks d).
Definition logged (d : t) (e : effect) : t :=
  mk (unlocked d) (epoch d) (locking d) (presence d) (next_id d) (pending d) (otp_pending d) (next_op d) (ops d) (tasks d)
    (e :: log d) (auditing d) (posts d).
(** An event is handed over. *)
Definition posted (d : t) (e : AuditEvent.t) : t :=
  mk (unlocked d) (epoch d) (locking d) (presence d) (next_id d) (pending d) (otp_pending d) (next_op d) (ops d) (tasks d)
    (Posted e :: log d) (auditing d) (e :: posts d).
Definition with_posts (d : t) (l : list AuditEvent.t) : t :=
  mk (unlocked d) (epoch d) (locking d) (presence d) (next_id d) (pending d) (otp_pending d) (next_op d) (ops d) (tasks d)
    (log d) (auditing d) l.
Definition with_auditing (d : t) (b : bool) : t :=
  mk (unlocked d) (epoch d) (locking d) (presence d) (next_id d) (pending d) (otp_pending d) (next_op d) (ops d) (tasks d)
    (log d) b (posts d).
(** [publish_unlocked] and [publish_locked]: the handle and the epoch, under one guard. *)
Definition published (d : t) (unlocked : bool) : t :=
  mk unlocked (epoch d + 1) (locking d) (presence d) (next_id d) (pending d) (otp_pending d) (next_op d) (ops d) (tasks d)
    (log d) (auditing d) (posts d).
Definition with_locking (d : t) (s : option lock_stage) : t :=
  mk (unlocked d) (epoch d) s (presence d) (next_id d) (pending d) (otp_pending d) (next_op d) (ops d) (tasks d) (log d) (auditing d) (posts d).
End Desk.

(** ** Recording

    [record_with_handle] ignores every failure of the audit log. *)
Definition record_with_handle (e : AuditEvent.t) (d : Desk.t) : Desk.t := Desk.logged d (Recorded e (Desk.auditing d)).

(** [record_desktop_event_locked] waits for the handle; then the event is offered, or given up
    when the vault is locked. *)
Definition record_desktop_event_locked (e : AuditEvent.t) (d : Desk.t) : Desk.t := Desk.posted d e.
Definition post_event (e : AuditEvent.t) (d : Desk.t) : Desk.t :=
  if Desk.unlocked d then record_with_handle e d else d.

(** ** One-time codes *)

Definition otp_required : string :=
  "otp_required: a one-time code is shown on the Sovereign Vault desktop. Resend this exact request with the `otp` argument set to that code.".
Definition otp_too_many : string := "otp_required: too many failed attempts; retry after 5 minutes".

(** [n:06]. *)
Definition pad6 (n : N) : string :=
  let digits := pretty n in String.concat "" (repeat "0" (6 - String.length digits)) +:+ digits.

(** From the four bytes drawn. *)
Definition generate_otp_code (drawn : result (list N) string) : result string string :=
  let? bytes := drawn in
  let n := (foldl (λ acc b, acc * 256 + b) 0 (take 4 bytes) mod 1000000)%N in
  Ok (pad6 n).

Definition attempt_of (g : GateState.t) : option AttemptId :=
  match g with GateState.Verifying a _ => Some a | _ => None end.

Definition audit_modality (m : Modality.t) : PresenceModality.t :=
  match m with
  | Modality.Biometric => PresenceModality.Biometric
  | Modality.Password => PresenceModality.Password
  | Modality.Pin => PresenceModality.Pin
  | Modality.Unknown => PresenceModality.Unknown
  end.

Section desk.
Context (sha256 : list N → list N) (utc : Instant → Z).

Definition process_otp_request (now : Instant) (challenge : option OtpChallenge.t) (supplied_otp : option string) :
    OtpProcessResult.t * option OtpChallenge.t :=
  match supplied_otp with
  | Some supplied =>
      match challenge with
      | Some chal =>
          if OtpChallenge.is_locked_out chal now then (OtpProcessResult.LockedOut, Some chal)
          else if OtpChallenge.is_expired chal now then (OtpProcessResult.Expired, None)
          else if OtpChallenge.validate sha256 chal now supplied
          then (OtpProcessResult.Accepted (OtpChallenge.modal_id chal), None)
          else (OtpProcessResult.Invalid, Some (OtpChallenge.record_failure chal now).1)
      | None => (OtpProcessResult.Expired, None)
      end
  | None =>
      match challenge with
      | Some chal =>
          if OtpChallenge.is_locked_out chal now then (OtpProcessResult.LockedOut, Some chal)
          else if OtpChallenge.is_expired chal now then (OtpProcessResult.Expired, None)
          else (OtpProcessResult.NeedFresh, Some chal)
      | None => (OtpProcessResult.NeedFresh, None)
      end
  end.

Definition can_admit_challenge (store : gmap string OtpChallenge.t) (key : string) : bool :=
  if bool_decide (is_Some (store !! key)) then true else bool_decide (size store < OTP_MAX_PENDING).

(** Keeps what has not expired and what is locked out. *)
Definition prune_expired (now : Instant) (store : gmap string OtpChallenge.t) : gmap string OtpChallenge.t :=
  filter (λ kc, negb (OtpChallenge.is_expired kc.2 now) || OtpChallenge.is_locked_out kc.2 now) store.

(** The event that a decision leaves. *)
Definition decision_event (d : Desk.t) (action : AuditAction.t) (decision : AuditDecision.t) (transport : string)
    (presence : PresenceAudit.t) (operation_id : string) (error : option string) : AuditEvent.t :=
  AuditEvent.mk (utc (Desk.now d)) action decision transport None None None None None error None
    (Some (PresenceAudit.with_operation presence operation_id)).

(** [audit_decision] with [approved = false]. *)
Definition audit_denied (d : Desk.t) (operation_id : string) (action : AuditAction.t) (presence : PresenceAudit.t)
    (transport : string) (error : option string) : Desk.t :=
  record_desktop_event_locked (decision_event d action AuditDecision.Denied transport presence operation_id error) d.

Definition otp_operation (modal_id : N) : string := "otp-" +:+ pretty modal_id.
Definition approval_operation (id : N) : string := "approval-" +:+ pretty id.

Definition audit_otp_denied (d : Desk.t) (c : OtpChallenge.t) (error : string) : Desk.t :=
  audit_denied d (otp_operation (OtpChallenge.modal_id c)) (OtpChallenge.audit_action c) (PresenceAudit.denied true)
    "desktop-ui" (Some error).

Definition invalidate_gate (d : Desk.t) (g : GateState.t) : Desk.t :=
  match attempt_of g with
  | Some a => Desk.with_presence d (PresenceCoordinator.invalidate (Desk.presence d) a)
  | None => d
  end.

(** What [handle_otp] ends with: an answer, or the call of [handle_otp_fresh]. *)
Inductive turn := Reply (r : result unit string) | IssueFresh.

Definition accept_otp (d : Desk.t) (key : string) (removed : OtpChallenge.t) : turn * Desk.t :=
  if Desk.unlocked d then
    let modal_id := OtpChallenge.modal_id removed in
    let presence := if OtpChallenge.protected removed
                    then PresenceAudit.authenticated
                           (audit_modality (default Modality.Unknown (OtpChallenge.revealed_modality removed)))
                    else PresenceAudit.denied false in
    let d := Desk.logged (Desk.with_otp d (delete key (Desk.otp_pending d))) (Tried modal_id true) in
    let d := record_with_handle (decision_event d (OtpChallenge.audit_action removed) AuditDecision.Allowed "desktop-ui"
                                   presence (otp_operation modal_id) None) d in
    (Reply (Ok tt), Desk.logged d (Cancelled modal_id))
  else (Reply (Err "vault is locked"), d).

Definition otp_prompt (request : AccessRequest.t) (id : N) (code : string) (protected : bool) : ApprovalPrompt.t :=
  ApprovalPrompt.mk id (AccessAction.debug (AccessRequest.action request)) (AccessRequest.container request)
    (AccessRequest.file_name request) (SecurityMode.as_str <$> AccessRequest.mode request) (AccessRequest.byte_size request)
    (if protected then None else Some code) (AccessRequest.import_summary request) protected protected false.

(** The challenge that is there already is reused without a new modal. *)
Definition reuse_otp (d : Desk.t) (request : AccessRequest.t) (key : string) (existing_modal_id : option N)
    (chal : OtpChallenge.t) : turn * Desk.t :=
  let modal_id := OtpChallenge.modal_id chal in
  if bool_decide (existing_modal_id = Some modal_id)
  then (Reply (Err otp_required), Desk.with_otp d (<[key := chal]> (Desk.otp_pending d)))
  else
    let d := match existing_modal_id with Some old_modal => Desk.logged d (Cancelled old_modal) | None => d end in
    let d := Desk.with_otp d (<[key := chal]> (Desk.otp_pending d)) in
    (Reply (Err otp_required),
     Desk.logged d (Prompted (otp_prompt request modal_id (OtpChallenge.code chal) (OtpChallenge.protected chal)))).

(** A wrong code; the fifth one locks the challenge out and disqualifies its gate. *)
Definition refuse_otp (d : Desk.t) (key : string) (chal : OtpChallenge.t) : turn * Desk.t :=
  let modal_id := OtpChallenge.modal_id chal in
  let d' := if OtpChallenge.is_locked_out chal (Desk.now d)
            then
              let d := invalidate_gate d (OtpChallenge.gate chal) in
              let chal := OtpChallenge.with_gate chal (GateState.reset (OtpChallenge.gate chal)) in
              Desk.logged (Desk.with_otp d (<[key := chal]> (Desk.otp_pending d))) (Cancelled modal_id)
            else Desk.with_otp d (<[key := chal]> (Desk.otp_pending d)) in
  (Reply (Err "otp_required: invalid code"),
   if OtpChallenge.protected chal then audit_otp_denied d' chal "otp invalid code" else d').

Definition handle_otp (request : AccessRequest.t) (d : Desk.t) : turn * Desk.t :=
  let key := request_signature request in
  let d := Desk.with_otp d (prune_expired (Desk.now d) (Desk.otp_pending d)) in
  let store := Desk.otp_pending d in
  if negb (can_admit_challenge store key) then (Reply (Err otp_required), d)
  else
    let existing := store !! key in
    match process_otp_request (Desk.now d) existing (AccessRequest.otp request), existing with
    | (OtpProcessResult.Accepted _, _), Some removed => accept_otp d key removed
    | (OtpProcessResult.Accepted _, _), None => (IssueFresh, d)   (* cannot be: the challenge was accepted *)
    | (OtpProcessResult.NeedFresh, Some chal), _ => reuse_otp d request key (OtpChallenge.modal_id <$> existing) chal
    | (OtpProcessResult.NeedFresh, None), _ => (IssueFresh, d)
    | (OtpProcessResult.LockedOut, chal), _ =>
        (Reply (Err otp_too_many),
         match chal with
         | Some c => if OtpChallenge.protected c then audit_otp_denied d c "otp lockout" else d
         | None => d
         end)
    | (OtpProcessResult.Invalid, Some chal), _ => refuse_otp (Desk.logged d (Tried (OtpChallenge.modal_id chal) false)) key chal
    | (OtpProcessResult.Invalid, None), _ => (Reply (Err "otp_required: invalid code"), d)
    | (OtpProcessResult.Expired, _), _ =>
        (IssueFresh, Desk.with_otp d (delete key store))
    end.

Definition remove_challenge (d : Desk.t) (key : string) : Desk.t :=
  match Desk.otp_pending d !! key with
  | None => d
  | Some old =>
      let d := invalidate_gate d (OtpChallenge.gate old) in
      Desk.logged (Desk.with_otp d (delete key (Desk.otp_pending d))) (Cancelled (OtpChallenge.modal_id old))
  end.

Definition fetch_id (d : Desk.t) : N * Desk.t := (Desk.next_id d, Desk.with_id d (Desk.next_id d + 1)%N).

Definition classify (d : Desk.t) (availability : Availability.t) : bool * Desk.t :=
  let '(p, c) := PresenceCoordinator.classify (Desk.presence d) availability in
  (Classification.is_protected c, Desk.with_presence d p).

(** The first part: a code from what the random generator gives, an id, the classification
    from what the verifier says. *)
Definition fresh_start (request : AccessRequest.t) (drawn : result (list N) string) (availability : Availability.t)
    (d : Desk.t) : result unit string * Desk.t :=
  match generate_otp_code drawn with
  | Err e => (Err e, d)
  | Ok code =>
      let '(id, d) := fetch_id d in
      let '(protected, d) := classify d availability in
      (Ok tt, Desk.spawned d (Issuing request code id protected))
  end.

(** The rest, under the lock of the store. *)
Definition fresh_insert (request : AccessRequest.t) (code : string) (id : N) (protected : bool) (d : Desk.t) :
    result unit string * Desk.t :=
  let key := request_signature request in
  let op := OpDescriptor.bind (op_for_access request) "request_id" (pretty id) in
  let d := Desk.with_otp d (prune_expired (Desk.now d) (Desk.otp_pending d)) in
  if negb (can_admit_challenge (Desk.otp_pending d) key) then (Err otp_required, d)
  else
    let d := remove_challenge d key in
    let chal := OtpChallenge.new (Desk.now d) code id protected op (audit_action_for (AccessRequest.action request)) in
    let d := Desk.with_otp d (<[key := chal]> (Desk.otp_pending d)) in
    (Err otp_required, Desk.logged d (Prompted (otp_prompt request id code protected))).

Definition find_modal (id : N) (store : gmap string OtpChallenge.t) : option (string * OtpChallenge.t) :=
  List.find (λ kc, (OtpChallenge.modal_id kc.2 =? id)%N) (map_to_list store).

(** The timer of a challenge. *)
Definition otp_timer (id : N) (d : Desk.t) : Desk.t :=
  match find_modal id (Desk.otp_pending d) with
  | None => Desk.logged d (Cancelled id)
  | Some (key, c) =>
      if negb (OtpChallenge.is_expired c (Desk.now d)) then d
      else
        let d := invalidate_gate d (OtpChallenge.gate c) in
        let d := if OtpChallenge.is_locked_out c (Desk.now d) then d
                 else Desk.with_otp d (delete key (Desk.otp_pending d)) in
        Desk.logged d (Cancelled id)
  end.
(** ** Revealing a code *)

Definition reveal_deadline (c : OtpChallenge.t) : Instant := (OtpChallenge.issued_at c + secs OTP_TTL_SECS)%N.

(** The part before the native prompt; the code itself if the challenge is not protected. *)
Definition reveal_start (modal_id : N) (d : Desk.t) : result (option string) string * Desk.t :=
  let d := Desk.with_otp d (prune_expired (Desk.now d) (Desk.otp_pending d)) in
  match find_modal modal_id (Desk.otp_pending d) with
  | None => (Err "unknown or expired code request", d)
  | Some (key, chal) =>
      if negb (OtpChallenge.protected chal)
      then (Ok (Some (OtpChallenge.code chal)), Desk.logged d (Revealed modal_id None))
      else
        let '(p, attempt) := PresenceCoordinator.begin_attempt (Desk.presence d) in
        let d := Desk.with_presence d p in
        match GateState.begin (OtpChallenge.gate chal) attempt (OpDescriptor.digest sha256 (OtpChallenge.op chal)) with
        | (_, Err e) => (Err (GateError.display e), d)
        | (gate, Ok _) =>
            let d := Desk.with_otp d (<[key := OtpChallenge.with_gate chal gate]> (Desk.otp_pending d)) in
            (Ok None, Desk.spawned d (Revealing modal_id key attempt (OtpChallenge.op chal) (reveal_deadline chal) (Desk.epoch d)))
        end
  end.

(** The challenge is still the one whose prompt was opened. *)
Definition reveal_mine (modal_id : N) (attempt : AttemptId) (c : OtpChallenge.t) : bool :=
  (OtpChallenge.modal_id c =? modal_id)%N && bool_decide (attempt_of (OtpChallenge.gate c) = Some attempt).

Definition drop_challenge (d : Desk.t) (key : string) (c : OtpChallenge.t) (error : string) : Desk.t :=
  let d := Desk.logged (Desk.with_otp d (delete key (Desk.otp_pending d))) (Cancelled (OtpChallenge.modal_id c)) in
  audit_otp_denied d c error.

Definition reveal_conclude (modal_id : N) (key : string) (attempt : AttemptId) (deadline : Instant)
    (r : result Verified.t Denial.t) (d : Desk.t) (chal : OtpChallenge.t) : result string string * Desk.t :=
  let update c := Desk.with_otp d (<[key := c]> (Desk.otp_pending d)) in
  match r with
  | Ok verified =>
      let current := OpDescriptor.digest sha256 (OtpChallenge.op chal) in
      match GateState.finish (OtpChallenge.gate chal) attempt (Verified.digest verified) current deadline (Desk.now d) with
      | (gate, Err e) => (Err (GateError.display e), update (OtpChallenge.with_gate chal gate))
      | (gate, Ok _) =>
          let modality := Outcome.modality (Verified.outcome verified) in
          let chal := OtpChallenge.with_modality (OtpChallenge.with_gate chal gate) modality in
          let d := Desk.logged (Desk.with_otp d (<[key := chal]> (Desk.otp_pending d)))
                     (Confirmed modal_id current (Verified.outcome verified)) in
          (Ok (OtpChallenge.code chal), Desk.logged d (Revealed modal_id (Some modality)))
      end
  | Err (Denial.Retryable e) =>
      (Err (Denial.message (Denial.Retryable e)),
       update (OtpChallenge.with_gate chal (GateState.abort (OtpChallenge.gate chal) attempt)))
  | Err denial =>
      (Err (Denial.message denial),
       if reveal_mine modal_id attempt chal then drop_challenge d key chal (Denial.message denial) else d)
  end.

(** The finisher: under the handle and the store. *)
Definition reveal_finish (modal_id : N) (key : string) (attempt : AttemptId) (deadline : Instant) (epoch : N)
    (r : result Verified.t Denial.t) (d : Desk.t) : result string string * Desk.t :=
  let found := Desk.otp_pending d !! key in
  if negb (Desk.unlocked d) || negb (Desk.epoch d =? epoch)%N
  then
    (Err "vault state changed during verification",
     match found with
     | Some c => if reveal_mine modal_id attempt c then drop_challenge d key c "vault state changed during verification" else d
     | None => d
     end)
  else
    match found with
    | Some chal =>
        if negb (OtpChallenge.modal_id chal =? modal_id)%N then (Err "code request is no longer pending", d)
        else if OtpChallenge.is_locked_out chal (Desk.now d) then (Err otp_too_many, d)
        else reveal_conclude modal_id key attempt deadline r d chal
    | None => (Err "code request is no longer pending", d)
    end.
End desk.
