(* ===== verification/Clicks.v ===== *)
(** * Clicks: requests that wait for a click, and the lock that ends them

    [request_click], [respond], [refuse_from], [reap_timeout] and [clear_all] of the approval
    controller. *)
From stdpp Require Import pretty.
From S2P Require Import Prelude Text Json AuditTypes Fs Crypto Storage PresenceOp Gate Coordinator Scopes Approvals.

Section clicks.
Context (sha256 : list N → list N) (utc : Instant → Z).

Definition invalidate_entry (d : Desk.t) (e : PendingApproval.t) : Desk.t := invalidate_gate d (PendingApproval.gate e).

Definition answer (d : Desk.t) (id : N) (approved : bool) : Desk.t := Desk.logged d (Answered id approved).

(** The task that waits for the answer, if there still is one. *)
Definition waits (id : N) (k : task) : bool := match k with AwaitingAnswer i _ => (i =? id)%N | _ => false end.
Definition sent (d : Desk.t) (id : N) : result unit string :=
  if existsb (waits id) (Desk.tasks d) then Ok tt else Err "approval request already closed".

Definition audit_approval_denied (d : Desk.t) (id : N) (e : PendingApproval.t) (transport : string) (error : option string) :
    Desk.t :=
  audit_denied utc d (approval_operation id) (PendingApproval.audit_action e)
    (PresenceAudit.denied (PendingApproval.protected e)) transport error.

(** ** Asking for a click *)

(** The part before the lock: an id, the classification and the deadline, which a desktop
    operation brings with it. *)
Definition click_start (click : ClickRequest.t) (for_ : purpose) (fixed : option (bool * Instant))
    (availability : Availability.t) (d : Desk.t) : Desk.t :=
  let '(id, d) := fetch_id d in
  match fixed with
  | Some (protected, deadline) => Desk.spawned d (Clicking click id protected deadline for_)
  | None =>
      let '(protected, d) := classify d availability in
      Desk.spawned d (Clicking click id protected (Desk.now d + secs APPROVAL_TIMEOUT_SECS)%N for_)
  end.

Definition same_signature (signature : string) (ie : N * PendingApproval.t) : bool :=
  String.eqb (PendingApproval.signature ie.2) signature.

(** Each outstanding request with the same signature is superseded. *)
Definition supersede (d : Desk.t) (ie : N * PendingApproval.t) : Desk.t :=
  answer (invalidate_entry (Desk.with_pending d (delete ie.1 (Desk.pending d))) ie.2) ie.1 false.
Definition report_superseded (d : Desk.t) (ie : N * PendingApproval.t) : Desk.t :=
  audit_approval_denied (Desk.logged d (Cancelled ie.1)) ie.1 ie.2 "desktop-ui" (Some "superseded").

Definition click_prompt (click : ClickRequest.t) (id : N) (protected : bool) : ApprovalPrompt.t :=
  ApprovalPrompt.mk id (ClickRequest.action_label click) (ClickRequest.container click) (ClickRequest.file_name click)
    (SecurityMode.as_str <$> ClickRequest.mode click) (ClickRequest.byte_size click) None
    (ClickRequest.import_summary click) protected false (ClickRequest.pre_unlock click).

Definition click_entry (click : ClickRequest.t) (id : N) (protected : bool) (deadline : Instant) : PendingApproval.t :=
  PendingApproval.mk None (ClickRequest.signature click) protected GateState.default deadline
    (OpDescriptor.bind (ClickRequest.op click) "request_id" (pretty id)) (ClickRequest.audit_action click)
    (ClickRequest.pre_unlock click).

Definition click_insert (click : ClickRequest.t) (id : N) (protected : bool) (deadline : Instant) (for_ : purpose)
    (d : Desk.t) : Desk.t :=
  let stale := List.filter (same_signature (ClickRequest.signature click)) (map_to_list (Desk.pending d)) in
  let d := foldl supersede d stale in
  let d := Desk.with_pending d (<[id := click_entry click id protected deadline]> (Desk.pending d)) in
  let d := foldl report_superseded d stale in
  Desk.spawned (Desk.logged d (Prompted (click_prompt click id protected))) (AwaitingAnswer id for_).

(** ** Giving up and refusing *)

Definition reap_timeout (id : N) (d : Desk.t) : Desk.t :=
  let d := match Desk.pending d !! id with
           | Some entry =>
               let d := invalidate_entry (Desk.with_pending d (delete id (Desk.pending d))) entry in
               audit_approval_denied d id entry "desktop-ui" (Some "timed out")
           | None => d
           end in
  Desk.logged d (Cancelled id).

Definition unknown_approval (id : N) : string := "unknown approval request: " +:+ pretty id.

Definition refuse_from (id : N) (transport : string) (d : Desk.t) : result unit string * Desk.t :=
  match Desk.pending d !! id with
  | None => (Err (unknown_approval id), d)
  | Some entry =>
      let d := invalidate_entry (Desk.with_pending d (delete id (Desk.pending d))) entry in
      (sent d id, audit_approval_denied (answer d id false) id entry transport None)
  end.

(** ** Approving *)

Definition allowed_event (d : Desk.t) (id : N) (action : AuditAction.t) (presence : PresenceAudit.t) : AuditEvent.t :=
  decision_event utc d action AuditDecision.Allowed "desktop-ui" presence (approval_operation id) None.

(** The request leaves the map with the answer it gets. *)
Definition settle (d : Desk.t) (id : N) (approved : bool) : Desk.t :=
  answer (Desk.with_pending d (delete id (Desk.pending d))) id approved.
Definition record_and_settle (d : Desk.t) (id : N) (action : AuditAction.t) (presence : PresenceAudit.t) : Desk.t :=
  settle (record_with_handle (allowed_event d id action presence) d) id true.

Definition approve_unprotected (d : Desk.t) (id : N) (entry : PendingApproval.t) : result unit string * Desk.t :=
  if Desk.unlocked d then (sent d id, record_and_settle d id (PendingApproval.audit_action entry) PresenceAudit.click)
  else if PendingApproval.pre_unlock entry then (sent d id, settle d id true)
  else (Err "vault is locked", settle d id false).

(** [respond] with [approved], up to the native prompt.  The confirmation code of an entry is
    compared if it has one. *)
Definition respond_start (id : N) (otp : option string) (d : Desk.t) : result unit string * Desk.t :=
  match Desk.pending d !! id with
  | None => (Err (unknown_approval id), d)
  | Some entry =>
      if bool_decide (is_Some (PendingApproval.otp_code entry)) && negb (bool_decide (otp = PendingApproval.otp_code entry))
      then (Err "incorrect confirmation code", d)
      else if (PendingApproval.deadline entry <? Desk.now d)%N
      then
        let d := settle (invalidate_entry d entry) id false in
        (Err "approval request expired", audit_approval_denied d id entry "desktop-ui" (Some "approval expired"))
      else if negb (PendingApproval.protected entry) then approve_unprotected d id entry
      else
        let '(p, attempt) := PresenceCoordinator.begin_attempt (Desk.presence d) in
        let d := Desk.with_presence d p in
        match GateState.begin (PendingApproval.gate entry) attempt (OpDescriptor.digest sha256 (PendingApproval.op entry)) with
        | (_, Err e) => (Err (GateError.display e), d)
        | (gate, Ok _) =>
            let d := Desk.with_pending d (<[id := PendingApproval.with_gate entry gate]> (Desk.pending d)) in
            (Ok tt, Desk.spawned d (Responding id attempt (PendingApproval.op entry) (PendingApproval.deadline entry)))
        end
  end.

Definition respond_denied (d : Desk.t) (id : N) (entry : PendingApproval.t) (denial : string) : result unit string * Desk.t :=
  (Err denial,
   audit_denied utc (settle d id false) (approval_operation id) (PendingApproval.audit_action entry)
     (PresenceAudit.denied true) "desktop-ui" (Some denial)).

(** The finisher, under the handle and the map. *)
Definition respond_finish (id : N) (attempt : AttemptId) (r : result Verified.t Denial.t) (d : Desk.t) :
    result unit string * Desk.t :=
  match Desk.pending d !! id with
  | None => (Err "approval request is no longer pending", d)
  | Some entry =>
      match r with
      | Ok verified =>
          let current := OpDescriptor.digest sha256 (PendingApproval.op entry) in
          match (GateState.finish (PendingApproval.gate entry) attempt (Verified.digest verified) current
                   (PendingApproval.deadline entry) (Desk.now d)).2 with
          | Err e => respond_denied d id entry (GateError.display e)
          | Ok _ =>
              let outcome := Verified.outcome verified in
              let d := Desk.logged d (Confirmed id current outcome) in
              if Desk.unlocked d
              then (sent d id, record_and_settle d id (PendingApproval.audit_action entry)
                                 (PresenceAudit.authenticated (audit_modality (Outcome.modality outcome))))
              else (Err "vault is locked", settle d id false)
          end
      | Err (Denial.Retryable e) =>
          let gate := GateState.abort (PendingApproval.gate entry) attempt in
          (Err (Denial.message (Denial.Retryable e)),
           Desk.with_pending d (<[id := PendingApproval.with_gate entry gate]> (Desk.pending d)))
      | Err denial => respond_denied d id entry (Denial.message denial)
      end
  end.

(** ** A lock ends everything that is pending

    In the order in which a map is drained, which is arbitrary. *)
Definition clear_entry (d : Desk.t) (ie : N * PendingApproval.t) : Desk.t :=
  Desk.logged (answer (invalidate_entry d ie.2) ie.1 false) (Cancelled ie.1).
Definition clear_pending (drained : list (N * PendingApproval.t)) (d : Desk.t) : Desk.t :=
  foldl clear_entry (Desk.with_pending d ∅) drained.

Definition clear_challenge (d : Desk.t) (kc : string * OtpChallenge.t) : Desk.t :=
  Desk.logged (invalidate_gate d (OtpChallenge.gate kc.2)) (Cancelled (OtpChallenge.modal_id kc.2)).
Definition clear_challenges (drained : list (string * OtpChallenge.t)) (d : Desk.t) : Desk.t :=
  foldl clear_challenge (Desk.with_otp d ∅) drained.
End clicks.
