(* ===== verification/DesktopGate.v ===== *)
(** * DesktopGate: desktop operations behind the presence prompt, unlocking and locking

    The registry of desktop operations and the gate in front of them, what consumes a pass,
    the vault's unlocking and locking, and the authorization of agents' requests; then the
    steps of the desktop as one system, interleaved with those of the presence coordinator, with
    an audit log that may fail at any time, and with other commands that record. *)
From stdpp Require Import pretty.
From S2P Require Import Prelude Text Json AuditTypes Fs Crypto Storage PresenceOp Gate Coordinator Scopes Approvals Clicks.

Module GateDenied.
Record t := mk { protected : bool; message : string; operation_id : string }.
Definition audit (g : t) : PresenceAudit.t := PresenceAudit.with_operation (PresenceAudit.denied (protected g)) (operation_id g).
End GateDenied.

Module GatedError.
Inductive t := Rejected (m : string) | Failed (m : string).
Definition message (e : t) : string := match e with Rejected m | Failed m => m end.
End GatedError.

Section gate.
Context (sha256 : list N → list N) (utc : Instant → Z).

Definition ensure_same (pass : GatePass.t) (op_now : OpDescriptor.t) : result unit GateDenied.t :=
  if bool_decide (OpDescriptor.digest sha256 op_now = GatePass.digest pass) then Ok tt
  else Err (GateDenied.mk (PresenceAudit.protected (GatePass.presence pass)) "operation changed during verification"
              (GatePass.operation_id pass)).

(** ** The registry of operations *)

Definition ops_begin (digest : OpDigest) (deadline : Instant) (availability : Availability.t) (attempt : AttemptId)
    (d : Desk.t) : result PendingDesktopOp.t GateError.t * Desk.t :=
  let d := Desk.with_ops d (Desk.next_op d) (filter (λ ko, (Desk.now d < PendingDesktopOp.deadline ko.2)%N) (Desk.ops d)) in
  let '(op, d) :=
    match Desk.ops d !! digest with
    | Some op => (op, d)
    | None =>
        let '(protected, d) := classify d availability in
        let op := PendingDesktopOp.mk (Desk.next_op d + 1) deadline protected GateState.Pending in
        (op, Desk.with_ops d (Desk.next_op d + 1) (<[digest := op]> (Desk.ops d)))
    end in
  match GateState.begin (PendingDesktopOp.gate op) attempt digest with
  | (_, Err e) => (Err e, d)
  | (gate, Ok _) =>
      let op := PendingDesktopOp.with_gate op gate in
      (Ok op, Desk.with_ops d (Desk.next_op d) (<[digest := op]> (Desk.ops d)))
  end.

Definition ops_retry (digest : OpDigest) (id : N) (attempt : AttemptId) (d : Desk.t) : Desk.t :=
  match Desk.ops d !! digest with
  | Some op =>
      if (PendingDesktopOp.id op =? id)%N
      then Desk.with_ops d (Desk.next_op d)
             (<[digest := PendingDesktopOp.with_gate op (GateState.abort (PendingDesktopOp.gate op) attempt)]> (Desk.ops d))
      else d
  | None => d
  end.

Definition ops_finish (digest : OpDigest) (id : N) (d : Desk.t) : Desk.t :=
  match Desk.ops d !! digest with
  | Some op => if (PendingDesktopOp.id op =? id)%N then Desk.with_ops d (Desk.next_op d) (delete digest (Desk.ops d)) else d
  | None => d
  end.

Definition clear_op (d : Desk.t) (op : OpDigest * PendingDesktopOp.t) : Desk.t := invalidate_gate d (PendingDesktopOp.gate op.2).
Definition clear_ops (drained : list (OpDigest * PendingDesktopOp.t)) (d : Desk.t) : Desk.t :=
  foldl clear_op (Desk.with_ops d (Desk.next_op d) ∅) drained.

(** ** [desktop_presence_gate] *)

Definition gate_start (click : ClickRequest.t) (d : Desk.t) : Desk.t :=
  let '(p, attempt) := PresenceCoordinator.begin_attempt (Desk.presence d) in
  Desk.spawned (Desk.with_presence d p) (Opening click (Desk.epoch d) attempt).

Definition op_operation (id : N) : string := "op-" +:+ pretty id.

(** The operation is registered; then a click is asked for, or the native prompt opened. *)
Definition gate_begin (click : ClickRequest.t) (epoch : N) (attempt : AttemptId) (availability : Availability.t)
    (d : Desk.t) : result unit GateDenied.t * Desk.t :=
  let digest := OpDescriptor.digest sha256 (ClickRequest.op click) in
  match ops_begin digest (Desk.now d + secs APPROVAL_TIMEOUT_SECS)%N availability attempt d with
  | (Err e, d) => (Err (GateDenied.mk true (GateError.display e) "op-busy"), d)
  | (Ok op, d) =>
      let id := PendingDesktopOp.id op in
      (Ok tt,
       if PendingDesktopOp.protected op
       then Desk.spawned d (Gating click id (PendingDesktopOp.deadline op) epoch attempt)
       else click_start click (ForGate digest id epoch)
              (Some (PendingDesktopOp.protected op, PendingDesktopOp.deadline op)) availability d)
  end.

Definition pass_of (presence : PresenceAudit.t) (digest : OpDigest) (epoch op_id : N) : GatePass.t :=
  GatePass.mk (PresenceAudit.with_operation presence (op_operation op_id)) digest epoch (op_operation op_id).
Definition passed (d : Desk.t) (pass : GatePass.t) : Desk.t := Desk.spawned (Desk.logged d (Passed pass)) (HoldingPass pass).

(** After the click. *)
Definition gate_confirmed (digest : OpDigest) (op_id epoch : N) (outcome : result unit string)
    (d : Desk.t) : result GatePass.t GateDenied.t * Desk.t :=
  let d := ops_finish digest op_id d in
  match outcome with
  | Err message => (Err (GateDenied.mk false message (op_operation op_id)), d)
  | Ok _ =>
      if negb (Desk.epoch d =? epoch)%N
      then (Err (GateDenied.mk false "vault state changed during confirmation" (op_operation op_id)), d)
      else let pass := pass_of PresenceAudit.click digest epoch op_id in (Ok pass, passed d pass)
  end.

(** After the native prompt. *)
Definition gate_verified (click : ClickRequest.t) (op_id : N) (deadline : Instant) (epoch : N) (attempt : AttemptId)
    (r : result Verified.t Denial.t) (d : Desk.t) : result GatePass.t GateDenied.t * Desk.t :=
  let digest := OpDescriptor.digest sha256 (ClickRequest.op click) in
  match r with
  | Ok verified =>
      let d := ops_finish digest op_id d in
      if negb (bool_decide (Verified.digest verified = digest)) || (deadline <? Desk.now d)%N || negb (Desk.epoch d =? epoch)%N
      then (Err (GateDenied.mk true "verification no longer applies to this operation" (op_operation op_id)), d)
      else
        let pass := pass_of (PresenceAudit.authenticated (audit_modality (Outcome.modality (Verified.outcome verified))))
                      digest epoch op_id in
        (Ok pass, passed d pass)
  | Err (Denial.Retryable e) =>
      (Err (GateDenied.mk true (Denial.message (Denial.Retryable e)) (op_operation op_id)),
       ops_retry digest op_id attempt d)
  | Err denial =>
      (Err (GateDenied.mk true (Denial.message denial) (op_operation op_id)),
       ops_finish digest op_id d)
  end.

(** ** Consuming a pass *)

Definition with_event_presence (e : AuditEvent.t) (p : option PresenceAudit.t) : AuditEvent.t :=
  AuditEvent.mk (AuditEvent.timestamp e) (AuditEvent.action e) (AuditEvent.decision e) (AuditEvent.transport e)
    (AuditEvent.container e) (AuditEvent.file_name e) (AuditEvent.mode e) (AuditEvent.byte_size e) (AuditEvent.detail e)
    (AuditEvent.error e) (AuditEvent.agent_id e) p.
Definition with_event_error (e : AuditEvent.t) (error : option string) : AuditEvent.t :=
  AuditEvent.mk (AuditEvent.timestamp e) (AuditEvent.action e) (AuditEvent.decision e) (AuditEvent.transport e)
    (AuditEvent.container e) (AuditEvent.file_name e) (AuditEvent.mode e) (AuditEvent.byte_size e) (AuditEvent.detail e)
    error (AuditEvent.agent_id e) (AuditEvent.presence e).

(** [f] is what the operation makes of the handle. *)
Definition with_gated_handle (pass : GatePass.t) (f : result AuditEvent.t GatedError.t) (d : Desk.t) :
    result unit GatedError.t * Desk.t :=
  if negb (Desk.unlocked d) then (Err (GatedError.Rejected "vault is locked"), d)
  else if negb (Desk.epoch d =? GatePass.epoch pass)%N
  then (Err (GatedError.Rejected "vault state changed after verification; try again"), d)
  else
    let d := Desk.logged d (Released pass) in
    match f with
    | Err e => (Err e, d)
    | Ok event => (Ok tt, record_with_handle (with_event_presence event (Some (GatePass.presence pass))) d)
    end.

Definition record_gated_outcome (pass : GatePass.t) (outcome : result unit GatedError.t) (denied_event : AuditEvent.t)
    (error_event : string → AuditEvent.t) (d : Desk.t) : Desk.t :=
  match outcome with
  | Err (GatedError.Rejected message) =>
      let presence := PresenceAudit.with_operation (PresenceAudit.denied (PresenceAudit.protected (GatePass.presence pass)))
                        (GatePass.operation_id pass) in
      record_desktop_event_locked (with_event_error (with_event_presence denied_event (Some presence)) (Some message)) d
  | Err (GatedError.Failed error) => record_desktop_event_locked (error_event error) d
  | Ok _ => d
  end.

(** A gate that was not passed. *)
Definition record_gate_denial (denied : GateDenied.t) (event : AuditEvent.t) (d : Desk.t) : Desk.t :=
  let event := AuditEvent.mk (AuditEvent.timestamp event) (AuditEvent.action event) AuditDecision.Denied (AuditEvent.transport event)
    (AuditEvent.container event) (AuditEvent.file_name event) (AuditEvent.mode event) (AuditEvent.byte_size event)
    (AuditEvent.detail event) (Some (GateDenied.message denied)) (AuditEvent.agent_id event) (Some (GateDenied.audit denied)) in
  record_desktop_event_locked event d.

(** ** Unlocking and locking *)

Definition unlock_op (vault : string) : OpDescriptor.t :=
  OpDescriptor.bind (OpDescriptor.field (OpDescriptor.new "vault_unlock") "vault" vault) "custody" "os_keychain".

Definition unlock_event (d : Desk.t) (presence : option PresenceAudit.t) : AuditEvent.t :=
  with_event_presence (AuditEvent.new (utc (Desk.now d)) AuditAction.VaultUnlock AuditDecision.Allowed "desktop-ui") presence.

(** [vault_unlock_impl] under the handle, with the pass if the custody needs one; [opened] is
    whether the vault opens. *)
Definition unlock_vault (pass : option GatePass.t) (opened : result unit string) (d : Desk.t) : result unit string * Desk.t :=
  if match pass with Some p => Desk.unlocked d || negb (Desk.epoch d =? GatePass.epoch p)%N | None => false end
  then (Err "vault state changed during verification", d)
  else
    match opened with
    | Err e => (Err e, d)
    | Ok _ =>
        let d := match pass with Some p => Desk.logged d (Opened p) | None => d end in
        let d := record_with_handle (unlock_event d (GatePass.presence <$> pass)) d in
        (Ok tt, Desk.published d true)
    end.

(** When the servers do not start. *)
Definition rollback_unlock (action : AuditAction.t) (error : string) (d : Desk.t) : Desk.t :=
  let d := if Desk.unlocked d
           then record_with_handle (with_event_error (AuditEvent.new (utc (Desk.now d)) action AuditDecision.Error "desktop-ui")
                                      (Some error)) d
           else d in
  Desk.published d false.

(** A lock keeps the handle's guard to its end. *)
Definition lock_start (d : Desk.t) : Desk.t := Desk.with_locking (Desk.published d false) (Some ClearPending).

(** [record_desktop_event] gives up when the handle's lock is taken, and without a handle; like
    [record_with_handle] it ignores a failure of the log. *)
Definition record_desktop_event (contended : bool) (e : AuditEvent.t) (d : Desk.t) : Desk.t :=
  if contended then d else if Desk.unlocked d then record_with_handle e d else d.

Definition lock_event (d : Desk.t) (reason : string) : AuditEvent.t :=
  let e := AuditEvent.new (utc (Desk.now d)) AuditAction.VaultLock AuditDecision.Allowed "desktop-ui" in
  AuditEvent.mk (AuditEvent.timestamp e) (AuditEvent.action e) (AuditEvent.decision e) (AuditEvent.transport e) None None None None
    (Some ("reason=" +:+ reason)) None None None.

(** The end of a lock, which still holds the handle's guard when it records itself. *)
Definition lock_end (reason : string) (drained : list (OpDigest * PendingDesktopOp.t)) (d : Desk.t) : Desk.t :=
  let d := clear_ops drained d in
  Desk.with_locking (record_desktop_event true (lock_event d reason) d) None.

(** ** The authorization of an agent's request *)

Definition authorize_start (request : AccessRequest.t) (d : Desk.t) : Desk.t :=
  Desk.spawned d (Asked request (Desk.epoch d)).

(** [ApprovalState::request], up to its first suspension. *)
Definition dispatch (request : AccessRequest.t) (epoch : N) (availability : Availability.t) (d : Desk.t) : Desk.t :=
  match approval_requirement request with
  | Err _ => d
  | Ok ApprovalPromptKind.NotRequired => Desk.spawned d (Checking request epoch None)
  | Ok ApprovalPromptKind.Click => click_start (ClickRequest.from_access request) (ForAgent request epoch) None availability d
  | Ok ApprovalPromptKind.Otp =>
      let via := OtpChallenge.modal_id <$> Desk.otp_pending d !! request_signature request in
      match handle_otp sha256 utc request d with
      | (Reply (Ok _), d) => Desk.spawned d (Checking request epoch via)
      | (Reply (Err _), d) => d
      | (IssueFresh, d) => Desk.spawned d (Issue request)
      end
  end.

(** What the dispatch needs of the locks. *)
Definition takes_handle (request : AccessRequest.t) : bool :=
  match approval_requirement request with
  | Ok ApprovalPromptKind.Otp => bool_decide (is_Some (AccessRequest.otp request))
  | _ => false
  end.

(** The last check of [authorize]. *)
Definition authorize_end (request : AccessRequest.t) (epoch : N) (via : option N) (d : Desk.t) : result unit string * Desk.t :=
  if negb (Desk.epoch d =? epoch)%N
  then (Err "vault state changed during approval; resend the request", d)
  else (Ok tt, Desk.logged d (Granted request epoch via)).

(** What the caller of [request_click], which waited for the approval [id], does with its
    outcome. *)
Definition click_done (for_ : purpose) (id : N) (outcome : result unit string) (d : Desk.t) : Desk.t :=
  match for_ with
  | ForAgent request epoch => match outcome with Ok _ => Desk.spawned d (Checking request epoch (Some id)) | Err _ => d end
  | ForGate digest op_id epoch => (gate_confirmed digest op_id epoch outcome d).2
  end.

Definition click_outcome (approved : bool) : result unit string :=
  if approved then Ok tt else Err "access denied by user".

(** ** Steps *)

(** The call of [verify] that a task waits for has returned [r]. *)
Definition returned (d : Desk.t) (attempt : AttemptId) (op : OpDescriptor.t) (deadline : Instant)
    (r : result Verified.t Denial.t) : Prop :=
  ∃ c, c ∈ PresenceCoordinator.calls (Desk.presence d) ∧ Call.attempt c = attempt ∧ Call.op c = op ∧
       Call.deadline c = deadline ∧ Call.at_ c = Finished r.

Inductive desk_step : Desk.t → Desk.t → Prop :=
| desk_presence d p : step sha256 (Desk.presence d) p → desk_step d (Desk.with_presence d p)
(* agents *)
| desk_authorize d request : desk_step d (authorize_start request d)
| desk_dispatch d request epoch availability rest :
    Desk.tasks d ≡ₚ Asked request epoch :: rest → (takes_handle request = true → Desk.handle_free d) →
    desk_step d (dispatch request epoch availability (Desk.with_tasks d rest))
| desk_fresh d request drawn availability rest :
    Desk.tasks d ≡ₚ Issue request :: rest →
    desk_step d (fresh_start request drawn availability (Desk.with_tasks d rest)).2
| desk_issue d request code id protected rest :
    Desk.tasks d ≡ₚ Issuing request code id protected :: rest →
    desk_step d (fresh_insert request code id protected (Desk.with_tasks d rest)).2
| desk_check d request epoch via rest :
    Desk.tasks d ≡ₚ Checking request epoch via :: rest →
    desk_step d (authorize_end request epoch via (Desk.with_tasks d rest)).2
(* one-time codes *)
| desk_otp_timer d id : desk_step d (otp_timer id d)
| desk_reveal d id : desk_step d (reveal_start sha256 id d).2
| desk_revealed d id key attempt op deadline epoch r rest :
    Desk.tasks d ≡ₚ Revealing id key attempt op deadline epoch :: rest → Desk.handle_free d → returned d attempt op deadline r →
    desk_step d (reveal_finish sha256 utc id key attempt deadline epoch r (Desk.with_tasks d rest)).2
(* clicks *)
| desk_click d click id protected deadline for_ rest :
    Desk.tasks d ≡ₚ Clicking click id protected deadline for_ :: rest →
    desk_step d (click_insert utc click id protected deadline for_ (Desk.with_tasks d rest))
| desk_answered d id approved for_ rest :
    Desk.tasks d ≡ₚ AwaitingAnswer id for_ :: rest → Answered id approved ∈ Desk.log d →
    desk_step d (click_done for_ id (click_outcome approved) (Desk.with_tasks d rest))
| desk_timeout d id for_ rest :
    Desk.tasks d ≡ₚ AwaitingAnswer id for_ :: rest →
    (∀ e, Desk.pending d !! id = Some e → (PendingApproval.deadline e ≤ Desk.now d)%N) →
    desk_step d (click_done for_ id (Err "approval timed out") (reap_timeout utc id (Desk.with_tasks d rest)))
| desk_abandon d k rest : Desk.tasks d ≡ₚ k :: rest → desk_step d (Desk.with_tasks d rest)   (* the caller is gone *)
| desk_refuse d id transport : desk_step d (refuse_from utc id transport d).2
| desk_respond d id otp : Desk.handle_free d → desk_step d (respond_start sha256 utc id otp d).2
| desk_responded d id attempt op deadline r rest :
    Desk.tasks d ≡ₚ Responding id attempt op deadline :: rest → Desk.handle_free d → returned d attempt op deadline r →
    desk_step d (respond_finish sha256 utc id attempt r (Desk.with_tasks d rest)).2
(* desktop operations *)
| desk_gate d click : desk_step d (gate_start click d)
| desk_gate_begin d click epoch attempt availability rest :
    Desk.tasks d ≡ₚ Opening click epoch attempt :: rest →
    desk_step d (gate_begin click epoch attempt availability (Desk.with_tasks d rest)).2
| desk_gate_verified d click op_id deadline epoch attempt r rest :
    Desk.tasks d ≡ₚ Gating click op_id deadline epoch attempt :: rest →
    returned d attempt (ClickRequest.op click) deadline r →
    desk_step d (gate_verified click op_id deadline epoch attempt r (Desk.with_tasks d rest)).2
| desk_consume d pass f denied_event error_event rest :
    Desk.tasks d ≡ₚ HoldingPass pass :: rest → Desk.handle_free d →
    desk_step d (let '(outcome, d) := with_gated_handle pass f (Desk.with_tasks d rest) in
                 record_gated_outcome pass outcome denied_event error_event d)
(* the vault *)
| desk_unlock d opened : Desk.handle_free d → desk_step d (unlock_vault None opened d).2
| desk_unlock_keychain d pass vault opened rest :
    Desk.tasks d ≡ₚ HoldingPass pass :: rest → Desk.handle_free d →
    GatePass.digest pass = OpDescriptor.digest sha256 (unlock_op vault) →
    desk_step d (unlock_vault (Some pass) opened (Desk.with_tasks d rest)).2
| desk_publish d : Desk.handle_free d → desk_step d (Desk.published d true)   (* [vault_init], recovery *)
| desk_rollback d action error : Desk.handle_free d → desk_step d (rollback_unlock action error d)
| desk_lock d : Desk.handle_free d → desk_step d (lock_start d)
| desk_lock_pending d drained :
    Desk.locking d = Some ClearPending → drained ≡ₚ map_to_list (Desk.pending d) →
    desk_step d (Desk.with_locking (clear_pending drained d) (Some ClearChallenges))
| desk_lock_challenges d drained :
    Desk.locking d = Some ClearChallenges → drained ≡ₚ map_to_list (Desk.otp_pending d) →
    desk_step d (Desk.with_locking (clear_challenges drained d) (Some ClearOps))
| desk_lock_ops d reason drained :
    Desk.locking d = Some ClearOps → drained ≡ₚ map_to_list (Desk.ops d) → desk_step d (lock_end reason drained d)
(* the audit log *)
| desk_audit d works : desk_step d (Desk.with_auditing d works)
| desk_post d e rest :
    Desk.posts d ≡ₚ e :: rest → Desk.handle_free d → desk_step d (post_event e (Desk.with_posts d rest))
| desk_unpost d e rest : Desk.posts d ≡ₚ e :: rest → desk_step d (Desk.with_posts d rest)   (* the caller is gone *)
(* the other commands of the application record what they do *)
| desk_record d e : Desk.unlocked d = true → Desk.handle_free d → desk_step d (record_with_handle e d)
| desk_handover d e : desk_step d (record_desktop_event_locked e d).

Definition desk_reachable (d : Desk.t) : Prop := rtc desk_step Desk.new d.
End gate.
