(* ===== verification/DesktopSpec.v ===== *)
(** * DesktopSpec: how the steps of the desktop change its state

    [calm] describes every operation that does not publish an unlock or a lock and does not
    open a new request: what it may append to the log, and what may become of the requests
    that are pending.  [steady] does the same for the one-time codes.  The theorems follow from
    these two descriptions by induction on the steps. *)
From stdpp Require Import pretty.
From S2P Require Import Prelude PresenceOp Gate Coordinator AuditTypes Text Fs Crypto Storage Json Scopes Approvals Clicks DesktopGate.

(** ** Counting in the log *)

Definition is_answer (id : N) (e : effect) : bool := match e with Answered i _ => (i =? id)%N | _ => false end.
Definition is_try (id : N) (accepted : bool) (e : effect) : bool :=
  match e with Tried i a => (i =? id)%N && Bool.eqb a accepted | _ => false end.
Definition occurrences (p : effect → bool) (l : list effect) : nat := length (List.filter p l).

Lemma occurrences_app p l1 l2 : occurrences p (l1 ++ l2) = occurrences p l1 + occurrences p l2.
Proof. unfold occurrences. by rewrite List.filter_app, length_app. Qed.

Lemma occurrences_effect_cons p e l : occurrences p (e :: l) = (if p e then 1 else 0) + occurrences p l.
Proof. unfold occurrences. simpl. by destruct (p e). Qed.

Lemma occurrences_pos p l : 0 < occurrences p l ↔ ∃ e, e ∈ l ∧ p e = true.
Proof.
  induction l as [|e l IH].
  - split; [unfold occurrences; simpl; lia|]. intros (e & He & _). by apply elem_of_nil in He.
  - rewrite occurrences_effect_cons. split.
    + destruct (p e) eqn:He; [intros _; exists e; split; [left|done]|].
      intros H. destruct (proj1 IH H) as (e' & ? & ?). exists e'. split; [by right|done].
    + intros (e' & He' & Hp). apply elem_of_cons in He' as [->|He']; [rewrite Hp; lia|].
      assert (0 < occurrences p l) by (apply IH; eauto). lia.
Qed.

Lemma occurrences_zero p l e : occurrences p l = 0 → e ∈ l → p e = false.
Proof.
  intros H He. destruct (p e) eqn:Hp; [|done]. assert (0 < occurrences p l) by (apply occurrences_pos; eauto). lia.
Qed.

(** ** The evidence for an approval *)

(** The record of a decision. *)
Definition allowed_record (t : Z) (action : AuditAction.t) (presence : PresenceAudit.t) (operation : string) : AuditEvent.t :=
  AuditEvent.mk t action AuditDecision.Allowed "desktop-ui" None None None None None None None
    (Some (PresenceAudit.with_operation presence operation)).

Section spec.
Context (sha256 : list N → list N).

(** What the log says of presence when an approval is recorded: a verification that was
    accepted, or, only for what is not protected, a click. *)
Definition presence_shown (l : list effect) (id : N) (protected : bool) (op : OpDescriptor.t) (p : PresenceAudit.t) : Prop :=
  (protected = false ∧ p = PresenceAudit.click) ∨
  ∃ o, Confirmed id (OpDescriptor.digest sha256 op) o ∈ l ∧ p = PresenceAudit.authenticated (audit_modality (Outcome.modality o)).

(** The record of an approval was offered to the audit log, with the presence that was shown. *)
Definition recorded_approval (l : list effect) (id : N) (protected : bool) (op : OpDescriptor.t) (action : AuditAction.t) : Prop :=
  ∃ t p kept, Recorded (allowed_record t action p (approval_operation id)) kept ∈ l ∧ presence_shown l id protected op p.

Definition approval_evidence (l : list effect) (d : Desk.t) (id : N) (e : PendingApproval.t) : Prop :=
  if Desk.unlocked d
  then recorded_approval l id (PendingApproval.protected e) (PendingApproval.op e) (PendingApproval.audit_action e)
  else PendingApproval.protected e = false ∧ PendingApproval.pre_unlock e = true.

Lemma presence_shown_mono l l' id b op p : l ⊆ l' → presence_shown l id b op p → presence_shown l' id b op p.
Proof. intros Hl [?|(o & ? & ->)]; [by left|]. right. exists o. auto. Qed.

Lemma recorded_approval_mono l l' id b op a : l ⊆ l' → recorded_approval l id b op a → recorded_approval l' id b op a.
Proof. intros Hl (t & p & kept & ? & ?). exists t, p, kept. split; [auto|by eapply presence_shown_mono]. Qed.

Lemma approval_evidence_mono l l' d d' id e g :
  l ⊆ l' → Desk.unlocked d' = Desk.unlocked d →
  approval_evidence l d id e → approval_evidence l' d' id (PendingApproval.with_gate e g).
Proof.
  intros Hl Hu. unfold approval_evidence. rewrite Hu. simpl. destruct (Desk.unlocked d); [|done].
  by apply recorded_approval_mono.
Qed.

(** ** Calm operations *)

(** Nothing is approved in [l] but what was pending, with the evidence for it; an answer ends
    a request. *)
Record answered_in (l : list effect) (d : Desk.t) (pending' : gmap N PendingApproval.t) : Prop := {
  answered_once id : occurrences (is_answer id) l ≤ 1;
  answered_pending id : 0 < occurrences (is_answer id) l → is_Some (Desk.pending d !! id) ∧ pending' !! id = None;
  answered_evidence id :
    Answered id true ∈ l → ∃ e, Desk.pending d !! id = Some e ∧ approval_evidence l d id e
}.

(** The requests of [m'] are requests of [m], with other gates. *)
Definition shrinks (m m' : gmap N PendingApproval.t) : Prop :=
  ∀ id e', m' !! id = Some e' → ∃ e g, m !! id = Some e ∧ e' = PendingApproval.with_gate e g.

Record calm (d d' : Desk.t) : Prop := {
  calm_unlocked : Desk.unlocked d' = Desk.unlocked d;
  calm_epoch : Desk.epoch d' = Desk.epoch d;
  calm_locking : Desk.locking d' = Desk.locking d;
  calm_next : (Desk.next_id d ≤ Desk.next_id d')%N;
  calm_pending : shrinks (Desk.pending d) (Desk.pending d');
  calm_log : ∃ l, Desk.log d' = l ++ Desk.log d ∧ answered_in l d (Desk.pending d')
}.

Lemma with_gate_same e : PendingApproval.with_gate e (PendingApproval.gate e) = e.
Proof. by destruct e. Qed.

Lemma shrinks_refl m : shrinks m m.
Proof. intros id e He. exists e, (PendingApproval.gate e). by rewrite with_gate_same. Qed.

Lemma shrinks_trans m1 m2 m3 : shrinks m1 m2 → shrinks m2 m3 → shrinks m1 m3.
Proof.
  intros H1 H2 id e3 (e2 & g2 & He2 & ->)%H2. apply H1 in He2 as (e1 & g1 & ? & ->). by exists e1, g2.
Qed.

Lemma shrinks_None m m' id : shrinks m m' → m !! id = None → m' !! id = None.
Proof.
  intros Hs Hn. destruct (m' !! id) as [e'|] eqn:He; [|done]. apply Hs in He as (? & ? & ? & _). congruence.
Qed.

Lemma shrinks_delete m m' id : shrinks m m' → shrinks m (delete id m').
Proof. intros Hs j e. rewrite lookup_delete_Some. intros [_ He]. by apply Hs. Qed.

Lemma shrinks_empty m : shrinks m ∅.
Proof. by intros id e He. Qed.

Lemma answered_in_nil d m : answered_in [] d m.
Proof.
  split; [by intros; cbn; lia|intros id; cbn; lia|]. by intros id H%elem_of_nil.
Qed.

Lemma calm_refl d : calm d d.
Proof. split; [done..|apply shrinks_refl|]. exists []. split; [done|apply answered_in_nil]. Qed.

Lemma calm_trans d1 d2 d3 : calm d1 d2 → calm d2 d3 → calm d1 d3.
Proof.
  intros [U1 E1 K1 N1 P1 (l1 & L1 & [O1 A1 V1])] [U2 E2 K2 N2 P2 (l2 & L2 & [O2 A2 V2])].
  split; [congruence|congruence|congruence|lia|by eapply shrinks_trans|].
  exists (l2 ++ l1). split; [by rewrite L2, L1, app_assoc|].
  assert (∀ id, 0 < occurrences (is_answer id) l1 → occurrences (is_answer id) l2 = 0) as Hx.
  { intros id Hpos. destruct (A1 id Hpos) as [_ Hnone].
    destruct (decide (0 < occurrences (is_answer id) l2)) as [Hp|]; [|lia].
    destruct (A2 id Hp) as [[e He] _]. congruence. }
  split.
  - intros id. rewrite occurrences_app. specialize (O1 id). specialize (O2 id). specialize (Hx id). lia.
  - intros id. rewrite occurrences_app. intros Hpos.
    destruct (decide (0 < occurrences (is_answer id) l1)) as [Hp|Hp].
    + destruct (A1 id Hp) as [? Hnone]. split; [done|by eapply shrinks_None].
    + destruct (A2 id ltac:(lia)) as [[e He] ?]. split; [|done].
      apply P1 in He as (e1 & ? & ? & _). by eexists.
  - intros id. rewrite elem_of_app. intros [Ha|Ha].
    + destruct (V2 id Ha) as (e2 & He2 & Hev). apply P1 in He2 as (e1 & g & He1 & ->).
      exists e1. split; [done|]. rewrite <-(with_gate_same e1).
      apply (approval_evidence_mono l2 (l2 ++ l1) d2 d1 id (PendingApproval.with_gate e1 g) (PendingApproval.gate e1)); [set_solver|by rewrite U1|done].
    + destruct (V1 id Ha) as (e1 & He1 & Hev). exists e1. split; [done|].
      rewrite <-(with_gate_same e1). apply (approval_evidence_mono l1 (l2 ++ l1) d1 d1 id e1); [set_solver|done..].
Qed.

(** Each update of the state, after calm operations. *)
Definition is_quiet (e : effect) : bool := match e with Answered _ _ => false | _ => true end.

Lemma quiet_answers l id : forallb is_quiet l = true → occurrences (is_answer id) l = 0.
Proof.
  induction l as [|e l IH]; [done|]. simpl. rewrite andb_true_iff. intros [He Hl].
  rewrite occurrences_effect_cons, IH by done. by destruct e.
Qed.

Lemma quiet_answered l d m : forallb is_quiet l = true → answered_in l d m.
Proof.
  intros Hq. split; intros id; rewrite ?quiet_answers by done; [lia|lia|].
  intros Ha. pose proof (occurrences_zero _ _ _ (quiet_answers l id Hq) Ha) as Hz. simpl in Hz.
  by rewrite N.eqb_refl in Hz.
Qed.

Lemma calm_same d d1 d2 :
  Desk.unlocked d2 = Desk.unlocked d1 → Desk.epoch d2 = Desk.epoch d1 → Desk.locking d2 = Desk.locking d1 →
  Desk.next_id d2 = Desk.next_id d1 →
  Desk.pending d2 = Desk.pending d1 → Desk.log d2 = Desk.log d1 → calm d d1 → calm d d2.
Proof.
  intros ? ? ? Hn Hp Hl H. apply (calm_trans _ d1); [done|]. split; [done..|by rewrite Hn|by rewrite Hp; apply shrinks_refl|].
  exists []. split; [done|apply answered_in_nil].
Qed.

Lemma calm_with_presence d d1 p : calm d d1 → calm d (Desk.with_presence d1 p).
Proof. by apply calm_same. Qed.
Lemma calm_with_otp d d1 m : calm d d1 → calm d (Desk.with_otp d1 m).
Proof. by apply calm_same. Qed.
Lemma calm_with_ops d d1 n m : calm d d1 → calm d (Desk.with_ops d1 n m).
Proof. by apply calm_same. Qed.
Lemma calm_with_tasks d d1 l : calm d d1 → calm d (Desk.with_tasks d1 l).
Proof. by apply calm_same. Qed.
Lemma calm_spawned d d1 k : calm d d1 → calm d (Desk.spawned d1 k).
Proof. by apply calm_same. Qed.

Lemma calm_logged d d1 e : is_quiet e = true → calm d d1 → calm d (Desk.logged d1 e).
Proof.
  intros He H. apply (calm_trans _ d1); [done|]. split; [done..|apply shrinks_refl|].
  exists [e]. split; [done|]. apply quiet_answered. simpl. by rewrite He.
Qed.

Lemma calm_record d d1 e : calm d d1 → calm d (record_with_handle e d1).
Proof. by apply calm_logged. Qed.

Lemma calm_with_posts d d1 l : calm d d1 → calm d (Desk.with_posts d1 l).
Proof. by apply calm_same. Qed.
Lemma calm_with_auditing d d1 b : calm d d1 → calm d (Desk.with_auditing d1 b).
Proof. by apply calm_same. Qed.
Lemma calm_post d d1 e : calm d d1 → calm d (record_desktop_event_locked e d1).
Proof. intros H. apply (calm_same _ (Desk.logged d1 (Posted e))); try done. by apply calm_logged. Qed.

Lemma calm_pending_to d d1 m : shrinks (Desk.pending d1) m → calm d d1 → calm d (Desk.with_pending d1 m).
Proof.
  intros Hs H. apply (calm_trans _ d1); [done|]. split; [done..|].
  exists []. split; [done|apply answered_in_nil].
Qed.

Lemma calm_regate d d1 id e g :
  Desk.pending d1 !! id = Some e → calm d d1 →
  calm d (Desk.with_pending d1 (<[id := PendingApproval.with_gate e g]> (Desk.pending d1))).
Proof.
  intros He. apply calm_pending_to. intros j e'. rewrite lookup_insert_Some. intros [[<- <-]|[_ Hj]]; [eauto|].
  by apply shrinks_refl.
Qed.

Lemma calm_fetch d d1 : calm d d1 → calm d (fetch_id d1).2.
Proof.
  intros H. apply (calm_trans _ d1); [done|]. split; simpl; [done..|lia|apply shrinks_refl|].
  exists []. split; [done|apply answered_in_nil].
Qed.

(** A request is answered as it leaves the map. *)
Lemma calm_settle d d1 id e approved :
  Desk.pending d1 !! id = Some e → Desk.unlocked d1 = Desk.unlocked d →
  (∃ l, Desk.log d1 = l ++ Desk.log d ∧ forallb is_quiet l = true ∧ (approved = true → approval_evidence l d id e)) →
  Desk.pending d1 = Desk.pending d → Desk.epoch d1 = Desk.epoch d → Desk.locking d1 = Desk.locking d →
  Desk.next_id d1 = Desk.next_id d → calm d (settle d1 id approved).
Proof.
  intros He Hu (l & Hl & Hq & Hev) Hp Hep Hk Hn. unfold settle, answer. split; simpl; [done..|by rewrite Hn| |].
  - rewrite Hp. apply shrinks_delete, shrinks_refl.
  - exists (Answered id approved :: l). split; [by rewrite Hl|]. split; intros j.
    + rewrite occurrences_effect_cons, quiet_answers by done. simpl. destruct (id =? j)%N; lia.
    + rewrite occurrences_effect_cons, quiet_answers by done. simpl. destruct (N.eqb_spec id j) as [->|]; [|lia].
      intros _. rewrite <-Hp, He. split; [by eexists|]. by rewrite lookup_delete_eq.
    + rewrite elem_of_cons. intros [[= <- <-]|Ha].
      * exists e. rewrite <-Hp. split; [done|]. rewrite <-(with_gate_same e).
        by apply (approval_evidence_mono l _ d d j e); [set_solver|done|apply Hev].
      * pose proof (occurrences_zero _ _ _ (quiet_answers l j Hq) Ha) as Hz. simpl in Hz. by rewrite N.eqb_refl in Hz.
Qed.

Lemma calm_refuse d d1 id e :
  Desk.pending d1 !! id = Some e → calm d d1 → calm d (settle d1 id false).
Proof.
  intros He H. apply (calm_trans _ d1); [done|]. eapply calm_settle; try done. by exists [].
Qed.
End spec.

(** * Which operations of the desktop are calm

    All but those that open a request, unlock or lock. *)
Create HintDb calm.
#[export] Hint Resolve calm_refl calm_with_presence calm_with_otp calm_with_ops calm_with_tasks calm_spawned
  calm_record calm_with_posts calm_with_auditing calm_post : calm.
#[export] Hint Extern 2 (calm _ _ (Desk.logged _ _)) => apply calm_logged; [reflexivity|] : calm.

(** Case analysis on what an operation looks at, then one update after the other. *)
Ltac calm_auto := repeat case_match; eauto 12 with calm; simplify_eq/=; eauto 12 with calm.

Section calm.
Context (sha256 : list N → list N) (utc : Instant → Z).
Notation calm := (calm sha256).

Lemma calm_invalidate_gate d d1 g : calm d d1 → calm d (invalidate_gate d1 g).
Proof. intros H. unfold invalidate_gate. calm_auto. Qed.

Lemma calm_audit_denied d d1 operation action presence transport error :
  calm d d1 → calm d (audit_denied utc d1 operation action presence transport error).
Proof. intros H. unfold audit_denied. calm_auto. Qed.

Lemma calm_classify d d1 a b d2 : classify d1 a = (b, d2) → calm d d1 → calm d d2.
Proof. unfold classify. intros Hc H. calm_auto. Qed.

Lemma calm_start d d1 d2 id : fetch_id d1 = (id, d2) → calm d d1 → calm d d2.
Proof. intros Hf H. replace d2 with (fetch_id d1).2 by (by rewrite Hf). by apply calm_fetch. Qed.
#[local] Hint Resolve calm_invalidate_gate calm_audit_denied calm_classify calm_start : calm.

(** ** One-time codes *)

Lemma accept_otp_calm d d1 key c : calm d d1 → calm d (accept_otp utc d1 key c).2.
Proof. intros H. unfold accept_otp. calm_auto. Qed.

Lemma reuse_otp_calm d d1 request key modal c : calm d d1 → calm d (reuse_otp d1 request key modal c).2.
Proof. intros H. unfold reuse_otp. calm_auto. Qed.

Lemma refuse_otp_calm d d1 key c : calm d d1 → calm d (refuse_otp utc d1 key c).2.
Proof. intros H. unfold refuse_otp, audit_otp_denied. calm_auto. Qed.
#[local] Hint Resolve accept_otp_calm reuse_otp_calm refuse_otp_calm : calm.

Lemma handle_otp_calm d d1 request : calm d d1 → calm d (handle_otp sha256 utc request d1).2.
Proof. intros H. unfold handle_otp, audit_otp_denied. calm_auto. Qed.

Lemma fresh_start_calm d d1 request drawn a : calm d d1 → calm d (fresh_start request drawn a d1).2.
Proof. intros H. unfold fresh_start. calm_auto. Qed.

Lemma remove_challenge_calm d d1 key : calm d d1 → calm d (remove_challenge d1 key).
Proof. intros H. unfold remove_challenge. calm_auto. Qed.
#[local] Hint Resolve remove_challenge_calm : calm.

Lemma fresh_insert_calm d d1 request code id b : calm d d1 → calm d (fresh_insert request code id b d1).2.
Proof. intros H. unfold fresh_insert. calm_auto. Qed.

Lemma otp_timer_calm d d1 id : calm d d1 → calm d (otp_timer id d1).
Proof. intros H. unfold otp_timer. calm_auto. Qed.

Lemma reveal_start_calm d d1 id : calm d d1 → calm d (reveal_start sha256 id d1).2.
Proof. intros H. unfold reveal_start. calm_auto. Qed.

Lemma reveal_finish_calm d d1 id key attempt dl ep r : calm d d1 → calm d (reveal_finish sha256 utc id key attempt dl ep r d1).2.
Proof. intros H. unfold reveal_finish, reveal_conclude, drop_challenge, audit_otp_denied. calm_auto. Qed.

(** ** Clicks *)

Lemma click_start_calm d d1 click for_ fixed a : calm d d1 → calm d (click_start click for_ fixed a d1).
Proof. intros H. unfold click_start. calm_auto. Qed.

Lemma calm_remove d d1 id : calm d d1 → calm d (Desk.with_pending d1 (delete id (Desk.pending d1))).
Proof. apply calm_pending_to, shrinks_delete, shrinks_refl. Qed.
#[local] Hint Resolve calm_remove click_start_calm : calm.

Lemma reap_timeout_calm d d1 id : calm d d1 → calm d (reap_timeout utc id d1).
Proof. intros H. unfold reap_timeout, audit_approval_denied, invalidate_entry. calm_auto. Qed.

Lemma invalidate_entry_pending d e : Desk.pending (invalidate_entry d e) = Desk.pending d.
Proof. unfold invalidate_entry, invalidate_gate. by case_match. Qed.

(** Removing an entry, cancelling its prompt and refusing it. *)
Lemma removal_is_settlement d id e :
  answer (invalidate_entry (Desk.with_pending d (delete id (Desk.pending d))) e) id false = settle (invalidate_entry d e) id false.
Proof. unfold invalidate_entry, invalidate_gate, settle, answer. by destruct (attempt_of _). Qed.

Lemma supersede_calm d d1 id e :
  Desk.pending d1 !! id = Some e → calm d d1 → calm d (supersede d1 (id, e)).
Proof.
  intros He H. unfold supersede. simpl. rewrite removal_is_settlement.
  eapply calm_refuse; [by rewrite invalidate_entry_pending|]. unfold invalidate_entry. auto with calm.
Qed.

Lemma refuse_from_calm d d1 id transport : calm d d1 → calm d (refuse_from utc id transport d1).2.
Proof.
  intros H. unfold refuse_from, audit_approval_denied. case_match eqn:He; [|done]. apply calm_audit_denied. by apply supersede_calm.
Qed.

Lemma approve_unprotected_calm d d1 id e :
  Desk.pending d1 !! id = Some e → PendingApproval.protected e = false → calm d d1 →
  calm d (approve_unprotected utc d1 id e).2.
Proof.
  intros He Hp H. apply (calm_trans _ _ d1); [done|]. unfold approve_unprotected. case_match eqn:Hu; [|case_match eqn:Hpre].
  - eapply calm_settle; try done. eexists [_]. split_and!; [done..|]. intros _.
    unfold approval_evidence. rewrite Hu, Hp. eexists _, _, _. split; [left|by left].
  - eapply calm_settle; try done. exists []. split_and!; [done..|]. intros _.
    unfold approval_evidence. by rewrite Hu.
  - eapply calm_refuse; [done|apply calm_refl].
Qed.
#[local] Hint Resolve approve_unprotected_calm : calm.

Lemma respond_denied_calm d d1 id e denial :
  Desk.pending d1 !! id = Some e → calm d d1 → calm d (respond_denied utc d1 id e denial).2.
Proof. intros He H. unfold respond_denied. apply calm_audit_denied. by eapply calm_refuse. Qed.
#[local] Hint Resolve respond_denied_calm : calm.

Lemma respond_start_calm d d1 id otp : calm d d1 → calm d (respond_start sha256 utc id otp d1).2.
Proof.
  intros H. unfold respond_start, audit_approval_denied. case_match eqn:He; [|done]. case_match; [done|].
  case_match; [apply calm_audit_denied; eapply calm_refuse; [by rewrite invalidate_entry_pending|unfold invalidate_entry; auto with calm]|].
  case_match eqn:Hp.
  { apply negb_true_iff in Hp. by apply approve_unprotected_calm. }
  repeat case_match; simplify_eq/=; auto with calm. apply calm_spawned.
  apply (calm_regate _ d (Desk.with_presence d1 _)); auto with calm.
Qed.

Lemma respond_finish_calm d d1 id attempt r : calm d d1 → calm d (respond_finish sha256 utc id attempt r d1).2.
Proof.
  intros H. unfold respond_finish. case_match eqn:He; [|done].
  destruct r as [v|denial]; [|destruct denial; auto with calm; by apply calm_regate].
  case_match; [|by auto with calm]. apply (calm_trans _ _ d1); [done|]. case_match eqn:Hu; simpl in Hu.
  - eapply calm_settle; try done. eexists [_; _]. split_and!; [done..|]. intros _.
    unfold approval_evidence. rewrite Hu. eexists _, _, _. split; [left|]. right.
    eexists. split; [|done]. right. left.
  - eapply calm_refuse; [done|]. auto with calm.
Qed.

(** A new request: the ones it supersedes are refused before, and reported after. *)
Definition opened (click : ClickRequest.t) (id : N) (protected : bool) (deadline : Instant) (d : Desk.t) : Desk.t :=
  Desk.with_pending d (<[id := click_entry click id protected deadline]> (Desk.pending d)).

Lemma supersede_all_calm stale d d1 :
  NoDup stale.*1 → (∀ ie, ie ∈ stale → Desk.pending d1 !! ie.1 = Some ie.2) → calm d d1 → calm d (foldl supersede d1 stale).
Proof.
  revert d1. induction stale as [|[id e] stale IH]; intros d1 Hnd Hin H; [done|]. simpl.
  apply NoDup_cons in Hnd as [Hn Hnd]. apply IH; [done| |].
  - intros [j e'] Hj. unfold supersede, answer. simpl. rewrite invalidate_entry_pending. simpl.
    rewrite lookup_delete_ne; [apply (Hin (j, e')); by right|]. intros ->. apply Hn. by apply (list_elem_of_fmap_2 fst) in Hj.
  - apply supersede_calm; [|done]. apply (Hin (id, e)). left.
Qed.

Lemma stale_listed signature (m : gmap N PendingApproval.t) :
  let stale := List.filter (same_signature signature) (map_to_list m) in
  NoDup stale.*1 ∧ ∀ ie, ie ∈ stale → m !! ie.1 = Some ie.2.
Proof.
  intros stale. split.
  - eapply sublist_NoDup; [apply (NoDup_fst_map_to_list m)|]. apply fmap_sublist. unfold stale. induction (map_to_list m) as [|x l IH]; simpl; [constructor|].
    case_match; by constructor.
  - intros [id e]. unfold stale. rewrite list_elem_of_In, filter_In, <-list_elem_of_In. intros [He _]. by apply elem_of_map_to_list in He.
Qed.

Lemma click_insert_opens d click id protected deadline for_ :
  ∃ d1 d2, calm d d1 ∧ calm (opened click id protected deadline d1) d2 ∧
    Desk.tasks d2 = Desk.tasks d ∧ click_insert utc click id protected deadline for_ d =
      Desk.spawned (Desk.logged d2 (Prompted (click_prompt click id protected))) (AwaitingAnswer id for_).
Proof.
  unfold click_insert. destruct (stale_listed (ClickRequest.signature click) (Desk.pending d)) as [Hnd Hin].
  set (stale := List.filter _ _) in *.
  exists (foldl supersede d stale), (foldl (report_superseded utc) (opened click id protected deadline (foldl supersede d stale)) stale).
  split_and!; [apply supersede_all_calm; auto with calm| | |done].
  - generalize (opened click id protected deadline (foldl supersede d stale)). intros d2. clear Hnd Hin.
    assert (calm d2 d2) as H by auto with calm. revert H. generalize d2 at 2 4.
    induction stale as [|ie l IH]; intros d3 H; [done|]. simpl. apply IH. unfold report_superseded, audit_approval_denied.
    auto with calm.
  - assert (∀ d1 l, Desk.tasks (foldl (report_superseded utc) d1 l) = Desk.tasks d1) as Hr.
    { intros d1 l. revert d1. induction l as [|ie l IH]; intros d1; [done|]. simpl. by rewrite IH. }
    rewrite Hr. simpl. clear Hnd Hin Hr. generalize d. induction stale as [|ie stale IH]; intros d1; [done|]. simpl. rewrite IH.
    unfold supersede, invalidate_entry, invalidate_gate. by case_match.
Qed.

(** ** Locks and desktop operations *)

Lemma clear_entries drained d :
  NoDup drained.*1 →
  Desk.unlocked (foldl clear_entry d drained) = Desk.unlocked d ∧ Desk.epoch (foldl clear_entry d drained) = Desk.epoch d ∧
  Desk.locking (foldl clear_entry d drained) = Desk.locking d ∧
  Desk.next_id (foldl clear_entry d drained) = Desk.next_id d ∧ Desk.pending (foldl clear_entry d drained) = Desk.pending d ∧
  ∃ l, Desk.log (foldl clear_entry d drained) = l ++ Desk.log d ∧
    ∀ id, Answered id true ∉ l ∧ occurrences (is_answer id) l ≤ 1 ∧ (0 < occurrences (is_answer id) l → id ∈ drained.*1).
Proof.
  clear utc.
  revert d. induction drained as [|[i e] drained IH]; intros d Hnd.
  - split_and!; [done..|]. exists []. split; [done|]. intros id. split_and!; [apply not_elem_of_nil|cbn; lia..].
  - apply NoDup_cons in Hnd as [Hn Hnd]. simpl. destruct (IH (clear_entry d (i, e)) Hnd) as (-> & -> & -> & -> & -> & l & -> & Hl).
    assert (∃ p, clear_entry d (i, e) = Desk.logged (answer (Desk.with_presence d p) i false) (Cancelled i)) as [p ->].
    { unfold clear_entry, invalidate_entry, invalidate_gate. simpl. case_match; [by eexists|]. exists (Desk.presence d). by destruct d. }
    split_and!; [done..|]. exists (l ++ [Cancelled i; Answered i false]). split; [by rewrite <-app_assoc|].
    intros id. destruct (Hl id) as (Ht & Ho & Hp). rewrite occurrences_app, !occurrences_effect_cons. cbn -[occurrences].
    replace (occurrences (is_answer id) []) with 0 by done. split_and!.
    + rewrite not_elem_of_app. split; [done|]. intros Hx. repeat (apply elem_of_cons in Hx as [Hx|Hx]; [done|]). by apply elem_of_nil in Hx.
    + destruct (N.eqb_spec i id) as [->|]; [|lia]. destruct (decide (0 < occurrences (is_answer id) l)) as [Hq|]; [|lia]. by apply Hp in Hq.
    + destruct (N.eqb_spec i id) as [->|]; [left|]. intros Hq. right. apply Hp. lia.
Qed.

Lemma clear_pending_calm d drained :
  drained ≡ₚ map_to_list (Desk.pending d) → calm d (clear_pending drained d).
Proof.
  intros Hd. unfold clear_pending. assert (NoDup drained.*1) as Hnd by (rewrite Hd; apply NoDup_fst_map_to_list).
  destruct (clear_entries drained (Desk.with_pending d ∅) Hnd) as (Hu & He & Hk & Hn & Hp & l & Hl & Ha).
  split; [done..|by rewrite Hn| |].
  - rewrite Hp. apply shrinks_empty.
  - exists l. split; [done|]. split; intros id; destruct (Ha id) as (Ht & Ho & Hi); [done| |done].
    intros H0. rewrite Hp. split; [|done]. apply Hi in H0. rewrite Hd in H0. apply list_elem_of_fmap in H0 as ([j e] & -> & Hj).
    apply elem_of_map_to_list in Hj. by eexists.
Qed.

Lemma clear_challenges_calm d d1 drained : calm d d1 → calm d (clear_challenges drained d1).
Proof.
  intros H. unfold clear_challenges. assert (calm d (Desk.with_otp d1 ∅)) as H1 by auto with calm. revert H1.
  generalize (Desk.with_otp d1 ∅). induction drained as [|kc l IH]; intros d2 H2; [done|]. simpl. apply IH.
  unfold clear_challenge. auto with calm.
Qed.

Lemma clear_ops_calm d d1 drained : calm d d1 → calm d (clear_ops drained d1).
Proof.
  intros H. unfold clear_ops. assert (calm d (Desk.with_ops d1 (Desk.next_op d1) ∅)) as H1 by auto with calm. revert H1.
  generalize (Desk.with_ops d1 (Desk.next_op d1) ∅). induction drained as [|kc l IH]; intros d2 H2; [done|]. simpl. apply IH.
  unfold clear_op. auto with calm.
Qed.

Lemma ops_begin_calm d d1 digest deadline a attempt : calm d d1 → calm d (ops_begin digest deadline a attempt d1).2.
Proof. intros H. unfold ops_begin. calm_auto. Qed.
Lemma ops_retry_calm d d1 digest id attempt : calm d d1 → calm d (ops_retry digest id attempt d1).
Proof. intros H. unfold ops_retry. calm_auto. Qed.
Lemma ops_finish_calm d d1 digest id : calm d d1 → calm d (ops_finish digest id d1).
Proof. intros H. unfold ops_finish. calm_auto. Qed.
#[local] Hint Resolve ops_begin_calm ops_retry_calm ops_finish_calm : calm.

Lemma gate_begin_calm d d1 click epoch attempt a : calm d d1 → calm d (gate_begin sha256 click epoch attempt a d1).2.
Proof.
  intros H. unfold gate_begin. pose proof (ops_begin_calm d d1 (OpDescriptor.digest sha256 (ClickRequest.op click))
    (Desk.now d1 + secs APPROVAL_TIMEOUT_SECS)%N a attempt H) as Ho.
  destruct (ops_begin _ _ _ _ d1) as [r d2]. simpl in Ho. destruct r; [|done]. simpl. case_match; auto with calm.
Qed.

Lemma passed_calm d d1 pass : calm d d1 → calm d (passed d1 pass).
Proof. intros H. unfold passed. auto with calm. Qed.
#[local] Hint Resolve passed_calm : calm.

Lemma gate_confirmed_calm d d1 digest op_id epoch outcome : calm d d1 → calm d (gate_confirmed digest op_id epoch outcome d1).2.
Proof. intros H. unfold gate_confirmed. calm_auto. Qed.

Lemma gate_verified_calm d d1 click op_id deadline epoch attempt r :
  calm d d1 → calm d (gate_verified sha256 click op_id deadline epoch attempt r d1).2.
Proof. intros H. unfold gate_verified. calm_auto. Qed.

Lemma consume_calm d d1 pass f denied_event error_event :
  calm d d1 → calm d (let '(outcome, d) := with_gated_handle pass f d1 in record_gated_outcome pass outcome denied_event error_event d).
Proof. intros H. unfold with_gated_handle, record_gated_outcome. calm_auto. Qed.

Lemma authorize_end_calm d d1 request epoch via : calm d d1 → calm d (authorize_end request epoch via d1).2.
Proof. intros H. unfold authorize_end. calm_auto. Qed.

Lemma post_event_calm d d1 e : calm d d1 → calm d (post_event e d1).
Proof. intros H. unfold post_event. calm_auto. Qed.
End calm.
