(* ===== verification/DesktopOtp.v ===== *)
(** * DesktopOtp: the one-time codes along the steps of the desktop

    [steady] describes every operation that neither tries a code nor issues one: challenges
    stay, leave, or change their gate.  [otp_inv] is the invariant of the store. *)
From stdpp Require Import pretty.
From S2P Require Import Prelude Text Json AuditTypes Fs Crypto Storage PresenceOp Gate Coordinator Scopes Approvals Clicks DesktopGate DesktopSpec.

Section otp.
Context (sha256 : list N → list N) (utc : Instant → Z).

(** The gate of a challenge is open only after a verification that was recorded in the log,
    with the modality that its audit record will name. *)
Definition gate_earned (l : list effect) (c : OtpChallenge.t) : Prop :=
  ∀ dg, OtpChallenge.gate c = GateState.Authenticated dg →
    ∃ o, Confirmed (OtpChallenge.modal_id c) (OpDescriptor.digest sha256 (OtpChallenge.op c)) o ∈ l ∧
         OtpChallenge.revealed_modality c = Some (Outcome.modality o).

Definition regated (c : OtpChallenge.t) (g : GateState.t) (m : option Modality.t) : OtpChallenge.t :=
  OtpChallenge.mk (OtpChallenge.code c) (OtpChallenge.modal_id c) (OtpChallenge.issued_at c) (OtpChallenge.failed_attempts c)
    (OtpChallenge.lockout_until c) (OtpChallenge.protected c) g (OtpChallenge.op c) (OtpChallenge.audit_action c) m.

Definition store_steady (l l' : list effect) (m m' : gmap string OtpChallenge.t) : Prop :=
  ∀ key c', m' !! key = Some c' →
    ∃ c g o, m !! key = Some c ∧ c' = regated c g o ∧ (gate_earned l c → gate_earned l' c').

(** Effects that neither try a code nor let a request through. *)
Definition not_try (e : effect) : bool := match e with Tried _ _ | Granted _ _ _ => false | _ => true end.
Definition tries_none (l : list effect) : Prop := forallb not_try l = true.

Lemma tries_none_try l id b : tries_none l → occurrences (is_try id b) l = 0.
Proof.
  unfold tries_none. induction l as [|e l IH]; [done|]. simpl. rewrite andb_true_iff. intros [He Hl].
  rewrite occurrences_effect_cons, IH by done. by destruct e.
Qed.

Lemma tries_none_app l1 l2 : tries_none l1 → tries_none l2 → tries_none (l1 ++ l2).
Proof. unfold tries_none. rewrite forallb_app. by intros -> ->. Qed.

Record steady (d d' : Desk.t) : Prop := {
  steady_presence : rtc (step sha256) (Desk.presence d) (Desk.presence d');
  steady_next : (Desk.next_id d ≤ Desk.next_id d')%N;
  steady_log : ∃ l, Desk.log d' = l ++ Desk.log d ∧ tries_none l;
  steady_store : store_steady (Desk.log d) (Desk.log d') (Desk.otp_pending d) (Desk.otp_pending d')
}.

Lemma store_steady_size l l' m m' : store_steady l l' m m' → size m' ≤ size m.
Proof.
  intros H. rewrite <-!size_dom. apply subseteq_size. intros key [c' Hc']%elem_of_dom.
  destruct (H key c' Hc') as (c & _ & _ & Hc & _). by apply elem_of_dom_2 in Hc.
Qed.

Lemma regated_same c : regated c (OtpChallenge.gate c) (OtpChallenge.revealed_modality c) = c.
Proof. by destruct c. Qed.

Lemma gate_earned_mono l l' c : l ⊆ l' → gate_earned l c → gate_earned l' c.
Proof. intros Hl H dg Hg. destruct (H dg Hg) as (o & ? & ?). exists o. auto. Qed.

Lemma store_steady_sub l l' m m' : l ⊆ l' → m' ⊆ m → store_steady l l' m m'.
Proof.
  intros Hl Hm key c Hc. exists c, (OtpChallenge.gate c), (OtpChallenge.revealed_modality c). rewrite regated_same.
  split_and!; [by eapply lookup_weaken|done|by apply gate_earned_mono].
Qed.

Lemma steady_refl d : steady d d.
Proof. split; [done..| |by apply store_steady_sub]. by exists []. Qed.

Lemma steady_trans d1 d2 d3 : steady d1 d2 → steady d2 d3 → steady d1 d3.
Proof.
  intros [N1 I1 (l1 & L1 & T1) S1] [N2 I2 (l2 & L2 & T2) S2]. split; [by etrans|lia| |].
  - exists (l2 ++ l1). rewrite L2, L1, app_assoc. split; [done|]. by apply tries_none_app.
  - intros key c3 Hc3. destruct (S2 key c3 Hc3) as (c2 & g2 & o2 & Hc2 & -> & H2).
    destruct (S1 key c2 Hc2) as (c1 & g1 & o1 & Hc1 & -> & H1). exists c1, g2, o2. auto.
Qed.

Lemma step_clock p p' : step sha256 p p' → (PresenceCoordinator.clock p ≤ PresenceCoordinator.clock p')%N.
Proof.
  destruct 1 as [s s' id Hb|s id _|s a s' c Hc|s id|s later Hl|s id op dl _|s l1 c l2 n w c' Hc Hs|s l1 c l2 d Hc Hat _ _]; simpl; try done.
  - unfold PresenceCoordinator.begin_attempt in Hb. by injection Hb as <- _.
  - unfold PresenceCoordinator.classify in Hc. repeat case_match; by injection Hc as <- _.
  - unfold PresenceCoordinator.invalidate. by case_match.
  - unfold PresenceCoordinator.verify_start. by case_match.
Qed.

Lemma steady_now d d' : steady d d' → (Desk.now d ≤ Desk.now d')%N.
Proof.
  intros [Hp _ _ _]. unfold Desk.now. induction Hp as [|p1 p2 p3 Hs _ IH]; [done|]. apply step_clock in Hs. lia.
Qed.

(** Each update of the state, after steady operations. *)
Lemma steady_set d d1 d2 :
  steady d d1 → rtc (step sha256) (Desk.presence d1) (Desk.presence d2) → (Desk.next_id d1 ≤ Desk.next_id d2)%N → Desk.log d2 = Desk.log d1 →
  Desk.otp_pending d2 ⊆ Desk.otp_pending d1 → steady d d2.
Proof.
  intros H Hn Hi Hl Hs. apply (steady_trans _ d1); [done|]. split; [done..| |].
  - by exists [].
  - rewrite Hl. by apply store_steady_sub.
Qed.

Lemma steady_with_presence d d1 p :
  rtc (step sha256) (Desk.presence d1) p → steady d d1 → steady d (Desk.with_presence d1 p).
Proof. intros Hp H. by eapply steady_set. Qed.
Lemma steady_with_id d d1 n : (Desk.next_id d1 ≤ n)%N → steady d d1 → steady d (Desk.with_id d1 n).
Proof. intros Hp H. by eapply steady_set. Qed.
Lemma steady_with_pending d d1 m : steady d d1 → steady d (Desk.with_pending d1 m).
Proof. intros H. by eapply steady_set. Qed.
Lemma steady_with_ops d d1 n m : steady d d1 → steady d (Desk.with_ops d1 n m).
Proof. intros H. by eapply steady_set. Qed.
Lemma steady_with_tasks d d1 l : steady d d1 → steady d (Desk.with_tasks d1 l).
Proof. intros H. by eapply steady_set. Qed.
Lemma steady_spawned d d1 k : steady d d1 → steady d (Desk.spawned d1 k).
Proof. intros H. by eapply steady_set. Qed.
Lemma steady_published d d1 b : steady d d1 → steady d (Desk.published d1 b).
Proof. intros H. by eapply steady_set. Qed.
Lemma steady_with_locking d d1 s : steady d d1 → steady d (Desk.with_locking d1 s).
Proof. intros H. by eapply steady_set. Qed.

Lemma steady_logged d d1 e : not_try e = true → steady d d1 → steady d (Desk.logged d1 e).
Proof.
  intros He H. apply (steady_trans _ d1); [done|]. split; [done..| |apply store_steady_sub; [set_solver|done]].
  exists [e]. split; [done|]. unfold tries_none. simpl. by rewrite He.
Qed.

Lemma steady_record d d1 e : steady d d1 → steady d (record_with_handle e d1).
Proof. by apply steady_logged. Qed.
Lemma steady_with_posts d d1 l : steady d d1 → steady d (Desk.with_posts d1 l).
Proof. intros H. by eapply steady_set. Qed.
Lemma steady_with_auditing d d1 b : steady d d1 → steady d (Desk.with_auditing d1 b).
Proof. intros H. by eapply steady_set. Qed.
Lemma steady_post d d1 e : steady d d1 → steady d (record_desktop_event_locked e d1).
Proof. intros H. apply (steady_set _ (Desk.logged d1 (Posted e))); try done. by apply steady_logged. Qed.

Lemma steady_fewer d d1 m : m ⊆ Desk.otp_pending d1 → steady d d1 → steady d (Desk.with_otp d1 m).
Proof. intros Hm H. by eapply steady_set. Qed.

(** The gate of one challenge moves. *)
Lemma steady_regate d d1 key c g o :
  Desk.otp_pending d1 !! key = Some c → (gate_earned (Desk.log d1) c → gate_earned (Desk.log d1) (regated c g o)) →
  steady d d1 → steady d (Desk.with_otp d1 (<[key := regated c g o]> (Desk.otp_pending d1))).
Proof.
  intros Hc Hg H. apply (steady_trans _ d1); [done|]. split; [done..|by exists []|].
  intros key' c'. simpl. rewrite lookup_insert_Some. intros [[<- <-]|[_ Hc']]; [by exists c, g, o|].
  by eapply store_steady_sub.
Qed.

Lemma with_gate_regated c g : OtpChallenge.with_gate c g = regated c g (OtpChallenge.revealed_modality c).
Proof. by destruct c. Qed.

Lemma steady_close d d1 key c g :
  Desk.otp_pending d1 !! key = Some c → (∀ dg, g ≠ GateState.Authenticated dg) →
  steady d d1 → steady d (Desk.with_otp d1 (<[key := OtpChallenge.with_gate c g]> (Desk.otp_pending d1))).
Proof.
  intros Hc Hg H. rewrite with_gate_regated. apply steady_regate; [done| |done]. intros _ dg Ha. by destruct (Hg dg).
Qed.

Lemma prune_sub now m : prune_expired now m ⊆ m.
Proof. apply map_filter_subseteq. Qed.
End otp.

Create HintDb steady.
#[export] Hint Resolve steady_refl steady_with_pending steady_with_ops steady_with_tasks steady_spawned steady_published
  steady_with_locking steady_record steady_with_posts steady_with_auditing steady_post : steady.
#[export] Hint Extern 2 (steady _ _ (Desk.logged _ _)) => apply steady_logged; [reflexivity|] : steady.
#[export] Hint Extern 2 (steady _ _ (Desk.with_otp _ (delete _ _))) => apply steady_fewer; [apply delete_subseteq|] : steady.
#[export] Hint Extern 2 (steady _ _ (Desk.with_otp _ (prune_expired _ _))) => apply steady_fewer; [apply prune_sub|] : steady.
#[export] Hint Extern 2 (steady _ _ (Desk.with_otp _ ∅)) => apply steady_fewer; [apply map_empty_subseteq|] : steady.

Ltac steady_auto := repeat case_match; eauto 12 with steady; simplify_eq/=; eauto 12 with steady.

Section operations.
Context (sha256 : list N → list N) (utc : Instant → Z).
Notation steady := (steady sha256).

Lemma invalidate_gate_steady d d1 g : steady d d1 → steady d (invalidate_gate d1 g).
Proof. intros H. unfold invalidate_gate. case_match; [|done]. apply steady_with_presence; [apply rtc_once, step_invalidate|done]. Qed.

Lemma begin_steady d d1 p a :
  PresenceCoordinator.begin_attempt (Desk.presence d1) = (p, a) → steady d d1 → steady d (Desk.with_presence d1 p).
Proof. intros Hb H. apply steady_with_presence; [by eapply rtc_once, step_begin|done]. Qed.

Lemma classify_steady d d1 a b d2 : classify d1 a = (b, d2) → steady d d1 → steady d d2.
Proof.
  unfold classify. destruct (PresenceCoordinator.classify _ _) as [p c] eqn:Hc. intros [= <- <-] H.
  apply steady_with_presence; [by eapply rtc_once, step_classify|done].
Qed.

Lemma fetch_steady d d1 id d2 : fetch_id d1 = (id, d2) → steady d d1 → steady d d2.
Proof. intros [= <- <-] H. apply steady_with_id; [lia|done]. Qed.

Lemma audit_denied_steady d d1 operation action presence transport error :
  steady d d1 → steady d (audit_denied utc d1 operation action presence transport error).
Proof. intros H. unfold audit_denied. eauto with steady. Qed.
#[local] Hint Resolve invalidate_gate_steady begin_steady classify_steady fetch_steady audit_denied_steady : steady.

Lemma fresh_start_steady d d1 request drawn a : steady d d1 → steady d (fresh_start request drawn a d1).2.
Proof. intros H. unfold fresh_start. steady_auto. Qed.

Lemma otp_timer_steady d d1 id : steady d d1 → steady d (otp_timer id d1).
Proof. intros H. unfold otp_timer. steady_auto. Qed.

Lemma find_modal_Some id m key c : find_modal id m = Some (key, c) → m !! key = Some c ∧ OtpChallenge.modal_id c = id.
Proof.
  unfold find_modal. intros [Hin Hid]%find_some. rewrite <-list_elem_of_In in Hin.
  by apply elem_of_map_to_list in Hin; apply N.eqb_eq in Hid.
Qed.

Lemma begin_not_open g a dg g' r : GateState.begin g a dg = (g', Ok r) → g' = GateState.Verifying a dg.
Proof. destruct g; by intros [= <- _]. Qed.

Lemma reveal_start_steady d d1 id : steady d d1 → steady d (reveal_start sha256 id d1).2.
Proof.
  intros H. unfold reveal_start. case_match eqn:Hf; [|by simpl; auto with steady]. case_match. subst. apply find_modal_Some in Hf as [Hf _].
  case_match; [by simpl; auto with steady|].
  destruct (PresenceCoordinator.begin_attempt _) as [p attempt] eqn:Hb.
  destruct (GateState.begin _ _ _) as [g r] eqn:Hg. destruct r; [|by simpl; eauto with steady]. simpl.
  apply steady_spawned. apply begin_not_open in Hg as ->.
  apply (steady_close _ _ (Desk.with_presence (Desk.with_otp d1 _) p)); [done..|]. eauto with steady.
Qed.

Lemma drop_challenge_steady d d1 key c error : steady d d1 → steady d (drop_challenge utc d1 key c error).
Proof. intros H. unfold drop_challenge, audit_otp_denied. auto with steady. Qed.
#[local] Hint Resolve drop_challenge_steady : steady.

Lemma finish_err_closed g a gr cu dl now g' e :
  GateState.finish g a gr cu dl now = (g', Err e) → g' = g ∨ g' = GateState.Pending.
Proof. unfold GateState.finish. repeat case_match; intros [= <- _]; auto. Qed.
Lemma finish_ok_current g a gr cu dl now g' r :
  GateState.finish g a gr cu dl now = (g', Ok r) →
  g' = GateState.Authenticated cu ∧ g = GateState.Verifying a cu ∧ gr = cu ∧ (now ≤ dl)%N.
Proof.
  unfold GateState.finish. destruct g as [|b e|]; [done| |done]. destruct (N.eqb_spec b a) as [->|]; [|done].
  repeat case_bool_decide; simpl; try done. destruct (N.ltb_spec dl now); [done|]. intros [= <- _]. by subst.
Qed.

Lemma reveal_finish_steady d d1 id key attempt dl ep r :
  steady d d1 → steady d (reveal_finish sha256 utc id key attempt dl ep r d1).2.
Proof.
  intros H. unfold reveal_finish, reveal_conclude. case_match; [repeat case_match; simpl; auto with steady|].
  case_match eqn:Hc; [|done]. case_match eqn:Hid; [done|]. case_match; [done|].
  assert (∀ g' : GateState.t, g' = OtpChallenge.gate t ∨ (∀ dg, g' ≠ GateState.Authenticated dg) →
            steady d (Desk.with_otp d1 (<[key := OtpChallenge.with_gate t g']> (Desk.otp_pending d1)))) as Hgate.
  { intros g' Hg'. rewrite with_gate_regated. apply steady_regate; [done| |done]. destruct Hg' as [->|Hn].
    - by rewrite regated_same.
    - intros _ dg Hdg. by destruct (Hn dg). }
  destruct r as [v|denial].
  - destruct (GateState.finish _ _ _ _ _ _) as [g' r] eqn:Hf. destruct r; simpl.
    + apply finish_ok_current in Hf as (-> & _). apply negb_false_iff, N.eqb_eq in Hid.
      assert (∀ d2, Desk.with_otp (Desk.logged (Desk.logged d1 (Confirmed id (OpDescriptor.digest sha256 (OtpChallenge.op t)) (Verified.outcome v)))
                  (Revealed id (Some (Outcome.modality (Verified.outcome v))))) d2 =
                Desk.logged (Desk.logged (Desk.with_otp d1 d2) (Confirmed id (OpDescriptor.digest sha256 (OtpChallenge.op t)) (Verified.outcome v)))
                  (Revealed id (Some (Outcome.modality (Verified.outcome v))))) as Hswap by done.
      simpl. rewrite <-Hswap. apply (steady_regate _ _ (Desk.logged (Desk.logged d1 _) _) key t (GateState.Authenticated _) (Some _)).
      * done.
      * intros _ dg _. simpl. exists (Verified.outcome v). split; [|done]. rewrite <-Hid. right. left.
      * eauto with steady.
    + apply finish_err_closed in Hf as [->| ->]; apply Hgate; auto.
  - destruct denial; simpl; try (case_match; auto with steady). apply Hgate. unfold GateState.abort.
    repeat case_match; subst; auto.
Qed.

(** ** Clicks, operations, locks *)

Lemma click_start_steady d d1 click for_ fixed a : steady d d1 → steady d (click_start click for_ fixed a d1).
Proof. intros H. unfold click_start. steady_auto. Qed.

Lemma foldl_steady {A} (f : Desk.t → A → Desk.t) d l d1 :
  (∀ d2 x, steady d d2 → steady d (f d2 x)) → steady d d1 → steady d (foldl f d1 l).
Proof. intros Hf. revert d1. induction l as [|x l IH]; intros d1 H; [done|]. simpl. auto. Qed.

Lemma click_insert_steady d d1 click id protected deadline for_ :
  steady d d1 → steady d (click_insert utc click id protected deadline for_ d1).
Proof.
  intros H. unfold click_insert. apply steady_spawned, steady_logged; [done|].
  apply foldl_steady; [intros d2 ie H2; unfold report_superseded, audit_approval_denied; auto with steady|].
  apply steady_with_pending, foldl_steady; [|done]. intros d2 ie H2. unfold supersede, answer, invalidate_entry. auto with steady.
Qed.

Lemma reap_timeout_steady d d1 id : steady d d1 → steady d (reap_timeout utc id d1).
Proof. intros H. unfold reap_timeout, audit_approval_denied, invalidate_entry. steady_auto. Qed.

Lemma refuse_from_steady d d1 id transport : steady d d1 → steady d (refuse_from utc id transport d1).2.
Proof. intros H. unfold refuse_from, audit_approval_denied, answer, invalidate_entry. steady_auto. Qed.

Lemma settle_steady d d1 id b : steady d d1 → steady d (settle d1 id b).
Proof. intros H. unfold settle, answer. auto with steady. Qed.
#[local] Hint Resolve settle_steady : steady.

Lemma respond_start_steady d d1 id otp : steady d d1 → steady d (respond_start sha256 utc id otp d1).2.
Proof.
  intros H. unfold respond_start, approve_unprotected, record_and_settle, audit_approval_denied, invalidate_entry.
  steady_auto.
Qed.

Lemma respond_finish_steady d d1 id attempt r : steady d d1 → steady d (respond_finish sha256 utc id attempt r d1).2.
Proof. intros H. unfold respond_finish, respond_denied, record_and_settle. steady_auto. Qed.

Lemma clear_pending_steady d d1 drained : steady d d1 → steady d (clear_pending drained d1).
Proof.
  intros H. unfold clear_pending. apply foldl_steady; [|auto with steady]. intros. unfold clear_entry, answer, invalidate_entry. auto with steady.
Qed.
Lemma clear_challenges_steady d d1 drained : steady d d1 → steady d (clear_challenges drained d1).
Proof. intros H. unfold clear_challenges. apply foldl_steady; [|auto with steady]. intros. unfold clear_challenge. auto with steady. Qed.
Lemma clear_ops_steady d d1 drained : steady d d1 → steady d (clear_ops drained d1).
Proof. intros H. unfold clear_ops. apply foldl_steady; [|auto with steady]. intros. unfold clear_op. auto with steady. Qed.

Lemma ops_begin_steady d d1 digest deadline a attempt : steady d d1 → steady d (ops_begin digest deadline a attempt d1).2.
Proof. intros H. unfold ops_begin. steady_auto. Qed.
Lemma ops_retry_steady d d1 digest id attempt : steady d d1 → steady d (ops_retry digest id attempt d1).
Proof. intros H. unfold ops_retry. steady_auto. Qed.
Lemma ops_finish_steady d d1 digest id : steady d d1 → steady d (ops_finish digest id d1).
Proof. intros H. unfold ops_finish. steady_auto. Qed.
#[local] Hint Resolve ops_begin_steady ops_retry_steady ops_finish_steady click_start_steady : steady.

Lemma gate_begin_steady d d1 click epoch attempt a : steady d d1 → steady d (gate_begin sha256 click epoch attempt a d1).2.
Proof.
  intros H. unfold gate_begin. pose proof (ops_begin_steady d d1 (OpDescriptor.digest sha256 (ClickRequest.op click))
    (Desk.now d1 + secs APPROVAL_TIMEOUT_SECS)%N a attempt H) as Ho.
  destruct (ops_begin _ _ _ _ d1) as [r d2]. simpl in Ho. destruct r; [|done]. simpl. case_match; auto with steady.
Qed.
Lemma gate_confirmed_steady d d1 digest op_id epoch outcome : steady d d1 → steady d (gate_confirmed digest op_id epoch outcome d1).2.
Proof. intros H. unfold gate_confirmed, passed. steady_auto. Qed.
Lemma gate_verified_steady d d1 click op_id deadline epoch attempt r :
  steady d d1 → steady d (gate_verified sha256 click op_id deadline epoch attempt r d1).2.
Proof. intros H. unfold gate_verified, passed. steady_auto. Qed.
Lemma consume_steady d d1 pass f denied_event error_event :
  steady d d1 → steady d (let '(outcome, d) := with_gated_handle pass f d1 in record_gated_outcome pass outcome denied_event error_event d).
Proof. intros H. unfold with_gated_handle, record_gated_outcome. steady_auto. Qed.
Lemma post_event_steady d d1 e : steady d d1 → steady d (post_event e d1).
Proof. intros H. unfold post_event. steady_auto. Qed.
Lemma unlock_vault_steady d d1 pass opened : steady d d1 → steady d (unlock_vault utc pass opened d1).2.
Proof. intros H. unfold unlock_vault. steady_auto. Qed.
Lemma rollback_steady d d1 action error : steady d d1 → steady d (rollback_unlock utc action error d1).
Proof. intros H. unfold rollback_unlock. steady_auto. Qed.
End operations.
