(* ===== verification/DesktopInv.v ===== *)
(** * DesktopInv: the invariants of the desktop's state, and that every step keeps them *)
From Stdlib Require Import ZifyN ZifyNat ZifyBool.
From stdpp Require Import pretty.
From S2P Require Import Prelude PresenceOp Gate Coordinator AuditTypes Text Fs Crypto Storage Json Scopes Approvals Clicks DesktopGate DesktopSpec DesktopOtp.

(** The identifier that a task has drawn and not used yet. *)
Definition fresh_id (k : task) : option N :=
  match k with Issuing _ _ id _ => Some id | Clicking _ id _ _ _ => Some id | _ => None end.
Definition fresh_ids (ts : list task) : list N := omap fresh_id ts.

#[export] Instance fresh_ids_perm : Proper (Permutation ==> Permutation) fresh_ids.
Proof. intros l1 l2 H. unfold fresh_ids. by rewrite H. Qed.

(** ** One approval, one request

    How many calls hold the approval or the code [id], or were let through with it. *)
Definition holds (id : N) (k : task) : nat :=
  match k with AwaitingAnswer i (ForAgent _ _) | Checking _ _ (Some i) => if (i =? id)%N then 1 else 0 | _ => 0 end.
Definition held (id : N) (ts : list task) : nat := foldr (λ k n, holds id k + n) 0 ts.
Definition is_grant (id : N) (e : effect) : bool := match e with Granted _ _ (Some i) => (i =? id)%N | _ => false end.
Definition uses (d : Desk.t) (ts : list task) (id : N) : nat := held id ts + occurrences (is_grant id) (Desk.log d).

Lemma held_cons id k ts : held id (k :: ts) = holds id k + held id ts.
Proof. done. Qed.

#[export] Instance held_perm id : Proper (Permutation ==> eq) (held id).
Proof. intros l1 l2 H. induction H; simpl; lia. Qed.

Lemma held_in id k ts : k ∈ ts → holds id k ≤ held id ts.
Proof. intros H. induction ts as [|k' ts IH]; [by apply elem_of_nil in H|]. simpl. apply elem_of_cons in H as [->|H%IH]; lia. Qed.

Record use_inv (d : Desk.t) (ts : list task) : Prop := {
  ui_once id : uses d ts id ≤ 1;
  ui_new id : (Desk.next_id d ≤ id)%N → uses d ts id = 0;
  ui_fresh id : id ∈ fresh_ids ts → uses d ts id = 0;
  ui_stored key c : Desk.otp_pending d !! key = Some c → uses d ts (OtpChallenge.modal_id c) = 0
}.

(** Operations that let nothing through and issue no code. *)
Definition no_grant (e : effect) : bool := match e with Granted _ _ _ => false | _ => true end.

Record frugal (d d' : Desk.t) : Prop := {
  fr_next : (Desk.next_id d ≤ Desk.next_id d')%N;
  fr_log : ∃ l, Desk.log d' = l ++ Desk.log d ∧ forallb no_grant l = true;
  fr_store key c' : Desk.otp_pending d' !! key = Some c' →
    ∃ k c, Desk.otp_pending d !! k = Some c ∧ OtpChallenge.modal_id c' = OtpChallenge.modal_id c
}.

Lemma frugal_trans d1 d2 d3 : frugal d1 d2 → frugal d2 d3 → frugal d1 d3.
Proof.
  intros [N1 (l1 & L1 & G1) S1] [N2 (l2 & L2 & G2) S2]. split; [lia| |].
  - exists (l2 ++ l1). rewrite L2, L1, app_assoc, forallb_app, G1, G2. done.
  - intros key c3 (k2 & c2 & (k1 & c1 & ? & ?)%S1 & ?)%S2. exists k1, c1. split; [done|congruence].
Qed.

Lemma frugal_uses d d' ts id : frugal d d' → uses d' ts id = uses d ts id.
Proof.
  intros [_ (l & Hl & Hg) _]. unfold uses. rewrite Hl, occurrences_app.
  enough (occurrences (is_grant id) l = 0) as -> by done. clear Hl. induction l as [|e l IH]; [done|].
  simpl in Hg. apply andb_true_iff in Hg as [He Hg]. rewrite occurrences_effect_cons, IH by done. by destruct e.
Qed.

Lemma use_frugal d d' ts : frugal d d' → use_inv d ts → use_inv d' ts.
Proof.
  intros Hf [H1 H2 H3 H4]. pose proof Hf as [Hn _ Hs]. split; intros *; rewrite ?(frugal_uses d) by done; auto.
  - intros Hid. apply H2. lia.
  - intros (k0 & c0 & Hc0 & ->)%Hs. by eapply H4.
Qed.

Lemma use_tasks d ts ts' :
  (∀ id, held id ts' ≤ held id ts) → fresh_ids ts' ⊆ fresh_ids ts → use_inv d ts → use_inv d ts'.
Proof.
  intros Hh Hf [H1 H2 H3 H4]. unfold uses in *. split; intros *; unfold uses.
  - specialize (H1 id). specialize (Hh id). lia.
  - intros Hid. specialize (H2 id Hid). specialize (Hh id). lia.
  - intros Hid%Hf. specialize (H3 id Hid). specialize (Hh id). lia.
  - intros Hc. specialize (H4 _ _ Hc). specialize (Hh (OtpChallenge.modal_id c)). lia.
Qed.

Lemma use_tail d k ts : use_inv d (k :: ts) → use_inv d ts.
Proof.
  apply use_tasks; [intros id; rewrite held_cons; lia|]. unfold fresh_ids. simpl. destruct (fresh_id k); set_solver.
Qed.

Lemma frugal_same d d' :
  Desk.next_id d' = Desk.next_id d → Desk.log d' = Desk.log d → Desk.otp_pending d' = Desk.otp_pending d → frugal d d'.
Proof. intros Hn Hl Ho. split; [by rewrite Hn|by exists []|]. rewrite Ho. intros key c Hc. by exists key, c. Qed.

Lemma use_pop d k rest : Desk.tasks d ≡ₚ k :: rest → use_inv d (Desk.tasks d) → use_inv (Desk.with_tasks d rest) (k :: rest).
Proof.
  intros Hp Hi. apply (use_frugal d); [by apply frugal_same|].
  apply (use_tasks d (Desk.tasks d)); [intros id; by rewrite Hp|by rewrite Hp|done].
Qed.

(** A task that neither holds nor draws. *)
Definition idle (k : task) : Prop := fresh_id k = None ∧ ∀ id, holds id k = 0.

Lemma use_idle d d' ts k : frugal d d' → idle k → use_inv d ts → use_inv d' (k :: ts).
Proof.
  intros Hf [Hk Hh] Hi. apply (use_frugal d); [done|]. apply (use_tasks d ts); [intros id; rewrite held_cons, Hh; done| |done].
  unfold fresh_ids. simpl. by rewrite Hk.
Qed.

(** A task that draws the next identifier. *)
Lemma use_fetch d d' ts k :
  frugal d d' → (Desk.next_id d < Desk.next_id d')%N → fresh_id k = Some (Desk.next_id d) → (∀ id, holds id k = 0) →
  use_inv d ts → use_inv d' (k :: ts).
Proof.
  intros Hf Hlt Hk Hh Hi. pose proof (use_frugal _ _ _ Hf Hi) as [H1 H2 H3 H4].
  assert (∀ id, uses d' (k :: ts) id = uses d' ts id) as Hu by (intros id; unfold uses; by rewrite held_cons, Hh).
  split; intros *; rewrite ?Hu; auto; [|by eauto]. unfold fresh_ids. simpl. rewrite Hk. simpl.
  intros [->|Hid]%elem_of_cons; [|by apply H3]. rewrite (frugal_uses d) by done. apply (ui_new _ _ Hi). lia.
Qed.

(** A task that takes an identifier nobody holds. *)
Lemma use_take d d' ts k id :
  frugal d d' → fresh_id k = None → (∀ j, holds j k = if (id =? j)%N then 1 else 0) →
  uses d ts id = 0 → (id < Desk.next_id d)%N → id ∉ fresh_ids ts →
  (∀ key c, Desk.otp_pending d' !! key = Some c → OtpChallenge.modal_id c ≠ id) → use_inv d ts → use_inv d' (k :: ts).
Proof.
  intros Hf Hk Hh Hz Hid Hnf Hst Hi. pose proof (use_frugal _ _ _ Hf Hi) as [H1 H2 H3 H4].
  assert (∀ j, uses d' (k :: ts) j = (if (id =? j)%N then 1 else 0) + uses d' ts j) as Hu
    by (intros j; unfold uses; by rewrite held_cons, Hh, Nat.add_assoc).
  split; intros *; rewrite ?Hu.
  - destruct (N.eqb_spec id id0) as [<-|]; [|apply H1]. by rewrite (frugal_uses d), Hz.
  - intros Hj. destruct (N.eqb_spec id id0) as [<-|]; [|by apply H2]. pose proof (fr_next _ _ Hf). lia.
  - unfold fresh_ids in *. simpl. rewrite Hk. intros Hj. destruct (N.eqb_spec id id0) as [<-|]; [done|]. by apply H3.
  - intros Hc. destruct (N.eqb_spec id (OtpChallenge.modal_id c)) as [E|]; [by destruct (Hst _ _ Hc)|]. by eapply H4.
Qed.

(** A request that holds is let through. *)
Lemma use_grant d ts r e via :
  use_inv d (Checking r e via :: ts) → use_inv (Desk.logged d (Granted r e via)) ts.
Proof.
  assert (∀ id, uses (Desk.logged d (Granted r e via)) ts id = uses d (Checking r e via :: ts) id) as Hu.
  { intros id. unfold uses. rewrite held_cons. simpl. rewrite occurrences_effect_cons. simpl. destruct via as [i|]; simpl;
      [destruct (i =? id)%N|]; lia. }
  intros [H1 H2 H3 H4]. split; intros *; rewrite Hu; [apply H1|apply H2|apply H3|apply H4].
Qed.

(** ** One-time codes *)

Section otp.
Context (sha256 : list N → list N).
Notation steady := (steady sha256).

Definition tries (id : N) (b : bool) (l : list effect) : nat := occurrences (is_try id b) l.

Record chal_ok (d : Desk.t) (key : string) (c : OtpChallenge.t) : Prop := {
  ch_id : (OtpChallenge.modal_id c < Desk.next_id d)%N;
  ch_time : (OtpChallenge.issued_at c ≤ Desk.now d)%N;
  ch_failed : OtpChallenge.failed_attempts c = N.of_nat (tries (OtpChallenge.modal_id c) false (Desk.log d));
  ch_bound : (OtpChallenge.failed_attempts c ≤ OTP_MAX_ATTEMPTS)%N;
  ch_lock : OtpChallenge.failed_attempts c = OTP_MAX_ATTEMPTS →
    ∃ u, OtpChallenge.lockout_until c = Some u ∧ (OtpChallenge.issued_at c + secs OTP_LOCKOUT_SECS ≤ u)%N;
  ch_unused : tries (OtpChallenge.modal_id c) true (Desk.log d) = 0;
  ch_gate : gate_earned sha256 (Desk.log d) c;
  ch_origin : ∃ r, key = request_signature r ∧
    OtpChallenge.op c = OpDescriptor.bind (op_for_access r) "request_id" (pretty (OtpChallenge.modal_id c)) ∧
    OtpChallenge.audit_action c = audit_action_for (AccessRequest.action r) ∧
    Prompted (otp_prompt r (OtpChallenge.modal_id c) (OtpChallenge.code c) (OtpChallenge.protected c)) ∈ Desk.log d
}.

Record otp_inv (d : Desk.t) (ts : list task) : Prop := {
  oi_chal key c : Desk.otp_pending d !! key = Some c → chal_ok d key c;
  oi_unique k1 c1 k2 c2 : Desk.otp_pending d !! k1 = Some c1 → Desk.otp_pending d !! k2 = Some c2 →
    OtpChallenge.modal_id c1 = OtpChallenge.modal_id c2 → k1 = k2;
  oi_bound id : tries id false (Desk.log d) ≤ N.to_nat OTP_MAX_ATTEMPTS ∧ tries id true (Desk.log d) ≤ 1;
  oi_tried id b : 0 < tries id b (Desk.log d) → (id < Desk.next_id d)%N;
  oi_nodup : NoDup (fresh_ids ts);
  oi_fresh id : id ∈ fresh_ids ts → (id < Desk.next_id d)%N ∧ (∀ b, tries id b (Desk.log d) = 0) ∧
    ∀ key c, Desk.otp_pending d !! key = Some c → OtpChallenge.modal_id c ≠ id;
  oi_size : size (Desk.otp_pending d) ≤ OTP_MAX_PENDING
}.

Lemma tries_app id b l1 l2 : tries_none l1 → tries id b (l1 ++ l2) = tries id b l2.
Proof. intros H. unfold tries. by rewrite occurrences_app, (tries_none_try l1). Qed.

Lemma chal_ok_steady d d' key c g o :
  steady d d' → chal_ok d key c → (gate_earned sha256 (Desk.log d) c → gate_earned sha256 (Desk.log d') (regated c g o)) →
  chal_ok d' key (regated c g o).
Proof.
  intros Hs. pose proof (steady_now _ _ _ Hs) as Hn. destruct Hs as [_ Hi (l & Hl & Ht) _]. intros [] Hg. split; simpl; rewrite ?Hl, ?tries_app by done; try done; try lia.
  - rewrite <-Hl. auto.
  - destruct ch_origin0 as (r & ? & ? & ? & ?). exists r. split_and!; [done..|]. set_solver.
Qed.

Lemma otp_inv_steady d d' ts : steady d d' → otp_inv d ts → otp_inv d' ts.
Proof.
  intros Hs [H1 H2 H3 H4 H5 H6 H7]. pose proof Hs as [_ Hi (l & Hl & Ht) Hst]. split.
  - intros key c' Hc'. destruct (Hst key c' Hc') as (c & g & o & Hc & -> & Hg). apply (chal_ok_steady d); auto.
  - intros k1 c1 k2 c2 Hc1 Hc2. destruct (Hst _ _ Hc1) as (c1' & ? & ? & Hc1' & -> & _).
    destruct (Hst _ _ Hc2) as (c2' & ? & ? & Hc2' & -> & _). simpl. eauto.
  - intros id. rewrite Hl, !tries_app by done. auto.
  - intros id b. rewrite Hl, tries_app by done. intros Hp%H4. lia.
  - done.
  - intros id Hid. destruct (H6 id Hid) as (? & Hz & Hne). split_and!; [lia|intros b; by rewrite Hl, tries_app|].
    intros key c' Hc'. destruct (Hst key c' Hc') as (c & g & o & Hc & -> & _). simpl. eauto.
  - apply store_steady_size in Hst. lia.
Qed.

(** ** Tasks *)

Lemma otp_inv_tasks d ts ts' : fresh_ids ts' ⊆+ fresh_ids ts → otp_inv d ts → otp_inv d ts'.
Proof.
  intros Hsub [H1 H2 H3 H4 H5 H6 H7]. split; try done.
  - apply submseteq_Permutation in Hsub as [k Hk]. rewrite Hk in H5. by apply NoDup_app in H5 as [? _].
  - intros id Hid. apply H6. by eapply elem_of_submseteq.
Qed.

Lemma otp_inv_spawn d ts k : fresh_id k = None → otp_inv d ts → otp_inv d (k :: ts).
Proof. intros Hk. apply otp_inv_tasks. unfold fresh_ids. simpl. by rewrite Hk. Qed.

Lemma otp_inv_fetch d d' ts k :
  steady d d' → (Desk.next_id d < Desk.next_id d')%N → fresh_id k = Some (Desk.next_id d) →
  otp_inv d ts → otp_inv d' (k :: ts).
Proof.
  intros Hs Hlt Hk Hi. pose proof (otp_inv_steady _ _ _ Hs Hi) as [H1 H2 H3 H4 H5 H6 H7].
  destruct Hi as [G1 _ _ G4 _ G6 _]. destruct Hs as [_ _ (l & Hl & Ht) Hst]. split; try done; unfold fresh_ids in *; simpl; rewrite Hk; simpl.
  - apply NoDup_cons. split; [|done]. intros Hin. apply G6 in Hin as [? _]. lia.
  - intros id [->|Hin]%elem_of_cons; [|by apply H6]. split_and!; [done| |].
    + intros b. rewrite Hl, tries_app by done. destruct (decide (0 < tries (Desk.next_id d) b (Desk.log d))) as [Hp|]; [|lia].
      apply G4 in Hp. lia.
    + intros key c' Hc'. destruct (Hst key c' Hc') as (c & g & o & Hc & -> & _). simpl. pose proof (ch_id _ _ _ (G1 _ _ Hc)). lia.
Qed.

(** ** Issuing a code *)

Lemma otp_inv_insert d ts r code id protected :
  let c := OtpChallenge.new (Desk.now d) code id protected
             (OpDescriptor.bind (op_for_access r) "request_id" (pretty id)) (audit_action_for (AccessRequest.action r)) in
  Desk.otp_pending d !! request_signature r = None → size (Desk.otp_pending d) < OTP_MAX_PENDING →
  otp_inv d (Issuing r code id protected :: ts) →
  otp_inv (Desk.logged (Desk.with_otp d (<[request_signature r := c]> (Desk.otp_pending d)))
             (Prompted (otp_prompt r id code protected))) ts.
Proof.
  intros c Hnone Hsize [H1 H2 H3 H4 H5 H6 H7]. unfold fresh_ids in H5, H6. simpl in H5, H6. apply NoDup_cons in H5 as [Hn5 H5].
  destruct (H6 id ltac:(left)) as (Hid & Hz & Hne).
  assert (∀ j b, tries j b (Prompted (otp_prompt r id code protected) :: Desk.log d) = tries j b (Desk.log d)) as Hlog
    by (intros; unfold tries; by rewrite occurrences_effect_cons).
  split; simpl.
  - intros key c'. rewrite lookup_insert_Some. intros [[<- <-]|[_ Hc']].
    + split; simpl; rewrite ?Hlog, ?Hz; try done. exists r. split_and!; [done..|]. left.
    + destruct (H1 key c' Hc'). split; simpl; rewrite ?Hlog; try done.
      * eapply gate_earned_mono; [|done]. set_solver.
      * destruct ch_origin0 as (r' & ? & ? & ? & ?). exists r'. split_and!; [done..|]. by right.
  - intros k1 c1 k2 c2. rewrite !lookup_insert_Some. intros [[<- <-]|[_ Hc1]] [[<- <-]|[_ Hc2]] Heq; [done| | |by eauto].
    + by destruct (Hne _ _ Hc2).
    + by destruct (Hne _ _ Hc1).
  - intros j. rewrite !Hlog. auto.
  - intros j b. rewrite !Hlog. apply H4.
  - done.
  - intros j Hj. destruct (H6 j ltac:(by right)) as (? & Hzj & Hnj). split_and!; [done|intros b; by rewrite Hlog|].
    intros key c'. rewrite lookup_insert_Some. intros [[<- <-]|[_ Hc']]; [|by eauto]. simpl. intros ->. done.
  - rewrite map_size_insert_None by done. lia.
Qed.

Lemma invalidate_gate_store d g : Desk.otp_pending (invalidate_gate d g) = Desk.otp_pending d.
Proof. unfold invalidate_gate. by case_match. Qed.

Lemma otp_inv_fresh_insert d ts r code id protected :
  otp_inv d (Issuing r code id protected :: ts) → otp_inv (fresh_insert r code id protected d).2 ts.
Proof.
  intros H. assert (otp_inv d ts) as H0 by (eapply otp_inv_tasks; [|done]; unfold fresh_ids; simpl; by apply submseteq_cons).
  unfold fresh_insert. case_match; simpl; [eapply otp_inv_steady; [|done]; apply steady_fewer; [apply prune_sub|apply steady_refl]|].
  set (d1 := Desk.with_otp d _). assert (steady d1 (remove_challenge d1 (request_signature r))) as Hr.
  { unfold remove_challenge. case_match; [|apply steady_refl]. apply steady_logged; [done|]. apply steady_fewer; [apply delete_subseteq|].
    apply invalidate_gate_steady, steady_refl. }
  apply otp_inv_insert.
  - unfold remove_challenge. case_match eqn:E; [|done]. simpl. by rewrite lookup_delete_eq.
  - match goal with Hb : negb (can_admit_challenge _ _) = false |- _ => apply negb_false_iff in Hb; rename Hb into Hadm end.
    fold d1 in Hadm. unfold can_admit_challenge in Hadm. unfold remove_challenge.
    destruct (Desk.otp_pending d1 !! request_signature r) as [old|] eqn:E.
    + simpl. rewrite map_size_delete_Some by (by eexists; rewrite invalidate_gate_store). rewrite invalidate_gate_store.
      pose proof (oi_size _ _ H0) as Hs0. assert (size (Desk.otp_pending d1) ≤ OTP_MAX_PENDING).
      { etrans; [|exact Hs0]. rewrite <-!size_dom. apply subseteq_size, subseteq_dom, prune_sub. }
      assert (size (Desk.otp_pending d1) ≠ 0) by (intros Hz%map_size_empty_inv; by rewrite Hz in E). unfold OTP_MAX_PENDING in *. lia.
    + destruct (bool_decide (is_Some _)) eqn:Hb in Hadm; [|by apply bool_decide_eq_true in Hadm].
      apply bool_decide_eq_true in Hb as [? Hb]. unfold d1 in E. simpl in *. congruence.
  - eapply otp_inv_steady; [exact Hr|]. eapply otp_inv_steady; [|done]. apply steady_fewer; [apply prune_sub|apply steady_refl].
Qed.

(** ** Trying a code *)

Lemma tries_cons id b i a l : tries id b (Tried i a :: l) = (if (i =? id)%N && Bool.eqb a b then 1 else 0) + tries id b l.
Proof. unfold tries. by rewrite occurrences_effect_cons. Qed.

(** Another challenge does not notice. *)
Lemma chal_ok_tried d key c m i a :
  OtpChallenge.modal_id c ≠ i → chal_ok d key c → chal_ok (Desk.logged (Desk.with_otp d m) (Tried i a)) key c.
Proof.
  intros Hne []. assert ((i =? OtpChallenge.modal_id c)%N = false) as Hf by (apply N.eqb_neq; congruence).
  split; simpl; rewrite ?tries_cons, ?Hf; simpl; try done.
  - eapply gate_earned_mono; [|done]. set_solver.
  - destruct ch_origin0 as (r & ? & ? & ? & ?). exists r. split_and!; [done..|]. by right.
Qed.

(** The counts after one challenge was tried. *)
Lemma tried_rest d ts key c (a : bool) m :
  otp_inv d ts → Desk.otp_pending d !! key = Some c →
  (∀ k c', m !! k = Some c' → (k = key ∧ OtpChallenge.modal_id c' = OtpChallenge.modal_id c) ∨ (k ≠ key ∧ Desk.otp_pending d !! k = Some c')) →
  (if a then True else tries (OtpChallenge.modal_id c) false (Desk.log d) < N.to_nat OTP_MAX_ATTEMPTS) →
  (∀ c', m !! key = Some c' → chal_ok (Desk.logged (Desk.with_otp d m) (Tried (OtpChallenge.modal_id c) a)) key c') →
  otp_inv (Desk.logged (Desk.with_otp d m) (Tried (OtpChallenge.modal_id c) a)) ts.
Proof.
  intros [H1 H2 H3 H4 H5 H6 H7] Hc Hm Ha Hok. pose proof (H1 _ _ Hc) as [Hid _ _ _ _ Hun _ _].
  assert (∀ k c', k ≠ key → Desk.otp_pending d !! k = Some c' → OtpChallenge.modal_id c' ≠ OtpChallenge.modal_id c) as Hdiff
    by (intros k c' Hk Hc' E; apply Hk; by eapply H2).
  split.
  - intros k c' Hc'. destruct (Hm k c' Hc') as [[-> _]|[Hk Hd]]; [by apply Hok|].
    apply chal_ok_tried; [by eauto|by apply H1].
  - intros k1 c1 k2 c2 Hc1 Hc2 E. destruct (Hm _ _ Hc1) as [[-> E1]|[Hk1 Hd1]], (Hm _ _ Hc2) as [[-> E2]|[Hk2 Hd2]]; [done| | |by eauto].
    + destruct (Hdiff _ _ Hk2 Hd2). congruence.
    + destruct (Hdiff _ _ Hk1 Hd1). congruence.
  - intros j. simpl. rewrite !tries_cons. destruct (H3 j). destruct (N.eqb_spec (OtpChallenge.modal_id c) j) as [<-|]; simpl; [|done].
    rewrite ?Hun in *. destruct a; simpl; lia.
  - intros j b. simpl. rewrite tries_cons. destruct (N.eqb_spec (OtpChallenge.modal_id c) j) as [<-|]; [done|]. simpl. apply H4.
  - done.
  - intros j Hj. destruct (H6 j Hj) as (? & Hz & Hne). split_and!; [done| |].
    + intros b. simpl. rewrite tries_cons, Hz. destruct (N.eqb_spec (OtpChallenge.modal_id c) j) as [E|]; [|done]. by destruct (Hne _ _ Hc).
    + intros k c' Hc'. simpl in Hc'. destruct (Hm _ _ Hc') as [[-> E]|[_ Hd]]; [rewrite E|]; eauto.
  - etrans; [|exact H7]. rewrite <-!size_dom. apply subseteq_size. intros k [c' Hc']%elem_of_dom. apply elem_of_dom.
    simpl in Hc'. destruct (Hm _ _ Hc') as [[-> _]|[_ Hd]]; by eexists.
Qed.

(** A challenge that can be tried has a try left. *)
Lemma try_left d key c :
  chal_ok d key c → OtpChallenge.is_locked_out c (Desk.now d) = false → OtpChallenge.is_expired c (Desk.now d) = false →
  (OtpChallenge.failed_attempts c < OTP_MAX_ATTEMPTS)%N.
Proof.
  intros [_ Ht _ Hb Hl _ _ _] Hlo Hex. destruct (N.eq_dec (OtpChallenge.failed_attempts c) OTP_MAX_ATTEMPTS) as [E|]; [|lia].
  destruct (Hl E) as (u & Hu & Hge). unfold OtpChallenge.is_locked_out in Hlo. rewrite Hu in Hlo. apply N.ltb_ge in Hlo.
  unfold OtpChallenge.is_expired in Hex. apply N.ltb_ge in Hex. change (secs OTP_LOCKOUT_SECS) with 300000000000%N in Hge.
  change (secs OTP_TTL_SECS) with 120000000000%N in Hex. lia.
Qed.

Lemma record_failure_fields c now c' b :
  OtpChallenge.record_failure c now = (c', b) →
  c' = OtpChallenge.mk (OtpChallenge.code c) (OtpChallenge.modal_id c) (OtpChallenge.issued_at c)
         (N.min (OtpChallenge.failed_attempts c + 1) 255)
         (if (OTP_MAX_ATTEMPTS <=? N.min (OtpChallenge.failed_attempts c + 1) 255)%N then Some (now + secs OTP_LOCKOUT_SECS)%N
          else OtpChallenge.lockout_until c)
         (OtpChallenge.protected c) (OtpChallenge.gate c) (OtpChallenge.op c) (OtpChallenge.audit_action c)
         (OtpChallenge.revealed_modality c).
Proof. unfold OtpChallenge.record_failure. case_match; by intros [= <- _]. Qed.

Lemma record_failure_modal c now : OtpChallenge.modal_id (OtpChallenge.record_failure c now).1 = OtpChallenge.modal_id c.
Proof. destruct (OtpChallenge.record_failure c now) eqn:E. by apply record_failure_fields in E as ->. Qed.

Lemma otp_inv_failure d ts key c :
  otp_inv d ts → Desk.otp_pending d !! key = Some c →
  OtpChallenge.is_locked_out c (Desk.now d) = false → OtpChallenge.is_expired c (Desk.now d) = false →
  otp_inv (Desk.logged (Desk.with_otp d (<[key := (OtpChallenge.record_failure c (Desk.now d)).1]> (Desk.otp_pending d)))
             (Tried (OtpChallenge.modal_id c) false)) ts.
Proof.
  intros Hi Hc Hlo Hex. pose proof (oi_chal _ _ Hi _ _ Hc) as Hok. pose proof (try_left _ _ _ Hok Hlo Hex) as Hleft.
  destruct (OtpChallenge.record_failure c (Desk.now d)) as [c' b] eqn:Hr. apply record_failure_fields in Hr as ->. simpl.
  pose proof Hok as []. assert (N.min (OtpChallenge.failed_attempts c + 1) 255 = OtpChallenge.failed_attempts c + 1)%N as ->
    by (unfold OTP_MAX_ATTEMPTS in *; lia).
  apply (tried_rest _ _ key); [done..| | |].
  - intros k c'. rewrite lookup_insert_Some. intros [[<- <-]|[Hk Hc']]; [by left|by right].
  - simpl. unfold OTP_MAX_ATTEMPTS in *. lia.
  - intros c'. rewrite lookup_insert_eq. intros [= <-].
    split; simpl OtpChallenge.modal_id; simpl Desk.log; rewrite ?tries_cons, ?N.eqb_refl; simpl Bool.eqb; cbn [andb]; try done; simpl.
    + rewrite ch_failed0. lia.
    + lia.
    + intros ->. rewrite N.leb_refl. eexists. split; [done|]. change (secs OTP_LOCKOUT_SECS) with 300000000000%N. lia.
    + eapply gate_earned_mono; [|exact ch_gate0]. set_solver.
    + destruct ch_origin0 as (r & ? & ? & ? & ?). exists r. split_and!; [done..|]. by right.
Qed.

Lemma otp_inv_accept d ts key c :
  otp_inv d ts → Desk.otp_pending d !! key = Some c →
  otp_inv (Desk.logged (Desk.with_otp d (delete key (Desk.otp_pending d))) (Tried (OtpChallenge.modal_id c) true)) ts.
Proof.
  intros Hi Hc. apply (tried_rest _ _ key); [done..| |done|].
  - intros k c'. rewrite lookup_delete_Some. intros [? ?]. by right.
  - intros c'. by rewrite lookup_delete_eq.
Qed.

(** ** [handle_otp] *)

Context (utc : Instant → Z).

(** What the log shows for a request that was let through with the one-time code [id]: the code
    was made for a request with the same signature, the desktop was asked to show it or to
    reveal it, for a protected challenge there was a verification of that very request, and the
    record of it was offered to the audit log. *)
Definition otp_evidence (l : list effect) (r : AccessRequest.t) (id : N) : Prop :=
  ∃ code protected r' t p kept,
    request_signature r' = request_signature r ∧ AccessRequest.otp r = Some code ∧
    Prompted (otp_prompt r' id code protected) ∈ l ∧ Tried id true ∈ l ∧
    Recorded (allowed_record t (audit_action_for (AccessRequest.action r')) p (otp_operation id)) kept ∈ l ∧
    if protected : bool
    then ∃ o, Confirmed id (OpDescriptor.digest sha256 (OpDescriptor.bind (op_for_access r') "request_id" (pretty id))) o ∈ l ∧
              p = PresenceAudit.authenticated (audit_modality (Outcome.modality o))
    else p = PresenceAudit.denied false.

Lemma validate_true c now supplied :
  OtpChallenge.validate sha256 c now supplied = true →
  supplied = OtpChallenge.code c ∧
  (OtpChallenge.protected c = true →
     OtpChallenge.gate c = GateState.Authenticated (OpDescriptor.digest sha256 (OtpChallenge.op c))).
Proof.
  unfold OtpChallenge.validate. case_match; [done|]. case_match eqn:Hg; [done|]. intros ->%bool_decide_eq_true%str_bytes_inj.
  split; [done|]. intros Hp. rewrite Hp in Hg. simpl in Hg. apply negb_false_iff in Hg. unfold GateState.is_authenticated_for in Hg.
  case_match; try done. by apply bool_decide_eq_true in Hg as ->.
Qed.

(** The ways a request can go. *)
Lemma process_otp_cases now existing otp r chal :
  process_otp_request sha256 now existing otp = (r, chal) →
  (∃ c, existing = Some c ∧ OtpChallenge.is_locked_out c now = true ∧ r = OtpProcessResult.LockedOut ∧ chal = Some c) ∨
  (r = OtpProcessResult.Expired ∧ chal = None) ∨
  (existing = None ∧ r = OtpProcessResult.NeedFresh ∧ chal = None) ∨
  (∃ c, existing = Some c ∧ OtpChallenge.is_locked_out c now = false ∧ OtpChallenge.is_expired c now = false ∧
     ((r = OtpProcessResult.NeedFresh ∧ chal = Some c) ∨
      (∃ code, otp = Some code ∧ OtpChallenge.validate sha256 c now code = true ∧
         r = OtpProcessResult.Accepted (OtpChallenge.modal_id c) ∧ chal = None) ∨
      (∃ code, otp = Some code ∧ OtpChallenge.validate sha256 c now code = false ∧
         r = OtpProcessResult.Invalid ∧ chal = Some (OtpChallenge.record_failure c now).1))).
Proof. unfold process_otp_request. repeat case_match; intros [= <- <-]; subst; naive_solver. Qed.

Lemma accept_otp_inv d ts key c :
  otp_inv d ts → Desk.otp_pending d !! key = Some c → otp_inv (accept_otp utc d key c).2 ts.
Proof.
  intros Hi Hc. unfold accept_otp. case_match; [|done]. simpl. eapply otp_inv_steady; [|by apply (otp_inv_accept d ts key c)].
  auto with steady.
Qed.

Lemma accept_otp_evidence d d' r key c code now :
  chal_ok d key c → key = request_signature r → AccessRequest.otp r = Some code →
  OtpChallenge.validate sha256 c now code = true →
  accept_otp utc d key c = (Reply (Ok tt), d') →
  Desk.unlocked d = true ∧ otp_evidence (Desk.log d') r (OtpChallenge.modal_id c).
Proof.
  intros Hok -> Ho Hv. apply validate_true in Hv as [-> Hauth]. destruct Hok as [_ _ _ _ _ _ Hg (r' & Hs & Hop & Ha & Hp)].
  unfold accept_otp. case_match eqn:Hu; [|done]. intros [= <-]. split; [done|].
  exists (OtpChallenge.code c), (OtpChallenge.protected c), r'. rewrite <-Ha, <-Hop.
  eexists _, _, _. split_and!; [done|done|simpl; set_solver|simpl; set_solver|simpl; right; left|].
  destruct (OtpChallenge.protected c); [|done]. destruct (Hg _ (Hauth eq_refl)) as (o & Hcf & Hm). exists o.
  split; [simpl; set_solver|]. by rewrite Hm.
Qed.

Lemma refuse_otp_steady d key c' modal :
  steady (Desk.logged (Desk.with_otp d (<[key := c']> (Desk.otp_pending d))) (Tried modal false))
    (refuse_otp utc (Desk.logged d (Tried modal false)) key c').2.
Proof.
  set (d1 := Desk.logged (Desk.with_otp d _) _).
  assert (Desk.otp_pending d1 !! key = Some c') as Hc' by apply lookup_insert_eq. unfold refuse_otp. simpl.
  assert (∀ d2, steady d1 d2 → steady d1 (if OtpChallenge.protected c' then audit_otp_denied utc d2 c' "otp invalid code" else d2)) as Hd.
  { intros d2 H2. unfold audit_otp_denied. case_match; [by apply audit_denied_steady|done]. }
  apply Hd. clear Hd. destruct (OtpChallenge.is_locked_out c' _); [|exact (steady_refl _ d1)].
  apply steady_logged; [done|]. set (d0 := Desk.logged d _). set (g := OtpChallenge.gate c').
  replace (Desk.with_otp (invalidate_gate d0 g) _) with
    (Desk.with_otp (invalidate_gate d1 g) (<[key := OtpChallenge.with_gate c' (GateState.reset g)]> (Desk.otp_pending (invalidate_gate d1 g)))).
  - apply steady_close; [|done|apply invalidate_gate_steady, steady_refl]. unfold invalidate_gate. by case_match.
  - unfold invalidate_gate, d1, d0. case_match; unfold Desk.with_otp, Desk.with_presence, Desk.logged; simpl; by rewrite insert_insert_eq.
Qed.

Lemma refuse_otp_inv d ts key c :
  otp_inv d ts → Desk.otp_pending d !! key = Some c →
  OtpChallenge.is_locked_out c (Desk.now d) = false → OtpChallenge.is_expired c (Desk.now d) = false →
  otp_inv (refuse_otp utc (Desk.logged d (Tried (OtpChallenge.modal_id c) false)) key
             (OtpChallenge.record_failure c (Desk.now d)).1).2 ts.
Proof.
  intros Hi Hc Hlo Hex. eapply otp_inv_steady; [apply refuse_otp_steady|by apply otp_inv_failure].
Qed.

(** [handle_otp] after pruning. *)
Definition handle_pruned (r : AccessRequest.t) (d : Desk.t) : turn * Desk.t :=
  let key := request_signature r in
  let store := Desk.otp_pending d in
  if negb (can_admit_challenge store key) then (Reply (Err otp_required), d)
  else
    let existing := store !! key in
    match process_otp_request sha256 (Desk.now d) existing (AccessRequest.otp r), existing with
    | (OtpProcessResult.Accepted _, _), Some removed => accept_otp utc d key removed
    | (OtpProcessResult.Accepted _, _), None => (IssueFresh, d)
    | (OtpProcessResult.NeedFresh, Some chal), _ => reuse_otp d r key (OtpChallenge.modal_id <$> existing) chal
    | (OtpProcessResult.NeedFresh, None), _ => (IssueFresh, d)
    | (OtpProcessResult.LockedOut, chal), _ =>
        (Reply (Err otp_too_many),
         match chal with
         | Some c => if OtpChallenge.protected c then audit_otp_denied utc d c "otp lockout" else d
         | None => d
         end)
    | (OtpProcessResult.Invalid, Some chal), _ =>
        refuse_otp utc (Desk.logged d (Tried (OtpChallenge.modal_id chal) false)) key chal
    | (OtpProcessResult.Invalid, None), _ => (Reply (Err "otp_required: invalid code"), d)
    | (OtpProcessResult.Expired, _), _ => (IssueFresh, Desk.with_otp d (delete key store))
    end.

Lemma handle_otp_pruned r d :
  handle_otp sha256 utc r d = handle_pruned r (Desk.with_otp d (prune_expired (Desk.now d) (Desk.otp_pending d))).
Proof. done. Qed.

Lemma pruned_inv d ts : otp_inv d ts → otp_inv (Desk.with_otp d (prune_expired (Desk.now d) (Desk.otp_pending d))) ts.
Proof. apply otp_inv_steady, steady_fewer; [apply prune_sub|apply steady_refl]. Qed.

Lemma reuse_otp_steady d r key c : Desk.otp_pending d !! key = Some c →
  steady d (reuse_otp d r key (OtpChallenge.modal_id <$> Some c) c).2.
Proof.
  intros Hc. unfold reuse_otp. rewrite bool_decide_eq_true_2 by done. simpl. apply steady_fewer; [by rewrite insert_id|apply steady_refl].
Qed.

Lemma handle_otp_inv d ts r : otp_inv d ts → otp_inv (handle_otp sha256 utc r d).2 ts.
Proof.
  intros H0%pruned_inv. rewrite handle_otp_pruned. revert H0. generalize (Desk.with_otp d (prune_expired (Desk.now d) (Desk.otp_pending d))).
  intros d1 Hi. unfold handle_pruned. case_match; [done|].
  destruct (process_otp_request _ _ _ _) as [res chal] eqn:Hp.
  apply process_otp_cases in Hp as [(c & Hc & _ & -> & ->)|[[-> ->]|[(_ & -> & ->)|(c & Hc & Hlo & Hex & Hcases)]]]; simpl.
  - eapply otp_inv_steady; [|done]. unfold audit_otp_denied. case_match; [apply audit_denied_steady|]; apply steady_refl.
  - eapply otp_inv_steady; [|done]. apply steady_fewer; [apply delete_subseteq|apply steady_refl].
  - done.
  - destruct Hcases as [[-> ->]|[(code & _ & _ & -> & ->)|(code & _ & _ & -> & ->)]].
    + rewrite Hc. eapply otp_inv_steady; [by apply reuse_otp_steady|done].
    + rewrite Hc. by apply accept_otp_inv.
    + rewrite record_failure_modal. by apply refuse_otp_inv.
Qed.

(** A positive answer is that of [accept_otp] for the stored challenge. *)
Lemma handle_otp_accepts d ts r d' :
  otp_inv d ts → handle_otp sha256 utc r d = (Reply (Ok tt), d') →
  ∃ c d1, Desk.otp_pending d !! request_signature r = Some c ∧ steady d d1 ∧ otp_inv d1 ts ∧ Desk.unlocked d1 = Desk.unlocked d ∧
    Desk.otp_pending d1 !! request_signature r = Some c ∧ accept_otp utc d1 (request_signature r) c = (Reply (Ok tt), d') ∧
    ∃ code, AccessRequest.otp r = Some code ∧ OtpChallenge.validate sha256 c (Desk.now d1) code = true.
Proof.
  intros H0. rewrite handle_otp_pruned. set (d1 := Desk.with_otp d _).
  assert (steady d d1) as Hs by (apply steady_fewer; [apply prune_sub|apply steady_refl]).
  assert (otp_inv d1 ts) as Hi by by apply pruned_inv.
  assert (∀ c, Desk.otp_pending d1 !! request_signature r = Some c → Desk.otp_pending d !! request_signature r = Some c) as Hsub
    by (intros c Hc; eapply lookup_weaken; [exact Hc|apply prune_sub]).
  assert (Desk.unlocked d1 = Desk.unlocked d) as Hu by done. clearbody d1.
  unfold handle_pruned. case_match; [done|].
  destruct (process_otp_request _ _ _ _) as [res chal] eqn:Hp.
  apply process_otp_cases in Hp as [(c & Hc & _ & -> & ->)|[[-> ->]|[(_ & -> & ->)|(c & Hc & Hlo & Hex & Hcases)]]]; [done..|].
  destruct Hcases as [[-> ->]|[(code & Ho & Hv & -> & ->)|(code & _ & _ & -> & ->)]].
  - unfold reuse_otp. by case_match.
  - rewrite Hc. intros Ha. exists c, d1. split_and!; try done; [by apply Hsub|by exists code].
  - unfold refuse_otp. done.
Qed.

Lemma handle_otp_evidence d ts r d' :
  otp_inv d ts → handle_otp sha256 utc r d = (Reply (Ok tt), d') →
  Desk.unlocked d = true ∧ ∃ c, Desk.otp_pending d !! request_signature r = Some c ∧
    otp_evidence (Desk.log d') r (OtpChallenge.modal_id c).
Proof.
  intros Hi Hh. destruct (handle_otp_accepts d ts r d' Hi Hh) as (c & d1 & Hc0 & _ & Hi1 & <- & Hc & Ha & code & Ho & Hv).
  destruct (accept_otp_evidence d1 d' r (request_signature r) c code (Desk.now d1)) as [Hu Hev]; try done.
  { by apply (oi_chal _ _ Hi1). }
  split; [done|]. by exists c.
Qed.

Lemma steady_frugal d d' : steady d d' → frugal d d'.
Proof.
  intros [_ Hn (l & Hl & Ht) Hs]. split; [done| |].
  - exists l. split; [done|]. clear Hl. induction l as [|e l IH]; [done|]. unfold tries_none in Ht. simpl in Ht |- *.
    apply andb_true_iff in Ht as [He Ht]. apply andb_true_iff. split; [by destruct e|by apply IH].
  - intros key c' Hc'. destruct (Hs key c' Hc') as (c & g & o & Hc & -> & _). by exists key, c.
Qed.

Lemma otp_inv_logged d e ts :
  (∀ id b, is_try id b e = false) → otp_inv d ts → otp_inv (Desk.logged d e) ts.
Proof.
  intros He [H1 H2 H3 H4 H5 H6 H7].
  assert (∀ id b, tries id b (e :: Desk.log d) = tries id b (Desk.log d)) as Ht
    by (intros; unfold tries; by rewrite occurrences_effect_cons, He).
  split; simpl; try done.
  - intros key c Hc. destruct (H1 key c Hc). split; simpl; rewrite ?Ht; try done.
    + eapply gate_earned_mono; [|done]. set_solver.
    + destruct ch_origin0 as (r & ? & ? & ? & ?). exists r. split_and!; [done..|]. by right.
  - intros id. rewrite !Ht. apply H3.
  - intros id b. rewrite Ht. apply H4.
  - intros id Hid. destruct (H6 id Hid) as (? & ? & ?). split_and!; [done|intros b; by rewrite Ht|done].
Qed.

(** [handle_otp] lets nothing through by itself. *)
Lemma handle_otp_frugal d r : frugal d (handle_otp sha256 utc r d).2.
Proof.
  rewrite handle_otp_pruned. set (d1 := Desk.with_otp d _).
  assert (frugal d d1) as Hs by (apply steady_frugal, steady_fewer; [apply prune_sub|apply steady_refl]).
  eapply frugal_trans; [exact Hs|]. clear Hs. clearbody d1. clear d.
  assert (frugal d1 d1) as Hrefl by apply steady_frugal, steady_refl.
  unfold handle_pruned. case_match; [done|].
  destruct (process_otp_request _ _ _ _) as [res chal] eqn:Hp.
  apply process_otp_cases in Hp as [(c & Hc & _ & -> & ->)|[[-> ->]|[(_ & -> & ->)|(c & Hc & Hlo & Hex & Hcases)]]]; simpl.
  - apply steady_frugal. unfold audit_otp_denied. case_match; [apply audit_denied_steady|]; apply steady_refl.
  - apply steady_frugal, steady_fewer; [apply delete_subseteq|apply steady_refl].
  - done.
  - destruct Hcases as [[-> ->]|[(code & _ & _ & -> & ->)|(code & _ & _ & -> & ->)]].
    + rewrite Hc. by apply steady_frugal, reuse_otp_steady.
    + rewrite Hc. unfold accept_otp. case_match; [|done]. simpl.
      apply (frugal_trans _ (Desk.logged (Desk.with_otp d1 (delete (request_signature r) (Desk.otp_pending d1)))
        (Tried (OtpChallenge.modal_id c) true))); [|apply steady_frugal; auto with steady].
      split; [simpl; lia|by exists [Tried (OtpChallenge.modal_id c) true]|].
      intros key c'. simpl. rewrite lookup_delete_Some. intros [_ ?]. by exists key, c'.
    + rewrite record_failure_modal. eapply frugal_trans; [|apply steady_frugal, refuse_otp_steady].
      split; [simpl; lia|by exists [Tried (OtpChallenge.modal_id c) false]|].
      intros key c'. simpl. rewrite lookup_insert_Some. intros [[<- <-]|[_ Hc']]; [|by exists key, c'].
      exists (request_signature r), c. by rewrite record_failure_modal.
Qed.
End otp.

(** ** Clicks *)

Section clicks.
Context (sha256 : list N → list N).
Notation calm := (calm sha256).

Definition bound_op (op : OpDescriptor.t) (id : N) : OpDescriptor.t := OpDescriptor.bind op "request_id" (pretty id).

Definition click_evidence (l : list effect) (id : N) (click : ClickRequest.t) (protected : bool) : Prop :=
  recorded_approval sha256 l id protected (bound_op (ClickRequest.op click) id) (ClickRequest.audit_action click) ∨
  (protected = false ∧ ClickRequest.pre_unlock click = true).

(** What the log shows for a request that was let through with the click [id]. *)
Definition click_granted (l : list effect) (r : AccessRequest.t) (id : N) : Prop :=
  ∃ protected, Prompted (click_prompt (ClickRequest.from_access r) id protected) ∈ l ∧ Answered id true ∈ l ∧
    recorded_approval sha256 l id protected (bound_op (op_for_access r) id) (audit_action_for (AccessRequest.action r)).

Record waiting_core (d : Desk.t) (id : N) (click : ClickRequest.t) (protected : bool) : Prop := {
  wc_id : (id < Desk.next_id d)%N;
  wc_entry : ∃ deadline, ∀ e, Desk.pending d !! id = Some e → ∃ g, e = PendingApproval.with_gate (click_entry click id protected deadline) g;
  wc_answered : Answered id true ∈ Desk.log d → click_evidence (Desk.log d) id click protected
}.

Definition purpose_ok (d : Desk.t) (click : ClickRequest.t) (protected : bool) (for_ : purpose) : Prop :=
  match for_ with
  | ForAgent r e => click = ClickRequest.from_access r ∧ approval_requirement r = Ok ApprovalPromptKind.Click ∧ (e ≤ Desk.epoch d)%N
  | ForGate dg _ _ => protected = false ∧ OpDescriptor.digest sha256 (ClickRequest.op click) = dg
  end.

(** The session in which an agent's request was answered is the one it was asked in, as long
    as the epoch has not moved. *)
Definition session_ok (d : Desk.t) (id : N) (for_ : purpose) : Prop :=
  match for_ with
  | ForAgent _ e => Answered id true ∈ Desk.log d → Desk.epoch d = e → Desk.unlocked d = true
  | ForGate _ _ _ => True
  end.

Definition granted_ok (d : Desk.t) (r : AccessRequest.t) (e : N) (via : option N) : Prop :=
  match approval_requirement r, via with
  | Ok ApprovalPromptKind.NotRequired, None => True
  | Ok ApprovalPromptKind.Click, Some id => (Desk.epoch d = e → Desk.unlocked d = true) ∧ click_granted (Desk.log d) r id
  | Ok ApprovalPromptKind.Otp, Some id => (Desk.epoch d = e → Desk.unlocked d = true) ∧ otp_evidence sha256 (Desk.log d) r id
  | _, _ => False
  end.

Definition task_ok (d : Desk.t) (k : task) : Prop :=
  match k with
  | Asked _ e => (e ≤ Desk.epoch d)%N
  | Checking r e via => (e ≤ Desk.epoch d)%N ∧ granted_ok d r e via
  | Clicking click _ protected _ for_ => purpose_ok d click protected for_
  | AwaitingAnswer id for_ => ∃ click protected, purpose_ok d click protected for_ ∧ waiting_core d id click protected ∧
      Prompted (click_prompt click id protected) ∈ Desk.log d ∧ session_ok d id for_
  | HoldingPass pass => Passed pass ∈ Desk.log d
  | _ => True
  end.

Record click_inv (d : Desk.t) (ts : list task) : Prop := {
  ci_tasks k : k ∈ ts → task_ok d k;
  ci_fresh id : id ∈ fresh_ids ts → Desk.pending d !! id = None ∧ occurrences (is_answer id) (Desk.log d) = 0 ∧
    ∀ p, AwaitingAnswer id p ∉ ts;
  ci_pending id e : Desk.pending d !! id = Some e → (id < Desk.next_id d)%N;
  ci_once id : occurrences (is_answer id) (Desk.log d) ≤ 1;
  ci_answers id : 0 < occurrences (is_answer id) (Desk.log d) → Desk.pending d !! id = None ∧ (id < Desk.next_id d)%N
}.

Lemma answered_counts id b l : Answered id b ∈ l → 0 < occurrences (is_answer id) l.
Proof. intros H. apply occurrences_pos. exists (Answered id b). split; [done|]. simpl. apply N.eqb_refl. Qed.

Lemma click_evidence_mono l l' id click b : l ⊆ l' → click_evidence l id click b → click_evidence l' id click b.
Proof. intros Hl [H|H]; [left; by eapply recorded_approval_mono|by right]. Qed.

Lemma otp_evidence_mono l l' r id : l ⊆ l' → otp_evidence sha256 l r id → otp_evidence sha256 l' r id.
Proof.
  intros Hl (code & b & r' & t & p & kept & ? & ? & ? & ? & ? & H). exists code, b, r', t, p, kept. split_and!; auto.
  destruct b; [|done]. destruct H as (o & ? & ?). exists o. auto.
Qed.

Lemma click_granted_mono l l' r id : l ⊆ l' → click_granted l r id → click_granted l' r id.
Proof.
  intros Hl (b & ? & ? & ?). exists b. split_and!; auto. by eapply recorded_approval_mono.
Qed.

(** What is approved in a calm step was pending. *)
Lemma calm_answered d d' id click b :
  calm d d' → waiting_core d id click b → Answered id true ∈ Desk.log d' →
  Answered id true ∈ Desk.log d ∨
  (click_evidence (Desk.log d') id click b ∧ (Desk.unlocked d = true ∨ ClickRequest.pre_unlock click = true)).
Proof.
  intros [_ _ _ _ _ (l & Hl & [_ _ Hev])] [_ [dl Hent] _]. rewrite Hl, elem_of_app. intros [Hin|Hin]; [|by left]. right.
  destruct (Hev id Hin) as (e & He & Happ). destruct (Hent e He) as [g ->]. unfold approval_evidence in Happ. simpl in Happ.
  destruct (Desk.unlocked d) eqn:Hu.
  - split; [|by left]. left. eapply recorded_approval_mono; [|exact Happ]. set_solver.
  - destruct Happ as [Hp Hpre]. split; [by right|by right].
Qed.

Lemma calm_log_mono d d' : calm d d' → Desk.log d ⊆ Desk.log d'.
Proof. intros [_ _ _ _ _ (l & -> & _)]. set_solver. Qed.

Lemma waiting_core_calm d d' id click b : calm d d' → waiting_core d id click b → waiting_core d' id click b.
Proof.
  intros Hc Hw. pose proof (calm_log_mono _ _ Hc) as Hmono. pose proof (calm_answered _ _ _ _ _ Hc Hw) as Hans.
  destruct Hc as [_ _ _ Hn Hp _], Hw as [Hid [dl Hent] Hev]. split; [lia| |].
  - exists dl. intros e' He'. apply Hp in He' as (e & g & He & ->). destruct (Hent e He) as [g' ->]. by exists g.
  - intros Ha. destruct (Hans Ha) as [Hold|[? _]]; [|done]. eapply click_evidence_mono; [exact Hmono|auto].
Qed.

Lemma task_ok_calm d d' k : calm d d' → task_ok d k → task_ok d' k.
Proof.
  intros Hc. pose proof (calm_log_mono _ _ Hc) as Hmono. pose proof (calm_epoch _ _ _ Hc) as He. pose proof (calm_unlocked _ _ _ Hc) as Hu.
  destruct k; simpl; rewrite ?He; try done; [| | |by auto].
  - unfold granted_ok. rewrite He, Hu. intros [? Hg]. split; [done|]. repeat case_match; try done; destruct Hg as [? Hg];
      (split; [done|]); [by eapply click_granted_mono|by eapply otp_evidence_mono].
  - unfold purpose_ok. by rewrite He.
  - intros (click & b & Hp & Hw & Hpr & Hs). exists click, b. split_and!; [unfold purpose_ok in *; by rewrite He|by eapply waiting_core_calm|auto|].
    unfold session_ok in *. destruct for_ as [r e|]; [|done]. rewrite Hu, He. intros Ha.
    destruct (calm_answered _ _ _ _ _ Hc Hw Ha) as [?|[_ [?|Hpre]]]; [auto|done|].
    destruct Hp as (-> & _). done.
Qed.

Lemma click_inv_calm d d' ts : calm d d' → click_inv d ts → click_inv d' ts.
Proof.
  intros Hc [H1 H2 H3 H4 H5]. pose proof Hc as [Hu He Hk0 Hn Hp (l & Hl & [Ho Ha Hev])].
  assert (∀ id, Desk.pending d !! id = None → occurrences (is_answer id) l = 0) as Hz.
  { intros id Hnone. destruct (decide (0 < occurrences (is_answer id) l)) as [Hpos|]; [|lia].
    destruct (Ha id Hpos) as [[e Hsome] _]. congruence. }
  split.
  - intros k Hk. eapply task_ok_calm; eauto.
  - intros id Hid. destruct (H2 id Hid) as (Hnone & Hocc & Hw). split_and!; [by eapply shrinks_None| |done].
    rewrite Hl, occurrences_app, Hz, Hocc; done.
  - intros id e He'. apply Hp in He' as (e0 & g & He0 & _). apply H3 in He0. lia.
  - intros id. rewrite Hl, occurrences_app. destruct (decide (0 < occurrences (is_answer id) (Desk.log d))) as [Hpos|].
    + destruct (H5 id Hpos) as [Hnone _]. rewrite Hz by done. apply H4.
    + specialize (Ho id). lia.
  - intros id. rewrite Hl, occurrences_app. intros Hpos.
    destruct (decide (0 < occurrences (is_answer id) l)) as [Hp2|].
    + destruct (Ha id Hp2) as [[e Hsome] ?]. split; [done|]. apply H3 in Hsome. lia.
    + destruct (H5 id ltac:(lia)) as [? ?]. split; [by eapply shrinks_None|lia].
Qed.

(** Publishing an unlock or a lock. *)
Lemma click_inv_publish d b ts : click_inv d ts → click_inv (Desk.published d b) ts.
Proof.
  intros [H1 H2 H3 H4 H5]. split; try done. intros k Hk. specialize (H1 k Hk).
  destruct k; simpl in *; try done; [lia| | |].
  - destruct H1 as [Hle Hg]. split; [lia|]. unfold granted_ok in *. simpl. repeat case_match; try done; destruct Hg; (split; [|done]); lia.
  - unfold purpose_ok in *. destruct for_; [|done]. destruct H1 as (? & ? & ?). split_and!; [done..|simpl; lia].
  - destruct H1 as (click & prot & Hp & Hw & Hpr & Hs). exists click, prot. split_and!; [|by destruct Hw; split|done|].
    + unfold purpose_ok in *. destruct for_; [|done]. destruct Hp as (? & ? & ?). split_and!; [done..|simpl; lia].
    + unfold session_ok in *. destruct for_; [|done]. destruct Hp as (_ & _ & ?). simpl. intros _ ?. lia.
Qed.

Lemma click_inv_locking d s ts : click_inv d ts → click_inv (Desk.with_locking d s) ts.
Proof.
  intros [H1 H2 H3 H4 H5]. split; try done. intros k Hk. specialize (H1 k Hk). destruct k; try done.
  destruct H1 as (click & prot & Hp & [Hi He Ha] & Hpr & Hs). exists click, prot. split_and!; [by destruct for_|by split|done|by destruct for_].
Qed.

(** ** Tasks *)

Lemma click_inv_tasks d ts ts' : ts' ⊆ ts → fresh_ids ts' ⊆ fresh_ids ts → click_inv d ts → click_inv d ts'.
Proof.
  intros Hts Hf [H1 H2 H3 H4 H5]. split; auto. intros id Hid. destruct (H2 id ltac:(auto)) as (? & ? & Hw). split_and!; auto.
  intros p Hp. by apply (Hw p), Hts.
Qed.

Lemma click_inv_spawn d ts k :
  fresh_id k = None → task_ok d k → (∀ id p, k = AwaitingAnswer id p → id ∉ fresh_ids ts) → click_inv d ts → click_inv d (k :: ts).
Proof.
  intros Hk Hok Hw [H1 H2 H3 H4 H5]. split; try done.
  - intros k' [->|Hk']%elem_of_cons; auto.
  - unfold fresh_ids. simpl. rewrite Hk. intros id Hid. destruct (H2 id Hid) as (? & ? & Hn). split_and!; auto.
    intros p [Heq|Hp]%elem_of_cons; [|by eapply Hn]. by eapply Hw.
Qed.

Lemma click_inv_fetch d d' ts k :
  calm d d' → (Desk.next_id d < Desk.next_id d')%N → fresh_id k = Some (Desk.next_id d) → task_ok d' k →
  click_inv d ts → click_inv d' (k :: ts).
Proof.
  intros Hc Hlt Hk Hok Hi. pose proof (click_inv_calm _ _ _ Hc Hi) as [G1 G2 G3 G4 G5]. destruct Hi as [H1 H2 H3 H4 H5].
  split; try done; [by intros k' [->|Hk']%elem_of_cons; auto|]. unfold fresh_ids. simpl. rewrite Hk. simpl.
  assert (Desk.pending d !! Desk.next_id d = None) as Hnone.
  { destruct (Desk.pending d !! Desk.next_id d) eqn:E; [|done]. apply H3 in E. lia. }
  intros id [->|Hid]%elem_of_cons.
  - destruct Hc as [_ _ _ _ Hp (l & Hl & [_ Ha _])]. split_and!; [by eapply shrinks_None| |].
    + rewrite Hl, occurrences_app. destruct (decide (0 < occurrences (is_answer (Desk.next_id d)) l)) as [Hpos|].
      { destruct (Ha _ Hpos) as [[e Hsome] _]. congruence. }
      destruct (decide (0 < occurrences (is_answer (Desk.next_id d)) (Desk.log d))) as [Hpos|]; [|lia].
      destruct (H5 _ Hpos). lia.
    + intros p [Heq|Hp']%elem_of_cons; [by subst|]. apply H1 in Hp' as (click & b & _ & [? _ _] & _). lia.
  - destruct (G2 id Hid) as (? & ? & Hn). split_and!; [done..|]. intros p [Heq|Hp]%elem_of_cons; [by subst|by eapply Hn].
Qed.
End clicks.

(** * Every step keeps the invariants of the desktop *)
Section steps.
Context (sha256 : list N → list N) (utc : Instant → Z).
Notation calm := (calm sha256).
Notation steady := (steady sha256).
Notation click_inv := (click_inv sha256).
Notation otp_inv := (otp_inv sha256).

(** ** A new request *)

Lemma click_inv_opened d ts click id protected deadline for_ :
  (id < Desk.next_id d)%N → id ∉ fresh_ids ts →
  click_inv d (Clicking click id protected deadline for_ :: ts) →
  click_inv (opened click id protected deadline d) ts ∧ waiting_core sha256 (opened click id protected deadline d) id click protected.
Proof.
  intros Hid Hnf [H1 H2 H3 H4 H5]. destruct (H2 id ltac:(left)) as (Hnone & Hocc & Hw). split; [split|split].
  - intros k Hk. specialize (H1 k ltac:(by right)). destruct k; simpl in *; try done.
    destruct H1 as (click' & b & Hp & [Hi Hent Ha] & ? & ?). exists click', b. split_and!; [done| |done..]. split; [done| |done].
    destruct Hent as [dl Hent]. exists dl. simpl. intros e. rewrite lookup_insert_Some. intros [[<- _]|[_ He]]; [|by apply Hent].
    destruct (Hw for_0). by right.
  - intros j Hj. destruct (H2 j ltac:(by right)) as (Hn & Ho & Hwj). split_and!; [|done|].
    + simpl. rewrite lookup_insert_ne; [done|]. by intros ->.
    + intros p Hp. eapply Hwj. by right.
  - intros j e. simpl. rewrite lookup_insert_Some. intros [[<- _]|[_ He]]; [done|]. by apply H3 in He.
  - done.
  - intros j Hj. simpl in *. destruct (H5 j Hj) as [Hn ?]. split; [|done]. rewrite lookup_insert_ne; [done|]. intros ->. lia.
  - done.
  - exists deadline. simpl. intros e. rewrite lookup_insert_eq. intros [= <-]. by exists GateState.default.
  - intros Ha%answered_counts. simpl in Ha. lia.
Qed.

Lemma click_inv_insert d ts click id protected deadline for_ :
  (id < Desk.next_id d)%N → id ∉ fresh_ids ts →
  click_inv d (Clicking click id protected deadline for_ :: ts) →
  click_inv (click_insert utc click id protected deadline for_ d) (AwaitingAnswer id for_ :: ts).
Proof.
  intros Hid Hnf Hi. destruct (click_insert_opens sha256 utc d click id protected deadline for_) as (d1 & d2 & Hc1 & Hc2 & _ & ->).
  pose proof (click_inv_calm _ _ _ _ Hc1 Hi) as Hi1. pose proof (calm_next _ _ _ Hc1) as Hn.
  destruct (click_inv_opened d1 ts click id protected deadline for_) as [Hi2 Hw]; [lia|done..|].
  pose proof (click_inv_calm _ _ _ _ Hc2 Hi2) as Hi3. pose proof (waiting_core_calm _ _ _ _ _ _ Hc2 Hw) as Hw2.
  assert (calm d2 (Desk.logged d2 (Prompted (click_prompt click id protected)))) as Hc3 by auto with calm.
  pose proof (click_inv_calm _ _ _ _ Hc3 Hi3) as Hi4. pose proof (ci_tasks _ _ _ Hi _ ltac:(left)) as Hp. simpl in Hp.
  assert (Desk.epoch d2 = Desk.epoch d) as He by (rewrite (calm_epoch _ _ _ Hc2); apply (calm_epoch _ _ _ Hc1)).
  apply (click_inv_calm _ (Desk.logged d2 (Prompted (click_prompt click id protected)))); [auto with calm|].
  apply click_inv_spawn; [done| |intros ? ? [= <- _]; done|done].
  exists click, protected. split_and!; [|by eapply waiting_core_calm|left|].
  - unfold purpose_ok in *. simpl. by rewrite He.
  - unfold session_ok, purpose_ok in *. destruct for_ as [r e|]; [|done]. simpl. rewrite (calm_unlocked _ _ _ Hc2). simpl.
    rewrite elem_of_cons. intros [|Ha] _; [done|].
    destruct (calm_answered _ _ _ _ _ _ Hc2 Hw Ha) as [Hold|[_ [?|Hpre]]]; [|done|by destruct Hp as (-> & _)].
    simpl in Hold. apply answered_counts in Hold.
    pose proof (click_inv_calm _ _ _ _ Hc1 Hi) as Hi1'. destruct (ci_fresh _ _ _ Hi1' id ltac:(left)) as (_ & ? & _). lia.
Qed.

(** ** The invariant and the list of tasks *)

Definition inv (d : Desk.t) (ts : list task) : Prop := otp_inv d ts ∧ click_inv d ts.

Lemma inv_move d d' ts : calm d d' → steady d d' → inv d ts → inv d' ts.
Proof. intros Hc Hs [Ho Hi]. split; [by eapply otp_inv_steady|by eapply click_inv_calm]. Qed.

Lemma inv_same d d' ts ts' : d' = d → ts' = ts → inv d ts → inv d' ts'.
Proof. by intros -> ->. Qed.

Lemma inv_tail d k ts : inv d (k :: ts) → inv d ts.
Proof.
  intros [Ho Hi]. split.
  - eapply otp_inv_tasks; [|exact Ho]. unfold fresh_ids. simpl. destruct (fresh_id k); [by apply submseteq_cons|done].
  - apply (click_inv_tasks _ _ (k :: ts)); [set_solver| |exact Hi]. unfold fresh_ids. simpl. destruct (fresh_id k); set_solver.
Qed.

Lemma inv_pop d k rest : Desk.tasks d ≡ₚ k :: rest → inv d (Desk.tasks d) → inv (Desk.with_tasks d rest) (k :: rest).
Proof.
  intros Hp Hi. apply (inv_move d); [auto with calm|auto with steady|]. destruct Hi as [Ho Hi]. split.
  - eapply otp_inv_tasks; [|exact Ho]. by rewrite Hp.
  - eapply click_inv_tasks; [| |exact Hi]; rewrite Hp; set_solver.
Qed.

Lemma inv_spawn d ts k :
  fresh_id k = None → task_ok sha256 d k → (∀ id p, k ≠ AwaitingAnswer id p) → inv d ts → inv d (k :: ts).
Proof.
  intros Hk Hok Hw [Ho Hi]. split; [by apply otp_inv_spawn|]. apply click_inv_spawn; [done..| |done]. intros id p ->. by destruct (Hw id p).
Qed.

Lemma inv_fetch d d' ts k :
  calm d d' → steady d d' → (Desk.next_id d < Desk.next_id d')%N → fresh_id k = Some (Desk.next_id d) → task_ok sha256 d' k →
  inv d ts → inv d' (k :: ts).
Proof. intros ? ? ? ? ? [Ho Hi]. split; [by eapply otp_inv_fetch|by eapply click_inv_fetch]. Qed.

(** A task that carries no claim. *)
Definition harmless (k : task) : Prop :=
  match k with Revealing _ _ _ _ _ _ | Responding _ _ _ _ | Opening _ _ _ | Gating _ _ _ _ _ | Issue _ => True | _ => False end.
Definition adds_harmless (d d' : Desk.t) : Prop :=
  Desk.tasks d' = Desk.tasks d ∨ ∃ k, Desk.tasks d' = k :: Desk.tasks d ∧ harmless k.

Lemma inv_harmless d d' : calm d d' → steady d d' → adds_harmless d d' → inv d (Desk.tasks d) → inv d' (Desk.tasks d').
Proof.
  intros Hc Hs [Ht|(k & Ht & Hk)] Hi; rewrite Ht; [by eapply inv_move|].
  apply inv_spawn; [by destruct k|by destruct k|by destruct k|by eapply inv_move].
Qed.

(** Operations on a state whose task was taken. *)
Lemma inv_taken d k rest (f : Desk.t → Desk.t) :
  Desk.tasks d ≡ₚ k :: rest → inv d (Desk.tasks d) →
  let d0 := Desk.with_tasks d rest in
  calm d0 (f d0) → steady d0 (f d0) → adds_harmless d0 (f d0) → inv (f d0) (Desk.tasks (f d0)).
Proof. intros Hp Hi d0 Hc Hs Ha. eapply inv_harmless; [done..|]. simpl. by eapply inv_tail, inv_pop. Qed.

Lemma invalidate_gate_tasks d g : Desk.tasks (invalidate_gate d g) = Desk.tasks d.
Proof. unfold invalidate_gate. by case_match. Qed.
Lemma invalidate_entry_tasks d e : Desk.tasks (invalidate_entry d e) = Desk.tasks d.
Proof. apply invalidate_gate_tasks. Qed.
Ltac same_tasks := unfold adds_harmless; repeat case_match; simplify_eq/=; rewrite ?invalidate_entry_tasks; first [by left|right; eexists; by split].

Lemma classify_tasks d a b d' : classify d a = (b, d') → Desk.tasks d' = Desk.tasks d.
Proof. unfold classify. case_match. by intros [= _ <-]. Qed.

Lemma refuse_otp_tasks d key c : Desk.tasks (refuse_otp utc d key c).2 = Desk.tasks d.
Proof. unfold refuse_otp, audit_otp_denied. simpl. repeat case_match; simpl; by rewrite ?invalidate_gate_tasks. Qed.

Lemma handle_otp_tasks d r : Desk.tasks (handle_otp sha256 utc r d).2 = Desk.tasks d.
Proof.
  rewrite handle_otp_pruned. set (d1 := Desk.with_otp d _). change (Desk.tasks d) with (Desk.tasks d1). generalize d1. clear.
  intros d. unfold handle_pruned, accept_otp, reuse_otp, audit_otp_denied.
  repeat case_match; first [done|by rewrite refuse_otp_tasks|by simplify_eq/=].
Qed.

Lemma fresh_insert_tasks d r code id b : Desk.tasks (fresh_insert r code id b d).2 = Desk.tasks d.
Proof.
  unfold fresh_insert, remove_challenge. repeat case_match; simpl; try done. by rewrite invalidate_gate_tasks.
Qed.

Lemma otp_timer_tasks d id : Desk.tasks (otp_timer id d) = Desk.tasks d.
Proof. unfold otp_timer. repeat case_match; simpl; try done; by rewrite invalidate_gate_tasks. Qed.

Lemma reveal_finish_tasks d id key attempt dl ep r : Desk.tasks (reveal_finish sha256 utc id key attempt dl ep r d).2 = Desk.tasks d.
Proof. unfold reveal_finish, reveal_conclude, drop_challenge, audit_otp_denied. repeat case_match; by simplify_eq/=. Qed.

Lemma reap_timeout_tasks d id : Desk.tasks (reap_timeout utc id d) = Desk.tasks d.
Proof. unfold reap_timeout, audit_approval_denied. case_match; [|done]. simpl. by rewrite invalidate_entry_tasks. Qed.

Lemma refuse_from_tasks d id t : Desk.tasks (refuse_from utc id t d).2 = Desk.tasks d.
Proof. unfold refuse_from, audit_approval_denied. case_match; [|done]. simpl. by rewrite invalidate_entry_tasks. Qed.

Lemma respond_finish_tasks d id attempt r : Desk.tasks (respond_finish sha256 utc id attempt r d).2 = Desk.tasks d.
Proof. unfold respond_finish, respond_denied, record_and_settle, settle. repeat case_match; by simplify_eq/=. Qed.

Lemma respond_start_tasks d id otp : adds_harmless d (respond_start sha256 utc id otp d).2.
Proof.
  unfold respond_start, approve_unprotected, audit_approval_denied, record_and_settle, settle. same_tasks.
Qed.

Lemma reveal_start_tasks d id : adds_harmless d (reveal_start sha256 id d).2.
Proof. unfold reveal_start. same_tasks. Qed.

Lemma foldl_tasks {A} (f : Desk.t → A → Desk.t) l d : (∀ d x, Desk.tasks (f d x) = Desk.tasks d) → Desk.tasks (foldl f d l) = Desk.tasks d.
Proof. intros Hf. revert d. induction l as [|x l IH]; intros d; [done|]. simpl. by rewrite IH. Qed.

Lemma clear_pending_tasks l d : Desk.tasks (clear_pending l d) = Desk.tasks d.
Proof. unfold clear_pending. rewrite foldl_tasks; [done|]. intros. unfold clear_entry. simpl. by rewrite invalidate_entry_tasks. Qed.
Lemma clear_challenges_tasks l d : Desk.tasks (clear_challenges l d) = Desk.tasks d.
Proof. unfold clear_challenges. rewrite foldl_tasks; [done|]. intros. unfold clear_challenge. simpl. by rewrite invalidate_gate_tasks. Qed.
Lemma clear_ops_tasks l d : Desk.tasks (clear_ops l d) = Desk.tasks d.
Proof. unfold clear_ops. rewrite foldl_tasks; [done|]. intros. unfold clear_op. by rewrite invalidate_gate_tasks. Qed.

Lemma ops_begin_tasks d digest dl a attempt : Desk.tasks (ops_begin digest dl a attempt d).2 = Desk.tasks d.
Proof.
  unfold ops_begin. destruct (Desk.ops _ !! _) as [op|]; [repeat case_match; by simplify_eq/=|].
  destruct (classify _ a) as [b d2] eqn:Hc. apply classify_tasks in Hc. repeat case_match; by simplify_eq/=.
Qed.
Lemma ops_finish_tasks d digest id : Desk.tasks (ops_finish digest id d) = Desk.tasks d.
Proof. unfold ops_finish. by repeat case_match. Qed.
Lemma ops_retry_tasks d digest id attempt : Desk.tasks (ops_retry digest id attempt d) = Desk.tasks d.
Proof. unfold ops_retry. by repeat case_match. Qed.
Lemma consume_tasks d pass f de ee :
  Desk.tasks (let '(o, d) := with_gated_handle pass f d in record_gated_outcome pass o de ee d) = Desk.tasks d.
Proof. unfold with_gated_handle, record_gated_outcome. repeat case_match; by simplify_eq/=. Qed.
Lemma post_event_tasks d e : Desk.tasks (post_event e d) = Desk.tasks d.
Proof. unfold post_event. by case_match. Qed.
Lemma authorize_end_tasks d r e via : Desk.tasks (authorize_end r e via d).2 = Desk.tasks d.
Proof. unfold authorize_end. by case_match. Qed.

(** ** Operations that spawn a task with a claim *)

Lemma click_start_inv d click for_ fixed a :
  inv d (Desk.tasks d) →
  (∀ d' b, Desk.epoch d' = Desk.epoch d → (∀ b' dl, fixed = Some (b', dl) → b = b') → purpose_ok sha256 d' click b for_) →
  inv (click_start click for_ fixed a d) (Desk.tasks (click_start click for_ fixed a d)).
Proof.
  intros Hi Hp. unfold click_start. destruct (fetch_id d) as [id d1] eqn:Hf. injection Hf as <- <-. destruct fixed as [[b dl]|].
  - simpl. apply (inv_fetch d); [|apply steady_spawned, steady_with_id; [lia|apply steady_refl]|simpl; lia|done| |done].
    + apply calm_spawned. eapply calm_start; [done|apply calm_refl].
    + simpl. apply Hp; [done|]. by intros ? ? [= -> _].
  - destruct (classify _ a) as [b d2] eqn:Hc. simpl.
    assert (Desk.tasks d2 = Desk.tasks d ∧ Desk.epoch d2 = Desk.epoch d ∧ Desk.next_id d2 = (Desk.next_id d + 1)%N) as (-> & He & Hn).
    { unfold classify in Hc. case_match. by injection Hc as <- <-. }
    apply (inv_fetch d); [| |simpl; lia|done| |done].
    + apply calm_spawned. eapply calm_classify; [done|]. eapply calm_start; [done|apply calm_refl].
    + apply steady_spawned. eapply classify_steady; [done|]. apply steady_with_id; [lia|apply steady_refl].
    + simpl. by apply Hp.
Qed.

Lemma passed_inv d pass : inv d (Desk.tasks d) → inv (passed d pass) (Desk.tasks (passed d pass)).
Proof.
  intros Hi. unfold passed. simpl. apply inv_spawn; [done|simpl; left|done|].
  eapply inv_move; [| |done]; [auto with calm|auto with steady].
Qed.

Lemma ops_finish_inv d digest id : inv d (Desk.tasks d) → inv (ops_finish digest id d) (Desk.tasks (ops_finish digest id d)).
Proof.
  intros Hi. rewrite ops_finish_tasks. eapply inv_move; [| |done]; [apply ops_finish_calm, calm_refl|apply ops_finish_steady, steady_refl].
Qed.

Lemma gate_confirmed_inv d digest op_id epoch outcome :
  inv d (Desk.tasks d) →
  inv (gate_confirmed digest op_id epoch outcome d).2 (Desk.tasks (gate_confirmed digest op_id epoch outcome d).2).
Proof.
  intros Hi%(fun H => ops_finish_inv d digest op_id H). unfold gate_confirmed. repeat case_match; try done. by apply passed_inv.
Qed.

Lemma gate_verified_inv d click op_id deadline epoch attempt r :
  inv d (Desk.tasks d) →
  inv (gate_verified sha256 click op_id deadline epoch attempt r d).2
    (Desk.tasks (gate_verified sha256 click op_id deadline epoch attempt r d).2).
Proof.
  intros Hi. unfold gate_verified. repeat case_match; simpl; try by apply ops_finish_inv.
  - by apply passed_inv, ops_finish_inv.
  - rewrite ops_retry_tasks. eapply inv_move; [| |done]; [apply ops_retry_calm, calm_refl|apply ops_retry_steady, steady_refl].
Qed.

Lemma ops_begin_epoch d digest dl a attempt : Desk.epoch (ops_begin digest dl a attempt d).2 = Desk.epoch d.
Proof. apply (calm_epoch sha256), ops_begin_calm, calm_refl. Qed.

Lemma gate_begin_inv d click epoch attempt a :
  inv d (Desk.tasks d) →
  inv (gate_begin sha256 click epoch attempt a d).2 (Desk.tasks (gate_begin sha256 click epoch attempt a d).2).
Proof.
  intros Hi. unfold gate_begin. set (digest := OpDescriptor.digest sha256 (ClickRequest.op click)).
  set (dl := (Desk.now d + secs APPROVAL_TIMEOUT_SECS)%N).
  assert (inv (ops_begin digest dl a attempt d).2 (Desk.tasks (ops_begin digest dl a attempt d).2)) as H1.
  { rewrite ops_begin_tasks. eapply inv_move; [| |done]; [apply ops_begin_calm, calm_refl|apply ops_begin_steady, steady_refl]. }
  destruct (ops_begin digest dl a attempt d) as [[op|e] d1]; simpl in *; [|done].
  destruct (PendingDesktopOp.protected op) eqn:Hprot.
  - eapply inv_harmless; [| |right; by eexists|done]; [auto with calm|auto with steady].
  - apply click_start_inv; [done|]. intros d' b _ Hb. split; [|done]. by apply (Hb false (PendingDesktopOp.deadline op)).
Qed.

Lemma dispatch_inv d request epoch a :
  (epoch ≤ Desk.epoch d)%N → inv d (Desk.tasks d) →
  inv (dispatch sha256 utc request epoch a d) (Desk.tasks (dispatch sha256 utc request epoch a d)).
Proof.
  intros He Hi. unfold dispatch. destruct (approval_requirement request) as [[]|e] eqn:Hr; [| | |done].
  - apply inv_spawn; [done| |done|]; [|eapply inv_move; [| |done]; [auto with calm|auto with steady]].
    simpl. split; [done|]. unfold granted_ok. by rewrite Hr.
  - apply click_start_inv; [done|]. intros d' b He' _. split_and!; [done..|by rewrite He'].
  - pose proof (handle_otp_tasks d request) as Ht. pose proof (handle_otp_calm sha256 utc d d request (calm_refl _ _)) as Hc.
    assert (inv (handle_otp sha256 utc request d).2 (Desk.tasks (handle_otp sha256 utc request d).2)) as H1.
    { rewrite Ht. split; [by apply handle_otp_inv, Hi|]. eapply click_inv_calm; [done|apply Hi]. }
    destruct (handle_otp sha256 utc request d) as [[[[]|e]|] d1] eqn:Ho; simpl in *.
    + destruct (handle_otp_evidence sha256 utc d _ request d1 (proj1 Hi) Ho) as [Hu Hev].
      destruct Hev as (c & -> & Hev).
      apply inv_spawn; [done| |done|]; [|eapply inv_move; [| |done]; [auto with calm|auto with steady]].
      simpl. rewrite (calm_epoch _ _ _ Hc). split; [done|]. unfold granted_ok. rewrite Hr. simpl. split; [|done].
      intros _. by rewrite (calm_unlocked _ _ _ Hc).
    + done.
    + eapply inv_harmless; [| |right; by eexists|done]; [auto with calm|auto with steady].
Qed.

Lemma click_done_inv d for_ id outcome :
  (match for_, outcome with ForAgent r e, Ok _ => task_ok sha256 d (Checking r e (Some id)) | _, _ => True end) →
  inv d (Desk.tasks d) → inv (click_done for_ id outcome d) (Desk.tasks (click_done for_ id outcome d)).
Proof.
  intros Hok Hi. unfold click_done. destruct for_ as [r e|digest op_id e]; [|by apply gate_confirmed_inv]. destruct outcome; [|done].
  apply inv_spawn; [done| |done|]; [|eapply inv_move; [| |done]; [auto with calm|auto with steady]].
  eapply task_ok_calm; [|done]. auto with calm.
Qed.

Lemma fresh_start_inv d r drawn a :
  inv d (Desk.tasks d) → inv (fresh_start r drawn a d).2 (Desk.tasks (fresh_start r drawn a d).2).
Proof.
  intros Hi. unfold fresh_start. case_match; [|done]. destruct (fetch_id d) as [id d1] eqn:Hf. injection Hf as <- <-.
  destruct (classify _ a) as [b d2] eqn:Hc. simpl.
  assert (Desk.tasks d2 = Desk.tasks d ∧ Desk.next_id d2 = (Desk.next_id d + 1)%N) as (-> & Hn).
  { unfold classify in Hc. case_match. by injection Hc as <- <-. }
  apply (inv_fetch d); [| |simpl; lia|done..].
  - apply calm_spawned. eapply calm_classify; [done|]. eapply calm_start; [done|apply calm_refl].
  - apply steady_spawned. eapply classify_steady; [done|]. apply steady_with_id; [lia|apply steady_refl].
Qed.

Lemma click_insert_tasks d click id b dl for_ :
  Desk.tasks (click_insert utc click id b dl for_ d) = AwaitingAnswer id for_ :: Desk.tasks d.
Proof.
  destruct (click_insert_opens sha256 utc d click id b dl for_) as (d1 & d2 & _ & _ & Ht & ->). simpl. by rewrite Ht.
Qed.

Lemma published_inv d b : inv d (Desk.tasks d) → inv (Desk.published d b) (Desk.tasks (Desk.published d b)).
Proof. intros [Ho Hc]. split; [|by apply click_inv_publish]. eapply otp_inv_steady; [|exact Ho]. auto with steady. Qed.

Lemma unlock_vault_inv d pass opened :
  inv d (Desk.tasks d) → inv (unlock_vault utc pass opened d).2 (Desk.tasks (unlock_vault utc pass opened d).2).
Proof.
  intros Hi. unfold unlock_vault. destruct (match pass with Some _ => _ | None => _ end); [done|]. destruct opened; [|done]. simpl.
  apply published_inv. destruct pass; (apply (inv_harmless d); [| |by left|done]); [auto with calm|auto with steady|auto with calm|auto with steady].
Qed.

Lemma with_locking_inv d s : inv d (Desk.tasks d) → inv (Desk.with_locking d s) (Desk.tasks (Desk.with_locking d s)).
Proof. intros [Ho Hc]. split; [|by apply click_inv_locking]. eapply otp_inv_steady; [|exact Ho]. auto with steady. Qed.

(** ** The steps *)

Lemma desk_step_inv d d' : desk_step sha256 utc d d' → inv d (Desk.tasks d) → inv d' (Desk.tasks d').
Proof.
  destruct 1 as [d p Hp|d r|d r e a rest Hp _|d r drawn a rest Hp|d r code id b rest Hp|d r e via rest Hp
    |d id|d id|d id key at_ op dl e r rest Hp _ _|d click id b dl for_ rest Hp|d id b for_ rest Hp Ha|d id for_ rest Hp _
    |d k rest Hp|d id t|d id otp _|d id at_ op dl r rest Hp _ _|d click|d click e at_ a rest Hp|d click op_id dl e at_ r rest Hp _
    |d pass f de ee rest Hp _|d o _|d pass v o rest Hp _ _|d _|d action err _|d _|d l _ Hl|d l _ Hl|d why l _ Hl|d works|d e rest Hp _|d e rest Hp|d e _ _|d e]; intros Hi.
  - apply (inv_harmless d); [| |by left|done]; [auto with calm|apply steady_with_presence; [by apply rtc_once|apply steady_refl]].
  - unfold authorize_start. apply inv_spawn; [done|simpl; lia|done|]. eapply inv_move; [| |done]; [auto with calm|auto with steady].
  - pose proof (inv_pop _ _ _ Hp Hi) as H1. apply dispatch_inv; [|by eapply inv_tail]. apply (ci_tasks _ _ _ (proj2 H1) _ ltac:(left)).
  - by apply fresh_start_inv, (inv_tail _ (Issue r)), inv_pop.
  - pose proof (inv_pop _ _ _ Hp Hi) as H1. rewrite fresh_insert_tasks. split; [by apply otp_inv_fresh_insert, H1|].
    eapply click_inv_calm; [apply fresh_insert_calm, calm_refl|]. by apply (inv_tail _ _ _ H1).
  - rewrite authorize_end_tasks. pose proof (inv_tail _ _ _ (inv_pop _ _ _ Hp Hi)) as [Ho Hc]. split.
    + unfold authorize_end. case_match; [done|]. simpl. by apply otp_inv_logged.
    + by eapply click_inv_calm; [apply authorize_end_calm, calm_refl|].
  - apply (inv_harmless d); [apply otp_timer_calm, calm_refl|apply otp_timer_steady, steady_refl|left; apply otp_timer_tasks|done].
  - apply (inv_harmless d); [apply reveal_start_calm, calm_refl|apply reveal_start_steady, steady_refl|apply reveal_start_tasks|done].
  - eapply (inv_taken _ _ _ (λ d, (reveal_finish sha256 utc id key at_ dl e r d).2));
      [done..|apply reveal_finish_calm, calm_refl|apply reveal_finish_steady, steady_refl|left; apply reveal_finish_tasks].
  - pose proof (inv_pop _ _ _ Hp Hi) as [Ho Hc]. rewrite click_insert_tasks. destruct (oi_fresh _ _ _ Ho id ltac:(left)) as [Hid _].
    split.
    + apply otp_inv_spawn; [done|]. eapply otp_inv_steady; [apply click_insert_steady, steady_refl|].
      eapply otp_inv_tasks; [|exact Ho]. unfold fresh_ids. simpl. by apply submseteq_cons.
    + apply click_inv_insert; [done| |done]. pose proof (oi_nodup _ _ _ Ho) as Hnd. unfold fresh_ids in Hnd. simpl in Hnd.
      by apply NoDup_cons in Hnd as [? _].
  - pose proof (inv_pop _ _ _ Hp Hi) as H1. apply click_done_inv; [|by eapply inv_tail].
    destruct for_ as [r e|]; [|done]. destruct b; [|done]. simpl click_outcome. cbn iota.
    destruct (ci_tasks _ _ _ (proj2 H1) _ ltac:(left)) as (click & prot & (-> & Hreq & He) & [_ _ Hev] & Hpr & Hs).
    simpl. split; [done|]. unfold granted_ok. rewrite Hreq. split; [by apply Hs|]. exists prot. split_and!; [done..|].
    by destruct (Hev Ha) as [?|[_ ?]].
  - pose proof (inv_pop _ _ _ Hp Hi) as H1. apply click_done_inv; [by destruct for_|]. rewrite reap_timeout_tasks. simpl.
    eapply inv_move; [apply reap_timeout_calm, calm_refl|apply reap_timeout_steady, steady_refl|]. by eapply inv_tail.
  - by apply (inv_tail _ k), inv_pop.
  - apply (inv_harmless d); [apply refuse_from_calm, calm_refl|apply refuse_from_steady, steady_refl|left; apply refuse_from_tasks|done].
  - apply (inv_harmless d); [apply respond_start_calm, calm_refl|apply respond_start_steady, steady_refl|apply respond_start_tasks|done].
  - eapply (inv_taken _ _ _ (λ d, (respond_finish sha256 utc id at_ r d).2));
      [done..|apply respond_finish_calm, calm_refl|apply respond_finish_steady, steady_refl|left; apply respond_finish_tasks].
  - unfold gate_start. destruct (PresenceCoordinator.begin_attempt _) as [p a] eqn:Hb.
    apply (inv_harmless d); [auto with calm|apply steady_spawned; by eapply begin_steady, steady_refl|right; by eexists|done].
  - by apply gate_begin_inv, (inv_tail _ _ _ (inv_pop _ _ _ Hp Hi)).
  - by apply gate_verified_inv, (inv_tail _ _ _ (inv_pop _ _ _ Hp Hi)).
  - eapply (inv_taken _ _ _ (λ d, let '(o, d) := with_gated_handle pass f d in record_gated_outcome pass o de ee d));
      [done..|apply consume_calm, calm_refl|apply consume_steady, steady_refl|left; apply consume_tasks].
  - by apply unlock_vault_inv.
  - by apply unlock_vault_inv, (inv_tail _ _ _ (inv_pop _ _ _ Hp Hi)).
  - by apply published_inv.
  - unfold rollback_unlock. apply published_inv. case_match; [|done]. apply (inv_harmless d); [| |by left|done]; [auto with calm|auto with steady].
  - by apply with_locking_inv, published_inv.
  - apply with_locking_inv. apply (inv_harmless d); [by apply clear_pending_calm|apply clear_pending_steady, steady_refl|left; apply clear_pending_tasks|done].
  - apply with_locking_inv. apply (inv_harmless d); [apply clear_challenges_calm, calm_refl|apply clear_challenges_steady, steady_refl|left; apply clear_challenges_tasks|done].
  - apply with_locking_inv. apply (inv_harmless d); [apply clear_ops_calm, calm_refl|apply clear_ops_steady, steady_refl|left; apply clear_ops_tasks|done].
  - apply (inv_harmless d); [auto with calm|auto with steady|by left|done].
  - apply (inv_harmless d); [apply post_event_calm; auto with calm|apply post_event_steady; auto with steady| |done].
    left. by rewrite post_event_tasks.
  - apply (inv_harmless d); [auto with calm|auto with steady|by left|done].
  - apply (inv_harmless d); [auto with calm|auto with steady|by left|done].
  - apply (inv_harmless d); [auto with calm|auto with steady|by left|done].
Qed.

Lemma new_inv : inv Desk.new [].
Proof.
  split; split; simpl; try done; try (intros; cbn; lia).
  - intros id b. cbn. lia.
  - constructor.
  - intros id Hid. by apply elem_of_nil in Hid.
  - rewrite map_size_empty. lia.
  - intros k Hk. by apply elem_of_nil in Hk.
  - intros id Hid. by apply elem_of_nil in Hid.
  - intros id. cbn. lia.
Qed.

Lemma desk_reachable_inv d : desk_reachable sha256 utc d → inv d (Desk.tasks d).
Proof.
  unfold desk_reachable. intros Hr. assert (inv Desk.new (Desk.tasks Desk.new)) as H0 by apply new_inv. revert H0.
  induction Hr as [|d1 d2 d3 Hs _ IH]; [done|]. intros H1. by eapply IH, desk_step_inv.
Qed.

(** ** One approval, one request, along the steps *)

Definition adds_idle (d d' : Desk.t) : Prop :=
  Desk.tasks d' = Desk.tasks d ∨ ∃ k, Desk.tasks d' = k :: Desk.tasks d ∧ idle k.

Lemma harmless_idle d d' : adds_harmless d d' → adds_idle d d'.
Proof. intros [?|(k & ? & Hk)]; [by left|]. right. exists k. split; [done|]. by destruct k. Qed.

Lemma use_still d d' : steady d d' → adds_idle d d' → use_inv d (Desk.tasks d) → use_inv d' (Desk.tasks d').
Proof.
  intros Hs%steady_frugal [Ht|(k & Ht & Hk)] Hi; rewrite Ht; [by eapply use_frugal|by eapply use_idle].
Qed.

Lemma use_taken d k rest :
  Desk.tasks d ≡ₚ k :: rest → use_inv d (Desk.tasks d) →
  use_inv (Desk.with_tasks d rest) (Desk.tasks (Desk.with_tasks d rest)).
Proof. intros Hp Hi. by eapply use_tail, use_pop. Qed.

Lemma click_start_use d click for_ fixed a :
  use_inv d (Desk.tasks d) → use_inv (click_start click for_ fixed a d) (Desk.tasks (click_start click for_ fixed a d)).
Proof.
  intros Hi. pose proof (click_start_steady sha256 d d click for_ fixed a (steady_refl _ _)) as Hs%steady_frugal. revert Hs.
  unfold click_start. destruct (fetch_id d) as [id d1] eqn:Hf. injection Hf as <- <-. destruct fixed as [[b dl]|]; simpl.
  - intros Hs. by apply (use_fetch d); [done|simpl; lia|..].
  - destruct (classify _ a) as [b d2] eqn:Hc. pose proof (classify_tasks _ _ _ _ Hc) as Ht. simpl in Ht |- *. rewrite Ht.
    intros Hs. apply (use_fetch d); [done| |done..|done]. unfold classify in Hc. case_match. injection Hc as <- <-. simpl. lia.
Qed.

Lemma fresh_start_use d r drawn a :
  use_inv d (Desk.tasks d) → use_inv (fresh_start r drawn a d).2 (Desk.tasks (fresh_start r drawn a d).2).
Proof.
  intros Hi. pose proof (fresh_start_steady sha256 d d r drawn a (steady_refl _ _)) as Hs%steady_frugal. revert Hs.
  unfold fresh_start. case_match; [|done]. destruct (fetch_id d) as [id d1] eqn:Hf. injection Hf as <- <-.
  destruct (classify _ a) as [b d2] eqn:Hc. pose proof (classify_tasks _ _ _ _ Hc) as Ht. simpl in Ht |- *. rewrite Ht.
  intros Hs. apply (use_fetch d); [done| |done..|done]. unfold classify in Hc. case_match. injection Hc as <- <-. simpl. lia.
Qed.

Lemma use_insert d ts key chal p :
  uses d ts (OtpChallenge.modal_id chal) = 0 → use_inv d ts →
  use_inv (Desk.logged (Desk.with_otp d (<[key := chal]> (Desk.otp_pending d))) (Prompted p)) ts.
Proof.
  intros Hz [H1 H2 H3 H4]. split; [exact H1|exact H2|exact H3|].
  intros k c. simpl. rewrite lookup_insert_Some. intros [[_ <-]|[_ Hc]]; [exact Hz|]. by apply (H4 k).
Qed.

Lemma fresh_insert_use d ts r code id b :
  use_inv d (Issuing r code id b :: ts) → use_inv (fresh_insert r code id b d).2 ts.
Proof.
  intros Hi. pose proof (ui_fresh _ _ Hi id ltac:(left)) as Hz. pose proof (use_tail _ _ _ Hi) as H0.
  assert (uses d ts id = 0) as Hz0 by (unfold uses in *; rewrite held_cons in Hz; simpl in Hz; lia). clear Hi Hz.
  unfold fresh_insert. set (d1 := Desk.with_otp d _).
  assert (frugal d d1) as Hf by (apply (steady_frugal sha256), steady_fewer; [apply prune_sub|apply steady_refl]).
  case_match; simpl; [by eapply use_frugal|].
  assert (frugal d1 (remove_challenge d1 (request_signature r))) as Hr.
  { unfold remove_challenge. case_match; apply (steady_frugal sha256); [|apply steady_refl].
    apply steady_logged; [done|]. apply steady_fewer; [apply delete_subseteq|]. apply invalidate_gate_steady, steady_refl. }
  pose proof (frugal_trans _ _ _ Hf Hr) as Hfr. apply use_insert; [by rewrite (frugal_uses d)|by eapply use_frugal].
Qed.

Lemma dispatch_use d r e a :
  inv d (Desk.tasks d) → use_inv d (Desk.tasks d) →
  use_inv (dispatch sha256 utc r e a d) (Desk.tasks (dispatch sha256 utc r e a d)).
Proof.
  intros [Ho _] Hi. unfold dispatch. destruct (approval_requirement r) as [[]|]; [|by apply click_start_use| |done].
  - apply (use_idle d); [apply (steady_frugal sha256); auto with steady|done..].
  - pose proof (handle_otp_tasks d r) as Ht. pose proof (handle_otp_frugal sha256 utc d r) as Hf.
    destruct (handle_otp sha256 utc r d) as [[[[]|err]|] d1] eqn:Hh; simpl in *.
    + destruct (handle_otp_accepts sha256 utc d _ r d1 Ho Hh) as (c & d0 & Hc & Hs & Hi0 & _ & Hc0 & Ha & _).
      rewrite Ht, Hc. simpl. unfold accept_otp in Ha. case_match; [|done]. injection Ha as Ha.
      assert (frugal d (Desk.spawned d1 (Checking r e (Some (OtpChallenge.modal_id c))))) as Hf'.
      { eapply frugal_trans; [exact Hf|]. apply (steady_frugal sha256). auto with steady. }
      apply (use_take d _ _ _ (OtpChallenge.modal_id c)); try done.
      * by apply (ui_stored _ _ Hi (request_signature r)).
      * by apply (ch_id _ _ _ _ (oi_chal _ _ _ Ho _ _ Hc)).
      * intros Hin. destruct (oi_fresh _ _ _ Ho _ Hin) as (_ & _ & Hne). by eapply Hne.
      * intros key c'. rewrite <-Ha. simpl. rewrite lookup_delete_Some. intros [Hk Hc'] E.
        apply Hk. by eapply (oi_unique _ _ _ Hi0).
    + rewrite Ht. by eapply use_frugal.
    + rewrite Ht. apply (use_idle d); [|done..]. eapply frugal_trans; [exact Hf|]. apply (steady_frugal sha256). auto with steady.
Qed.

Lemma gate_confirmed_use d digest op_id epoch o :
  use_inv d (Desk.tasks d) →
  use_inv (gate_confirmed digest op_id epoch o d).2 (Desk.tasks (gate_confirmed digest op_id epoch o d).2).
Proof.
  apply use_still; [apply gate_confirmed_steady, steady_refl|]. unfold gate_confirmed, adds_idle. repeat case_match; simpl;
    rewrite ?ops_finish_tasks; [by left|right; eexists; split; [done|done]|by left].
Qed.

Lemma click_done_use d for_ id o rest :
  Desk.tasks d = rest → use_inv d (AwaitingAnswer id for_ :: rest) →
  use_inv (click_done for_ id o d) (Desk.tasks (click_done for_ id o d)).
Proof.
  intros <- Hi. unfold click_done. destruct for_ as [r e|]; [|by apply gate_confirmed_use, use_tail in Hi || apply gate_confirmed_use; by eapply use_tail].
  destruct o; [|by eapply use_tail]. simpl. apply (use_frugal d); [apply (steady_frugal sha256); auto with steady|].
  by apply (use_tasks d (AwaitingAnswer id (ForAgent r e) :: Desk.tasks d)).
Qed.

Lemma click_insert_use d click id b dl for_ :
  otp_inv d (Clicking click id b dl for_ :: Desk.tasks d) → use_inv d (Clicking click id b dl for_ :: Desk.tasks d) →
  use_inv (click_insert utc click id b dl for_ d) (Desk.tasks (click_insert utc click id b dl for_ d)).
Proof.
  intros Ho Hi. rewrite click_insert_tasks.
  pose proof (steady_frugal _ _ _ (click_insert_steady sha256 utc d d click id b dl for_ (steady_refl _ _))) as Hf.
  pose proof (use_tail _ _ _ Hi) as H0.
  destruct for_ as [r e|]; [|by apply (use_idle d)].
  destruct (oi_fresh _ _ _ Ho id ltac:(left)) as (Hid & _ & Hne). apply (use_take d _ _ _ id); try done.
  - pose proof (ui_fresh _ _ Hi id ltac:(left)) as Hz. done.
  - pose proof (oi_nodup _ _ _ Ho) as Hnd. unfold fresh_ids in Hnd. simpl in Hnd. by apply NoDup_cons in Hnd as [? _].
  - intros key c' (k & c & Hc & ->)%(fr_store _ _ Hf). by eapply Hne.
Qed.

Lemma gate_begin_use d click e at_ a :
  use_inv d (Desk.tasks d) →
  use_inv (gate_begin sha256 click e at_ a d).2 (Desk.tasks (gate_begin sha256 click e at_ a d).2).
Proof.
  intros Hi. unfold gate_begin. set (digest := OpDescriptor.digest sha256 (ClickRequest.op click)). set (dl := (Desk.now d + _)%N).
  assert (use_inv (ops_begin digest dl a at_ d).2 (Desk.tasks (ops_begin digest dl a at_ d).2)) as H1.
  { eapply use_still; [apply ops_begin_steady, steady_refl|left; apply ops_begin_tasks|done]. }
  destruct (ops_begin digest dl a at_ d) as [[op|err] d1]; simpl in *; [|done]. case_match; [|by apply click_start_use].
  eapply (use_still d1); [auto with steady|right; by eexists|done].
Qed.

Lemma desk_step_use d d' :
  desk_step sha256 utc d d' → inv d (Desk.tasks d) → use_inv d (Desk.tasks d) → use_inv d' (Desk.tasks d').
Proof.
  destruct 1 as [d p Hp|d r|d r e a rest Hp _|d r drawn a rest Hp|d r code id b rest Hp|d r e via rest Hp
    |d id|d id|d id key at_ op dl e r rest Hp _ _|d click id b dl for_ rest Hp|d id b for_ rest Hp Ha|d id for_ rest Hp _
    |d k rest Hp|d id t|d id otp _|d id at_ op dl r rest Hp _ _|d click|d click e at_ a rest Hp|d click op_id dl e at_ r rest Hp _
    |d pass f de ee rest Hp _|d o _|d pass v o rest Hp _ _|d _|d action err _|d _|d l _ Hl|d l _ Hl|d why l _ Hl|d works|d e rest Hp _|d e rest Hp|d e _ _|d e];
    intros Hinv Hi.
  - apply (use_still d); [apply steady_with_presence; [by apply rtc_once|apply steady_refl]|by left|done].
  - apply (use_still d); [unfold authorize_start; auto with steady|right; by eexists|done].
  - apply dispatch_use; [by eapply inv_tail, inv_pop|by eapply use_taken].
  - by eapply fresh_start_use, use_taken.
  - rewrite fresh_insert_tasks. by apply fresh_insert_use, use_pop.
  - rewrite authorize_end_tasks. pose proof (use_pop _ _ _ Hp Hi) as H1. unfold authorize_end. case_match; [by eapply use_tail|].
    by apply use_grant.
  - apply (use_still d); [apply otp_timer_steady, steady_refl|left; apply otp_timer_tasks|done].
  - apply (use_still d); [apply reveal_start_steady, steady_refl|apply harmless_idle, reveal_start_tasks|done].
  - apply (use_still (Desk.with_tasks d rest)); [apply reveal_finish_steady, steady_refl|left; apply reveal_finish_tasks|by eapply use_taken].
  - apply click_insert_use; [apply (inv_pop _ _ _ Hp Hinv)|by apply use_pop].
  - by apply (click_done_use _ _ _ _ rest); [|apply use_pop].
  - apply (click_done_use _ _ _ _ rest); [by rewrite reap_timeout_tasks|].
    eapply use_frugal; [apply (steady_frugal sha256), reap_timeout_steady, steady_refl|]. by apply use_pop.
  - by eapply use_taken.
  - apply (use_still d); [apply refuse_from_steady, steady_refl|left; apply refuse_from_tasks|done].
  - apply (use_still d); [apply respond_start_steady, steady_refl|apply harmless_idle, respond_start_tasks|done].
  - apply (use_still (Desk.with_tasks d rest)); [apply respond_finish_steady, steady_refl|left; apply respond_finish_tasks|by eapply use_taken].
  - unfold gate_start. destruct (PresenceCoordinator.begin_attempt _) as [p a] eqn:Hb.
    apply (use_still d); [apply steady_spawned; by eapply begin_steady, steady_refl|right; by eexists|done].
  - by eapply gate_begin_use, use_taken.
  - apply (use_still (Desk.with_tasks d rest)); [apply gate_verified_steady, steady_refl| |by eapply use_taken].
    unfold gate_verified, adds_idle. repeat case_match; simpl; rewrite ?ops_finish_tasks, ?ops_retry_tasks;
      first [by left|right; by eexists].
  - apply (use_still (Desk.with_tasks d rest)); [apply consume_steady, steady_refl|left; apply consume_tasks|by eapply use_taken].
  - apply (use_still d); [apply unlock_vault_steady, steady_refl|left; unfold unlock_vault; by repeat case_match|done].
  - apply (use_still (Desk.with_tasks d rest)); [apply unlock_vault_steady, steady_refl|left; unfold unlock_vault; by repeat case_match|by eapply use_taken].
  - apply (use_still d); [auto with steady|by left|done].
  - apply (use_still d); [apply rollback_steady, steady_refl|left; unfold rollback_unlock; by case_match|done].
  - apply (use_still d); [unfold lock_start; auto with steady|by left|done].
  - apply (use_still d); [apply steady_with_locking, clear_pending_steady, steady_refl|left; apply clear_pending_tasks|done].
  - apply (use_still d); [apply steady_with_locking, clear_challenges_steady, steady_refl|left; apply clear_challenges_tasks|done].
  - apply (use_still d); [apply steady_with_locking, clear_ops_steady, steady_refl|left; apply clear_ops_tasks|done].
  - apply (use_still d); [auto with steady|by left|done].
  - apply (use_still d); [apply post_event_steady; auto with steady|left; by rewrite post_event_tasks|done].
  - apply (use_still d); [auto with steady|by left|done].
  - apply (use_still d); [auto with steady|by left|done].
  - apply (use_still d); [auto with steady|by left|done].
Qed.

Lemma desk_reachable_use d : desk_reachable sha256 utc d → use_inv d (Desk.tasks d).
Proof.
  unfold desk_reachable. intros Hr.
  assert (inv Desk.new (Desk.tasks Desk.new)) as H0 by apply new_inv.
  assert (use_inv Desk.new (Desk.tasks Desk.new)) as H1 by (split; [intros id; cbn; lia|done..]).
  revert H0 H1. induction Hr as [|d1 d2 d3 Hs _ IH]; [done|]. intros H0 H1.
  apply IH; [by eapply desk_step_inv|by eapply desk_step_use].
Qed.

(** ** The kinds of steps *)

Inductive step_kind (d : Desk.t) : Desk.t → Prop :=
| kind_calm d' : calm d d' → step_kind d d'
| kind_opens click id b dl d1 d2 d' :
    id ∈ fresh_ids (Desk.tasks d) → calm d d1 → calm (opened click id b dl d1) d2 → calm d2 d' → step_kind d d'
| kind_publish d1 b : Desk.handle_free d → calm d d1 → step_kind d (Desk.published d1 b)
| kind_lock : Desk.handle_free d → step_kind d (lock_start d)
| kind_clear d1 :
    Desk.locking d = Some ClearPending → calm d d1 → Desk.pending d1 = ∅ →
    step_kind d (Desk.with_locking d1 (Some ClearChallenges))
| kind_after d1 s s' :
    Desk.locking d = Some s → s ≠ ClearPending → s' ≠ Some ClearPending → calm d d1 → step_kind d (Desk.with_locking d1 s').

Lemma calm_taken d ts d' : calm (Desk.with_tasks d ts) d' → calm d d'.
Proof. apply calm_trans. auto with calm. Qed.

Lemma dispatch_calm d r e a : calm d (dispatch sha256 utc r e a d).
Proof.
  unfold dispatch. destruct (approval_requirement r) as [[]|]; [auto with calm|apply click_start_calm, calm_refl| |apply calm_refl].
  pose proof (handle_otp_calm sha256 utc d d r (calm_refl _ _)). repeat case_match; simplify_eq/=; auto with calm.
Qed.

Lemma click_done_calm d for_ id o : calm d (click_done for_ id o d).
Proof.
  unfold click_done. destruct for_; [destruct o; auto with calm|]. apply gate_confirmed_calm, calm_refl.
Qed.

Lemma unlock_vault_kind d d0 pass o : Desk.handle_free d → calm d d0 → step_kind d (unlock_vault utc pass o d0).2.
Proof.
  intros Hf Hc. unfold unlock_vault. destruct (match pass with Some _ => _ | None => _ end); [by apply kind_calm|].
  destruct o; [|by apply kind_calm]. simpl. apply kind_publish; [done|]. destruct pass; auto with calm.
Qed.

Lemma desk_step_kind d d' : desk_step sha256 utc d d' → step_kind d d'.
Proof.
  destruct 1 as [d p Hp|d r|d r e a rest Hp _|d r drawn a rest Hp|d r code id b rest Hp|d r e via rest Hp
    |d id|d id|d id key at_ op dl e r rest Hp _ _|d click id b dl for_ rest Hp|d id b for_ rest Hp Ha|d id for_ rest Hp _
    |d k rest Hp|d id t|d id otp _|d id at_ op dl r rest Hp _ _|d click|d click e at_ a rest Hp|d click op_id dl e at_ r rest Hp _
    |d pass f de ee rest Hp _|d o Hf|d pass v o rest Hp Hf _|d Hf|d action err Hf|d Hf|d l Hk Hl|d l Hk Hl|d why l Hk Hl|d works|d e rest Hp _|d e rest Hp|d e _ _|d e].
  - apply kind_calm. auto with calm.
  - apply kind_calm. unfold authorize_start. auto with calm.
  - apply kind_calm, (calm_taken _ rest), dispatch_calm.
  - apply kind_calm, (calm_taken _ rest), fresh_start_calm, calm_refl.
  - apply kind_calm, (calm_taken _ rest), fresh_insert_calm, calm_refl.
  - apply kind_calm, (calm_taken _ rest), authorize_end_calm, calm_refl.
  - apply kind_calm, otp_timer_calm, calm_refl.
  - apply kind_calm, reveal_start_calm, calm_refl.
  - apply kind_calm, (calm_taken _ rest), reveal_finish_calm, calm_refl.
  - destruct (click_insert_opens sha256 utc (Desk.with_tasks d rest) click id b dl for_) as (d1 & d2 & Hc1 & Hc2 & _ & ->).
    eapply (kind_opens _ click id b dl d1 d2); [|by apply (calm_taken _ rest)|done|auto with calm].
    unfold fresh_ids. rewrite Hp. simpl. left.
  - apply kind_calm, (calm_taken _ rest), click_done_calm.
  - apply kind_calm, (calm_taken _ rest). eapply calm_trans; [apply reap_timeout_calm, calm_refl|apply click_done_calm].
  - apply kind_calm, (calm_taken _ rest), calm_refl.
  - apply kind_calm, refuse_from_calm, calm_refl.
  - apply kind_calm, respond_start_calm, calm_refl.
  - apply kind_calm, (calm_taken _ rest), respond_finish_calm, calm_refl.
  - apply kind_calm. unfold gate_start. case_match. auto with calm.
  - apply kind_calm, (calm_taken _ rest), gate_begin_calm, calm_refl.
  - apply kind_calm, (calm_taken _ rest), gate_verified_calm, calm_refl.
  - apply kind_calm, (calm_taken _ rest), consume_calm, calm_refl.
  - apply unlock_vault_kind; [done|apply calm_refl].
  - apply unlock_vault_kind; [done|auto with calm].
  - apply kind_publish; [done|apply calm_refl].
  - apply kind_publish; [done|]. case_match; auto with calm.
  - by apply kind_lock.
  - apply kind_clear; [done|by apply clear_pending_calm|]. unfold clear_pending.
    assert (NoDup l.*1) as Hnd by (rewrite Hl; apply NoDup_fst_map_to_list).
    by destruct (clear_entries l (Desk.with_pending d ∅) Hnd) as (_ & _ & _ & _ & -> & _).
  - eapply kind_after; [done..|apply clear_challenges_calm, calm_refl].
  - eapply kind_after; [done..|apply clear_ops_calm, calm_refl].
  - apply kind_calm. auto with calm.
  - apply kind_calm, post_event_calm. auto with calm.
  - apply kind_calm. auto with calm.
  - apply kind_calm. auto with calm.
  - apply kind_calm. auto with calm.
Qed.

(** Identifiers are drawn once. *)
Definition draws (d d' : Desk.t) : Prop :=
  ∀ id, id ∈ fresh_ids (Desk.tasks d') → id ∈ fresh_ids (Desk.tasks d) ∨ (Desk.next_id d ≤ id)%N.

Lemma draws_same d ts d' : fresh_ids (Desk.tasks d') ⊆ fresh_ids ts → fresh_ids ts ⊆ fresh_ids (Desk.tasks d) → draws d d'.
Proof. intros H1 H2 id Hid. left. auto. Qed.

Lemma taken_fresh d k rest : Desk.tasks d ≡ₚ k :: rest → fresh_ids rest ⊆ fresh_ids (Desk.tasks d).
Proof. intros Hp id. unfold fresh_ids. rewrite Hp. simpl. destruct (fresh_id k); [by right|done]. Qed.

Lemma harmless_fresh d d' : adds_harmless d d' → fresh_ids (Desk.tasks d') ⊆ fresh_ids (Desk.tasks d).
Proof. intros [->|(k & -> & Hk)]; [done|]. by destruct k. Qed.

Lemma click_start_draws d click for_ fixed a : draws d (click_start click for_ fixed a d).
Proof.
  unfold click_start. destruct (fetch_id d) as [id d1] eqn:Hf. injection Hf as <- <-. destruct fixed as [[b dl]|].
  - intros j. unfold fresh_ids. simpl. intros [->|Hj]%elem_of_cons; [right; lia|by left].
  - destruct (classify _ a) as [b d2] eqn:Hc. apply classify_tasks in Hc. intros j. unfold fresh_ids. simpl. rewrite Hc. simpl.
    intros [->|Hj]%elem_of_cons; [right; lia|by left].
Qed.

Lemma fresh_start_draws d r drawn a : draws d (fresh_start r drawn a d).2.
Proof.
  unfold fresh_start. case_match; [|by left]. destruct (fetch_id d) as [id d1] eqn:Hf. injection Hf as <- <-.
  destruct (classify _ a) as [b d2] eqn:Hc. apply classify_tasks in Hc. intros j. unfold fresh_ids. simpl. rewrite Hc. simpl.
  intros [->|Hj]%elem_of_cons; [right; lia|by left].
Qed.

Lemma dispatch_draws d r e a : draws d (dispatch sha256 utc r e a d).
Proof.
  unfold dispatch. destruct (approval_requirement r) as [[]|]; [by left|apply click_start_draws| |by left].
  pose proof (handle_otp_tasks d r) as Ht. destruct (handle_otp _ _ _ _) as [[[[]|]|] d1]; simpl in *;
    intros j; unfold fresh_ids; simpl; rewrite Ht; by left.
Qed.

Lemma gate_confirmed_fresh d digest op_id epoch o :
  fresh_ids (Desk.tasks (gate_confirmed digest op_id epoch o d).2) = fresh_ids (Desk.tasks d).
Proof. unfold gate_confirmed. repeat case_match; unfold fresh_ids; simpl; by rewrite ops_finish_tasks. Qed.

Lemma click_done_fresh d for_ id o : fresh_ids (Desk.tasks (click_done for_ id o d)) = fresh_ids (Desk.tasks d).
Proof. unfold click_done. destruct for_; [by destruct o|]. apply gate_confirmed_fresh. Qed.

Lemma gate_begin_draws d click e at_ a : draws d (gate_begin sha256 click e at_ a d).2.
Proof.
  unfold gate_begin. set (digest := OpDescriptor.digest sha256 (ClickRequest.op click)). set (dl := (Desk.now d + _)%N).
  pose proof (ops_begin_tasks d digest dl a at_) as Ht. pose proof (calm_next _ _ _ (ops_begin_calm sha256 d d digest dl a at_ (calm_refl _ _))) as Hn.
  destruct (ops_begin digest dl a at_ d) as [[op|e'] d1]; simpl in *; [|intros j; rewrite Ht; by left]. case_match.
  - intros j. unfold fresh_ids. simpl. rewrite Ht. by left.
  - intros j Hj. apply click_start_draws in Hj as [Hj|]; [rewrite Ht in Hj; by left|right; lia].
Qed.

Lemma desk_step_draws d d' : desk_step sha256 utc d d' → draws d d'.
Proof.
  assert (∀ d k rest d', Desk.tasks d ≡ₚ k :: rest → draws (Desk.with_tasks d rest) d' → draws d d') as Htaken.
  { intros d0 k rest d1 Hp Hd j [Hj|]%Hd; [left|by right]. by eapply taken_fresh. }
  assert (∀ d d', Desk.tasks d' = Desk.tasks d → draws d d') as Hsame by (intros d0 d1 Ht j; rewrite Ht; by left).
  assert (∀ d d', fresh_ids (Desk.tasks d') = fresh_ids (Desk.tasks d) → draws d d') as Hids by (intros d0 d1 Ht j; rewrite Ht; by left).
  destruct 1 as [d p Hp|d r|d r e a rest Hp _|d r drawn a rest Hp|d r code id b rest Hp|d r e via rest Hp
    |d id|d id|d id key at_ op dl e r rest Hp _ _|d click id b dl for_ rest Hp|d id b for_ rest Hp Ha|d id for_ rest Hp _
    |d k rest Hp|d id t|d id otp _|d id at_ op dl r rest Hp _ _|d click|d click e at_ a rest Hp|d click op_id dl e at_ r rest Hp _
    |d pass f de ee rest Hp _|d o Hf|d pass v o rest Hp Hf _|d Hf|d action err Hf|d Hf|d l Hk Hl|d l Hk Hl|d why l Hk Hl|d works|d e rest Hp _|d e rest Hp|d e _ _|d e];
    try (eapply Htaken; [exact Hp|]).
  - by apply Hsame.
  - by apply Hids.
  - apply dispatch_draws.
  - apply fresh_start_draws.
  - apply Hsame, fresh_insert_tasks.
  - apply Hsame, authorize_end_tasks.
  - apply Hsame, otp_timer_tasks.
  - intros j Hj. left. by apply (harmless_fresh _ _ (reveal_start_tasks d id)).
  - apply Hsame, reveal_finish_tasks.
  - apply Hids. by rewrite click_insert_tasks.
  - apply Hids, click_done_fresh.
  - apply Hids. by rewrite click_done_fresh, reap_timeout_tasks.
  - by apply Hsame.
  - apply Hsame, refuse_from_tasks.
  - intros j Hj. left. by apply (harmless_fresh _ _ (respond_start_tasks d id otp)).
  - apply Hsame, respond_finish_tasks.
  - apply Hids. unfold gate_start. by case_match.
  - apply gate_begin_draws.
  - apply Hids. unfold gate_verified. repeat case_match; unfold fresh_ids; simpl; by rewrite ?ops_finish_tasks, ?ops_retry_tasks.
  - apply Hsame, consume_tasks.
  - apply Hsame. unfold unlock_vault. by repeat case_match.
  - apply Hsame. unfold unlock_vault. by repeat case_match.
  - by apply Hsame.
  - apply Hsame. unfold rollback_unlock. by case_match.
  - by apply Hsame.
  - apply Hsame, clear_pending_tasks.
  - apply Hsame, clear_challenges_tasks.
  - apply Hsame, clear_ops_tasks.
  - by apply Hsame.
  - apply Hsame. by rewrite post_event_tasks.
  - by apply Hsame.
  - by apply Hsame.
  - by apply Hsame.
Qed.

(** ** The coordinator below *)

Lemma handle_otp_presence d r : rtc (step sha256) (Desk.presence d) (Desk.presence (handle_otp sha256 utc r d).2).
Proof.
  rewrite handle_otp_pruned. set (d1 := Desk.with_otp d _). change (Desk.presence d) with (Desk.presence d1). generalize d1. clear.
  intros d. assert (∀ d g, rtc (step sha256) (Desk.presence d) (Desk.presence (invalidate_gate d g))) as Hinv.
  { intros d0 g. unfold invalidate_gate. case_match; [apply rtc_once, step_invalidate|done]. }
  unfold handle_pruned, accept_otp, reuse_otp, refuse_otp, audit_otp_denied.
  repeat case_match; simplify_eq/=; try done; apply (Hinv (Desk.logged d _)).
Qed.

Lemma fresh_insert_presence d r code id b : rtc (step sha256) (Desk.presence d) (Desk.presence (fresh_insert r code id b d).2).
Proof.
  unfold fresh_insert, remove_challenge. repeat case_match; simpl; try done. unfold invalidate_gate.
  case_match; [apply rtc_once, step_invalidate|done].
Qed.

Lemma click_done_steady d d1 for_ id o : steady d d1 → steady d (click_done for_ id o d1).
Proof.
  intros H. unfold click_done. destruct for_; [destruct o; auto with steady|]. by apply gate_confirmed_steady.
Qed.

Lemma dispatch_presence d ts r e a :
  rtc (step sha256) (Desk.presence d) (Desk.presence (dispatch sha256 utc r e a (Desk.with_tasks d ts))).
Proof.
  unfold dispatch. destruct (approval_requirement r) as [[]|]; [done| | |done].
  - apply (steady_presence sha256 (Desk.with_tasks d ts)), click_start_steady, steady_refl.
  - pose proof (handle_otp_presence (Desk.with_tasks d ts) r) as H.
    by destruct (handle_otp _ _ _ _) as [[[[]|]|] d1].
Qed.

Lemma desk_step_presence d d' : desk_step sha256 utc d d' → rtc (step sha256) (Desk.presence d) (Desk.presence d').
Proof.
  destruct 1 as [d p Hp|d r|d r e a rest Hp _|d r drawn a rest Hp|d r code id b rest Hp|d r e via rest Hp
    |d id|d id|d id key at_ op dl e r rest Hp _ _|d click id b dl for_ rest Hp|d id b for_ rest Hp Ha|d id for_ rest Hp _
    |d k rest Hp|d id t|d id otp _|d id at_ op dl r rest Hp _ _|d click|d click e at_ a rest Hp|d click op_id dl e at_ r rest Hp _
    |d pass f de ee rest Hp _|d o Hf|d pass v o rest Hp Hf _|d Hf|d action err Hf|d Hf|d l Hk Hl|d l Hk Hl|d why l Hk Hl|d works|d e rest Hp _|d e rest Hp|d e _ _|d e].
  - by apply rtc_once.
  - done.
  - apply dispatch_presence.
  - apply (steady_presence _ (Desk.with_tasks d rest)), fresh_start_steady, steady_refl.
  - apply (fresh_insert_presence (Desk.with_tasks d rest)).
  - unfold authorize_end. by case_match.
  - apply steady_presence, otp_timer_steady, steady_refl.
  - apply steady_presence, reveal_start_steady, steady_refl.
  - apply (steady_presence _ (Desk.with_tasks d rest)), reveal_finish_steady, steady_refl.
  - apply (steady_presence _ (Desk.with_tasks d rest)), click_insert_steady, steady_refl.
  - apply (steady_presence _ (Desk.with_tasks d rest)), click_done_steady, steady_refl.
  - apply (steady_presence _ (Desk.with_tasks d rest)), click_done_steady, reap_timeout_steady, steady_refl.
  - done.
  - apply steady_presence, refuse_from_steady, steady_refl.
  - apply steady_presence, respond_start_steady, steady_refl.
  - apply (steady_presence _ (Desk.with_tasks d rest)), respond_finish_steady, steady_refl.
  - unfold gate_start. case_match eqn:Hb. simpl. by eapply rtc_once, step_begin.
  - apply (steady_presence _ (Desk.with_tasks d rest)), gate_begin_steady, steady_refl.
  - apply (steady_presence _ (Desk.with_tasks d rest)), gate_verified_steady, steady_refl.
  - apply (steady_presence sha256 (Desk.with_tasks d rest) (let '(o, d) := with_gated_handle pass f (Desk.with_tasks d rest) in
      record_gated_outcome pass o de ee d)), consume_steady, steady_refl.
  - apply steady_presence, unlock_vault_steady, steady_refl.
  - apply (steady_presence _ (Desk.with_tasks d rest)), unlock_vault_steady, steady_refl.
  - done.
  - apply steady_presence, rollback_steady, steady_refl.
  - done.
  - apply (steady_presence _ _ (clear_pending l d)), clear_pending_steady, steady_refl.
  - apply (steady_presence _ _ (clear_challenges l d)), clear_challenges_steady, steady_refl.
  - apply (steady_presence _ _ (clear_ops l d)), clear_ops_steady, steady_refl.
  - done.
  - apply (steady_presence _ (Desk.with_posts d rest)), post_event_steady, steady_refl.
  - done.
  - done.
  - done.
Qed.

Lemma desk_reachable_presence d : desk_reachable sha256 utc d → reachable sha256 (Desk.presence d).
Proof.
  unfold desk_reachable, reachable. intros Hr.
  change PresenceCoordinator.new with (Desk.presence Desk.new). induction Hr as [|d1 d2 d3 Hs _ IH]; [done|].
  etrans; [by apply desk_step_presence|done].
Qed.
(** ** Where passes come from *)

(** What a desk shows for a pass when it is made: in the session it is for, either a call of the
    coordinator ended because the native prompt it opened returned a positive outcome for an
    operation with the pass's digest; or, for an operation that is not protected, the prompt of
    a request with such an operation was shown and answered positively. *)
Definition earned (d : Desk.t) (pass : GatePass.t) : Prop :=
  GatePass.epoch pass = Desk.epoch d ∧
  ((∃ c o, c ∈ PresenceCoordinator.calls (Desk.presence d) ∧ OpDescriptor.digest sha256 (Call.op c) = GatePass.digest pass ∧
      Call.prompt c = Ended (Returned (Ok o)) ∧
      GatePass.presence pass = PresenceAudit.with_operation
        (PresenceAudit.authenticated (audit_modality (Outcome.modality o))) (GatePass.operation_id pass)) ∨
   (∃ id click, OpDescriptor.digest sha256 (ClickRequest.op click) = GatePass.digest pass ∧
      Prompted (click_prompt click id false) ∈ Desk.log d ∧ Answered id true ∈ Desk.log d ∧
      click_evidence sha256 (Desk.log d) id click false ∧
      GatePass.presence pass = PresenceAudit.with_operation PresenceAudit.click (GatePass.operation_id pass))).

(** The passes among some tasks are those among others, except for what [P] admits. *)
Definition passes_from (ts : list task) (P : GatePass.t → Prop) (d : Desk.t) : Prop :=
  ∀ pass, HoldingPass pass ∈ Desk.tasks d → HoldingPass pass ∈ ts ∨ P pass.

Lemma passes_same ts P d : Desk.tasks d = ts → passes_from ts P d.
Proof. intros Ht pass. rewrite Ht. by left. Qed.

Lemma passes_spawn ts P d k :
  Desk.tasks d = k :: ts → (∀ pass, k ≠ HoldingPass pass) → passes_from ts P d.
Proof. intros Ht Hk pass. rewrite Ht. intros [<-|]%elem_of_cons; [by destruct (Hk pass)|by left]. Qed.

Lemma passes_harmless P d d' : adds_harmless d d' → passes_from (Desk.tasks d) P d'.
Proof.
  intros [Ht|(k & Ht & Hk)]; [by apply passes_same|]. apply (passes_spawn _ _ _ k); [done|]. intros pass ->. done.
Qed.

Lemma passes_passed ts (P : GatePass.t → Prop) d pass : Desk.tasks d = ts → P pass → passes_from ts P (passed d pass).
Proof. intros Ht HP p. simpl. rewrite Ht. intros [[= ->]|]%elem_of_cons; auto. Qed.

Lemma click_start_passes d click for_ fixed a P : passes_from (Desk.tasks d) P (click_start click for_ fixed a d).
Proof.
  unfold click_start. destruct (fetch_id d) as [id d1] eqn:Hf. injection Hf as <- <-. destruct fixed as [[b dl]|].
  - by eapply passes_spawn.
  - destruct (classify _ a) as [b d2] eqn:Hc. apply classify_tasks in Hc. eapply passes_spawn; [simpl; by rewrite Hc|]. done.
Qed.

Lemma dispatch_passes d r e a P : passes_from (Desk.tasks d) P (dispatch sha256 utc r e a d).
Proof.
  unfold dispatch. destruct (approval_requirement r) as [[]|]; [by eapply passes_spawn|apply click_start_passes| |by apply passes_same].
  pose proof (handle_otp_tasks d r) as Ht.
  destruct (handle_otp _ _ _ _) as [[[[]|]|] d1]; simpl in *;
    first [by apply passes_same|eapply passes_spawn; [simpl; by rewrite Ht|]; done].
Qed.

Lemma fresh_start_passes d r drawn a P : passes_from (Desk.tasks d) P (fresh_start r drawn a d).2.
Proof.
  unfold fresh_start. case_match; [|by apply passes_same]. destruct (fetch_id d) as [id d1] eqn:Hf. injection Hf as <- <-.
  destruct (classify _ a) as [b d2] eqn:Hc. apply classify_tasks in Hc. eapply passes_spawn; [simpl; by rewrite Hc|]. done.
Qed.

Lemma gate_begin_passes d click e at_ a P : passes_from (Desk.tasks d) P (gate_begin sha256 click e at_ a d).2.
Proof.
  unfold gate_begin. set (digest := OpDescriptor.digest sha256 (ClickRequest.op click)). set (dl := (Desk.now d + _)%N).
  pose proof (ops_begin_tasks d digest dl a at_) as Ht.
  destruct (ops_begin digest dl a at_ d) as [[op|e'] d1]; simpl in *; [|by apply passes_same]. case_match.
  - eapply passes_spawn; [simpl; by rewrite Ht|]. done.
  - intros pass Hin. apply (click_start_passes d1 _ _ _ _ P) in Hin. by rewrite Ht in Hin.
Qed.

Lemma ops_finish_frame digest id d :
  Desk.tasks (ops_finish digest id d) = Desk.tasks d ∧ Desk.epoch (ops_finish digest id d) = Desk.epoch d.
Proof. unfold ops_finish. by repeat case_match. Qed.

(** A pass after a native prompt. *)
Lemma gate_verified_passes d rest click op_id dl e at_ r :
  reachable sha256 (Desk.presence d) → returned d at_ (ClickRequest.op click) dl r →
  passes_from rest (earned d) (gate_verified sha256 click op_id dl e at_ r (Desk.with_tasks d rest)).2.
Proof.
  intros Hb%reachable_bound (c & Hin & _ & Hop & _ & Hat). rewrite Forall_forall in Hb. specialize (Hb c Hin).
  unfold call_bound in Hb. rewrite Hat in Hb. unfold gate_verified.
  set (digest := OpDescriptor.digest sha256 (ClickRequest.op click)).
  destruct (ops_finish_frame digest op_id (Desk.with_tasks d rest)) as [Ht He].
  destruct r as [v|denial]; [|destruct denial; apply passes_same; [apply (ops_retry_tasks (Desk.with_tasks d rest))|done..]].
  destruct Hb as (_ & Hdig & Hprompt). rewrite He. simpl Desk.epoch.
  destruct (bool_decide _); [|by apply passes_same]. destruct (_ <? _)%N; [by apply passes_same|].
  destruct (N.eqb_spec (Desk.epoch d) e) as [<-|]; [|by apply passes_same]. simpl. apply passes_passed; [done|].
  split; [done|]. left. exists c, (Verified.outcome v). split_and!; try done. by rewrite Hop.
Qed.

(** A pass after a click. *)
Lemma click_done_passes d rest id b for_ :
  AwaitingAnswer id for_ ∈ Desk.tasks d → Answered id b ∈ Desk.log d → click_inv d (Desk.tasks d) →
  passes_from rest (earned d) (click_done for_ id (click_outcome b) (Desk.with_tasks d rest)).
Proof.
  intros Hin Ha Hc. unfold click_done. destruct for_ as [r e|digest op_id epoch].
  - destruct b; [by eapply passes_spawn|by apply passes_same].
  - unfold gate_confirmed. destruct (ops_finish_frame digest op_id (Desk.with_tasks d rest)) as [Ht He].
    destruct b; [|by apply passes_same]. simpl click_outcome. cbn iota. rewrite He. simpl Desk.epoch.
    destruct (N.eqb_spec (Desk.epoch d) epoch) as [<-|]; [|by apply passes_same]. simpl. apply passes_passed; [done|].
    destruct (ci_tasks _ _ _ Hc _ Hin) as (click & b & [-> Hdig] & [_ _ Hev] & Hpr & _).
    split; [done|]. right. exists id, click. split_and!; try done. by apply Hev.
Qed.

Lemma desk_step_passes d d' :
  desk_step sha256 utc d d' → desk_reachable sha256 utc d → passes_from (Desk.tasks d) (earned d) d'.
Proof.
  intros Hs Hr. pose proof (proj2 (desk_reachable_inv _ Hr)) as Hc. apply desk_reachable_presence in Hr.
  assert (∀ k rest, Desk.tasks d ≡ₚ k :: rest → passes_from rest (earned d) d' → passes_from (Desk.tasks d) (earned d) d') as Htaken.
  { intros k rest Hp H pass [Hin|]%H; [left|by right]. rewrite Hp. by right. }
  revert Hr Hc Htaken.
  destruct Hs as [d p Hp|d r|d r e a rest Hp _|d r drawn a rest Hp|d r code id b rest Hp|d r e via rest Hp
    |d id|d id|d id key at_ op dl e r rest Hp _ _|d click id b dl for_ rest Hp|d id b for_ rest Hp Ha|d id for_ rest Hp _
    |d k rest Hp|d id t|d id otp _|d id at_ op dl r rest Hp _ _|d click|d click e at_ a rest Hp|d click op_id dl e at_ r rest Hp Hret
    |d pass f de ee rest Hp _|d o Hf|d pass v o rest Hp Hf _|d Hf|d action err Hf|d Hf|d l Hk Hl|d l Hk Hl|d why l Hk Hl|d works|d e rest Hp _|d e rest Hp|d e _ _|d e];
    intros Hr Hc Htaken; try (apply (Htaken _ _ Hp)).
  - by apply passes_same.
  - by eapply passes_spawn.
  - apply dispatch_passes.
  - apply fresh_start_passes.
  - apply passes_same, fresh_insert_tasks.
  - apply passes_same, authorize_end_tasks.
  - apply passes_same, otp_timer_tasks.
  - apply passes_harmless, reveal_start_tasks.
  - apply passes_same, reveal_finish_tasks.
  - eapply passes_spawn; [by rewrite click_insert_tasks|]. done.
  - apply click_done_passes; [|done..]. rewrite Hp. left.
  - unfold click_done. destruct for_; apply passes_same; [apply reap_timeout_tasks|]. unfold gate_confirmed. simpl.
    by rewrite ops_finish_tasks, reap_timeout_tasks.
  - by apply passes_same.
  - apply passes_same, refuse_from_tasks.
  - apply passes_harmless, respond_start_tasks.
  - apply passes_same, respond_finish_tasks.
  - unfold gate_start. case_match. by eapply passes_spawn.
  - apply gate_begin_passes.
  - by apply gate_verified_passes.
  - apply passes_same, consume_tasks.
  - apply passes_same. unfold unlock_vault. by repeat case_match.
  - apply passes_same. unfold unlock_vault. by repeat case_match.
  - by apply passes_same.
  - apply passes_same. unfold rollback_unlock. by case_match.
  - by apply passes_same.
  - apply passes_same, clear_pending_tasks.
  - apply passes_same, clear_challenges_tasks.
  - apply passes_same, clear_ops_tasks.
  - by apply passes_same.
  - apply passes_same. by rewrite post_event_tasks.
  - by apply passes_same.
  - by apply passes_same.
  - by apply passes_same.
Qed.

(** Every pass that a call holds was earned at some moment of the run. *)
Lemma held_pass_earned d pass :
  desk_reachable sha256 utc d → HoldingPass pass ∈ Desk.tasks d →
  ∃ d0, desk_reachable sha256 utc d0 ∧ rtc (desk_step sha256 utc) d0 d ∧ earned d0 pass.
Proof.
  intros Hr. revert pass. revert d Hr.
  apply (rtc_ind_r (λ d, ∀ pass, HoldingPass pass ∈ Desk.tasks d →
    ∃ d0, desk_reachable sha256 utc d0 ∧ rtc (desk_step sha256 utc) d0 d ∧ earned d0 pass)).
  { intros pass Hin. by apply elem_of_nil in Hin. }
  intros d1 d2 Hr Hs IH pass Hin.
  destruct (desk_step_passes _ _ Hs Hr _ Hin) as [Hold|He].
  - destruct (IH _ Hold) as (d0 & H0 & H01 & He). exists d0. split_and!; [done| |done]. by eapply rtc_r.
  - exists d1. split_and!; [done|by apply rtc_once|done].
Qed.

(** The log only grows. *)
Lemma desk_step_log d d' : desk_step sha256 utc d d' → Desk.log d ⊆ Desk.log d'.
Proof.
  intros Hs. apply desk_step_kind in Hs.
  destruct Hs as [d' Hc|click j b dl d1 d2 d' Hj Hc1 Hc2 Hc3|d1 b Hfree Hc|Hfree|d1 Hk Hc Hnone|d1 s s' Hk Hs Hs' Hc];
    [by eapply calm_log_mono|..|by eapply (calm_log_mono _ _ d1)].
  - apply calm_log_mono in Hc1, Hc2, Hc3. simpl in Hc2. set_solver.
  - by eapply (calm_log_mono _ _ d1).
  - done.
  - by eapply (calm_log_mono _ _ d1).
Qed.
Lemma desk_steps_log d d' : rtc (desk_step sha256 utc) d d' → Desk.log d ⊆ Desk.log d'.
Proof. induction 1 as [|d1 d2 d3 Hs _ IH]; [done|]. apply desk_step_log in Hs. set_solver. Qed.
End steps.
