(* ===== verification/DesktopTheorems.v ===== *)
(** * DesktopTheorems: what a person's decision at the desktop lets through *)
From Stdlib Require Import ZifyN ZifyNat ZifyBool.
From stdpp Require Import pretty.
From S2P Require Import Prelude Text Json AuditTypes Fs Crypto Storage PresenceOp Gate Coordinator Scopes Approvals Clicks DesktopGate DesktopSpec DesktopOtp DesktopInv.

Section theorems.
Context (sha256 : list N → list N) (utc : Instant → Z).
Notation reachable := (desk_reachable sha256 utc).

(** ** Agents *)

(** C3: When the authorization of an agent's request comes back positive, the vault has not been
    locked or unlocked since the request was made; and unless the request needs nobody, it is
    unlocked, and the call was let through by an approval or a code of its own.  For a click, the
    approval [id] that this very call asked for: its prompt was shown for this request, it was
    answered positively, with a verification of this request by the native prompt if it was
    protected, and its record was offered to the audit log.  For a one-time code, the code [id]
    that the call brought: made for a request with the same signature, shown or revealed at the
    desktop (after a verification if it was protected), tried successfully, and its record
    offered.  The same approval or code has let no call through before, and no other call in
    progress holds it or waits for it.  (Offered: the code ignores a failure of the audit log.) *)
Theorem authorization_is_earned d request epoch via d' :
  reachable d → Checking request epoch via ∈ Desk.tasks d → authorize_end request epoch via d = (Ok tt, d') →
  Desk.epoch d = epoch ∧
  (approval_requirement request = Ok ApprovalPromptKind.NotRequired ∨
   ∃ id, via = Some id ∧ Desk.unlocked d = true ∧
     (approval_requirement request = Ok ApprovalPromptKind.Click ∧ click_granted sha256 (Desk.log d) request id ∨
      approval_requirement request = Ok ApprovalPromptKind.Otp ∧ otp_evidence sha256 (Desk.log d) request id) ∧
     (∀ r e, Granted r e (Some id) ∉ Desk.log d) ∧ held id (Desk.tasks d) = 1).
Proof.
  intros Hr Hin. unfold authorize_end. destruct (N.eqb_spec (Desk.epoch d) epoch) as [He|]; [|done]. intros _. split; [done|].
  pose proof (desk_reachable_inv _ _ _ Hr) as [_ Hc]. destruct (ci_tasks _ _ _ Hc _ Hin) as [_ Hg]. unfold granted_ok in Hg.
  destruct (approval_requirement request) as [k|]; [|by destruct via]. destruct k; [by left|right..].
  all: destruct via as [id|]; [|done]; destruct Hg as [Hu Hg]; exists id.
  all: pose proof (ui_once _ _ (desk_reachable_use _ _ _ Hr) id) as Hone; unfold uses in Hone.
  all: pose proof (held_in id _ _ Hin) as Hh; simpl in Hh; rewrite N.eqb_refl in Hh.
  all: split_and!; [done|by apply Hu|by auto| |lia].
  all: intros r e Hgr; assert (0 < occurrences (is_grant id) (Desk.log d)); [|lia].
  all: apply occurrences_pos; eexists; split; [exact Hgr|by apply N.eqb_refl].
Qed.

(** C5: A protected request is approved only by its own native prompt: when the finisher of
    [respond] succeeds, the request was still pending and within its deadline, its gate was
    waiting for this attempt, a call of the coordinator for this attempt ended because the
    native prompt it opened returned a positive outcome, and the operation that was shown there
    has the digest of the request; the vault was unlocked, and the record of the approval with
    that modality was offered to the audit log before the answer was sent.  The answer is sent
    whether or not the log took the record. *)
Theorem approval_is_verified d id attempt op deadline r d' :
  reachable d → returned d attempt op deadline r → respond_finish sha256 utc id attempt r d = (Ok tt, d') →
  ∃ e c o, Desk.pending d !! id = Some e ∧ (Desk.now d ≤ PendingApproval.deadline e)%N ∧
    PendingApproval.gate e = GateState.Verifying attempt (OpDescriptor.digest sha256 (PendingApproval.op e)) ∧
    c ∈ PresenceCoordinator.calls (Desk.presence d) ∧ Call.attempt c = attempt ∧
    OpDescriptor.digest sha256 (Call.op c) = OpDescriptor.digest sha256 (PendingApproval.op e) ∧
    Call.prompt c = Ended (Returned (Ok o)) ∧ Desk.unlocked d = true ∧
    Desk.log d' =
      [Answered id true;
       Recorded (allowed_record (utc (Desk.now d)) (PendingApproval.audit_action e)
                   (PresenceAudit.authenticated (audit_modality (Outcome.modality o))) (approval_operation id))
         (Desk.auditing d);
       Confirmed id (OpDescriptor.digest sha256 (PendingApproval.op e)) o] ++ Desk.log d.
Proof.
  intros Hr%desk_reachable_presence%reachable_bound (c & Hin & Ha & _ & _ & Hat). rewrite Forall_forall in Hr.
  specialize (Hr c Hin). unfold call_bound in Hr. rewrite Hat in Hr. unfold respond_finish.
  destruct (Desk.pending d !! id) as [e|] eqn:He; [|done]. destruct r as [v|[]]; try done. destruct Hr as (_ & Hdig & Hprompt).
  destruct (GateState.finish _ _ _ _ _ _) as [g r] eqn:Hf. simpl. destruct r; [|done].
  apply finish_ok_current in Hf as (_ & Hg & Hv & Hnow). simpl. destruct (Desk.unlocked d) eqn:Hu; [|done]. intros [= _ <-].
  exists e, c, (Verified.outcome v). split_and!; try done. congruence.
Qed.

(** An approval does not wait for the audit log: on a desk whose log fails the same answer is
    sent, and the record is lost. *)
Lemma approval_without_record d id attempt r d' :
  Desk.auditing d = false → respond_finish sha256 utc id attempt r d = (Ok tt, d') →
  Answered id true ∈ Desk.log d' ∧ ∀ e, Recorded e true ∈ Desk.log d' → Recorded e true ∈ Desk.log d.
Proof.
  intros Hb. unfold respond_finish. destruct (Desk.pending d !! id) as [e|]; [|done]. destruct r as [v|[]]; try done.
  destruct (GateState.finish _ _ _ _ _ _) as [g r]. simpl. destruct r; [|done]. simpl.
  destruct (Desk.unlocked d); [|done]. intros [= _ <-]. simpl. rewrite Hb. split; [left|].
  intros e'. rewrite !elem_of_cons. naive_solver.
Qed.

(** A request is answered at most once, and is not pending any more when it has been. *)
Theorem answered_at_most_once d id :
  reachable d →
  occurrences (is_answer id) (Desk.log d) ≤ 1 ∧
  (is_Some (Desk.pending d !! id) → occurrences (is_answer id) (Desk.log d) = 0).
Proof.
  intros [_ Hc]%desk_reachable_inv. split; [apply (ci_once _ _ _ Hc)|]. intros [e He].
  destruct (decide (0 < occurrences (is_answer id) (Desk.log d))) as [Hp|]; [|lia].
  destruct (ci_answers _ _ _ Hc id Hp). congruence.
Qed.

(** C21: For each one-time code at most five wrong codes are tried and at most one right one, whatever
    requests come and however the prompts end, and there are never more than 1024 codes. *)
Theorem one_time_codes_bounded d id :
  reachable d →
  tries id false (Desk.log d) ≤ N.to_nat OTP_MAX_ATTEMPTS ∧ tries id true (Desk.log d) ≤ 1 ∧
  size (Desk.otp_pending d) ≤ OTP_MAX_PENDING.
Proof.
  intros [Ho _]%desk_reachable_inv. destruct (oi_bound _ _ _ Ho id). split_and!; [done..|]. apply (oi_size _ _ _ Ho).
Qed.

(** ** Locking *)

(** Where a request that was pending when a lock began can be. *)
Record ending (e : PendingApproval.t) (id : N) (d : Desk.t) : Prop := {
  en_id : (id < Desk.next_id d)%N;
  en_unanswered : Answered id true ∉ Desk.log d;
  en_pending : Desk.pending d !! id = None ∨
    (∃ g, Desk.pending d !! id = Some (PendingApproval.with_gate e g)) ∧ Desk.locking d = Some ClearPending ∧
    Desk.unlocked d = false
}.

Lemma ending_calm e id d d' :
  PendingApproval.pre_unlock e = false → calm sha256 d d' → ending e id d → ending e id d'.
Proof.
  intros Hpre [Hu _ Hk Hn Hp (l & Hl & [_ Ha Hev])] [Hid Hno Hcase]. split; [lia| |].
  - rewrite Hl, elem_of_app. intros [Hin|]; [|done]. destruct (Hev id Hin) as (e' & He' & Happ).
    destruct Hcase as [|[[g Hg] [_ Hun]]]; [congruence|]. rewrite He' in Hg. injection Hg as ->.
    unfold approval_evidence in Happ. rewrite Hun in Happ. simpl in Happ. destruct Happ. congruence.
  - destruct Hcase as [Hnone|[[g Hg] [Hk1 Hu1]]]; [left; by eapply shrinks_None|].
    destruct (Desk.pending d' !! id) as [e'|] eqn:He'; [|by left]. right. split; [|split; congruence].
    apply Hp in He' as (e0 & g' & He0 & ->). rewrite Hg in He0. injection He0 as <-. by exists g'.
Qed.

(** Once the handle is free, or the map was drained, the request is gone. *)
Lemma ending_gone e id d : Desk.locking d ≠ Some ClearPending → ending e id d → Desk.pending d !! id = None.
Proof. intros Hk [_ _ [?|(_ & ? & _)]]; [done|congruence]. Qed.

Lemma ending_of_gone e id d d1 :
  Desk.pending d1 !! id = None → Desk.next_id d1 = Desk.next_id d → Desk.log d1 = Desk.log d → ending e id d → ending e id d1.
Proof. intros Hp Hn Hl [? ? _]. split; [by rewrite Hn|by rewrite Hl|by left]. Qed.

Lemma ending_step e id d d' :
  PendingApproval.pre_unlock e = false → desk_step sha256 utc d d' → id ∉ fresh_ids (Desk.tasks d) → ending e id d → ending e id d'.
Proof.
  intros Hpre Hs Hf He. apply (desk_step_kind sha256) in Hs.
  destruct Hs as [d' Hc|click j b dl d1 d2 d' Hj Hc1 Hc2 Hc3|d1 b Hfree Hc|Hfree|d1 Hk Hc Hnone|d1 s s' Hk Hs Hs' Hc].
  - by eapply ending_calm.
  - pose proof (ending_calm _ _ _ _ Hpre Hc1 He) as [Hi Hno Hcase]. apply (ending_calm _ _ d2); [done..|].
    apply (ending_calm _ _ (opened click j b dl d1)); [done..|]. split; [done..|]. simpl.
    rewrite lookup_insert_ne by (by intros ->). done.
  - pose proof (ending_calm _ _ _ _ Hpre Hc He) as H1. apply (ending_of_gone _ _ d1); [|done..]. apply (ending_gone e id d1); [|done].
    rewrite (calm_locking _ _ _ Hc), Hfree. done.
  - apply (ending_of_gone _ _ d); [|done..]. apply (ending_gone e id d); [|done]. by rewrite Hfree.
  - pose proof (ending_calm _ _ _ _ Hpre Hc He) as H1. apply (ending_of_gone _ _ d1); [|done..]. simpl. by rewrite Hnone.
  - pose proof (ending_calm _ _ _ _ Hpre Hc He) as H1. apply (ending_of_gone _ _ d1); [|done..]. apply (ending_gone e id d1); [|done].
    rewrite (calm_locking _ _ _ Hc), Hk. congruence.
Qed.

Lemma step_next_id d d' : desk_step sha256 utc d d' → (Desk.next_id d ≤ Desk.next_id d')%N.
Proof.
  intros Hs. apply (desk_step_kind sha256) in Hs.
  destruct Hs as [d' Hc|click j b dl d1 d2 d' Hj Hc1 Hc2 Hc3|d1 b Hfree Hc|Hfree|d1 Hk Hc Hnone|d1 s s' Hk Hs Hs' Hc];
    try apply (calm_next _ _ _ Hc); [|done].
  apply calm_next in Hc1, Hc2, Hc3. simpl in Hc2. lia.
Qed.

Lemma ending_steps e id d d' :
  PendingApproval.pre_unlock e = false → rtc (desk_step sha256 utc) d d' → id ∉ fresh_ids (Desk.tasks d) → ending e id d →
  ending e id d'.
Proof.
  intros Hpre Hs. induction Hs as [|d1 d2 d3 Hs _ IH]; [done|]. intros Hf He. apply IH; [|by eapply ending_step].
  intros Hin. apply (desk_step_draws _ _ _ _ Hs) in Hin as [|]; [done|]. destruct He. lia.
Qed.

(** C4: A lock ends every pending decision: a request that is pending when a lock begins, other than
    the consent to unlock the vault itself, is never approved afterwards, in this session or a
    later one; and it is gone as soon as the lock has got past the pending requests, which it
    does before it gives the vault's handle back. *)
Theorem lock_ends_pending d d' id e :
  reachable d → Desk.handle_free d → Desk.pending d !! id = Some e → PendingApproval.pre_unlock e = false →
  rtc (desk_step sha256 utc) (lock_start d) d' →
  Answered id true ∉ Desk.log d' ∧ (Desk.locking d' ≠ Some ClearPending → Desk.pending d' !! id = None).
Proof.
  intros Hr%desk_reachable_inv Hfree He Hpre Hs. destruct Hr as [_ Hc].
  assert (ending e id d') as Hend.
  { eapply ending_steps; [done|exact Hs| |].
    - intros Hin. destruct (ci_fresh _ _ _ Hc id Hin) as [Hn _]. congruence.
    - split; [by apply (ci_pending _ _ _ Hc id e)| |].
      + intros Hin%answered_counts. destruct (ci_answers _ _ _ Hc id Hin). congruence.
      + right. split; [|done]. exists (PendingApproval.gate e). simpl. by rewrite with_gate_same. }
  split; [apply Hend|]. intros Hk. by apply (ending_gone e).
Qed.

(** ** Desktop operations *)

(** C19: A pass is earned: it is made for the operation that was asked about, in the session in which
    it was asked; after a native prompt, a call of the coordinator for the same attempt ended
    because its prompt returned a positive outcome for an operation with this digest, within the
    deadline; after a click, which only an unprotected operation gets, the prompt for a request
    with this operation was shown and answered positively. *)
Theorem gate_pass_is_earned d pass :
  reachable d →
  (∀ click op_id deadline epoch attempt r d',
     returned d attempt (ClickRequest.op click) deadline r →
     gate_verified sha256 click op_id deadline epoch attempt r d = (Ok pass, d') →
     GatePass.digest pass = OpDescriptor.digest sha256 (ClickRequest.op click) ∧ GatePass.epoch pass = Desk.epoch d ∧
     Desk.epoch d = epoch ∧ (Desk.now d ≤ deadline)%N ∧
     ∃ c o, c ∈ PresenceCoordinator.calls (Desk.presence d) ∧ Call.attempt c = attempt ∧
       OpDescriptor.digest sha256 (Call.op c) = GatePass.digest pass ∧ Call.prompt c = Ended (Returned (Ok o)) ∧
       GatePass.presence pass = PresenceAudit.with_operation
         (PresenceAudit.authenticated (audit_modality (Outcome.modality o))) (GatePass.operation_id pass)) ∧
  (∀ id digest op_id epoch d',
     AwaitingAnswer id (ForGate digest op_id epoch) ∈ Desk.tasks d → Answered id true ∈ Desk.log d →
     gate_confirmed digest op_id epoch (Ok tt) d = (Ok pass, d') →
     GatePass.digest pass = digest ∧ GatePass.epoch pass = Desk.epoch d ∧ Desk.epoch d = epoch ∧
     ∃ click, OpDescriptor.digest sha256 (ClickRequest.op click) = digest ∧
       Prompted (click_prompt click id false) ∈ Desk.log d ∧ click_evidence sha256 (Desk.log d) id click false).
Proof.
  intros Hr. split.
  - intros click op_id deadline epoch attempt r d' (c & Hin & Ha & Hop & _ & Hat). unfold gate_verified.
    pose proof (desk_reachable_presence _ _ _ Hr) as Hb%reachable_bound. rewrite Forall_forall in Hb. specialize (Hb c Hin).
    unfold call_bound in Hb. rewrite Hat in Hb. destruct r as [v|[]]; try done. destruct Hb as (_ & Hdig & Hprompt).
    assert (Desk.epoch (ops_finish (OpDescriptor.digest sha256 (ClickRequest.op click)) op_id d) = Desk.epoch d ∧
      Desk.now (ops_finish (OpDescriptor.digest sha256 (ClickRequest.op click)) op_id d) = Desk.now d) as [He Hn]
      by (unfold ops_finish; by repeat case_match). rewrite He, Hn.
    destruct (bool_decide _); [|done]. destruct (N.ltb_spec deadline (Desk.now d)); [done|].
    destruct (N.eqb_spec (Desk.epoch d) epoch) as [Hep|]; [|done]. simpl. intros [= <- _]. split_and!; [done..|].
    exists c, (Verified.outcome v). split_and!; try done. by rewrite Hop.
  - intros id digest op_id epoch d' Hin Ha. unfold gate_confirmed.
    assert (Desk.epoch (ops_finish digest op_id d) = Desk.epoch d) as -> by (unfold ops_finish; by repeat case_match).
    destruct (N.eqb_spec (Desk.epoch d) epoch) as [Hep|]; [|done]. simpl. intros [= <- _]. split_and!; [done..|].
    destruct (desk_reachable_inv _ _ _ Hr) as [_ Hc].
    destruct (ci_tasks _ _ _ Hc _ Hin) as (click & b & [-> Hdig] & [_ _ Hev] & Hpr & _). exists click. auto.
Qed.


(** What becomes of an event that was handed over: once the handle is free it is offered to the
    audit log, or lost when the vault is locked by then. *)
Lemma handed_over_event d e rest :
  Desk.posts d ≡ₚ e :: rest → Desk.handle_free d →
  ∃ d', desk_step sha256 utc d d' ∧ Desk.posts d' = rest ∧
    Desk.log d' = (if Desk.unlocked d then [Recorded e (Desk.auditing d)] else []) ++ Desk.log d.
Proof.
  intros Hp Hf. eexists. split; [by apply desk_post|]. unfold post_event. simpl. by destruct (Desk.unlocked d).
Qed.
End theorems.

(** ** Sample runs *)

Module SampleDesk.
Definition sha : list N → list N := SampleRun.sha.
Definition utc (n : Instant) : Z := Z.of_N n.
Definition reach := desk_reachable sha utc.
Definition hello : Availability.t := Availability.Protected [Modality.Pin].
Definition bare : Availability.t := Availability.Unavailable Reason.NotConfigured.

Definition request (mode : SecurityMode.t) (otp : option string) : AccessRequest.t :=
  AccessRequest.mk AccessTransport.McpWs AccessAction.ReadFile (Some "keys") (Some "a.txt") (Some mode) None (Some "agent") otp
    "context" None.

(** A step from a state that was reached. *)
Lemma then_step d d' : reach d → desk_step sha utc d d' → reach d'.
Proof. intros Hr Hs. by eapply rtc_r. Qed.

Definition open : Desk.t := Desk.published Desk.new true.
Lemma open_reach : reach open.
Proof. eapply then_step; [apply rtc_refl|]. by apply desk_publish. Qed.

(** An agent asks for a click; [a] is the system's answer to who can be verified. *)
Definition reading : AccessRequest.t := request SecurityMode.Approval None.
Definition asked : Desk.t := authorize_start reading open.
Definition asking (a : Availability.t) : Desk.t := dispatch sha utc reading 1 a (Desk.with_tasks asked []).
Definition protected (a : Availability.t) : bool := match a with Availability.Protected _ => true | _ => false end.
Definition shown (a : Availability.t) : Desk.t :=
  click_insert utc (ClickRequest.from_access reading) 1 (protected a) (secs 120) (ForAgent reading 1) (Desk.with_tasks (asking a) []).

Lemma shown_reach a : reach (shown a).
Proof.
  assert (reach asked) as H1 by (eapply then_step; [apply open_reach|apply desk_authorize]).
  assert (reach (asking a)) as H2 by (eapply then_step; [exact H1|]; by apply desk_dispatch).
  eapply then_step; [exact H2|]. apply desk_click. by destruct a.
Qed.

(** It is approved with a click. *)
Definition approved : Desk.t := (respond_start sha utc 1 None (shown bare)).2.
Definition answered : Desk.t := click_done (ForAgent reading 1) 1 (click_outcome true) (Desk.with_tasks approved []).
Lemma approved_reach : reach approved.
Proof. eapply then_step; [apply (shown_reach bare)|]. by apply desk_respond. Qed.
Lemma answered_reach : reach answered.
Proof.
  eapply then_step; [apply approved_reach|]. apply (desk_answered _ _ _ 1%N true); [done|]. apply (list_elem_of_lookup_2 _ 0). reflexivity.
Qed.

(** It is approved behind the native prompt. *)
Definition bound : OpDescriptor.t := bound_op (op_for_access reading) 1.
Definition prompting : Desk.t := (respond_start sha utc 1 None (shown hello)).2.
Definition start (a : AttemptId) (op : OpDescriptor.t) (d : Desk.t) : Desk.t :=
  Desk.with_presence d (PresenceCoordinator.verify_start (Desk.presence d) a op (secs 120)).
Definition held : Call.t := Call.mk 1%N bound (secs 120) Coordinator.Holding NotSpawned.
Definition open_prompt : Call.t := Call.spawn held (OpDescriptor.digest sha bound).
Definition closed : Call.t := Call.end_prompt open_prompt (Returned (Ok (Outcome.mk Modality.Pin))).
Definition verified : Verified.t := Verified.mk 1%N (OpDescriptor.digest sha bound) (Outcome.mk Modality.Pin).
Definition calls_of (slot : N) (c : Call.t) (d : Desk.t) : Desk.t :=
  Desk.with_presence d (PresenceCoordinator.set (Desk.presence d) slot 0%N [c]).
Definition done_ : Call.t := Call.move closed (Finished (Ok verified)).
Definition started : Desk.t := start 1%N bound prompting.
Definition prompted : Desk.t := calls_of 0%N open_prompt started.
Definition returned_ : Desk.t := calls_of 1%N closed prompted.
Definition confirmed : Desk.t := calls_of 1%N done_ returned_.

Lemma call_moves d d' n c c' :
  PresenceCoordinator.calls (Desk.presence d) = [c] → call_step sha (Desk.presence d) c n 0%N c' → d' = calls_of n c' d → reach d → reach d'.
Proof. intros Hc Hs -> Hr. eapply then_step; [exact Hr|]. apply desk_presence. by apply (step_call _ _ [] c []). Qed.

Lemma confirmed_reach : reach confirmed.
Proof.
  assert (reach prompting) as H1 by (eapply then_step; [apply (shown_reach hello)|]; by apply desk_respond).
  assert (reach (start 1%N bound prompting)) as H2.
  { eapply then_step; [exact H1|]. apply desk_presence, step_verify. vm_compute. set_solver. }
  apply (call_moves returned_ confirmed 1%N closed done_); [reflexivity| |reflexivity|].
  { apply (call_concluded sha (Desk.presence returned_) closed (OpDescriptor.digest sha bound) (Returned (Ok (Outcome.mk Modality.Pin)))); [reflexivity| |reflexivity].
    vm_compute. set_solver. }
  apply (call_moves prompted returned_ 1%N open_prompt closed); [reflexivity|by apply (call_prompt_ended sha (Desk.presence prompted) open_prompt (Returned (Ok (Outcome.mk Modality.Pin))))|reflexivity|].
  apply (call_moves started prompted 0%N held open_prompt); [reflexivity| |reflexivity|exact H2].
  apply (call_spawned sha (Desk.presence started) held); [reflexivity|vm_compute; set_solver|reflexivity].
Qed.

(** A one-time code, and a wrong answer. *)
Definition coded (otp : option string) : AccessRequest.t := request SecurityMode.Otp otp.
Definition wanted : Desk.t := Desk.with_tasks (authorize_start (coded None) open) [].
Definition issuing : Desk.t := (fresh_start (coded None) (Ok [0; 0; 4; 210]%N) bare (Desk.with_tasks (dispatch sha utc (coded None) 1 bare wanted) [])).2.
Definition issued : Desk.t := (fresh_insert (coded None) "001234" 1 false (Desk.with_tasks issuing [])).2.
Definition guessed : Desk.t := dispatch sha utc (coded (Some "000000")) 1 bare (Desk.with_tasks (authorize_start (coded (Some "000000")) issued) []).

Lemma issued_reach : reach issued.
Proof.
  assert (reach (dispatch sha utc (coded None) 1 bare wanted)) as H1.
  { eapply then_step; [eapply then_step; [apply open_reach|apply desk_authorize]|]. by apply desk_dispatch. }
  assert (reach issuing) as H2 by (eapply then_step; [exact H1|]; by apply desk_fresh).
  eapply then_step; [exact H2|]. by apply desk_issue.
Qed.
Lemma guessed_reach : reach guessed.
Proof. eapply then_step; [eapply then_step; [apply issued_reach|apply desk_authorize]|]. by apply desk_dispatch. Qed.

(** A desktop operation behind a click. *)
Definition unlock_click : ClickRequest.t := ClickRequest.desktop sha "Reveal" AuditAction.ReadFile (OpDescriptor.new "reveal").
Definition digest : OpDigest := OpDescriptor.digest sha (OpDescriptor.new "reveal").
Definition gated : Desk.t := (gate_begin sha unlock_click 1 1%N bare (Desk.with_tasks (gate_start unlock_click open) [])).2.
Definition gate_shown : Desk.t := click_insert utc unlock_click 1 false (secs 120) (ForGate digest 1 1) (Desk.with_tasks gated []).
Definition consented : Desk.t := (respond_start sha utc 1 None gate_shown).2.
Definition pass : GatePass.t := pass_of PresenceAudit.click digest 1 1.

Lemma consented_reach : reach consented.
Proof.
  assert (reach gated) as H1.
  { eapply then_step; [eapply then_step; [apply open_reach|apply (desk_gate _ _ _ unlock_click)]|]. by apply desk_gate_begin. }
  assert (reach gate_shown) as H2 by (eapply then_step; [exact H1|]; by apply desk_click).
  eapply then_step; [exact H2|]. by apply desk_respond.
Qed.

(** The vault is locked while a request is shown. *)
Definition drained (d : Desk.t) : Desk.t :=
  Desk.with_locking (clear_pending (map_to_list (Desk.pending d)) (lock_start d)) (Some ClearChallenges).
Lemma drained_steps d : rtc (desk_step sha utc) (lock_start d) (drained d).
Proof. by apply rtc_once, desk_lock_pending. Qed.
Definition locked : Desk.t := drained (shown bare).
Lemma locked_steps : rtc (desk_step sha utc) (lock_start (shown bare)) locked.
Proof. apply drained_steps. Qed.
End SampleDesk.

Lemma authorization_is_earned_witness :
  Desk.epoch SampleDesk.answered = 1%N ∧ Desk.unlocked SampleDesk.answered = true ∧
  click_granted SampleDesk.sha (Desk.log SampleDesk.answered) SampleDesk.reading 1%N ∧
  held 1%N (Desk.tasks SampleDesk.answered) = 1.
Proof.
  destruct (authorization_is_earned SampleDesk.sha SampleDesk.utc SampleDesk.answered SampleDesk.reading 1%N (Some 1%N)
    (authorize_end SampleDesk.reading 1%N (Some 1%N) SampleDesk.answered).2)
    as (He & [Hn|(id & Hid & Hu & [[_ Hc]|[Ho _]] & _ & Hone)]).
  - apply SampleDesk.answered_reach.
  - apply (list_elem_of_lookup_2 _ 0). reflexivity.
  - reflexivity.
  - discriminate Hn.
  - injection Hid as <-. by split_and!.
  - discriminate Ho.
Defined.

Lemma approval_is_verified_witness :
  ∃ c o, c ∈ PresenceCoordinator.calls (Desk.presence SampleDesk.confirmed) ∧ Call.attempt c = 1%N ∧
    Call.prompt c = Ended (Returned (Ok o)) ∧ Desk.unlocked SampleDesk.confirmed = true.
Proof.
  destruct (approval_is_verified SampleDesk.sha SampleDesk.utc SampleDesk.confirmed 1%N 1%N SampleDesk.bound (secs 120)
    (Ok SampleDesk.verified) (respond_finish SampleDesk.sha SampleDesk.utc 1%N 1%N (Ok SampleDesk.verified) SampleDesk.confirmed).2)
    as (e & c & o & _ & _ & _ & Hc & Ha & _ & Hp & Hu & _).
  - apply SampleDesk.confirmed_reach.
  - exists SampleDesk.done_. split_and!; try reflexivity. apply (list_elem_of_lookup_2 _ 0). reflexivity.
  - vm_compute. reflexivity.
  - exists c, o. auto.
Defined.

Lemma answered_at_most_once_witness :
  occurrences (is_answer 1%N) (Desk.log SampleDesk.answered) = 1 ∧
  occurrences (is_answer 1%N) (Desk.log SampleDesk.answered) ≤ 1.
Proof.
  split; [reflexivity|]. exact (proj1 (answered_at_most_once SampleDesk.sha SampleDesk.utc _ 1%N SampleDesk.answered_reach)).
Defined.

Lemma one_time_codes_bounded_witness :
  tries 1%N false (Desk.log SampleDesk.guessed) = 1 ∧ tries 1%N false (Desk.log SampleDesk.guessed) ≤ N.to_nat OTP_MAX_ATTEMPTS.
Proof.
  split; [vm_compute; reflexivity|].
  exact (proj1 (one_time_codes_bounded SampleDesk.sha SampleDesk.utc _ 1%N SampleDesk.guessed_reach)).
Defined.

Lemma lock_ends_pending_witness :
  Answered 1%N true ∉ Desk.log SampleDesk.locked ∧ Desk.pending SampleDesk.locked !! 1%N = None.
Proof.
  destruct (lock_ends_pending SampleDesk.sha SampleDesk.utc (SampleDesk.shown SampleDesk.bare) SampleDesk.locked 1%N
    (click_entry (ClickRequest.from_access SampleDesk.reading) 1%N false (secs 120))) as [Hno Hgone].
  - apply SampleDesk.shown_reach.
  - reflexivity.
  - reflexivity.
  - reflexivity.
  - apply SampleDesk.locked_steps.
  - split; [exact Hno|apply Hgone; discriminate].
Defined.

Lemma gate_pass_is_earned_witness :
  GatePass.epoch SampleDesk.pass = Desk.epoch SampleDesk.consented ∧
  ∃ click, OpDescriptor.digest SampleDesk.sha (ClickRequest.op click) = SampleDesk.digest ∧
    Prompted (click_prompt click 1%N false) ∈ Desk.log SampleDesk.consented ∧
    click_evidence SampleDesk.sha (Desk.log SampleDesk.consented) 1%N click false.
Proof.
  destruct (gate_pass_is_earned SampleDesk.sha SampleDesk.utc SampleDesk.consented SampleDesk.pass SampleDesk.consented_reach) as [_ Hclick].
  destruct (Hclick 1%N SampleDesk.digest 1%N 1%N
    (gate_confirmed SampleDesk.digest 1%N 1%N (Ok tt) SampleDesk.consented).2) as (_ & He & _ & Hc).
  - apply (list_elem_of_lookup_2 _ 0). reflexivity.
  - apply (list_elem_of_lookup_2 _ 0). reflexivity.
  - vm_compute. reflexivity.
  - split; [exact He|exact Hc].
Defined.

