(* ===== verification/Wake.v ===== *)
(** * Wake: requests for a person's attention, and the leases they lead to

    The wake queue of the desktop application, its lease store, and the commands that use them.
    Each definition that changes the queue or the store is what runs while their locks are
    held; [request] puts the three parts of a wake request together when no other request comes
    in between.  [world_step] is the desk of DesktopGate.v with the queue and the leases: an
    approval finds its request, passes the desk's presence gate, and consumes the pass.  The
    emitted events are a log, latest first. *)
From Stdlib Require Import ZifyN ZifyNat ZifyBool.
From stdpp Require Import pretty.
From S2P Require Import Prelude PresenceOp Gate Bytes AuditTypes Text Coordinator Approvals Clicks DesktopGate DesktopSpec DesktopOtp DesktopInv DesktopTheorems.

Definition WAKE_MAX_PER_AGENT : nat := 10.
Definition WAKE_WINDOW_SECS : N := 60.
Definition WAKE_MAX_PENDING : nat := 256.
Definition WAKE_REQUEST_TTL_SECS : N := 300.
Definition WAKE_NOTIFICATION_COOLDOWN_SECS : N := 60.
Definition WAKE_LEASE_TTL_SECS : N := 120.

(** ** The queue *)

Module WakeRequest.
Record t := mk {
  id : N;
  agent_id : string;
  opaque_resource_ref : string;
  signature : string;
  created_at : Instant;
  notified_at : option Instant
}.
Definition notified (r : t) (now : Instant) : t :=
  mk (id r) (agent_id r) (opaque_resource_ref r) (signature r) (created_at r) (Some now).
End WakeRequest.

Module WakePrompt.
Record t := mk { id : N; agent_id : string; resource_ref : string }.
Definition from_request (r : WakeRequest.t) : t := mk (WakeRequest.id r) (WakeRequest.agent_id r) (WakeRequest.opaque_resource_ref r).
End WakePrompt.

Module WakeResult.
Inductive t := Queued | Unavailable.
#[global] Instance t_eq_dec : EqDecision t.
Proof. solve_decision. Defined.
End WakeResult.

Inductive wake_effect := EmitWake (p : WakePrompt.t) | EmitCancel (id : N).

Module WakeQueue.
Record t := mk {
  next_id : N;
  requests : list WakeRequest.t;
  by_signature : gmap string nat;
  agent_rate : gmap string (list Instant);
  global_rate : list Instant;
  log : list wake_effect
}.
Definition new : t := mk 1 [] ∅ ∅ [] [].
Definition with_requests (q : t) (l : list WakeRequest.t) (m : gmap string nat) : t :=
  mk (next_id q) l m (agent_rate q) (global_rate q) (log q).
Definition with_rates (q : t) (a : gmap string (list Instant)) (g : list Instant) : t :=
  mk (next_id q) (requests q) (by_signature q) a g (log q).
Definition emitted (q : t) (e : wake_effect) : t :=
  mk (next_id q) (requests q) (by_signature q) (agent_rate q) (global_rate q) (e :: log q).
Definition fetched (q : t) : t := mk (next_id q + 1) (requests q) (by_signature q) (agent_rate q) (global_rate q) (log q).
End WakeQueue.

Section wake.
Context (sha256 : list N → list N).

(** The first 32 characters of the hash in hexadecimal. *)
Definition digest_string (input : string) : string := String.substring 0 32 (encode_hex (sha256 (str_bytes input))).
Definition wake_signature (agent_id opaque_resource_ref : string) : string :=
  digest_string (agent_id +:+ ("|" +:+ opaque_resource_ref)).

Definition in_window (now t : Instant) : bool := (now - t <? secs WAKE_WINDOW_SECS)%N.

(** Timestamps out of the window are forgotten, and agents without any. *)
Definition prune_rates (now : Instant) (q : WakeQueue.t) : WakeQueue.t :=
  WakeQueue.with_rates q
    (filter (λ at_, at_.2 ≠ []) (List.filter (in_window now) <$> WakeQueue.agent_rate q))
    (List.filter (in_window now) (WakeQueue.global_rate q)).

Definition over_rate (agent_id : string) (q : WakeQueue.t) : bool :=
  match WakeQueue.agent_rate q !! agent_id with
  | Some ts => bool_decide (WAKE_MAX_PER_AGENT ≤ length ts)
  | None => false
  end || bool_decide (WAKE_MAX_PER_AGENT * 4 ≤ length (WakeQueue.global_rate q)).

Definition position (p : WakeRequest.t → bool) (l : list WakeRequest.t) : option nat := fst <$> list_find p l.
Definition remove_at (pos : nat) (l : list WakeRequest.t) : list WakeRequest.t := take pos l ++ drop (S pos) l.

(** One expired request leaves. *)
Definition expire_one (q : WakeQueue.t) (id : N) : WakeQueue.t :=
  match position (λ r, (WakeRequest.id r =? id)%N) (WakeQueue.requests q) with
  | Some pos =>
      match WakeQueue.requests q !! pos with
      | Some r =>
          WakeQueue.emitted
            (WakeQueue.with_requests q (remove_at pos (WakeQueue.requests q)) (delete (WakeRequest.signature r) (WakeQueue.by_signature q)))
            (EmitCancel id)
      | None => q
      end
  | None => q
  end.
Definition wake_expired (now : Instant) (r : WakeRequest.t) : bool := (secs WAKE_REQUEST_TTL_SECS <? now - WakeRequest.created_at r)%N.
Definition prune_requests (now : Instant) (q : WakeQueue.t) : WakeQueue.t :=
  foldl expire_one q (WakeRequest.id <$> List.filter (wake_expired now) (WakeQueue.requests q)).

(** An identical pending request is not stacked; it notifies again after the cooldown. *)
Definition coalesce (now : Instant) (signature : string) (q : WakeQueue.t) : WakeQueue.t :=
  match position (λ r, String.eqb (WakeRequest.signature r) signature) (WakeQueue.requests q) with
  | Some pos =>
      match WakeQueue.requests q !! pos with
      | Some existing =>
          if match WakeRequest.notified_at existing with
             | Some t => (secs WAKE_NOTIFICATION_COOLDOWN_SECS <=? now - t)%N
             | None => true
             end
          then
            WakeQueue.emitted
              (WakeQueue.with_requests q (<[pos := WakeRequest.notified existing now]> (WakeQueue.requests q)) (WakeQueue.by_signature q))
              (EmitWake (WakePrompt.from_request existing))
          else q
      | None => q
      end
  | None => q
  end.

(** The part that holds the requests: whether the attempt is to be counted, and the answer. *)
Definition enqueue (now : Instant) (agent_id opaque_resource_ref : string) (q : WakeQueue.t) : WakeResult.t * WakeQueue.t :=
  let signature := wake_signature agent_id opaque_resource_ref in
  let q := prune_requests now q in
  match WakeQueue.by_signature q !! signature with
  | Some _ => (WakeResult.Queued, coalesce now signature q)
  | None =>
      if bool_decide (WAKE_MAX_PENDING ≤ length (WakeQueue.requests q)) then (WakeResult.Unavailable, q)
      else
        let r := WakeRequest.mk (WakeQueue.next_id q) agent_id opaque_resource_ref signature now (Some now) in
        let q := WakeQueue.with_requests (WakeQueue.fetched q) (WakeQueue.requests q ++ [r])
                   (<[signature := length (WakeQueue.requests q)]> (WakeQueue.by_signature q)) in
        (WakeResult.Queued, WakeQueue.emitted q (EmitWake (WakePrompt.from_request r)))
  end.

(** The attempt is counted afterwards. *)
Definition count_attempt (now : Instant) (agent_id : string) (q : WakeQueue.t) : WakeQueue.t :=
  WakeQueue.with_rates q
    (<[agent_id := default [] (WakeQueue.agent_rate q !! agent_id) ++ [now]]> (WakeQueue.agent_rate q))
    (WakeQueue.global_rate q ++ [now]).

Definition request (now : Instant) (agent_id opaque_resource_ref : string) (q : WakeQueue.t) : WakeResult.t * WakeQueue.t :=
  let q := prune_rates now q in
  if over_rate agent_id q then (WakeResult.Unavailable, q)
  else
    match enqueue now agent_id opaque_resource_ref q with
    | (WakeResult.Queued, q) => (WakeResult.Queued, count_attempt now agent_id q)
    | (WakeResult.Unavailable, q) => (WakeResult.Unavailable, q)
    end.

Definition wake_list (now : Instant) (q : WakeQueue.t) : list WakePrompt.t :=
  WakePrompt.from_request <$> List.filter (λ r, negb (wake_expired now r)) (WakeQueue.requests q).

Definition respond (id : N) (approved : bool) (q : WakeQueue.t) : option WakeRequest.t * WakeQueue.t :=
  match position (λ r, (WakeRequest.id r =? id)%N) (WakeQueue.requests q) with
  | Some pos =>
      match WakeQueue.requests q !! pos with
      | Some r =>
          (if approved then Some r else None,
           WakeQueue.emitted
             (WakeQueue.with_requests q (remove_at pos (WakeQueue.requests q)) (delete (WakeRequest.signature r) (WakeQueue.by_signature q)))
             (EmitCancel id))
      | None => (None, q)
      end
  | None => (None, q)
  end.

Definition peek (id : N) (q : WakeQueue.t) : option WakeRequest.t :=
  snd <$> list_find (λ r, WakeRequest.id r = id) (WakeQueue.requests q).
End wake.

(** ** Leases *)

Module WakeAuthorization.
Record t := mk { agent_id : string; session_id : string; authorized_at : Instant }.
End WakeAuthorization.

(** What a lease is bound to. *)
Module Binding.
Record t := mk {
  agent_id : string; resource_signature : string; operation_digest : string; args_digest : string;
  destination : string; session_id : string; policy_version : string
}.
#[global] Instance t_eq_dec : EqDecision t.
Proof. solve_decision. Defined.
End Binding.

Module Lease.
Record t := mk { id : string; binding : Binding.t; expires_at : Instant; used : bool }.
Definition spent (l : t) : t := mk (id l) (binding l) (expires_at l) true.
End Lease.

Module LeaseStore.
Record t := mk { leases : gmap string Lease.t; authorized_wakes : gmap string WakeAuthorization.t }.
Definition new : t := mk ∅ ∅.
Definition with_leases (s : t) (m : gmap string Lease.t) : t := mk m (authorized_wakes s).

Definition record_authorized_wake (now : Instant) (signature agent_id session_id : string) (s : t) : t :=
  mk (leases s) (<[signature := WakeAuthorization.mk agent_id session_id now]> (authorized_wakes s)).

Definition has_authorized_wake (now : Instant) (signature agent_id session_id : string) (s : t) : bool :=
  match authorized_wakes s !! signature with
  | Some a => String.eqb (WakeAuthorization.agent_id a) agent_id && String.eqb (WakeAuthorization.session_id a) session_id &&
              (now - WakeAuthorization.authorized_at a <=? secs WAKE_REQUEST_TTL_SECS)%N
  | None => false
  end.

(** [id] is what [fresh_lease_id] gives. *)
Definition issue (now : Instant) (id : string) (b : Binding.t) (s : t) : t :=
  with_leases s (<[id := Lease.mk id b (now + secs WAKE_LEASE_TTL_SECS)%N false]> (leases s)).

Definition checkout (now : Instant) (lease_id : string) (b : Binding.t) (s : t) : bool * t :=
  match leases s !! lease_id with
  | None => (false, s)
  | Some lease =>
      if (Lease.expires_at lease <? now)%N then (false, with_leases s (delete lease_id (leases s)))
      else if Lease.used lease then (false, s)
      else if negb (bool_decide (Lease.binding lease = b))
      then (false, with_leases s (<[lease_id := Lease.spent lease]> (leases s)))
      else (true, with_leases s (delete lease_id (leases s)))
  end.

Definition prune (now : Instant) (s : t) : nat * t :=
  let kept := filter (λ kl, (now ≤ Lease.expires_at kl.2)%N) (leases s) in
  (size (leases s) - size kept, with_leases s kept).
End LeaseStore.

(** ** The commands *)

Module LeaseParams.
Record t := mk {
  agent_id : string; resource_ref : string; operation : string; args : list string; destination : string; mode : string
}.
End LeaseParams.

Definition session_name (epoch : N) : string := "session-" +:+ pretty epoch.

(** The desk, the queue and the leases as one system, with what happened, latest first.  The
    calls of [wake_respond_impl] that approve, from the request they found to the consumption of
    their pass, are [approving]: that request, and the session they name to the gate. *)
Inductive wake_event :=
| WakeApproved (r : WakeRequest.t) (pass : GatePass.t) (at_ : Instant)
| LeaseIssued (id : string) (b : Binding.t) (at_ : Instant)
| LeaseTried (id : string).

Module World.
Record t := mk {
  desk : Desk.t;
  queue : WakeQueue.t;
  store : LeaseStore.t;
  approving : list (WakeRequest.t * N);
  events : list wake_event
}.
Definition new : t := mk Desk.new WakeQueue.new LeaseStore.new [] [].
Definition now (w : t) : Instant := Desk.now (desk w).
Definition epoch (w : t) : N := Desk.epoch (desk w).
Definition with_desk (w : t) (d : Desk.t) : t := mk d (queue w) (store w) (approving w) (events w).
Definition with_queue (w : t) (q : WakeQueue.t) : t := mk (desk w) q (store w) (approving w) (events w).
Definition with_approving (w : t) (l : list (WakeRequest.t * N)) : t := mk (desk w) (queue w) (store w) l (events w).
Definition with_store (w : t) (s : LeaseStore.t) (l : list wake_event) : t := mk (desk w) (queue w) s (approving w) (l ++ events w).
End World.

Section commands.
Context (sha256 : list N → list N) (utc : Instant → Z).
Notation wake_signature := (wake_signature sha256).
Notation digest_string := (digest_string sha256).

(** The arguments are joined with a bar. *)
Definition args_digest (args : list string) : string := digest_string (join_with "|"%char args).

Definition binding_for (epoch : N) (agent_id resource_ref operation : string) (args : list string) (destination : string) :
    Binding.t :=
  Binding.mk agent_id (wake_signature agent_id resource_ref) (digest_string operation) (args_digest args) destination
    (session_name epoch) "v1".

(** [lease_id] is what [fresh_lease_id] would give. *)
Definition wake_prepare_access (now : Instant) (epoch : N) (lease_id : string) (p : LeaseParams.t) (s : LeaseStore.t) :
    result string string * LeaseStore.t :=
  let agent := LeaseParams.agent_id p in
  let signature := wake_signature agent (LeaseParams.resource_ref p) in
  if negb (LeaseStore.has_authorized_wake now signature agent (session_name epoch) s)
  then (Err "wake authorization required", s)
  else
    let mode := str_upper (LeaseParams.mode p) in
    if String.eqb mode "DIRECT"
    then
      let b := binding_for epoch agent (LeaseParams.resource_ref p) (LeaseParams.operation p) (LeaseParams.args p)
                 (LeaseParams.destination p) in
      (Ok lease_id, LeaseStore.issue now lease_id b s)
    else if String.eqb mode "APPROVAL"
    then (Err "approval_required: explicit human approval needed for this operation", s)
    else if String.eqb mode "OTP" then (Err "otp_required: one-time code required for this operation", s)
    else (Err ("unsupported wake mode: " +:+ mode), s).

Definition require_lease (now : Instant) (epoch : N) (lease_id agent_id resource_ref operation : string)
    (args : list string) (destination : string) (s : LeaseStore.t) : bool * LeaseStore.t :=
  if String.eqb lease_id "" || String.eqb agent_id "" then (false, s)
  else LeaseStore.checkout now lease_id (binding_for epoch agent_id resource_ref operation args destination) s.

(** The operation that approving a wake request is shown and verified as. *)
Definition wake_op (epoch : N) (r : WakeRequest.t) : OpDescriptor.t :=
  let op := OpDescriptor.field (OpDescriptor.new "wake_respond") "agent" (WakeRequest.agent_id r) in
  let op := OpDescriptor.field op "resource" (WakeRequest.opaque_resource_ref r) in
  let op := OpDescriptor.bind op "wake_id" (pretty (WakeRequest.id r)) in
  let op := OpDescriptor.bind op "signature" (WakeRequest.signature r) in
  OpDescriptor.bind op "session" (session_name epoch).

(** [desktop_event] of these commands; their description goes where an error would. *)
Definition wake_event_of (decision : AuditDecision.t) (now : Instant) (text : string) : AuditEvent.t :=
  with_event_error (AuditEvent.new (utc now) AuditAction.VaultInfo decision "desktop-ui") (Some text).
Definition wake_text (what : string) (r : WakeRequest.t) : string :=
  what +:+ (" agent=" +:+ (WakeRequest.agent_id r +:+ (" resource=" +:+ WakeRequest.opaque_resource_ref r))).
Definition approved_event (now : Instant) (pass : GatePass.t) (r : WakeRequest.t) : AuditEvent.t :=
  with_event_presence (wake_event_of AuditDecision.Allowed now (wake_text "wake-approved" r)) (Some (GatePass.presence pass)).

(** [wake_respond_impl] without [approved]: the request is looked up first, and may be gone when
    it is removed; [contended]: the handle's lock is taken. *)
Definition wake_respond_start (id : N) (q : WakeQueue.t) : result WakeRequest.t string :=
  match peek id q with Some r => Ok r | None => Err "wake request not found" end.
Definition wake_refuse_end (contended : bool) (r : WakeRequest.t) (d : Desk.t) (q : WakeQueue.t) : Desk.t * WakeQueue.t :=
  let q := (respond (WakeRequest.id r) false q).2 in
  (record_desktop_event contended (wake_event_of AuditDecision.Denied (Desk.now d) (wake_text "wake-denied" r)) d, q).

(** [wake_respond_impl] with [approved]: what the gate is asked, a gate that was not passed, and
    the end, with the pass and under the handle. *)
Definition wake_click (epoch : N) (r : WakeRequest.t) : ClickRequest.t :=
  ClickRequest.desktop sha256 "Approve wake request" AuditAction.VaultInfo (wake_op epoch r).
Definition wake_denied (denied : GateDenied.t) (d : Desk.t) : Desk.t :=
  record_gate_denial denied (AuditEvent.new (utc (Desk.now d)) AuditAction.VaultInfo AuditDecision.Denied "desktop-ui") d.
Definition wake_approve (pass : GatePass.t) (id : N) (d : Desk.t) (q : WakeQueue.t) (s : LeaseStore.t) :
    result WakeRequest.t string * Desk.t * WakeQueue.t * LeaseStore.t :=
  let moved := "vault state changed after verification; try again" in
  if negb (Desk.unlocked d) then (Err "vault is locked", d, q, s)
  else if negb (Desk.epoch d =? GatePass.epoch pass)%N
  then
    let presence := PresenceAudit.with_operation (PresenceAudit.denied (PresenceAudit.protected (GatePass.presence pass)))
                      (GatePass.operation_id pass) in
    (Err moved, record_with_handle (with_event_presence (wake_event_of AuditDecision.Denied (Desk.now d) moved) (Some presence)) d, q, s)
  else
    match respond id true q with
    | (None, q) => (Err "wake request not found", d, q, s)
    | (Some r, q) =>
        let s := LeaseStore.record_authorized_wake (Desk.now d) (WakeRequest.signature r) (WakeRequest.agent_id r)
                   (session_name (GatePass.epoch pass)) s in
        (Ok r, record_with_handle (approved_event (Desk.now d) pass r) d, q, s)
    end.

(** ** The steps of the system *)

(** The identifier of a new lease was not given before. *)
Definition never_issued (id : string) (w : World.t) : Prop := ∀ b at_, LeaseIssued id b at_ ∉ World.events w.

Inductive world_step (w : World.t) : World.t → Prop :=
(* the desk, with its clock, its sessions and its gates *)
| world_desk d : desk_step sha256 utc (World.desk w) d → world_step w (World.with_desk w d)
(* requests; the time they look at may be a while ago *)
| world_rates now : (now ≤ World.now w)%N → world_step w (World.with_queue w (prune_rates now (World.queue w)))
| world_enqueue now agent ref : (now ≤ World.now w)%N →
    world_step w (World.with_queue w (enqueue sha256 now agent ref (World.queue w)).2)
| world_count now agent : (now ≤ World.now w)%N → world_step w (World.with_queue w (count_attempt now agent (World.queue w)))
(* answers *)
| world_refuse contended r d q :   (* a request found earlier *)
    (contended = false → Desk.handle_free (World.desk w)) →
    wake_refuse_end contended r (World.desk w) (World.queue w) = (d, q) → world_step w (World.with_queue (World.with_desk w d) q)
| world_found id r :
    wake_respond_start id (World.queue w) = Ok r →
    world_step w (World.with_approving w ((r, World.epoch w) :: World.approving w))
| world_gate r epoch :
    (r, epoch) ∈ World.approving w → world_step w (World.with_desk w (gate_start (wake_click epoch r) (World.desk w)))
| world_denied r epoch denied rest :
    World.approving w ≡ₚ (r, epoch) :: rest →
    world_step w (World.with_approving (World.with_desk w (wake_denied denied (World.desk w))) rest)
| world_abandon r epoch rest :   (* the caller is gone *)
    World.approving w ≡ₚ (r, epoch) :: rest → world_step w (World.with_approving w rest)
| world_approve r epoch pass rest tasks answer d q s :   (* the pass is the one its own gate gave *)
    World.approving w ≡ₚ (r, epoch) :: rest → Desk.tasks (World.desk w) ≡ₚ HoldingPass pass :: tasks →
    GatePass.digest pass = OpDescriptor.digest sha256 (wake_op epoch r) → Desk.handle_free (World.desk w) →
    wake_approve pass (WakeRequest.id r) (Desk.with_tasks (World.desk w) tasks) (World.queue w) (World.store w) = (answer, d, q, s) →
    world_step w (World.mk d q s rest
      (match answer with Ok r => [WakeApproved r pass (World.now w)] | Err _ => [] end ++ World.events w))
(* leases *)
| world_prepare id p r s : never_issued id w →
    wake_prepare_access (World.now w) (World.epoch w) id p (World.store w) = (Ok r, s) →
    world_step w (World.with_store w s
      [LeaseIssued id (binding_for (World.epoch w) (LeaseParams.agent_id p) (LeaseParams.resource_ref p) (LeaseParams.operation p)
                         (LeaseParams.args p) (LeaseParams.destination p)) (World.now w)])
| world_prepare_fails id p e s :
    wake_prepare_access (World.now w) (World.epoch w) id p (World.store w) = (Err e, s) → world_step w (World.with_store w s [])
| world_use lease_id agent ref operation args destination :   (* with an empty name nothing changes *)
    String.eqb lease_id "" || String.eqb agent "" = false →
    world_step w (World.with_store w
      (require_lease (World.now w) (World.epoch w) lease_id agent ref operation args destination (World.store w)).2
      [LeaseTried lease_id])
| world_prune : world_step w (World.with_store w (LeaseStore.prune (World.now w) (World.store w)).2 []).

Definition world_reachable (w : World.t) : Prop := rtc world_step World.new w.
End commands.

(** * Coalescing, and what a lease stands for *)
(** ** The queue *)

Section queue.
Context (sha256 : list N → list N).

(** Requests have distinct identifiers and signatures, and the index knows exactly the latter. *)
Record queue_inv (q : WakeQueue.t) : Prop := {
  qi_ids : NoDup (WakeRequest.id <$> WakeQueue.requests q);
  qi_next r : r ∈ WakeQueue.requests q → (WakeRequest.id r < WakeQueue.next_id q)%N;
  qi_signatures : NoDup (WakeRequest.signature <$> WakeQueue.requests q);
  qi_index s : is_Some (WakeQueue.by_signature q !! s) ↔ s ∈ WakeRequest.signature <$> WakeQueue.requests q;
  qi_bound : length (WakeQueue.requests q) ≤ WAKE_MAX_PENDING;
  qi_signed r : r ∈ WakeQueue.requests q →
    WakeRequest.signature r = wake_signature sha256 (WakeRequest.agent_id r) (WakeRequest.opaque_resource_ref r)
}.

Lemma position_Some p l pos : position p l = Some pos → ∃ l1 r l2, l = l1 ++ r :: l2 ∧ length l1 = pos ∧ p r = true.
Proof.
  unfold position. intros ([i r] & Hf & ->)%fmap_Some. simpl. apply list_find_Some in Hf as (Hl & Hp & _).
  exists (take i l), r, (drop (S i) l). split_and!; [by rewrite take_drop_middle| |by apply Is_true_true in Hp].
  apply length_take_le. apply lookup_lt_Some in Hl. lia.
Qed.

Lemma remove_at_middle l1 (r : WakeRequest.t) l2 : remove_at (length l1) (l1 ++ r :: l2) = l1 ++ l2.
Proof. unfold remove_at. rewrite take_app_length. f_equal. rewrite drop_app_ge by lia. by replace (S (length l1) - length l1) with 1 by lia. Qed.

(** A request leaves with its signature. *)
Lemma queue_inv_remove q l1 r l2 :
  WakeQueue.requests q = l1 ++ r :: l2 → queue_inv q →
  queue_inv (WakeQueue.with_requests q (l1 ++ l2) (delete (WakeRequest.signature r) (WakeQueue.by_signature q))).
Proof.
  intros Hq [H1 H2 H3 H4 H5 H6]. rewrite Hq in *. rewrite fmap_app, fmap_cons in H1. rewrite fmap_app, fmap_cons in H3. setoid_rewrite fmap_app in H4. setoid_rewrite fmap_cons in H4.
  assert (∀ x, x ∈ l1 ++ l2 → x ∈ l1 ++ r :: l2) as Hin by (intros x; set_solver).
  split; simpl; auto.
  - rewrite fmap_app. eapply sublist_NoDup; [exact H1|]. apply sublist_app; [done|]. by apply sublist_cons.
  - rewrite fmap_app. eapply sublist_NoDup; [exact H3|]. apply sublist_app; [done|]. by apply sublist_cons.
  - intros s. rewrite fmap_app, lookup_delete_is_Some, H4. apply NoDup_app in H3 as (_ & Hd & H3).
    apply NoDup_cons in H3 as [Hn _]. split; [set_solver|]. intros Hs. split; [|set_solver]. intros <-.
    apply elem_of_app in Hs as [Hs|Hs]; [|done]. by apply (Hd _ Hs); left.
  - rewrite length_app in *. simpl in H5. lia.
Qed.

Lemma queue_inv_emitted q e : queue_inv q → queue_inv (WakeQueue.emitted q e).
Proof. intros []. by split. Qed.
Lemma queue_inv_rates q a g : queue_inv q → queue_inv (WakeQueue.with_rates q a g).
Proof. intros []. by split. Qed.

Lemma expire_one_inv q id : queue_inv q → queue_inv (expire_one q id).
Proof.
  intros Hi. unfold expire_one. destruct (position _ _) as [pos|] eqn:Hp; [|done].
  apply position_Some in Hp as (l1 & r & l2 & Hq & <- & _). rewrite Hq, list_lookup_middle, remove_at_middle by done.
  by apply queue_inv_emitted, queue_inv_remove.
Qed.

Lemma prune_requests_inv now q : queue_inv q → queue_inv (prune_requests now q).
Proof.
  unfold prune_requests. generalize (WakeRequest.id <$> List.filter (wake_expired now) (WakeQueue.requests q)). intros ids. revert q.
  induction ids as [|id ids IH]; intros q Hi; [done|]. simpl. by apply IH, expire_one_inv.
Qed.

Lemma respond_inv id approved q : queue_inv q → queue_inv (respond id approved q).2.
Proof.
  intros Hi. unfold respond. destruct (position _ _) as [pos|] eqn:Hp; [|done].
  apply position_Some in Hp as (l1 & r & l2 & Hq & <- & _). rewrite Hq, list_lookup_middle, remove_at_middle by done. simpl.
  by apply queue_inv_emitted, queue_inv_remove.
Qed.

Lemma coalesce_inv now signature q : queue_inv q → queue_inv (coalesce now signature q).
Proof.
  intros Hi. unfold coalesce. destruct (position _ _) as [pos|] eqn:Hp; [|done].
  apply position_Some in Hp as (l1 & r & l2 & Hq & <- & _). rewrite Hq, list_lookup_middle by done.
  destruct (match WakeRequest.notified_at r with Some _ => _ | None => _ end); [|done]. apply queue_inv_emitted.
  rewrite insert_app_r_alt, Nat.sub_diag by lia. simpl. destruct Hi as [H1 H2 H3 H4 H5 H6]. rewrite Hq in *.
  rewrite fmap_app, fmap_cons in H1. rewrite fmap_app, fmap_cons in H3. setoid_rewrite fmap_app in H4. setoid_rewrite fmap_cons in H4.
  assert (∀ x, x ∈ l1 ++ WakeRequest.notified r now :: l2 → x = WakeRequest.notified r now ∨ x ∈ l1 ++ r :: l2) as Hin by (intros x; set_solver).
  split; simpl; rewrite ?fmap_app, ?fmap_cons; try done.
  - intros x [->|Hx]%Hin; [|by apply H2]. apply (H2 r). set_solver.
  - rewrite length_app in *. done.
  - intros x [->|Hx]%Hin; [|by apply H6]. apply (H6 r). set_solver.
Qed.

Lemma enqueue_inv now agent ref q : queue_inv q → queue_inv (enqueue sha256 now agent ref q).2.
Proof.
  intros Hi%(prune_requests_inv now). unfold enqueue. revert Hi. generalize (prune_requests now q). clear q. intros q Hi.
  destruct (WakeQueue.by_signature q !! _) as [i|] eqn:Hs; [by apply coalesce_inv|]. case_bool_decide as Hlen; [done|]. simpl.
  apply queue_inv_emitted. destruct Hi as [H1 H2 H3 H4 H5 H6]. split; simpl; rewrite ?fmap_app; simpl.
  - apply NoDup_app. split_and!; [done| |apply NoDup_singleton]. intros x (r & -> & Hr)%list_elem_of_fmap Hx%list_elem_of_singleton.
    specialize (H2 r Hr). lia.
  - intros r [Hr|Hr%list_elem_of_singleton]%elem_of_app; [specialize (H2 r Hr); lia|subst; simpl; lia].
  - apply NoDup_app. split_and!; [done| |apply NoDup_singleton]. intros x Hx Hx'%list_elem_of_singleton. subst. apply H4 in Hx as [? Hx]. congruence.
  - intros s. rewrite lookup_insert_is_Some, elem_of_app, list_elem_of_singleton, <-H4. destruct (decide (s = wake_signature sha256 agent ref)); naive_solver.
  - rewrite length_app. simpl. unfold WAKE_MAX_PENDING in *. lia.
  - intros r [Hr|Hr%list_elem_of_singleton]%elem_of_app; [by apply H6|by subst].
Qed.

(** *** Requests keep what they ask for *)

Definition alike (r r' : WakeRequest.t) : Prop :=
  WakeRequest.id r' = WakeRequest.id r ∧ WakeRequest.agent_id r' = WakeRequest.agent_id r ∧
  WakeRequest.opaque_resource_ref r' = WakeRequest.opaque_resource_ref r ∧ WakeRequest.signature r' = WakeRequest.signature r.

(** The requests of [q'] are those of [q], as far as they are not newer. *)
Definition follows (q q' : WakeQueue.t) : Prop :=
  (WakeQueue.next_id q ≤ WakeQueue.next_id q')%N ∧
  ∀ r', r' ∈ WakeQueue.requests q' → (WakeRequest.id r' < WakeQueue.next_id q)%N → ∃ r, r ∈ WakeQueue.requests q ∧ alike r r'.

Lemma alike_refl r : alike r r.
Proof. by split_and!. Qed.
Lemma alike_trans r1 r2 r3 : alike r1 r2 → alike r2 r3 → alike r1 r3.
Proof. intros (? & ? & ? & ?) (? & ? & ? & ?). split_and!; congruence. Qed.

(** Enough for an operation that draws no identifier. *)
Lemma follows_from q q' :
  WakeQueue.next_id q' = WakeQueue.next_id q →
  (∀ r', r' ∈ WakeQueue.requests q' → ∃ r, r ∈ WakeQueue.requests q ∧ alike r r') → follows q q'.
Proof. intros Hn H. split; [lia|]. auto. Qed.
Lemma follows_sub q q' :
  WakeQueue.next_id q' = WakeQueue.next_id q → WakeQueue.requests q' ⊆ WakeQueue.requests q → follows q q'.
Proof. intros Hn H. apply follows_from; [done|]. intros r ?%H. exists r. split; [done|apply alike_refl]. Qed.
Lemma follows_refl q : follows q q.
Proof. by apply follows_sub. Qed.
Lemma follows_trans q1 q2 q3 : follows q1 q2 → follows q2 q3 → follows q1 q3.
Proof.
  intros [H1 Hs1] [H2 Hs2]. split; [lia|]. intros r3 Hin Hid. destruct (Hs2 r3 Hin ltac:(lia)) as (r2 & Hin2 & Ha).
  destruct (Hs1 r2 Hin2) as (r1 & Hin1 & Ha1); [destruct Ha as (<- & _); lia|]. exists r1. split; [done|]. by eapply alike_trans.
Qed.

Lemma expire_one_follows q id : follows q (expire_one q id).
Proof.
  unfold expire_one. destruct (position _ _) as [pos|] eqn:Hp; [|apply follows_refl].
  apply position_Some in Hp as (l1 & r & l2 & Hq & <- & _). rewrite Hq, list_lookup_middle, remove_at_middle by done.
  apply follows_sub; [done|]. simpl. rewrite Hq. set_solver.
Qed.
Lemma prune_requests_follows now q : follows q (prune_requests now q).
Proof.
  unfold prune_requests. generalize (WakeRequest.id <$> List.filter (wake_expired now) (WakeQueue.requests q)). intros ids. revert q.
  induction ids as [|id ids IH]; intros q; [apply follows_refl|]. simpl. eapply follows_trans; [apply expire_one_follows|apply IH].
Qed.
Lemma respond_follows id approved q : follows q (respond id approved q).2.
Proof.
  unfold respond. destruct (position _ _) as [pos|] eqn:Hp; [|apply follows_refl].
  apply position_Some in Hp as (l1 & r & l2 & Hq & <- & _). rewrite Hq, list_lookup_middle, remove_at_middle by done.
  apply follows_sub; [done|]. simpl. rewrite Hq. set_solver.
Qed.
Lemma coalesce_follows now signature q : follows q (coalesce now signature q).
Proof.
  unfold coalesce. destruct (position _ _) as [pos|] eqn:Hp; [|apply follows_refl].
  apply position_Some in Hp as (l1 & r & l2 & Hq & <- & _). rewrite Hq, list_lookup_middle by done.
  destruct (match WakeRequest.notified_at r with Some _ => _ | None => _ end); [|apply follows_refl].
  apply follows_from; [done|]. simpl. rewrite insert_app_r_alt, Nat.sub_diag by lia. simpl. rewrite Hq. intros x.
  rewrite elem_of_app, elem_of_cons. intros [Hx|[->|Hx]].
  - exists x. split; [set_solver|apply alike_refl].
  - exists r. split; [set_solver|by split_and!].
  - exists x. split; [set_solver|apply alike_refl].
Qed.
Lemma enqueue_follows now agent ref q : follows q (enqueue sha256 now agent ref q).2.
Proof.
  eapply follows_trans; [apply (prune_requests_follows now)|]. unfold enqueue. generalize (prune_requests now q). clear q. intros q.
  destruct (WakeQueue.by_signature q !! _) as [i|] eqn:Hs; [by apply coalesce_follows|].
  case_bool_decide as Hlen; [apply follows_refl|]. simpl. split; [simpl; lia|]. simpl. intros r.
  rewrite elem_of_app, list_elem_of_singleton. intros [Hr| ->]; [|simpl; lia]. exists r. split; [done|apply alike_refl].
Qed.

(** The queue knows a request that was found in it earlier, if it still has it. *)
Definition known (q : WakeQueue.t) (r : WakeRequest.t) : Prop :=
  (WakeRequest.id r < WakeQueue.next_id q)%N ∧
  ∀ r', r' ∈ WakeQueue.requests q → WakeRequest.id r' = WakeRequest.id r → alike r r'.

Lemma known_follows q q' r : follows q q' → known q r → known q' r.
Proof.
  intros [Hn Hf] [Hid Hk]. split; [lia|]. intros r' Hin Hr'. destruct (Hf r' Hin ltac:(lia)) as (r0 & Hin0 & Ha).
  eapply alike_trans; [|exact Ha]. apply Hk; [done|]. destruct Ha as (<- & _). done.
Qed.

Lemma peek_known q id r : queue_inv q → peek id q = Some r → known q r.
Proof.
  intros Hi. unfold peek. intros ([i r0] & Hf & [= <-])%fmap_Some. apply list_find_Some in Hf as (Hl & Hid & _).
  apply list_elem_of_lookup_2 in Hl as Hin. split; [by apply (qi_next _ Hi)|]. intros r' Hin' Hr'. simpl in *.
  assert (r' = r) as ->; [|apply alike_refl]. apply list_elem_of_lookup in Hin' as [j Hj].
  assert (j = i) as ->; [|congruence]. eapply (NoDup_lookup (WakeRequest.id <$> WakeQueue.requests q)); [apply (qi_ids _ Hi)| |];
    rewrite list_lookup_fmap; [rewrite Hj|rewrite Hl]; simpl; by rewrite ?Hr'.
Qed.

Lemma respond_found id q r q' : respond id true q = (Some r, q') → r ∈ WakeQueue.requests q ∧ WakeRequest.id r = id.
Proof.
  unfold respond. destruct (position _ _) as [pos|] eqn:Hp; [|done].
  apply position_Some in Hp as (l1 & r' & l2 & Hl & <- & Hid). rewrite Hl, list_lookup_middle by done. intros [= -> _].
  split; [set_solver|]. by apply N.eqb_eq in Hid.
Qed.

Lemma wake_op_alike epoch r r' : alike r r' → wake_op epoch r' = wake_op epoch r.
Proof. intros (Hi & Ha & Hr & Hs). unfold wake_op. by rewrite Hi, Ha, Hr, Hs. Qed.
End queue.

(** ** Leases *)

Section leases.
Context (sha256 : list N → list N) (utc : Instant → Z).

(** A person's approval that covers an agent, a signature and a session: a wake request with them
    was approved with a pass that, at an earlier moment of the desk, was earned in this session
    for the very operation of approving this request; and the record of it, with the presence of
    that pass, was offered to the audit log. *)
Definition approved_for (d : Desk.t) (events : list wake_event) (agent signature : string) (epoch : N) (at_ : Instant) : Prop :=
  ∃ r pass named d0 kept, WakeApproved r pass at_ ∈ events ∧
    WakeRequest.agent_id r = agent ∧ WakeRequest.signature r = signature ∧
    WakeRequest.signature r = wake_signature sha256 (WakeRequest.agent_id r) (WakeRequest.opaque_resource_ref r) ∧
    GatePass.epoch pass = epoch ∧ GatePass.digest pass = OpDescriptor.digest sha256 (wake_op named r) ∧
    desk_reachable sha256 utc d0 ∧ rtc (desk_step sha256 utc) d0 d ∧ earned sha256 d0 pass ∧
    Recorded (approved_event utc at_ pass r) kept ∈ Desk.log d.

Record world_inv (w : World.t) : Prop := {
  wi_desk : desk_reachable sha256 utc (World.desk w);
  wi_queue : queue_inv sha256 (World.queue w);
  wi_approving r epoch : (r, epoch) ∈ World.approving w → known (World.queue w) r;
  wi_leases id l : LeaseStore.leases (World.store w) !! id = Some l →
    ∃ at_ l1 l2, World.events w = l1 ++ LeaseIssued id (Lease.binding l) at_ :: l2 ∧
      Lease.expires_at l = (at_ + secs WAKE_LEASE_TTL_SECS)%N ∧ (Lease.used l = false → LeaseTried id ∉ l1);
  wi_wakes signature a : LeaseStore.authorized_wakes (World.store w) !! signature = Some a →
    ∃ epoch, WakeAuthorization.session_id a = session_name epoch ∧
      approved_for (World.desk w) (World.events w) (WakeAuthorization.agent_id a) signature epoch (WakeAuthorization.authorized_at a);
  wi_issued id b at_ : LeaseIssued id b at_ ∈ World.events w →
    ∃ epoch at0, Binding.session_id b = session_name epoch ∧ (at_ ≤ at0 + secs WAKE_REQUEST_TTL_SECS)%N ∧
      approved_for (World.desk w) (World.events w) (Binding.agent_id b) (Binding.resource_signature b) epoch at0
}.


Lemma approved_for_mono d d' events events' agent signature epoch at_ :
  rtc (desk_step sha256 utc) d d' → events ⊆ events' →
  approved_for d events agent signature epoch at_ → approved_for d' events' agent signature epoch at_.
Proof.
  intros Hd He (r & pass & named & d0 & kept & H1 & H2 & H3 & H4 & H5 & H6 & H7 & H8 & H9 & H10).
  exists r, pass, named, d0, kept. split_and!; try done; [by apply He|by etrans|]. by apply (desk_steps_log _ _ _ _ Hd).
Qed.

(** What is appended to the events, apart from the leases and authorizations that go with it. *)
Lemma world_inv_next w d q s a l :
  world_inv w → rtc (desk_step sha256 utc) (World.desk w) d → queue_inv sha256 q → follows (World.queue w) q →
  (∀ r epoch, (r, epoch) ∈ a → (r, epoch) ∈ World.approving w ∨ known q r) →
  (∀ id x, LeaseStore.leases s !! id = Some x →
     (∃ x0, LeaseStore.leases (World.store w) !! id = Some x0 ∧ Lease.binding x = Lease.binding x0 ∧
        Lease.expires_at x = Lease.expires_at x0 ∧
        (Lease.used x = false → Lease.used x0 = false ∧ LeaseTried id ∉ l)) ∨
     (∃ at_, l = [LeaseIssued id (Lease.binding x) at_] ∧ Lease.expires_at x = (at_ + secs WAKE_LEASE_TTL_SECS)%N)) →
  (∀ signature a, LeaseStore.authorized_wakes s !! signature = Some a →
     LeaseStore.authorized_wakes (World.store w) !! signature = Some a ∨
     ∃ epoch, WakeAuthorization.session_id a = session_name epoch ∧
       approved_for d l (WakeAuthorization.agent_id a) signature epoch (WakeAuthorization.authorized_at a)) →
  (∀ id b at_, LeaseIssued id b at_ ∈ l →
     ∃ epoch at0, Binding.session_id b = session_name epoch ∧ (at_ ≤ at0 + secs WAKE_REQUEST_TTL_SECS)%N ∧
       approved_for (World.desk w) (World.events w) (Binding.agent_id b) (Binding.resource_signature b) epoch at0) →
  world_inv (World.mk d q s a (l ++ World.events w)).
Proof.
  intros [H0 _ H1 H2 H3 H4] Hd Hq Hf Hap Hl Ha Hi. split; simpl; [by apply (transitivity (R := rtc _) (y := World.desk w))|done| | | |].
  - intros r epoch [Hin|]%Hap; [|done]. eapply known_follows; [done|]. by eapply H1.
  - intros id x Hx. destruct (Hl id x Hx) as [(x0 & Hx0 & Hb & He & Hu)|(at_ & -> & He)].
    + destruct (H2 id x0 Hx0) as (at_ & l1 & l2 & -> & Hex & Htr). exists at_, (l ++ l1), l2. rewrite Hb, He, <-app_assoc.
      split_and!; [done..|]. intros Hus. apply Hu in Hus as [Hus Hn]. rewrite not_elem_of_app. auto.
    + exists at_, [], (World.events w). split_and!; [done..|]. intros _. apply not_elem_of_nil.
  - intros signature x Hs. destruct (Ha _ _ Hs) as [Hold|(epoch & ? & ?)].
    + destruct (H3 _ _ Hold) as (epoch & ? & ?). exists epoch. split; [done|]. eapply (approved_for_mono (World.desk w)); [done| |done]. set_solver.
    + exists epoch. split; [done|]. eapply (approved_for_mono d); [done| |done]. set_solver.
  - intros id b at_ [Hin|Hin]%elem_of_app; [destruct (Hi _ _ _ Hin) as (e & at0 & ? & ? & ?)|destruct (H4 _ _ _ Hin) as (e & at0 & ? & ? & ?)];
      exists e, at0; (split_and!; [done..|]); (eapply (approved_for_mono (World.desk w)); [done| |done]); set_solver.
Qed.

(** A step that leaves the leases as they were. *)
Lemma world_inv_quiet w d q a :
  world_inv w → rtc (desk_step sha256 utc) (World.desk w) d → queue_inv sha256 q → follows (World.queue w) q →
  (∀ r epoch, (r, epoch) ∈ a → (r, epoch) ∈ World.approving w ∨ known q r) →
  world_inv (World.mk d q (World.store w) a (World.events w)).
Proof.
  intros Hw Hd Hq Hf Hap. apply (world_inv_next w d q (World.store w) a []); try done; [|by left|by intros ??? ?%elem_of_nil].
  intros id x Hx. left. exists x. split_and!; [done..|]. intros ?. split; [done|apply not_elem_of_nil].
Qed.

(** A step of the leases alone. *)
Lemma world_inv_store w s l :
  world_inv w →
  (∀ id x, LeaseStore.leases s !! id = Some x →
     (∃ x0, LeaseStore.leases (World.store w) !! id = Some x0 ∧ Lease.binding x = Lease.binding x0 ∧
        Lease.expires_at x = Lease.expires_at x0 ∧
        (Lease.used x = false → Lease.used x0 = false ∧ LeaseTried id ∉ l)) ∨
     (∃ at_, l = [LeaseIssued id (Lease.binding x) at_] ∧ Lease.expires_at x = (at_ + secs WAKE_LEASE_TTL_SECS)%N)) →
  LeaseStore.authorized_wakes s = LeaseStore.authorized_wakes (World.store w) →
  (∀ id b at_, LeaseIssued id b at_ ∈ l →
     ∃ epoch at0, Binding.session_id b = session_name epoch ∧ (at_ ≤ at0 + secs WAKE_REQUEST_TTL_SECS)%N ∧
       approved_for (World.desk w) (World.events w) (Binding.agent_id b) (Binding.resource_signature b) epoch at0) →
  world_inv (World.with_store w s l).
Proof.
  intros Hw Hl Ha Hi. apply world_inv_next; [done|done|apply Hw|apply follows_refl|by left|done| |done].
  rewrite Ha. by left.
Qed.

(** ** What the steps do to the desk *)

Lemma record_desktop_event_steps contended e d :
  (contended = false → Desk.handle_free d) → rtc (desk_step sha256 utc) d (record_desktop_event contended e d).
Proof.
  intros Hf. unfold record_desktop_event. destruct contended; [done|]. destruct (Desk.unlocked d) eqn:Hu; [|done].
  apply rtc_once. apply desk_record; auto.
Qed.

Lemma wake_approve_steps pass id d k rest q s answer d' q' s' :
  Desk.tasks d ≡ₚ k :: rest → Desk.handle_free d →
  wake_approve utc pass id (Desk.with_tasks d rest) q s = (answer, d', q', s') → rtc (desk_step sha256 utc) d d'.
Proof.
  intros Hp Hf. assert (desk_step sha256 utc d (Desk.with_tasks d rest)) as H1 by (by eapply desk_abandon).
  unfold wake_approve. destruct (Desk.unlocked _) eqn:Hu; simpl; [|by intros [= _ <- _ _]; apply rtc_once].
  repeat case_match; intros [= _ <- _ _]; first [by apply rtc_once|eapply rtc_l; [exact H1|apply rtc_once, desk_record; done]].
Qed.

(** A checkout, whatever its outcome. *)
Lemma checkout_leases now lease_id b s id x :
  LeaseStore.leases (LeaseStore.checkout now lease_id b s).2 !! id = Some x →
  ∃ x0, LeaseStore.leases s !! id = Some x0 ∧ Lease.binding x = Lease.binding x0 ∧ Lease.expires_at x = Lease.expires_at x0 ∧
    (Lease.used x = false → Lease.used x0 = false ∧ id ≠ lease_id).
Proof.
  unfold LeaseStore.checkout. destruct (LeaseStore.leases s !! lease_id) as [lease|] eqn:Hl.
  - destruct (Lease.expires_at lease <? now)%N; simpl.
    { rewrite lookup_delete_Some. intros [Hne Hx]. exists x. auto. }
    destruct (Lease.used lease) eqn:Hu; simpl.
    { intros Hx. exists x. split_and!; [done..|]. intros Hux. split; [done|]. intros ->. congruence. }
    case_bool_decide; simpl.
    { rewrite lookup_delete_Some. intros [Hne Hx]. exists x. auto. }
    rewrite lookup_insert_Some. intros [[<- <-]|[Hne Hx]]; [|exists x; auto]. exists lease. by split_and!.
  - simpl. intros Hx. exists x. split_and!; [done..|]. intros ?. split; [done|]. intros ->. congruence.
Qed.

Lemma checkout_wakes now lease_id b s :
  LeaseStore.authorized_wakes (LeaseStore.checkout now lease_id b s).2 = LeaseStore.authorized_wakes s.
Proof. unfold LeaseStore.checkout. by repeat case_match. Qed.

Lemma world_inv_tried w now lease_id b :
  world_inv w → world_inv (World.with_store w (LeaseStore.checkout now lease_id b (World.store w)).2 [LeaseTried lease_id]).
Proof.
  intros Hw. apply (world_inv_store w); [done| |apply checkout_wakes|].
  - intros id x Hx. left. apply checkout_leases in Hx as (x0 & ? & ? & ? & Hu). exists x0. split_and!; [done..|].
    intros [? Hne]%Hu. split; [done|]. intros [= ->]%list_elem_of_singleton. done.
  - intros id b' at_ Hin. by apply list_elem_of_singleton in Hin.
Qed.

Lemma has_authorized_wake_Some now signature agent session s :
  LeaseStore.has_authorized_wake now signature agent session s = true →
  ∃ a, LeaseStore.authorized_wakes s !! signature = Some a ∧ WakeAuthorization.agent_id a = agent ∧
    WakeAuthorization.session_id a = session ∧ (now ≤ WakeAuthorization.authorized_at a + secs WAKE_REQUEST_TTL_SECS)%N.
Proof.
  unfold LeaseStore.has_authorized_wake. case_match; [|done]. rewrite !andb_true_iff, !String.eqb_eq, N.leb_le.
  intros [[? ?] ?]. eexists. split_and!; [done..|]. lia.
Qed.

(** An approval, on every branch. *)
Lemma wake_approve_cases pass id d q s answer d' q' s' :
  wake_approve utc pass id d q s = (answer, d', q', s') →
  (q' = q ∨ q' = (respond id true q).2) ∧
  match answer with
  | Ok r => r ∈ WakeQueue.requests q ∧ WakeRequest.id r = id ∧
      s' = LeaseStore.record_authorized_wake (Desk.now d) (WakeRequest.signature r) (WakeRequest.agent_id r)
             (session_name (GatePass.epoch pass)) s ∧
      Recorded (approved_event utc (Desk.now d) pass r) (Desk.auditing d) ∈ Desk.log d'
  | Err _ => s' = s
  end.
Proof.
  unfold wake_approve. destruct (Desk.unlocked d); [|by intros [= <- _ <- <-]; auto]. simpl.
  destruct (Desk.epoch d =? GatePass.epoch pass)%N; [|by intros [= <- _ <- <-]; auto]. simpl.
  destruct (respond id true q) as [[r|] q0] eqn:Hr; intros [= <- <- <- <-]; (split; [by right|]); [|done].
  apply respond_found in Hr as [Hin Hid]. split_and!; [done..|left].
Qed.

Lemma world_inv_approve w r epoch pass rest tasks answer d q s :
  world_inv w → World.approving w ≡ₚ (r, epoch) :: rest → Desk.tasks (World.desk w) ≡ₚ HoldingPass pass :: tasks →
  GatePass.digest pass = OpDescriptor.digest sha256 (wake_op epoch r) → Desk.handle_free (World.desk w) →
  wake_approve utc pass (WakeRequest.id r) (Desk.with_tasks (World.desk w) tasks) (World.queue w) (World.store w) = (answer, d, q, s) →
  world_inv (World.mk d q s rest
    (match answer with Ok r => [WakeApproved r pass (World.now w)] | Err _ => [] end ++ World.events w)).
Proof.
  intros Hw Ha Hp Hdig Hf Happ. pose proof (wake_approve_steps _ _ _ _ _ _ _ _ _ _ _ Hp Hf Happ) as Hd.
  destruct (wake_approve_cases _ _ _ _ _ _ _ _ _ Happ) as [Hq Hcase].
  assert (queue_inv sha256 q ∧ follows (World.queue w) q) as [Hqi Hqf].
  { destruct Hq as [->| ->]; [split; [apply Hw|apply follows_refl]|split; [apply respond_inv, Hw|apply respond_follows]]. }
  assert (∀ r' e', (r', e') ∈ rest → (r', e') ∈ World.approving w) as Hrest by (intros r' e' Hin; rewrite Ha; by right).
  destruct answer as [r'|m].
  2:{ subst s. apply (world_inv_quiet w); auto. }
  destruct Hcase as (Hin & Hid & -> & Hrec). apply world_inv_next; [done..|auto| | |].
  - intros j x Hx. left. exists x. split_and!; [done..|]. intros ?. split; [done|]. set_solver.
  - intros signature a. simpl. rewrite lookup_insert_Some. intros [[<- <-]|[_ Hx]]; [|by left]. right. exists (GatePass.epoch pass).
    split; [done|]. simpl. destruct (held_pass_earned sha256 utc (World.desk w) pass) as (d0 & H0 & H1 & He);
      [apply Hw|rewrite Hp; left|]. exists r', pass, epoch, d0, (Desk.auditing (World.desk w)).
    split_and!; try done; [left|by apply (qi_signed _ _ (wi_queue _ Hw))| |by etrans].
    rewrite Hdig. f_equal. symmetry. apply wake_op_alike. assert ((r, epoch) ∈ World.approving w) as Hina by (rewrite Ha; left).
    by apply (wi_approving _ Hw _ _ Hina).
  - intros j b at_ Hin'. set_solver.
Qed.

Lemma wake_step_inv w w' : world_step sha256 utc w w' → world_inv w → world_inv w'.
Proof.
  destruct 1 as [d Hd|now Hn|now agent ref Hn|now agent Hn|contended r d q Hf Hr|id r Hr|r epoch Hin|r epoch denied rest Ha|r epoch rest Ha
    |r epoch pass rest tasks answer d q s Ha Hp Hdig Hf Happ|id p r s Hnew Hp|id p e s Hp|lease_id agent ref operation args destination Hne|];
    intros Hw.
  - apply (world_inv_quiet w); [done|by apply rtc_once|apply Hw|apply follows_refl|by left].
  - apply (world_inv_quiet w); [done..|apply queue_inv_rates, Hw|by apply follows_sub|by left].
  - apply (world_inv_quiet w); [done..|apply enqueue_inv, Hw|apply enqueue_follows|by left].
  - apply (world_inv_quiet w); [done..|apply queue_inv_rates, Hw|by apply follows_sub|by left].
  - injection Hr as <- <-. apply (world_inv_quiet w); [done|by apply record_desktop_event_steps|apply respond_inv, Hw|apply respond_follows|by left].
  - apply (world_inv_quiet w); [done..|apply Hw|apply follows_refl|]. intros r' e' [[= -> ->]|]%elem_of_cons; [right|by left].
    unfold wake_respond_start in Hr. destruct (peek id _) as [r0|] eqn:Hpk; [|done]. injection Hr as ->.
    by apply (peek_known sha256) in Hpk; [|apply Hw].
  - apply (world_inv_quiet w); [done|by apply rtc_once, desk_gate|apply Hw|apply follows_refl|by left].
  - apply (world_inv_quiet w); [done|by apply rtc_once, desk_handover|apply Hw|apply follows_refl|]. intros r' e' Hin. left. rewrite Ha. by right.
  - apply (world_inv_quiet w); [done..|apply Hw|apply follows_refl|]. intros r' e' Hin. left. rewrite Ha. by right.
  - by eapply world_inv_approve.
  - unfold wake_prepare_access in Hp. destruct (LeaseStore.has_authorized_wake _ _ _ _ _) eqn:Hauth; [|done]. simpl in Hp.
    apply has_authorized_wake_Some in Hauth as (a & Ha & Hag & Hse & Hnow).
    destruct (String.eqb _ "DIRECT"); [|repeat case_match; done]. injection Hp as <- <-.
    apply (world_inv_store w); [done| |done|].
    + intros j x. simpl. rewrite lookup_insert_Some. intros [[<- <-]|[_ Hx]]; [right; eexists; by split|]. left. exists x.
      split_and!; [done..|]. intros ?. split; [done|]. intros Hin. by apply list_elem_of_singleton in Hin.
    + intros j b at_ Hin. apply list_elem_of_singleton in Hin. injection Hin as -> -> ->. simpl.
      destruct (wi_wakes _ Hw _ _ Ha) as (e & He & Happ). exists e, (WakeAuthorization.authorized_at a). split_and!; [congruence|done|].
      by rewrite Hag in Happ.
  - assert (s = World.store w) as -> by (unfold wake_prepare_access in Hp; repeat case_match; congruence).
    apply (world_inv_quiet w); [done..|apply Hw|apply follows_refl|by left].
  - unfold require_lease. rewrite Hne. by apply world_inv_tried.
  - apply (world_inv_store w); [done| |done|].
    + intros id x. simpl. rewrite map_lookup_filter_Some. intros [Hx _]. left. exists x. split_and!; [done..|]. intros ?. split; [done|].
      apply not_elem_of_nil.
    + intros id b at_ Hin. by apply elem_of_nil in Hin.
Qed.

Lemma new_world_inv : world_inv World.new.
Proof.
  split; simpl.
  - apply rtc_refl.
  - split; simpl; try (by constructor); try (by intros ? ?%elem_of_nil); [|lia]. intros s. rewrite lookup_empty, elem_of_nil.
    split; [by intros [? ?]|done].
  - intros r epoch Hin. by apply elem_of_nil in Hin.
  - intros id l. by rewrite lookup_empty.
  - intros s a. by rewrite lookup_empty.
  - intros id b at_ Hin. by apply elem_of_nil in Hin.
Qed.

Lemma world_reachable_inv w : world_reachable sha256 utc w → world_inv w.
Proof.
  unfold world_reachable. intros Hr. pose proof new_world_inv as H0. revert H0.
  induction Hr as [|w1 w2 w3 Hs _ IH]; [done|]. intros H1. by eapply IH, wake_step_inv.
Qed.

(** In whatever order wake requests, answers, pruning and counting interleave, the pending requests
    have distinct signatures and identifiers, so that a request that repeats a pending one is
    never stacked; the index holds exactly the pending signatures, each the signature of its
    request's agent and resource, and there are never more than 256. *)
Theorem wake_requests_coalesce w :
  world_reachable sha256 utc w →
  NoDup (WakeRequest.signature <$> WakeQueue.requests (World.queue w)) ∧
  NoDup (WakeRequest.id <$> WakeQueue.requests (World.queue w)) ∧
  (∀ s, is_Some (WakeQueue.by_signature (World.queue w) !! s) ↔ s ∈ WakeRequest.signature <$> WakeQueue.requests (World.queue w)) ∧
  length (WakeQueue.requests (World.queue w)) ≤ WAKE_MAX_PENDING.
Proof. intros Hr%world_reachable_inv. destruct (wi_queue _ Hr). auto. Qed.


(** ** Findings *)

(** The arguments are bound through their join, so a lease for one argument with a bar in it
    serves for two arguments. *)
Lemma lease_arguments_ambiguous now epoch lease_id agent ref operation destination s :
  require_lease sha256 now epoch lease_id agent ref operation ["a|b"] destination s =
  require_lease sha256 now epoch lease_id agent ref operation ["a"; "b"] destination s.
Proof. reflexivity. Qed.

(** Agents and resources with a bar in their names share signatures. *)
Lemma wake_signature_ambiguous : wake_signature sha256 "a|b" "c" = wake_signature sha256 "a" "b|c".
Proof. reflexivity. Qed.
End leases.

(** ** A sample run *)

Module SampleWake.
Import SampleDesk.
Definition unlocked : World.t := World.with_desk World.new open.
Definition asked : World.t := World.with_queue unlocked (enqueue sha 0%N "agent" "res" (World.queue unlocked)).2.
Definition request_ : WakeRequest.t := WakeRequest.mk 1 "agent" "res" (wake_signature sha "agent" "res") 0%N (Some 0%N).

(** The gate of the approval, behind a click. *)
Definition click : ClickRequest.t := wake_click sha 1 request_.
Definition digest : OpDigest := OpDescriptor.digest sha (wake_op 1 request_).
Definition gating : Desk.t := gate_start click open.
Definition gated : Desk.t := (gate_begin sha click 1 1%N bare (Desk.with_tasks gating [])).2.
Definition shown : Desk.t := click_insert utc click 1 false (secs 120) (ForGate digest 1 1) (Desk.with_tasks gated []).
Definition consented : Desk.t := (respond_start sha utc 1 None shown).2.
Definition pass : GatePass.t := pass_of PresenceAudit.click digest 1 1.
Definition passed_ : Desk.t := click_done (ForGate digest 1 1) 1 (click_outcome true) (Desk.with_tasks consented []).

Definition answer : result WakeRequest.t string * Desk.t * WakeQueue.t * LeaseStore.t :=
  wake_approve utc pass 1 (Desk.with_tasks passed_ []) (World.queue asked) (World.store asked).
Definition approved : World.t := World.mk answer.1.1.2 answer.1.2 answer.2 [] [WakeApproved request_ pass 0%N].

Lemma then_ w w' : world_reachable sha utc w → world_step sha utc w w' → world_reachable sha utc w'.
Proof. intros Hr Hs. by eapply rtc_r. Qed.

Lemma asked_reachable : world_reachable sha utc asked.
Proof.
  eapply then_; [|by apply (world_enqueue sha utc unlocked 0%N "agent" "res")].
  eapply then_; [apply rtc_refl|]. by apply world_desk, desk_publish.
Qed.
End SampleWake.

Lemma wake_requests_coalesce_witness :
  length (WakeQueue.requests (World.queue SampleWake.asked)) = 1 ∧
  NoDup (WakeRequest.signature <$> WakeQueue.requests (World.queue SampleWake.asked)).
Proof.
  split; [reflexivity|]. exact (proj1 (wake_requests_coalesce SampleDesk.sha SampleDesk.utc SampleWake.asked SampleWake.asked_reachable)).
Defined.


(** The limits are compared before, and the attempt counted after, the request is queued: eleven
    requests of one agent that arrive together all pass the limit of ten. *)
Lemma wake_rate_race :
  let refs := (pretty : nat → string) <$> seq 1 11 in
  let queued l := foldl (λ q r, (enqueue SampleDesk.sha 0%N "a" r q).2) WakeQueue.new l in
  forallb (λ k, negb (over_rate "a" (queued (take k refs)))) (seq 0 11) = true ∧
  WAKE_MAX_PER_AGENT < length (WakeQueue.requests (queued refs)).
Proof. vm_compute. split; [reflexivity|lia]. Qed.
