(* ===== verification/Session.v ===== *)
(** * Session: how long the vault stays unlocked

    The desktop's session timer, its monitor, and the change of its limits.  A [try_lock] that
    finds the lock taken is an argument.  [session_step] is the timer with its monitor and the
    vault's handle, which others may hold; time runs past a check that is due. *)
From Stdlib Require Import ZifyN ZifyNat ZifyBool.
From stdpp Require Import pretty.
From S2P Require Import Prelude Text AuditTypes Fs Crypto Storage PresenceOp Gate Coordinator Scopes Approvals Clicks DesktopGate.

Definition DEFAULT_IDLE_TIMEOUT_SECS : N := 15 * 60.
Definition DEFAULT_ABSOLUTE_SESSION_SECS : N := 8 * 60 * 60.

(** ** The timer *)

Module SessionTimer.
Record t := mk {
  last_activity : Instant;
  unlocked_at : option Instant;
  idle_timeout_secs : N;
  absolute_session_secs : N;
  epoch : N
}.
Definition new (now : Instant) : t := mk now None DEFAULT_IDLE_TIMEOUT_SECS DEFAULT_ABSOLUTE_SESSION_SECS 0.




Definition set_limits (idle_secs absolute_secs : N) (s : t) : t :=
  mk (last_activity s) (unlocked_at s) (N.max idle_secs 1) (N.max absolute_secs 1) (epoch s).

Definition limits (s : t) : N * N := (idle_timeout_secs s, absolute_session_secs s).

(** Whole seconds. *)
Definition elapsed_secs (now since : Instant) : N := (now - since) / 1000000000.

Definition remaining_secs (now : Instant) (unlocked_contended activity_contended : bool) (s : t) : option N * option N :=
  match (if unlocked_contended then None else unlocked_at s) with
  | None => (None, None)
  | Some unlocked =>
      if activity_contended then (None, None)
      else (Some (idle_timeout_secs s - elapsed_secs now (last_activity s))%N,
            Some (absolute_session_secs s - elapsed_secs now unlocked)%N)
  end.
End SessionTimer.

(** One turn of the session monitor: the reason to lock. *)
Definition monitor_check (remaining : option N * option N) : option string :=
  let idle_remaining := default 0%N remaining.1 in
  let absolute_remaining := default 0%N remaining.2 in
  if (idle_remaining =? 0)%N || (absolute_remaining =? 0)%N
  then Some (if (absolute_remaining =? 0)%N then "session-cap" else "idle-timeout")
  else None.

(** ** Changing the limits *)

Definition limits_op (s : SessionTimer.t) (idle_secs absolute_secs : N) : OpDescriptor.t :=
  let '(idle_now, absolute_now) := SessionTimer.limits s in
  let op := OpDescriptor.field (OpDescriptor.new "session_limits") "idle_secs" (pretty idle_secs) in
  let op := OpDescriptor.field op "absolute_secs" (pretty absolute_secs) in
  OpDescriptor.bind op "from" (pretty idle_now +:+ ("/" +:+ pretty absolute_now)).

Definition widens (s : SessionTimer.t) (idle_secs absolute_secs : N) : bool :=
  let '(idle_now, absolute_now) := SessionTimer.limits s in
  (idle_now <? N.max idle_secs 1)%N || (absolute_now <? N.max absolute_secs 1)%N.

(** [session_set_limits_impl] up to its gate: done, or the click to be gated. *)
Definition limits_start (sha256 : list N → list N) (idle_secs absolute_secs : N) (s : SessionTimer.t) :
    SessionTimer.t + ClickRequest.t :=
  if widens s idle_secs absolute_secs
  then inr (ClickRequest.desktop sha256 "Extend session limits" AuditAction.VaultInfo (limits_op s idle_secs absolute_secs))
  else inl (SessionTimer.set_limits idle_secs absolute_secs s).

Definition limits_event (utc : Instant → Z) (d : Desk.t) (decision : AuditDecision.t) : AuditEvent.t :=
  AuditEvent.mk (utc (Desk.now d)) AuditAction.VaultInfo decision "desktop-ui" None None None None
    (Some "session-limits-increase") None None None.

(** With the pass. *)
Definition limits_finish (utc : Instant → Z) (pass : GatePass.t) (idle_secs absolute_secs : N) (d : Desk.t) (s : SessionTimer.t) :
    result unit string * Desk.t * SessionTimer.t :=
  let '(outcome, d') := with_gated_handle pass (Ok (limits_event utc d AuditDecision.Allowed)) d in
  match outcome with
  | Ok _ => (Ok tt, d', SessionTimer.set_limits idle_secs absolute_secs s)
  | Err e =>
      (Err (GatedError.message e),
       record_gated_outcome pass outcome (limits_event utc d AuditDecision.Denied) (λ _, limits_event utc d AuditDecision.Denied) d', s)
  end.

(** ** The timer and its monitor

    The handle's lock is held by others for as long as they like.  The monitor sleeps, checks,
    and to lock waits for the handle; then it drains what was open, still holding it.  An unlock
    publishes the handle and starts a new monitor later, when the servers run; the start aborts
    the monitor there is.  [since] and [started] are ghosts: the times of the last unlock and of
    the last start. *)

Module Monitor.
Inductive t := Off | Sleeping (until : Instant) | Waiting (reason : string) | Draining.
End Monitor.

Module Session.
Record t := mk {
  now : Instant;
  timer : SessionTimer.t;
  unlocked : bool;             (* whether there is a handle *)
  monitor : Monitor.t;
  held : bool;                 (* another task holds the handle's lock *)
  starts : nat;                (* unlocks whose [restart_session_monitor] is still to come *)
  since : Instant;
  started : Instant
}.
End Session.










(** A session of a minute that nobody touches: the monitor sleeps past its end, then waits while
    another task holds the handle, and locks when it is given back. *)
Module SampleSession.
Definition timer : SessionTimer.t := SessionTimer.mk 10%N (Some 10%N) 600 60 1.


End SampleSession.


(** The limits of a session are only widened behind the presence gate: without a pass a change
    lowers both limits or leaves them, and with one it happens only while the vault is unlocked in
    the session of the pass, and its record is offered to the audit log. *)
Theorem widening_needs_a_pass sha256 utc idle_secs absolute_secs s :
  (∀ s', limits_start sha256 idle_secs absolute_secs s = inl s' →
     (SessionTimer.idle_timeout_secs s' ≤ SessionTimer.idle_timeout_secs s ∧
      SessionTimer.absolute_session_secs s' ≤ SessionTimer.absolute_session_secs s)%N) ∧
  (∀ pass d r d' s', limits_finish utc pass idle_secs absolute_secs d s = (r, d', s') → s' ≠ s →
     r = Ok tt ∧ Desk.unlocked d = true ∧ Desk.epoch d = GatePass.epoch pass ∧ Released pass ∈ Desk.log d' ∧
     ∃ e kept, Recorded e kept ∈ Desk.log d' ∧ AuditEvent.presence e = Some (GatePass.presence pass)).
Proof.
  split.
  - intros s'. unfold limits_start, widens, SessionTimer.limits. destruct (_ || _) eqn:Hw; [done|]. intros [= <-]. simpl.
    apply orb_false_iff in Hw as [H1%N.ltb_ge H2%N.ltb_ge]. done.
  - intros pass d r d' s'. unfold limits_finish, with_gated_handle. destruct (Desk.unlocked d); simpl; [|by intros [= _ _ <-]].
    destruct (N.eqb_spec (Desk.epoch d) (GatePass.epoch pass)); simpl; [|by intros [= _ _ <-]].
    intros [= <- <- <-] _. split_and!; [done..|simpl; set_solver|]. eexists _, _. split; [left|done].
Qed.

Lemma widening_needs_a_pass_witness :
  let s := SessionTimer.new 0%N in
  let s' := SessionTimer.set_limits 60 600 s in
  (SessionTimer.idle_timeout_secs s' ≤ SessionTimer.idle_timeout_secs s)%N.
Proof.
  intros s s'.
  exact (proj1 (proj1 (widening_needs_a_pass (λ l, l) (λ _, 0%Z) 60 600 s) s' eq_refl)).
Defined.

(** ** Findings *)

(** The monitor wants to lock a vault that is locked already, at every check. *)
Lemma monitor_locks_when_locked now b1 b2 s :
  SessionTimer.unlocked_at s = None → monitor_check (SessionTimer.remaining_secs now b1 b2 s) = Some "session-cap".
Proof. intros Hu. unfold SessionTimer.remaining_secs. rewrite Hu. by destruct b1. Qed.

(** It also locks an unlocked vault, whatever the limits, when it finds a timestamp's lock taken. *)
Lemma monitor_locks_on_contention now b s :
  monitor_check (SessionTimer.remaining_secs now b true s) = Some "session-cap" ∧
  monitor_check (SessionTimer.remaining_secs now true b s) = Some "session-cap".
Proof. split; [|done]. unfold SessionTimer.remaining_secs. by destruct b, (SessionTimer.unlocked_at s). Qed.

(** A lock does not leave the audit record it means to leave. *)
Lemma lock_is_not_recorded utc reason drained d :
  Desk.log (lock_end utc reason drained d) = Desk.log (clear_ops drained d).
Proof. done. Qed.
